(* ===== verification/_CoqProject ===== *)
-Q . S2P
Prelude.v
GoStd.v
GoNum.v
GoGlob.v
GoPath.v
GoNet.v
GoJson.v
GoUnicode.v
GoJsonTorn.v
BlockProto.v
BlockCache.v
MemStore.v
DiskStore.v
Storage.v
StorageInv.v
StorageWalk.v
StorageGC.v
StorageSession.v
StorageQuery.v
HealthEngine.v
Interpolate.v
AuthScope.v
ServerAuth.v
AuthSafety.v
AuthExample.v
Jwks.v
Yamux.v
YamuxFlow.v
YamuxLive.v
YamuxSched.v
YamuxSend.v
HubRegistry.v
HubStore.v
HubSync.v
HostPolicy.v
Activity.v
ActivityLog.v
ActivityCrash.v
ActivityInv.v
ActivityTail.v
Socks5.v
Socks5Claims.v
Socks5Route.v
Ingress.v
IngressTable.v
IngressRecover.v
IngressFront.v
IngressRestart.v
IngressTunnel.v
EgressPolicy.v
EgressRules.v
EgressRelay.v
EgressSafe.v
Supervisor.v
ComposeDoc.v
ComposeLoad.v
ComposeMerge.v
ComposeExtends.v
ComposeOrder.v
ComposePlan.v
ComposeExample.v
