(* ===== verification/Prelude.v ===== *)
(** * A verification library of cornus

    cornus builds, stores and runs container images.  A server holds an OCI registry
    and deploys to container runtimes; clients, sidecars and other replicas talk to it
    over HTTP and over sessions that a stream multiplexer carries; mounts are served
    over such sessions through a block protocol and a block cache.

    Each component is translated from its Go source into executable definitions
    with the source's names, and the theorems about it are in its file or in the
    files named after it.  A function returning an error returns [res]; code with
    state passes it explicitly or runs in a small state monad; system calls that
    can fail take their outcome from a schedule, so that a theorem for all schedules
    covers every failure and crash; goroutines that share state are transition
    systems whose steps are the critical sections of the code.  Integers are [Z],
    with their width and wrap-around written out where the code can reach it.
    Third-party code is a parameter of the definitions that call it.

    ** The standard library (this file, GoStd, GoNum, GoGlob, GoPath, GoNet, GoJson,
       GoUnicode, GoJsonTorn)

    Byte and list arithmetic, big-endian integers and the [res] monad; package
    [strings] with UTF-8 decoding, [strconv], hex, SHA-256; binary64 and
    [time.ParseDuration]; [path.Match]; [path/filepath] and links over a file tree; addresses and prefixes of
    [net], which read back as printed; letter case with Unicode's tables as a parameter;
    [encoding/json] in both directions, and what it makes of text cut short.

    ** Block protocol (BlockProto) - pkg/wire/blockproto.go, blockmsg.go

    Framing, message codecs and the HELLO negotiation.  Frames and messages read back
    as written and the two ends of a handshake agree.

    ** Block cache (BlockCache, MemStore, DiskStore) - pkg/blockcache

    The read path over the [Store] interface and its three stores.  [ReadAt] returns
    the origin's bytes whatever the store and the other goroutines do, and returns
    all of them; stores answer only what was written, through failures and crashes at
    any system call.  The loops' fuel is one unit per byte left, proved enough.

    ** Registry storage (Storage, StorageInv, StorageWalk, StorageGC, StorageSession,
       StorageQuery) - pkg/storage

    The content-addressable store over an object store whose calls fail by schedule.
    Blobs always sit under the hash of their content, pushes are crash safe, the
    collector terminates, keeps what a pull can need and removes the rest, and
    listings are exact.

    ** Health probes (HealthEngine) - pkg/deploy/healthengine

    Plans, the probe loop and the engine with its concurrent loops, against Docker's
    health states.

    ** Compose variables (Interpolate) - pkg/compose/interpolate.go

    Expansion of [${VAR...}] forms and the syntax of env files, with a printer and the
    round trips.  Expansion's fuel is the length of the string, proved enough.

    ** Authentication (AuthScope, ServerAuth, AuthSafety, AuthExample, Jwks) -
       pkg/authtoken, pkg/authscope, pkg/server

    Scopes, the scope map, the server's verifier chain, its middleware, the token
    exchange and key rotation.  go-jose is the class [Jose] with the laws [JoseSpec];
    AuthExample has an instance.  What reaches a handler is entitled to it, an
    exchanged credential is bounded, and fetches of keys are bounded and find rotated
    keys.

    ** Stream multiplexer (Yamux, YamuxFlow, YamuxLive, YamuxSched, YamuxSend) -
       third_party/yamux

    A stream's windows and states and the send scheduler.  Two ends joined by a wire
    deliver every byte once and in order under every interleaving, never stall, never
    overrun a window; the scheduler keeps each stream's order, is bounded, and starves
    no class.

    ** Hub (HubRegistry, HubStore, HubSync) - pkg/hub

    The registry of services on a replica, its store in Redis with the queue of pending
    writes, and the views replicas have of each other.  The registry is the list of
    registrations in force, a store that reports no problem is exact, and one pass
    after Redis answers again makes it so.

    ** Host policy and volumes (HostPolicy) - pkg/deploy/hostpolicy,
       pkg/deploy/internal/hostrun

    Which bind mounts a deployment may have, and the directories of its volumes.  What
    passes the policy is confined to the allowed prefixes, links followed, and removing a
    volume touches no other.

    ** Activity log (Activity, ActivityLog, ActivityCrash, ActivityInv, ActivityTail) -
       pkg/activity, pkg/server/activity.go

    Events as JSON lines, the recorder, rotation, reading back, recovery at startup and the
    follower.  Through crashes that keep any part of what was not synced, every mount there is
    has an open record and a starting server removes it; a follower delivers each record once.

    ** SOCKS5 proxy (Socks5, Socks5Claims, Socks5Route) - pkg/socks5

    The client's split tunnel: claims on names, published listeners, recovery after a
    takeover, resolution rules, the protocol and a connection.  Labels follow the most recent
    live claim, replayed claims keep their precedence in any order, what a rule matches
    stays inside, and a client reaches the target it named.

    ** Ingress front door (Ingress, IngressTable, IngressRecover, IngressFront,
       IngressRestart, IngressTunnel) - pkg/ingressroute, pkg/ingressmux,
       pkg/server/ingress.go, ingress_tunnel.go, deploy_tunnel.go, pkg/api/deploy.go

    Which hosts, path and port a deployment asks for, the routing table, the files that
    let it survive a restart, and public tunnels.  Through any interleaving, cut writes and
    crashes a request reaches only what a deployment asked for, a restart brings the
    routes back, and aliases live as long as their tunnels.

    ** Egress (EgressPolicy, EgressRules, EgressRelay, EgressSafe) - pkg/egresspolicy,
       pkg/caretaker/egress.go, pkg/server/egress_relay.go, pkg/deploywire/egress.go

    Routing policies as rules and as scripts of an arbitrary engine, and the caretaker,
    the server and the client a workload's connection passes.  Rules mean what the documented
    grammar says, every answer is a route, a dial is attempted only from where the
    policy sends a destination, a request ends in the dial of its route, and
    without a verdict there is none.

    ** Supervisor (Supervisor) - pkg/supervisor

    The long-lived goroutines of agent, server and caretaker as a state machine any number
    of callers and children interleave.  Count, registry, records and idle hook agree with
    the children, a child to be restarted is never lost, and a shutdown ends them all.

    ** Compose (ComposeDoc, ComposeLoad, ComposeMerge, ComposeExtends, ComposeOrder,
       ComposePlan, ComposeExample) - pkg/compose/types.go, merge.go, extends.go, include.go,
       project.go

    The typed documents with every merge rule, [extends], [include] and several files, profiles,
    the dependency order and the blocks services inherit.  Loading is the merge along the chains
    of bases and over the included models, a later file wins field by field, a view has what the
    active profiles need, and the order has dependencies first or reports a cycle.  Decoding one
    file and translating one service are parameters; the fuel is the number of services, or of
    files, that can be reached, and is proved enough.

    ** Not modelled

    Calls to container runtimes, Kubernetes, BuildKit and external services, file system
    watching, process and terminal handling, HTTP and WebSocket plumbing: their
    behaviour is in code outside the repository.  Text of error and log messages is
    left out unless a theorem is about it.  Within the modelled components, what is
    left out is named in the header of the file. *)

From stdpp Require Import base list gmap strings numbers.
From Stdlib Require Import ZArith Lia.
From Stdlib.Strings Require Import Byte.

Declare Scope go_scope.
Delimit Scope go_scope with go.
Open Scope Z_scope.

(** ** Hint databases and tactics of the development *)

Create HintDb cornus discriminated.

(** [split_if] splits the first conditional or match of the goal or of a
    hypothesis on its scrutinee, keeping the equation. *)
Ltac split_if :=
  match goal with
  | |- context [ if ?b then _ else _ ] => destruct b eqn:?
  | H : context [ if ?b then _ else _ ] |- _ => destruct b eqn:?
  end.

(** [zbool] turns the boolean comparisons of the context into propositions. *)
Ltac zbool :=
  repeat match goal with
  | H : (_ && _)%bool = true |- _ => apply andb_true_iff in H; destruct H
  | H : (_ || _)%bool = false |- _ => apply orb_false_iff in H; destruct H
  | H : negb _ = true |- _ => apply negb_true_iff in H
  | H : negb _ = false |- _ => apply negb_false_iff in H
  | H : (_ <? _) = true |- _ => apply Z.ltb_lt in H
  | H : (_ <? _) = false |- _ => apply Z.ltb_ge in H
  | H : (_ <=? _) = true |- _ => apply Z.leb_le in H
  | H : (_ <=? _) = false |- _ => apply Z.leb_gt in H
  | H : (_ =? _) = true |- _ => apply Z.eqb_eq in H
  | H : (_ =? _) = false |- _ => apply Z.eqb_neq in H
  end.

(** [zcase] closes the arithmetic side of a branch after [zbool]. *)
Ltac zcase := zbool; try lia.

(** [compute_side] decides a closed arithmetic side condition by evaluation. *)
Ltac compute_side :=
  repeat match goal with
  | |- Forall _ _ => constructor
  | |- _ /\ _ => split
  | |- _ <= _ < _ => split
  end; first [ reflexivity | vm_compute; intuition congruence ].

(** ** Fallible results

    A Go function returning [(T, error)] returns [res E T] here: [Ok] is the
    nil-error return, [Err] the error return. *)

Inductive res (E A : Type) : Type :=
| Ok (a : A)
| Err (e : E).
Arguments Ok {E A} a.
Arguments Err {E A} e.

#[export] Instance res_ret E : MRet (res E) := fun A a => Ok a.
#[export] Instance res_bind E : MBind (res E) := fun A B f r =>
  match r with Ok a => f a | Err e => Err e end.

Definition is_ok {E A} (r : res E A) : bool :=
  match r with Ok _ => true | Err _ => false end.

(** Code that mutates a state and may fail: the state is what the failure left. *)
Definition stm (S E A : Type) : Type := S -> res E A * S.

#[export] Instance stm_ret S E : MRet (stm S E) := fun A a s => (Ok a, s).
#[export] Instance stm_bind S E : MBind (stm S E) := fun A B f g s =>
  match g s with (Ok a, s') => f a s' | (Err e, s') => (Err e, s') end.

Definition throw {S E A} (e : E) : stm S E A := fun s => (Err e, s).

(** The call's result as a value, where the code inspects or ignores it. *)
Definition attempt {S E A} (m : stm S E A) : stm S E (res E A) := fun s =>
  let '(r, s') := m s in (Ok r, s').

(** A loop over a list that threads an accumulator and stops at the first error. *)
Fixpoint foldM {S E A B} (f : B -> A -> stm S E B) (l : list A) (acc : B) : stm S E B :=
  match l with
  | [] => mret acc
  | x :: l => f acc x ≫= foldM f l
  end.

(** What holds of the result and the state a computation leaves. *)
Definition wp {S E A} (m : stm S E A) (Q : res E A -> S -> Prop) (s : S) : Prop :=
  Q (fst (m s)) (snd (m s)).

Lemma wp_mono {S E A} (m : stm S E A) (Q Q' : res E A -> S -> Prop) s :
  wp m Q s -> (forall r s', Q r s' -> Q' r s') -> wp m Q' s.
Proof. unfold wp. auto. Qed.

Lemma wp_bind {S E A B} (m : stm S E A) (f : A -> stm S E B) Q s :
  wp m (fun r s' => match r with Ok a => wp (f a) Q s' | Err e => Q (Err e) s' end) s ->
  wp (stm_bind S E _ _ f m) Q s.
Proof. unfold wp, stm_bind. destruct (m s) as [[a|e] s']; simpl; auto. Qed.

Lemma wp_attempt {S E A} (m : stm S E A) Q s :
  wp m (fun r => Q (Ok r)) s -> wp (attempt m) Q s.
Proof. unfold wp, attempt. by destruct (m s). Qed.

(** A loop invariant over the elements already processed. *)
Lemma wp_foldM {S E A B} (f : B -> A -> stm S E B) (I : list A -> B -> S -> Prop)
    (Q : res E B -> S -> Prop) (l : list A) acc s :
  I [] acc s ->
  (forall pre x suf acc s, l = pre ++ x :: suf -> I pre acc s ->
     wp (f acc x) (fun r s' => match r with Ok acc' => I (pre ++ [x]) acc' s' | Err e => Q (Err e) s' end) s) ->
  (forall acc s, I l acc s -> Q (Ok acc) s) ->
  wp (foldM f l acc) Q s.
Proof.
  intros H0 Hstep Hend.
  enough (H : forall suf pre acc s, l = pre ++ suf -> I pre acc s -> wp (foldM f suf acc) Q s)
    by (by apply (H l [])).
  clear acc s H0. induction suf as [|x suf IH]; intros pre acc s El HI.
  - apply Hend. by rewrite El, app_nil_r.
  - apply wp_bind. eapply wp_mono; [by eapply Hstep|]. intros [acc'|e] s' H; [|done].
    apply (IH (pre ++ [x])); [by rewrite <- app_assoc|done].
Qed.

(** ** Bytes and big-endian integers *)

Abbreviation byte := Byte.byte.
Abbreviation bytes := (list Byte.byte).

#[export] Instance byte_eq_dec : EqDecision byte := Byte.byte_eq_dec.

#[export] Instance byte_countable : Countable byte :=
  inj_countable Byte.to_N Byte.of_N Byte.of_to_N.

Definition Z_of_byte (b : byte) : Z := Z.of_N (Byte.to_N b).

(** Go's [byte(v)]: the low eight bits of [v]. *)
Definition byte_of_Z (v : Z) : byte :=
  default Byte.x00 (Byte.of_N (Z.to_N (v mod 256))).

(** [len(l)] as the machine integer the Go code computes with. *)
Definition blen {A} (l : list A) : Z := Z.of_nat (length l).

Fixpoint be_put (n : nat) (v : Z) : bytes :=
  match n with
  | O => []
  | S n' => byte_of_Z (v ≫ (8 * Z.of_nat n')) :: be_put n' v
  end.

Definition be_get (l : bytes) : Z :=
  fold_left (fun acc b => acc * 256 + Z_of_byte b) l 0.

(** Unsigned ranges of the Go integer types. *)
Definition uN (bits : Z) (v : Z) : Prop := 0 <= v < 2 ^ bits.

Lemma Z_of_byte_range b : 0 <= Z_of_byte b < 256.
Proof. unfold Z_of_byte. pose proof (Byte.to_N_bounded b). lia. Qed.

Lemma Z_of_byte_of_Z v : Z_of_byte (byte_of_Z v) = v mod 256.
Proof.
  unfold Z_of_byte, byte_of_Z.
  assert (Hm : 0 <= v mod 256 < 256) by (apply Z.mod_pos_bound; lia).
  destruct (Byte.of_N (Z.to_N (v mod 256))) as [b|] eqn:E; simpl.
  - apply Byte.to_of_N in E. lia.
  - apply Byte.of_N_None_iff in E. lia.
Qed.

Lemma byte_of_Z_of_byte b : byte_of_Z (Z_of_byte b) = b.
Proof.
  unfold byte_of_Z, Z_of_byte. pose proof (Byte.to_N_bounded b).
  rewrite Z.mod_small by lia. by rewrite N2Z.id, Byte.of_to_N.
Qed.

Lemma length_be_put n v : length (be_put n v) = n.
Proof. induction n; simpl; congruence. Qed.

Lemma be_get_put_acc n v acc :
  fold_left (fun acc b => acc * 256 + Z_of_byte b) (be_put n v) acc
  = acc * 256 ^ Z.of_nat n + v mod 256 ^ Z.of_nat n.
Proof.
  revert acc. induction n as [|n IH]; intros acc.
  - change (256 ^ Z.of_nat 0) with 1. rewrite Z.mod_1_r. simpl. lia.
  - simpl be_put. simpl fold_left. rewrite IH, Z_of_byte_of_Z.
    rewrite Z.shiftr_div_pow2 by lia.
    replace (2 ^ (8 * Z.of_nat n)) with (256 ^ Z.of_nat n)
      by (rewrite Z.pow_mul_r by lia; reflexivity).
    rewrite Nat2Z.inj_succ, Z.pow_succ_r by lia.
    assert (0 < 256 ^ Z.of_nat n) by (apply Z.pow_pos_nonneg; lia).
    rewrite (Z.mul_comm 256 (256 ^ _)), Z.rem_mul_r by lia. lia.
Qed.

Lemma be_get_put n v :
  0 <= v < 256 ^ Z.of_nat n -> be_get (be_put n v) = v.
Proof.
  intros H. unfold be_get. rewrite be_get_put_acc, Z.mod_small by lia. lia.
Qed.

Lemma be_get_range l : 0 <= be_get l < 256 ^ blen l.
Proof.
  unfold be_get, blen. induction l as [|b l IH] using rev_ind; [simpl; lia|].
  rewrite fold_left_app, length_app; simpl length; simpl fold_left.
  pose proof (Z_of_byte_range b).
  rewrite Nat2Z.inj_add, Z.pow_add_r by lia.
  change (256 ^ Z.of_nat 1) with 256. lia.
Qed.

(** ** Lists addressed by machine integers

    Go slices are addressed by [int]; [take_z]/[drop_z]/[sub_z] are the slice
    expressions [l[:n]], [l[n:]] and [l[o:o+n]], total because negative
    arguments count as zero and out-of-range ones are clipped.  Wherever the
    Go code would panic the models test the range first. *)

Definition take_z {A} (n : Z) (l : list A) : list A := take (Z.to_nat n) l.
Definition drop_z {A} (n : Z) (l : list A) : list A := drop (Z.to_nat n) l.
Definition sub_z {A} (o n : Z) (l : list A) : list A := take_z n (drop_z o l).

Lemma blen_nonneg {A} (l : list A) : 0 <= blen l.
Proof. unfold blen. lia. Qed.

Lemma blen_app {A} (l k : list A) : blen (l ++ k) = blen l + blen k.
Proof. unfold blen. rewrite length_app. lia. Qed.

Lemma blen_nil_inv {A} (l : list A) : blen l = 0 -> l = [].
Proof. unfold blen. destruct l; simpl; [done|lia]. Qed.

Lemma blen_take_z {A} n (l : list A) :
  blen (take_z n l) = Z.min (Z.max 0 n) (blen l).
Proof. unfold blen, take_z. rewrite length_take. lia. Qed.

Lemma blen_drop_z {A} n (l : list A) :
  blen (drop_z n l) = Z.max 0 (blen l - Z.max 0 n).
Proof. unfold blen, drop_z. rewrite length_drop. lia. Qed.

Lemma drop_z_app {A} (l k : list A) : drop_z (blen l) (l ++ k) = k.
Proof. unfold drop_z, blen. rewrite Nat2Z.id. apply drop_app_length. Qed.

Lemma take_z_app {A} (l k : list A) : take_z (blen l) (l ++ k) = l.
Proof. unfold take_z, blen. rewrite Nat2Z.id. apply take_app_length. Qed.

Lemma take_z_all {A} n (l : list A) : blen l <= n -> take_z n l = l.
Proof. unfold take_z, blen. intros. apply take_ge. lia. Qed.

Lemma sub_z_app {A} (p l s : list A) : sub_z (blen p) (blen l) (p ++ l ++ s) = l.
Proof. unfold sub_z. by rewrite drop_z_app, take_z_app. Qed.

Lemma lookup_take_z {A} n (l : list A) i :
  Z.of_nat i < n -> take_z n l !! i = l !! i.
Proof. intros. unfold take_z. rewrite lookup_take_lt by lia. done. Qed.

Lemma lookup_take_z_ge {A} n (l : list A) i :
  n <= Z.of_nat i -> take_z n l !! i = None.
Proof. intros. unfold take_z. apply lookup_take_ge. lia. Qed.

Lemma lookup_drop_z {A} n (l : list A) i :
  0 <= n -> drop_z n l !! i = l !! Z.to_nat (n + Z.of_nat i).
Proof. intros. unfold drop_z. rewrite lookup_drop. f_equal. lia. Qed.

Lemma lookup_sub_z {A} o n (l : list A) i :
  0 <= o -> Z.of_nat i < n -> sub_z o n l !! i = l !! Z.to_nat (o + Z.of_nat i).
Proof. intros. unfold sub_z. rewrite lookup_take_z, lookup_drop_z by lia. done. Qed.

Lemma blen_sub_z {A} o n (l : list A) :
  0 <= o -> 0 <= n -> o + n <= blen l -> blen (sub_z o n l) = n.
Proof. intros. unfold sub_z. rewrite blen_take_z, blen_drop_z. lia. Qed.

Lemma lookup_lt_blen {A} (l : list A) i x : l !! i = Some x -> Z.of_nat i < blen l.
Proof. intros H%lookup_lt_Some. unfold blen. lia. Qed.

Lemma lookup_blen_is_Some {A} (l : list A) i :
  Z.of_nat i < blen l -> is_Some (l !! i).
Proof. intros. apply lookup_lt_is_Some. unfold blen in *. lia. Qed.

Create Rewrite HintDb cornus.
#[export] Hint Rewrite @blen_app @blen_take_z @blen_drop_z : cornus.
#[export] Hint Resolve blen_nonneg Z_of_byte_range : cornus.

(** [copy(dst[off:], data)]: overwrite [dst] from [off] with as many bytes of
    [data] as fit. *)
Definition copy_at {A} (dst : list A) (off : Z) (data : list A) : list A :=
  take_z off dst ++ take_z (blen dst - off) data ++ drop_z (off + blen data) dst.

Lemma blen_copy_at {A} (dst : list A) off data :
  0 <= off <= blen dst -> blen (copy_at dst off data) = blen dst.
Proof.
  intros. unfold copy_at. rewrite !blen_app, !blen_take_z, blen_drop_z.
  pose proof (blen_nonneg data). lia.
Qed.

Lemma lookup_copy_at {A} (dst data : list A) off i :
  0 <= off <= blen dst -> Z.of_nat i < blen dst ->
  copy_at dst off data !! i =
    if (off <=? Z.of_nat i) && (Z.of_nat i <? off + blen data)
    then data !! Z.to_nat (Z.of_nat i - off) else dst !! i.
Proof.
  intros Ho Hi. unfold copy_at. pose proof (blen_nonneg data).
  assert (Hl : blen (take_z off dst) = off) by (rewrite blen_take_z; lia).
  assert (Hm : blen (take_z (blen dst - off) data) = Z.min (blen dst - off) (blen data))
    by (rewrite blen_take_z; lia).
  unfold blen in Hl, Hm.
  destruct (Z.leb_spec off (Z.of_nat i)); simpl.
  - rewrite lookup_app_r by lia.
    destruct (Z.ltb_spec (Z.of_nat i) (off + blen data)).
    + rewrite lookup_app_l by (unfold blen in *; lia).
      rewrite lookup_take_z by lia. f_equal. lia.
    + rewrite lookup_app_r by (unfold blen in *; lia).
      rewrite lookup_drop_z by lia. f_equal. unfold blen in *. lia.
  - rewrite lookup_app_l by lia. by apply lookup_take_z.
Qed.

Lemma list_eq_lookup_z {A} (l k : list A) :
  blen l = blen k ->
  (forall i, Z.of_nat i < blen l -> l !! i = k !! i) -> l = k.
Proof.
  intros Hlen H. apply list_eq. intros i.
  destruct (decide (Z.of_nat i < blen l)); [by apply H|].
  rewrite !lookup_ge_None_2; [done| |]; unfold blen in *; lia.
Qed.

(** Appending the next slice to a slice. *)
Lemma sub_z_snoc {A} (a : list A) o b l :
  0 <= o -> a = sub_z o (blen a) l -> b = sub_z (o + blen a) (blen b) l ->
  a ++ b = sub_z o (blen (a ++ b)) l.
Proof.
  intros Ho Ha Hb. pose proof (blen_nonneg a). pose proof (blen_nonneg b).
  apply list_eq. intros i. rewrite blen_app.
  destruct (decide (Z.of_nat i < blen a)) as [H1|H1].
  - rewrite lookup_app_l by (unfold blen in H1; lia).
    rewrite Ha at 1. rewrite !lookup_sub_z by lia. done.
  - destruct (decide (Z.of_nat i < blen a + blen b)) as [H2|H2].
    + rewrite lookup_app_r by (unfold blen in H1; lia).
      rewrite Hb at 1. rewrite !lookup_sub_z by (unfold blen in *; lia).
      f_equal. unfold blen in *. lia.
    + rewrite lookup_ge_None_2 by (rewrite length_app; unfold blen in *; lia).
      unfold sub_z. by rewrite lookup_take_z_ge by lia.
Qed.

(** Zeroed memory. *)
Definition zeros (n : Z) : bytes := replicate (Z.to_nat n) Byte.x00.

Lemma blen_zeros n : 0 <= n -> blen (zeros n) = n.
Proof. intros. unfold blen, zeros. rewrite length_replicate. lia. Qed.

Lemma blen_zeros_max n : blen (zeros n) = Z.max 0 n.
Proof. unfold blen, zeros. rewrite length_replicate. lia. Qed.

Lemma lookup_zeros n i : Z.of_nat i < n -> zeros n !! i = Some Byte.x00.
Proof. intros. unfold zeros. apply lookup_replicate_2. lia. Qed.

Lemma blen_insert {A} i x (l : list A) : blen (<[i := x]> l) = blen l.
Proof. unfold blen. by rewrite length_insert. Qed.
