(* ===== verification/GoStd.v ===== *)
(** * GoStd: the parts of the Go standard library the components use

    A Go string is its bytes.  [go] writes a literal.  [strconv.FormatInt],
    [encoding/hex], [crypto/sha256] and the functions of package [strings] the
    sources call are defined here, executable, with the facts the components
    rely on.  Functions that trim or split on white
    space decode UTF-8; strings.ToLower leaves bytes above 127 as they are. *)

From Stdlib.Strings Require Import Byte.
From Stdlib Require Import ZArith Lia.
From stdpp Require Import base list sorting.
From stdpp Require Export strings.
From S2P Require Import Prelude.
Import ListNotations.
Open Scope Z_scope.

(** A string literal. *)
Definition go (s : String.string) : bytes := String.list_byte_of_string s.
Arguments go s%_string_scope.

Definition bytes_eqb (a b : bytes) : bool := bool_decide (a = b).

(** ** strconv *)

(** The digits of a nonnegative number in base 10, most significant first;
    [fuel] bounds the number of digits. *)
Fixpoint formatDigits (fuel : nat) (n : Z) (acc : bytes) : bytes :=
  match fuel with
  | O => acc
  | S fuel' =>
      let acc' := byte_of_Z (48 + n mod 10) :: acc in
      if n / 10 =? 0 then acc' else formatDigits fuel' (n / 10) acc'
  end.

(** [strconv.FormatInt(n, 10)] (also [Itoa]). *)
Definition formatInt (n : Z) : bytes :=
  let d := formatDigits (S (Z.to_nat (Z.log2 (Z.abs n)))) (Z.abs n) [] in
  if n <? 0 then byte_of_Z 45 :: d else d.

(** ** encoding/hex *)

Definition hexDigit (n : Z) : Byte.byte :=
  byte_of_Z (if n <? 10 then 48 + n else 87 + n).

Definition hexEncode (b : bytes) : bytes :=
  concat (map (fun c => [hexDigit (Z_of_byte c / 16); hexDigit (Z_of_byte c mod 16)]) b).

(** ** crypto/sha256 (FIPS 180-4) *)

Module Sha256.

Definition w32 (x : Z) : Z := x mod 2 ^ 32.
Definition rotr (n x : Z) : Z := Z.lor (Z.shiftr x n) (w32 (Z.shiftl x (32 - n))).

(** The standard's constants: the first 32 bits of the fractional parts of the
    square and cube roots of the first primes. *)
Definition primes (n : nat) : list Z :=
  take n (filter (fun p => forallb (fun d => negb (p mod d =? 0)) (seqZ 2 (p - 2)) = true)
            (seqZ 2 311)).

(** The integer cube root of [n], by bisection of [lo, lo + 2^fuel). *)
Fixpoint cbrt (fuel : nat) (lo n : Z) : Z :=
  match fuel with
  | O => lo
  | S fuel' =>
      let mid := lo + 2 ^ Z.of_nat fuel' in
      cbrt fuel' (if mid * mid * mid <=? n then mid else lo) n
  end.

Definition K : list Z := Eval vm_compute in map (fun p => w32 (cbrt 40 0 (p * 2 ^ 96))) (primes 64).
Definition H0 : list Z := Eval vm_compute in map (fun p => w32 (Z.sqrt (p * 2 ^ 64))) (primes 8).

Definition ch (x y z : Z) : Z := Z.lxor (Z.land x y) (Z.land (Z.lxor x (2 ^ 32 - 1)) z).
Definition maj (x y z : Z) : Z := Z.lxor (Z.lxor (Z.land x y) (Z.land x z)) (Z.land y z).
Definition bsig0 (x : Z) : Z := Z.lxor (Z.lxor (rotr 2 x) (rotr 13 x)) (rotr 22 x).
Definition bsig1 (x : Z) : Z := Z.lxor (Z.lxor (rotr 6 x) (rotr 11 x)) (rotr 25 x).
Definition ssig0 (x : Z) : Z := Z.lxor (Z.lxor (rotr 7 x) (rotr 18 x)) (Z.shiftr x 3).
Definition ssig1 (x : Z) : Z := Z.lxor (Z.lxor (rotr 17 x) (rotr 19 x)) (Z.shiftr x 10).

(** The message schedule, latest word first. *)
Fixpoint schedule (n : nat) (w : list Z) : list Z :=
  match n with
  | O => w
  | S n' =>
      let at_ i := nth i w 0 in
      schedule n' (w32 (ssig1 (at_ 1%nat) + at_ 6%nat + ssig0 (at_ 14%nat) + at_ 15%nat) :: w)
  end.

Definition round (st : list Z) (kw : Z * Z) : list Z :=
  match st with
  | [a; b; c; d; e; f; g; h] =>
      let t1 := h + bsig1 e + ch e f g + kw.1 + kw.2 in
      let t2 := bsig0 a + maj a b c in
      [w32 (t1 + t2); a; b; c; w32 (d + t1); e; f; g]
  | _ => st
  end.

Fixpoint words (n : nat) (b : bytes) : list Z :=
  match n with
  | O => []
  | S n' => be_get (take 4 b) :: words n' (drop 4 b)
  end.

Definition block (h : list Z) (b : bytes) : list Z :=
  let w := rev (schedule 48 (rev (words 16 b))) in
  zip_with (fun x y => w32 (x + y)) h (fold_left round (zip K w) h).

Fixpoint blocks (n : nat) (h : list Z) (b : bytes) : list Z :=
  match n with
  | O => h
  | S n' => blocks n' (block h (take 64 b)) (drop 64 b)
  end.

Definition pad (m : bytes) : bytes :=
  m ++ byte_of_Z 128 :: repeat (byte_of_Z 0) (Z.to_nat ((55 - blen m) mod 64))
    ++ be_put 8 (8 * blen m).

Definition sum (m : bytes) : bytes :=
  let p := pad m in
  concat (map (be_put 4) (blocks (Z.to_nat (blen p / 64)) H0 p)).

End Sha256.

(** [sha256.Sum256] *)
Definition sha256 (m : bytes) : bytes := Sha256.sum m.

(** The standard's test vector for the three-byte message. *)
Example sha256_abc :
  hexEncode (sha256 (go "abc")) =
  go "ba7816bf8f01cfea414140de5dae2223b00361a396177a9cb410ff61f20015ad".
Proof. vm_compute. reflexivity. Qed.

(** ** Facts about numbers printed in base 10 *)

(** The value of a digit string; the inverse of [formatDigits]. *)
Definition digitsVal (l : bytes) (acc : Z) : Z :=
  fold_left (fun a c => a * 10 + (Z_of_byte c - 48)) l acc.

Definition isDigit (c : Byte.byte) : bool := (48 <=? Z_of_byte c) && (Z_of_byte c <=? 57).

Lemma Z_of_digit d : 0 <= d < 10 -> Z_of_byte (byte_of_Z (48 + d)) = 48 + d.
Proof. intros. rewrite Z_of_byte_of_Z, Z.mod_small; lia. Qed.

Lemma isDigit_digit d : 0 <= d < 10 -> isDigit (byte_of_Z (48 + d)) = true.
Proof.
  intros. unfold isDigit. rewrite Z_of_digit by done.
  apply andb_true_iff. rewrite !Z.leb_le. lia.
Qed.

Lemma digitsVal_format fuel n acc :
  0 <= n < 10 ^ Z.of_nat fuel -> (0 < fuel)%nat ->
  digitsVal (formatDigits fuel n acc) 0 = digitsVal acc n.
Proof.
  revert n acc. induction fuel as [|fuel IH]; intros n acc Hn Hf; [lia|].
  cbn [formatDigits]. pose proof (Z.mod_pos_bound n 10 ltac:(lia)).
  pose proof (Z.div_mod n 10 ltac:(lia)) as Hdm.
  destruct (Z.eqb_spec (n / 10) 0) as [E|E].
  - cbn [digitsVal fold_left]. rewrite Z_of_digit by done.
    unfold digitsVal. f_equal. lia.
  - assert (0 < n / 10) by (pose proof (Z.div_pos n 10); lia).
    destruct fuel as [|fuel].
    { change (10 ^ Z.of_nat 1) with 10 in Hn. rewrite Z.div_small in E by lia. done. }
    rewrite IH; [|split; [lia|]|lia].
    + cbn [digitsVal fold_left]. rewrite Z_of_digit by done.
      unfold digitsVal. f_equal. lia.
    + apply Z.div_lt_upper_bound; [lia|].
      rewrite <- Z.pow_succ_r by lia. rewrite <- Nat2Z.inj_succ. lia.
Qed.

Lemma formatDigits_digits fuel n acc :
  0 <= n -> forallb isDigit acc = true -> forallb isDigit (formatDigits fuel n acc) = true.
Proof.
  revert n acc. induction fuel as [|fuel IH]; intros n acc Hn Ha; [done|].
  cbn [formatDigits]. pose proof (Z.mod_pos_bound n 10 ltac:(lia)).
  assert (Hc : forallb isDigit (byte_of_Z (48 + n mod 10) :: acc) = true).
  { cbn [forallb]. by rewrite isDigit_digit. }
  destruct (n / 10 =? 0); [done|]. apply IH; [|done]. apply Z.div_pos; lia.
Qed.

Lemma pow2_le_pow10 n : 2 ^ Z.of_nat n <= 10 ^ Z.of_nat n.
Proof. apply Z.pow_le_mono_l. lia. Qed.

Lemma formatAbs_val n :
  digitsVal (formatDigits (S (Z.to_nat (Z.log2 (Z.abs n)))) (Z.abs n) []) 0 = Z.abs n.
Proof.
  rewrite digitsVal_format; [done| |lia]. split; [lia|].
  eapply Z.lt_le_trans; [|apply pow2_le_pow10].
  rewrite Nat2Z.inj_succ, Z2Nat.id by apply Z.log2_nonneg.
  destruct (Z.eq_dec (Z.abs n) 0) as [->|]; [done|]. apply Z.log2_spec. lia.
Qed.

(** The characters of a printed integer are digits or the leading minus. *)
Definition isNumChar (c : Byte.byte) : bool := isDigit c || (Z_of_byte c =? 45).

Lemma formatInt_chars n : forallb isNumChar (formatInt n) = true.
Proof.
  unfold formatInt.
  assert (H : forall l, forallb isDigit l = true -> forallb isNumChar l = true).
  { induction l as [|c l IH]; [done|]. simpl. intros [Hc Hl]%andb_true_iff.
    unfold isNumChar at 1. by rewrite Hc, IH. }
  destruct (n <? 0); [cbn [forallb]|]; try (apply andb_true_iff; split; [done|]);
    apply H, formatDigits_digits; try done; lia.
Qed.

Lemma formatInt_inj n m : formatInt n = formatInt m -> n = m.
Proof.
  unfold formatInt. set (d := fun n => formatDigits (S (Z.to_nat (Z.log2 (Z.abs n)))) (Z.abs n) []).
  assert (Hd : forall n, digitsVal (d n) 0 = Z.abs n) by (intros; apply formatAbs_val).
  assert (Hnm : forall n m, byte_of_Z 45 :: d n <> d m).
  { intros a b E. assert (Hb : forallb isDigit (d b) = true)
      by (apply formatDigits_digits; [lia|done]).
    rewrite <- E in Hb. done. }
  change (formatDigits (S (Z.to_nat (Z.log2 (Z.abs n)))) (Z.abs n) []) with (d n).
  change (formatDigits (S (Z.to_nat (Z.log2 (Z.abs m)))) (Z.abs m) []) with (d m).
  cbv zeta. destruct (n <? 0) eqn:En, (m <? 0) eqn:Em; intros E; zbool.
  - injection E as E. pose proof (Hd n) as H1. rewrite E, Hd in H1. lia.
  - by apply Hnm in E.
  - symmetry in E. by apply Hnm in E.
  - pose proof (Hd n) as H1. rewrite E, Hd in H1. lia.
Qed.

(** ** Facts about hex *)

Lemma Z_of_hexDigit n : 0 <= n < 16 -> Z_of_byte (hexDigit n) = if n <? 10 then 48 + n else 87 + n.
Proof.
  intros Hn. unfold hexDigit. rewrite Z_of_byte_of_Z.
  destruct (n <? 10) eqn:E; zbool; rewrite Z.mod_small; lia.
Qed.

Lemma hexDigit_inj n m : 0 <= n < 16 -> 0 <= m < 16 -> hexDigit n = hexDigit m -> n = m.
Proof.
  intros Hn Hm E. apply (f_equal Z_of_byte) in E. rewrite !Z_of_hexDigit in E by done.
  destruct (n <? 10) eqn:E1, (m <? 10) eqn:E2; zbool; lia.
Qed.

Lemma hexEncode_inj a b : hexEncode a = hexEncode b -> a = b.
Proof.
  unfold hexEncode. revert b. induction a as [|x a IH]; intros [|y b] E; [done|done|done|].
  cbn [map concat app] in E. injection E as E1 E2 E3.
  pose proof (Z_of_byte_range x). pose proof (Z_of_byte_range y).
  apply hexDigit_inj in E1; [|split; [apply Z.div_pos|apply Z.div_lt_upper_bound]; lia..].
  apply hexDigit_inj in E2; [|apply Z.mod_pos_bound; lia..].
  f_equal; [|by apply IH].
  rewrite <- (byte_of_Z_of_byte x), <- (byte_of_Z_of_byte y). f_equal.
  rewrite (Z.div_mod (Z_of_byte x) 16), (Z.div_mod (Z_of_byte y) 16) by lia. lia.
Qed.

(** ** [utf8.DecodeRuneInString]: the rune and its width *)

Definition RuneError : Z := 65533.
Definition cont (lo hi : Z) (b : Byte.byte) : bool := (lo <=? Z_of_byte b) && (Z_of_byte b <=? hi).
Definition low6 (b : Byte.byte) : Z := Z.land (Z_of_byte b) 63.

Definition decodeRune (s : bytes) : Z * nat :=
  match s with
  | [] => (RuneError, 0%nat)
  | b0 :: r =>
      let v := Z_of_byte b0 in
      if v <? 128 then (v, 1%nat)
      else if (194 <=? v) && (v <=? 223) then
        match r with
        | b1 :: _ => if cont 128 191 b1 then ((v - 192) * 64 + low6 b1, 2%nat) else (RuneError, 1%nat)
        | [] => (RuneError, 1%nat)
        end
      else if (224 <=? v) && (v <=? 239) then
        let lo := if v =? 224 then 160 else 128 in
        let hi := if v =? 237 then 159 else 191 in
        match r with
        | b1 :: b2 :: _ =>
            if cont lo hi b1 && cont 128 191 b2
            then ((v - 224) * 4096 + low6 b1 * 64 + low6 b2, 3%nat) else (RuneError, 1%nat)
        | _ => (RuneError, 1%nat)
        end
      else if (240 <=? v) && (v <=? 244) then
        let lo := if v =? 240 then 144 else 128 in
        let hi := if v =? 244 then 143 else 191 in
        match r with
        | b1 :: b2 :: b3 :: _ =>
            if cont lo hi b1 && cont 128 191 b2 && cont 128 191 b3
            then ((v - 240) * 262144 + low6 b1 * 4096 + low6 b2 * 64 + low6 b3, 4%nat)
            else (RuneError, 1%nat)
        | _ => (RuneError, 1%nat)
        end
      else (RuneError, 1%nat)
  end.

(** The bytes of the runes of a string, as [range] walks it; a byte that starts no
    rune is a segment of its own. *)
Fixpoint runesF (fuel : nat) (s : bytes) : list bytes :=
  match fuel, s with
  | S fuel, _ :: _ =>
      let n := snd (decodeRune s) in take n s :: runesF fuel (drop n s)
  | _, _ => []
  end.
Definition runes (s : bytes) : list bytes := runesF (length s) s.

(** [unicode.IsSpace] *)
Definition isSpaceRune (r : Z) : bool :=
  (r =? 32) || ((9 <=? r) && (r <=? 13)) || (r =? 133) || (r =? 160) || (r =? 5760) ||
  ((8192 <=? r) && (r <=? 8202)) || (r =? 8232) || (r =? 8233) || (r =? 8239) || (r =? 8287) || (r =? 12288).
Definition isSpaceSeg (seg : bytes) : bool := isSpaceRune (fst (decodeRune seg)).

(** ** Package strings *)

Definition hasPrefix (s p : bytes) : bool := bytes_eqb (take (length p) s) p.
Definition hasSuffix (s p : bytes) : bool :=
  (length p <=? length s)%nat && bytes_eqb (drop (length s - length p) s) p.
Definition trimPrefix (s p : bytes) : bytes := if hasPrefix s p then drop (length p) s else s.
Definition trimSuffix (s p : bytes) : bytes :=
  if hasSuffix s p then take (length s - length p) s else s.

(** [strings.Cut(s, sep)] for a one-byte separator; also [IndexByte]. *)
Fixpoint cutByte (sep : Byte.byte) (s : bytes) : option (bytes * bytes) :=
  match s with
  | [] => None
  | c :: s' =>
      if bool_decide (c = sep) then Some ([], s')
      else match cutByte sep s' with None => None | Some (a, b) => Some (c :: a, b) end
  end.

(** [strings.Split(s, sep)] for a one-byte separator. *)
Fixpoint split (sep : Byte.byte) (s : bytes) : list bytes :=
  match s with
  | [] => [[]]
  | c :: s' =>
      if bool_decide (c = sep) then [] :: split sep s'
      else match split sep s' with [] => [[c]] | w :: ws => (c :: w) :: ws end
  end.

(** [strings.Join(parts, sep)] *)
Fixpoint join (sep : bytes) (parts : list bytes) : bytes :=
  match parts with
  | [] => []
  | [p] => p
  | p :: ps => p ++ sep ++ join sep ps
  end.

Definition isSpace (c : Byte.byte) : bool :=
  let v := Z_of_byte c in (v =? 32) || ((9 <=? v) && (v <=? 13)).

Fixpoint trimLeft {A} (f : A -> bool) (s : list A) : list A :=
  match s with [] => [] | c :: s' => if f c then trimLeft f s' else s end.
Definition trimFunc {A} (f : A -> bool) (s : list A) : list A :=
  rev (trimLeft f (rev (trimLeft f s))).
(** [strings.TrimSpace] *)
Definition trimSpace (s : bytes) : bytes := concat (trimFunc isSpaceSeg (runes s)).

(** [strings.Fields]: the maximal runs of runes that are not white space. *)
Fixpoint fieldsF (cur : bytes) (segs : list bytes) : list bytes :=
  match segs with
  | [] => if bytes_eqb cur [] then [] else [cur]
  | g :: segs =>
      if isSpaceSeg g then (if bytes_eqb cur [] then [] else [cur]) ++ fieldsF [] segs
      else fieldsF (cur ++ g) segs
  end.
Definition Fields (s : bytes) : list bytes := fieldsF [] (runes s).

Definition lowerByte (c : Byte.byte) : Byte.byte :=
  let v := Z_of_byte c in if (65 <=? v) && (v <=? 90) then byte_of_Z (v + 32) else c.
(** [strings.ToLower] on ASCII. *)
Definition toLower (s : bytes) : bytes := map lowerByte s.

Definition containsByte (c : Byte.byte) (s : bytes) : bool := existsb (fun x => bool_decide (x = c)) s.

(** ** Package sort *)

(** [sort.Strings] orders byte-wise. *)
Fixpoint bytes_leb (a b : bytes) : bool :=
  match a, b with
  | [], _ => true
  | _ :: _, [] => false
  | x :: a', y :: b' =>
      if Z_of_byte x <? Z_of_byte y then true
      else if Z_of_byte x =? Z_of_byte y then bytes_leb a' b' else false
  end.
Definition bytes_le (a b : bytes) : Prop := bytes_leb a b = true.
#[export] Instance bytes_le_dec : RelDecision bytes_le.
Proof. intros a b. unfold bytes_le. apply _. Defined.
Definition sortStrings (l : list bytes) : list bytes := merge_sort bytes_le l.

#[export] Instance bytes_le_total : Total bytes_le.
Proof.
  unfold bytes_le. intros a. induction a as [|x a IH]; intros [|y b]; simpl; auto.
  destruct (Z.ltb_spec (Z_of_byte x) (Z_of_byte y)), (Z.ltb_spec (Z_of_byte y) (Z_of_byte x)); auto;
    destruct (Z.eqb_spec (Z_of_byte x) (Z_of_byte y)), (Z.eqb_spec (Z_of_byte y) (Z_of_byte x));
    auto; lia.
Qed.

#[export] Instance bytes_le_trans : Transitive bytes_le.
Proof.
  unfold bytes_le. intros a. induction a as [|x a IH]; intros [|y b] [|z c]; simpl; try done.
  repeat match goal with
  | |- context [?u <? ?v] => destruct (Z.ltb_spec u v)
  | |- context [?u =? ?v] => destruct (Z.eqb_spec u v)
  end; try done; try lia. apply IH.
Qed.

Lemma elem_of_sortStrings x l : x ∈ sortStrings l <-> x ∈ l.
Proof. unfold sortStrings. by rewrite (merge_sort_Permutation bytes_le l). Qed.

Lemma sortStrings_sorted l : StronglySorted bytes_le (sortStrings l).
Proof. apply StronglySorted_merge_sort; apply _. Qed.

(** ** Package path *)

Definition slash : Byte.byte := Byte.x2f.
Definition dot : bytes := go ".".
Definition dotdot : bytes := go "..".

(** The segments [path.Clean] keeps, latest first. *)
Definition cleanStep (rooted : bool) (out : list bytes) (seg : bytes) : list bytes :=
  if bytes_eqb seg [] || bytes_eqb seg dot then out
  else if bytes_eqb seg dotdot then
    match out with
    | top :: out' => if bytes_eqb top dotdot then seg :: out else out'
    | [] => if rooted then [] else [seg]
    end
  else seg :: out.

Definition pathClean (p : bytes) : bytes :=
  let rooted := match p with c :: _ => bool_decide (c = slash) | [] => false end in
  let segs := rev (fold_left (cleanStep rooted) (split slash p) []) in
  let body := join [slash] segs in
  if rooted then slash :: body
  else match body with [] => dot | _ => body end.

(** [path.Join]: the non-empty elements, joined and cleaned. *)
Definition pathJoin (elems : list bytes) : bytes :=
  match filter (fun e => e <> []) elems with
  | [] => []
  | es => pathClean (join [slash] es)
  end.

(** [path.Base] *)
Definition pathBase (p : bytes) : bytes :=
  match p with
  | [] => dot
  | _ =>
      let q := rev (trimLeft (fun c => bool_decide (c = slash)) (rev p)) in
      match rev (split slash q) with
      | [] => [slash]
      | last :: _ => match q with [] => [slash] | _ => last end
      end
  end.

(** ** The length and alphabet of a digest *)

Lemma length_rounds kws st : length st = 8%nat -> length (fold_left Sha256.round kws st) = 8%nat.
Proof.
  revert st. induction kws as [|kw kws IH]; intros st Hst; [done|]. cbn [fold_left]. apply IH.
  do 8 (destruct st as [|? st]; [done|]). by destruct st.
Qed.

Lemma length_block h b : length h = 8%nat -> length (Sha256.block h b) = 8%nat.
Proof.
  intros Hh. unfold Sha256.block. rewrite length_zip_with, Hh. by rewrite length_rounds.
Qed.

Lemma length_blocks n h b : length h = 8%nat -> length (Sha256.blocks n h b) = 8%nat.
Proof. revert h b. induction n as [|n IH]; intros h b Hh; [done|]. by apply IH, length_block. Qed.

Lemma length_sha256 m : length (sha256 m) = 32%nat.
Proof.
  unfold sha256, Sha256.sum.
  pose proof (length_blocks (Z.to_nat (blen (Sha256.pad m) / 64)) Sha256.H0 (Sha256.pad m)
    ltac:(reflexivity)) as H.
  revert H. generalize (Sha256.blocks (Z.to_nat (blen (Sha256.pad m) / 64)) Sha256.H0 (Sha256.pad m)).
  intros l. do 9 (destruct l as [|? l]; [done|]). done.
Qed.

Definition isHexDigit (c : Byte.byte) : bool :=
  let v := Z_of_byte c in
  ((48 <=? v) && (v <=? 57)) || ((97 <=? v) && (v <=? 102)) || ((65 <=? v) && (v <=? 70)).

Lemma hexEncode_spec b :
  length (hexEncode b) = (2 * length b)%nat /\ Forall (fun c => isHexDigit c = true) (hexEncode b).
Proof.
  assert (Hd : forall n, 0 <= n < 16 -> isHexDigit (hexDigit n) = true).
  { intros n Hn. assert (n ∈ seqZ 0 16) as Hin by (apply elem_of_seqZ; lia).
    revert n Hin Hn. apply (Forall_forall (fun n => 0 <= n < 16 -> isHexDigit (hexDigit n) = true)).
    repeat (constructor; [done|]). constructor. }
  induction b as [|c b [IH1 IH2]]; [done|]. unfold hexEncode in *. simpl. split; [lia|].
  pose proof (Z_of_byte_range c).
  repeat constructor; [apply Hd..|done];
    (split; [|]; try apply Z.div_pos; try apply Z.div_lt_upper_bound; try apply Z.mod_pos_bound; lia).
Qed.

(** ** Facts about splitting and joining *)

Lemma cutByte_Some sep s a b : cutByte sep s = Some (a, b) -> s = a ++ sep :: b /\ sep ∉ a.
Proof.
  revert a. induction s as [|c s IH]; intros a; simpl; [done|]. case_bool_decide as Hc.
  - intros [= <- <-]. subst. split; [done|]. apply not_elem_of_nil.
  - destruct (cutByte sep s) as [[a' b']|] eqn:E; [|done]. intros [= <- <-].
    destruct (IH a' eq_refl) as [-> Hn]. split; [done|]. intros [->|H]%elem_of_cons; done.
Qed.

Lemma cutByte_None sep s : cutByte sep s = None <-> sep ∉ s.
Proof.
  induction s as [|c s IH]; simpl; [split; [intros _; apply not_elem_of_nil|done]|].
  rewrite not_elem_of_cons. case_bool_decide as Hc; [by subst; split; [|intros []]|].
  destruct (cutByte sep s) as [[a b]|] eqn:E; [split; [done|]; intros [_ H]; by apply IH in H|].
  split; [|done]. intros _. split; [congruence|by apply IH].
Qed.

Lemma cutByte_app sep a b : sep ∉ a -> cutByte sep (a ++ sep :: b) = Some (a, b).
Proof.
  induction a as [|c a IH]; intros H; simpl; [by rewrite bool_decide_true|].
  apply not_elem_of_cons in H as [Hc H]. rewrite bool_decide_false by congruence. by rewrite IH.
Qed.

Lemma split_nonempty sep s : split sep s <> [].
Proof. destruct s as [|c s]; simpl; [done|]. destruct (bool_decide _); [done|]. by destruct (split sep s). Qed.

Lemma split_nosep sep s : sep ∉ s -> split sep s = [s].
Proof.
  induction s as [|c s IH]; intros H; [done|]. simpl.
  rewrite bool_decide_false by (intros ->; apply H; by left).
  rewrite IH; [done|]. intros Hs. apply H. by right.
Qed.

Lemma split_app_sep sep a b : sep ∉ a -> split sep (a ++ sep :: b) = a :: split sep b.
Proof.
  induction a as [|c a IH]; intros H; simpl; [by rewrite bool_decide_true|].
  rewrite bool_decide_false by (intros ->; apply H; by left).
  rewrite IH; [done|]. intros Hs. apply H. by right.
Qed.

Lemma split_join sep (ps : list bytes) :
  ps <> [] -> Forall (fun p => sep ∉ p) ps -> split sep (join [sep] ps) = ps.
Proof.
  induction ps as [|p ps IH]; intros Hne H; [done|]. apply Forall_cons_1 in H as [Hp H].
  destruct ps as [|q ps]; [by apply split_nosep|].
  change (join [sep] (p :: q :: ps)) with (p ++ sep :: join [sep] (q :: ps)).
  rewrite split_app_sep by done. by rewrite IH.
Qed.

Lemma join_split sep s : join [sep] (split sep s) = s.
Proof.
  induction s as [|c s IH]; [done|]. simpl. case_bool_decide as H.
  - subst. destruct (split sep s) eqn:E; [by apply split_nonempty in E|]. simpl in *. by rewrite IH.
  - destruct (split sep s) as [|w ws] eqn:E; [by apply split_nonempty in E|].
    destruct ws; simpl in *; by rewrite IH.
Qed.

Lemma split_parts_nosep sep s : Forall (fun p => sep ∉ p) (split sep s).
Proof.
  induction s as [|c s IH]; [repeat constructor; intros H; by apply elem_of_nil in H|]. simpl.
  case_bool_decide as Hc; [constructor; [|done]; intros H; by apply elem_of_nil in H|].
  destruct (split sep s) as [|w ws]; [repeat constructor; intros [->|H]%elem_of_cons; [done|by apply elem_of_nil in H]|].
  apply Forall_cons_1 in IH as [Hw IH]. constructor; [|done].
  intros [->|H]%elem_of_cons; done.
Qed.

Lemma join_inj sep (a b : list bytes) :
  a <> [] -> b <> [] -> Forall (fun p => sep ∉ p) a -> Forall (fun p => sep ∉ p) b ->
  join [sep] a = join [sep] b -> a = b.
Proof. intros Ha Hb Hpa Hpb E. rewrite <- (split_join sep a), <- (split_join sep b), E; done. Qed.

Lemma join_app sep (a b : list bytes) :
  a <> [] -> b <> [] -> join sep (a ++ b) = join sep a ++ sep ++ join sep b.
Proof.
  intros Ha Hb. induction a as [|x a IH]; [done|]. destruct a as [|y a].
  - simpl. by destruct b.
  - cbn [app]. change (join sep (x :: y :: a ++ b)) with (x ++ sep ++ join sep ((y :: a) ++ b)).
    rewrite IH by done. change (join sep (x :: y :: a)) with (x ++ sep ++ join sep (y :: a)).
    by rewrite <- !app_assoc.
Qed.

(** *** Runes and white space *)

Definition ascii (c : Byte.byte) : bool := Z_of_byte c <? 128.
(** A byte that is a rune of its own and not white space. *)
Definition plain (c : Byte.byte) : bool := ascii c && negb (isSpace c).

Lemma decodeRune_width s : s <> [] -> (1 <= snd (decodeRune s) <= length s)%nat.
Proof.
  destruct s as [|a [|b [|c [|d s]]]]; intros H; [done|..]; unfold decodeRune; cbn [length];
    repeat case_match; cbn [snd]; lia.
Qed.

Lemma runesF_fuel n m s : (length s <= n)%nat -> (length s <= m)%nat -> runesF n s = runesF m s.
Proof.
  revert m s. induction n as [|n IH]; intros [|m] [|c s] Hn Hm; simpl in Hn, Hm; try lia; try done.
  cbn [runesF]. pose proof (decodeRune_width (c :: s) ltac:(done)) as Hw. simpl in Hw.
  f_equal. apply IH; rewrite length_drop; simpl; lia.
Qed.

Lemma runes_unfold s : s <> [] ->
  runes s = take (snd (decodeRune s)) s :: runes (drop (snd (decodeRune s)) s).
Proof.
  intros Hs. unfold runes. destruct s as [|c s]; [done|]. cbn [length runesF]. f_equal.
  pose proof (decodeRune_width (c :: s) Hs) as Hw. simpl in Hw.
  apply runesF_fuel; rewrite ?length_drop; simpl; lia.
Qed.

Lemma concat_runes s : concat (runes s) = s.
Proof.
  induction s as [s IH] using (induction_ltof1 _ (@length _)). unfold ltof in IH.
  destruct (decide (s = [])) as [->|Hs]; [done|]. rewrite runes_unfold by done. cbn [concat].
  pose proof (decodeRune_width s Hs). rewrite IH by (rewrite length_drop; lia). apply take_drop.
Qed.

Lemma decodeRune_ascii c s : ascii c = true -> decodeRune (c :: s) = (Z_of_byte c, 1%nat).
Proof. intros H. unfold decodeRune. unfold ascii in H. by rewrite H. Qed.

Lemma cont_ascii lo hi c : 128 <= lo -> ascii c = true -> cont lo hi c = false.
Proof. unfold cont, ascii. intros ? ?. zbool. apply andb_false_iff. left. lia. Qed.

(** A rune does not extend over an ASCII byte. *)
Lemma decodeRune_app_ascii s c t : s <> [] -> ascii c = true -> decodeRune (s ++ c :: t) = decodeRune s.
Proof.
  intros Hs Hc.
  assert (Hk : forall lo hi, 128 <= lo -> cont lo hi c = false) by (intros; by apply cont_ascii).
  destruct s as [|a [|b [|d [|e s]]]]; [done|..]; cbn [app]; unfold decodeRune;
    rewrite ?(Hk 128 191) by lia; destruct (Z_of_byte a <? 128); try done;
    destruct ((194 <=? _) && _)%bool; try done;
    (destruct ((224 <=? _) && _)%bool;
      [rewrite ?Hk by (case_match; lia); rewrite ?andb_false_r; try done; destruct t as [|? [|]]; done|]);
    (destruct ((240 <=? _) && _)%bool; [|done]);
    rewrite ?Hk by (case_match; lia); rewrite ?andb_false_r; try done; destruct t as [|? [|]]; done.
Qed.

Lemma runes_app_ascii s c t : ascii c = true -> runes (s ++ c :: t) = runes s ++ [c] :: runes t.
Proof.
  intros Hc. induction s as [s IH] using (induction_ltof1 _ (@length _)). unfold ltof in IH.
  destruct (decide (s = [])) as [->|Hs].
  - cbn [app]. rewrite runes_unfold by done. by rewrite decodeRune_ascii.
  - rewrite runes_unfold by (by destruct s). rewrite decodeRune_app_ascii by done.
    rewrite (runes_unfold s) by done. pose proof (decodeRune_width s Hs).
    rewrite take_app_le, drop_app_le by lia. cbn [app]. f_equal. apply IH. rewrite length_drop. lia.
Qed.

Lemma runes_cons_ascii c s : ascii c = true -> runes (c :: s) = [c] :: runes s.
Proof. apply (runes_app_ascii []). Qed.

Lemma isSpaceSeg_ascii c : ascii c = true -> isSpaceSeg [c] = isSpace c.
Proof. destruct c; done. Qed.

Lemma plain_spec c : plain c = true -> ascii c = true /\ isSpace c = false.
Proof. unfold plain. intros. by zbool. Qed.

Lemma trimLeft_id {A} (f : A -> bool) s : Forall (fun c => f c = false) s -> trimLeft f s = s.
Proof. intros H. destruct H as [|c s Hc _]; [done|]. simpl. by rewrite Hc. Qed.

Lemma trimLeft_app {A} (f : A -> bool) a b : trimLeft f a <> [] -> trimLeft f (a ++ b) = trimLeft f a ++ b.
Proof. induction a as [|x a IH]; [done|]. cbn. destruct (f x); [apply IH|done]. Qed.

Lemma trimLeft_suffix {A} (f : A -> bool) s : exists p, s = p ++ trimLeft f s /\ Forall (fun c => f c = true) p.
Proof.
  induction s as [|x s (p & E & Hp)]; [by exists []|]. cbn. destruct (f x) eqn:Ex; [|by exists []].
  exists (x :: p). split; [by rewrite E at 1|by constructor].
Qed.

(** Trimming keeps a string whose first and last runes are not white space. *)
Lemma trimSpace_ends s d :
  isSpaceSeg (hd [] (runes s)) = false -> plain d = true -> trimSpace (s ++ [d]) = s ++ [d].
Proof.
  intros Hh [Hd Hs]%plain_spec. unfold trimSpace. rewrite runes_app_ascii by done. cbn [runes length runesF].
  unfold trimFunc.
  assert (E : trimLeft isSpaceSeg (runes s ++ [[d]]) = runes s ++ [[d]]).
  { destruct (runes s) as [|g gs]; cbn in *; [by rewrite isSpaceSeg_ascii, Hs|by rewrite Hh]. }
  rewrite E, rev_unit. cbn [trimLeft]. rewrite isSpaceSeg_ascii, Hs by done. cbn [rev].
  by rewrite rev_involutive, concat_app, concat_runes.
Qed.

Lemma runes_plain s : Forall (fun c => plain c = true) s -> runes s = map (fun c => [c]) s.
Proof.
  induction 1 as [|c s [Hc _]%plain_spec _ IH]; [done|]. rewrite runes_cons_ascii by done. cbn. by rewrite IH.
Qed.

Lemma trimSpace_id s : Forall (fun c => plain c = true) s -> trimSpace s = s.
Proof.
  intros H. unfold trimSpace, trimFunc.
  assert (Hr : Forall (fun g => isSpaceSeg g = false) (runes s)).
  { rewrite runes_plain by done. apply Forall_map. eapply Forall_impl; [exact H|].
    intros c [Hc Hs]%plain_spec. cbn. by rewrite isSpaceSeg_ascii. }
  rewrite (trimLeft_id _ (runes s)) by done. rewrite (trimLeft_id _ (rev _)) by (by apply Forall_rev).
  by rewrite rev_involutive, concat_runes.
Qed.

(** A path segment [path.Clean] leaves alone. *)
Definition normalSeg (seg : bytes) : Prop :=
  (slash ∉ seg) /\ seg <> [] /\ seg <> dot /\ seg <> dotdot.

Lemma cleanStep_normal r out seg : normalSeg seg -> cleanStep r out seg = seg :: out.
Proof.
  intros (_ & H1 & H2 & H3). unfold cleanStep, bytes_eqb.
  by rewrite !bool_decide_false by done.
Qed.

Lemma clean_normal r segs out :
  Forall normalSeg segs -> fold_left (cleanStep r) segs out = rev segs ++ out.
Proof.
  revert out. induction segs as [|s segs IH]; intros out H; [done|].
  apply Forall_cons_1 in H as [Hs H]. simpl. rewrite cleanStep_normal, IH by done.
  by rewrite <- app_assoc.
Qed.

(** [path.Join] of clean relative elements is their concatenation. *)
Lemma pathClean_normal segs :
  segs <> [] -> Forall normalSeg segs -> pathClean (join [slash] segs) = join [slash] segs.
Proof.
  intros Hne H. assert (Hns : Forall (fun p => slash ∉ p) segs)
    by (eapply Forall_impl; [exact H|]; by intros ? []).
  unfold pathClean. rewrite split_join by done. rewrite clean_normal, app_nil_r, rev_involutive by done.
  destruct segs as [|seg segs]; [done|]. apply Forall_cons_1 in H as [(Hs & Hne1 & _) _].
  destruct seg as [|c seg]; [done|].
  assert (c <> slash) by (intros ->; apply Hs; by left).
  destruct segs; simpl; by rewrite bool_decide_false.
Qed.

Lemma pathJoin_normal (parts : list (list bytes)) :
  parts <> [] -> Forall (fun segs => segs <> [] /\ Forall normalSeg segs) parts ->
  pathJoin (map (join [slash]) parts) = join [slash] (concat parts).
Proof.
  intros Hne H. unfold pathJoin.
  assert (Hj : forall segs, segs <> [] -> Forall normalSeg segs -> join [slash] segs <> []).
  { intros [|[|c seg] segs] Hn Hs; [done|apply Forall_cons_1 in Hs as [(?&?&?) _]; done|].
    by destruct segs. }
  assert (Hf : filter (fun e => e <> []) (map (join [slash]) parts) = map (join [slash]) parts).
  { clear Hne. induction H as [|segs parts [Hn Hs] H IH]; [done|]. simpl.
    rewrite filter_cons_True by (by apply Hj). by rewrite IH. }
  rewrite Hf.
  assert (Hcat : join [slash] (map (join [slash]) parts) = join [slash] (concat parts) /\
    concat parts <> [] /\ Forall normalSeg (concat parts)).
  { clear Hf. induction H as [|segs parts [Hn Hs] H IH]; [done|].
    destruct parts as [|segs2 parts].
    - simpl. rewrite app_nil_r. done.
    - destruct IH as (IH1 & IH2 & IH3); [done|]. split_and!.
      + change (map (join [slash]) (segs :: segs2 :: parts)) with
          (join [slash] segs :: map (join [slash]) (segs2 :: parts)).
        change (join [slash] (join [slash] segs :: map (join [slash]) (segs2 :: parts))) with
          (join [slash] segs ++ [slash] ++ join [slash] (map (join [slash]) (segs2 :: parts))).
        rewrite IH1. change (concat (segs :: segs2 :: parts)) with (segs ++ concat (segs2 :: parts)).
        by rewrite join_app.
      + simpl. by destruct segs.
      + simpl. apply Forall_app. done. }
  destruct Hcat as (Hc0 & Hc1 & Hc2).
  destruct (map (join [slash]) parts) as [|e es] eqn:E; [by destruct parts|].
  rewrite Hc0. by apply pathClean_normal.
Qed.

Lemma hasPrefix_spec s p : hasPrefix s p = true <-> exists t, s = p ++ t.
Proof.
  unfold hasPrefix, bytes_eqb. rewrite bool_decide_eq_true. split.
  - intros E. exists (drop (length p) s). rewrite <- E at 1. by rewrite take_drop.
  - intros [t ->]. by rewrite take_app_length.
Qed.

Lemma hasSuffix_spec s p : hasSuffix s p = true <-> exists t, s = t ++ p.
Proof.
  unfold hasSuffix, bytes_eqb. rewrite andb_true_iff, bool_decide_eq_true, Nat.leb_le. split.
  - intros [_ E]. exists (take (length s - length p) s). rewrite <- E at 2. by rewrite take_drop.
  - intros [t ->]. rewrite length_app. split; [lia|].
    replace (length t + length p - length p)%nat with (length t) by lia. by rewrite drop_app_length.
Qed.

Lemma trimPrefix_app p s : trimPrefix (p ++ s) p = s.
Proof.
  unfold trimPrefix. rewrite (proj2 (hasPrefix_spec _ _)) by eauto. by rewrite drop_app_length.
Qed.

Lemma trimSuffix_app p s : trimSuffix (s ++ p) p = s.
Proof.
  unfold trimSuffix. rewrite (proj2 (hasSuffix_spec _ _)) by eauto.
  rewrite length_app. replace (length s + length p - length p)%nat with (length s) by lia.
  by rewrite take_app_length.
Qed.

(** The last segment of a path that does not end in a slash. *)
Lemma pathBase_join segs f :
  (slash ∉ f) -> f <> [] -> Forall (fun p => slash ∉ p) segs ->
  pathBase (join [slash] (segs ++ [f])) = f.
Proof.
  intros Hf Hne Hs.
  assert (Hsp : split slash (join [slash] (segs ++ [f])) = segs ++ [f]).
  { apply split_join; [by destruct segs|]. apply Forall_app. split; [done|]. by repeat constructor. }
  assert (exists s x, join [slash] (segs ++ [f]) = s ++ [x] /\ x <> slash) as (s & x & E & Hx).
  { destruct (exists_last Hne) as (f' & x & Ef). exists (match segs with [] => f' | _ => join [slash] segs ++ [slash] ++ f' end), x.
    split; [|intros ->; apply Hf; rewrite Ef; apply elem_of_app; right; by left].
    destruct segs as [|p ps]; [by rewrite Ef|]. rewrite join_app by done.
    rewrite Ef. simpl. by rewrite <- !app_assoc. }
  unfold pathBase. rewrite E.
  assert (Et : rev (trimLeft (fun c => bool_decide (c = slash)) (rev (s ++ [x]))) = s ++ [x]).
  { rewrite rev_unit. simpl. rewrite bool_decide_false by done.
    change (rev (x :: rev s)) with (rev (rev s) ++ [x]). by rewrite rev_involutive. }
  rewrite Et, <- E, Hsp, rev_unit. destruct (join [slash] (segs ++ [f])) eqn:Ej; [by destruct s|done].
Qed.

(** The digest is evaluated only by [vm_compute]. *)
#[global] Opaque sha256.
