(* ===== verification/GoNum.v ===== *)
(** * GoNum: numbers of the Go standard library

    IEEE 754 binary64 over the specification of floating-point numbers of the
    Standard Library, and [time.ParseDuration]. *)

From Stdlib Require Import ZArith Lia Floats.SpecFloat.
From Stdlib.Strings Require Import Byte.
From stdpp Require Import base list.
From S2P Require Import Prelude GoStd.
Open Scope Z_scope.

(** ** float64 *)

Definition float64 : Type := spec_float.
Definition f64mul : float64 -> float64 -> float64 := SFmul 53 1024.
Definition f64div : float64 -> float64 -> float64 := SFdiv 53 1024.
(** [float64(n)], rounded to nearest even *)
Definition f64ofZ (n : Z) : float64 := binary_normalize 53 1024 n 0 false.
(** [uint64(f)] for a nonnegative finite [f] *)
Definition f64trunc (f : float64) : Z :=
  match f with
  | S754_finite false m e => Z.shiftl (Z.pos m) e
  | _ => 0
  end.

(** ** time.ParseDuration, in nanoseconds *)

Definition isDigit (c : byte) : bool := (48 <=? Z_of_byte c) && (Z_of_byte c <=? 57).
Definition digitVal (c : byte) : Z := Z_of_byte c - 48.

(** The number read, and the rest; [None] on overflow. *)
Fixpoint leadingInt (x : Z) (s : bytes) : option (Z * bytes) :=
  match s with
  | c :: s' =>
      if isDigit c then
        if (2 ^ 63) / 10 <? x then None
        else let x' := x * 10 + digitVal c in
             if 2 ^ 63 <? x' then None else leadingInt x' s'
      else Some (x, s)
  | [] => Some (x, [])
  end.

Fixpoint leadingFraction (x : Z) (scale : float64) (overflow : bool) (s : bytes) : Z * float64 * bytes :=
  match s with
  | c :: s' =>
      if isDigit c then
        if overflow then leadingFraction x scale overflow s'
        else if (2 ^ 63 - 1) / 10 <? x then leadingFraction x scale true s'
        else let y := x * 10 + digitVal c in
             if 2 ^ 63 <? y then leadingFraction x scale true s'
             else leadingFraction y (f64mul scale (f64ofZ 10)) false s'
      else (x, scale, s)
  | [] => (x, scale, [])
  end.

Definition unitMap (u : bytes) : option Z :=
  if bytes_eqb u (go "ns") then Some 1
  else if bytes_eqb u (go "us") || bytes_eqb u [Byte.xc2; Byte.xb5; Byte.x73]
       || bytes_eqb u [Byte.xce; Byte.xbc; Byte.x73] then Some 1000
  else if bytes_eqb u (go "ms") then Some 1000000
  else if bytes_eqb u (go "s") then Some 1000000000
  else if bytes_eqb u (go "m") then Some 60000000000
  else if bytes_eqb u (go "h") then Some 3600000000000
  else None.

Fixpoint spanUnit (s : bytes) : bytes * bytes :=
  match s with
  | c :: s' => if bool_decide (c = Byte.x2e) || isDigit c then ([], s)
               else let (u, r) := spanUnit s' in (c :: u, r)
  | [] => ([], [])
  end.

(** The terms after the sign; every term consumes its unit. *)
Fixpoint durationTerms (fuel : nat) (d : Z) (s : bytes) : option Z :=
  match fuel, s with
  | _, [] => Some d
  | O, _ => None
  | S fuel, c :: _ =>
      if negb (bool_decide (c = Byte.x2e) || isDigit c) then None else
      match leadingInt 0 s with
      | None => None
      | Some (v, s1) =>
          let pre := negb (Nat.eqb (length s1) (length s)) in
          let '(f, scale, s2, post) :=
            match s1 with
            | c1 :: s1' =>
                if bool_decide (c1 = Byte.x2e) then
                  let '(f, scale, r) := leadingFraction 0 (f64ofZ 1) false s1' in
                  (f, scale, r, negb (Nat.eqb (length r) (length s1')))
                else (0, f64ofZ 1, s1, false)
            | [] => (0, f64ofZ 1, s1, false)
            end in
          if negb pre && negb post then None else
          let (u, s3) := spanUnit s2 in
          match u, unitMap u with
          | [], _ | _, None => None
          | _, Some unit =>
              if 2 ^ 63 / unit <? v then None else
              let v := v * unit in
              let v := if 0 <? f
                       then v + f64trunc (f64mul (f64ofZ f) (f64div (f64ofZ unit) scale)) else v in
              if 2 ^ 63 <? v then None else
              if 2 ^ 63 <? d + v then None else durationTerms fuel (d + v) s3
          end
      end
  end.

Definition ParseDuration (s : bytes) : option Z :=
  let '(neg, s) := match s with
                   | c :: s' => if bool_decide (c = Byte.x2d) then (true, s')
                                else if bool_decide (c = Byte.x2b) then (false, s') else (false, s)
                   | [] => (false, s)
                   end in
  if bytes_eqb s (go "0") then Some 0
  else if bytes_eqb s [] then None
  else match durationTerms (length s) 0 s with
       | None => None
       | Some d => if neg then Some (- d) else if 2 ^ 63 - 1 <? d then None else Some d
       end.

Example ParseDuration_examples :
  ParseDuration (go "1h30m") = Some 5400000000000 /\ ParseDuration (go "1.5s") = Some 1500000000 /\
  ParseDuration (go ".5ms") = Some 500000 /\ ParseDuration (go "-2us") = Some (-2000) /\
  ParseDuration (go "3") = None /\ ParseDuration (go "s") = None /\ ParseDuration (go "0") = Some 0.
Proof. vm_compute. auto 10. Qed.
