(* ===== verification/GoGlob.v ===== *)
(** * GoGlob: [path.Match]

    Shell patterns as the standard library matches them: [*] and [?] do not match a
    slash, character classes, escapes, and the error for malformed patterns. *)

From Stdlib Require Import ZArith Lia.
From Stdlib.Strings Require Import Byte.
From stdpp Require Import base list.
From S2P Require Import Prelude GoStd.
Open Scope Z_scope.

(** ** [path.Match] *)

Inductive globErr := ErrBadPattern.

Definition star : byte := Byte.x2a.
Definition quest : byte := Byte.x3f.
Definition bslash : byte := Byte.x5c.
Definition lbrack : byte := Byte.x5b.
Definition rbrack : byte := Byte.x5d.
Definition dash : byte := Byte.x2d.
Definition caret : byte := Byte.x5e.

(** [len(s) > 0 && s[0] == c] *)
Definition startsWith (c : byte) (s : bytes) : bool :=
  match s with x :: _ => bool_decide (x = c) | [] => false end.

(** The next non-star chunk: its bytes, and the rest of the pattern. *)
Fixpoint scanRest (inrange : bool) (p : bytes) : bytes * bytes :=
  match p with
  | [] => ([], [])
  | c :: p1 =>
      if bool_decide (c = bslash) then
        match p1 with
        | c1 :: p2 => let (a, b) := scanRest inrange p2 in (c :: c1 :: a, b)
        | [] => ([c], [])
        end
      else if bool_decide (c = star) && negb inrange then ([], p)
      else
        let inrange := if bool_decide (c = lbrack) then true
                       else if bool_decide (c = rbrack) then false else inrange in
        let (a, b) := scanRest inrange p1 in (c :: a, b)
  end.

Fixpoint skipStars (p : bytes) : bool * bytes :=
  match p with
  | c :: p' => if bool_decide (c = star) then (true, snd (skipStars p')) else (false, p)
  | [] => (false, [])
  end.

Definition scanChunk (p : bytes) : bool * bytes * bytes :=
  let (st, p) := skipStars p in
  let (chunk, rest) := scanRest false p in (st, chunk, rest).

(** A possibly escaped character of a class. *)
Definition getEsc (chunk : bytes) : res globErr (Z * bytes) :=
  match chunk with
  | [] => Err ErrBadPattern
  | c :: chunk' =>
      if bool_decide (c = dash) || bool_decide (c = rbrack) then Err ErrBadPattern else
      let chunk := if bool_decide (c = bslash) then chunk' else chunk in
      match chunk with
      | [] => Err ErrBadPattern
      | _ =>
          let (r, n) := decodeRune chunk in
          if (r =? RuneError) && Nat.eqb n 1 then Err ErrBadPattern
          else match drop n chunk with [] => Err ErrBadPattern | nchunk => Ok (r, nchunk) end
      end
  end.

(** The ranges of a class: whether the rune is in one, and what follows. *)
Fixpoint classRanges (fuel : nat) (r : Z) (nrange : bool) (matched : bool) (chunk : bytes)
    : res globErr (bool * bytes) :=
  match fuel with
  | O => Err ErrBadPattern
  | S fuel =>
      if startsWith rbrack chunk && nrange then Ok (matched, tail chunk) else
      lo ← getEsc chunk;
      hi ← (if startsWith dash (snd lo) then getEsc (tail (snd lo)) else Ok lo);
      classRanges fuel r true (matched || ((fst lo <=? r) && (r <=? fst hi))) (snd hi)
  end.

(** [matchChunk]; [s = None] once the match has failed, when only the syntax is
    checked. *)
Fixpoint matchChunk (fuel : nat) (chunk : bytes) (s : option bytes) : res globErr (option bytes) :=
  match fuel with
  | O => Ok None
  | S fuel =>
      match chunk with
      | [] => Ok s
      | c :: chunk1 =>
          let s := match s with Some [] => None | _ => s end in
          if bool_decide (c = lbrack) then
            let '(r, s1) := match s with
                            | Some x => let (r, n) := decodeRune x in (r, Some (drop n x))
                            | None => (0, None)
                            end in
            let negated := startsWith caret chunk1 in
            let chunk2 := if negated then tail chunk1 else chunk1 in
            cl ← classRanges (S (length chunk2)) r false false chunk2;
            matchChunk fuel (snd cl) (if Bool.eqb (fst cl) negated then None else s1)
          else if bool_decide (c = quest) then
            matchChunk fuel chunk1
              (match s with
               | Some (x :: xs) => if bool_decide (x = slash) then None
                                   else Some (drop (snd (decodeRune (x :: xs))) (x :: xs))
               | _ => None
               end)
          else
            match (if bool_decide (c = bslash) then chunk1 else chunk) with
            | [] => Err ErrBadPattern
            | lit :: chunk2 =>
                matchChunk fuel chunk2
                  (match s with
                   | Some (x :: xs) => if bool_decide (lit = x) then Some xs else None
                   | _ => None
                   end)
            end
      end
  end.

Definition matchChunk' (chunk s : bytes) : res globErr (option bytes) :=
  matchChunk (S (length chunk)) chunk (Some s).

(** The chunk after a star, tried at later positions not past a slash. *)
Fixpoint matchLater (chunk : bytes) (last : bool) (name : bytes) : res globErr (option bytes) :=
  match name with
  | [] => Ok None
  | c :: name' =>
      if bool_decide (c = slash) then Ok None else
      t ← matchChunk' chunk name';
      match t with
      | Some t => if last && negb (bytes_eqb t []) then matchLater chunk last name' else Ok (Some t)
      | None => matchLater chunk last name'
      end
  end.

(** The rest of the pattern is checked for syntax before a mismatch is reported. *)
Fixpoint checkRest (fuel : nat) (p : bytes) : res globErr bool :=
  match fuel, p with
  | S fuel, _ :: _ =>
      let '(_, chunk, rest) := scanChunk p in
      matchChunk' chunk [] ≫= fun _ => checkRest fuel rest
  | _, _ => Ok false
  end.

Fixpoint matchF (fuel : nat) (p name : bytes) : res globErr bool :=
  match fuel, p with
  | _, [] => Ok (bytes_eqb name [])
  | O, _ => Ok false
  | S fuel, _ :: _ =>
      let '(st, chunk, rest) := scanChunk p in
      if st && bytes_eqb chunk [] then Ok (negb (containsByte slash name)) else
      t ← matchChunk' chunk name;
      match t with
      | Some t =>
          if bytes_eqb t [] || negb (bytes_eqb rest []) then matchF fuel rest t
          else if st then
            l ← matchLater chunk (bytes_eqb rest []) name;
            match l with Some t => matchF fuel rest t | None => checkRest fuel rest end
          else checkRest fuel rest
      | None =>
          if st then
            l ← matchLater chunk (bytes_eqb rest []) name;
            match l with Some t => matchF fuel rest t | None => checkRest fuel rest end
          else checkRest fuel rest
      end
  end.

Definition Match (p name : bytes) : res globErr bool := matchF (length p) p name.

Example Match_examples :
  Match (go "*.internal") (go "db.internal") = Ok true /\ Match (go "a*b*c") (go "aXbYbc") = Ok true /\
  Match (go "*") (go "a/b") = Ok false /\ Match (go "a?c") (go "abc") = Ok true /\
  Match (go "[a-c]x") (go "bx") = Ok true /\ Match (go "[^a-c]x") (go "bx") = Ok false /\
  Match (go "[]a]") (go "a") = Err ErrBadPattern /\ Match (go "a[") (go "b") = Err ErrBadPattern /\
  Match (go "\*") (go "*") = Ok true /\ Match (go "*x") (go "xxx") = Ok true.
Proof. vm_compute. auto 20. Qed.

(** ** Facts *)

Lemma Match_star name : Match (go "*") name = Ok (negb (containsByte slash name)).
Proof. reflexivity. Qed.

(** A byte that stands for itself in a pattern. *)
Definition literal (c : byte) : Prop := c <> star /\ c <> quest /\ c <> bslash /\ c <> lbrack.
