(* ===== verification/GoPath.v ===== *)
(** * Package path/filepath on Unix

    [filepath.Rel], [filepath.Dir] and [filepath.EvalSymlinks] beside the
    [path] functions of [GoStd] (on Unix [filepath.Clean], [Join] and [Base] are those of
    [path]), and the file tree [EvalSymlinks] reads: directories, files and
    symbolic links by their real path, and the working directory of the process. *)
From stdpp Require Import base list gmap strings numbers.
From Stdlib Require Import ZArith Lia.
From Stdlib.Strings Require Import Byte.
From S2P Require Import Prelude GoStd.

(** ** Lexical operations *)

Definition isAbs (p : bytes) : bool :=
  match p with c :: _ => bool_decide (c = slash) | [] => false end.

(** The absolute path with the given segments, and the segments of a path. *)
Definition absPath (segs : list bytes) : bytes := slash :: join [slash] segs.
Definition segsOf (p : bytes) : list bytes := filter (fun s => s <> []) (split slash p).

(** [filepath.Dir]: everything before the last separator, cleaned. *)
Definition pathDir (p : bytes) : bytes :=
  pathClean (rev (trimLeft (fun c => negb (bool_decide (c = slash))) (rev p))).

(** The elements [filepath.Rel] compares: the root is the empty first element. *)
Definition relSegs (p : bytes) : list bytes :=
  if bytes_eqb p dot then []
  else if bytes_eqb p [slash] then [[]] else split slash p.

(** The comparison loop of [filepath.Rel]: an error when the first differing
    element of the base is [..]; otherwise up from what is left of the base,
    then down what is left of the target. *)
Fixpoint relGo (base targ : list bytes) : option bytes :=
  match base, targ with
  | b :: base', t :: targ' =>
      if bytes_eqb b t then relGo base' targ'
      else if bytes_eqb b dotdot then None
      else Some (join [slash] (map (fun _ => dotdot) base ++ targ))
  | _, _ => Some (join [slash] (map (fun _ => dotdot) base ++ targ))
  end.

Definition pathRel (basepath targpath : bytes) : option bytes :=
  let base := pathClean basepath in
  let targ := pathClean targpath in
  if bytes_eqb targ base then Some dot
  else if negb (Bool.eqb (isAbs base) (isAbs targ)) then None
  else relGo (relSegs base) (if bytes_eqb targ [slash] then [[]] else split slash targ).

(** ** The file tree and [filepath.EvalSymlinks] *)

Inductive node : Type :=
| NDir
| NFile
| NLink (target : bytes).

#[export] Instance node_eq_dec : EqDecision node.
Proof. solve_decision. Defined.

(** Nodes by the segments of their real path; the root is always a directory. *)
Record FS := mkFS {
  nodes : gmap (list bytes) node;
  cwd : list bytes;
}.

(** A resolved prefix is kept latest element first. A relative one is read from the
    working directory. *)
Definition phys (fs : FS) (rooted : bool) (dest : list bytes) : list bytes :=
  if rooted then rev dest else rev (fold_left (cleanStep true) (rev dest) (rev (cwd fs))).

Definition lstat (fs : FS) (p : list bytes) : option node :=
  match p with [] => Some NDir | _ => nodes fs !! p end.

Definition render (rooted : bool) (dest : list bytes) : bytes :=
  let body := join [slash] (rev dest) in
  if rooted then slash :: body else match body with [] => dot | _ => body end.

(** [walkSymlinks]: [links] is how many more links may be followed. An element after a
    file is an error, and so is a separator after it. *)
Fixpoint walkSymlinks (fs : FS) (links : nat) : bool -> list bytes -> list bytes -> option bytes :=
  fix step (rooted : bool) (dest rest : list bytes) {struct rest} : option bytes :=
    match rest with
    | [] => Some (render rooted dest)
    | seg :: rest' =>
        if bytes_eqb seg [] || bytes_eqb seg dot then step rooted dest rest'
        else if bytes_eqb seg dotdot then step rooted (cleanStep rooted dest seg) rest'
        else
          match lstat fs (phys fs rooted (seg :: dest)) with
          | None => None
          | Some NDir => step rooted (seg :: dest) rest'
          | Some NFile => match rest' with [] => step rooted (seg :: dest) rest' | _ => None end
          | Some (NLink t) =>
              match links with
              | O => None
              | S links' =>
                  if isAbs t then walkSymlinks fs links' true [] (split slash t ++ rest')
                  else walkSymlinks fs links' rooted dest (split slash t ++ rest')
              end
          end
    end.

Definition EvalSymlinks (fs : FS) (p : bytes) : option bytes :=
  walkSymlinks fs 255 (isAbs p) [] (split slash p).

(** ** Clean absolute paths *)

Lemma bytes_eqb_spec a b : bytes_eqb a b = true <-> a = b.
Proof. unfold bytes_eqb. apply bool_decide_eq_true. Qed.

Lemma bytes_eqb_neq a b : a <> b -> bytes_eqb a b = false.
Proof. intros H. unfold bytes_eqb. by apply bool_decide_false. Qed.

Lemma bytes_eqb_false a b : bytes_eqb a b = false -> a <> b.
Proof. unfold bytes_eqb. by rewrite bool_decide_eq_false. Qed.

Lemma bytes_eqb_refl a : bytes_eqb a a = true.
Proof. by apply bytes_eqb_spec. Qed.

Lemma normalSeg_nosep segs : Forall normalSeg segs -> Forall (fun p => slash ∉ p) segs.
Proof. intros H. eapply Forall_impl; [exact H|]. by intros ? []. Qed.

Lemma split_absPath segs : Forall normalSeg segs ->
  split slash (absPath segs) = [] :: match segs with [] => [[]] | _ => segs end.
Proof.
  intros H. unfold absPath. change (slash :: join [slash] segs) with ([] ++ slash :: join [slash] segs).
  rewrite split_app_sep by set_solver. destruct segs as [|s segs]; [done|].
  by rewrite split_join by (done || by apply normalSeg_nosep).
Qed.

Lemma segsOf_absPath segs : Forall normalSeg segs -> segsOf (absPath segs) = segs.
Proof.
  intros H. unfold segsOf. rewrite split_absPath by done.
  rewrite filter_cons_False by (intros ?; done).
  destruct segs as [|s segs']; [done|]. remember (s :: segs') as segs eqn:E. clear E s segs'.
  induction H as [|s segs (_&Hs&_) H IH]; [done|]. by rewrite filter_cons_True, IH by done.
Qed.

Lemma clean_fold_normal segs out :
  Forall (fun p => slash ∉ p) segs -> Forall normalSeg out ->
  Forall normalSeg (fold_left (cleanStep true) segs out).
Proof.
  revert out. induction segs as [|s segs IH]; intros out Hs Ho; [done|].
  apply Forall_cons_1 in Hs as [Hs Hss]. apply IH; [done|]. unfold cleanStep.
  destruct (bytes_eqb s []) eqn:E1; [done|]. destruct (bytes_eqb s dot) eqn:E2; [done|]. simpl.
  destruct (bytes_eqb s dotdot) eqn:E3.
  - destruct Ho as [|top out (_&_&_&Ht) Ho]; [constructor|]. by rewrite bytes_eqb_neq.
  - constructor; [|done]. split_and!; [done|..]; by apply bytes_eqb_false.
Qed.

(** Cleaning an absolute path gives an absolute path without empty, [.] or [..]
    elements; such a path is already clean. *)
Lemma pathClean_abs p : isAbs p = true ->
  exists segs, Forall normalSeg segs /\ pathClean p = absPath segs.
Proof.
  intros Ha. unfold pathClean. change (match p with [] => false | c :: _ => bool_decide (c = slash) end) with (isAbs p).
  rewrite Ha. eexists (rev _). split; [|reflexivity]. apply Forall_rev.
  apply clean_fold_normal; [apply split_parts_nosep|constructor].
Qed.

Lemma pathClean_absPath segs : Forall normalSeg segs -> pathClean (absPath segs) = absPath segs.
Proof.
  intros H. unfold pathClean. rewrite split_absPath by done. cbn [absPath].
  rewrite bool_decide_true by done. unfold absPath. f_equal. f_equal.
  destruct segs as [|s segs']; [done|]. remember (s :: segs') as segs eqn:E. clear E s segs'.
  cbn [fold_left]. change (cleanStep true [] []) with (@nil bytes).
  by rewrite clean_normal, app_nil_r, rev_involutive.
Qed.

Lemma absPath_inj a b : Forall normalSeg a -> Forall normalSeg b -> absPath a = absPath b -> a = b.
Proof. intros Ha Hb E. by rewrite <- (segsOf_absPath a), <- (segsOf_absPath b), E by done. Qed.

Lemma clean_fold_nosep r segs out :
  Forall (fun s => slash ∉ s) segs -> Forall (fun s => (slash ∉ s) /\ s <> []) out ->
  Forall (fun s => (slash ∉ s) /\ s <> []) (fold_left (cleanStep r) segs out).
Proof.
  revert out. induction segs as [|s segs IH]; intros out Hs Ho; [done|].
  apply Forall_cons_1 in Hs as [Hs Hl]. apply IH; [done|]. unfold cleanStep.
  destruct (bytes_eqb s []) eqn:E1; [done|]. destruct (bytes_eqb s dot) eqn:E2; [done|]. simpl.
  apply bytes_eqb_false in E1.
  destruct (bytes_eqb s dotdot); [|by apply Forall_cons].
  destruct Ho as [|top out Ht Ho].
  - destruct r; [constructor|]. apply Forall_cons. by split; [|constructor].
  - case_match; [|done]. apply Forall_cons. split; [done|]. by apply Forall_cons.
Qed.

Lemma isAbs_clean p : isAbs (pathClean p) = isAbs p.
Proof.
  destruct (isAbs p) eqn:E.
  - destruct (pathClean_abs p E) as (segs & _ & ->). done.
  - unfold pathClean. change (match p with [] => false | c :: _ => bool_decide (c = slash) end) with (isAbs p).
    rewrite E. pose proof (clean_fold_nosep false _ [] (split_parts_nosep slash p) ltac:(constructor)) as Hs.
    apply Forall_rev in Hs. destruct Hs as [|s segs' [Hs Hne] Hs']; [done|]. destruct s as [|c s]; [done|].
    assert (c <> slash) by (intros ->; apply Hs; by left).
    destruct segs'; simpl; by rewrite bool_decide_false.
Qed.

(** ** What [Rel] says of absolute paths *)

Lemma relGo_prefix base rest : relGo base (base ++ rest) = Some (join [slash] rest).
Proof. induction base as [|b base IH]; simpl; [by destruct rest|]. by rewrite bytes_eqb_refl. Qed.

(** Between clean absolute paths [Rel] never fails; its result starts with [..]
    exactly when the target is outside the base. *)
Lemma relGo_spec base targ : Forall normalSeg base -> Forall normalSeg targ ->
  exists up rest : list bytes, relGo base targ = Some (join [slash] (map (fun _ => dotdot) up ++ rest)) /\
    Forall normalSeg rest /\ (up = [] <-> base `prefix_of` targ) /\ (up = [] -> targ = base ++ rest).
Proof.
  revert targ. induction base as [|b base IH]; intros targ Hb Ht.
  { exists [], targ. split_and!; [by destruct targ|done|split; [intros _; apply prefix_nil|done]|done]. }
  apply Forall_cons_1 in Hb as [Hb Hbs]. destruct targ as [|t targ].
  { exists (b :: base), []. split_and!; [done|constructor| |done].
    split; [done|]. by intros ?%prefix_nil_not. }
  apply Forall_cons_1 in Ht as [Ht Hts]. simpl. destruct (bytes_eqb b t) eqn:E.
  - apply bytes_eqb_spec in E as ->. destruct (IH targ Hbs Hts) as (up & rest & Er & Hr & Hiff & Heq).
    exists up, rest. split_and!; [done|done| |intros Eu; by rewrite (Heq Eu)].
    rewrite Hiff. split; [apply prefix_cons|apply prefix_cons_inv_2].
  - destruct Hb as (?&?&?&Hdd). rewrite (bytes_eqb_neq b dotdot) by done.
    exists (b :: base), (t :: targ). split_and!; [done|by constructor| |done].
    split; [done|]. intros Hp. apply prefix_cons_inv_1 in Hp as ->. by rewrite bytes_eqb_refl in E.
Qed.

Lemma relSegs_absPath a : Forall normalSeg a ->
  (if bytes_eqb (absPath a) [slash] then [[]] else split slash (absPath a)) = [] :: a.
Proof.
  intros Ha. destruct a as [|s a]; [done|]. rewrite bytes_eqb_neq; [by rewrite split_absPath|].
  apply Forall_cons_1 in Ha as [(_&Hs&_) _]. unfold absPath. destruct s as [|c s]; [done|]. by destruct a.
Qed.

(** The test both callers of [Rel] make of its result. *)
Definition relInside (rel : bytes) : bool :=
  negb (bytes_eqb rel dotdot) && negb (hasPrefix rel (dotdot ++ [slash])).

Lemma relInside_up (up rest : list bytes) :
  up <> [] -> relInside (join [slash] (map (fun _ => dotdot) up ++ rest)) = false.
Proof.
  intros Hu. unfold relInside. destruct up as [|u up]; [done|]. cbn [map app].
  destruct (map (fun _ => dotdot) up ++ rest) as [|y ys]; [by cbn; rewrite bytes_eqb_refl|].
  change (join [slash] (dotdot :: y :: ys)) with (dotdot ++ [slash] ++ join [slash] (y :: ys)).
  rewrite (proj2 (hasPrefix_spec _ _)); [by rewrite andb_false_r|]. eexists. by rewrite app_assoc.
Qed.

Lemma relInside_down (rest : list bytes) :
  Forall normalSeg rest -> relInside (join [slash] rest) = true.
Proof.
  intros H. assert (Hsp : rest <> [] -> split slash (join [slash] rest) = rest)
    by (intros Hne; apply split_join; [done|by apply normalSeg_nosep]).
  assert (Hh : forall t, rest <> [] -> split slash (join [slash] rest) <> dotdot :: t).
  { intros t Hne. rewrite Hsp by done. intros ->. by apply Forall_cons_1 in H as [(_&_&_&?) _]. }
  unfold relInside. apply andb_true_iff. split; apply negb_true_iff.
  - apply bytes_eqb_neq. intros E. destruct rest as [|r rs]; [done|]. eapply (Hh []); [done|].
    rewrite E. by apply split_nosep; apply (bool_decide_eq_true_1 _).
  - apply not_true_iff_false. rewrite hasPrefix_spec. intros [t E]. destruct rest as [|r rs]; [done|].
    eapply (Hh (split slash t)); [done|]. rewrite E, <- app_assoc. cbn [app].
    apply split_app_sep. by apply (bool_decide_eq_true_1 _).
Qed.

Lemma pathRel_abs a b : Forall normalSeg a -> Forall normalSeg b ->
  exists rel, pathRel (absPath a) (absPath b) = Some rel /\
    (relInside rel = true <-> a `prefix_of` b) /\ (rel = dot -> relInside rel = true).
Proof.
  intros Ha Hb. unfold pathRel. rewrite !pathClean_absPath by done.
  destruct (bytes_eqb (absPath b) (absPath a)) eqn:E.
  { apply bytes_eqb_spec, absPath_inj in E as ->; [|done..]. exists dot. split_and!; [done|by split|done]. }
  change (isAbs (absPath a)) with true. change (isAbs (absPath b)) with true. cbn [Bool.eqb negb].
  unfold relSegs. rewrite (bytes_eqb_neq (absPath a) dot) by done. rewrite !relSegs_absPath by done.
  cbn [relGo]. rewrite bytes_eqb_refl. destruct (relGo_spec a b Ha Hb) as (up & rest & -> & Hr & Hiff & _).
  eexists. split; [done|]. split; [|by intros ->].
  rewrite <- Hiff. destruct up as [|u up].
  - split; [done|]. intros _. by apply relInside_down.
  - rewrite relInside_up by done. by split.
Qed.

(** A relative path has no [Rel] to an absolute base. *)
Lemma pathRel_mixed a p : isAbs a = true -> isAbs p = false -> pathRel a p = None.
Proof.
  intros Ha Hp. unfold pathRel. rewrite bytes_eqb_neq; [by rewrite !isAbs_clean, Ha, Hp|].
  intros E%(f_equal isAbs). rewrite !isAbs_clean in E. congruence.
Qed.

(** ** What [EvalSymlinks] returns

    The result of an absolute path is a real path: absolute, clean, every element of it
    exists and none is a link. Resolving it again changes nothing. *)

Definition realDirs (fs : FS) (l : list bytes) : Prop :=
  forall k, k <> [] -> k `prefix_of` l -> nodes fs !! k = Some NDir.

Definition realPath (fs : FS) (l : list bytes) : Prop :=
  forall k, k <> [] -> k `prefix_of` l ->
    nodes fs !! k = Some NDir \/ (k = l /\ nodes fs !! k = Some NFile).

Lemma prefix_snoc_inv (k l : list bytes) x : k `prefix_of` l ++ [x] -> k = l ++ [x] \/ k `prefix_of` l.
Proof.
  intros [s E]. destruct s as [|y s _] using rev_ind; [left; by rewrite app_nil_r in E|].
  right. rewrite app_assoc in E. apply app_inj_tail in E as [-> _]. by exists s.
Qed.

Lemma walk_cons fs links rooted dest seg rest :
  walkSymlinks fs links rooted dest (seg :: rest) =
    if bytes_eqb seg [] || bytes_eqb seg dot then walkSymlinks fs links rooted dest rest
    else if bytes_eqb seg dotdot then walkSymlinks fs links rooted (cleanStep rooted dest seg) rest
    else
      match lstat fs (phys fs rooted (seg :: dest)) with
      | None => None
      | Some NDir => walkSymlinks fs links rooted (seg :: dest) rest
      | Some NFile => match rest with [] => walkSymlinks fs links rooted (seg :: dest) rest | _ => None end
      | Some (NLink t) =>
          match links with
          | O => None
          | S links' =>
              if isAbs t then walkSymlinks fs links' true [] (split slash t ++ rest)
              else walkSymlinks fs links' rooted dest (split slash t ++ rest)
          end
      end.
Proof. by destruct links. Qed.

Lemma walk_nil fs links rooted dest : walkSymlinks fs links rooted dest [] = Some (render rooted dest).
Proof. by destruct links. Qed.

Lemma lstat_snoc fs dest seg : lstat fs (phys fs true (seg :: dest)) = nodes fs !! (rev dest ++ [seg]).
Proof. cbn. by destruct (rev dest). Qed.

Lemma realDirs_snoc fs l x : realDirs fs l -> nodes fs !! (l ++ [x]) = Some NDir -> realDirs fs (l ++ [x]).
Proof. intros H E k Hk [->|Hp]%prefix_snoc_inv; [done|by apply H]. Qed.

Lemma realDirs_up fs dest :
  Forall normalSeg dest -> realDirs fs (rev dest) ->
  Forall normalSeg (cleanStep true dest dotdot) /\ realDirs fs (rev (cleanStep true dest dotdot)).
Proof.
  intros Hn Hr. destruct Hn as [|top dest (_&_&_&Ht) Hn]; [done|].
  assert (E : cleanStep true (top :: dest) dotdot = dest).
  { unfold cleanStep. cbn -[bytes_eqb]. by rewrite (bytes_eqb_neq top). }
  rewrite E. split; [done|]. intros k Hk Hp. apply Hr; [done|]. cbn. by apply prefix_app_r.
Qed.

Lemma walk_real fs links dest rest r :
  walkSymlinks fs links true dest rest = Some r ->
  Forall normalSeg dest -> Forall (fun s => slash ∉ s) rest -> realDirs fs (rev dest) ->
  exists segs, Forall normalSeg segs /\ r = absPath segs /\ realPath fs segs.
Proof.
  revert dest rest r. induction links as [links IHl] using lt_wf_ind.
  intros dest rest. revert dest. induction rest as [|seg rest IH]; intros dest r E Hn Hs Hr.
  { rewrite walk_nil in E. injection E as <-. exists (rev dest). split_and!; [by apply Forall_rev|done|].
    intros k Hk Hp. left. by apply Hr. }
  rewrite walk_cons in E. apply Forall_cons_1 in Hs as [Hs Hss].
  destruct (bytes_eqb seg []) eqn:E1; [by eapply IH; [exact E|..]|].
  destruct (bytes_eqb seg dot) eqn:E2; [by eapply IH; [exact E|..]|]. cbn [orb] in E.
  destruct (bytes_eqb seg dotdot) eqn:E3.
  { apply bytes_eqb_spec in E3 as ->. destruct (realDirs_up fs dest Hn Hr) as (Hn' & Hr'). by eapply IH. }
  assert (Hseg : normalSeg seg) by (split_and!; [done|by apply bytes_eqb_false..]).
  rewrite lstat_snoc in E. destruct (nodes fs !! (rev dest ++ [seg])) as [[| |t]|] eqn:El; [..|done].
  - eapply IH; [exact E|by constructor|done|]. cbn. by apply realDirs_snoc.
  - destruct rest; [|done]. rewrite walk_nil in E. injection E as <-. exists (rev dest ++ [seg]).
    split_and!; [by apply Forall_app; split; [apply Forall_rev|repeat constructor; apply Hseg]|done|].
    intros k Hk [->|Hp]%prefix_snoc_inv; [by right|left; by apply Hr].
  - destruct links as [|links]; [done|].
    assert (Forall (fun s => slash ∉ s) (split slash t ++ rest)) by (apply Forall_app; split; [apply split_parts_nosep|done]).
    destruct (isAbs t); [eapply (IHl links); [lia|exact E|constructor|done|]|by eapply (IHl links); [lia|exact E|..]].
    by intros k Hk ->%prefix_nil_inv.
Qed.

Lemma walk_real_id fs links dest segs :
  Forall normalSeg segs -> realPath fs (rev dest ++ segs) ->
  walkSymlinks fs links true dest segs = Some (absPath (rev dest ++ segs)).
Proof.
  revert dest. induction segs as [|seg segs IH]; intros dest Hn Hr.
  { by rewrite walk_nil, app_nil_r. }
  apply Forall_cons_1 in Hn as [(Hs&H1&H2&H3) Hn]. rewrite walk_cons, !bytes_eqb_neq by done. cbn [orb].
  rewrite lstat_snoc. specialize (IH (seg :: dest)). cbn [rev] in IH. rewrite <- app_assoc in IH.
  change ([seg] ++ segs) with (seg :: segs) in IH.
  destruct (Hr (rev dest ++ [seg])) as [->|[E ->]]; [by destruct (rev dest)| |by apply IH|].
  { exists segs. by rewrite <- app_assoc. }
  apply app_inv_head in E. injection E as <-. by apply IH.
Qed.

Lemma EvalSymlinks_real fs p r : isAbs p = true -> EvalSymlinks fs p = Some r ->
  exists segs, Forall normalSeg segs /\ r = absPath segs /\ realPath fs segs.
Proof.
  unfold EvalSymlinks. intros -> E. eapply walk_real; [exact E|constructor|apply split_parts_nosep|].
  by intros k Hk ->%prefix_nil_inv.
Qed.

Lemma EvalSymlinks_id fs segs : Forall normalSeg segs -> realPath fs segs ->
  EvalSymlinks fs (absPath segs) = Some (absPath segs).
Proof.
  intros Hn Hr. unfold EvalSymlinks. rewrite split_absPath by done. change (isAbs (absPath segs)) with true.
  rewrite walk_cons. cbn [bytes_eqb orb]. destruct segs as [|s segs]; [by destruct fs|].
  by apply (walk_real_id fs 255 []).
Qed.

(** ** Joining and splitting absolute paths *)

Lemma split_app sep (p q : bytes) : split sep (p ++ sep :: q) = split sep p ++ split sep q.
Proof.
  rewrite <- (join_split sep p) at 1. pose proof (split_parts_nosep sep p) as Hn.
  pose proof (split_nonempty sep p) as Hne. induction Hn as [|s l Hs Hl IH]; [done|].
  destruct l as [|s' l]; [by apply split_app_sep|].
  change (join [sep] (s :: s' :: l)) with (s ++ sep :: join [sep] (s' :: l)).
  rewrite <- app_assoc. cbn [app]. rewrite split_app_sep by done. f_equal. by apply IH.
Qed.

Lemma pathClean_app p d qs : isAbs p = true -> pathClean p = absPath d -> Forall normalSeg d ->
  Forall normalSeg qs -> qs <> [] -> pathClean (p ++ slash :: join [slash] qs) = absPath (d ++ qs).
Proof.
  intros Ha Hp Hd Hq Hne. unfold pathClean in *.
  change (match p with [] => false | c :: _ => bool_decide (c = slash) end) with (isAbs p) in Hp.
  change (match p ++ slash :: join [slash] qs with [] => false | c :: _ => bool_decide (c = slash) end)
    with (isAbs (p ++ slash :: join [slash] qs)).
  assert (isAbs (p ++ slash :: join [slash] qs) = true) as -> by (by destruct p). rewrite Ha in *.
  rewrite split_app, fold_left_app, split_join by (done || by apply normalSeg_nosep).
  rewrite clean_normal, rev_app_distr, rev_involutive by done.
  pose proof (clean_fold_normal _ [] (split_parts_nosep slash p) ltac:(constructor)) as Hn.
  change (slash :: join [slash] (rev (fold_left (cleanStep true) (split slash p) []))) with
    (absPath (rev (fold_left (cleanStep true) (split slash p) []))) in Hp.
  apply absPath_inj in Hp; [|by apply Forall_rev|done]. by rewrite Hp.
Qed.

Lemma join_ne qs : Forall normalSeg qs -> qs <> [] -> join [slash] qs <> [].
Proof.
  intros [|[|c s] qs' (_&?&_) _] Hne; [done..|]. by destruct qs'.
Qed.

Lemma pathJoin_abs p d qs : isAbs p = true -> pathClean p = absPath d -> Forall normalSeg d ->
  Forall normalSeg qs -> pathJoin (p :: qs) = absPath (d ++ qs).
Proof.
  intros Ha Hp Hd Hq. unfold pathJoin. rewrite filter_cons_True by (by destruct p).
  assert (filter (fun e => e <> []) qs = qs) as ->.
  { clear -Hq. induction Hq as [|q qs (_&?&_) _ IH]; [done|]. by rewrite filter_cons_True, IH. }
  destruct qs as [|q qs]; [by rewrite app_nil_r|]. by apply (pathClean_app p d (q :: qs)).
Qed.

Lemma pathJoin_abs_suffix a b : Forall normalSeg a -> Forall normalSeg b -> b <> [] ->
  pathJoin [absPath a; join [slash] b] = absPath (a ++ b).
Proof.
  intros Ha Hb Hne. unfold pathJoin. rewrite !filter_cons_True, filter_nil by (done || by apply join_ne).
  apply (pathClean_app (absPath a)); [done|by apply pathClean_absPath|done..].
Qed.

Lemma pathJoin_suffix x b : normalSeg x -> Forall normalSeg b ->
  pathJoin [x; join [slash] b] = join [slash] (x :: b).
Proof.
  intros Hx Hb. destruct b as [|y b].
  - unfold pathJoin. rewrite filter_cons_True by apply Hx. rewrite filter_cons_False by (by intros ?).
    rewrite filter_nil. apply (pathClean_normal [x]); [done|by apply Forall_singleton].
  - pose proof (pathJoin_normal [[x]; y :: b] ltac:(done)) as E. cbn [concat app] in E. rewrite app_nil_r in E.
    apply E, Forall_cons; split; [split; [done|by apply Forall_singleton]|]. by apply Forall_singleton.
Qed.

Lemma pathBase_absPath l x : Forall normalSeg l -> normalSeg x -> pathBase (absPath (l ++ [x])) = x.
Proof.
  intros Hl Hx. change (absPath (l ++ [x])) with (slash :: join [slash] (l ++ [x])).
  assert (slash :: join [slash] (l ++ [x]) = join [slash] (([] :: l) ++ [x])) as ->.
  { cbn [app]. by destruct (l ++ [x]) eqn:E; [destruct l|]. }
  apply pathBase_join; [apply Hx|apply Hx|]. constructor; [set_solver|by apply normalSeg_nosep].
Qed.

Lemma trimLeft_app_all {A} (f : A -> bool) a b :
  Forall (fun c => f c = true) a -> trimLeft f (a ++ b) = trimLeft f b.
Proof. induction 1 as [|x a Hx _ IH]; [done|]. cbn [app trimLeft]. by rewrite Hx. Qed.

Lemma pathDir_absPath l x : Forall normalSeg l -> normalSeg x -> pathDir (absPath (l ++ [x])) = absPath l.
Proof.
  intros Hl (Hx&_). unfold pathDir.
  assert (exists q, absPath (l ++ [x]) = q ++ slash :: x /\ pathClean (q ++ [slash]) = absPath l) as (q & -> & Hq).
  { destruct l as [|y l]; [by exists []|]. exists (absPath (y :: l)). split.
    - unfold absPath. rewrite join_app by done. done.
    - transitivity (pathClean (absPath (y :: l))); [|by apply pathClean_absPath]. unfold pathClean.
      rewrite split_app, fold_left_app. done. }
  rewrite rev_app_distr. cbn [rev]. rewrite <- app_assoc. rewrite trimLeft_app_all.
  - cbn [app trimLeft]. rewrite bool_decide_true by done. cbn [negb rev]. by rewrite rev_involutive.
  - apply Forall_rev, Forall_forall. intros c Hc. rewrite bool_decide_false; [done|]. intros ->. by apply Hx.
Qed.
