(* ===== verification/GoNet.v ===== *)
(** * GoNet: addresses

    What the sources use of package [net] to read and write addresses: [SplitHostPort] and
    [JoinHostPort], [ParseIP], [IP.String], [IP.To4] and [IP.Equal], [ParseCIDR] and
    [IPNet.Contains], and [strconv.Atoi] for ports.  An [IP] is its 4 or 16 bytes.

    The facts the other files use: an address reads back as the address it was printed from
    ([ParseIP_String]), a prefix contains the addresses that agree with it on its leading bits
    ([Contains_prefix]), and the two halves of a joined host and port are found again
    ([SplitHostPort_Join]). *)
From stdpp Require Import base list.
From Stdlib Require Import ZArith Lia.
From Stdlib.Strings Require Import Byte.
From S2P Require Import Prelude GoStd.
Open Scope Z_scope.

(** ** Printing *)

(** [net.IP.String] *)
Definition ip4String (b : bytes) : bytes := join (go ".") (map (fun c => formatInt (Z_of_byte c)) b).

Fixpoint groups16 (b : bytes) : list Z :=
  match b with
  | h :: l :: b => (Z_of_byte h * 256 + Z_of_byte l) :: groups16 b
  | _ => []
  end.

(** Hexadecimal without leading zeros. *)
Definition hex16 (v : Z) : bytes :=
  match trimLeft (fun c => bool_decide (c = Byte.x30)) [hexDigit (v / 4096); hexDigit (v / 256 mod 16); hexDigit (v / 16 mod 16); hexDigit (v mod 16)] with
  | [] => go "0"
  | s => s
  end.

Fixpoint zeroRun (l : list Z) : nat := match l with 0 :: l => S (zeroRun l) | _ => 0%nat end.

(** The first longest run of at least two zeros: where it starts and how long it is. *)
Fixpoint longestRun (i : nat) (l : list Z) (best : nat * nat) : nat * nat :=
  match l with
  | [] => best
  | _ :: l' =>
      let n := zeroRun l in
      longestRun (S i) l' (if (2 <=? n)%nat && (snd best <? n)%nat then (i, n) else best)
  end.

Definition ip6String (b : bytes) : bytes :=
  let g := groups16 b in
  let '(start, n) := longestRun 0 g (8%nat, 0%nat) in
  if (n =? 0)%nat then join (go ":") (map hex16 g)
  else join (go ":") (map hex16 (take start g)) ++ go "::" ++ join (go ":") (map hex16 (drop (start + n) g)).

Definition ipString (b : bytes) : bytes :=
  if (length b =? 4)%nat then ip4String b
  else if bytes_eqb (take 12 b) (replicate 10 Byte.x00 ++ [Byte.xff; Byte.xff]) then ip4String (drop 12 b)
  else ip6String b.

(** [net.JoinHostPort] *)
Definition JoinHostPort (host port : bytes) : bytes :=
  if containsByte Byte.x3a host then go "[" ++ host ++ go "]:" ++ port else host ++ go ":" ++ port.

(** [net.SplitHostPort] *)
Definition SplitHostPort (hostport : bytes) : option (bytes * bytes) :=
  match cutByte Byte.x3a (rev hostport) with
  | None => None
  | Some (rport, rhead) =>
      let head := rev rhead in
      let port := rev rport in
      match hostport with
      | Byte.x5b :: rest =>
          match cutByte Byte.x5d rest with
          | None => None
          | Some (host, after) =>
              if negb (bytes_eqb after (go ":" ++ port)) then None
              else if containsByte Byte.x5b rest || containsByte Byte.x5d after then None
              else Some (host, port)
          end
      | _ =>
          if containsByte Byte.x3a head then None
          else if containsByte Byte.x5b hostport || containsByte Byte.x5d hostport then None
          else Some (head, port)
      end
  end.

(** [strconv.Atoi]: the value it returns, which a caller that drops the error uses. A number out of
    range is returned as the nearest one in range. *)
Definition Atoi (s : bytes) : Z * bool :=
  let '(sg, d) := match s with
                  | Byte.x2d :: d => (-1, d)
                  | Byte.x2b :: d => (1, d)
                  | _ => (1, s)
                  end in
  if forallb isDigit d && negb (bytes_eqb d []) then
    let v := sg * digitsVal d 0 in
    if v <? - 2 ^ 63 then (- 2 ^ 63, false) else if 2 ^ 63 <=? v then (2 ^ 63 - 1, false) else (v, true)
  else (0, false).

(** ** Parsing

    [netip.ParseAddr]. *)
Inductive Addr : Type :=
| Addr4 (b : bytes)
| Addr6 (b : bytes) (zone : bytes).

(** [parseIPv4Fields]: the octets so far, last first, and the value and the number of digits of the one
    being read. *)
Fixpoint parseIPv4Fields (s : bytes) (fields : list byte) (val : Z) (digLen : nat) : option bytes :=
  match s with
  | [] => if (length fields <? 3)%nat then None else Some (rev (byte_of_Z val :: fields))
  | c :: s' =>
      if isDigit c then
        if (digLen =? 1)%nat && (val =? 0) then None
        else
          let val := val * 10 + (Z_of_byte c - 48) in
          if 255 <? val then None else parseIPv4Fields s' fields val (S digLen)
      else if bool_decide (c = Byte.x2e) then
        if (digLen =? 0)%nat || bool_decide (s' = []) then None
        else if (length fields =? 3)%nat then None
        else parseIPv4Fields s' (byte_of_Z val :: fields) 0 0
      else None
  end.

Definition hexVal (c : byte) : option Z :=
  let v := Z_of_byte c in
  if (48 <=? v) && (v <=? 57) then Some (v - 48)
  else if (97 <=? v) && (v <=? 102) then Some (v - 87)
  else if (65 <=? v) && (v <=? 70) then Some (v - 55)
  else None.

(** A group of hexadecimal digits: its value, how many there are, and what follows. *)
Fixpoint hexGroup (off : nat) (acc : Z) (s : bytes) : option (Z * nat * bytes) :=
  match s with
  | [] => Some (acc, off, [])
  | c :: s' =>
      match hexVal c with
      | Some v => if (3 <? off)%nat then None else hexGroup (S off) (acc * 16 + v) s'
      | None => Some (acc, off, s)
      end
  end.

Definition bytes16 (v : Z) : bytes := [byte_of_Z (v / 256); byte_of_Z v].

(** The loop over the groups, at most eight of them: the bytes, where the ellipsis stood, and what is
    left. *)
Fixpoint parseIPv6Groups (fuel : nat) (ip : bytes) (ellipsis : option nat) (s : bytes)
    : option (bytes * option nat * bytes) :=
  match fuel with
  | O => Some (ip, ellipsis, s)
  | S fuel =>
      '(acc, off, rest) ← hexGroup 0 0 s;
      if (off =? 0)%nat then None
      else
        match rest with
        | Byte.x2e :: _ =>
            if bool_decide (ellipsis = None) && negb (length ip =? 12)%nat then None
            else if (16 <? length ip + 4)%nat then None
            else f ← parseIPv4Fields s [] 0 0; Some (ip ++ f, ellipsis, [])
        | [] => Some (ip ++ bytes16 acc, ellipsis, [])
        | Byte.x3a :: Byte.x3a :: s =>
            let ip := ip ++ bytes16 acc in
            match ellipsis, s with
            | Some _, _ => None
            | None, [] => Some (ip, Some (length ip), [])
            | None, _ => parseIPv6Groups fuel ip (Some (length ip)) s
            end
        | Byte.x3a :: ((_ :: _) as s) => parseIPv6Groups fuel (ip ++ bytes16 acc) ellipsis s
        | _ => None
        end
  end.

Definition expandEllipsis (r : bytes * option nat * bytes) : option bytes :=
  let '(ip, ellipsis, s) := r in
  if negb (bytes_eqb s []) then None
  else match ellipsis with
       | None => if (length ip <? 16)%nat then None else Some ip
       | Some e => if (length ip <? 16)%nat then Some (take e ip ++ replicate (16 - length ip) Byte.x00 ++ drop e ip) else None
       end.

Definition parseIPv6 (s : bytes) : option Addr :=
  '(s, zone) ← match cutByte Byte.x25 s with
               | None => Some (s, [])
               | Some (s, zone) => if bytes_eqb zone [] then None else Some (s, zone)
               end;
  match s with
  | [Byte.x3a; Byte.x3a] => Some (Addr6 (replicate 16 Byte.x00) zone)
  | Byte.x3a :: Byte.x3a :: s => ip ← parseIPv6Groups 8 [] (Some 0%nat) s ≫= expandEllipsis; Some (Addr6 ip zone)
  | _ => ip ← parseIPv6Groups 8 [] None s ≫= expandEllipsis; Some (Addr6 ip zone)
  end.

(** The first dot, colon or percent sign decides. *)
Fixpoint parseAddrAt (whole s : bytes) : option Addr :=
  match s with
  | [] => None
  | Byte.x2e :: _ => b ← parseIPv4Fields whole [] 0 0; Some (Addr4 b)
  | Byte.x3a :: _ => parseIPv6 whole
  | Byte.x25 :: _ => None
  | _ :: s => parseAddrAt whole s
  end.

Definition ParseAddr (s : bytes) : option Addr := parseAddrAt s s.

Definition v4InV6Prefix : bytes := replicate 10 Byte.x00 ++ [Byte.xff; Byte.xff].

Definition As16 (a : Addr) : bytes := match a with Addr4 b => v4InV6Prefix ++ b | Addr6 b _ => b end.
Definition zoneOf (a : Addr) : bytes := match a with Addr4 _ => [] | Addr6 _ z => z end.
Definition BitLen (a : Addr) : Z := match a with Addr4 _ => 32 | Addr6 _ _ => 128 end.

(** [net.ParseIP]: an address with a zone is none. *)
Definition ParseIP (s : bytes) : option bytes :=
  a ← ParseAddr s; if bytes_eqb (zoneOf a) [] then Some (As16 a) else None.

Definition To4 (ip : bytes) : option bytes :=
  if (length ip =? 4)%nat then Some ip
  else if (length ip =? 16)%nat && bytes_eqb (take 12 ip) v4InV6Prefix then Some (drop 12 ip)
  else None.

(** [IP.Equal] *)
Definition IPEqual (ip x : bytes) : bool :=
  if (length ip =? length x)%nat then bytes_eqb ip x
  else if (length ip =? 4)%nat && (length x =? 16)%nat then bytes_eqb (take 12 x) v4InV6Prefix && bytes_eqb ip (drop 12 x)
  else if (length ip =? 16)%nat && (length x =? 4)%nat then bytes_eqb (take 12 ip) v4InV6Prefix && bytes_eqb (drop 12 ip) x
  else false.

(** ** Prefixes *)

Record IPNet := mkIPNet { net_IP : bytes; net_Mask : bytes }.

(** [CIDRMask], for a number of bytes. *)
Fixpoint CIDRMask (ones : Z) (n : nat) : bytes :=
  match n with
  | O => []
  | S n => if 8 <=? ones then Byte.xff :: CIDRMask (ones - 8) n
           else byte_of_Z (255 - Z.shiftr 255 ones) :: CIDRMask 0 n
  end.

Definition andBytes (a m : bytes) : bytes := zip_with (fun x y => byte_of_Z (Z.land (Z_of_byte x) (Z_of_byte y))) a m.

(** [IP.Mask]; the sources' masks have the length [ParseCIDR] gives them. *)
Definition ipMask (ip m : bytes) : bytes :=
  let ip := if (length m =? 4)%nat && (length ip =? 16)%nat && bytes_eqb (take 12 ip) v4InV6Prefix then drop 12 ip else ip in
  if (length ip =? length m)%nat then andBytes ip m else [].

(** [dtoi] on the whole string: [None] unless it is all digits and below 0xFFFFFF. *)
Definition dtoi (s : bytes) : option Z :=
  if forallb isDigit s && negb (bytes_eqb s []) then
    let v := digitsVal s 0 in if v <? 16777215 then Some v else None
  else None.

Definition ParseCIDR (s : bytes) : option IPNet :=
  '(addr, mask) ← cutByte slash s;
  a ← ParseAddr addr;
  if negb (bytes_eqb (zoneOf a) []) then None
  else n ← dtoi mask;
       if BitLen a <? n then None
       else let m := CIDRMask n (Z.to_nat (BitLen a / 8)) in
            Some (mkIPNet (ipMask (As16 a) m) m).

Definition networkNumberAndMask (n : IPNet) : option (bytes * bytes) :=
  ip ← match To4 (net_IP n) with
       | Some ip => Some ip
       | None => if (length (net_IP n) =? 16)%nat then Some (net_IP n) else None
       end;
  if (length (net_Mask n) =? 4)%nat then if (length ip =? 4)%nat then Some (ip, net_Mask n) else None
  else if (length (net_Mask n) =? 16)%nat then Some (ip, if (length ip =? 4)%nat then drop 12 (net_Mask n) else net_Mask n)
  else None.

(** [IPNet.Contains] *)
Definition IPNet_Contains (n : IPNet) (ip : bytes) : bool :=
  let '(nn, m) := default ([], []) (networkNumberAndMask n) in
  let ip := default ip (To4 ip) in
  (length ip =? length nn)%nat && bytes_eqb (andBytes nn m) (andBytes ip m).

Example net_examples :
  ParseIP (go "192.168.0.1") = Some (v4InV6Prefix ++ [Byte.xc0; Byte.xa8; Byte.x00; Byte.x01]) /\
  ParseIP (go "192.168.00.1") = None /\ ParseIP (go "1.2.3") = None /\ ParseIP (go "1.2.3.4.") = None /\
  ipString <$> ParseIP (go "2001:DB8:0:0:1::1") = Some (go "2001:db8::1:0:0:1") /\
  ipString <$> ParseIP (go "::ffff:10.0.0.1") = Some (go "10.0.0.1") /\
  ParseIP (go "fe80::1%eth0") = None /\ ParseIP (go "1:2:3:4:5:6:7:8::") = None /\ ParseIP (go "::") <> None /\
  ParseIP (go "1::2::3") = None /\ ParseIP (go "12345::") = None /\
  (n ← ParseCIDR (go "10.0.0.0/8"); ip ← ParseIP (go "10.9.8.7"); Some (IPNet_Contains n ip)) = Some true /\
  (n ← ParseCIDR (go "10.0.0.0/8"); ip ← ParseIP (go "11.9.8.7"); Some (IPNet_Contains n ip)) = Some false /\
  (n ← ParseCIDR (go "fe80::/10"); ip ← ParseIP (go "febf::1"); Some (IPNet_Contains n ip)) = Some true /\
  (n ← ParseCIDR (go "::/0"); ip ← ParseIP (go "10.9.8.7"); Some (IPNet_Contains n ip)) = Some false /\
  ParseCIDR (go "10.0.0.0/33") = None.
Proof. vm_compute. repeat split; discriminate. Qed.

(** ** Facts: printed addresses read back *)

Lemma parseAddrAt_skip w p s : forallb (fun c => match hexVal c with Some _ => true | None => false end) p = true ->
  parseAddrAt w (p ++ s) = parseAddrAt w s.
Proof.
  induction p as [|c p IH]; [done|]. cbn [forallb]. intros [Hc Hp]%andb_true_iff. rewrite <- (IH Hp).
  destruct c; first [discriminate Hc|reflexivity].
Qed.

Lemma octet_digits c : forallb (fun c => match hexVal c with Some _ => true | None => false end) (formatInt (Z_of_byte c)) = true.
Proof. by destruct c. Qed.

Lemma parseIPv4Fields_octet c s fields :
  parseIPv4Fields (formatInt (Z_of_byte c) ++ s) fields 0 0 = parseIPv4Fields s fields (Z_of_byte c) (length (formatInt (Z_of_byte c))).
Proof. by destruct c. Qed.

Lemma octet_length c : (length (formatInt (Z_of_byte c)) =? 0)%nat = false.
Proof. by destruct c. Qed.

Lemma parseIPv4Fields_dot c s fields n : (n =? 0)%nat = false -> (length fields < 3)%nat -> s <> [] ->
  parseIPv4Fields (Byte.x2e :: s) fields (Z_of_byte c) n = parseIPv4Fields s (c :: fields) 0 0.
Proof.
  intros Hn Hf Hs. cbn [parseIPv4Fields]. change (isDigit Byte.x2e) with false. cbv beta iota. rewrite Hn.
  rewrite (bool_decide_true (Byte.x2e = Byte.x2e)), (bool_decide_false (s = [])) by done. cbn [orb].
  rewrite (proj2 (Nat.eqb_neq _ _)) by lia. by rewrite byte_of_Z_of_byte.
Qed.

Lemma octet_app_nonempty c s : formatInt (Z_of_byte c) ++ s <> [].
Proof. by destruct c. Qed.

Lemma parseIPv4_String b : length b = 4%nat -> parseIPv4Fields (ip4String b) [] 0 0 = Some b.
Proof.
  intros Hb. destruct b as [|a [|b [|c [|d [|]]]]]; try discriminate Hb.
  unfold ip4String. cbn [map join]. change (go ".") with [Byte.x2e]. rewrite <- (app_nil_r (formatInt (Z_of_byte d))).
  cbn [app]. do 3 (rewrite parseIPv4Fields_octet, parseIPv4Fields_dot;
    [|apply octet_length|cbn; lia|apply octet_app_nonempty]).
  rewrite parseIPv4Fields_octet. cbn [parseIPv4Fields length]. by rewrite byte_of_Z_of_byte.
Qed.

Lemma ParseAddr_String4 b : length b = 4%nat -> ParseAddr (ip4String b) = Some (Addr4 b).
Proof.
  intros Hb. unfold ParseAddr.
  assert (exists c s, ip4String b = formatInt (Z_of_byte c) ++ Byte.x2e :: s) as (c & s & E).
  { destruct b as [|a [|b [|c l]]]; try discriminate Hb. by eexists a, _. }
  rewrite E at 2. rewrite parseAddrAt_skip by apply octet_digits. cbn [parseAddrAt]. by rewrite parseIPv4_String.
Qed.

(** *** Groups *)

Lemma hexVal_digit n : 0 <= n < 16 -> hexVal (hexDigit n) = Some n.
Proof.
  intros Hn. unfold hexVal. rewrite Z_of_hexDigit by done. destruct (Z.ltb_spec n 10).
  - rewrite (proj2 (Z.leb_le _ _)), (proj2 (Z.leb_le _ _)) by lia. cbn [andb]. f_equal. lia.
  - rewrite (proj2 (Z.leb_gt (87 + n) 57)), andb_false_r by lia.
    rewrite (proj2 (Z.leb_le 97 _)), (proj2 (Z.leb_le _ 102)) by lia. cbn [andb]. f_equal. lia.
Qed.

Lemma hexGroup_digit off acc n s : (off < 4)%nat -> 0 <= n < 16 ->
  hexGroup off acc (hexDigit n :: s) = hexGroup (S off) (acc * 16 + n) s.
Proof. intros Ho Hn. cbn [hexGroup]. rewrite hexVal_digit by done. by rewrite (proj2 (Nat.ltb_ge _ _)) by lia. Qed.

Definition notHex (s : bytes) : Prop := match s with c :: _ => hexVal c = None | [] => True end.

Lemma hexGroup_stop off acc s : notHex s -> hexGroup off acc s = Some (acc, off, s).
Proof. destruct s as [|c s]; [done|]. cbn. by intros ->. Qed.

Lemma hexDigit_zero n : 0 <= n < 16 -> hexDigit n = Byte.x30 -> n = 0.
Proof. intros Hn. change Byte.x30 with (hexDigit 0). by apply hexDigit_inj. Qed.

Definition zeroDigit (c : byte) : bool := bool_decide (c = Byte.x30).

Lemma zeroDigit_spec n : 0 <= n < 16 -> zeroDigit (hexDigit n) = (n =? 0).
Proof.
  intros Hn. unfold zeroDigit. case_bool_decide as E.
  - apply hexDigit_zero in E; [|done]. by subst.
  - symmetry. apply Z.eqb_neq. intros ->. by apply E.
Qed.

Lemma hexGroup_hex16 v s : 0 <= v < 65536 -> notHex s ->
  exists n, hexGroup 0 0 (hex16 v ++ s) = Some (v, S n, s).
Proof.
  intros Hv Hs. unfold hex16. fold zeroDigit.
  set (a := v / 4096). set (b := v / 256 mod 16). set (c := v / 16 mod 16). set (d := v mod 16).
  assert (0 <= a < 16 /\ 0 <= b < 16 /\ 0 <= c < 16 /\ 0 <= d < 16 /\ v = ((a * 16 + b) * 16 + c) * 16 + d) as (Ha & Hb & Hc & Hd & E).
  { unfold a, b, c, d. Z.to_euclidean_division_equations. lia. }
  clearbody a b c d. subst v. cbn [trimLeft]. rewrite !zeroDigit_spec by done.
  repeat match goal with |- context [Z.eqb ?x 0] => destruct (Z.eqb_spec x 0) as [->|] end; cbn [app];
    try (change (go "0") with [hexDigit 0]; cbn [app]);
    rewrite !hexGroup_digit by (lia || done); rewrite hexGroup_stop by done; eexists; repeat f_equal; lia.
Qed.

Definition group (v : Z) : Prop := 0 <= v < 65536.

(** The printed groups, and their bytes. *)
Definition groupsText (gs : list Z) : bytes := join (go ":") (map hex16 gs).
Definition groupsBytes (gs : list Z) : bytes := concat (map bytes16 gs).

Lemma groupsText_cons v w gs : groupsText (v :: w :: gs) = hex16 v ++ Byte.x3a :: groupsText (w :: gs).
Proof. unfold groupsText. cbn [map join]. by change (go ":") with [Byte.x3a]. Qed.

Definition hexByte (c : byte) : bool := match hexVal c with Some _ => true | None => false end.

Lemma hex16_chars v : group v -> forallb hexByte (hex16 v) = true /\ hex16 v <> [].
Proof.
  intros Hv. unfold group in Hv. unfold hex16. fold zeroDigit.
  set (a := v / 4096). set (b := v / 256 mod 16). set (c := v / 16 mod 16). set (d := v mod 16).
  assert (0 <= a < 16 /\ 0 <= b < 16 /\ 0 <= c < 16 /\ 0 <= d < 16) as (Ha & Hb & Hc & Hd).
  { unfold a, b, c, d. Z.to_euclidean_division_equations. lia. }
  clearbody a b c d. cbn [trimLeft]. rewrite !zeroDigit_spec by done. unfold hexByte.
  repeat match goal with |- context [Z.eqb ?x 0] => destruct (Z.eqb_spec x 0) as [->|] end; split; try done;
    cbn [forallb]; by rewrite ?hexVal_digit.
Qed.

Lemma groupsText_head v gs : group v -> exists c s, groupsText (v :: gs) = c :: s /\ hexByte c = true.
Proof.
  intros Hv. destruct (hex16_chars v Hv) as [Hc Hn]. destruct (hex16 v) as [|c l] eqn:E; [done|].
  cbn [forallb] in Hc. apply andb_true_iff in Hc as [Hc _].
  destruct gs as [|w gs]; [exists c, l; unfold groupsText; cbn; by rewrite E|].
  rewrite groupsText_cons, E. by eexists c, _.
Qed.

Lemma groups_last fuel ip ell v : group v ->
  parseIPv6Groups (S fuel) ip ell (hex16 v) = Some (ip ++ bytes16 v, ell, []).
Proof.
  intros Hv. destruct (hexGroup_hex16 v [] Hv I) as [n E]. rewrite app_nil_r in E.
  cbn [parseIPv6Groups]. by rewrite E.
Qed.

Lemma groups_colon fuel ip ell v c s : group v -> hexByte c = true ->
  parseIPv6Groups (S fuel) ip ell (hex16 v ++ Byte.x3a :: c :: s) = parseIPv6Groups fuel (ip ++ bytes16 v) ell (c :: s).
Proof.
  intros Hv Hc. destruct (hexGroup_hex16 v (Byte.x3a :: c :: s) Hv eq_refl) as [n E].
  cbn [parseIPv6Groups]. rewrite E. destruct c; first [discriminate Hc|reflexivity].
Qed.

Lemma groups_ellipsis fuel ip v s : group v ->
  parseIPv6Groups (S fuel) ip None (hex16 v ++ Byte.x3a :: Byte.x3a :: s) =
    match s with
    | [] => Some (ip ++ bytes16 v, Some (length (ip ++ bytes16 v)), [])
    | _ => parseIPv6Groups fuel (ip ++ bytes16 v) (Some (length (ip ++ bytes16 v))) s
    end.
Proof.
  intros Hv. destruct (hexGroup_hex16 v (Byte.x3a :: Byte.x3a :: s) Hv eq_refl) as [n E].
  cbn [parseIPv6Groups]. rewrite E. by destruct s.
Qed.

Lemma groups_all fuel ip ell gs : Forall group gs -> gs <> [] -> (length gs <= fuel)%nat ->
  parseIPv6Groups fuel ip ell (groupsText gs) = Some (ip ++ groupsBytes gs, ell, []).
Proof.
  revert fuel ip. induction gs as [|v gs IH]; intros fuel ip Hg Hne Hl; [done|].
  apply Forall_cons in Hg as [Hv Hg]. destruct fuel as [|fuel]; [cbn in Hl; lia|].
  destruct gs as [|w gs]; [unfold groupsText, groupsBytes; cbn [map join concat]; rewrite app_nil_r; by apply groups_last|].
  pose proof Hg as Hg'. apply Forall_cons in Hg' as [Hw _].
  destruct (groupsText_head w gs Hw) as (c & s & E & Hc).
  rewrite groupsText_cons, E, groups_colon, <- E by done. rewrite IH by (done || (cbn in *; lia)).
  unfold groupsBytes. cbn [map concat]. by rewrite <- app_assoc.
Qed.

Lemma groups_split fuel ip pre post : Forall group pre -> Forall group post -> pre <> [] ->
  (length pre + length post <= fuel)%nat ->
  parseIPv6Groups fuel ip None (groupsText pre ++ Byte.x3a :: Byte.x3a :: groupsText post) =
    Some (ip ++ groupsBytes pre ++ groupsBytes post, Some (length (ip ++ groupsBytes pre)), []).
Proof.
  revert fuel ip. induction pre as [|v pre IH]; intros fuel ip Hpre Hpost Hne Hl; [done|].
  apply Forall_cons in Hpre as [Hv Hpre]. destruct fuel as [|fuel]; [cbn in Hl; lia|].
  destruct pre as [|w pre].
  - unfold groupsText at 1. cbn [map join]. rewrite groups_ellipsis by done.
    unfold groupsBytes at 1 3. cbn [map concat]. rewrite app_nil_r. destruct post as [|x post]; [by rewrite app_nil_r|].
    pose proof Hpost as Hp'. apply Forall_cons in Hp' as [Hx _].
    destruct (groupsText_head x post Hx) as (c & s & E & Hc). rewrite E, <- E, groups_all by (done || (cbn in *; lia)).
    by rewrite <- app_assoc.
  - pose proof Hpre as Hp'. apply Forall_cons in Hp' as [Hw _].
    destruct (groupsText_head w pre Hw) as (c & s & E & Hc).
    rewrite groupsText_cons, <- app_assoc. cbn [app]. rewrite E. cbn [app]. rewrite groups_colon by done.
    change (c :: s ++ Byte.x3a :: Byte.x3a :: groupsText post) with ((c :: s) ++ Byte.x3a :: Byte.x3a :: groupsText post).
    rewrite <- E, IH by (done || (cbn in *; lia)). unfold groupsBytes. cbn [map concat]. by rewrite <- !app_assoc.
Qed.

(** *** The compressed run *)

Lemma zeroRun_spec l : take (zeroRun l) l = replicate (zeroRun l) 0.
Proof. induction l as [|v l IH]; [done|]. destruct v; [|done|done]. cbn. by rewrite IH. Qed.

Lemma zeroRun_le l : (zeroRun l <= length l)%nat.
Proof. induction l as [|v l IH]; [done|]. destruct v; cbn; lia. Qed.

(** Nothing, or a run of zeros at that place. *)
Definition runAt (g : list Z) (r : nat * nat) : Prop :=
  snd r = 0%nat \/ (2 <= snd r /\ fst r + snd r <= length g)%nat /\ take (snd r) (drop (fst r) g) = replicate (snd r) 0.

Lemma longestRun_spec g i best : (i <= length g)%nat -> runAt g best -> runAt g (longestRun i (drop i g) best).
Proof.
  remember (length g - i)%nat as k eqn:Hk. revert i best Hk. induction k as [|k IH]; intros i best Hk Hi Hb.
  - rewrite drop_ge by lia. done.
  - destruct (drop i g) as [|v l] eqn:E; [done|]. cbn [longestRun]. rewrite <- E.
    assert (El : l = drop (S i) g) by (change l with (drop 1 (v :: l)); rewrite <- E, drop_drop; f_equal; lia). rewrite El at 1.
    apply IH; [lia|lia|]. destruct (_ && _) eqn:B; [|done]. apply andb_true_iff in B as [B _]. apply Nat.leb_le in B.
    right. cbn [fst snd]. pose proof (zeroRun_le (drop i g)) as Hle. rewrite length_drop in Hle.
    split; [lia|apply zeroRun_spec].
Qed.

Lemma groupsBytes_app a b : groupsBytes (a ++ b) = groupsBytes a ++ groupsBytes b.
Proof. unfold groupsBytes. by rewrite map_app, concat_app. Qed.

Lemma length_groupsBytes gs : length (groupsBytes gs) = (2 * length gs)%nat.
Proof. induction gs as [|v gs IH]; [done|]. unfold groupsBytes in *. cbn [map concat]. rewrite length_app, IH. cbn. lia. Qed.

Lemma groupsBytes_zeros n : groupsBytes (replicate n 0) = replicate (2 * n) Byte.x00.
Proof.
  induction n as [|n IH]; [done|]. unfold groupsBytes in *. cbn [replicate map concat]. rewrite IH.
  by replace (2 * S n)%nat with (S (S (2 * n))) by lia.
Qed.

Lemma groups16_bytes b : length b = 16%nat -> groupsBytes (groups16 b) = b /\ length (groups16 b) = 8%nat /\ Forall group (groups16 b).
Proof.
  assert (H : forall n b, length b = (2 * n)%nat -> groupsBytes (groups16 b) = b /\ length (groups16 b) = n /\ Forall group (groups16 b)).
  { induction n as [|n IH]; intros [|h [|l k]] Hl; cbn in Hl; try lia; [by repeat split|].
    destruct (IH k ltac:(lia)) as (E & L & F). cbn [groups16]. unfold groupsBytes in *. cbn [map concat].
    pose proof (Z_of_byte_range h). pose proof (Z_of_byte_range l). rewrite E. repeat split; [|cbn; lia|constructor; [unfold group; lia|done]].
    unfold bytes16. cbn [app]. f_equal; [|f_equal].
    - rewrite <- (byte_of_Z_of_byte h) at 2. f_equal. Z.to_euclidean_division_equations. lia.
    - rewrite <- (byte_of_Z_of_byte l) at 2. unfold byte_of_Z.
      by replace ((Z_of_byte h * 256 + Z_of_byte l) mod 256) with (Z_of_byte l mod 256) by (Z.to_euclidean_division_equations; lia). }
  intros Hb. by apply (H 8%nat).
Qed.

Lemma hexByte_text gs : Forall group gs -> forallb (fun c => hexByte c || bool_decide (c = Byte.x3a)) (groupsText gs) = true.
Proof.
  induction 1 as [|v gs Hv Hg IH]; [done|].
  assert (forallb (fun c => hexByte c || bool_decide (c = Byte.x3a)) (hex16 v) = true) as Hh.
  { destruct (hex16_chars v Hv) as [Hc _]. revert Hc. induction (hex16 v) as [|c l IHl]; [done|].
    cbn [forallb]. intros [-> Hc]%andb_true_iff. by rewrite IHl. }
  destruct gs as [|w gs]; [by unfold groupsText|]. rewrite groupsText_cons, forallb_app, Hh. cbn [andb forallb].
  rewrite bool_decide_true by done. by rewrite orb_true_r, IH.
Qed.

Lemma no_percent s : forallb (fun c => hexByte c || bool_decide (c = Byte.x3a)) s = true -> cutByte Byte.x25 s = None.
Proof.
  intros H. apply cutByte_None. intros Hin. rewrite forallb_forall in H. apply list_elem_of_In in Hin. by specialize (H _ Hin).
Qed.

Lemma parseIPv6_plain s c s' : s = c :: s' -> hexByte c = true -> cutByte Byte.x25 s = None ->
  parseIPv6 s = (ip ← parseIPv6Groups 8 [] None s ≫= expandEllipsis; Some (Addr6 ip [])).
Proof. intros -> Hc Hp. unfold parseIPv6. rewrite Hp. generalize (parseIPv6Groups 8). intros f. destruct c; first [discriminate Hc|reflexivity]. Qed.

Lemma parseIPv6_text gs : Forall group gs -> length gs = 8%nat -> parseIPv6 (groupsText gs) = Some (Addr6 (groupsBytes gs) []).
Proof.
  intros Hg Hl. destruct gs as [|v gs]; [done|]. pose proof Hg as Hg'. apply Forall_cons in Hg' as [Hv _].
  destruct (groupsText_head v gs Hv) as (c & s & E & Hc).
  rewrite (parseIPv6_plain _ c s E Hc) by (by apply no_percent, hexByte_text).
  rewrite groups_all by (done || lia). cbn [mbind option_bind expandEllipsis]. cbn [app].
  by rewrite length_groupsBytes, Hl.
Qed.

Lemma parseIPv6_compressed pre n post : Forall group pre -> Forall group post -> (0 < n)%nat ->
  (length pre + n + length post = 8)%nat ->
  parseIPv6 (groupsText pre ++ Byte.x3a :: Byte.x3a :: groupsText post) =
    Some (Addr6 (groupsBytes pre ++ replicate (2 * n) Byte.x00 ++ groupsBytes post) []).
Proof.
  intros Hpre Hpost Hn Hl.
  assert (Hp : cutByte Byte.x25 (groupsText pre ++ Byte.x3a :: Byte.x3a :: groupsText post) = None).
  { apply no_percent. rewrite forallb_app, hexByte_text by done. cbn [forallb andb].
    rewrite (bool_decide_true (Byte.x3a = Byte.x3a)) by done. rewrite orb_true_r. cbn [andb]. by apply hexByte_text. }
  destruct pre as [|v pre].
  - change (groupsText []) with (@nil byte) in *. cbn [app] in *. unfold parseIPv6. rewrite Hp. cbn [mbind option_bind].
    destruct post as [|w post].
    + cbn in Hl. replace n with 8%nat by lia. reflexivity.
    + pose proof Hpost as Hp'. apply Forall_cons in Hp' as [Hw _]. destruct (groupsText_head w post Hw) as (c & s & E & Hc).
      rewrite E, <- E, groups_all by (done || (cbn in *; lia)). cbn [mbind option_bind expandEllipsis app].
      rewrite length_groupsBytes. cbn [length] in *. rewrite (proj2 (Nat.ltb_lt _ _)) by lia.
      rewrite take_0, drop_0. by replace (16 - 2 * S (length post))%nat with (2 * n)%nat by lia.
  - pose proof Hpre as Hp'. apply Forall_cons in Hp' as [Hv _]. destruct (groupsText_head v pre Hv) as (c & s & E & Hc).
    rewrite (parseIPv6_plain _ c (s ++ Byte.x3a :: Byte.x3a :: groupsText post)); [|by rewrite E|done|done].
    rewrite groups_split by (done || lia). cbn [mbind option_bind expandEllipsis app].
    rewrite length_app, !length_groupsBytes. rewrite (proj2 (Nat.ltb_lt _ _)) by lia.
    cbn [negb bytes_eqb]. change (bytes_eqb [] []) with true. cbn [negb].
    rewrite take_app_length', drop_app_length' by (by rewrite length_groupsBytes).
    by replace (16 - (2 * length (v :: pre) + 2 * length post))%nat with (2 * n)%nat by lia.
Qed.

(** *** Addresses *)

(** [IP.To16] *)
Definition To16 (b : bytes) : bytes := if (length b =? 4)%nat then v4InV6Prefix ++ b else b.

Definition ipLen (b : bytes) : Prop := length b = 4%nat \/ length b = 16%nat.

Lemma parseAddrAt_colon w v s : group v -> parseAddrAt w (hex16 v ++ Byte.x3a :: s) = parseIPv6 w.
Proof. intros Hv. rewrite parseAddrAt_skip by apply (hex16_chars v Hv). reflexivity. Qed.

Lemma ParseAddr_groups gs : Forall group gs -> length gs = 8%nat -> ParseAddr (groupsText gs) = Some (Addr6 (groupsBytes gs) []).
Proof.
  intros Hg Hl. unfold ParseAddr. rewrite <- (parseIPv6_text gs) by done.
  destruct gs as [|v [|w gs]]; try discriminate Hl. apply Forall_cons in Hg as [Hv _].
  rewrite groupsText_cons at 2. by apply parseAddrAt_colon.
Qed.

Lemma ParseAddr_compressed pre n post : Forall group pre -> Forall group post -> (0 < n)%nat ->
  (length pre + n + length post = 8)%nat ->
  ParseAddr (groupsText pre ++ Byte.x3a :: Byte.x3a :: groupsText post) =
    Some (Addr6 (groupsBytes pre ++ replicate (2 * n) Byte.x00 ++ groupsBytes post) []).
Proof.
  intros Hpre Hpost Hn Hl. unfold ParseAddr. rewrite <- (parseIPv6_compressed pre n post) by done.
  generalize (groupsText pre ++ Byte.x3a :: Byte.x3a :: groupsText post) at 1 3. intros w.
  destruct pre as [|v [|x pre]]; [reflexivity| |]; apply Forall_cons in Hpre as [Hv _].
  - by apply parseAddrAt_colon.
  - rewrite groupsText_cons, <- app_assoc. by apply parseAddrAt_colon.
Qed.

Lemma ParseAddr_String6 b : length b = 16%nat -> ParseAddr (ip6String b) = Some (Addr6 b []).
Proof.
  intros Hb. destruct (groups16_bytes b Hb) as (E & L & F). unfold ip6String.
  pose proof (longestRun_spec (groups16 b) 0 (8%nat, 0%nat) ltac:(lia) (or_introl eq_refl)) as R. rewrite drop_0 in R.
  destruct (longestRun 0 (groups16 b) (8%nat, 0%nat)) as [start n]. cbn [fst snd] in R.
  destruct (Nat.eqb_spec n 0) as [->|Hn].
  - rewrite <- E at 2. by apply ParseAddr_groups.
  - destruct R as [?|[Hr Hz]]; [done|]. change (go "::") with [Byte.x3a; Byte.x3a]. cbn [app fst snd] in *.
    etransitivity; [apply (ParseAddr_compressed (take start (groups16 b)) n (drop (start + n) (groups16 b)))|].
    + by apply Forall_take.
    + by apply Forall_drop.
    + lia.
    + rewrite length_take, length_drop. lia.
    + rewrite <- groupsBytes_zeros, <- Hz, <- !groupsBytes_app. do 2 f_equal. etransitivity; [|exact E]. f_equal.
      rewrite <- drop_drop, !take_drop. done.
Qed.

(** Every address of 4 or 16 bytes reads back, an IPv4 one in its 16-byte form. *)
Lemma ParseIP_String b : ipLen b -> ParseIP (ipString b) = Some (To16 b).
Proof.
  intros Hb. unfold ParseIP, ipString, To16. destruct (Nat.eqb_spec (length b) 4) as [H4|H4].
  - by rewrite ParseAddr_String4.
  - destruct Hb as [?|Hb]; [done|]. fold v4InV6Prefix.
    destruct (bytes_eqb (take 12 b) v4InV6Prefix) eqn:P; [apply bool_decide_eq_true in P|].
    + rewrite ParseAddr_String4 by (rewrite length_drop; lia). cbn [mbind option_bind zoneOf As16].
      change (bytes_eqb [] []) with true. cbv iota. rewrite <- P. by rewrite take_drop.
    + by rewrite ParseAddr_String6.
Qed.

(** *** Hosts and ports *)

Lemma containsByte_spec c s : containsByte c s = true <-> c ∈ s.
Proof.
  unfold containsByte. rewrite existsb_exists. setoid_rewrite <- list_elem_of_In. split.
  - intros (x & Hx & E). apply bool_decide_eq_true in E. by subst.
  - intros H. exists c. split; [done|]. by apply bool_decide_eq_true.
Qed.

Lemma containsByte_false c s : c ∉ s -> containsByte c s = false.
Proof. intros H. apply not_true_iff_false. by rewrite containsByte_spec. Qed.

(** A host [SplitHostPort] can take apart again: no brackets. *)
Definition plainHost (h : bytes) : Prop := (Byte.x5b ∉ h) /\ (Byte.x5d ∉ h).
Definition plainPort (p : bytes) : Prop := (Byte.x3a ∉ p) /\ (Byte.x5b ∉ p) /\ (Byte.x5d ∉ p).

Lemma cutByte_rev_colon h port : Byte.x3a ∉ port ->
  cutByte Byte.x3a (rev (h ++ Byte.x3a :: port)) = Some (rev port, rev h).
Proof.
  intros Hp. rewrite rev_app_distr. cbn [rev]. rewrite <- app_assoc. cbn [app]. apply cutByte_app.
  rewrite list_elem_of_In, <- in_rev, <- list_elem_of_In. done.
Qed.

Lemma SplitHostPort_plain h port : Byte.x3a ∉ h -> plainHost h -> plainPort port ->
  SplitHostPort (h ++ Byte.x3a :: port) = Some (h, port).
Proof.
  intros Hc [Hl Hr] (Hp & Hpl & Hpr). unfold SplitHostPort. rewrite cutByte_rev_colon, !rev_involutive by done.
  rewrite (containsByte_false Byte.x3a h) by done.
  rewrite !containsByte_false; [|rewrite elem_of_app, elem_of_cons; intuition congruence..].
  destruct h as [|c h]; [done|]. cbn [app]. destruct c; try reflexivity. destruct Hl. apply elem_of_cons. by left.
Qed.

Lemma SplitHostPort_Join h port : plainHost h -> plainPort port -> SplitHostPort (JoinHostPort h port) = Some (h, port).
Proof.
  intros [Hl Hr] (Hp & Hpl & Hpr). unfold JoinHostPort. destruct (containsByte Byte.x3a h) eqn:E.
  - change (go "[") with [Byte.x5b]. change (go "]:") with [Byte.x5d; Byte.x3a]. cbn [app]. unfold SplitHostPort.
    replace (Byte.x5b :: h ++ Byte.x5d :: Byte.x3a :: port) with ((Byte.x5b :: h ++ [Byte.x5d]) ++ Byte.x3a :: port) at 1
      by (cbn [app]; by rewrite <- app_assoc).
    rewrite cutByte_rev_colon, !rev_involutive, cutByte_app by done. change (go ":") with [Byte.x3a]. cbn [app].
    unfold bytes_eqb. rewrite bool_decide_true by done. cbn [negb].
    by rewrite !containsByte_false by (rewrite ?elem_of_app, ?elem_of_cons; intuition congruence).
  - change (go ":") with [Byte.x3a]. cbn [app]. apply SplitHostPort_plain; try done.
    rewrite <- containsByte_spec. by rewrite E.
Qed.

Lemma formatInt_plainPort n : plainPort (formatInt n).
Proof.
  pose proof (formatInt_chars n) as H. rewrite forallb_forall in H.
  repeat split; intros Hin; apply list_elem_of_In, H in Hin; discriminate Hin.
Qed.

Lemma formatDigits_length fuel n acc : (length acc <= length (formatDigits fuel n acc))%nat.
Proof.
  revert n acc. induction fuel as [|fuel IH]; intros n acc; [done|]. cbn [formatDigits].
  destruct (n / 10 =? 0); [cbn; lia|]. etransitivity; [|apply IH]. cbn. lia.
Qed.

Lemma formatInt_digits n : 0 <= n -> forallb isDigit (formatInt n) = true /\ formatInt n <> [] /\ digitsVal (formatInt n) 0 = n.
Proof.
  intros Hn. unfold formatInt. rewrite (proj2 (Z.ltb_ge n 0)) by lia. rewrite formatAbs_val.
  split; [apply formatDigits_digits; [lia|done]|]. split; [|lia].
  intros E%(f_equal length). cbn [formatDigits] in E. destruct (_ =? 0) in E; [discriminate E|].
  pose proof (formatDigits_length (Z.to_nat (Z.log2 (Z.abs n))) (Z.abs n / 10) [byte_of_Z (48 + Z.abs n mod 10)]) as Hl.
  rewrite E in Hl. cbn in Hl. lia.
Qed.

Lemma Atoi_format n : 0 <= n < 2 ^ 63 -> Atoi (formatInt n) = (n, true).
Proof.
  intros Hr. destruct (formatInt_digits n ltac:(lia)) as (Hd & Hne & Hv). unfold Atoi. set (d := formatInt n) in *. clearbody d.
  assert (match d with Byte.x2d :: r => (-1, r) | Byte.x2b :: r => (1, r) | _ => (1, d) end = (1, d)) as ->.
  { clear -Hd. destruct d as [|c l]; [done|]. destruct c; first [reflexivity|discriminate Hd]. }
  rewrite Hd. unfold bytes_eqb. rewrite (bool_decide_false (d = [])) by done. cbn [andb negb]. rewrite Hv.
  rewrite Z.mul_1_l. by rewrite (proj2 (Z.ltb_ge _ _)), (proj2 (Z.leb_gt _ _)) by lia.
Qed.

Lemma dtoi_format n : 0 <= n < 16777215 -> dtoi (formatInt n) = Some n.
Proof.
  intros Hr. destruct (formatInt_digits n ltac:(lia)) as (Hd & Hne & Hv). unfold dtoi. rewrite Hd. unfold bytes_eqb.
  rewrite (bool_decide_false (formatInt n = [])) by done. cbn [andb negb]. rewrite Hv. by rewrite (proj2 (Z.ltb_lt _ _)) by lia.
Qed.

(** ** Prefixes: the leading bits *)

(** Bit [i] of an address, from the left. *)
Definition ipBit (b : bytes) (i : nat) : bool :=
  match b !! (i / 8)%nat with Some c => Z.testbit (Z_of_byte c) (7 - Z.of_nat i mod 8) | None => false end.

(** Two addresses of a family agree on the first [n] bits. *)
Definition sameLead (n : Z) (a b : bytes) : Prop :=
  length a = length b /\ forall i, Z.of_nat i < n -> ipBit a i = ipBit b i.

Lemma length_CIDRMask n k : length (CIDRMask n k) = k.
Proof. revert n. induction k as [|k IH]; intros n; [done|]. cbn [CIDRMask]. destruct (8 <=? n); cbn; by rewrite IH. Qed.

Definition maskByte (n : Z) : Z := 255 - Z.shiftr 255 n.

Lemma maskByte_bit n j : 0 <= n <= 8 -> 0 <= j < 8 -> Z.testbit (maskByte n) j = (8 - n <=? j).
Proof.
  intros Hn Hj.
  assert (forallb (fun n => forallb (fun j => Bool.eqb (Z.testbit (maskByte n) j) (8 - n <=? j)) [0;1;2;3;4;5;6;7]) [0;1;2;3;4;5;6;7;8] = true) as H
    by reflexivity.
  rewrite forallb_forall in H. specialize (H n ltac:(cbn; lia)). rewrite forallb_forall in H.
  specialize (H j ltac:(cbn; lia)). by apply eqb_prop in H.
Qed.

Lemma byte_testbit_high c j : 8 <= j -> Z.testbit (Z_of_byte c) j = false.
Proof.
  intros Hj. pose proof (Z_of_byte_range c) as Hc. destruct (decide (Z_of_byte c = 0)) as [->|]; [apply Z.bits_0|].
  apply Z.bits_above_log2; [lia|]. apply Z.log2_lt_pow2; [lia|]. apply Z.lt_le_trans with (2 ^ 8); [lia|]. by apply Z.pow_le_mono_r.
Qed.

Lemma land_byte_range c m : 0 <= Z.land (Z_of_byte c) m < 256.
Proof.
  assert (0 <= Z.land (Z_of_byte c) m) as H0 by (apply Z.land_nonneg; left; apply Z_of_byte_range).
  split; [done|]. destruct (decide (Z.land (Z_of_byte c) m = 0)) as [->|]; [lia|].
  change 256 with (2 ^ 8). apply Z.log2_lt_pow2; [lia|].
  apply Z.nle_gt. intros Hl. pose proof (Z.bit_log2 (Z.land (Z_of_byte c) m) ltac:(lia)) as Hb.
  by rewrite Z.land_spec, byte_testbit_high in Hb.
Qed.

(** Two bytes agree under a mask when they agree on its bits. *)
Lemma mask_byte_eq n x y : 0 <= n <= 8 ->
  byte_of_Z (Z.land (Z_of_byte x) (maskByte n)) = byte_of_Z (Z.land (Z_of_byte y) (maskByte n)) <->
  forall i, Z.of_nat i < n -> Z.testbit (Z_of_byte x) (7 - Z.of_nat i) = Z.testbit (Z_of_byte y) (7 - Z.of_nat i).
Proof.
  intros Hn. split.
  - intros E%(f_equal Z_of_byte) i Hi. rewrite !Z_of_byte_of_Z, !Z.mod_small in E by apply land_byte_range.
    apply (f_equal (fun z => Z.testbit z (7 - Z.of_nat i))) in E. rewrite !Z.land_spec, maskByte_bit in E by lia.
    rewrite (proj2 (Z.leb_le _ _)), !andb_true_r in E by lia. done.
  - intros H. f_equal. apply Z.bits_inj'. intros j Hj. rewrite !Z.land_spec.
    destruct (Z.lt_ge_cases j 8); [|by rewrite !byte_testbit_high].
    rewrite maskByte_bit by lia. destruct (Z.leb_spec (8 - n) j); [|by rewrite !andb_false_r]. rewrite !andb_true_r.
    specialize (H (Z.to_nat (7 - j)) ltac:(lia)). by replace (7 - Z.of_nat (Z.to_nat (7 - j))) with j in H by lia.
Qed.

Lemma CIDRMask_S n k : 0 <= n -> CIDRMask n (S k) = byte_of_Z (maskByte (Z.min n 8)) :: CIDRMask (Z.max 0 (n - 8)) k.
Proof.
  intros Hn. cbn [CIDRMask]. destruct (Z.leb_spec 8 n).
  - rewrite Z.min_r, Z.max_r by lia. done.
  - by rewrite Z.min_l, Z.max_l by lia.
Qed.

Lemma Z_of_maskByte n : 0 <= n <= 8 -> Z_of_byte (byte_of_Z (maskByte n)) = maskByte n.
Proof.
  intros Hn. assert (forallb (fun n => Z_of_byte (byte_of_Z (maskByte n)) =? maskByte n) [0;1;2;3;4;5;6;7;8] = true) as H by reflexivity.
  rewrite forallb_forall in H. by specialize (H n ltac:(cbn; lia)) as E%Z.eqb_eq.
Qed.

Lemma ipBit_head c l i : (i < 8)%nat -> ipBit (c :: l) i = Z.testbit (Z_of_byte c) (7 - Z.of_nat i).
Proof. intros Hi. unfold ipBit. rewrite Nat.div_small by done. cbn. by rewrite Z.mod_small by lia. Qed.

Lemma ipBit_tail c l i : ipBit (c :: l) (8 + i) = ipBit l i.
Proof.
  unfold ipBit. replace ((8 + i) / 8)%nat with (S (i / 8)) by (change (8 + i)%nat with (1 * 8 + i)%nat; rewrite Nat.div_add_l by lia; lia).
  cbn [lookup list_lookup]. by replace (Z.of_nat (8 + i) mod 8) with (Z.of_nat i mod 8) by (Z.to_euclidean_division_equations; lia).
Qed.

Lemma mask_eq_sameLead n a b : 0 <= n -> length a = length b ->
  andBytes a (CIDRMask n (length a)) = andBytes b (CIDRMask n (length a)) <-> sameLead n a b.
Proof.
  revert n b. induction a as [|x a IH]; intros n [|y b] Hn Hl; try discriminate Hl.
  { split; [|done]. intros _. split; [done|]. intros i _. done. }
  cbn [length] in *. rewrite CIDRMask_S by done. unfold andBytes in *. cbn [zip_with].
  rewrite Z_of_maskByte by lia. injection Hl as Hl. split.
  - intros [= E1 E2]. rewrite IH in E2 by (done || lia). destruct E2 as [_ E2].
    rewrite mask_byte_eq in E1 by lia. split; [by cbn; f_equal|]. intros i Hi.
    destruct (Nat.lt_ge_cases i 8) as [Hs|Hs]; [rewrite !ipBit_head by done; apply E1; lia|].
    replace i with (8 + (i - 8))%nat by lia. rewrite !ipBit_tail. apply E2. lia.
  - intros [_ H]. f_equal.
    + apply mask_byte_eq; [lia|]. intros i Hi. specialize (H i ltac:(lia)). by rewrite !ipBit_head in H by lia.
    + apply IH; [lia|done|]. split; [done|]. intros i Hi. specialize (H (8 + i)%nat ltac:(lia)). by rewrite !ipBit_tail in H.
Qed.

Lemma length_andBytes a m : length (andBytes a m) = (length a `min` length m)%nat.
Proof. unfold andBytes. apply length_zip_with. Qed.

Lemma andBytes_idem a m : andBytes (andBytes a m) m = andBytes a m.
Proof.
  revert m. induction a as [|x a IH]; intros [|y m]; try done. unfold andBytes in *. cbn [zip_with]. rewrite IH. f_equal.
  rewrite Z_of_byte_of_Z, Z.mod_small by apply land_byte_range. by rewrite <- Z.land_assoc, Z.land_diag.
Qed.

Lemma parseIPv4Fields_length s fields v n b : (length fields <= 3)%nat -> parseIPv4Fields s fields v n = Some b -> length b = 4%nat.
Proof.
  revert fields v n. induction s as [|c s IH]; intros fields v n Hf; cbn [parseIPv4Fields].
  - destruct (Nat.ltb_spec (length fields) 3); [done|]. intros [= <-]. rewrite length_app, length_rev. cbn. lia.
  - destruct (isDigit c).
    + destruct (_ && _); [done|]. destruct (255 <? _); [done|]. by apply IH.
    + case_bool_decide; [|done]. destruct (_ || _); [done|]. destruct (Nat.eqb_spec (length fields) 3); [done|].
      apply IH. cbn. lia.
Qed.

Lemma expandEllipsis_length r b : (length (fst (fst r)) <= 16)%nat -> 
  match snd (fst r) with Some e => (e <= length (fst (fst r)))%nat | None => True end ->
  expandEllipsis r = Some b -> length b = 16%nat.
Proof.
  destruct r as [[ip ell] s]. cbn [fst snd]. intros Hl He. unfold expandEllipsis. destruct (negb _); [done|].
  destruct ell as [e|]; destruct (Nat.ltb_spec (length ip) 16); try done; intros [= <-]; [|lia].
  rewrite !length_app, length_take, length_replicate, length_drop. lia.
Qed.

Lemma parseIPv6Groups_length fuel ip ell s r : (length ip + 2 * fuel <= 16)%nat ->
  match ell with Some e => (e <= length ip)%nat | None => True end ->
  parseIPv6Groups fuel ip ell s = Some r ->
  (length (fst (fst r)) <= 16)%nat /\ match snd (fst r) with Some e => (e <= length (fst (fst r)))%nat | None => True end.
Proof.
  assert (L2 : forall ip v, length (ip ++ bytes16 v) = (length ip + 2)%nat) by (intros; by rewrite length_app).
  revert ip ell s. induction fuel as [|fuel IH]; intros ip ell s Hl He; cbn [parseIPv6Groups].
  { intros [= <-]. cbn. split; [lia|done]. }
  destruct (hexGroup 0 0 s) as [[[acc off] rest]|]; [|done]. cbn [mbind option_bind]. destruct (Nat.eqb off 0); [done|].
  assert (Hmono : match ell with Some e => (e <= length (ip ++ bytes16 acc))%nat | None => True end) by (destruct ell; rewrite ?L2; lia || done).
  destruct rest as [|c rest]; [intros [= <-]; cbn [fst snd]; rewrite L2 in *; split; [lia|done]|].
  destruct c; try done.
  - destruct (_ && _); [done|]. destruct (Nat.ltb_spec 16 (length ip + 4)); [done|].
    destruct (parseIPv4Fields s [] 0 0) as [f|] eqn:E; [|done]. apply parseIPv4Fields_length in E; [|cbn; lia].
    cbn. intros [= <-]. cbn. rewrite length_app. split; [lia|]. destruct ell; lia || done.
  - destruct rest as [|d rest]; [done|]. destruct d; try (intros E; eapply IH, E; [rewrite L2; lia|done]).
    destruct ell; [done|]. destruct rest; [intros [= <-]; cbn [fst snd]; rewrite !L2; lia|].
    intros E. eapply IH, E; rewrite ?L2; lia.
Qed.

Definition addrOk (a : Addr) : Prop := match a with Addr4 b => length b = 4%nat | Addr6 b _ => length b = 16%nat end.

Lemma parseIPv6_length s a : parseIPv6 s = Some a -> addrOk a.
Proof.
  assert (H : forall ell s z, (match ell with Some e => (e <= 0)%nat | None => True end) ->
    (ip ← parseIPv6Groups 8 [] ell s ≫= expandEllipsis; Some (Addr6 ip z)) = Some a -> addrOk a).
  { intros ell t z He. destruct (parseIPv6Groups 8 [] ell t) as [r|] eqn:E; [|done]. cbn [mbind option_bind].
    apply parseIPv6Groups_length in E as [E1 E2]; [|cbn; lia|by destruct ell].
    destruct (expandEllipsis r) eqn:X; [|done]. apply expandEllipsis_length in X; [|done..]. by intros [= <-]. }
  assert (G : forall t z, match t with
      | [Byte.x3a; Byte.x3a] => Some (Addr6 (replicate 16 Byte.x00) z)
      | Byte.x3a :: Byte.x3a :: t => ip ← parseIPv6Groups 8 [] (Some 0%nat) t ≫= expandEllipsis; Some (Addr6 ip z)
      | _ => ip ← parseIPv6Groups 8 [] None t ≫= expandEllipsis; Some (Addr6 ip z)
      end = Some a -> addrOk a).
  { intros t z. specialize (H None t z I) as HN. pose proof (fun t => H (Some 0%nat) t z (le_n 0)) as HS. clear H.
    destruct t as [|c t]; [exact HN|]. destruct c; try exact HN. destruct t as [|d t]; [exact HN|]. destruct d; try exact HN.
    clear HN. destruct t; [by intros [= <-]|apply HS]. }
  unfold parseIPv6. destruct (cutByte Byte.x25 s) as [[t z]|]; [destruct (bytes_eqb z []); [done|]|]; apply G.
Qed.

Lemma ParseAddr_length s a : ParseAddr s = Some a -> addrOk a.
Proof.
  unfold ParseAddr. generalize s at 2. induction s0 as [|c t IH]; [done|].
  destruct c; try exact IH; cbn [parseAddrAt]; [done| |apply parseIPv6_length].
  destruct (parseIPv4Fields s [] 0 0) as [f|] eqn:E; [|done]. apply parseIPv4Fields_length in E; [|cbn; lia].
  by intros [= <-].
Qed.

Lemma sameLead_cons n x a b : 0 <= n -> sameLead (8 + n) (x :: a) (x :: b) <-> sameLead n a b.
Proof.
  intros Hn. split; intros [Hl H]; (split; [cbn in *; lia|]); intros i Hi.
  - specialize (H (8 + i)%nat ltac:(lia)). by rewrite !ipBit_tail in H.
  - destruct (Nat.lt_ge_cases i 8); [by rewrite !ipBit_head|]. replace i with (8 + (i - 8))%nat by lia.
    rewrite !ipBit_tail. apply H. lia.
Qed.

Lemma sameLead_app n p a b : 0 <= n -> sameLead (8 * blen p + n) (p ++ a) (p ++ b) <-> sameLead n a b.
Proof.
  intros Hn. induction p as [|x p IH]; [done|]. rewrite <- IH. cbn [app].
  rewrite <- (sameLead_cons (8 * blen p + n) x) by (pose proof (blen_nonneg p); lia).
  unfold blen. cbn [length]. by replace (8 * Z.of_nat (S (length p)) + n) with (8 + (8 * Z.of_nat (length p) + n)) by lia.
Qed.

Lemma sameLead_take n k a b : 8 * Z.of_nat k <= n -> sameLead n a b -> take k a = take k b.
Proof.
  revert n a b. induction k as [|k IH]; intros n a b Hn; [done|]. intros [Hl H].
  destruct a as [|x a], b as [|y b]; try discriminate Hl; [done|]. cbn [take].
  assert (x = y) as ->.
  { rewrite <- (byte_of_Z_of_byte x), <- (byte_of_Z_of_byte y). f_equal. apply Z.bits_inj'. intros j Hj.
    destruct (Z.lt_ge_cases j 8); [|by rewrite !byte_testbit_high]. specialize (H (Z.to_nat (7 - j)) ltac:(lia)).
    rewrite !ipBit_head in H by lia. by replace (7 - Z.of_nat (Z.to_nat (7 - j))) with j in H by lia. }
  f_equal. apply (IH (n - 8)); [lia|]. apply (sameLead_cons _ y); [lia|]. replace (8 + (n - 8)) with n by lia. done.
Qed.

Lemma ipBit_mask n a i : 0 <= n <= Z.of_nat i -> ipBit (andBytes a (CIDRMask n (length a))) i = false.
Proof.
  revert n i. induction a as [|x a IH]; intros n i Hn; [done|].
  cbn [length]. rewrite CIDRMask_S by lia. unfold andBytes in *. cbn [zip_with]. rewrite Z_of_maskByte by lia.
  destruct (Nat.lt_ge_cases i 8) as [Hi|Hi].
  - rewrite ipBit_head, Z_of_byte_of_Z, Z.mod_small by (done || apply land_byte_range).
    rewrite Z.land_spec, maskByte_bit by lia. rewrite (proj2 (Z.leb_gt _ _)) by lia. apply andb_false_r.
  - replace i with (8 + (i - 8))%nat by lia. rewrite ipBit_tail. apply IH. lia.
Qed.

(** *** What a prefix contains *)

(** The bits a prefix fixes, of an address in its 16-byte form. *)
Definition fixedBits (a : Addr) (bits : Z) : Z := match a with Addr4 _ => 96 + bits | Addr6 _ _ => bits end.

(** The addresses in a prefix: those that agree with it on the bits it fixes; one too short to fix the
    form of an IPv4 address has none of them. *)
Definition inPrefix (a : Addr) (bits : Z) (ip : bytes) : Prop :=
  sameLead (fixedBits a bits) (As16 a) (To16 ip) /\ (fixedBits a bits < 96 -> To4 ip = None).

Lemma To4_Some ip x : ipLen ip -> To4 ip = Some x -> length x = 4%nat /\ To16 ip = v4InV6Prefix ++ x.
Proof.
  unfold To4, To16. intros Hl. destruct (Nat.eqb_spec (length ip) 4) as [E|E]; [by intros [= <-]|].
  destruct Hl as [?|Hl]; [done|]. rewrite Hl, Nat.eqb_refl. cbn [andb]. unfold bytes_eqb. case_bool_decide as P; [|done].
  intros [= <-]. split; [rewrite length_drop; lia|]. rewrite <- P. by rewrite take_drop.
Qed.

Lemma To4_None ip : ipLen ip -> To4 ip = None -> length ip = 16%nat /\ To16 ip = ip /\ take 12 ip <> v4InV6Prefix.
Proof.
  unfold To4, To16. intros Hl. destruct (Nat.eqb_spec (length ip) 4) as [E|E]; [done|].
  destruct Hl as [?|Hl]; [done|]. rewrite Hl, Nat.eqb_refl. cbn [andb]. unfold bytes_eqb. by case_bool_decide.
Qed.

Lemma prefix_bit95 x : ipBit (v4InV6Prefix ++ x) 95 = true.
Proof. reflexivity. Qed.

Lemma CIDRMask_drop n k : 8 * Z.of_nat k <= n -> forall j, drop k (CIDRMask n (k + j)) = CIDRMask (n - 8 * Z.of_nat k) j.
Proof.
  revert n. induction k as [|k IH]; intros n Hn j; [by rewrite Z.sub_0_r|].
  cbn [Nat.add CIDRMask]. rewrite (proj2 (Z.leb_le _ _)) by lia. cbn [drop]. rewrite IH by lia. f_equal. lia.
Qed.

Lemma drop_andBytes k a m : drop k (andBytes a m) = andBytes (drop k a) (drop k m).
Proof. revert a m. induction k as [|k IH]; intros [|x a] [|y m]; try done; [|apply IH]. cbn. by destruct (drop k a). Qed.

(** A prefix of four bytes. *)
Lemma Contains4 n b ip : 0 <= n -> length b = 4%nat -> ipLen ip ->
  (let ip' := default ip (To4 ip) in
   (length ip' =? 4)%nat && bytes_eqb (andBytes (andBytes b (CIDRMask n 4)) (CIDRMask n 4)) (andBytes ip' (CIDRMask n 4))) = true <->
  sameLead (96 + n) (v4InV6Prefix ++ b) (To16 ip).
Proof.
  intros Hn Hb Hip. cbv zeta. rewrite andBytes_idem. destruct (To4 ip) as [x|] eqn:E; cbn [default from_option id].
  - apply To4_Some in E as [Hx ->]; [|done]. change 96 with (8 * blen v4InV6Prefix). rewrite sameLead_app by done.
    rewrite Hx, Nat.eqb_refl. cbn [andb]. unfold bytes_eqb. rewrite bool_decide_eq_true.
    rewrite <- mask_eq_sameLead by lia. by rewrite Hb.
  - apply To4_None in E as (Hl & -> & Hp); [|done]. rewrite Hl. split; [done|]. intros H.
    apply (sameLead_take _ 12) in H; [|lia]. done.
Qed.

Lemma Contains_mask4 n b ip : 0 <= n <= 32 -> length b = 4%nat -> ipLen ip ->
  IPNet_Contains (mkIPNet (ipMask (v4InV6Prefix ++ b) (CIDRMask n 4)) (CIDRMask n 4)) ip = true <-> inPrefix (Addr4 b) n ip.
Proof.
  intros Hn Hb Hip. unfold inPrefix. cbn [fixedBits As16].
  assert (E : ipMask (v4InV6Prefix ++ b) (CIDRMask n 4) = andBytes b (CIDRMask n 4)).
  { unfold ipMask. rewrite length_CIDRMask, length_app, Hb. cbn [length Nat.add Nat.eqb andb].
    rewrite take_app_length', drop_app_length' by done. change (bytes_eqb v4InV6Prefix v4InV6Prefix) with true.
    change (length v4InV6Prefix) with 12%nat. cbn [Nat.add Nat.eqb andb]. by rewrite Hb. }
  assert (Hl : length (andBytes b (CIDRMask n 4)) = 4%nat) by (by rewrite length_andBytes, length_CIDRMask, Hb).
  rewrite E. unfold IPNet_Contains, networkNumberAndMask. cbn [net_IP net_Mask]. unfold To4 at 1.
  rewrite Hl. cbn [Nat.eqb mbind option_bind]. rewrite length_CIDRMask, Hl. cbn [Nat.eqb default from_option id].
  rewrite Hl, (Contains4 n b ip) by (done || lia). split; [|by intros []]. intros H. split; [done|lia].
Qed.

Lemma Contains_mask16 n b z ip : 0 <= n <= 128 -> length b = 16%nat -> ipLen ip ->
  IPNet_Contains (mkIPNet (ipMask b (CIDRMask n 16)) (CIDRMask n 16)) ip = true <-> inPrefix (Addr6 b z) n ip.
Proof.
  intros Hn Hb Hip. unfold inPrefix. cbn [fixedBits As16].
  assert (E : ipMask b (CIDRMask n 16) = andBytes b (CIDRMask n 16)) by (unfold ipMask; rewrite length_CIDRMask; cbn [Nat.eqb andb]; by rewrite Hb).
  assert (Hl : length (andBytes b (CIDRMask n 16)) = 16%nat) by (by rewrite length_andBytes, length_CIDRMask, Hb).
  assert (Hs : sameLead n (andBytes b (CIDRMask n 16)) b).
  { apply mask_eq_sameLead; rewrite ?Hl; [lia|done|apply andBytes_idem]. }
  rewrite E. unfold IPNet_Contains, networkNumberAndMask. cbn [net_IP net_Mask].
  destruct (To4 (andBytes b (CIDRMask n 16))) as [x|] eqn:X; cbn [mbind option_bind].
  - apply To4_Some in X as [Hx X]; [|by right]. unfold To16 in X. rewrite Hl in X. cbn [Nat.eqb] in X.
    assert (96 <= n) as H96.
    { apply Z.nlt_ge. intros Hlt. pose proof (prefix_bit95 x) as B. rewrite <- X in B.
      pose proof (ipBit_mask n b 95 ltac:(lia)) as B'. rewrite Hb in B'. congruence. }
    apply (sameLead_take _ 12) in Hs; [|lia]. rewrite X in Hs. change (take 12 (v4InV6Prefix ++ x)) with v4InV6Prefix in Hs.
    assert (Ex : x = andBytes (drop 12 b) (CIDRMask (n - 96) 4)).
    { change x with (drop 12 (v4InV6Prefix ++ x)). rewrite <- X, drop_andBytes. f_equal. by apply (CIDRMask_drop n 12 ltac:(lia) 4). }
    rewrite length_CIDRMask, Hx. cbn [Nat.eqb default from_option id]. rewrite Hx.
    change (drop 12 (CIDRMask n 16)) with (drop 12 (CIDRMask n (12 + 4))). rewrite (CIDRMask_drop n 12 ltac:(lia) 4).
    change (8 * Z.of_nat 12) with 96. rewrite Ex.
    rewrite (Contains4 (n - 96) (drop 12 b) ip) by (try lia; try done; rewrite length_drop; lia).
    replace (96 + (n - 96)) with n by lia. rewrite Hs, take_drop. split; [|by intros []]. intros H. split; [done|lia].
  - apply To4_None in X as (_ & _ & Hp); [|by right]. rewrite Hl, Nat.eqb_refl. cbn [mbind option_bind].
    rewrite length_CIDRMask, Hl. cbn [Nat.eqb default from_option id]. rewrite Hl, andBytes_idem.
    destruct (To4 ip) as [x|] eqn:Y; cbn [default from_option id].
    + apply To4_Some in Y as [Hx ->]; [|done]. rewrite Hx. split; [done|]. intros [H Hlt].
      destruct (Z.lt_ge_cases n 96) as [|H96]; [by specialize (Hlt ltac:(lia))|].
      apply (sameLead_take _ 12) in H; [|lia]. apply (sameLead_take _ 12) in Hs; [|lia]. by rewrite Hs, H in Hp.
    + apply To4_None in Y as (Hi & -> & _); [|done]. rewrite Hi, Nat.eqb_refl. cbn [andb]. unfold bytes_eqb.
      rewrite bool_decide_eq_true, <- mask_eq_sameLead by lia. rewrite Hb. tauto.
Qed.

Lemma digitsVal_nonneg d v : forallb isDigit d = true -> 0 <= v -> 0 <= digitsVal d v.
Proof.
  revert v. induction d as [|c d IH]; intros v; [done|]. cbn [forallb]. intros [Hc Hd]%andb_true_iff Hv.
  apply (IH _ Hd). unfold isDigit in Hc. lia.
Qed.

Lemma Contains_prefix s n : ParseCIDR s = Some n ->
  exists addr mask a bits, s = addr ++ slash :: mask /\ ParseAddr addr = Some a /\ dtoi mask = Some bits /\ 0 <= bits <= BitLen a /\
    forall ip, ipLen ip -> IPNet_Contains n ip = true <-> inPrefix a bits ip.
Proof.
  unfold ParseCIDR. destruct (cutByte slash s) as [[addr mask]|] eqn:Hc; [|done]. cbn [mbind option_bind].
  destruct (ParseAddr addr) as [a|] eqn:Ha; [|done]. cbn [mbind option_bind]. destruct (negb _); [done|].
  destruct (dtoi mask) as [bits|] eqn:Hd; [|done]. cbn [mbind option_bind]. destruct (Z.ltb_spec (BitLen a) bits) as [|Hb]; [done|].
  intros [= <-]. apply cutByte_Some in Hc as [-> _]. exists addr, mask, a, bits.
  assert (0 <= bits) as H0.
  { revert Hd. unfold dtoi. destruct (_ && _) eqn:D; [|done]. apply andb_true_iff in D as [D _].
    destruct (_ <? _); [|done]. intros [= <-]. by apply digitsVal_nonneg. }
  split; [done|]. split; [done|]. split; [done|]. split; [done|]. intros ip Hip. apply ParseAddr_length in Ha.
  destruct a as [b|b z]; cbn [BitLen As16 addrOk] in *.
  - change (Z.to_nat (32 / 8)) with 4%nat. by apply Contains_mask4.
  - change (Z.to_nat (128 / 8)) with 16%nat. by apply Contains_mask16.
Qed.
