(* ===== verification/GoJson.v ===== *)
(** * Package encoding/json

    JSON values, the compact encoding [json.Marshal] writes, the decoder behind
    [json.Unmarshal], and the way a Go struct is filled from an object. Strings are Go
    strings, numbers keep their literal. What is encoded decodes to itself when its strings are
    valid UTF-8, and an encoding is one line. *)
From stdpp Require Import base list gmap strings numbers.
From Stdlib Require Import ZArith Lia.
From Stdlib.Strings Require Import Byte.
From S2P Require Import Prelude GoStd.
Open Scope Z_scope.
Set Warnings "-register-all".

Inductive json : Type :=
| JNull
| JBool (b : bool)
| JNum (lit : bytes)
| JStr (s : bytes)
| JArr (l : list json)
| JObj (fields : list (bytes * json)).

(** ** Encoding *)

Definition hexd (n : Z) : byte := hexDigit n.

(** [utf8.AppendRune] *)
Definition encodeRune (r : Z) : bytes :=
  let r := if (r <? 0) || (1114111 <? r) || ((55296 <=? r) && (r <=? 57343)) then RuneError else r in
  if r <? 128 then [byte_of_Z r]
  else if r <? 2048 then [byte_of_Z (192 + r / 64); byte_of_Z (128 + r mod 64)]
  else if r <? 65536 then [byte_of_Z (224 + r / 4096); byte_of_Z (128 + (r / 64) mod 64); byte_of_Z (128 + r mod 64)]
  else [byte_of_Z (240 + r / 262144); byte_of_Z (128 + (r / 4096) mod 64); byte_of_Z (128 + (r / 64) mod 64);
        byte_of_Z (128 + r mod 64)].

(** The bytes [appendString] copies: printable and none of the quote, the
    backslash, and the three characters HTML gives a meaning. *)
Definition htmlSafe (c : byte) : bool :=
  let v := Z_of_byte c in
  (32 <=? v) && negb (v =? 34) && negb (v =? 92) && negb (v =? 60) && negb (v =? 62) && negb (v =? 38).

Definition quoteByte (c : byte) : bytes :=
  let v := Z_of_byte c in
  if htmlSafe c then [c]
  else if (v =? 34) || (v =? 92) then [Byte.x5c; c]
  else if v =? 8 then go "\b" else if v =? 12 then go "\f" else if v =? 10 then go "\n"
  else if v =? 13 then go "\r" else if v =? 9 then go "\t"
  else go "\u00" ++ [hexd (v / 16); hexd (v mod 16)].

Definition quoteSeg (seg : bytes) : bytes :=
  match seg with
  | [c] => if ascii c then quoteByte c else go "\ufffd"
  | _ =>
      let r := fst (decodeRune seg) in
      if (r =? 8232) || (r =? 8233) then go "\u202" ++ [hexd (r mod 16)] else seg
  end.

Definition quoteBody (s : bytes) : bytes := concat (map quoteSeg (runes s)).
Definition quote (s : bytes) : bytes := Byte.x22 :: quoteBody s ++ [Byte.x22].

Fixpoint jsonEncode (v : json) : bytes :=
  match v with
  | JNull => go "null"
  | JBool true => go "true"
  | JBool false => go "false"
  | JNum lit => lit
  | JStr s => quote s
  | JArr l => go "[" ++ join (go ",") (map jsonEncode l) ++ go "]"
  | JObj fs => go "{" ++ join (go ",") (map (fun kv => quote (fst kv) ++ go ":" ++ jsonEncode (snd kv)) fs) ++ go "}"
  end.

(** ** Decoding *)

Definition isWs (c : byte) : bool :=
  let v := Z_of_byte c in (v =? 32) || (v =? 9) || (v =? 10) || (v =? 13).
Definition skipWs (s : bytes) : bytes := trimLeft isWs s.

Definition unhex (c : byte) : option Z :=
  let v := Z_of_byte c in
  if (48 <=? v) && (v <=? 57) then Some (v - 48)
  else if (97 <=? v) && (v <=? 102) then Some (v - 87)
  else if (65 <=? v) && (v <=? 70) then Some (v - 55)
  else None.

Definition unhex4 (a b c d : byte) : option Z :=
  x ← unhex a; y ← unhex b; z ← unhex c; w ← unhex d; Some (x * 4096 + y * 256 + z * 16 + w).

(** [getu4]: the code unit of a [\u] escape at the start of [s], and what follows. *)
Definition getu4 (s : bytes) : option (Z * bytes) :=
  match s with
  | Byte.x5c :: Byte.x75 :: a :: b :: c :: d :: r => u ← unhex4 a b c d; Some (u, r)
  | _ => None
  end.

(** The rune of a [\u] escape: a surrogate counts only with its other half. *)
Definition uEscape (u : Z) (r : bytes) : Z * bytes :=
  if (55296 <=? u) && (u <? 57344) then
    match getu4 r with
    | Some (u2, r2) =>
        if (u <? 56320) && (56320 <=? u2) && (u2 <? 57344)
        then ((u - 55296) * 1024 + (u2 - 56320) + 65536, r2)
        else (RuneError, r)
    | None => (RuneError, r)
    end
  else (u, r).

Definition simpleEscape (c : byte) : option byte :=
  if bool_decide (c ∈ [Byte.x22; Byte.x5c; Byte.x2f]) then Some c
  else if bool_decide (c = Byte.x62) then Some Byte.x08
  else if bool_decide (c = Byte.x66) then Some Byte.x0c
  else if bool_decide (c = Byte.x6e) then Some Byte.x0a
  else if bool_decide (c = Byte.x72) then Some Byte.x0d
  else if bool_decide (c = Byte.x74) then Some Byte.x09
  else None.

(** A string after its opening quote: its value, and what follows the closing quote. *)
Fixpoint pString (fuel : nat) (s : bytes) : option (bytes * bytes) :=
  match fuel with
  | O => None
  | S fuel =>
      match s with
      | [] => None
      | c :: r =>
          if bool_decide (c = Byte.x22) then Some ([], r)
          else if bool_decide (c = Byte.x5c) then
            match getu4 s with
            | Some (u, r1) =>
                let '(ru, r2) := uEscape u r1 in
                '(v, rest) ← pString fuel r2; Some (encodeRune ru ++ v, rest)
            | None =>
                match r with
                | e :: r1 => x ← simpleEscape e; '(v, rest) ← pString fuel r1; Some (x :: v, rest)
                | [] => None
                end
            end
          else if Z_of_byte c <? 32 then None
          else
            let '(ru, n) := decodeRune s in
            '(v, rest) ← pString fuel (drop n s);
            Some ((if (ru =? RuneError) && (n =? 1)%nat then encodeRune RuneError else take n s) ++ v, rest)
      end
  end.

(** *** Numbers *)

Fixpoint spanDigits (s : bytes) : bytes * bytes :=
  match s with
  | c :: r => if isDigit c then let (d, r') := spanDigits r in (c :: d, r') else ([], s)
  | [] => ([], [])
  end.

(** One or more digits. *)
Definition pDigits (s : bytes) : option (bytes * bytes) :=
  let (d, r) := spanDigits s in match d with [] => None | _ => Some (d, r) end.

Definition pInt (s : bytes) : option (bytes * bytes) :=
  match s with
  | Byte.x30 :: r => Some ([Byte.x30], r)
  | _ => pDigits s
  end.

Definition pFrac (s : bytes) : option (bytes * bytes) :=
  match s with
  | Byte.x2e :: r => '(d, r') ← pDigits r; Some (Byte.x2e :: d, r')
  | _ => Some ([], s)
  end.

Definition pExp (s : bytes) : option (bytes * bytes) :=
  match s with
  | e :: r =>
      if bool_decide (e ∈ [Byte.x65; Byte.x45]) then
        match r with
        | g :: r1 =>
            if bool_decide (g ∈ [Byte.x2b; Byte.x2d])
            then '(d, r') ← pDigits r1; Some (e :: g :: d, r')
            else '(d, r') ← pDigits r; Some (e :: d, r')
        | [] => None
        end
      else Some ([], s)
  | [] => Some ([], s)
  end.

Definition pNumber (s : bytes) : option (bytes * bytes) :=
  let '(sg, r) := match s with Byte.x2d :: r => ([Byte.x2d], r) | _ => ([], s) end in
  '(i, r1) ← pInt r; '(f, r2) ← pFrac r1; '(e, r3) ← pExp r2; Some (sg ++ i ++ f ++ e, r3).

(** *** Values *)

Definition maxNestingDepth : Z := 10000.

Definition pLit (s : bytes) : option (json * bytes) :=
  if hasPrefix s (go "null") then Some (JNull, drop 4 s)
  else if hasPrefix s (go "true") then Some (JBool true, drop 4 s)
  else if hasPrefix s (go "false") then Some (JBool false, drop 5 s)
  else '(n, r) ← pNumber s; Some (JNum n, r).

Fixpoint pValue (fuel : nat) (depth : Z) (s : bytes) : option (json * bytes) :=
  match fuel with
  | O => None
  | S fuel =>
      match skipWs s with
      | Byte.x22 :: r => '(v, rest) ← pString (length r) r; Some (JStr v, rest)
      | Byte.x7b :: r =>
          if maxNestingDepth <=? depth then None else
          match skipWs r with
          | Byte.x7d :: rest => Some (JObj [], rest)
          | r => '(fs, rest) ← pFields fuel (depth + 1) r; Some (JObj fs, rest)
          end
      | Byte.x5b :: r =>
          if maxNestingDepth <=? depth then None else
          match skipWs r with
          | Byte.x5d :: rest => Some (JArr [], rest)
          | r => '(l, rest) ← pElems fuel (depth + 1) r; Some (JArr l, rest)
          end
      | s => pLit s
      end
  end
with pFields (fuel : nat) (depth : Z) (s : bytes) : option (list (bytes * json) * bytes) :=
  match fuel with
  | O => None
  | S fuel =>
      match skipWs s with
      | Byte.x22 :: r =>
          '(k, r1) ← pString (length r) r;
          match skipWs r1 with
          | Byte.x3a :: r2 =>
              '(v, r3) ← pValue fuel depth r2;
              match skipWs r3 with
              | Byte.x7d :: rest => Some ([(k, v)], rest)
              | Byte.x2c :: r4 => '(fs, rest) ← pFields fuel depth r4; Some ((k, v) :: fs, rest)
              | _ => None
              end
          | _ => None
          end
      | _ => None
      end
  end
with pElems (fuel : nat) (depth : Z) (s : bytes) : option (list json * bytes) :=
  match fuel with
  | O => None
  | S fuel =>
      '(v, r) ← pValue fuel depth s;
      match skipWs r with
      | Byte.x5d :: rest => Some ([v], rest)
      | Byte.x2c :: r1 => '(l, rest) ← pElems fuel depth r1; Some (v :: l, rest)
      | _ => None
      end
  end.

(** The whole input is one value; [None] is a syntax error. *)
Definition jsonDecode (s : bytes) : option json :=
  '(v, rest) ← pValue (S (length s)) 0 s;
  match skipWs rest with [] => Some v | _ => None end.

(** ** Filling a struct

    A key names the field it equals, or else the first one it equals up to
    case; the long s and the Kelvin sign are the only other characters that fold to ASCII letters. *)

Definition foldSeg (seg : bytes) : bytes :=
  match seg with
  | [c] => let v := Z_of_byte c in [if (97 <=? v) && (v <=? 122) then byte_of_Z (v - 32) else c]
  | _ =>
      let r := fst (decodeRune seg) in
      if r =? 383 then go "S" else if r =? 8490 then go "K" else seg
  end.
Definition foldName (k : bytes) : bytes := concat (map foldSeg (runes k)).

Definition fieldOf (names : list bytes) (k : bytes) : option bytes :=
  if bool_decide (k ∈ names) then Some k
  else List.find (fun n => bytes_eqb (foldName n) (foldName k)) names.

(** ** Round trips *)

(** *** Runes *)

Definition validUtf8Seg (g : bytes) : bool := negb ((fst (decodeRune g) =? RuneError) && (length g =? 1)%nat).
Definition utf8Valid (s : bytes) : bool := forallb validUtf8Seg (runes s).

(** A segment of a valid string: one ASCII byte, or the bytes of one longer rune. *)
Definition goodSeg (g : bytes) : Prop :=
  (exists c, g = [c] /\ ascii c = true) \/ ((2 <= length g)%nat /\ snd (decodeRune g) = length g).

Definition lo3 (v : Z) : Z := if v =? 224 then 160 else 128.
Definition hi3 (v : Z) : Z := if v =? 237 then 159 else 191.
Definition lo4 (v : Z) : Z := if v =? 240 then 144 else 128.
Definition hi4 (v : Z) : Z := if v =? 244 then 143 else 191.

(** The shapes of what [decodeRune] reads. *)
Inductive runeView : bytes -> Z -> nat -> Prop :=
| rv1 a t : ascii a = true -> runeView (a :: t) (Z_of_byte a) 1
| rv2 a b t : 194 <= Z_of_byte a <= 223 -> cont 128 191 b = true ->
    runeView (a :: b :: t) ((Z_of_byte a - 192) * 64 + low6 b) 2
| rv3 a b c t : 224 <= Z_of_byte a <= 239 -> cont (lo3 (Z_of_byte a)) (hi3 (Z_of_byte a)) b = true -> cont 128 191 c = true ->
    runeView (a :: b :: c :: t) ((Z_of_byte a - 224) * 4096 + low6 b * 64 + low6 c) 3
| rv4 a b c d t : 240 <= Z_of_byte a <= 244 -> cont (lo4 (Z_of_byte a)) (hi4 (Z_of_byte a)) b = true ->
    cont 128 191 c = true -> cont 128 191 d = true ->
    runeView (a :: b :: c :: d :: t) ((Z_of_byte a - 240) * 262144 + low6 b * 4096 + low6 c * 64 + low6 d) 4
| rvBad a t : ascii a = false -> runeView (a :: t) RuneError 1.

Lemma decodeRune_view s : s <> [] -> runeView s (fst (decodeRune s)) (snd (decodeRune s)).
Proof.
  destruct s as [|a s]; intros H; [done|]. unfold decodeRune.
  destruct (Z_of_byte a <? 128) eqn:E1; [by constructor|].
  assert (Ha : ascii a = false) by done.
  destruct ((194 <=? Z_of_byte a) && (Z_of_byte a <=? 223)) eqn:E2.
  { destruct s as [|b s]; [by constructor|]. destruct (cont 128 191 b) eqn:Eb; [|by constructor]. zbool. by constructor. }
  destruct ((224 <=? Z_of_byte a) && (Z_of_byte a <=? 239)) eqn:E3.
  { destruct s as [|b [|c s]]; [by constructor..|]. case_match eqn:Eb; [|by constructor]. zbool. by constructor. }
  destruct ((240 <=? Z_of_byte a) && (Z_of_byte a <=? 244)) eqn:E4; [|by constructor].
  destruct s as [|b [|c [|d s]]]; [by constructor..|]. case_match eqn:Eb; [|by constructor]. zbool. by constructor.
Qed.

Ltac zdec := cbv zeta; repeat (match goal with
  | |- context [?x <? ?y] => first [rewrite (proj2 (Z.ltb_lt x y)) by lia | rewrite (proj2 (Z.ltb_ge x y)) by lia]
  | |- context [?x <=? ?y] => first [rewrite (proj2 (Z.leb_le x y)) by lia | rewrite (proj2 (Z.leb_gt x y)) by lia]
  end; cbn [andb orb negb]).

(** A rune is read the same whatever follows it. *)
Lemma view_decodeRune s r n t : runeView s r n -> (r = RuneError -> n <> 1%nat) ->
  decodeRune (take n s ++ t) = (r, n).
Proof.
  intros H Hb. destruct H; cbn [take app]; rewrite ?take_0; cbn [app]; unfold decodeRune.
  - unfold ascii in H. by rewrite H.
  - zdec. by rewrite H0.
  - zdec. fold (lo3 (Z_of_byte a)). fold (hi3 (Z_of_byte a)). by rewrite H0, H1.
  - zdec. fold (lo4 (Z_of_byte a)). fold (hi4 (Z_of_byte a)). by rewrite H0, H1, H2.
  - by destruct (Hb eq_refl).
Qed.

Lemma decodeRune_app s t : s <> [] -> (fst (decodeRune s) = RuneError -> snd (decodeRune s) <> 1%nat) ->
  decodeRune (take (snd (decodeRune s)) s ++ t) = decodeRune s.
Proof.
  intros Hs Hb. rewrite (view_decodeRune s (fst (decodeRune s)) (snd (decodeRune s)) t); [by destruct (decodeRune s)| |done].
  by apply decodeRune_view.
Qed.

Lemma goodSeg_runes s : utf8Valid s = true -> Forall goodSeg (runes s).
Proof.
  unfold utf8Valid. induction s as [s IH] using (induction_ltof1 _ (@length _)). unfold ltof in IH.
  destruct (decide (s = [])) as [->|Hs]; [constructor|]. rewrite runes_unfold by done. cbn [forallb].
  pose proof (decodeRune_width s Hs) as Hw. intros [Hv Hr]%andb_true_iff.
  constructor; [|apply IH; [rewrite length_drop; lia|done]]. clear IH Hr.
  destruct (decide (fst (decodeRune s) = RuneError /\ snd (decodeRune s) = 1%nat)) as [[E1 E2]|Hn].
  - exfalso. pose proof (decodeRune_view s Hs) as V. rewrite E1, E2 in V. rewrite E2 in Hv. inversion V as [a t Ha Ea| | | |a t Ha]; subst.
    + unfold ascii, RuneError in *. zbool. lia.
    + cbn [take] in Hv. unfold validUtf8Seg in Hv. unfold decodeRune, ascii in *. rewrite Ha in Hv. by repeat case_match.
  - assert (Hn' : fst (decodeRune s) = RuneError -> snd (decodeRune s) <> 1%nat) by tauto.
    pose proof (decodeRune_app s [] Hs Hn') as Ed. rewrite app_nil_r in Ed.
    destruct (decide (snd (decodeRune s) = 1%nat)) as [E1|].
    + left. pose proof (decodeRune_view s Hs) as V. rewrite E1 in V. inversion V as [a t Ha Ea| | | |a t Ha Ea]; subst.
      * exists a. by rewrite E1.
      * exfalso. by apply Hn'.
    + right. rewrite Ed, length_take. lia.
Qed.

Lemma cont_low6 lo hi b : 128 <= lo -> hi <= 191 -> cont lo hi b = true ->
  Z_of_byte b = 128 + low6 b /\ 0 <= low6 b < 64 /\ lo <= 128 + low6 b <= hi.
Proof.
  unfold cont, low6. intros. zbool. change 63 with (Z.ones 6). rewrite Z.land_ones by lia. change (2 ^ 6) with 64.
  assert (Z_of_byte b mod 64 = Z_of_byte b - 128); [|lia].
  symmetry. apply (Z.mod_unique_pos _ _ 2); lia.
Qed.

Lemma byte_eq b v : Z_of_byte b = v -> byte_of_Z v = b.
Proof. intros <-. apply byte_of_Z_of_byte. Qed.

Lemma digit64 x y : 0 <= y < 64 -> (x * 64 + y) / 64 = x /\ (x * 64 + y) mod 64 = y.
Proof. intros H. split; symmetry; [apply (Z.div_unique_pos _ _ _ y)|apply (Z.mod_unique_pos _ _ x)]; lia. Qed.

Lemma encode3 a b c t : 224 <= Z_of_byte a <= 239 -> cont (lo3 (Z_of_byte a)) (hi3 (Z_of_byte a)) b = true ->
  cont 128 191 c = true -> encodeRune ((Z_of_byte a - 224) * 4096 + low6 b * 64 + low6 c) = take 3 (a :: b :: c :: t).
Proof.
  intros Ha H1 H2. assert (128 <= lo3 (Z_of_byte a) /\ hi3 (Z_of_byte a) <= 191 /\ (Z_of_byte a = 224 -> lo3 (Z_of_byte a) = 160) /\
    (Z_of_byte a = 237 -> hi3 (Z_of_byte a) = 159)) as (L1 & L2 & L3 & L4)
    by (unfold lo3, hi3; destruct (Z.eqb_spec (Z_of_byte a) 224), (Z.eqb_spec (Z_of_byte a) 237); lia).
  apply cont_low6 in H1 as (E1 & B1 & R1); [|lia..]. apply cont_low6 in H2 as (E2 & B2 & _); [|lia..].
  replace ((Z_of_byte a - 224) * 4096 + low6 b * 64 + low6 c) with (((Z_of_byte a - 224) * 64 + low6 b) * 64 + low6 c) by ring.
  destruct (digit64 ((Z_of_byte a - 224) * 64 + low6 b) (low6 c) B2) as [D1 M1].
  destruct (digit64 (Z_of_byte a - 224) (low6 b) B1) as [D2 M2].
  set (r := ((Z_of_byte a - 224) * 64 + low6 b) * 64 + low6 c) in *.
  assert (Hr : 2048 <= r < 65536 /\ (r < 55296 \/ 57343 < r)) by (subst r; lia). unfold encodeRune.
  assert (((55296 <=? r) && (r <=? 57343)) = false) as -> by (apply andb_false_iff; rewrite !Z.leb_gt; lia).
  zdec. cbn [take]. change 4096 with (64 * 64). rewrite <- Z.div_div, D1, D2, M2, M1 by lia.
  f_equal; [|f_equal; [|f_equal]]; apply byte_eq; lia.
Qed.

Lemma encode4 a b c d t : 240 <= Z_of_byte a <= 244 -> cont (lo4 (Z_of_byte a)) (hi4 (Z_of_byte a)) b = true ->
  cont 128 191 c = true -> cont 128 191 d = true ->
  encodeRune ((Z_of_byte a - 240) * 262144 + low6 b * 4096 + low6 c * 64 + low6 d) = take 4 (a :: b :: c :: d :: t).
Proof.
  intros Ha H1 H2 H3. assert (128 <= lo4 (Z_of_byte a) /\ hi4 (Z_of_byte a) <= 191 /\ (Z_of_byte a = 240 -> lo4 (Z_of_byte a) = 144) /\
    (Z_of_byte a = 244 -> hi4 (Z_of_byte a) = 143)) as (L1 & L2 & L3 & L4)
    by (unfold lo4, hi4; destruct (Z.eqb_spec (Z_of_byte a) 240), (Z.eqb_spec (Z_of_byte a) 244); lia).
  apply cont_low6 in H1 as (E1 & B1 & R1); [|lia..]. apply cont_low6 in H2 as (E2 & B2 & _); [|lia..].
  apply cont_low6 in H3 as (E3 & B3 & _); [|lia..].
  replace ((Z_of_byte a - 240) * 262144 + low6 b * 4096 + low6 c * 64 + low6 d)
    with ((((Z_of_byte a - 240) * 64 + low6 b) * 64 + low6 c) * 64 + low6 d) by ring.
  destruct (digit64 (((Z_of_byte a - 240) * 64 + low6 b) * 64 + low6 c) (low6 d) B3) as [D1 M1].
  destruct (digit64 ((Z_of_byte a - 240) * 64 + low6 b) (low6 c) B2) as [D2 M2].
  destruct (digit64 (Z_of_byte a - 240) (low6 b) B1) as [D3 M3].
  set (r := (((Z_of_byte a - 240) * 64 + low6 b) * 64 + low6 c) * 64 + low6 d) in *.
  assert (Hr : 65536 <= r <= 1114111) by (subst r; lia). unfold encodeRune. zdec. cbn [take].
  change 262144 with (64 * (64 * 64)). change 4096 with (64 * 64).
  rewrite <- !(Z.div_div r 64), D1, <- (Z.div_div _ 64 64), D2, D3, M3, M2, M1 by lia.
  f_equal; [|f_equal; [|f_equal; [|f_equal]]]; apply byte_eq; lia.
Qed.

(** A rune is written back as the bytes it was read from. *)
Lemma encode_view s r n : runeView s r n -> (r = RuneError -> n <> 1%nat) -> encodeRune r = take n s.
Proof.
  intros H Hb. destruct H as [a t Ha|a b t Ha H1|a b c t Ha H1 H2|a b c d t Ha H1 H2 H3|]; [..|by destruct Hb].
  - unfold ascii in Ha. zbool. pose proof (Z_of_byte_range a). unfold encodeRune. zdec. cbn [take]. f_equal. apply byte_of_Z_of_byte.
  - apply cont_low6 in H1 as (E1 & B1 & _); [|lia..]. unfold encodeRune. zdec. cbn [take].
    destruct (digit64 (Z_of_byte a - 192) (low6 b) B1) as [-> ->]. f_equal; [|f_equal]; apply byte_eq; lia.
  - by apply encode3.
  - by apply encode4.
Qed.

(** *** Strings *)

Lemma pString_cons fuel c r : c <> Byte.x22 -> c <> Byte.x5c -> 32 <= Z_of_byte c ->
  pString (S fuel) (c :: r) =
    let '(ru, n) := decodeRune (c :: r) in
    '(v, rest) ← pString fuel (drop n (c :: r));
    Some ((if (ru =? RuneError) && (n =? 1)%nat then encodeRune RuneError else take n (c :: r)) ++ v, rest).
Proof.
  intros H1 H2 H3. cbn [pString]. rewrite (bool_decide_false (c = Byte.x22)), (bool_decide_false (c = Byte.x5c)) by done.
  by rewrite (proj2 (Z.ltb_ge _ _)).
Qed.

Lemma pString_ascii fuel c t : ascii c = true ->
  pString (S fuel) (quoteByte c ++ t) = '(v, rest) ← pString fuel t; Some (c :: v, rest).
Proof. intros H. destruct c; try discriminate H; reflexivity. Qed.

(** The two line separators are written as escapes. *)
Lemma pString_sep fuel r t : r = 8232 \/ r = 8233 ->
  pString (S fuel) ((go "\u202" ++ [hexd (r mod 16)]) ++ t) = '(v, rest) ← pString fuel t; Some (encodeRune r ++ v, rest).
Proof. by intros [->| ->]. Qed.

Lemma pString_seg fuel g t : goodSeg g ->
  pString (S fuel) (quoteSeg g ++ t) = '(v, rest) ← pString fuel t; Some (g ++ v, rest).
Proof.
  intros [(c & -> & Hc)|[Hl Hd]]; [cbn [quoteSeg]; rewrite Hc; by apply pString_ascii|].
  assert (Hne : g <> []) by (intros ->; cbn in Hl; lia).
  assert (E : quoteSeg g = if (fst (decodeRune g) =? 8232) || (fst (decodeRune g) =? 8233)
    then go "\u202" ++ [hexd (fst (decodeRune g) mod 16)] else g) by (destruct g as [|x [|y g]]; [done|cbn in Hl; lia|done]).
  pose proof (decodeRune_view g Hne) as V. rewrite Hd in V.
  rewrite E. destruct (_ || _) eqn:Es.
  - rewrite pString_sep by (apply orb_true_iff in Es as [?%Z.eqb_eq|?%Z.eqb_eq]; tauto).
    rewrite (encode_view _ _ _ V) by lia. by rewrite firstn_all.
  - pose proof (view_decodeRune g _ _ t V ltac:(lia)) as Ed. rewrite firstn_all in Ed.
    destruct g as [|c g]; [done|]. assert (ascii c = false) as Ha.
    { destruct (ascii c) eqn:Ea; [|done]. rewrite decodeRune_ascii in Hd by done. cbn in Hd, Hl. lia. }
    assert (H128 : 128 <= Z_of_byte c) by (unfold ascii in Ha; by zbool).
    cbn [app] in *. assert (Hc : forall x, ascii x = true -> c <> x) by (intros x Hx ->; congruence).
    rewrite pString_cons, Ed by (by apply Hc) || lia.
    rewrite app_comm_cons, drop_app_length, take_app_length.
    replace (length (c :: g) =? 1)%nat with false by (symmetry; apply Nat.eqb_neq; lia). by rewrite andb_false_r.
Qed.

Lemma quoteSeg_ne g : goodSeg g -> (1 <= length (quoteSeg g))%nat.
Proof.
  intros [(c & -> & Hc)|[Hl _]].
  - cbn [quoteSeg]. rewrite Hc. unfold quoteByte. repeat case_match; cbn; lia.
  - destruct g as [|x [|y g]]; [cbn in Hl; lia..|]. cbn [quoteSeg]. case_match; cbn; lia.
Qed.

Lemma pString_segs segs fuel rest : Forall goodSeg segs -> (length segs < fuel)%nat ->
  pString fuel (concat (map quoteSeg segs) ++ Byte.x22 :: rest) = Some (concat segs, rest).
Proof.
  intros H. revert fuel. induction H as [|g segs Hg _ IH]; intros [|fuel] Hf; cbn [length] in Hf; try lia; [done|].
  cbn [map concat]. rewrite <- app_assoc, pString_seg by done. by rewrite IH by lia.
Qed.

Lemma length_quoteBody s : utf8Valid s = true -> (length (runes s) <= length (quoteBody s))%nat.
Proof.
  intros H%goodSeg_runes. unfold quoteBody. induction H as [|g segs Hg _ IH]; [done|].
  cbn [map concat length]. rewrite length_app. pose proof (quoteSeg_ne g Hg). lia.
Qed.

(** A quoted string reads back as itself. *)
Lemma pString_quote s rest : utf8Valid s = true ->
  pString (length (quoteBody s ++ Byte.x22 :: rest)) (quoteBody s ++ Byte.x22 :: rest) = Some (s, rest).
Proof.
  intros H. rewrite <- (concat_runes s) at 3. apply pString_segs; [by apply goodSeg_runes|].
  rewrite length_app. cbn [length]. pose proof (length_quoteBody s H). lia.
Qed.

(** *** Numbers *)

(** What may follow a number. *)
Definition numEnd (rest : bytes) : Prop :=
  match rest with
  | [] => True
  | c :: _ => isDigit c = false /\ c <> Byte.x2e /\ c <> Byte.x65 /\ c <> Byte.x45
  end.

Lemma spanDigits_app s d r rest : spanDigits s = (d, r) -> r <> [] \/ numEnd rest -> spanDigits (s ++ rest) = (d, r ++ rest).
Proof.
  revert d r. induction s as [|c s IH]; intros d r E Hr; cbn in E.
  { injection E as <- <-. destruct Hr as [?|Hr]; [done|]. destruct rest as [|c rest]; [done|]. cbn. by rewrite (proj1 Hr). }
  cbn [app spanDigits]. destruct (isDigit c); [|by injection E as <- <-].
  destruct (spanDigits s) as [d' r'] eqn:E'. injection E as <- <-. by rewrite (IH d' r').
Qed.

Lemma pDigits_app s d r rest : pDigits s = Some (d, r) -> r <> [] \/ numEnd rest -> pDigits (s ++ rest) = Some (d, r ++ rest).
Proof.
  unfold pDigits. destruct (spanDigits s) as [d' r'] eqn:E. intros Hs Hr. destruct d' as [|x d']; [done|]. injection Hs as <- <-.
  by rewrite (spanDigits_app s (x :: d') r').
Qed.

Lemma pInt_app s d r rest : pInt s = Some (d, r) -> r <> [] \/ numEnd rest -> pInt (s ++ rest) = Some (d, r ++ rest).
Proof.
  intros E Hr. destruct s as [|c s]; [done|]. destruct (decide (c = Byte.x30)) as [->|Hc].
  - cbn in *. by injection E as <- <-.
  - assert (Hp : forall t, pInt (c :: t) = pDigits (c :: t)) by (intros t; by destruct c).
    cbn [app]. rewrite Hp in *. by apply (pDigits_app (c :: s)).
Qed.

Lemma pFrac_app s d r rest : pFrac s = Some (d, r) -> r <> [] \/ numEnd rest -> pFrac (s ++ rest) = Some (d, r ++ rest).
Proof.
  intros E Hr. destruct s as [|c s].
  { cbn in E. injection E as <- <-. destruct Hr as [|Hr]; [done|]. destruct rest as [|c rest]; [done|].
    cbn [app]. destruct Hr as (_ & Hc & _). by destruct c. }
  cbn [app]. destruct (decide (c = Byte.x2e)) as [->|Hc]; [|by destruct c; try done; injection E as <- <-].
  cbn in *. destruct (pDigits s) as [[d' r']|] eqn:Ed; [|done]. injection E as <- <-.
  by rewrite (pDigits_app s d' r').
Qed.

Lemma pExp_app s d r rest : pExp s = Some (d, r) -> r <> [] \/ numEnd rest -> pExp (s ++ rest) = Some (d, r ++ rest).
Proof.
  intros E Hr. destruct s as [|c s].
  { cbn in E. injection E as <- <-. destruct Hr as [|Hr]; [done|]. destruct rest as [|c rest]; [done|].
    cbn [app pExp]. destruct Hr as (_ & _ & H1 & H2). by rewrite bool_decide_false by set_solver. }
  cbn [app pExp] in *. case_bool_decide as Hc; [|by injection E as <- <-]. destruct s as [|g s]; [done|]. cbn [app].
  case_bool_decide as Hg.
  - destruct (pDigits s) as [[d' r']|] eqn:Ed; [|done]. injection E as <- <-. by rewrite (pDigits_app s d' r').
  - change (g :: s ++ rest) with ((g :: s) ++ rest). destruct (pDigits (g :: s)) as [[d' r']|] eqn:Ed; [|done].
    injection E as <- <-. by rewrite (pDigits_app (g :: s) d' r').
Qed.

(** The literals of numbers. *)
Definition isNumber (lit : bytes) : Prop := pNumber lit = Some (lit, []).

Lemma pNumber_app lit rest : isNumber lit -> numEnd rest -> pNumber (lit ++ rest) = Some (lit, rest).
Proof.
  unfold isNumber, pNumber. intros E Hr.
  set (sign := fun s : bytes => match s with Byte.x2d :: r => ([Byte.x2d], r) | _ => ([], s) end) in *.
  assert (Hs : lit <> [] -> sign (lit ++ rest) = (fst (sign lit), snd (sign lit) ++ rest)).
  { intros Hne. destruct lit as [|c lit]; [done|]. cbn [app]. subst sign. cbn beta. by destruct c. }
  change (match lit with Byte.x2d :: r => ([Byte.x2d], r) | _ => ([], lit) end) with (sign lit) in E.
  change (match lit ++ rest with Byte.x2d :: r => ([Byte.x2d], r) | _ => ([], lit ++ rest) end) with (sign (lit ++ rest)).
  rewrite Hs by (by intros ->). destruct (sign lit) as [sg r]. cbn [fst snd].
  destruct (pInt r) as [[i r1]|] eqn:E1; [|done]. cbn [mbind option_bind] in E.
  destruct (pFrac r1) as [[f r2]|] eqn:E2; [|done]. cbn [mbind option_bind] in E.
  destruct (pExp r2) as [[e r3]|] eqn:E3; [|done]. cbn [mbind option_bind] in E. injection E as E Er. subst r3.
  rewrite (pInt_app r i r1) by auto. cbn [mbind option_bind]. rewrite (pFrac_app r1 f r2) by auto. cbn [mbind option_bind].
  rewrite (pExp_app r2 e []) by auto. cbn [mbind option_bind]. by rewrite E.
Qed.

(** [strconv.ParseInt] of a literal, for the integer fields of structs. *)
Definition parseInt64 (lit : bytes) : option Z :=
  let '(sg, d) := match lit with Byte.x2d :: d => (-1, d) | _ => (1, lit) end in
  if forallb isDigit d && negb (bytes_eqb d []) then
    let v := sg * digitsVal d 0 in
    if (-2 ^ 63 <=? v) && (v <? 2 ^ 63) then Some v else None
  else None.

Lemma formatDigits_head fuel n acc : 0 < n < 10 ^ Z.of_nat fuel ->
  exists c r, formatDigits fuel n acc = c :: r /\ c <> Byte.x30.
Proof.
  revert n acc. induction fuel as [|fuel IH]; intros n acc Hn; [change (10 ^ Z.of_nat 0) with 1 in Hn; lia|].
  cbn [formatDigits]. pose proof (Z.mod_pos_bound n 10 ltac:(lia)) as Hm. pose proof (Z.div_mod n 10 ltac:(lia)) as Hdm.
  destruct (Z.eqb_spec (n / 10) 0) as [E|E].
  - eexists _, _. split; [done|]. intros Hc. apply (f_equal Z_of_byte) in Hc. rewrite Z_of_digit in Hc by done.
    change (Z_of_byte Byte.x30) with 48 in Hc. lia.
  - apply IH. pose proof (Z.div_pos n 10 ltac:(lia) ltac:(lia)). split; [lia|].
    apply Z.div_lt_upper_bound; [lia|]. rewrite <- Z.pow_succ_r by lia. rewrite <- Nat2Z.inj_succ. lia.
Qed.

Lemma spanDigits_all d : forallb isDigit d = true -> spanDigits d = (d, []).
Proof. induction d as [|c d IH]; [done|]. cbn. intros [-> H]%andb_true_iff. by rewrite IH. Qed.

(** The digits of a natural number: more than one only without a leading zero. *)
Lemma pInt_digits n : 0 <= n ->
  let d := formatDigits (S (Z.to_nat (Z.log2 n))) n [] in pInt d = Some (d, []) /\ d <> [] /\ forallb isDigit d = true.
Proof.
  intros Hn d. assert (Hd : forallb isDigit d = true) by (by apply formatDigits_digits).
  destruct (decide (n = 0)) as [->|Hz]; [done|].
  destruct (formatDigits_head (S (Z.to_nat (Z.log2 n))) n []) as (c & r & E & Hc).
  { split; [lia|]. eapply Z.lt_le_trans; [|apply pow2_le_pow10].
    rewrite Nat2Z.inj_succ, Z2Nat.id by apply Z.log2_nonneg. apply Z.log2_spec. lia. }
  fold d in E. split; [|split; [by rewrite E|done]]. assert (Hp : pInt d = pDigits d) by (rewrite E; by destruct c).
  rewrite Hp. unfold pDigits. rewrite spanDigits_all by done. by rewrite E.
Qed.

Lemma isNumber_formatInt n : isNumber (formatInt n).
Proof.
  unfold isNumber, formatInt. destruct (pInt_digits (Z.abs n) ltac:(lia)) as (Hp & Hne & Hd). cbv zeta in *.
  set (d := formatDigits _ _ _) in *. unfold pNumber. destruct (n <? 0).
  - change (byte_of_Z 45) with Byte.x2d. cbv beta iota. rewrite Hp. cbn. by rewrite app_nil_r.
  - assert (match d with Byte.x2d :: r => ([Byte.x2d], r) | _ => ([], d) end = ([], d)) as ->.
    { clear -Hd. destruct d as [|c l]; [done|]. destruct c; first [reflexivity|discriminate Hd]. }
    rewrite Hp. cbn. by rewrite app_nil_r.
Qed.

(** [strconv.ParseInt] and [Atoi], which also takes a plus sign. *)
Definition parseInt (s : bytes) : option Z :=
  match s with
  | Byte.x2b :: Byte.x2d :: _ => None
  | Byte.x2b :: d => parseInt64 d
  | _ => parseInt64 s
  end.

Lemma parseInt64_format n : -2 ^ 63 <= n < 2 ^ 63 -> parseInt64 (formatInt n) = Some n.
Proof.
  intros Hr. unfold parseInt64, formatInt. destruct (pInt_digits (Z.abs n) ltac:(lia)) as (_ & Hne & Hd). cbv zeta in *.
  pose proof (formatAbs_val n) as Hv. set (d := formatDigits _ _ _) in *. destruct (Z.ltb_spec n 0).
  - change (byte_of_Z 45) with Byte.x2d. cbv beta iota. rewrite Hd. unfold bytes_eqb. rewrite (bool_decide_false (d = [])) by done. cbn [andb negb].
    rewrite Hv. replace (-1 * Z.abs n) with n by lia. by rewrite (proj2 (Z.leb_le _ _)), (proj2 (Z.ltb_lt _ _)) by lia.
  - assert (match d with Byte.x2d :: r => (-1, r) | _ => (1, d) end = (1, d)) as ->.
    { clear -Hd. destruct d as [|c l]; [done|]. destruct c; first [reflexivity|discriminate Hd]. }
    rewrite Hd. unfold bytes_eqb. rewrite (bool_decide_false (d = [])) by done. cbn [andb negb].
    rewrite Hv. replace (1 * Z.abs n) with n by lia. by rewrite (proj2 (Z.leb_le _ _)), (proj2 (Z.ltb_lt _ _)) by lia.
Qed.

(** *** Values *)

(** Values [json.Marshal] can produce at nesting depth [d] and that jsonDecode to
    themselves: strings are valid UTF-8 and the nesting is within the decoder's bound. *)
Inductive wfJson : Z -> json -> Prop :=
| wf_null d : wfJson d JNull
| wf_bool d b : wfJson d (JBool b)
| wf_num d lit : isNumber lit -> wfJson d (JNum lit)
| wf_str d s : utf8Valid s = true -> wfJson d (JStr s)
| wf_arr d l : d < maxNestingDepth -> Forall (wfJson (d + 1)) l -> wfJson d (JArr l)
| wf_obj d fs : d < maxNestingDepth -> Forall (fun kv => utf8Valid (fst kv) = true /\ wfJson (d + 1) (snd kv)) fs ->
    wfJson d (JObj fs).

Fixpoint jsize (v : json) : nat :=
  match v with
  | JArr l => S (sum_list (map (fun x => S (jsize x)) l))
  | JObj fs => S (sum_list (map (fun kv => S (jsize (snd kv))) fs))
  | _ => 1
  end.

Lemma isNumber_head lit : isNumber lit -> exists c t, lit = c :: t /\ isNumChar c = true.
Proof.
  unfold isNumber, pNumber. intros E. destruct lit as [|c t]; [done|]. exists c, t. split; [done|].
  unfold isNumChar. destruct (isDigit c) eqn:Hc; [done|]. destruct (decide (c = Byte.x2d)) as [->|Hm]; [done|].
  assert (match c :: t with Byte.x2d :: r => ([Byte.x2d], r) | _ => ([], c :: t) end = ([], c :: t)) as Es by (by destruct c).
  rewrite Es in E. assert (pInt (c :: t) = None) as Ei; [|by rewrite Ei in E].
  destruct (decide (c = Byte.x30)) as [->|]; [done|]. assert (pInt (c :: t) = pDigits (c :: t)) as -> by (by destruct c).
  unfold pDigits. cbn. by rewrite Hc.
Qed.

Lemma encode_head d v : wfJson d v -> exists c t, jsonEncode v = c :: t /\ isWs c = false /\ c <> Byte.x5d.
Proof.
  intros H. destruct H as [| |d lit H|d s H| |]; try (by eexists _, _).
  - destruct b; by eexists _, _.
  - destruct (isNumber_head lit H) as (c & t & -> & Hc). exists c, t. split; [done|].
    destruct c; first [discriminate Hc|by vm_compute].
Qed.

Lemma skipWs_head c t : isWs c = false -> skipWs (c :: t) = c :: t.
Proof. intros H. unfold skipWs. cbn. by rewrite H. Qed.

Lemma pValue_num fuel d lit rest : isNumber lit -> numEnd rest -> pValue (S fuel) d (lit ++ rest) = Some (JNum lit, rest).
Proof.
  intros Hl Hr. pose proof (pNumber_app lit rest Hl Hr) as Hp. destruct (isNumber_head lit Hl) as (c & t & -> & Hc).
  assert (Hv : pValue (S fuel) d ((c :: t) ++ rest) = pLit ((c :: t) ++ rest))
    by (destruct c; first [discriminate Hc|reflexivity]). rewrite Hv.
  assert (Hlit : pLit ((c :: t) ++ rest) = '(n, r) ← pNumber ((c :: t) ++ rest); Some (JNum n, r))
    by (destruct c; first [discriminate Hc|reflexivity]). by rewrite Hlit, Hp.
Qed.

(** Elements and fields read back when each value does. *)
Definition reads (fuel : nat) : Prop :=
  forall v d rest, wfJson d v -> (jsize v <= fuel)%nat -> numEnd rest -> pValue fuel d (jsonEncode v ++ rest) = Some (v, rest).

Lemma pElems_join d l x fuel rest : (forall f, (f < fuel)%nat -> reads f) ->
  Forall (wfJson d) (x :: l) -> (sum_list (map (fun x => S (jsize x)) (x :: l)) <= fuel)%nat ->
  pElems fuel d (join (go ",") (map jsonEncode (x :: l)) ++ Byte.x5d :: rest) = Some (x :: l, rest).
Proof.
  revert x fuel. induction l as [|y l IH]; intros x fuel Hr Hw Hf; apply Forall_cons_1 in Hw as [Hx Hl];
    (destruct fuel as [|fuel]; [cbn in Hf; lia|]).
  - cbn [pElems map join]. rewrite (Hr fuel) by (done || (cbn in Hf; lia)). done.
  - change (join (go ",") (map jsonEncode (x :: y :: l))) with (jsonEncode x ++ Byte.x2c :: join (go ",") (map jsonEncode (y :: l))).
    rewrite <- app_assoc. cbn [app pElems]. change (sum_list (map (fun x => S (jsize x)) (x :: y :: l))) with
      (S (jsize x) + sum_list (map (fun x => S (jsize x)) (y :: l)))%nat in Hf.
    rewrite (Hr fuel) by (done || lia). cbn [mbind option_bind]. rewrite skipWs_head by done.
    rewrite IH by (first [done|intros f ?; apply Hr; lia|lia]). done.
Qed.

Definition encodeField (kv : bytes * json) : bytes := quote (fst kv) ++ go ":" ++ jsonEncode (snd kv).

Lemma pFields_key fuel d k t : utf8Valid k = true ->
  pFields (S fuel) d (quote k ++ Byte.x3a :: t) =
    '(v, r3) ← pValue fuel d t;
    match skipWs r3 with
    | Byte.x7d :: rest => Some ([(k, v)], rest)
    | Byte.x2c :: r4 => '(fs, rest) ← pFields fuel d r4; Some ((k, v) :: fs, rest)
    | _ => None
    end.
Proof.
  intros Hk. unfold quote. cbn [app]. rewrite <- app_assoc. cbn [pFields]. rewrite skipWs_head by done.
  cbn [app]. rewrite pString_quote by done. cbn [mbind option_bind]. by rewrite skipWs_head.
Qed.

Lemma pFields_join d fs kv fuel rest : (forall f, (f < fuel)%nat -> reads f) ->
  Forall (fun kv => utf8Valid (fst kv) = true /\ wfJson d (snd kv)) (kv :: fs) ->
  (sum_list (map (fun kv => S (jsize (snd kv))) (kv :: fs)) <= fuel)%nat ->
  pFields fuel d (join (go ",") (map encodeField (kv :: fs)) ++ Byte.x7d :: rest) = Some (kv :: fs, rest).
Proof.
  revert kv fuel. induction fs as [|kv' fs IH]; intros [k x] fuel Hr Hw Hf; apply Forall_cons_1 in Hw as [[Hk Hx] Hl];
    cbn [fst snd] in *; (destruct fuel as [|fuel]; [cbn in Hf; lia|]).
  - cbn [map join]. unfold encodeField. cbn [fst snd]. change (go ":") with [Byte.x3a]. rewrite <- !app_assoc. cbn [app].
    rewrite pFields_key, (Hr fuel) by (done || (cbn in Hf; lia)). done.
  - change (join (go ",") (map encodeField ((k, x) :: kv' :: fs))) with
      (encodeField (k, x) ++ Byte.x2c :: join (go ",") (map encodeField (kv' :: fs))).
    unfold encodeField at 1. cbn [fst snd]. change (go ":") with [Byte.x3a]. rewrite <- !app_assoc. cbn [app].
    change (sum_list (map (fun kv => S (jsize (snd kv))) ((k, x) :: kv' :: fs))) with
      (S (jsize x) + sum_list (map (fun kv => S (jsize (snd kv))) (kv' :: fs)))%nat in Hf.
    rewrite pFields_key, (Hr fuel) by (done || lia). cbn [mbind option_bind]. rewrite skipWs_head by done.
    rewrite IH by (first [done|intros f ?; apply Hr; lia|lia]). done.
Qed.

Lemma pValue_encode fuel : reads fuel.
Proof.
  induction fuel as [fuel IH] using lt_wf_ind. intros v d rest Hw Hs Hr.
  destruct fuel as [|fuel]; [destruct v; cbn in Hs; lia|].
  destruct Hw as [| |d lit Hl|d s Hv|d l Hd Hl|d fs Hd Hl].
  - done.
  - by destruct b.
  - by apply pValue_num.
  - cbn [jsonEncode]. unfold quote. cbn [app pValue]. rewrite skipWs_head by done. rewrite <- app_assoc. cbn [app].
    by rewrite pString_quote.
  - cbn [jsonEncode]. change (go "[") with [Byte.x5b]. rewrite <- !app_assoc. cbn [app pValue]. rewrite skipWs_head by done.
    rewrite (proj2 (Z.leb_gt _ _)) by done. destruct l as [|x l]; [done|].
    assert (He : exists c t, join (go ",") (map jsonEncode (x :: l)) ++ Byte.x5d :: rest = c :: t /\ isWs c = false /\ c <> Byte.x5d).
    { apply Forall_cons_1 in Hl as [Hx _]. destruct (encode_head _ _ Hx) as (c & t & E & Hc & Hc').
      exists c. destruct l; cbn [map join]; rewrite E; by eexists. }
    destruct He as (c & t & E & Hc & Hc'). change (go "]" ++ rest) with (Byte.x5d :: rest). rewrite E, skipWs_head by done.
    pose proof (pElems_join (d + 1) l x fuel rest) as Hp. rewrite E in Hp. cbn [jsize] in Hs.
    transitivity ('(l, rest) ← pElems fuel (d + 1) (c :: t); Some (JArr l, rest)); [by destruct c|].
    rewrite Hp by (first [done|intros f ?; apply IH; lia|lia]). done.
  - cbn [jsonEncode]. change (go "{") with [Byte.x7b]. rewrite <- !app_assoc. cbn [app pValue]. rewrite skipWs_head by done.
    rewrite (proj2 (Z.leb_gt _ _)) by done. destruct fs as [|kv fs]; [done|].
    change (map (fun kv => quote (fst kv) ++ go ":" ++ jsonEncode (snd kv)) (kv :: fs)) with (map encodeField (kv :: fs)).
    assert (He : exists t, join (go ",") (map encodeField (kv :: fs)) ++ Byte.x7d :: rest = Byte.x22 :: t) by (destruct fs; by eexists).
    destruct He as (t & E). change (go "}" ++ rest) with (Byte.x7d :: rest). rewrite E, skipWs_head by done.
    pose proof (pFields_join (d + 1) fs kv fuel rest) as Hp. rewrite E in Hp. cbn [jsize] in Hs.
    rewrite Hp by (first [done|intros f ?; apply IH; lia|lia]). done.
Qed.

Lemma json_ind' (P : json -> Prop) :
  P JNull -> (forall b, P (JBool b)) -> (forall lit, P (JNum lit)) -> (forall s, P (JStr s)) ->
  (forall l, Forall P l -> P (JArr l)) -> (forall fs, Forall (fun kv => P (snd kv)) fs -> P (JObj fs)) -> forall v, P v.
Proof.
  intros Hn Hb Hnum Hs Ha Ho. fix IH 1. intros [|b|lit|s|l|fs]; [exact Hn|apply Hb|apply Hnum|apply Hs| |].
  - apply Ha. induction l as [|x l IHl]; constructor; [apply IH|exact IHl].
  - apply Ho. induction fs as [|[k x] fs IHl]; constructor; [apply IH|exact IHl].
Qed.

Lemma length_join_sep (sep : byte) (l : list bytes) : l <> [] ->
  (length (join [sep] l) + 1 = sum_list (map (fun x => S (length x)) l))%nat.
Proof.
  induction l as [|x l IH]; intros H; [done|]. destruct l as [|y l]; [cbn; lia|].
  change (join [sep] (x :: y :: l)) with (x ++ sep :: join [sep] (y :: l)). rewrite length_app. cbn [length].
  change (sum_list (map (fun x => S (length x)) (x :: y :: l))) with (S (length x) + sum_list (map (fun x => S (length x)) (y :: l)))%nat.
  rewrite <- IH by done. lia.
Qed.

Lemma jsize_encode v : forall d, wfJson d v -> (jsize v <= length (jsonEncode v))%nat.
Proof.
  induction v as [|b|lit|s|l IH|fs IH] using json_ind'; intros d Hw; inversion Hw as [| |? ? Hlit| |? ? _ Hl|? ? _ Hl]; subst.
  - cbn. lia.
  - destruct b; cbn; lia.
  - destruct (isNumber_head lit Hlit) as (c & t & -> & _). cbn. lia.
  - cbn. lia.
  - cbn [jsize jsonEncode]. rewrite !length_app. cbn [length go String.list_byte_of_string]. destruct l as [|x l]; [cbn; lia|].
    assert (H : (sum_list (map (fun x => S (jsize x)) (x :: l)) <= sum_list (map (fun x => S (length x)) (map jsonEncode (x :: l))))%nat).
    { clear Hw. induction IH as [|y l' Hy _ IHl]; [done|]. apply Forall_cons_1 in Hl as [Hl1 Hl2]. cbn.
      pose proof (Hy _ Hl1). specialize (IHl Hl2). cbn in IHl. lia. }
    pose proof (length_join_sep Byte.x2c (map jsonEncode (x :: l)) ltac:(done)) as Hj. change (go ",") with [Byte.x2c].
    change (length (go "[")) with 1%nat. change (length (go "]")) with 1%nat. lia.
  - cbn [jsize jsonEncode]. rewrite !length_app. change (length (go "{")) with 1%nat. change (length (go "}")) with 1%nat.
    destruct fs as [|x l]; [cbn; lia|]. change (map (fun kv => quote (fst kv) ++ go ":" ++ jsonEncode (snd kv)) (x :: l)) with (map encodeField (x :: l)).
    assert (H : (sum_list (map (fun kv => S (jsize (snd kv))) (x :: l)) <= sum_list (map (fun x => S (length x)) (map encodeField (x :: l))))%nat).
    { clear Hw. induction IH as [|y l' Hy _ IHl]; [done|]. apply Forall_cons_1 in Hl as [[_ Hl1] Hl2]. cbn [map sum_list].
      pose proof (Hy _ Hl1). specialize (IHl Hl2). unfold encodeField at 1. rewrite !length_app. cbn [map sum_list] in IHl. apply Nat.add_le_mono; [unfold id; lia|exact IHl]. }
    pose proof (length_join_sep Byte.x2c (map encodeField (x :: l)) ltac:(done)) as Hj. change (go ",") with [Byte.x2c]. lia.
Qed.

(** What [json.Marshal] writes, [json.Unmarshal] reads. *)
Lemma decode_encode v : wfJson 0 v -> jsonDecode (jsonEncode v) = Some v.
Proof.
  intros Hw. unfold jsonDecode. pose proof (jsize_encode v 0 Hw) as Hs.
  pose proof (pValue_encode (S (length (jsonEncode v))) v 0 [] Hw ltac:(lia) I) as Hp. rewrite app_nil_r in Hp. by rewrite Hp.
Qed.

(** *** One line *)

Definition printable (s : bytes) : Prop := Forall (fun c => 32 <= Z_of_byte c) s.

Lemma printable_app a b : printable (a ++ b) <-> printable a /\ printable b.
Proof. apply Forall_app. Qed.

Lemma printable_join sep l : printable sep -> Forall printable l -> printable (join sep l).
Proof.
  intros Hs H. induction H as [|x l Hx Hl IH]; [constructor|]. destruct l as [|y l]; [done|].
  change (join sep (x :: y :: l)) with (x ++ sep ++ join sep (y :: l)). by rewrite !printable_app.
Qed.

Lemma printable_quote s : utf8Valid s = true -> printable (quote s).
Proof.
  intros H%goodSeg_runes. unfold quote. apply Forall_cons. split; [done|]. apply printable_app. split; [|by apply Forall_singleton].
  unfold quoteBody. induction H as [|g l Hg _ IH]; [constructor|]. cbn [map concat]. apply printable_app. split; [|done].
  destruct Hg as [(c & -> & Hc)|[Hl Hd]].
  - cbn [quoteSeg]. rewrite Hc. destruct c; first [discriminate Hc|repeat constructor; by vm_compute].
  - assert (Hg : printable g).
    { assert (Hne : g <> []) by (intros ->; cbn in Hl; lia). pose proof (decodeRune_view g Hne) as V. rewrite Hd in V.
      assert (Hcont : forall lo hi b, 128 <= lo -> cont lo hi b = true -> 32 <= Z_of_byte b) by (unfold cont; intros; zbool; lia).
      assert (L3 : forall v, 128 <= lo3 v) by (intros v; unfold lo3; case_match; lia).
      assert (L4 : forall v, 128 <= lo4 v) by (intros v; unfold lo4; case_match; lia).
      inversion V; subst; cbn [length] in *; try lia; destruct t; try (cbn in *; lia);
        repeat (apply Forall_cons; split); try (eapply Hcont; [|eassumption]; auto; lia); try lia; constructor. }
    destruct g as [|x [|y g]]; [done|cbn in Hl; lia|]. cbn [quoteSeg]. destruct (_ || _) eqn:E; [|done].
    apply orb_true_iff in E as [->%Z.eqb_eq| ->%Z.eqb_eq]; repeat constructor; by vm_compute.
Qed.

Lemma pDigits_printable s d r : pDigits s = Some (d, r) -> printable d.
Proof.
  unfold pDigits. destruct (spanDigits s) as [d' r'] eqn:E. intros H. assert (Hp : printable d').
  { clear H. revert d' r' E. induction s as [|c s IH]; intros d' r' E; cbn in E; [by injection E as <- <-; constructor|].
    destruct (isDigit c) eqn:Hc; [|injection E as <- <-; constructor]. destruct (spanDigits s) as [d1 r1].
    injection E as <- <-. constructor; [unfold isDigit in Hc; zbool; lia|by eapply IH]. }
  by destruct d'; [|injection H as <- <-].
Qed.

Lemma printable_cons c s : 32 <= Z_of_byte c -> printable s -> printable (c :: s).
Proof. by constructor. Qed.

Lemma isNumber_printable lit : isNumber lit -> printable lit.
Proof.
  unfold isNumber, pNumber. intros E. destruct (match lit with Byte.x2d :: r => _ | _ => _ end) as [sg r] eqn:Es.
  assert (Hsg : printable sg).
  { destruct lit as [|c l]; [by injection Es as <- <-; constructor|]. destruct c; injection Es as <- <-; repeat constructor; by vm_compute. }
  destruct (pInt r) as [[i r1]|] eqn:E1; [|done]. cbn [mbind option_bind] in E.
  destruct (pFrac r1) as [[f r2]|] eqn:E2; [|done]. cbn [mbind option_bind] in E. destruct (pExp r2) as [[e r3]|] eqn:E3; [|done]. cbn [mbind option_bind] in E.
  injection E as <- _. rewrite !printable_app. split_and!; [done|..].
  - destruct r as [|c r]; [done|]. destruct (decide (c = Byte.x30)) as [->|Hc].
    + cbn in E1. injection E1 as <- <-. by repeat constructor.
    + assert (pInt (c :: r) = pDigits (c :: r)) as Ep by (by destruct c). rewrite Ep in E1. by eapply pDigits_printable.
  - destruct r1 as [|c r1]; [by injection E2 as <- <-; constructor|].
    destruct (decide (c = Byte.x2e)) as [->|Hc]; [|destruct c; try done; injection E2 as <- <-; constructor].
    cbn in E2. destruct (pDigits r1) as [[d' r']|] eqn:Ed; [|done]. injection E2 as <- <-.
    apply printable_cons; [done|]. by eapply pDigits_printable.
  - destruct r2 as [|c r2]; [by injection E3 as <- <-; constructor|]. cbn [pExp] in E3.
    case_bool_decide as Hc; [|injection E3 as <- <-; constructor].
    assert (32 <= Z_of_byte c) by (apply elem_of_cons in Hc as [->|Hc]; [done|by apply list_elem_of_singleton in Hc as ->]).
    destruct r2 as [|g r2]; [done|]. case_bool_decide as Hg.
    + destruct (pDigits r2) as [[d' r']|] eqn:Ed; [|done]. injection E3 as <- <-.
      assert (32 <= Z_of_byte g) by (apply elem_of_cons in Hg as [->|Hg]; [done|by apply list_elem_of_singleton in Hg as ->]).
      do 2 (apply printable_cons; [done|]). by eapply pDigits_printable.
    + destruct (pDigits (g :: r2)) as [[d' r']|] eqn:Ed; [|done]. injection E3 as <- <-.
      apply printable_cons; [done|]. by eapply pDigits_printable.
Qed.

(** An encoding has no control characters, so no newline. *)
Lemma printable_encode v : forall d, wfJson d v -> printable (jsonEncode v).
Proof.
  induction v as [|b|lit|s|l IH|fs IH] using json_ind'; intros d Hw;
    inversion Hw as [| |? ? Hlit|? ? Hs|? ? _ Hl|? ? _ Hl]; subst; cbn [jsonEncode].
  - by repeat constructor.
  - destruct b; by repeat constructor.
  - by apply isNumber_printable.
  - by apply printable_quote.
  - rewrite !printable_app. split_and!; [by repeat constructor| |by repeat constructor]. apply printable_join; [by repeat constructor|].
    apply Forall_map. clear Hw. induction IH as [|x l Hx _ IHl]; [constructor|]. apply Forall_cons_1 in Hl as [H1 H2].
    constructor; [by eapply Hx|by apply IHl].
  - rewrite !printable_app. split_and!; [by repeat constructor| |by repeat constructor]. apply printable_join; [by repeat constructor|].
    apply Forall_map. clear Hw. induction IH as [|x l Hx _ IHl]; [constructor|]. apply Forall_cons_1 in Hl as [[H0 H1] H2].
    constructor; [|by apply IHl]. rewrite !printable_app. split_and!; [by apply printable_quote|by repeat constructor|by eapply Hx].
Qed.

Lemma printable_noNewline s : printable s -> Byte.x0a ∉ s.
Proof. intros H Hin. unfold printable in H. rewrite Forall_forall in H. by apply (H _ Hin). Qed.
