(* ===== verification/GoUnicode.v ===== *)
(** * GoUnicode: letter case

    [strings.ToLower], [strings.ToUpper] and [strings.EqualFold].  The mappings of runes above 127
    are tables of the Unicode package: parameters nothing is assumed about. *)
From stdpp Require Import base list.
From Stdlib Require Import ZArith Lia.
From Stdlib.Strings Require Import Byte.
From S2P Require Import Prelude GoStd GoJson.
Open Scope Z_scope.

(** [unicode.ToLower] and [unicode.ToUpper] on runes above 127, and whether two runes, one of them above
    127, are equal under [unicode.SimpleFold]. *)
Class UnicodeCase := { lowerTable : Z -> Z; upperTable : Z -> Z; foldTable : Z -> Z -> bool }.

(** ASCII letters only. *)
Definition asciiCase : UnicodeCase := {| lowerTable := fun r => r; upperTable := fun r => r; foldTable := Z.eqb |}.

Section Case.
  Context `{UC : UnicodeCase}.

Definition lowerRune (r : Z) : Z :=
  if r <? 128 then if (65 <=? r) && (r <=? 90) then r + 32 else r else lowerTable r.

Definition upperRune (r : Z) : Z :=
  if r <? 128 then if (97 <=? r) && (r <=? 122) then r - 32 else r else upperTable r.

(** [strings.ToLower]: invalid bytes become the replacement character. *)
Definition ToLower (s : bytes) : bytes := concat (map (fun g => encodeRune (lowerRune (fst (decodeRune g)))) (runes s)).

Definition ToUpper (s : bytes) : bytes := concat (map (fun g => encodeRune (upperRune (fst (decodeRune g)))) (runes s)).

Definition foldRune (a b : Z) : bool :=
  if (a <? 128) && (b <? 128) then lowerRune a =? lowerRune b else (a =? b) || foldTable a b.

Fixpoint foldRunes (a b : list bytes) : bool :=
  match a, b with
  | [], [] => true
  | x :: a, y :: b => foldRune (fst (decodeRune x)) (fst (decodeRune y)) && foldRunes a b
  | _, _ => false
  end.

(** [strings.EqualFold] *)
Definition EqualFold (a b : bytes) : bool := foldRunes (runes a) (runes b).

Lemma lower_ascii c : ascii c = true -> encodeRune (lowerRune (Z_of_byte c)) = [lowerByte c].
Proof. destruct c; first [discriminate|reflexivity]. Qed.

(** On ASCII text the tables do not matter. *)
Lemma ToLower_ascii s : Forall (fun c => ascii c = true) s -> ToLower s = toLower s.
Proof.
  unfold ToLower, toLower. induction 1 as [|c s Hc Hs IH]; [done|]. rewrite runes_cons_ascii by done.
  cbn [map concat]. rewrite decodeRune_ascii by done. cbn [fst]. by rewrite lower_ascii, IH.
Qed.

End Case.
