(* ===== verification/GoJsonTorn.v ===== *)
(** * Cut encodings

    A line-oriented log is cut in the middle of a record when a write fails or a crash loses the
    end of a file, and the next record is then appended to what is left, perhaps to be cut in
    its turn. Beginnings of encoded objects on one line are JSON only if the line is a
    single whole object: what is lost are the records on the line, and no record is made up. *)
From stdpp Require Import base list gmap strings numbers.
From Stdlib Require Import ZArith Lia.
From Stdlib.Strings Require Import Byte.
From S2P Require Import Prelude GoStd GoJson.
Open Scope Z_scope.
Set Warnings "-register-all".

(** ** More fuel, less depth *)

Definition monoAt (f : nat) : Prop :=
  (forall f' d d' s r, (f <= f')%nat -> d' <= d -> pValue f d s = Some r -> pValue f' d' s = Some r) /\
  (forall f' d d' s r, (f <= f')%nat -> d' <= d -> pFields f d s = Some r -> pFields f' d' s = Some r) /\
  (forall f' d d' s r, (f <= f')%nat -> d' <= d -> pElems f d s = Some r -> pElems f' d' s = Some r).

Lemma mono_value f f' d d' s r : monoAt f -> (f <= f')%nat -> d' <= d -> pValue (S f) d s = Some r -> pValue (S f') d' s = Some r.
Proof.
  intros (_ & IHf & IHe) Hf Hd E. cbn [pValue] in *. destruct (skipWs s) as [|c t]; [done|].
  assert (Hdep : forall A (x : option A) y, (if maxNestingDepth <=? d then None else x) = Some y ->
    (maxNestingDepth <=? d') = false /\ x = Some y).
  { intros A x y. destruct (Z.leb_spec maxNestingDepth d); [done|]. intros. split; [apply Z.leb_gt; lia|done]. }
  destruct (decide (c = Byte.x22)) as [->|N1]; [done|]. destruct (decide (c = Byte.x7b)) as [->|N2].
  { apply Hdep in E as [-> E]. destruct (skipWs t) as [|c2 t2]; [destruct (pFields f (d + 1) []) as [[]|] eqn:Ef; [|done]|].
    - by rewrite (IHf f' (d + 1) (d' + 1) _ _ ltac:(lia) ltac:(lia) Ef).
    - destruct (decide (c2 = Byte.x7d)) as [->|N3]; [done|].
      assert (Hr : forall g dd, match c2 :: t2 with Byte.x7d :: rest => Some (JObj [], rest)
          | r => '(fs, rest) ← pFields g dd r; Some (JObj fs, rest) end =
        '(fs, rest) ← pFields g dd (c2 :: t2); Some (JObj fs, rest)) by (intros; by destruct c2).
      rewrite Hr in *. destruct (pFields f (d + 1) (c2 :: t2)) as [[]|] eqn:Ef; [|done].
      by rewrite (IHf f' (d + 1) (d' + 1) _ _ ltac:(lia) ltac:(lia) Ef). }
  destruct (decide (c = Byte.x5b)) as [->|N3]; [|by destruct c].
  apply Hdep in E as [-> E]. destruct (skipWs t) as [|c2 t2]; [destruct (pElems f (d + 1) []) as [[]|] eqn:Ef; [|done]|].
  - by rewrite (IHe f' (d + 1) (d' + 1) _ _ ltac:(lia) ltac:(lia) Ef).
  - destruct (decide (c2 = Byte.x5d)) as [->|N4]; [done|].
    assert (Hr : forall g dd, match c2 :: t2 with Byte.x5d :: rest => Some (JArr [], rest)
        | r => '(fs, rest) ← pElems g dd r; Some (JArr fs, rest) end =
      '(fs, rest) ← pElems g dd (c2 :: t2); Some (JArr fs, rest)) by (intros; by destruct c2).
    rewrite Hr in *. destruct (pElems f (d + 1) (c2 :: t2)) as [[]|] eqn:Ef; [|done].
    by rewrite (IHe f' (d + 1) (d' + 1) _ _ ltac:(lia) ltac:(lia) Ef).
Qed.

Lemma mono_fields f f' d d' s r : monoAt f -> (f <= f')%nat -> d' <= d -> pFields (S f) d s = Some r -> pFields (S f') d' s = Some r.
Proof.
  intros (IHv & IHf & _) Hf Hd E. cbn [pFields] in *. destruct (skipWs s) as [|c t]; [done|].
  destruct (decide (c = Byte.x22)) as [->|N1]; [|by destruct c].
  destruct (pString (length t) t) as [[k r1]|]; [|done]. cbn [mbind option_bind] in *.
  destruct (skipWs r1) as [|c2 r2]; [done|]. destruct (decide (c2 = Byte.x3a)) as [->|N2]; [|by destruct c2].
  destruct (pValue f d r2) as [[v r3]|] eqn:Ev; [|done]. rewrite (IHv f' d d' _ _ Hf Hd Ev).
  cbn [mbind option_bind] in *. destruct (skipWs r3) as [|c3 r4]; [done|].
  destruct (decide (c3 = Byte.x7d)) as [->|N3]; [done|]. destruct (decide (c3 = Byte.x2c)) as [->|N4]; [|by destruct c3].
  destruct (pFields f d r4) as [[]|] eqn:Ef; [|done]. by rewrite (IHf f' d d' _ _ Hf Hd Ef).
Qed.

Lemma mono_elems f f' d d' s r : monoAt f -> (f <= f')%nat -> d' <= d -> pElems (S f) d s = Some r -> pElems (S f') d' s = Some r.
Proof.
  intros (IHv & _ & IHe) Hf Hd E. cbn [pElems] in *. destruct (pValue f d s) as [[v r1]|] eqn:Ev; [|done].
  rewrite (IHv f' d d' _ _ Hf Hd Ev). cbn [mbind option_bind] in *.
  destruct (skipWs r1) as [|c3 r4]; [done|]. destruct (decide (c3 = Byte.x5d)) as [->|N3]; [done|].
  destruct (decide (c3 = Byte.x2c)) as [->|N4]; [|by destruct c3].
  destruct (pElems f d r4) as [[]|] eqn:Ef; [|done]. by rewrite (IHe f' d d' _ _ Hf Hd Ef).
Qed.

Lemma pMono f : monoAt f.
Proof.
  induction f as [|f IH]; [by split_and!|]. split_and!; intros [|f'] d d' s r Hf Hd E; try lia.
  - apply (mono_value f f' d); [done|lia|done..].
  - apply (mono_fields f f' d); [done|lia|done..].
  - apply (mono_elems f f' d); [done|lia|done..].
Qed.

(** ** Cut strings *)

(** Where reading a cut value can stop: nothing it stops at continues a string or an object. *)
Definition badRest (rest : bytes) : Prop :=
  match rest with [] => True | c :: _ => c = Byte.x74 \/ c = Byte.x7b end.

Definition stuck {A} (r : option (A * bytes)) : Prop := forall x rest, r = Some (x, rest) -> badRest rest.

(** What may follow a cut: nothing, or the beginnings of objects. *)
Record afterCut (q : bytes) : Prop := {
  cut_head : q = [] \/ exists q', q = Byte.x7b :: q';
  cut_string : forall f, stuck (pString f q);
  cut_value : forall f d, 0 <= d -> stuck (pValue f d q);
}.

Lemma afterCut_nil : afterCut [].
Proof. split; [by left|by intros []|by intros []]. Qed.

Lemma stuck_bind {A B} (r : option (A * bytes)) (g : A -> B) : stuck r -> stuck ('(v, rest) ← r; Some (g v, rest)).
Proof. intros H v rest. destruct r as [[a b]|]; [|done]. cbn. intros [= <- <-]. by apply (H a). Qed.

Lemma pString_cutRunes fuel r q : Forall (fun c => ascii c = false) r -> afterCut q -> stuck (pString fuel (r ++ q)).
Proof.
  intros Hr Hq. revert r Hr. induction fuel as [|fuel IH]; intros r Hr; [done|].
  destruct r as [|c r]; [by apply cut_string|].
  apply Forall_cons_1 in Hr as [Hc Hr]. assert (H128 : 128 <= Z_of_byte c) by (unfold ascii in Hc; by zbool).
  assert (Hn : forall x, ascii x = true -> c <> x) by (intros x Hx ->; congruence).
  cbn [app]. rewrite pString_cons by (by apply Hn) || lia.
  assert (Hw : (snd (decodeRune (c :: r ++ q)) <= length (c :: r))%nat).
  { destruct (cut_head q Hq) as [->|[q' ->]]; [rewrite app_nil_r; apply decodeRune_width; done|].
    change (c :: r ++ Byte.x7b :: q') with ((c :: r) ++ Byte.x7b :: q').
    rewrite decodeRune_app_ascii by done. by apply decodeRune_width. }
  destruct (decodeRune (c :: r ++ q)) as [ru n]. cbn [snd] in Hw. rewrite app_comm_cons, drop_app_le by done.
  apply stuck_bind, IH, Forall_drop. by constructor.
Qed.

Lemma prefix_take {A} (p l : list A) : p `prefix_of` l -> exists n, p = take n l /\ (n <= length l)%nat.
Proof. intros [t ->]. exists (length p). rewrite take_app_length, length_app. split; [done|lia]. Qed.

(** A cut inside an escape: none of its beginnings goes on with what follows. *)
Lemma pString_cutEscape fuel (h1 h2 : byte) (lit : bytes) n q : lit = go "\u00" \/ lit = go "\u20" ->
  (0 < n < 6)%nat -> afterCut q -> pString (S fuel) (take n (lit ++ [h1; h2]) ++ q) = None.
Proof.
  intros Hl Hn Hq. apply cut_head in Hq.
  destruct Hl as [->| ->]; destruct Hq as [->|[q' ->]];
    (destruct n as [|[|[|[|[|[|n]]]]]]; [lia|try (destruct q' as [|? [|? [|? q']]]); reflexivity..| |lia]); cbn; by destruct (unhex h1).
Qed.

Lemma pString_cutShort fuel (c : byte) n q : (0 < n < 2)%nat -> afterCut q ->
  pString (S fuel) (take n [Byte.x5c; c] ++ q) = None.
Proof.
  intros Hn Hq. apply cut_head in Hq. assert (n = 1%nat) as -> by lia. by destruct Hq as [->|[q' ->]].
Qed.

(** A cut inside one character. *)
Lemma pString_cutByte fuel c n q : (n < length (quoteByte c))%nat -> afterCut q ->
  stuck (pString fuel (take n (quoteByte c) ++ q)).
Proof.
  intros Hn Hq. destruct n as [|n]; [by apply (pString_cutRunes fuel [])|]. destruct fuel as [|fuel]; [done|].
  unfold quoteByte in *. destruct (htmlSafe c); [cbn in Hn; lia|].
  change (go "\b") with [Byte.x5c; Byte.x62] in *. change (go "\f") with [Byte.x5c; Byte.x66] in *.
  change (go "\n") with [Byte.x5c; Byte.x6e] in *. change (go "\r") with [Byte.x5c; Byte.x72] in *.
  change (go "\t") with [Byte.x5c; Byte.x74] in *.
  repeat (case_match; [by rewrite pString_cutShort by (first [done|cbn in Hn; lia])|]).
  rewrite pString_cutEscape by (first [done|by left|cbn in Hn; lia]). done.
Qed.

Lemma pString_cutSep fuel h n q : (n < 6)%nat -> afterCut q -> stuck (pString fuel (take n (go "\u202" ++ [h]) ++ q)).
Proof.
  intros Hn Hq. destruct n as [|n]; [by apply (pString_cutRunes fuel [])|]. destruct fuel as [|fuel]; [done|].
  change (go "\u202" ++ [h]) with (go "\u20" ++ [Byte.x32; h]). rewrite pString_cutEscape by (first [done|by right|lia]). done.
Qed.

Lemma goodSeg_nonascii g : (2 <= length g)%nat -> snd (decodeRune g) = length g -> Forall (fun c => ascii c = false) g.
Proof.
  intros Hl Hd. assert (Hne : g <> []) by (intros ->; cbn in Hl; lia). pose proof (decodeRune_view g Hne) as V. rewrite Hd in V.
  assert (Hcont : forall lo hi b, 128 <= lo -> cont lo hi b = true -> ascii b = false)
    by (unfold cont, ascii; intros; zbool; apply Z.ltb_ge; lia).
  assert (Hb : forall a, 128 <= Z_of_byte a -> ascii a = false) by (intros; by apply Z.ltb_ge).
  assert (L3 : forall v, 128 <= lo3 v) by (intros v; unfold lo3; case_match; lia).
  assert (L4 : forall v, 128 <= lo4 v) by (intros v; unfold lo4; case_match; lia).
  inversion V; subst; cbn [length] in *; try lia; destruct t; try (cbn in *; lia);
    repeat (apply Forall_cons; split); try (by eapply Hcont; [|eassumption]); try (apply Hb; lia); constructor.
Qed.

(** A cut inside the body of a string. *)
Lemma pString_cutSeg fuel g n q : goodSeg g -> (n < length (quoteSeg g))%nat -> afterCut q ->
  stuck (pString fuel (take n (quoteSeg g) ++ q)).
Proof.
  intros [(c & -> & Hc)|[Hl Hd]] Hn Hq.
  - cbn [quoteSeg] in *. rewrite Hc in *. by apply pString_cutByte.
  - destruct g as [|x [|y g]]; [cbn in Hl; lia..|]. cbn [quoteSeg] in *. destruct (_ || _).
    + apply pString_cutSep; [|done]. by rewrite length_app in Hn.
    + apply pString_cutRunes; [|done]. by apply Forall_take, goodSeg_nonascii.
Qed.

Lemma pString_cut segs fuel n q : Forall goodSeg segs -> (n <= length (concat (map quoteSeg segs)))%nat -> afterCut q ->
  stuck (pString fuel (take n (concat (map quoteSeg segs)) ++ q)).
Proof.
  intros H Hn Hq. revert fuel n Hn. induction H as [|g segs Hg _ IH]; intros fuel n Hn; cbn [map concat] in *.
  { rewrite take_nil. by apply (pString_cutRunes fuel []). }
  rewrite length_app in Hn. destruct (decide (n < length (quoteSeg g))%nat) as [Hlt|Hge].
  - rewrite take_app_le by lia. by apply pString_cutSeg.
  - rewrite take_app_ge by lia. destruct fuel as [|fuel]; [done|]. rewrite <- app_assoc, pString_seg by done.
    apply stuck_bind, IH. lia.
Qed.

Lemma pString_cutBody s fuel p q : utf8Valid s = true -> p `prefix_of` quoteBody s -> afterCut q -> stuck (pString fuel (p ++ q)).
Proof.
  intros Hs (n & -> & Hn)%prefix_take Hq. apply pString_cut; [by apply goodSeg_runes|done|done].
Qed.

(** ** Cut values *)

(** The values records are made of: strings, integers, truth values, and lists and objects of them. *)
Inductive recJson : json -> Prop :=
| rec_bool b : recJson (JBool b)
| rec_arr l : Forall recJson l -> recJson (JArr l)
| rec_str s : utf8Valid s = true -> recJson (JStr s)
| rec_num n : recJson (JNum (formatInt n))
| rec_obj fs : Forall (fun kv => utf8Valid (fst kv) = true /\ recJson (snd kv)) fs -> recJson (JObj fs).

Lemma badRest_afterCut q : afterCut q -> badRest q.
Proof. intros [->|[q' ->]]%cut_head; cbn; auto. Qed.

Lemma badRest_stops {A B} (rest : bytes) (x y : bytes -> option (A * B)) : badRest rest ->
  match skipWs rest with Byte.x7d :: r => x r | Byte.x2c :: r => y r | _ => None end = None.
Proof. intros H. destruct rest as [|c rest]; [done|]. by destruct H as [->| ->]. Qed.

Lemma badRest_colon {A} (rest : bytes) (x : bytes -> option A) : badRest rest ->
  match skipWs rest with Byte.x3a :: r => x r | _ => None end = None.
Proof. intros H. destruct rest as [|c rest]; [done|]. by destruct H as [->| ->]. Qed.

Lemma numEnd_afterCut q : afterCut q -> numEnd q.
Proof. by intros [->|[q' ->]]%cut_head. Qed.

Lemma wfJson_le v : forall d d', wfJson d v -> d' <= d -> wfJson d' v.
Proof.
  induction v as [|b|lit|s|l IH|fs IH] using json_ind'; intros d d' Hw Hd;
    inversion Hw as [| |? ? Hlit|? ? Hs|? ? H1 Hl|? ? H1 Hl]; subst; constructor; try done; try lia.
  - clear Hw. induction IH as [|x l Hx _ IHl]; [constructor|]. apply Forall_cons_1 in Hl as [H2 H3].
    constructor; [by eapply (Hx (d + 1)); [|lia]|by apply IHl].
  - clear Hw. induction IH as [|x l Hx _ IHl]; [constructor|]. apply Forall_cons_1 in Hl as [[H2 H2'] H3].
    constructor; [split; [done|by eapply (Hx (d + 1)); [|lia]]|by apply IHl].
Qed.

Lemma pValue_encode_then v f d x t rest : wfJson 0 v -> 0 <= d -> numEnd t ->
  pValue f d (jsonEncode v ++ t) = Some (x, rest) -> x = v /\ rest = t.
Proof.
  intros Hw Hd Ht E. pose proof (jsize_encode v 0 Hw) as Hs.
  pose proof (proj1 (pMono f) (f + length (jsonEncode v))%nat d 0 _ _ ltac:(lia) Hd E) as E'.
  rewrite (pValue_encode (f + length (jsonEncode v)) v 0 t Hw ltac:(lia) Ht) in E'. by injection E' as <- <-.
Qed.

(** The beginnings of an integer: a sign, digits, and no second digit after a zero. *)
Lemma formatInt_prefix n p : p `prefix_of` formatInt n ->
  exists sg ds, p = sg ++ ds /\ (sg = [] \/ sg = [Byte.x2d]) /\ forallb isDigit ds = true /\
    (ds = [Byte.x30] \/ pInt ds = pDigits ds).
Proof.
  intros [t Ht]. unfold formatInt in Ht. destruct (pInt_digits (Z.abs n) ltac:(lia)) as (Hpi & Hne' & Hd). cbv zeta in *.
  set (D := formatDigits _ _ _) in *.
  assert (Hpre : forall ds t, D = ds ++ t -> forallb isDigit ds = true /\ (ds = [Byte.x30] \/ pInt ds = pDigits ds)).
  { intros ds t' E. rewrite E, forallb_app in Hd. apply andb_true_iff in Hd as [Hds _]. split; [done|].
    destruct ds as [|c ds]; [by right|]. destruct (decide (c = Byte.x30)) as [->|Hc]; [|right; by destruct c].
    left. rewrite E in Hpi. cbn in Hpi. injection Hpi as Hpi. by destruct ds. }
  destruct (n <? 0).
  - change (byte_of_Z 45) with Byte.x2d in Ht. destruct p as [|c p].
    + exists [], []. split_and!; auto.
    + injection Ht as <- Ht. destruct (Hpre p t Ht) as [? ?]. exists [Byte.x2d], p. split_and!; auto.
  - destruct (Hpre p t Ht) as [? ?]. exists [], p. split_and!; auto.
Qed.

Lemma pNumber_cut sg ds q r : (sg = [] \/ sg = [Byte.x2d]) -> forallb isDigit ds = true ->
  (ds = [Byte.x30] \/ pInt ds = pDigits ds) -> afterCut q -> pNumber ((sg ++ ds) ++ q) = Some r -> snd r = q.
Proof.
  intros Hsg Hds Hz Hq. pose proof (numEnd_afterCut q Hq) as Hq'. apply cut_head in Hq.
  assert (Hi : forall i r1, pInt (ds ++ q) = Some (i, r1) -> r1 = q).
  { intros i r1 E. destruct ds as [|c ds].
    - destruct Hq as [->|[q' ->]]; done.
    - destruct Hz as [Hz|Hz]; [injection Hz as -> ->; by injection E as <- <-|].
      rewrite (pInt_app (c :: ds) (c :: ds) []) in E; [by injection E as <- <-| |by right].
      rewrite Hz. unfold pDigits. by rewrite spanDigits_all. }
  assert (Hf : pFrac q = Some ([], q) /\ pExp q = Some ([], q)) by (by destruct Hq as [->|[q' ->]]).
  unfold pNumber. assert (match (sg ++ ds) ++ q with Byte.x2d :: r => ([Byte.x2d], r) | _ => ([], (sg ++ ds) ++ q) end = (sg, ds ++ q)) as ->.
  { destruct Hsg as [->| ->]; [|done]. cbn [app]. destruct ds as [|c ds]; [by destruct Hq as [->|[q' ->]]|].
    destruct c; first [reflexivity|discriminate Hds]. }
  destruct (pInt (ds ++ q)) as [[i r1]|]; [|done]. cbn [mbind option_bind]. rewrite (Hi i r1 eq_refl).
  rewrite (proj1 Hf). cbn [mbind option_bind]. rewrite (proj2 Hf). cbn. by intros [= <-].
Qed.

Lemma pValue_cutNum n f d p q : p `prefix_of` formatInt n -> p <> [] -> afterCut q -> stuck (pValue f d (p ++ q)).
Proof.
  intros (sg & ds & -> & Hsg & Hds & Hz)%formatInt_prefix Hne Hq. destruct f as [|f]; [done|].
  pose proof (pNumber_cut sg ds q) as Hnum.
  assert (Hv : pValue (S f) d ((sg ++ ds) ++ q) = '(m, r) ← pNumber ((sg ++ ds) ++ q); Some (JNum m, r)).
  { destruct Hsg as [->| ->]; [|reflexivity]. cbn [app] in *. destruct ds as [|c ds]; [done|].
    destruct c; first [reflexivity|discriminate Hds]. }
  rewrite Hv. destruct (pNumber ((sg ++ ds) ++ q)) as [[m r]|]; [|done]. intros x rest [= <- <-].
  pose proof (Hnum (m, r) Hsg Hds Hz Hq eq_refl) as Er. cbn [snd] in Er. subst r. by apply badRest_afterCut.
Qed.

(** The value of a field with its key, cut. *)
Lemma pFields_cutKey k f d p q : utf8Valid k = true -> p `prefix_of` quote k -> afterCut q -> pFields f d (p ++ q) = None.
Proof.
  intros Hk Hp Hq. destruct f as [|f]; [done|]. destruct p as [|c p].
  { apply cut_head in Hq as [->|[q' ->]]; done. }
  unfold quote in Hp. destruct Hp as [t Ht]. injection Ht as <- Ht. cbn [app pFields]. rewrite skipWs_head by done.
  destruct (decide (p `prefix_of` quoteBody k)) as [Hp|Hp].
  - pose proof (pString_cutBody k (length (p ++ q)) p q Hk Hp Hq) as Ho.
    destruct (pString (length (p ++ q)) (p ++ q)) as [[v r1]|]; [|done]. cbn [mbind option_bind].
    by apply badRest_colon, (Ho v r1).
  - assert (p = quoteBody k ++ [Byte.x22]) as ->.
    { assert (Hpre : p `prefix_of` quoteBody k ++ [Byte.x22]) by (by exists t). clear Ht.
      destruct Hpre as [t' E]. destruct t' as [|y t' _] using rev_ind; [by rewrite app_nil_r in E|].
      rewrite app_assoc in E. apply app_inj_tail in E as [E _]. destruct Hp. by exists t'. }
    rewrite <- app_assoc. cbn [app]. rewrite pString_quote by done. cbn [mbind option_bind].
    by apply badRest_colon, badRest_afterCut.
Qed.

Definition cutValue (v : json) : Prop :=
  forall f d p q, 0 <= d -> p `prefix_of` jsonEncode v -> p <> jsonEncode v -> p <> [] -> afterCut q -> stuck (pValue f d (p ++ q)).

Lemma prefix_app_cases {A} (p a b : list A) : p `prefix_of` a ++ b ->
  p `prefix_of` a \/ exists p', p = a ++ p' /\ p' `prefix_of` b.
Proof.
  intros (n & -> & Hn)%prefix_take. destruct (decide (n <= length a)%nat).
  - left. rewrite take_app_le by done. apply prefix_take_self || (exists (drop n a); by rewrite take_drop).
  - right. rewrite take_app_ge by lia. eexists. split; [done|]. exists (drop (n - length a) b). by rewrite take_drop.
Qed.

Lemma pFields_cutField k v f d p q : utf8Valid k = true -> wfJson 0 v -> cutValue v -> 0 <= d ->
  p `prefix_of` encodeField (k, v) -> afterCut q -> pFields f d (p ++ q) = None.
Proof.
  intros Hk Hw Hc Hd Hp Hq. unfold encodeField in Hp. cbn [fst snd] in Hp.
  apply prefix_app_cases in Hp as [Hp|(p1 & -> & Hp)]; [by apply (pFields_cutKey k)|].
  destruct f as [|f]; [done|]. change (go ":") with [Byte.x3a] in Hp. cbn [app] in Hp.
  destruct p1 as [|c p1]; [rewrite app_nil_r; by apply (pFields_cutKey k)|].
  destruct Hp as [t Ht]. injection Ht as <- Ht. rewrite <- app_assoc. cbn [app]. rewrite pFields_key by done.
  assert (Hs : stuck (pValue f d (p1 ++ q))).
  { destruct (decide (p1 = [])) as [->|Hne].
    - by apply cut_value.
    - destruct (decide (p1 = jsonEncode v)) as [->|Hne'].
      + intros x rest E. apply pValue_encode_then in E as [_ ->]; [by apply badRest_afterCut|done|done|by apply numEnd_afterCut].
      + apply Hc; try done. by exists t. }
  destruct (pValue f d (p1 ++ q)) as [[x r3]|]; [|done]. cbn [mbind option_bind]. by apply badRest_stops, (Hs x r3).
Qed.

Lemma pFields_cut fs f d p q : Forall (fun kv => utf8Valid (fst kv) = true /\ wfJson 0 (snd kv) /\ cutValue (snd kv)) fs ->
  0 <= d -> p `prefix_of` join (go ",") (map encodeField fs) -> afterCut q -> pFields f d (p ++ q) = None.
Proof.
  intros H Hd. revert f p. induction H as [|[k v] fs (Hk & Hw & Hc) Hfs IH]; intros f p Hp Hq; cbn [fst snd] in *.
  { apply prefix_nil_inv in Hp as ->. by apply (pFields_cutKey [] f d []); [|apply prefix_nil|]. }
  destruct fs as [|kv fs]; [by apply (pFields_cutField k v)|].
  change (join (go ",") (map encodeField ((k, v) :: kv :: fs))) with
    (encodeField (k, v) ++ Byte.x2c :: join (go ",") (map encodeField (kv :: fs))) in Hp.
  apply prefix_app_cases in Hp as [Hp|(p1 & -> & Hp)]; [by apply (pFields_cutField k v)|].
  destruct p1 as [|c p1]; [rewrite app_nil_r; by apply (pFields_cutField k v)|].
  apply prefix_cons_inv_1 in Hp as Ec. subst c. apply prefix_cons_inv_2 in Hp.
  destruct f as [|f]; [done|]. unfold encodeField. cbn [fst snd]. change (go ":") with [Byte.x3a].
  rewrite <- !app_assoc. cbn [app]. rewrite pFields_key by done.
  destruct (pValue f d (jsonEncode v ++ Byte.x2c :: p1 ++ q)) as [[x r3]|] eqn:E; [|done].
  apply pValue_encode_then in E as [-> ->]; [|done..]. cbn [mbind option_bind]. rewrite skipWs_head by done. by rewrite IH.
Qed.

(** A cut object is not read at all. *)
Lemma pValue_cutObj fs f d p q : Forall (fun kv => utf8Valid (fst kv) = true /\ wfJson 0 (snd kv) /\ cutValue (snd kv)) fs ->
  0 <= d -> p `prefix_of` jsonEncode (JObj fs) -> p <> jsonEncode (JObj fs) -> p <> [] -> afterCut q -> pValue f d (p ++ q) = None.
Proof.
  intros Hfs Hd Hp Hne Hn Hq. destruct f as [|f]; [done|]. cbn [jsonEncode] in *.
  change (map (fun kv => quote (fst kv) ++ go ":" ++ jsonEncode (snd kv)) fs) with (map encodeField fs) in *.
  change (go "{") with [Byte.x7b] in *. change (go "}") with [Byte.x7d] in *. cbn [app] in *.
  destruct p as [|c p]; [done|]. apply prefix_cons_inv_1 in Hp as Ec. subst c. apply prefix_cons_inv_2 in Hp.
  assert (Hp' : p `prefix_of` join (go ",") (map encodeField fs)).
  { apply prefix_app_cases in Hp as [?|(p1 & -> & Hp)]; [done|]. destruct p1 as [|c p1]; [by rewrite app_nil_r|].
    destruct Hne. apply prefix_cons_inv_1 in Hp as Ec. apply prefix_cons_inv_2, prefix_nil_inv in Hp. by subst. }
  assert (Hf : pFields f (d + 1) (p ++ q) = None) by (apply (pFields_cut fs); [done|lia|done..]).
  cbn [app pValue]. rewrite skipWs_head by done. case_match; [done|].
  assert (Hhd : match p ++ q with [] => True | c :: _ => isWs c = false /\ c <> Byte.x7d end).
  { destruct p as [|c p]; [apply cut_head in Hq as [->|[q' ->]]; done|]. cbn [app].
    destruct fs as [|[k v] fs]; [by apply prefix_nil_not in Hp'|].
    assert (c = Byte.x22) as ->; [|done]. destruct Hp' as [t E]. cbn [map join] in E. unfold encodeField, quote in E. cbn [fst] in E.
    destruct (map _ fs); cbn [app] in E; by injection E. }
  destruct (p ++ q) as [|c t]; [cbn; by rewrite Hf|]. destruct Hhd as [Hws Hc]. rewrite skipWs_head by done.
  transitivity ('(fs, rest) ← pFields f (d + 1) (c :: t); Some (JObj fs, rest)); [by destruct c|]. by rewrite Hf.
Qed.

Lemma cut_fields fs : Forall (fun kv => recJson (snd kv) -> wfJson 0 (snd kv) -> cutValue (snd kv)) fs ->
  recJson (JObj fs) -> wfJson 0 (JObj fs) ->
  Forall (fun kv => utf8Valid (fst kv) = true /\ wfJson 0 (snd kv) /\ cutValue (snd kv)) fs.
Proof.
  intros H Hr Hw. inversion Hr as [| | | |? Hfs]; subst. inversion Hw as [| | | | |? ? _ Hfw]; subst. clear Hr Hw.
  induction H as [|kv fs Hkv _ IH]; [constructor|].
  apply Forall_cons_1 in Hfs as [[H1 H2] H3]. apply Forall_cons_1 in Hfw as [[H4 H5] H6]. constructor; [|by apply IH].
  assert (wfJson 0 (snd kv)) by (eapply wfJson_le; [exact H5|lia]). split_and!; [done..|]. by apply Hkv.
Qed.

Lemma cutValue_bool b : cutValue (JBool b).
Proof.
  intros f d p q _ (n & -> & Hn)%prefix_take Hne Hn0 [Hq _ _]. destruct f as [|f]; [done|].
  assert (Hlit : pValue (S f) d (take n (jsonEncode (JBool b)) ++ q) = None); [|by rewrite Hlit].
  destruct b; cbn in Hn, Hne, Hn0 |- *; do 6 try (destruct n as [|n]; cbn in Hne, Hn0; try done; try lia; try (by destruct Hq as [->|[q' ->]])).
Qed.

Lemma badRest_stops_arr {A B} (rest : bytes) (x y : bytes -> option (A * B)) : badRest rest ->
  match skipWs rest with Byte.x5d :: r => x r | Byte.x2c :: r => y r | _ => None end = None.
Proof. intros H. destruct rest as [|c rest]; [done|]. by destruct H as [->| ->]. Qed.

Lemma pElems_cutElem v f d p q : wfJson 0 v -> cutValue v -> 0 <= d -> p `prefix_of` jsonEncode v -> afterCut q ->
  pElems f d (p ++ q) = None.
Proof.
  intros Hw Hc Hd Hp Hq. destruct f as [|f]; [done|]. cbn [pElems]. assert (Hs : stuck (pValue f d (p ++ q))).
  { destruct (decide (p = [])) as [->|Hne]; [by apply cut_value|]. destruct (decide (p = jsonEncode v)) as [->|Hne']; [|by apply Hc].
    intros x rest E. apply pValue_encode_then in E as [_ ->]; [by apply badRest_afterCut|done|done|by apply numEnd_afterCut]. }
  destruct (pValue f d (p ++ q)) as [[x r]|]; [|done]. cbn [mbind option_bind]. by apply badRest_stops_arr, (Hs x r).
Qed.

Lemma pElems_cut l f d p q : Forall (fun v => wfJson 0 v /\ cutValue v) l ->
  0 <= d -> p `prefix_of` join (go ",") (map jsonEncode l) -> afterCut q -> pElems f d (p ++ q) = None.
Proof.
  intros H Hd. revert f p. induction H as [|v l (Hw & Hc) Hl IH]; intros f p Hp Hq.
  { apply prefix_nil_inv in Hp as ->. destruct f as [|f]; [done|]. cbn [app pElems].
    pose proof (cut_value q Hq f d Hd) as Hs. destruct (pValue f d q) as [[x r]|]; [|done]. cbn [mbind option_bind].
    by apply badRest_stops_arr, (Hs x r). }
  destruct l as [|v' l]; [by apply (pElems_cutElem v)|].
  change (join (go ",") (map jsonEncode (v :: v' :: l))) with (jsonEncode v ++ Byte.x2c :: join (go ",") (map jsonEncode (v' :: l))) in Hp.
  apply prefix_app_cases in Hp as [Hp|(p1 & -> & Hp)]; [by apply (pElems_cutElem v)|].
  destruct p1 as [|c p1]; [rewrite app_nil_r; by apply (pElems_cutElem v)|].
  apply prefix_cons_inv_1 in Hp as Ec. subst c. apply prefix_cons_inv_2 in Hp. destruct f as [|f]; [done|].
  rewrite <- app_assoc. cbn [app pElems].
  destruct (pValue f d (jsonEncode v ++ Byte.x2c :: p1 ++ q)) as [[x r]|] eqn:E; [|done].
  apply pValue_encode_then in E as [-> ->]; [|done..]. cbn [mbind option_bind]. rewrite skipWs_head by done. by rewrite IH.
Qed.

(** A cut list is not read at all. *)
Lemma pValue_cutArr l f d p q : Forall (fun v => wfJson 0 v /\ cutValue v) l ->
  0 <= d -> p `prefix_of` jsonEncode (JArr l) -> p <> jsonEncode (JArr l) -> p <> [] -> afterCut q -> pValue f d (p ++ q) = None.
Proof.
  intros Hl Hd Hp Hne Hn Hq. destruct f as [|f]; [done|]. cbn [jsonEncode] in *.
  change (go "[") with [Byte.x5b] in *. change (go "]") with [Byte.x5d] in *. cbn [app] in *.
  destruct p as [|c p]; [done|]. apply prefix_cons_inv_1 in Hp as Ec. subst c. apply prefix_cons_inv_2 in Hp.
  assert (Hp' : p `prefix_of` join (go ",") (map jsonEncode l)).
  { apply prefix_app_cases in Hp as [?|(p1 & -> & Hp)]; [done|]. destruct p1 as [|c p1]; [by rewrite app_nil_r|].
    destruct Hne. apply prefix_cons_inv_1 in Hp as Ec. apply prefix_cons_inv_2, prefix_nil_inv in Hp. by subst. }
  assert (Hf : pElems f (d + 1) (p ++ q) = None) by (apply (pElems_cut l); [done|lia|done..]).
  cbn [app pValue]. rewrite skipWs_head by done. case_match; [done|].
  assert (Hhd : match p ++ q with [] => True | c :: _ => isWs c = false /\ c <> Byte.x5d end).
  { destruct p as [|c p]; [apply cut_head in Hq as [->|[q' ->]]; done|]. cbn [app].
    destruct Hl as [|v l [Hw _] _]; [by apply prefix_nil_not in Hp'|]. destruct (encode_head 0 v Hw) as (c' & t' & E & Hws & Hc').
    destruct Hp' as [t Et]. cbn [map join] in Et. rewrite E in Et. assert (c' = c) as <-; [|done].
    destruct (map _ l); cbn [app] in Et; by injection Et. }
  destruct (p ++ q) as [|c t]; [cbn; by rewrite Hf|]. destruct Hhd as [Hws Hc]. rewrite skipWs_head by done.
  transitivity ('(l, rest) ← pElems f (d + 1) (c :: t); Some (JArr l, rest)); [by destruct c|]. by rewrite Hf.
Qed.

Lemma cut_elems l : Forall (fun v => recJson v -> wfJson 0 v -> cutValue v) l ->
  recJson (JArr l) -> wfJson 0 (JArr l) -> Forall (fun v => wfJson 0 v /\ cutValue v) l.
Proof.
  intros H Hr Hw. inversion Hr as [|? Hl| | |]; subst. inversion Hw as [| | | |? ? _ Hlw|]; subst. clear Hr Hw.
  induction H as [|v l Hv _ IH]; [constructor|]. apply Forall_cons_1 in Hl as [H1 H2]. apply Forall_cons_1 in Hlw as [H3 H4].
  constructor; [|by apply IH]. assert (wfJson 0 v) by (eapply wfJson_le; [exact H3|lia]). split; [done|]. by apply Hv.
Qed.

Lemma cutValue_rec v : recJson v -> wfJson 0 v -> cutValue v.
Proof.
  induction v as [|b|lit|s|l IH|fs IH] using json_ind'; intros Hr Hw; inversion Hr as [|? Hl|? Hs|n|? Hfs]; subst.
  - apply cutValue_bool.
  - intros f d p q Hd Hp Hne Hn Hq. by eapply pValue_cutNum.
  - intros f d p q Hd Hp Hne Hn Hq. destruct f as [|f]; [done|]. cbn [jsonEncode] in *. unfold quote in *.
    destruct p as [|c p]; [done|]. apply prefix_cons_inv_1 in Hp as Ec. subst c. apply prefix_cons_inv_2 in Hp.
    cbn [app pValue]. rewrite skipWs_head by done.
    assert (Hp' : p `prefix_of` quoteBody s).
    { apply prefix_app_cases in Hp as [?|(p1 & -> & Hp)]; [done|]. destruct p1 as [|c p1]; [by rewrite app_nil_r|].
      destruct Hne. apply prefix_cons_inv_1 in Hp as Ec. apply prefix_cons_inv_2, prefix_nil_inv in Hp. by subst. }
    pose proof (stuck_bind _ JStr (pString_cutBody s (length (p ++ q)) p q Hs Hp' Hq)) as Ho.
    exact Ho.
  - intros f d p q Hd Hp Hne Hn Hq x rest E. rewrite (pValue_cutArr l) in E; try done. by apply cut_elems.
  - intros f d p q Hd Hp Hne Hn Hq x rest E. rewrite (pValue_cutObj fs) in E; try done. by apply cut_fields.
Qed.

(** The objects of a log: their first key starts with a t. *)
Definition recordObj (fs : list (bytes * json)) : Prop :=
  recJson (JObj fs) /\ wfJson 0 (JObj fs) /\ exists k v fs', fs = (Byte.x74 :: k, v) :: fs'.

Lemma record_fields fs : recordObj fs ->
  Forall (fun kv => utf8Valid (fst kv) = true /\ wfJson 0 (snd kv) /\ cutValue (snd kv)) fs.
Proof. intros (Hr & Hw & _). apply cut_fields; [|done..]. apply Forall_true. intros kv. apply cutValue_rec. Qed.

Lemma record_start fs : recordObj fs -> exists b, jsonEncode (JObj fs) = Byte.x7b :: Byte.x22 :: Byte.x74 :: b.
Proof.
  intros (Hr & Hw & k & v & fs' & ->). cbn [jsonEncode]. change (go "{") with [Byte.x7b]. cbn [map join].
  change (quote (fst (Byte.x74 :: k, v))) with (quote (Byte.x74 :: k)).
  assert (exists b, quoteBody (Byte.x74 :: k) = Byte.x74 :: b) as [b Eb].
  { unfold quoteBody. rewrite runes_cons_ascii by done. by eexists. }
  unfold quote. rewrite Eb. destruct (map _ fs'); cbn [app]; by eexists.
Qed.

(** The beginning of a record, or all of it, may follow a cut. *)
Lemma afterCut_record fs p q : recordObj fs -> p `prefix_of` jsonEncode (JObj fs) -> afterCut q -> afterCut (p ++ q).
Proof.
  intros Hfs Hp Hq. destruct (record_start fs Hfs) as [b Eb].
  destruct p as [|c p]; [done|]. assert (c = Byte.x7b) as -> by (rewrite Eb in Hp; by apply prefix_cons_inv_1 in Hp). split.
  - right. by eexists.
  - intros [|f]; [done|]. cbn [app]. rewrite pString_cons by done. rewrite decodeRune_ascii by done. cbn [drop].
    apply stuck_bind. destruct p as [|c p]; [by apply cut_string|].
    assert (c = Byte.x22) as -> by (rewrite Eb in Hp; apply prefix_cons_inv_2 in Hp; by apply prefix_cons_inv_1 in Hp).
    destruct f as [|f]; [done|]. cbn. intros x rest [= <- <-]. destruct p as [|c p]; [by apply badRest_afterCut|].
    rewrite Eb in Hp. do 2 apply prefix_cons_inv_2 in Hp. apply prefix_cons_inv_1 in Hp as ->. by left.
  - intros f d Hd x rest E. destruct (decide (Byte.x7b :: p = jsonEncode (JObj fs))) as [Ep|Hne].
    + rewrite Ep in E. apply pValue_encode_then in E as [_ ->]; [by apply badRest_afterCut|apply Hfs|done|by apply numEnd_afterCut].
    + rewrite (pValue_cutObj fs) in E; try done. by apply record_fields.
Qed.

(** The beginning of a record with other beginnings after it is JSON only if it is all of a
    record and nothing follows. *)
Lemma cut_record_lost fs p q : recordObj fs -> p `prefix_of` jsonEncode (JObj fs) -> p <> [] -> afterCut q ->
  p <> jsonEncode (JObj fs) \/ q <> [] -> jsonDecode (p ++ q) = None.
Proof.
  intros Hfs Hp Hn Hq Hne. unfold jsonDecode. destruct (decide (p = jsonEncode (JObj fs))) as [->|Hp'].
  - destruct (pValue _ 0 _) as [[x rest]|] eqn:E; [|done].
    apply pValue_encode_then in E as [_ ->]; [|apply Hfs|lia|by apply numEnd_afterCut].
    destruct (cut_head q Hq) as [->|[q' ->]]; [|done]. by destruct Hne.
  - by rewrite (pValue_cutObj fs); [|apply record_fields|lia|..].
Qed.

(** An object cut short and nothing after it. *)
Lemma cut_object_lost fs p : recJson (JObj fs) -> wfJson 0 (JObj fs) -> p `prefix_of` jsonEncode (JObj fs) ->
  p <> jsonEncode (JObj fs) -> jsonDecode p = None.
Proof.
  intros Hr Hw Hp Hne. destruct p as [|c p]; [done|]. unfold jsonDecode. rewrite <- (app_nil_r (c :: p)).
  rewrite (pValue_cutObj fs); [done| |lia|done|done|done|apply afterCut_nil].
  apply cut_fields; [|done..]. apply Forall_true. intros kv. apply cutValue_rec.
Qed.
