(* ===== verification/BlockProto.v ===== *)
(** * BlockProto: the block protocol's transport (pkg/wire/blockproto.go,
    pkg/wire/blockmsg.go)

    The framing layer ([writeFrameParts], [readFrameHeader], [readFrame]), the
    payload cursor ([msgW], [msgR]), the HELLO negotiation with its feature
    bits, and the payload codecs of the compound p9 types.  A connection is the
    byte stream the peer sent before it closed; a writer is any state with a
    [Write] operation that may fail.  Readers are computations of the state
    monad [rd] over the cursor [msgR], whose error is sticky as in the source.

    The [Codec] class is the contract of a put/get pair: the writer only
    appends, the reader inverts it, a truncated payload is reported, and an
    error once set stays set. *)

From stdpp Require Import base list gmap strings numbers.
From Stdlib Require Import ZArith Lia.
From S2P Require Import Prelude.

Open Scope Z_scope.

(** ** Constants *)

Definition blockProtoVersion : Z := 1.
Definition blockFrameHeader : Z := 12.
Definition blockMaxInflight : Z := 64.
Definition blockFrameSlack : Z := 4096.
Definition smallBulkInline : Z := 2048.

Definition opHello : Z := 1.
Definition opAttach : Z := 2.
Definition opWalk : Z := 3.
Definition opWalkGetAttr : Z := 4.
Definition opGetAttr : Z := 5.
Definition opSetAttr : Z := 6.
Definition opOpen : Z := 7.
Definition opRead : Z := 8.
Definition opWrite : Z := 9.
Definition opStatBlock : Z := 10.
Definition opFSync : Z := 11.
Definition opCreate : Z := 12.
Definition opMkdir : Z := 13.
Definition opSymlink : Z := 14.
Definition opLink : Z := 15.
Definition opRenameAt : Z := 16.
Definition opUnlinkAt : Z := 17.
Definition opReadlink : Z := 18.
Definition opStatFS : Z := 19.
Definition opReaddir : Z := 20.
Definition opClunk : Z := 21.
Definition opReadRange : Z := 22.
Definition opBlockResp : Z := 23.

Definition flagFinal : Z := 1.
Definition flagErr : Z := 2.
Definition flagEOF : Z := 4.

(** [f&bit != 0] *)
Definition hasFlag (f bit : Z) : bool := negb (Z.land f bit =? 0).

Definition FeatSubBlockHash : Z := 1.
Definition FeatDeferHash : Z := 2.
Definition FeatSubBlockFill : Z := 4.
Definition FeatNoCache : Z := 8.
Definition blockSupportedFeatures : Z :=
  Z.lor (Z.lor FeatSubBlockHash FeatDeferHash) FeatSubBlockFill.

Definition subBlockSize : Z := 4096.

(** Errors the transport returns. *)
Inductive wireErr :=
| EOF
| ErrUnexpectedEOF
| ErrShortFrame
| ErrFrameTooLarge
| ErrExpectedHello
| ErrVersionMismatch
| ErrChunkSizeMismatch
| ErrBlockClosed
| ErrRemote
| ErrErrno (e : Z)
| ErrCtx
| ErrConn (n : Z).

#[export] Instance wireErr_eq_dec : EqDecision wireErr.
Proof. solve_decision. Defined.

(** ** Frames *)

Record frame := mkFrame { f_op : Z; f_flags : Z; f_reqID : Z; f_payload : bytes }.

Record frameHeader :=
  mkFrameHeader { h_op : Z; h_flags : Z; h_reqID : Z; h_plen : Z }.

#[export] Instance frame_eq_dec : EqDecision frame.
Proof. solve_decision. Defined.

(** The 16 header bytes: length prefix, op, flags, two reserved zero bytes,
    request id. *)
Definition frameHdr (f : frame) (total : Z) : bytes :=
  be_put 4 total ++ [byte_of_Z (f_op f)] ++ [byte_of_Z (f_flags f)] ++
  [Byte.x00; Byte.x00] ++ be_put 8 (f_reqID f).

Section Writer.
Context {W : Type} (Write : W -> bytes -> W * option wireErr).

(** One frame whose payload is [f_payload f] followed by [bulk]: small frames
    leave in one [Write], a large [bulk] in a second one. *)
Definition writeFrameParts (w : W) (f : frame) (bulk : bytes) : W * option wireErr :=
  let total := blockFrameHeader + blen (f_payload f) + blen bulk in
  let buf := frameHdr f total ++ f_payload f in
  let inline := (0 <? blen bulk) && (blen bulk <=? smallBulkInline) in
  let buf' := if inline then buf ++ bulk else buf in
  let bulk' := if inline then [] else bulk in
  match Write w buf' with
  | (w1, Some err) => (w1, Some err)
  | (w1, None) => if 0 <? blen bulk' then Write w1 bulk' else (w1, None)
  end.

Definition writeFrame (w : W) (f : frame) : W * option wireErr :=
  writeFrameParts w f [].
End Writer.

(** The connection as the bytes accepted so far: a [Write] that succeeds. *)
Definition streamWrite (w : bytes) (b : bytes) : bytes * option wireErr :=
  (w ++ b, None).

(** [io.ReadFull] over the bytes still to come: the result and what is left. *)
Definition readFull (n : Z) (s : bytes) : res wireErr bytes * bytes :=
  if n <=? blen s then (Ok (take_z n s), drop_z n s)
  else if blen s =? 0 then (Err EOF, []) else (Err ErrUnexpectedEOF, []).

Definition readFrameHeader (s : bytes) (maxPayload : Z) : res wireErr frameHeader * bytes :=
  match readFull (4 + blockFrameHeader) s with
  | (Err e, s1) => (Err e, s1)
  | (Ok hdr, s1) =>
      let total := be_get (sub_z 0 4 hdr) in
      if total <? blockFrameHeader then (Err ErrShortFrame, s1) else
      let plen := total - blockFrameHeader in
      if maxPayload <? plen then (Err ErrFrameTooLarge, s1) else
      (Ok {| h_op := be_get (sub_z 4 1 hdr); h_flags := be_get (sub_z 5 1 hdr);
             h_reqID := be_get (sub_z 8 8 hdr); h_plen := plen |}, s1)
  end.

Definition readFrame (s : bytes) (maxPayload : Z) : res wireErr frame * bytes :=
  match readFrameHeader s maxPayload with
  | (Err e, s1) => (Err e, s1)
  | (Ok h, s1) =>
      let f := {| f_op := h_op h; f_flags := h_flags h; f_reqID := h_reqID h;
                  f_payload := [] |} in
      if 0 <? h_plen h then
        match readFull (h_plen h) s1 with
        | (Err e, s2) => (Err e, s2)
        | (Ok p, s2) =>
            (Ok {| f_op := h_op h; f_flags := h_flags h; f_reqID := h_reqID h;
                   f_payload := p |}, s2)
        end
      else (Ok f, s1)
  end.

(** [errnoError]: the error an ERR frame's errno becomes on the proxy side. *)
Definition errnoError (e : Z) : wireErr :=
  if e =? 0 then ErrRemote else ErrErrno e.

(** ** Payload cursors *)

(** [msgW] is the append buffer. *)
Abbreviation msgW := bytes.

Definition w_u8 (w : msgW) (v : Z) : msgW := w ++ [byte_of_Z v].
Definition w_u16 (w : msgW) (v : Z) : msgW := w ++ be_put 2 v.
Definition w_u32 (w : msgW) (v : Z) : msgW := w ++ be_put 4 v.
Definition w_u64 (w : msgW) (v : Z) : msgW := w ++ be_put 8 v.
(** [uint64(v)] of an [int64] is its two's complement. *)
Definition w_i64 (w : msgW) (v : Z) : msgW := w_u64 w (v mod 2 ^ 64).
Definition w_boolean (w : msgW) (v : bool) : msgW :=
  if v then w_u8 w 1 else w_u8 w 0.
Definition w_blob (w : msgW) (p : bytes) : msgW :=
  w_u32 w (blen p mod 2 ^ 32) ++ p.
Definition w_str (w : msgW) (s : bytes) : msgW :=
  w_u32 w (blen s mod 2 ^ 32) ++ s.

Record msgR := mkMsgR { r_b : bytes; r_off : Z; r_err : option wireErr }.

Definition newMsgR (b : bytes) : msgR := mkMsgR b 0 None.

(** The reader monad. *)
Definition rd (A : Type) : Type := msgR -> A * msgR.

#[export] Instance rd_ret : MRet rd := fun A a r => (a, r).
#[export] Instance rd_bind : MBind rd := fun A B f g r =>
  let '(a, r') := g r in f a r'.

Definition need (n : Z) : rd bool := fun r =>
  match r_err r with
  | Some _ => (false, r)
  | None =>
      if blen (r_b r) <? r_off r + n
      then (false, mkMsgR (r_b r) (r_off r) (Some ErrUnexpectedEOF))
      else (true, r)
  end.

(** Consume [n] bytes at the cursor. *)
Definition advance (n : Z) : rd bytes := fun r =>
  (sub_z (r_off r) n (r_b r), mkMsgR (r_b r) (r_off r + n) (r_err r)).

Definition r_uint (n : Z) : rd Z :=
  ok ← need n; if ok : bool then v ← advance n; mret (be_get v) else mret 0.

Definition r_u8 : rd Z := r_uint 1.
Definition r_u16 : rd Z := r_uint 2.
Definition r_u32 : rd Z := r_uint 4.
Definition r_u64 : rd Z := r_uint 8.

(** [int64(u)]: reinterpretation of a 64-bit pattern as signed. *)
Definition int64_of (v : Z) : Z := if v <? 2 ^ 63 then v else v - 2 ^ 64.

Definition r_i64 : rd Z := v ← r_u64; mret (int64_of v).
Definition r_boolean : rd bool := v ← r_u8; mret (negb (v =? 0)).

Definition r_blob : rd bytes :=
  n ← r_u32; ok ← need n; if ok : bool then advance n else mret [].
Definition r_str : rd bytes :=
  n ← r_u32; ok ← need n; if ok : bool then advance n else mret [].

(** [for i := 0; i < n; i++ { out = append(out, get(r)) }] *)
Fixpoint r_repeat {A} (n : nat) (get : rd A) : rd (list A) :=
  match n with
  | O => mret []
  | S n' => a ← get; l ← r_repeat n' get; mret (a :: l)
  end.

(** ** HELLO negotiation *)

Record helloParams := mkHello {
  hp_version : Z; hp_chunkSize : Z; hp_maxInflight : Z; hp_features : Z }.

Definition marshalHello (h : helloParams) : bytes :=
  w_u32 (w_u16 (w_u32 (w_u16 [] (hp_version h)) (hp_chunkSize h))
               (hp_maxInflight h)) (hp_features h).

Definition getHello : rd helloParams :=
  v ← r_u16; c ← r_u32; m ← r_u16; f ← r_u32;
  mret {| hp_version := v; hp_chunkSize := c; hp_maxInflight := m; hp_features := f |}.

Definition unmarshalHello (p : bytes) : res wireErr helloParams :=
  let '(h, r) := getHello (newMsgR p) in
  match r_err r with None => Ok h | Some e => Err e end.

Definition sendHello {W} (Write : W -> bytes -> W * option wireErr) (w : W)
    (local : helloParams) : W * option wireErr :=
  writeFrame Write w {| f_op := opHello; f_flags := flagFinal; f_reqID := 0;
                        f_payload := marshalHello local |}.

Definition recvHello (s : bytes) (local : helloParams) : res wireErr helloParams * bytes :=
  match readFrame s (hp_chunkSize local + blockFrameSlack) with
  | (Err e, s1) => (Err e, s1)
  | (Ok f, s1) =>
      if negb (f_op f =? opHello) then (Err ErrExpectedHello, s1) else
      match unmarshalHello (f_payload f) with
      | Err e => (Err e, s1)
      | Ok peer =>
          if negb (hp_version peer =? hp_version local) then (Err ErrVersionMismatch, s1) else
          if negb (hp_chunkSize peer =? hp_chunkSize local) then (Err ErrChunkSizeMismatch, s1) else
          (Ok peer, s1)
      end
  end.

(** The proxy side writes first, then reads; the caller side reads first, then
    writes.  [s] is what the peer sends, [w] our side of the connection. *)
Definition blockClientHandshake {W} (Write : W -> bytes -> W * option wireErr)
    (w : W) (s : bytes) (local : helloParams) : res wireErr helloParams * W * bytes :=
  match sendHello Write w local with
  | (w1, Some e) => (Err e, w1, s)
  | (w1, None) => let '(r, s1) := recvHello s local in (r, w1, s1)
  end.

Definition blockServerHandshake {W} (Write : W -> bytes -> W * option wireErr)
    (w : W) (s : bytes) (local : helloParams) : res wireErr helloParams * W * bytes :=
  match recvHello s local with
  | (Err e, s1) => (Err e, w, s1)
  | (Ok peer, s1) =>
      match sendHello Write w local with
      | (w1, Some e) => (Err e, w1, s1)
      | (w1, None) => (Ok peer, w1, s1)
      end
  end.

(** ** Options *)

Record blockOpts := mkBlockOpts {
  bo_features : Z; bo_readahead : Z; bo_ownerUID : Z; bo_ownerGID : Z; bo_ownerSet : bool }.

Definition BlockOpt : Type := blockOpts -> blockOpts.

Definition WithBlockFeatures (f : Z) : BlockOpt := fun o =>
  mkBlockOpts f (bo_readahead o) (bo_ownerUID o) (bo_ownerGID o) (bo_ownerSet o).
Definition WithReadahead (w : Z) : BlockOpt := fun o =>
  mkBlockOpts (bo_features o) w (bo_ownerUID o) (bo_ownerGID o) (bo_ownerSet o).
Definition WithReportedOwner (uid gid : Z) : BlockOpt := fun o =>
  mkBlockOpts (bo_features o) (bo_readahead o) uid gid true.

Definition resolveBlockOpts (opts : list BlockOpt) : blockOpts :=
  let o := fold_left (fun o opt => opt o) opts (mkBlockOpts 0 0 0 0 false) in
  let f := Z.land (bo_features o) blockSupportedFeatures in
  let f' := if hasFlag f FeatSubBlockFill then Z.lor f FeatSubBlockHash else f in
  WithBlockFeatures f' o.

(** The feature set each endpoint advertises and the set in force. *)
Definition proxyFeatures (opts : list BlockOpt) (noCache : bool) : Z :=
  if noCache then FeatNoCache else bo_features (resolveBlockOpts opts).
Definition callerFeatures (opts : list BlockOpt) : Z :=
  Z.lor (bo_features (resolveBlockOpts opts)) FeatNoCache.
Definition negotiated (local peer : Z) : Z := Z.land local peer.

(** ** Payload codecs of the p9 types (blockmsg.go) *)

Record QID := mkQID { q_type : Z; q_version : Z; q_path : Z }.

Definition putQID (w : msgW) (q : QID) : msgW :=
  w_u64 (w_u32 (w_u8 w (q_type q)) (q_version q)) (q_path q).
Definition getQID : rd QID :=
  t ← r_u8; v ← r_u32; p ← r_u64;
  mret {| q_type := t; q_version := v; q_path := p |}.

Definition putQIDs (w : msgW) (qids : list QID) : msgW :=
  fold_left putQID qids (w_u16 w (blen qids mod 2 ^ 16)).
Definition getQIDs : rd (list QID) :=
  n ← r_u16; r_repeat (Z.to_nat n) getQID.

Record AttrMask := mkAttrMask {
  am_Mode : bool; am_NLink : bool; am_UID : bool; am_GID : bool; am_RDev : bool;
  am_ATime : bool; am_MTime : bool; am_CTime : bool; am_INo : bool; am_Size : bool;
  am_Blocks : bool; am_BTime : bool; am_Gen : bool; am_DataVersion : bool }.

(** The closure [set]: or the bit in when the field is set. *)
Definition setMaskBit (v : Z) (b : bool) (bit : Z) : Z :=
  if b then Z.lor v (1 ≪ bit) else v.

(** The bits of a mask, from bit [bit] up. *)
Fixpoint maskBits (v : Z) (bs : list bool) (bit : Z) : Z :=
  match bs with
  | [] => v
  | b :: bs' => maskBits (setMaskBit v b bit) bs' (bit + 1)
  end.

Definition putAttrMask (w : msgW) (m : AttrMask) : msgW :=
  w_u16 w (maskBits 0 [am_Mode m; am_NLink m; am_UID m; am_GID m; am_RDev m;
                       am_ATime m; am_MTime m; am_CTime m; am_INo m; am_Size m;
                       am_Blocks m; am_BTime m; am_Gen m; am_DataVersion m] 0).

(** The closure [g]: [v&(1<<bit) != 0]. *)
Definition maskBit (v bit : Z) : bool := negb (Z.land v (1 ≪ bit) =? 0).

Definition getAttrMask : rd AttrMask :=
  v ← r_u16;
  mret {| am_Mode := maskBit v 0; am_NLink := maskBit v 1; am_UID := maskBit v 2;
          am_GID := maskBit v 3; am_RDev := maskBit v 4; am_ATime := maskBit v 5;
          am_MTime := maskBit v 6; am_CTime := maskBit v 7; am_INo := maskBit v 8;
          am_Size := maskBit v 9; am_Blocks := maskBit v 10; am_BTime := maskBit v 11;
          am_Gen := maskBit v 12; am_DataVersion := maskBit v 13 |}.

Record Attr := mkAttr {
  a_Mode : Z; a_UID : Z; a_GID : Z; a_NLink : Z; a_RDev : Z; a_Size : Z;
  a_BlockSize : Z; a_Blocks : Z; a_ATimeSeconds : Z; a_ATimeNanoSeconds : Z;
  a_MTimeSeconds : Z; a_MTimeNanoSeconds : Z; a_CTimeSeconds : Z;
  a_CTimeNanoSeconds : Z; a_BTimeSeconds : Z; a_BTimeNanoSeconds : Z;
  a_Gen : Z; a_DataVersion : Z }.

Definition putAttr (w : msgW) (a : Attr) : msgW :=
  let w := w_u32 w (a_Mode a) in
  let w := w_u32 w (a_UID a) in
  let w := w_u32 w (a_GID a) in
  let w := w_u64 w (a_NLink a) in
  let w := w_u64 w (a_RDev a) in
  let w := w_u64 w (a_Size a) in
  let w := w_u64 w (a_BlockSize a) in
  let w := w_u64 w (a_Blocks a) in
  let w := w_u64 w (a_ATimeSeconds a) in
  let w := w_u64 w (a_ATimeNanoSeconds a) in
  let w := w_u64 w (a_MTimeSeconds a) in
  let w := w_u64 w (a_MTimeNanoSeconds a) in
  let w := w_u64 w (a_CTimeSeconds a) in
  let w := w_u64 w (a_CTimeNanoSeconds a) in
  let w := w_u64 w (a_BTimeSeconds a) in
  let w := w_u64 w (a_BTimeNanoSeconds a) in
  let w := w_u64 w (a_Gen a) in
  w_u64 w (a_DataVersion a).

Definition getAttr : rd Attr :=
  mode ← r_u32; uid ← r_u32; gid ← r_u32; nlink ← r_u64; rdev ← r_u64; size ← r_u64;
  bsize ← r_u64; blocks ← r_u64; ats ← r_u64; atn ← r_u64; mts ← r_u64; mtn ← r_u64;
  cts ← r_u64; ctn ← r_u64; bts ← r_u64; btn ← r_u64; gen ← r_u64; dv ← r_u64;
  mret (mkAttr mode uid gid nlink rdev size bsize blocks ats atn mts mtn cts ctn
               bts btn gen dv).

Record SetAttrMask := mkSetAttrMask {
  sm_Permissions : bool; sm_UID : bool; sm_GID : bool; sm_Size : bool; sm_ATime : bool;
  sm_MTime : bool; sm_CTime : bool; sm_ATimeNotSystemTime : bool;
  sm_MTimeNotSystemTime : bool }.

Definition putSetAttrMask (w : msgW) (m : SetAttrMask) : msgW :=
  w_u16 w (maskBits 0 [sm_Permissions m; sm_UID m; sm_GID m; sm_Size m; sm_ATime m;
                       sm_MTime m; sm_CTime m; sm_ATimeNotSystemTime m;
                       sm_MTimeNotSystemTime m] 0).
Definition getSetAttrMask : rd SetAttrMask :=
  v ← r_u16;
  mret {| sm_Permissions := maskBit v 0; sm_UID := maskBit v 1; sm_GID := maskBit v 2;
          sm_Size := maskBit v 3; sm_ATime := maskBit v 4; sm_MTime := maskBit v 5;
          sm_CTime := maskBit v 6; sm_ATimeNotSystemTime := maskBit v 7;
          sm_MTimeNotSystemTime := maskBit v 8 |}.

Record SetAttr := mkSetAttr {
  s_Permissions : Z; s_UID : Z; s_GID : Z; s_Size : Z; s_ATimeSeconds : Z;
  s_ATimeNanoSeconds : Z; s_MTimeSeconds : Z; s_MTimeNanoSeconds : Z }.

Definition putSetAttr (w : msgW) (a : SetAttr) : msgW :=
  let w := w_u32 w (s_Permissions a) in
  let w := w_u32 w (s_UID a) in
  let w := w_u32 w (s_GID a) in
  let w := w_u64 w (s_Size a) in
  let w := w_u64 w (s_ATimeSeconds a) in
  let w := w_u64 w (s_ATimeNanoSeconds a) in
  let w := w_u64 w (s_MTimeSeconds a) in
  w_u64 w (s_MTimeNanoSeconds a).
Definition getSetAttr : rd SetAttr :=
  p ← r_u32; u ← r_u32; g ← r_u32; sz ← r_u64; ats ← r_u64; atn ← r_u64;
  mts ← r_u64; mtn ← r_u64; mret (mkSetAttr p u g sz ats atn mts mtn).

Record FSStat := mkFSStat {
  fs_Type : Z; fs_BlockSize : Z; fs_Blocks : Z; fs_BlocksFree : Z;
  fs_BlocksAvailable : Z; fs_Files : Z; fs_FilesFree : Z; fs_FSID : Z;
  fs_NameLength : Z }.

Definition putFSStat (w : msgW) (s : FSStat) : msgW :=
  let w := w_u32 w (fs_Type s) in
  let w := w_u32 w (fs_BlockSize s) in
  let w := w_u64 w (fs_Blocks s) in
  let w := w_u64 w (fs_BlocksFree s) in
  let w := w_u64 w (fs_BlocksAvailable s) in
  let w := w_u64 w (fs_Files s) in
  let w := w_u64 w (fs_FilesFree s) in
  let w := w_u64 w (fs_FSID s) in
  w_u32 w (fs_NameLength s).
Definition getFSStat : rd FSStat :=
  t ← r_u32; bs ← r_u32; b ← r_u64; bf ← r_u64; ba ← r_u64; fl ← r_u64; ff ← r_u64;
  id ← r_u64; nl ← r_u32; mret (mkFSStat t bs b bf ba fl ff id nl).

Record Dirent := mkDirent { d_QID : QID; d_Offset : Z; d_Type : Z; d_Name : bytes }.

Definition putDirent (w : msgW) (e : Dirent) : msgW :=
  w_str (w_u8 (w_u64 (putQID w (d_QID e)) (d_Offset e)) (d_Type e)) (d_Name e).
Definition getDirent : rd Dirent :=
  q ← getQID; o ← r_u64; t ← r_u8; n ← r_str; mret (mkDirent q o t n).

Definition putDirents (w : msgW) (ents : list Dirent) : msgW :=
  fold_left putDirent ents (w_u32 w (blen ents mod 2 ^ 32)).
Definition getDirents : rd (list Dirent) :=
  n ← r_u32; r_repeat (Z.to_nat n) getDirent.

(** Path elements of a walk (blockproxy.go, blockserver.go). *)
Definition putNames (w : msgW) (names : list bytes) : msgW :=
  fold_left w_str names (w_u16 w (blen names mod 2 ^ 16)).
Definition readNames : rd (list bytes) :=
  n ← r_u16; r_repeat (Z.to_nat n) r_str.

(** Authoritative hashes of write units (blockserver.go). *)
Record unitHash := mkUnitHash {
  u_blockIdx : Z; u_subOff : Z; u_subLen : Z; u_hash : Z }.

Definition putUnitHash (w : msgW) (u : unitHash) : msgW :=
  w_u64 (w_u32 (w_u32 (w_u64 w (u_blockIdx u)) (u_subOff u)) (u_subLen u)) (u_hash u).
Definition putUnitHashes (w : msgW) (units : list unitHash) : msgW :=
  fold_left putUnitHash units (w_u16 w (blen units mod 2 ^ 16)).
Definition getUnitHash : rd unitHash :=
  b ← r_u64; o ← r_u32; l ← r_u32; h ← r_u64; mret (mkUnitHash b o l h).
Definition getUnitHashes : rd (list unitHash) :=
  n ← r_u16; r_repeat (Z.to_nat n) getUnitHash.

(** ** Contract of a put/get pair *)

(** [g] consumes exactly [enc] and returns [a], wherever [enc] stands. *)
Definition reads {A} (g : rd A) (enc : bytes) (a : A) : Prop :=
  forall pre post,
    g (mkMsgR (pre ++ enc ++ post) (blen pre) None)
    = (a, mkMsgR (pre ++ enc ++ post) (blen pre + blen enc) None).

(** Once the cursor has failed, [g] keeps the failure. *)
Definition sticky {A} (g : rd A) : Prop :=
  forall r, r_err r <> None -> r_err (g r).2 <> None.

(** [g] fails on every strict prefix of [enc]. *)
Definition fails_short {A} (g : rd A) (enc : bytes) : Prop :=
  forall pre p rest, enc = p ++ rest -> rest <> [] ->
    r_err (g (mkMsgR (pre ++ p) (blen pre) None)).2 <> None.

Class Codec {A} (put : msgW -> A -> msgW) (get : rd A) (wf : A -> Prop) : Prop := {
  put_app : forall w a, put w a = w ++ put [] a;
  get_put : forall a, wf a -> reads get (put [] a) a;
  get_sticky : sticky get;
  get_short : forall a, wf a -> fails_short get (put [] a) }.

Lemma reads_ret {A} (a : A) : reads (mret a) [] a.
Proof. intros pre post. unfold mret, rd_ret, blen. simpl. by rewrite Z.add_0_r. Qed.

Lemma reads_bind {A B} (g : rd A) (f : A -> rd B) w1 w2 a b :
  reads g w1 a -> reads (f a) w2 b -> reads (g ≫= f) (w1 ++ w2) b.
Proof.
  intros Hg Hf pre post. unfold mbind, rd_bind.
  rewrite <- app_assoc, Hg.
  specialize (Hf (pre ++ w1) post). rewrite blen_app, <- !app_assoc in Hf.
  rewrite Hf, !blen_app. f_equal. f_equal. lia.
Qed.

Lemma sticky_ret {A} (a : A) : sticky (mret a).
Proof. intros r H. exact H. Qed.

Lemma sticky_bind {A B} (g : rd A) (f : A -> rd B) :
  sticky g -> (forall a, sticky (f a)) -> sticky (g ≫= f).
Proof.
  intros Hg Hf r H. unfold mbind, rd_bind.
  specialize (Hg r H). destruct (g r) as [a r']. by apply Hf.
Qed.

Lemma fails_short_ret {A} (a : A) : fails_short (mret a) [].
Proof. intros pre p rest H Hr. symmetry in H. apply app_eq_nil in H as [-> ->]. done. Qed.

Lemma fails_short_bind {A B} (g : rd A) (f : A -> rd B) w1 w2 a :
  reads g w1 a -> fails_short g w1 -> (forall a, sticky (f a)) ->
  fails_short (f a) w2 -> fails_short (g ≫= f) (w1 ++ w2).
Proof.
  intros Hg Hs Hst Hf pre p rest Heq Hrest. unfold mbind, rd_bind.
  apply app_eq_inv in Heq as [[k [-> ->]]|[k [-> ->]]].
  - destruct (decide (k = [])) as [->|Hk].
    + specialize (Hg pre []). rewrite !app_nil_r in *. rewrite Hg.
      specialize (Hf (pre ++ p) [] w2 eq_refl Hrest).
      by rewrite app_nil_r, blen_app in Hf.
    + specialize (Hs pre p k eq_refl Hk).
      destruct (g _) as [a' r']. simpl in Hs. by apply Hst.
  - rewrite Hg. specialize (Hf (pre ++ w1) k rest eq_refl Hrest).
    by rewrite blen_app, <- app_assoc in Hf.
Qed.

(** The primitive readers. *)
Lemma need_ok n pre enc post :
  blen enc = n ->
  need n (mkMsgR (pre ++ enc ++ post) (blen pre) None)
  = (true, mkMsgR (pre ++ enc ++ post) (blen pre) None).
Proof.
  intros <-. unfold need; simpl. rewrite !blen_app.
  destruct (Z.ltb_spec (blen pre + (blen enc + blen post)) (blen pre + blen enc)); [|done].
  pose proof (blen_nonneg post). lia.
Qed.

Lemma need_short n b off :
  blen b < off + n ->
  need n (mkMsgR b off None) = (false, mkMsgR b off (Some ErrUnexpectedEOF)).
Proof. intros H. unfold need; simpl. by apply Z.ltb_lt in H as ->. Qed.

Lemma need_sticky n r :
  r_err r <> None -> need n r = (false, r).
Proof. intros H. unfold need. by destruct (r_err r). Qed.

Lemma reads_uint n v :
  0 <= v < 256 ^ Z.of_nat n -> reads (r_uint (Z.of_nat n)) (be_put n v) v.
Proof.
  intros Hv pre post. unfold r_uint, mbind, rd_bind.
  assert (Hl : blen (be_put n v) = Z.of_nat n) by (unfold blen; by rewrite length_be_put).
  rewrite need_ok by done. unfold advance; simpl.
  rewrite <- Hl at 1. rewrite sub_z_app, be_get_put by done.
  unfold mret, rd_ret. by rewrite Hl.
Qed.

Lemma sticky_uint n : sticky (r_uint n).
Proof. intros r H. unfold r_uint, mbind, rd_bind. by rewrite need_sticky. Qed.

Lemma fails_short_uint n v : fails_short (r_uint (Z.of_nat n)) (be_put n v).
Proof.
  intros pre p rest Heq Hrest. unfold r_uint, mbind, rd_bind.
  assert (Hl : blen (be_put n v) = Z.of_nat n) by (unfold blen; by rewrite length_be_put).
  rewrite Heq, blen_app in Hl. rewrite need_short; [done|].
  rewrite blen_app. assert (blen rest <> 0) by (intros E; by apply blen_nil_inv in E).
  pose proof (blen_nonneg rest). lia.
Qed.

#[export] Hint Resolve sticky_uint sticky_ret : cornus.

Lemma uint_codec n (put : msgW -> Z -> msgW) :
  (forall w v, put w v = w ++ be_put n v) ->
  Codec put (r_uint (Z.of_nat n)) (uN (8 * Z.of_nat n)).
Proof.
  intros Hp. assert (Hw : forall v, uN (8 * Z.of_nat n) v -> 0 <= v < 256 ^ Z.of_nat n).
  { intros v H. unfold uN in H. change 256 with (2 ^ 8). rewrite <- Z.pow_mul_r by lia. done. }
  split; intros; rewrite ?Hp; simpl.
  - done.
  - by apply reads_uint, Hw.
  - apply sticky_uint.
  - apply fails_short_uint.
Qed.

#[export] Instance u8_codec : Codec w_u8 r_u8 (uN 8).
Proof. apply (uint_codec 1). intros w v. unfold w_u8. simpl. by rewrite Z.shiftr_0_r. Qed.
#[export] Instance u16_codec : Codec w_u16 r_u16 (uN 16).
Proof. by apply (uint_codec 2). Qed.
#[export] Instance u32_codec : Codec w_u32 r_u32 (uN 32).
Proof. by apply (uint_codec 4). Qed.
#[export] Instance u64_codec : Codec w_u64 r_u64 (uN 64).
Proof. by apply (uint_codec 8). Qed.

(** ** Codec combinators *)

Lemma reads_last {A B} (g : rd A) (f : A -> B) w a :
  reads g w a -> reads (x ← g; mret (f x)) w (f a).
Proof.
  intros H. rewrite <- (app_nil_r w). apply (reads_bind _ _ _ _ a); [done|].
  apply reads_ret.
Qed.

Lemma fails_short_last {A B} (g : rd A) (f : A -> B) w a :
  reads g w a -> fails_short g w -> fails_short (x ← g; mret (f x)) w.
Proof.
  intros H Hs. rewrite <- (app_nil_r w).
  apply (fails_short_bind _ _ _ _ a); auto using fails_short_ret, sticky_ret.
Qed.

Lemma sticky_last {A B} (g : rd A) (f : A -> B) :
  sticky g -> sticky (x ← g; mret (f x)).
Proof. intros H. apply sticky_bind; auto using sticky_ret. Qed.

Lemma reads_u8 v : uN 8 v -> reads r_u8 [byte_of_Z v] v.
Proof. apply (get_put (put := w_u8)). Qed.
Lemma reads_u16 v : uN 16 v -> reads r_u16 (be_put 2 v) v.
Proof. apply (get_put (put := w_u16)). Qed.
Lemma reads_u32 v : uN 32 v -> reads r_u32 (be_put 4 v) v.
Proof. apply (get_put (put := w_u32)). Qed.
Lemma reads_u64 v : uN 64 v -> reads r_u64 (be_put 8 v) v.
Proof. apply (get_put (put := w_u64)). Qed.
Lemma fails_short_u8 v : fails_short r_u8 [byte_of_Z v].
Proof.
  replace [byte_of_Z v] with (be_put 1 v) by (simpl; by rewrite Z.shiftr_0_r).
  apply (fails_short_uint 1).
Qed.
Lemma fails_short_u16 v : fails_short r_u16 (be_put 2 v).
Proof. apply (fails_short_uint 2). Qed.
Lemma fails_short_u32 v : fails_short r_u32 (be_put 4 v).
Proof. apply (fails_short_uint 4). Qed.
Lemma fails_short_u64 v : fails_short r_u64 (be_put 8 v).
Proof. apply (fails_short_uint 8). Qed.
Lemma sticky_u8 : sticky r_u8. Proof. apply sticky_uint. Qed.
Lemma sticky_u16 : sticky r_u16. Proof. apply sticky_uint. Qed.
Lemma sticky_u32 : sticky r_u32. Proof. apply sticky_uint. Qed.
Lemma sticky_u64 : sticky r_u64. Proof. apply sticky_uint. Qed.

#[local] Opaque r_u8 r_u16 r_u32 r_u64 be_put byte_of_Z.

(** The integer reader at the head of the goal. *)
Ltac codec_prim :=
  match goal with
  | |- reads r_u8 _ _ => apply reads_u8
  | |- reads r_u16 _ _ => apply reads_u16
  | |- reads r_u32 _ _ => apply reads_u32
  | |- reads r_u64 _ _ => apply reads_u64
  | |- fails_short r_u8 _ => apply fails_short_u8
  | |- fails_short r_u16 _ => apply fails_short_u16
  | |- fails_short r_u32 _ => apply fails_short_u32
  | |- fails_short r_u64 _ => apply fails_short_u64
  | |- sticky r_u8 => apply sticky_u8
  | |- sticky r_u16 => apply sticky_u16
  | |- sticky r_u32 => apply sticky_u32
  | |- sticky r_u64 => apply sticky_u64
  end; try assumption.
Ltac codec_sticky :=
  repeat first [ codec_prim | apply sticky_ret | apply sticky_bind; [|intros ?] ].
(** Discharge the laws of a record codec made of integer fields; the goal's
    writer has been unfolded to appends. *)
Ltac codec_reads :=
  rewrite <- ?app_assoc;
  repeat (eapply reads_bind; [codec_prim|]); eapply (reads_last _ _ _ _); codec_prim.
Ltac codec_short :=
  rewrite <- ?app_assoc;
  repeat (eapply fails_short_bind; [codec_prim|codec_prim|intros; codec_sticky|]);
  eapply (fails_short_last _ _ _ _); [codec_prim|codec_prim].

Definition wf_QID (q : QID) : Prop :=
  uN 8 (q_type q) /\ uN 32 (q_version q) /\ uN 64 (q_path q).

#[export] Instance QID_codec : Codec putQID getQID wf_QID.
Proof.
  split.
  - intros w a. unfold putQID, w_u8, w_u32, w_u64. by rewrite <- !app_assoc.
  - intros [t v p] (?&?&?). unfold putQID, getQID, w_u8, w_u32, w_u64; simpl q_type.
    rewrite app_nil_l. codec_reads.
  - unfold getQID. codec_sticky.
  - intros [t v p] (?&?&?). unfold putQID, getQID, w_u8, w_u32, w_u64. rewrite app_nil_l.
    codec_short.
Qed.

(** Sequences: the elements' encodings, one after the other. *)
Definition encs {A} (put : msgW -> A -> msgW) (l : list A) : bytes :=
  concat (map (put []) l).

Section Sequences.
Context {A : Type} (put : msgW -> A -> msgW) (get : rd A) (wf : A -> Prop).
Context `{!Codec put get wf}.

Lemma fold_put l w : fold_left put l w = w ++ encs put l.
Proof.
  revert w. induction l as [|a l IH]; intros w; [by rewrite app_nil_r|].
  simpl fold_left. rewrite (put_app w a), IH. unfold encs; simpl.
  by rewrite app_assoc.
Qed.

Lemma reads_repeat l :
  Forall wf l -> reads (r_repeat (length l) get) (encs put l) l.
Proof.
  induction 1 as [|a l Ha Hl IH]; [apply reads_ret|].
  unfold encs; simpl. eapply reads_bind; [by apply get_put|].
  apply (reads_last _ (cons a)), IH.
Qed.

Lemma sticky_repeat n : sticky (r_repeat n get).
Proof.
  induction n as [|n IH]; [apply sticky_ret|]. simpl.
  apply sticky_bind; [apply get_sticky|]. intros a. by apply sticky_last.
Qed.

Lemma fails_short_repeat l :
  Forall wf l -> fails_short (r_repeat (length l) get) (encs put l).
Proof.
  induction 1 as [|a l Ha Hl IH]; [apply fails_short_ret|].
  unfold encs; simpl.
  eapply fails_short_bind; [by apply get_put|by apply get_short| |].
  - intros. apply sticky_bind; auto using sticky_repeat, sticky_ret.
  - apply (fails_short_last _ (cons a) _ l); auto using reads_repeat.
Qed.

Lemma list_codec (cnt : nat) (w_cnt : msgW -> Z -> msgW) :
  Codec w_cnt (r_uint (Z.of_nat cnt)) (uN (8 * Z.of_nat cnt)) ->
  Codec (fun w l => fold_left put l (w_cnt w (blen l mod 2 ^ (8 * Z.of_nat cnt))))
        (n ← r_uint (Z.of_nat cnt); r_repeat (Z.to_nat n) get)
        (fun l => Forall wf l /\ uN (8 * Z.of_nat cnt) (blen l)).
Proof.
  intros Hc. split.
  - intros w l. rewrite !fold_put, (put_app (put := w_cnt) w). by rewrite <- app_assoc.
  - intros l [Hl Hn]. rewrite fold_put. unfold uN in Hn.
    rewrite Z.mod_small by done.
    eapply reads_bind; [by apply get_put|]. unfold blen. rewrite Nat2Z.id.
    by apply reads_repeat.
  - apply sticky_bind; [apply get_sticky|]. intros a. apply sticky_repeat.
  - intros l [Hl Hn]. rewrite fold_put. unfold uN in Hn.
    rewrite Z.mod_small by done.
    eapply fails_short_bind; [by apply get_put|by apply get_short| |].
    + intros a. apply sticky_repeat.
    + unfold blen. rewrite Nat2Z.id. by apply fails_short_repeat.
Qed.
End Sequences.

(** Length-prefixed byte strings. *)
Lemma reads_advance b : reads (advance (blen b)) b b.
Proof. intros pre post. unfold advance; simpl. by rewrite sub_z_app. Qed.

Lemma reads_counted b :
  reads (ok ← need (blen b); if ok : bool then advance (blen b) else mret []) b b.
Proof.
  intros pre post. unfold mbind at 1, rd_bind. rewrite need_ok by done.
  apply reads_advance.
Qed.

Lemma sticky_counted n :
  sticky (ok ← need n; if ok : bool then advance n else mret []).
Proof. intros r H. unfold mbind, rd_bind. by rewrite need_sticky. Qed.

Lemma fails_short_counted b :
  fails_short (ok ← need (blen b); if ok : bool then advance (blen b) else mret []) b.
Proof.
  intros pre p rest -> Hr. unfold mbind, rd_bind.
  rewrite need_short; [done|]. rewrite !blen_app.
  assert (blen rest <> 0) by (intros E; by apply blen_nil_inv in E).
  pose proof (blen_nonneg rest). lia.
Qed.

Definition wf_blob (b : bytes) : Prop := uN 32 (blen b).

#[export] Instance blob_codec : Codec w_blob r_blob wf_blob.
Proof.
  split.
  - intros w a. unfold w_blob, w_u32. by rewrite <- !app_assoc.
  - intros b Hb. unfold w_blob, w_u32. rewrite app_nil_l, Z.mod_small by done.
    eapply reads_bind; [by apply reads_u32|apply reads_counted].
  - unfold r_blob. apply sticky_bind; [apply sticky_u32|apply sticky_counted].
  - intros b Hb. unfold w_blob, w_u32. rewrite app_nil_l, Z.mod_small by done.
    eapply fails_short_bind;
      [by apply reads_u32|apply fails_short_u32|intros; apply sticky_counted|].
    apply fails_short_counted.
Qed.

#[export] Instance str_codec : Codec w_str r_str wf_blob.
Proof. exact blob_codec. Qed.

#[local] Opaque r_blob r_str.

#[export] Instance QIDs_codec :
  Codec putQIDs getQIDs (fun l => Forall wf_QID l /\ uN 16 (blen l)).
Proof. apply (list_codec putQID getQID wf_QID 2 w_u16), _. Qed.

#[export] Instance names_codec :
  Codec putNames readNames (fun l => Forall wf_blob l /\ uN 16 (blen l)).
Proof. apply (list_codec w_str r_str wf_blob 2 w_u16), _. Qed.

(** Masks: bit [i] of the word is the [i]-th flag. *)
Lemma maskBits_spec bs v bit i :
  0 <= bit -> 0 <= i ->
  Z.testbit (maskBits v bs bit) i =
    Z.testbit v i || (default false (bs !! Z.to_nat (i - bit)) && (bit <=? i)).
Proof.
  revert v bit. induction bs as [|b bs IH]; intros v bit Hb Hi.
  - simpl. by rewrite orb_false_r.
  - simpl maskBits. rewrite IH by lia. unfold setMaskBit.
    assert (Htb : Z.testbit (1 ≪ bit) i = (i =? bit)).
    { rewrite Z.shiftl_spec by lia. destruct (Z.eqb_spec i bit) as [->|Hne].
      - by rewrite Z.sub_diag.
      - destruct (Z.ltb_spec i bit); [by rewrite Z.testbit_neg_r by lia|].
        rewrite (Z.bits_above_log2 1 (i - bit)) by (simpl; lia). done. }
    destruct (Z.compare_spec i bit) as [->|Hlt|Hgt].
    + rewrite Z.sub_diag. replace (bit + 1 <=? bit) with false by (symmetry; apply Z.leb_gt; lia).
      rewrite Z.leb_refl. simpl. rewrite andb_false_r, orb_false_r, andb_true_r.
      destruct b; rewrite ?Z.lor_spec, ?Htb, ?Z.eqb_refl, ?orb_false_r; done.
    + replace (bit + 1 <=? i) with false by (symmetry; apply Z.leb_gt; lia).
      replace (bit <=? i) with false by (symmetry; apply Z.leb_gt; lia).
      rewrite !andb_false_r, !orb_false_r.
      destruct b; rewrite ?Z.lor_spec, ?Htb; [|done].
      replace (i =? bit) with false by (symmetry; apply Z.eqb_neq; lia). by rewrite orb_false_r.
    + replace (bit + 1 <=? i) with true by (symmetry; apply Z.leb_le; lia).
      replace (bit <=? i) with true by (symmetry; apply Z.leb_le; lia).
      replace (Z.to_nat (i - bit)) with (S (Z.to_nat (i - (bit + 1)))) by lia. simpl.
      destruct b; rewrite ?Z.lor_spec, ?Htb; [|done].
      replace (i =? bit) with false by (symmetry; apply Z.eqb_neq; lia). by rewrite orb_false_r.
Qed.

Lemma bounded_by_bits v n :
  0 <= n -> (forall i, n <= i -> Z.testbit v i = false) -> 0 <= v < 2 ^ n.
Proof.
  intros Hn H. rewrite <- (Z.mod_small v (2 ^ n)) at 1 2.
  - apply Z.mod_pos_bound. lia.
  - assert (E : v = v mod 2 ^ n); [|rewrite E; apply Z.mod_pos_bound; lia].
    apply Z.bits_inj'. intros i Hi. destruct (Z.ltb_spec i n).
    + by rewrite Z.mod_pow2_bits_low by lia.
    + rewrite Z.mod_pow2_bits_high by lia. by apply H.
Qed.

Lemma maskBits_range bs : uN (blen bs) (maskBits 0 bs 0).
Proof.
  apply bounded_by_bits; [apply blen_nonneg|]. intros i Hi.
  pose proof (blen_nonneg bs).
  rewrite maskBits_spec by lia. rewrite Z.sub_0_r, Z.testbit_0_l.
  rewrite lookup_ge_None_2 by (unfold blen in *; lia). done.
Qed.

Lemma maskBit_testbit v bit : 0 <= bit -> maskBit v bit = Z.testbit v bit.
Proof.
  intros Hb. unfold maskBit. rewrite Z.shiftl_1_l.
  destruct (Z.testbit v bit) eqn:E.
  - apply negb_true_iff, Z.eqb_neq. intros H.
    assert (H2 : Z.testbit (Z.land v (2 ^ bit)) bit = true)
      by (rewrite Z.land_spec, E, Z.pow2_bits_true by lia; done).
    by rewrite H, Z.testbit_0_l in H2.
  - apply negb_false_iff, Z.eqb_eq, Z.bits_inj'. intros i Hi.
    rewrite Z.land_spec, Z.testbit_0_l. destruct (Z.eqb_spec bit i) as [->|Hne].
    + by rewrite E.
    + rewrite Z.pow2_bits_false by done. apply andb_false_r.
Qed.

Lemma maskBit_maskBits bs bit :
  0 <= bit -> maskBit (maskBits 0 bs 0) bit = default false (bs !! Z.to_nat bit).
Proof.
  intros Hb. rewrite maskBit_testbit, maskBits_spec by lia.
  rewrite Z.testbit_0_l, Z.sub_0_r. simpl.
  replace (0 <=? bit) with true by (symmetry; apply Z.leb_le; lia). apply andb_true_r.
Qed.

Lemma reads_mask {M} (bs : list bool) (f : Z -> M) m :
  blen bs <= 16 -> f (maskBits 0 bs 0) = m ->
  reads (v ← r_u16; mret (f v)) (be_put 2 (maskBits 0 bs 0)) m /\
  fails_short (v ← r_u16; mret (f v)) (be_put 2 (maskBits 0 bs 0)).
Proof.
  intros Hl <-.
  assert (Hu : uN 16 (maskBits 0 bs 0)).
  { pose proof (maskBits_range bs) as [? ?]. split; [done|].
    eapply Z.lt_le_trans; [done|]. apply Z.pow_le_mono_r; lia. }
  split.
  - by apply reads_last, reads_u16.
  - eapply fails_short_last; [by apply reads_u16|apply fails_short_u16].
Qed.

#[export] Instance AttrMask_codec : Codec putAttrMask getAttrMask (fun _ => True).
Proof.
  split; [done| | |].
  - intros m _. apply reads_mask; [done|]. rewrite !maskBit_maskBits by lia. by destruct m.
  - unfold getAttrMask. codec_sticky.
  - intros m _. apply (reads_mask _ _ m); [done|].
    rewrite !maskBit_maskBits by lia. by destruct m.
Qed.

#[export] Instance SetAttrMask_codec :
  Codec putSetAttrMask getSetAttrMask (fun _ => True).
Proof.
  split; [done| | |].
  - intros m _. apply reads_mask; [done|]. rewrite !maskBit_maskBits by lia. by destruct m.
  - unfold getSetAttrMask. codec_sticky.
  - intros m _. apply (reads_mask _ _ m); [done|].
    rewrite !maskBit_maskBits by lia. by destruct m.
Qed.

Definition wf_Attr (a : Attr) : Prop :=
  Forall (uN 32) [a_Mode a; a_UID a; a_GID a] /\
  Forall (uN 64) [a_NLink a; a_RDev a; a_Size a; a_BlockSize a; a_Blocks a;
    a_ATimeSeconds a; a_ATimeNanoSeconds a; a_MTimeSeconds a; a_MTimeNanoSeconds a;
    a_CTimeSeconds a; a_CTimeNanoSeconds a; a_BTimeSeconds a; a_BTimeNanoSeconds a;
    a_Gen a; a_DataVersion a].

Definition wf_SetAttr (a : SetAttr) : Prop :=
  Forall (uN 32) [s_Permissions a; s_UID a; s_GID a] /\
  Forall (uN 64) [s_Size a; s_ATimeSeconds a; s_ATimeNanoSeconds a; s_MTimeSeconds a;
    s_MTimeNanoSeconds a].

Definition wf_FSStat (s : FSStat) : Prop :=
  Forall (uN 32) [fs_Type s; fs_BlockSize s; fs_NameLength s] /\
  Forall (uN 64) [fs_Blocks s; fs_BlocksFree s; fs_BlocksAvailable s; fs_Files s;
    fs_FilesFree s; fs_FSID s].

(** Split a [Forall] over an explicit list into its hypotheses. *)
Ltac forall_split :=
  repeat match goal with
  | H : Forall _ (_ :: _) |- _ => apply Forall_cons_1 in H
  | H : _ /\ _ |- _ => destruct H
  end.

#[export] Instance Attr_codec : Codec putAttr getAttr wf_Attr.
Proof.
  split.
  - intros w a. unfold putAttr, w_u32, w_u64. cbv zeta. by rewrite <- !app_assoc.
  - intros [] [H1 H2]. simpl in H1, H2. forall_split.
    unfold putAttr, getAttr, w_u32, w_u64; cbv zeta; simpl. codec_reads.
  - unfold getAttr. codec_sticky.
  - intros [] [H1 H2]. simpl in H1, H2. forall_split.
    unfold putAttr, getAttr, w_u32, w_u64; cbv zeta; simpl. codec_short.
Qed.

#[export] Instance SetAttr_codec : Codec putSetAttr getSetAttr wf_SetAttr.
Proof.
  split.
  - intros w a. unfold putSetAttr, w_u32, w_u64. cbv zeta. by rewrite <- !app_assoc.
  - intros [] [H1 H2]. simpl in H1, H2. forall_split.
    unfold putSetAttr, getSetAttr, w_u32, w_u64; cbv zeta; simpl. codec_reads.
  - unfold getSetAttr. codec_sticky.
  - intros [] [H1 H2]. simpl in H1, H2. forall_split.
    unfold putSetAttr, getSetAttr, w_u32, w_u64; cbv zeta; simpl. codec_short.
Qed.

#[export] Instance FSStat_codec : Codec putFSStat getFSStat wf_FSStat.
Proof.
  split.
  - intros w a. unfold putFSStat, w_u32, w_u64. cbv zeta. by rewrite <- !app_assoc.
  - intros [] [H1 H2]. simpl in H1, H2. forall_split.
    unfold putFSStat, getFSStat, w_u32, w_u64; cbv zeta; simpl. codec_reads.
  - unfold getFSStat. codec_sticky.
  - intros [] [H1 H2]. simpl in H1, H2. forall_split.
    unfold putFSStat, getFSStat, w_u32, w_u64; cbv zeta; simpl. codec_short.
Qed.

Definition wf_Dirent (e : Dirent) : Prop :=
  wf_QID (d_QID e) /\ uN 64 (d_Offset e) /\ uN 8 (d_Type e) /\ wf_blob (d_Name e).

#[export] Instance Dirent_codec : Codec putDirent getDirent wf_Dirent.
Proof.
  assert (Henc : forall w e, putDirent w e =
    w ++ putQID [] (d_QID e) ++ be_put 8 (d_Offset e) ++ [byte_of_Z (d_Type e)]
      ++ w_str [] (d_Name e)).
  { intros w e. unfold putDirent. rewrite put_app.
    unfold w_u8, w_u64. rewrite (put_app (put := putQID) w). by rewrite <- !app_assoc. }
  split.
  - intros w a. by rewrite !Henc.
  - intros [q o t n] (?&?&?&?). rewrite Henc, app_nil_l. unfold getDirent.
    cbn [d_QID d_Offset d_Type d_Name] in *. clear Henc.
    eapply reads_bind; [by apply get_put|].
    do 2 (eapply reads_bind; [codec_prim|]).
    apply (reads_last _ (mkDirent q o t)). by apply get_put.
  - unfold getDirent. apply sticky_bind; [apply get_sticky|]. intros q.
    codec_sticky. apply get_sticky.
  - intros [q o t n] (?&?&?&?). rewrite Henc, app_nil_l. unfold getDirent.
    cbn [d_QID d_Offset d_Type d_Name] in *. clear Henc.
    eapply fails_short_bind; [by apply get_put|by apply get_short| |].
    { intros. codec_sticky. apply get_sticky. }
    do 2 (eapply fails_short_bind; [codec_prim|codec_prim|intros; codec_sticky; apply get_sticky|]).
    apply (fails_short_last _ (mkDirent q o t) _ n); [by apply get_put|by apply get_short].
Qed.

#[export] Instance Dirents_codec :
  Codec putDirents getDirents (fun l => Forall wf_Dirent l /\ uN 32 (blen l)).
Proof. apply (list_codec putDirent getDirent wf_Dirent 4 w_u32), _. Qed.

Definition wf_unitHash (u : unitHash) : Prop :=
  uN 64 (u_blockIdx u) /\ uN 32 (u_subOff u) /\ uN 32 (u_subLen u) /\ uN 64 (u_hash u).

#[export] Instance unitHash_codec : Codec putUnitHash getUnitHash wf_unitHash.
Proof.
  split.
  - intros w a. unfold putUnitHash, w_u32, w_u64. by rewrite <- !app_assoc.
  - intros [] (?&?&?&?). unfold putUnitHash, getUnitHash, w_u32, w_u64. rewrite app_nil_l.
    codec_reads.
  - unfold getUnitHash. codec_sticky.
  - intros [] (?&?&?&?). unfold putUnitHash, getUnitHash, w_u32, w_u64. rewrite app_nil_l.
    codec_short.
Qed.

#[export] Instance unitHashes_codec :
  Codec putUnitHashes getUnitHashes (fun l => Forall wf_unitHash l /\ uN 16 (blen l)).
Proof. apply (list_codec putUnitHash getUnitHash wf_unitHash 2 w_u16), _. Qed.

Definition wf_hello (h : helloParams) : Prop :=
  uN 16 (hp_version h) /\ uN 32 (hp_chunkSize h) /\ uN 16 (hp_maxInflight h) /\
  uN 32 (hp_features h).

#[export] Instance hello_codec :
  Codec (fun w h => w ++ marshalHello h) getHello wf_hello.
Proof.
  split; [done| | |].
  - intros [] (?&?&?&?). unfold marshalHello, getHello, w_u16, w_u32. rewrite !app_nil_l.
    codec_reads.
  - unfold getHello. codec_sticky.
  - intros [] (?&?&?&?). unfold marshalHello, getHello, w_u16, w_u32. rewrite !app_nil_l.
    codec_short.
Qed.

(** Decoding a whole payload. *)
Lemma decode_all {A} (g : rd A) enc a :
  reads g enc a -> g (newMsgR enc) = (a, mkMsgR enc (blen enc) None).
Proof. intros H. specialize (H [] []). by rewrite app_nil_r in H. Qed.

Lemma unmarshal_marshal h : wf_hello h -> unmarshalHello (marshalHello h) = Ok h.
Proof.
  intros Hw. unfold unmarshalHello.
  rewrite (decode_all getHello (marshalHello h) h); [done|].
  apply (get_put (Codec := hello_codec) h Hw).
Qed.

(** Frames. *)
Definition wf_frame (f : frame) : Prop :=
  uN 8 (f_op f) /\ uN 8 (f_flags f) /\ uN 64 (f_reqID f).

Lemma streamWrite_parts w f bulk :
  writeFrameParts streamWrite w f bulk =
    (w ++ frameHdr f (blockFrameHeader + blen (f_payload f) + blen bulk)
       ++ f_payload f ++ bulk, None).
Proof.
  unfold writeFrameParts, streamWrite.
  destruct ((0 <? blen bulk) && (blen bulk <=? smallBulkInline)) eqn:E; simpl.
  - by rewrite <- !app_assoc.
  - destruct (0 <? blen bulk) eqn:E2; rewrite <- ?app_assoc; [done|].
    apply Z.ltb_ge in E2. assert (bulk = []) as ->
      by (apply blen_nil_inv; pose proof (blen_nonneg bulk); lia).
    by rewrite !app_nil_r.
Qed.

Lemma readFull_app n l rest : blen l = n -> readFull n (l ++ rest) = (Ok l, rest).
Proof.
  intros <-. unfold readFull. rewrite blen_app.
  replace (blen l <=? blen l + blen rest) with true
    by (symmetry; apply Z.leb_le; pose proof (blen_nonneg rest); lia).
  by rewrite take_z_app, drop_z_app.
Qed.

Lemma be_get_byte b : be_get [b] = Z_of_byte b.
Proof. reflexivity. Qed.

Lemma sub_frameHdr f total :
  sub_z 0 4 (frameHdr f total) = be_put 4 total /\
  sub_z 4 1 (frameHdr f total) = [byte_of_Z (f_op f)] /\
  sub_z 5 1 (frameHdr f total) = [byte_of_Z (f_flags f)] /\
  sub_z 8 8 (frameHdr f total) = be_put 8 (f_reqID f).
Proof. Transparent be_put. repeat split; reflexivity. Qed.

Lemma readFrameHeader_hdr f total rest max :
  wf_frame f -> blockFrameHeader <= total < 2 ^ 32 -> total - blockFrameHeader <= max ->
  readFrameHeader (frameHdr f total ++ rest) max =
    (Ok {| h_op := f_op f; h_flags := f_flags f; h_reqID := f_reqID f;
           h_plen := total - blockFrameHeader |}, rest).
Proof.
  intros (Hop & Hfl & Hid) [Ht1 Ht2] Hmax. unfold readFrameHeader.
  rewrite readFull_app by reflexivity.
  destruct (sub_frameHdr f total) as (-> & -> & -> & ->).
  rewrite be_get_put by (simpl; unfold blockFrameHeader in *; lia).
  rewrite !be_get_byte, !Z_of_byte_of_Z.
  unfold uN in *. rewrite be_get_put by (simpl; lia).
  rewrite !Z.mod_small by lia.
  replace (total <? blockFrameHeader) with false by (symmetry; apply Z.ltb_ge; lia).
  replace (max <? total - blockFrameHeader) with false by (symmetry; apply Z.ltb_ge; lia).
  done.
Qed.

Lemma readFrame_parts w f bulk rest max :
  wf_frame f -> blen (f_payload f) + blen bulk <= max ->
  blockFrameHeader + blen (f_payload f) + blen bulk < 2 ^ 32 ->
  exists enc,
    writeFrameParts streamWrite w f bulk = (w ++ enc, None) /\
    readFrame (enc ++ rest) max =
      (Ok (mkFrame (f_op f) (f_flags f) (f_reqID f) (f_payload f ++ bulk)), rest).
Proof.
  intros Hf Hmax Ht. eexists. rewrite streamWrite_parts. split; [done|].
  pose proof (blen_nonneg (f_payload f)). pose proof (blen_nonneg bulk).
  unfold readFrame. rewrite <- app_assoc, readFrameHeader_hdr; [|done|lia|lia]. simpl.
  replace (blockFrameHeader + blen (f_payload f) + blen bulk - blockFrameHeader)
    with (blen (f_payload f ++ bulk)) by (rewrite blen_app; lia).
  destruct (0 <? blen (f_payload f ++ bulk)) eqn:E.
  - by rewrite readFull_app.
  - apply Z.ltb_ge in E.
    assert (f_payload f ++ bulk = []) as ->; [|done].
    apply blen_nil_inv. pose proof (blen_nonneg (f_payload f ++ bulk)). lia.
Qed.

(** A sender's successive frames on one connection, each with its bulk part,
    and the frame a reader sees for it. *)
Definition writeFrames (w : bytes) (fs : list (frame * bytes)) : bytes :=
  fold_left (fun w fb => (writeFrameParts streamWrite w fb.1 fb.2).1) fs w.

Definition joinBulk (fb : frame * bytes) : frame :=
  mkFrame (f_op fb.1) (f_flags fb.1) (f_reqID fb.1) (f_payload fb.1 ++ fb.2).

Fixpoint readFrames (n : nat) (s : bytes) (max : Z) : res wireErr (list frame) * bytes :=
  match n with
  | O => (Ok [], s)
  | S n' =>
      match readFrame s max with
      | (Err e, s1) => (Err e, s1)
      | (Ok f, s1) =>
          match readFrames n' s1 max with
          | (Err e, s2) => (Err e, s2)
          | (Ok fs, s2) => (Ok (f :: fs), s2)
          end
      end
  end.

Definition sendable (max : Z) (fb : frame * bytes) : Prop :=
  wf_frame fb.1 /\ blen (f_payload fb.1) + blen fb.2 <= max /\
  blockFrameHeader + blen (f_payload fb.1) + blen fb.2 < 2 ^ 32.

Lemma writeFrames_app w fs : writeFrames w fs = w ++ writeFrames [] fs.
Proof.
  unfold writeFrames. revert w. induction fs as [|fb fs IH]; intros w.
  - simpl. by rewrite app_nil_r.
  - cbn [fold_left]. rewrite !streamWrite_parts. cbn [fst].
    rewrite (IH (w ++ _)), (IH ([] ++ _)). by rewrite app_nil_l, <- !app_assoc.
Qed.

(** Framing: any sequence of frames written on a connection, whatever mix
    of inlined and separately written bulk parts, is read back frame by frame
    as the same ops, flags, request ids and payloads, in order, leaving
    exactly the bytes that follow, provided each payload fits the reader's
    limit and the 32-bit length prefix. *)
Theorem frames_roundtrip max fs rest :
  Forall (sendable max) fs ->
  readFrames (length fs) (writeFrames [] fs ++ rest) max
  = (Ok (map joinBulk fs), rest).
Proof.
  induction 1 as [|[f bulk] fs (Hf & Hmax & Ht) Hfs IH]; [done|].
  simpl readFrames. change (writeFrames [] ((f, bulk) :: fs))
    with (writeFrames (writeFrameParts streamWrite [] f bulk).1 fs).
  destruct (readFrame_parts [] f bulk (writeFrames [] fs ++ rest) max Hf Hmax Ht)
    as (enc & Hw & Hr).
  rewrite Hw. cbn [fst]. rewrite writeFrames_app, app_nil_l, <- app_assoc, Hr, IH. done.
Qed.

Lemma frames_roundtrip_witness :
  readFrames 2
    (writeFrames [] [(mkFrame 8 1 7 [Byte.x01; Byte.x02], [Byte.x03]);
                     (mkFrame 9 0 65536 [], [])] ++ [Byte.xff]) 4
  = (Ok [mkFrame 8 1 7 [Byte.x01; Byte.x02; Byte.x03]; mkFrame 9 0 65536 []], [Byte.xff]).
Proof.
  refine (frames_roundtrip 4 [(mkFrame 8 1 7 [Byte.x01; Byte.x02], [Byte.x03]);
                     (mkFrame 9 0 65536 [], [])] [Byte.xff] _).
  compute_side.
Defined.

(** The reply of WalkGetAttr, as [dispatch] builds it and [WalkGetAttr] reads it. *)
Definition putWalkGetAttr (w : msgW) (x : list QID * AttrMask * Attr) : msgW :=
  putAttr (putAttrMask (putQIDs w x.1.1) x.1.2) x.2.
Definition getWalkGetAttr : rd (list QID * AttrMask * Attr) :=
  qids ← getQIDs; mask ← getAttrMask; attr ← getAttr; mret (qids, mask, attr).

Lemma putWalkGetAttr_app w x :
  putWalkGetAttr w x = w ++ putQIDs [] x.1.1 ++ putAttrMask [] x.1.2 ++ putAttr [] x.2.
Proof.
  unfold putWalkGetAttr. rewrite (put_app (put := putAttr)), (put_app (put := putAttrMask)),
    (put_app (put := putQIDs) w). by rewrite <- !app_assoc.
Qed.

#[local] Opaque getQIDs getAttrMask getAttr putQIDs putAttrMask putAttr.

(** A WalkGetAttr reply (the QID list, the valid-attribute mask and the
    attributes) decodes to what was encoded with the whole payload consumed,
    and every truncation of it is reported as an error instead of decoding to
    attributes that were never sent. *)
Theorem walkgetattr_roundtrip qids mask attr :
  Forall wf_QID qids -> uN 16 (blen qids) -> wf_Attr attr ->
  let enc := putWalkGetAttr [] (qids, mask, attr) in
  getWalkGetAttr (newMsgR enc) = ((qids, mask, attr), mkMsgR enc (blen enc) None) /\
  forall p rest, enc = p ++ rest -> rest <> [] ->
    r_err (getWalkGetAttr (newMsgR p)).2 <> None.
Proof.
  intros Hq Hn Ha enc. unfold enc. rewrite putWalkGetAttr_app, app_nil_l; cbn [fst snd].
  split.
  - apply decode_all. unfold getWalkGetAttr.
    eapply reads_bind; [by apply (get_put (put := putQIDs))|].
    eapply reads_bind; [by apply (get_put (put := putAttrMask))|].
    apply (reads_last _ (fun a => (qids, mask, a))). by apply (get_put (put := putAttr)).
  - intros p rest Heq Hrest.
    refine ((_ : fails_short getWalkGetAttr _) [] p rest Heq Hrest).
    unfold getWalkGetAttr.
    eapply fails_short_bind; [by apply (get_put (put := putQIDs))|by apply (get_short (put := putQIDs))| |].
    { intros. do 2 (apply sticky_bind; [apply get_sticky|intros ?]). apply sticky_ret. }
    eapply fails_short_bind; [by apply (get_put (put := putAttrMask))|by apply (get_short (put := putAttrMask))| |].
    { intros. apply sticky_bind; [apply get_sticky|intros ?]. apply sticky_ret. }
    eapply (fails_short_last _ (fun a => (qids, mask, a)));
      [by apply (get_put (put := putAttr))|by apply (get_short (put := putAttr))].
Qed.

Lemma walkgetattr_roundtrip_witness :
  let attr := mkAttr 33188 1000 1000 1 0 42 4096 8 1 2 3 4 5 6 7 8 9 10 in
  let mask := mkAttrMask true true false true true true true true true true true true true
                false in
  let enc := putWalkGetAttr [] ([mkQID 128 1 99], mask, attr) in
  getWalkGetAttr (newMsgR enc) = (([mkQID 128 1 99], mask, attr), mkMsgR enc (blen enc) None).
Proof.
  refine (proj1 (walkgetattr_roundtrip [mkQID 128 1 99]
    (mkAttrMask true true false true true true true true true true true true true false)
    (mkAttr 33188 1000 1000 1 0 42 4096 8 1 2 3 4 5 6 7 8 9 10) _ _ _));
  unfold wf_Attr, wf_QID, uN; compute_side.
Defined.

(** ** The handshake of a proxy and a caller on one connection *)

(** What each side's handshake returns when the proxy (client) side starts with
    [lc] and the caller (server) side with [ls]: the server reads what the
    client wrote, and the client reads what the server then wrote (nothing, when
    the server gave up: the connection ends there). *)
Definition handshake (lc ls : helloParams) : res wireErr helloParams * res wireErr helloParams :=
  let wc := (sendHello streamWrite [] lc).1 in
  let '(rs, ws, _) := blockServerHandshake streamWrite [] wc ls in
  let '(rc, _, _) := blockClientHandshake streamWrite [] ws lc in
  (rc, rs).

Definition checkHello (local peer : helloParams) : res wireErr helloParams :=
  if negb (hp_version peer =? hp_version local) then Err ErrVersionMismatch else
  if negb (hp_chunkSize peer =? hp_chunkSize local) then Err ErrChunkSizeMismatch else
  Ok peer.

Lemma blen_marshalHello h : blen (marshalHello h) = 12.
Proof. reflexivity. Qed.

Lemma recvHello_sent lp ll :
  wf_hello lp -> wf_hello ll ->
  recvHello (sendHello streamWrite [] lp).1 ll = (checkHello ll lp, []).
Proof.
  intros Hp Hl. unfold sendHello, writeFrame.
  destruct (readFrame_parts [] (mkFrame opHello flagFinal 0 (marshalHello lp)) [] []
              (hp_chunkSize ll + blockFrameSlack)) as (enc & Hw & Hr).
  - compute_side.
  - simpl f_payload. rewrite blen_marshalHello. destruct Hl as (_ & Hc & _).
    unfold uN in Hc. unfold blockFrameSlack. change (blen []) with 0. lia.
  - simpl f_payload. rewrite blen_marshalHello. compute_side.
  - rewrite Hw. cbn [fst]. rewrite app_nil_l. rewrite app_nil_r in Hr.
    unfold recvHello. rewrite Hr. cbn [f_op f_payload].
    rewrite app_nil_r, unmarshal_marshal by done. unfold checkHello.
    change (opHello =? opHello) with true. cbn [negb].
    repeat case_match; done.
Qed.

Lemma sendHello_ok w h :
  exists enc, sendHello streamWrite w h = (w ++ enc, None).
Proof. unfold sendHello, writeFrame. rewrite streamWrite_parts. eauto. Qed.

Lemma recvHello_nil l : recvHello [] l = (Err EOF, []).
Proof. reflexivity. Qed.

(** The HELLO exchange agrees: when both ends run the same protocol version
    and chunk size, each side returns the other's parameters and both compute
    the same feature set, the bits both advertise; otherwise neither side
    returns a connection, the server with the mismatch it saw and the client
    with the end of the stream. *)
Theorem handshake_agrees lc ls :
  wf_hello lc -> wf_hello ls ->
  (hp_version lc = hp_version ls /\ hp_chunkSize lc = hp_chunkSize ls /\
   handshake lc ls = (Ok ls, Ok lc) /\
   negotiated (hp_features lc) (hp_features ls) = negotiated (hp_features ls) (hp_features lc) /\
   (forall i, Z.testbit (negotiated (hp_features lc) (hp_features ls)) i =
      Z.testbit (hp_features lc) i && Z.testbit (hp_features ls) i)) \/
  (hp_version lc <> hp_version ls /\ handshake lc ls = (Err EOF, Err ErrVersionMismatch)) \/
  (hp_version lc = hp_version ls /\ hp_chunkSize lc <> hp_chunkSize ls /\
   handshake lc ls = (Err EOF, Err ErrChunkSizeMismatch)).
Proof.
  intros Hc Hs. unfold handshake, blockServerHandshake, blockClientHandshake.
  rewrite recvHello_sent by done. unfold checkHello.
  destruct (sendHello_ok [] lc) as [ec Ec]. rewrite Ec.
  destruct (sendHello_ok [] ls) as [es Es].
  pose proof (recvHello_sent ls lc Hs Hc) as Hr. rewrite Es in *. cbn [fst] in Hr.
  unfold checkHello in Hr.
  destruct (Z.eqb_spec (hp_version lc) (hp_version ls)) as [Ev|Ev]; cbn [negb];
    [|right; left; by rewrite recvHello_nil].
  destruct (Z.eqb_spec (hp_chunkSize lc) (hp_chunkSize ls)) as [Ek|Ek]; cbn [negb];
    [left|right; right; by rewrite recvHello_nil].
  rewrite Hr, Ev, Ek, !Z.eqb_refl. cbn [negb].
  repeat split; [apply Z.land_comm|intros i; apply Z.land_spec].
Qed.

Lemma handshake_agrees_witness :
  handshake (mkHello 1 65536 64 5) (mkHello 1 65536 64 13) =
    (Ok (mkHello 1 65536 64 13), Ok (mkHello 1 65536 64 5)).
Proof.
  destruct (handshake_agrees (mkHello 1 65536 64 5) (mkHello 1 65536 64 13))
    as [H|[H|H]]; [unfold wf_hello, uN; compute_side|unfold wf_hello, uN; compute_side| | |].
  - apply H.
  - by destruct H as [H _].
  - by destruct H as [_ [H _]].
Defined.

Lemma hasFlag_testbit f i : 0 <= i -> hasFlag f (2 ^ i) = Z.testbit f i.
Proof.
  intros Hi. unfold hasFlag. destruct (Z.testbit f i) eqn:E.
  - destruct (Z.eqb_spec (Z.land f (2 ^ i)) 0) as [H|H]; [|done].
    assert (Z.testbit (Z.land f (2 ^ i)) i = false) as Hb by (by rewrite H, Z.bits_0).
    rewrite Z.land_spec, E, Z.pow2_bits_true in Hb by lia. done.
  - replace (Z.land f (2 ^ i)) with 0; [done|]. symmetry. apply Z.bits_inj'. intros n Hn.
    rewrite Z.land_spec, Z.bits_0. destruct (Z.eq_dec i n) as [->|Hne].
    + by rewrite E.
    + rewrite Z.pow2_bits_false by lia. by rewrite andb_false_r.
Qed.

(** The bits of a side's resolved options: bit 0 (SubBlockHash) is requested
    or implied by bit 2 (SubBlockFill), bits 1 and 2 are as requested, and no
    other bit is ever set. *)
Definition requested (opts : list BlockOpt) : Z :=
  bo_features (fold_left (fun o opt => opt o) opts (mkBlockOpts 0 0 0 0 false)).

Lemma testbit_supported i :
  0 <= i -> Z.testbit blockSupportedFeatures i = (i <? 3).
Proof. intros Hi. change blockSupportedFeatures with (Z.ones 3). apply Z.testbit_ones_nonneg; lia. Qed.

Lemma testbit_resolved opts i :
  0 <= i ->
  Z.testbit (bo_features (resolveBlockOpts opts)) i =
    (i <? 3) && (Z.testbit (requested opts) i ||
                 ((i =? 0) && Z.testbit (requested opts) 2)).
Proof.
  intros Hi. unfold resolveBlockOpts. cbn [bo_features WithBlockFeatures].
  fold (requested opts). change FeatSubBlockFill with (2 ^ 2).
  rewrite hasFlag_testbit by lia. rewrite Z.land_spec, testbit_supported by lia.
  change (2 <? 3) with true. rewrite andb_true_r.
  destruct (Z.testbit (requested opts) 2); rewrite ?Z.lor_spec, Z.land_spec, testbit_supported by lia.
  - change FeatSubBlockHash with (2 ^ 0). rewrite Z.pow2_bits_eqb by lia.
    destruct (Z.eqb_spec 0 i); [subst; simpl; by rewrite orb_true_r, orb_true_r|].
    destruct (Z.eqb_spec i 0); [lia|]. simpl. rewrite !orb_false_r. apply andb_comm.
  - rewrite andb_false_r, orb_false_r. apply andb_comm.
Qed.

(** Negotiated coherence modes: the features in force on a mount are the
    supported ones both ends requested (SubBlockFill bringing SubBlockHash with
    it), so demand-fill never runs without sub-block hashing; a proxy without a
    cache negotiates exactly FeatNoCache whatever either side requested, and a
    proxy with one never negotiates it. *)
Theorem negotiated_features popts copts noCache :
  let F := negotiated (proxyFeatures popts noCache) (callerFeatures copts) in
  (noCache = true -> F = FeatNoCache) /\
  hasFlag F FeatNoCache = noCache /\
  (hasFlag F FeatSubBlockFill = true -> hasFlag F FeatSubBlockHash = true) /\
  (noCache = false ->
   hasFlag F FeatDeferHash =
     hasFlag (requested popts) FeatDeferHash && hasFlag (requested copts) FeatDeferHash /\
   hasFlag F FeatSubBlockFill =
     hasFlag (requested popts) FeatSubBlockFill && hasFlag (requested copts) FeatSubBlockFill /\
   forall i, 3 <= i -> Z.testbit F i = false).
Proof.
  intros F. subst F. unfold negotiated, proxyFeatures, callerFeatures.
  change FeatNoCache with (2 ^ 3). change FeatSubBlockFill with (2 ^ 2).
  change FeatDeferHash with (2 ^ 1). change FeatSubBlockHash with (2 ^ 0).
  rewrite !hasFlag_testbit, !Z.land_spec, !Z.lor_spec by lia.
  destruct noCache.
  - split; [intros _; apply Z.bits_inj'; intros n Hn|].
    { rewrite Z.land_spec, Z.lor_spec. destruct (Z.testbit (2 ^ 3) n);
        [by rewrite orb_true_r|done]. }
    by rewrite orb_true_r.
  - rewrite !testbit_resolved by lia.
    change (3 <? 3) with false. change (2 <? 3) with true. change (1 <? 3) with true.
    change (0 <? 3) with true. cbn [andb Z.eqb].
    change (Z.testbit (2 ^ 3) 2) with false. change (Z.testbit (2 ^ 3) 1) with false.
    change (Z.testbit (2 ^ 3) 0) with false. rewrite !orb_false_r.
    split; [done|]. split; [done|]. split.
    + destruct (Z.testbit (requested popts) 2), (Z.testbit (requested copts) 2); try done.
      by rewrite !orb_true_r.
    + intros _. split; [done|]. split; [done|]. intros i Hi.
      rewrite Z.land_spec, testbit_resolved by lia.
      by replace (i <? 3) with false by (symmetry; apply Z.ltb_ge; lia).
Qed.
