(* ===== verification/BlockCache.v ===== *)
(** * BlockCache: the file cache (pkg/blockcache/blockcache.go)

    Entry identity ([FileID], [Key]), sub-block spans and presence bitmaps, the
    [Store] interface, and the read path of [Cache].

    The [Store] class has one method per method of the Go interface.  Its
    contract towards the read path is [FillStore]: after a [Put], a whole-chunk
    [Get] answers what was put or what it answered before, never anything else.
    The theorems about [ReadAt] are proved against that contract; [MemStore],
    [DiskStore] and [NullStore] discharge it in their own files.

    [ReadAt] runs in a world: the state [W] of the origin and of the other
    goroutines.  [fetch] is the origin, [others] what other goroutines do to the
    store while this one waits for the singleflight slot or for the origin.
    Loops take fuel, one unit per byte left to read; the theorems show that the
    fuel given is never exhausted.  A caller that waits for a fetch in flight asks the store again here, where the
    code hands it the other's result; an offset plus a length is below 2^63. *)

From Stdlib Require Import ZArith Lia.
From Stdlib.Strings Require Import Byte.
From stdpp Require Import base list gmap.
From S2P Require Import Prelude GoStd.
Open Scope Z_scope.

(** ** Identity of a cache entry *)

Record FileID := mkFileID {
  Mount : bytes; Path : bytes; Size : Z; MTimeNs : Z; Writable : bool }.

Definition NUL : byte := Byte.x00.

(** The bytes [Key] writes to the hash. *)
Definition keyPreimage (id : FileID) : bytes :=
  let size := if Writable id then 0 else Size id in
  let mtime := if Writable id then 0 else MTimeNs id in
  Mount id ++ [NUL] ++ Path id ++ [NUL] ++ formatInt size ++ [NUL] ++
  formatInt mtime ++ [NUL] ++ [if Writable id then Byte.x01 else Byte.x00].

Definition Key (id : FileID) : bytes := hexEncode (sha256 (keyPreimage id)).

(** ** Sub-blocks and presence bitmaps *)

Definition DefaultChunkSize : Z := 1 ≪ 20.
Definition SubBlockSize : Z := 4096.

(** The inclusive sub-block range covering [off, off+length); Go's division
    truncates. *)
Definition subSpan (off length : Z) : Z * Z :=
  if length <=? 0 then (Z.quot off SubBlockSize, Z.quot off SubBlockSize)
  else (Z.quot off SubBlockSize, Z.quot (off + length - 1) SubBlockSize).

Definition bmWords (nSub : Z) : Z := Z.quot (nSub + 63) 64.

(** A bitmap is a slice of 64-bit words. *)
Definition bmSet (bm : list Z) (i : Z) : list Z :=
  let w := Z.quot i 64 in
  if w <? blen bm
  then alter (fun v => Z.lor v (1 ≪ (Z.rem i 64))) (Z.to_nat w) bm
  else bm.

Definition bmGet (bm : list Z) (i : Z) : bool :=
  let w := Z.quot i 64 in
  (0 <=? i) && (w <? blen bm) &&
  negb (Z.land (default 0 (bm !! Z.to_nat w)) (1 ≪ (Z.rem i 64)) =? 0).

(** [for i := first; i <= last; i++] *)
Definition zrange (first last : Z) : list Z := seqZ first (last - first + 1).

Definition bmRangeAllSet (bm : list Z) (first last : Z) : bool :=
  forallb (bmGet bm) (zrange first last).

Definition bmSetRange (bm : list Z) (first last : Z) : list Z :=
  fold_left bmSet (zrange first last) bm.

(** ** The Store interface *)

(** [ErrPanic] is a run-time panic of the call. *)
Inductive ioErr := EOF | ErrNegativeOffset | ErrNotExist | ErrIO (code : Z) | ErrPanic.
#[export] Instance ioErr_eq_dec : EqDecision ioErr.
Proof. solve_decision. Defined.

(** One method per method of the Go interface.  [Get] and [GetSub] are given
    the length of the caller's buffer and answer [Some b] for a hit of
    [blen b] bytes copied into it; [ChunkHash] and [HashRange] answer
    [Some h] for a present chunk. *)
Class Store (S : Type) := {
  st_Get : S -> FileID -> Z -> Z -> res ioErr (option bytes);
  st_GetSub : S -> FileID -> Z -> Z -> Z -> res ioErr (option bytes);
  st_PutSub : S -> FileID -> Z -> Z -> bytes -> S * option ioErr;
  st_Put : S -> FileID -> Z -> bytes -> S * option ioErr;
  st_PutHashed : S -> FileID -> Z -> bytes -> Z -> S * option ioErr;
  st_WriteChunk : S -> FileID -> Z -> Z -> bytes -> Z -> Z -> S * option ioErr;
  st_ChunkHash : S -> FileID -> Z -> res ioErr (option Z);
  st_WriteThrough : S -> FileID -> Z -> Z -> bytes -> Z -> S * option ioErr;
  st_HashRange : S -> FileID -> Z -> Z -> Z -> res ioErr (option Z);
  st_Drop : S -> FileID -> Z -> S * option ioErr;
  st_Resize : S -> FileID -> Z -> S * option ioErr;
  st_Invalidate : S -> FileID -> S * option ioErr;
  st_Rename : S -> FileID -> FileID -> S * option ioErr;
  st_Hint : S -> FileID -> res ioErr (option (Z * Z));
  st_SetHint : S -> FileID -> Z -> Z -> S * option ioErr }.

(** ** The read path *)

Definition New (chunkSize : Z) : Z :=
  if chunkSize <=? 0 then DefaultChunkSize else chunkSize.

Section Cache.
Context {S : Type} `{!Store S} {W : Type}.
Variable fetch : W -> Z -> Z -> W * (bytes * option ioErr).
Variable others : W -> S -> W * S.
Variable chunkSize : Z.

(** [buf] is filled up to [blen acc]; the origin writes into [buf[total:]]. *)
Fixpoint fillLoop (fuel : nat) (w : W) (base len : Z) (acc : bytes)
  : option (W * (bytes * option ioErr)) :=
  if len <=? blen acc then Some (w, (acc, None)) else
  match fuel with
  | O => None
  | Datatypes.S fuel' =>
      let '(w', (b, err)) := fetch w (base + blen acc) (len - blen acc) in
      match err with
      | Some e => Some (w', (acc ++ b, Some e))
      | None =>
          if blen b =? 0 then Some (w', (acc ++ b, Some EOF))
          else fillLoop fuel' w' base len (acc ++ b)
      end
  end.

Definition fillFull (w : W) (base len : Z) : option (W * (bytes * option ioErr)) :=
  fillLoop (Z.to_nat len) w base len [].

Definition storeGet (s : S) (id : FileID) (idx chunkLen : Z) : option bytes :=
  match st_Get s id idx chunkLen with
  | Ok (Some b) => if blen b =? chunkLen then Some b else None
  | _ => None
  end.

Definition chunk (w : W) (s : S) (id : FileID) (idx chunkLen : Z)
  : option (W * S * res ioErr bytes) :=
  match storeGet s id idx chunkLen with
  | Some buf => Some (w, s, Ok buf)
  | None =>
      let '(w1, s1) := others w s in
      match storeGet s1 id idx chunkLen with
      | Some buf => Some (w1, s1, Ok buf)
      | None =>
          match fillFull w1 (idx * chunkSize) chunkLen with
          | None => None
          | Some (w2, (buf, ferr)) =>
              let '(w3, s3) := others w2 s1 in
              match ferr with
              | Some e =>
                  if bool_decide (e = EOF) && (blen buf =? chunkLen)
                  then Some (w3, (st_Put s3 id idx buf).1, Ok buf)
                  else Some (w3, s3, Err e)
              | None => Some (w3, (st_Put s3 id idx buf).1, Ok buf)
              end
          end
      end
  end.

(** The loop of [ReadAt]: [acc] is what has been copied into [p], [plen] its
    length; [stop] is [end]. *)
Fixpoint readLoop (fuel : nat) (w : W) (s : S) (id : FileID) (size plen stop : Z)
    (pos : Z) (acc : bytes) : option (W * S * (bytes * option ioErr)) :=
  let finish w s acc :=
    Some (w, s, (acc, if blen acc <? plen then Some EOF else None)) in
  if stop <=? pos then finish w s acc else
  match fuel with
  | O => None
  | Datatypes.S fuel' =>
      let idx := Z.quot pos chunkSize in
      let chunkStart := idx * chunkSize in
      let chunkLen := if size <? chunkStart + chunkSize then size - chunkStart else chunkSize in
      match chunk w s id idx chunkLen with
      | None => None
      | Some (w1, s1, Err e) =>
          if 0 <? blen acc then Some (w1, s1, (acc, None)) else Some (w1, s1, ([], Some e))
      | Some (w1, s1, Ok data) =>
          let inChunk := pos - chunkStart in
          if blen data <=? inChunk then finish w1 s1 acc else
          let part := take_z (stop - pos) (drop_z inChunk data) in
          if blen part =? 0 then finish w1 s1 acc
          else readLoop fuel' w1 s1 id size plen stop (pos + blen part) (acc ++ part)
      end
  end.

Definition ReadAt (w : W) (s : S) (id : FileID) (size plen off : Z)
  : option (W * S * (bytes * option ioErr)) :=
  if plen =? 0 then Some (w, s, ([], None)) else
  if off <? 0 then Some (w, s, ([], Some ErrNegativeOffset)) else
  if size <=? off then Some (w, s, ([], Some EOF)) else
  let stop := if size <? off + plen then size else off + plen in
  readLoop (Z.to_nat (stop - off)) w s id size plen stop off [].
End Cache.

(** ** Identity *)

Definition nulFree (b : bytes) : Prop := NUL ∉ b.

Lemma nul_split a a' r r' :
  nulFree a -> nulFree a' -> a ++ [NUL] ++ r = a' ++ [NUL] ++ r' -> a = a' /\ r = r'.
Proof.
  revert a'. induction a as [|x a IH]; intros [|y a'] Ha Ha' E; simpl in E.
  - by injection E.
  - injection E as <- _. exfalso. apply Ha'. by left.
  - injection E as -> _. exfalso. apply Ha. by left.
  - injection E as -> E. destruct (IH a') as [-> ->]; [| |done|done].
    + intros H. apply Ha. by right.
    + intros H. apply Ha'. by right.
Qed.

Lemma nulFree_formatInt n : nulFree (formatInt n).
Proof.
  pose proof (formatInt_chars n) as H. intros Hin.
  rewrite forallb_forall in H. apply list_elem_of_In in Hin. apply H in Hin. done.
Qed.

(** Identity of a cache entry: for paths and mount names without NUL bytes,
    and unless SHA-256 collides on the two identities, two files share a cache
    entry exactly when they agree on mount, path and policy and, for read-only
    entries, on size and modification time. *)
Theorem key_identity id id' :
  nulFree (Mount id) -> nulFree (Path id) -> nulFree (Mount id') -> nulFree (Path id') ->
  (sha256 (keyPreimage id) = sha256 (keyPreimage id') -> keyPreimage id = keyPreimage id') ->
  Key id = Key id' <->
  Mount id = Mount id' /\ Path id = Path id' /\ Writable id = Writable id' /\
  (Writable id = false -> Size id = Size id' /\ MTimeNs id = MTimeNs id').
Proof.
  intros Hm Hp Hm' Hp' Hsha. unfold Key. split.
  - intros E%hexEncode_inj%Hsha. unfold keyPreimage in E.
    apply nul_split in E as [-> E]; [|done..].
    apply nul_split in E as [-> E]; [|done..].
    apply nul_split in E as [E1%formatInt_inj E]; [|apply nulFree_formatInt..].
    apply nul_split in E as [E2%formatInt_inj E]; [|apply nulFree_formatInt..].
    destruct (Writable id), (Writable id'); done.
  - intros (E1 & E2 & E3 & E4). do 2 f_equal. unfold keyPreimage.
    rewrite E1, E2, <- E3. destruct (Writable id); [done|].
    by destruct (E4 eq_refl) as [-> ->].
Qed.

Lemma key_identity_witness :
  let a := mkFileID (go "m") (go "a/b") 10 7 false in
  let b := mkFileID (go "m") (go "a/b") 11 7 false in
  Key a <> Key b.
Proof.
  intros a b E.
  apply (key_identity a b) in E as (_ & _ & _ & E).
  - by destruct (E eq_refl) as [E1 _].
  - by apply (bool_decide_unpack _); vm_compute.
  - by apply (bool_decide_unpack _); vm_compute.
  - by apply (bool_decide_unpack _); vm_compute.
  - by apply (bool_decide_unpack _); vm_compute.
  - intros Hs. exfalso. revert Hs. by vm_compute.
Defined.

(** ** Bitmaps *)

Lemma testbit_land_pow2 v i : 0 <= i -> negb (Z.land v (1 ≪ i) =? 0) = Z.testbit v i.
Proof.
  intros Hi. rewrite Z.shiftl_1_l. destruct (Z.testbit v i) eqn:E.
  - apply negb_true_iff, Z.eqb_neq. intros H.
    assert (Hb : Z.testbit (Z.land v (2 ^ i)) i = false) by (by rewrite H, Z.bits_0).
    rewrite Z.land_spec, E, Z.pow2_bits_true in Hb by lia. done.
  - apply negb_false_iff, Z.eqb_eq. apply Z.bits_inj'. intros n Hn.
    rewrite Z.land_spec, Z.bits_0, Z.pow2_bits_eqb by lia.
    destruct (Z.eqb_spec i n) as [->|]; [by rewrite E|by rewrite andb_false_r].
Qed.

Lemma bmGet_spec bm i :
  0 <= i ->
  bmGet bm i = Z.testbit (default 0 (bm !! Z.to_nat (i / 64))) (i mod 64).
Proof.
  intros Hi. unfold bmGet. rewrite Z.quot_div_nonneg, Z.rem_mod_nonneg by lia.
  rewrite testbit_land_pow2 by (apply Z.mod_pos_bound; lia).
  replace (0 <=? i) with true by (symmetry; apply Z.leb_le; lia). simpl.
  destruct (Z.ltb_spec (i / 64) (blen bm)) as [H|H]; [done|].
  rewrite lookup_ge_None_2; [by rewrite Z.bits_0|].
  unfold blen in H. pose proof (Z.div_pos i 64). lia.
Qed.

Lemma bmGet_neg bm i : i < 0 -> bmGet bm i = false.
Proof. intros. unfold bmGet. by replace (0 <=? i) with false by (symmetry; apply Z.leb_gt; lia). Qed.

Lemma length_bmSet bm i : blen (bmSet bm i) = blen bm.
Proof. unfold bmSet, blen. destruct (_ <? _); [|done]. by rewrite length_alter. Qed.

(** [bmSet] sets the addressed bit and no other; a bit past the words is not
    stored. *)
Lemma bmGet_bmSet bm i j :
  0 <= i ->
  bmGet (bmSet bm i) j = ((i =? j) && (i / 64 <? blen bm)) || bmGet bm j.
Proof.
  intros Hi. destruct (Z.ltb_spec j 0) as [Hj|Hj].
  { rewrite !bmGet_neg by done. replace (i =? j) with false by (symmetry; apply Z.eqb_neq; lia). done. }
  rewrite !bmGet_spec by lia. unfold bmSet.
  rewrite Z.quot_div_nonneg, Z.rem_mod_nonneg by lia.
  destruct (Z.ltb_spec (i / 64) (blen bm)) as [Hw|Hw]; [|by rewrite andb_false_r].
  rewrite andb_true_r. pose proof (Z.div_pos i 64). pose proof (Z.div_pos j 64).
  pose proof (Z.mod_pos_bound i 64). pose proof (Z.mod_pos_bound j 64).
  destruct (Z.eq_dec (i / 64) (j / 64)) as [E|E].
  - rewrite E, list_lookup_alter.
    destruct (lookup_lt_is_Some_2 bm (Z.to_nat (j / 64))) as [v Hv];
      [unfold blen in Hw; lia|].
    rewrite Hv, decide_True by done. simpl. rewrite Z.lor_spec, Z.shiftl_1_l, Z.pow2_bits_eqb by lia.
    rewrite orb_comm. f_equal.
    destruct (Z.eqb_spec (i mod 64) (j mod 64)), (Z.eqb_spec i j); try done; exfalso;
      pose proof (Z.div_mod i 64); pose proof (Z.div_mod j 64); subst; lia.
  - rewrite list_lookup_alter_ne by lia.
    destruct (Z.eqb_spec i j); [by subst|]. done.
Qed.

Lemma elem_of_zrange a b i : i ∈ zrange a b <-> a <= i <= b.
Proof. unfold zrange. rewrite elem_of_seqZ. lia. Qed.

Lemma length_bmSetRange bm a b : blen (bmSetRange bm a b) = blen bm.
Proof.
  unfold bmSetRange. generalize (zrange a b) as l. intros l. revert bm.
  induction l as [|i l IH]; intros bm; [done|]. simpl. by rewrite IH, length_bmSet.
Qed.

Lemma bmGet_bmSetRange bm a b j :
  0 <= a -> b / 64 < blen bm ->
  bmGet (bmSetRange bm a b) j = ((a <=? j) && (j <=? b)) || bmGet bm j.
Proof.
  intros Ha Hb. unfold bmSetRange.
  transitivity (bool_decide (j ∈ zrange a b) || bmGet bm j).
  2:{ f_equal. case_bool_decide as H; rewrite elem_of_zrange in H; symmetry.
      - apply andb_true_iff. rewrite !Z.leb_le. lia.
      - apply andb_false_iff. rewrite !Z.leb_gt. lia. }
  assert (Hl : forall i, i ∈ zrange a b -> 0 <= i /\ i / 64 < blen bm).
  { intros i Hi%elem_of_zrange. split; [lia|].
    pose proof (Z.div_le_mono i b 64). lia. }
  revert Hl. clear Hb. generalize (zrange a b) as l. intros l. revert bm.
  induction l as [|i l IH]; intros bm Hl; [done|]. simpl.
  destruct (Hl i) as [Hi Hiw]; [by left|].
  rewrite IH by (intros k Hk; rewrite length_bmSet; apply Hl; by right).
  rewrite bmGet_bmSet by done.
  replace (i / 64 <? blen bm) with true by (symmetry; apply Z.ltb_lt; lia).
  rewrite andb_true_r, orb_assoc. f_equal.
  destruct (Z.eqb_spec i j) as [->|Hne].
  - rewrite orb_true_r. symmetry. apply bool_decide_eq_true. by left.
  - rewrite orb_false_r. apply bool_decide_ext. rewrite elem_of_cons.
    intuition congruence.
Qed.

Lemma bmRangeAllSet_spec bm a b :
  bmRangeAllSet bm a b = true <-> forall i, a <= i <= b -> bmGet bm i = true.
Proof.
  unfold bmRangeAllSet. rewrite forallb_forall. split; intros H i Hi; apply H.
  - by apply list_elem_of_In, elem_of_zrange.
  - by apply elem_of_zrange, list_elem_of_In.
Qed.

(** [subSpan] on nonnegative offsets is the range of sub-blocks that overlap. *)
Lemma subSpan_pos off len :
  0 <= off -> 0 < len ->
  subSpan off len = (off / SubBlockSize, (off + len - 1) / SubBlockSize).
Proof.
  intros. unfold subSpan, SubBlockSize.
  replace (len <=? 0) with false by (symmetry; apply Z.leb_gt; lia).
  by rewrite !Z.quot_div_nonneg by lia.
Qed.

(** ** The contract of a store towards the read path *)

(** The valid length of chunk [idx] of a file of [size] bytes. *)
Definition validLen (cs size idx : Z) : Z :=
  if size <? idx * cs + cs then size - idx * cs else cs.

(** A read-only identity: [ident] gives the size and modification time a key
    stands for. *)
Definition okID (ident : bytes -> Z * Z) (id : FileID) : Prop :=
  Writable id = false /\ (Size id, MTimeNs id) = ident (Key id).

(** After a [Put] of a chunk, a whole-chunk [Get] answers that chunk or what it
    answered before: a store never invents bytes.  (When the chunk was already
    served and the [Put] fails halfway the two may be mixed, which is the same
    chunk if they agree.)  [Inv] is the store's own invariant. *)
Class FillStore (S : Type) `{!Store S} (cs : Z) (ident : bytes -> Z * Z) (Inv : S -> Prop)
  : Prop := {
  fill_inv s id idx d :
    Inv s -> okID ident id -> 0 <= idx -> 0 < blen d ->
    blen d = validLen cs (Size id) idx -> Inv (st_Put s id idx d).1;
  fill_get s id idx d id' idx' b :
    Inv s -> okID ident id -> okID ident id' -> 0 <= idx -> 0 <= idx' ->
    0 < blen d -> blen d = validLen cs (Size id) idx ->
    0 < validLen cs (Size id') idx' ->
    st_Get (st_Put s id idx d).1 id' idx' (validLen cs (Size id') idx') = Ok (Some b) ->
    blen b = validLen cs (Size id') idx' ->
    (Key id' = Key id /\ idx' = idx /\
     ((forall b0, st_Get s id' idx' (validLen cs (Size id') idx') = Ok (Some b0) ->
                  blen b0 = validLen cs (Size id') idx' -> b0 = d) -> b = d)) \/
    st_Get s id' idx' (validLen cs (Size id') idx') = Ok (Some b) }.

Section ReadPath.
Context {S : Type} `{!Store S} {W : Type}.
Variable fetch : W -> Z -> Z -> W * (bytes * option ioErr).
Variable others : W -> S -> W * S.
Variable cs : Z.
Hypothesis cs_pos : 0 < cs.
Variable ident : bytes -> Z * Z.
Variable Inv : S -> Prop.
Context `{!FillStore S cs ident Inv}.

(** The origin's bytes of each entry. *)
Variable origin : bytes -> bytes.

(** A read-only identity whose recorded size is the origin's. *)
Definition cached (id : FileID) : Prop :=
  okID ident id /\ Size id = blen (origin (Key id)).

(** Whatever the store serves for such an identity is the origin's bytes. *)
Definition coherent (s : S) : Prop :=
  Inv s /\ forall id idx b,
    cached id -> 0 <= idx -> 0 < validLen cs (Size id) idx ->
    st_Get s id idx (validLen cs (Size id) idx) = Ok (Some b) ->
    blen b = validLen cs (Size id) idx ->
    b = sub_z (idx * cs) (blen b) (origin (Key id)).

Variable id : FileID.
Hypothesis id_cached : cached id.
Hypothesis others_coherent : forall w s, coherent s -> coherent (others w s).2.
(** The origin answers a prefix of what was asked, or fails. *)
Hypothesis fetch_sound : forall w off n,
  0 <= off -> 0 < n -> off + n <= Size id ->
  let b := (fetch w off n).2.1 in
  blen b <= n /\ b = sub_z off (blen b) (origin (Key id)).

(** The origin makes progress: a read inside the file returns data without an
    error, or all of it with EOF. *)
Definition healthy : Prop := forall w off n,
  0 <= off -> 0 < n -> off + n <= Size id ->
  let '(b, err) := (fetch w off n).2 in
  (err = None /\ 0 < blen b) \/ (err = Some EOF /\ blen b = n).

Let content := origin (Key id).

Lemma fillLoop_ok fuel w base len acc :
  0 <= base -> base + len <= Size id -> blen acc <= len ->
  len - blen acc <= Z.of_nat fuel ->
  acc = sub_z base (blen acc) content ->
  exists w' b err, fillLoop fetch fuel w base len acc = Some (w', (b, err)) /\
    b = sub_z base (blen b) content /\ blen b <= len /\ (err = None -> blen b = len) /\
    (healthy -> blen b = len /\ (err = None \/ err = Some EOF)).
Proof.
  revert w acc. induction fuel as [|fuel IH]; intros w acc Hb Hs Hl Hf Hacc; simpl.
  - destruct (Z.leb_spec len (blen acc)); [|lia].
    exists w, acc, None. split_and!; try done; try lia. intros _. split; [lia|by left].
  - destruct (Z.leb_spec len (blen acc)).
    { exists w, acc, None. split_and!; try done; try lia. intros _. split; [lia|by left]. }
    pose proof (blen_nonneg acc).
    destruct (fetch_sound w (base + blen acc) (len - blen acc)) as [Hn Hsub]; [lia..|].
    assert (Hh : healthy -> let '(b, err) := (fetch w (base + blen acc) (len - blen acc)).2 in
      (err = None /\ 0 < blen b) \/ (err = Some EOF /\ blen b = len - blen acc))
      by (intros Hh; apply Hh; lia).
    destruct (fetch w (base + blen acc) (len - blen acc)) as [w' [b err]]. simpl in Hn, Hsub, Hh.
    pose proof (sub_z_snoc acc base b content Hb Hacc Hsub) as Happ.
    pose proof (blen_nonneg b). assert (Hab : blen (acc ++ b) <= len) by (rewrite blen_app; lia).
    destruct err as [e|].
    + exists w', (acc ++ b), (Some e). split_and!; try done.
      intros [[? ?]|[[= ->] ?]]%Hh; [done|]. rewrite blen_app. split; [lia|by right].
    + destruct (Z.eqb_spec (blen b) 0).
      { exists w', (acc ++ b), (Some EOF). split_and!; try done.
        intros [[_ ?]|[? ?]]%Hh; [lia|done]. }
      apply IH; try done; rewrite blen_app; lia.
Qed.
Lemma validLen_pos idx : 0 <= idx -> idx * cs < Size id -> 0 < validLen cs (Size id) idx.
Proof. intros. unfold validLen. split_if; zcase. Qed.

Lemma validLen_bound size idx : idx * cs + validLen cs size idx <= size /\ validLen cs size idx <= cs.
Proof. unfold validLen. split_if; zcase. Qed.

Lemma storeGet_some s idx b :
  storeGet s id idx (validLen cs (Size id) idx) = Some b ->
  st_Get s id idx (validLen cs (Size id) idx) = Ok (Some b) /\
  blen b = validLen cs (Size id) idx.
Proof.
  unfold storeGet. destruct (st_Get _ _ _ _) as [[b'|]|] eqn:E; try done.
  destruct (Z.eqb_spec (blen b') (validLen cs (Size id) idx)); [|done].
  intros [= ->]. done.
Qed.

Lemma coherent_serves s idx b :
  coherent s -> 0 <= idx -> 0 < validLen cs (Size id) idx ->
  storeGet s id idx (validLen cs (Size id) idx) = Some b ->
  b = sub_z (idx * cs) (validLen cs (Size id) idx) content.
Proof.
  intros [_ Hc] Hi Hv [Hg Hb]%storeGet_some. rewrite <- Hb. by eapply Hc.
Qed.

(** Putting the origin's bytes keeps the store coherent. *)
Lemma coherent_put s idx b :
  coherent s -> 0 <= idx -> 0 < validLen cs (Size id) idx ->
  b = sub_z (idx * cs) (blen b) content -> blen b = validLen cs (Size id) idx ->
  coherent (st_Put s id idx b).1.
Proof.
  intros [Hi Hc] Hx Hv Hb Hl. destruct id_cached as [Hw Hsz].
  split; [by apply (fill_inv (cs := cs) (ident := ident)); [..|lia|]|].
  intros id' idx' b' Hid' Hx' Hv' Hg Hb'. pose proof Hid' as [Hw' Hsz'].
  edestruct (fill_get (cs := cs) (ident := ident) (Inv := Inv) s id idx b id' idx' b')
    as [(Hk & -> & Heq)|Hold]; try done; [lia| |by eapply Hc].
  assert (Size id' = Size id) as Hsize by congruence.
  assert (b' = b) as ->; [|by rewrite Hk].
  apply Heq. intros b0 H0 Hl0. rewrite (Hc id' idx b0 Hid' Hx' Hv' H0 Hl0), Hb, Hl, Hl0, Hk, Hsize.
  done.
Qed.

Lemma chunk_ok w s idx :
  coherent s -> 0 <= idx -> idx * cs < Size id ->
  exists w' s' r, chunk fetch others cs w s id idx (validLen cs (Size id) idx) = Some (w', s', r) /\
    coherent s' /\
    (forall d, r = Ok d -> d = sub_z (idx * cs) (validLen cs (Size id) idx) content) /\
    (healthy -> exists d, r = Ok d).
Proof.
  intros Hs Hi Hlt. pose proof (validLen_pos idx Hi Hlt) as Hv.
  destruct (validLen_bound (Size id) idx) as [Hv1 Hv2].
  unfold chunk. destruct (storeGet s id idx _) as [b|] eqn:E0.
  { eexists _, _, _. split_and!; [done|done| |by eauto].
    intros d [= <-]. by eapply coherent_serves. }
  pose proof (others_coherent w s Hs) as Hs1. destruct (others w s) as [w1 s1]. simpl in Hs1.
  destruct (storeGet s1 id idx _) as [b|] eqn:E1.
  { eexists _, _, _. split_and!; [done|done| |by eauto].
    intros d [= <-]. by eapply coherent_serves. }
  unfold fillFull.
  destruct (fillLoop_ok (Z.to_nat (validLen cs (Size id) idx)) w1 (idx * cs)
    (validLen cs (Size id) idx) []) as (w2 & b & err & Hfill & Hb & Hle & Hfull & Hh);
    [lia|lia|change (blen []) with 0; lia|change (blen []) with 0; lia|done|].
  rewrite Hfill.
  pose proof (others_coherent w2 s1 Hs1) as Hs3. destruct (others w2 s1) as [w3 s3]. simpl in Hs3.
  assert (Hput : blen b = validLen cs (Size id) idx ->
    coherent (st_Put s3 id idx b).1 /\
    (forall d, Ok b = @Ok ioErr _ d -> d = sub_z (idx * cs) (validLen cs (Size id) idx) content) /\
    (healthy -> exists d, @Ok ioErr _ b = Ok d)).
  { intros Hl. split_and!; [by apply coherent_put| |by eauto].
    intros d [= <-]. by rewrite <- Hl. }
  destruct err as [e|]; [|eexists _, _, _; split; [done|]; by apply Hput, Hfull].
  destruct (bool_decide (e = EOF) && (blen b =? validLen cs (Size id) idx)) eqn:Ec.
  - eexists _, _, _; split; [done|]. apply Hput. zbool. done.
  - eexists _, _, _; split_and!; [done|done|by intros ? [=]|].
    intros [Hl [?|[= ->]]]%Hh; [done|]. rewrite Hl, Z.eqb_refl in Ec. done.
Qed.
(** The part of chunk data copied at [pos] is the file's bytes from [pos] on. *)
Lemma chunk_part idx pos stop :
  0 <= idx -> idx * cs <= pos < idx * cs + validLen cs (Size id) idx -> pos < stop <= Size id ->
  let part := take_z (stop - pos) (drop_z (pos - idx * cs)
                (sub_z (idx * cs) (validLen cs (Size id) idx) content)) in
  part = sub_z pos (blen part) content /\ 0 < blen part <= stop - pos.
Proof.
  intros Hi Hp Hs part. destruct (validLen_bound (Size id) idx) as [Hv1 Hv2].
  destruct id_cached as [_ Hsz]. fold content in Hsz.
  assert (Hlen : blen part = Z.min (stop - pos) (idx * cs + validLen cs (Size id) idx - pos)).
  { unfold part. rewrite blen_take_z, blen_drop_z, blen_sub_z by lia. lia. }
  split; [|lia]. apply list_eq_lookup_z; [rewrite blen_sub_z; lia|].
  intros i Hlt. rewrite lookup_sub_z by lia. unfold part.
  rewrite lookup_take_z, lookup_drop_z, lookup_sub_z by lia. f_equal. lia.
Qed.

Lemma readLoop_ok fuel w s plen stop off pos acc :
  coherent s -> 0 <= off -> pos = off + blen acc -> pos <= stop <= Size id ->
  stop <= off + plen -> stop - pos <= Z.of_nat fuel ->
  acc = sub_z off (blen acc) content ->
  exists w' s' b err,
    readLoop fetch others cs fuel w s id (Size id) plen stop pos acc = Some (w', s', (b, err)) /\
    coherent s' /\ b = sub_z off (blen b) content /\ blen b <= stop - off /\
    (healthy -> blen b = stop - off /\ err = if stop - off <? plen then Some EOF else None).
Proof.
  revert w s pos acc. induction fuel as [|fuel IH]; intros w s pos acc Hs Ho Hpos Hstop Hpl Hf Hacc;
    cbn [readLoop]; pose proof (blen_nonneg acc).
  { destruct (Z.leb_spec stop pos); [|lia].
    eexists _, _, _, _. split_and!; [done|done|done|lia|].
    intros _. replace (blen acc) with (stop - off) by lia. done. }
  destruct (Z.leb_spec stop pos).
  { eexists _, _, _, _. split_and!; [done|done|done|lia|].
    intros _. replace (blen acc) with (stop - off) by lia. done. }
  rewrite Z.quot_div_nonneg by lia. set (idx := pos / cs).
  assert (Hidx : 0 <= idx) by (apply Z.div_pos; lia).
  pose proof (Z.mul_div_le pos cs cs_pos) as Hm1.
  pose proof (Z.mul_succ_div_gt pos cs cs_pos) as Hm2. fold idx in Hm1, Hm2.
  change (if Size id <? idx * cs + cs then Size id - idx * cs else cs)
    with (validLen cs (Size id) idx).
  destruct (chunk_ok w s idx) as (w1 & s1 & r & -> & Hs1 & Hd & Hh); [done|done|lia|].
  destruct r as [data|e].
  2:{ destruct (0 <? blen acc) eqn:E; eexists _, _, _, _;
        (split_and!; [done|done|done|simpl; try change (blen []) with 0; lia|]);
        intros [d [=]]%Hh. }
  specialize (Hd data eq_refl). subst data.
  assert (Hv : pos < idx * cs + validLen cs (Size id) idx)
    by (unfold validLen; split_if; zcase).
  destruct (chunk_part idx pos stop) as [Hpart Hplen]; [done|lia|lia|].
  set (part := take_z _ _) in *.
  replace (blen (sub_z (idx * cs) (validLen cs (Size id) idx) content) <=? pos - idx * cs)
    with false; cycle 1.
  { symmetry. apply Z.leb_gt. destruct id_cached as [_ Hsz].
    destruct (validLen_bound (Size id) idx). fold content in Hsz.
    rewrite blen_sub_z; lia. }
  destruct (Z.eqb_spec (blen part) 0); [lia|].
  apply IH; try done; try (rewrite ?blen_app; lia).
  apply sub_z_snoc; [done|done|]. by rewrite <- Hpos.
Qed.

Lemma ReadAt_ok w s plen off :
  coherent s -> 0 <= plen ->
  exists w' s' b err,
    ReadAt fetch others cs w s id (Size id) plen off = Some (w', s', (b, err)) /\
    coherent s' /\ blen b <= plen /\
    (b <> [] -> 0 <= off /\ b = sub_z off (blen b) content) /\
    (healthy ->
       if plen =? 0 then b = [] /\ err = None
       else if off <? 0 then b = [] /\ err = Some ErrNegativeOffset
       else if Size id <=? off then b = [] /\ err = Some EOF
       else b = sub_z off (Z.min plen (Size id - off)) content /\
            err = if Size id <? off + plen then Some EOF else None).
Proof.
  intros Hs Hp. unfold ReadAt.
  destruct (Z.eqb_spec plen 0); [eexists _, _, _, _; by split_and!|].
  destruct (Z.ltb_spec off 0); [eexists _, _, _, _; by split_and!|].
  destruct (Z.leb_spec (Size id) off); [eexists _, _, _, _; by split_and!|].
  set (stop := if Size id <? off + plen then Size id else off + plen).
  assert (Hstop : stop = Z.min (Size id) (off + plen)) by (unfold stop; split_if; zcase).
  destruct (readLoop_ok (Z.to_nat (stop - off)) w s plen stop off off [])
    as (w' & s' & b & err & Hr & Hs' & Hb & Hle & Hh);
    [done|done|change (blen []) with 0; lia|lia|lia|lia|done|].
  eexists _, _, _, _. split_and!; [done|done|lia|done|].
  intros [Hl ->]%Hh. split; [rewrite Hb at 1; f_equal; lia|].
  destruct (Z.ltb_spec (stop - off) plen), (Z.ltb_spec (Size id) (off + plen)); done || lia.
Qed.

(** C26. Reads are sound: over any store that keeps its contract and holds only
    the origin's bytes, while other goroutines fill it, [ReadAt] returns, every
    byte it returns is the file's byte at that offset, it never returns more
    than was asked, and the store still holds only the origin's bytes; even when
    the origin fails or ends early at any point. *)
Theorem ReadAt_sound w s plen off :
  coherent s -> 0 <= plen ->
  exists w' s' b err,
    ReadAt fetch others cs w s id (Size id) plen off = Some (w', s', (b, err)) /\
    coherent s' /\ blen b <= plen /\
    (b <> [] -> 0 <= off /\ b = sub_z off (blen b) (origin (Key id))).
Proof.
  intros Hs Hp. destruct (ReadAt_ok w s plen off Hs Hp) as (?&?&?&?&?&?&?&?&_). eauto 10.
Qed.

(** C34. Reads are complete: from an origin that makes progress, [ReadAt] returns
    exactly the bytes of the file in the requested range, clipped at the end of
    the file, with EOF exactly when the range reaches past the end; a negative
    offset is an error and an empty request returns at once. *)
Theorem ReadAt_complete w s plen off :
  coherent s -> 0 <= plen -> healthy ->
  exists w' s' b err,
    ReadAt fetch others cs w s id (Size id) plen off = Some (w', s', (b, err)) /\
    if plen =? 0 then b = [] /\ err = None
    else if off <? 0 then b = [] /\ err = Some ErrNegativeOffset
    else if Size id <=? off then b = [] /\ err = Some EOF
    else b = sub_z off (Z.min plen (Size id - off)) (origin (Key id)) /\
         err = if Size id <? off + plen then Some EOF else None.
Proof.
  intros Hs Hp Hh. destruct (ReadAt_ok w s plen off Hs Hp) as (w'&s'&b&err&Hr&_&_&_&H).
  exists w', s', b, err. split; [done|]. by apply H.
Qed.
End ReadPath.
