(* ===== verification/MemStore.v ===== *)
(** * MemStore: the in-memory store (pkg/blockcache/memstore.go) and the store
    that retains nothing (pkg/blockcache/nullstore.go)

    A cached chunk is a Go slice: a backing array and a length, so that the
    in-place read-modify-write of [WriteChunk] and [WriteThrough], which
    reslices up to the capacity and clears what it exposes, is modelled as it is
    written.  The map of entries is keyed by [Key].  The mutex makes every
    method atomic; a method is a function on the whole store.  [hashChunk]
    (xxh3, a third-party package) is a parameter. *)

From Stdlib Require Import ZArith Lia.
From Stdlib.Strings Require Import Byte.
From stdpp Require Import base list gmap.
From S2P Require Import Prelude GoStd BlockCache.
Open Scope Z_scope.

(** ** Slices with a capacity *)

Record slice := mkSlice { s_arr : bytes; s_len : Z }.

Definition s_data (b : slice) : bytes := take_z (s_len b) (s_arr b).
Definition s_cap (b : slice) : Z := blen (s_arr b).

(** [make([]byte, len, cap)]; panics when [cap < len]. *)
Definition makeSlice (len cap : Z) : option slice :=
  if cap <? len then None else Some (mkSlice (zeros cap) len).

(** [b[:n]] within the capacity. *)
Definition reslice (b : slice) (n : Z) : slice := mkSlice (s_arr b) n.

(** [clear(b[lo:hi])] *)
Definition s_clear (b : slice) (lo hi : Z) : slice :=
  mkSlice (copy_at (s_arr b) lo (zeros (hi - lo))) (s_len b).

(** [copy(b[off:], data)] *)
Definition s_copy (b : slice) (off : Z) (data : bytes) : slice :=
  mkSlice (copy_at (s_arr b) off (take_z (s_len b - off) data)) (s_len b).

(** ** State *)

Record memEntry := mkMemEntry {
  curSize : Z;
  chunks : gmap Z slice;
  present : gmap Z (list Z);
  hashes : gmap Z Z;
  hintSet : bool; hintSize : Z; hintMTime : Z }.

Definition newMemEntry : memEntry := mkMemEntry 0 ∅ ∅ ∅ false 0 0.

Record MemStore := mkMemStore { m_chunkSize : Z; files : gmap bytes memEntry }.

Definition NewMemStore (chunkSize : Z) : MemStore :=
  mkMemStore (if chunkSize <=? 0 then DefaultChunkSize else chunkSize) ∅.

Definition hasChunk (e : memEntry) (idx : Z) : bool := bool_decide (is_Some (chunks e !! idx)).

Definition rangePresent (e : memEntry) (idx off length : Z) : bool :=
  match chunks e !! idx with
  | None => false
  | Some _ =>
      match present e !! idx with
      | None => true
      | Some bm => let '(first, last) := subSpan off length in bmRangeAllSet bm first last
      end
  end.

Definition m_subsPerChunk (m : MemStore) : Z :=
  Z.quot (m_chunkSize m + SubBlockSize - 1) SubBlockSize.

(** [entry(id, true)]: the entry, created if absent; the callers write it back
    with [putEntry]. *)
Definition entry (m : MemStore) (id : FileID) : memEntry :=
  default newMemEntry (files m !! Key id).

Definition putEntry (m : MemStore) (id : FileID) (e : memEntry) : MemStore :=
  mkMemStore (m_chunkSize m) (<[Key id := e]> (files m)).

Definition set_chunk (idx : Z) (b : slice) (e : memEntry) : memEntry :=
  mkMemEntry (curSize e) (<[idx := b]> (chunks e)) (present e) (hashes e)
    (hintSet e) (hintSize e) (hintMTime e).
Definition set_present (idx : Z) (bm : option (list Z)) (e : memEntry) : memEntry :=
  mkMemEntry (curSize e) (chunks e) (partial_alter (fun _ => bm) idx (present e)) (hashes e)
    (hintSet e) (hintSize e) (hintMTime e).
Definition set_hash (idx : Z) (h : Z) (e : memEntry) : memEntry :=
  mkMemEntry (curSize e) (chunks e) (present e) (<[idx := h]> (hashes e))
    (hintSet e) (hintSize e) (hintMTime e).
Definition set_curSize (v : Z) (e : memEntry) : memEntry :=
  mkMemEntry v (chunks e) (present e) (hashes e) (hintSet e) (hintSize e) (hintMTime e).
(** [delete(e.chunks, idx); delete(e.hashes, idx)] *)
Definition del_chunk_hash (idx : Z) (e : memEntry) : memEntry :=
  mkMemEntry (curSize e) (delete idx (chunks e)) (present e) (delete idx (hashes e))
    (hintSet e) (hintSize e) (hintMTime e).
(** The three deletions of [Drop]. *)
Definition del_chunk (idx : Z) (e : memEntry) : memEntry :=
  mkMemEntry (curSize e) (delete idx (chunks e)) (delete idx (present e)) (delete idx (hashes e))
    (hintSet e) (hintSize e) (hintMTime e).

(** [if end > e.curSize { e.curSize = end }] *)
Definition growTo (stop : Z) (e : memEntry) : memEntry :=
  if curSize e <? stop then set_curSize stop e else e.

(** ** Operations *)

(** The buffer [PutSub] copies into: [need] bytes at least, with what lies
    between the old length and [subOff] zeroed. *)
Definition growBuf (chunkSize : Z) (cur : option slice) (subOff need : Z) : option slice :=
  match cur with
  | None => makeSlice need chunkSize
  | Some buf =>
      if s_len buf <? need then
        if need <=? s_cap buf then
          let old := s_len buf in
          let buf' := reslice buf need in
          Some (if old <? subOff then s_clear buf' old subOff else buf')
        else
          nb ← makeSlice need chunkSize;
          Some (s_copy nb 0 (s_data buf))
      else Some buf
  end.

(** The in-place read-modify-write of [WriteChunk]: reslice to the valid length,
    clear what that exposes, overlay. *)
Definition rmwInPlace (cur : slice) (chunkOff : Z) (data : bytes) (chunkLen : Z) : slice :=
  let cur1 := reslice cur chunkLen in
  let cur2 := if s_len cur <? chunkLen then s_clear cur1 (s_len cur) chunkLen else cur1 in
  s_copy cur2 chunkOff data.

(** The in-place splice of [WriteThrough]: grow to the written extent, clear the
    gap before the data, overlay. *)
Definition spliceInPlace (cur : slice) (chunkOff : Z) (data : bytes) : slice :=
  let want := chunkOff + blen data in
  let cur1 :=
    if s_len cur <? want then
      let c := reslice cur want in
      if s_len cur <? chunkOff then s_clear c (s_len cur) chunkOff else c
    else cur in
  s_copy cur1 chunkOff data.

Section Ops.
Variable hashChunk : bytes -> Z.

Definition MemStore_Get (m : MemStore) (id : FileID) (idx n : Z) : res ioErr (option bytes) :=
  match files m !! Key id with
  | None => Ok None
  | Some e =>
      match chunks e !! idx with
      | None => Ok None
      | Some data =>
          match present e !! idx with
          | Some _ => Ok None
          | None => Ok (Some (take_z n (s_data data)))
          end
      end
  end.

Definition MemStore_GetSub (m : MemStore) (id : FileID) (idx subOff n : Z)
  : res ioErr (option bytes) :=
  match files m !! Key id with
  | None => Ok None
  | Some e =>
      match chunks e !! idx with
      | None => Ok None
      | Some data =>
          if negb (rangePresent e idx subOff n) then Ok None
          else if s_len data <? subOff + n then Ok None
          else Ok (Some (take_z n (drop_z subOff (s_data data))))
      end
  end.

Definition MemStore_PutSub (m : MemStore) (id : FileID) (idx subOff : Z) (data : bytes)
  : MemStore * option ioErr :=
  let e := entry m id in
  let need := subOff + blen data in
  let wasFull := match chunks e !! idx, present e !! idx with
                 | Some _, None => true | _, _ => false end in
  match growBuf (m_chunkSize m) (chunks e !! idx) subOff need with
  | None => (putEntry m id e, Some ErrPanic)
  | Some buf =>
      let e1 := set_chunk idx (s_copy buf subOff data) e in
      let e2 :=
        if wasFull then e1
        else
          let bm := default (repeat 0 (Z.to_nat (bmWords (m_subsPerChunk m)))) (present e1 !! idx) in
          let '(first, last) := subSpan subOff (blen data) in
          set_present idx (Some (bmSetRange bm first last)) e1 in
      (putEntry m id (growTo need e2), None)
  end.

Definition cloneChunk (m : MemStore) (data : bytes) : slice :=
  let c := if m_chunkSize m <? blen data then blen data else m_chunkSize m in
  s_copy (mkSlice (zeros c) (blen data)) 0 data.

Definition MemStore_PutHashed (m : MemStore) (id : FileID) (idx : Z) (data : bytes) (hash : Z)
  : MemStore * option ioErr :=
  let cp := cloneChunk m data in
  let e := entry m id in
  let e1 := set_hash idx hash (set_present idx None (set_chunk idx cp e)) in
  (putEntry m id (growTo (idx * m_chunkSize m + blen data) e1), None).

Definition MemStore_Put (m : MemStore) (id : FileID) (idx : Z) (data : bytes)
  : MemStore * option ioErr :=
  MemStore_PutHashed m id idx data (hashChunk data).

(** [e == nil || !hasChunk(e, idx)] *)
Definition chunkAbsent (m : MemStore) (id : FileID) (idx : Z) : bool :=
  match files m !! Key id with None => true | Some e => negb (hasChunk e idx) end.

(** Record a self-verified read-modify-write, or drop the chunk. *)
Definition verifyChunk (idx : Z) (cur : slice) (callerHash : Z) (e : memEntry) : memEntry :=
  if hashChunk (s_data cur) =? callerHash
  then set_hash idx callerHash (set_chunk idx cur e)
  else del_chunk_hash idx e.

Definition MemStore_WriteChunk (m : MemStore) (id : FileID) (idx chunkOff : Z) (data : bytes)
    (chunkLen callerHash : Z) : MemStore * option ioErr :=
  let full := (chunkOff =? 0) && (blen data =? chunkLen) in
  if negb full && chunkAbsent m id idx then (m, None) else
  let e := entry m id in
  let e1 := growTo (idx * m_chunkSize m + chunkOff + blen data) e in
  if full then
    (putEntry m id (set_hash idx callerHash (set_present idx None
                      (set_chunk idx (cloneChunk m data) e1))), None)
  else
    match chunks e !! idx with
    | None => (putEntry m id e, None)
    | Some cur =>
        if (chunkLen <=? s_cap cur) && (chunkOff + blen data <=? chunkLen) then
          let cur' := rmwInPlace cur chunkOff data chunkLen in
          (putEntry m id (verifyChunk idx cur' callerHash e1), None)
        else
          match makeSlice chunkLen (m_chunkSize m) with
          | None => (putEntry m id e1, Some ErrPanic)
          | Some merged =>
              if chunkLen <? chunkOff then (putEntry m id e1, Some ErrPanic) else
              let merged1 := s_copy (s_copy merged 0 (s_data cur)) chunkOff data in
              (putEntry m id (verifyChunk idx merged1 callerHash e1), None)
          end
    end.

Definition MemStore_WriteThrough (m : MemStore) (id : FileID) (idx chunkOff : Z) (data : bytes)
    (chunkLen : Z) : MemStore * option ioErr :=
  let full := (chunkOff =? 0) && (blen data =? chunkLen) in
  if negb full && chunkAbsent m id idx then (m, None) else
  let e1 := growTo (idx * m_chunkSize m + chunkOff + blen data) (entry m id) in
  if full then
    (putEntry m id (set_hash idx 0 (set_present idx None
                      (set_chunk idx (cloneChunk m data) e1))), None)
  else
    let cur := default (mkSlice [] 0) (chunks e1 !! idx) in
    let want := chunkOff + blen data in
    let spliced :=
      if want <=? s_cap cur then
        Some (spliceInPlace cur chunkOff data)
      else
        merged ← makeSlice want (m_chunkSize m);
        Some (s_copy (s_copy merged 0 (s_data cur)) chunkOff data) in
    match spliced with
    | None => (putEntry m id e1, Some ErrPanic)
    | Some cur' =>
        let e2 := set_hash idx 0 (set_chunk idx cur' e1) in
        let e3 :=
          match present e2 !! idx with
          | None => e2
          | Some bm =>
              let '(first, last) := subSpan chunkOff (blen data) in
              set_present idx (Some (bmSetRange bm first last)) e2
          end in
        (putEntry m id e3, None)
    end.

Definition MemStore_HashRange (m : MemStore) (id : FileID) (idx off length : Z)
  : res ioErr (option Z) :=
  match files m !! Key id with
  | None => Ok None
  | Some e =>
      match chunks e !! idx with
      | None => Ok None
      | Some data =>
          if (off <? 0) || (length <? 0) || (s_len data <? off + length) then Ok None
          else if negb (rangePresent e idx off length) then Ok None
          else Ok (Some (hashChunk (take_z length (drop_z off (s_data data)))))
      end
  end.

Definition MemStore_ChunkHash (m : MemStore) (id : FileID) (idx : Z) : res ioErr (option Z) :=
  match files m !! Key id with
  | None => Ok None
  | Some e =>
      match chunks e !! idx with
      | None => Ok None
      | Some _ => Ok (Some (default 0 (hashes e !! idx)))
      end
  end.

Definition MemStore_Drop (m : MemStore) (id : FileID) (idx : Z) : MemStore * option ioErr :=
  match files m !! Key id with
  | None => (m, None)
  | Some e => (putEntry m id (del_chunk idx e), None)
  end.

(** The loop over the chunks of [Resize]. *)
Definition dropFromChunk (dropFrom : Z) (e : memEntry) : memEntry :=
  fold_left (fun e' idx => if dropFrom <=? idx then del_chunk idx e' else e')
    (elements (dom (chunks e))) e.

Definition MemStore_Resize (m : MemStore) (id : FileID) (newSize : Z) : MemStore * option ioErr :=
  let e := entry m id in
  let oldSize := curSize e in
  let e1 := dropFromChunk (Z.quot newSize (m_chunkSize m)) e in
  let e2 := if 0 <? oldSize then del_chunk (Z.quot (oldSize - 1) (m_chunkSize m)) e1 else e1 in
  (putEntry m id (set_curSize newSize e2), None).

Definition MemStore_Invalidate (m : MemStore) (id : FileID) : MemStore * option ioErr :=
  (mkMemStore (m_chunkSize m) (delete (Key id) (files m)), None).

Definition MemStore_Rename (m : MemStore) (oldID newID : FileID) : MemStore * option ioErr :=
  if bytes_eqb (Key oldID) (Key newID) then (m, None) else
  match files m !! Key oldID with
  | None => (m, None)
  | Some e =>
      (mkMemStore (m_chunkSize m) (delete (Key oldID) (<[Key newID := e]> (files m))), None)
  end.

Definition MemStore_Hint (m : MemStore) (id : FileID) : res ioErr (option (Z * Z)) :=
  match files m !! Key id with
  | None => Ok None
  | Some e => if negb (hintSet e) then Ok None else Ok (Some (hintSize e, hintMTime e))
  end.

Definition MemStore_SetHint (m : MemStore) (id : FileID) (size mtimeNs : Z)
  : MemStore * option ioErr :=
  let e := entry m id in
  (putEntry m id (mkMemEntry (curSize e) (chunks e) (present e) (hashes e) true size mtimeNs), None).

Definition MemStore_Store : Store MemStore := {|
  st_Get := MemStore_Get; st_GetSub := MemStore_GetSub; st_PutSub := MemStore_PutSub;
  st_Put := MemStore_Put; st_PutHashed := MemStore_PutHashed;
  st_WriteChunk := MemStore_WriteChunk; st_ChunkHash := MemStore_ChunkHash;
  st_WriteThrough := MemStore_WriteThrough; st_HashRange := MemStore_HashRange;
  st_Drop := MemStore_Drop; st_Resize := MemStore_Resize; st_Invalidate := MemStore_Invalidate;
  st_Rename := MemStore_Rename; st_Hint := MemStore_Hint; st_SetHint := MemStore_SetHint |}.
End Ops.

(** ** NullStore *)

Definition NullStore : Type := unit.

#[export] Instance NullStore_Store : Store NullStore := {
  st_Get _ _ _ _ := Ok None; st_GetSub _ _ _ _ _ := Ok None; st_PutSub s _ _ _ _ := (s, None);
  st_Put s _ _ _ := (s, None); st_PutHashed s _ _ _ _ := (s, None);
  st_WriteChunk s _ _ _ _ _ _ := (s, None); st_ChunkHash _ _ _ := Ok None;
  st_WriteThrough s _ _ _ _ _ := (s, None); st_HashRange _ _ _ _ _ := Ok None;
  st_Drop s _ _ := (s, None); st_Resize s _ _ := (s, None); st_Invalidate s _ := (s, None);
  st_Rename s _ _ := (s, None); st_Hint _ _ := Ok None; st_SetHint s _ _ _ := (s, None) }.

(** ** Slices *)

Definition wf_slice (b : slice) : Prop := 0 <= s_len b <= s_cap b.

(** The out-of-place result: a zeroed buffer of length [n], the old chunk
    copied into it, the data overlaid. *)
Definition overlay (n : Z) (cur : bytes) (off : Z) (data : bytes) : bytes :=
  copy_at (copy_at (zeros n) 0 cur) off data.

Lemma blen_s_data b : wf_slice b -> blen (s_data b) = s_len b.
Proof. unfold wf_slice, s_cap, s_data. intros. rewrite blen_take_z. lia. Qed.

Lemma blen_overlay n cur off data : 0 <= off <= n -> blen (overlay n cur off data) = n.
Proof.
  intros. unfold overlay. assert (Hz : blen (zeros n) = n) by (apply blen_zeros; lia).
  assert (Hc : blen (copy_at (zeros n) 0 cur) = n) by (rewrite blen_copy_at; lia).
  rewrite blen_copy_at; lia.
Qed.

Lemma lookup_overlay n cur off data i :
  0 <= off <= n -> Z.of_nat i < n ->
  overlay n cur off data !! i =
    if (off <=? Z.of_nat i) && (Z.of_nat i <? off + blen data)
    then data !! Z.to_nat (Z.of_nat i - off)
    else if Z.of_nat i <? blen cur then cur !! i else Some Byte.x00.
Proof.
  intros Ho Hi. unfold overlay.
  assert (Hz : blen (zeros n) = n) by (apply blen_zeros; lia).
  rewrite lookup_copy_at by (rewrite blen_copy_at; lia).
  split_if; [done|]. rewrite lookup_copy_at by lia.
  replace (0 <=? Z.of_nat i) with true by (symmetry; apply Z.leb_le; lia).
  rewrite Z.add_0_l, Z.sub_0_r, Nat2Z.id. simpl. split_if; [done|]. apply lookup_zeros; lia.
Qed.

(** A slice's data byte by byte, and the effect of [copy] and [clear] on it. *)
Lemma lookup_s_data b i : Z.of_nat i < s_len b -> s_data b !! i = s_arr b !! i.
Proof. apply lookup_take_z. Qed.

Lemma lookup_s_copy b off data i :
  wf_slice b -> 0 <= off <= s_len b -> Z.of_nat i < s_len b ->
  s_data (s_copy b off data) !! i =
    if (off <=? Z.of_nat i) && (Z.of_nat i <? off + blen data)
    then data !! Z.to_nat (Z.of_nat i - off) else s_data b !! i.
Proof.
  unfold wf_slice, s_cap. intros Hw Ho Hi. rewrite !lookup_s_data by done. cbn [s_copy s_arr].
  rewrite lookup_copy_at by lia. rewrite blen_take_z. pose proof (blen_nonneg data).
  destruct (Z.leb_spec off (Z.of_nat i)); [|done]. simpl.
  destruct (Z.ltb_spec (Z.of_nat i) (off + blen data)),
    (Z.ltb_spec (Z.of_nat i) (off + Z.min (Z.max 0 (s_len b - off)) (blen data))); try lia; [|done].
  apply lookup_take_z. lia.
Qed.

Lemma lookup_s_clear b lo hi i :
  wf_slice b -> 0 <= lo <= hi -> hi <= s_len b -> Z.of_nat i < s_len b ->
  s_data (s_clear b lo hi) !! i =
    if (lo <=? Z.of_nat i) && (Z.of_nat i <? hi) then Some Byte.x00 else s_data b !! i.
Proof.
  unfold wf_slice, s_cap. intros Hw Ho Hh Hi. rewrite !lookup_s_data by done. cbn [s_clear s_arr].
  rewrite lookup_copy_at by lia. rewrite blen_zeros by lia.
  replace (lo + (hi - lo)) with hi by lia.
  split_if; [|done]. zbool. apply lookup_zeros. lia.
Qed.

Lemma wf_s_copy b off data : wf_slice b -> 0 <= off <= s_len b -> wf_slice (s_copy b off data).
Proof. unfold wf_slice, s_cap. intros. cbn. rewrite blen_copy_at by lia. lia. Qed.
Lemma wf_s_clear b lo hi :
  wf_slice b -> 0 <= lo <= s_len b -> wf_slice (s_clear b lo hi).
Proof. unfold wf_slice, s_cap. intros. cbn. rewrite blen_copy_at by lia. lia. Qed.
Lemma wf_reslice b n : 0 <= n <= s_cap b -> wf_slice (reslice b n).
Proof. done. Qed.
Lemma wf_makeSlice n c b : 0 <= n -> makeSlice n c = Some b -> wf_slice b /\ s_len b = n.
Proof.
  intros Hn. unfold makeSlice. destruct (Z.ltb_spec c n); [done|]. intros [= <-].
  unfold wf_slice, s_cap. cbn. rewrite blen_zeros; lia.
Qed.
#[local] Hint Resolve wf_s_copy wf_s_clear wf_reslice : cornus.

Lemma lookup_s_data_reslice b n i :
  wf_slice b -> Z.of_nat i < n -> Z.of_nat i < s_len b ->
  s_data (reslice b n) !! i = s_data b !! i.
Proof. intros. rewrite !lookup_s_data by done. done. Qed.

(** Arithmetic on slice lengths and capacities. *)
Ltac wfs := unfold wf_slice, s_cap in *; cbn [s_arr s_len reslice s_copy s_clear] in *; lia.

Lemma s_data_ext b l :
  wf_slice b -> blen l = s_len b ->
  (forall i, Z.of_nat i < s_len b -> s_data b !! i = l !! i) -> s_data b = l.
Proof.
  intros Hw Hl H. apply list_eq_lookup_z; rewrite blen_s_data by done; [done|]. exact H.
Qed.

Lemma rmwInPlace_wf cur off data n :
  wf_slice cur -> 0 <= off <= n -> n <= s_cap cur ->
  wf_slice (rmwInPlace cur off data n) /\ s_len (rmwInPlace cur off data n) = n.
Proof.
  intros Hw Ho Hn. unfold rmwInPlace.
  destruct (Z.ltb_spec (s_len cur) n); (split; [|done]); apply wf_s_copy; try wfs.
  apply wf_s_clear; wfs.
Qed.

Lemma rmwInPlace_overlay cur off data n :
  wf_slice cur -> 0 <= off -> off + blen data <= n -> n <= s_cap cur ->
  s_data (rmwInPlace cur off data n) = overlay n (s_data cur) off data.
Proof.
  intros Hw Ho Hd Hn. pose proof (blen_nonneg data).
  destruct (rmwInPlace_wf cur off data n) as [Hw' Hl]; [done|lia|done|].
  apply s_data_ext; [done|rewrite blen_overlay; lia|]. rewrite Hl. intros i Hi.
  rewrite lookup_overlay by lia. rewrite blen_s_data by done. unfold rmwInPlace.
  assert (Hr : wf_slice (reslice cur n)) by wfs.
  destruct (Z.ltb_spec (s_len cur) n) as [Hlt|Hge].
  - rewrite lookup_s_copy; [|apply wf_s_clear; [done|wfs]|wfs|wfs].
    split_if; [done|]. unfold wf_slice in Hw.
    rewrite lookup_s_clear by (try done; cbn; lia).
    destruct (Z.ltb_spec (Z.of_nat i) (s_len cur)), (Z.leb_spec (s_len cur) (Z.of_nat i)); try lia; simpl.
    + apply lookup_s_data_reslice; [done|lia|lia].
    + by replace (Z.of_nat i <? n) with true by (symmetry; apply Z.ltb_lt; lia).
  - rewrite lookup_s_copy by (try done; cbn; lia).
    split_if; [done|].
    replace (Z.of_nat i <? s_len cur) with true by (symmetry; apply Z.ltb_lt; lia).
    apply lookup_s_data_reslice; [done|lia|lia].
Qed.

(** The fallback: a fresh zeroed buffer. *)
Lemma outOfPlace_overlay b cur off data n c :
  0 <= off <= n -> makeSlice n c = Some b ->
  let r := s_copy (s_copy b 0 cur) off data in
  wf_slice r /\ s_len r = n /\ s_data r = overlay n cur off data.
Proof.
  intros Ho Hm. destruct (wf_makeSlice n c b ltac:(lia) Hm) as [Hw Hl].
  assert (Hw1 : wf_slice (s_copy b 0 cur)) by (apply wf_s_copy; [done|lia]).
  assert (Hw2 : wf_slice (s_copy (s_copy b 0 cur) off data)) by (apply wf_s_copy; [done|cbn; lia]).
  cbv zeta. split_and!; [done|done|].
  apply s_data_ext; [done|rewrite blen_overlay by lia; cbn; lia|]. intros i Hi. cbn in Hi.
  rewrite lookup_overlay, lookup_s_copy by (try done; cbn; lia).
  split_if; [done|]. rewrite lookup_s_copy by (try done; lia).
  replace (0 <=? Z.of_nat i) with true by (symmetry; apply Z.leb_le; lia).
  rewrite Z.add_0_l, Z.sub_0_r, Nat2Z.id. cbn [andb]. split_if; [done|].
  unfold makeSlice in Hm. destruct (Z.ltb_spec c n); [done|]. injection Hm as <-.
  cbn in Hi. rewrite lookup_s_data by done. cbn. apply lookup_zeros. lia.
Qed.

Lemma s_data_cloneChunk m data :
  wf_slice (cloneChunk m data) /\ s_data (cloneChunk m data) = data.
Proof.
  unfold cloneChunk. set (c := if m_chunkSize m <? blen data then blen data else m_chunkSize m).
  assert (Hc : blen data <= c) by (unfold c; split_if; zcase).
  pose proof (blen_nonneg data).
  assert (Hw : wf_slice (mkSlice (zeros c) (blen data)))
    by (unfold wf_slice, s_cap; cbn; rewrite blen_zeros; lia).
  assert (Hw' := wf_s_copy _ 0 data Hw ltac:(cbn; lia)).
  split; [done|]. apply s_data_ext; [done|done|]. intros i Hi. cbn in Hi.
  rewrite lookup_s_copy by (try done; cbn; lia).
  replace (0 <=? Z.of_nat i) with true by (symmetry; apply Z.leb_le; lia).
  rewrite Z.add_0_l, Z.sub_0_r, Nat2Z.id.
  by replace (Z.of_nat i <? blen data) with true by (symmetry; apply Z.ltb_lt; lia).
Qed.

(** ** The store's chunks *)

(** The bytes cached for a chunk, whole or partial. *)
Definition chunkData (m : MemStore) (key : bytes) (idx : Z) : option bytes :=
  e ← files m !! key; s_data <$> chunks e !! idx.

(** The demand-fill bitmap of a chunk. *)
Definition chunkBitmap (m : MemStore) (key : bytes) (idx : Z) : option (list Z) :=
  e ← files m !! key; present e !! idx.

(** A bitmap of [words] words marks only sub-blocks that begin inside the
    cached bytes of its chunk. *)
Definition wf_bitmap (words : Z) (bm : list Z) (chunk : option slice) : Prop :=
  blen bm = words /\
  exists b, chunk = Some b /\ forall j, bmGet bm j = true -> j * SubBlockSize < s_len b.

(** Slices are in bounds, bitmaps cover the chunk's sub-blocks, and a bitmap
    belongs to a cached chunk and marks only what the chunk holds. *)
Record wf_mem (m : MemStore) : Prop := {
  wm_cs : 0 < m_chunkSize m;
  wm_slice key e idx b : files m !! key = Some e -> chunks e !! idx = Some b -> wf_slice b;
  wm_bitmap key e idx bm : files m !! key = Some e -> present e !! idx = Some bm ->
    wf_bitmap (bmWords (m_subsPerChunk m)) bm (chunks e !! idx) }.

Lemma wf_entry_slice m id idx b :
  wf_mem m -> chunks (entry m id) !! idx = Some b -> wf_slice b.
Proof.
  intros Hm. unfold entry. destruct (files m !! Key id) as [e|] eqn:E; simpl.
  - by apply (wm_slice _ Hm _ _ _ _ E).
  - by rewrite lookup_empty.
Qed.

Lemma chunkData_put m id e key idx :
  chunkData (putEntry m id e) key idx =
    if decide (key = Key id) then s_data <$> chunks e !! idx else chunkData m key idx.
Proof.
  unfold chunkData, putEntry. cbn [files]. case_decide as H.
  - subst. by rewrite lookup_insert_eq.
  - by rewrite lookup_insert_ne by congruence.
Qed.

Lemma chunkData_entry m id idx : chunkData m (Key id) idx = s_data <$> chunks (entry m id) !! idx.
Proof.
  unfold chunkData, entry. destruct (files m !! Key id); simpl; [done|]. by rewrite lookup_empty.
Qed.

(** What [WriteChunk] does to a chunk, out of place: a full write stores the
    data, a write to an absent chunk does nothing, and a partial write keeps the
    overlaid chunk only if it hashes to what the caller reported. *)
Definition writeChunkSpec (hashChunk : bytes -> Z) (cur : option bytes) (off : Z) (data : bytes)
    (chunkLen callerHash : Z) : option bytes :=
  if (off =? 0) && (blen data =? chunkLen) then Some data
  else c ← cur;
       let merged := overlay chunkLen c off data in
       if hashChunk merged =? callerHash then Some merged else None.

Lemma growTo_chunks v e : chunks (growTo v e) = chunks e.
Proof. unfold growTo. by destruct (_ <? _). Qed.
Lemma growTo_present v e : present (growTo v e) = present e.
Proof. unfold growTo. by destruct (_ <? _). Qed.

Lemma chunkAbsent_spec m id idx : chunkAbsent m id idx = true <-> chunkData m (Key id) idx = None.
Proof.
  unfold chunkAbsent, chunkData, hasChunk. destruct (files m !! Key id) as [e|]; simpl; [|done].
  destruct (chunks e !! idx); simpl; by split.
Qed.

Lemma s_data_verifyChunk hashChunk idx cur h e idx' :
  s_data <$> chunks (verifyChunk hashChunk idx cur h e) !! idx' =
    if decide (idx' = idx)
    then (if hashChunk (s_data cur) =? h then Some (s_data cur) else None)
    else s_data <$> chunks e !! idx'.
Proof.
  unfold verifyChunk. case_decide as H; [subst|]; destruct (_ =? _); cbn;
    rewrite ?lookup_insert_eq, ?lookup_delete_eq, ?lookup_insert_ne, ?lookup_delete_ne by congruence;
    done.
Qed.

Section WriteChunk.
Variable hashChunk : bytes -> Z.

Lemma WriteChunk_chunkData m id idx off data chunkLen h :
  wf_mem m -> 0 <= off -> off + blen data <= chunkLen <= m_chunkSize m ->
  let r := MemStore_WriteChunk hashChunk m id idx off data chunkLen h in
  r.2 = None /\
  forall key idx', chunkData r.1 key idx' =
    if decide (key = Key id /\ idx' = idx)
    then writeChunkSpec hashChunk (chunkData m (Key id) idx) off data chunkLen h
    else chunkData m key idx'.
Proof.
  intros Hm Ho Hl. pose proof (blen_nonneg data). unfold MemStore_WriteChunk, writeChunkSpec.
  destruct ((off =? 0) && (blen data =? chunkLen)) eqn:Hfull; cbn [negb andb].
  { split; [done|]. intros key idx'. cbn [fst]. rewrite chunkData_put. cbn.
    rewrite growTo_chunks. case_decide as Hk; [subst|by rewrite decide_False by tauto].
    destruct (decide (idx' = idx)) as [->|Hi].
    - rewrite lookup_insert_eq, decide_True by done. simpl. f_equal. apply s_data_cloneChunk.
    - rewrite lookup_insert_ne, decide_False by (try tauto; congruence).
      by rewrite chunkData_entry. }
  destruct (chunkAbsent m id idx) eqn:Ha.
  { apply chunkAbsent_spec in Ha. rewrite Ha. split; [done|]. intros key idx'. simpl.
    case_decide as Hk; [|done]. destruct Hk as [-> ->]. by rewrite Ha. }
  destruct (chunks (entry m id) !! idx) as [cur|] eqn:Ec.
  2:{ exfalso. assert (chunkAbsent m id idx = true) by
        (apply chunkAbsent_spec; by rewrite chunkData_entry, Ec). congruence. }
  pose proof (wf_entry_slice _ _ _ _ Hm Ec) as Hcur.
  assert (Hdone : forall cur', s_data cur' = overlay chunkLen (s_data cur) off data ->
    forall key idx', chunkData (putEntry m id (verifyChunk hashChunk idx cur' h
        (growTo (idx * m_chunkSize m + off + blen data) (entry m id)))) key idx' =
      if decide (key = Key id /\ idx' = idx)
      then (c ← chunkData m (Key id) idx;
            let merged := overlay chunkLen c off data in
            if hashChunk merged =? h then Some merged else None)
      else chunkData m key idx').
  { intros cur' Hc' key idx'. rewrite chunkData_put, s_data_verifyChunk, growTo_chunks, Hc'.
    rewrite (chunkData_entry m id idx), Ec.
    case_decide as Hk; [subst|by rewrite decide_False by tauto].
    destruct (decide (idx' = idx)) as [->|Hi]; [by rewrite decide_True|].
    rewrite decide_False by tauto. by rewrite chunkData_entry. }
  destruct ((chunkLen <=? s_cap cur) && (off + blen data <=? chunkLen)) eqn:Hcap.
  - zbool. split; [done|]. cbn [fst]. apply Hdone, rmwInPlace_overlay; (done || lia).
  - destruct (makeSlice chunkLen (m_chunkSize m)) as [b|] eqn:Hmk.
    2:{ unfold makeSlice in Hmk. destruct (Z.ltb_spec (m_chunkSize m) chunkLen); [lia|done]. }
    destruct (Z.ltb_spec chunkLen off); [lia|]. split; [done|]. cbn [fst].
    apply Hdone. eapply outOfPlace_overlay; [lia|done].
Qed.
End WriteChunk.

(** ** The invariant *)

(** The part of [wf_mem] that concerns one entry, for bitmaps of [words] words. *)
Definition wf_ent (words : Z) (e : memEntry) : Prop :=
  (forall idx b, chunks e !! idx = Some b -> wf_slice b) /\
  (forall idx bm, present e !! idx = Some bm -> wf_bitmap words bm (chunks e !! idx)).

Definition m_words (m : MemStore) : Z := bmWords (m_subsPerChunk m).

Lemma wf_ent_new n : wf_ent n newMemEntry.
Proof. split; intros idx x; cbn; by rewrite lookup_empty. Qed.

Lemma wf_ent_entry m id : wf_mem m -> wf_ent (m_words m) (entry m id).
Proof.
  intros Hm. unfold entry. destruct (files m !! Key id) as [e|] eqn:E; simpl;
    [|apply wf_ent_new]. split; intros.
  - by eapply wm_slice.
  - by eapply (wm_bitmap _ Hm).
Qed.

Lemma wf_putEntry m id e : wf_mem m -> wf_ent (m_words m) e -> wf_mem (putEntry m id e).
Proof.
  intros Hm [Hs Hb]. split; [apply Hm|..]; cbn [putEntry files].
  - intros key e' idx b [[_ <-]|[_ He]]%lookup_insert_Some; [apply Hs|by eapply wm_slice].
  - intros key e' idx bm [[_ <-]|[_ He]]%lookup_insert_Some; [apply Hb|by eapply (wm_bitmap _ Hm)].
Qed.

Lemma wf_set_chunk n idx b e :
  wf_slice b -> (forall b0, chunks e !! idx = Some b0 -> s_len b0 <= s_len b) ->
  wf_ent n e -> wf_ent n (set_chunk idx b e).
Proof.
  intros Hb Hle [Hs Hp]. split; cbn.
  - intros i b' [[_ <-]|[_ H]]%lookup_insert_Some; [done|by eapply Hs].
  - intros i bm H. destruct (Hp i bm H) as (Hl & b0 & Hb0 & Hj). split; [done|].
    destruct (decide (i = idx)) as [->|]; [|rewrite lookup_insert_ne by done; by exists b0].
    rewrite lookup_insert_eq. exists b. split; [done|]. intros j Hjb.
    apply Hj in Hjb. apply Hle in Hb0. lia.
Qed.
(** A whole-chunk store. *)
Lemma wf_set_full n idx b e :
  wf_slice b -> wf_ent n e -> wf_ent n (set_present idx None (set_chunk idx b e)).
Proof.
  intros Hb [Hs Hp]. split; cbn.
  - intros i b' [[_ <-]|[_ H]]%lookup_insert_Some; [done|by eapply Hs].
  - intros i bm. destruct (decide (i = idx)) as [->|]; [by rewrite lookup_partial_alter_eq|].
    rewrite lookup_partial_alter_ne, lookup_insert_ne by done. by apply Hp.
Qed.
Lemma wf_set_hash n idx h e : wf_ent n e -> wf_ent n (set_hash idx h e).
Proof. done. Qed.
Lemma wf_growTo n v e : wf_ent n e -> wf_ent n (growTo v e).
Proof. unfold growTo. by destruct (_ <? _). Qed.
Lemma wf_set_present n idx bm e :
  (forall b, bm = Some b -> wf_bitmap n b (chunks e !! idx)) ->
  wf_ent n e -> wf_ent n (set_present idx bm e).
Proof.
  intros Hb [Hs Hp]. split; [done|]. cbn. intros i bm'.
  destruct (decide (i = idx)) as [->|].
  - rewrite lookup_partial_alter_eq. by apply Hb.
  - rewrite lookup_partial_alter_ne by done. by apply Hp.
Qed.
Lemma wf_del_chunk n idx e : wf_ent n e -> wf_ent n (del_chunk idx e).
Proof.
  intros [Hs Hp]. split; cbn.
  - intros i b [_ H]%lookup_delete_Some. by eapply Hs.
  - intros i bm [Hne H]%lookup_delete_Some. rewrite lookup_delete_ne by done. by apply Hp.
Qed.
#[local] Hint Resolve wf_set_full wf_set_hash wf_growTo wf_del_chunk wf_ent_entry wf_putEntry
  : cornus.

Lemma wf_cloneChunk m data : wf_slice (cloneChunk m data).
Proof. apply s_data_cloneChunk. Qed.
#[local] Hint Resolve wf_cloneChunk : cornus.

Lemma wf_dropFromChunk n d e : wf_ent n e -> wf_ent n (dropFromChunk d e).
Proof.
  unfold dropFromChunk. generalize (elements (dom (chunks e))) as l. intros l. revert e.
  induction l as [|i l IH]; intros e He; [done|]. simpl. apply IH.
  destruct (_ <=? _); auto with cornus.
Qed.

Lemma chunks_del idx e : chunks (del_chunk_hash idx e) = delete idx (chunks e).
Proof. done. Qed.

(** Dropping a chunk without its bitmap is harmless when it had none. *)
Lemma wf_del_chunk_hash n idx e :
  present e !! idx = None -> wf_ent n e -> wf_ent n (del_chunk_hash idx e).
Proof.
  intros Hn [Hs Hp]. split; cbn.
  - intros i b [_ H]%lookup_delete_Some. by eapply Hs.
  - intros i bm H. assert (i <> idx) by congruence. rewrite lookup_delete_ne by done. by apply Hp.
Qed.

Lemma spliceInPlace_overlay cur off data :
  wf_slice cur -> 0 <= off -> off + blen data <= s_cap cur ->
  let r := spliceInPlace cur off data in
  wf_slice r /\ s_len r = Z.max (s_len cur) (off + blen data) /\
  s_data r = overlay (Z.max (s_len cur) (off + blen data)) (s_data cur) off data.
Proof.
  intros Hw Ho Hcap. pose proof (blen_nonneg data). cbv zeta.
  set (c := if s_len cur <? off + blen data then
              (if s_len cur <? off then s_clear (reslice cur (off + blen data)) (s_len cur) off
               else reslice cur (off + blen data))
            else cur).
  assert (Hc : wf_slice c /\ s_len c = Z.max (s_len cur) (off + blen data) /\
    forall i, Z.of_nat i < s_len c -> ~ (off <= Z.of_nat i < off + blen data) ->
      s_data c !! i = if Z.of_nat i <? s_len cur then s_data cur !! i else Some Byte.x00).
  { unfold c. destruct (Z.ltb_spec (s_len cur) (off + blen data)).
    - assert (Hr : wf_slice (reslice cur (off + blen data))) by wfs.
      destruct (Z.ltb_spec (s_len cur) off).
      + split_and!; [apply wf_s_clear; [done|wfs]|cbn; lia|]. intros i Hi Hout. cbn in Hi.
        rewrite lookup_s_clear by (try done; wfs).
        destruct (Z.leb_spec (s_len cur) (Z.of_nat i)), (Z.ltb_spec (Z.of_nat i) (s_len cur)); try lia.
        * by replace (Z.of_nat i <? off) with true by (symmetry; apply Z.ltb_lt; lia).
        * apply lookup_s_data_reslice; (done || lia).
      + split_and!; [done|cbn; lia|]. intros i Hi Hout. cbn in Hi.
        replace (Z.of_nat i <? s_len cur) with true by (symmetry; apply Z.ltb_lt; lia).
        apply lookup_s_data_reslice; (done || lia).
    - split_and!; [done|lia|]. intros i Hi _.
      by replace (Z.of_nat i <? s_len cur) with true by (symmetry; apply Z.ltb_lt; lia). }
  change (spliceInPlace cur off data) with (s_copy c off data).
  destruct Hc as (Hc & Hl & Hg).
  assert (Hw' : wf_slice (s_copy c off data)) by (apply wf_s_copy; [done|lia]).
  split_and!; [done|done|]. apply s_data_ext; [done|rewrite blen_overlay by (unfold wf_slice in Hw; lia); done|].
  intros i Hi. cbn in Hi. rewrite lookup_s_copy by (try done; lia).
  rewrite lookup_overlay, blen_s_data by (try done; unfold wf_slice in Hw; lia).
  split_if; [done|]. apply Hg; [done|].
  intros [H1 H2]. apply andb_false_iff in Heqb as [?|?]; zbool; lia.
Qed.

(** ** Operations preserve the invariant and do not panic *)

(** The mutating calls of the store. *)
Inductive memOp :=
| OpPutSub (id : FileID) (idx subOff : Z) (data : bytes)
| OpPut (id : FileID) (idx : Z) (data : bytes)
| OpPutHashed (id : FileID) (idx : Z) (data : bytes) (hash : Z)
| OpWriteChunk (id : FileID) (idx chunkOff : Z) (data : bytes) (chunkLen callerHash : Z)
| OpWriteThrough (id : FileID) (idx chunkOff : Z) (data : bytes) (chunkLen : Z)
| OpDrop (id : FileID) (idx : Z)
| OpResize (id : FileID) (newSize : Z)
| OpInvalidate (id : FileID)
| OpRename (oldID newID : FileID)
| OpSetHint (id : FileID) (size mtimeNs : Z).

Definition memStep (hashChunk : bytes -> Z) (m : MemStore) (o : memOp) : MemStore * option ioErr :=
  match o with
  | OpPutSub id idx subOff data => MemStore_PutSub m id idx subOff data
  | OpPut id idx data => MemStore_Put hashChunk m id idx data
  | OpPutHashed id idx data hash => MemStore_PutHashed m id idx data hash
  | OpWriteChunk id idx off data n h => MemStore_WriteChunk hashChunk m id idx off data n h
  | OpWriteThrough id idx off data n => MemStore_WriteThrough m id idx off data n
  | OpDrop id idx => MemStore_Drop m id idx
  | OpResize id n => MemStore_Resize m id n
  | OpInvalidate id => MemStore_Invalidate m id
  | OpRename a b => MemStore_Rename m a b
  | OpSetHint id a b => MemStore_SetHint m id a b
  end.

(** Arguments as the callers pass them: nonempty ranges inside the chunk.  A verified
    write never hits a demand-filled chunk: the two belong to different
    coherence modes. *)
Definition validOp (m : MemStore) (o : memOp) : Prop :=
  match o with
  | OpPutSub _ _ subOff data =>
      0 <= subOff /\ 0 < blen data /\ subOff + blen data <= m_chunkSize m
  | OpWriteChunk id idx off data n _ =>
      0 <= off /\ off + blen data <= n <= m_chunkSize m /\ chunkBitmap m (Key id) idx = None
  | OpWriteThrough _ _ off data n =>
      0 <= off /\ 0 < blen data /\ off + blen data <= n <= m_chunkSize m
  | _ => True
  end.

Section Invariant.
Variable hashChunk : bytes -> Z.

Lemma m_words_nonneg m : wf_mem m -> 0 <= m_words m.
Proof.
  intros Hm. unfold m_words, bmWords, m_subsPerChunk, SubBlockSize. pose proof (wm_cs _ Hm).
  pose proof (Z.quot_pos (m_chunkSize m + 4096 - 1) 4096 ltac:(lia) ltac:(lia)).
  apply Z.quot_pos; lia.
Qed.

Lemma wf_bitmap_set n bm b off len :
  wf_bitmap n bm (Some b) -> 0 <= off -> 0 < len -> off + len <= s_len b ->
  (off + len - 1) / SubBlockSize / 64 < n ->
  wf_bitmap n (bmSetRange bm (off / SubBlockSize) ((off + len - 1) / SubBlockSize)) (Some b).
Proof.
  unfold SubBlockSize. intros (Hl & b0 & [= <-] & Hj) Ho Hlen Hn Hw.
  split; [by rewrite length_bmSetRange|]. exists b. split; [done|]. intros j.
  rewrite bmGet_bmSetRange by (try lia; apply Z.div_pos; lia).
  intros [H|H]%orb_true_iff; [|by apply Hj]. zbool.
  pose proof (Z.mul_div_le (off + len - 1) 4096). unfold SubBlockSize. lia.
Qed.

Lemma wf_bitmap_fresh m b :
  wf_mem m -> wf_bitmap (m_words m) (repeat 0 (Z.to_nat (bmWords (m_subsPerChunk m)))) (Some b).
Proof.
  intros Hm. split.
  - unfold blen. rewrite repeat_length, Z2Nat.id; [done|]. by apply m_words_nonneg.
  - exists b. split; [done|]. intros j. unfold bmGet.
    destruct (repeat 0 _ !! _) eqn:E; simpl; [|by rewrite andb_false_r].
    apply list_elem_of_lookup_2, list_elem_of_In, repeat_spec in E. subst.
    by rewrite andb_false_r.
Qed.

(** Every sub-block of a chunk has its bit. *)
Lemma sub_words m i : wf_mem m -> 0 <= i < m_chunkSize m -> i / SubBlockSize / 64 < m_words m.
Proof.
  intros Hm Hi. pose proof (wm_cs _ Hm). unfold m_words, bmWords, m_subsPerChunk, SubBlockSize.
  rewrite (Z.quot_div_nonneg (m_chunkSize m + 4096 - 1)) by lia.
  set (subs := (m_chunkSize m + 4096 - 1) / 4096).
  assert (i / 4096 <= subs - 1).
  { unfold subs. replace (m_chunkSize m + 4096 - 1) with (m_chunkSize m - 1 + 1 * 4096) by lia.
    rewrite Z.div_add by lia. pose proof (Z.div_le_mono i (m_chunkSize m - 1) 4096). lia. }
  pose proof (Z.div_pos i 4096 ltac:(lia) ltac:(lia)).
  rewrite Z.quot_div_nonneg by lia. replace (subs + 63) with (subs - 1 + 1 * 64) by lia.
  rewrite Z.div_add by lia. pose proof (Z.div_le_mono (i / 4096) (subs - 1) 64). lia.
Qed.

Lemma growBuf_spec cs cur subOff n :
  (forall b, cur = Some b -> wf_slice b) -> 0 <= subOff -> 0 <= n -> subOff + n <= cs ->
  exists buf, growBuf cs cur subOff (subOff + n) = Some buf /\ wf_slice buf /\
    s_len buf = Z.max (subOff + n) (match cur with Some b => s_len b | None => 0 end) /\
    forall i, Z.of_nat i < s_len buf -> ~ (subOff <= Z.of_nat i < subOff + n) ->
      s_data buf !! i =
        match cur with
        | Some b => if Z.of_nat i <? s_len b then s_data b !! i else Some Byte.x00
        | None => Some Byte.x00 end.
Proof.
  intros Hm Ho Hp Hn. unfold growBuf.
  destruct (makeSlice (subOff + n) cs) as [nb|] eqn:Emk.
  2:{ unfold makeSlice in Emk. destruct (Z.ltb_spec cs (subOff + n)); [lia|done]. }
  destruct (wf_makeSlice (subOff + n) cs nb ltac:(lia) Emk) as [Hnb Hnl].
  assert (Hz : forall i, Z.of_nat i < s_len nb -> s_data nb !! i = Some Byte.x00).
  { intros i Hi. rewrite lookup_s_data by done. unfold makeSlice in Emk.
    destruct (_ <? _) eqn:E; [done|]. injection Emk as <-. cbn in *. apply lookup_zeros. zbool; lia. }
  destruct cur as [b|].
  2:{ exists nb. split_and!; [done|done|lia|]. intros. by apply Hz. }
  pose proof (Hm b eq_refl) as Hb.
  destruct (Z.ltb_spec (s_len b) (subOff + n)).
  2:{ exists b. split_and!; [done|done|lia|]. intros i Hi _.
      by replace (Z.of_nat i <? s_len b) with true by (symmetry; apply Z.ltb_lt; lia). }
  destruct (Z.leb_spec (subOff + n) (s_cap b)).
  - eexists. split; [done|]. cbv zeta.
    assert (Hr : wf_slice (reslice b (subOff + n))) by wfs.
    destruct (Z.ltb_spec (s_len b) subOff).
    + split_and!; [apply wf_s_clear; [done|wfs]|cbn; lia|]. intros i Hi Hout. cbn in Hi.
      rewrite lookup_s_clear by (try done; wfs).
      destruct (Z.leb_spec (s_len b) (Z.of_nat i)), (Z.ltb_spec (Z.of_nat i) (s_len b)); try lia.
      * by replace (Z.of_nat i <? subOff) with true by (symmetry; apply Z.ltb_lt; lia).
      * apply lookup_s_data_reslice; (done || lia).
    + split_and!; [done|cbn; lia|]. intros i Hi Hout. cbn in Hi.
      replace (Z.of_nat i <? s_len b) with true by (symmetry; apply Z.ltb_lt; lia).
      apply lookup_s_data_reslice; (done || lia).
  - eexists. split; [reflexivity|]. split_and!; [apply wf_s_copy; [done|lia]|cbn; lia|].
    intros i Hi Hout. cbn in Hi. rewrite lookup_s_copy by (try done; lia).
    rewrite blen_s_data by done.
    replace (0 <=? Z.of_nat i) with true by (symmetry; apply Z.leb_le; lia).
    rewrite Z.add_0_l, Z.sub_0_r, Nat2Z.id. cbn [andb]. split_if; [done|]. by apply Hz.
Qed.

Lemma PutSub_wf m id idx subOff data :
  wf_mem m -> 0 <= subOff -> 0 < blen data -> subOff + blen data <= m_chunkSize m ->
  wf_mem (MemStore_PutSub m id idx subOff data).1 /\ (MemStore_PutSub m id idx subOff data).2 = None.
Proof.
  intros Hm Ho Hd Hn. unfold MemStore_PutSub.
  destruct (growBuf_spec (m_chunkSize m) (chunks (entry m id) !! idx) subOff (blen data))
    as (buf & -> & Hw & Hl & _); [intros b; by apply wf_entry_slice|lia..|].
  split; [|done]. cbn [fst]. set (e1 := set_chunk idx _ _).
  assert (Hw1 : wf_slice (s_copy buf subOff data)) by (apply wf_s_copy; [done|lia]).
  assert (He1 : wf_ent (m_words m) e1).
  { apply wf_set_chunk; [done| |auto with cornus]. intros b0 H0. rewrite H0 in Hl. cbn. lia. }
  apply wf_putEntry; [done|]. apply wf_growTo.
  match goal with |- context [if ?full then _ else _] => destruct full end; [done|].
  rewrite subSpan_pos by done. apply wf_set_present; [|done]. intros bm [= <-].
  assert (Hc1 : chunks e1 !! idx = Some (s_copy buf subOff data)) by (cbn; by rewrite lookup_insert_eq).
  rewrite Hc1. apply wf_bitmap_set; [|done|done|cbn; lia|apply sub_words; [done|lia]].
  change (present e1) with (present (entry m id)).
  destruct (present (entry m id) !! idx) as [bm|] eqn:Eb; simpl; [|by apply wf_bitmap_fresh].
  rewrite <- Hc1. by apply He1.
Qed.

Lemma PutHashed_wf m id idx data h :
  wf_mem m -> wf_mem (MemStore_PutHashed m id idx data h).1.
Proof.
  intros Hm. unfold MemStore_PutHashed. cbn [fst]. apply wf_putEntry; [done|].
  auto with cornus.
Qed.

Lemma WriteChunk_wf m id idx off data n h :
  wf_mem m -> 0 <= off -> off + blen data <= n <= m_chunkSize m ->
  chunkBitmap m (Key id) idx = None ->
  wf_mem (MemStore_WriteChunk hashChunk m id idx off data n h).1.
Proof.
  intros Hm Ho Hn Hbm. pose proof (blen_nonneg data). unfold MemStore_WriteChunk.
  assert (Hp : present (entry m id) !! idx = None).
  { unfold chunkBitmap in Hbm. unfold entry.
    destruct (files m !! Key id); simpl in *; [done|apply lookup_empty]. }
  assert (Hv : forall cur, wf_slice cur -> wf_mem (putEntry m id (verifyChunk hashChunk idx cur h
                (growTo (idx * m_chunkSize m + off + blen data) (entry m id))))).
  { intros cur Hcur. apply wf_putEntry; [done|]. unfold verifyChunk. destruct (_ =? _).
    - apply wf_set_hash. split; cbn; rewrite growTo_chunks, ?growTo_present.
      + intros i b [[_ <-]|[_ Hi]]%lookup_insert_Some; [done|by eapply wf_ent_entry].
      + intros i bm Hi. assert (i <> idx) by congruence. rewrite lookup_insert_ne by done.
        by apply (wf_ent_entry m id Hm).
    - apply wf_del_chunk_hash; [by rewrite growTo_present|auto with cornus]. }
  destruct ((off =? 0) && (blen data =? n)) eqn:Hfull; cbn [negb andb].
  { cbn [fst]. apply wf_putEntry; [done|]. auto with cornus. }
  destruct (chunkAbsent m id idx); [done|].
  destruct (chunks (entry m id) !! idx) as [cur|] eqn:Ec; [|cbn; auto with cornus].
  pose proof (wf_entry_slice _ _ _ _ Hm Ec) as Hcur.
  destruct ((n <=? s_cap cur) && (off + blen data <=? n)) eqn:Hcap; zbool.
  - apply Hv. by apply rmwInPlace_wf; [|lia|].
  - destruct (makeSlice n (m_chunkSize m)) as [b|] eqn:Hmk; [|cbn; auto with cornus].
    destruct (n <? off); [cbn; auto with cornus|]. apply Hv.
    by apply (outOfPlace_overlay b (s_data cur) off data n (m_chunkSize m)); [lia|].
Qed.

(** The buffer [WriteThrough] leaves for a cached chunk. *)
Lemma WriteThrough_spliced m cur off data :
  wf_slice cur -> 0 <= off -> off + blen data <= m_chunkSize m ->
  exists r,
    (if off + blen data <=? s_cap cur then Some (spliceInPlace cur off data)
     else merged ← makeSlice (off + blen data) (m_chunkSize m);
          Some (s_copy (s_copy merged 0 (s_data cur)) off data)) = Some r /\
    wf_slice r /\
    exists n, off + blen data <= n /\ s_data r = overlay n (s_data cur) off data /\
      s_len r = n /\ (off + blen data <= s_cap cur -> n = Z.max (s_len cur) (off + blen data)).
Proof.
  intros Hw Ho Hn. pose proof (blen_nonneg data).
  destruct (Z.leb_spec (off + blen data) (s_cap cur)).
  - destruct (spliceInPlace_overlay cur off data) as (Hr & Hl & Hd); [done..|].
    eexists. split_and!; [done|done|]. exists (Z.max (s_len cur) (off + blen data)).
    split_and!; [lia|done|done|done].
  - unfold makeSlice. destruct (Z.ltb_spec (m_chunkSize m) (off + blen data)); [lia|].
    eexists. split; [reflexivity|].
    destruct (outOfPlace_overlay (mkSlice (zeros (m_chunkSize m)) (off + blen data)) (s_data cur) off data
      (off + blen data) (m_chunkSize m)) as (Hr & Hl & Hd); [lia| |].
    { unfold makeSlice. by destruct (Z.ltb_spec (m_chunkSize m) (off + blen data)); [lia|]. }
    split; [done|]. exists (off + blen data). split_and!; [lia|done|done|lia].
Qed.

Lemma WriteThrough_wf m id idx off data n :
  wf_mem m -> 0 <= off -> 0 < blen data -> off + blen data <= n <= m_chunkSize m ->
  wf_mem (MemStore_WriteThrough m id idx off data n).1 /\
  (MemStore_WriteThrough m id idx off data n).2 = None.
Proof.
  intros Hm Ho Hd Hn. unfold MemStore_WriteThrough.
  destruct ((off =? 0) && (blen data =? n)) eqn:Hfull; cbn [negb andb].
  { split; [|done]. cbn [fst]. apply wf_putEntry; [done|].
    auto with cornus. }
  destruct (chunkAbsent m id idx); [done|].
  set (e1 := growTo _ _). assert (He1 : wf_ent (m_words m) e1) by (unfold e1; auto with cornus).
  set (cur := default _ _).
  assert (Hcur : wf_slice cur).
  { unfold cur. destruct (chunks e1 !! idx) eqn:E; simpl; [by eapply He1|].
    unfold wf_slice, s_cap; cbn; change (blen []) with 0; lia. }
  destruct (WriteThrough_spliced m cur off data) as (r & -> & Hr & n' & Hn' & _ & Hl & Hmax);
    [done|lia|lia|].
  split; [|done]. cbn [fst]. apply wf_putEntry; [done|]. set (e2 := set_hash idx 0 _).
  assert (He2 : wf_ent (m_words m) e2).
  { apply wf_set_hash, wf_set_chunk; [done| |done]. intros b0 H0. unfold cur in *.
    rewrite H0 in *. simpl in *.
    destruct (Z.le_gt_cases (off + blen data) (s_cap b0)); [rewrite Hl, Hmax by done; lia|wfs]. }
  destruct (present e2 !! idx) as [bm|] eqn:Eb; [|done]. rewrite subSpan_pos by done.
  apply wf_set_present; [|done]. intros bm' [= <-].
  assert (Hc2 : chunks e2 !! idx = Some r) by (cbn; by rewrite lookup_insert_eq).
  rewrite Hc2. apply wf_bitmap_set; [|done|done|lia|apply sub_words; [done|lia]].
  rewrite <- Hc2. by apply He2.
Qed.

Lemma WriteChunk_no_error m id idx off data n h :
  wf_mem m -> 0 <= off -> off + blen data <= n <= m_chunkSize m ->
  (MemStore_WriteChunk hashChunk m id idx off data n h).2 = None.
Proof. intros. by apply WriteChunk_chunkData. Qed.

Lemma Rename_wf m a b : wf_mem m -> wf_mem (MemStore_Rename m a b).1.
Proof.
  intros Hm. unfold MemStore_Rename. destruct (bytes_eqb _ _); [done|].
  destruct (files m !! Key a) as [e|] eqn:E; [|done]. split; [apply Hm|..]; cbn [fst files];
    intros key e' idx x [_ [[_ <-]|[_ H]]%lookup_insert_Some]%lookup_delete_Some.
  - by eapply wm_slice. - by eapply wm_slice.
  - by eapply (wm_bitmap _ Hm). - by eapply (wm_bitmap _ Hm).
Qed.

Lemma memStep_wf m o :
  wf_mem m -> validOp m o ->
  wf_mem (memStep hashChunk m o).1 /\ (memStep hashChunk m o).2 = None.
Proof.
  intros Hm Hv. destruct o; cbn [memStep validOp] in *.
  - destruct Hv as (?&?&?). by apply PutSub_wf.
  - split; [by apply PutHashed_wf|done].
  - split; [by apply PutHashed_wf|done].
  - destruct Hv as (?&?&?). split; [by apply WriteChunk_wf|by apply WriteChunk_no_error].
  - destruct Hv as (?&?&?). by apply WriteThrough_wf.
  - unfold MemStore_Drop. destruct (files m !! Key id) as [e|] eqn:E; [|done]. split; [|done].
    apply wf_putEntry; [done|]. apply wf_del_chunk.
    pose proof (wf_ent_entry m id Hm) as He. unfold entry in He. by rewrite E in He.
  - unfold MemStore_Resize. split; [|done]. cbn [fst]. apply wf_putEntry; [done|].
    assert (He : wf_ent (m_words m) (dropFromChunk (Z.quot newSize (m_chunkSize m)) (entry m id)))
      by (apply wf_dropFromChunk; auto with cornus).
    destruct (0 <? _); [|exact He].
    exact (wf_del_chunk _ (Z.quot (curSize (entry m id) - 1) (m_chunkSize m)) _ He).
  - split; [|done]. split; [apply Hm|..]; cbn; intros key e idx x [_ H]%lookup_delete_Some.
    + by eapply wm_slice.
    + by eapply (wm_bitmap _ Hm).
  - split; [by apply Rename_wf|]. unfold MemStore_Rename.
    destruct (bytes_eqb _ _); [done|]. by destruct (files m !! Key oldID).
  - split; [|done]. apply wf_putEntry; [done|]. exact (wf_ent_entry m id Hm).
Qed.
End Invariant.

Lemma wf_NewMemStore cs : wf_mem (NewMemStore cs).
Proof.
  split; cbn; [|intros * H; by rewrite lookup_empty in H..].
  by destruct (Z.leb_spec cs 0).
Qed.

(** Stores reached from an empty one by valid calls. *)
Inductive mem_reachable (hashChunk : bytes -> Z) (cs : Z) : MemStore -> Prop :=
| reach_new : mem_reachable hashChunk cs (NewMemStore cs)
| reach_step m o :
    mem_reachable hashChunk cs m -> validOp m o ->
    mem_reachable hashChunk cs (memStep hashChunk m o).1.

(** Along any sequence of valid calls from an empty store, every cached
    slice stays within its capacity, every demand-fill bitmap covers exactly the
    chunk's sub-blocks and belongs to a cached chunk, and no call panics or
    fails: every [make] has room and every reslice is within capacity. *)
Theorem mem_invariant hashChunk cs m :
  mem_reachable hashChunk cs m ->
  wf_mem m /\ forall o, validOp m o -> (memStep hashChunk m o).2 = None.
Proof.
  intros Hr. assert (Hm : wf_mem m).
  { induction Hr; [apply wf_NewMemStore|by apply memStep_wf]. }
  split; [done|]. intros o Hv. by apply memStep_wf.
Qed.

(** ** Demand fill *)

(** The byte a demand read would serve at position [i] of chunk [idx]. *)
Definition knownByte (m : MemStore) (id : FileID) (idx i : Z) : option byte :=
  e ← files m !! Key id; b ← chunks e !! idx;
  if (match present e !! idx with None => true | Some bm => bmGet bm (i / SubBlockSize) end)
  then (if 0 <=? i then s_data b !! Z.to_nat i else None) else None.

Lemma rangePresent_spec e idx off n b :
  chunks e !! idx = Some b -> 0 <= off -> 0 < n ->
  rangePresent e idx off n = true <->
  match present e !! idx with
  | None => True
  | Some bm => forall i, off <= i < off + n -> bmGet bm (i / SubBlockSize) = true
  end.
Proof.
  intros Hc Ho Hn. unfold rangePresent. rewrite Hc.
  destruct (present e !! idx) as [bm|]; [|done]. rewrite subSpan_pos by done.
  rewrite bmRangeAllSet_spec. unfold SubBlockSize. split; intros H i Hi.
  - apply H. split; [apply Z.div_le_mono; lia|apply Z.div_le_mono; lia].
  - destruct (Z.le_gt_cases (i * 4096) off).
    + replace i with (off / 4096); [apply H; lia|].
      apply Z.le_antisymm; [lia|]. apply Z.div_le_lower_bound; lia.
    + replace i with (i * 4096 / 4096) by (by rewrite Z.div_mul). apply H. split; [lia|].
      assert (i * 4096 <= (off + n - 1) / 4096 * 4096) by (apply Z.mul_le_mono_nonneg_r; lia).
      pose proof (Z.mul_div_le (off + n - 1) 4096). lia.
Qed.

Definition knownEnt (e : memEntry) (idx i : Z) : option byte :=
  b ← chunks e !! idx;
  if (match present e !! idx with None => true | Some bm => bmGet bm (i / SubBlockSize) end)
  then (if 0 <=? i then s_data b !! Z.to_nat i else None) else None.

Lemma knownByte_entry m id idx i : knownByte m id idx i = knownEnt (entry m id) idx i.
Proof.
  unfold knownByte, knownEnt, entry. destruct (files m !! Key id); simpl; [done|].
  by rewrite lookup_empty.
Qed.

Lemma entry_putEntry m id e id' :
  entry (putEntry m id e) id' = if decide (Key id' = Key id) then e else entry m id'.
Proof.
  unfold entry, putEntry. cbn [files]. case_decide as H.
  - by rewrite H, lookup_insert_eq.
  - by rewrite lookup_insert_ne by congruence.
Qed.

(** A demand read serves exactly the known bytes. *)
Lemma GetSub_known m id idx off n b :
  wf_mem m -> 0 <= off -> 0 < n ->
  MemStore_GetSub m id idx off n = Ok (Some b) <->
  blen b = n /\ forall j, (Z.of_nat j < n) -> knownByte m id idx (off + Z.of_nat j) = b !! j.
Proof.
  intros Hm Ho Hn. unfold MemStore_GetSub, knownByte.
  assert (Hsome : forall j, blen b = n -> Z.of_nat j < n -> is_Some (b !! j))
    by (intros; apply lookup_blen_is_Some; lia).
  destruct (files m !! Key id) as [e|] eqn:Ee; simpl.
  2:{ split; [done|]. intros [Hl Hj]. destruct (Hsome 0%nat Hl Hn) as [x Hx].
      rewrite <- Hj in Hx by done. done. }
  destruct (chunks e !! idx) as [d|] eqn:Ec; simpl.
  2:{ split; [done|]. intros [Hl Hj]. destruct (Hsome 0%nat Hl Hn) as [x Hx].
      rewrite <- Hj in Hx by done. done. }
  pose proof (wm_slice _ Hm _ _ _ _ Ee Ec) as Hd.
  pose proof (rangePresent_spec e idx off n d Ec Ho Hn) as Hrp.
  assert (Hval : forall j, Z.of_nat j < n -> rangePresent e idx off n = true ->
    (match present e !! idx with None => true
     | Some bm => bmGet bm ((off + Z.of_nat j) / SubBlockSize) end) = true).
  { intros j Hj Hr. apply Hrp in Hr. destruct (present e !! idx); [|done]. apply Hr. lia. }
  split.
  - destruct (rangePresent e idx off n) eqn:Er; simpl; [|done].
    destruct (Z.ltb_spec (s_len d) (off + n)); [done|]. intros [= <-].
    assert (Hlen : blen (s_data d) = s_len d) by (by apply blen_s_data).
    split; [rewrite blen_take_z, blen_drop_z; lia|]. intros j Hj.
    rewrite Hval by done. replace (0 <=? off + Z.of_nat j) with true by (symmetry; apply Z.leb_le; lia).
    rewrite lookup_take_z, lookup_drop_z by lia. done.
  - intros [Hl Hj].
    assert (Hbit : forall j, Z.of_nat j < n ->
      (match present e !! idx with None => true
       | Some bm => bmGet bm ((off + Z.of_nat j) / SubBlockSize) end) = true /\
      s_data d !! Z.to_nat (off + Z.of_nat j) = b !! j).
    { intros j Hlt. specialize (Hj j Hlt). destruct (Hsome j Hl Hlt) as [x Hx]. rewrite Hx in Hj.
      replace (0 <=? off + Z.of_nat j) with true in Hj by (symmetry; apply Z.leb_le; lia).
      rewrite Hx. destruct (match present e !! idx with None => _ | Some _ => _ end); done. }
    assert (Hr : rangePresent e idx off n = true).
    { apply Hrp. destruct (present e !! idx) as [bm|]; [|done]. intros i Hi.
      destruct (Hbit (Z.to_nat (i - off))) as [H _]; [lia|].
      by replace (off + Z.of_nat (Z.to_nat (i - off))) with i in H by lia. }
    rewrite Hr. simpl.
    assert (Hend : off + n <= s_len d).
    { destruct (Hbit (Z.to_nat (n - 1)) ltac:(lia)) as [_ H].
      destruct (Hsome (Z.to_nat (n - 1)) Hl ltac:(lia)) as [x Hx]. rewrite Hx in H.
      apply lookup_lt_blen in H. rewrite blen_s_data in H by done. lia. }
    destruct (Z.ltb_spec (s_len d) (off + n)); [lia|]. do 2 f_equal.
    assert (Hlen : blen (s_data d) = s_len d) by (by apply blen_s_data).
    apply list_eq_lookup_z; [rewrite blen_take_z, blen_drop_z; lia|].
    intros j Hlt. rewrite blen_take_z, blen_drop_z in Hlt.
    rewrite lookup_take_z, lookup_drop_z by lia. apply Hbit. lia.
Qed.

(** A demand fill as its callers make it: it starts on a sub-block boundary, ends
    on one or at the end of what is cached, and leaves no gap that would be taken
    for file content. *)
Definition alignedFill (m : MemStore) (id : FileID) (idx subOff len : Z) : Prop :=
  0 <= subOff /\ 0 < len /\ subOff + len <= m_chunkSize m /\ subOff mod SubBlockSize = 0 /\
  forall cur, chunkData m (Key id) idx = Some cur ->
    ((subOff + len) mod SubBlockSize = 0 \/ blen cur <= subOff + len) /\
    (subOff <= blen cur \/ (chunkBitmap m (Key id) idx <> None /\ blen cur mod SubBlockSize = 0)).

Lemma chunkBitmap_entry m id idx : chunkBitmap m (Key id) idx = present (entry m id) !! idx.
Proof.
  unfold chunkBitmap, entry. destruct (files m !! Key id); simpl; [done|]. by rewrite lookup_empty.
Qed.

(** Whether position [i] lies in a sub-block overlapping the aligned range
    [subOff, subOff+len). *)
Lemma sub_in_range subOff len i :
  0 <= subOff -> 0 < len -> subOff mod SubBlockSize = 0 -> 0 <= i ->
  (subOff / SubBlockSize <=? i / SubBlockSize) &&
    (i / SubBlockSize <=? (subOff + len - 1) / SubBlockSize) = true ->
  subOff <= i < subOff + len \/
  (subOff + len <= i /\ (subOff + len) mod SubBlockSize <> 0).
Proof.
  unfold SubBlockSize. intros Ho Hl Ha Hi H. zbool.
  pose proof (Z.div_mod subOff 4096). pose proof (Z.div_mod i 4096).
  pose proof (Z.div_mod (subOff + len - 1) 4096). pose proof (Z.mod_pos_bound i 4096).
  pose proof (Z.mod_pos_bound (subOff + len - 1) 4096).
  destruct (Z.lt_ge_cases i (subOff + len)); [left; lia|right]. split; [done|]. intros Hm.
  pose proof (Z.div_mod (subOff + len) 4096). lia.
Qed.

Lemma in_range_sub subOff len i :
  0 <= subOff <= i -> i < subOff + len ->
  (subOff / SubBlockSize <=? i / SubBlockSize) &&
    (i / SubBlockSize <=? (subOff + len - 1) / SubBlockSize) = true.
Proof.
  unfold SubBlockSize. intros. apply andb_true_iff. rewrite !Z.leb_le.
  split; apply Z.div_le_mono; lia.
Qed.

(** The buffer of a filled chunk, byte by byte. *)
Lemma filled_lookup buf subOff data i cur :
  wf_slice buf -> 0 <= subOff -> subOff + blen data <= s_len buf -> 0 <= i ->
  (forall i, Z.of_nat i < s_len buf -> ~ (subOff <= Z.of_nat i < subOff + blen data) ->
     s_data buf !! i = if Z.of_nat i <? blen cur then cur !! i else Some Byte.x00) ->
  s_data (s_copy buf subOff data) !! Z.to_nat i =
    if (subOff <=? i) && (i <? subOff + blen data) then data !! Z.to_nat (i - subOff)
    else if s_len buf <=? i then None
    else if i <? blen cur then cur !! Z.to_nat i else Some Byte.x00.
Proof.
  intros Hw Ho Hl Hi Hg. pose proof (blen_nonneg data).
  destruct (Z.leb_spec (s_len buf) i).
  - destruct (Z.leb_spec subOff i), (Z.ltb_spec i (subOff + blen data)); try lia; simpl;
      apply lookup_ge_None_2;
      pose proof (blen_s_data _ (wf_s_copy buf subOff data Hw ltac:(lia))) as E;
      cbn in E; unfold blen in E; lia.
  - rewrite lookup_s_copy by (try done; lia). rewrite Z2Nat.id by lia. split_if; [done|].
    rewrite Hg by (rewrite ?Z2Nat.id by lia; intros; zbool; try lia;
                   apply andb_false_iff in Heqb as [?|?]; zbool; lia).
    by rewrite Z2Nat.id by lia.
Qed.

(** The entry [PutSub] leaves. *)
Lemma PutSub_entry m id idx subOff data :
  wf_mem m -> 0 <= subOff -> 0 < blen data -> subOff + blen data <= m_chunkSize m ->
  exists e', (MemStore_PutSub m id idx subOff data).1 = putEntry m id e' /\
    (forall idx', idx' <> idx ->
       chunks e' !! idx' = chunks (entry m id) !! idx' /\
       present e' !! idx' = present (entry m id) !! idx') /\
    let cur := chunks (entry m id) !! idx in
    let bm := present (entry m id) !! idx in
    (exists b, chunks e' !! idx = Some b /\
       forall i, 0 <= i -> s_data b !! Z.to_nat i =
         if (subOff <=? i) && (i <? subOff + blen data) then data !! Z.to_nat (i - subOff)
         else if Z.max (subOff + blen data) (blen (default [] (s_data <$> cur))) <=? i then None
         else if i <? blen (default [] (s_data <$> cur))
              then default [] (s_data <$> cur) !! Z.to_nat i else Some Byte.x00) /\
    present e' !! idx =
      if (match cur, bm with Some _, None => true | _, _ => false end) then None
      else Some (bmSetRange (default (repeat 0 (Z.to_nat (bmWords (m_subsPerChunk m)))) bm)
                   (subOff / SubBlockSize) ((subOff + blen data - 1) / SubBlockSize)).
Proof.
  intros Hm Ho Hd Hn. unfold MemStore_PutSub.
  destruct (growBuf_spec (m_chunkSize m) (chunks (entry m id) !! idx) subOff (blen data))
    as (buf & -> & Hw & Hl & Hg); [intros b; by apply wf_entry_slice|lia..|].
  eexists. split; [reflexivity|]. cbv zeta. rewrite growTo_chunks, growTo_present.
  set (full := match chunks (entry m id) !! idx, present (entry m id) !! idx with
               | Some _, None => true | _, _ => false end).
  set (cur := default [] (s_data <$> chunks (entry m id) !! idx)).
  assert (Hcl : s_len buf = Z.max (subOff + blen data) (blen cur)).
  { rewrite Hl. unfold cur. destruct (chunks (entry m id) !! idx) as [b|] eqn:E; simpl; [|done].
    by rewrite blen_s_data by (by eapply wf_entry_slice). }
  assert (Hg' : forall i, Z.of_nat i < s_len buf -> ~ (subOff <= Z.of_nat i < subOff + blen data) ->
    s_data buf !! i = if Z.of_nat i <? blen cur then cur !! i else Some Byte.x00).
  { intros i Hi Hout. rewrite Hg by done. unfold cur.
    destruct (chunks (entry m id) !! idx) as [b|] eqn:E; simpl.
    - by rewrite blen_s_data by (by eapply wf_entry_slice).
    - change (blen []) with 0. destruct (Z.ltb_spec (Z.of_nat i) 0); [lia|done]. }
  rewrite subSpan_pos by done. split_and!.
  - intros idx' Hne. destruct full; cbn; rewrite ?lookup_insert_ne, ?lookup_partial_alter_ne by done; done.
  - exists (s_copy buf subOff data). split; [destruct full; cbn; by rewrite lookup_insert_eq|].
    intros i Hi. rewrite (filled_lookup buf subOff data i cur) by (try done; lia). by rewrite Hcl.
  - unfold full. destruct (chunks (entry m id) !! idx) as [c|], (present (entry m id) !! idx) as [bm|] eqn:Ep;
      cbn; rewrite ?lookup_partial_alter_eq, ?Ep; done.
Qed.

(** What a demand read serves from a chunk's bytes and bitmap. *)
Definition knownOf (cur : option bytes) (bm : option (list Z)) (i : Z) : option byte :=
  c ← cur;
  if (match bm with None => true | Some bm => bmGet bm (i / SubBlockSize) end)
  then (if 0 <=? i then c !! Z.to_nat i else None) else None.

Lemma knownEnt_of e idx i :
  knownEnt e idx i = knownOf (s_data <$> chunks e !! idx) (present e !! idx) i.
Proof. unfold knownEnt, knownOf. by destruct (chunks e !! idx). Qed.

(** The bytes of a filled chunk outside the filled range. *)
Lemma filled_outside subOff data (cur : bytes) i (r : option byte) :
  0 <= i -> ~ (subOff <= i < subOff + blen data) ->
  r = (if (subOff <=? i) && (i <? subOff + blen data) then data !! Z.to_nat (i - subOff)
       else if Z.max (subOff + blen data) (blen cur) <=? i then None
       else if i <? blen cur then cur !! Z.to_nat i else Some Byte.x00) ->
  (i < blen cur -> r = cur !! Z.to_nat i) /\
  (blen cur <= i -> subOff + blen data <= i -> r = None).
Proof.
  intros Hi Hout ->.
  replace ((subOff <=? i) && (i <? subOff + blen data)) with false
    by (symmetry; apply andb_false_iff; rewrite Z.leb_gt, Z.ltb_ge; lia).
  split; intros.
  - destruct (Z.leb_spec (Z.max (subOff + blen data) (blen cur)) i); [lia|].
    by destruct (Z.ltb_spec i (blen cur)); [|lia].
  - by destruct (Z.leb_spec (Z.max (subOff + blen data) (blen cur)) i); [|lia].
Qed.

Lemma lookup_past (c : bytes) i : blen c <= i -> c !! Z.to_nat i = None.
Proof. intros. apply lookup_ge_None_2. unfold blen in *. lia. Qed.

(** The chunk a fill leaves, inside and outside the filled range. *)
Lemma fill_known_chunk m id idx subOff data (d : bytes) i :
  wf_mem m -> 0 <= subOff -> 0 < blen data -> subOff + blen data <= m_chunkSize m ->
  subOff mod SubBlockSize = 0 ->
  let cur := s_data <$> chunks (entry m id) !! idx in
  let bm := present (entry m id) !! idx in
  (forall c, cur = Some c ->
    ((subOff + blen data) mod SubBlockSize = 0 \/ blen c <= subOff + blen data) /\
    (subOff <= blen c \/ (bm <> None /\ blen c mod SubBlockSize = 0))) ->
  (forall i, 0 <= i -> d !! Z.to_nat i =
     if (subOff <=? i) && (i <? subOff + blen data) then data !! Z.to_nat (i - subOff)
     else if Z.max (subOff + blen data) (blen (default [] cur)) <=? i then None
     else if i <? blen (default [] cur) then default [] cur !! Z.to_nat i else Some Byte.x00) ->
  let bm' := if (match chunks (entry m id) !! idx, bm with Some _, None => true | _, _ => false end)
             then None
             else Some (bmSetRange (default (repeat 0 (Z.to_nat (bmWords (m_subsPerChunk m)))) bm)
                          (subOff / SubBlockSize) ((subOff + blen data - 1) / SubBlockSize)) in
  (subOff <= i < subOff + blen data -> knownOf (Some d) bm' i = data !! Z.to_nat (i - subOff)) /\
  (~ (subOff <= i < subOff + blen data) -> knownOf (Some d) bm' i = knownOf cur bm i).
Proof.
  intros Hm Ho Hd Hn Ha cur bm Hcur Hdata bm'. subst bm'.
  assert (Hfirst : 0 <= subOff / SubBlockSize) by (apply Z.div_pos; unfold SubBlockSize; lia).
  pose proof (sub_words m (subOff + blen data - 1) Hm ltac:(lia)) as Hlast.
  pose proof (wf_bitmap_fresh m (mkSlice [] 0) Hm) as (Hfl & _ & [= <-] & Hf0). cbn in Hf0.
  pose proof (wf_ent_entry m id Hm) as [Hws Hwb].
  split; intros Hr.
  { unfold knownOf. simpl. replace (0 <=? i) with true by (symmetry; apply Z.leb_le; lia).
    rewrite Hdata by lia. rewrite (proj2 (andb_true_iff _ _)) by (rewrite Z.leb_le, Z.ltb_lt; lia).
    assert (Hset : forall bm0, blen bm0 = m_words m ->
      bmGet (bmSetRange bm0 (subOff / SubBlockSize) ((subOff + blen data - 1) / SubBlockSize))
        (i / SubBlockSize) = true).
    { intros bm0 Hbl. rewrite bmGet_bmSetRange, in_range_sub by lia. done. }
    unfold bm. destruct (chunks (entry m id) !! idx), (present (entry m id) !! idx) as [bm0|] eqn:Eb;
      simpl; rewrite ?Hset; try done; by apply Hwb in Eb as [? _]. }
  destruct (decide (0 <= i)) as [Hi|Hi].
  2:{ unfold knownOf. replace (0 <=? i) with false by (symmetry; apply Z.leb_gt; lia).
      destruct cur; simpl; by repeat case_match. }
  specialize (Hdata i Hi). destruct (filled_outside _ _ _ _ _ Hi Hr Hdata) as [Hlow Hhigh].
  clear Hdata.
  pose proof (sub_in_range subOff (blen data) i Ho Hd Ha Hi) as Hsub.
  unfold knownOf. simpl. replace (0 <=? i) with true by (symmetry; apply Z.leb_le; lia).
  unfold cur, bm in *. destruct (chunks (entry m id) !! idx) as [c|] eqn:Ec; simpl in *.
  2:{ destruct (present (entry m id) !! idx) as [bm0|] eqn:Eb; simpl.
      { apply Hwb in Eb as (_ & ? & ? & _). congruence. }
      rewrite bmGet_bmSetRange by lia. destruct (_ && _) eqn:Er; simpl.
      - destruct (Hsub eq_refl) as [?|[? _]]; [lia|]. apply Hhigh; [change (blen []) with 0; lia|done].
      - destruct (bmGet _ _) eqn:Eg; [|done]. apply Hf0 in Eg.
        pose proof (Z.div_pos i SubBlockSize Hi ltac:(done)). unfold SubBlockSize in *. lia. }
  destruct (Hcur _ eq_refl) as [Htail Hgap].
  destruct (Z.lt_ge_cases i (blen (s_data c))) as [Hic|Hic].
  - rewrite (Hlow Hic). destruct (present (entry m id) !! idx) as [bm0|] eqn:Eb; simpl; [|done].
    rewrite bmGet_bmSetRange by (try lia; apply Hwb in Eb as [-> _]; lia).
    destruct (_ && _) eqn:Er; simpl; [|done]. destruct (Hsub eq_refl) as [?|[? ?]]; lia.
  - rewrite (lookup_past _ _ Hic).
    destruct (Z.lt_ge_cases i (subOff + blen data)) as [Hin|Hin].
    2:{ rewrite (Hhigh Hic Hin). by repeat case_match. }
    destruct Hgap as [?|[Hbm Hal]]; [lia|].
    destruct (present (entry m id) !! idx) as [bm0|] eqn:Eb; simpl; [|done].
    rewrite bmGet_bmSetRange by (try lia; apply Hwb in Eb as [-> _]; lia).
    destruct (_ && _) eqn:Er; simpl; [destruct (Hsub eq_refl) as [?|[? ?]]; lia|].
    destruct (bmGet bm0 _) eqn:Eg; [|done]. exfalso.
    apply Hwb in Eb as (_ & b0 & Hb0 & Hj). rewrite Ec in Hb0. injection Hb0 as <-. apply Hj in Eg.
    rewrite blen_s_data in * by (by eapply Hws). unfold SubBlockSize in *.
    pose proof (Z.div_mod (s_len c) 4096). pose proof (Z.div_le_mono (s_len c) i 4096). lia.
Qed.

(** Demand fills: after an aligned fill of a sub-range, a demand read serves
    the filled bytes in that range and, everywhere else, in every chunk of every
    file, exactly what it served before: no unfilled byte becomes visible and no
    cached byte is lost. *)
Theorem PutSub_known m id idx subOff data :
  wf_mem m -> alignedFill m id idx subOff (blen data) ->
  forall id' idx' i,
  knownByte (MemStore_PutSub m id idx subOff data).1 id' idx' i =
    if decide (Key id' = Key id /\ idx' = idx /\ subOff <= i < subOff + blen data)
    then data !! Z.to_nat (i - subOff) else knownByte m id' idx' i.
Proof.
  intros Hm (Ho & Hd & Hn & Ha & Hcur) id' idx' i.
  destruct (PutSub_entry m id idx subOff data Hm Ho Hd Hn) as (e' & -> & Hoth & (b & Hb & Hdata) & Hp).
  rewrite !knownByte_entry, entry_putEntry.
  destruct (decide (Key id' = Key id)) as [Hk|Hk]; [|by rewrite decide_False by tauto].
  assert (entry m id' = entry m id) as -> by (unfold entry; by rewrite Hk).
  destruct (decide (idx' = idx)) as [->|Hi].
  2:{ rewrite decide_False by tauto. unfold knownEnt. by destruct (Hoth idx' Hi) as [-> ->]. }
  rewrite !knownEnt_of, Hb, Hp.
  rewrite chunkBitmap_entry, chunkData_entry in Hcur.
  destruct (fill_known_chunk m id idx subOff data (s_data b) i) as [H1 H2]; try done.
  destruct (decide (subOff <= i < subOff + blen data)) as [Hin|Hout].
  - rewrite decide_True by done. apply H1, Hin.
  - rewrite decide_False by tauto. apply H2, Hout.
Qed.

Lemma PutSub_known_witness :
  let id := mkFileID (go "d/vol") (go "db") 0 0 true in
  let m := NewMemStore 16384 in
  knownByte (MemStore_PutSub m id 0 8192 [Byte.x41; Byte.x42]).1 id 0 8193 = Some Byte.x42.
Proof.
  intros id m. rewrite (PutSub_known m id 0 8192 [Byte.x41; Byte.x42]).
  - by vm_compute.
  - apply wf_NewMemStore.
  - unfold alignedFill. split_and!; by vm_compute.
Defined.

(** ** Claims about writes *)

(** The in-place read-modify-write of [WriteChunk], which reslices the cached
    buffer and clears what that exposes, leaves exactly what copying the chunk
    into a zeroed buffer would: a full write stores the data, a partial write to
    an absent chunk does nothing, a partial write to a cached chunk keeps the
    overlaid chunk if it hashes to the caller's hash and drops it otherwise; no
    other chunk of any file changes and the call never fails. *)
Theorem WriteChunk_out_of_place hashChunk m id idx off data chunkLen h :
  wf_mem m -> 0 <= off -> off + blen data <= chunkLen <= m_chunkSize m ->
  let r := MemStore_WriteChunk hashChunk m id idx off data chunkLen h in
  r.2 = None /\
  forall key idx', chunkData r.1 key idx' =
    if decide (key = Key id /\ idx' = idx)
    then writeChunkSpec hashChunk (chunkData m (Key id) idx) off data chunkLen h
    else chunkData m key idx'.
Proof. apply WriteChunk_chunkData. Qed.

(** A checksum to run examples with. *)
Definition sumHash (b : bytes) : Z := fold_left (fun a c => a + Z_of_byte c) b 0.

Lemma WriteChunk_out_of_place_witness :
  let id := mkFileID (go "d/vol") (go "db") 0 0 true in
  let m := (MemStore_PutHashed (NewMemStore 8) id 2 (go "abcd") 0).1 in
  chunkData (MemStore_WriteChunk sumHash m id 2 5 (go "XY") 8 (97 + 98 + 99 + 100 + 88 + 89)).1
    (Key id) 2 = Some (go "abcd" ++ [Byte.x00] ++ go "XY" ++ [Byte.x00]).
Proof.
  intros id m.
  rewrite (proj2 (WriteChunk_out_of_place sumHash m id 2 5 (go "XY") 8 (97 + 98 + 99 + 100 + 88 + 89)
    ltac:(apply PutHashed_wf, wf_NewMemStore) ltac:(done) ltac:(by vm_compute))).
  by vm_compute.
Defined.

(** A verified write never caches bytes the caller does not have: whatever
    the cached chunk held before, after [WriteChunk] with the hash of the
    caller's chunk [c], the chunk is absent or is [c], unless the overlaid chunk
    and [c] are an xxh3 collision. *)
Theorem WriteChunk_never_wrong hashChunk m id idx off data chunkLen c :
  wf_mem m -> 0 <= off -> off + blen data <= chunkLen <= m_chunkSize m ->
  blen c = chunkLen -> sub_z off (blen data) c = data ->
  (forall cur, chunkData m (Key id) idx = Some cur ->
     hashChunk (overlay chunkLen cur off data) = hashChunk c -> overlay chunkLen cur off data = c) ->
  let m' := (MemStore_WriteChunk hashChunk m id idx off data chunkLen (hashChunk c)).1 in
  chunkData m' (Key id) idx = None \/ chunkData m' (Key id) idx = Some c.
Proof.
  intros Hm Ho Hl Hc Hd Hcol m'.
  destruct (WriteChunk_chunkData hashChunk m id idx off data chunkLen (hashChunk c)) as [_ H];
    [done..|]. unfold m'. rewrite H, decide_True by done. unfold writeChunkSpec.
  destruct ((off =? 0) && (blen data =? chunkLen)) eqn:Ef; zbool.
  - right. f_equal. rewrite <- Hd. subst off. unfold sub_z, drop_z. simpl.
    apply take_z_all. lia.
  - destruct (chunkData m (Key id) idx) as [cur|]; simpl; [|by left].
    destruct (Z.eqb_spec (hashChunk (overlay chunkLen cur off data)) (hashChunk c)) as [E|E];
      [|by left]. right. f_equal. by apply Hcol.
Qed.

Lemma WriteChunk_never_wrong_witness :
  let id := mkFileID (go "d/vol") (go "db") 0 0 true in
  let m := (MemStore_PutHashed (NewMemStore 8) id 0 (go "stale") 0).1 in
  let m' := (MemStore_WriteChunk sumHash m id 0 1 (go "B") 5 (sumHash (go "aBcde"))).1 in
  chunkData m' (Key id) 0 = None \/ chunkData m' (Key id) 0 = Some (go "aBcde").
Proof.
  intros id m. apply WriteChunk_never_wrong.
  - apply PutHashed_wf, wf_NewMemStore.
  - done.
  - by vm_compute.
  - done.
  - done.
  - intros cur H. vm_compute in H. injection H as <-. by vm_compute.
Defined.

Lemma mem_invariant_witness :
  let id := mkFileID (go "d/vol") (go "db") 0 0 true in
  let m := (MemStore_PutHashed (NewMemStore 8) id 0 (go "abcd") 0).1 in
  (memStep sumHash m (OpWriteChunk id 0 6 (go "zz") 8 1)).2 = None.
Proof.
  intros id m. apply (mem_invariant sumHash 8 m).
  - exact (reach_step sumHash 8 _ (OpPutHashed id 0 (go "abcd") 0) (reach_new _ _) I).
  - by vm_compute.
Defined.

(** ** Structural operations *)

Lemma fold_del_lookup d (l : list Z) e i :
  let e' := fold_left (fun e' idx => if d <=? idx then del_chunk idx e' else e') l e in
  chunks e' !! i = (if bool_decide (i ∈ l) && (d <=? i) then None else chunks e !! i) /\
  present e' !! i = (if bool_decide (i ∈ l) && (d <=? i) then None else present e !! i).
Proof.
  revert e. induction l as [|j l IH]; intros e; [done|]. cbn [fold_left].
  specialize (IH (if d <=? j then del_chunk j e else e)). cbv zeta in *.
  destruct IH as [-> ->].
  destruct (decide (i ∈ l)) as [Hl|Hl].
  - rewrite !bool_decide_true by (try right; done). cbn [andb].
    destruct (d <=? i) eqn:Ed; [done|]. destruct (Z.leb_spec d j); [|done]. cbn.
    rewrite !lookup_delete_ne by (zbool; lia). done.
  - rewrite (bool_decide_false (i ∈ l)) by done. cbn [andb].
    destruct (decide (i = j)) as [->|Hj].
    + rewrite bool_decide_true by (by left). cbn [andb]. destruct (d <=? j); [|done]. cbn.
      by rewrite !lookup_delete_eq.
    + rewrite bool_decide_false by (rewrite elem_of_cons; tauto). cbn [andb].
      destruct (d <=? j); [|done]. cbn. by rewrite !lookup_delete_ne.
Qed.

Lemma knownEnt_dropFromChunk d e idx i :
  knownEnt (dropFromChunk d e) idx i = if d <=? idx then None else knownEnt e idx i.
Proof.
  unfold knownEnt, dropFromChunk.
  destruct (fold_del_lookup d (elements (dom (chunks e))) e idx) as [-> ->].
  destruct (decide (idx ∈ elements (dom (chunks e)))) as [H|H].
  - rewrite bool_decide_true by done. cbn [andb]. by destruct (d <=? idx).
  - rewrite bool_decide_false by done. cbn [andb].
    assert (chunks e !! idx = None) as -> by
      (apply not_elem_of_dom; by rewrite <- elem_of_elements).
    by destruct (d <=? idx).
Qed.

Lemma knownEnt_del_chunk j e idx i :
  knownEnt (del_chunk j e) idx i = if decide (idx = j) then None else knownEnt e idx i.
Proof.
  unfold knownEnt. cbn. case_decide as H.
  - subst. by rewrite !lookup_delete_eq.
  - by rewrite !lookup_delete_ne by congruence.
Qed.

(** Truncation and growth: after [Resize] to [newSize], the store serves no
    byte of the file at or past [newSize] nor of the chunk that held the old end
    of the file, every byte it still serves is the one it served before, and no
    other file is affected. *)
Theorem Resize_known m id newSize :
  wf_mem m -> 0 <= newSize ->
  let m' := (MemStore_Resize m id newSize).1 in
  (forall id' idx i, Key id' <> Key id -> knownByte m' id' idx i = knownByte m id' idx i) /\
  (forall idx i x, 0 <= idx -> 0 <= i < m_chunkSize m -> knownByte m' id idx i = Some x ->
     knownByte m id idx i = Some x /\ idx * m_chunkSize m + i < newSize /\
     (0 < curSize (entry m id) -> idx <> (curSize (entry m id) - 1) / m_chunkSize m)).
Proof.
  intros Hm Hs m'. pose proof (wm_cs _ Hm) as Hcs. unfold m', MemStore_Resize. cbn [fst].
  set (e2 := if 0 <? _ then _ else _). split.
  { intros id' idx i Hk. rewrite !knownByte_entry, entry_putEntry. by rewrite decide_False. }
  intros idx i x Hidx Hi. rewrite !knownByte_entry, entry_putEntry, decide_True by done.
  change (knownEnt (set_curSize newSize e2)) with (knownEnt e2). intros H.
  assert (H' : knownEnt (dropFromChunk (Z.quot newSize (m_chunkSize m)) (entry m id)) idx i = Some x /\
    (0 < curSize (entry m id) -> idx <> (curSize (entry m id) - 1) / m_chunkSize m)).
  { unfold e2 in H. destruct (Z.ltb_spec 0 (curSize (entry m id))); [|split; [done|lia]].
    rewrite knownEnt_del_chunk in H. case_decide as Hd; [done|]. split; [done|]. intros _.
    by rewrite Z.quot_div_nonneg in Hd by lia. }
  destruct H' as [H1 H2]. rewrite knownEnt_dropFromChunk, Z.quot_div_nonneg in H1 by lia.
  destruct (Z.leb_spec (newSize / m_chunkSize m) idx); [done|]. split_and!; [done| |done].
  pose proof (Z.mul_div_le newSize (m_chunkSize m) Hcs).
  assert ((idx + 1) * m_chunkSize m <= newSize / m_chunkSize m * m_chunkSize m)
    by (apply Z.mul_le_mono_nonneg_r; lia). lia.
Qed.

Lemma Resize_known_witness :
  let id := mkFileID (go "d/vol") (go "db") 0 0 true in
  let m := (MemStore_PutHashed (MemStore_PutHashed (NewMemStore 8) id 0 (go "abcdefgh") 0).1
              id 1 (go "ijkl") 0).1 in
  knownByte (MemStore_Resize m id 12).1 id 0 5 = Some Byte.x66 /\
  knownByte m id 0 5 = Some Byte.x66 /\ 0 * 8 + 5 < 12.
Proof.
  intros id m.
  destruct (Resize_known m id 12) as [_ Hr]; [apply PutHashed_wf, PutHashed_wf, wf_NewMemStore|lia|].
  assert (Hcs : m_chunkSize m = 8) by (by vm_compute). rewrite Hcs in Hr.
  assert (H : knownByte (MemStore_Resize m id 12).1 id 0 5 = Some Byte.x66) by (by vm_compute).
  clearbody m. split; [exact H|]. destruct (Hr 0 5 Byte.x66) as (H1 & H2 & _); [lia|lia|exact H|].
  by split.
Defined.

(** Rename: the blocks cached under the old path are served under the new
    one, replacing whatever was cached there, the old path serves nothing, and
    every other file is as before. *)
Theorem Rename_known m a b :
  Key a <> Key b -> is_Some (files m !! Key a) ->
  let m' := (MemStore_Rename m a b).1 in
  (forall idx i, knownByte m' b idx i = knownByte m a idx i) /\
  (forall idx i, knownByte m' a idx i = None) /\
  (forall id idx i, Key id <> Key a -> Key id <> Key b -> knownByte m' id idx i = knownByte m id idx i).
Proof.
  intros Hne [e He] m'. unfold m', MemStore_Rename, bytes_eqb.
  rewrite bool_decide_false by done. rewrite He. cbn [fst]. unfold knownByte. cbn [files].
  split_and!; intros.
  - rewrite lookup_delete_ne, lookup_insert_eq by done. by rewrite He.
  - by rewrite lookup_delete_eq.
  - by rewrite lookup_delete_ne, lookup_insert_ne by congruence.
Qed.

Lemma Rename_known_witness :
  let a := mkFileID (go "d/vol") (go "db.tmp") 0 0 true in
  let b := mkFileID (go "d/vol") (go "db") 0 0 true in
  let m := (MemStore_PutHashed (NewMemStore 8) a 0 (go "new") 0).1 in
  knownByte (MemStore_Rename m a b).1 b 0 1 = knownByte m a 0 1.
Proof.
  intros a b m.
  refine (proj1 (Rename_known m a b _ _) 0 1).
  - apply (bool_decide_unpack _). vm_compute. exact I.
  - eexists. vm_compute. reflexivity.
Defined.

(** ** The stores keep the read path's contract *)

Lemma Get_known m id idx n :
  MemStore_Get m id idx n =
    match chunks (entry m id) !! idx, present (entry m id) !! idx with
    | Some data, None => Ok (Some (take_z n (s_data data)))
    | _, _ => Ok None
    end.
Proof.
  unfold MemStore_Get, entry. destruct (files m !! Key id) as [e|]; simpl; [done|].
  by rewrite !lookup_empty.
Qed.

Definition memInv (cs : Z) (m : MemStore) : Prop := wf_mem m /\ m_chunkSize m = cs.

#[export] Instance MemStore_FillStore hashChunk cs ident :
  @FillStore MemStore (MemStore_Store hashChunk) cs ident (memInv cs).
Proof.
  split.
  - intros m id idx d [Hm Hcs] _ _ _ _. split; [by apply PutHashed_wf|done].
  - intros m id idx d id' idx' b [Hm Hcs] [_ Hid] [_ Hid'] _ _ Hd Hl Hn Hg Hb.
    cbn [st_Get st_Put MemStore_Store] in *. unfold MemStore_Put, MemStore_PutHashed in Hg.
    rewrite Get_known in *. cbn [fst] in Hg. rewrite entry_putEntry in Hg.
    destruct (decide (Key id' = Key id)) as [Hk|Hk]; [|by right].
    rewrite growTo_chunks, growTo_present in Hg. cbn in Hg.
    destruct (decide (idx' = idx)) as [->|Hi].
    + left. split_and!; [done|done|]. intros _.
      assert (Size id' = Size id) as Hs by congruence. rewrite Hs in *.
      rewrite lookup_insert_eq, lookup_partial_alter_eq in Hg. injection Hg as <-.
      rewrite (proj2 (s_data_cloneChunk m d)). apply take_z_all. lia.
    + right. rewrite lookup_insert_ne, lookup_partial_alter_ne in Hg by done.
      by replace (entry m id') with (entry m id) by (unfold entry; by rewrite Hk).
Qed.

#[export] Instance NullStore_FillStore cs ident : FillStore NullStore cs ident (fun _ => True).
Proof. split; done. Qed.

(** A file of five bytes read in chunks of four from an origin that returns one
    byte at a time. *)
Definition ex_id : FileID := mkFileID (go "ctx") (go "a.txt") 5 7 false.
Definition ex_origin (_ : bytes) : bytes := go "hello".
Definition ex_ident (_ : bytes) : Z * Z := (5, 7).
Definition ex_fetch (w : unit) (off n : Z) : unit * (bytes * option ioErr) :=
  (w, (take_z (Z.min 1 n) (drop_z off (go "hello")), None)).
Definition ex_others (w : unit) (s : MemStore) : unit * MemStore := (w, s).

Lemma ex_cached : cached ex_ident ex_origin ex_id.
Proof. done. Qed.

Lemma ex_fetch_sound w off n :
  0 <= off -> 0 < n -> off + n <= Size ex_id ->
  let b := (ex_fetch w off n).2.1 in
  blen b <= n /\ b = sub_z off (blen b) (ex_origin (Key ex_id)).
Proof.
  intros Ho Hn Hs. cbn [ex_fetch fst snd]. unfold ex_origin, sub_z.
  rewrite blen_take_z, blen_drop_z. change (blen (go "hello")) with 5. cbn in Hs.
  replace (Z.min (Z.max 0 (Z.min 1 n)) (Z.max 0 (5 - Z.max 0 off))) with 1 by lia.
  replace (Z.min 1 n) with 1 by lia. split; [lia|done].
Qed.

Lemma ex_healthy : healthy ex_fetch ex_id.
Proof.
  intros w off n Ho Hn Hs. left. split; [done|]. rewrite blen_take_z, blen_drop_z.
  change (blen (go "hello")) with 5. cbn in Hs. lia.
Qed.

Lemma ex_coherent : @coherent MemStore (MemStore_Store sumHash) 4 ex_ident (memInv 4) ex_origin (NewMemStore 4).
Proof.
  split; [split; [apply wf_NewMemStore|done]|]. intros id idx b _ _ _ H. cbn in H.
  rewrite Get_known in H. unfold entry in H. cbn in H. by rewrite !lookup_empty in H.
Qed.

Lemma ReadAt_sound_witness :
  exists w' s' b err,
    @ReadAt MemStore (MemStore_Store sumHash) unit ex_fetch ex_others 4 tt (NewMemStore 4)
      ex_id 5 3 3 = Some (w', s', (b, err)) /\
    @coherent MemStore (MemStore_Store sumHash) 4 ex_ident (memInv 4) ex_origin s' /\ blen b <= 3 /\
    (b <> [] -> 0 <= 3 /\ b = sub_z 3 (blen b) (go "hello")).
Proof.
  exact (@ReadAt_sound MemStore (MemStore_Store sumHash) unit ex_fetch ex_others 4 eq_refl ex_ident (memInv 4)
    (MemStore_FillStore sumHash 4 ex_ident) ex_origin ex_id ex_cached (fun w s H => H) ex_fetch_sound
    tt (NewMemStore 4) 3 3 ex_coherent ltac:(done)).
Defined.

Lemma ReadAt_complete_witness :
  exists w' s' b err,
    @ReadAt MemStore (MemStore_Store sumHash) unit ex_fetch ex_others 4 tt (NewMemStore 4)
      ex_id 5 3 3 = Some (w', s', (b, err)) /\
    b = sub_z 3 2 (go "hello") /\ err = Some EOF.
Proof.
  exact (@ReadAt_complete MemStore (MemStore_Store sumHash) unit ex_fetch ex_others 4 eq_refl ex_ident (memInv 4)
    (MemStore_FillStore sumHash 4 ex_ident) ex_origin ex_id ex_cached (fun w s H => H) ex_fetch_sound
    tt (NewMemStore 4) 3 3 ex_coherent ltac:(done) ex_healthy).
Defined.

(** ** Where the store serves bytes that were never filled *)

(** Chunk 0 of a file in two demand-filled sub-blocks of 'A' and 'C'. *)
Definition ex_db : FileID := mkFileID (go "d/vol") (go "db") 0 0 true.

(** A verified write that drops a demand-filled chunk leaves its bitmap
    behind: after the drop, filling one sub-block makes a demand read serve
    zeros for the other, which was dropped and never filled again. *)
Theorem WriteChunk_stale_bitmap :
  let m1 := (MemStore_PutSub (NewMemStore 8192) ex_db 0 0 (replicate 4096 Byte.x41)).1 in
  let m2 := (MemStore_WriteChunk sumHash m1 ex_db 0 10 [Byte.x42] 8192 0).1 in
  let m3 := (MemStore_PutSub m2 ex_db 0 4096 (replicate 4096 Byte.x43)).1 in
  MemStore_GetSub m2 ex_db 0 0 4096 = Ok None /\
  MemStore_GetSub m3 ex_db 0 0 4096 = Ok (Some (zeros 4096)).
Proof. vm_compute. split; reflexivity. Qed.

(** An unverified write to a demand-filled chunk marks every sub-block it
    touches as present, though it fills only part of one: with sub-blocks 0 and 2
    filled and one byte written in sub-block 1, a demand read serves sub-block 1
    as zeros around that byte. *)
Theorem WriteThrough_marks_unfilled :
  let m1 := (MemStore_PutSub (NewMemStore 12288) ex_db 0 0 (replicate 4096 Byte.x41)).1 in
  let m2 := (MemStore_PutSub m1 ex_db 0 8192 (replicate 4096 Byte.x43)).1 in
  let m3 := (MemStore_WriteThrough m2 ex_db 0 4100 [Byte.x42] 12288).1 in
  MemStore_GetSub m2 ex_db 0 4096 4096 = Ok None /\
  MemStore_GetSub m3 ex_db 0 4096 4096 =
    Ok (Some (replicate 4 Byte.x00 ++ [Byte.x42] ++ replicate 4091 Byte.x00)).
Proof. vm_compute. split; reflexivity. Qed.
