(* ===== verification/DiskStore.v ===== *)
(** * DiskStore: the on-disk store (pkg/blockcache/diskstore.go)

    The disk holds, per key, the sparse backing file and the sidecar index; a
    sidecar that does not parse is kept as [None].  The JSON of a sidecar is the
    record it encodes.

    Methods run in an I/O monad over the disk.  The disk carries a schedule of
    events, one per system call: the call succeeds, fails without effect, is
    torn (a write leaves a prefix and fails), or finds that [Prune] has just
    removed a pair.  A crash at some call is the schedule on which that call and
    all later ones fail: what is then on the disk is what a restarted server
    finds.  The striped lock makes each method atomic with respect to the other
    methods of the store, not with respect to [Prune], which takes no lock. *)

From Stdlib Require Import ZArith Lia.
From Stdlib.Strings Require Import Byte.
From stdpp Require Import base list gmap.
From S2P Require Import Prelude GoStd BlockCache.
Open Scope Z_scope.

(** ** The index *)

Record diskIndex := mkDiskIndex {
  di_Size : Z; di_MTimeNs : Z; di_Writable : bool;
  di_CurSize : Z; di_ChunkSize : Z;
  di_Bitmap : list Z; di_SubBitmap : list Z; di_Hashes : list Z;
  di_HintSet : bool; di_HintSize : Z; di_HintMTimeNs : Z }.

Definition set_bitmap (b : list Z) (di : diskIndex) : diskIndex :=
  mkDiskIndex (di_Size di) (di_MTimeNs di) (di_Writable di) (di_CurSize di) (di_ChunkSize di)
    b (di_SubBitmap di) (di_Hashes di) (di_HintSet di) (di_HintSize di) (di_HintMTimeNs di).
Definition set_subBitmap (b : list Z) (di : diskIndex) : diskIndex :=
  mkDiskIndex (di_Size di) (di_MTimeNs di) (di_Writable di) (di_CurSize di) (di_ChunkSize di)
    (di_Bitmap di) b (di_Hashes di) (di_HintSet di) (di_HintSize di) (di_HintMTimeNs di).
Definition set_hashes (h : list Z) (di : diskIndex) : diskIndex :=
  mkDiskIndex (di_Size di) (di_MTimeNs di) (di_Writable di) (di_CurSize di) (di_ChunkSize di)
    (di_Bitmap di) (di_SubBitmap di) h (di_HintSet di) (di_HintSize di) (di_HintMTimeNs di).
Definition set_diCurSize (v : Z) (di : diskIndex) : diskIndex :=
  mkDiskIndex (di_Size di) (di_MTimeNs di) (di_Writable di) v (di_ChunkSize di)
    (di_Bitmap di) (di_SubBitmap di) (di_Hashes di) (di_HintSet di) (di_HintSize di) (di_HintMTimeNs di).
Definition set_hint (size mtime : Z) (di : diskIndex) : diskIndex :=
  mkDiskIndex (di_Size di) (di_MTimeNs di) (di_Writable di) (di_CurSize di) (di_ChunkSize di)
    (di_Bitmap di) (di_SubBitmap di) (di_Hashes di) true size mtime.

Definition numChunks (size chunkSize : Z) : Z :=
  if size <=? 0 then 0 else Z.quot (size + chunkSize - 1) chunkSize.

(** Bitmaps of bytes.  [setBit] is only called on a bitmap grown to hold the
    bit. *)
Definition bitSet (bm : list Z) (i : Z) : bool :=
  let byteIdx := Z.quot i 8 in
  if blen bm <=? byteIdx then false
  else negb (Z.land (default 0 (bm !! Z.to_nat byteIdx)) (1 ≪ (Z.rem i 8)) =? 0).

Definition setBit (bm : list Z) (i : Z) : list Z :=
  alter (fun v => Z.lor v (1 ≪ (Z.rem i 8))) (Z.to_nat (Z.quot i 8)) bm.

Definition clearBit (bm : list Z) (i : Z) : list Z :=
  if Z.quot i 8 <? blen bm
  then alter (fun v => Z.ldiff v (1 ≪ (Z.rem i 8))) (Z.to_nat (Z.quot i 8)) bm else bm.

(** [grown := make([]T, n); copy(grown, l)] when [n] exceeds the length. *)
Definition growList (n : Z) (l : list Z) : list Z :=
  l ++ replicate (Z.to_nat (n - blen l)) 0.

Definition grow (idx : Z) (di : diskIndex) : diskIndex :=
  let di1 := if blen (di_Bitmap di) <=? Z.quot idx 8
             then set_bitmap (growList (Z.quot idx 8 + 1) (di_Bitmap di)) di else di in
  if blen (di_Hashes di1) <=? idx then set_hashes (growList (idx + 1) (di_Hashes di1)) di1 else di1.

Definition hashAt (di : diskIndex) (idx : Z) : Z :=
  if idx <? blen (di_Hashes di) then default 0 (di_Hashes di !! Z.to_nat idx) else 0.

Definition setHash (idx h : Z) (di : diskIndex) : diskIndex :=
  if idx <? blen (di_Hashes di)
  then set_hashes (<[Z.to_nat idx := h]> (di_Hashes di)) di else di.

Definition ensureSubBitmap (sub : Z) (di : diskIndex) : diskIndex :=
  let need := Z.quot sub 8 + 1 in
  if blen (di_SubBitmap di) <? need then set_subBitmap (growList need (di_SubBitmap di)) di else di.

(** [for s := first; s <= last; s++ { setBit(di.SubBitmap, s) }] *)
Definition setSubBits (first last : Z) (di : diskIndex) : diskIndex :=
  set_subBitmap (fold_left setBit (zrange first last) (di_SubBitmap di)) di.

Section Params.
Variable chunkSize : Z.

Definition setChunkSubBits (idx : Z) (di : diskIndex) : diskIndex :=
  let first := Z.quot (idx * chunkSize) SubBlockSize in
  let last := Z.quot ((idx + 1) * chunkSize - 1) SubBlockSize in
  setSubBits first last (ensureSubBitmap last di).

Definition clearChunkSubBits (idx : Z) (di : diskIndex) : diskIndex :=
  let first := Z.quot (idx * chunkSize) SubBlockSize in
  let last := Z.quot ((idx + 1) * chunkSize - 1) SubBlockSize in
  set_subBitmap (fold_left clearBit (zrange first last) (di_SubBitmap di)) di.

Definition matches (di : diskIndex) (id : FileID) : bool :=
  if negb (di_ChunkSize di =? chunkSize) || negb (eqb (di_Writable di) (Writable id)) then false
  else if Writable id then true
  else (di_Size di =? Size id) && (di_MTimeNs di =? MTimeNs id).

Definition freshIndex (id : FileID) (backing : Z) : diskIndex :=
  let n := numChunks backing chunkSize in
  mkDiskIndex (if Writable id then 0 else Size id) (if Writable id then 0 else MTimeNs id)
    (Writable id) backing chunkSize
    (replicate (Z.to_nat (Z.quot (n + 7) 8)) 0) [] (replicate (Z.to_nat n) 0) false 0 0.
End Params.

(** ** The disk *)

Inductive event := EvOk | EvFail | EvTorn (n : Z) | EvPrune (key : bytes).

Record disk := mkDisk {
  dk_data : gmap bytes bytes;
  dk_idx : gmap bytes (option diskIndex);
  dk_events : list event }.

Definition set_data (key : bytes) (c : option bytes) (d : disk) : disk :=
  mkDisk (partial_alter (fun _ => c) key (dk_data d)) (dk_idx d) (dk_events d).
Definition set_idx (key : bytes) (c : option (option diskIndex)) (d : disk) : disk :=
  mkDisk (dk_data d) (partial_alter (fun _ => c) key (dk_idx d)) (dk_events d).
Definition set_events (l : list event) (d : disk) : disk := mkDisk (dk_data d) (dk_idx d) l.

(** [Prune]'s removal of one pair (pkg/blockcache/prune.go). *)
Definition removePair (key : bytes) (d : disk) : disk := set_idx key None (set_data key None d).

Definition EIO : ioErr := ErrIO 5.

Definition io : Type -> Type := stm disk ioErr.
#[export] Instance io_ret : MRet io := stm_ret disk ioErr.
#[export] Instance io_bind : MBind io := stm_bind disk ioErr.

(** One system call; [torn] is what an interrupted one leaves. *)
Definition sys {A} (call : disk -> res ioErr A * disk) (torn : Z -> disk -> disk) : io A := fun d =>
  match dk_events d with
  | [] => call d
  | ev :: evs =>
      let d' := set_events evs d in
      match ev with
      | EvOk => call d'
      | EvFail => (Err EIO, d')
      | EvTorn n => (Err EIO, torn n d')
      | EvPrune key => call (removePair key d')
      end
  end.

Definition sys_ {A} (call : disk -> res ioErr A * disk) : io A := sys call (fun _ d => d).

(** ** File contents *)

(** [WriteAt]: past the end the gap reads as zeros. *)
Definition fileWriteAt (c : bytes) (off : Z) (data : bytes) : bytes :=
  take_z off c ++ zeros (off - blen c) ++ data ++ drop_z (off + blen data) c.

Definition fileTruncate (c : bytes) (n : Z) : bytes := take_z n c ++ zeros (n - blen c).

(** ** System calls *)

Definition mkdirAll : io unit := sys_ (fun d => (Ok tt, d)).

(** [os.OpenFile(path, O_RDWR|O_CREATE, ...)] *)
Definition openCreate (key : bytes) : io unit := sys_ (fun d =>
  (Ok tt, match dk_data d !! key with
          | None => set_data key (Some []) d
          | Some _ => d end)).

(** [os.Open]: the open file keeps its contents if the name is removed. *)
Definition openRead (key : bytes) : io bytes := sys_ (fun d =>
  match dk_data d !! key with None => (Err ErrNotExist, d) | Some c => (Ok c, d) end).

(** [f.ReadAt(buf, off)]: the bytes read. *)
Definition readAt (c : bytes) (off n : Z) : io bytes := sys_ (fun d =>
  (Ok (take_z n (drop_z off c)), d)).

(** [f.WriteAt]; a file removed since it was opened takes the bytes with it. *)
Definition writeAt (key : bytes) (off : Z) (data : bytes) : io unit :=
  let put k d := match dk_data d !! key with
                 | None => d
                 | Some c => set_data key (Some (fileWriteAt c off (take_z k data))) d end in
  sys (fun d => (Ok tt, put (blen data) d)) put.

Definition fsync : io unit := sys_ (fun d => (Ok tt, d)).
Definition fclose : io unit := sys_ (fun d => (Ok tt, d)).

Definition ftruncate (key : bytes) (size : Z) : io unit := sys_ (fun d =>
  (Ok tt, match dk_data d !! key with
          | None => d
          | Some c => set_data key (Some (fileTruncate c size)) d end)).

Definition removeData (key : bytes) : io unit := sys_ (fun d =>
  match dk_data d !! key with
  | None => (Err ErrNotExist, d)
  | Some _ => (Ok tt, set_data key None d) end).
Definition removeIdx (key : bytes) : io unit := sys_ (fun d =>
  match dk_idx d !! key with
  | None => (Err ErrNotExist, d)
  | Some _ => (Ok tt, set_idx key None d) end).

(** ** Files of an entry *)

Definition writeData (key : bytes) (off : Z) (data : bytes) : io unit :=
  openCreate key ≫= fun _ =>
  attempt (writeAt key off data) ≫= fun r =>
  match r with
  | Err e => attempt fclose ≫= fun _ => throw e
  | Ok _ =>
      attempt fsync ≫= fun r =>
      match r with
      | Err e => attempt fclose ≫= fun _ => throw e
      | Ok _ => fclose
      end
  end.

Definition readData (key : bytes) (off n : Z) : io bytes :=
  c ← openRead key;
  b ← readAt c off n;
  if blen b =? n then mret b else throw EOF.

Definition truncateData (key : bytes) (size : Z) : io unit :=
  openCreate key ≫= fun _ =>
  attempt (ftruncate key size) ≫= fun r =>
  attempt fclose ≫= fun _ =>
  match r with Err e => throw e | Ok _ => mret tt end.

Definition readIndex (key : bytes) : io (option diskIndex) := sys_ (fun d =>
  (Ok (default None (dk_idx d !! key)), d)).

(** Temporary file, write, sync, close, rename into place. *)
Definition writeIndex (key : bytes) (idx : diskIndex) : io unit :=
  sys_ (fun d => (Ok tt, d)) ≫= fun _ =>
  sys_ (fun d => (Ok tt, d)) ≫= fun _ =>
  fsync ≫= fun _ =>
  fclose ≫= fun _ =>
  sys_ (fun d => (Ok tt, set_idx key (Some (Some idx)) d)).

(** ** Operations *)

Section DiskOps.
Variable hashChunk : bytes -> Z.
Variable chunkSize : Z.

Definition loadOrFresh (key : bytes) (id : FileID) (minBacking : Z) : io diskIndex :=
  mkdirAll ≫= fun _ =>
  o ← readIndex key;
  let fresh :=
    attempt (removeData key) ≫= fun _ =>
    attempt (removeIdx key) ≫= fun _ =>
    let backing := if negb (Writable id) && (minBacking <? Size id) then Size id else minBacking in
    truncateData key backing ≫= fun _ =>
    mret (freshIndex chunkSize id backing) in
  match o with
  | None => fresh
  | Some di =>
      if negb (matches chunkSize di id) then fresh
      else if di_CurSize di <? minBacking
           then truncateData key minBacking ≫= fun _ => mret (set_diCurSize minBacking di)
           else mret di
  end.

Definition DiskStore_Get (id : FileID) (idx n : Z) : io (option bytes) :=
  let key := Key id in
  o ← readIndex key;
  match o with
  | None => mret None
  | Some di =>
      if negb (matches chunkSize di id) then mret None
      else if negb (bitSet (di_Bitmap di) idx) then mret None
      else
        r ← attempt (openRead key);
        match r with
        | Err ErrNotExist => mret None
        | Err e => throw e
        | Ok c =>
            r ← attempt (readAt c (idx * chunkSize) n);
            match r with
            | Ok b => if blen b =? n then mret (Some b) else mret None
            | Err _ => mret None
            end
        end
  end.

(** A whole chunk is present: bit, sub-block bits and hash. *)
Definition markChunk (idx hash : Z) (di : diskIndex) : diskIndex :=
  setHash idx hash
    (setChunkSubBits chunkSize idx (set_bitmap (setBit (di_Bitmap di) idx) di)).

(** A chunk is dropped. *)
Definition unmarkChunk (idx : Z) (di : diskIndex) : diskIndex :=
  setHash idx 0
    (clearChunkSubBits chunkSize idx (set_bitmap (clearBit (di_Bitmap di) idx) di)).

Definition putChunk (id : FileID) (idx : Z) (data : bytes) (hash : Z) : io unit :=
  let key := Key id in
  di ← loadOrFresh key id (idx * chunkSize + blen data);
  writeData key (idx * chunkSize) data ≫= fun _ =>
  writeIndex key (markChunk idx hash (grow idx di)).

Definition DiskStore_Put (id : FileID) (idx : Z) (data : bytes) : io unit :=
  putChunk id idx data (hashChunk data).
Definition DiskStore_PutHashed (id : FileID) (idx : Z) (data : bytes) (hash : Z) : io unit :=
  putChunk id idx data hash.

(** The sub-blocks of [first, last] are all present, whole chunk or demand-filled. *)
Definition subsPresent (di : diskIndex) (first last : Z) (chunkOf : Z -> Z) : bool :=
  forallb (fun s => bitSet (di_SubBitmap di) s || bitSet (di_Bitmap di) (chunkOf s))
    (zrange first last).

Definition DiskStore_GetSub (id : FileID) (idx subOff n : Z) : io (option bytes) :=
  let key := Key id in
  o ← readIndex key;
  match o with
  | None => mret None
  | Some di =>
      if negb (matches chunkSize di id) then mret None else
      let absOff := idx * chunkSize + subOff in
      let '(first, last) := subSpan absOff n in
      if negb (subsPresent di first last (fun s => Z.quot (s * SubBlockSize) chunkSize))
      then mret None
      else
        r ← attempt (readData key absOff n);
        match r with Err _ => mret None | Ok b => mret (Some b) end
  end.

Definition DiskStore_PutSub (id : FileID) (idx subOff : Z) (data : bytes) : io unit :=
  let key := Key id in
  let absOff := idx * chunkSize + subOff in
  di ← loadOrFresh key id (absOff + blen data);
  writeData key absOff data ≫= fun _ =>
  let '(first, last) := subSpan absOff (blen data) in
  writeIndex key (setSubBits first last (ensureSubBitmap last di)).

Definition DiskStore_WriteChunk (id : FileID) (idx chunkOff : Z) (data : bytes)
    (chunkLen callerHash : Z) : io unit :=
  let key := Key id in
  let full := (chunkOff =? 0) && (blen data =? chunkLen) in
  r ← attempt (readIndex key);
  let present := match r with
                 | Ok (Some di) => matches chunkSize di id && bitSet (di_Bitmap di) idx
                 | _ => false end in
  if negb full && negb present then mret tt else
  di ← loadOrFresh key id (idx * chunkSize + chunkOff + blen data);
  if full then
    writeData key (idx * chunkSize) data ≫= fun _ =>
    writeIndex key (markChunk idx callerHash (grow idx di))
  else
    cur ← readData key (idx * chunkSize) chunkLen;
    writeData key (idx * chunkSize + chunkOff) data ≫= fun _ =>
    let cur' := copy_at cur chunkOff data in
    let di1 := grow idx di in
    writeIndex key (if hashChunk cur' =? callerHash
                    then markChunk idx callerHash di1 else unmarkChunk idx di1).

Definition DiskStore_WriteThrough (id : FileID) (idx chunkOff : Z) (data : bytes) (chunkLen : Z)
  : io unit :=
  let key := Key id in
  let full := (chunkOff =? 0) && (blen data =? chunkLen) in
  let '(absFirst, absLast) := subSpan (idx * chunkSize + chunkOff) (blen data) in
  r ← attempt (readIndex key);
  let cached := match r with
                | Ok (Some di) =>
                    matches chunkSize di id &&
                    (bitSet (di_Bitmap di) idx ||
                     existsb (bitSet (di_SubBitmap di)) (zrange absFirst absLast))
                | _ => false end in
  if negb full && negb cached then mret tt else
  di ← loadOrFresh key id (idx * chunkSize + chunkOff + blen data);
  writeData key (idx * chunkSize + chunkOff) data ≫= fun _ =>
  let di1 := grow idx di in
  let di2 :=
    if full then setChunkSubBits chunkSize idx (set_bitmap (setBit (di_Bitmap di1) idx) di1)
    else setSubBits absFirst absLast (ensureSubBitmap absLast di1) in
  writeIndex key (setHash idx 0 di2).

Definition DiskStore_HashRange (id : FileID) (idx off length : Z) : io (option Z) :=
  let key := Key id in
  o ← readIndex key;
  match o with
  | None => mret None
  | Some di =>
      if negb (matches chunkSize di id) then mret None else
      let '(absFirst, absLast) := subSpan (idx * chunkSize + off) length in
      if negb (subsPresent di absFirst absLast (fun _ => idx)) then mret None else
      let rem := di_CurSize di - idx * chunkSize in
      let validLen := if rem <? chunkSize then rem else chunkSize in
      if (off <? 0) || (length <? 0) || (validLen <? off + length) then mret None else
      buf ← readData key (idx * chunkSize + off) length;
      mret (Some (hashChunk buf))
  end.

Definition DiskStore_ChunkHash (id : FileID) (idx : Z) : io (option Z) :=
  o ← readIndex (Key id);
  match o with
  | None => mret None
  | Some di =>
      if negb (matches chunkSize di id) || negb (bitSet (di_Bitmap di) idx) then mret None
      else mret (Some (hashAt di idx))
  end.

Definition DiskStore_Drop (id : FileID) (idx : Z) : io unit :=
  let key := Key id in
  o ← readIndex key;
  match o with
  | None => mret tt
  | Some di => if negb (matches chunkSize di id) then mret tt
               else writeIndex key (unmarkChunk idx di)
  end.

Definition resizeIndex (newSize : Z) (di : diskIndex) : diskIndex :=
  let oldSize := di_CurSize di in
  let dropFrom := Z.quot newSize chunkSize in
  let di1 := fold_left (fun di i => unmarkChunk i di)
               (zrange dropFrom (blen (di_Bitmap di) * 8 - 1)) di in
  let di2 := if 0 <? oldSize then unmarkChunk (Z.quot (oldSize - 1) chunkSize) di1 else di1 in
  let di3 := set_diCurSize newSize di2 in
  let n := numChunks newSize chunkSize in
  let di4 := if Z.quot (n + 7) 8 <? blen (di_Bitmap di3)
             then set_bitmap (take_z (Z.quot (n + 7) 8) (di_Bitmap di3)) di3 else di3 in
  if n <? blen (di_Hashes di4) then set_hashes (take_z n (di_Hashes di4)) di4 else di4.

Definition DiskStore_Resize (id : FileID) (newSize : Z) : io unit :=
  let key := Key id in
  mkdirAll ≫= fun _ =>
  o ← readIndex key;
  let fresh :=
    truncateData key newSize ≫= fun _ => writeIndex key (freshIndex chunkSize id newSize) in
  match o with
  | None => fresh
  | Some di =>
      if negb (matches chunkSize di id) then fresh
      else truncateData key newSize ≫= fun _ => writeIndex key (resizeIndex newSize di)
  end.

Definition DiskStore_Invalidate (id : FileID) : io unit :=
  attempt (removeData (Key id)) ≫= fun _ =>
  attempt (removeIdx (Key id)) ≫= fun _ => mret tt.

(** [os.Stat] of the backing file. *)
Definition statData (key : bytes) : io unit := sys_ (fun d =>
  match dk_data d !! key with None => (Err ErrNotExist, d) | Some _ => (Ok tt, d) end).

Definition renameData (a b : bytes) : io unit := sys_ (fun d =>
  match dk_data d !! a with
  | None => (Err ErrNotExist, d)
  | Some c => (Ok tt, set_data b (Some c) (set_data a None d)) end).
Definition renameIdx (a b : bytes) : io unit := sys_ (fun d =>
  match dk_idx d !! a with
  | None => (Err ErrNotExist, d)
  | Some c => (Ok tt, set_idx b (Some c) (set_idx a None d)) end).

Definition DiskStore_Rename (oldID newID : FileID) : io unit :=
  let oldKey := Key oldID in
  let newKey := Key newID in
  if bytes_eqb oldKey newKey then mret tt else
  r ← attempt (statData oldKey);
  match r with
  | Err ErrNotExist => mret tt
  | Err e => throw e
  | Ok _ =>
      mkdirAll ≫= fun _ =>
      attempt (removeData newKey) ≫= fun _ =>
      attempt (removeIdx newKey) ≫= fun _ =>
      renameData oldKey newKey ≫= fun _ =>
      r ← attempt (renameIdx oldKey newKey);
      match r with
      | Ok _ | Err ErrNotExist => mret tt
      | Err e => throw e
      end
  end.

Definition DiskStore_Hint (id : FileID) : io (option (Z * Z)) :=
  o ← readIndex (Key id);
  match o with
  | None => mret None
  | Some di =>
      if negb (matches chunkSize di id) || negb (di_HintSet di) then mret None
      else mret (Some (di_HintSize di, di_HintMTimeNs di))
  end.

Definition DiskStore_SetHint (id : FileID) (size mtimeNs : Z) : io unit :=
  let key := Key id in
  mkdirAll ≫= fun _ =>
  o ← readIndex key;
  match o with
  | Some di =>
      if matches chunkSize di id then writeIndex key (set_hint size mtimeNs di)
      else truncateData key 0 ≫= fun _ =>
           writeIndex key (set_hint size mtimeNs (freshIndex chunkSize id 0))
  | None =>
      truncateData key 0 ≫= fun _ =>
      writeIndex key (set_hint size mtimeNs (freshIndex chunkSize id 0))
  end.

(** What is on the disk, read without failures. *)
Definition settled (d : disk) : disk := set_events [] d.

Definition reads_of {A} (m : io A) (d : disk) : res ioErr A := (m (settled d)).1.
Definition writes_of (m : io unit) (d : disk) : disk * option ioErr :=
  match m d with (Ok _, d') => (d', None) | (Err e, d') => (d', Some e) end.

Definition DiskStore_Store : Store disk := {|
  st_Get s id idx n := reads_of (DiskStore_Get id idx n) s;
  st_GetSub s id idx off n := reads_of (DiskStore_GetSub id idx off n) s;
  st_PutSub s id idx off data := writes_of (DiskStore_PutSub id idx off data) s;
  st_Put s id idx data := writes_of (DiskStore_Put id idx data) s;
  st_PutHashed s id idx data h := writes_of (DiskStore_PutHashed id idx data h) s;
  st_WriteChunk s id idx off data n h := writes_of (DiskStore_WriteChunk id idx off data n h) s;
  st_ChunkHash s id idx := reads_of (DiskStore_ChunkHash id idx) s;
  st_WriteThrough s id idx off data n := writes_of (DiskStore_WriteThrough id idx off data n) s;
  st_HashRange s id idx off n := reads_of (DiskStore_HashRange id idx off n) s;
  st_Drop s id idx := writes_of (DiskStore_Drop id idx) s;
  st_Resize s id n := writes_of (DiskStore_Resize id n) s;
  st_Invalidate s id := writes_of (DiskStore_Invalidate id) s;
  st_Rename s a b := writes_of (DiskStore_Rename a b) s;
  st_Hint s id := reads_of (DiskStore_Hint id) s;
  st_SetHint s id a b := writes_of (DiskStore_SetHint id a b) s |}.
End DiskOps.

(** ** Bitmaps of bytes *)

Lemma bitSet_spec bm i :
  0 <= i -> bitSet bm i = Z.testbit (default 0 (bm !! Z.to_nat (i / 8))) (i mod 8).
Proof.
  intros Hi. unfold bitSet. rewrite Z.quot_div_nonneg, Z.rem_mod_nonneg by lia.
  rewrite testbit_land_pow2 by (apply Z.mod_pos_bound; lia).
  destruct (Z.leb_spec (blen bm) (i / 8)) as [H|H]; [|done].
  rewrite lookup_ge_None_2; [by rewrite Z.bits_0|].
  unfold blen in H. pose proof (Z.div_pos i 8). lia.
Qed.

Lemma div_mod_inj k i j : 0 < k -> i / k = j / k -> i mod k = j mod k -> i = j.
Proof. intros. rewrite (Z.div_mod i k), (Z.div_mod j k) by lia. congruence. Qed.

Lemma bitSet_setBit bm i j :
  0 <= i -> 0 <= j -> i / 8 < blen bm -> bitSet (setBit bm i) j = (i =? j) || bitSet bm j.
Proof.
  intros Hi Hj Hw. rewrite !bitSet_spec by lia. unfold setBit.
  rewrite Z.quot_div_nonneg, Z.rem_mod_nonneg by lia.
  pose proof (Z.div_pos i 8 ltac:(lia) ltac:(lia)). pose proof (Z.div_pos j 8 ltac:(lia) ltac:(lia)).
  pose proof (Z.mod_pos_bound i 8 ltac:(lia)). pose proof (Z.mod_pos_bound j 8 ltac:(lia)).
  destruct (Z.eq_dec (i / 8) (j / 8)) as [E|E].
  - rewrite E, list_lookup_alter, decide_True by done.
    destruct (lookup_lt_is_Some_2 bm (Z.to_nat (j / 8))) as [v Hv]; [unfold blen in Hw; lia|].
    rewrite Hv. simpl. rewrite Z.lor_spec, Z.shiftl_1_l, Z.pow2_bits_eqb by lia.
    rewrite orb_comm. f_equal.
    destruct (Z.eqb_spec (i mod 8) (j mod 8)), (Z.eqb_spec i j); try done; exfalso; subst; auto.
    by eapply n, (div_mod_inj 8).
  - rewrite list_lookup_alter_ne by lia. by destruct (Z.eqb_spec i j); [subst|].
Qed.

Lemma bitSet_clearBit bm i j :
  0 <= i -> 0 <= j -> bitSet (clearBit bm i) j = negb (i =? j) && bitSet bm j.
Proof.
  intros Hi Hj. rewrite !bitSet_spec by lia. unfold clearBit.
  rewrite Z.quot_div_nonneg, Z.rem_mod_nonneg by lia.
  pose proof (Z.div_pos i 8 ltac:(lia) ltac:(lia)). pose proof (Z.div_pos j 8 ltac:(lia) ltac:(lia)).
  pose proof (Z.mod_pos_bound i 8 ltac:(lia)). pose proof (Z.mod_pos_bound j 8 ltac:(lia)).
  destruct (Z.ltb_spec (i / 8) (blen bm)) as [Hw|Hw].
  2:{ destruct (Z.eqb_spec i j) as [->|]; [|done]. simpl.
      rewrite lookup_ge_None_2; [by rewrite Z.bits_0|]. unfold blen in Hw. lia. }
  destruct (Z.eq_dec (i / 8) (j / 8)) as [E|E].
  - rewrite E, list_lookup_alter, decide_True by done.
    destruct (lookup_lt_is_Some_2 bm (Z.to_nat (j / 8))) as [v Hv]; [unfold blen in Hw; lia|].
    rewrite Hv. simpl. rewrite Z.ldiff_spec, Z.shiftl_1_l, Z.pow2_bits_eqb by lia.
    rewrite andb_comm. f_equal. f_equal.
    destruct (Z.eqb_spec (i mod 8) (j mod 8)), (Z.eqb_spec i j); try done; exfalso; subst; auto.
    by eapply n, (div_mod_inj 8).
  - rewrite list_lookup_alter_ne by lia. by destruct (Z.eqb_spec i j); [subst|].
Qed.

Lemma lookup_growList n l i : default 0 (growList n l !! i) = default 0 (l !! i).
Proof.
  unfold growList. destruct (decide (i < length l)%nat).
  - by rewrite lookup_app_l.
  - rewrite lookup_app_r, (lookup_ge_None_2 l) by lia. simpl.
    destruct (replicate _ _ !! _) eqn:E; [|done]. by apply lookup_replicate in E as [-> _].
Qed.

Lemma blen_growList n l : blen (growList n l) = Z.max n (blen l).
Proof. unfold growList. rewrite blen_app. unfold blen. rewrite length_replicate. lia. Qed.

Lemma bitSet_growList n l i : 0 <= i -> bitSet (growList n l) i = bitSet l i.
Proof. intros. rewrite !bitSet_spec by done. by rewrite lookup_growList. Qed.

Lemma bitSet_zeros n i : 0 <= i -> bitSet (replicate n 0) i = false.
Proof.
  intros. rewrite bitSet_spec by done. destruct (replicate n 0 !! _) eqn:E; simpl;
    [apply lookup_replicate in E as [-> _]|]; apply Z.bits_0.
Qed.

(** The presence bits after [grow] and [markChunk]: the chunk's, and the others
    as they were. *)
Lemma bitSet_grow idx di j : 0 <= j -> bitSet (di_Bitmap (grow idx di)) j = bitSet (di_Bitmap di) j.
Proof.
  intros. unfold grow. repeat (split_if; cbn [di_Bitmap di_Hashes set_bitmap set_hashes]);
    rewrite ?bitSet_growList by done; done.
Qed.

Lemma blen_bitmap_grow idx di : 0 <= idx -> idx / 8 < blen (di_Bitmap (grow idx di)).
Proof.
  intros. unfold grow. rewrite Z.quot_div_nonneg by lia.
  destruct (Z.leb_spec (blen (di_Bitmap di)) (idx / 8)); split_if;
    cbn [di_Bitmap set_bitmap set_hashes]; rewrite ?blen_growList; lia.
Qed.

Lemma di_Bitmap_setHash idx h di : di_Bitmap (setHash idx h di) = di_Bitmap di.
Proof. unfold setHash. by split_if. Qed.
Lemma di_Bitmap_setChunkSubBits cs idx di : di_Bitmap (setChunkSubBits cs idx di) = di_Bitmap di.
Proof. unfold setChunkSubBits, setSubBits, ensureSubBitmap. cbn. by split_if. Qed.

Lemma bitSet_mark_grow cs idx h di j :
  0 <= idx -> 0 <= j ->
  bitSet (di_Bitmap (markChunk cs idx h (grow idx di))) j = (idx =? j) || bitSet (di_Bitmap di) j.
Proof.
  intros Hi Hj. unfold markChunk. rewrite di_Bitmap_setHash, di_Bitmap_setChunkSubBits.
  cbn [di_Bitmap set_bitmap]. rewrite bitSet_setBit, bitSet_grow by (try done; by apply blen_bitmap_grow).
  done.
Qed.

(** Marking does not change what an index is the index of. *)
Definition sameIdent (a b : diskIndex) : Prop :=
  di_Size a = di_Size b /\ di_MTimeNs a = di_MTimeNs b /\ di_Writable a = di_Writable b /\
  di_ChunkSize a = di_ChunkSize b.

Lemma sameIdent_matches cs a b id : sameIdent a b -> matches cs a id = matches cs b id.
Proof. intros (E1&E2&E3&E4). unfold matches. by rewrite E1, E2, E3, E4. Qed.

Lemma mark_grow_ident cs idx h di :
  sameIdent (markChunk cs idx h (grow idx di)) di /\
  di_CurSize (markChunk cs idx h (grow idx di)) = di_CurSize di.
Proof.
  unfold markChunk, setHash, setChunkSubBits, setSubBits, ensureSubBitmap, grow, sameIdent. cbv zeta.
  repeat (split_if; cbn); done.
Qed.

(** A file after a write of [data] at [off] that may have been cut short. *)
Definition tornWrite (c0 : bytes) (off : Z) (data : bytes) (c : bytes) : Prop :=
  c = c0 \/ exists j, c = fileWriteAt c0 off (take_z j data).

(** ** A program logic for the disk

    [triple P m Q]: run from files satisfying [P], on any schedule without a
    concurrent [Prune], [m] ends, well or with an error at whatever call, in
    files satisfying [Q] of its result. *)

Definition isPrune (ev : event) : bool := match ev with EvPrune _ => true | _ => false end.
Definition noPrune (d : disk) : Prop := Forall (fun ev => isPrune ev = false) (dk_events d).

Definition files : Type := gmap bytes bytes * gmap bytes (option diskIndex).
Definition filesOf (d : disk) : files := (dk_data d, dk_idx d).

Definition triple {A} (P : files -> Prop) (m : io A) (Q : res ioErr A -> files -> Prop) : Prop :=
  forall d, noPrune d -> P (filesOf d) ->
    noPrune (m d).2 /\ Q (m d).1 (filesOf (m d).2).

Lemma triple_weaken {A} P (m : io A) (Q Q' : res ioErr A -> files -> Prop) :
  triple P m Q -> (forall r f, Q r f -> Q' r f) -> triple P m Q'.
Proof. intros Hm HQ d Hn Hp. destruct (Hm d Hn Hp). auto. Qed.

Lemma triple_ret {A} (a : A) P Q : (forall f, P f -> Q (Ok a) f) -> triple P (mret a) Q.
Proof. intros H d Hn Hp. split; [done|]. by apply H. Qed.

Lemma triple_throw {A} e P (Q : res ioErr A -> files -> Prop) :
  (forall f, P f -> Q (Err e) f) -> triple P (throw e) Q.
Proof. intros H d Hn Hp. split; [done|]. by apply H. Qed.

Lemma triple_bind {A B} P (g : io A) (f : A -> io B) (R : A -> files -> Prop) Q :
  triple P g (fun r fs => match r with Ok a => R a fs | Err e => Q (Err e) fs end) ->
  (forall a, triple (R a) (f a) Q) -> triple P (g ≫= f) Q.
Proof.
  intros Hg Hf d Hn Hp. destruct (Hg d Hn Hp) as [Hn1 Hq]. unfold mbind, io_bind, stm_bind.
  destruct (g d) as [[a|e] d1]; [by apply Hf|done].
Qed.

Lemma triple_attempt {A} P (m : io A) Q :
  triple P m (fun r fs => Q (Ok r) fs) -> triple P (attempt m) Q.
Proof. intros Hm d Hn Hp. specialize (Hm d Hn Hp). unfold attempt. by destruct (m d). Qed.

Lemma triple_sys {A} P (call : disk -> res ioErr A * disk) torn Q :
  (forall d, P (filesOf d) ->
     dk_events (call d).2 = dk_events d /\ Q (call d).1 (filesOf (call d).2)) ->
  (forall f, P f -> Q (Err EIO) f) ->
  (forall n d, P (filesOf d) -> dk_events (torn n d) = dk_events d /\ Q (Err EIO) (filesOf (torn n d))) ->
  triple P (sys call torn) Q.
Proof.
  intros Hc He Ht d Hn Hp. unfold sys, noPrune in *.
  destruct (dk_events d) as [|ev evs] eqn:Ev.
  { destruct (Hc d Hp) as [-> HQ]. by rewrite Ev. }
  apply Forall_cons_1 in Hn as [Hev Hn].
  assert (Hp' : P (filesOf (set_events evs d))) by done.
  destruct ev; [| | |done].
  - destruct (Hc _ Hp') as [-> HQ]. done.
  - split; [done|]. by apply He.
  - destruct (Ht n _ Hp') as [Hev' HQ]. cbn [fst snd]. by rewrite Hev'.
Qed.

Lemma triple_sys_ {A} P (call : disk -> res ioErr A * disk) Q :
  (forall d, P (filesOf d) ->
     dk_events (call d).2 = dk_events d /\ Q (call d).1 (filesOf (call d).2)) ->
  (forall f, P f -> Q (Err EIO) f) -> triple P (sys_ call) Q.
Proof. intros Hc He. apply triple_sys; [done|done|]. intros n d Hp. split; [done|]. by apply He. Qed.

(** Calls that touch no cache file. *)
Lemma triple_noop P (m : io unit) :
  m = sys_ (fun d => (Ok tt, d)) -> triple P m (fun _ => P).
Proof. intros ->. by apply triple_sys_. Qed.

Lemma triple_readIndex P key :
  triple P (readIndex key)
    (fun r f => P f /\ match r with Ok o => o = default None (f.2 !! key) | Err _ => True end).
Proof. apply triple_sys_; by intros. Qed.

(** What a step on the files of one key does to the rest. *)
Definition onlyKey (key : bytes) (f0 f : files) : Prop :=
  forall k, k <> key -> f.1 !! k = f0.1 !! k /\ f.2 !! k = f0.2 !! k.

Lemma onlyKey_refl key f : onlyKey key f f.
Proof. by intros k _. Qed.

Lemma onlyKey_data key f0 f c :
  onlyKey key f0 f -> onlyKey key f0 (partial_alter (fun _ => c) key f.1, f.2).
Proof. intros H k Hk. cbn. rewrite lookup_partial_alter_ne by done. by apply H. Qed.
Lemma onlyKey_idx key f0 f c :
  onlyKey key f0 f -> onlyKey key f0 (f.1, partial_alter (fun _ => c) key f.2).
Proof. intros H k Hk. cbn. rewrite lookup_partial_alter_ne by done. by apply H. Qed.
#[local] Hint Resolve onlyKey_refl onlyKey_data onlyKey_idx : cornus.

(** [writeIndex]: the index is the old one or the new one. *)
Lemma triple_writeIndex (P : files -> Prop) key di :
  triple P (writeIndex key di) (fun r f =>
    match r with
    | Ok _ => exists f', P f' /\ f = (f'.1, partial_alter (fun _ => Some (Some di)) key f'.2)
    | Err _ => P f end).
Proof.
  unfold writeIndex, fsync, fclose. do 4 (apply triple_bind with (R := fun _ => P);
    [eapply triple_weaken; [by apply triple_noop|by intros [] ?]|intros _]).
  apply triple_sys_; [|done]. intros d Hp. split; [done|]. by exists (filesOf d).
Qed.

(** [openCreate]: the file exists afterwards, empty if it did not. *)
Lemma triple_openCreate (P : files -> Prop) key :
  triple P (openCreate key) (fun r f =>
    match r with
    | Ok _ => exists f', P f' /\ f.2 = f'.2 /\
                f.1 = <[key := default [] (f'.1 !! key)]> f'.1
    | Err _ => P f end).
Proof.
  apply triple_sys_; [|done]. intros d Hp. destruct (dk_data d !! key) as [c|] eqn:E; cbn.
  - split; [done|]. exists (filesOf d). split_and!; [done|done|]. cbn. rewrite E. simpl.
    by rewrite insert_id.
  - split; [done|]. exists (filesOf d). split_and!; [done|done|]. cbn. by rewrite E.
Qed.

Lemma triple_exists {A X} (P : X -> files -> Prop) (m : io A) Q :
  (forall x, triple (P x) m Q) -> triple (fun f => exists x, P x f) m Q.
Proof. intros H d Hn [x Hp]. by apply (H x). Qed.

Lemma triple_pre {A} (P P' : files -> Prop) (m : io A) Q :
  (forall f, P f -> P' f) -> triple P' m Q -> triple P m Q.
Proof. intros HP Hm d Hn Hp. apply Hm; auto. Qed.

(** The files of one entry: the rest as in [f0], the index as [J] says, the
    backing file as [D] says. *)
Definition entryAt (key : bytes) (f0 : files) (J : option (option diskIndex) -> Prop)
    (D : option bytes -> Prop) (f : files) : Prop :=
  onlyKey key f0 f /\ J (f.2 !! key) /\ D (f.1 !! key).

Lemma entryAt_data key f0 J D D' d c :
  entryAt key f0 J D (filesOf d) -> D' c ->
  entryAt key f0 J D' (filesOf (set_data key c d)).
Proof.
  intros (Hf & Hj & _) Hc. split_and!; [by apply (onlyKey_data key f0 (filesOf d))|done|].
  cbn. by rewrite lookup_partial_alter_eq.
Qed.

Lemma triple_writeData key f0 J c0 off data :
  triple (entryAt key f0 J (eq (Some c0))) (writeData key off data) (fun r f =>
    match r with
    | Ok _ => entryAt key f0 J (eq (Some (fileWriteAt c0 off data))) f
    | Err _ => entryAt key f0 J (fun o => exists c, o = Some c /\ tornWrite c0 off data c) f
    end).
Proof.
  assert (Hsame : forall f, entryAt key f0 J (eq (Some c0)) f ->
    entryAt key f0 J (fun o => exists c, o = Some c /\ tornWrite c0 off data c) f).
  { intros f (Hf & Hj & Hc). split_and!; [done|done|]. exists c0. split; [done|by left]. }
  assert (Hdone : forall f, entryAt key f0 J (eq (Some (fileWriteAt c0 off data))) f ->
    entryAt key f0 J (fun o => exists c, o = Some c /\ tornWrite c0 off data c) f).
  { intros f (Hf & Hj & Hc). split_and!; [done|done|]. eexists. split; [done|]. right.
    exists (blen data). by rewrite take_z_all. }
  unfold writeData. apply triple_bind with (R := fun _ => entryAt key f0 J (eq (Some c0))).
  { apply triple_sys_; [|done]. intros d Hp. pose proof Hp as (_ & _ & Hc). cbn in Hc.
    cbn. rewrite <- Hc. done. }
  intros _. apply triple_bind with (R := fun r => match r with
    | Ok _ => entryAt key f0 J (eq (Some (fileWriteAt c0 off data)))
    | Err _ => entryAt key f0 J (fun o => exists c, o = Some c /\ tornWrite c0 off data c) end).
  { apply triple_attempt. apply triple_sys; [| done |].
    - intros d Hp. pose proof Hp as (_ & _ & Hc). cbn in Hc. cbn. rewrite <- Hc.
      rewrite take_z_all by done. split; [done|]. by eapply entryAt_data.
    - intros n d Hp. pose proof Hp as (_ & _ & Hc). cbn in Hc. cbn. rewrite <- Hc.
      split; [done|]. eapply entryAt_data; [done|]. eexists. split; [done|]. right. by exists n. }
  intros [u|e].
  - apply triple_bind with (R := fun _ => entryAt key f0 J (eq (Some (fileWriteAt c0 off data)))).
    { apply triple_attempt. by apply triple_noop. }
    intros [v|e].
    + eapply triple_weaken; [by apply triple_noop|]. intros [] f H; auto.
    + apply triple_bind with (R := fun _ => entryAt key f0 J (eq (Some (fileWriteAt c0 off data))));
        [apply triple_attempt; by apply triple_noop|intros _]. apply triple_throw. auto.
  - apply triple_bind with (R := fun _ =>
      entryAt key f0 J (fun o => exists c, o = Some c /\ tornWrite c0 off data c));
      [apply triple_attempt; by apply triple_noop|intros _]. apply triple_throw. auto.
Qed.

(** [truncateData]: the backing file exists with the length asked for. *)
Lemma triple_truncateData key f0 J size :
  0 <= size ->
  triple (entryAt key f0 J (fun _ => True)) (truncateData key size) (fun r f =>
    match r with
    | Ok _ => entryAt key f0 J (fun o => exists c, o = Some c /\ blen c = size) f
    | Err _ => entryAt key f0 J (fun _ => True) f
    end).
Proof.
  intros Hs. unfold truncateData.
  apply triple_bind with (R := fun _ => entryAt key f0 J is_Some).
  { apply triple_sys_; [|by intros ? (?&?&?)]. intros d Hp. cbn.
    destruct (dk_data d !! key) as [c|] eqn:E.
    - split; [done|]. destruct Hp as (?&?&_). split_and!; [done|done|]. cbn. by rewrite E.
    - split; [done|]. eapply entryAt_data; [done|]. by eexists. }
  intros _. apply triple_bind with (R := fun r => match r with
    | Ok _ => entryAt key f0 J (fun o => exists c, o = Some c /\ blen c = size)
    | Err _ => entryAt key f0 J (fun _ => True) end).
  { apply triple_attempt. apply triple_sys_; [|by intros ? (?&?&?)].
    intros d Hp. pose proof Hp as (_ & _ & [c Hc]). cbn in Hc. cbn. rewrite Hc.
    split; [done|]. eapply entryAt_data; [done|]. eexists. split; [done|].
    unfold fileTruncate. rewrite blen_app, blen_take_z, blen_zeros_max.
    pose proof (blen_nonneg c). lia. }
  intros r. apply triple_bind with (R := fun _ => match r with
    | Ok _ => entryAt key f0 J (fun o => exists c, o = Some c /\ blen c = size)
    | Err _ => entryAt key f0 J (fun _ => True) end).
  { apply triple_attempt. by apply triple_noop. }
  intros _. destruct r; [by apply triple_ret|by apply triple_throw].
Qed.

(** ** Slices of written files *)

Lemma lookup_fileWriteAt (c w : bytes) o i :
  0 <= o <= blen c ->
  fileWriteAt c o w !! i =
    if (o <=? Z.of_nat i) && (Z.of_nat i <? o + blen w) then w !! Z.to_nat (Z.of_nat i - o)
    else c !! i.
Proof.
  intros Ho. unfold fileWriteAt. pose proof (blen_nonneg w).
  assert (zeros (o - blen c) = []) as -> by (unfold zeros; by replace (Z.to_nat (o - blen c)) with 0%nat by lia).
  rewrite app_nil_l. assert (Hl : blen (take_z o c) = o) by (rewrite blen_take_z; lia).
  unfold blen in Hl. destruct (Z.leb_spec o (Z.of_nat i)); simpl.
  - rewrite lookup_app_r by lia. destruct (Z.ltb_spec (Z.of_nat i) (o + blen w)).
    + rewrite lookup_app_l by (unfold blen in *; lia). f_equal. lia.
    + rewrite lookup_app_r by (unfold blen in *; lia).
      rewrite lookup_drop_z by lia. f_equal. unfold blen in *. lia.
  - rewrite lookup_app_l by lia. by rewrite lookup_take_z by lia.
Qed.

Lemma blen_fileWriteAt (c w : bytes) o :
  0 <= o <= blen c -> blen (fileWriteAt c o w) = Z.max (blen c) (o + blen w).
Proof.
  intros Ho. unfold fileWriteAt. rewrite !blen_app, blen_take_z, blen_zeros_max, blen_drop_z.
  pose proof (blen_nonneg w). lia.
Qed.
Lemma sub_write_same (c w : bytes) o :
  0 <= o -> o + blen w <= blen c -> sub_z o (blen w) (fileWriteAt c o w) = w.
Proof.
  intros Ho Hl. pose proof (blen_nonneg w).
  assert (Hb : blen (fileWriteAt c o w) = blen c) by (rewrite blen_fileWriteAt; lia).
  assert (Hs : blen (sub_z o (blen w) (fileWriteAt c o w)) = blen w) by (apply blen_sub_z; lia).
  apply list_eq_lookup_z; [done|]. intros i Hi.
  rewrite lookup_sub_z, lookup_fileWriteAt by lia.
  rewrite (proj2 (andb_true_iff _ _)) by (rewrite Z.leb_le, Z.ltb_lt; lia). f_equal. lia.
Qed.

Lemma sub_write_disjoint (c w : bytes) o a n :
  0 <= o <= blen c -> 0 <= a -> 0 <= n -> a + n <= blen c -> a + n <= o \/ o + blen w <= a ->
  sub_z a n (fileWriteAt c o w) = sub_z a n c.
Proof.
  intros Ho Ha Hn Hl Hd. pose proof (blen_nonneg w).
  assert (Hb : blen c <= blen (fileWriteAt c o w)) by (rewrite blen_fileWriteAt; lia).
  apply list_eq_lookup_z; rewrite blen_sub_z by lia; [by rewrite blen_sub_z by lia|].
  intros i Hi. rewrite !lookup_sub_z, lookup_fileWriteAt by lia.
  rewrite (proj2 (andb_false_iff _ _)); [done|]. rewrite Z.leb_gt, Z.ltb_ge. lia.
Qed.

(** A write cut short over a chunk that already held the data changes nothing. *)
Lemma sub_write_torn (c w c' : bytes) o :
  0 <= o -> o + blen w <= blen c -> sub_z o (blen w) c = w -> tornWrite c o w c' ->
  sub_z o (blen w) c' = w.
Proof.
  intros Ho Hl Hs [->|[j ->]]; [done|]. pose proof (blen_nonneg w).
  assert (Ht : blen (take_z j w) <= blen w) by (rewrite blen_take_z; lia).
  assert (Hb : blen (fileWriteAt c o (take_z j w)) = blen c) by (rewrite blen_fileWriteAt; lia).
  apply list_eq_lookup_z; rewrite blen_sub_z by lia; [done|]. intros i Hi.
  rewrite lookup_sub_z, lookup_fileWriteAt by lia.
  destruct ((o <=? _) && _) eqn:E; zbool.
  - rewrite lookup_take_z; [f_equal; lia|]. rewrite blen_take_z in *. lia.
  - rewrite <- Hs. by rewrite lookup_sub_z by lia.
Qed.

(** ** Filling a chunk *)

(** The index of a read-only entry at this store's chunk size. *)
Definition live (cs : Z) (o : option (option diskIndex)) (di : diskIndex) : Prop :=
  o = Some (Some di) /\ di_ChunkSize di = cs /\ di_Writable di = false.

(** A live index records the identity its key stands for, and its backing file is
    as long as the file it caches. *)
Definition filesInv (cs : Z) (ident : bytes -> Z * Z) (f : files) : Prop :=
  forall key di, live cs (f.2 !! key) di ->
    (di_Size di, di_MTimeNs di) = ident key /\ di_Size di <= di_CurSize di /\
    exists c, f.1 !! key = Some c /\ di_Size di <= blen c.

Definition diskInv (cs : Z) (ident : bytes -> Z * Z) (d : disk) : Prop :=
  noPrune d /\ filesInv cs ident (filesOf d).

Lemma matches_spec cs di id :
  Writable id = false ->
  matches cs di id = true <->
  di_ChunkSize di = cs /\ di_Writable di = false /\
  (di_Size di, di_MTimeNs di) = (Size id, MTimeNs id).
Proof.
  intros Hw. unfold matches. rewrite Hw.
  destruct (Z.eqb_spec (di_ChunkSize di) cs), (di_Writable di); cbn; try (split; [done|intros (?&?&?); done]).
  rewrite andb_true_iff, !Z.eqb_eq. split; [intros []; split_and!; congruence|].
  intros (_ & _ & [= -> ->]). done.
Qed.

Section Fill.
Variable cs : Z.
Hypothesis cs_pos : 0 < cs.
Variable ident : bytes -> Z * Z.
Variable id : FileID.
Hypothesis id_ok : okID ident id.
Variables idx h : Z.
Hypothesis idx_nonneg : 0 <= idx.
Variable data : bytes.
Hypothesis data_len : 0 < blen data.
Hypothesis data_valid : blen data = validLen cs (Size id) idx.

Let key := Key id.
Let off := idx * cs.

Lemma data_in_file : off + blen data <= Size id /\ blen data <= cs.
Proof. rewrite data_valid. apply validLen_bound. Qed.

(** Where a fill can leave the files of its entry. *)
Definition putPost (f0 f : files) : Prop :=
  onlyKey key f0 f /\
  ((exists di0 c0, live cs (f0.2 !! key) di0 /\ f0.1 !! key = Some c0 /\
      ((f.2 !! key = Some (Some di0) /\ exists c, f.1 !! key = Some c /\ tornWrite c0 off data c) \/
       (f.2 !! key = Some (Some (markChunk cs idx h (grow idx di0))) /\
        f.1 !! key = Some (fileWriteAt c0 off data)))) \/
   ((forall di, ~ live cs (f0.2 !! key) di) /\
      ((forall di, ~ live cs (f.2 !! key) di) \/
       (f.2 !! key = Some (Some (markChunk cs idx h (grow idx (freshIndex cs id (Size id))))) /\
        exists c, f.1 !! key = Some (fileWriteAt c off data) /\ blen c = Size id)))).

Lemma loadOrFresh_live f0 di0 :
  filesInv cs ident f0 -> live cs (f0.2 !! key) di0 ->
  triple (eq f0) (loadOrFresh cs key id (off + blen data))
    (fun r f => match r with Ok di => f = f0 /\ di = di0 | Err _ => f = f0 end).
Proof.
  intros Hi Hl. destruct (Hi _ _ Hl) as (Hid & Hcur & c0 & Hc0 & Hlen).
  destruct Hl as (Hidx & Hcs & Hw). destruct id_ok as [Hwid Hident]. destruct data_in_file.
  assert (Hm : matches cs di0 id = true).
  { apply matches_spec; [done|]. split_and!; [done|done|]. unfold key in Hid. congruence. }
  assert (Hsz : di_Size di0 = Size id) by (unfold key in Hid; congruence).
  unfold loadOrFresh. apply triple_bind with (R := fun _ => eq f0).
  { eapply triple_weaken; [by apply triple_noop|]. by intros [] f <-. }
  intros _. apply triple_bind with (R := fun o f => f0 = f /\ o = Some di0).
  { eapply triple_weaken; [apply triple_readIndex|]. intros [o|e] f [<- Ho]; [|done].
    split; [done|]. by rewrite Ho, Hidx. }
  intros o. eapply triple_pre with (P' := fun f => f0 = f /\ o = Some di0); [done|].
  intros d Hn [Hf ->]. rewrite Hm. cbn [negb].
  destruct (Z.ltb_spec (di_CurSize di0) (off + blen data)); [lia|].
  split; [done|]. by rewrite Hf.
Qed.

Lemma loadOrFresh_fresh f0 :
  filesInv cs ident f0 -> (forall di, ~ live cs (f0.2 !! key) di) ->
  triple (eq f0) (loadOrFresh cs key id (off + blen data)) (fun r f =>
    match r with
    | Ok di => di = freshIndex cs id (Size id) /\
        entryAt key f0 (fun o => forall di, ~ live cs o di)
          (fun o => exists c, o = Some c /\ blen c = Size id) f
    | Err _ => entryAt key f0 (fun o => forall di, ~ live cs o di) (fun _ => True) f
    end).
Proof.
  intros Hi Hl. destruct id_ok as [Hwid Hident]. destruct data_in_file as [Hin _].
  set (J := fun o => forall di, ~ live cs o di).
  assert (H0 : entryAt key f0 J (fun _ => True) f0) by (split_and!; auto with cornus).
  unfold loadOrFresh. apply triple_bind with (R := fun _ => eq f0).
  { eapply triple_weaken; [by apply triple_noop|]. by intros [] f <-. }
  intros _. apply triple_bind with (R := fun o f => f0 = f /\ o = default None (f0.2 !! key)).
  { eapply triple_weaken; [apply triple_readIndex|]. intros [o|e] f [<- Ho]; done. }
  intros o d Hn [Hf Ho].
  assert (Hfresh : triple (eq f0)
    (attempt (removeData key) ≫= fun _ => attempt (removeIdx key) ≫= fun _ =>
     let backing := if negb (Writable id) && (off + blen data <? Size id) then Size id
                    else off + blen data in
     truncateData key backing ≫= fun _ => mret (freshIndex cs id backing)) (fun r f =>
    match r with
    | Ok di => di = freshIndex cs id (Size id) /\
        entryAt key f0 J (fun o => exists c, o = Some c /\ blen c = Size id) f
    | Err _ => entryAt key f0 J (fun _ => True) f end)).
  { replace (if negb (Writable id) && (off + blen data <? Size id) then Size id
             else off + blen data) with (Size id)
      by (rewrite Hwid; cbn [negb andb]; destruct (Z.ltb_spec (off + blen data) (Size id)); lia).
    apply triple_bind with (R := fun _ => entryAt key f0 J (fun _ => True)).
    { apply triple_attempt, triple_sys_; [|by intros f <-]. intros d' Hd'.
      rewrite Hd' in H0. destruct (dk_data d' !! key); cbn; (split; [done|]); rewrite Hd'; [|done].
      by eapply entryAt_data. }
    intros _. apply triple_bind with (R := fun _ => entryAt key f0 J (fun _ => True)).
    { apply triple_attempt, triple_sys_; [|done]. intros d' Hd'.
      destruct (dk_idx d' !! key); cbn; (split; [done|]); [|done].
      destruct Hd' as (Hfr & _ & _). split_and!; [by apply (onlyKey_idx key f0 (filesOf d') None)| |done].
      cbn. rewrite lookup_partial_alter_eq. by intros di (? & _). }
    intros _. cbv zeta. pose proof (blen_nonneg data).
    apply triple_bind with (R := fun _ =>
      entryAt key f0 J (fun o => exists c, o = Some c /\ blen c = Size id)).
    { eapply triple_weaken; [apply triple_truncateData|]; [unfold off in Hin; nia|]. by intros [] f. }
    intros _. by apply triple_ret. }
  destruct o as [di|]; [|by apply Hfresh].
  destruct (matches cs di id) eqn:Em; cbn [negb]; [|by apply Hfresh].
  exfalso. apply matches_spec in Em as (Hc & Hw & _); [|done]. apply (Hl di).
  destruct (f0.2 !! key) as [[di'|]|]; simpl in Ho; try done. injection Ho as ->. done.
Qed.
Lemma putChunk_live f0 di0 :
  filesInv cs ident f0 -> live cs (f0.2 !! key) di0 ->
  triple (eq f0) (putChunk cs id idx data h) (fun _ => putPost f0).
Proof.
  intros Hi Hl. destruct (Hi _ _ Hl) as (_ & _ & c0 & Hc0 & _).
  assert (Hput : forall f c, onlyKey key f0 f -> f.2 !! key = Some (Some di0) ->
    f.1 !! key = Some c -> tornWrite c0 off data c -> putPost f0 f).
  { intros f c Hfr Hf2 Hf1 Ht. split; [done|]. left. exists di0, c0. split_and!; [done|done|].
    left. split; [done|]. by exists c. }
  unfold putChunk. apply triple_bind with (R := fun di f => f = f0 /\ di = di0).
  { eapply triple_weaken; [by eapply loadOrFresh_live|]. intros [di|e] f; [done|]. intros ->.
    apply (Hput f0 c0); [apply onlyKey_refl|apply Hl|done|by left]. }
  intros di. eapply triple_pre with (P' := fun f => entryAt key f0 (eq (Some (Some di0)))
    (eq (Some c0)) f /\ di = di0).
  { intros f [-> ->]. destruct Hl as [Hl _]. split; [|done]. split; [apply onlyKey_refl|done]. }
  intros d Hn [Hp ->]. revert d Hn Hp.
  change (triple (entryAt key f0 (eq (Some (Some di0))) (eq (Some c0)))
    (writeData (Key id) (idx * cs) data ≫= fun _ =>
       writeIndex (Key id) (markChunk cs idx h (grow idx di0))) (fun _ => putPost f0)).
  apply triple_bind with (R := fun _ =>
    entryAt key f0 (eq (Some (Some di0))) (eq (Some (fileWriteAt c0 off data)))).
  { eapply triple_weaken; [apply triple_writeData|]. intros [u|e] f; [done|].
    intros (Hfr & Hf2 & c & Hf1 & Ht). by eapply Hput. }
  intros _. eapply triple_weaken; [apply triple_writeIndex|]. intros [u|e] f.
  - intros (f' & (Hfr & Hf2 & Hf1) & ->). split; [by apply onlyKey_idx|]. left. exists di0, c0.
    split_and!; [done|done|]. right. cbn. by rewrite lookup_partial_alter_eq.
  - intros (Hfr & Hf2 & Hf1). eapply Hput; [done|done|done|]. right. exists (blen data).
    by rewrite take_z_all.
Qed.

Lemma putChunk_fresh f0 :
  filesInv cs ident f0 -> (forall di, ~ live cs (f0.2 !! key) di) ->
  triple (eq f0) (putChunk cs id idx data h) (fun _ => putPost f0).
Proof.
  intros Hi Hl. set (J := fun o => forall di, ~ live cs o di).
  assert (Hdead : forall f D, entryAt key f0 J D f -> putPost f0 f).
  { intros f D (Hfr & Hj & _). split; [done|]. right. split; [done|]. by left. }
  unfold putChunk. apply triple_bind with (R := fun di f => di = freshIndex cs id (Size id) /\
    exists c, entryAt key f0 J (eq (Some c)) f /\ blen c = Size id).
  { eapply triple_weaken; [by apply loadOrFresh_fresh|]. intros [di|e] f.
    - intros [-> (Hfr & Hj & c & Hc & Hcl)]. split; [done|]. exists c. by split_and!.
    - apply Hdead. }
  intros di d Hn (-> & c & Hp & Hcl). revert d Hn Hp.
  change (triple (entryAt key f0 J (eq (Some c)))
    (writeData (Key id) (idx * cs) data ≫= fun _ =>
       writeIndex (Key id) (markChunk cs idx h (grow idx (freshIndex cs id (Size id)))))
    (fun _ => putPost f0)).
  apply triple_bind with (R := fun _ => entryAt key f0 J (eq (Some (fileWriteAt c off data)))).
  { eapply triple_weaken; [apply triple_writeData|]. intros [u|e] f; [done|]. apply Hdead. }
  intros _. eapply triple_weaken; [apply triple_writeIndex|]. intros [u|e] f; [|apply Hdead].
  intros (f' & (Hfr & _ & Hf1) & ->). split; [by apply onlyKey_idx|]. right. split; [done|].
  right. cbn. rewrite lookup_partial_alter_eq. split; [done|]. by exists c.
Qed.

Lemma putChunk_post f0 :
  filesInv cs ident f0 -> triple (eq f0) (putChunk cs id idx data h) (fun _ => putPost f0).
Proof.
  intros Hi. destruct (f0.2 !! key) as [[di|]|] eqn:E.
  - destruct (decide (di_ChunkSize di = cs /\ di_Writable di = false)) as [[Hc Hw]|Hn].
    + eapply putChunk_live; [done|]. by split_and!.
    + apply putChunk_fresh; [done|]. intros di' (H & ? & ?). rewrite E in H.
      injection H as <-. tauto.
  - apply putChunk_fresh; [done|]. intros di' (H & _). congruence.
  - apply putChunk_fresh; [done|]. intros di' (H & _). congruence.
Qed.

End Fill.

(** ** Whole-chunk reads *)

(** A whole-chunk read hits when the index matches and has the bit, and the
    backing file has the bytes. *)
Definition hit (cs : Z) (f : files) (id : FileID) (idx n : Z) (b : bytes) : Prop :=
  exists di c, f.2 !! Key id = Some (Some di) /\ matches cs di id = true /\
    bitSet (di_Bitmap di) idx = true /\ f.1 !! Key id = Some c /\
    b = sub_z (idx * cs) n c /\ blen b = n.

Lemma Get_hit cs d id idx n b :
  reads_of (DiskStore_Get cs id idx n) d = Ok (Some b) <-> hit cs (filesOf d) id idx n b.
Proof.
  unfold reads_of, DiskStore_Get, readIndex, openRead, readAt, sys_, sys, attempt, mbind, io_bind, stm_bind,
    mret, io_ret, stm_ret, hit, filesOf. cbn.
  destruct (dk_idx d !! Key id) as [[di|]|]; simpl; try (split; [done|by intros (?&?&?&_)]).
  destruct (matches cs di id) eqn:Em; simpl;
    [|split; [done|intros (?&?&[= <-]&?&_); congruence]].
  destruct (bitSet (di_Bitmap di) idx) eqn:Eb; simpl;
    [|split; [done|intros (?&?&[= <-]&_&?&_); congruence]].
  destruct (dk_data d !! Key id) as [c|] eqn:Ec; simpl;
    [|split; [done|intros (?&?&_&_&_&?&_); congruence]].
  change (take_z n (drop_z (idx * cs) c)) with (sub_z (idx * cs) n c).
  destruct (Z.eqb_spec (blen (sub_z (idx * cs) n c)) n) as [E|E]; simpl.
  - split.
    + intros [= <-]. exists di, c. done.
    + intros (di' & c' & _ & _ & _ & [= <-] & -> & _). done.
  - split; [done|]. intros (di' & c' & _ & _ & _ & [= <-] & -> & ?). done.
Qed.

Lemma hit_frame cs key f0 f id idx n b :
  onlyKey key f0 f -> Key id <> key -> hit cs f id idx n b -> hit cs f0 id idx n b.
Proof.
  intros Hfr Hk (di & c & H1 & H2 & H3 & H4 & H5). destruct (Hfr _ Hk) as [E1 E2].
  exists di, c. rewrite <- E1, <- E2. done.
Qed.

Lemma hit_live cs f id idx n b :
  Writable id = false -> hit cs f id idx n b -> exists di, live cs (f.2 !! Key id) di.
Proof.
  intros Hw (di & c & H1 & H2 & _). apply matches_spec in H2 as (?&?&_); [|done].
  exists di. by split_and!.
Qed.

(** ** The disk keeps the read path's contract, whatever fails *)

Section DiskFill.
Variable cs : Z.
Hypothesis cs_pos : 0 < cs.
Variable ident : bytes -> Z * Z.

Lemma okID_same id id' : okID ident id -> okID ident id' -> Key id' = Key id ->
  Size id' = Size id /\ MTimeNs id' = MTimeNs id.
Proof. intros [_ H] [_ H'] E. rewrite E, <- H in H'. by injection H'. Qed.

Lemma validLen_off size idx :
  0 <= idx -> 0 < validLen cs size idx -> 0 <= idx * cs /\ idx * cs + validLen cs size idx <= size /\
  validLen cs size idx <= cs.
Proof. intros Hi Hv. destruct (validLen_bound cs size idx). nia. Qed.

Lemma chunks_disjoint idx idx' :
  0 <= idx -> 0 <= idx' -> idx <> idx' -> idx' * cs + cs <= idx * cs \/ idx * cs + cs <= idx' * cs.
Proof. intros. destruct (Z.lt_total idx idx') as [?|[?|?]]; [right|lia|left]; nia. Qed.

Lemma freshIndex_facts id n j :
  Writable id = false -> 0 <= j ->
  sameIdent (freshIndex cs id n) (mkDiskIndex (Size id) (MTimeNs id) false 0 cs [] [] [] false 0 0) /\
  di_CurSize (freshIndex cs id n) = n /\ bitSet (di_Bitmap (freshIndex cs id n)) j = false.
Proof.
  intros Hw Hj. unfold freshIndex. rewrite Hw. split_and!; [done|done|].
  cbn [di_Bitmap]. by apply bitSet_zeros.
Qed.

(** After a fill, an entry's hits are the filled chunk or the hits it had. *)
Lemma putPost_hit id idx h data f0 f id' idx' b :
  filesInv cs ident f0 -> okID ident id -> okID ident id' -> 0 <= idx -> 0 <= idx' ->
  0 < blen data -> blen data = validLen cs (Size id) idx -> 0 < validLen cs (Size id') idx' ->
  putPost cs id idx h data f0 f -> hit cs f id' idx' (validLen cs (Size id') idx') b ->
  (Key id' = Key id /\ idx' = idx /\
   ((forall b0, hit cs f0 id' idx' (validLen cs (Size id') idx') b0 -> b0 = data) -> b = data)) \/
  hit cs f0 id' idx' (validLen cs (Size id') idx') b.
Proof.
  intros Hinv Hid Hid' Hi Hi' Hd Hdv Hv' [Hfr Hpost] Hhit.
  destruct (decide (Key id' = Key id)) as [Hk|Hk]; [|right; by eapply hit_frame].
  destruct (okID_same _ _ Hid Hid' Hk) as [Hs _]. rewrite Hs in *.
  destruct (validLen_off (Size id) idx Hi) as (Ho & Hin & Hle); [lia|]. rewrite <- Hdv in Hin, Hle.
  destruct (validLen_off (Size id) idx' Hi' Hv') as (Ho' & Hin' & Hle').
  destruct Hhit as (di & c & H1 & Hm & Hbit & H3 & Hb & Hbl). rewrite Hk in H1, H3.
  destruct Hpost as [(di0 & c0 & Hl & Hc0 & Hcase)|[Hno Hcase]].
  - destruct (Hinv _ _ Hl) as (Hident & _ & c1 & Hc1 & Hlen). rewrite Hc0 in Hc1. injection Hc1 as <-.
    assert (Hsz : di_Size di0 = Size id) by (destruct Hid as [_ Hid]; congruence).
    assert (Hm0 : matches cs di0 id' = true).
    { apply matches_spec; [apply Hid'|]. destruct Hl as (_ & ? & ?). split_and!; [done|done|].
      destruct Hid' as [_ ->]. by rewrite Hk. }
    assert (Hold : forall b0, bitSet (di_Bitmap di0) idx' = true ->
      b0 = sub_z (idx' * cs) (validLen cs (Size id) idx') c0 ->
      hit cs f0 id' idx' (validLen cs (Size id) idx') b0).
    { intros b0 Hbit0 ->. exists di0, c0. rewrite Hk. destruct Hl as [Hl _].
      split_and!; [done|done|done|done|done|]. apply blen_sub_z; lia. }
    destruct Hcase as [(H2 & c2 & H4 & Htorn)|[H2 H4]]; rewrite H1 in H2; injection H2 as ->;
      rewrite H3 in H4; injection H4 as ->.
    + destruct (decide (idx' = idx)) as [->|Hne].
      * left. split_and!; [done|done|]. intros Hb0. rewrite Hb, <- Hdv.
        apply (sub_write_torn c0); [lia|lia| |done]. apply Hb0, Hold; [done|by rewrite Hdv].
      * right. apply Hold; [done|]. rewrite Hb. destruct Htorn as [->|[j ->]]; [done|].
        apply sub_write_disjoint; [lia|lia|lia|lia|].
        assert (blen (take_z j data) <= blen data) by (rewrite blen_take_z; lia).
        destruct (chunks_disjoint idx idx'); [done|done|done|lia|lia].
    + rewrite bitSet_mark_grow in Hbit by done. destruct (Z.eqb_spec idx idx') as [->|Hne].
      * left. split_and!; [done|done|]. intros _. rewrite Hb, <- Hdv. apply sub_write_same; lia.
      * right. apply Hold; [done|]. rewrite Hb. apply sub_write_disjoint; [lia|lia|lia|lia|].
        destruct (chunks_disjoint idx idx'); [done|done|done|lia|lia].
  - destruct Hcase as [Hno'|(H2 & c2 & H4 & Hl2)].
    + exfalso. apply matches_spec in Hm as (?&?&_); [|apply Hid']. by apply (Hno' di).
    + rewrite H1 in H2. injection H2 as ->. rewrite H3 in H4. injection H4 as ->.
      destruct (freshIndex_facts id (Size id) idx' (proj1 Hid) Hi') as (_ & _ & Hz).
      rewrite bitSet_mark_grow, Hz, orb_false_r in Hbit by done. apply Z.eqb_eq in Hbit. subst idx'.
      left. split_and!; [done|done|]. intros _. rewrite Hb, <- Hdv. apply sub_write_same; lia.
Qed.

Lemma putPost_inv id idx h data f0 f :
  filesInv cs ident f0 -> okID ident id -> 0 <= idx -> 0 < blen data ->
  blen data = validLen cs (Size id) idx -> putPost cs id idx h data f0 f -> filesInv cs ident f.
Proof.
  intros Hinv Hid Hi Hd Hdv [Hfr Hpost] key di Hl.
  destruct (validLen_off (Size id) idx Hi) as (Ho & Hin & Hle); [lia|]. rewrite <- Hdv in Hin, Hle.
  destruct (decide (key = Key id)) as [->|Hk].
  2:{ destruct (Hfr key Hk) as [E1 E2]. rewrite E2 in Hl. rewrite E1. by apply Hinv. }
  destruct Hpost as [(di0 & c0 & Hl0 & Hc0 & Hcase)|[_ Hcase]].
  - destruct (Hinv _ _ Hl0) as (Hident & Hcur & c1 & Hc1 & Hlen).
    rewrite Hc0 in Hc1. injection Hc1 as <-. destruct Hid as [_ Hid].
    assert (Hsz : di_Size di0 = Size id) by congruence.
    destruct Hcase as [(H2 & c2 & H4 & Htorn)|[H2 H4]]; destruct Hl as (H1 & _ & _);
      rewrite H1 in H2; injection H2 as ->; rewrite H4.
    + split_and!; [done|done|]. eexists. split; [done|].
      destruct Htorn as [->|[j ->]]; [done|]. rewrite blen_fileWriteAt by lia. lia.
    + destruct (mark_grow_ident cs idx h di0) as [(-> & -> & _) ->]. split_and!; [done|done|].
      eexists. split; [done|]. rewrite blen_fileWriteAt by lia. lia.
  - destruct Hcase as [Hno|(H2 & c2 & H4 & Hl2)]; [by apply Hno in Hl|].
    destruct Hl as (H1 & _ & _). rewrite H1 in H2. injection H2 as ->. rewrite H4.
    destruct (mark_grow_ident cs idx h (freshIndex cs id (Size id))) as [(-> & -> & _) ->].
    destruct (freshIndex_facts id (Size id) 0 (proj1 Hid) ltac:(lia)) as ((-> & -> & _) & -> & _).
    cbn. split_and!; [apply Hid|lia|]. eexists. split; [done|]. rewrite blen_fileWriteAt by lia. lia.
Qed.

Lemma writes_of_disk m d : (writes_of m d).1 = (m d).2.
Proof. unfold writes_of. by destruct (m d) as [[] ?]. Qed.

#[export] Instance DiskStore_FillStore hashChunk :
  @FillStore disk (DiskStore_Store hashChunk cs) cs ident (diskInv cs ident).
Proof.
  split; cbn [st_Put st_Get DiskStore_Store].
  - intros d id idx data [Hn Hinv] Hid Hi Hd Hdv. rewrite writes_of_disk.
    destruct (putChunk_post cs cs_pos ident id Hid idx (hashChunk data) Hi data Hd Hdv (filesOf d) Hinv
      d Hn eq_refl) as [Hn' Hp]. split; [done|]. by eapply putPost_inv.
  - intros d id idx data id' idx' b [Hn Hinv] Hid Hid' Hi Hi' Hd Hdv Hv Hg Hb.
    rewrite writes_of_disk in Hg.
    destruct (putChunk_post cs cs_pos ident id Hid idx (hashChunk data) Hi data Hd Hdv (filesOf d) Hinv
      d Hn eq_refl) as [Hn' Hp]. apply Get_hit in Hg.
    destruct (putPost_hit id idx (hashChunk data) data (filesOf d) _ id' idx' b Hinv Hid Hid' Hi Hi'
      Hd Hdv Hv Hp Hg) as [(?&?&H)|H]; [left|right; by apply Get_hit].
    split_and!; [done|done|]. intros Hb0. apply H. intros b0 Hh0. apply Hb0; [by apply Get_hit|].
    by destruct Hh0 as (?&?&_&_&_&_&_&?).
Qed.
End DiskFill.

(** ** Without failures *)

Ltac run_io :=
  unfold mbind, io_bind, stm_bind, mret, io_ret, stm_ret, attempt, sys_, sys; cbn.

Lemma writeData_ok key off data d c :
  dk_events d = [] -> dk_data d !! key = Some c ->
  exists d', writeData key off data d = (Ok tt, d') /\ dk_events d' = [] /\ dk_idx d' = dk_idx d /\
    dk_data d' = <[key := fileWriteAt c off data]> (dk_data d).
Proof.
  intros He Hc. unfold writeData, openCreate, writeAt, fsync, fclose. run_io.
  rewrite He, Hc. cbn. rewrite He, Hc. cbn. rewrite He, take_z_all by done. cbn. rewrite He. cbn.
  eexists. by split_and!.
Qed.

Lemma truncateData_ok key size d :
  dk_events d = [] -> 0 <= size ->
  exists d' c, truncateData key size d = (Ok tt, d') /\ dk_events d' = [] /\ dk_idx d' = dk_idx d /\
    dk_data d' !! key = Some c /\ blen c = size.
Proof.
  intros He Hs. unfold truncateData, openCreate, ftruncate, fclose. run_io. rewrite He. cbn.
  destruct (dk_data d !! key) as [c|] eqn:E; cbn; rewrite He; cbn;
    [rewrite E|rewrite lookup_partial_alter_eq]; cbn; rewrite He; cbn;
    eexists _, _; (split_and!; [done|done|done|cbn; by rewrite lookup_partial_alter_eq|]);
    unfold fileTruncate; rewrite blen_app, blen_take_z, blen_zeros_max.
  - pose proof (blen_nonneg c). lia.
  - change (blen []) with 0. lia.
Qed.

Lemma writeIndex_ok key di d :
  dk_events d = [] ->
  writeIndex key di d = (Ok tt, set_idx key (Some (Some di)) d).
Proof.
  intros He. unfold writeIndex, fsync, fclose. run_io. rewrite He. cbn. rewrite He. cbn.
  rewrite He. cbn. rewrite He. cbn. by rewrite He.
Qed.

(** An entry's index is the entry's, with the backing it needs. *)
Lemma loadOrFresh_ok cs key id minBacking d :
  dk_events d = [] -> 0 <= minBacking ->
  (forall di, dk_idx d !! key = Some (Some di) -> matches cs di id = true ->
     di_CurSize di < minBacking \/ exists c, dk_data d !! key = Some c /\ minBacking <= blen c) ->
  exists di d' c, loadOrFresh cs key id minBacking d = (Ok di, d') /\ dk_events d' = [] /\
    matches cs di id = true /\ dk_data d' !! key = Some c /\ minBacking <= blen c.
Proof.
  intros He Hm Hback. unfold loadOrFresh, mkdirAll, readIndex. run_io. rewrite He. cbn.
  rewrite He. cbn.
  assert (Hfresh : forall d0, dk_events d0 = [] -> exists di d' c,
    (attempt (removeData key) ≫= fun _ => attempt (removeIdx key) ≫= fun _ =>
     truncateData key (if negb (Writable id) && (minBacking <? Size id) then Size id else minBacking)
       ≫= fun _ => mret (freshIndex cs id
          (if negb (Writable id) && (minBacking <? Size id) then Size id else minBacking))) d0
      = (Ok di, d') /\ dk_events d' = [] /\ matches cs di id = true /\
    dk_data d' !! key = Some c /\ minBacking <= blen c).
  { intros d0 Hd0. set (backing := if _ && _ then _ else _).
    assert (Hb : minBacking <= backing) by (unfold backing; split_if; zcase).
    assert (Hrm : exists d1, dk_events d1 = [] /\ forall (k : io diskIndex),
      (attempt (removeData key) ≫= fun _ => attempt (removeIdx key) ≫= fun _ => k) d0 = k d1).
    { unfold removeData, removeIdx. run_io. rewrite Hd0. cbn.
      destruct (dk_data d0 !! key); cbn; rewrite Hd0; cbn; destruct (dk_idx d0 !! key); cbn;
        eexists; (split; [|intros k; reflexivity]); done. }
    destruct Hrm as (d1 & Hd1 & Hrm). rewrite Hrm.
    destruct (truncateData_ok key backing d1 Hd1) as (d2 & c & Ht & Hd2 & _ & Hc & Hl); [lia|].
    unfold mbind, io_bind, stm_bind. rewrite Ht. eexists _, _, c. split_and!; [done|done| |done|lia].
    unfold matches, freshIndex. cbn. rewrite Z.eqb_refl, eqb_reflx. cbn.
    destruct (Writable id); [done|]. by rewrite !Z.eqb_refl. }
  destruct (dk_idx d !! key) as [[di|]|] eqn:E; cbn; [|by apply Hfresh|by apply Hfresh].
  destruct (matches cs di id) eqn:Em; cbn [negb]; [|by apply Hfresh].
  destruct (Z.ltb_spec (di_CurSize di) minBacking).
  - destruct (truncateData_ok key minBacking d He Hm) as (d2 & c & Ht & Hd2 & _ & Hc & Hl).
    unfold mbind, io_bind, stm_bind. rewrite Ht. eexists _, _, c. split_and!; [done|done|done|done|lia].
  - destruct (Hback di eq_refl Em) as [?|(c & Hc & Hl)]; [lia|].
    eexists _, _, c. by split_and!.
Qed.

(** Every index has a backing file as long as it says. *)
Definition consistent (d : disk) : Prop :=
  forall key di, dk_idx d !! key = Some (Some di) ->
    exists c, dk_data d !! key = Some c /\ di_CurSize di <= blen c.

Lemma hashAt_mark cs idx h di : 0 <= idx -> hashAt (markChunk cs idx h (grow idx di)) idx = h.
Proof.
  intros Hi. assert (Hl : idx < blen (di_Hashes (grow idx di))).
  { unfold grow. cbv zeta. set (di1 := if blen (di_Bitmap di) <=? _ then _ else _).
    destruct (Z.leb_spec (blen (di_Hashes di1)) idx); [|lia].
    cbn [di_Hashes set_hashes]. rewrite blen_growList. lia. }
  unfold markChunk. set (di2 := setChunkSubBits _ _ _).
  assert (Hh : di_Hashes di2 = di_Hashes (grow idx di)).
  { unfold di2, setChunkSubBits, setSubBits, ensureSubBitmap. cbn. by split_if. }
  unfold setHash. rewrite Hh. destruct (Z.ltb_spec idx (blen (di_Hashes (grow idx di)))); [|lia].
  unfold hashAt. cbn. rewrite blen_insert. destruct (Z.ltb_spec idx (blen (di_Hashes (grow idx di)))); [|lia].
  rewrite list_lookup_insert_eq; [done|]. unfold blen in Hl. lia.
Qed.

(** A chunk put on a consistent disk without failures is served back whole
    with the hash it was put with, for read-only and writable entries alike and
    whatever was cached under the key before. *)
Theorem PutHashed_Get cs id idx data h d :
  0 < cs -> 0 <= idx -> 0 < blen data -> dk_events d = [] -> consistent d ->
  let r := writes_of (DiskStore_PutHashed cs id idx data h) d in
  r.2 = None /\
  reads_of (DiskStore_Get cs id idx (blen data)) r.1 = Ok (Some data) /\
  reads_of (DiskStore_ChunkHash cs id idx) r.1 = Ok (Some h).
Proof.
  intros Hcs Hi Hd He Hcons. cbv zeta.
  destruct (loadOrFresh_ok cs (Key id) id (idx * cs + blen data) d He) as
    (di & d1 & c & Hload & He1 & Hm & Hc & Hl); [nia| |].
  { intros di Hdi _. destruct (Hcons _ _ Hdi) as (c & Hc & Hle).
    destruct (Z.lt_ge_cases (di_CurSize di) (idx * cs + blen data)); [by left|right].
    exists c. split; [done|lia]. }
  destruct (writeData_ok (Key id) (idx * cs) data d1 c He1 Hc) as (d2 & Hw & He2 & Hi2 & Hd2).
  pose proof (writeIndex_ok (Key id) (markChunk cs idx h (grow idx di)) d2 He2) as Hx.
  assert (Hput : DiskStore_PutHashed cs id idx data h d =
    (Ok tt, set_idx (Key id) (Some (Some (markChunk cs idx h (grow idx di)))) d2)).
  { unfold DiskStore_PutHashed, putChunk, mbind, io_bind, stm_bind. by rewrite Hload, Hw. }
  assert (Hid : sameIdent (markChunk cs idx h (grow idx di)) di) by apply mark_grow_ident.
  unfold writes_of. rewrite Hput. cbn [fst snd]. split_and!; [done| |].
  - apply Get_hit. eexists _, _. cbn [filesOf fst snd set_idx dk_idx dk_data].
    rewrite lookup_partial_alter_eq, Hd2, lookup_insert_eq. split_and!; [done| | |done| |].
    + by rewrite (sameIdent_matches cs _ _ id Hid).
    + by rewrite bitSet_mark_grow, Z.eqb_refl by lia.
    + symmetry. apply sub_write_same; nia.
    + done.
  - unfold reads_of, DiskStore_ChunkHash, readIndex, settled. run_io.
    rewrite lookup_partial_alter_eq. cbn.
    rewrite (sameIdent_matches cs _ _ id Hid), Hm, bitSet_mark_grow, Z.eqb_refl by lia. cbn.
    by rewrite hashAt_mark.
Qed.

Definition ex_did : FileID := mkFileID (go "ctx") (go "a.txt") 11 7 false.

Lemma PutHashed_Get_witness :
  let r := writes_of (DiskStore_PutHashed 4 ex_did 2 (go "rld") 99) (mkDisk ∅ ∅ []) in
  reads_of (DiskStore_Get 4 ex_did 2 3) r.1 = Ok (Some (go "rld")).
Proof.
  destruct (PutHashed_Get 4 ex_did 2 (go "rld") 99 (mkDisk ∅ ∅ [])) as (_ & H & _);
    [done|done|done|done| |exact H].
  intros key di H. cbn in H. by rewrite lookup_empty in H.
Defined.

(** ** Failures, crashes and restarts *)

(** C19. A fill is crash-safe: whatever system calls of [Put] fail or are torn,
    at every point, the disk it leaves serves for any entry and chunk either the
    chunk being filled, complete, or exactly what it served before (if that chunk
    was served before the fill with the same bytes, those bytes); and the disk
    stays well-formed for the next run. *)
Theorem Put_crash_safe hashChunk cs ident d id idx data :
  0 < cs -> diskInv cs ident d -> okID ident id -> 0 <= idx -> 0 < blen data ->
  blen data = validLen cs (Size id) idx ->
  let d' := (writes_of (DiskStore_Put hashChunk cs id idx data) d).1 in
  diskInv cs ident d' /\
  forall id' idx' b, okID ident id' -> 0 <= idx' -> 0 < validLen cs (Size id') idx' ->
    reads_of (DiskStore_Get cs id' idx' (validLen cs (Size id') idx')) d' = Ok (Some b) ->
    (Key id' = Key id /\ idx' = idx /\
     ((forall b0, reads_of (DiskStore_Get cs id' idx' (validLen cs (Size id') idx')) d = Ok (Some b0) ->
         b0 = data) -> b = data)) \/
    reads_of (DiskStore_Get cs id' idx' (validLen cs (Size id') idx')) d = Ok (Some b).
Proof.
  intros Hcs [Hn Hinv] Hid Hi Hd Hdv d'. unfold d'. rewrite writes_of_disk.
  destruct (putChunk_post cs Hcs ident id Hid idx (hashChunk data) Hi data Hd Hdv (filesOf d) Hinv
    d Hn eq_refl) as [Hn' Hp]. split; [split; [done|by eapply putPost_inv]|].
  intros id' idx' b Hid' Hi' Hv Hg. apply Get_hit in Hg.
  destruct (putPost_hit cs Hcs ident id idx (hashChunk data) data (filesOf d) _ id' idx' b Hinv Hid Hid' Hi Hi'
      Hd Hdv Hv Hp Hg) as [(?&?&H)|H]; [left|right; by apply Get_hit].
  split_and!; [done|done|]. intros Hb0. apply H. intros b0 Hh. by apply Hb0, Get_hit.
Qed.

Lemma diskInv_empty cs ident evs :
  Forall (fun ev => isPrune ev = false) evs -> diskInv cs ident (mkDisk ∅ ∅ evs).
Proof. intros H. split; [done|]. intros key di (Hl & _). cbn in Hl. by rewrite lookup_empty in Hl. Qed.

Lemma Put_crash_safe_witness :
  let ident := fun _ : bytes => (11, 7) in
  let d := mkDisk ∅ ∅ [EvOk; EvOk; EvOk; EvOk; EvOk; EvOk; EvOk; EvOk; EvTorn 1] in
  diskInv 4 ident (writes_of (DiskStore_Put (fun _ => 0) 4 ex_did 0 (go "hell")) d).1.
Proof.
  intros ident d. apply (Put_crash_safe (fun _ => 0) 4 ident d ex_did 0 (go "hell"));
    [done|apply diskInv_empty; repeat constructor|done|done|done|done].
Defined.

Section Sessions.
Variable hashChunk : bytes -> Z.
Variable cs : Z.
Context {W : Type} (fetch : W -> Z -> Z -> W * (bytes * option ioErr)).
Variable id : FileID.

(** A step of a session: a read of [plen] bytes at [off], on its own schedule of failures, or [Prune] removing a pair while no
    read is under way.  A crash and a restart is a schedule that fails from some call on, followed by a fresh one; the restarted
    store has the same chunk size. *)
Inductive sessionStep := SRead (evs : list event) (plen off : Z) | SPrune (key : bytes).

(** The result is what each read returned, with its offset. *)
Fixpoint session (w : W) (d : disk) (steps : list sessionStep) : option (list (Z * bytes)) :=
  match steps with
  | [] => Some []
  | SPrune key :: steps => session w (removePair key d) steps
  | SRead evs plen off :: steps =>
      match @ReadAt disk (DiskStore_Store hashChunk cs) W fetch (fun w d => (w, d)) cs w
              (set_events evs d) id (Size id) plen off with
      | None => None
      | Some (w', d', (b, _)) => l ← session w' d' steps; Some ((off, b) :: l)
      end
  end.

(** No read has [Prune] between two of its system calls. *)
Definition sessionOk (st : sessionStep) : Prop :=
  match st with
  | SRead evs plen _ => Forall (fun ev => isPrune ev = false) evs /\ 0 <= plen
  | SPrune _ => True
  end.
End Sessions.

Lemma coherent_set_events hashChunk cs ident origin evs d :
  Forall (fun ev => isPrune ev = false) evs ->
  @coherent disk (DiskStore_Store hashChunk cs) cs ident (diskInv cs ident) origin d ->
  @coherent disk (DiskStore_Store hashChunk cs) cs ident (diskInv cs ident) origin (set_events evs d).
Proof. intros He [[_ Hf] Hc]. split; [split; [done|exact Hf]|]. exact Hc. Qed.

Lemma removePair_lookup key d k :
  (filesOf (removePair key d)).2 !! k = (if decide (k = key) then None else (filesOf d).2 !! k) /\
  (filesOf (removePair key d)).1 !! k = (if decide (k = key) then None else (filesOf d).1 !! k).
Proof.
  unfold removePair, set_idx, set_data, filesOf. cbn [dk_data dk_idx fst snd].
  destruct (decide (k = key)) as [->|Hne]; [by rewrite !lookup_partial_alter_eq|by rewrite !lookup_partial_alter_ne].
Qed.

(** [Prune] between reads only makes later reads miss. *)
Lemma coherent_removePair hashChunk cs ident origin key d :
  @coherent disk (DiskStore_Store hashChunk cs) cs ident (diskInv cs ident) origin d ->
  @coherent disk (DiskStore_Store hashChunk cs) cs ident (diskInv cs ident) origin (removePair key d).
Proof.
  intros [[Hn Hf] Hc]. split; [split; [done|]|].
  - intros k di (Hl & Hd). destruct (removePair_lookup key d k) as [E1 E2]. rewrite E1 in Hl.
    destruct (decide (k = key)); [done|]. rewrite E2. by apply Hf.
  - intros i idx b Hi Hx Hv H Hb. apply (Hc i idx b Hi Hx Hv); [|done]. apply Get_hit. apply Get_hit in H.
    destruct H as (di & c & H1 & H2 & H3 & H4 & H5). destruct (removePair_lookup key d (Key i)) as [E1 E2]. rewrite E1 in H1. rewrite E2 in H4.
    destruct (decide (Key i = key)); [done|]. by exists di, c.
Qed.

(** C16. While the cache keeps one chunk size and [Prune] removes pairs only between
    the reads of a file, across any number of reads, failed and torn system calls, crashes and restarts every byte the on-disk cache
    returns for the file is the origin's byte at that offset, and every read returns. *)
Theorem session_sound {W} hashChunk cs (fetch : W -> Z -> Z -> W * (bytes * option ioErr)) ident origin
    id w d steps :
  0 < cs -> cached ident origin id ->
  (forall w off n, 0 <= off -> 0 < n -> off + n <= Size id ->
     let b := (fetch w off n).2.1 in blen b <= n /\ b = sub_z off (blen b) (origin (Key id))) ->
  @coherent disk (DiskStore_Store hashChunk cs) cs ident (diskInv cs ident) origin d ->
  Forall sessionOk steps ->
  exists l, session hashChunk cs fetch id w d steps = Some l /\
    Forall (fun '(off, b) => b <> [] -> 0 <= off /\ b = sub_z off (blen b) (origin (Key id))) l.
Proof.
  intros Hcs Hid Hf Hd Hr. revert w d Hd.
  induction Hr as [|[evs plen off|key] steps Hok Hr IH]; intros w d Hd; [by exists []| |by apply IH, coherent_removePair].
  destruct Hok as [He Hp]. cbn [session].
  destruct (@ReadAt_ok disk (DiskStore_Store hashChunk cs) W fetch (fun w d => (w, d)) cs Hcs ident
    (diskInv cs ident) (DiskStore_FillStore cs Hcs ident hashChunk) origin id Hid (fun w s H => H) Hf
    w (set_events evs d) plen off) as (w' & d' & b & err & -> & Hd' & _ & Hb & _);
    [by apply coherent_set_events|done|].
  destruct (IH w' d' Hd') as (l & -> & Hl). exists ((off, b) :: l). split; [done|]. by constructor.
Qed.

Definition ex_dfetch (w : unit) (off n : Z) : unit * (bytes * option ioErr) :=
  (w, (sub_z off n (go "hello world"), None)).

Lemma session_sound_witness :
  exists l, session (fun _ => 0) 4 ex_dfetch ex_did tt (mkDisk ∅ ∅ [])
      [SRead [EvOk; EvOk; EvFail] 5 3; SRead [] 6 5; SPrune (Key ex_did); SRead [EvTorn 2] 4 0] = Some l /\
    Forall (fun '(off, b) => b <> [] -> 0 <= off /\ b = sub_z off (blen b) (go "hello world")) l.
Proof.
  apply (session_sound (fun _ => 0) 4 ex_dfetch (fun _ => (11, 7)) (fun _ => go "hello world")
    ex_did tt (mkDisk ∅ ∅ [])); [done|done| | |].
  - intros w off n Ho Hn Hs. cbn [ex_dfetch fst snd]. cbn in Hs.
    rewrite blen_sub_z by (change (blen (go "hello world")) with 11; lia). by split.
  - split; [by apply diskInv_empty|]. intros i k b _ _ _ H. apply Get_hit in H.
    destruct H as (di & c & H & _). cbn in H. by rewrite lookup_empty in H.
  - repeat constructor; lia.
Defined.

(** ** Where pruning breaks the index *)

(** The first two chunks of an eleven-byte file, cached. *)
Definition ex_twoChunks : disk :=
  (writes_of (DiskStore_Put (fun _ => 0) 4 ex_did 1 (go "o wo"))
     (writes_of (DiskStore_Put (fun _ => 0) 4 ex_did 0 (go "hell")) (mkDisk ∅ ∅ [])).1).1.

(** [Prune] takes no lock, and a [Put] reads the index before it writes the
    data: if the pair is pruned in between, the fill creates a new sparse backing
    file and writes back the old presence bits over it, so chunks that were
    pruned are served as zeros. *)
Theorem Prune_races_Put :
  let d := set_events [EvOk; EvOk; EvPrune (Key ex_did)] ex_twoChunks in
  let d' := (writes_of (DiskStore_Put (fun _ => 0) 4 ex_did 2 (go "rld")) d).1 in
  reads_of (DiskStore_Get 4 ex_did 0 4) ex_twoChunks = Ok (Some (go "hell")) /\
  reads_of (DiskStore_Get 4 ex_did 0 4) d' = Ok (Some (zeros 4)).
Proof. vm_compute. split; reflexivity. Qed.

(** Pruning and invalidation remove the backing file before the index: a
    crash between the two leaves an index whose bits the next fill of any chunk
    turns into zeros. *)
Theorem removal_crash_serves_zeros :
  let d := (DiskStore_Invalidate ex_did (set_events [EvOk; EvFail] ex_twoChunks)).2 in
  let d' := (writes_of (DiskStore_Put (fun _ => 0) 4 ex_did 2 (go "rld")) d).1 in
  reads_of (DiskStore_Get 4 ex_did 0 4) d = Ok None /\
  reads_of (DiskStore_Get 4 ex_did 0 4) d' = Ok (Some (zeros 4)).
Proof. vm_compute. split; reflexivity. Qed.

(** A restart with another chunk size replaces the pair in the same order: cut between the two removals and followed by a restart
    with the old size, it leads to the same zeros. *)
Lemma chunk_size_change_serves_zeros :
  let d := (writes_of (DiskStore_Put (fun _ => 0) 8 ex_did 0 (go "hello wo"))
              (set_events ([EvOk; EvOk; EvOk] ++ replicate 8 EvFail) ex_twoChunks)).1 in
  let d' := (writes_of (DiskStore_Put (fun _ => 0) 4 ex_did 2 (go "rld")) (set_events [] d)).1 in
  reads_of (DiskStore_Get 4 ex_did 0 4) ex_twoChunks = Ok (Some (go "hell")) /\
  reads_of (DiskStore_Get 4 ex_did 0 4) d' = Ok (Some (zeros 4)).
Proof. vm_compute. split; reflexivity. Qed.
