(* ===== verification/Storage.v ===== *)
(** * Storage: the registry's content-addressable store (pkg/storage)

    Digests (storage.go), the key layout and the operations of [Backend]
    (cas.go), mark-and-sweep collection (gc.go) and the referrers query
    (referrers.go), over an object store that maps keys to contents.

    Operations run in a state monad; the state carries a schedule, one entry per
    object-store call, that says which calls fail.  A [Put] or [Delete] that
    fails may leave the store as it was ([EvFail]) or have been applied with its
    reply lost ([EvLost]).  A crash is a schedule on which every call from some
    point on fails.  [List] follows the comment of the [ObjectStore] interface.
    JSON decoding of manifests is a parameter: the theorems hold for whatever a
    blob decodes to. *)

From Stdlib Require Import ZArith Lia.
From Stdlib.Strings Require Import Byte.
From stdpp Require Import base list gmap sorting.
From S2P Require Import Prelude GoStd.
Open Scope Z_scope.

Inductive storeErr :=
| ErrNotFound | ErrDigestMismatch | ErrInvalidDigest | errNotManifest | ErrIO | ErrFuel.
#[export] Instance storeErr_eq_dec : EqDecision storeErr.
Proof. solve_decision. Defined.

(** ** Digests (storage.go) *)

Definition ParseDigest (d : bytes) : res storeErr (bytes * bytes) :=
  match cutByte Byte.x3a d with
  | None => Err ErrInvalidDigest
  | Some (algo, hexv) =>
      if negb (bytes_eqb algo (go "sha256")) then Err ErrInvalidDigest
      else if negb (blen hexv =? 64) then Err ErrInvalidDigest
      else if negb (forallb isHexDigit hexv) then Err ErrInvalidDigest
      else Ok (algo, hexv)
  end.

Definition isDigest (ref : bytes) : bool := is_ok (ParseDigest ref).

(** ** State *)

Inductive ev := EvOk | EvFail | EvLost.

Record Backend := mkBackend {
  objs : gmap bytes bytes;
  events : list ev;  (** one per object-store call; no failures when exhausted *)
  catalogList : list bytes; catalogAt : Z; catalogValid : bool; catalogGen : Z;
  now : Z }.

Definition catalogTTL : Z := 5000000000.

Definition set_objs (o : gmap bytes bytes) (b : Backend) : Backend :=
  mkBackend o (events b) (catalogList b) (catalogAt b) (catalogValid b) (catalogGen b) (now b).
Definition set_events (l : list ev) (b : Backend) : Backend :=
  mkBackend (objs b) l (catalogList b) (catalogAt b) (catalogValid b) (catalogGen b) (now b).

Definition be (A : Type) : Type := stm Backend storeErr A.
#[export] Instance be_ret : MRet be := stm_ret Backend storeErr.
#[export] Instance be_bind : MBind be := stm_bind Backend storeErr.

(** One call on the object store. *)
Definition call {A} (f : Backend -> res storeErr A * Backend) : be A := fun b =>
  match events b with
  | [] => f b
  | EvOk :: evs => f (set_events evs b)
  | EvFail :: evs => (Err ErrIO, set_events evs b)
  | EvLost :: evs => (Err ErrIO, snd (f (set_events evs b)))
  end.

Definition look (o : gmap bytes bytes) (key : bytes) : res storeErr bytes :=
  match o !! key with Some c => Ok c | None => Err ErrNotFound end.
Definition objGet (key : bytes) : be bytes := call (fun b => (look (objs b) key, b)).
Definition objStat (key : bytes) : be Z := call (fun b =>
  (c ← look (objs b) key; Ok (blen c), b)).
Definition objPut (key data : bytes) : be unit := call (fun b =>
  (Ok tt, set_objs (<[key := data]> (objs b)) b)).
Definition objDelete (key : bytes) : be unit := call (fun b =>
  (Ok tt, set_objs (delete key (objs b)) b)).

(** The entry a key rolls up to under a prefix: itself, or the "directory" it is
    in. *)
Definition rollup (prefix key : bytes) : bytes :=
  match cutByte slash (drop (length prefix) key) with
  | None => key
  | Some (dir, _) => prefix ++ dir ++ [slash]
  end.

Definition keysUnder (prefix : bytes) (o : gmap bytes bytes) : list bytes :=
  filter (fun k => hasPrefix k prefix = true) (map fst (map_to_list o)).

Definition listOf (prefix delimiter : bytes) (o : gmap bytes bytes) : list bytes :=
  if bytes_eqb delimiter [slash]
  then remove_dups (map (rollup prefix) (keysUnder prefix o))
  else keysUnder prefix o.

Definition objList (prefix delimiter : bytes) : be (list bytes) := call (fun b =>
  (Ok (listOf prefix delimiter (objs b)), b)).

(** Work in the local staging directory, which may also fail. *)
Definition staging : be unit := call (fun b => (Ok tt, b)).

Definition lift {A} (r : res storeErr A) : be A := fun b => (r, b).

(** ** Key layout (cas.go) *)

(** [strings.NewReplacer("/", "_", "\\", "_", "..", "_").Replace] *)
Fixpoint sanitize (s : bytes) : bytes :=
  match s with
  | [] => []
  | c :: s' =>
      if bool_decide (c = slash) || bool_decide (c = Byte.x5c) then Byte.x5f :: sanitize s'
      else match s' with
           | c' :: s'' => if bool_decide (c = Byte.x2e) && bool_decide (c' = Byte.x2e)
                          then Byte.x5f :: sanitize s'' else c :: sanitize s'
           | [] => [c]
           end
  end.

Definition sanitizeSeg (p : bytes) : bytes :=
  if bytes_eqb p [] || bytes_eqb p dot || bytes_eqb p dotdot then go "_" else p.

Definition sanitizeRepo (repo : bytes) : bytes :=
  join [slash] (map sanitizeSeg (split slash repo)).

Definition blobKey (digest : bytes) : res storeErr bytes :=
  match ParseDigest digest with
  | Err e => Err e
  | Ok (algo, hexv) => Ok (pathJoin [go "blobs"; algo; take 2 hexv; hexv])
  end.

Definition manifestKey (repo hexv : bytes) : bytes :=
  pathJoin [go "repos"; sanitizeRepo repo; go "manifests"; hexv].

Definition tagKey (repo tag : bytes) : bytes :=
  pathJoin [go "repos"; sanitizeRepo repo; go "tags"; sanitize tag].

(** ** Blobs *)

Definition sha256Digest (content : bytes) : bytes :=
  go "sha256:" ++ hexEncode (sha256 content).

Definition StatBlob (digest : bytes) : be Z := key ← lift (blobKey digest); objStat key.
Definition GetBlob (digest : bytes) : be bytes := key ← lift (blobKey digest); objGet key.

Definition PutBlob (content expect : bytes) : be (bytes * Z) :=
  staging ≫= fun _ =>
  let digest := sha256Digest content in
  if negb (bytes_eqb expect []) && negb (bytes_eqb expect digest) then throw ErrDigestMismatch else
  key ← lift (blobKey digest);
  r ← attempt (objStat key);
  match r with
  | Ok _ => mret (digest, blen content)
  | Err _ =>
      staging ≫= fun _ =>
      objPut key content ≫= fun _ => mret (digest, blen content)
  end.

Definition DeleteBlob (digest : bytes) : be unit :=
  key ← lift (blobKey digest);
  objStat key ≫= fun _ => objDelete key.

(** ** Manifests and tags *)

Definition invalidateCatalog : be unit := fun b =>
  (Ok tt, mkBackend (objs b) (events b) [] (catalogAt b) false (catalogGen b + 1) (now b)).

Definition hexOf (digest : bytes) : bytes :=
  match ParseDigest digest with Ok (_, hexv) => hexv | Err _ => [] end.

Definition PutManifest (repo ref mediaType content : bytes) : be bytes :=
  r ← PutBlob content [];
  let digest := fst r in
  let hexv := hexOf digest in
  objPut (manifestKey repo hexv) mediaType ≫= fun _ =>
  invalidateCatalog ≫= fun _ =>
  if negb (isDigest ref)
  then objPut (tagKey repo ref) digest ≫= fun _ => mret digest
  else mret digest.

Definition GetManifest (repo ref : bytes) : be (bytes * bytes * bytes) :=
  let fromTag := negb (isDigest ref) in
  digest ← (if fromTag then raw ← objGet (tagKey repo ref); mret (trimSpace raw) else mret ref);
  match ParseDigest digest with
  | Err e => if fromTag then throw ErrNotFound else throw e
  | Ok (_, hexv) =>
      mediaType ← objGet (manifestKey repo hexv);
      content ← GetBlob digest;
      mret (content, digest, mediaType)
  end.

Definition DeleteManifest (repo digest : bytes) : be unit :=
  r ← lift (ParseDigest digest);
  let key := manifestKey repo (snd r) in
  objStat key ≫= fun _ =>
  objDelete key ≫= fun _ => invalidateCatalog.

(** The base names of the files of a listing. *)
Definition fileNames (keys : list bytes) : list bytes :=
  map pathBase (filter (fun k => hasSuffix k [slash] = false) keys).

Definition Tags (repo : bytes) : be (list bytes) :=
  keys ← objList (pathJoin [go "repos"; sanitizeRepo repo; go "tags"] ++ [slash]) [slash];
  mret (sortStrings (fileNames keys)).

(** ** The catalog *)

(** What one directory of the walk contributes: the repository it is the marker
    directory of, and the directories to descend into. *)
Definition walkDir (prefix : bytes) (entries : list bytes) : list bytes * list bytes :=
  (if bytes_eqb (pathBase (trimSuffix prefix [slash])) (go "manifests") &&
      existsb (fun e => negb (hasSuffix e [slash])) entries
   then let name := trimSuffix (trimPrefix prefix (go "repos/")) [slash] in
        [trimSuffix name (go "/manifests")]
   else [],
   filter (fun e => hasSuffix e [slash] = true) entries).

Fixpoint walkRepos (fuel : nat) (prefix : bytes) (out : list bytes) : be (list bytes) :=
  match fuel with
  | O => throw ErrFuel
  | S fuel =>
      entries ← objList prefix [slash];
      let (here, dirs) := walkDir prefix entries in
      foldM (fun out e => walkRepos fuel e out) dirs (out ++ here)
  end.

(** A directory is a proper prefix of some key. *)
Definition walkFuel (o : gmap bytes bytes) : nat :=
  S (max_list (map (fun kc => length (fst kc)) (map_to_list o))).

Definition walkAll : be (list bytes) := fun b =>
  walkRepos (walkFuel (objs b)) (go "repos/") [] b.

Definition cacheFresh (b : Backend) : bool := catalogValid b && (now b - catalogAt b <? catalogTTL).

Definition publishCatalog (genBefore : Z) (repos : list bytes) : be unit := fun b =>
  (Ok tt, if catalogGen b =? genBefore
          then mkBackend (objs b) (events b) repos (now b) true (catalogGen b) (now b)
          else b).

(** The slow path, and its publication. *)
Definition refreshCatalog (genBefore : Z) : be (list bytes) :=
  repos ← walkAll;
  let repos := sortStrings repos in
  publishCatalog genBefore repos ≫= fun _ => mret repos.

Definition Repos : be (list bytes) := fun b =>
  if cacheFresh b then (Ok (catalogList b), b)
  else refreshCatalog (catalogGen b) b.

(** ** Garbage collection (gc.go) *)

(** The digests of a decoded manifest; a missing config has the empty digest. *)
Record gcManifest := mkGcManifest {
  Config : bytes; Layers : list bytes; Manifests : list bytes; Subject : option bytes }.

Definition gcManifestReadLimit : Z := 33554432.

(** Digests the mark phase keeps without visiting, and those it enqueues. *)
Definition leaves (m : gcManifest) : list bytes :=
  filter (fun d => isDigest d = true) (Config m :: Layers m).
Definition children (m : gcManifest) : list bytes :=
  filter (fun d => isDigest d = true)
    (Manifests m ++ match Subject m with Some d => [d] | None => [] end).

Definition manifestHexes (repo : bytes) : be (list bytes) :=
  keys ← objList (pathJoin [go "repos"; sanitizeRepo repo; go "manifests"] ++ [slash]) [slash];
  mret (fileNames keys).

Definition readTag (repo tag : bytes) : be bytes :=
  raw ← objGet (tagKey repo tag); mret (trimSpace raw).

Section Collect.
(** [json.Unmarshal] into a [gcManifest]; [None] when it reports an error. *)
Variable unmarshal : bytes -> option gcManifest.

Definition parseManifest (content : bytes) : option gcManifest :=
  unmarshal (take_z gcManifestReadLimit content).

Definition parseManifestBlob (digest : bytes) : be gcManifest :=
  data ← GetBlob digest;
  match parseManifest data with None => throw errNotManifest | Some m => mret m end.

Definition enqueueRoot (queue : list bytes) (d : bytes) : list bytes :=
  if isDigest d then queue ++ [d] else queue.

Definition tagRoot (repo : bytes) (queue : list bytes) (tag : bytes) : be (list bytes) :=
  r ← attempt (readTag repo tag);
  mret (match r with Ok d => enqueueRoot queue d | Err _ => queue end).

Definition repoRoots (queue : list bytes) (repo : bytes) : be (list bytes) :=
  hexes ← manifestHexes repo;
  let queue := fold_left (fun q hexv => enqueueRoot q (go "sha256:" ++ hexv)) hexes queue in
  tags ← Tags repo;
  foldM (tagRoot repo) tags queue.

(** The queue is a stack: its last element is taken first. *)
Fixpoint mark (fuel : nat) (queue : list bytes) (visited reachable : gset bytes) : be (gset bytes) :=
  match fuel with
  | O => throw ErrFuel
  | S fuel =>
      match rev queue with
      | [] => mret reachable
      | d :: rest =>
          let queue := rev rest in
          if decide (d ∈ visited) then mark fuel queue visited reachable
          else
            let visited := {[d]} ∪ visited in
            let reachable := {[d]} ∪ reachable in
            r ← attempt (parseManifestBlob d);
            match r with
            | Err ErrNotFound | Err errNotManifest => mark fuel queue visited reachable
            | Err e => throw e
            | Ok m =>
                mark fuel (queue ++ children m) visited
                  (list_to_set (leaves m) ∪ list_to_set (children m) ∪ reachable)
            end
      end
  end.

(** Each visit takes one element and adds the children of a blob never visited
    before. *)
Definition childCount (content : bytes) : nat :=
  match parseManifest content with Some m => length (children m) | None => 0 end.
Definition markFuel (o : gmap bytes bytes) (queue : list bytes) : nat :=
  S (length queue + sum_list (map (fun kc => childCount (snd kc)) (map_to_list o))).

Fixpoint sweep (reachable : gset bytes) (keys : list bytes) : be Z :=
  match keys with
  | [] => mret 0
  | key :: keys =>
      let digest := go "sha256:" ++ pathBase key in
      if hasSuffix key [slash] || negb (isDigest digest) || bool_decide (digest ∈ reachable)
      then sweep reachable keys
      else objDelete key ≫= fun _ => freed ← sweep reachable keys; mret (freed + 1)
  end.

Definition GC : be Z :=
  repos ← Repos;
  queue ← foldM repoRoots repos [];
  reachable ← (fun b => mark (markFuel (objs b) queue) queue ∅ ∅ b);
  keys ← objList (go "blobs/sha256/") [];
  sweep reachable keys.

End Collect.

(** ** Referrers (referrers.go) *)

Record referrerManifest := mkReferrerManifest {
  rMediaType : bytes; rArtifactType : bytes; rConfigMediaType : bytes;
  rSubject : option bytes; rAnnotations : list (bytes * bytes) }.
Record Descriptor := mkDescriptor {
  MediaType : bytes; Digest : bytes; Size : Z; ArtifactType : bytes;
  Annotations : list (bytes * bytes) }.

Definition fallbackMediaType : bytes := go "application/vnd.oci.image.manifest.v1+json".

Definition markerMediaType (repo hexv : bytes) : be bytes :=
  r ← attempt (objGet (manifestKey repo hexv));
  mret (match r with
        | Err _ => fallbackMediaType
        | Ok raw => let mt := trimSpace raw in
                    if bytes_eqb mt [] then fallbackMediaType else mt
        end).

Section Refer.
Variable unmarshal : bytes -> option referrerManifest.

Fixpoint referrersOf (repo subject : bytes) (hexes : list bytes) : be (list Descriptor) :=
  match hexes with
  | [] => mret []
  | hexv :: hexes =>
      let digest := go "sha256:" ++ hexv in
      r ← attempt (GetBlob digest);
      match r with
      | Err _ => referrersOf repo subject hexes
      | Ok content =>
          let data := take_z gcManifestReadLimit content in
          match unmarshal data with
          | None => referrersOf repo subject hexes
          | Some m =>
              if bool_decide (rSubject m = Some subject) then
                mt ← (if bytes_eqb (rMediaType m) [] then markerMediaType repo hexv
                      else mret (rMediaType m));
                let artifactType :=
                  if bytes_eqb (rArtifactType m) [] then rConfigMediaType m else rArtifactType m in
                rest ← referrersOf repo subject hexes;
                mret (mkDescriptor mt digest (blen data) artifactType (rAnnotations m) :: rest)
              else referrersOf repo subject hexes
          end
      end
  end.

Definition Referrers (repo subject : bytes) : be (list Descriptor) :=
  match ParseDigest subject with
  | Err e => throw e
  | Ok _ => hexes ← manifestHexes repo; referrersOf repo subject hexes
  end.

End Refer.

(** ** Digests and keys *)

(** Sixty-four hex digits, as [ParseDigest] accepts them. *)
Definition hex64 (h : bytes) : Prop := blen h = 64 /\ Forall (fun c => isHexDigit c = true) h.

Lemma ParseDigest_ok d r :
  ParseDigest d = Ok r -> exists h, r = (go "sha256", h) /\ d = go "sha256:" ++ h /\ hex64 h.
Proof.
  unfold ParseDigest. destruct (cutByte Byte.x3a d) as [[algo h]|] eqn:E; [|done].
  apply cutByte_Some in E as [-> _]. unfold bytes_eqb. case_bool_decide as Ha; [|done].
  destruct (Z.eqb_spec (blen h) 64); [|done].
  destruct (forallb isHexDigit h) eqn:Ef; [|done]. simpl. intros [= <-].
  exists h. subst algo. split_and!; [done|done|]. split; [done|].
  by apply Forall_forall; intros c Hc; eapply forallb_forall; [exact Ef|apply list_elem_of_In].
Qed.

Lemma ParseDigest_hex h : hex64 h -> ParseDigest (go "sha256:" ++ h) = Ok (go "sha256", h).
Proof.
  intros [Hl Hh]. unfold ParseDigest.
  replace (cutByte Byte.x3a (go "sha256:" ++ h)) with (Some (go "sha256", h)) by done.
  change (bytes_eqb (go "sha256") (go "sha256")) with true. rewrite Hl.
  assert (forallb isHexDigit h = true) as ->; [|done].
  apply forallb_forall. intros c Hc. eapply (proj1 (Forall_forall _ _) Hh).
  by apply list_elem_of_In.
Qed.

Lemma isDigest_spec d : isDigest d = true <-> exists h, d = go "sha256:" ++ h /\ hex64 h.
Proof.
  unfold isDigest. split.
  - destruct (ParseDigest d) eqn:E; [|done]. intros _.
    apply ParseDigest_ok in E as (h & _ & ? & ?). eauto.
  - intros (h & -> & Hh). by rewrite ParseDigest_hex.
Qed.

Lemma hex64_sha256 c : hex64 (hexEncode (sha256 c)).
Proof.
  destruct (hexEncode_spec (sha256 c)) as [Hl Hf]. split; [|done].
  unfold blen. rewrite Hl, length_sha256. done.
Qed.
#[export] Hint Resolve hex64_sha256 : cornus.

(** What a key of the layout names.  A repository is its list of path segments. *)
Inductive keyKind :=
| KBlob (h : bytes)
| KMarker (repo : list bytes) (h : bytes)
| KTag (repo : list bytes) (t : bytes).

Definition segsOf (kk : keyKind) : list bytes :=
  match kk with
  | KBlob h => [go "blobs"; go "sha256"; take 2 h; h]
  | KMarker r h => go "repos" :: r ++ [go "manifests"; h]
  | KTag r t => go "repos" :: r ++ [go "tags"; t]
  end.
Definition keyOf (kk : keyKind) : bytes := join [slash] (segsOf kk).

Definition okRepo (r : list bytes) : Prop := r <> [] /\ Forall normalSeg r.
Definition okKind (kk : keyKind) : Prop :=
  match kk with
  | KBlob h => hex64 h
  | KMarker r h => okRepo r /\ hex64 h
  | KTag r t => okRepo r /\ normalSeg t
  end.

Lemma hexDigit_sep c : isHexDigit c = true -> c <> slash /\ c <> Byte.x2e /\ c <> Byte.x3a.
Proof. intros H. split_and!; intros ->; discriminate. Qed.

Lemma normalSeg_hex s : s <> [] -> Forall (fun c => isHexDigit c = true) s -> normalSeg s.
Proof.
  intros Hne H. split_and!; try done.
  - intros Hin. eapply Forall_forall in H; [|exact Hin]. discriminate.
  - intros ->. apply Forall_cons_1 in H as [H _]. discriminate.
  - intros ->. apply Forall_cons_1 in H as [H _]. discriminate.
Qed.

Lemma hex64_normal h : hex64 h -> normalSeg h /\ normalSeg (take 2 h).
Proof.
  intros [Hl Hh]. destruct h as [|a [|b h]]; [done|done|].
  split; apply normalSeg_hex; [done..|]. by apply Forall_take.
Qed.

Ltac forall_list := repeat first [apply List.Forall_nil | apply List.Forall_cons; [done|]].

Lemma segsOf_normal kk : okKind kk -> Forall normalSeg (segsOf kk).
Proof.
  assert (Hl : normalSeg (go "blobs") /\ normalSeg (go "sha256") /\ normalSeg (go "repos") /\
    normalSeg (go "manifests") /\ normalSeg (go "tags")).
  { split_and!; (split_and!; [|done..]); compute_done. }
  destruct Hl as (H1 & H2 & H3 & H4 & H5).
  destruct kk as [h|r h|r t]; simpl.
  - intros Hh. apply hex64_normal in Hh as [? ?]. forall_list.
  - intros [[_ Hr] Hh]. apply hex64_normal in Hh as [? ?].
    apply List.Forall_cons; [done|]. apply Forall_app. split; [done|]. forall_list.
  - intros [[_ Hr] Ht]. apply List.Forall_cons; [done|]. apply Forall_app. split; [done|]. forall_list.
Qed.

Lemma segsOf_inj k1 k2 : okKind k1 -> okKind k2 -> segsOf k1 = segsOf k2 -> k1 = k2.
Proof.
  assert (Ht : forall (r1 r2 : list bytes) a1 b1 a2 b2,
    r1 ++ [a1; b1] = r2 ++ [a2; b2] -> r1 = r2 /\ a1 = a2 /\ b1 = b2).
  { intros r1 r2 a1 b1 a2 b2 E. change [a1; b1] with ([a1] ++ [b1]) in E.
    change [a2; b2] with ([a2] ++ [b2]) in E. rewrite !app_assoc in E.
    apply app_inj_tail in E as [E ->]. by apply app_inj_tail in E as [-> ->]. }
  destruct k1, k2; simpl; intros _ _ E; try discriminate; injection E; intros.
  - by subst.
  - apply Ht in H as (-> & _ & ->). done.
  - by apply Ht in H as (_ & E' & _).
  - by apply Ht in H as (_ & E' & _).
  - apply Ht in H as (-> & _ & ->). done.
Qed.

Lemma keyOf_inj k1 k2 : okKind k1 -> okKind k2 -> keyOf k1 = keyOf k2 -> k1 = k2.
Proof.
  intros H1 H2 E. apply segsOf_inj; [done..|].
  apply segsOf_normal in H1, H2. eapply join_inj; [by destruct k1|by destruct k2|..|exact E];
    (eapply Forall_impl; [eassumption|]; by intros ? []).
Qed.

Definition repoSegs (repo : bytes) : list bytes := map sanitizeSeg (split slash repo).

Lemma normalSeg_sanitizeSeg p : slash ∉ p -> normalSeg (sanitizeSeg p).
Proof.
  intros Hp. unfold sanitizeSeg, bytes_eqb.
  repeat case_bool_decide; simpl; try done; (split_and!; [compute_done|done..]).
Qed.

Lemma okRepo_segs repo : okRepo (repoSegs repo).
Proof.
  unfold repoSegs. split.
  - intros E. apply map_eq_nil in E. by apply split_nonempty in E.
  - apply Forall_map. eapply Forall_impl; [apply split_parts_nosep|].
    intros p Hp. by apply normalSeg_sanitizeSeg.
Qed.
#[export] Hint Resolve okRepo_segs : cornus.

(** A repository name read back from the tree denotes the same segments. *)
Lemma repoSegs_join r : okRepo r -> repoSegs (join [slash] r) = r.
Proof.
  intros [Hne Hr]. unfold repoSegs. rewrite split_join;
    [|done|eapply Forall_impl; [exact Hr|]; by intros ? []].
  clear Hne. induction Hr as [|s r (Hs & H1 & H2 & H3) Hr IH]; [done|]. simpl. rewrite IH.
  unfold sanitizeSeg, bytes_eqb. by rewrite !bool_decide_false by done.
Qed.

Lemma sanitize_cons c t :
  (exists t', (length t' <= length t)%nat /\ sanitize (c :: t) = Byte.x5f :: sanitize t') \/
  (sanitize (c :: t) = c :: sanitize t /\ c <> slash /\ (c = Byte.x2e -> head t <> Some Byte.x2e)).
Proof.
  cbn [sanitize]. destruct (bool_decide (c = slash) || bool_decide (c = Byte.x5c)) eqn:E; [by left; exists t|].
  apply orb_false_iff in E as [E%bool_decide_eq_false _].
  destruct t as [|c' t]; [by right|].
  destruct (bool_decide (c = Byte.x2e) && bool_decide (c' = Byte.x2e)) eqn:E2.
  - left. exists t. simpl. split; [lia|done].
  - right. split_and!; [done..|]. intros -> [= ->]. done.
Qed.

Lemma sanitize_spec t : (slash ∉ sanitize t) /\ sanitize t <> dotdot.
Proof.
  split.
  - induction t as [t IH] using (induction_ltof1 _ (@length _)); unfold ltof in IH.
    destruct t as [|c t]; [apply not_elem_of_nil|].
    destruct (sanitize_cons c t) as [(t' & Hl & ->)|(-> & Hc & _)]; apply not_elem_of_cons; split;
      [done|apply IH; simpl; lia|congruence|apply IH; simpl; lia].
  - destruct t as [|c t]; [done|].
    destruct (sanitize_cons c t) as [(t' & Hl & ->)|(-> & Hc & Hd)]; [done|]. intros [= -> E].
    specialize (Hd eq_refl). destruct t as [|c' t]; [done|].
    destruct (sanitize_cons c' t) as [(t' & _ & E')|(E' & _)]; rewrite E' in E; [done|].
    injection E as ->. done.
Qed.

(** References that are usable as tags.  [sanitize] maps every other reference to
    a clean segment already; "" and "." would name the directory of the tags. *)
Definition okTag (t : bytes) : Prop := sanitize t <> [] /\ sanitize t <> dot.

Lemma okTag_normal t : okTag t -> normalSeg (sanitize t).
Proof. intros [H1 H2]. destruct (sanitize_spec t). by split_and!. Qed.

Lemma singletons (l : list bytes) :
  map (join [slash]) (map (fun x => [x]) l) = l /\ concat (map (fun x => [x]) l) = l.
Proof. induction l as [|x l [IH1 IH2]]; [done|]. simpl. by rewrite IH1, IH2. Qed.

Lemma normal_words : normalSeg (go "repos") /\ normalSeg (go "manifests") /\ normalSeg (go "tags").
Proof. split_and!; (split_and!; [compute_done|done..]). Qed.

Lemma repoKey r rest :
  okRepo r -> Forall normalSeg rest ->
  pathJoin (go "repos" :: join [slash] r :: rest) = join [slash] (go "repos" :: r ++ rest).
Proof.
  intros Hr Hn. destruct (singletons rest) as [E1 E2].
  rewrite <- E1 at 1. rewrite <- E2 at 2.
  apply (pathJoin_normal ([go "repos"] :: r :: map (fun x => [x]) rest)); [done|].
  apply List.Forall_cons; [split; [done|]; destruct normal_words as [? _]; forall_list|].
  apply List.Forall_cons; [done|]. apply Forall_map. eapply Forall_impl; [exact Hn|].
  intros s Hs. split; [done|]. simpl. forall_list.
Qed.

Lemma blobKey_hex h : hex64 h -> blobKey (go "sha256:" ++ h) = Ok (keyOf (KBlob h)).
Proof.
  intros Hh. unfold blobKey. rewrite ParseDigest_hex by done. f_equal.
  assert (Hn := segsOf_normal (KBlob h) Hh). unfold keyOf. cbn [segsOf] in *.
  set (segs := [_; _; _; _]) in *. destruct (singletons segs) as [E1 E2].
  rewrite <- E1 at 1. rewrite <- E2 at 2. apply pathJoin_normal; [done|].
  apply Forall_map. eapply Forall_impl; [exact Hn|]. intros s Hs. split; [done|]. simpl. forall_list.
Qed.

Lemma manifestKey_kind repo h : hex64 h -> manifestKey repo h = keyOf (KMarker (repoSegs repo) h).
Proof.
  intros Hh. apply hex64_normal in Hh as [Hh _]. destruct normal_words as (_ & Hm & _).
  apply repoKey; [apply okRepo_segs|forall_list].
Qed.

Lemma tagKey_kind repo t : okTag t -> tagKey repo t = keyOf (KTag (repoSegs repo) (sanitize t)).
Proof.
  intros Ht%okTag_normal. destruct normal_words as (_ & _ & Hm).
  apply repoKey; [apply okRepo_segs|forall_list].
Qed.
