(* ===== verification/StorageInv.v ===== *)
(** * StorageInv: integrity and crash safety of the content-addressable store

    A weakest-precondition calculus for the object-store calls, the invariant of
    the key layout (every blob sits under the hash of its content) for every
    operation and failure schedule, and the write order of [PutManifest]. *)

From Stdlib Require Import ZArith Lia.
From Stdlib.Strings Require Import Byte.
From stdpp Require Import base list gmap sorting.
From S2P Require Import Prelude GoStd Storage.
Open Scope Z_scope.

(** ** Object-store calls *)

Lemma set_objs_id b : set_objs (objs b) b = b.
Proof. by destruct b. Qed.
Lemma set_events_id b : set_events (events b) b = b.
Proof. by destruct b. Qed.

(** A call that only reads. *)
Lemma wp_query {A} (f : gmap bytes bytes -> res storeErr A) Q b :
  (forall evs r, r = Err ErrIO \/ r = f (objs b) -> Q r (set_events evs b)) ->
  wp (call (fun b => (f (objs b), b))) Q b.
Proof.
  intros H. unfold wp, call. destruct (events b) as [|[] evs] eqn:E; simpl;
    [rewrite <- (set_events_id b) at 2|..]; apply H; auto.
Qed.

Lemma wp_objGet key Q b :
  (forall evs r, r = Err ErrIO \/ r = look (objs b) key -> Q r (set_events evs b)) ->
  wp (objGet key) Q b.
Proof. apply (wp_query (fun o => look o key)). Qed.

Lemma wp_objStat key Q b :
  (forall evs r, r = Err ErrIO \/ r = (c ← look (objs b) key; Ok (blen c)) -> Q r (set_events evs b)) ->
  wp (objStat key) Q b.
Proof. apply (wp_query (fun o => c ← look o key; Ok (blen c))). Qed.

Lemma wp_objList prefix delim Q b :
  (forall evs r, r = Err ErrIO \/ r = Ok (listOf prefix delim (objs b)) -> Q r (set_events evs b)) ->
  wp (objList prefix delim) Q b.
Proof. apply (wp_query (fun o => Ok (listOf prefix delim o))). Qed.

Lemma wp_staging Q b :
  (forall evs r, r = Err ErrIO \/ r = Ok tt -> Q r (set_events evs b)) -> wp staging Q b.
Proof. apply (wp_query (fun _ => Ok tt)). Qed.

(** A call that changes the store: not applied, or applied with either reply. *)
Lemma wp_update (g : gmap bytes bytes -> gmap bytes bytes) Q b :
  (forall evs, Q (Err ErrIO) (set_events evs b)) ->
  (forall evs r, r = Err ErrIO \/ r = Ok tt -> Q r (set_objs (g (objs b)) (set_events evs b))) ->
  wp (call (fun b => (Ok tt, set_objs (g (objs b)) b))) Q b.
Proof.
  intros Hf Hok. unfold wp, call. destruct (events b) as [|[] evs] eqn:E; simpl; [|by auto..].
  pose proof (Hok (events b) (Ok tt)) as H. rewrite set_events_id in H. auto.
Qed.

Lemma wp_objPut key data Q b :
  (forall evs, Q (Err ErrIO) (set_events evs b)) ->
  (forall evs r, r = Err ErrIO \/ r = Ok tt ->
     Q r (set_objs (<[key := data]> (objs b)) (set_events evs b))) ->
  wp (objPut key data) Q b.
Proof. apply (wp_update (fun o => <[key := data]> o)). Qed.

Lemma wp_objDelete key Q b :
  (forall evs, Q (Err ErrIO) (set_events evs b)) ->
  (forall evs r, r = Err ErrIO \/ r = Ok tt ->
     Q r (set_objs (delete key (objs b)) (set_events evs b))) ->
  wp (objDelete key) Q b.
Proof. apply (wp_update (fun o => delete key o)). Qed.

Lemma wp_lift {A} (r : res storeErr A) (Q : res storeErr A -> Backend -> Prop) b :
  Q r b -> wp (lift r) Q b.
Proof. done. Qed.

(** ** The layout invariant *)

Definition okContent (kk : keyKind) (c : bytes) : Prop :=
  match kk with
  | KBlob h => h = hexEncode (sha256 c)
  | KMarker _ _ => True
  | KTag _ _ => isDigest c = true
  end.

(** Every object has a key of the layout, and every blob the key of its hash. *)
Definition wfStore (o : gmap bytes bytes) : Prop :=
  forall k c, o !! k = Some c -> exists kk, k = keyOf kk /\ okKind kk /\ okContent kk c.

Lemma wf_insert o kk c :
  wfStore o -> okKind kk -> okContent kk c -> wfStore (<[keyOf kk := c]> o).
Proof.
  intros H Hk Hc k c'. rewrite lookup_insert_Some. intros [[<- <-]|[_ E]]; [by eauto|by apply H].
Qed.

Lemma wf_delete o k : wfStore o -> wfStore (delete k o).
Proof. intros H k' c. rewrite lookup_delete_Some. intros [_ E]. by apply H. Qed.

Lemma wf_subset o o' : wfStore o -> o' ⊆ o -> wfStore o'.
Proof. intros H Hs k c E. eapply H, lookup_weaken; eassumption. Qed.

Lemma wf_lookup o kk c : wfStore o -> okKind kk -> o !! keyOf kk = Some c -> okContent kk c.
Proof. intros H Hk E. apply H in E as (kk' & Ek & Hk' & Hc). by apply keyOf_inj in Ek as ->. Qed.

Lemma blobKey_sha c : blobKey (sha256Digest c) = Ok (keyOf (KBlob (hexEncode (sha256 c)))).
Proof. apply blobKey_hex, hex64_sha256. Qed.

Lemma isDigest_sha c : isDigest (sha256Digest c) = true.
Proof. apply isDigest_spec. eexists. split; [done|apply hex64_sha256]. Qed.

Lemma hexOf_sha c : hexOf (sha256Digest c) = hexEncode (sha256 c).
Proof. unfold hexOf, sha256Digest. by rewrite ParseDigest_hex by apply hex64_sha256. Qed.

Lemma blobKey_ok d k : blobKey d = Ok k -> exists h, d = go "sha256:" ++ h /\ hex64 h /\ k = keyOf (KBlob h).
Proof.
  intros E. assert (is_ok (blobKey d) = true) as Ho by by rewrite E. unfold blobKey in Ho.
  destruct (ParseDigest d) eqn:Ep; [|done].
  apply ParseDigest_ok in Ep as (h & -> & -> & Hh). exists h. rewrite blobKey_hex in E by done.
  injection E as <-. done.
Qed.

Definition shaKey (c : bytes) : bytes := keyOf (KBlob (hexEncode (sha256 c))).

(** A blob with the hash of [c] is stored. *)
Definition hasBlob (c : bytes) (o : gmap bytes bytes) : Prop :=
  exists c', o !! shaKey c = Some c' /\ sha256 c' = sha256 c.

(** The two states agree outside the objects and the schedule. *)
Definition sameCatalog (b b' : Backend) : Prop :=
  catalogList b' = catalogList b /\ catalogAt b' = catalogAt b /\
  catalogValid b' = catalogValid b /\ catalogGen b' = catalogGen b /\ now b' = now b.

(** [PutBlob] leaves the store as it was, or adds the blob. *)
Lemma wp_PutBlob c expect (Q : res storeErr (bytes * Z) -> Backend -> Prop) b :
  wfStore (objs b) ->
  (forall b' e, sameCatalog b b' ->
     objs b' = objs b \/ objs b' = <[shaKey c := c]> (objs b) -> Q (Err e) b') ->
  (forall b', sameCatalog b b' -> hasBlob c (objs b') ->
     objs b' = objs b \/ objs b' = <[shaKey c := c]> (objs b) ->
     expect = [] \/ expect = sha256Digest c -> Q (Ok (sha256Digest c, blen c)) b') ->
  wp (PutBlob c expect) Q b.
Proof.
  intros Hwf He Hok. apply wp_bind, wp_staging. intros evs r [-> | ->]; [by apply He; auto|].
  cbv zeta.
  destruct (negb (bytes_eqb expect []) && negb (bytes_eqb expect (sha256Digest c))) eqn:Ec; [by apply He; auto|].
  assert (Hx : expect = [] \/ expect = sha256Digest c).
  { apply andb_false_iff in Ec as [E|E]; apply negb_false_iff, bool_decide_eq_true in E; auto. }
  apply wp_bind, wp_lift. rewrite blobKey_sha. fold (shaKey c). cbn beta iota.
  apply wp_bind, wp_attempt, wp_objStat. intros evs2 [n|e] Hr2.
  - destruct Hr2 as [|E]; [done|]. apply Hok; [done| |by auto|done]. simpl in E |- *.
    unfold look in E. destruct (_ !! _) as [c'|] eqn:El; [|done]. exists c'. split; [done|].
    apply wf_lookup in El as Hc'; [|done|apply hex64_sha256]. by apply hexEncode_inj.
  - apply wp_bind, wp_staging. intros evs3 r3 [-> | ->]; [by apply He; auto|].
    apply wp_bind, wp_objPut; [intros evs4; by apply He; auto|].
    intros evs4 r4 [-> | ->]; [by apply He; auto|]. apply Hok; [done| |by auto|done].
    exists c. split; [|done]. simpl. apply lookup_insert_eq.
Qed.

(** ** PutManifest *)

Definition addsBlob (c : bytes) (o o1 : gmap bytes bytes) : Prop :=
  o1 = o \/ o1 = <[shaKey c := c]> o.

Definition invalidated (b b' : Backend) : Prop :=
  catalogList b' = [] /\ catalogAt b' = catalogAt b /\ catalogValid b' = false /\
  catalogGen b' = catalogGen b + 1 /\ now b' = now b.

Section PutManifest_stages.
Context (repo ref mt c : bytes) (b : Backend) (Hwf : wfStore (objs b)).
Let mk := manifestKey repo (hexEncode (sha256 c)).
Let tk := tagKey repo ref.

(** The store after a run that stopped anywhere. *)
Inductive stages : res storeErr bytes -> Backend -> Prop :=
| stage_blob e b' : sameCatalog b b' -> addsBlob c (objs b) (objs b') -> stages (Err e) b'
| stage_marker_lost e b' o1 :
    sameCatalog b b' -> addsBlob c (objs b) o1 -> hasBlob c o1 -> objs b' = <[mk := mt]> o1 ->
    stages (Err e) b'
| stage_tag e b' o1 :
    invalidated b b' -> addsBlob c (objs b) o1 -> hasBlob c o1 -> isDigest ref = false ->
    objs b' = <[mk := mt]> o1 \/ objs b' = <[tk := sha256Digest c]> (<[mk := mt]> o1) ->
    stages (Err e) b'
| stage_done b' o1 :
    invalidated b b' -> addsBlob c (objs b) o1 -> hasBlob c o1 ->
    objs b' = (if isDigest ref then <[mk := mt]> o1
               else <[tk := sha256Digest c]> (<[mk := mt]> o1)) ->
    stages (Ok (sha256Digest c)) b'.

Lemma PutManifest_stages : wp (PutManifest repo ref mt c) stages b.
Proof.
  apply wp_bind, wp_PutBlob; [done|intros b' e Hc Ho; by apply stage_blob|].
  intros b1 Hc Hb Ho _. cbv zeta. cbn [fst]. rewrite hexOf_sha. fold mk.
  apply wp_bind, wp_objPut; [intros evs; by apply stage_blob|].
  intros evs r [-> | ->]; [by eapply stage_marker_lost|].
  apply wp_bind. unfold wp at 1. cbn [invalidateCatalog fst snd].
  set (b2 := mkBackend _ _ _ _ _ _ _).
  assert (Hi : invalidated b b2) by (destruct Hc as (?&?&?&Hg&?); repeat split; simpl; congruence).
  destruct (isDigest ref) eqn:Ed; cbn [negb].
  - eapply stage_done; [exact Hi|exact Ho|exact Hb|]. by rewrite Ed.
  - fold tk. apply wp_bind, wp_objPut; [intros evs'; eapply stage_tag; eauto|].
    intros evs' r [-> | ->]; [eapply stage_tag; eauto|].
    eapply stage_done; [exact Hi|exact Ho|exact Hb|]. by rewrite Ed.
Qed.

End PutManifest_stages.

Lemma wf_addsBlob c o o1 : wfStore o -> addsBlob c o o1 -> wfStore o1.
Proof. intros Hwf [-> | ->]; [done|]. apply wf_insert; [done|apply hex64_sha256|done]. Qed.

Lemma wf_marker repo c mt o :
  wfStore o -> wfStore (<[manifestKey repo (hexEncode (sha256 c)) := mt]> o).
Proof.
  intros Hwf. rewrite manifestKey_kind by apply hex64_sha256.
  apply wf_insert; [done|split; [apply okRepo_segs|apply hex64_sha256]|done].
Qed.

Lemma wf_tag repo t c o : okTag t -> wfStore o -> wfStore (<[tagKey repo t := sha256Digest c]> o).
Proof.
  intros Ht Hwf. rewrite tagKey_kind by done.
  apply wf_insert; [done|split; [apply okRepo_segs|by apply okTag_normal]|apply isDigest_sha].
Qed.

(** The reference is a digest, or can be a tag. *)
Definition okRef (ref : bytes) : Prop := isDigest ref = true \/ okTag ref.

Lemma PutManifest_wf repo ref mt c b :
  okRef ref -> wfStore (objs b) ->
  wp (PutManifest repo ref mt c) (fun _ b' => wfStore (objs b')) b.
Proof.
  intros Href Hwf. eapply wp_mono; [by apply PutManifest_stages|].
  assert (Ht : isDigest ref = false -> okTag ref) by (destruct Href; [congruence|done]).
  intros r b' []; [by eapply wf_addsBlob|..];
    (assert (Hwm : wfStore (<[manifestKey repo (hexEncode (sha256 c)) := mt]> o1))
       by (by apply wf_marker; eapply wf_addsBlob)).
  - by rewrite H2.
  - destruct H3 as [-> | ->]; [done|apply wf_tag; auto].
  - rewrite H2. destruct (isDigest ref); [done|apply wf_tag; auto].
Qed.

(** ** Pulling *)

(** A store whose calls succeed, with no catalog cached. *)
Definition quiet (o : gmap bytes bytes) : Backend := mkBackend o [] [] 0 false 0 0.

Definition pull (o : gmap bytes bytes) (repo ref : bytes) : res storeErr (bytes * bytes * bytes) :=
  fst (GetManifest repo ref (quiet o)).

Definition tagTarget (o : gmap bytes bytes) (repo ref : bytes) : res storeErr bytes :=
  if isDigest ref then Ok ref else raw ← look o (tagKey repo ref); Ok (trimSpace raw).

Lemma GetBlob_quiet o h : hex64 h ->
  GetBlob (go "sha256:" ++ h) (quiet o) = (look o (keyOf (KBlob h)), quiet o).
Proof.
  intros Hh. unfold GetBlob, mbind, be_bind, stm_bind, lift. by rewrite blobKey_hex.
Qed.

Lemma pull_eq o repo ref :
  pull o repo ref =
  match tagTarget o repo ref with
  | Err e => Err e
  | Ok d =>
      match ParseDigest d with
      | Err e => Err (if isDigest ref then e else ErrNotFound)
      | Ok (_, h) =>
          m ← look o (keyOf (KMarker (repoSegs repo) h));
          x ← look o (keyOf (KBlob h)); Ok (x, d, m)
      end
  end.
Proof.
  unfold pull, GetManifest, tagTarget.
  assert (Hd : forall d (fromTag : bool),
    fst (match ParseDigest d with
         | Err e => if fromTag then throw ErrNotFound else throw e
         | Ok (_, hexv) =>
             mediaType ← objGet (manifestKey repo hexv);
             content ← GetBlob d; mret (content, d, mediaType)
         end (quiet o)) =
    match ParseDigest d with
    | Err e => Err (if negb fromTag then e else ErrNotFound)
    | Ok (_, h) =>
        m ← look o (keyOf (KMarker (repoSegs repo) h));
        x ← look o (keyOf (KBlob h)); Ok (x, d, m)
    end).
  { intros d fromTag. destruct (ParseDigest d) as [r|e] eqn:Ep; [|by destruct fromTag].
    apply ParseDigest_ok in Ep as (h & -> & -> & Hh).
    rewrite manifestKey_kind by done. unfold mbind at 1 2, be_bind, stm_bind.
    unfold objGet, call. cbn [events quiet objs]. unfold mbind, res_bind, be_bind, stm_bind.
    destruct (look o (keyOf (KMarker _ _))); [|done]. change (mkBackend o [] [] 0 false 0 0) with (quiet o).
    rewrite GetBlob_quiet by done. by destruct (look o (keyOf (KBlob h))). }
  destruct (isDigest ref); cbn [negb].
  - unfold mbind at 1, be_bind, stm_bind. cbn [mret be_ret stm_ret]. apply (Hd ref false).
  - unfold mbind at 1, be_bind, stm_bind. unfold mbind at 1, be_bind, stm_bind, objGet, call.
    cbn [events quiet objs]. unfold mbind at 3, res_bind.
    destruct (look o (tagKey repo ref)); [|done]. cbn [mret be_ret stm_ret]. apply (Hd _ true).
Qed.

Lemma look_Ok o k x : look o k = Ok x <-> o !! k = Some x.
Proof. unfold look. destruct (o !! k); split; congruence. Qed.

Lemma pull_Ok o repo ref x d m :
  pull o repo ref = Ok (x, d, m) <->
  tagTarget o repo ref = Ok d /\ exists h, d = go "sha256:" ++ h /\ hex64 h /\
    o !! keyOf (KMarker (repoSegs repo) h) = Some m /\ o !! keyOf (KBlob h) = Some x.
Proof.
  rewrite pull_eq. split.
  - destruct (tagTarget o repo ref) as [d0|]; [|done].
    destruct (ParseDigest d0) as [r|] eqn:Ep; [|done].
    apply ParseDigest_ok in Ep as (h & -> & -> & Hh).
    destruct (look o (keyOf (KMarker _ _))) eqn:E1; [|done].
    destruct (look o (keyOf (KBlob h))) eqn:E2; [|done]. cbn. intros [= -> <- ->].
    apply look_Ok in E1, E2. split; [done|]. by exists h.
  - intros (-> & h & -> & Hh & E1 & E2). rewrite ParseDigest_hex by done.
    apply look_Ok in E1, E2. unfold mbind, res_bind. by rewrite E1, E2.
Qed.

Lemma plain_hex c : isHexDigit c = true -> plain c = true.
Proof. destruct c; cbn; intros; congruence || done. Qed.

Lemma trimSpace_sha c : trimSpace (sha256Digest c) = sha256Digest c.
Proof.
  apply trimSpace_id. unfold sha256Digest. apply Forall_app. split; [by repeat constructor|].
  eapply Forall_impl; [apply hexEncode_spec|]. intros x. apply plain_hex.
Qed.

Lemma tagKey_inj repo t repo' t' : okTag t -> okTag t' ->
  tagKey repo t = tagKey repo' t' <-> repoSegs repo = repoSegs repo' /\ sanitize t = sanitize t'.
Proof.
  intros Ht Ht'. rewrite !tagKey_kind by done. split.
  - intros E. apply keyOf_inj in E; [by injection E| |];
      (split; [apply okRepo_segs|by apply okTag_normal]).
  - by intros [-> ->].
Qed.

(** Keys of different kinds differ. *)
Lemma keyOf_ne k1 k2 : okKind k1 -> okKind k2 -> k1 <> k2 -> keyOf k1 <> keyOf k2.
Proof. intros H1 H2 Hne E. by apply Hne, keyOf_inj. Qed.

(** A tag that is stored but cannot be pulled. *)
Definition dangling (o : gmap bytes bytes) (repo t : bytes) : Prop :=
  is_Some (o !! tagKey repo t) /\ is_ok (pull o repo t) = false.

(** One store has every key of another. *)
Definition extends (o o' : gmap bytes bytes) : Prop := forall k, is_Some (o !! k) -> is_Some (o' !! k).

Lemma extends_insert k v o o' : extends o o' -> extends o (<[k := v]> o').
Proof. intros H k' Hk. rewrite lookup_insert_is_Some'. auto. Qed.

Lemma extends_addsBlob c o o1 : addsBlob c o o1 -> extends o o1.
Proof. intros [-> | ->]; [by intros k|]. apply extends_insert; by intros k. Qed.

(** Adding objects keeps what a tag that stays in place resolves to. *)
Lemma pull_extends o o' repo t x d m :
  isDigest t = false -> extends o o' -> o' !! tagKey repo t = o !! tagKey repo t ->
  pull o repo t = Ok (x, d, m) -> exists x' m', pull o' repo t = Ok (x', d, m').
Proof.
  intros Hd Hx Et (Htt & h & -> & Hh & Em & Eb)%pull_Ok.
  destruct (Hx (keyOf (KMarker (repoSegs repo) h))) as [m' Em']; [by rewrite Em|].
  destruct (Hx (keyOf (KBlob h))) as [x' Eb']; [by rewrite Eb|].
  exists x', m'. apply pull_Ok. split; [|by exists h].
  unfold tagTarget, look in *. rewrite Hd in *. by rewrite Et.
Qed.

Section Tags_after.
Context (repo ref mt c : bytes) (Href : okRef ref).
Let mk := manifestKey repo (hexEncode (sha256 c)).

Lemma mk_kind : mk = keyOf (KMarker (repoSegs repo) (hexEncode (sha256 c))) /\
  okKind (KMarker (repoSegs repo) (hexEncode (sha256 c))).
Proof.
  split; [apply manifestKey_kind, hex64_sha256|]. split; [apply okRepo_segs|apply hex64_sha256].
Qed.

Lemma tagKey_ne repo' t' : okTag t' ->
  tagKey repo' t' <> shaKey c /\ tagKey repo' t' <> mk /\ mk <> shaKey c.
Proof.
  intros Ht. destruct mk_kind as [-> Hm]. rewrite tagKey_kind by done.
  assert (okKind (KTag (repoSegs repo') (sanitize t')))
    by (split; [apply okRepo_segs|by apply okTag_normal]).
  assert (okKind (KBlob (hexEncode (sha256 c)))) by apply hex64_sha256.
  split_and!; by apply keyOf_ne.
Qed.

Lemma tags_marker o o1 repo' t' : addsBlob c o o1 -> okTag t' ->
  o1 !! tagKey repo' t' = o !! tagKey repo' t' /\
  (<[mk := mt]> o1 : gmap bytes bytes) !! tagKey repo' t' = o !! tagKey repo' t'.
Proof.
  intros Ha Ht. destruct (tagKey_ne repo' t' Ht) as (H1 & H2 & _).
  rewrite (lookup_insert_ne o1) by done. destruct Ha as [-> | ->]; [done|].
  by rewrite lookup_insert_ne.
Qed.

(** What the tag entry is after the pushed tag was written. *)
Definition newTag (o' : gmap bytes bytes) (repo' t' : bytes) : Prop :=
  isDigest ref = false /\ tagKey repo' t' = tagKey repo ref /\
  o' !! tagKey repo' t' = Some (sha256Digest c) /\ is_Some (o' !! mk) /\ hasBlob c o'.

Lemma tags_done o o1 o' repo' t' :
  addsBlob c o o1 -> hasBlob c o1 -> isDigest ref = false -> okTag t' ->
  o' = <[tagKey repo ref := sha256Digest c]> (<[mk := mt]> o1) ->
  o' !! tagKey repo' t' = o !! tagKey repo' t' \/ newTag o' repo' t'.
Proof.
  intros Ha (c' & Hc1 & Hc2) Hd Ht ->.
  assert (Htr : okTag ref) by (destruct Href; [congruence|done]).
  destruct (tagKey_ne repo ref Htr) as (H1 & H2 & H3).
  destruct (decide (tagKey repo' t' = tagKey repo ref)) as [E|E].
  - right. unfold newTag. rewrite E. split_and!; [done..|apply lookup_insert_eq| |].
    + rewrite lookup_insert_ne, lookup_insert_eq by done. by eexists.
    + exists c'. split; [|done]. by rewrite !lookup_insert_ne.
  - left. rewrite lookup_insert_ne by done. by apply tags_marker.
Qed.

(** The tag entries after [PutManifest] stopped anywhere. *)
Lemma stages_tags b r b' :
  stages repo ref mt c b r b' ->
  extends (objs b) (objs b') /\
  forall repo' t', okTag t' ->
    objs b' !! tagKey repo' t' = objs b !! tagKey repo' t' \/ newTag (objs b') repo' t'.
Proof.
  intros Hst.
  destruct Hst as [e b' _ Ho|e b' o1 _ Ho Hb1 E|e b' o1 _ Ho Hb1 Hd [E|E]|b' o1 _ Ho Hb1 E].
  4: split; [rewrite E; by do 2 apply extends_insert; eapply extends_addsBlob|];
     intros; by eapply tags_done.
  1-3: rewrite ?E; split; [try apply extends_insert; by eapply extends_addsBlob|];
     intros repo' t' Ht; left; by apply tags_marker.
  rewrite E. destruct (isDigest ref) eqn:Ed.
  - split; [by apply extends_insert; eapply extends_addsBlob|].
    intros repo' t' Ht; left; by apply tags_marker.
  - split; [by do 2 apply extends_insert; eapply extends_addsBlob|].
    intros; eapply tags_done; eauto.
Qed.

Lemma pull_newTag o' repo' t' :
  wfStore o' -> okTag t' -> isDigest t' = false -> newTag o' repo' t' ->
  exists x' m', pull o' repo' t' = Ok (x', sha256Digest c, m').
Proof.
  intros Hwf Ht Hd' (Hd & E & Et & [m Em] & (x & Eb & _)). exists x, m. apply pull_Ok. split.
  - unfold tagTarget, look. rewrite Hd', Et. unfold mbind, res_bind. by rewrite trimSpace_sha.
  - assert (okTag ref) as Htr by (destruct Href; [congruence|done]).
    apply tagKey_inj in E as [-> _]; [|done..]. destruct mk_kind as [Hmk _]. fold mk in Em.
    rewrite Hmk in Em. exists (hexEncode (sha256 c)). split_and!; [done|apply hex64_sha256|done..].
Qed.

End Tags_after.

(** C18. [PutManifest] interrupted at any object-store call, with any replies lost,
    leaves a layout-conforming store in which no tag dangles that did not dangle
    before, and every tag that could be pulled still can be, with the digest it had
    or, for the tag being pushed, the digest of the new manifest. *)
Theorem PutManifest_crash_safe repo ref mt c b :
  okRef ref -> wfStore (objs b) ->
  let o' := objs (snd (PutManifest repo ref mt c b)) in
  wfStore o' /\
  (forall repo' t', okTag t' -> isDigest t' = false ->
     dangling o' repo' t' -> dangling (objs b) repo' t') /\
  (forall repo' t' x d m, okTag t' -> isDigest t' = false -> pull (objs b) repo' t' = Ok (x, d, m) ->
     exists x' d' m', pull o' repo' t' = Ok (x', d', m') /\
       (d' = d \/ d' = sha256Digest c /\ tagKey repo' t' = tagKey repo ref)).
Proof.
  intros Href Hwf o'.
  assert (Hwf' : wfStore o') by (by apply (PutManifest_wf repo ref mt c b)).
  destruct (stages_tags repo ref mt c Href b _ _ (PutManifest_stages repo ref mt c b Hwf)) as [Hx Htags].
  split_and!; [done|..].
  - intros repo' t' Ht Hd [[v Hv] Hp]. destruct (Htags repo' t' Ht) as [E|Hn].
    + split; [by rewrite <- E; exists v|]. destruct (pull (objs b) repo' t') as [[[x d] m]|] eqn:Ep; [|done].
      destruct (pull_extends _ _ _ _ _ _ _ Hd Hx E Ep) as (x' & m' & E'). fold o' in E'. by rewrite E' in Hp.
    + destruct (pull_newTag _ _ _ Href _ _ _ Hwf' Ht Hd Hn) as (x' & m' & E'). by rewrite E' in Hp.
  - intros repo' t' x d m Ht Hd Ep. destruct (Htags repo' t' Ht) as [E|Hn].
    + destruct (pull_extends _ _ _ _ _ _ _ Hd Hx E Ep) as (x' & m' & E'). eauto 6.
    + destruct (pull_newTag _ _ _ Href _ _ _ Hwf' Ht Hd Hn) as (x' & m' & E').
      exists x', (sha256Digest c), m'. split; [done|]. right. split; [done|]. apply Hn.
Qed.

Lemma PutManifest_crash_safe_witness :
  let b := mkBackend ∅ [EvOk; EvOk; EvOk; EvOk; EvLost; EvFail] [] 0 false 0 0 in
  let o' := objs (snd (PutManifest (go "team/app") (go "v1") (go "mt") (go "{}") b)) in
  okRef (go "v1") /\ wfStore (objs b) /\ wfStore o' /\
  (dangling o' (go "team/app") (go "v1") -> dangling (objs b) (go "team/app") (go "v1")).
Proof.
  intros b o'. assert (Hr : okTag (go "v1")) by (split; discriminate).
  assert (Hw : wfStore (objs b)) by (by intros k c E).
  destruct (PutManifest_crash_safe (go "team/app") (go "v1") (go "mt") (go "{}") b
    (or_intror Hr) Hw) as (H1 & H2 & _).
  split_and!; [by right|done|done|]. apply H2; done.
Defined.

(** ** Push, then pull *)

Lemma call_healthy {A} (f : Backend -> res storeErr A * Backend) b :
  events b = [] -> call f b = f b.
Proof. intros H. unfold call. by rewrite H. Qed.

Lemma PutBlob_healthy c b : events b = [] ->
  exists b', PutBlob c [] b = (Ok (sha256Digest c, blen c), b') /\ events b' = [].
Proof.
  intros He. unfold PutBlob, staging, objStat, objPut, mbind, be_bind, stm_bind, attempt, lift.
  rewrite call_healthy by done. cbv zeta. change (bytes_eqb [] []) with true. cbn [negb andb].
  rewrite blobKey_sha, call_healthy by done.
  destruct (look (objs b) _); cbn; [by eexists|]. rewrite call_healthy by done. cbn.
  rewrite call_healthy by done. by eexists.
Qed.

Lemma PutManifest_healthy repo ref mt c b : events b = [] ->
  is_ok (fst (PutManifest repo ref mt c b)) = true.
Proof.
  intros He. destruct (PutBlob_healthy c b He) as (b1 & E & He1).
  unfold PutManifest, mbind, be_bind, stm_bind. rewrite E. cbv zeta.
  unfold objPut. rewrite call_healthy by done. cbn [invalidateCatalog set_objs].
  destruct (isDigest ref); [done|]. cbn [negb]. by rewrite call_healthy.
Qed.

(** C31. A push that returns can be pulled, by digest and by its tag, with the media
    type and content pushed (or the stored content of the same SHA-256), and
    without object-store failures every push returns. *)
Theorem PutManifest_GetManifest repo ref mt c b :
  okRef ref -> wfStore (objs b) ->
  let r := fst (PutManifest repo ref mt c b) in
  let o' := objs (snd (PutManifest repo ref mt c b)) in
  (events b = [] -> is_ok r = true) /\
  forall d, r = Ok d -> d = sha256Digest c /\
    exists c', sha256 c' = sha256 c /\ (objs b !! shaKey c = Some c' \/ c' = c) /\
      pull o' repo d = Ok (c', d, mt) /\ (isDigest ref = false -> pull o' repo ref = Ok (c', d, mt)).
Proof.
  intros Href Hwf r o'. split; [by apply PutManifest_healthy|]. intros d Er.
  pose proof (PutManifest_stages repo ref mt c b Hwf) as Hst. unfold wp in Hst. fold r o' in Hst.
  rewrite Er in Hst. revert Er. inversion Hst as [| | |b' o1 _ Ho Hb1 E Ed Eb']; subst b'. intros _.
  split; [done|]. destruct Hb1 as (c' & Hc1 & Hc2). exists c'. split; [done|]. split.
  { destruct Ho as [-> | ->]; [by left|]. right. rewrite lookup_insert_eq in Hc1. congruence. }
  fold o' in E.
  destruct (mk_kind repo c) as [Hmk _].
  assert (Hk : o' !! manifestKey repo (hexEncode (sha256 c)) = Some mt /\ o' !! shaKey c = Some c' /\
    (isDigest ref = false -> o' !! tagKey repo ref = Some (sha256Digest c))).
  { destruct (tagKey_ne repo c repo (go "t")) as (_ & _ & Hne); [by split; discriminate|].
    rewrite E. destruct (isDigest ref) eqn:Edg.
    - by rewrite lookup_insert_eq, lookup_insert_ne.
    - destruct (tagKey_ne repo c repo ref) as (H1 & H2 & _); [by destruct Href; [congruence|]|].
      rewrite !lookup_insert_eq, !(lookup_insert_ne _ (tagKey repo ref)) by done.
      by rewrite lookup_insert_eq, lookup_insert_ne. }
  destruct Hk as (Em & Eb & Et). rewrite Hmk in Em.
  split; [|intros Edg]; apply pull_Ok; (split;
    [|exists (hexEncode (sha256 c)); split_and!; [done|apply hex64_sha256|done..]]); unfold tagTarget.
  - by rewrite isDigest_sha.
  - rewrite Edg. unfold look. rewrite Et by done. unfold mbind, res_bind. by rewrite trimSpace_sha.
Qed.

Lemma PutManifest_GetManifest_witness :
  let b := quiet ∅ in
  let o' := objs (snd (PutManifest (go "team/app") (go "v1") (go "mt") (go "{}") b)) in
  okRef (go "v1") /\ wfStore (objs b) /\
  exists c d, pull o' (go "team/app") (go "v1") = Ok (c, d, go "mt").
Proof.
  intros b o'. assert (Hr : okTag (go "v1")) by (split; discriminate).
  assert (Hw : wfStore (objs b)) by (by intros k c E).
  destruct (PutManifest_GetManifest (go "team/app") (go "v1") (go "mt") (go "{}") b
    (or_intror Hr) Hw) as (H1 & H2).
  split_and!; [by right|done|]. specialize (H1 eq_refl).
  destruct (fst (PutManifest _ _ _ _ _)) as [d|] eqn:E; [|done].
  destruct (H2 d eq_refl) as (_ & c' & _ & _ & _ & H). exists c', d. by apply H.
Defined.

Create HintDb steady.

(** ** Stores without failures *)

(** Run on a store whose calls succeed, the computation reports no I/O error. *)
Definition steady {A} (m : be A) : Prop :=
  forall b, events b = [] -> events (snd (m b)) = [] /\ fst (m b) <> Err ErrIO.

Lemma steady_ret {A} (a : A) : steady (mret a).
Proof. by intros b. Qed.

Lemma steady_throw {A} e : e <> ErrIO -> steady (throw e : be A).
Proof. intros He b Hb. split; [done|]. cbn. congruence. Qed.

Lemma steady_lift {A} (r : res storeErr A) : r <> Err ErrIO -> steady (lift r).
Proof. intros Hr b Hb. split; [exact Hb|exact Hr]. Qed.

Lemma steady_query {A} (f : gmap bytes bytes -> res storeErr A) :
  (forall o, f o <> Err ErrIO) -> steady (call (fun b => (f (objs b), b))).
Proof. intros Hf b Hb. rewrite call_healthy by done. split; [exact Hb|apply Hf]. Qed.

Lemma steady_update g : steady (call (fun b => (Ok tt, set_objs (g (objs b)) b))).
Proof. intros b Hb. by rewrite call_healthy. Qed.

Lemma steady_bind {A B} (m : be A) (f : A -> be B) :
  steady m -> (forall a, steady (f a)) -> steady (m ≫= f).
Proof.
  intros Hm Hf b Hb. destruct (Hm b Hb) as [He Hr]. unfold mbind, be_bind, stm_bind.
  destruct (m b) as [[a|e] b']; [by apply Hf|]. split; [done|]. cbn in *. congruence.
Qed.

Lemma steady_attempt {A B} (m : be A) (f : res storeErr A -> be B) :
  steady m -> (forall r, r <> Err ErrIO -> steady (f r)) -> steady (attempt m ≫= f).
Proof.
  intros Hm Hf b Hb. destruct (Hm b Hb) as [He Hr]. unfold mbind, be_bind, stm_bind, attempt.
  destruct (m b) as [r b']. by apply Hf.
Qed.

Lemma steady_foldM {A B} (f : B -> A -> be B) l acc :
  (forall acc x, steady (f acc x)) -> steady (foldM f l acc).
Proof.
  intros Hf. revert acc. induction l as [|x l IH]; intros acc; [apply steady_ret|].
  apply steady_bind; [apply Hf|intros acc'; apply IH].
Qed.

Lemma look_noIO o k : look o k <> Err ErrIO.
Proof. unfold look. by destruct (o !! k). Qed.

Lemma blobKey_noIO d : blobKey d <> Err ErrIO.
Proof.
  unfold blobKey, ParseDigest. destruct (cutByte _ _) as [[a h]|]; [|done].
  by repeat match goal with |- context [if ?c then _ else _] => destruct c end.
Qed.

#[export] Hint Resolve steady_ret steady_throw steady_lift steady_bind steady_attempt steady_foldM
  look_noIO blobKey_noIO : steady.

Lemma steady_objGet key : steady (objGet key).
Proof. apply (steady_query (fun o => look o key)). auto with steady. Qed.

Lemma steady_objList p d : steady (objList p d).
Proof. by apply (steady_query (fun o => Ok (listOf p d o))). Qed.

Lemma steady_objDelete key : steady (objDelete key).
Proof. apply (steady_update (fun o => delete key o)). Qed.

#[export] Hint Resolve steady_objGet steady_objList steady_objDelete : steady.

Lemma steady_GetBlob d : steady (GetBlob d).
Proof. apply steady_bind; auto with steady. Qed.
#[export] Hint Resolve steady_GetBlob : steady.
