(* ===== verification/StorageWalk.v ===== *)
(** * StorageWalk: listings, tags and the catalog walk

    Listings in terms of path segments, and what is read from them: the walk of
    the repository tree finds exactly the repositories with a manifest marker, a
    repository's markers and its tags are listed exactly. *)

From Stdlib Require Import ZArith Lia.
From Stdlib.Strings Require Import Byte.
From stdpp Require Import base list gmap sorting.
From S2P Require Import Prelude GoStd Storage StorageInv.
Open Scope Z_scope.
Set Warnings "-clear-no-such-hyp".

(** ** Listings *)

(** The prefix under which a directory's keys sit. *)
Definition dirOf (ds : list bytes) : bytes := join [slash] ds ++ [slash].

Definition nosep (ps : list bytes) : Prop := Forall (fun p => slash ∉ p) ps.

Lemma normal_nosep ps : Forall normalSeg ps -> nosep ps.
Proof. intros H. eapply Forall_impl; [exact H|]. by intros ? []. Qed.
#[export] Hint Resolve normal_nosep : cornus.

Lemma join_cons p ps : ps <> [] -> join [slash] (p :: ps) = p ++ slash :: join [slash] ps.
Proof. by destruct ps. Qed.

Lemma join_dir ds rest : ds <> [] -> rest <> [] ->
  join [slash] (ds ++ rest) = dirOf ds ++ join [slash] rest.
Proof. intros H1 H2. rewrite join_app by done. unfold dirOf. by rewrite <- app_assoc. Qed.

Lemma split_dir ds s : ds <> [] -> nosep ds -> split slash (dirOf ds ++ s) = ds ++ split slash s.
Proof.
  intros Hne H. destruct (split slash s) as [|q qs] eqn:E; [by apply split_nonempty in E|].
  rewrite <- (join_split slash s), E, <- join_dir by done.
  apply split_join; [by destruct ds|]. apply Forall_app. split; [done|].
  rewrite <- E. apply split_parts_nosep.
Qed.

(** The keys under a directory. *)
Lemma hasPrefix_dir ds ks : ds <> [] -> ks <> [] -> nosep ds -> nosep ks ->
  hasPrefix (join [slash] ks) (dirOf ds) = true <-> exists rest, rest <> [] /\ ks = ds ++ rest.
Proof.
  intros H1 H2 Hd Hk. rewrite hasPrefix_spec. split.
  - intros [s E]. exists (split slash s). split; [apply split_nonempty|].
    by rewrite <- split_dir, <- E, split_join.
  - intros (rest & Hr & ->). exists (join [slash] rest). by apply join_dir.
Qed.

Lemma rollup_file ds f : ds <> [] -> slash ∉ f ->
  rollup (dirOf ds) (join [slash] (ds ++ [f])) = join [slash] (ds ++ [f]).
Proof.
  intros Hd Hf. unfold rollup. rewrite join_dir, drop_app_length by done.
  by rewrite (proj2 (cutByte_None _ _)).
Qed.

Lemma rollup_dir ds f rest : ds <> [] -> slash ∉ f -> rest <> [] ->
  rollup (dirOf ds) (join [slash] (ds ++ f :: rest)) = dirOf (ds ++ [f]).
Proof.
  intros Hd Hf Hr. unfold rollup. rewrite join_dir, drop_app_length by done.
  rewrite join_cons, cutByte_app by done. unfold dirOf. rewrite join_app by done.
  by rewrite <- !app_assoc.
Qed.

(** The object with these path segments exists. *)
Definition present (o : gmap bytes bytes) (ks : list bytes) : Prop := is_Some (o !! join [slash] ks).

Lemma elem_of_keysUnder prefix o k :
  k ∈ keysUnder prefix o <-> is_Some (o !! k) /\ hasPrefix k prefix = true.
Proof.
  unfold keysUnder. rewrite list_elem_of_filter, list_elem_of_fmap. split.
  - intros [Hp ((k' & c) & -> & E%elem_of_map_to_list)]. simpl in *. eauto.
  - intros [[c E] Hp]. split; [done|]. exists (k, c). by rewrite elem_of_map_to_list.
Qed.

Lemma wf_segs o k : wfStore o -> is_Some (o !! k) ->
  exists kk, okKind kk /\ k = join [slash] (segsOf kk) /\ Forall normalSeg (segsOf kk).
Proof. intros Hwf [c E]. apply Hwf in E as (kk & -> & Hk & _). exists kk. auto using segsOf_normal. Qed.

Lemma segsOf_ne kk : segsOf kk <> [].
Proof. by destruct kk. Qed.

(** A present path of clean segments is a path of the layout. *)
Lemma wf_present o ks : wfStore o -> ks <> [] -> nosep ks -> present o ks ->
  exists kk, okKind kk /\ ks = segsOf kk.
Proof.
  intros Hwf Hne Hn Hp. apply wf_segs in Hp as (kk & Hk & E & Hs); [|done]. exists kk. split; [done|].
  eapply join_inj; [done|apply segsOf_ne|done|by apply normal_nosep|exact E].
Qed.

Lemma listOf_dir o ds e : wfStore o -> ds <> [] -> nosep ds ->
  e ∈ listOf (dirOf ds) [slash] o <->
  exists f rest, present o (ds ++ f :: rest) /\ Forall normalSeg (ds ++ f :: rest) /\
    e = match rest with [] => join [slash] (ds ++ [f]) | _ => dirOf (ds ++ [f]) end.
Proof.
  intros Hwf Hd Hn. unfold listOf. change (bytes_eqb [slash] [slash]) with true. cbn iota.
  rewrite elem_of_remove_dups, list_elem_of_fmap. split.
  - intros (k & -> & [Hk Hp]%elem_of_keysUnder).
    destruct (wf_segs o k Hwf Hk) as (kk & Hok & -> & Hs).
    apply hasPrefix_dir in Hp as (rest & Hr & E); [|done|apply segsOf_ne|done|by apply normal_nosep].
    destruct rest as [|f rest]; [done|]. exists f, rest. rewrite <- E. split_and!; [done..|].
    rewrite E. rewrite E in Hs. apply Forall_app in Hs as [_ [Hf _]%Forall_cons_1].
    destruct rest as [|g rest]; [apply rollup_file|apply rollup_dir]; by destruct Hf.
  - intros (f & rest & Hp & Hs & ->). exists (join [slash] (ds ++ f :: rest)). split.
    + apply Forall_app in Hs as [_ [Hf _]%Forall_cons_1]. symmetry.
      destruct rest as [|g rest]; [apply rollup_file|apply rollup_dir]; by destruct Hf.
    + apply elem_of_keysUnder. split; [done|].
      apply hasPrefix_dir; [done|by destruct ds|done|by apply normal_nosep|by exists (f :: rest)].
Qed.

Lemma suffix_dir ds : hasSuffix (dirOf ds) [slash] = true.
Proof. apply hasSuffix_spec. by eexists. Qed.

Lemma suffix_file ds f : normalSeg f -> hasSuffix (join [slash] (ds ++ [f])) [slash] = false.
Proof.
  intros (Hf & Hne & _). apply not_true_is_false. intros [t E]%hasSuffix_spec.
  destruct (exists_last Hne) as (f' & x & ->). apply Hf.
  assert (exists s, join [slash] (ds ++ [f' ++ [x]]) = s ++ [x]) as [s E'].
  { destruct ds as [|d ds]; [by exists f'|]. rewrite join_app by done. simpl.
    eexists. by rewrite app_comm_cons, !app_assoc. }
  rewrite E' in E. apply app_inj_tail in E as [_ ->]. apply elem_of_app. right. by left.
Qed.

Lemma elem_of_fileNames o ds f : wfStore o -> ds <> [] -> Forall normalSeg ds ->
  f ∈ fileNames (listOf (dirOf ds) [slash] o) <-> normalSeg f /\ present o (ds ++ [f]).
Proof.
  intros Hwf Hd Hn. unfold fileNames. rewrite list_elem_of_fmap. split.
  - intros (e & -> & [Hs He]%list_elem_of_filter).
    apply listOf_dir in He as (f & rest & Hp & Hok & ->); [|done|done|by apply normal_nosep].
    destruct rest; [|by rewrite suffix_dir in Hs].
    apply Forall_app in Hok as [_ [Hf _]%Forall_cons_1].
    rewrite pathBase_join; [done|by destruct Hf as (?&?&?)..|by apply normal_nosep].
  - intros [Hf Hp]. exists (join [slash] (ds ++ [f])). split.
    + symmetry. by apply pathBase_join; [destruct Hf as (?&?&?)..|apply normal_nosep].
    + apply list_elem_of_filter. split; [by apply suffix_file|].
      apply listOf_dir; [done|done|by apply normal_nosep|]. exists f, []. split_and!; [done| |done].
      apply Forall_app. split; [done|]. by apply List.Forall_cons.
Qed.

(** ** The walk of the repository tree *)

Definition marked (o : gmap bytes bytes) (r : list bytes) (h : bytes) : Prop :=
  okRepo r /\ hex64 h /\ is_Some (o !! keyOf (KMarker r h)).

Definition markerDir (r : list bytes) : list bytes := go "repos" :: r ++ [go "manifests"].

Lemma markerDir_file r h : segsOf (KMarker r h) = markerDir r ++ [h].
Proof. unfold markerDir. simpl. by rewrite <- app_assoc. Qed.

Lemma markerDir_name r : okRepo r ->
  trimSuffix (trimSuffix (trimPrefix (dirOf (markerDir r)) (go "repos/")) [slash]) (go "/manifests")
  = join [slash] r.
Proof.
  intros [Hne _]. unfold dirOf, markerDir. rewrite join_cons by (by destruct r).
  replace ((go "repos" ++ slash :: join [slash] (r ++ [go "manifests"])) ++ [slash])
    with (go "repos/" ++ (join [slash] (r ++ [go "manifests"]) ++ [slash])) by done.
  rewrite trimPrefix_app, trimSuffix_app, join_app by done.
  apply (trimSuffix_app (go "/manifests")).
Qed.

Lemma pathBase_dir ds l : Forall normalSeg (ds ++ [l]) ->
  pathBase (trimSuffix (dirOf (ds ++ [l])) [slash]) = l.
Proof.
  intros [Hd [(H1 & H2 & _) _]%Forall_cons_1]%Forall_app.
  unfold dirOf. rewrite trimSuffix_app. apply pathBase_join; [done..|by apply normal_nosep].
Qed.

Lemma walkDir_here o ds x :
  wfStore o -> Forall normalSeg (go "repos" :: ds) ->
  x ∈ fst (walkDir (dirOf (go "repos" :: ds)) (listOf (dirOf (go "repos" :: ds)) [slash] o)) <->
  exists r h, marked o r h /\ go "repos" :: ds = markerDir r /\ x = join [slash] r.
Proof.
  intros Hwf Hn. set (dd := go "repos" :: ds) in *. unfold walkDir. cbn [fst].
  assert (Hdd : dd <> []) by done. destruct (exists_last Hdd) as (d0 & l & El).
  rewrite El at 1. rewrite pathBase_dir by (by rewrite <- El).
  split.
  - destruct (bytes_eqb l (go "manifests")) eqn:Eb; [|intros H; by apply elem_of_nil in H].
    apply bool_decide_eq_true in Eb as ->. cbn [andb].
    destruct (existsb _ _) eqn:Ex; [|intros H; by apply elem_of_nil in H].
    intros Hx%list_elem_of_singleton. apply existsb_exists in Ex as (e & He & Hs).
    apply list_elem_of_In, listOf_dir in He as (f & rest & Hp & Hok & ->); [|done|done|by apply normal_nosep].
    destruct rest; [|by rewrite suffix_dir in Hs].
    destruct (wf_present o (dd ++ [f])) as (kk & Hk & E); [done|done|by apply normal_nosep|done|].
    rewrite E in Hp. rewrite El in E. destruct kk as [h|r h|r t].
    + exfalso. by rewrite <- El in E.
    + rewrite markerDir_file in E. apply app_inj_tail in E as [E ->]. destruct Hk as [Hr Hh].
      exists r, h. rewrite Hx, El, E. split_and!; [done..|by apply markerDir_name].
    + exfalso. change (segsOf (KTag r t)) with ((go "repos" :: r) ++ [go "tags"] ++ [t]) in E.
      rewrite app_assoc in E. apply app_inj_tail in E as [E _]. by apply app_inj_tail in E as [_ E].
  - intros (r & h & (Hr & Hh & Hm) & E & ->).
    assert (l = go "manifests") as ->.
    { rewrite E in El. change (markerDir r) with ((go "repos" :: r) ++ [go "manifests"]) in El.
      by apply app_inj_tail in El as [_ <-]. }
    change (bytes_eqb _ (go "manifests")) with true. cbn [andb].
    rewrite (proj2 (existsb_exists _ _)); [rewrite E, markerDir_name by done; apply list_elem_of_singleton; done|].
    exists (join [slash] (dd ++ [h])). apply hex64_normal in Hh as [Hh _]. rewrite suffix_file by done.
    split; [|done]. apply list_elem_of_In, listOf_dir; [done|done|by apply normal_nosep|].
    exists h, []. split_and!; [|by apply Forall_app; split; [|apply List.Forall_cons]|done].
    rewrite E. unfold present. by rewrite <- markerDir_file.
Qed.

Lemma walkDir_dirs o ds e :
  wfStore o -> ds <> [] -> Forall normalSeg ds ->
  e ∈ snd (walkDir (dirOf ds) (listOf (dirOf ds) [slash] o)) <->
  exists f rest, rest <> [] /\ present o (ds ++ f :: rest) /\ Forall normalSeg (ds ++ f :: rest) /\
    e = dirOf (ds ++ [f]).
Proof.
  intros Hwf Hd Hn. cbn [walkDir snd]. rewrite list_elem_of_filter, listOf_dir by auto with cornus.
  split.
  - intros (Hs & f & rest & Hp & Hok & ->). destruct rest as [|g rest]; [|by exists f, (g :: rest)].
    apply Forall_app in Hok as [_ [Hf _]%Forall_cons_1]. by rewrite suffix_file in Hs.
  - intros (f & rest & Hr & Hp & Hok & ->). split; [apply suffix_dir|].
    exists f, rest. split_and!; [done..|]. by destruct rest.
Qed.

(** What the walk of a directory adds. *)
Definition found (o : gmap bytes bytes) (ds : list bytes) (x : bytes) : Prop :=
  exists r h rest, marked o r h /\ markerDir r = ds ++ rest /\ x = join [slash] r.

Lemma found_split o ds x :
  wfStore o -> ds <> [] -> Forall normalSeg ds ->
  found o ds x <->
  (exists r h, marked o r h /\ ds = markerDir r /\ x = join [slash] r) \/
  exists f, dirOf (ds ++ [f]) ∈ snd (walkDir (dirOf ds) (listOf (dirOf ds) [slash] o)) /\
    normalSeg f /\ found o (ds ++ [f]) x.
Proof.
  intros Hwf Hd Hn. split.
  - intros (r & h & rest & Hm & E & ->). destruct rest as [|f rest].
    + left. rewrite app_nil_r in E. eauto.
    + right. exists f.
      assert (Hseg : markerDir r ++ [h] = ds ++ f :: rest ++ [h]) by (rewrite E; by rewrite <- app_assoc).
      assert (Hok : Forall normalSeg (ds ++ f :: rest ++ [h])).
      { rewrite <- Hseg, <- markerDir_file. apply segsOf_normal. by destruct Hm as (?&?&_). }
      split_and!.
      * apply walkDir_dirs; [done..|]. exists f, (rest ++ [h]). split_and!; [by destruct rest| |done..].
        unfold present. rewrite <- Hseg, <- markerDir_file. apply Hm.
      * by apply Forall_app in Hok as [_ [? _]%Forall_cons_1].
      * exists r, h, rest. split_and!; [done| |done]. by rewrite E, <- app_assoc.
  - intros [(r & h & Hm & -> & ->)|(f & _ & _ & r & h & rest & Hm & E & ->)].
    + exists r, h, []. by rewrite app_nil_r.
    + exists r, h, (f :: rest). split_and!; [done| |done]. by rewrite E, <- app_assoc.
Qed.

(** Only the failure schedule advanced. *)
Definition readOnly (b b' : Backend) : Prop := exists evs, b' = set_events evs b.

Lemma readOnly_refl b : readOnly b b.
Proof. exists (events b). by destruct b. Qed.
Lemma readOnly_trans b b1 b2 : readOnly b b1 -> readOnly b1 b2 -> readOnly b b2.
Proof. intros [e1 ->] [e2 ->]. by exists e2. Qed.
Lemma readOnly_events b evs : readOnly b (set_events evs b).
Proof. by exists evs. Qed.
Lemma readOnly_objs b b' : readOnly b b' -> objs b' = objs b.
Proof. by intros [e ->]. Qed.
#[export] Hint Resolve readOnly_refl readOnly_events : cornus.

Lemma dirOf_inj ds f f' : nosep ds -> (slash ∉ f) -> (slash ∉ f') ->
  dirOf (ds ++ [f]) = dirOf (ds ++ [f']) -> f = f'.
Proof.
  intros Hd Hf Hf' E. unfold dirOf in E. apply app_inj_tail in E as [E _].
  apply join_inj in E; [by apply app_inj_tail in E as [_ ->]|by destruct ds..| |];
    (apply Forall_app; split; [done|by apply List.Forall_cons]).
Qed.

(** Deep enough for the tree below a directory. *)
Definition deepEnough (fuel : nat) (o : gmap bytes bytes) (ds : list bytes) : Prop :=
  (1 <= fuel)%nat /\ forall rest, present o (ds ++ rest) -> Forall normalSeg (ds ++ rest) -> (length rest <= fuel)%nat.

Lemma deepEnough_sub fuel o ds f rest :
  deepEnough (S fuel) o ds -> rest <> [] -> present o (ds ++ f :: rest) ->
  Forall normalSeg (ds ++ f :: rest) -> deepEnough fuel o (ds ++ [f]).
Proof.
  intros [_ H] Hr Hp Hn. split.
  - specialize (H _ Hp Hn). destruct rest; [done|]. simpl in H. lia.
  - intros rest'. rewrite <- app_assoc. intros Hp' Hn'. specialize (H _ Hp' Hn'). simpl in H. lia.
Qed.

Lemma walkRepos_spec fuel ds out b :
  wfStore (objs b) -> Forall normalSeg (go "repos" :: ds) ->
  deepEnough fuel (objs b) (go "repos" :: ds) ->
  wp (walkRepos fuel (dirOf (go "repos" :: ds)) out) (fun r b' => readOnly b b' /\
    match r with
    | Err e => e = ErrIO
    | Ok out' => forall x, x ∈ out' <-> x ∈ out \/ found (objs b) (go "repos" :: ds) x
    end) b.
Proof.
  revert ds out b. induction fuel as [|fuel IH]; intros ds out b Hwf Hn Hf; [by destruct Hf; lia|].
  set (dd := go "repos" :: ds) in *. cbn [walkRepos].
  apply wp_bind, wp_objList. intros evs r [-> | ->]; [by auto with cornus|].
  pose proof (fun x => walkDir_here (objs b) ds x Hwf Hn) as Hhere.
  pose proof (fun x => walkDir_dirs (objs b) dd x Hwf ltac:(done) Hn) as Hdirs.
  pose proof (fun x => found_split (objs b) dd x Hwf ltac:(done) Hn) as Hsplit.
  fold dd in Hhere. destruct (walkDir (dirOf dd) _) as [here dirs] eqn:Ew. cbn [fst snd] in *.
  apply (wp_foldM _ (fun pre acc s => readOnly b s /\ forall x, x ∈ acc <->
    x ∈ out \/ x ∈ here \/ exists f, dirOf (dd ++ [f]) ∈ pre /\ normalSeg f /\ found (objs b) (dd ++ [f]) x)).
  - split; [by auto with cornus|]. intros x. rewrite elem_of_app. split; [tauto|].
    intros [?|[?|(f & H%elem_of_nil & _)]]; tauto.
  - intros pre e suf acc s El [Hro Hacc].
    assert (e ∈ dirs) as (f & rest & Hr & Hp & Hok & ->)%Hdirs by (rewrite El; apply elem_of_app; right; by left).
    pose proof (deepEnough_sub _ _ _ _ _ Hf Hr Hp Hok) as Hf'.
    assert (Hn' : Forall normalSeg (dd ++ [f])).
    { apply Forall_app in Hok as [? [? _]%Forall_cons_1]. apply Forall_app. split; [done|].
      by apply List.Forall_cons. }
    assert (Hff : normalSeg f) by (by apply Forall_app in Hn' as [_ [? _]%Forall_cons_1]).
    rewrite <- (readOnly_objs _ _ Hro) in Hwf, Hf'.
    eapply wp_mono; [apply (IH (ds ++ [f]) acc s Hwf Hn' Hf')|]. cbn beta.
    rewrite (readOnly_objs _ _ Hro). change (go "repos" :: ds ++ [f]) with (dd ++ [f]).
    intros [acc'|e] s' [Hro' H]; (split; [by eapply readOnly_trans|]); [|done].
    intros x. rewrite H, Hacc. split.
    + intros [[?|[?|(f0 & ? & ?)]]|?]; [tauto|tauto| |]; right; right; [exists f0|exists f];
        rewrite elem_of_app, list_elem_of_singleton; tauto.
    + intros [?|[?|(f0 & Hf0 & Hf1 & Hf2)]]; [tauto|tauto|].
      apply elem_of_app in Hf0 as [Hf0|Hf0%list_elem_of_singleton]; [left; right; right; by exists f0|right].
      apply dirOf_inj in Hf0 as ->; [done|by apply normal_nosep|by destruct Hf1|by destruct Hff].
  - intros acc s [Hro Hacc]. split; [done|]. intros x. rewrite Hacc, Hsplit, Hhere. set_solver.
Qed.

Lemma length_join segs : Forall normalSeg segs -> (length segs <= length (join [slash] segs))%nat.
Proof.
  induction segs as [|s segs IH]; intros H; [done|]. apply Forall_cons_1 in H as [(_ & Hne & _) H].
  specialize (IH H). assert (1 <= length s)%nat by (destruct s; [done|simpl; lia]).
  destruct segs as [|s' segs]; [done|]. rewrite join_cons, length_app by done. simpl in *. lia.
Qed.

Lemma normal_repos : Forall normalSeg [go "repos"].
Proof. destruct normal_words as [H _]. by apply List.Forall_cons. Qed.

Lemma walkFuel_deep o : deepEnough (walkFuel o) o [go "repos"].
Proof.
  split; [unfold walkFuel; lia|]. intros rest [c E] Hn. apply length_join in Hn.
  set (k := join [slash] ([go "repos"] ++ rest)) in *.
  assert (length k ∈ map (fun kc : bytes * bytes => length (fst kc)) (map_to_list o)) as Hin.
  { apply list_elem_of_fmap. exists (k, c). split; [done|]. by apply elem_of_map_to_list. }
  apply max_list_elem_of_le in Hin. unfold walkFuel. simpl in Hn. lia.
Qed.

Lemma found_root o x : found o [go "repos"] x <-> exists r h, marked o r h /\ x = join [slash] r.
Proof.
  split; [intros (r & h & _ & Hm & _ & ->); eauto|].
  intros (r & h & Hm & ->). by exists r, h, (r ++ [go "manifests"]).
Qed.

Lemma wp_walkAll b : wfStore (objs b) ->
  wp walkAll (fun r b' => readOnly b b' /\
    match r with
    | Err e => e = ErrIO
    | Ok out => forall x, x ∈ out <-> exists r h, marked (objs b) r h /\ x = join [slash] r
    end) b.
Proof.
  intros Hwf.
  pose proof (walkRepos_spec (walkFuel (objs b)) [] [] b Hwf normal_repos (walkFuel_deep _)) as H.
  unfold wp in *. change (dirOf [go "repos"]) with (go "repos/") in H. fold (walkAll b) in H.
  destruct H as [Hro H]. split; [done|]. destruct (fst (walkAll b)) as [out|]; [|done].
  intros x. rewrite H, found_root, elem_of_nil. tauto.
Qed.

(** A cached catalog that may be served lists every repository with a marker. *)
Definition catOk (b : Backend) : Prop :=
  catalogValid b = true -> forall r h, marked (objs b) r h -> join [slash] r ∈ catalogList b.

(** What a listing of the catalog is. *)
Definition catalogOf (o : gmap bytes bytes) (l : list bytes) : Prop :=
  StronglySorted bytes_le l /\ forall x, x ∈ l <-> exists r h, marked o r h /\ x = join [slash] r.

Lemma wp_refreshCatalog b : wfStore (objs b) ->
  wp (refreshCatalog (catalogGen b)) (fun res b' => objs b' = objs b /\
    match res with
    | Err e => e = ErrIO /\ readOnly b b'
    | Ok l => catalogOf (objs b) l /\ catOk b'
    end) b.
Proof.
  intros Hwf. apply wp_bind. eapply wp_mono; [by apply wp_walkAll|].
  intros [out|e] b' [[evs ->] H]; [|by auto with cornus].
  assert (Hx : catalogOf (objs b) (sortStrings out))
    by (split; [apply sortStrings_sorted|intros x; by rewrite elem_of_sortStrings]).
  apply wp_bind. unfold wp at 1, publishCatalog. cbn [fst snd set_events catalogGen].
  rewrite Z.eqb_refl. unfold wp. cbn. split; [done|]. split; [done|].
  intros _ r h Hm. apply Hx. eauto.
Qed.

Lemma wp_Repos b : wfStore (objs b) ->
  wp Repos (fun res b' => objs b' = objs b /\ (catOk b -> catOk b') /\
    match res with
    | Err e => e = ErrIO
    | Ok l => catOk b -> forall r h, marked (objs b) r h -> join [slash] r ∈ l
    end) b.
Proof.
  intros Hwf. unfold wp, Repos. destruct (cacheFresh b) eqn:Ef.
  - split; [done|]. split; [done|]. apply andb_true_iff in Ef as [Ev _]. intros Hcat. exact (Hcat Ev).
  - destruct (wp_refreshCatalog b Hwf) as [Ho H].
    destruct (fst (refreshCatalog _ b)) as [l|e]; [|destruct H as [-> [evs E]]; rewrite E; done].
    destruct H as [[_ Hl] Hc]. split; [done|]. split; [done|]. intros _ r h Hm. apply Hl. eauto.
Qed.

(** ** Markers and tags of a repository *)

Lemma repoDir repo dir : normalSeg dir ->
  pathJoin [go "repos"; sanitizeRepo repo; dir] ++ [slash] = dirOf (go "repos" :: repoSegs repo ++ [dir]).
Proof. intros H. unfold dirOf. f_equal. apply repoKey; [apply okRepo_segs|forall_list]. Qed.

Lemma normal_repoDir repo dir : normalSeg dir -> Forall normalSeg (go "repos" :: repoSegs repo ++ [dir]).
Proof.
  intros H. destruct normal_words as [Hr _], (okRepo_segs repo) as [_ Hs].
  apply List.Forall_cons; [done|]. apply Forall_app. split; [done|forall_list].
Qed.

Lemma wp_manifestHexes repo b : wfStore (objs b) ->
  wp (manifestHexes repo) (fun r b' => readOnly b b' /\
    match r with
    | Err e => e = ErrIO
    | Ok hs => forall h, h ∈ hs <-> marked (objs b) (repoSegs repo) h
    end) b.
Proof.
  intros Hwf. destruct normal_words as (_ & Hm & _). unfold manifestHexes. rewrite repoDir by done.
  apply wp_bind, wp_objList. intros evs r [-> | ->]; (split; [apply readOnly_events|]); [done|].
  unfold mret, be_ret, stm_ret. cbn [fst snd]. intros h. rewrite elem_of_fileNames; [|done|done|by apply normal_repoDir].
  fold (markerDir (repoSegs repo)). unfold marked, present, keyOf. rewrite markerDir_file. split.
  - intros [Hn Hp]. split; [apply okRepo_segs|]. split; [|done].
    destruct (wf_present (objs b) (markerDir (repoSegs repo) ++ [h])) as (kk & Hk & E); [done|done| |done|].
    + apply Forall_app. split; [|by apply List.Forall_cons; [destruct Hn|]].
      by apply normal_nosep, normal_repoDir.
    + rewrite <- markerDir_file in E. destruct kk as [h'|r' h'|r' t']; [done|..].
      * rewrite !markerDir_file in E. apply app_inj_tail in E as [_ ->]. apply Hk.
      * simpl in E. injection E as E. change [go "manifests"; h] with ([go "manifests"] ++ [h]) in E.
        change [go "tags"; t'] with ([go "tags"] ++ [t']) in E. rewrite !app_assoc in E.
        apply app_inj_tail in E as [E _]. by apply app_inj_tail in E as [_ E].
  - intros (_ & Hh & Hp). split; [by apply hex64_normal|done].
Qed.

Lemma tagDir_file r t : segsOf (KTag r t) = (go "repos" :: r ++ [go "tags"]) ++ [t].
Proof. simpl. by rewrite <- app_assoc. Qed.

Definition taggedAs (o : gmap bytes bytes) (repo t : bytes) : Prop :=
  normalSeg t /\ is_Some (o !! keyOf (KTag (repoSegs repo) t)).

Lemma wp_Tags repo b : wfStore (objs b) ->
  wp (Tags repo) (fun r b' => readOnly b b' /\
    match r with
    | Err e => e = ErrIO
    | Ok ts => StronglySorted bytes_le ts /\ forall t, t ∈ ts <-> taggedAs (objs b) repo t
    end) b.
Proof.
  intros Hwf. destruct normal_words as (_ & _ & Hm). unfold Tags. rewrite repoDir by done.
  apply wp_bind, wp_objList. intros evs r [-> | ->]; (split; [apply readOnly_events|]); [done|].
  unfold mret, be_ret, stm_ret. cbn [fst snd]. split; [apply sortStrings_sorted|]. intros t.
  rewrite elem_of_sortStrings, elem_of_fileNames; [|done|done|by apply normal_repoDir].
  unfold taggedAs, present, keyOf. by rewrite tagDir_file.
Qed.
