(* ===== verification/StorageGC.v ===== *)
(** * StorageGC: the garbage collector

    The collector terminates, keeps everything a pull can need under any failures,
    and leaves nothing that no marker or tag leads to. *)

From Stdlib Require Import ZArith Lia.
From Stdlib.Strings Require Import Byte.
From stdpp Require Import base list gmap sorting.
From S2P Require Import Prelude GoStd Storage StorageInv StorageWalk.
Open Scope Z_scope.
Set Warnings "-clear-no-such-hyp".

(** ** Marking *)

Definition blobAt (o : gmap bytes bytes) (d : bytes) : option bytes :=
  match blobKey d with Ok k => o !! k | Err _ => None end.

Section Mark.
Context (unmarshal : bytes -> option gcManifest).

(** The manifest stored under a digest. *)
Definition manifestAt (o : gmap bytes bytes) (d : bytes) : option gcManifest :=
  c ← blobAt o d; parseManifest unmarshal c.

(** The digests that references lead to from a set of roots: manifests through
    index entries and subjects, then their configs and layers. *)
Inductive visits (o : gmap bytes bytes) (R : bytes -> Prop) : bytes -> Prop :=
| visits_root d : R d -> visits o R d
| visits_child d m d' : visits o R d -> manifestAt o d = Some m -> d' ∈ children m -> visits o R d'.

Definition keeps (o : gmap bytes bytes) (R : bytes -> Prop) (d : bytes) : Prop :=
  visits o R d \/ exists d0 m, visits o R d0 /\ manifestAt o d0 = Some m /\ d ∈ leaves m.

Lemma wp_parseManifestBlob d b (Q : res storeErr gcManifest -> Backend -> Prop) :
  isDigest d = true ->
  (forall evs r, r = Err ErrIO \/
     (r = match blobAt (objs b) d with
          | None => Err ErrNotFound
          | Some c => match parseManifest unmarshal c with
                      | None => Err errNotManifest | Some m => Ok m end
          end) -> Q r (set_events evs b)) ->
  wp (parseManifestBlob unmarshal d) Q b.
Proof.
  intros (h & -> & Hh)%isDigest_spec H. unfold blobAt in H. rewrite blobKey_hex in H by done.
  apply wp_bind. unfold GetBlob. rewrite blobKey_hex by done. apply wp_bind, wp_lift. cbn beta iota.
  apply wp_objGet. intros evs r [-> | ->]; [by apply H; auto|]. unfold look.
  destruct (objs b !! _) as [c|]; [|by apply H; auto].
  unfold wp. destruct (parseManifest unmarshal c); apply H; auto.
Qed.

(** The work left: the children of the manifests not visited yet. *)
Definition digestOfKey (k : bytes) : bytes := go "sha256:" ++ pathBase k.
Definition pend (V : gset bytes) (kvs : list (bytes * bytes)) : nat :=
  sum_list (map (fun kc => if decide (digestOfKey (fst kc) ∈ V) then 0%nat
                           else childCount unmarshal (snd kc)) kvs).

Lemma pend_mono V V' kvs : V ⊆ V' -> (pend V' kvs <= pend V kvs)%nat.
Proof.
  intros Hs. induction kvs as [|[k c] kvs IH]; [done|]. unfold pend in *. simpl.
  repeat case_decide; try lia. set_solver.
Qed.

Lemma pend_visit V kvs k c :
  (k, c) ∈ kvs -> digestOfKey k ∉ V ->
  (pend ({[digestOfKey k]} ∪ V) kvs + childCount unmarshal c <= pend V kvs)%nat.
Proof.
  intros Hin Hn. induction kvs as [|[k' c'] kvs IH]; [by apply elem_of_nil in Hin|].
  pose proof (pend_mono V ({[digestOfKey k]} ∪ V) kvs (union_subseteq_r _ _)) as Hm.
  apply elem_of_cons in Hin as [[= <- <-]|Hin].
  - unfold pend in *. simpl. rewrite decide_True by set_solver. rewrite decide_False by done. lia.
  - specialize (IH Hin). unfold pend in *. simpl. repeat case_decide; try lia. set_solver.
Qed.

Lemma digestOfKey_blob h : hex64 h -> digestOfKey (keyOf (KBlob h)) = go "sha256:" ++ h.
Proof.
  intros Hh. unfold digestOfKey. f_equal. destruct (hex64_normal h Hh) as [(H1 & H2 & _) [H3 _]].
  apply (pathBase_join [go "blobs"; go "sha256"; take 2 h]); [done..|].
  apply normal_nosep. exact (Forall_take normalSeg 3%nat _ (segsOf_normal (KBlob h) Hh)).
Qed.

Lemma pend_children o V d m :
  isDigest d = true -> manifestAt o d = Some m -> d ∉ V ->
  (pend ({[d]} ∪ V) (map_to_list o) + length (children m) <= pend V (map_to_list o))%nat.
Proof.
  intros (h & -> & Hh)%isDigest_spec Hm Hn. unfold manifestAt, blobAt in Hm.
  rewrite blobKey_hex in Hm by done. destruct (o !! _) as [c|] eqn:E; [|done]. cbn in Hm.
  rewrite <- (digestOfKey_blob h Hh) in *. apply elem_of_map_to_list in E.
  pose proof (pend_visit V _ _ _ E Hn) as H. unfold childCount in H. by rewrite Hm in H.
Qed.

(** ** The mark loop *)

Record markInv (o : gmap bytes bytes) (R : bytes -> Prop) (q : list bytes) (V Rch : gset bytes) : Prop := {
  mi_queue : forall d, d ∈ q -> isDigest d = true /\ visits o R d;
  mi_visited : forall d, d ∈ V -> visits o R d;
  mi_sound : forall d, d ∈ Rch -> keeps o R d;
  mi_marked : V ⊆ Rch;
  mi_roots : forall d, R d -> d ∈ V \/ d ∈ q;
  mi_closed : forall d m, d ∈ V -> manifestAt o d = Some m ->
    (forall x, x ∈ leaves m -> x ∈ Rch) /\ forall x, x ∈ children m -> x ∈ V \/ x ∈ q }.

Lemma markInv_done o R V Rch : markInv o R [] V Rch -> forall d, d ∈ Rch <-> keeps o R d.
Proof.
  intros [_ _ Hs HV HR HC] d. split; [apply Hs|].
  assert (Hv : forall d, visits o R d -> d ∈ V).
  { induction 1 as [d0 Hd|d0 m d' _ IH Em Hin].
    - apply HR in Hd as [?|H%elem_of_nil]; done.
    - destruct (HC d0 m IH Em) as [_ H]. apply H in Hin as [?|H'%elem_of_nil]; done. }
  intros [H|(d0 & m & H & Em & Hl)]; [by apply HV, Hv|].
  destruct (HC d0 m (Hv _ H) Em) as [Hc _]. by apply Hc.
Qed.

Lemma markInv_skip o R q d V Rch : d ∈ V -> markInv o R (q ++ [d]) V Rch -> markInv o R q V Rch.
Proof.
  intros Hd [Hq Hv Hs HV HR HC]. split; [set_solver|done|done|done|set_solver|].
  intros d0 m H0 Em. destruct (HC d0 m H0 Em). split; [done|]. set_solver.
Qed.

Lemma markInv_leaf o R q d V Rch : manifestAt o d = None ->
  markInv o R (q ++ [d]) V Rch -> markInv o R q ({[d]} ∪ V) ({[d]} ∪ Rch).
Proof.
  intros Hm [Hq Hv Hs HV HR HC].
  assert (Hd : visits o R d) by (apply Hq; set_solver).
  split; [set_solver|set_solver| |set_solver|set_solver|].
  - intros x [->%elem_of_singleton|H]%elem_of_union; [by left|auto].
  - intros d0 m [->%elem_of_singleton|H0]%elem_of_union Em; [congruence|].
    destruct (HC d0 m H0 Em). split; set_solver.
Qed.

Lemma children_digest m x : x ∈ children m -> isDigest x = true.
Proof. by intros [? _]%list_elem_of_filter. Qed.

Lemma markInv_visit o R q d m V Rch : manifestAt o d = Some m ->
  markInv o R (q ++ [d]) V Rch ->
  markInv o R (q ++ children m) ({[d]} ∪ V)
    (list_to_set (leaves m) ∪ list_to_set (children m) ∪ ({[d]} ∪ Rch)).
Proof.
  intros Hm [Hq Hv Hs HV HR HC].
  assert (Hd : visits o R d) by (apply Hq; set_solver).
  assert (Hc : forall x, x ∈ children m -> visits o R x) by (intros; by eapply visits_child).
  split.
  - intros x [H|H]%elem_of_app; [apply Hq; set_solver|]. split; [by eapply children_digest|auto].
  - set_solver.
  - intros x. rewrite !elem_of_union, !elem_of_list_to_set, elem_of_singleton.
    intros [[H|H]|[-> |H]]; [right; by exists d, m|left; auto|by left|auto].
  - set_solver.
  - set_solver.
  - intros d0 m0 [->%elem_of_singleton|H0]%elem_of_union Em.
    + assert (m0 = m) as -> by congruence. set_solver.
    + destruct (HC d0 m0 H0 Em). set_solver.
Qed.

Lemma mark_spec o R fuel q V Rch b :
  objs b = o -> markInv o R q V Rch -> (length q + pend V (map_to_list o) < fuel)%nat ->
  wp (mark unmarshal fuel q V Rch) (fun r b' => readOnly b b' /\
    match r with Err e => e = ErrIO | Ok Rch' => forall d, d ∈ Rch' <-> keeps o R d end) b.
Proof.
  revert q V Rch b. induction fuel as [|fuel IH]; intros q V Rch b Ho HI Hf; [lia|]. cbn [mark].
  destruct (rev q) as [|d rest] eqn:Eq.
  { apply (f_equal (@rev _)) in Eq. rewrite rev_involutive in Eq. simpl in Eq. subst q.
    split; [by auto with cornus|]. exact (markInv_done _ _ _ _ HI). }
  apply (f_equal (@rev _)) in Eq. rewrite rev_involutive in Eq. simpl in Eq. subst q.
  rewrite length_app in Hf. simpl in Hf.
  destruct (decide (d ∈ V)) as [Hd|Hd]; [apply IH; [done|by eapply markInv_skip|lia]|].
  destruct (mi_queue _ _ _ _ _ HI d) as [Hdig _]; [set_solver|].
  pose proof (pend_mono V ({[d]} ∪ V) (map_to_list o) (union_subseteq_r _ _)) as Hm.
  apply wp_bind, wp_attempt, wp_parseManifestBlob; [done|]. rewrite Ho.
  assert (Hgo : forall evs q' V' Rch', markInv o R q' V' Rch' ->
    (length q' + pend V' (map_to_list o) < fuel)%nat ->
    wp (mark unmarshal fuel q' V' Rch') (fun r b' => readOnly b b' /\
      match r with Err e => e = ErrIO | Ok Rch' => forall d, d ∈ Rch' <-> keeps o R d end)
      (set_events evs b)).
  { intros evs q' V' Rch' HI' Hf'. eapply wp_mono; [by apply IH|].
    intros r b' [[evs' ->] H]. split; [by exists evs'|done]. }
  assert (HmA : manifestAt o d = match blobAt o d with Some c => parseManifest unmarshal c | None => None end)
    by (unfold manifestAt; by destruct (blobAt o d)).
  intros evs r [-> | ->]; [split; [apply readOnly_events|done]|].
  destruct (blobAt o d) as [c|]; [destruct (parseManifest unmarshal c) as [m|] eqn:Em|].
  - apply Hgo; [by eapply markInv_visit|]. rewrite length_app.
    pose proof (pend_children o V d m Hdig HmA Hd). lia.
  - apply Hgo; [by eapply markInv_leaf|lia].
  - apply Hgo; [by eapply markInv_leaf|lia].
Qed.

Lemma pend_le V o : (pend V (map_to_list o) <=
  sum_list (map (fun kc => childCount unmarshal (snd kc)) (map_to_list o)))%nat.
Proof.
  induction (map_to_list o) as [|kc l IH]; [done|]. unfold pend in *. simpl. case_decide; lia.
Qed.

(** Marking from a queue of digests finds what references lead to. *)
Lemma wp_markAll q b : Forall (fun d => isDigest d = true) q ->
  wp (fun b => mark unmarshal (markFuel unmarshal (objs b) q) q ∅ ∅ b) (fun r b' => readOnly b b' /\
    match r with
    | Err e => e = ErrIO
    | Ok Rch => forall d, d ∈ Rch <-> keeps (objs b) (fun d => d ∈ q) d
    end) b.
Proof.
  intros Hq. unfold wp. apply mark_spec; [done| |unfold markFuel; pose proof (pend_le ∅ (objs b)); lia].
  split; [|set_solver|set_solver|set_solver|set_solver|set_solver].
  intros d Hd. split; [by eapply Forall_forall in Hq|by apply visits_root].
Qed.

End Mark.

(** ** Roots *)

(** What the collector starts from: markers, and what tags name. *)
Definition markerRoot (o : gmap bytes bytes) (d : bytes) : Prop :=
  exists r h, marked o r h /\ d = go "sha256:" ++ h.
Definition anyRoot (o : gmap bytes bytes) (d : bytes) : Prop :=
  markerRoot o d \/ exists repo t raw, o !! tagKey repo t = Some raw /\ d = trimSpace raw.

(** The queue after the repositories [repos]. *)
Definition rootsInv (o : gmap bytes bytes) (repos q : list bytes) : Prop :=
  (forall d, d ∈ q -> isDigest d = true /\ anyRoot o d) /\
  forall repo h, repo ∈ repos -> marked o (repoSegs repo) h -> go "sha256:" ++ h ∈ q.

Lemma elem_of_enqueueRoot q d x :
  x ∈ enqueueRoot q d <-> x ∈ q \/ x = d /\ isDigest d = true.
Proof.
  unfold enqueueRoot. destruct (isDigest d); [rewrite elem_of_app, list_elem_of_singleton|]; naive_solver.
Qed.

Lemma enqueue_hexes hexes q d :
  d ∈ fold_left (fun q hexv => enqueueRoot q (go "sha256:" ++ hexv)) hexes q <->
  d ∈ q \/ exists h, h ∈ hexes /\ d = go "sha256:" ++ h /\ isDigest d = true.
Proof.
  revert q. induction hexes as [|h hexes IH]; intros q; cbn [fold_left].
  - split; [tauto|]. intros [?|(h & H%elem_of_nil & _)]; done.
  - rewrite IH, elem_of_enqueueRoot. split.
    + intros [[?|[-> ?]]|(h' & ? & ?)]; [tauto| |]; right; [exists h|exists h'];
        (split; [apply elem_of_cons|]); tauto.
    + intros [?|(h' & [->|?]%elem_of_cons & -> & ?)]; [tauto|tauto|right; eauto].
Qed.

Section Collector.
Context (unmarshal : bytes -> option gcManifest).

Lemma wp_tagRoot o repos repo q t b :
  objs b = o -> rootsInv o repos q ->
  wp (tagRoot repo q t) (fun r b' => readOnly b b' /\
    match r with Err e => e = ErrIO | Ok q' => rootsInv o repos q' end) b.
Proof.
  intros Ho [H1 H2]. apply wp_bind, wp_attempt. unfold readTag. apply wp_bind, wp_objGet.
  intros evs r [-> | ->]; [by split; [apply readOnly_events|]|].
  unfold look. rewrite Ho. destruct (o !! tagKey repo t) as [raw|] eqn:E;
    (split; [apply readOnly_events|]); [|done].
  unfold mret, be_ret, stm_ret, wp. cbn [fst snd]. split.
  - intros d [?|[-> Hd]]%elem_of_enqueueRoot; [auto|]. split; [done|]. right. eauto.
  - intros repo' h Hr Hm. apply elem_of_enqueueRoot. left. by eapply H2.
Qed.

Lemma wp_repoRoots o repos repo q b :
  wfStore o -> objs b = o -> rootsInv o repos q ->
  wp (repoRoots q repo) (fun r b' => readOnly b b' /\
    match r with Err e => e = ErrIO | Ok q' => rootsInv o (repos ++ [repo]) q' end) b.
Proof.
  intros Hwf Ho [H1 H2]. apply wp_bind. eapply wp_mono; [apply wp_manifestHexes; by rewrite Ho|].
  rewrite Ho. intros [hs|e] b1 [Hro1 Hh]; [|done].
  assert (HI : rootsInv o (repos ++ [repo])
    (fold_left (fun q hexv => enqueueRoot q (go "sha256:" ++ hexv)) hs q)).
  { split.
    - intros d [?|(h & Hin & -> & Hd)]%enqueue_hexes; [auto|]. split; [done|]. left.
      exists (repoSegs repo), h. split; [by apply Hh|done].
    - intros repo' h [Hin| ->%list_elem_of_singleton]%elem_of_app Hm; apply enqueue_hexes;
        [left; by eapply H2|right]. exists h. split; [by apply Hh|]. split; [done|].
      apply isDigest_spec. exists h. split; [done|apply Hm]. }
  cbv zeta. apply wp_bind. pose proof (readOnly_objs _ _ Hro1) as Ho1. rewrite Ho in Ho1.
  eapply wp_mono; [apply wp_Tags; by rewrite Ho1|]. intros [ts|e] b2 [Hro2 Ht]; [|by split; [eapply readOnly_trans|]].
  apply (wp_foldM _ (fun _ q s => readOnly b s /\ rootsInv o (repos ++ [repo]) q)).
  - split; [by eapply readOnly_trans|done].
  - intros pre t suf q' s _ [Hro HI']. pose proof (readOnly_objs _ _ Hro) as Ho'. rewrite Ho in Ho'.
    eapply wp_mono; [by apply (wp_tagRoot o (repos ++ [repo]))|]. intros [q2|e] s' [Hr H];
      (split; [by eapply readOnly_trans|done]).
  - done.
Qed.

Lemma wp_roots repos b : wfStore (objs b) ->
  wp (foldM repoRoots repos []) (fun r b' => readOnly b b' /\
    match r with Err e => e = ErrIO | Ok q => rootsInv (objs b) repos q end) b.
Proof.
  intros Hwf. apply (wp_foldM _ (fun pre q s => readOnly b s /\ rootsInv (objs b) pre q)).
  - split; [apply readOnly_refl|]. split; [intros d H|intros r h H]; by apply elem_of_nil in H.
  - intros pre repo suf q s _ [Hro HI]. pose proof (readOnly_objs _ _ Hro) as Ho.
    eapply wp_mono; [by apply (wp_repoRoots (objs b) pre)|]. intros [q2|e] s' [Hr H];
      (split; [by eapply readOnly_trans|done]).
  - done.
Qed.

(** ** Sweeping *)

Definition doomed (Rch : gset bytes) (k : bytes) : Prop :=
  hasSuffix k [slash] = false /\ isDigest (digestOfKey k) = true /\ digestOfKey k ∉ Rch.

Record swept (Rch : gset bytes) (keys : list bytes) (b : Backend) (r : res storeErr Z) (b' : Backend) : Prop := {
  sw_catalog : sameCatalog b b';
  sw_subset : objs b' ⊆ objs b;
  sw_doomed : forall k, is_Some (objs b !! k) -> objs b' !! k = None -> k ∈ keys /\ doomed Rch k;
  sw_result : match r with
    | Err e => e = ErrIO
    | Ok n => (forall k, k ∈ keys -> doomed Rch k -> objs b' !! k = None) /\
              n = Z.of_nat (size (objs b)) - Z.of_nat (size (objs b'))
    end }.

Lemma swept_skip Rch key keys b r b' :
  ~ doomed Rch key -> swept Rch keys b r b' -> swept Rch (key :: keys) b r b'.
Proof.
  intros Hn [H1 H2 H3 H4]. split; [done|done|..].
  - intros k Hk Hd. destruct (H3 k Hk Hd). split; [by right|done].
  - destruct r as [n|]; [|done]. destruct H4 as [H4 H5]. split; [|done].
    intros k [-> |Hk]%elem_of_cons Hd; [done|auto].
Qed.

(** The state after one delete that was applied. *)
Lemma swept_delete Rch key keys b b1 r b' :
  doomed Rch key -> is_Some (objs b !! key) -> sameCatalog b b1 -> objs b1 = delete key (objs b) ->
  swept Rch keys b1 r b' ->
  swept Rch (key :: keys) b (freed ← r; Ok (freed + 1)) b'.
Proof.
  intros Hd [c Hc] Hcat E [H1 H2 H3 H4]. rewrite E in *.
  assert (Hs : size (delete key (objs b)) = Nat.pred (size (objs b))) by (apply map_size_delete_Some; eauto).
  assert (size (objs b) <> 0)%nat by (intros Hz%map_size_empty_inv; by rewrite Hz in Hc).
  split.
  - destruct Hcat as (?&?&?&?&?), H1 as (?&?&?&?&?). repeat split; congruence.
  - etrans; [exact H2|]. apply delete_subseteq.
  - intros k Hk Hn. destruct (decide (k = key)) as [-> |Hne]; [split; [by left|done]|].
    destruct (H3 k) as [? ?]; [by rewrite lookup_delete_ne|done|]. split; [by right|done].
  - destruct r as [n|e]; [|done]. cbn. destruct H4 as [H4 ->]. split; [|lia].
    intros k [-> |Hk]%elem_of_cons Hdk; [|auto].
    destruct (objs b' !! key) eqn:Eb; [|done]. eapply lookup_weaken in Eb; [|exact H2].
    by rewrite lookup_delete_eq in Eb.
Qed.

Lemma swept_refl Rch b evs : swept Rch [] b (Ok 0) (set_events evs b).
Proof.
  split; [done|done|..].
  - cbn. intros k [c E] E'. congruence.
  - split; [intros k H; by apply elem_of_nil in H|]. cbn. lia.
Qed.

Lemma swept_err Rch keys b evs : swept Rch keys b (Err ErrIO) (set_events evs b).
Proof. split; [done|done| |done]. cbn. intros k [c E] E'. congruence. Qed.

Lemma wp_sweep Rch keys b :
  NoDup keys -> (forall k, k ∈ keys -> is_Some (objs b !! k)) ->
  wp (sweep Rch keys) (swept Rch keys b) b.
Proof.
  revert b. induction keys as [|key keys IH]; intros b Hnd Hk.
  { unfold wp. cbn. rewrite <- (set_events_id b) at 2. apply swept_refl. }
  apply NoDup_cons in Hnd as [Hnin Hnd]. cbn [sweep]. fold (digestOfKey key).
  destruct (hasSuffix key [slash] || negb (isDigest (digestOfKey key)) ||
    bool_decide (digestOfKey key ∈ Rch)) eqn:Ec.
  - eapply wp_mono; [apply IH; [done|intros; apply Hk; by right]|].
    intros r b'. apply swept_skip. intros (H1 & H2 & H3).
    rewrite H1, H2, bool_decide_false in Ec; done.
  - apply orb_false_iff in Ec as [[E1 E2%negb_false_iff]%orb_false_iff E3%bool_decide_eq_false].
    assert (Hd : doomed Rch key) by done.
    assert (Hkey : is_Some (objs b !! key)) by (apply Hk; by left).
    apply wp_bind, wp_objDelete; [intros evs; apply swept_err|]. intros evs r Hr.
    set (b1 := set_objs _ _). assert (Hcat : sameCatalog b b1) by done.
    destruct Hr as [-> | ->].
    + split; [done|apply delete_subseteq| |done]. intros k Hk1 Hn.
      destruct (decide (k = key)) as [-> |Hne]; [by split; [left|]|].
      cbn in Hn. rewrite lookup_delete_ne in Hn by done. destruct Hk1; congruence.
    + apply wp_bind. eapply wp_mono.
      * apply (IH b1 Hnd). intros k Hin. cbn. rewrite lookup_delete_ne; [apply Hk; by right|].
        by intros ->.
      * intros r b' Hsw. apply (swept_delete _ key _ b) in Hsw; [|done..].
        by destruct r.
Qed.

(** ** Collecting *)

Lemma visits_mono o (R R' : bytes -> Prop) d :
  (forall d, R d -> R' d) -> visits unmarshal o R d -> visits unmarshal o R' d.
Proof. intros H. induction 1; [by apply visits_root, H|by eapply visits_child]. Qed.

Lemma keeps_mono o (R R' : bytes -> Prop) d :
  (forall d, R d -> R' d) -> keeps unmarshal o R d -> keeps unmarshal o R' d.
Proof.
  intros H [Hv|(d0 & m & Hv & ?)]; [left; by eapply visits_mono|right; exists d0, m].
  split; [by eapply visits_mono|done].
Qed.

(** What a collection did, complete or interrupted. *)
Record collected (b : Backend) (r : res storeErr Z) (b' : Backend) : Prop := {
  co_subset : objs b' ⊆ objs b;
  co_catalog : catOk b -> catOk b';
  co_removed : forall k, is_Some (objs b !! k) -> objs b' !! k = None ->
    exists h, hex64 h /\ k = keyOf (KBlob h) /\
      (catOk b -> ~ keeps unmarshal (objs b) (markerRoot (objs b)) (go "sha256:" ++ h));
  co_result : match r with
    | Err e => e = ErrIO
    | Ok n => (forall h, hex64 h -> is_Some (objs b' !! keyOf (KBlob h)) ->
                 keeps unmarshal (objs b) (anyRoot (objs b)) (go "sha256:" ++ h)) /\
              n = Z.of_nat (size (objs b)) - Z.of_nat (size (objs b'))
    end }.

Lemma collected_none b b' : objs b' = objs b -> (catOk b -> catOk b') -> collected b (Err ErrIO) b'.
Proof.
  intros E Hc. split; [by rewrite E|done| |done]. rewrite E. intros k [c Hk] Hn. congruence.
Qed.

Lemma elem_of_blobKeys o h : wfStore o -> hex64 h -> is_Some (o !! keyOf (KBlob h)) ->
  keyOf (KBlob h) ∈ keysUnder (go "blobs/sha256/") o.
Proof.
  intros Hwf Hh Hp. apply elem_of_keysUnder. split; [done|]. apply hasPrefix_spec.
  exists (join [slash] [take 2 h; h]). done.
Qed.

Lemma blobKeys_kind o k : wfStore o -> k ∈ keysUnder (go "blobs/sha256/") o ->
  exists h, hex64 h /\ k = keyOf (KBlob h).
Proof.
  intros Hwf [Hk [t E]%hasPrefix_spec]%elem_of_keysUnder.
  destruct (wf_segs o k Hwf Hk) as (kk & Hok & Ek & Hn). exists (match kk with KBlob h => h | _ => [] end).
  destruct kk as [h|r h|r t']; [done|exfalso..]; rewrite Ek in E; cbn [segsOf] in E;
    rewrite join_cons in E by (by destruct r); done.
Qed.

Lemma NoDup_keysUnder p o : NoDup (keysUnder p o).
Proof. apply NoDup_filter, NoDup_fst_map_to_list. Qed.

Lemma doomed_blob Rch h : hex64 h -> doomed Rch (keyOf (KBlob h)) <-> go "sha256:" ++ h ∉ Rch.
Proof.
  intros Hh. unfold doomed. rewrite digestOfKey_blob by done. split; [tauto|]. intros Hn.
  split_and!; [|apply isDigest_spec; eauto|done].
  apply (suffix_file [go "blobs"; go "sha256"; take 2 h]). by apply hex64_normal.
Qed.

Lemma catOk_subset b b' :
  catOk b -> sameCatalog b b' -> objs b' ⊆ objs b -> catOk b'.
Proof.
  intros Hc (El & _ & Ev & _) Hs Hv r h (Hr & Hh & [c E]). rewrite El. apply (Hc ltac:(congruence) r h).
  split_and!; [done..|]. exists c. by eapply lookup_weaken.
Qed.

(** The sweep of the blobs outside the marked set. *)
Lemma collected_sweep b b4 (q : list bytes) Rch r b' :
  wfStore (objs b) -> objs b4 = objs b -> (catOk b -> catOk b4) ->
  (catOk b -> forall d, markerRoot (objs b) d -> d ∈ q) -> (forall d, d ∈ q -> anyRoot (objs b) d) ->
  (forall d, d ∈ Rch <-> keeps unmarshal (objs b) (fun d => d ∈ q) d) ->
  swept Rch (keysUnder (go "blobs/sha256/") (objs b)) b4 r b' -> collected b r b'.
Proof.
  intros Hwf Ho Hc Hroot Hany HR [Hs1 Hs2 Hs3 Hs4]. rewrite Ho in *. split.
  - done.
  - intros Hok. eapply catOk_subset; [exact (Hc Hok)|done|by rewrite Ho].
  - intros k Hk Hn. destruct (Hs3 k Hk Hn) as [Hin Hd].
    destruct (blobKeys_kind _ _ Hwf Hin) as (h & Hh & ->). exists h. split; [done|]. split; [done|].
    apply doomed_blob in Hd; [|done]. intros Hok Hkeep. apply Hd, HR. eapply keeps_mono; [|exact Hkeep]. auto.
  - destruct r as [n|e]; [|done]. destruct Hs4 as [Hs4 ->]. split; [|done]. intros h Hh Hp.
    destruct (decide (go "sha256:" ++ h ∈ Rch)) as [Hin|Hin].
    + apply HR in Hin. by apply (keeps_mono _ (fun d => d ∈ q)).
    + exfalso. rewrite (Hs4 (keyOf (KBlob h))) in Hp; [by destruct Hp| |by apply doomed_blob].
      apply elem_of_blobKeys; [done..|]. destruct Hp as [c Hp]. exists c. by eapply lookup_weaken.
Qed.

Lemma wp_GC b : wfStore (objs b) -> wp (GC unmarshal) (collected b) b.
Proof.
  intros Hwf. apply wp_bind. eapply wp_mono; [by apply wp_Repos|].
  intros [repos|e] b1 (Ho1 & Hc1 & Hr1); [|subst e; by apply collected_none].
  apply wp_bind. eapply wp_mono; [apply wp_roots; by rewrite Ho1|].
  intros [q|e] b2 [Hro2 Hq]; [|subst e; destruct Hro2 as [e2 ->]; by apply collected_none].
  rewrite Ho1 in Hq. destruct Hq as [Hq1 Hq2].
  apply wp_bind. eapply wp_mono; [apply wp_markAll; apply Forall_forall; intros d Hd; by apply Hq1|].
  intros [Rch|e] b3 [Hro3 HR]; destruct Hro2 as [e2 ->], Hro3 as [e3 ->];
    [|subst e; by apply collected_none].
  cbn [objs set_events] in HR. rewrite Ho1 in HR.
  apply wp_bind, wp_objList. intros e4 r [-> | ->]; [by apply collected_none|].
  cbn [objs set_events]. rewrite Ho1. change (listOf (go "blobs/sha256/") [] (objs b))
    with (keysUnder (go "blobs/sha256/") (objs b)).
  set (b4 := set_events e4 _). assert (Ho4 : objs b4 = objs b) by done.
  eapply wp_mono; [apply wp_sweep; [apply NoDup_keysUnder|]|].
  { rewrite Ho4. by intros k [? _]%elem_of_keysUnder. }
  intros r b' Hsw.
  assert (Hroot : catOk b -> forall d, markerRoot (objs b) d -> d ∈ q).
  { intros Hok0 d (r0 & h & Hm & ->). destruct (Hm) as [Hok _]. apply (Hq2 (join [slash] r0)).
    - by eapply (Hr1 Hok0).
    - by rewrite repoSegs_join. }
  eapply collected_sweep; [done|exact Ho4|exact Hc1|exact Hroot|apply Hq1|exact HR|exact Hsw].
Qed.

End Collector.

(** C17. From a store whose cached catalog, if there is one, lists every repository with a marker ([catOk], which holds unless the reply
    to the write of a push's marker was lost: [session_integrity] and [lost_reply_sweeps_manifest] in [StorageSession]),
    and whatever object-store calls of the collection fail or lose their replies, a collection leaves
    every manifest that could be pulled pullable with the same content, digest and
    media type, by tag and by digest, and keeps every blob that manifest leads to
    through configs, layers, index entries and subjects. *)
Theorem GC_safe unmarshal b :
  wfStore (objs b) -> catOk b ->
  let o' := objs (snd (GC unmarshal b)) in
  forall repo ref x d m, okRef ref -> pull (objs b) repo ref = Ok (x, d, m) ->
    pull o' repo ref = Ok (x, d, m) /\
    forall d', keeps unmarshal (objs b) (eq d) d' -> blobAt o' d' = blobAt (objs b) d'.
Proof.
  intros Hwf Hcat o' repo ref x d m Href Hp.
  destruct (wp_GC unmarshal b Hwf) as [Hs _ Hrem _]. fold o' in Hs, Hrem.
  apply pull_Ok in Hp as (Ht & h & -> & Hh & Em & Eb).
  assert (Hkeep : forall d', keeps unmarshal (objs b) (eq (go "sha256:" ++ h)) d' ->
    blobAt o' d' = blobAt (objs b) d').
  { intros d' Hk. unfold blobAt. destruct (blobKey d') as [k|] eqn:Ek; [|done].
    destruct (objs b !! k) as [c|] eqn:Ec; [|by eapply lookup_weaken_None].
    destruct (o' !! k) as [c'|] eqn:Ec'; [eapply lookup_weaken in Ec'; [|exact Hs]; congruence|].
    destruct (Hrem k) as (h' & Hh' & -> & Hn); [eauto|done|]. exfalso. apply (Hn Hcat).
    apply blobKey_ok in Ek as (h0 & -> & Hh0 & E). apply keyOf_inj in E; [|done..].
    injection E as ->. eapply keeps_mono; [|exact Hk]. intros d0 <-.
    exists (repoSegs repo), h. split; [|done]. split_and!; [apply okRepo_segs|done|eauto]. }
  assert (Hblob : o' !! keyOf (KBlob h) = Some x).
  { specialize (Hkeep (go "sha256:" ++ h)). unfold blobAt in Hkeep.
    rewrite blobKey_hex, Eb in Hkeep by done. apply Hkeep. left. by apply visits_root. }
  assert (Hstay : forall k c, objs b !! k = Some c -> (forall h, hex64 h -> k <> keyOf (KBlob h)) -> o' !! k = Some c).
  { intros k c Hc Hk. destruct (o' !! k) as [c'|] eqn:Ec'; [eapply lookup_weaken in Ec'; [|exact Hs]; congruence|].
    destruct (Hrem k) as (h' & Hh' & -> & _); [eauto|done|]. by destruct (Hk h' Hh'). }
  split; [|done]. apply pull_Ok. split.
  - unfold tagTarget in *. destruct (isDigest ref) eqn:Ed; [done|].
    unfold look in *. destruct (objs b !! tagKey repo ref) as [raw|] eqn:Er; [|done].
    rewrite (Hstay _ _ Er); [done|]. intros h' Hh' E.
    assert (Htag : okTag ref) by (destruct Href; [congruence|done]). rewrite tagKey_kind in E by done.
    apply keyOf_inj in E; [done|split; [apply okRepo_segs|by apply okTag_normal]|done].
  - exists h. split_and!; [done..| |done]. apply Hstay; [done|]. intros h' Hh' E.
    apply keyOf_inj in E; [done|by split; [apply okRepo_segs|]|done].
Qed.

(** ** Totality *)

Lemma steady_manifestHexes repo : steady (manifestHexes repo).
Proof. apply steady_bind; auto with steady. Qed.
Lemma steady_Tags repo : steady (Tags repo).
Proof. apply steady_bind; auto with steady. Qed.
Lemma steady_readTag repo t : steady (readTag repo t).
Proof. apply steady_bind; auto with steady. Qed.
#[export] Hint Resolve steady_manifestHexes steady_Tags steady_readTag : steady.

Lemma steady_walkRepos fuel p out : steady (walkRepos fuel p out).
Proof.
  revert p out. induction fuel as [|fuel IH]; intros p out; [by apply steady_throw|].
  apply steady_bind; [auto with steady|]. intros es. destruct (walkDir p es). auto with steady.
Qed.

Lemma steady_Repos : steady Repos.
Proof.
  intros b Hb. unfold Repos. destruct (cacheFresh b); [done|].
  assert (H : forall g, steady (refreshCatalog g)); [|by apply H].
  intros g. apply steady_bind; [intros b' Hb'; by apply steady_walkRepos|]. intros l.
  apply steady_bind; [|auto with steady]. intros b' Hb'. unfold publishCatalog. cbn.
  destruct (_ =? _); by split.
Qed.

Lemma steady_repoRoots q repo : steady (repoRoots q repo).
Proof.
  apply steady_bind; [auto with steady|]. intros hs. apply steady_bind; [auto with steady|]. intros ts.
  apply steady_foldM. intros q' t. apply steady_attempt; auto with steady.
Qed.

Lemma steady_mark unmarshal fuel q V Rch : steady (mark unmarshal fuel q V Rch).
Proof.
  revert q V Rch. induction fuel as [|fuel IH]; intros q V Rch; [by apply steady_throw|]. cbn [mark].
  destruct (rev q) as [|d rest]; [apply steady_ret|]. case_decide; [apply IH|].
  apply steady_attempt.
  - apply steady_bind; [auto with steady|]. intros c.
    destruct (parseManifest unmarshal c); [apply steady_ret|by apply steady_throw].
  - intros [m|[]] Hr; try apply IH; by apply steady_throw.
Qed.

Lemma steady_sweep Rch keys : steady (sweep Rch keys).
Proof.
  induction keys as [|key keys IH]; [apply steady_ret|]. cbn [sweep].
  destruct (_ || _); [apply IH|]. apply steady_bind; [auto with steady|]. intros _.
  apply steady_bind; auto with steady.
Qed.

Lemma steady_GC unmarshal : steady (GC unmarshal).
Proof.
  apply steady_bind; [apply steady_Repos|]. intros repos.
  apply steady_bind; [apply steady_foldM, steady_repoRoots|]. intros q.
  apply steady_bind; [intros b Hb; by apply steady_mark|]. intros Rch.
  apply steady_bind; [auto with steady|]. intros keys. apply steady_sweep.
Qed.

(** C29. Collection terminates: without object-store failures it returns, and its
    only error is an object-store failure.  A collection that returns has removed
    every blob no marker or tag leads to, and reports how many it removed. *)
Theorem GC_complete unmarshal b :
  wfStore (objs b) ->
  let r := fst (GC unmarshal b) in
  let o' := objs (snd (GC unmarshal b)) in
  (events b = [] -> is_ok r = true) /\ (forall e, r = Err e -> e = ErrIO) /\
  forall n, r = Ok n ->
    n = Z.of_nat (size (objs b)) - Z.of_nat (size o') /\
    forall d c, blobAt o' d = Some c ->
      blobAt (objs b) d = Some c /\ keeps unmarshal (objs b) (anyRoot (objs b)) d.
Proof.
  intros Hwf r o'. destruct (wp_GC unmarshal b Hwf) as [Hs _ _ Hres]. fold r o' in Hs, Hres.
  split_and!.
  - intros He. destruct (steady_GC unmarshal b He) as [_ Hn]. fold r in Hn.
    destruct r as [n|e]; [done|]. congruence.
  - intros e E. by rewrite E in Hres.
  - intros n E. rewrite E in Hres. destruct Hres as [Hkeep Hn]. split; [done|]. intros d c Hc.
    unfold blobAt in *. destruct (blobKey d) as [k|] eqn:Ek; [|done].
    split; [by eapply lookup_weaken|].
    apply blobKey_ok in Ek as (h & -> & Hh & ->). apply Hkeep; eauto.
Qed.
