(* ===== verification/StorageSession.v ===== *)
(** * StorageSession: sequences of operations on the store

    Any sequence of pushes, deletes, collections and catalog queries, across
    restarts and failures, from an empty store; and what a lost reply does to the
    cached catalog. *)

From Stdlib Require Import ZArith Lia.
From Stdlib.Strings Require Import Byte.
From stdpp Require Import base list gmap sorting.
From S2P Require Import Prelude GoStd Storage StorageInv StorageWalk StorageGC.
Open Scope Z_scope.

Section Session.
Context (unmarshal : bytes -> option gcManifest).

Inductive op :=
| OpPutBlob (content expect : bytes)
| OpDeleteBlob (digest : bytes)
| OpPutManifest (repo ref mediaType content : bytes)
| OpDeleteManifest (repo digest : bytes)
| OpRepos
| OpGC
| OpTick (dt : Z)   (** time passes *)
| OpRestart.        (** a new process: [NewBackend] on the same objects *)

(** One operation under its own schedule of failures. *)
Definition runOp (b : Backend) (eo : list ev * op) : Backend :=
  let b := set_events (fst eo) b in
  match snd eo with
  | OpPutBlob c e => snd (PutBlob c e b)
  | OpDeleteBlob d => snd (DeleteBlob d b)
  | OpPutManifest repo ref mt c => snd (PutManifest repo ref mt c b)
  | OpDeleteManifest repo d => snd (DeleteManifest repo d b)
  | OpRepos => snd (Repos b)
  | OpGC => snd (GC unmarshal b)
  | OpTick dt => mkBackend (objs b) (events b) (catalogList b) (catalogAt b) (catalogValid b)
                   (catalogGen b) (now b + dt)
  | OpRestart => mkBackend (objs b) (events b) [] 0 false 0 (now b)
  end.

Definition okOp (eo : list ev * op) : Prop :=
  match snd eo with OpPutManifest _ ref _ _ => okRef ref | _ => True end.

(** ** Schedules only get consumed *)

Definition noLost (b : Backend) : Prop := EvLost ∉ events b.

Definition drops {A} (m : be A) : Prop := forall b, events (snd (m b)) `suffix_of` events b.

Lemma drops_call {A} (f : Backend -> res storeErr A * Backend) :
  (forall b, events (snd (f b)) = events b) -> drops (call f).
Proof.
  intros Hf b. unfold call. destruct (events b) as [|[] evs] eqn:E; cbn; rewrite ?Hf, ?E;
    try (by apply suffix_cons_r); done.
Qed.

Lemma drops_pure {A} (m : be A) : (forall b, events (snd (m b)) = events b) -> drops m.
Proof. intros H b. by rewrite H. Qed.

Lemma drops_bind {A B} (m : be A) (f : A -> be B) : drops m -> (forall a, drops (f a)) -> drops (m ≫= f).
Proof.
  intros Hm Hf b. unfold mbind, be_bind, stm_bind. specialize (Hm b).
  destruct (m b) as [[a|e] b']; [|done]. etrans; [apply Hf|exact Hm].
Qed.

Lemma drops_attempt {A} (m : be A) : drops m -> drops (attempt m).
Proof. intros Hm b. unfold attempt. specialize (Hm b). by destruct (m b). Qed.

Lemma noLost_drops {A} (m : be A) b : drops m -> noLost b -> noLost (snd (m b)).
Proof.
  intros Hd Hn Hin. apply Hn. destruct (Hd b) as [l ->]. apply elem_of_app. by right.
Qed.

Lemma drops_PutBlob c e : drops (PutBlob c e).
Proof.
  apply drops_bind; [by apply drops_call|]. intros _. cbv zeta.
  destruct (_ && _); [by apply drops_pure|].
  apply drops_bind; [by apply drops_pure|]. intros key.
  apply drops_bind; [by apply drops_attempt, drops_call|].
  intros [n|e']; [by apply drops_pure|]. apply drops_bind; [by apply drops_call|]. intros _.
  apply drops_bind; [by apply drops_call|]. intros _. by apply drops_pure.
Qed.

(** ** The catalog *)

Lemma marked_addsBlob c o o1 r h : addsBlob c o o1 -> marked o1 r h -> marked o r h.
Proof.
  intros [-> | ->]; [done|]. intros (Hr & Hh & Hm). split_and!; [done..|].
  rewrite lookup_insert_ne in Hm; [done|]. apply keyOf_ne; [apply hex64_sha256|by split|done].
Qed.

Lemma catOk_addsBlob c b b' :
  catOk b -> sameCatalog b b' -> addsBlob c (objs b) (objs b') -> catOk b'.
Proof.
  intros Hc (El & _ & Ev & _) Ha Hv r h Hm. rewrite El. apply (Hc ltac:(congruence) r h).
  by eapply marked_addsBlob.
Qed.

Lemma catOk_invalid b : catalogValid b = false -> catOk b.
Proof. intros E H. congruence. Qed.

(** Unless the reply to the marker write is lost, a push leaves a catalog that
    covers the markers. *)
Lemma PutManifest_catOk repo ref mt c b :
  wfStore (objs b) -> catOk b -> noLost b -> catOk (snd (PutManifest repo ref mt c b)).
Proof.
  intros Hwf Hcat Hn.
  assert (H : wp (PutBlob c []) (fun r b' => catOk b') b).
  { apply wp_PutBlob; [done|intros b' e Hs Ho|intros b' Hs _ Ho _]; by eapply catOk_addsBlob. }
  pose proof (noLost_drops _ _ (drops_PutBlob c []) Hn) as Hn1. unfold wp in H.
  unfold PutManifest, mbind, be_bind, stm_bind.
  destruct (PutBlob c [] b) as [[r|e] b1]; [|done]. cbn [fst snd] in H, Hn1. cbv zeta.
  set (mk := manifestKey _ _). unfold objPut at 1, call.
  assert (Hev : forall b2, catalogValid b2 = false ->
    catOk (snd ((if negb (isDigest ref)
      then be_bind _ _ (fun _ => mret r.1) (objPut (tagKey repo ref) r.1) else mret r.1) b2))).
  { intros b2 Hv. apply catOk_invalid. destruct (negb (isDigest ref)); [|done].
    unfold be_bind, stm_bind, objPut, call. by destruct (events b2) as [|[] evs]. }
  unfold be_bind, stm_bind in Hev. unfold noLost in Hn1.
  destruct (events b1) as [|[] evs] eqn:E; cbn [invalidateCatalog set_objs set_events]; [by apply Hev|by apply Hev| |].
  - destruct b1; exact H.
  - exfalso. apply Hn1. by left.
Qed.

(** ** Every operation keeps the invariant *)

(** An operation that only removes objects, and at most drops the cached catalog. *)
Definition shrinks (b b' : Backend) : Prop :=
  objs b' ⊆ objs b /\ (sameCatalog b b' \/ catalogValid b' = false).

Lemma shrinks_ok b b' : shrinks b b' -> wfStore (objs b) ->
  wfStore (objs b') /\ (catOk b -> catOk b').
Proof.
  intros [Hs Hc] Hwf. split; [by eapply wf_subset|]. intros Hok.
  destruct Hc as [Hc|Hc]; [by eapply catOk_subset|by apply catOk_invalid].
Qed.

Lemma DeleteBlob_shrinks d b : wp (DeleteBlob d) (fun _ b' => shrinks b b') b.
Proof.
  apply wp_bind, wp_lift. destruct (blobKey d) as [k|e]; [|by split; [|left]].
  apply wp_bind, wp_objStat. intros evs [n|e] _; [|by split; [|left]].
  apply wp_objDelete; [intros evs'; by split; [|left]|]. intros evs' r _.
  split; [apply delete_subseteq|by left].
Qed.

Lemma DeleteManifest_shrinks repo d b : wp (DeleteManifest repo d) (fun _ b' => shrinks b b') b.
Proof.
  apply wp_bind, wp_lift. destruct (ParseDigest d) as [[algo h]|e]; [|by split; [|left]].
  cbv zeta. apply wp_bind, wp_objStat. intros evs [n|e] _; [|by split; [|left]].
  apply wp_bind, wp_objDelete; [intros evs'; by split; [|left]|].
  intros evs' r [-> | ->]; (split; [apply delete_subseteq|]); [by left|by right].
Qed.

Lemma runOp_ok b eo : okOp eo -> wfStore (objs b) ->
  wfStore (objs (runOp b eo)) /\ (EvLost ∉ fst eo -> catOk b -> catOk (runOp b eo)).
Proof.
  destruct eo as [evs o]. unfold okOp, runOp. cbn [fst snd]. set (b0 := set_events evs b).
  intros Hop Hwf. change (wfStore (objs b0)) in Hwf. change (catOk b) with (catOk b0).
  destruct o as [c e|d|repo ref mt c|repo d| | |dt|].
  - apply (wp_PutBlob c e (fun _ b' => wfStore (objs b') /\ (EvLost ∉ evs -> catOk b0 -> catOk b')) b0); [done|..];
      [intros b' e' Hs Ho|intros b' Hs _ Ho _]; (split; [by eapply wf_addsBlob|]);
      intros; by eapply catOk_addsBlob.
  - destruct (shrinks_ok _ _ (DeleteBlob_shrinks d b0) Hwf). auto.
  - split; [by apply (PutManifest_wf repo ref mt c b0)|]. intros Hl Hc. by apply PutManifest_catOk.
  - destruct (shrinks_ok _ _ (DeleteManifest_shrinks repo d b0) Hwf). auto.
  - destruct (wp_Repos b0 Hwf) as (Ho & Hc & _). rewrite Ho. auto.
  - destruct (wp_GC unmarshal b0 Hwf) as [Hs Hc _ _]. split; [by eapply wf_subset|auto].
  - done.
  - split; [done|]. intros _ _. by apply catOk_invalid.
Qed.

Lemma session_ok ops b : Forall okOp ops -> wfStore (objs b) ->
  wfStore (objs (fold_left runOp ops b)) /\
  (Forall (fun eo => EvLost ∉ fst eo) ops -> catOk b -> catOk (fold_left runOp ops b)).
Proof.
  intros Hops. revert b. induction Hops as [|eo ops Ho _ IH]; intros b Hwf; [done|].
  destruct (runOp_ok b eo Ho Hwf) as [Hwf' Hc]. destruct (IH _ Hwf') as [H1 H2]. split; [done|].
  intros [Hl Hls]%Forall_cons_1 Hcat. apply H2; auto.
Qed.

Lemma blobAt_sha o d c : wfStore o -> blobAt o d = Some c -> d = sha256Digest c.
Proof.
  intros Hwf Hb. unfold blobAt in Hb. destruct (blobKey d) as [k|] eqn:Ek; [|done].
  apply blobKey_ok in Ek as (h & -> & Hh & ->). apply wf_lookup in Hb; [|done|done].
  cbn in Hb. by rewrite Hb.
Qed.

(** C33. After any sequence of pushes, deletes, collections, catalog queries and
    restarts, each under any failures and lost replies, every object sits under a
    key of the layout and every blob read back hashes to the digest it is read by;
    if no reply was lost, a cached catalog lists every repository with a marker. *)
Theorem session_integrity ops :
  Forall okOp ops ->
  let b := fold_left runOp ops (quiet ∅) in
  wfStore (objs b) /\
  (forall d c, blobAt (objs b) d = Some c -> d = sha256Digest c) /\
  (Forall (fun eo => EvLost ∉ fst eo) ops -> catOk b).
Proof.
  intros Hops b. destruct (session_ok ops (quiet ∅) Hops) as [Hwf Hc].
  { by intros k c E. }
  split; [done|]. split; [intros d c; by apply blobAt_sha|]. intros Hl. by apply Hc, catOk_invalid.
Qed.

End Session.

(** A decoder for the examples: "M" and then the digest of one layer. *)
Definition toyUnmarshal (data : bytes) : option gcManifest :=
  match data with
  | Byte.x4d :: d => Some (mkGcManifest [] [d] [] None)
  | _ => None
  end.
Definition toyManifest : bytes := go "M" ++ sha256Digest (go "layer").
Definition toyOps : list (list ev * op) :=
  [([], OpPutBlob (go "layer") []); ([], OpPutBlob (go "junk") []);
   ([EvOk; EvOk; EvOk; EvOk; EvFail], OpPutManifest (go "team/app") (go "v1") (go "mt") toyManifest);
   ([], OpPutManifest (go "team/app") (go "v1") (go "mt") toyManifest)].

Lemma toyOps_ok : Forall okOp toyOps.
Proof. repeat (apply List.Forall_cons; [first [done|right; split; discriminate]|]). apply List.Forall_nil. Qed.

Lemma toyOps_reliable : Forall (fun eo => EvLost ∉ fst eo) toyOps.
Proof. repeat (apply List.Forall_cons; [cbn; set_solver|]). apply List.Forall_nil. Qed.

Lemma session_integrity_witness :
  let b := fold_left (runOp toyUnmarshal) toyOps (quiet ∅) in
  Forall okOp toyOps /\ wfStore (objs b) /\ catOk b /\
  blobAt (objs b) (sha256Digest toyManifest) = Some toyManifest.
Proof.
  intros b. destruct (session_integrity toyUnmarshal toyOps toyOps_ok) as (H1 & _ & H3).
  split; [apply toyOps_ok|]. split; [exact H1|]. split; [|vm_compute; reflexivity].
  apply H3, toyOps_reliable.
Defined.

(** The store the examples below collect. *)
Definition toyStore : Backend := fold_left (runOp toyUnmarshal) toyOps (quiet ∅).

Lemma toyStore_ok : wfStore (objs toyStore) /\ catOk toyStore.
Proof.
  destruct (session_ok toyUnmarshal toyOps (quiet ∅) toyOps_ok) as [H1 H2].
  { by intros k c E. }
  split; [done|]. apply H2; [apply toyOps_reliable|by apply catOk_invalid].
Qed.

Lemma GC_safe_witness :
  let o' := objs (snd (GC toyUnmarshal toyStore)) in
  let d := sha256Digest toyManifest in
  pull (objs toyStore) (go "team/app") (go "v1") = Ok (toyManifest, d, go "mt") /\
  pull o' (go "team/app") (go "v1") = Ok (toyManifest, d, go "mt").
Proof.
  intros o' d. destruct toyStore_ok as [Hwf Hc].
  assert (Hp : pull (objs toyStore) (go "team/app") (go "v1") = Ok (toyManifest, d, go "mt"))
    by (vm_compute; reflexivity).
  split; [exact Hp|]. apply (GC_safe toyUnmarshal toyStore Hwf Hc); [|exact Hp].
  right; split; discriminate.
Defined.

Lemma GC_complete_witness :
  wfStore (objs toyStore) /\ events toyStore = [] /\
  is_ok (fst (GC toyUnmarshal toyStore)) = true /\
  blobAt (objs toyStore) (sha256Digest (go "junk")) = Some (go "junk").
Proof.
  destruct toyStore_ok as [Hwf Hc]. destruct (GC_complete toyUnmarshal toyStore Hwf) as (H & _ & _).
  assert (He : events toyStore = []) by (vm_compute; reflexivity).
  split_and!; [exact Hwf|exact He|exact (H He)|vm_compute; reflexivity].
Defined.

(** A push whose marker write was applied but whose reply was lost returns
    before dropping the cached catalog; a collection while that catalog is fresh
    then removes the content of a manifest that could be pulled. *)
Theorem lost_reply_sweeps_manifest :
  let ops := [([], OpRepos);
    ([EvOk; EvOk; EvOk; EvOk; EvLost], OpPutManifest (go "app") (go "v1") (go "mt") (go "{}"))] in
  let b := fold_left (runOp toyUnmarshal) ops (quiet ∅) in
  let d := sha256Digest (go "{}") in
  pull (objs b) (go "app") d = Ok (go "{}", d, go "mt") /\
  pull (objs (runOp toyUnmarshal b ([], OpGC))) (go "app") d = Err ErrNotFound.
Proof. split; vm_compute; reflexivity. Qed.
