(* ===== verification/StorageQuery.v ===== *)
(** * StorageQuery: what the registry's listings return

    The catalog, a repository's tags and the referrers of a subject, as functions
    of the stored objects. *)

From Stdlib Require Import ZArith Lia.
From Stdlib.Strings Require Import Byte.
From stdpp Require Import base list gmap sorting.
From S2P Require Import Prelude GoStd Storage StorageInv StorageWalk StorageGC StorageSession.
Open Scope Z_scope.

(** A catalog query that finds no fresh cached list walks the tree: it returns
    the sorted names of exactly the repositories that have a manifest marker, and
    caches a list that covers them; on a store without failures it always returns. *)
Theorem Repos_exact b :
  wfStore (objs b) -> cacheFresh b = false ->
  (events b = [] -> is_ok (fst (Repos b)) = true) /\
  forall l, fst (Repos b) = Ok l -> catalogOf (objs b) l /\ catOk (snd (Repos b)).
Proof.
  intros Hwf Hf. unfold Repos. rewrite Hf. destruct (wp_refreshCatalog b Hwf) as [Ho H]. split.
  - intros He. destruct (steady_Repos b He) as [_ Hn]. unfold Repos in Hn. rewrite Hf in Hn.
    destruct (fst (refreshCatalog _ b)) as [l|e]; [done|]. destruct H as [-> _]. done.
  - intros l E. by rewrite E in H.
Qed.

Lemma Repos_exact_witness :
  wfStore (objs toyStore) /\ cacheFresh toyStore = false /\
  fst (Repos toyStore) = Ok [go "team/app"] /\ catalogOf (objs toyStore) [go "team/app"].
Proof.
  destruct toyStore_ok as [Hwf _].
  assert (Hf : cacheFresh toyStore = false) by (vm_compute; reflexivity).
  assert (Hr : fst (Repos toyStore) = Ok [go "team/app"]) by (vm_compute; reflexivity).
  split_and!; [exact Hwf|exact Hf|exact Hr|apply (Repos_exact toyStore Hwf Hf); exact Hr..].
Defined.

(** ** Referrers *)

Section Referring.
Context (unmarshal : bytes -> option referrerManifest).

(** The descriptor of a stored manifest. *)
Definition describe (o : gmap bytes bytes) (repo h : bytes) (data : bytes) (m : referrerManifest) : Descriptor :=
  mkDescriptor
    (if bytes_eqb (rMediaType m) [] then
       match o !! keyOf (KMarker (repoSegs repo) h) with
       | Some raw => if bytes_eqb (trimSpace raw) [] then fallbackMediaType else trimSpace raw
       | None => fallbackMediaType
       end
     else rMediaType m)
    (go "sha256:" ++ h) (blen data)
    (if bytes_eqb (rArtifactType m) [] then rConfigMediaType m else rArtifactType m)
    (rAnnotations m).

(** The manifest with hash [h] refers to the subject. *)
Definition refersTo (o : gmap bytes bytes) (repo subject h : bytes) : option Descriptor :=
  match o !! keyOf (KBlob h) with
  | None => None
  | Some content =>
      let data := take_z gcManifestReadLimit content in
      match unmarshal data with
      | None => None
      | Some m => if bool_decide (rSubject m = Some subject) then Some (describe o repo h data m) else None
      end
  end.

Lemma referrersOf_quiet repo subject hexes b :
  events b = [] -> Forall hex64 hexes ->
  referrersOf unmarshal repo subject hexes b = (Ok (omap (refersTo (objs b) repo subject) hexes), b).
Proof.
  intros He. induction hexes as [|h hexes IH]; intros Hh; [done|].
  apply Forall_cons_1 in Hh as [Hh Hhs]. specialize (IH Hhs).
  cbn [referrersOf omap list_omap]. unfold refersTo at 1.
  unfold mbind, be_bind, stm_bind, attempt, GetBlob, lift, objGet, markerMediaType.
  unfold mbind, be_bind, stm_bind, attempt.
  rewrite blobKey_hex, call_healthy by done. unfold look at 1.
  destruct (objs b !! keyOf (KBlob h)) as [content|]; [|exact IH]. cbv zeta.
  destruct (unmarshal _) as [m|]; [|exact IH]. case_bool_decide; [|exact IH].
  unfold describe. rewrite manifestKey_kind by done.
  destruct (bytes_eqb (rMediaType m) []).
  - unfold objGet. rewrite call_healthy by done. unfold mret, be_ret, stm_ret. rewrite IH.
    unfold look. by destruct (objs b !! _).
  - unfold mret, be_ret, stm_ret. by rewrite IH.
Qed.

(** On a store without failures the referrers query returns one descriptor for
    every manifest of the repository whose subject is the given digest, and no
    others, with the media type and artifact type fallbacks of the OCI
    specification; a malformed subject is rejected. *)
Theorem Referrers_exact repo subject b :
  wfStore (objs b) -> events b = [] ->
  (isDigest subject = false -> is_ok (fst (Referrers unmarshal repo subject b)) = false) /\
  (isDigest subject = true -> exists ds, fst (Referrers unmarshal repo subject b) = Ok ds /\
     forall d, d ∈ ds <-> exists h, marked (objs b) (repoSegs repo) h /\
       refersTo (objs b) repo subject h = Some d).
Proof.
  intros Hwf He. unfold Referrers, isDigest. destruct (ParseDigest subject) as [r|e]; [|done].
  split; [done|]. intros _. pose proof (wp_manifestHexes repo b Hwf) as H.
  destruct (steady_manifestHexes repo b He) as [He' Hn]. unfold wp in H.
  unfold mbind, be_bind, stm_bind.
  destruct (manifestHexes repo b) as [[hs|e] b'] eqn:Eh; cbn [fst snd] in *;
    [|destruct H as [_ ->]; done].
  destruct H as [[evs ->] Hhs]. rewrite referrersOf_quiet; [|exact He'|].
  - eexists. split; [done|]. intros d. rewrite list_elem_of_omap.
    split; intros (h & Hin & Hd); exists h; [by rewrite <- Hhs|by rewrite Hhs].
  - apply Forall_forall. intros h Hin. by apply Hhs.
Qed.

End Referring.

(** A decoder for the example: "M" and then the digest of the subject. *)
Definition toyReferrer (data : bytes) : option referrerManifest :=
  match data with
  | Byte.x4d :: d => Some (mkReferrerManifest [] [] (go "cfg") (Some d) [])
  | _ => None
  end.

Lemma Referrers_exact_witness :
  wfStore (objs toyStore) /\ events toyStore = [] /\
  (exists ds, fst (Referrers toyReferrer (go "team/app") (sha256Digest (go "layer")) toyStore) = Ok ds) /\
  fst (Referrers toyReferrer (go "team/app") (sha256Digest (go "layer")) toyStore) =
    Ok [mkDescriptor (go "mt") (sha256Digest toyManifest) (blen toyManifest) (go "cfg") []].
Proof.
  destruct toyStore_ok as [Hwf _]. assert (He : events toyStore = []) by (vm_compute; reflexivity).
  split; [exact Hwf|]. split; [exact He|]. split; [|vm_compute; reflexivity].
  destruct (Referrers_exact toyReferrer (go "team/app") (sha256Digest (go "layer")) toyStore Hwf He)
    as [_ H]. destruct H as (ds & E & _); [vm_compute; reflexivity|]. by exists ds.
Defined.
