(* ===== verification/HealthEngine.v ===== *)
(** * HealthEngine: container health probes (pkg/deploy/healthengine)

    The healthcheck resolved into a plan, the probe loop of one instance, and the
    engine with its loops as a transition system: [Watch], [Unwatch], [StopAll] and
    the loops interleave at the points where the code waits, probes, or takes the
    mutex.  The loop is compared with Docker's health states, and the transition
    system gives what [State] can report. *)

From Stdlib Require Import ZArith Lia.
From Stdlib.Strings Require Import Byte.
From stdpp Require Import base list gmap sorting.
From S2P Require Import Prelude GoStd GoNum.
Open Scope Z_scope.

(** ** Plans *)

Definition StateStarting : bytes := go "starting".
Definition StateHealthy : bytes := go "healthy".
Definition StateUnhealthy : bytes := go "unhealthy".

Definition DefaultInterval : Z := 30000000000.
Definition DefaultTimeout : Z := 30000000000.
Definition DefaultRetries : Z := 3.

Record Healthcheck := mkHealthcheck {
  Test : list bytes; Interval : bytes; Timeout : bytes; StartPeriod : bytes;
  StartInterval : bytes; Retries : Z }.

Definition Disabled (h : Healthcheck) : bool :=
  match Test h with t :: _ => bytes_eqb t (go "NONE") | [] => false end.

Record plan := mkPlan {
  argv : list bytes; interval : Z; startInterval : Z; timeout : Z; startPeriod : Z; retries : Z }.

Definition upperByte (c : byte) : byte :=
  let v := Z_of_byte c in if (97 <=? v) && (v <=? 122) then byte_of_Z (v - 32) else c.

Definition argvFor (test : list bytes) : list bytes :=
  match test with
  | [] => []
  | t :: rest =>
      let u := map upperByte t in
      if bytes_eqb u (go "CMD") then rest
      else if bytes_eqb u (go "CMD-SHELL") then [go "/bin/sh"; go "-c"; join (go " ") rest]
      else if bytes_eqb u (go "NONE") then []
      else test
  end.

Definition dur (s : bytes) (def : Z) : Z :=
  if bytes_eqb s [] then def
  else match ParseDuration s with
       | Some d => if d <=? 0 then def else d
       | None => def
       end.

Definition resolve (hc : option Healthcheck) : option plan :=
  match hc with
  | None => None
  | Some hc =>
      if Disabled hc || bool_decide (Test hc = []) then None else
      let argv := argvFor (Test hc) in
      if bool_decide (argv = []) then None else
      Some (mkPlan argv (dur (Interval hc) DefaultInterval) (dur (StartInterval hc) 0)
              (dur (Timeout hc) DefaultTimeout) (dur (StartPeriod hc) 0)
              (if Retries hc <=? 0 then DefaultRetries else Retries hc))
  end.

(** ** One probe loop *)

Record loop := mkLoop { started : bool; fails : Z }.
Definition loop0 : loop := mkLoop false 0.

(** How long the loop waits before the next probe. *)
Definition waitFor (p : plan) (deadline now : Z) (l : loop) : Z :=
  if negb (started l) && (0 <? startInterval p) && (now <? deadline)
  then startInterval p else interval p.

(** What a probe that returned does: the locals, and the state to set, if any. *)
Definition afterProbe (p : plan) (deadline now : Z) (l : loop) (pass : bool) : loop * option bytes :=
  if pass then (mkLoop true 0, Some StateHealthy)
  else if negb (started l) && (now <? deadline) then (l, Some StateStarting)
  else let l' := mkLoop (started l) (fails l + 1) in
       (l', if retries p <=? fails l' then Some StateUnhealthy else None).

(** ** The engine and its goroutines *)

(** A cancel func is its context's identity. *)
Record Engine := mkEngine { watchers : gmap bytes nat; states : gmap bytes bytes }.

Inductive pc := Spawned | Sleeping (until : Z) | Probing | Returned (pass : bool) | Exited.

Record proc := mkProc { inst : bytes; pplan : plan; deadline : Z; locals : loop; at_ : pc }.

Record world := mkWorld {
  eng : Engine; procs : gmap nat proc; cancelled : gset nat; clock : Z;
  plog : list (nat * (Z * bool))  (** the probes counted so far, latest first *) }.

Definition set_eng (e : Engine) (w : world) : world :=
  mkWorld e (procs w) (cancelled w) (clock w) (plog w).
Definition cancel (ts : gset nat) (w : world) : world :=
  mkWorld (eng w) (procs w) (ts ∪ cancelled w) (clock w) (plog w).
Definition set_proc (t : nat) (pr : proc) (w : world) : world :=
  mkWorld (eng w) (<[t := pr]> (procs w)) (cancelled w) (clock w) (plog w).

Definition Unwatch (id : bytes) (w : world) : world :=
  let e := eng w in
  let w := match watchers e !! id with Some t => cancel {[t]} w | None => w end in
  set_eng (mkEngine (delete id (watchers e)) (delete id (states e))) w.

(** [fresh] is the context created by this call. *)
Definition Watch (fresh : nat) (id : bytes) (hc : option Healthcheck) (w : world) : world :=
  match resolve hc with
  | None => Unwatch id w
  | Some p =>
      let e := eng w in
      let w := match watchers e !! id with Some t => cancel {[t]} w | None => w end in
      let w := set_eng (mkEngine (<[id := fresh]> (watchers e)) (<[id := StateStarting]> (states e))) w in
      set_proc fresh (mkProc id p 0 loop0 Spawned) w
  end.

Definition StopAll (w : world) : world :=
  let e := eng w in
  set_eng (mkEngine ∅ ∅) (cancel (list_to_set (map snd (map_to_list (watchers e)))) w).

Definition State (id : bytes) (w : world) : bytes := default [] (states (eng w) !! id).

Definition setState (id s : bytes) (e : Engine) : Engine :=
  match watchers e !! id with
  | Some _ => mkEngine (watchers e) (<[id := s]> (states e))
  | None => e
  end.

(** The end of an iteration: the outcome is recorded, and the loop goes back to
    waiting. *)
Definition decide_ (t : nat) (pr : proc) (pass : bool) (w : world) : world :=
  let (l, s) := afterProbe (pplan pr) (deadline pr) (clock w) (locals pr) pass in
  let e := match s with Some s => setState (inst pr) s (eng w) | None => eng w end in
  let until := clock w + waitFor (pplan pr) (deadline pr) (clock w) l in
  mkWorld e (<[t := mkProc (inst pr) (pplan pr) (deadline pr) l (Sleeping until)]> (procs w))
    (cancelled w) (clock w) ((t, (clock w, pass)) :: plog w).

Inductive label :=
| LWatch (fresh : nat) (id : bytes) (hc : option Healthcheck)
| LUnwatch (id : bytes)
| LStopAll
| LTick (dt : Z)
| LStart (t : nat)                (** the goroutine begins and reads its deadline *)
| LWake (t : nat)                 (** the timer fires *)
| LDone (t : nat)                 (** [ctx.Done()] is received while waiting *)
| LProbe (t : nat) (pass : bool)  (** the probe returns, and [ctx.Err()] is read *)
| LSet (t : nat).                 (** the outcome is recorded *)

Definition move (t : nat) (pr : proc) (a : pc) (w : world) : world :=
  set_proc t (mkProc (inst pr) (pplan pr) (deadline pr) (locals pr) a) w.

Definition step (l : label) (w : world) : option world :=
  match l with
  | LWatch fresh id hc =>
      if bool_decide (procs w !! fresh = None /\ fresh ∉ cancelled w) then Some (Watch fresh id hc w) else None
  | LUnwatch id => Some (Unwatch id w)
  | LStopAll => Some (StopAll w)
  | LTick dt => if 0 <=? dt
                then Some (mkWorld (eng w) (procs w) (cancelled w) (clock w + dt) (plog w)) else None
  | LStart t =>
      pr ← procs w !! t;
      match at_ pr with
      | Spawned =>
          let dl := clock w + startPeriod (pplan pr) in
          Some (set_proc t (mkProc (inst pr) (pplan pr) dl loop0
            (Sleeping (clock w + waitFor (pplan pr) dl (clock w) loop0))) w)
      | _ => None
      end
  | LWake t =>
      pr ← procs w !! t;
      match at_ pr with
      | Sleeping until => if until <=? clock w then Some (move t pr Probing w) else None
      | _ => None
      end
  | LDone t =>
      pr ← procs w !! t;
      match at_ pr with
      | Sleeping _ => if bool_decide (t ∈ cancelled w) then Some (move t pr Exited w) else None
      | _ => None
      end
  | LProbe t pass =>
      pr ← procs w !! t;
      match at_ pr with
      | Probing => Some (move t pr (if bool_decide (t ∈ cancelled w) then Exited else Returned pass) w)
      | _ => None
      end
  | LSet t =>
      pr ← procs w !! t;
      match at_ pr with Returned pass => Some (decide_ t pr pass w) | _ => None end
  end.

Fixpoint run (ls : list label) (w : world) : option world :=
  match ls with
  | [] => Some w
  | l :: ls => w' ← step l w; run ls w'
  end.

Definition NewEngine (now : Z) : world := mkWorld (mkEngine ∅ ∅) ∅ ∅ now [].

(** ** Docker's health states *)

(** The state after a history of probes, in order, each with the time it was
    counted at: before the first success failures count only past the start
    period; after it, the failures since the last success count. *)
Definition failed (e : Z * bool) : bool := negb (snd e).
Definition counts (dl : Z) (e : Z * bool) : bool := failed e && (dl <=? fst e).

Fixpoint failuresSince (latestFirst : list (Z * bool)) : Z :=
  match latestFirst with
  | e :: es => if failed e then failuresSince es + 1 else 0
  | [] => 0
  end.

Definition dockerState (retries dl : Z) (hist : list (Z * bool)) : bytes :=
  if existsb snd hist then
    if failuresSince (rev hist) <? retries then StateHealthy else StateUnhealthy
  else if blen (filter (fun e => counts dl e = true) hist) <? retries then StateStarting
  else StateUnhealthy.

(** The loop on the same history. *)
Definition runProbe (p : plan) (dl : Z) (ls : loop * bytes) (e : Z * bool) : loop * bytes :=
  let (l, s) := afterProbe p dl (fst e) (fst ls) (snd e) in (l, default (snd ls) s).
Definition runLoop (p : plan) (dl : Z) (hist : list (Z * bool)) : loop * bytes :=
  fold_left (runProbe p dl) hist (loop0, StateStarting).

(** Times do not decrease. *)
Definition ordered (hist : list (Z * bool)) : Prop := StronglySorted (fun e e' => fst e <= fst e') hist.

Definition count (dl : Z) (hist : list (Z * bool)) : Z :=
  blen (filter (fun e => counts dl e = true) hist).

Lemma count_snoc dl hist e : count dl (hist ++ [e]) = count dl hist + (if counts dl e then 1 else 0).
Proof.
  unfold count, blen. rewrite filter_app, length_app. simpl. destruct (counts dl e) eqn:E.
  - rewrite filter_cons_True by done. simpl. lia.
  - rewrite filter_cons_False by (by rewrite E). simpl. lia.
Qed.

Lemma existsb_snoc (hist : list (Z * bool)) e : existsb snd (hist ++ [e]) = existsb snd hist || snd e.
Proof. rewrite existsb_app. simpl. by rewrite orb_false_r. Qed.

(** The loop's locals, from the history. *)
Lemma runLoop_locals p dl hist :
  started (fst (runLoop p dl hist)) = existsb snd hist /\
  fails (fst (runLoop p dl hist)) = if existsb snd hist then failuresSince (rev hist) else count dl hist.
Proof.
  induction hist as [|e hist IH] using rev_ind; [done|].
  unfold runLoop in *. rewrite fold_left_app, existsb_snoc, rev_unit, count_snoc. cbn [fold_left].
  destruct (fold_left (runProbe p dl) hist _) as [l s]. cbn [fst] in *. destruct IH as [IH1 IH2].
  unfold runProbe, afterProbe. destruct e as [t pass]. cbn [fst snd]. destruct pass.
  - cbn. by rewrite orb_true_r.
  - rewrite orb_false_r, IH1. cbn [failuresSince failed snd negb]. unfold counts. cbn [failed fst snd negb andb].
    destruct (existsb snd hist); cbn [negb andb].
    + split; [done|]. cbn. by rewrite IH2.
    + destruct (Z.ltb_spec t dl), (Z.leb_spec dl t); try lia; cbn; (split; [done|lia]).
Qed.

Lemma count_early dl hist : (forall e, e ∈ hist -> fst e < dl) -> count dl hist = 0.
Proof.
  intros H. unfold count. induction hist as [|e hist IH]; [done|].
  rewrite filter_cons_False; [apply IH; intros e' He'; apply H; by right|].
  specialize (H e ltac:(by left)). unfold counts. destruct (Z.leb_spec dl (fst e)); [lia|].
  by rewrite andb_false_r.
Qed.

Lemma runLoop_state p dl hist : 1 <= retries p -> ordered hist ->
  snd (runLoop p dl hist) = dockerState (retries p) dl hist.
Proof.
  intros Hr. induction hist as [|e hist IH] using rev_ind; intros Ho.
  { unfold dockerState. cbn [existsb]. change (blen (filter _ [])) with 0.
    by destruct (Z.ltb_spec 0 (retries p)); [|lia]. }
  assert (Hlast : forall e', e' ∈ hist -> fst e' <= fst e).
  { intros e' Hin.
    exact (StronglySorted_app_1_elem_of (fun e e' => fst e <= fst e') hist [e] e' e Ho Hin ltac:(by left)). }
  specialize (IH (StronglySorted_app_1_l _ _ _ Ho)).
  destruct (runLoop_locals p dl hist) as [H1 H2].
  unfold runLoop in *. rewrite fold_left_app. cbn [fold_left].
  destruct (fold_left (runProbe p dl) hist _) as [l s]. cbn [fst snd] in *. subst s.
  unfold runProbe, afterProbe, dockerState. rewrite existsb_snoc, rev_unit.
  fold (count dl hist). fold (count dl (hist ++ [e])). rewrite count_snoc.
  destruct e as [t pass]. cbn [fst snd] in *. destruct pass.
  { rewrite orb_true_r. cbn [failuresSince failed snd negb]. by destruct (Z.ltb_spec 0 (retries p)); [|lia]. }
  rewrite orb_false_r, H1. unfold counts. cbn [failuresSince failed fst snd negb andb].
  destruct (existsb snd hist); cbn [negb andb].
  - cbn [fails snd]. rewrite H2.
    destruct (Z.ltb_spec (failuresSince (rev hist)) (retries p)),
      (Z.ltb_spec (failuresSince (rev hist) + 1) (retries p)),
      (Z.leb_spec (retries p) (failuresSince (rev hist) + 1)); try lia; done.
  - destruct (Z.ltb_spec t dl); cbn [snd default].
    + rewrite count_early by (intros e' He'; specialize (Hlast e' He'); lia).
      destruct (Z.leb_spec dl t); [lia|]. by destruct (Z.ltb_spec (0 + 0) (retries p)); [|lia].
    + cbn [fails snd]. rewrite H2. destruct (Z.leb_spec dl t); [|lia].
      destruct (Z.ltb_spec (count dl hist) (retries p)), (Z.ltb_spec (count dl hist + 1) (retries p)),
        (Z.leb_spec (retries p) (count dl hist + 1)); try lia; done.
Qed.

Lemma resolve_retries hc p : resolve hc = Some p -> 1 <= retries p.
Proof.
  destruct hc as [hc|]; [|done]. unfold resolve. destruct (_ || _); [done|]. cbv zeta.
  destruct (bool_decide _); [done|]. intros [= <-]. cbn [retries].
  destruct (Z.leb_spec (Retries hc) 0); unfold DefaultRetries; lia.
Qed.

(** Whatever healthcheck is resolved, the probe loop reports Docker's health
    state of its probe history: starting until a success or enough failures past
    the start period, then healthy until enough failures in a row. *)
Theorem probe_loop_docker hc p dl hist :
  resolve hc = Some p -> ordered hist ->
  snd (runLoop p dl hist) = dockerState (retries p) dl hist.
Proof. intros H. apply runLoop_state. by eapply resolve_retries. Qed.

Definition exampleCheck : Healthcheck :=
  mkHealthcheck [go "CMD"; go "curl"; go "localhost"] (go "1s") [] (go "10s") [] 2.

Lemma probe_loop_docker_witness :
  exists p, resolve (Some exampleCheck) = Some p /\
    snd (runLoop p 10 [(1, false); (2, false); (3, true); (4, false); (5, false)]) = StateUnhealthy.
Proof.
  eexists. split; [vm_compute; reflexivity|].
  erewrite (probe_loop_docker (Some exampleCheck)); [vm_compute; reflexivity|vm_compute; reflexivity|].
  repeat (constructor; [|repeat (constructor; [cbn; lia|]); constructor]). constructor.
Defined.

(** ** What the engine reports *)

(** The probes of one loop, in order. *)
Definition probesOf (t : nat) (w : world) : list (Z * bool) :=
  rev (map snd (filter (fun e => fst e = t) (plog w))).

(** No other loop was ever started for the instance. *)
Definition sole (w : world) (id : bytes) (t : nat) : Prop :=
  forall t' pr', procs w !! t' = Some pr' -> inst pr' = id -> t' = t.

Definition report (t : nat) (pr : proc) (w : world) : loop * bytes :=
  runLoop (pplan pr) (deadline pr) (probesOf t w).

Record wInv (w : world) : Prop := {
  wi_dom : forall id, is_Some (states (eng w) !! id) <-> is_Some (watchers (eng w) !! id);
  wi_vals : forall id s, states (eng w) !! id = Some s -> s <> [];
  wi_watch : forall id t, watchers (eng w) !! id = Some t ->
    exists pr, procs w !! t = Some pr /\ inst pr = id;
  wi_proc : forall t pr, procs w !! t = Some pr ->
    1 <= retries (pplan pr) /\ locals pr = fst (report t pr w) /\ (at_ pr = Spawned -> probesOf t w = []);
  wi_log : forall t, ordered (probesOf t w) /\ forall e, e ∈ probesOf t w -> fst e <= clock w;
  wi_new : forall t, procs w !! t = None -> probesOf t w = [];
  wi_state : forall id t pr, watchers (eng w) !! id = Some t -> procs w !! t = Some pr -> sole w id t ->
    states (eng w) !! id = Some (snd (report t pr w)) }.

Lemma wInv_NewEngine now : wInv (NewEngine now).
Proof.
  split; cbn; try done.
  - intros id. rewrite !lookup_empty. split; by intros [].
  - intros t. split; [constructor|]. intros e H. by apply elem_of_nil in H.
Qed.

(** Steps that change one process without touching its loop variables, or nothing
    the invariant reads. *)
Lemma wInv_proc w t pr pr' :
  wInv w -> procs w !! t = Some pr -> inst pr' = inst pr -> pplan pr' = pplan pr -> at_ pr' <> Spawned ->
  locals pr' = locals pr -> deadline pr' = deadline pr \/ probesOf t w = [] ->
  wInv (set_proc t pr' w).
Proof.
  intros [H1 H2 H3 H4 H5 H6 H7] Hp Ei Ep Hs El Hd.
  assert (Er : report t pr' w = report t pr w).
  { unfold report. rewrite Ep. destruct Hd as [-> | ->]; done. }
  split; cbn [set_proc eng procs clock]; [done|done| | |done| |].
  - intros id t0 Hw. destruct (H3 id t0 Hw) as (pr0 & E0 & I0).
    destruct (decide (t0 = t)) as [-> |Hne]; [exists pr'|exists pr0].
    + rewrite lookup_insert_eq. split; [done|]. congruence.
    + by rewrite lookup_insert_ne.
  - intros t0 pr0. rewrite lookup_insert_Some. intros [[<- <-]|[Hne E0]]; [|by apply H4].
    destruct (H4 _ _ Hp) as (? & ? & _). rewrite Ep, El.
    change (report t pr' (set_proc t pr' w)) with (report t pr' w). rewrite Er. split_and!; [done..|].
    by intros.
  - intros t0. rewrite lookup_insert_None. intros [E0 _]. by apply H6.
  - intros id t0 pr0 Hw. rewrite lookup_insert_Some. intros Hpr Hsole.
    assert (Hsole' : sole w id t0).
    { intros t1 pr1 E1 I1. destruct (decide (t1 = t)) as [-> |Hne].
      - apply (Hsole t pr'); [cbn; apply lookup_insert_eq|]. congruence.
      - apply (Hsole t1 pr1); [cbn; by rewrite lookup_insert_ne|done]. }
    destruct Hpr as [[<- <-]|[Hne E0]].
    + change (report t pr' (set_proc t pr' w)) with (report t pr' w). rewrite Er. by apply H7.
    + by apply H7.
Qed.

Lemma wInv_move w t pr a :
  wInv w -> procs w !! t = Some pr -> a <> Spawned -> wInv (move t pr a w).
Proof.
  intros Hw Hp Ha. eapply wInv_proc; [done|exact Hp|done|done|exact Ha|done|by left].
Qed.

Lemma wInv_cancel ts w : wInv w -> wInv (cancel ts w).
Proof. intros []. by split. Qed.

(** Forgetting some of the watched instances. *)
Lemma wInv_restrict w e :
  wInv w ->
  (forall id, is_Some (states e !! id) <-> is_Some (watchers e !! id)) ->
  watchers e ⊆ watchers (eng w) -> states e ⊆ states (eng w) -> wInv (set_eng e w).
Proof.
  intros [H1 H2 H3 H4 H5 H6 H7] Hd Hw Hs. split; cbn [set_eng eng procs clock]; [done| | |done|done|done|].
  - intros id s E. eapply H2, lookup_weaken; eassumption.
  - intros id t E. eapply H3, lookup_weaken; eassumption.
  - intros id t pr E Hp Hsole. destruct (proj2 (Hd id)) as [s Es]; [by eexists|]. rewrite Es.
    eapply lookup_weaken in Es; [|exact Hs]. rewrite <- Es. apply (H7 id t pr); [|done|done].
    by eapply lookup_weaken.
Qed.

Lemma eng_cancel_opt (o : option nat) w :
  eng (match o with Some t => cancel {[t]} w | None => w end) = eng w.
Proof. by destruct o. Qed.

Lemma wInv_cancel_opt (o : option nat) w :
  wInv w -> wInv (match o with Some t => cancel {[t]} w | None => w end).
Proof. destruct o; [apply wInv_cancel|done]. Qed.

Lemma wInv_Unwatch id w : wInv w -> wInv (Unwatch id w).
Proof.
  intros Hw. unfold Unwatch. apply wInv_restrict; cbn [watchers states].
  - by apply wInv_cancel_opt.
  - intros id'. destruct (decide (id' = id)) as [-> |Hne].
    + rewrite !lookup_delete_eq. split; by intros [].
    + rewrite !lookup_delete_ne by done. apply (wi_dom _ Hw).
  - rewrite eng_cancel_opt. apply delete_subseteq.
  - rewrite eng_cancel_opt. apply delete_subseteq.
Qed.

Lemma wInv_StopAll w : wInv w -> wInv (StopAll w).
Proof.
  intros Hw. apply wInv_restrict; [by apply wInv_cancel| |apply map_empty_subseteq..].
  intros id. cbn. rewrite !lookup_empty. split; by intros [].
Qed.

Lemma wInv_Watch t id hc w :
  wInv w -> procs w !! t = None -> wInv (Watch t id hc w).
Proof.
  intros Hw Ht. unfold Watch. destruct (resolve hc) as [p|] eqn:Er; [|by apply wInv_Unwatch].
  apply resolve_retries in Er. apply (wInv_cancel_opt (watchers (eng w) !! id)) in Hw as Hw'.
  pose proof (eng_cancel_opt (watchers (eng w) !! id) w) as Ee.
  set (w1 := match _ with Some _ => _ | None => w end) in *.
  assert (Ep : procs w1 = procs w) by (subst w1; by destruct (watchers (eng w) !! id)).
  rewrite <- Ep in Ht. clearbody w1. rewrite <- Ee. clear Ee Ep Hw w.
  destruct Hw' as [H1 H2 H3 H4 H5 H6 H7].
  split; cbn [set_eng set_proc eng procs clock watchers states]; cbv zeta; [| | | |done| |].
  - intros id'. rewrite !lookup_insert_is_Some'. by rewrite H1.
  - intros id' s. rewrite lookup_insert_Some. intros [[<- <-]|[_ E]]; [done|by eapply H2].
  - intros id' t'. rewrite lookup_insert_Some. intros [[<- <-]|[Hne E]].
    + eexists. split; [apply lookup_insert_eq|done].
    + destruct (H3 id' t' E) as (pr & Ep & Ei). exists pr. split; [|done].
      rewrite lookup_insert_ne; [done|]. intros ->. congruence.
  - intros t' pr'. rewrite lookup_insert_Some. intros [[<- <-]|[Hne E]]; [|by apply H4].
    cbn [pplan locals deadline at_]. unfold report. cbn [pplan deadline].
    change (probesOf t (set_proc _ _ _)) with (probesOf t w1).
    rewrite (H6 t Ht). done.
  - intros t'. rewrite lookup_insert_None. intros [E _]. by apply H6.
  - intros id' t' pr' Hw Hp Hsole. rewrite lookup_insert_Some in Hw. destruct Hw as [[<- <-]|[Hne E]].
    + rewrite lookup_insert_eq in Hp. rewrite lookup_insert_eq. injection Hp as <-. unfold report. cbn [pplan deadline].
      change (probesOf t (set_proc _ _ _)) with (probesOf t w1). by rewrite (H6 t Ht).
    + rewrite lookup_insert_ne by done. rewrite lookup_insert_ne in Hp by (intros ->; destruct (H3 _ _ E) as (? & ? & _); congruence).
      apply (H7 id' t' pr' E Hp). intros t1 pr1 E1 I1. apply (Hsole t1 pr1); [|done].
      cbn. rewrite lookup_insert_ne; [done|]. intros ->. congruence.
Qed.

Lemma probesOf_decide t pr pass w t' :
  probesOf t' (decide_ t pr pass w) =
  probesOf t' w ++ (if decide (t' = t) then [(clock w, pass)] else []).
Proof.
  unfold probesOf, decide_. destruct (afterProbe _ _ _ _ _) as [l s]. cbn [plog].
  case_decide as H.
  - subst. rewrite filter_cons_True by done. done.
  - rewrite filter_cons_False by (cbn; congruence). by rewrite app_nil_r.
Qed.

Lemma afterProbe_ne p dl now l pass s : snd (afterProbe p dl now l pass) = Some s -> s <> [].
Proof.
  unfold afterProbe. destruct pass; [by intros [= <-]|]. destruct (_ && _); [by intros [= <-]|].
  cbv zeta. cbn [snd]. destruct (_ <=? _); [by intros [= <-]|done].
Qed.

Lemma setState_lookup id s e id' :
  watchers (setState id s e) = watchers e /\
  states (setState id s e) !! id' =
    if decide (id' = id /\ is_Some (watchers e !! id)) then Some s else states e !! id'.
Proof.
  unfold setState. destruct (watchers e !! id) as [t|] eqn:E; (split; [done|]).
  - case_decide as H; cbn [states].
    + destruct H as [-> _]. apply lookup_insert_eq.
    + rewrite lookup_insert_ne; [done|]. intros ->. apply H. eauto.
  - case_decide as H; [by destruct H as [_ []]|done].
Qed.

Lemma runLoop_snoc p dl hist e : runLoop p dl (hist ++ [e]) = runProbe p dl (runLoop p dl hist) e.
Proof. unfold runLoop. by rewrite fold_left_app. Qed.

Section Decide.
Context (t : nat) (pr : proc) (pass : bool) (w : world).
Context (Hw : wInv w) (Hp : procs w !! t = Some pr).
Let w' := decide_ t pr pass w.
Let ls := afterProbe (pplan pr) (deadline pr) (clock w) (locals pr) pass.
Let pr' := mkProc (inst pr) (pplan pr) (deadline pr) (fst ls)
  (Sleeping (clock w + waitFor (pplan pr) (deadline pr) (clock w) (fst ls))).

Lemma decide_fields :
  procs w' = <[t := pr']> (procs w) /\ clock w' = clock w /\ watchers (eng w') = watchers (eng w) /\
  forall id, states (eng w') !! id =
    match snd ls with
    | Some s => if decide (id = inst pr /\ is_Some (watchers (eng w) !! id)) then Some s
                else states (eng w) !! id
    | None => states (eng w) !! id
    end.
Proof.
  subst w' pr'. unfold decide_. fold ls. destruct ls as [l [s|]]; cbn [procs clock eng fst snd]; [|done].
  split_and!; [done|done|apply (setState_lookup (inst pr) s (eng w) [])|].
  intros id. destruct (setState_lookup (inst pr) s (eng w) id) as [_ ->].
  repeat case_decide; try done; naive_solver.
Qed.

Lemma decide_report : report t pr' w' = (fst ls, default (snd (report t pr w)) (snd ls)).
Proof.
  destruct (wi_proc _ Hw t pr Hp) as (_ & Hl & _). unfold report, w', pr'. cbn [pplan deadline].
  rewrite probesOf_decide, decide_True by done. rewrite runLoop_snoc. unfold runProbe. cbn [fst snd].
  unfold report in Hl. rewrite <- Hl. fold ls. by destruct ls.
Qed.

Lemma sole_decide id t' : sole w' id t' -> sole w id t'.
Proof.
  destruct decide_fields as (Ep & _). intros H t1 pr1 E1 I1.
  destruct (decide (t1 = t)) as [-> |Hne].
  - apply (H t pr'); [rewrite Ep; apply lookup_insert_eq|]. cbn. congruence.
  - apply (H t1 pr1); [by rewrite Ep, lookup_insert_ne|done].
Qed.

Lemma report_other t1 pr1 : t1 <> t -> report t1 pr1 w' = report t1 pr1 w.
Proof. intros Hne. unfold report, w'. by rewrite probesOf_decide, decide_False, app_nil_r by done. Qed.

Lemma wInv_decide : wInv w'.
Proof.
  destruct decide_fields as (Ep & Ec & Ew & Es). destruct (Hw) as [H1 H2 H3 H4 H5 H6 H7].
  split; rewrite ?Ep, ?Ec, ?Ew.
  - intros id. rewrite Es. destruct (snd ls); [case_decide as Hd|]; rewrite <- ?H1; [|done|done].
    destruct Hd as [-> Hd]. rewrite H1. naive_solver.
  - intros id s. rewrite Es. destruct (snd ls) eqn:El; [case_decide|]; [|by apply H2..].
    intros [= <-]. by eapply afterProbe_ne.
  - intros id t1 E. destruct (H3 id t1 E) as (p1 & Ep1 & Ei).
    destruct (decide (t1 = t)) as [-> |Hne]; [exists pr'|exists p1].
    + rewrite lookup_insert_eq. split; [done|]. cbn. congruence.
    + by rewrite lookup_insert_ne.
  - intros t1 p1. rewrite lookup_insert_Some. intros [[<- <-]|[Hne E]].
    + rewrite decide_report. by destruct (H4 _ _ Hp).
    + rewrite report_other by done. destruct (H4 _ _ E) as (? & ? & Hs). split_and!; [done..|].
      intros Ha. unfold w'. rewrite probesOf_decide, decide_False, app_nil_r by done. by apply Hs.
  - intros t1. unfold w'. rewrite probesOf_decide. destruct (H5 t1) as [Ho Hc].
    case_decide; [|by rewrite app_nil_r]. split.
    + apply StronglySorted_app_2; [|done|by repeat constructor].
      intros e1 e2 He1 ->%list_elem_of_singleton. cbn. by apply Hc.
    + intros e [He| ->%list_elem_of_singleton]%elem_of_app; [by apply Hc|done].
  - intros t1. rewrite lookup_insert_None. intros [E Hne]. unfold w'.
    rewrite probesOf_decide, decide_False, app_nil_r by done. by apply H6.
  - intros id t1 p1 E. rewrite lookup_insert_Some. intros Hpr Hsole. apply sole_decide in Hsole.
    rewrite Es. destruct (H3 id t1 E) as (p0 & Ep0 & Ei0). destruct Hpr as [[<- <-]|[Hne E1]].
    + rewrite decide_report. cbn [snd]. assert (p0 = pr) as -> by congruence.
      destruct (snd ls); cbn [default]; [rewrite decide_True; [done|]|by apply H7].
      split; [done|by eexists].
    + rewrite report_other by done. rewrite <- (H7 id t1 p1) by done.
      destruct (snd ls); [|done]. rewrite decide_False; [done|]. intros [-> _].
      by apply Hne, (Hsole t pr).
Qed.
End Decide.

Lemma wInv_step l w w' : wInv w -> step l w = Some w' -> wInv w'.
Proof.
  intros Hw. destruct l as [f id hc|id| |dt|t|t|t|t pass|t]; cbn [step].
  - case_bool_decide as H; [|done]. intros [= <-]. by apply wInv_Watch; [|apply H].
  - intros [= <-]. by apply wInv_Unwatch.
  - intros [= <-]. by apply wInv_StopAll.
  - destruct (Z.leb_spec 0 dt); [|done]. intros [= <-]. destruct Hw as [? ? ? ? H5 ? ?]. split; try done.
    intros t. destruct (H5 t) as [Ho Hc]. split; [done|]. cbn. intros e He. specialize (Hc e He). lia.
  - destruct (procs w !! t) as [pr|] eqn:E; [|done]. cbn.
    destruct (at_ pr) eqn:Ea; try done. intros [= <-].
    destruct (wi_proc _ Hw t pr E) as (_ & Hl & Hs). specialize (Hs Ea).
    eapply wInv_proc; [done|exact E|done|done|done| |by right].
    cbn [locals]. rewrite Hl. unfold report. by rewrite Hs.
  - destruct (procs w !! t) as [pr|] eqn:E; [|done]. cbn.
    destruct (at_ pr); try done. destruct (_ <=? _); [|done]. intros [= <-]. by apply wInv_move.
  - destruct (procs w !! t) as [pr|] eqn:E; [|done]. cbn.
    destruct (at_ pr); try done. case_bool_decide; [|done]. intros [= <-]. by apply wInv_move.
  - destruct (procs w !! t) as [pr|] eqn:E; [|done]. cbn.
    destruct (at_ pr); try done. intros [= <-]. apply wInv_move; [done..|]. by case_bool_decide.
  - destruct (procs w !! t) as [pr|] eqn:E; [|done]. cbn.
    destruct (at_ pr); try done. intros [= <-]. by apply wInv_decide.
Qed.

Lemma wInv_run ls w w' : wInv w -> run ls w = Some w' -> wInv w'.
Proof.
  revert w. induction ls as [|l ls IH]; intros w Hw; [by intros [= <-]|]. cbn.
  destruct (step l w) as [w1|] eqn:E; [|done]. cbn. by apply IH; eapply wInv_step.
Qed.

(** In every interleaving of watches, unwatches, stops and probe loops, an
    instance has a reported state exactly while it is watched (a probe that returns
    after an unwatch reports nothing), and the state of an instance for which only
    one loop was started is Docker's state of that loop's probe history. *)
Theorem engine_reports_docker now ls w :
  run ls (NewEngine now) = Some w ->
  forall id,
    (State id w = [] <-> watchers (eng w) !! id = None) /\
    forall t pr, watchers (eng w) !! id = Some t -> procs w !! t = Some pr -> sole w id t ->
      State id w = dockerState (retries (pplan pr)) (deadline pr) (probesOf t w).
Proof.
  intros Hr id. pose proof (wInv_run _ _ _ (wInv_NewEngine now) Hr) as Hw. unfold State. split.
  - pose proof (wi_dom _ Hw id) as Hd. pose proof (wi_vals _ Hw id) as Hv.
    destruct (states (eng w) !! id) as [s|].
    + change (default [] (Some s)) with s. split; [intros ->; by destruct (Hv [] eq_refl)|]. intros E. rewrite E in Hd.
      destruct (proj1 Hd) as [? ?]; [by eexists|done].
    + split; [|done]. intros _. destruct (watchers (eng w) !! id); [|done].
      destruct (proj2 Hd) as [? ?]; [by eexists|done].
  - intros t pr E Hp Hs. rewrite (wi_state _ Hw id t pr E Hp Hs).
    apply runLoop_state; [by destruct (wi_proc _ Hw t pr Hp)|apply (wi_log _ Hw)].
Qed.

Definition sec : Z := 1000000000.
Definition exampleRun : list label :=
  [LWatch 0 (go "web-1") (Some exampleCheck); LStart 0; LTick sec; LWake 0; LProbe 0 true; LSet 0].

(** What the world shows of an instance and a loop. *)
Definition shows (id : bytes) (t : nat) (w : world) : option nat * list (Z * bool) * bytes :=
  (watchers (eng w) !! id, probesOf t w, State id w).

Lemma engine_reports_docker_witness :
  option_map (shows (go "web-1") 0) (run exampleRun (NewEngine 0)) =
    Some (Some 0%nat, [(sec, true)], StateHealthy) /\
  match run exampleRun (NewEngine 0) with
  | Some w => State (go "web-2") w = [] <-> watchers (eng w) !! go "web-2" = None
  | None => False
  end.
Proof.
  assert (E1 : option_map (shows (go "web-1") 0) (run exampleRun (NewEngine 0)) =
    Some (Some 0%nat, [(sec, true)], StateHealthy)) by (vm_compute; reflexivity).
  split; [exact E1|]. destruct (run exampleRun (NewEngine 0)) as [w|] eqn:E; [|discriminate E1].
  apply (engine_reports_docker 0 exampleRun w E).
Defined.

(** A loop replaced by a new [Watch] of the same instance after it read its
    context still writes its outcome: the new loop's instance is reported healthy
    before any probe of it ran. *)
Theorem Watch_replaced_loop_writes :
  let ls := removelast exampleRun ++ [LWatch 1 (go "web-1") (Some exampleCheck); LSet 0] in
  option_map (shows (go "web-1") 1) (run ls (NewEngine 0)) = Some (Some 1%nat, [], StateHealthy).
Proof. vm_compute. reflexivity. Qed.
