(* ===== verification/Interpolate.v ===== *)
(** * Interpolate: variable expansion and env files (pkg/compose/interpolate.go)

    [$VAR], [${VAR}] and the [${VAR<op>word}] forms over byte strings and decoded
    YAML values, the [.env] / [env_file] syntax, and the variable source built from
    them.  Expansion recurses on strictly shorter strings; the fuel is the length,
    and is proved enough. *)

From Stdlib Require Import ZArith Lia.
From Stdlib.Strings Require Import Byte.
From stdpp Require Import base list gmap.
From S2P Require Import Prelude GoStd.
Open Scope Z_scope.
Set Warnings "-register-all".

Inductive interpErr :=
| ErrUnterminated
| ErrInvalidRef (expr : bytes)
| ErrInvalidOp (expr : bytes)
| ErrRequired (name word : bytes)        (* ":?": unset or empty *)
| ErrRequiredSet (name word : bytes)     (* "?": unset *)
| ErrFuel.

(** The value of a variable, when set. *)
Definition Mapping : Type := bytes -> option bytes.

Definition isNameChar (c : byte) : bool :=
  let v := Z_of_byte c in
  (v =? 95) || ((97 <=? v) && (v <=? 122)) || ((65 <=? v) && (v <=? 90)) || ((48 <=? v) && (v <=? 57)).

Definition dollar : byte := Byte.x24.
Definition lbrace : byte := Byte.x7b.
Definition rbrace : byte := Byte.x7d.

Fixpoint spanName (s : bytes) : bytes * bytes :=
  match s with
  | c :: s' => if isNameChar c then let (n, r) := spanName s' in (c :: n, r) else ([], s)
  | [] => ([], [])
  end.

(** What follows an opening brace, split at the brace that closes it. *)
Fixpoint scanBrace (depth : nat) (s : bytes) : option (bytes * bytes) :=
  match s with
  | [] => None
  | c :: s' =>
      if bool_decide (c = lbrace) then
        '(a, b) ← scanBrace (S depth) s'; Some (c :: a, b)
      else if bool_decide (c = rbrace) then
        match depth with
        | O | S O => Some ([], s')
        | S depth' => '(a, b) ← scanBrace depth' s'; Some (c :: a, b)
        end
      else '(a, b) ← scanBrace depth s'; Some (c :: a, b)
  end.

(** The operator and the word of [${NAME<op>word}]. *)
Definition splitOp (rest : bytes) : option (bytes * bytes) :=
  if hasPrefix rest (go ":-") || hasPrefix rest (go ":?") || hasPrefix rest (go ":+")
  then Some (take 2 rest, drop 2 rest)
  else if hasPrefix rest (go "-") || hasPrefix rest (go "?") || hasPrefix rest (go "+")
  then Some (take 1 rest, drop 1 rest)
  else None.

Section Expand.
Context (m : Mapping).

Definition applyOp (name op word : bytes) : res interpErr bytes :=
  let val := default [] (m name) in
  let set := bool_decide (is_Some (m name)) in
  let empty := negb set || bytes_eqb val [] in
  if bytes_eqb op (go ":-") then Ok (if empty then word else val)
  else if bytes_eqb op (go "-") then Ok (if negb set then word else val)
  else if bytes_eqb op (go ":+") then Ok (if negb empty then word else [])
  else if bytes_eqb op (go "+") then Ok (if set then word else [])
  else if bytes_eqb op (go ":?") then if empty then Err (ErrRequired name word) else Ok val
  else if bytes_eqb op (go "?") then if negb set then Err (ErrRequiredSet name word) else Ok val
  else Ok val.

Definition expandBraced (expandString : bytes -> res interpErr bytes) (expr : bytes) : res interpErr bytes :=
  let (name, rest) := spanName expr in
  if bytes_eqb name [] then Err (ErrInvalidRef expr)
  else if bytes_eqb rest [] then Ok (default [] (m name))
  else match splitOp rest with
       | None => Err (ErrInvalidOp expr)
       | Some (op, word) => word ← expandString word; applyOp name op word
       end.

(** One turn of the loop; [expand] is the rest of the expansion. *)
Definition expandStep (expand : bytes -> res interpErr bytes) (s : bytes) : res interpErr bytes :=
  match s with
  | [] => Ok []
  | c :: s1 =>
      if negb (bool_decide (c = dollar)) then r ← expand s1; Ok (c :: r)
      else
        match s1 with
        | [] => Ok [dollar]
        | c1 :: s2 =>
            if bool_decide (c1 = dollar) then r ← expand s2; Ok (dollar :: r)
            else if bool_decide (c1 = lbrace) then
              match scanBrace 1 s2 with
              | None => Err ErrUnterminated
              | Some (inner, rest) =>
                  val ← expandBraced expand inner;
                  r ← expand rest; Ok (val ++ r)
              end
            else
              let (name, rest) := spanName s1 in
              if bytes_eqb name [] then r ← expand s1; Ok (dollar :: r)
              else r ← expand rest; Ok (default [] (m name) ++ r)
        end
  end.

Fixpoint expandF (fuel : nat) (s : bytes) : res interpErr bytes :=
  match fuel with
  | O => Err ErrFuel
  | S fuel => expandStep (expandF fuel) s
  end.

Definition expandString (s : bytes) : res interpErr bytes := expandF (S (length s)) s.

(** Decoded YAML; mapping keys are left alone. *)
Inductive yaml :=
| YStr (s : bytes) | YList (l : list yaml) | YMap (kvs : list (bytes * yaml)) | YOther (v : bytes).

Fixpoint interpolate (v : yaml) : res interpErr yaml :=
  match v with
  | YStr s => s ← expandString s; Ok (YStr s)
  | YList l =>
      l ← (fix go_list (l : list yaml) : res interpErr (list yaml) :=
             match l with
             | [] => Ok []
             | x :: l => x ← interpolate x; l ← go_list l; Ok (x :: l)
             end) l;
      Ok (YList l)
  | YMap kvs =>
      kvs ← (fix go_map (kvs : list (bytes * yaml)) : res interpErr (list (bytes * yaml)) :=
               match kvs with
               | [] => Ok []
               | (k, x) :: kvs => x ← interpolate x; kvs ← go_map kvs; Ok ((k, x) :: kvs)
               end) kvs;
      Ok (YMap kvs)
  | YOther v => Ok (YOther v)
  end.

End Expand.

(** ** Env files *)

Inductive envErr := ErrTooLong | ErrRead (path : bytes).

Definition isOctal (c : byte) : bool := (48 <=? Z_of_byte c) && (Z_of_byte c <=? 55).

(** Up to [n] octal digits. *)
Fixpoint octal (n : nat) (val : Z) (s : bytes) : Z * bytes :=
  match n, s with
  | S n, c :: s' => if isOctal c then octal n (val * 8 + (Z_of_byte c - 48)) s' else (val, s)
  | _, _ => (val, s)
  end.

(** The single-character escapes. *)
Definition escapeOf (c : byte) : option byte :=
  match c with
  | Byte.x61 => Some Byte.x07 | Byte.x62 => Some Byte.x08 | Byte.x66 => Some Byte.x0c
  | Byte.x6e => Some Byte.x0a | Byte.x72 => Some Byte.x0d | Byte.x74 => Some Byte.x09
  | Byte.x76 => Some Byte.x0b | Byte.x5c => Some Byte.x5c | Byte.x22 => Some Byte.x22
  | Byte.x24 => Some Byte.x24 | _ => None
  end.

Fixpoint expandEscapesF (fuel : nat) (s : bytes) : bytes :=
  match fuel, s with
  | S fuel, c :: c1 :: s2 =>
      if bool_decide (c = Byte.x5c) then
        match escapeOf c1 with
        | Some e => e :: expandEscapesF fuel s2
        | None =>
            if bool_decide (c1 = Byte.x30) then
              let (val, r) := octal 3 0 s2 in byte_of_Z val :: expandEscapesF fuel r
            else c :: c1 :: expandEscapesF fuel s2
        end
      else c :: expandEscapesF fuel (c1 :: s2)
  | _, _ => s
  end.
Definition expandEnvEscapes (s : bytes) : bytes := expandEscapesF (length s) s.

Definition quoted (q : byte) (v : bytes) : option bytes :=
  match v with
  | c :: v' =>
      match rev v' with
      | c' :: mid => if bool_decide (c = q) && bool_decide (c' = q) then Some (rev mid) else None
      | [] => None
      end
  | [] => None
  end.

Definition unquoteEnv (v : bytes) : bytes :=
  match quoted Byte.x22 v with
  | Some mid => expandEnvEscapes mid
  | None => match quoted Byte.x27 v with Some mid => mid | None => v end
  end.

(** [bufio.ScanLines]: the last line may lack its newline, and a carriage return
    before a newline (or at the end) is dropped. *)
Definition dropCR (line : bytes) : bytes := trimSuffix line [Byte.x0d].
Definition scanLines (b : bytes) : list bytes :=
  let ls := split Byte.x0a b in
  match rev ls with [] :: ls' => rev ls' | _ => ls end.

Definition maxLine : Z := 1048576.

Definition parseLine (line : bytes) (out : gmap bytes bytes) : gmap bytes bytes :=
  let line := trimSpace line in
  if bytes_eqb line [] || hasPrefix line (go "#") then out
  else match cutByte Byte.x3d (trimPrefix line (go "export ")) with
       | None => out
       | Some (key, val) =>
           let key := trimSpace key in
           if bytes_eqb key [] then out else <[key := unquoteEnv (trimSpace val)]> out
       end.

Fixpoint parseLines (lines : list bytes) (out : gmap bytes bytes) : res envErr (gmap bytes bytes) :=
  match lines with
  | [] => Ok out
  | line :: lines =>
      if maxLine <=? blen line then Err ErrTooLong
      else parseLines lines (parseLine (dropCR line) out)
  end.

Definition parseEnvBytes (b : bytes) : res envErr (gmap bytes bytes) := parseLines (scanLines b) ∅.

(** The variable source; a read gives the content, or says the file is absent. *)
Inductive readRes := Content (b : bytes) | Absent | Failed.

Fixpoint overlayFiles (readFile : bytes -> readRes) (files : list bytes) (overlay : gmap bytes bytes)
    : res envErr (gmap bytes bytes) :=
  match files with
  | [] => Ok overlay
  | f :: files =>
      match readFile f with
      | Content b => kv ← parseEnvBytes b; overlayFiles readFile files (kv ∪ overlay)
      | _ => Err (ErrRead f)
      end
  end.

Definition envMapping (readFile : bytes -> readRes) (env : gmap bytes bytes) (dir : bytes)
    (envFiles : list bytes) : res envErr Mapping :=
  overlay ← match envFiles with
            | [] => match readFile (pathJoin [dir; go ".env"]) with
                    | Content b => parseEnvBytes b
                    | Absent => Ok ∅
                    | Failed => Err (ErrRead (go ".env"))
                    end
            | _ => overlayFiles readFile envFiles ∅
            end;
  Ok (fun name => match env !! name with Some v => Some v | None => overlay !! name end).

(** ** Fuel *)

Lemma spanName_app s : fst (spanName s) ++ snd (spanName s) = s.
Proof.
  induction s as [|c s IH]; [done|]. cbn. destruct (isNameChar c); [|done].
  destruct (spanName s) as [n r]. cbn in *. by rewrite IH.
Qed.

Lemma scanBrace_app d s a b : scanBrace d s = Some (a, b) -> s = a ++ rbrace :: b.
Proof.
  revert d a. induction s as [|c s IH]; intros d a; cbn; [done|]. case_bool_decide.
  - destruct (scanBrace (S d) s) as [[a' b']|] eqn:E; [|done]. intros [= <- <-].
    by rewrite (IH _ _ E).
  - case_bool_decide.
    + destruct d as [|[|d]]; [intros [= <- <-]; by subst..|].
      destruct (scanBrace (S d) s) as [[a' b']|] eqn:E; [|done]. intros [= <- <-].
      by rewrite (IH _ _ E).
    + destruct (scanBrace d s) as [[a' b']|] eqn:E; [|done]. intros [= <- <-]. by rewrite (IH _ _ E).
Qed.

Lemma splitOp_app s op w : splitOp s = Some (op, w) -> s = op ++ w /\ op <> [].
Proof.
  unfold splitOp. destruct s as [|c s]; [done|].
  destruct (_ || _); [intros [= <- <-]; split; [symmetry; exact (take_drop 2 (c :: s))|done]|].
  destruct (_ || _); [|done]. intros [= <- <-]. split; [symmetry; exact (take_drop 1 (c :: s))|done].
Qed.

Section Facts.
Context (m : Mapping).

Lemma expandBraced_ext f g expr :
  (forall w, (length w < length expr)%nat -> f w = g w) -> expandBraced m f expr = expandBraced m g expr.
Proof.
  intros H. unfold expandBraced. pose proof (spanName_app expr) as E.
  destruct (spanName expr) as [name rest]. cbn in E.
  destruct (bytes_eqb name []); [done|]. destruct (bytes_eqb rest []); [done|].
  destruct (splitOp rest) as [[op word]|] eqn:Es; [|done]. apply splitOp_app in Es as [-> Hop].
  rewrite H; [done|]. rewrite <- E, !length_app. destruct op; [done|]. simpl. lia.
Qed.

Lemma expandStep_ext f g s :
  (forall w, (length w < length s)%nat -> f w = g w) -> expandStep m f s = expandStep m g s.
Proof.
  intros H. destruct s as [|c s1]; [done|]. cbn [expandStep].
  destruct (negb _); [by rewrite (H s1) by (simpl; lia)|]. destruct s1 as [|c1 s2]; [done|].
  destruct (bool_decide (c1 = dollar)); [by rewrite (H s2) by (simpl; lia)|].
  destruct (bool_decide (c1 = lbrace)).
  - destruct (scanBrace 1 s2) as [[inner rest]|] eqn:Eb; [|done]. apply scanBrace_app in Eb.
    assert (Hl : (length s2 = length inner + S (length rest))%nat) by (rewrite Eb, length_app; done).
    rewrite (expandBraced_ext f g) by (intros w Hw; apply H; simpl; lia).
    by rewrite (H rest) by (simpl; lia).
  - pose proof (f_equal length (spanName_app (c1 :: s2))) as En. rewrite length_app in En.
    destruct (spanName (c1 :: s2)) as [name rest]. cbn [fst snd] in En.
    destruct (bytes_eqb name []) eqn:Ene; [by rewrite (H (c1 :: s2)) by (simpl; lia)|].
    rewrite (H rest); [done|]. destruct name; [done|]. simpl in *. lia.
Qed.

Lemma expandF_stable s f f' :
  (length s < f)%nat -> (length s < f')%nat -> expandF m f s = expandF m f' s.
Proof.
  revert s f'. induction f as [|f IH]; intros s [|f'] Hf Hf'; try lia. cbn [expandF].
  apply expandStep_ext. intros w Hw. apply IH; lia.
Qed.

(** The fuel is enough: expansion unfolds to one turn of its loop. *)
Lemma expandString_step s : expandString m s = expandStep m (expandString m) s.
Proof.
  unfold expandString at 1. cbn [expandF]. apply expandStep_ext. intros w Hw.
  apply expandF_stable; lia.
Qed.

Lemma applyOp_total name op word : applyOp m name op word <> Err ErrFuel.
Proof. unfold applyOp. cbv zeta. by repeat case_match. Qed.

Lemma bind_total {A B} (r : res interpErr A) (f : A -> res interpErr B) :
  r <> Err ErrFuel -> (forall a, f a <> Err ErrFuel) -> (r ≫= f) <> Err ErrFuel.
Proof. intros Hr Hf. destruct r; cbn; [apply Hf|]. intros [= ->]. by apply Hr. Qed.

Lemma expandString_total s : expandString m s <> Err ErrFuel.
Proof.
  induction s as [s IH] using (induction_ltof1 _ (@length _)); unfold ltof in IH.
  rewrite expandString_step. destruct s as [|c s1]; [done|]. cbn [expandStep].
  destruct (negb _); [apply bind_total; [apply IH; simpl; lia|done]|]. destruct s1 as [|c1 s2]; [done|].
  destruct (bool_decide (c1 = dollar)); [apply bind_total; [apply IH; simpl; lia|done]|].
  destruct (bool_decide (c1 = lbrace)).
  - destruct (scanBrace 1 s2) as [[inner rest]|] eqn:Eb; [|done]. apply scanBrace_app in Eb.
    assert (Hl : (length s2 = length inner + S (length rest))%nat) by (rewrite Eb, length_app; done).
    apply bind_total; [|intros; apply bind_total; [apply IH; simpl; lia|done]].
    unfold expandBraced. pose proof (f_equal length (spanName_app inner)) as En. rewrite length_app in En.
    destruct (spanName inner) as [name r]. cbn [fst snd] in En.
    destruct (bytes_eqb name []); [done|]. destruct (bytes_eqb r []); [done|].
    destruct (splitOp r) as [[op word]|] eqn:Es; [|done]. apply splitOp_app in Es as [-> Hop].
    rewrite length_app in En.
    apply bind_total; [apply IH; simpl; lia|intros; apply applyOp_total].
  - pose proof (f_equal length (spanName_app (c1 :: s2))) as En. rewrite length_app in En.
    destruct (spanName (c1 :: s2)) as [name rest]. cbn [fst snd] in En.
    destruct (bytes_eqb name []) eqn:Ene; (apply bind_total; [apply IH|done]); [simpl; lia|].
    destruct name; [done|]. simpl in *. lia.
Qed.

End Facts.

(** ** Templates *)

Inductive bop := OrEmpty | OrUnset | IfNonempty | IfSet | NeedNonempty | NeedSet.

(** A template: literal text, [${name}], [$name] and [${name<op>word}] items. *)
Inductive tmpl :=
| TEnd
| TLit (s : bytes) (t : tmpl)
| TVar (name : bytes) (t : tmpl)
| TBare (name : bytes) (t : tmpl)
| TOp (name : bytes) (o : bop) (word t : tmpl).

Definition opText (o : bop) : bytes :=
  match o with
  | OrEmpty => go ":-" | OrUnset => go "-" | IfNonempty => go ":+" | IfSet => go "+"
  | NeedNonempty => go ":?" | NeedSet => go "?"
  end.

(** Dollars of literal text are doubled. *)
Definition escapeDollar (s : bytes) : bytes :=
  flat_map (fun c => if bool_decide (c = dollar) then [dollar; dollar] else [c]) s.

Fixpoint print (t : tmpl) : bytes :=
  match t with
  | TEnd => []
  | TLit s t => escapeDollar s ++ print t
  | TVar n t => dollar :: lbrace :: n ++ rbrace :: print t
  | TBare n t => dollar :: n ++ print t
  | TOp n o w t => dollar :: lbrace :: n ++ opText o ++ print w ++ rbrace :: print t
  end.

(** Compose's meaning of the operators. *)
Definition evalOp (m : Mapping) (name : bytes) (o : bop) (word : bytes) : res interpErr bytes :=
  match o, m name with
  | OrEmpty, (None | Some []) => Ok word
  | OrEmpty, Some v => Ok v
  | OrUnset, None => Ok word
  | OrUnset, Some v => Ok v
  | IfNonempty, (None | Some []) => Ok []
  | IfNonempty, Some _ => Ok word
  | IfSet, None => Ok []
  | IfSet, Some _ => Ok word
  | NeedNonempty, (None | Some []) => Err (ErrRequired name word)
  | NeedNonempty, Some v => Ok v
  | NeedSet, None => Err (ErrRequiredSet name word)
  | NeedSet, Some v => Ok v
  end.

Fixpoint eval (m : Mapping) (t : tmpl) : res interpErr bytes :=
  match t with
  | TEnd => Ok []
  | TLit s t => r ← eval m t; Ok (s ++ r)
  | TVar n t | TBare n t => r ← eval m t; Ok (default [] (m n) ++ r)
  | TOp n o w t => word ← eval m w; v ← evalOp m n o word; r ← eval m t; Ok (v ++ r)
  end.

Definition okName (n : bytes) : Prop := n <> [] /\ Forall (fun c => isNameChar c = true) n.
Definition noNameStart (s : bytes) : Prop := match s with c :: _ => isNameChar c = false | [] => True end.

(** Words hold no braces of their own, and [$name] is not followed by a name
    character. *)
Fixpoint wfT (inWord : bool) (t : tmpl) : Prop :=
  match t with
  | TEnd => True
  | TLit s t => (inWord = true -> (lbrace ∉ s) /\ (rbrace ∉ s)) /\ wfT inWord t
  | TVar n t => okName n /\ wfT inWord t
  | TBare n t => okName n /\ noNameStart (print t) /\ wfT inWord t
  | TOp n o w t => okName n /\ wfT true w /\ wfT inWord t
  end.

(** Scanning across the text comes back to the same depth. *)
Definition balanced (s : bytes) : Prop := forall d t,
  scanBrace (S d) (s ++ t) = match scanBrace (S d) t with Some (a, b) => Some (s ++ a, b) | None => None end.

Lemma balanced_nil : balanced [].
Proof. intros d t. cbn. by destruct (scanBrace (S d) t) as [[]|]. Qed.

Lemma balanced_app a b : balanced a -> balanced b -> balanced (a ++ b).
Proof.
  intros Ha Hb d t. rewrite <- app_assoc, Ha, Hb. destruct (scanBrace (S d) t) as [[]|]; [|done].
  by rewrite app_assoc.
Qed.

Lemma balanced_plain s : lbrace ∉ s -> rbrace ∉ s -> balanced s.
Proof.
  induction s as [|c s IH]; intros Hl Hr; [apply balanced_nil|].
  apply not_elem_of_cons in Hl as [Hl1 Hl2], Hr as [Hr1 Hr2]. intros d t.
  change ((c :: s) ++ t) with (c :: (s ++ t)). cbn [scanBrace].
  rewrite !bool_decide_false by congruence. rewrite (IH Hl2 Hr2).
  by destruct (scanBrace (S d) t) as [[]|].
Qed.

Lemma balanced_braces s : balanced s -> balanced (lbrace :: s ++ [rbrace]).
Proof.
  intros Hs d t. change ((lbrace :: s ++ [rbrace]) ++ t) with (lbrace :: (s ++ [rbrace]) ++ t).
  cbn [scanBrace]. rewrite bool_decide_true by done. rewrite <- app_assoc, Hs.
  change ([rbrace] ++ t) with (rbrace :: t). cbn [scanBrace].
  rewrite bool_decide_false by done. rewrite bool_decide_true by done. cbn.
  destruct (scanBrace (S d) t) as [[a b]|]; [|done]. cbn. by rewrite <- app_assoc.
Qed.

Lemma scanBrace_closed s t : balanced s -> scanBrace 1 (s ++ rbrace :: t) = Some (s, t).
Proof.
  intros Hs. rewrite Hs. change (scanBrace 1 (rbrace :: t)) with (Some (@nil byte, t)).
  cbv iota beta. by rewrite app_nil_r.
Qed.

Lemma name_plain n : okName n -> (lbrace ∉ n) /\ (rbrace ∉ n).
Proof.
  intros [_ Hn]. split; intros Hin; eapply Forall_forall in Hn; [|exact Hin| |exact Hin]; discriminate.
Qed.

Lemma balanced_escape s : lbrace ∉ s -> rbrace ∉ s -> balanced (escapeDollar s).
Proof.
  intros Hl Hr. apply balanced_plain; intros (x & Hx & Hin)%list_elem_of_In%in_flat_map;
    apply list_elem_of_In in Hx; revert Hin; case_bool_decide; cbn; intros; naive_solver.
Qed.

Lemma balanced_print t : wfT true t -> balanced (print t).
Proof.
  induction t as [|s t IH|n t IH|n t IH|n o w IHw t IH]; cbn [print wfT].
  - intros _. apply balanced_nil.
  - intros [Hs Ht]. destruct (Hs eq_refl). apply balanced_app; [by apply balanced_escape|auto].
  - intros [Hn Ht]. destruct (name_plain n Hn).
    replace (dollar :: lbrace :: n ++ rbrace :: print t) with ([dollar] ++ (lbrace :: n ++ [rbrace]) ++ print t)
      by (cbn; by rewrite <- app_assoc).
    apply balanced_app; [apply balanced_plain; by apply not_elem_of_cons; split; [|apply not_elem_of_nil]|].
    apply balanced_app; [by apply balanced_braces, balanced_plain|auto].
  - intros (Hn & _ & Ht). destruct (name_plain n Hn).
    apply (balanced_app (dollar :: n)); [|auto]. apply balanced_plain; by apply not_elem_of_cons.
  - intros (Hn & Hw & Ht). destruct (name_plain n Hn).
    replace (dollar :: lbrace :: n ++ opText o ++ print w ++ rbrace :: print t)
      with ([dollar] ++ (lbrace :: (n ++ opText o ++ print w) ++ [rbrace]) ++ print t)
      by (cbn; by rewrite <- !app_assoc).
    apply balanced_app; [apply balanced_plain; by apply not_elem_of_cons; split; [|apply not_elem_of_nil]|].
    apply balanced_app; [|auto]. apply balanced_braces, balanced_app; [by apply balanced_plain|].
    apply balanced_app; [|auto]. apply balanced_plain; destruct o; compute_done.
Qed.

Lemma spanName_name n t : Forall (fun c => isNameChar c = true) n -> noNameStart t -> spanName (n ++ t) = (n, t).
Proof.
  intros Hn Ht. induction Hn as [|c n Hc Hn IH].
  - destruct t as [|c t]; [done|]. cbn in *. by rewrite Ht.
  - cbn. by rewrite Hc, IH.
Qed.

Lemma applyOp_eval m n o w : applyOp m n (opText o) w = evalOp m n o w.
Proof. unfold applyOp, evalOp. destruct o, (m n) as [[|c v]|]; reflexivity. Qed.

Section Printed.
Context (m : Mapping).

Lemma expand_lit s t : expandString m (escapeDollar s ++ t) = r ← expandString m t; Ok (s ++ r).
Proof.
  induction s as [|c s IH]; [change (escapeDollar [] ++ t) with t; by destruct (expandString m t)|].
  unfold escapeDollar in *. cbn [flat_map]. rewrite <- app_assoc, expandString_step.
  case_bool_decide as Hc; cbn [app expandStep].
  - rewrite (bool_decide_true (dollar = dollar)) by done. cbn [negb]. rewrite IH. subst c.
    by destruct (expandString m t).
  - rewrite (bool_decide_false (c = dollar)) by done. cbn [negb]. rewrite IH.
    by destruct (expandString m t).
Qed.

(** A braced reference with a closed body. *)
Lemma expand_braced inner t : balanced inner ->
  expandString m (dollar :: lbrace :: inner ++ rbrace :: t) =
  (val ← expandBraced m (expandString m) inner; r ← expandString m t; Ok (val ++ r)).
Proof.
  intros Hb. rewrite expandString_step. cbn [expandStep].
  rewrite (bool_decide_true (dollar = dollar)) by done. cbn [negb].
  rewrite (bool_decide_false (lbrace = dollar)) by done.
  rewrite (bool_decide_true (lbrace = lbrace)) by done. by rewrite scanBrace_closed.
Qed.

Lemma okName_ne n : okName n -> bytes_eqb n [] = false.
Proof. intros [H _]. unfold bytes_eqb. by apply bool_decide_false. Qed.

Lemma expandBraced_var n : okName n -> expandBraced m (expandString m) n = Ok (default [] (m n)).
Proof.
  intros Hn. unfold expandBraced. rewrite <- (app_nil_r n) at 1.
  rewrite spanName_name by (done || apply Hn). by rewrite okName_ne.
Qed.

Lemma expandBraced_op n o w : okName n ->
  expandBraced m (expandString m) (n ++ opText o ++ w) =
  (word ← expandString m w; evalOp m n o word).
Proof.
  intros Hn. unfold expandBraced. rewrite spanName_name; [|apply Hn|by destruct o].
  rewrite okName_ne by done.
  replace (bytes_eqb (opText o ++ w) []) with false by (by destruct o).
  replace (splitOp (opText o ++ w)) with (Some (opText o, w)) by (by destruct o).
  destruct (expandString m w); [|done]. cbn. apply applyOp_eval.
Qed.

Lemma expand_bare n t : okName n -> noNameStart t ->
  expandString m (dollar :: n ++ t) = r ← expandString m t; Ok (default [] (m n) ++ r).
Proof.
  intros Hn Ht. pose proof (spanName_name n t (proj2 Hn) Ht) as Es.
  destruct n as [|c n]; [by destruct Hn|].
  assert (isNameChar c = true) as Hc by (destruct Hn as [_ Hn]; by apply Forall_cons_1 in Hn as [? _]).
  rewrite expandString_step. cbn [app] in *. cbn [expandStep].
  rewrite (bool_decide_true (dollar = dollar)) by done. cbn [negb].
  rewrite (bool_decide_false (c = dollar)) by (intros ->; discriminate).
  rewrite (bool_decide_false (c = lbrace)) by (intros ->; discriminate).
  rewrite Es. by rewrite okName_ne.
Qed.

End Printed.

(** C40. Expansion terminates on every string, and on the printed form of any
    template of literals, references and nested operators it yields the meaning of
    the template, errors included; in particular doubled dollars give back the text
    they escape. *)
Theorem expand_print m :
  (forall s, expandString m s <> Err ErrFuel) /\
  (forall t, wfT false t -> expandString m (print t) = eval m t) /\
  (forall s, expandString m (escapeDollar s) = Ok s).
Proof.
  split; [apply expandString_total|].
  assert (H : forall t b, wfT b t -> expandString m (print t) = eval m t).
  { induction t as [|s t IH|n t IH|n t IH|n o w IHw t IH]; intros b; cbn [print wfT eval].
    - done.
    - intros [_ Ht]. by rewrite expand_lit, (IH b).
    - intros [Hn Ht]. rewrite expand_braced by (destruct (name_plain n Hn); by apply balanced_plain).
      by rewrite expandBraced_var, (IH b).
    - intros (Hn & Hs & Ht). by rewrite expand_bare, (IH b).
    - intros (Hn & Hw & Ht).
      replace (n ++ opText o ++ print w ++ rbrace :: print t)
        with ((n ++ opText o ++ print w) ++ rbrace :: print t) by (by rewrite <- !app_assoc).
      assert (Hbal : balanced (n ++ opText o ++ print w)).
      { destruct (name_plain n Hn). apply balanced_app; [by apply balanced_plain|].
        apply balanced_app; [apply balanced_plain; destruct o; compute_done|by apply balanced_print]. }
      rewrite expand_braced, expandBraced_op, (IH b), (IHw true) by done.
      by destruct (eval m w). }
  split; [intros t; apply H|].
  intros s. rewrite <- (app_nil_r (escapeDollar s)), expand_lit. cbn. by rewrite app_nil_r.
Qed.

(** An example with a nested default. *)
Definition exampleT : tmpl :=
  TLit (go "p=$") (TOp (go "A") OrEmpty (TVar (go "B") (TLit (go "/x") TEnd)) (TLit (go "{") TEnd)).
Definition exampleEnv : Mapping := fun n => if bytes_eqb n (go "B") then Some (go "b") else None.

Lemma expand_print_witness :
  print exampleT = go "p=$$${A:-${B}/x}{" /\ expandString exampleEnv (print exampleT) = Ok (go "p=$b/x{").
Proof.
  split; [vm_compute; reflexivity|].
  rewrite (proj1 (proj2 (expand_print exampleEnv)) exampleT); [vm_compute; reflexivity|].
  assert (Hn : forall c, isNameChar c = true -> okName [c]) by (intros; split; [done|by repeat constructor]).
  cbn. split; [done|]. split; [by apply Hn|]. split; [|split; done]. split; [by apply Hn|].
  split; [|done]. intros _. split; compute_done.
Defined.

(** ** Env files read back *)

(** A value in double quotes, with the characters that need it escaped. *)
Definition escByte (c : byte) : bytes :=
  match c with
  | Byte.x5c => go "\\" | Byte.x22 => [Byte.x5c; Byte.x22] | Byte.x0a => go "\n" | _ => [c]
  end.
Definition escapeEnv (v : bytes) : bytes := flat_map escByte v.
Definition quoteEnv (v : bytes) : bytes := Byte.x22 :: escapeEnv v ++ [Byte.x22].
Definition envLine (kv : bytes * bytes) : bytes := fst kv ++ Byte.x3d :: quoteEnv (snd kv).
Definition printEnv (kvs : list (bytes * bytes)) : bytes :=
  concat (map (fun kv => envLine kv ++ [Byte.x0a]) kvs).

(** A key the syntax can carry, on a line the scanner accepts. *)
Definition okEntry (kv : bytes * bytes) : Prop :=
  let k := fst kv in
  k <> [] /\ (Byte.x3d ∉ k) /\ Forall (fun c => isSpace c = false) k /\ trimSpace k = k /\
  hasPrefix k (go "#") = false /\ blen (envLine kv) < maxLine.

Lemma expandEscapes_escape v n : (length v <= n)%nat -> expandEscapesF n (escapeEnv v) = v.
Proof.
  revert n. induction v as [|c v IH]; intros [|n] Hn; simpl in Hn; try lia; try done.
  specialize (IH n ltac:(lia)).
  assert (Hcase : (exists e, escapeOf e = Some c /\ escapeEnv (c :: v) = Byte.x5c :: e :: escapeEnv v) \/
    (c <> Byte.x5c /\ escapeEnv (c :: v) = c :: escapeEnv v)).
  { destruct c; first [by right|by left; exists Byte.x5c|by left; exists Byte.x22|by left; exists Byte.x6e]. }
  destruct Hcase as [(e & He & ->)|[Hc ->]].
  - cbn [expandEscapesF]. by rewrite bool_decide_true, He, IH by done.
  - destruct (escapeEnv v) as [|c1 s2] eqn:Ev.
    + destruct v as [|c' v]; [done|]. exfalso. unfold escapeEnv in Ev. cbn in Ev. by destruct c'.
    + cbn [expandEscapesF]. rewrite bool_decide_false by done. by rewrite IH.
Qed.

Lemma length_escapeEnv v : (length v <= length (escapeEnv v))%nat.
Proof.
  induction v as [|c v IH]; [done|]. unfold escapeEnv in *. cbn [flat_map length]. rewrite length_app.
  assert (1 <= length (escByte c))%nat by (destruct c; cbn; lia). lia.
Qed.

Lemma unquote_quote v : unquoteEnv (quoteEnv v) = v.
Proof.
  unfold unquoteEnv, quoteEnv, quoted. rewrite rev_unit. rewrite !bool_decide_true by done. cbn [andb].
  rewrite rev_involutive. apply expandEscapes_escape, length_escapeEnv.
Qed.

Lemma trimSpace_kept k : k <> [] -> trimSpace k = k -> runes k <> [] /\ isSpaceSeg (hd [] (runes k)) = false.
Proof.
  intros Hk Ht. assert (Hr : runes k <> []) by (intros E; apply Hk; by rewrite <- (concat_runes k), E).
  split; [done|]. apply not_true_is_false. intros Hs. apply (f_equal length) in Ht. revert Ht.
  rewrite <- (concat_runes k) at 2. unfold trimSpace, trimFunc.
  destruct (trimLeft_suffix isSpaceSeg (runes k)) as (p & E & _).
  destruct (trimLeft_suffix isSpaceSeg (rev (trimLeft isSpaceSeg (runes k)))) as (q & E' & _).
  set (l := trimLeft isSpaceSeg (runes k)) in *. apply (f_equal (@rev _)) in E'.
  rewrite rev_involutive, rev_app_distr in E'. rewrite E. rewrite E' at 2. rewrite !concat_app, !length_app.
  destruct p as [|g p].
  - exfalso. cbn in E. subst l. revert Hs E. destruct (runes k) as [|g gs]; [done|]. cbn. intros -> E.
    destruct (trimLeft_suffix isSpaceSeg gs) as (p & E2 & _). apply (f_equal length) in E2.
    rewrite <- E in E2. rewrite length_app in E2. simpl in E2. lia.
  - enough (g <> []) by (destruct g; [done|]; simpl; lia). intros ->.
    assert (Hg : hd [] (runes k) = []) by (by rewrite E). rewrite runes_unfold in Hg by done. cbn [hd] in Hg.
    apply (f_equal length) in Hg. rewrite length_take in Hg. simpl in Hg.
    pose proof (decodeRune_width k Hk). lia.
Qed.

Lemma envLine_trim kv : okEntry kv -> trimSpace (envLine kv) = envLine kv.
Proof.
  intros (Hne & _ & _ & Ht & _). destruct (trimSpace_kept _ Hne Ht) as [Hr Hh].
  unfold envLine, quoteEnv.
  change (Byte.x3d :: Byte.x22 :: ?x ++ [Byte.x22]) with ((Byte.x3d :: Byte.x22 :: x) ++ [Byte.x22]).
  rewrite app_assoc. apply trimSpace_ends; [|done]. rewrite runes_app_ascii by done.
  by destruct (runes (fst kv)).
Qed.

Lemma envLine_shape kv : okEntry kv -> exists c s, envLine kv = c :: s ++ [Byte.x22] /\ c <> Byte.x23.
Proof.
  intros (Hne & _ & _ & _ & Hh & _). unfold envLine, quoteEnv. destruct (fst kv) as [|c k]; [done|].
  exists c, (k ++ Byte.x3d :: Byte.x22 :: escapeEnv (snd kv)). split; [cbn; by rewrite <- app_assoc|].
  intros ->. done.
Qed.

Lemma no_export kv : okEntry kv -> hasPrefix (envLine kv) (go "export ") = false.
Proof.
  intros (_ & Heq & Hs & _). apply not_true_is_false. intros [t E]%hasPrefix_spec.
  assert (Hc : cutByte Byte.x3d (envLine kv) = Some (fst kv, quoteEnv (snd kv))) by (by apply cutByte_app).
  rewrite E in Hc. cbn in Hc.
  destruct (cutByte Byte.x3d t) as [[a b]|]; [|done]. injection Hc as Ek _.
  rewrite <- Ek in Hs. repeat apply Forall_cons_1 in Hs as [? Hs]. discriminate.
Qed.

Lemma parseLine_line kv out : okEntry kv -> parseLine (dropCR (envLine kv)) out = <[fst kv := snd kv]> out.
Proof.
  intros Hok. destruct (envLine_shape kv Hok) as (c & s & E & Hh).
  assert (Ed : dropCR (envLine kv) = envLine kv).
  { unfold dropCR, trimSuffix. replace (hasSuffix (envLine kv) [Byte.x0d]) with false; [done|].
    symmetry. apply not_true_is_false. intros [t Et]%hasSuffix_spec. rewrite E in Et.
    change (c :: s ++ [Byte.x22]) with ((c :: s) ++ [Byte.x22]) in Et. by apply app_inj_tail in Et as [_ Et]. }
  assert (Et : trimSpace (envLine kv) = envLine kv) by (by apply envLine_trim).
  rewrite Ed. unfold parseLine. rewrite Et. cbv zeta.
  replace (bytes_eqb (envLine kv) []) with false by (by rewrite E).
  replace (hasPrefix (envLine kv) (go "#")) with false.
  2: { symmetry. apply not_true_is_false. intros [t E2]%hasPrefix_spec. rewrite E in E2. cbn in E2. congruence. }
  cbn [orb]. unfold trimPrefix. rewrite no_export by done.
  destruct Hok as (Hne & Heq & Hs & Ht & _). unfold envLine at 1. rewrite cutByte_app by done.
  rewrite Ht.
  replace (bytes_eqb (fst kv) []) with false by (by destruct (fst kv)).
  assert (trimSpace (quoteEnv (snd kv)) = quoteEnv (snd kv)) as ->
    by (apply (trimSpace_ends (Byte.x22 :: escapeEnv (snd kv))); [by rewrite runes_cons_ascii|done]).
  by rewrite unquote_quote.
Qed.

Lemma envLine_nonl kv : okEntry kv -> Byte.x0a ∉ envLine kv.
Proof.
  intros (_ & _ & Hs & _) [Hin|Hin]%elem_of_app.
  - eapply Forall_forall in Hs; [|exact Hin]. discriminate.
  - apply elem_of_cons in Hin as [|Hin]; [done|]. apply elem_of_cons in Hin as [|Hin]; [done|].
    apply elem_of_app in Hin as [Hin|Hin%list_elem_of_singleton]; [|done].
    apply list_elem_of_In, in_flat_map in Hin as (x & _ & Hx). apply list_elem_of_In in Hx. revert Hx.
    destruct x; cbn; intros Hx; repeat apply elem_of_cons in Hx as [?|Hx]; try done; by apply elem_of_nil in Hx.
Qed.

Definition terminated (ls : list bytes) : bytes := concat (map (fun l => l ++ [Byte.x0a]) ls).

Lemma scanLines_app ls s : Forall (fun l => Byte.x0a ∉ l) ls ->
  scanLines (terminated ls ++ s) = ls ++ scanLines s.
Proof.
  intros H. unfold scanLines.
  assert (E : split Byte.x0a (terminated ls ++ s) = ls ++ split Byte.x0a s).
  { unfold terminated. induction H as [|l ls Hl H IH]; [done|]. cbn [map concat]. rewrite <- !app_assoc.
    change ([Byte.x0a] ++ ?x) with (Byte.x0a :: x). by rewrite split_app_sep, IH. }
  rewrite E, rev_app_distr. destruct (rev (split Byte.x0a s)) as [|l ls'] eqn:Er.
  - apply (f_equal (@rev _)) in Er. rewrite rev_involutive in Er. by apply split_nonempty in Er.
  - cbn [app]. destruct l; [|done]. by rewrite rev_app_distr, rev_involutive.
Qed.

Lemma parseLines_entries kvs more out : Forall okEntry kvs ->
  parseLines (map envLine kvs ++ more) out =
  parseLines more (fold_left (fun out kv => <[fst kv := snd kv]> out) kvs out).
Proof.
  intros H. revert out. induction H as [|kv kvs Hk H IH]; intros out; [done|].
  cbn [map app parseLines fold_left]. destruct (Z.leb_spec maxLine (blen (envLine kv))).
  - destruct Hk as (_ & _ & _ & _ & _ & Hl). lia.
  - by rewrite parseLine_line, IH.
Qed.

Lemma scanLines_print kvs s : Forall okEntry kvs ->
  scanLines (printEnv kvs ++ s) = map envLine kvs ++ scanLines s.
Proof.
  intros H. rewrite <- scanLines_app.
  - unfold terminated, printEnv. by rewrite map_map.
  - apply Forall_map. eapply Forall_impl; [exact H|]. intros kv. apply envLine_nonl.
Qed.

(** Env files read back: printed with double quotes and escapes, every list of
    entries parses to the map it denotes, later entries winning, whatever bytes the
    values hold; a file with an overlong line after them is rejected. *)
Theorem parseEnv_print kvs :
  Forall okEntry kvs ->
  parseEnvBytes (printEnv kvs) = Ok (fold_left (fun out kv => <[fst kv := snd kv]> out) kvs ∅) /\
  forall line rest, Byte.x0a ∉ line -> maxLine <= blen line ->
    parseEnvBytes (printEnv kvs ++ line ++ [Byte.x0a] ++ rest) = Err ErrTooLong.
Proof.
  intros H. unfold parseEnvBytes. split.
  - rewrite <- (app_nil_r (printEnv kvs)), scanLines_print by done. by rewrite parseLines_entries.
  - intros line rest Hn Hl. rewrite scanLines_print, parseLines_entries by done.
    replace (line ++ [Byte.x0a] ++ rest) with (terminated [line] ++ rest)
      by (unfold terminated; cbn; by rewrite <- !app_assoc).
    rewrite scanLines_app by (by apply List.Forall_cons). cbn [app parseLines].
    by destruct (Z.leb_spec maxLine (blen line)); [|lia].
Qed.

Lemma parseEnv_print_witness :
  let kvs := [(go "A", go "x\y"); (go "B", Byte.x0a :: go "$ #"); (go "A", [Byte.x22])] in
  printEnv kvs = go "A=" ++ [Byte.x22] ++ go "x\\y" ++ [Byte.x22; Byte.x0a] ++
    go "B=" ++ [Byte.x22] ++ go "\n$ #" ++ [Byte.x22; Byte.x0a] ++
    go "A=" ++ [Byte.x22; Byte.x5c; Byte.x22; Byte.x22; Byte.x0a] /\
  Forall okEntry kvs /\
  parseEnvBytes (printEnv kvs) = Ok (fold_left (fun out kv => <[fst kv := snd kv]> out) kvs ∅).
Proof.
  intros kvs. assert (H : Forall okEntry kvs).
  { repeat apply List.Forall_cons; try apply List.Forall_nil;
      (split_and!; [done|compute_done|by repeat constructor|done..]). }
  split; [vm_compute; reflexivity|]. split; [exact H|]. apply (parseEnv_print kvs H).
Defined.
