(* ===== verification/AuthScope.v ===== *)
(** * AuthScope: token scopes and the scope map

    [pkg/authtoken]: the scope vocabulary, what an access level reaches ([Allows]),
    containment of access levels, and what [Grant] reads from a scope claim.
    [pkg/authscope]: the ordered rules that map a third party's claims to a scope,
    with their validation, the dotted claim lookup and the matchers.

    Claim values are what the two decoders build: JSON numbers are [float64], YAML
    integers [int].  [strconv.ParseFloat], which compares a numeric [equals] with a
    claim that is a string, is an argument. *)

From Stdlib Require Import ZArith Lia Floats.SpecFloat.
From Stdlib.Strings Require Import Byte.
From stdpp Require Import base list gmap.
From S2P Require Import Prelude GoStd GoNum GoGlob.
Open Scope Z_scope.
Set Warnings "-register-all".

(** ** Access levels and endpoints *)

Definition ScopeAPI : bytes := go "api".
Definition ScopeRegistryPull : bytes := go "registry:pull".
Definition ScopeRegistryPush : bytes := go "registry:push".
Definition ScopeCaretaker : bytes := go "caretaker".
Definition ScopePeer : bytes := go "peer".

Inductive Access :=
  AccessNone | AccessCaretaker | AccessPeer | AccessRegistryPull | AccessRegistryPush | AccessFull.
Inductive Endpoint :=
  EndpointUnknown | EndpointAPI | EndpointRegistryPull | EndpointRegistryPush | EndpointCaretaker
| EndpointPeerForward.

#[global] Instance Access_eq_dec : EqDecision Access.
Proof. solve_decision. Defined.
#[global] Instance Endpoint_eq_dec : EqDecision Endpoint.
Proof. solve_decision. Defined.

Definition allEndpoints : list Endpoint :=
  [EndpointAPI; EndpointRegistryPull; EndpointRegistryPush; EndpointCaretaker; EndpointPeerForward].

Definition Allows (access : Access) (endpoint : Endpoint) : bool :=
  match access with
  | AccessFull =>
      bool_decide (endpoint = EndpointAPI) || bool_decide (endpoint = EndpointRegistryPull) ||
      bool_decide (endpoint = EndpointRegistryPush) || bool_decide (endpoint = EndpointCaretaker) ||
      bool_decide (endpoint = EndpointPeerForward)
  | AccessRegistryPush =>
      bool_decide (endpoint = EndpointRegistryPull) || bool_decide (endpoint = EndpointRegistryPush)
  | AccessRegistryPull => bool_decide (endpoint = EndpointRegistryPull)
  | AccessCaretaker => bool_decide (endpoint = EndpointCaretaker)
  | AccessPeer => bool_decide (endpoint = EndpointPeerForward)
  | AccessNone => false
  end.

Definition Contains (outer inner : Access) : bool :=
  forallb (fun e => negb (Allows inner e && negb (Allows outer e))) allEndpoints.

Inductive scopeErr := ErrScopeMissing | ErrScopeUnknown (scope : bytes).

Definition Grant (scope : bytes) : res scopeErr Access :=
  let fields := Fields scope in
  if bool_decide (fields = []) then Err ErrScopeMissing else
  let names s := existsb (fun f => bytes_eqb f s) fields in
  if names ScopeAPI then Ok AccessFull
  else if names ScopeRegistryPush then Ok AccessRegistryPush
  else if names ScopeRegistryPull then Ok AccessRegistryPull
  else if names ScopeCaretaker then Ok AccessCaretaker
  else if names ScopePeer then Ok AccessPeer
  else Err (ErrScopeUnknown scope).

(** ** Claims *)

Inductive value :=
| VNull
| VStr (s : bytes)
| VBool (b : bool)
| VFloat (f : float64)
| VInt (n : Z)
| VNumber (s : bytes)
| VStrs (l : list bytes)
| VList (l : list value)
| VObj (m : gmap bytes value).

Abbreviation claimset := (gmap bytes value).

(** ** Rules *)

(** [Equals] is [VNull] when unset. *)
Record Matcher := mkMatcher {
  Equals : value; Prefix : bytes; Suffix : bytes; Glob : bytes; AnyOf : list bytes; ContainsM : bytes }.

Record Rule := mkRule { Name : bytes; Scope : bytes; RMatch : gmap bytes Matcher }.
Record Map := mkMap { Rules : list Rule }.

Inductive label := Quoted (name : bytes) | Position (i : Z).
Definition ruleLabel (r : Rule) (i : nat) : label :=
  if bytes_eqb (Name r) [] then Position (Z.of_nat i + 1) else Quoted (Name r).

Definition isNull (v : value) : bool := match v with VNull => true | _ => false end.

Inductive matcherErr := NoTest | ManyTests | InvalidGlob (g : bytes).

Definition Matcher_validate (mt : Matcher) : res matcherErr unit :=
  let count (b : bool) : Z := if b then 1 else 0 in
  let n := count (negb (isNull (Equals mt))) + count (negb (bytes_eqb (Prefix mt) [])) +
           count (negb (bytes_eqb (Suffix mt) [])) + count (negb (bytes_eqb (Glob mt) [])) +
           count (negb (bool_decide (AnyOf mt = []))) + count (negb (bytes_eqb (ContainsM mt) [])) in
  if n =? 0 then Err NoTest
  else if 1 <? n then Err ManyTests
  else if negb (bytes_eqb (Glob mt) []) then
    match Match (Glob mt) [] with Err _ => Err (InvalidGlob (Glob mt)) | Ok _ => Ok tt end
  else Ok tt.

Inductive mapErr :=
| NoRules
| NoScope (where_ : label)
| BadScope (where_ : label) (e : scopeErr)
| NoClaims (where_ : label) (scope : bytes)
| BadMatcher (where_ : label) (claim : bytes) (e : matcherErr).

(** The matchers of a rule in the order the map yields them; which of several bad
    ones is reported is as unspecified as Go's map order. *)
Fixpoint validateMatchers (where_ : label) (l : list (bytes * Matcher)) : res mapErr unit :=
  match l with
  | [] => Ok tt
  | (claim, mt) :: l =>
      match Matcher_validate mt with
      | Err e => Err (BadMatcher where_ claim e)
      | Ok _ => validateMatchers where_ l
      end
  end.

Fixpoint validateRules (i : nat) (rs : list Rule) : res mapErr unit :=
  match rs with
  | [] => Ok tt
  | r :: rs =>
      let where_ := ruleLabel r i in
      if bytes_eqb (trimSpace (Scope r)) [] then Err (NoScope where_) else
      match Grant (Scope r) with
      | Err e => Err (BadScope where_ e)
      | Ok _ =>
          if bool_decide (RMatch r = ∅) then Err (NoClaims where_ (Scope r)) else
          validateMatchers where_ (map_to_list (RMatch r)) ≫= fun _ => validateRules (S i) rs
      end
  end.

(** A nil map has no rules. *)
Definition Validate (m : option Map) : res mapErr unit :=
  match m with
  | None => Err NoRules
  | Some m => if bool_decide (Rules m = []) then Err NoRules else validateRules 0 (Rules m)
  end.

(** ** Claim lookup *)

Definition dotByte : byte := Byte.x2e.

(** The first candidate that yields a result. *)
Fixpoint firstSome {A B} (f : A -> option B) (l : list A) : option B :=
  match l with [] => None | x :: l => match f x with Some y => Some y | None => firstSome f l end end.

(** [for n := k; n >= 1; n--] *)
Fixpoint downFrom (k : nat) : list nat := match k with O => [] | S j => k :: downFrom j end.

Fixpoint lookupPathF (fuel : nat) (cur : value) (parts : list bytes) : option value :=
  match parts, fuel with
  | [], _ => Some cur
  | _, O => None
  | _, S fuel =>
      match cur with
      | VObj obj =>
          firstSome (fun n =>
            match obj !! join [dotByte] (take n parts) with
            | None => None
            | Some v => lookupPathF fuel v (drop n parts)
            end) (downFrom (length parts))
      | _ => None
      end
  end.
(** Each level consumes at least one segment, so the path's length is fuel enough. *)
Definition lookupPath (cur : value) (parts : list bytes) : option value :=
  lookupPathF (length parts) cur parts.

Definition lookup (claims : claimset) (name : bytes) : option value :=
  match claims !! name with
  | Some v => Some v
  | None =>
      let parts := split dotByte name in
      if (length parts =? 1)%nat then None else lookupPath (VObj claims) parts
  end.

(** ** Matchers *)

Definition containsValue (v : value) (want : bytes) : bool :=
  match v with
  | VList l => existsb (fun e => match e with VStr s => bytes_eqb s want | _ => false end) l
  | VStrs l => existsb (fun s => bytes_eqb s want) l
  | VStr s => existsb (fun f => bytes_eqb f want) (Fields s)
  | _ => false
  end.

Section Matching.
Variable ParseFloat : bytes -> option float64.

Definition toFloat (v : value) : option float64 :=
  match v with
  | VFloat f => Some f
  | VInt n => Some (f64ofZ n)
  | VNumber s => ParseFloat s
  | VStr s => ParseFloat s
  | _ => None
  end.

Definition equalValues (want got : value) : bool :=
  match want with
  | VStr ws => match got with VStr gs => bytes_eqb ws gs | _ => false end
  | VBool wb => match got with VBool gb => Bool.eqb wb gb | _ => false end
  | _ =>
      match toFloat want, toFloat got with
      | Some wf, Some gf => SFeqb wf gf
      | _, _ => false
      end
  end.

Definition Matcher_matches (mt : Matcher) (v : value) : bool :=
  if negb (isNull (Equals mt)) then equalValues (Equals mt) v
  else if negb (bytes_eqb (Prefix mt) []) then match v with VStr s => hasPrefix s (Prefix mt) | _ => false end
  else if negb (bytes_eqb (Suffix mt) []) then match v with VStr s => hasSuffix s (Suffix mt) | _ => false end
  else if negb (bytes_eqb (Glob mt) []) then
    match v with
    | VStr s => match Match (Glob mt) s with Ok matched => matched | Err _ => false end
    | _ => false
    end
  else if negb (bool_decide (AnyOf mt = [])) then
    match v with VStr s => existsb (fun want => bytes_eqb s want) (AnyOf mt) | _ => false end
  else if negb (bytes_eqb (ContainsM mt) []) then containsValue v (ContainsM mt)
  else false.

Definition Rule_matches (r : Rule) (claims : claimset) : bool :=
  forallb (fun cm => match lookup claims (fst cm) with Some v => Matcher_matches (snd cm) v | None => false end)
    (map_to_list (RMatch r)).

Inductive matchErr := ErrNoMatch.

Fixpoint matchRules (i : nat) (rs : list Rule) (claims : claimset) : res matchErr (bytes * label) :=
  match rs with
  | [] => Err ErrNoMatch
  | r :: rs => if Rule_matches r claims then Ok (Scope r, ruleLabel r i) else matchRules (S i) rs claims
  end.

Definition Map_Match (m : option Map) (claims : claimset) : res matchErr (bytes * label) :=
  match m with None => Err ErrNoMatch | Some m => matchRules 0 (Rules m) claims end.
End Matching.

Definition DefaultScopeMap (scope : bytes) : res mapErr Map :=
  let m := mkMap [mkRule (go "CORNUS_JWT_DEFAULT_SCOPE") scope
                    {[ go "sub" := mkMatcher VNull [] [] (go "*") [] [] ]}] in
  Validate (Some m) ≫= fun _ => Ok m.

Definition Append (m other : option Map) : option Map :=
  match m, other with
  | None, _ => other
  | _, None => m
  | Some m, Some other => Some (mkMap (Rules m ++ Rules other))
  end.

(** ** What access levels and scopes reach *)

Lemma Allows_known a e : Allows a e = true -> e ∈ allEndpoints.
Proof. destruct a, e; try discriminate; intros _; unfold allEndpoints; set_solver. Qed.

(** Containment of access levels is inclusion of what they reach. *)
Lemma Contains_spec outer inner :
  Contains outer inner = true <-> forall e, Allows inner e = true -> Allows outer e = true.
Proof.
  unfold Contains. rewrite forallb_forall. split.
  - intros H e He. specialize (H e (proj1 (list_elem_of_In _ _) (Allows_known _ _ He))).
    rewrite He in H. by destruct (Allows outer e).
  - intros H e _. destruct (Allows inner e) eqn:E; [by rewrite H|done].
Qed.

(** The access a single scope name stands for. *)
Definition nameAccess (s : bytes) : Access :=
  if bytes_eqb s ScopeAPI then AccessFull
  else if bytes_eqb s ScopeRegistryPush then AccessRegistryPush
  else if bytes_eqb s ScopeRegistryPull then AccessRegistryPull
  else if bytes_eqb s ScopeCaretaker then AccessCaretaker
  else if bytes_eqb s ScopePeer then AccessPeer
  else AccessNone.

Lemma existsb_eqb_iff (f : bytes -> bool) s l : (forall w, f w = true <-> s = w) ->
  existsb f l = true <-> s ∈ l.
Proof.
  intros Hf. rewrite existsb_exists, list_elem_of_In. split.
  - intros (x & Hx & ->%Hf). done.
  - intros H. exists s. by rewrite Hf.
Qed.

Lemma existsb_l s l : existsb (fun w => bytes_eqb s w) l = true <-> s ∈ l.
Proof. apply existsb_eqb_iff. intros w. apply bool_decide_eq_true. Qed.
Lemma existsb_r s l : existsb (fun w => bytes_eqb w s) l = true <-> s ∈ l.
Proof. apply existsb_eqb_iff. intros w. unfold bytes_eqb. by rewrite bool_decide_eq_true. Qed.

(** Every access granted is that of a name in the scope. *)
Lemma Grant_named scope a : Grant scope = Ok a -> exists s, s ∈ Fields scope /\ nameAccess s = a /\ a <> AccessNone.
Proof.
  unfold Grant. destruct (bool_decide _); [discriminate|].
  repeat match goal with
  | |- context [existsb (fun f => bytes_eqb f ?s) ?l] =>
      destruct (existsb (fun f => bytes_eqb f s) l) eqn:?; [intros [= <-]; exists s; split; [by apply existsb_r|done]|]
  end. discriminate.
Qed.

(** ** Dotted lookup against its declarative reading *)

(** A path resolves when it can be cut into keys that lead through nested objects. *)
Inductive resolves : value -> list bytes -> value -> Prop :=
| resolves_here v : resolves v [] v
| resolves_step obj ps qs v w :
    ps <> [] -> obj !! join [dotByte] ps = Some v -> resolves v qs w -> resolves (VObj obj) (ps ++ qs) w.

(** The reading the code documents: at each level the longest key from which the
    rest still resolves. *)
Inductive longest : value -> list bytes -> value -> Prop :=
| longest_here v : longest v [] v
| longest_step obj parts n v w :
    (1 <= n <= length parts)%nat ->
    obj !! join [dotByte] (take n parts) = Some v -> longest v (drop n parts) w ->
    (forall m v', (n < m <= length parts)%nat -> obj !! join [dotByte] (take m parts) = Some v' ->
       ~ exists w', resolves v' (drop m parts) w') ->
    longest (VObj obj) parts w.

Lemma longest_resolves v parts w : longest v parts w -> resolves v parts w.
Proof.
  induction 1 as [|obj parts n v w Hn Hv _ IH _]; [constructor|].
  rewrite <- (take_drop n parts). econstructor; [|done|done].
  intros E. apply (f_equal length) in E. rewrite length_take in E. simpl in E. lia.
Qed.

Lemma firstSome_Some {A B} (f : A -> option B) l y :
  firstSome f l = Some y <-> exists a x b, l = a ++ x :: b /\ f x = Some y /\ Forall (fun x => f x = None) a.
Proof.
  induction l as [|x l IH]; simpl.
  - split; [done|]. intros (a & x & b & E & _). by destruct a.
  - destruct (f x) as [z|] eqn:Ex.
    + split; [intros [= ->]; by exists [], x, l|]. intros (a & x' & b & E & Hx & Ha).
      destruct a; simpl in E; injection E as -> ->; [congruence|]. by apply Forall_cons_1 in Ha as [? _]; congruence.
    + rewrite IH. split.
      * intros (a & x' & b & -> & Hx & Ha). exists (x :: a), x', b. split; [done|]. split; [done|]. by constructor.
      * intros (a & x' & b & E & Hx & Ha). destruct a as [|z a]; simpl in E; injection E as -> ->; [congruence|].
        apply Forall_cons_1 in Ha as [_ Ha]. by exists a, x', b.
Qed.

Lemma firstSome_None {A B} (f : A -> option B) l : firstSome f l = None <-> Forall (fun x => f x = None) l.
Proof.
  induction l as [|x l IH]; simpl; [split; [constructor|done]|]. destruct (f x) eqn:Ex.
  - split; [done|]. by intros [? _]%Forall_cons_1; congruence.
  - rewrite IH. split; [by constructor|]. by intros [_ ?]%Forall_cons_1.
Qed.

Lemma elem_of_downFrom k n : n ∈ downFrom k <-> (1 <= n <= k)%nat.
Proof.
  induction k as [|k IH]; simpl; [rewrite elem_of_nil; lia|]. rewrite elem_of_cons, IH. lia.
Qed.

Lemma downFrom_split k a n b : downFrom k = a ++ n :: b ->
  (1 <= n <= k)%nat /\ forall m, m ∈ a <-> (n < m <= k)%nat.
Proof.
  revert a. induction k as [|k IH]; intros a E; simpl in E; [by destruct a|]. destruct a as [|x a]; simpl in E.
  - injection E as <- <-. split; [lia|]. intros m. rewrite elem_of_nil. lia.
  - injection E as <- E. apply IH in E as [Hn Ha]. split; [lia|]. intros m. rewrite elem_of_cons, Ha. lia.
Qed.

Lemma firstSome_ext {A B} (f g : A -> option B) l :
  (forall x, x ∈ l -> f x = g x) -> firstSome f l = firstSome g l.
Proof.
  induction l as [|x l IH]; intros H; [done|]. simpl. rewrite (H x) by set_solver. by rewrite IH by set_solver.
Qed.

Lemma lookupPathF_fuel n m cur parts : (length parts <= n)%nat -> (length parts <= m)%nat ->
  lookupPathF n cur parts = lookupPathF m cur parts.
Proof.
  revert m cur parts. induction n as [|n IH]; intros m cur parts Hn Hm;
    destruct parts as [|p ps]; [by destruct m|simpl in Hn; lia|by destruct m|].
  destruct m as [|m]; [simpl in Hm; lia|]. cbn [lookupPathF]. destruct cur; try done.
  apply firstSome_ext. intros k Hk%elem_of_downFrom. destruct (_ !! _); [|done].
  apply IH; rewrite length_drop; simpl in *; lia.
Qed.

(** What one level of the walk computes. *)
Lemma lookupPath_obj obj parts : parts <> [] ->
  lookupPath (VObj obj) parts =
  firstSome (fun n => match obj !! join [dotByte] (take n parts) with
    | Some v => lookupPath v (drop n parts) | None => None end) (downFrom (length parts)).
Proof.
  intros Hp. unfold lookupPath at 1. destruct parts as [|p ps]; [done|]. cbn [length lookupPathF].
  apply firstSome_ext. intros k Hk%elem_of_downFrom. destruct (_ !! _); [|done].
  apply lookupPathF_fuel; rewrite ?length_drop; simpl; lia.
Qed.

Lemma lookupPath_nil v : lookupPath v [] = Some v.
Proof. done. Qed.

Lemma lookupPath_None v parts : lookupPath v parts = None <-> ~ exists w, resolves v parts w.
Proof.
  revert v. induction parts as [parts IH] using (induction_ltof1 _ (@length _)). unfold ltof in IH. intros v.
  destruct (decide (parts = [])) as [->|Hp].
  { rewrite lookupPath_nil. split; [done|]. intros H. exfalso. apply H. exists v. constructor. }
  assert (Hobj : (exists w, resolves v parts w) -> exists obj, v = VObj obj).
  { intros [w H]. inversion H; subst; [done|eauto]. }
  destruct v; try (split; [intros _ Hw; by destruct (Hobj Hw)|by destruct parts]).
  rewrite lookupPath_obj, firstSome_None, Forall_forall by done. split.
  - intros H (w & Hw). inversion Hw as [|? ps qs v ? Hps Hv Hq]; subst; [done|].
    specialize (H (length ps)). rewrite take_app_length, drop_app_length, Hv in H.
    assert (Hl : (1 <= length ps)%nat) by (destruct ps; simpl; [done|lia]).
    assert (lookupPath v qs = None) as HN by (apply H, elem_of_downFrom; rewrite length_app; lia).
    apply IH in HN; [|rewrite length_app; lia]. apply HN. by exists w.
  - intros H n Hn%elem_of_downFrom. destruct (m !! _) as [v|] eqn:Ev; [|done].
    apply IH; [rewrite length_drop; lia|]. intros [w Hw]. apply H. exists w.
    rewrite <- (take_drop n parts). econstructor; [|exact Ev|exact Hw].
    intros E. apply (f_equal length) in E. rewrite length_take in E. simpl in E. lia.
Qed.

Lemma lookupPath_Some v parts w : lookupPath v parts = Some w <-> longest v parts w.
Proof.
  revert v. induction parts as [parts IH] using (induction_ltof1 _ (@length _)). unfold ltof in IH. intros v.
  destruct (decide (parts = [])) as [->|Hp].
  { rewrite lookupPath_nil. split; [intros [= ->]; constructor|]. by inversion 1; subst; simpl in *; [|lia]. }
  assert (Hobj : longest v parts w -> exists obj, v = VObj obj) by (inversion 1; subst; [done|eauto]).
  destruct v; try (split; [by destruct parts|intros Hw; by destruct (Hobj Hw)]).
  rewrite lookupPath_obj, firstSome_Some by done. split.
  - intros (a & n & b & Ed & Hn & Ha). destruct (m !! _) as [v|] eqn:Ev; [|done].
    apply downFrom_split in Ed as [Hr Hm]. apply IH in Hn; [|rewrite length_drop; lia].
    econstructor; [exact Hr|exact Ev|exact Hn|]. intros k v' Hk Ek.
    rewrite Forall_forall in Ha. specialize (Ha k (proj2 (Hm k) Hk)). rewrite Ek in Ha. by apply lookupPath_None.
  - inversion 1 as [|? ? n v ? Hn Hv Hw Hmax]; subst; [done|].
    assert (Hin : n ∈ downFrom (length parts)) by (by apply elem_of_downFrom).
    apply list_elem_of_split in Hin as (a & b & Ed). exists a, n, b. split; [done|]. rewrite Hv. split.
    + apply IH; [rewrite length_drop; lia|done].
    + apply downFrom_split in Ed as [_ Hm]. apply Forall_forall. intros k Hk%Hm.
      destruct (m !! join _ (take k parts)) as [v'|] eqn:Ek; [|done]. apply lookupPath_None. by eapply Hmax.
Qed.

(** The literal name comes first because it is the longest key of all. *)
Lemma lookup_lookupPath claims name : lookup claims name = lookupPath (VObj claims) (split dotByte name).
Proof.
  unfold lookup. set (parts := split dotByte name).
  assert (Hp : parts <> []) by apply split_nonempty.
  assert (Hj : join [dotByte] (take (length parts) parts) = name) by (rewrite take_ge by lia; apply join_split).
  destruct (claims !! name) as [v|] eqn:Ev.
  - symmetry. apply lookupPath_Some. apply (longest_step _ _ (length parts) v).
    + destruct parts; [done|simpl; lia].
    + by rewrite Hj.
    + rewrite drop_ge by lia. constructor.
    + intros m v' Hm. lia.
  - destruct (Nat.eqb_spec (length parts) 1) as [E|]; [|done].
    rewrite lookupPath_obj, E by done. cbn. rewrite E in Hj. by rewrite Hj, Ev.
Qed.

(** Claim lookup: a name finds a value exactly when some reading of its dots as
    nesting resolves, and then the one with the longest key at each level, the
    literal name first of all. *)
Theorem lookup_longest claims name :
  (forall w, lookup claims name = Some w <-> longest (VObj claims) (split dotByte name) w) /\
  (lookup claims name = None <-> ~ exists w, resolves (VObj claims) (split dotByte name) w).
Proof.
  rewrite lookup_lookupPath. split; [intros w; apply lookupPath_Some|apply lookupPath_None].
Qed.

(** ** Rules against their declarative reading *)

(** The tests a matcher sets. *)
Inductive test :=
| TEquals (v : value) | TPrefix (p : bytes) | TSuffix (p : bytes) | TGlob (g : bytes)
| TAnyOf (l : list bytes) | TContains (w : bytes).

Definition tests (mt : Matcher) : list test :=
  (if isNull (Equals mt) then [] else [TEquals (Equals mt)]) ++
  (if bytes_eqb (Prefix mt) [] then [] else [TPrefix (Prefix mt)]) ++
  (if bytes_eqb (Suffix mt) [] then [] else [TSuffix (Suffix mt)]) ++
  (if bytes_eqb (Glob mt) [] then [] else [TGlob (Glob mt)]) ++
  (if bool_decide (AnyOf mt = []) then [] else [TAnyOf (AnyOf mt)]) ++
  (if bytes_eqb (ContainsM mt) [] then [] else [TContains (ContainsM mt)]).

Section Policy.
Variable ParseFloat : bytes -> option float64.

Definition accepts (t : test) (v : value) : Prop :=
  match t, v with
  | TEquals want, got => equalValues ParseFloat want got = true
  | TPrefix p, VStr s => exists r, s = p ++ r
  | TSuffix p, VStr s => exists r, s = r ++ p
  | TGlob g, VStr s => Match g s = Ok true
  | TAnyOf l, VStr s => s ∈ l
  | TContains w, VStr s => w ∈ Fields s
  | TContains w, VList l => VStr w ∈ l
  | TContains w, VStrs l => w ∈ l
  | _, _ => False
  end.

(** A rule grants when every claim it names resolves to a value its one test accepts. *)
Definition satisfied (r : Rule) (claims : claimset) : Prop :=
  forall c mt, RMatch r !! c = Some mt ->
    exists t v, tests mt = [t] /\ longest (VObj claims) (split dotByte c) v /\ accepts t v.

Lemma containsValue_spec v w : containsValue v w = true <-> accepts (TContains w) v.
Proof.
  destruct v; cbn [containsValue accepts]; try done; try apply existsb_r.
  rewrite existsb_exists, list_elem_of_In. split.
  - intros (x & Hx & E). destruct x; try done. apply bool_decide_eq_true in E. by subst.
  - intros H. exists (VStr w). split; [done|]. by apply bool_decide_eq_true.
Qed.

Lemma validate_tests mt : Matcher_validate mt = Ok tt -> exists t, tests mt = [t].
Proof.
  unfold Matcher_validate, tests.
  destruct (isNull _), (bytes_eqb (Prefix mt) _), (bytes_eqb (Suffix mt) _), (bytes_eqb (Glob mt) _),
    (bool_decide _), (bytes_eqb (ContainsM mt) _); cbn; try discriminate; eauto.
Qed.

Lemma Matcher_matches_spec mt t v : tests mt = [t] -> Matcher_matches ParseFloat mt v = true <-> accepts t v.
Proof.
  unfold tests, Matcher_matches.
  destruct (isNull _); cbn [negb app].
  2: { intros E. injection E as <- _. done. }
  destruct (bytes_eqb (Prefix mt) _); cbn [negb app].
  2: { intros E. injection E as <- _. destruct v; try done. apply hasPrefix_spec. }
  destruct (bytes_eqb (Suffix mt) _); cbn [negb app].
  2: { intros E. injection E as <- _. destruct v; try done. apply hasSuffix_spec. }
  destruct (bytes_eqb (Glob mt) _); cbn [negb app].
  2: { intros E. injection E as <- _. destruct v; try done. cbn [accepts].
       destruct (Match (Glob mt) s) as [[]|]; split; congruence. }
  destruct (bool_decide (AnyOf mt = [])); cbn [negb app].
  2: { intros E. injection E as <- _. destruct v; try done. apply existsb_l. }
  destruct (bytes_eqb (ContainsM mt) _); cbn [negb app]; [discriminate|].
  intros E. injection E as <-. apply containsValue_spec.
Qed.

Definition validRule (r : Rule) : Prop :=
  (exists a, Grant (Scope r) = Ok a) /\ RMatch r <> ∅ /\ forall c mt, RMatch r !! c = Some mt -> exists t, tests mt = [t].

Lemma validateMatchers_Ok w l : validateMatchers w l = Ok tt -> Forall (fun cm => exists t, tests (snd cm) = [t]) l.
Proof.
  induction l as [|[c mt] l IH]; simpl; intros H; [constructor|].
  destruct (Matcher_validate mt) as [[]|] eqn:E; [|done]. constructor; [by apply validate_tests|by apply IH].
Qed.

Lemma validateRules_Ok i rs : validateRules i rs = Ok tt -> Forall validRule rs.
Proof.
  revert i. induction rs as [|r rs IH]; simpl; intros i H; [constructor|].
  destruct (bytes_eqb _ _); [done|]. destruct (Grant (Scope r)) eqn:Eg; [|done].
  case_bool_decide; [done|]. destruct (validateMatchers _ _) as [[]|] eqn:Em; [|done].
  constructor; [|by eapply IH]. split; [eauto|]. split; [done|]. intros c mt Hc.
  apply validateMatchers_Ok in Em. rewrite Forall_forall in Em.
  apply (Em (c, mt)). by apply elem_of_map_to_list.
Qed.

Lemma Rule_matches_spec r claims : validRule r -> Rule_matches ParseFloat r claims = true <-> satisfied r claims.
Proof.
  intros (_ & _ & Ht). unfold Rule_matches. rewrite forallb_forall. split.
  - intros H c mt Hc. destruct (Ht c mt Hc) as [t Et]. exists t.
    specialize (H (c, mt)). cbn [fst snd] in H.
    assert (Hin : List.In (c, mt) (map_to_list (RMatch r))) by (by apply list_elem_of_In, elem_of_map_to_list).
    specialize (H Hin). destruct (lookup claims c) as [v|] eqn:Ev; [|done].
    exists v. rewrite lookup_lookupPath in Ev. split; [done|]. split; [by apply lookupPath_Some|].
    by eapply Matcher_matches_spec.
  - intros H [c mt] Hin%list_elem_of_In%elem_of_map_to_list. cbn [fst snd].
    destruct (H c mt Hin) as (t & v & Et & Hl & Ha).
    rewrite lookup_lookupPath, (proj2 (lookupPath_Some _ _ _) Hl). by apply (Matcher_matches_spec mt t).
Qed.

Lemma matchRules_spec i rs claims scope l : Forall validRule rs ->
  matchRules ParseFloat i rs claims = Ok (scope, l) <->
  exists j r, rs !! j = Some r /\ satisfied r claims /\
    (forall k r', (k < j)%nat -> rs !! k = Some r' -> ~ satisfied r' claims) /\
    scope = Scope r /\ l = ruleLabel r (i + j).
Proof.
  intros H. revert i. induction H as [|r rs Hr H IH]; intros i; simpl.
  - split; [done|]. intros (j & r & E & _). by destruct j.
  - destruct (Rule_matches ParseFloat r claims) eqn:Em.
    + apply Rule_matches_spec in Em; [|done]. split.
      * intros [= <- <-]. exists 0%nat, r. rewrite Nat.add_0_r. split_and!; try done. intros k r' Hk. lia.
      * intros (j & r' & E & Hs & Hf & -> & ->). destruct j as [|j]; [|by destruct (Hf 0%nat r ltac:(lia) eq_refl)].
        injection E as <-. by rewrite Nat.add_0_r.
    + assert (Hn : ~ satisfied r claims) by (rewrite <- Rule_matches_spec by done; congruence).
      rewrite IH. split; intros (j & r' & E & Hs & Hf & -> & ->).
      * exists (S j), r'. split_and!; try done; [|by rewrite Nat.add_succ_r].
        intros [|k] r'' Hk Ek; [by injection Ek as <-|]. eapply (Hf k); [lia|done].
      * destruct j as [|j]; [by injection E as ->|]. exists j, r'. split_and!; try done; [|by rewrite Nat.add_succ_r].
        intros k r'' Hk Ek. apply (Hf (S k)); [lia|done].
Qed.

Lemma matchRules_app i a b claims :
  matchRules ParseFloat i (a ++ b) claims =
  match matchRules ParseFloat i a claims with
  | Ok x => Ok x
  | Err _ => matchRules ParseFloat (i + length a) b claims
  end.
Proof.
  revert i. induction a as [|r a IH]; intros i; simpl; [by rewrite Nat.add_0_r|].
  destruct (Rule_matches _ _ _); [done|]. by rewrite IH, Nat.add_succ_r.
Qed.

(** The scope map is a first-match allowlist: for a map that validates, a scope is
    granted exactly when it is that of the first rule whose every claim resolves to a
    value its single test accepts; the scope granted always names an access, so the
    caller's check of it cannot fail; and rules appended behind decide only what the
    map itself does not. *)
Theorem Map_Match_policy m claims :
  Validate (Some m) = Ok tt ->
  (forall scope l, Map_Match ParseFloat (Some m) claims = Ok (scope, l) <->
    exists i r, Rules m !! i = Some r /\ satisfied r claims /\
      (forall k r', (k < i)%nat -> Rules m !! k = Some r' -> ~ satisfied r' claims) /\
      scope = Scope r /\ l = ruleLabel r i) /\
  (forall scope l, Map_Match ParseFloat (Some m) claims = Ok (scope, l) ->
    exists a, Grant scope = Ok a /\ a <> AccessNone) /\
  (forall other, Map_Match ParseFloat (Append (Some m) (Some other)) claims =
    match Map_Match ParseFloat (Some m) claims with
    | Ok x => Ok x
    | Err _ => matchRules ParseFloat (length (Rules m)) (Rules other) claims
    end).
Proof.
  unfold Validate. case_bool_decide; [done|]. intros Hv%validateRules_Ok.
  split; [|split].
  - intros scope l. apply (matchRules_spec 0 _ claims scope l Hv).
  - intros scope l (i & r & Hr & _ & _ & -> & _)%matchRules_spec; [|done].
    rewrite Forall_forall in Hv. destruct (Hv r) as ([a Ha] & _); [by eapply list_elem_of_lookup_2|].
    exists a. split; [done|]. by destruct (Grant_named _ _ Ha) as (_ & _ & _ & ?).
  - intros other. apply matchRules_app.
Qed.
End Policy.

(** A decimal integer as [ParseFloat] reads it, for the examples. *)
Definition parseDec (s : bytes) : option float64 :=
  match leadingInt 0 s with Some (n, []) => Some (f64ofZ n) | _ => None end.

Definition k8sMap : Map := mkMap [
  mkRule (go "ci") (go "registry:push")
    (<[go "kubernetes.io.namespace" := mkMatcher (VStr (go "ci")) [] [] [] [] []]>
     {[go "sub" := mkMatcher VNull (go "system:serviceaccount:") [] [] [] []]});
  mkRule [] (go "registry:pull") {[go "groups" := mkMatcher VNull [] [] [] [] (go "dev")]}].
Definition k8sClaims (ns : bytes) : claimset :=
  <[go "sub" := VStr (go "system:serviceaccount:ci:runner")]>
  (<[go "groups" := VList [VStr (go "ops"); VStr (go "dev")]]>
   {[go "kubernetes.io" := VObj {[go "namespace" := VStr ns]}]}).

Lemma Map_Match_policy_witness :
  Map_Match parseDec (Some k8sMap) (k8sClaims (go "ci")) = Ok (go "registry:push", Quoted (go "ci")) /\
  Map_Match parseDec (Some k8sMap) (k8sClaims (go "web")) = Ok (go "registry:pull", Position 2) /\
  exists a, Grant (go "registry:push") = Ok a /\ a <> AccessNone.
Proof.
  assert (E : Map_Match parseDec (Some k8sMap) (k8sClaims (go "ci")) = Ok (go "registry:push", Quoted (go "ci")))
    by (vm_compute; reflexivity).
  split; [exact E|]. split; [vm_compute; reflexivity|].
  apply (proj1 (proj2 (Map_Match_policy parseDec k8sMap (k8sClaims (go "ci")) ltac:(vm_compute; reflexivity))) _ _ E).
Defined.

(** ** The catch-all rule *)

(** The map built from CORNUS_JWT_DEFAULT_SCOPE grants its scope to the tokens whose
    subject is a string without a slash, and to no other: its pattern is a glob, and a
    star does not match a slash, so subjects such as [repo:org/app:ref] earn nothing. *)
Theorem DefaultScopeMap_exact ParseFloat scope m claims :
  DefaultScopeMap scope = Ok m ->
  (exists l, Map_Match ParseFloat (Some m) claims = Ok (scope, l)) <->
  exists s, claims !! go "sub" = Some (VStr s) /\ slash ∉ s.
Proof.
  unfold DefaultScopeMap. destruct (Validate _) as [[]|]; [|done]. intros [= <-].
  cbn [Map_Match Rules matchRules]. unfold Rule_matches. cbn [RMatch].
  rewrite map_to_list_singleton. cbn [forallb fst snd].
  assert (El : lookup claims (go "sub") = claims !! go "sub") by (unfold lookup; by destruct (claims !! go "sub")).
  rewrite El. assert (Hm : forall v, Matcher_matches ParseFloat (mkMatcher VNull [] [] (go "*") [] []) v =
    match v with VStr s => negb (containsByte slash s) | _ => false end) by (by intros []).
  destruct (claims !! go "sub") as [v|]; [rewrite Hm; destruct v|]; cbn [andb negb];
    try (split; [intros [? E]; discriminate E|intros (s' & [= ] & _)]).
  destruct (containsByte slash s) eqn:Ec; cbn [negb andb Scope].
  - split; [intros [l E]; discriminate E|]. intros (s' & [= <-] & Hn).
    apply existsb_exists in Ec as (x & Hx & E). apply bool_decide_eq_true in E. subst.
    by destruct Hn; apply list_elem_of_In.
  - split; [|eauto]. intros _. exists s. split; [done|]. intros Hin.
    assert (containsByte slash s = true); [|congruence].
    apply existsb_exists. exists slash. split; [by apply list_elem_of_In|done].
Qed.

Lemma DefaultScopeMap_exact_witness :
  exists m, DefaultScopeMap (go "api") = Ok m /\
    ~ (exists l, Map_Match parseDec (Some m) {[go "sub" := VStr (go "repo:org/app:ref")]} = Ok (go "api", l)) /\
    exists l, Map_Match parseDec (Some m) {[go "sub" := VStr (go "alice")]} = Ok (go "api", l).
Proof.
  eexists. split; [vm_compute; reflexivity|]. split.
  - intros H. apply DefaultScopeMap_exact in H as (s & E & Hn); [|vm_compute; reflexivity].
    vm_compute in E. injection E as <-. apply Hn. apply list_elem_of_In. cbn. tauto.
  - apply DefaultScopeMap_exact; [vm_compute; reflexivity|]. exists (go "alice").
    split; [vm_compute; reflexivity|compute_done].
Defined.
