(* ===== verification/ServerAuth.v ===== *)
(** * ServerAuth: request authentication and the token exchange

    [pkg/server/auth.go]: the authenticator built at startup, the classification of
    requests, the verifier chain of [authenticate], the middleware [wrap] and its
    challenge; [pkg/server/tokenexchange.go]: the exchange endpoint; the registry
    authorization of [pkg/server/server.go] and [pkg/server/apipolicy.go] behind it.

    JWT parsing, signatures and claim validation belong to go-jose: the class [Jose]
    holds the operations the code calls, and [JoseSpec] what it relies on.  Reasons
    for a refusal are values of [reason]; the text they render to is not modelled. *)

From Stdlib Require Import ZArith Lia.
From Stdlib.Strings Require Import Byte.
From stdpp Require Import base list gmap.
From S2P Require Import Prelude GoStd GoNum GoGlob AuthScope.
Open Scope Z_scope.

(** ** Parts of net/http and encoding/base64 *)

(** [strings.EqualFold] against a literal whose letters have no non-ASCII case
    variants; there it is equality up to ASCII case. *)
Definition equalFold (a b : bytes) : bool := bytes_eqb (toLower a) (toLower b).

Definition b64val (c : byte) : option Z :=
  let v := Z_of_byte c in
  if (65 <=? v) && (v <=? 90) then Some (v - 65)
  else if (97 <=? v) && (v <=? 122) then Some (v - 71)
  else if (48 <=? v) && (v <=? 57) then Some (v + 4)
  else if v =? 43 then Some 62
  else if v =? 47 then Some 63
  else None.

Definition pad : byte := Byte.x3d.

(** [base64.StdEncoding.DecodeString] on input without line breaks: groups of four
    characters, the last one padded. *)
Fixpoint b64groups (s : bytes) : option bytes :=
  match s with
  | [] => Some []
  | a :: b :: c :: d :: s' =>
      match b64val a, b64val b with
      | Some x, Some y =>
          let b0 := byte_of_Z (x * 4 + y / 16) in
          match b64val c with
          | Some z =>
              let b1 := byte_of_Z ((y mod 16) * 16 + z / 4) in
              match b64val d with
              | Some w => option_map (fun r => b0 :: b1 :: byte_of_Z ((z mod 4) * 64 + w) :: r) (b64groups s')
              | None => if bool_decide (d = pad) && bool_decide (s' = []) then Some [b0; b1] else None
              end
          | None =>
              if bool_decide (c = pad) && bool_decide (d = pad) && bool_decide (s' = []) then Some [b0] else None
          end
      | _, _ => None
      end
  | _ => None
  end.
Definition b64decode (s : bytes) : option bytes :=
  b64groups (filter (fun c => c <> Byte.x0a /\ c <> Byte.x0d) s).

(** What the handlers read of a request.  [TLS] holds whether a chain was verified
    and the subject names of the peer certificates; [Form] is the parsed form. *)
Record tlsState := mkTLS { VerifiedChains : bool; PeerCertificates : list bytes }.
Record request := mkRequest {
  Method : bytes; Path : bytes; Authorization : bytes; TLS : option tlsState; Form : res unit (gmap bytes bytes) }.

(** [r.BasicAuth()] *)
Definition BasicAuth (r : request) : option (bytes * bytes) :=
  let auth := Authorization r in
  let prefix := go "Basic " in
  if (length auth <? length prefix)%nat || negb (equalFold (take (length prefix) auth) prefix) then None else
  match b64decode (drop (length prefix) auth) with
  | None => None
  | Some c => cutByte Byte.x3a c
  end.

Definition bearerToken (r : request) : option bytes :=
  let h := Authorization r in
  if bytes_eqb h [] then None else
  let prefix := go "Bearer " in
  if (length h <=? length prefix)%nat || negb (equalFold (take (length prefix) h) prefix) then None else
  let tok := trimSpace (drop (length prefix) h) in
  if bytes_eqb tok [] then None else Some tok.

Definition verifiedIdentity (r : request) : bytes :=
  match TLS r with
  | None => []
  | Some t =>
      if negb (VerifiedChains t) then []
      else match PeerCertificates t with [] => [] | cn :: _ => cn end
  end.

Definition parseBoolEnv (s : bytes) : bool :=
  let v := toLower (trimSpace s) in
  bytes_eqb v (go "1") || bytes_eqb v (go "true") || bytes_eqb v (go "yes") || bytes_eqb v (go "on").

(** ** Classification of requests *)

Definition caretakerPath : bytes := go "/.cornus/v1/caretaker/attach".

Definition endpointForRequest (r : request) : Endpoint :=
  let path := Path r in
  if bytes_eqb path (go "/.cornus/v1/hub/forward") || bytes_eqb path (go "/.cornus/v1/mount/forward") ||
     bytes_eqb path (go "/.cornus/v1/cred/forward") then EndpointPeerForward
  else if bytes_eqb path caretakerPath then EndpointCaretaker
  else if bytes_eqb path (go "/v2") || hasPrefix path (go "/v2/") then
    if bytes_eqb (Method r) (go "GET") || bytes_eqb (Method r) (go "HEAD")
    then EndpointRegistryPull else EndpointRegistryPush
  else EndpointAPI.

(** ** Keys, go-jose and the standard library's crypto *)

Inductive alg := HS256 | RS256 | RS384 | RS512 | ES256 | ES384 | ES512 | PS256 | PS384 | PS512.
#[global] Instance alg_eq_dec : EqDecision alg.
Proof. solve_decision. Defined.

(** Times of claims are seconds since the epoch; [ExpTime] and leeways nanoseconds. *)
Record Claims := mkClaims {
  Subject : bytes; Issuer : bytes; Audience : list bytes;
  Expiry : option Z; NotBefore : option Z; IssuedAt : option Z; ClaimScope : bytes }.
Record Expected := mkExpected { ExpIssuer : bytes; AnyAudience : list bytes; ExpTime : Z }.

(** Public and private keys, and their encodings (crypto/x509, encoding/pem). *)
Class Crypto := {
  rsaPub : Type; ecPub : Type; rsaPriv : Type; ecPriv : Type;
  isP256 : ecPub -> bool;
  rsaPublic : rsaPriv -> rsaPub;
  ecPublic : ecPriv -> ecPub;
  pemDecode : bytes -> option (bytes * bytes * bytes);
  parsePKIX : bytes -> option (rsaPub + ecPub + unit);
  parsePKCS1Public : bytes -> option rsaPub;
  parseCertificate : bytes -> option (rsaPub + ecPub + unit);
  parsePKCS8 : bytes -> option (rsaPriv + ecPriv + unit);
  parsePKCS1 : bytes -> option rsaPriv;
  parseECPrivate : bytes -> option ecPriv
}.

(** The [any] a verifier is given: a secret, a public key, or a key of another kind. *)
Inductive key `{Crypto} := KHmac (secret : bytes) | KRsa (k : rsaPub) | KEc (k : ecPub) | KOther.
Inductive signKey `{Crypto} := SHmac (secret : bytes) | SRsa (k : rsaPriv) | SEc (k : ecPriv).
Definition verifyKey `{Crypto} (sk : signKey) : key :=
  match sk with SHmac s => KHmac s | SRsa k => KRsa (rsaPublic k) | SEc k => KEc (ecPublic k) end.

Class Jose `{Crypto} := {
  jws : Type;
  ParseSigned : bytes -> list alg -> option jws;
  KeyIDs : jws -> list bytes;
  ClaimsOf : jws -> key -> option (Claims * claimset);
  ValidateWithLeeway : Claims -> Expected -> Z -> bool;
  Sign : alg -> signKey -> bytes -> Claims -> option bytes
}.

Definition second : Z := 1000000000.
Definition minute : Z := 60 * second.

(** Strings JSON carries unchanged. *)
Definition validUtf8 (s : bytes) : bool :=
  forallb (fun g => negb ((fst (decodeRune g) =? RuneError) && (length g =? 1)%nat)) (runes s).
Definition jsonClaims (c : Claims) : bool :=
  validUtf8 (Subject c) && validUtf8 (Issuer c) && forallb validUtf8 (Audience c) && validUtf8 (ClaimScope c).

(** What the code relies on: a signed token parses under its algorithm and yields its
    claims under the signer's key; claims are JSON strings; they validate as RFC 7519
    says. *)
Class JoseSpec `{Jose} : Prop := {
  sign_verify a sk kid c tok algs :
    Sign a sk kid c = Some tok -> a ∈ algs -> jsonClaims c = true ->
    exists p raw, ParseSigned tok algs = Some p /\ KeyIDs p = [kid] /\ ClaimsOf p (verifyKey sk) = Some (c, raw);
  claims_json p k c raw : ClaimsOf p k = Some (c, raw) -> jsonClaims c = true;
  validate_spec c e leeway :
    ValidateWithLeeway c e leeway = true <->
    (ExpIssuer e = [] \/ ExpIssuer e = Issuer c) /\
    (AnyAudience e = [] \/ exists x, x ∈ AnyAudience e /\ x ∈ Audience c) /\
    (forall t, NotBefore c = Some t -> t * second <= ExpTime e + leeway) /\
    (forall t, Expiry c = Some t -> ExpTime e - leeway <= t * second) /\
    (forall t, IssuedAt c = Some t -> t * second <= ExpTime e + leeway)
}.

(** ** authtoken.Issue *)

Section Auth.
Context `{Jose} (ParseFloat : bytes -> option float64).

Record IssueOptions := mkIssue {
  o_Subject : bytes; o_Scope : bytes; o_Issuer : bytes; o_Audience : bytes; o_TTL : Z;
  o_KeyID : bytes; o_HS256Secret : bytes; o_PrivateKeyPEM : bytes }.

Inductive issueErr := ErrTwoKeys | ErrNoPEM | ErrPEMType | ErrParseKey | ErrKeyType | ErrNoKey | ErrTTL
| ErrScope (e : scopeErr) | ErrSign.

Definition parsePrivateKey (raw : bytes) : res issueErr (signKey * alg) :=
  match pemDecode raw with
  | None => Err ErrNoPEM
  | Some (ty, der, _) =>
      let any := if bytes_eqb ty (go "PRIVATE KEY") then Ok (parsePKCS8 der)
                 else if bytes_eqb ty (go "RSA PRIVATE KEY") then Ok (option_map (fun k => inl (inl k)) (parsePKCS1 der))
                 else if bytes_eqb ty (go "EC PRIVATE KEY") then Ok (option_map (fun k => inl (inr k)) (parseECPrivate der))
                 else Err ErrPEMType in
      any ≫= fun k =>
      match k with
      | None => Err ErrParseKey
      | Some (inl (inl k)) => Ok (SRsa k, RS256)
      | Some (inl (inr k)) => Ok (SEc k, ES256)
      | Some (inr _) => Err ErrKeyType
      end
  end.

(** [now] is the clock, in nanoseconds ([opts.Now] is only set by tests and by the
    peer credential, to the same clock). *)
Definition Issue (now : Z) (opts : IssueOptions) : res issueErr bytes :=
  let hasSecret := negb (bytes_eqb (o_HS256Secret opts) []) in
  let hasPEM := negb (bytes_eqb (o_PrivateKeyPEM opts) []) in
  if hasSecret && hasPEM then Err ErrTwoKeys else
  sk ← (if hasSecret then Ok (SHmac (o_HS256Secret opts), HS256)
        else if hasPEM then parsePrivateKey (o_PrivateKeyPEM opts) else Err ErrNoKey);
  if o_TTL opts <=? 0 then Err ErrTTL else
  match Grant (o_Scope opts) with
  | Err e => Err (ErrScope e)
  | Ok _ =>
      let cl := mkClaims (o_Subject opts) (o_Issuer opts)
                  (if bytes_eqb (o_Audience opts) [] then [] else [o_Audience opts])
                  (Some ((now + o_TTL opts) / second)) (Some (now / second)) (Some (now / second)) (o_Scope opts) in
      match Sign (snd sk) (fst sk) (o_KeyID opts) cl with Some tok => Ok tok | None => Err ErrSign end
  end.

(** ** The authenticator *)

Record jwtVerifier := mkVerifier { algs : list alg; vkey : key }.

Inductive lookupErr := LookupFailed.

(** Empty byte slices stand for nil ones: the code tests both by length.  [jwks] is
    what the resolver answers for a key id at the time of the request; [sshKeys]
    whether an SSH key store is configured. *)
Record authenticator := mkAuth {
  staticToken : bytes; jwt : list jwtVerifier; issuer : bytes; audience : bytes; anonPull : bool;
  caretakerToken : bytes; jwks : option (bytes -> option key); scopeMap : option Map; mtls : bool;
  internal : option jwtVerifier; internalSecret : bytes; sshKeys : bool; sshJWT : option jwtVerifier;
  exchangeJWT : option jwtVerifier; peerKeyLookup : option (bytes -> res lookupErr (option bytes)) }.

Definition isSome {A} (o : option A) : bool := match o with Some _ => true | None => false end.

Definition enabled (a : authenticator) : bool :=
  negb (bytes_eqb (staticToken a) []) || negb (bool_decide (length (jwt a) = 0%nat)) ||
  negb (bytes_eqb (caretakerToken a) []) || isSome (jwks a) || mtls a || sshKeys a.

(** *** Startup *)

Inductive startErr := ErrJWKS | ErrSSHKeys | ErrPublicKey | ErrScopeMap | ErrDefaultScope (e : mapErr) | ErrSecret.

Definition loadPublicKeyVerifier (readFile : bytes -> option bytes) (path : bytes) : option jwtVerifier :=
  raw ← readFile path;
  '(ty, der, _) ← pemDecode raw;
  pub ← (if bytes_eqb ty (go "PUBLIC KEY") then parsePKIX der
         else if bytes_eqb ty (go "RSA PUBLIC KEY") then option_map (fun k => inl (inl k)) (parsePKCS1Public der)
         else if bytes_eqb ty (go "CERTIFICATE") then parseCertificate der
         else None);
  match pub with
  | inl (inl k) => Some (mkVerifier [RS256] (KRsa k))
  | inl (inr k) => Some (mkVerifier [ES256] (KEc k))
  | inr _ => None
  end.

(** The environment and files the startup reads: variables, the files, the resolver
    and the key store it builds, the parsed YAML of a scope map file, and the
    installation secret. *)
Record startup := mkStartup {
  Getenv : bytes -> bytes; readFile : bytes -> option bytes; tlsClientCA : bytes;
  newJWKSResolver : res unit (option (bytes -> option key));
  newSSHKeyStore : res unit bool;
  unmarshalMap : bytes -> option Map;
  loadInstallationSecret : res unit bytes }.

(** [authscope.Load]: read, parse, validate. *)
Definition Load (st : startup) (path : bytes) : option Map :=
  raw ← readFile st path; m ← unmarshalMap st raw;
  match Validate (Some m) with Ok _ => Some m | Err _ => None end.

(** The keys configured by the operator. *)
Definition operatorKeys (st : startup) : res startErr (list jwtVerifier) :=
  let secret := Getenv st (go "CORNUS_JWT_HS256_SECRET") in
  let jwt1 := if bytes_eqb secret [] then [] else [mkVerifier [HS256] (KHmac secret)] in
  let path := Getenv st (go "CORNUS_JWT_PUBLIC_KEY") in
  if bytes_eqb path [] then Ok jwt1 else
  match loadPublicKeyVerifier (readFile st) path with Some v => Ok (jwt1 ++ [v]) | None => Err ErrPublicKey end.

(** The scope map: the file's rules, then the catch-all. *)
Definition configuredMap (st : startup) : res startErr (option Map) :=
  let path := Getenv st (go "CORNUS_JWT_SCOPE_MAP") in
  let scope := trimSpace (Getenv st (go "CORNUS_JWT_DEFAULT_SCOPE")) in
  sm ← (if bytes_eqb path [] then Ok None else
        match Load st path with Some m => Ok (Some m) | None => Err ErrScopeMap end);
  if bytes_eqb scope [] then Ok sm else
  match DefaultScopeMap scope with Ok m => Ok (Append sm (Some m)) | Err e => Err (ErrDefaultScope e) end.

Definition withInstallationSecret (a : authenticator) (sec : bytes) : authenticator :=
  let v := Some (mkVerifier [HS256] (KHmac sec)) in
  mkAuth (staticToken a) (jwt a) (issuer a) (audience a) (anonPull a) (caretakerToken a) (jwks a)
    (scopeMap a) (mtls a) v sec (sshKeys a) (if sshKeys a then v else None) v (peerKeyLookup a).

Definition newAuthenticator (st : startup) : res startErr authenticator :=
  let env := Getenv st in
  jw ← (match newJWKSResolver st with Ok j => Ok j | Err _ => Err ErrJWKS end);
  ssh ← (match newSSHKeyStore st with Ok b => Ok b | Err _ => Err ErrSSHKeys end);
  keys ← operatorKeys st;
  sm ← configuredMap st;
  let a := mkAuth (env (go "CORNUS_AUTH_TOKEN")) keys (trimSpace (env (go "CORNUS_JWT_ISSUER")))
             (env (go "CORNUS_JWT_AUDIENCE")) (parseBoolEnv (env (go "CORNUS_REGISTRY_ANONYMOUS_PULL")))
             (env (go "CORNUS_CARETAKER_TOKEN")) jw sm (negb (bytes_eqb (tlsClientCA st) []))
             None [] ssh None None None in
  if enabled a then
    match loadInstallationSecret st with Ok sec => Ok (withInstallationSecret a sec) | Err _ => Err ErrSecret end
  else Ok a.

(** *** Verifiers *)

Definition internalIssuer : bytes := go "cornus:internal".
Definition internalAudience : bytes := go "cornus:internal".
Definition sshKeyIssuer : bytes := go "cornus:ssh-key".
Definition sshKeyAudience : bytes := go "cornus:ssh-key".
Definition peerIssuer : bytes := go "cornus:peer".
Definition peerAudience : bytes := go "cornus:peer".
Definition exchangeIssuer : bytes := go "cornus:exchange".
Definition exchangeAudience : bytes := go "cornus:exchange".
Definition exchangeTokenTTL : Z := 60 * minute.

Definition validClaimsFor (now : Z) (claims : Claims) (iss aud : bytes) : bool :=
  match Expiry claims with
  | None => false
  | Some _ => ValidateWithLeeway claims (mkExpected iss (if bytes_eqb aud [] then [] else [aud]) now) minute
  end.

Definition verifyFixedJWT (now : Z) (v : jwtVerifier) (token iss aud : bytes) : option (bytes * bytes) :=
  parsed ← ParseSigned token (algs v);
  '(claims, _) ← ClaimsOf parsed (vkey v);
  if validClaimsFor now claims iss aud then Some (Subject claims, ClaimScope claims) else None.

Definition verifyJWT (now : Z) (a : authenticator) (v : jwtVerifier) (token : bytes) : option (bytes * claimset) :=
  parsed ← ParseSigned token (algs v);
  '(claims, raw) ← ClaimsOf parsed (vkey v);
  if validClaimsFor now claims (issuer a) (audience a) then Some (Subject claims, raw) else None.

Definition jwksAlgs : list alg := [RS256; RS384; RS512; ES256; ES384; ES512; PS256; PS384; PS512].

Definition verifyJWKS (now : Z) (a : authenticator) (find : bytes -> option key) (token : bytes)
    : option (bytes * claimset) :=
  parsed ← ParseSigned token jwksAlgs;
  kid ← head (KeyIDs parsed);
  k ← find kid;
  '(claims, raw) ← ClaimsOf parsed k;
  if validClaimsFor now claims (issuer a) (audience a) then Some (Subject claims, raw) else None.

Inductive peerRes := PeerErr | PeerNo | PeerOk (subject scope : bytes).

Definition verifyPeerJWT (now : Z) (lookupKey : bytes -> res lookupErr (option bytes)) (token : bytes) : peerRes :=
  match ParseSigned token [ES256] with
  | None => PeerNo
  | Some parsed =>
      match KeyIDs parsed with
      | [kid] =>
          if bytes_eqb kid [] then PeerErr else
          match lookupKey kid with
          | Err _ | Ok None => PeerErr
          | Ok (Some publicPEM) =>
              match pemDecode publicPEM with
              | Some (ty, der, []) =>
                  if negb (bytes_eqb ty (go "PUBLIC KEY")) then PeerErr else
                  match parsePKIX der with
                  | Some (inl (inr pub)) =>
                      if negb (isP256 pub) then PeerErr else
                      match ClaimsOf parsed (KEc pub) with
                      | None => PeerNo
                      | Some (claims, _) =>
                          if negb (bytes_eqb (Subject claims) kid) ||
                             negb (validClaimsFor now claims peerIssuer peerAudience)
                          then PeerNo else PeerOk (Subject claims) (ClaimScope claims)
                      end
                  | _ => PeerErr
                  end
              | _ => PeerErr
              end
          end
      | _ => PeerErr
      end
  end.

Definition claimString (claims : claimset) (name : bytes) : bytes :=
  match claims !! name with Some (VStr s) => s | _ => [] end.

(** *** The decision *)

(** Why a credential that verified was refused; [RNone] for an absent or
    unverifiable one. *)
Inductive reason :=
| RNone
| RCaretakerToken
| RScope (e : scopeErr)
| RAccess (a : Access) (e : Endpoint)
| RNoMap
| RNoRule
| RRule (l : label) (a : Access) (e : Endpoint).

Inductive decision := Accept (subject : bytes) (internal : bool) | Refuse (why : reason).

Definition scopedResult (endpoint : Endpoint) (sub scope : bytes) (int : bool) : decision :=
  match Grant scope with
  | Err e => Refuse (RScope e)
  | Ok access => if Allows access endpoint then Accept sub int else Refuse (RAccess access endpoint)
  end.

Definition externalResult (a : authenticator) (endpoint : Endpoint) (sub : bytes) (claims : claimset) : decision :=
  match Map_Match ParseFloat (scopeMap a) claims with
  | Err _ => Refuse (if isSome (scopeMap a) then RNoRule else RNoMap)
  | Ok (scope, rule) =>
      match Grant scope with
      | Err e => Refuse (RScope e)
      | Ok access => if Allows access endpoint then Accept sub false else Refuse (RRule rule access endpoint)
      end
  end.

(** The first operator key that verifies the token. *)
Fixpoint firstJWT (now : Z) (a : authenticator) (vs : list jwtVerifier) (token : bytes) : option (bytes * claimset) :=
  match vs with
  | [] => None
  | v :: vs => match verifyJWT now a v token with Some x => Some x | None => firstJWT now a vs token end
  end.

Definition verifyOpt (now : Z) (v : option jwtVerifier) (token iss aud : bytes) : option (bytes * bytes) :=
  v ← v; verifyFixedJWT now v token iss aud.

Definition authenticateToken (now : Z) (a : authenticator) (endpoint : Endpoint) (token : bytes) : decision :=
  if negb (bytes_eqb (staticToken a) []) && bytes_eqb token (staticToken a) then Accept [] false else
  if negb (bytes_eqb (caretakerToken a) []) && bytes_eqb token (caretakerToken a) then
    if bool_decide (endpoint = EndpointCaretaker) then Accept [] false else Refuse RCaretakerToken else
  match verifyOpt now (internal a) token internalIssuer internalAudience with
  | Some (sub, scope) => scopedResult endpoint sub scope true
  | None =>
  match verifyOpt now (sshJWT a) token sshKeyIssuer sshKeyAudience with
  | Some (sub, scope) => scopedResult endpoint sub scope false
  | None =>
  match verifyOpt now (exchangeJWT a) token exchangeIssuer exchangeAudience with
  | Some (sub, scope) => scopedResult endpoint sub scope false
  | None =>
  match firstJWT now a (jwt a) token with
  | Some (sub, claims) =>
      let scope := claimString claims (go "scope") in
      match Grant scope with
      | Ok _ => scopedResult endpoint sub scope false
      | Err _ => externalResult a endpoint sub claims
      end
  | None =>
  match (find ← jwks a; verifyJWKS now a find token) with
  | Some (sub, claims) => externalResult a endpoint sub claims
  | None =>
      match endpoint, peerKeyLookup a with
      | EndpointPeerForward, Some lookupKey =>
          match verifyPeerJWT now lookupKey token with
          | PeerOk sub scope => scopedResult endpoint sub scope false
          | _ => Refuse RNone
          end
      | _, _ => Refuse RNone
      end
  end end end end end.

(** The credential a request presents besides a client certificate. *)
Definition presented (r : request) (allowBasic : bool) : option bytes :=
  match bearerToken r with
  | Some tok => Some tok
  | None =>
      if allowBasic then
        match BasicAuth r with
        | Some (_, pw) => if bytes_eqb pw [] then None else Some pw
        | None => None
        end
      else None
  end.

Definition authenticate (now : Z) (a : authenticator) (r : request) (endpoint : Endpoint) (allowBasic : bool)
    : decision :=
  let id := verifiedIdentity r in
  if negb (bytes_eqb id []) then Accept id false else
  match presented r allowBasic with
  | None => Refuse RNone
  | Some token => authenticateToken now a endpoint token
  end.

(** *** The middleware *)

(** What the wrapped handler sees, or the 401 the client gets. *)
Inductive outcome := Serve (subject : bytes) (internal : bool) | Challenge (isRegistry : bool) (why : reason).

Definition openPaths : list bytes :=
  [go "/healthz"; go "/readyz"; go "/metrics"; go "/.cornus/v1/info"; go "/.cornus/v1/auth/enroll";
   go "/.cornus/v1/auth/token"; go "/.cornus/v1/auth/exchange"].

Definition wrap (now : Z) (a : authenticator) (r : request) : outcome :=
  if negb (enabled a) then Serve [] false else
  if bool_decide (Path r ∈ openPaths) then Serve [] false else
  let endpoint := endpointForRequest r in
  let isRegistry := bool_decide (endpoint = EndpointRegistryPull) || bool_decide (endpoint = EndpointRegistryPush) in
  if bool_decide (endpoint = EndpointRegistryPull) && anonPull a then
    match authenticate now a r endpoint true with
    | Accept sub int => Serve sub int
    | Refuse _ => Serve [] false
    end
  else
    match authenticate now a r endpoint isRegistry with
    | Accept sub int => Serve sub int
    | Refuse why => Challenge isRegistry why
    end.

(** ** The token exchange *)

Definition grantTypeTokenExchange : bytes := go "urn:ietf:params:oauth:grant-type:token-exchange".
Definition tokenTypeAccessToken : bytes := go "urn:ietf:params:oauth:token-type:access_token".
Definition tokenTypeJWT : bytes := go "urn:ietf:params:oauth:token-type:jwt".
Definition tokenTypeIDToken : bytes := go "urn:ietf:params:oauth:token-type:id_token".

Definition issuableAccess (a : Access) : bool :=
  match a with AccessFull | AccessRegistryPush | AccessRegistryPull => true | _ => false end.

Inductive oauthKind := InvalidRequest | UnsupportedGrantType | InvalidGrant | InvalidScope | ServerError.
Inductive reply := OAuthError (code : Z) (kind : oauthKind) | Issued (token scope : bytes) (expiresIn : Z).

Definition verifyExternalSubject (now : Z) (a : authenticator) (token : bytes) : option (bytes * claimset) :=
  match firstJWT now a (jwt a) token with
  | Some x => Some x
  | None => find ← jwks a; verifyJWKS now a find token
  end.

Definition formGet (form : gmap bytes bytes) (k : bytes) : bytes := default [] (form !! k).

(** The route exists only where it can do anything. *)
Definition exchangeRegistered (a : authenticator) : bool :=
  negb (bytes_eqb (internalSecret a) []) &&
  (negb (bool_decide (length (jwt a) = 0%nat)) || isSome (jwks a)).

(** A requested scope may only narrow what the map granted. *)
Definition narrowScope (mapped : Access) (mappedScope requested : bytes) : res unit bytes :=
  if bytes_eqb requested [] then Ok mappedScope else
  match Grant requested with
  | Err _ => Err tt
  | Ok want =>
      if negb (issuableAccess want) then Err tt
      else if negb (Contains mapped want) then Err tt else Ok requested
  end.

Definition handleTokenExchange (now : Z) (a : authenticator) (r : request) : reply :=
  if negb (bytes_eqb (Method r) (go "POST")) then OAuthError 405 InvalidRequest else
  match Form r with
  | Err _ => OAuthError 400 InvalidRequest
  | Ok form =>
  if negb (bytes_eqb (formGet form (go "grant_type")) grantTypeTokenExchange)
    then OAuthError 400 UnsupportedGrantType else
  let subjectToken := trimSpace (formGet form (go "subject_token")) in
  if bytes_eqb subjectToken [] then OAuthError 400 InvalidRequest else
  if negb (bool_decide (formGet form (go "subject_token_type") ∈ [tokenTypeJWT; tokenTypeAccessToken; tokenTypeIDToken]))
    then OAuthError 400 InvalidRequest else
  if negb (bytes_eqb (formGet form (go "actor_token")) []) then OAuthError 400 InvalidRequest else
  if negb (bool_decide (formGet form (go "requested_token_type") ∈ [[]; tokenTypeAccessToken; tokenTypeJWT]))
    then OAuthError 400 InvalidRequest else
  match verifyExternalSubject now a subjectToken with
  | None => OAuthError 400 InvalidGrant
  | Some (subject, claims) =>
  match Map_Match ParseFloat (scopeMap a) claims with
  | Err _ => OAuthError 400 InvalidGrant
  | Ok (mappedScope, _) =>
  match Grant mappedScope with
  | Err _ => OAuthError 500 ServerError
  | Ok mapped =>
  if negb (issuableAccess mapped) then OAuthError 400 InvalidGrant else
  match narrowScope mapped mappedScope (trimSpace (formGet form (go "scope"))) with
  | Err _ => OAuthError 400 InvalidScope
  | Ok issuedScope =>
  match Issue now (mkIssue subject issuedScope exchangeIssuer exchangeAudience exchangeTokenTTL []
                     (internalSecret a) []) with
  | Err _ => OAuthError 500 ServerError
  | Ok token => Issued token issuedScope (exchangeTokenTTL / second)
  end end end end end end.
End Auth.

(** ** Authorization of registry requests by identity *)

Record apiPolicy := mkPolicy { rules : gmap bytes (gset bytes) }.

Definition newAPIPolicy (rs : gmap bytes (list bytes)) : option apiPolicy :=
  if bool_decide (rs = ∅) then None else Some (mkPolicy (list_to_set <$> rs)).

Definition Allow (p : option apiPolicy) (identity action : bytes) : bool :=
  match p with
  | None => true
  | Some p =>
      if bytes_eqb identity [] then false else
      let actions := default ∅ (rules p !! identity) in
      bool_decide (action ∈ actions) || bool_decide (go "*" ∈ actions)
  end.

Definition AllowExec (p : option apiPolicy) (identity : bytes) : bool :=
  Allow p identity (go "exec") || Allow p identity (go "deploy").
Definition AllowTunnel (p : option apiPolicy) (identity : bytes) : bool :=
  Allow p identity (go "tunnel") || Allow p identity (go "deploy").

Definition MentionsAction (p : option apiPolicy) (action : bytes) : bool :=
  match p with
  | None => false
  | Some p => existsb (fun ia : bytes * gset bytes => bool_decide (action ∈ snd ia)) (map_to_list (rules p))
  end.

Definition isRegistryWrite (m : bytes) : bool :=
  bytes_eqb m (go "POST") || bytes_eqb m (go "PATCH") || bytes_eqb m (go "PUT") || bytes_eqb m (go "DELETE").
Definition isRegistryRead (m : bytes) : bool := bytes_eqb m (go "GET") || bytes_eqb m (go "HEAD").
Definition isRegistryPing (p : bytes) : bool := bytes_eqb p (go "/v2") || bytes_eqb p (go "/v2/").

Inductive verdict := Next | Forbidden (action : bytes).

Definition registryAuthz (p : option apiPolicy) (r : request) (identity : bytes) (int : bool) : verdict :=
  match p with
  | None => Next
  | Some _ =>
      let isRegistry := bytes_eqb (Path r) (go "/v2") || hasPrefix (Path r) (go "/v2/") in
      if isRegistry && int then Next
      else if isRegistry && isRegistryWrite (Method r) && negb (Allow p identity (go "push"))
      then Forbidden (go "push")
      else if MentionsAction p (go "pull") && isRegistry && isRegistryRead (Method r) &&
              negb (isRegistryPing (Path r)) && negb (Allow p identity (go "pull"))
      then Forbidden (go "pull")
      else Next
  end.

(** [Server.Handler]: authentication, then the registry authorization, then the mux. *)
Inductive handled := ToMux (identity : bytes) (int : bool) | Denied403 (action : bytes) | Denied401 (isRegistry : bool) (why : reason).

Definition Handler `{Jose} (PF : bytes -> option float64) (now : Z) (a : authenticator) (p : option apiPolicy) (r : request)
    : handled :=
  match wrap PF now a r with
  | Challenge isReg why => Denied401 isReg why
  | Serve sub int =>
      match registryAuthz p r sub int with
      | Next => ToMux sub int
      | Forbidden act => Denied403 act
      end
  end.

(** ** The challenge header *)

Definition replacement : bytes := [Byte.xef; Byte.xbf; Byte.xbd].

(** [strings.Map] over the runes; a byte that is no rune becomes the replacement
    character. *)
Definition headerSafeSeg (g : bytes) : bytes :=
  let r := fst (decodeRune g) in
  if (r =? 34) || (r =? 92) || (r =? 13) || (r =? 10) then go " "
  else if (r <? 32) || (r =? 127) then go " "
  else if (r =? RuneError) && (length g =? 1)%nat then replacement
  else g.
Definition headerSafe (s : bytes) : bytes := concat (map headerSafeSeg (runes s)).

(** The [WWW-Authenticate] value of a 401, [why] being the rendered reason. *)
Definition challenge (isRegistry : bool) (why : bytes) : bytes :=
  if isRegistry then go "Basic realm=" ++ Byte.x22 :: go "cornus" ++ [Byte.x22]
  else if negb (bytes_eqb why []) then
    go "Bearer error=" ++ Byte.x22 :: go "insufficient_scope" ++ Byte.x22 :: go ", error_description=" ++
    Byte.x22 :: headerSafe why ++ [Byte.x22]
  else go "Bearer".
