(* ===== verification/AuthSafety.v ===== *)
(** * AuthSafety: what the authenticator lets through

    Theorems on [ServerAuth]: the verifiers built at startup bind their algorithms to
    the kind of their key; every accepted request is entitled by one of the documented
    credentials; what reaches the mux behind the registry policy; and the exchange,
    composed with the authenticator that later sees the credential it minted. *)

From Stdlib Require Import ZArith Lia.
From Stdlib.Strings Require Import Byte.
From stdpp Require Import base list gmap.
From S2P Require Import Prelude GoStd GoNum GoGlob AuthScope ServerAuth.
Open Scope Z_scope.

Section Safety.
Context `{J : Jose} (ParseFloat : bytes -> option float64).

(** ** Startup *)

(** A verifier whose algorithms fit its key: no HMAC under a public key. *)
Definition boundVerifier (v : jwtVerifier) : Prop :=
  (algs v = [HS256] /\ exists s, s <> [] /\ vkey v = KHmac s) \/
  (algs v = [RS256] /\ exists k, vkey v = KRsa k) \/
  (algs v = [ES256] /\ exists k, vkey v = KEc k).

(** The verifiers of credentials cornus mints exist together, under the installation
    secret, and only when an operator credential turned authentication on. *)
Definition mintedVerifiers (a : authenticator) : Prop :=
  if enabled a then
    let v := Some (mkVerifier [HS256] (KHmac (internalSecret a))) in
    internal a = v /\ exchangeJWT a = v /\ sshJWT a = (if sshKeys a then v else None)
  else internal a = None /\ sshJWT a = None /\ exchangeJWT a = None /\ internalSecret a = [].

Definition validMap (m : option Map) : Prop := forall x, m = Some x -> Forall validRule (Rules x).

Record wfAuth (a : authenticator) : Prop := {
  wf_jwt : Forall boundVerifier (jwt a);
  wf_minted : mintedVerifiers a;
  wf_map : validMap (scopeMap a)
}.

Lemma loadPublicKeyVerifier_bound rd path v : loadPublicKeyVerifier rd path = Some v ->
  boundVerifier v /\ algs v <> [HS256].
Proof.
  unfold loadPublicKeyVerifier. intros E. destruct (rd path); [|done]. cbn in E.
  destruct (pemDecode _) as [[[ty der] rest]|]; [|done]. cbn in E.
  match type of E with (?x ≫= _ = _) => destruct x as [[[k|k]|u]|] end; cbn in E; try done;
    injection E as <-; split; try done; unfold boundVerifier; cbn; eauto.
Qed.

Lemma Validate_validMap m : Validate (Some m) = Ok tt -> validMap (Some m).
Proof.
  unfold Validate. case_bool_decide; [done|]. intros Hv%validateRules_Ok x [= <-]. done.
Qed.

Lemma Append_valid m o : validMap m -> validMap o -> validMap (Append m o).
Proof.
  destruct m as [m|], o as [o|]; try done. intros Hm Ho x [= <-]. cbn. apply Forall_app. split; [by apply Hm|by apply Ho].
Qed.

Lemma Load_valid st path m : Load st path = Some m -> validMap (Some m).
Proof.
  unfold Load. destruct (readFile st path); [|done]. cbn [mbind option_bind].
  destruct (unmarshalMap st _) as [x|]; [|done]. cbn [mbind option_bind].
  destruct (Validate (Some x)) as [[]|] eqn:E; [|done]. intros [= <-]. by apply Validate_validMap.
Qed.

Lemma DefaultScopeMap_valid s m : DefaultScopeMap s = Ok m -> validMap (Some m).
Proof.
  unfold DefaultScopeMap. destruct (Validate _) as [[]|] eqn:E; [|done]. intros [= <-]. by apply Validate_validMap.
Qed.

(** [inv_bind H x E] splits a result that is a bind into its first part and the rest. *)
Ltac inv_bind H x E :=
  match type of H with
  | mbind _ ?m = Ok _ => destruct m as [x|?] eqn:E; [|discriminate H]; cbn [mbind res_bind] in H
  end.

Lemma operatorKeys_bound st keys : operatorKeys st = Ok keys -> Forall boundVerifier keys.
Proof.
  unfold operatorKeys. set (secret := Getenv st (go "CORNUS_JWT_HS256_SECRET")).
  assert (H1 : Forall boundVerifier (if bytes_eqb secret [] then [] else [mkVerifier [HS256] (KHmac secret)])).
  { destruct (bytes_eqb secret []) eqn:Es; [constructor|]. apply bool_decide_eq_false in Es.
    apply List.Forall_cons; [|constructor]. left. split; [done|]. by eexists. }
  destruct (bytes_eqb (Getenv st (go "CORNUS_JWT_PUBLIC_KEY")) []); [by intros [= <-]|].
  destruct (loadPublicKeyVerifier _ _) as [v|] eqn:Ev; [|done]. intros [= <-]. apply Forall_app. split; [done|].
  apply List.Forall_cons; [|constructor]. by eapply loadPublicKeyVerifier_bound.
Qed.

Lemma configuredMap_valid st m : configuredMap st = Ok m -> validMap m.
Proof.
  unfold configuredMap. intros E. inv_bind E sm E1.
  assert (Hm : validMap sm).
  { clear E. destruct (bytes_eqb _ _); [by injection E1 as <-|]. destruct (Load _ _) eqn:El; [|done].
    injection E1 as <-. by eapply Load_valid. }
  clear E1.
  destruct (bytes_eqb _ _); [by injection E as <-|]. destruct (DefaultScopeMap _) eqn:Ed; [|done].
  injection E as <-. apply Append_valid; [done|]. by eapply DefaultScopeMap_valid.
Qed.

Lemma newAuthenticator_wf st a : newAuthenticator st = Ok a -> wfAuth a.
Proof.
  unfold newAuthenticator. intros E. inv_bind E jw E1. inv_bind E ssh E2. inv_bind E keys E3. inv_bind E sm E4.
  apply operatorKeys_bound in E3. apply configuredMap_valid in E4.
  match type of E with (if enabled ?x then _ else _) = _ => set (a0 := x) in E end.
  destruct (enabled a0) eqn:En.
  - destruct (loadInstallationSecret st); [|done]. injection E as <-. split; [done| |done].
    unfold mintedVerifiers. by replace (enabled (withInstallationSecret a0 _)) with (enabled a0) by done; rewrite En.
  - injection E as <-. split; [done| |done]. unfold mintedVerifiers. by rewrite En.
Qed.

(** Algorithm confusion is excluded by construction: in every authenticator the
    startup builds, a verifier allows HMAC exactly when its key is a secret, and one
    algorithm only; the verifiers for credentials cornus mints are under the
    installation secret and exist only if an operator credential enabled
    authentication; and every rule of its scope map names an access and a test. *)
Theorem newAuthenticator_bound st a :
  newAuthenticator st = Ok a ->
  (forall v, v ∈ jwt a \/ internal a = Some v \/ sshJWT a = Some v \/ exchangeJWT a = Some v ->
     (HS256 ∈ algs v <-> exists s, vkey v = KHmac s) /\ length (algs v) = 1%nat) /\
  mintedVerifiers a /\ validMap (scopeMap a).
Proof.
  clear ParseFloat J.
  intros [Hj Hm Hs]%newAuthenticator_wf. split; [|done]. intros v Hv.
  assert (Hb : boundVerifier v \/ exists s, v = mkVerifier [HS256] (KHmac s)).
  { destruct Hv as [Hv|Hv]; [left; by eapply Forall_forall in Hv|right]. revert Hm. unfold mintedVerifiers.
    destruct (enabled a); [|intros (E1 & E2 & E3 & _); rewrite E1, E2, E3 in Hv; naive_solver].
    intros (E1 & E2 & E3). rewrite E1, E2, E3 in Hv. destruct (sshKeys a); naive_solver. }
  assert (He : forall x y : alg, x ∈ [y] <-> x = y) by (intros; apply list_elem_of_singleton).
  destruct Hb as [[[Ea (s & _ & Ek)]|[[Ea [k Ek]]|[Ea [k Ek]]]]|[s ->]]; cbn [algs vkey];
    rewrite ?Ea, ?Ek, He; split; try done; naive_solver.
Qed.

(** ** Entitlement *)

(** Claims that hold now: unexpired within the leeway, not before their time, and for
    the issuer and audience asked for. *)
Definition holds (now : Z) (c : Claims) (iss aud : bytes) : Prop :=
  (exists t, Expiry c = Some t /\ now - minute <= t * second) /\
  (forall t, NotBefore c = Some t -> t * second <= now + minute) /\
  (iss = [] \/ Issuer c = iss) /\ (aud = [] \/ aud ∈ Audience c).

(** A token carries claims under a key. *)
Definition carries (token : bytes) (algs : list alg) (k : key) (c : Claims) (raw : claimset) : Prop :=
  exists p, ParseSigned token algs = Some p /\ ClaimsOf p k = Some (c, raw).

Definition reaches (scope : bytes) (e : Endpoint) : Prop := exists acc, Grant scope = Ok acc /\ Allows acc e = true.

(** The issuers whose tokens the installation secret signs, with whether they are
    internal. *)
Definition mintedIssuers : list (bytes * bytes * bool) :=
  [(internalIssuer, internalAudience, true); (sshKeyIssuer, sshKeyAudience, false);
   (exchangeIssuer, exchangeAudience, false)].

(** The credentials that entitle a request to an endpoint. *)
Inductive entitled (now : Z) (a : authenticator) (r : request) (e : Endpoint) (basic : bool) : bytes -> bool -> Prop :=
| ent_certificate cn rest :
    TLS r = Some (mkTLS true (cn :: rest)) -> cn <> [] -> entitled now a r e basic cn false
| ent_static :
    staticToken a <> [] -> presented r basic = Some (staticToken a) -> entitled now a r e basic [] false
| ent_caretaker :
    caretakerToken a <> [] -> presented r basic = Some (caretakerToken a) -> e = EndpointCaretaker ->
    entitled now a r e basic [] false
| ent_minted tok c raw iss aud int :
    presented r basic = Some tok -> carries tok [HS256] (KHmac (internalSecret a)) c raw ->
    (iss, aud, int) ∈ mintedIssuers -> holds now c iss aud -> reaches (ClaimScope c) e ->
    entitled now a r e basic (Subject c) int
| ent_operator tok c raw v :
    presented r basic = Some tok -> v ∈ jwt a -> carries tok (algs v) (vkey v) c raw ->
    holds now c (issuer a) (audience a) -> reaches (claimString raw (go "scope")) e ->
    entitled now a r e basic (Subject c) false
| ent_mapped tok c raw algs k scope l :
    presented r basic = Some tok -> carries tok algs k c raw -> holds now c (issuer a) (audience a) ->
    ((exists v, v ∈ jwt a /\ algs = ServerAuth.algs v /\ k = vkey v) \/
     (exists find kid, jwks a = Some find /\ find kid = Some k /\ algs = jwksAlgs)) ->
    Map_Match ParseFloat (scopeMap a) raw = Ok (scope, l) -> reaches scope e ->
    entitled now a r e basic (Subject c) false
| ent_peer tok c raw pub lookupKey pemKey :
    presented r basic = Some tok -> e = EndpointPeerForward -> peerKeyLookup a = Some lookupKey ->
    lookupKey (Subject c) = Ok (Some pemKey) -> isP256 pub = true ->
    carries tok [ES256] (KEc pub) c raw -> holds now c peerIssuer peerAudience -> reaches (ClaimScope c) e ->
    entitled now a r e basic (Subject c) false.

Context {JS : JoseSpec}.

Lemma validClaims_holds now c iss aud : validClaimsFor now c iss aud = true -> holds now c iss aud.
Proof.
  unfold validClaimsFor. destruct (Expiry c) as [t|] eqn:Et; [|done].
  intros (Hi & Ha & Hn & Hx & _)%validate_spec. cbn in Hi, Ha, Hn, Hx. split; [|split; [|split]].
  - exists t. split; [done|]. by apply Hx.
  - done.
  - destruct Hi as [->|<-]; [by left|by right].
  - destruct (bytes_eqb aud []) eqn:Eb; [apply bool_decide_eq_true in Eb; by left|right].
    destruct Ha as [|(x & Hx1 & Hx2)]; [done|]. apply list_elem_of_singleton in Hx1. by subst.
Qed.

Lemma verifyFixedJWT_Some now v tok iss aud sub scope : verifyFixedJWT now v tok iss aud = Some (sub, scope) ->
  exists c raw, carries tok (algs v) (vkey v) c raw /\ holds now c iss aud /\ sub = Subject c /\ scope = ClaimScope c.
Proof.
  unfold verifyFixedJWT. destruct (ParseSigned _ _) as [p|] eqn:Ep; [|done]. cbn.
  destruct (ClaimsOf _ _) as [[c raw]|] eqn:Ec; [|done]. cbn.
  destruct (validClaimsFor _ _ _ _) eqn:Ev; [|done]. intros [= <- <-]. exists c, raw.
  split; [by exists p|]. split; [by apply validClaims_holds|done].
Qed.

Lemma firstJWT_Some now a vs tok sub raw : firstJWT now a vs tok = Some (sub, raw) ->
  exists v c, v ∈ vs /\ carries tok (algs v) (vkey v) c raw /\ holds now c (issuer a) (audience a) /\ sub = Subject c.
Proof.
  induction vs as [|v vs IH]; [done|]. cbn [firstJWT]. destruct (verifyJWT now a v tok) as [[s' r']|] eqn:Ev.
  - intros [= -> ->]. revert Ev. unfold verifyJWT. destruct (ParseSigned _ _) as [p|] eqn:Ep; [|done]. cbn.
    destruct (ClaimsOf _ _) as [[c raw']|] eqn:Ec; [|done]. cbn.
    destruct (validClaimsFor _ _ _ _) eqn:Ex; [|done]. intros [= <- <-]. exists v, c.
    split; [set_solver|]. split; [by exists p|]. split; [by apply validClaims_holds|done].
  - intros (v' & c & Hv & ?)%IH. exists v', c. split; [set_solver|done].
Qed.

Lemma verifyJWKS_Some now a find tok sub raw : verifyJWKS now a find tok = Some (sub, raw) ->
  exists c k kid, find kid = Some k /\ carries tok jwksAlgs k c raw /\ holds now c (issuer a) (audience a) /\ sub = Subject c.
Proof.
  unfold verifyJWKS. destruct (ParseSigned _ _) as [p|] eqn:Ep; [|done]. cbn.
  destruct (head (KeyIDs p)) as [kid|]; [|done]. cbn. destruct (find kid) as [k|] eqn:Ek; [|done]. cbn.
  destruct (ClaimsOf _ _) as [[c raw']|] eqn:Ec; [|done]. cbn.
  destruct (validClaimsFor _ _ _ _) eqn:Ex; [|done]. intros [= <- <-]. exists c, k, kid.
  split; [done|]. split; [by exists p|]. split; [by apply validClaims_holds|done].
Qed.

Lemma verifyPeerJWT_Ok now look tok sub scope : verifyPeerJWT now look tok = PeerOk sub scope ->
  exists c raw pub pemKey, look (Subject c) = Ok (Some pemKey) /\ isP256 pub = true /\
    carries tok [ES256] (KEc pub) c raw /\ holds now c peerIssuer peerAudience /\ sub = Subject c /\ scope = ClaimScope c.
Proof.
  unfold verifyPeerJWT. destruct (ParseSigned _ _) as [p|] eqn:Ep; [|done].
  destruct (KeyIDs p) as [|kid [|]]; try done. destruct (bytes_eqb kid []); [done|].
  destruct (look kid) as [[pemKey|]|] eqn:El; try done.
  destruct (pemDecode pemKey) as [[[ty der] [|]]|]; try done. destruct (negb _); [done|].
  destruct (parsePKIX der) as [[[|pub]|]|]; try done. destruct (isP256 pub) eqn:Eq; [|done]. cbn [negb].
  destruct (ClaimsOf _ _) as [[c raw]|] eqn:Ec; [|done]. destruct (_ || _) eqn:Eo; [done|]. intros [= <- <-].
  apply orb_false_iff in Eo as [Es Ev]. apply negb_false_iff in Es, Ev. apply bool_decide_eq_true in Es. subst kid.
  exists c, raw, pub, pemKey. split; [done|]. split; [done|]. split; [by exists p|].
  split; [by apply validClaims_holds|done].
Qed.

Lemma scopedResult_Accept e sub scope int s i :
  scopedResult e sub scope int = Accept s i -> s = sub /\ i = int /\ reaches scope e.
Proof.
  unfold scopedResult. destruct (Grant scope) as [acc|] eqn:Eg; [|done].
  destruct (Allows acc e) eqn:Ea; [|done]. intros [= <- <-]. split; [done|]. split; [done|]. by exists acc.
Qed.

Lemma externalResult_Accept a e sub claims s i :
  externalResult ParseFloat a e sub claims = Accept s i ->
  s = sub /\ i = false /\ exists scope l, Map_Match ParseFloat (scopeMap a) claims = Ok (scope, l) /\ reaches scope e.
Proof.
  unfold externalResult. destruct (Map_Match _ _ _) as [[scope l]|] eqn:Em; [|done].
  destruct (Grant scope) as [acc|] eqn:Eg; [|done]. destruct (Allows acc e) eqn:Ea; [|done].
  intros [= <- <-]. split; [done|]. split; [done|]. exists scope, l. split; [done|]. by exists acc.
Qed.

Lemma verifyOpt_minted now a v tok iss aud sub scope :
  mintedVerifiers a -> v = internal a \/ v = sshJWT a \/ v = exchangeJWT a ->
  verifyOpt now v tok iss aud = Some (sub, scope) ->
  exists c raw, carries tok [HS256] (KHmac (internalSecret a)) c raw /\ holds now c iss aud /\
    sub = Subject c /\ scope = ClaimScope c.
Proof.
  intros Hm Hv E. unfold verifyOpt in E. destruct v as [v|]; [|done]. cbn in E.
  apply verifyFixedJWT_Some in E as (c & raw & Hc & Hr). exists c, raw. split; [|done].
  enough (Some v = Some (mkVerifier [HS256] (KHmac (internalSecret a)))) as [= ->] by done.
  revert Hm. unfold mintedVerifiers. destruct (enabled a).
  - intros (E1 & E2 & E3). rewrite E1, E2, E3 in Hv. destruct (sshKeys a); naive_solver.
  - intros (E1 & E2 & E3 & _). rewrite E1, E2, E3 in Hv. by destruct Hv as [|[|]].
Qed.

(** [solve_minted] concludes entitlement from a verified minted credential. *)
Ltac solve_minted Hm Hp E Hacc iss :=
  let c := fresh "c" in let raw := fresh "raw" in let Hc := fresh "Hc" in let Hh := fresh "Hh" in
  eapply verifyOpt_minted in E as (c & raw & Hc & Hh & -> & ->); [|exact Hm|by auto];
  apply scopedResult_Accept in Hacc as (-> & -> & ?);
  eapply (ent_minted _ _ _ _ _ _ c raw iss); [exact Hp|exact Hc| |exact Hh|done];
  unfold mintedIssuers; set_solver.

Lemma authenticateToken_entitled now a r e basic tok sub int :
  wfAuth a -> presented r basic = Some tok -> authenticateToken ParseFloat now a e tok = Accept sub int ->
  entitled now a r e basic sub int.
Proof.
  intros [Hj Hm Hs] Hp. unfold authenticateToken.
  destruct (negb (bytes_eqb (staticToken a) []) && _) eqn:E1.
  { intros [= <- <-]. apply andb_true_iff in E1 as [En Eq]. apply bool_decide_eq_true in Eq. subst tok.
    apply negb_true_iff, bool_decide_eq_false in En. by apply ent_static. }
  destruct (negb (bytes_eqb (caretakerToken a) []) && _) eqn:E2.
  { case_bool_decide as He; [|done]. intros [= <- <-]. apply andb_true_iff in E2 as [En Eq].
    apply bool_decide_eq_true in Eq. subst tok. apply negb_true_iff, bool_decide_eq_false in En.
    by apply ent_caretaker. }
  destruct (verifyOpt now (internal a) tok _ _) as [[s1 sc1]|] eqn:E3.
  { intros Hacc. solve_minted Hm Hp E3 Hacc internalIssuer. }
  destruct (verifyOpt now (sshJWT a) tok _ _) as [[s1 sc1]|] eqn:E4.
  { intros Hacc. solve_minted Hm Hp E4 Hacc sshKeyIssuer. }
  destruct (verifyOpt now (exchangeJWT a) tok _ _) as [[s1 sc1]|] eqn:E5.
  { intros Hacc. solve_minted Hm Hp E5 Hacc exchangeIssuer. }
  destruct (firstJWT now a (jwt a) tok) as [[s1 raw]|] eqn:E6.
  { apply firstJWT_Some in E6 as (v & c & Hv & Hc & Hh & ->).
    destruct (Grant (claimString raw (go "scope"))).
    - intros (-> & -> & Hr)%scopedResult_Accept. by eapply ent_operator.
    - intros (-> & -> & scope & l & Hmm & Hr)%externalResult_Accept. eapply ent_mapped; eauto. }
  destruct (find ← jwks a; verifyJWKS now a find tok) as [[s1 raw]|] eqn:E7.
  { destruct (jwks a) as [find|] eqn:Ej; [|done]. cbn in E7.
    apply verifyJWKS_Some in E7 as (c & k & kid & Hf & Hc & Hh & ->).
    intros (-> & -> & scope & l & Hmm & Hr)%externalResult_Accept. eapply ent_mapped; eauto. right. eauto. }
  destruct e; try done. destruct (peerKeyLookup a) as [look|] eqn:El; [|done].
  destruct (verifyPeerJWT now look tok) as [| |s1 sc1] eqn:E8; try done.
  apply verifyPeerJWT_Ok in E8 as (c & raw & pub & pk & H1 & H2 & H3 & H4 & -> & ->).
  intros (-> & -> & Hr)%scopedResult_Accept. by eapply ent_peer.
Qed.

Lemma authenticate_entitled now a r e basic sub int : wfAuth a ->
  authenticate ParseFloat now a r e basic = Accept sub int -> entitled now a r e basic sub int.
Proof.
  intros Hw. unfold authenticate. destruct (negb _) eqn:En.
  - intros [= <- <-]. apply negb_true_iff, bool_decide_eq_false in En. revert En. unfold verifiedIdentity.
    destruct (TLS r) as [[[] [|cn rest]]|] eqn:Et; cbn; try done. intros Hc. by eapply ent_certificate.
  - destruct (presented r basic) as [tok|] eqn:Ep; [|done]. by apply authenticateToken_entitled.
Qed.

(** The hub store's key lookup is attached after startup. *)
Definition withPeers (a : authenticator) (f : bytes -> res lookupErr (option bytes)) : authenticator :=
  mkAuth (staticToken a) (jwt a) (issuer a) (audience a) (anonPull a) (caretakerToken a) (jwks a)
    (scopeMap a) (mtls a) (internal a) (internalSecret a) (sshKeys a) (sshJWT a) (exchangeJWT a) (Some f).

Lemma wfAuth_withPeers a f : wfAuth a -> wfAuth (withPeers a f).
Proof. intros [Hj Hm Hs]. split; [done| |done]. exact Hm. Qed.

(** ** What reaches the mux *)

Definition isRegistryEndpoint (e : Endpoint) : bool :=
  bool_decide (e = EndpointRegistryPull) || bool_decide (e = EndpointRegistryPush).

Definition allowed (pol : apiPolicy) (identity action : bytes) : Prop :=
  identity <> [] /\ exists acts, rules pol !! identity = Some acts /\ (action ∈ acts \/ go "*" ∈ acts).
Definition mentioned (pol : apiPolicy) (action : bytes) : Prop :=
  exists id acts, rules pol !! id = Some acts /\ action ∈ acts.

Lemma Allow_allowed pol id act : Allow (Some pol) id act = true <-> allowed pol id act.
Proof.
  unfold Allow, allowed. destruct (bytes_eqb id []) eqn:Eb.
  { apply bool_decide_eq_true in Eb. subst. naive_solver. }
  apply bool_decide_eq_false in Eb. rewrite orb_true_iff, !bool_decide_eq_true.
  destruct (rules pol !! id) as [acts|]; cbn; [naive_solver|]. set_solver.
Qed.

Lemma MentionsAction_mentioned pol act : mentioned pol act -> MentionsAction (Some pol) act = true.
Proof.
  intros (id & acts & E & Ha). apply existsb_exists. exists (id, acts).
  split; [by apply list_elem_of_In, elem_of_map_to_list|by apply bool_decide_eq_true].
Qed.

Lemma endpoint_registry r : isRegistryEndpoint (endpointForRequest r) = true ->
  bytes_eqb (Path r) (go "/v2") || hasPrefix (Path r) (go "/v2/") = true.
Proof. unfold endpointForRequest. destruct (_ || _ || _); [done|]. destruct (bytes_eqb _ caretakerPath); [done|]. by destruct (_ || _). Qed.

Lemma wrap_entitled now a r sub int : wfAuth a -> enabled a = true -> (Path r ∉ openPaths) ->
  wrap ParseFloat now a r = Serve sub int ->
  let e := endpointForRequest r in
  entitled now a r e (isRegistryEndpoint e) sub int \/
  (e = EndpointRegistryPull /\ anonPull a = true /\ sub = [] /\ int = false).
Proof.
  intros Hw He Hp. unfold wrap. rewrite He, bool_decide_false by done. cbn [negb].
  destruct (bool_decide (endpointForRequest r = EndpointRegistryPull) && anonPull a) eqn:Ea.
  - apply andb_true_iff in Ea as [Ee Ea]. apply bool_decide_eq_true in Ee. rewrite Ee.
    destruct (authenticate _ _ _ _ _ _) eqn:Ex; intros [= <- <-]; [left|by right].
    by apply authenticate_entitled.
  - destruct (authenticate _ _ _ _ _ _) eqn:Ex; [|done]. intros [= <- <-]. left. by apply authenticate_entitled.
Qed.

(** A token of the installation's own, with a scope that reaches the endpoint. *)
Definition internalToken (now : Z) (a : authenticator) (r : request) (e : Endpoint) : Prop :=
  exists tok c raw, presented r (isRegistryEndpoint e) = Some tok /\ carries tok [HS256] (KHmac (internalSecret a)) c raw /\
    holds now c internalIssuer internalAudience /\ reaches (ClaimScope c) e.

Lemma entitled_internal now a r e sub : entitled now a r e (isRegistryEndpoint e) sub true -> internalToken now a r e.
Proof.
  intros Hent. inversion Hent as [| | |tok c raw iss aud int Hp Hc Hin Hh Hr| | |]; subst.
  unfold mintedIssuers in Hin. rewrite !elem_of_cons, elem_of_nil in Hin. destruct Hin as [[= -> ->]|[?|[?|[]]]]; [|done..]. by exists tok, c, raw.
Qed.

(** C35. What reaches the mux. With authentication on, a request outside the open paths is
    served only if one of the documented credentials entitles it to its endpoint, or as an
    anonymous pull where that is enabled. Under an API policy, whether authentication is on or off, the policy is passed by
    exactly the internal credentials: a caller with one has a token signed with the installation secret whose scope reaches
    the endpoint; any other caller writes to the registry only with an identity that
    the policy allows to push, and, once some rule mentions pulls, reads from it only with
    one allowed to pull, anonymous pulls included. *)
Theorem Handler_guarded st a0 peers p now r sub int :
  newAuthenticator st = Ok a0 ->
  let a := withPeers a0 peers in
  let e := endpointForRequest r in
  Handler ParseFloat now a p r = ToMux sub int ->
  (enabled a = true -> (Path r ∉ openPaths) ->
   entitled now a r e (isRegistryEndpoint e) sub int \/
   (e = EndpointRegistryPull /\ anonPull a = true /\ sub = [] /\ int = false)) /\
  (forall pol, p = Some pol -> isRegistryEndpoint e = true ->
     if int then internalToken now a r e
     else (isRegistryWrite (Method r) = true -> allowed pol sub (go "push")) /\
          (mentioned pol (go "pull") -> isRegistryRead (Method r) = true -> isRegistryPing (Path r) = false ->
           allowed pol sub (go "pull"))).
Proof.
  intros Hw a e Hh. apply newAuthenticator_wf in Hw. unfold Handler in Hh.
  destruct (wrap ParseFloat now a r) as [s i|] eqn:Ew; [|done].
  destruct (registryAuthz p r s i) eqn:Er; [|done]. injection Hh as -> ->.
  assert (Hent : enabled a = true -> (Path r ∉ openPaths) ->
    entitled now a r e (isRegistryEndpoint e) sub int \/ (e = EndpointRegistryPull /\ anonPull a = true /\ sub = [] /\ int = false)).
  { intros He Hp. apply wrap_entitled; [by apply wfAuth_withPeers|done..]. }
  split; [exact Hent|]. intros pol -> Hreg%endpoint_registry. destruct int.
  - apply (entitled_internal now a r e sub). revert Ew. unfold wrap. fold e. destruct (enabled a) eqn:He; [|done]. cbn [negb].
    case_bool_decide as Hp; [done|]. intros _. destruct Hent as [?|(_ & _ & _ & ?)]; done.
  - revert Er. unfold registryAuthz. rewrite Hreg. cbn [andb].
    destruct (isRegistryWrite (Method r) && _) eqn:E1; [done|].
    destruct (_ && _ && _ && _ && _) eqn:E2; [done|]. intros _. split.
    + intros Hwr. rewrite Hwr in E1. apply negb_false_iff in E1. by apply Allow_allowed.
    + intros Hm Hrd Hpg. rewrite (MentionsAction_mentioned _ _ Hm), Hrd, Hpg in E2. cbn in E2.
      apply negb_false_iff in E2. by apply Allow_allowed.
Qed.

(** ** The exchange, and the credential it mints *)

(** The claims of an exchanged credential. *)
Definition exchangedClaims (now : Z) (subject scope : bytes) : Claims :=
  mkClaims subject exchangeIssuer [exchangeAudience] (Some ((now + exchangeTokenTTL) / second))
    (Some (now / second)) (Some (now / second)) scope.

Lemma Issue_exchanged now subject scope secret tok :
  Issue now (mkIssue subject scope exchangeIssuer exchangeAudience exchangeTokenTTL [] secret []) = Ok tok ->
  secret <> [] /\ (exists acc, Grant scope = Ok acc) /\
  Sign HS256 (SHmac secret) [] (exchangedClaims now subject scope) = Some tok.
Proof.
  unfold Issue. cbn [o_HS256Secret o_PrivateKeyPEM o_TTL o_Scope o_Subject o_Issuer o_Audience o_KeyID].
  destruct (bytes_eqb secret []) eqn:Es; cbn; [done|]. apply bool_decide_eq_false in Es.
  destruct (Grant scope) as [acc|]; [|done]. fold (exchangedClaims now subject scope).
  destruct (Sign _ _ _ _) eqn:Eg; [|done]. intros [= <-]. split; [done|]. split; [by exists acc|done].
Qed.

Lemma verifyFixed_signed now a v tok c iss aud :
  mintedVerifiers a -> Sign HS256 (SHmac (internalSecret a)) [] c = Some tok -> jsonClaims c = true ->
  v = Some (mkVerifier [HS256] (KHmac (internalSecret a))) ->
  verifyOpt now v tok iss aud = if validClaimsFor now c iss aud then Some (Subject c, ClaimScope c) else None.
Proof.
  intros Hm Hs Hj ->. destruct (sign_verify _ _ _ _ _ [HS256] Hs ltac:(set_solver) Hj) as (p & raw & Hp & _ & Hc).
  unfold verifyOpt, verifyFixedJWT. cbn. rewrite Hp. cbn. change (KHmac (internalSecret a)) with (verifyKey (SHmac (internalSecret a))).
  rewrite Hc. done.
Qed.

Lemma validClaims_other now c iss aud : Issuer c <> iss -> iss <> [] -> validClaimsFor now c iss aud = false.
Proof.
  intros Hi Hn. apply not_true_is_false. intros (_ & _ & [?|?] & _)%validClaims_holds; congruence.
Qed.

Lemma exchangedClaims_valid now now' subject scope :
  now <= now' -> now' - minute <= (now + exchangeTokenTTL) / second * second ->
  validClaimsFor now' (exchangedClaims now subject scope) exchangeIssuer exchangeAudience = true.
Proof.
  intros Hn Hx. unfold validClaimsFor, exchangedClaims. cbn [Expiry]. apply validate_spec. cbn.
  assert (now / second * second <= now) by (rewrite Z.mul_comm; apply Z.mul_div_le; done).
  assert (0 < minute) by done.
  split; [by right|]. split; [right; exists exchangeAudience; set_solver|].
  split_and!; intros t [= <-]; lia.
Qed.

Lemma authenticate_exchanged now now' a subject scope acc tok e :
  mintedVerifiers a -> Sign HS256 (SHmac (internalSecret a)) [] (exchangedClaims now subject scope) = Some tok ->
  internalSecret a <> [] -> Grant scope = Ok acc -> validUtf8 subject = true -> validUtf8 scope = true ->
  tok <> staticToken a -> tok <> caretakerToken a ->
  now <= now' -> now' - minute <= (now + exchangeTokenTTL) / second * second ->
  authenticateToken ParseFloat now' a e tok = if Allows acc e then Accept subject false else Refuse (RAccess acc e).
Proof.
  intros Hm Hs Hne Hg Hu1 Hu2 Hst Hct Hn Hx.
  assert (Hj : jsonClaims (exchangedClaims now subject scope) = true).
  { unfold jsonClaims, exchangedClaims. cbn [Subject Issuer Audience ClaimScope]. rewrite Hu1, Hu2. vm_compute. done. }
  unfold authenticateToken.
  replace (bytes_eqb tok (staticToken a)) with false by (symmetry; by apply bool_decide_eq_false).
  replace (bytes_eqb tok (caretakerToken a)) with false by (symmetry; by apply bool_decide_eq_false).
  rewrite !andb_false_r. pose proof Hm as Hm'. revert Hm'. unfold mintedVerifiers.
  destruct (enabled a); [|by intros (_ & _ & _ & ?)]. intros (E1 & E2 & E3).
  rewrite (verifyFixed_signed _ _ _ _ _ _ _ Hm Hs Hj E1), validClaims_other by done.
  assert (verifyOpt now' (sshJWT a) tok sshKeyIssuer sshKeyAudience = None) as ->.
  { destruct (sshKeys a); [|by rewrite E3]. rewrite (verifyFixed_signed _ _ _ _ _ _ _ Hm Hs Hj E3).
    by rewrite validClaims_other. }
  rewrite (verifyFixed_signed _ _ _ _ _ _ _ Hm Hs Hj E2), exchangedClaims_valid by done.
  unfold scopedResult. cbn [ClaimScope Subject exchangedClaims]. by rewrite Hg.
Qed.

Lemma narrowScope_Ok m mapped requested issued acc :
  Grant mapped = Ok m -> issuableAccess m = true -> narrowScope m mapped requested = Ok issued ->
  Grant issued = Ok acc -> Contains m acc = true /\ issuableAccess acc = true.
Proof.
  intros Hm Hi. unfold narrowScope. destruct (bytes_eqb requested []).
  - intros [= <-] Ha. assert (acc = m) as -> by congruence. split; [by apply Contains_spec|done].
  - destruct (Grant requested) as [w|] eqn:Ew; [|done]. destruct (issuableAccess w) eqn:Eq; [|done].
    destruct (Contains m w) eqn:Ec; [|done]. intros [= <-] Ha. assert (acc = w) as -> by congruence. done.
Qed.

(** What the exchange grants: a verified subject, the rule that maps it, and a scope
    within the mapped one. *)
Lemma handleTokenExchange_Issued now a r tok scope n :
  handleTokenExchange ParseFloat now a r = Issued tok scope n ->
  exists subTok sub raw mapped l m acc,
    verifyExternalSubject now a subTok = Some (sub, raw) /\
    Map_Match ParseFloat (scopeMap a) raw = Ok (mapped, l) /\ Grant mapped = Ok m /\ Grant scope = Ok acc /\
    Contains m acc = true /\ issuableAccess acc = true /\
    internalSecret a <> [] /\ Sign HS256 (SHmac (internalSecret a)) [] (exchangedClaims now sub scope) = Some tok.
Proof.
  unfold handleTokenExchange. destruct (negb _); [done|]. destruct (Form r) as [form|]; [|done].
  destruct (negb _); [done|]. destruct (bytes_eqb _ []); [done|]. do 3 (destruct (negb _); [done|]).
  match goal with |- context [verifyExternalSubject now a ?t] => set (subTok := t) end.
  destruct (verifyExternalSubject now a subTok) as [[sub raw]|] eqn:Es; [|done].
  destruct (Map_Match _ _ _) as [[mapped l]|] eqn:Em; [|done]. destruct (Grant mapped) as [m|] eqn:Eg; [|done].
  destruct (issuableAccess m) eqn:Ei; [|done]. cbn [negb].
  destruct (narrowScope _ _ _) as [issued|] eqn:En; [|done].
  destruct (Issue _ _) as [t|] eqn:Et; [|done]. intros [= -> -> _].
  apply Issue_exchanged in Et as (Hne & (acc & Ha) & Hs).
  destruct (narrowScope_Ok _ _ _ _ _ Eg Ei En Ha). by exists subTok, sub, raw, mapped, l, m, acc.
Qed.

Lemma verifyExternalSubject_Some now a tok sub raw : verifyExternalSubject now a tok = Some (sub, raw) ->
  exists algs k c, carries tok algs k c raw /\ holds now c (issuer a) (audience a) /\ sub = Subject c /\
    ((exists v, v ∈ jwt a /\ algs = ServerAuth.algs v /\ k = vkey v) \/
     (exists find kid, jwks a = Some find /\ find kid = Some k /\ algs = jwksAlgs)).
Proof.
  unfold verifyExternalSubject. destruct (firstJWT now a (jwt a) tok) as [[s1 r1]|] eqn:E6.
  - intros [= <- <-]. apply firstJWT_Some in E6 as (v & c & Hv & Hc & Hh & ->).
    exists (algs v), (vkey v), c. split_and!; try done. left. by exists v.
  - destruct (jwks a) as [find|] eqn:Ej; [|done]. cbn.
    intros (c & k & kid & Hf & Hc & Hh & ->)%verifyJWKS_Some. exists jwksAlgs, k, c. split_and!; try done.
    right. by exists find, kid.
Qed.

(** The exchange and the credential it mints, together: a credential is only issued for
    a subject token some operator-configured key verifies now and the scope map maps; its
    scope reaches nothing the mapped scope does not reach, and only client access; and
    until it expires the server answers it exactly as that scope says, on every endpoint,
    as the subject of the token it was exchanged for. *)
Theorem exchange_bounded st a0 peers now r tok scope n :
  newAuthenticator st = Ok a0 ->
  let a := withPeers a0 peers in
  handleTokenExchange ParseFloat now a r = Issued tok scope n ->
  exists subTok algs k c raw mapped l m acc,
    carries subTok algs k c raw /\ holds now c (issuer a) (audience a) /\
    ((exists v, v ∈ jwt a /\ algs = ServerAuth.algs v /\ k = vkey v) \/
     (exists find kid, jwks a = Some find /\ find kid = Some k /\ algs = jwksAlgs)) /\
    Map_Match ParseFloat (scopeMap a) raw = Ok (mapped, l) /\ Grant mapped = Ok m /\ Grant scope = Ok acc /\
    (forall e, Allows acc e = true -> Allows m e = true) /\ issuableAccess acc = true /\
    forall now' e, validUtf8 scope = true -> tok <> staticToken a -> tok <> caretakerToken a ->
      now <= now' -> now' - minute <= (now + exchangeTokenTTL) / second * second ->
      authenticateToken ParseFloat now' a e tok =
      if Allows acc e then Accept (Subject c) false else Refuse (RAccess acc e).
Proof.
  intros [_ Hm _]%newAuthenticator_wf a Hi.
  apply handleTokenExchange_Issued in Hi as (subTok & sub & raw & mapped & l & m & acc & Hv & Hmap & Hg & Ha & Hc & Hi & Hne & Hs).
  apply verifyExternalSubject_Some in Hv as (algs & k & c & Hcar & Hh & -> & Hk).
  exists subTok, algs, k, c, raw, mapped, l, m, acc. split_and!; try done.
  - by apply Contains_spec.
  - intros now' e Hu Hst Hct Hn Hx. eapply (authenticate_exchanged now); try done.
    destruct Hcar as (p & _ & Hcl). apply claims_json in Hcl. unfold jsonClaims in Hcl.
    by apply andb_true_iff in Hcl as [[[? _]%andb_true_iff _]%andb_true_iff _].
Qed.
End Safety.

(** ** The challenge header *)

(** A byte that neither ends a quoted string nor a header line. *)
Definition safeByte (c : byte) : bool :=
  let v := Z_of_byte c in (32 <=? v) && negb (v =? 127) && negb (v =? 34) && negb (v =? 92).

Lemma cont_high lo hi c : 128 <= lo -> cont lo hi c = true -> safeByte c = true.
Proof. unfold cont, safeByte. intros ? ?. zbool. lia. Qed.

Lemma high_safe c : ascii c = false -> safeByte c = true.
Proof. unfold ascii, safeByte. intros ?. zbool. lia. Qed.

(** The first rune is an ASCII byte, or bytes that are all safe, or no rune. *)
Lemma decodeRune_seg s : s <> [] ->
  (exists c, take (snd (decodeRune s)) s = [c] /\ ascii c = true) \/
  (Forall (fun c => safeByte c = true) (take (snd (decodeRune s)) s) /\ snd (decodeRune s) <> 1%nat) \/
  (exists c, take (snd (decodeRune s)) s = [c] /\ ascii c = false).
Proof.
  destruct s as [|a s]; [done|]. intros _. destruct (ascii a) eqn:Ea.
  { left. exists a. by rewrite decodeRune_ascii. }
  right. pose proof (high_safe a Ea) as Ha. unfold decodeRune. unfold ascii in Ea. rewrite Ea.
  repeat match goal with
  | |- context [if ?b then _ else _] => destruct b eqn:?
  | |- context [match ?x with [] => _ | _ :: _ => _ end] => destruct x
  end; cbn [fst snd take]; try (right; by exists a); left; (split; [|done]);
    repeat match goal with H : (cont _ _ _ && _)%bool = true |- _ => apply andb_true_iff in H as [? ?]
      | H : (_ && cont _ _ _)%bool = true |- _ => apply andb_true_iff in H as [? ?] end;
    repeat (apply List.Forall_cons; [first [done|eapply cont_high; [|eassumption]; try lia; repeat case_match; lia]|]);
    apply List.Forall_nil.
Qed.

Lemma Forall_forallb {A} (f : A -> bool) l : forallb f l = true -> Forall (fun x => f x = true) l.
Proof. rewrite forallb_forall, Forall_forall. intros H x Hx. by apply H, list_elem_of_In. Qed.

Lemma headerSafeSeg_safe s : s <> [] ->
  Forall (fun c => safeByte c = true) (headerSafeSeg (take (snd (decodeRune s)) s)).
Proof.
  intros Hs. assert (H1 : forall c, forallb safeByte (headerSafeSeg [c]) = true) by (intros []; vm_compute; reflexivity).
  destruct (decodeRune_seg s Hs) as [(c & -> & _)|[[Hf _]|(c & -> & _)]]; try (apply Forall_forallb, H1).
  unfold headerSafeSeg. repeat case_match; try done; by repeat constructor.
Qed.

Lemma headerSafe_safe s : Forall (fun c => safeByte c = true) (headerSafe s).
Proof.
  unfold headerSafe. induction s as [s IH] using (induction_ltof1 _ (@length _)). unfold ltof in IH.
  destruct (decide (s = [])) as [->|Hs]; [constructor|]. rewrite runes_unfold by done. cbn [map concat].
  pose proof (decodeRune_width s Hs). apply Forall_app.
  split; [by apply headerSafeSeg_safe|]. apply IH. rewrite length_drop. lia.
Qed.

(** A refusal cannot forge its challenge header: whatever bytes the reason holds, the
    header value is one line, split by quotes into the parameters the code writes and
    nothing else, with the sanitised reason as the last one; and a reason of safe ASCII
    bytes is passed through unchanged. *)
Theorem challenge_unforgeable why :
  why <> [] ->
  split Byte.x22 (challenge false why) =
    [go "Bearer error="; go "insufficient_scope"; go ", error_description="; headerSafe why; []] /\
  Forall (fun c => 32 <= Z_of_byte c) (challenge false why) /\
  (Forall (fun c => safeByte c = true /\ ascii c = true) why -> headerSafe why = why).
Proof.
  intros Hw. assert (Hs := headerSafe_safe why).
  assert (E : challenge false why = join [Byte.x22]
    [go "Bearer error="; go "insufficient_scope"; go ", error_description="; headerSafe why; []]).
  { unfold challenge. replace (bytes_eqb why []) with false by (by destruct why). cbn [join negb app]. done. }
  rewrite E. split; [|split].
  - apply split_join; [done|]. repeat (apply List.Forall_cons; [first [apply cutByte_None; reflexivity|idtac]|]); [|constructor].
    intros Hin. eapply Forall_forall in Hs; [|exact Hin]. discriminate Hs.
  - assert (Hl : forall l, forallb (fun c => 32 <=? Z_of_byte c) l = true -> Forall (fun c => 32 <= Z_of_byte c) l).
    { intros l Hl%Forall_forallb. eapply Forall_impl; [exact Hl|]. intros c. apply Z.leb_le. }
    cbn [join]. rewrite !Forall_app. split_and!;
      lazymatch goal with |- Forall _ (headerSafe _) => idtac | _ => apply Hl; vm_compute; reflexivity end.
    eapply Forall_impl; [exact Hs|]. unfold safeByte. intros c Hc. cbn in Hc. zbool. done.
  - intros H. unfold headerSafe. clear -H. induction H as [|c s [Hc Ha] H IH]; [done|].
    rewrite runes_cons_ascii by done. cbn [map concat]. rewrite IH.
    assert (headerSafeSeg [c] = [c]) as ->; [|done]. by destruct c.
Qed.

Lemma challenge_unforgeable_witness :
  let why := go "rejected: " ++ [Byte.x22; Byte.x0d; Byte.x0a] ++ go "Set-Cookie: x" in
  headerSafe why = go "rejected:    Set-Cookie: x" /\
  Forall (fun c => 32 <= Z_of_byte c) (challenge false why).
Proof. split; [vm_compute; reflexivity|]. apply challenge_unforgeable. done. Defined.
