(* ===== verification/AuthExample.v ===== *)
(** * AuthExample: an instance of go-jose and a server run with it

    Tokens that spell out their key and claims satisfy [JoseSpec]; with them the
    theorems of [AuthSafety] are applied to a server with an operator key and a
    catch-all scope, and the exchange is shown to widen an operator's own token. *)

From Stdlib Require Import ZArith Lia.
From Stdlib.Strings Require Import Byte.
From stdpp Require Import base list gmap countable.
From S2P Require Import Prelude GoStd GoNum GoGlob AuthScope ServerAuth AuthSafety.
Open Scope Z_scope.

(** ** Tokens that spell out what they carry *)

#[global] Instance toyCrypto : Crypto := {|
  rsaPub := bytes; ecPub := bytes; rsaPriv := bytes; ecPriv := bytes;
  isP256 _ := true; rsaPublic k := k; ecPublic k := k;
  pemDecode raw := Some (go "PUBLIC KEY", raw, []);
  parsePKIX der := Some (inl (inr der)); parsePKCS1Public der := Some der;
  parseCertificate der := Some (inl (inr der)); parsePKCS8 der := Some (inl (inr der));
  parsePKCS1 der := Some der; parseECPrivate der := Some der |}.

Fixpoint posBytes (p : positive) : bytes :=
  match p with
  | xH => []
  | xO p => Byte.x00 :: posBytes p
  | xI p => Byte.x01 :: posBytes p
  end.
Fixpoint bytesPos (b : bytes) : positive :=
  match b with
  | [] => xH
  | c :: b => if bool_decide (c = Byte.x00) then xO (bytesPos b) else xI (bytesPos b)
  end.
Lemma bytesPos_posBytes p : bytesPos (posBytes p) = p.
Proof.
  induction p as [p IH|p IH|]; cbn [posBytes bytesPos];
    [rewrite bool_decide_false by done|rewrite bool_decide_true by done|]; by rewrite ?IH.
Qed.

Definition timeBytes (t : option Z) : bytes := posBytes (encode t).
Definition bytesTime (b : bytes) : option (option Z) := decode (bytesPos b).
Lemma bytesTime_timeBytes t : bytesTime (timeBytes t) = Some t.
Proof. unfold bytesTime, timeBytes. by rewrite bytesPos_posBytes, decode_encode. Qed.

Definition allAlgs : list alg := HS256 :: jwksAlgs.
Definition algName (a : alg) : bytes := go
  match a with
  | HS256 => "HS256" | RS256 => "RS256" | RS384 => "RS384" | RS512 => "RS512" | ES256 => "ES256"
  | ES384 => "ES384" | ES512 => "ES512" | PS256 => "PS256" | PS384 => "PS384" | PS512 => "PS512"
  end.
Definition algOf (b : bytes) : option alg := List.find (fun a => bytes_eqb (algName a) b) allAlgs.
Lemma algOf_algName a : algOf (algName a) = Some a.
Proof. by destruct a. Qed.

Record payload := mkPayload { p_alg : alg; p_key : signKey; p_kid : bytes; p_claims : Claims }.

Definition keyKind (k : signKey) : bytes * bytes :=
  match k with SHmac s => (go "h", s) | SRsa k => (go "r", k) | SEc k => (go "e", k) end.
Definition kindKey (k : bytes * bytes) : signKey :=
  if bytes_eqb (fst k) (go "h") then SHmac (snd k) else if bytes_eqb (fst k) (go "r") then SRsa (snd k) else SEc (snd k).
Lemma kindKey_keyKind k : kindKey (keyKind k) = k.
Proof. by destruct k. Qed.

Definition fields (p : payload) : list bytes :=
  let c := p_claims p in
  [algName (p_alg p); fst (keyKind (p_key p)); snd (keyKind (p_key p)); p_kid p; Subject c; Issuer c;
   ClaimScope c; timeBytes (Expiry c); timeBytes (NotBefore c); timeBytes (IssuedAt c)] ++ Audience c.
Definition unfields (l : list bytes) : option payload :=
  match l with
  | a :: kk :: kb :: kid :: sub :: iss :: scope :: ex :: nb :: ia :: aud =>
      a ← algOf a; ex ← bytesTime ex; nb ← bytesTime nb; ia ← bytesTime ia;
      Some (mkPayload a (kindKey (kk, kb)) kid (mkClaims sub iss aud ex nb ia scope))
  | _ => None
  end.
Lemma unfields_fields p : unfields (fields p) = Some p.
Proof.
  destruct p as [a k kid [sub iss aud ex nb ia scope]]. unfold unfields, fields. cbn [p_alg p_claims p_key p_kid
    Subject Issuer Audience Expiry NotBefore IssuedAt ClaimScope app]. rewrite algOf_algName. cbn [mbind option_bind].
  rewrite !bytesTime_timeBytes. cbn [mbind option_bind]. rewrite <- (surjective_pairing (keyKind k)).
  by rewrite kindKey_keyKind.
Qed.

Definition tokenOf (p : payload) : bytes := posBytes (encode (fields p)).
Definition parseToken (tok : bytes) : option payload := l ← decode (bytesPos tok); unfields l.
Lemma parseToken_tokenOf p : parseToken (tokenOf p) = Some p.
Proof.
  unfold parseToken, tokenOf. rewrite bytesPos_posBytes, decode_encode. cbn [mbind option_bind]. apply unfields_fields.
Qed.

#[global] Instance key_eq_dec : EqDecision key.
Proof. solve_decision. Defined.

Definition rawOf (c : Claims) : claimset :=
  <[go "sub" := VStr (Subject c)]> (<[go "iss" := VStr (Issuer c)]> {[go "scope" := VStr (ClaimScope c)]}).

Definition toyValidate (c : Claims) (e : Expected) (leeway : Z) : bool :=
  bool_decide (ExpIssuer e = [] \/ ExpIssuer e = Issuer c) &&
  bool_decide (AnyAudience e = [] \/ Exists (fun x => x ∈ Audience c) (AnyAudience e)) &&
  match NotBefore c with Some t => t * second <=? ExpTime e + leeway | None => true end &&
  match Expiry c with Some t => ExpTime e - leeway <=? t * second | None => true end &&
  match IssuedAt c with Some t => t * second <=? ExpTime e + leeway | None => true end.

#[global] Instance toyJose : Jose := {|
  jws := payload;
  ParseSigned tok algs := p ← parseToken tok; if decide (p_alg p ∈ algs) then Some p else None;
  KeyIDs p := [p_kid p];
  ClaimsOf p k :=
    if bool_decide (k = verifyKey (p_key p)) && jsonClaims (p_claims p)
    then Some (p_claims p, rawOf (p_claims p)) else None;
  ValidateWithLeeway := toyValidate;
  Sign a sk kid c := Some (tokenOf (mkPayload a sk kid c)) |}.

Lemma opt_le (o : option Z) (f : Z -> bool) (P : Z -> Prop) : (forall t, f t = true <-> P t) ->
  match o with Some t => f t | None => true end = true <-> forall t, o = Some t -> P t.
Proof. intros H. destruct o as [t|]; [rewrite H|]; naive_solver. Qed.

#[global] Instance toySpec : JoseSpec.
Proof.
  split.
  - intros a sk kid c tok algs E Ha Hj. cbn in E. injection E as <-.
    exists (mkPayload a sk kid c), (rawOf c). cbn [ParseSigned toyJose KeyIDs ClaimsOf].
    rewrite parseToken_tokenOf. cbn [mbind option_bind p_alg p_kid p_key p_claims].
    destruct (decide (a ∈ algs)); [|done]. split; [done|]. split; [done|].
    rewrite bool_decide_true by done. by rewrite Hj.
  - intros p k c raw. cbn. destruct (bool_decide _); [|done]. cbn.
    destruct (jsonClaims (p_claims p)) eqn:Ej; [|done]. by intros [= <- <-].
  - intros c e leeway. cbn. unfold toyValidate. rewrite !andb_true_iff, !bool_decide_eq_true.
    rewrite (opt_le (NotBefore c) _ (fun t => t * second <= ExpTime e + leeway)) by (intros; lia).
    rewrite (opt_le (Expiry c) _ (fun t => ExpTime e - leeway <= t * second)) by (intros; lia).
    rewrite (opt_le (IssuedAt c) _ (fun t => t * second <= ExpTime e + leeway)) by (intros; lia).
    rewrite Exists_exists. tauto.
Qed.

(** ** A server with an operator key and a catch-all scope *)

Definition exampleEnv (k : bytes) : bytes :=
  if bytes_eqb k (go "CORNUS_JWT_HS256_SECRET") then go "operator-secret"
  else if bytes_eqb k (go "CORNUS_JWT_DEFAULT_SCOPE") then go "api"
  else if bytes_eqb k (go "CORNUS_REGISTRY_ANONYMOUS_PULL") then go "yes"
  else [].
Definition exampleStart : startup :=
  mkStartup exampleEnv (fun _ => None) [] (Ok None) (Ok false) (fun _ => None)
    (Ok (go "0123456789abcdef0123456789abcdef")).
Definition noPeers : bytes -> res lookupErr (option bytes) := fun _ => Ok None.

Definition exampleAuth : authenticator :=
  match newAuthenticator exampleStart with Ok a => a | Err _ => mkAuth [] [] [] [] false [] None None false None [] false None None None end.

(** A token the operator minted for a registry reader, and the time. *)
Definition exampleNow : Z := 1000 * second.
Definition readerToken : bytes :=
  tokenOf (mkPayload HS256 (SHmac (go "operator-secret")) []
    (mkClaims (go "ci") [] [] (Some 5000) (Some 900) (Some 900) (go "registry:pull"))).

Definition exchangeRequest : request :=
  mkRequest (go "POST") (go "/.cornus/v1/auth/exchange") [] None
    (Ok (<[go "grant_type" := grantTypeTokenExchange]> (<[go "subject_token" := go " " ++ readerToken]>
         {[go "subject_token_type" := tokenTypeJWT]}))).

Lemma newAuthenticator_example : newAuthenticator exampleStart = Ok exampleAuth.
Proof. vm_compute. reflexivity. Qed.

Lemma newAuthenticator_bound_witness :
  map (fun v => (algs v, vkey v)) (jwt exampleAuth) = [([HS256], KHmac (go "operator-secret"))] /\
  mintedVerifiers exampleAuth /\ validMap (scopeMap exampleAuth).
Proof.
  split; [vm_compute; reflexivity|].
  apply (newAuthenticator_bound exampleStart exampleAuth newAuthenticator_example).
Defined.

Definition exchangedToken : bytes :=
  tokenOf (mkPayload HS256 (SHmac (internalSecret exampleAuth)) []
    (exchangedClaims exampleNow (go "ci") (go "api"))).

Lemma exchange_example :
  handleTokenExchange parseDec exampleNow (withPeers exampleAuth noPeers) exchangeRequest =
  Issued exchangedToken (go "api") 3600.
Proof. vm_compute. reflexivity. Qed.

Lemma exchange_bounded_witness :
  exists sub acc, Grant (go "api") = Ok acc /\
    authenticateToken parseDec (exampleNow + 10 * minute) (withPeers exampleAuth noPeers) EndpointCaretaker exchangedToken =
    if Allows acc EndpointCaretaker then Accept sub false else Refuse (RAccess acc EndpointCaretaker).
Proof.
  destruct (exchange_bounded parseDec exampleStart exampleAuth noPeers exampleNow exchangeRequest exchangedToken
    (go "api") 3600 newAuthenticator_example exchange_example)
    as (subTok & algs & k & c & raw & mapped & l & m & acc & _ & _ & _ & _ & _ & Ha & _ & _ & Hauth).
  exists (Subject c), acc. split; [exact Ha|]. apply Hauth; vm_compute; congruence.
Defined.

(** ** The exchange widens an operator's token *)

(** An operator-minted token that reaches only registry reads, and that the server
    refuses on the API, is exchanged for a credential with full access once a scope-map
    rule matches its claims: the exchange consults only the map, while a direct request
    is held to the scope the token names. *)
Theorem exchange_widens :
  let a := withPeers exampleAuth noPeers in
  newAuthenticator exampleStart = Ok exampleAuth /\
  authenticateToken parseDec exampleNow a EndpointRegistryPull readerToken = Accept (go "ci") false /\
  authenticateToken parseDec exampleNow a EndpointAPI readerToken = Refuse (RAccess AccessRegistryPull EndpointAPI) /\
  handleTokenExchange parseDec exampleNow a exchangeRequest = Issued exchangedToken (go "api") 3600 /\
  authenticateToken parseDec exampleNow a EndpointAPI exchangedToken = Accept (go "ci") false.
Proof. vm_compute. auto. Qed.

(** ** A pull through the policy *)

Definition pullPolicy : apiPolicy := mkPolicy {[go "ci" := {[go "pull"]}]}.
Definition pullRequest : request :=
  mkRequest (go "GET") (go "/v2/app/manifests/latest") (go "Bearer " ++ readerToken) None (Err tt).

Lemma Handler_guarded_witness :
  Handler parseDec exampleNow (withPeers exampleAuth noPeers) (Some pullPolicy) pullRequest = ToMux (go "ci") false /\
  Handler parseDec exampleNow (withPeers exampleAuth noPeers) (Some pullPolicy)
    (mkRequest (go "GET") (go "/v2/app/manifests/latest") [] None (Err tt)) = Denied403 (go "pull") /\
  allowed pullPolicy (go "ci") (go "pull").
Proof.
  assert (E : Handler parseDec exampleNow (withPeers exampleAuth noPeers) (Some pullPolicy) pullRequest = ToMux (go "ci") false)
    by (vm_compute; reflexivity).
  split; [exact E|]. split; [vm_compute; reflexivity|].
  refine (proj2 (proj2 (Handler_guarded parseDec exampleStart exampleAuth noPeers (Some pullPolicy) exampleNow pullRequest
    (go "ci") false newAuthenticator_example E) pullPolicy eq_refl _) _ _ _).
  - vm_compute. reflexivity.
  - exists (go "ci"), {[go "pull"]}. split; [apply lookup_singleton_eq|by apply elem_of_singleton].
  - vm_compute. reflexivity.
  - vm_compute. reflexivity.
Defined.
