(* ===== verification/Jwks.v ===== *)
(** * Jwks: verification keys from a JWKS, with rotation

    [pkg/server/jwks.go]: choosing a key by its id, the file source that reloads on a
    newer modification time, and the URL source with its two caches, the good key set
    and the recent attempt.  The URL source releases its lock while it fetches, so it
    is modelled both as one caller sees it ([fetchIfStale]) and as a transition system
    of concurrent calls ([ustep]). *)

From Stdlib Require Import ZArith Lia Sorting.Sorted.
From Stdlib.Strings Require Import Byte.
From stdpp Require Import base list gmap.
From S2P Require Import Prelude GoStd.
Open Scope Z_scope.

Section Jwks.
Context {key err : Type}.

(** A key set: key ids with their keys, in order. *)
Definition keySet : Type := list (bytes * key).

Definition pickKey (ks : keySet) (kid : bytes) : option key :=
  if negb (bytes_eqb kid []) then
    match filter (fun k => fst k = kid) ks with k :: _ => Some (snd k) | [] => None end
  else match ks with [k] => Some (snd k) | _ => None end.

(** What parsing a document gives; an empty set is an error. *)
Definition parseJWKS (unmarshal : bytes -> res err keySet) (noKeys : err) (data : bytes) : res err keySet :=
  ks ← unmarshal data; match ks with [] => Err noKeys | _ => Ok ks end.

(** [Panic] is the dereference of a nil key set a source returned without an error. *)
Inductive findRes := Found (k : key) | SourceErr (e : err) | NoKey (kid : bytes) | Panic.

(** [find] over a source in a state: look, and refresh once if the id is unknown. *)
Definition find {S : Type} (get refresh : S -> option (res err keySet) * S) (kid : bytes) (s : S) : findRes * S :=
  match get s with
  | (None, s) => (Panic, s)
  | (Some (Err e), s) => (SourceErr e, s)
  | (Some (Ok ks), s) =>
      match pickKey ks kid with
      | Some k => (Found k, s)
      | None =>
          match refresh s with
          | (None, s) => (Panic, s)
          | (Some (Err e), s) => (SourceErr e, s)
          | (Some (Ok ks), s) => (match pickKey ks kid with Some k => Found k | None => NoKey kid end, s)
          end
      end
  end.

(** ** The file source *)

Record fileSource := mkFile { f_cached : option keySet; f_mtime : Z }.

(** The file when it is read: its modification time, or the error of [Stat]; and what
    reading and parsing it gives. *)
Record disk := mkDisk { stat : res err Z; content : res err keySet }.

Definition reloadLocked (d : disk) (mtime : Z) (s : fileSource) : res err keySet * fileSource :=
  match content d with
  | Ok ks => (Ok ks, mkFile (Some ks) mtime)
  | Err e => match f_cached s with Some ks => (Ok ks, s) | None => (Err e, s) end
  end.

Definition file_get (d : disk) (s : fileSource) : res err keySet * fileSource :=
  match stat d with
  | Err e => match f_cached s with Some ks => (Ok ks, s) | None => (Err e, s) end
  | Ok mt =>
      match f_cached s with
      | Some ks => if mt <=? f_mtime s then (Ok ks, s) else reloadLocked d mt s
      | None => reloadLocked d mt s
      end
  end.

Definition file_refresh (d : disk) (s : fileSource) : res err keySet * fileSource :=
  reloadLocked d (match stat d with Ok mt => mt | Err _ => f_mtime s end) s.

(** ** The URL source *)

(** Times in nanoseconds; [lastAttempt = None] is the zero time. *)
Record urlSource := mkUrl {
  cached : option keySet; fetchedAt : Z; lastAttempt : option Z; lastErr : option err }.

Context (ttl minRefetch : Z).

(** The part of [fetchIfStale] before the request: an answer from the caches (a nil
    set with a nil error is [NilSet]), or a fetch. *)
Inductive cacheAnswer := Answer (r : res err keySet) | NilSet | Fetch.

Definition beginFetch (now maxAge : Z) (s : urlSource) : cacheAnswer :=
  let recent := match lastAttempt s with Some t => now - t <? minRefetch | None => false end in
  let backoff := if recent then
                   match cached s, lastErr s with
                   | Some ks, _ => Answer (Ok ks)
                   | None, Some e => Answer (Err e)
                   | None, None => NilSet
                   end
                 else Fetch in
  match cached s with
  | Some ks => if now - fetchedAt s <? maxAge then Answer (Ok ks) else backoff
  | None => backoff
  end.

(** The part after it, at the time the reply is handled. *)
Definition endFetch (now : Z) (r : res err keySet) (s : urlSource) : res err keySet * urlSource :=
  match r with
  | Err e =>
      let s := mkUrl (cached s) (fetchedAt s) (Some now) (Some e) in
      (match cached s with Some ks => Ok ks | None => Err e end, s)
  | Ok ks => (Ok ks, mkUrl (Some ks) now (Some now) None)
  end.

(** One caller: the clock, the source, and the times fetches were started. *)
Record caller := mkCaller { clock : Z; src : urlSource; starts : list Z }.

(** The issuer: what a fetch started at a time returns, and how long it takes. *)
Context (issuer : Z -> res err keySet * Z).

Definition fetchIfStale (maxAge : Z) (w : caller) : option (res err keySet) * caller :=
  match beginFetch (clock w) maxAge (src w) with
  | Answer r => (Some r, w)
  | NilSet => (None, w)
  | Fetch =>
      let (r, d) := issuer (clock w) in
      let now := clock w + Z.max 0 d in
      let (a, s) := endFetch now r (src w) in
      (Some a, mkCaller now s (clock w :: starts w))
  end.

Definition url_find (kid : bytes) (w : caller) : findRes * caller :=
  find (fetchIfStale ttl) (fetchIfStale minRefetch) kid w.

(** A caller's history: time passing, and keys looked up. *)
Inductive event := Wait (d : Z) | Find (kid : bytes).
Fixpoint run (es : list event) (w : caller) : list (bytes * findRes) * caller :=
  match es with
  | [] => ([], w)
  | Wait d :: es => run es (mkCaller (clock w + Z.max 0 d) (src w) (starts w))
  | Find kid :: es =>
      let (r, w) := url_find kid w in
      let (rs, w) := run es w in ((kid, r) :: rs, w)
  end.

Definition newSource : urlSource := mkUrl None 0 None None.

(** The file source never loses a set it once loaded. *)
Lemma file_keeps d s ks : f_cached s = Some ks ->
  (exists ks', fst (file_get d s) = Ok ks' /\ f_cached (snd (file_get d s)) = Some ks') /\
  exists ks', fst (file_refresh d s) = Ok ks' /\ f_cached (snd (file_refresh d s)) = Some ks'.
Proof.
  intros E. unfold file_get, file_refresh, reloadLocked. rewrite E.
  split; destruct (stat d), (content d); repeat case_match; cbn; eauto.
Qed.

(** *** Concurrent calls *)

Record ustate := mkU { u_now : Z; u_src : urlSource; u_inflight : nat; u_starts : list Z; u_ends : list Z }.
Inductive ulabel := UTick (d : Z) | UCall (maxAge : Z) | UDone (r : res err keySet).

Definition ustep (l : ulabel) (s : ustate) : option ustate :=
  match l with
  | UTick d => Some (mkU (u_now s + Z.max 0 d) (u_src s) (u_inflight s) (u_starts s) (u_ends s))
  | UCall maxAge =>
      match beginFetch (u_now s) maxAge (u_src s) with
      | Fetch => Some (mkU (u_now s) (u_src s) (S (u_inflight s)) (u_now s :: u_starts s) (u_ends s))
      | _ => Some s
      end
  | UDone r =>
      match u_inflight s with
      | O => None
      | S n => Some (mkU (u_now s) (snd (endFetch (u_now s) r (u_src s))) n (u_starts s) (u_now s :: u_ends s))
      end
  end.
Fixpoint urun (ls : list ulabel) (s : ustate) : option ustate :=
  match ls with [] => Some s | l :: ls => s ← ustep l s; urun ls s end.

(** ** One caller: bounded fetches, no panic, keys only from the issuer *)

Definition spaced (l : list Z) : Prop := StronglySorted (fun later earlier => earlier + minRefetch <= later) l.

(** The key set in the cache came from a recorded fetch. *)
Definition fetched (l : list Z) (ks : keySet) : Prop := exists t d, t ∈ l /\ issuer t = (Ok ks, d).

Record inv (w : caller) : Prop := {
  i_spaced : spaced (starts w);
  i_last : match lastAttempt (src w) with
           | None => starts w = [] /\ cached (src w) = None
           | Some t => t <= clock w /\ (forall x, x ∈ starts w -> x <= t) /\
                       (cached (src w) = None -> lastErr (src w) <> None)
           end;
  i_cached : forall ks, cached (src w) = Some ks ->
    fetched (starts w) ks /\ exists t, lastAttempt (src w) = Some t /\ fetchedAt (src w) <= t
}.

Lemma inv_new now : inv (mkCaller now newSource []).
Proof. split; [constructor|done|done]. Qed.

Lemma inv_wait w d : inv w -> inv (mkCaller (clock w + Z.max 0 d) (src w) (starts w)).
Proof. intros [H1 H2 H3]. split; [done| |done]. cbn. destruct (lastAttempt (src w)); [|done]. naive_solver lia. Qed.

Lemma fetched_cons l t ks : fetched l ks -> fetched (t :: l) ks.
Proof. intros (x & d & Hx & E). exists x, d. split; [set_solver|done]. Qed.

Lemma beginFetch_cases now maxAge s :
  match beginFetch now maxAge s with
  | Answer (Ok ks) => cached s = Some ks
  | Answer (Err e) => cached s = None /\ lastErr s = Some e
  | NilSet => cached s = None /\ lastErr s = None /\ is_Some (lastAttempt s)
  | Fetch => match lastAttempt s with Some t => t + minRefetch <= now | None => True end
  end.
Proof.
  unfold beginFetch. destruct (lastAttempt s) as [t|].
  - destruct (now - t <? minRefetch) eqn:Er; destruct (cached s) as [ks|], (lastErr s) as [e|]; cbn;
      repeat case_match; simplify_eq; try done; zbool; try lia; eauto.
  - destruct (cached s) as [ks|]; [destruct (_ <? _)|]; done.
Qed.

Lemma fetchIfStale_inv maxAge w r w' : inv w -> fetchIfStale maxAge w = (r, w') ->
  inv w' /\ (exists l, starts w' = l ++ starts w) /\
  exists a, r = Some a /\ forall ks, a = Ok ks -> fetched (starts w') ks.
Proof.
  intros [H1 H2 H3] E. unfold fetchIfStale in E. pose proof (beginFetch_cases (clock w) maxAge (src w)) as Hb.
  destruct (beginFetch _ _ _) as [a| |].
  - injection E as <- <-. split; [done|]. split; [by exists []|]. exists a. split; [done|].
    intros ks ->. by destruct (H3 ks Hb).
  - destruct Hb as (E1 & E2 & [t Et]). rewrite Et in H2. naive_solver.
  - destruct (issuer (clock w)) as [ri d] eqn:Ei. destruct (endFetch _ ri _) as [a s] eqn:Ee.
    injection E as <- <-.
    assert (Hx : forall x, x ∈ starts w -> x + minRefetch <= clock w /\ x <= clock w).
    { intros x Hx. destruct (lastAttempt (src w)) as [t|].
      - destruct H2 as (? & H2 & _). specialize (H2 x Hx). lia.
      - destruct H2 as [H2 _]. rewrite H2 in Hx. by apply elem_of_nil in Hx. }
    assert (Hs : spaced (clock w :: starts w)).
    { constructor; [done|]. apply Forall_forall. intros x Hin. by destruct (Hx x Hin). }
    assert (Hle : forall x, x ∈ clock w :: starts w -> x <= clock w + Z.max 0 d).
    { intros x [->|Hin]%elem_of_cons; [lia|]. apply Hx in Hin. lia. }
    split; [|split; [by exists [clock w]|]]; destruct ri as [ks|e]; cbn in Ee; injection Ee as <- <-.
    + split; cbn; [done|split_and!; [lia|done|done]|]. intros ? [= <-].
      split; [exists (clock w), d; split; [set_solver|done]|]. eexists. split; [done|lia].
    + split; cbn; [done|split_and!; [lia|done|done]|]. intros ks Hk. destruct (H3 ks Hk) as (Hf & t & Et & Hl).
      split; [by apply fetched_cons|]. eexists. split; [done|]. rewrite Et in H2. destruct H2 as (? & _). lia.
    + exists (Ok ks). split; [done|]. intros ? [= <-]. exists (clock w), d. split; [set_solver|done].
    + eexists. split; [done|]. intros ks. cbn. destruct (cached (src w)) eqn:Ec; [|done].
      intros [= <-]. by apply fetched_cons, (H3 _ eq_refl).
Qed.

(** A key found came with a fetch. *)
Definition fromIssuer (l : list Z) (kid : bytes) (k : key) : Prop :=
  exists ks, fetched l ks /\ pickKey ks kid = Some k.

Lemma fetched_app l l' ks : fetched l' ks -> fetched (l ++ l') ks.
Proof. intros (x & d & Hx & E). exists x, d. split; [set_solver|done]. Qed.

Lemma url_find_inv kid w r w' : inv w -> url_find kid w = (r, w') ->
  inv w' /\ (exists l, starts w' = l ++ starts w) /\ r <> Panic /\ forall k, r = Found k -> fromIssuer (starts w') kid k.
Proof.
  intros Hw E. unfold url_find, find in E. destruct (fetchIfStale ttl w) as [r1 w1] eqn:E1.
  apply fetchIfStale_inv in E1 as (Hw1 & [l1 Hl1] & a1 & -> & Ha1); [|done]. destruct a1 as [ks1|e1].
  2: { injection E as <- <-. naive_solver. }
  specialize (Ha1 ks1 eq_refl). destruct (pickKey ks1 kid) as [k1|] eqn:Ek1.
  { injection E as <- <-. split; [done|]. split; [by exists l1|]. split; [done|]. intros k [= <-]. by exists ks1. }
  destruct (fetchIfStale minRefetch w1) as [r2 w2] eqn:E2.
  apply fetchIfStale_inv in E2 as (Hw2 & [l2 Hl2] & a2 & -> & Ha2); [|done].
  assert (Hl : exists l, starts w2 = l ++ starts w) by (exists (l2 ++ l1); by rewrite Hl2, Hl1, app_assoc).
  destruct a2 as [ks2|e2]; injection E as <- <-; split; try done; split; try done; split; try by case_match.
  intros k Hk. destruct (pickKey ks2 kid) as [k2|] eqn:Ek2; [|done]. injection Hk as <-. exists ks2. naive_solver.
Qed.

Lemma run_inv es w rs w' : inv w -> run es w = (rs, w') ->
  inv w' /\ (exists l, starts w' = l ++ starts w) /\
  Forall (fun kr => snd kr <> Panic /\ forall k, snd kr = Found k -> fromIssuer (starts w') (fst kr) k) rs.
Proof.
  revert w rs. induction es as [|[d|kid] es IH]; intros w rs Hw E; cbn in E.
  - injection E as <- <-. split; [done|]. split; [by exists []|constructor].
  - apply IH in E; [done|by apply inv_wait].
  - destruct (url_find kid w) as [r w1] eqn:E1. destruct (run es w1) as [rs1 w2] eqn:E2. injection E as <- <-.
    apply url_find_inv in E1 as (Hw1 & [l1 Hl1] & Hp & Hk); [|done].
    apply IH in E2 as (Hw2 & [l2 Hl2] & Hf); [|done]. split; [done|].
    split; [exists (l2 ++ l1); by rewrite Hl2, Hl1, app_assoc|]. constructor; [|done]. split; [done|].
    intros k (ks & Hks & Hpk)%Hk. exists ks. rewrite Hl2. split; [by apply fetched_app|done].
Qed.

(** Spaced times are few in any window. *)
Lemma spaced_filter (P : Z -> Prop) `{!forall x, Decision (P x)} l : spaced l -> spaced (filter P l).
Proof.
  induction 1 as [|x l Hs IH Hx]; [constructor|]. rewrite filter_cons. destruct (decide (P x)); [|done].
  constructor; [done|]. apply Forall_forall. intros y [_ Hy]%list_elem_of_filter. by eapply Forall_forall in Hx.
Qed.

Lemma spaced_count t x l : spaced (x :: l) -> Forall (fun y => t <= y) (x :: l) -> Z.of_nat (length l) * minRefetch <= x - t.
Proof.
  revert x. induction l as [|y l IH]; intros x [Hs Hx]%StronglySorted_inv [Hxt Ht]%Forall_cons_1; cbn [length]; [lia|].
  apply Forall_cons_1 in Hx as [Hxy _]. specialize (IH y Hs Ht). lia.
Qed.

Lemma spaced_window l t W : 0 <= W -> spaced l ->
  (Z.of_nat (length (filter (fun x => t <= x <= t + W) l)) - 1) * minRefetch <= W \/
  filter (fun x => t <= x <= t + W) l = [].
Proof.
  intros HW Hs. apply (spaced_filter (fun x => t <= x <= t + W)) in Hs.
  assert (Hf : Forall (fun x => t <= x <= t + W) (filter (fun x => t <= x <= t + W) l))
    by (apply Forall_forall; by intros x [? _]%list_elem_of_filter).
  destruct (filter _ l) as [|x l']; [by right|left].
  assert (Hx : t <= x <= t + W) by (by apply Forall_cons_1 in Hf as [? _]).
  apply (spaced_count t) in Hs; [|eapply Forall_impl; [exact Hf|]; cbn; lia]. cbn [length]. lia.
Qed.

(** One caller cannot flood the issuer: over any history of lookups, known and unknown
    key ids alike, the fetches started in a window of length W number at most
    1 + W / minRefetch; no lookup dereferences a nil key set; and every key found came in
    a key set the issuer returned to one of those fetches, under the id asked for. *)
Theorem jwks_one_caller es now rs w :
  0 < minRefetch -> run es (mkCaller now newSource []) = (rs, w) ->
  (forall t W, 0 <= W -> Z.of_nat (length (filter (fun x => t <= x <= t + W) (starts w))) <= 1 + W / minRefetch) /\
  forall kid r, (kid, r) ∈ rs -> r <> Panic /\ forall k, r = Found k -> fromIssuer (starts w) kid k.
Proof.
  intros Hm E. apply run_inv in E as (Hw & _ & Hf); [|apply inv_new]. split.
  - intros t W HW. destruct (spaced_window (starts w) t W HW (i_spaced _ Hw)) as [Hc|E].
    + assert (Z.of_nat (length (filter (fun x => t <= x <= t + W) (starts w))) - 1 <= W / minRefetch); [|lia].
      apply Z.div_le_lower_bound; lia.
    + rewrite E. pose proof (Z.div_pos W minRefetch HW Hm). cbn. lia.
  - intros kid r Hin. by apply (proj1 (Forall_forall _ _) Hf (kid, r) Hin).
Qed.

(** A rotated key is picked up: once the last attempt is minRefetch old, the first
    lookup of a key id unknown so far finds the key the issuer now publishes for it,
    however fresh the cached set. *)
Theorem jwks_rotation es now rs w kid ks d k :
  run es (mkCaller now newSource []) = (rs, w) ->
  (forall t, lastAttempt (src w) = Some t -> t + minRefetch <= clock w) ->
  (forall ks0, cached (src w) = Some ks0 -> pickKey ks0 kid = None) ->
  issuer (clock w) = (Ok ks, d) -> pickKey ks kid = Some k ->
  fst (url_find kid w) = Found k.
Proof.
  intros E Ha Hu Hi Hk. apply run_inv in E as (Hw & _ & _); [|apply inv_new].
  assert (Hb : forall maxAge, beginFetch (clock w) maxAge (src w) =
    match cached (src w) with
    | Some ks0 => if clock w - fetchedAt (src w) <? maxAge then Answer (Ok ks0) else Fetch
    | None => Fetch
    end).
  { intros maxAge. unfold beginFetch. destruct (lastAttempt (src w)) as [t|]; [|done].
    specialize (Ha t eq_refl). by replace (clock w - t <? minRefetch) with false by (symmetry; zbool; apply Z.ltb_ge; lia). }
  unfold url_find, find, fetchIfStale. rewrite !Hb. destruct (cached (src w)) as [ks0|] eqn:Ec.
  - destruct (clock w - fetchedAt (src w) <? ttl) eqn:Et.
    + rewrite (Hu ks0 eq_refl), Hb. destruct (i_cached _ Hw ks0 Ec) as (_ & t & Et' & Hl).
      specialize (Ha t Et'). destruct (Z.ltb_spec (clock w - fetchedAt (src w)) minRefetch); [lia|].
      rewrite Hi. cbn. by rewrite Hk.
    + rewrite Hi. cbn. by rewrite Hk.
  - rewrite Hi. cbn. by rewrite Hk.
Qed.

(** ** Concurrent callers *)

(** Concurrent callers can flood the issuer: the attempt is recorded only when a fetch
    returns, so while the first one is in flight every further call starts its own; any
    number of them are outstanding at one instant. *)
Theorem jwks_concurrent_flood n now maxAge :
  option_map (fun s => (u_inflight s, u_starts s)) (urun (replicate n (UCall maxAge)) (mkU now newSource 0 [] [])) =
  Some (n, replicate n now).
Proof.
  enough (H : forall m l, urun (replicate n (UCall maxAge)) (mkU now newSource m l []) =
    Some (mkU now newSource (n + m) (replicate n now ++ l) [])).
  { rewrite H. cbn. by rewrite Nat.add_0_r, app_nil_r. }
  induction n as [|n IH]; intros m l; [done|]. cbn [replicate urun]. cbn [ustep u_src u_now beginFetch newSource cached lastAttempt].
  cbn [mbind option_bind]. rewrite IH, Nat.add_succ_r.
  cbn [u_inflight u_starts]. change (now :: replicate n now) with (replicate (S n) now).
  by rewrite replicate_S_end, <- app_assoc.
Qed.
End Jwks.

(** A two-key issuer that rotates at time 100, minRefetch 60. *)
Definition rotating (t : Z) : res unit (list (bytes * Z)) * Z :=
  if t <? 100 then (Ok [(go "old", 1)], 5) else (Ok [(go "old", 1); (go "new", 2)], 5).

Lemma jwks_one_caller_witness :
  let es := [Find (go "new"); Find (go "new"); Wait 70; Find (go "new"); Wait 70; Find (go "new")] in
  let w := snd (run 300 60 rotating es (mkCaller 0 newSource [])) in
  map snd (fst (run 300 60 rotating es (mkCaller 0 newSource []))) = [NoKey (go "new"); NoKey (go "new"); NoKey (go "new"); Found 2] /\
  starts w = [150; 75; 0] /\
  Z.of_nat (length (filter (fun x => 0 <= x <= 0 + 120) (starts w))) <= 1 + 120 / 60.
Proof.
  intros es w. split; [vm_compute; reflexivity|]. split; [vm_compute; reflexivity|].
  destruct (run 300 60 rotating es (mkCaller 0 newSource [])) as [rs w'] eqn:E.
  exact (proj1 (jwks_one_caller 300 60 rotating es 0 rs w' eq_refl E) 0 120 ltac:(lia)).
Defined.

Lemma jwks_rotation_witness :
  let w := snd (run 300 60 rotating [Find (go "old"); Wait 120] (mkCaller 0 newSource [])) in
  fst (url_find 300 60 rotating (go "new") w) = Found 2.
Proof.
  intros w.
  refine (jwks_rotation 300 60 rotating [Find (go "old"); Wait 120] 0 [(go "old", Found 1)] w (go "new")
    [(go "old", 1); (go "new", 2)] 5 2 _ _ _ _ _).
  - vm_compute. reflexivity.
  - intros t E. vm_compute in E. injection E as <-. vm_compute. congruence.
  - intros ks0 E. vm_compute in E. injection E as <-. vm_compute. reflexivity.
  - vm_compute. reflexivity.
  - vm_compute. reflexivity.
Defined.
