(* ===== verification/Yamux.v ===== *)
(** * Yamux: the stream multiplexer's frames and streams

    [third_party/yamux] (a fork with a QoS scheduler and a pipelined send path) carries
    every cornus session.  This file has the frame header ([const.go]), a stream's
    state and windows ([stream.go]) and the operations on them; windows are 32-bit
    integers and wrap as in the code.  [YamuxFlow] connects two streams, [YamuxSched]
    models the scheduler between them and the wire. *)

From Stdlib Require Import ZArith Lia.
From Stdlib.Strings Require Import Byte.
From stdpp Require Import base list.
From S2P Require Import Prelude.
Open Scope Z_scope.

(** ** Headers *)

Definition protoVersion : Z := 0.
Definition typeData : Z := 0.
Definition typeWindowUpdate : Z := 1.
Definition typePing : Z := 2.
Definition typeGoAway : Z := 3.

Definition flagSYN : Z := 1.
Definition flagACK : Z := 2.
Definition flagFIN : Z := 4.
Definition flagRST : Z := 8.

Definition initialStreamWindow : Z := 256 * 1024.
Definition headerSize : Z := 12.

Definition encode (msgType flags streamID length : Z) : bytes :=
  be_put 1 protoVersion ++ be_put 1 msgType ++ be_put 2 flags ++ be_put 4 streamID ++ be_put 4 length.

Definition Version (h : bytes) : Z := be_get (sub_z 0 1 h).
Definition MsgType (h : bytes) : Z := be_get (sub_z 1 1 h).
Definition Flags (h : bytes) : Z := be_get (sub_z 2 2 h).
Definition StreamID (h : bytes) : Z := be_get (sub_z 4 4 h).
Definition Length (h : bytes) : Z := be_get (sub_z 8 4 h).

(** One turn of [recvLoop]: the header, its checks, and the body of a data frame. *)
Inductive recvErr := EOF | UnexpectedEOF | ErrInvalidVersion | ErrInvalidMsgType.
Record message := mkMessage { m_type : Z; m_flags : Z; m_id : Z; m_length : Z; m_body : bytes }.

Definition readMessage (s : bytes) : res recvErr (message * bytes) :=
  if blen s =? 0 then Err EOF
  else if blen s <? headerSize then Err UnexpectedEOF
  else
    let h := take_z headerSize s in
    let rest := drop_z headerSize s in
    if negb (Version h =? protoVersion) then Err ErrInvalidVersion
    else if (MsgType h <? typeData) || (typeGoAway <? MsgType h) then Err ErrInvalidMsgType
    else
      let n := if MsgType h =? typeData then Length h else 0 in
      Ok (mkMessage (MsgType h) (Flags h) (StreamID h) (Length h) (take_z n rest), drop_z n rest).

Definition messageBytes (m : message) : bytes := encode (m_type m) (m_flags m) (m_id m) (m_length m) ++ m_body m.

(** ** Streams *)

Definition u32 (x : Z) : Z := x mod 2 ^ 32.

Inductive streamState :=
  streamInit | streamSYNSent | streamSYNReceived | streamEstablished | streamLocalClose
| streamRemoteClose | streamClosed | streamReset.
#[global] Instance streamState_eq_dec : EqDecision streamState.
Proof. solve_decision. Defined.

Definition ClassBulk : Z := 0.
Definition ClassNormal : Z := 1.
Definition ClassHigh : Z := 2.
Definition ClassUrgent : Z := 3.

Record Stream := mkStream {
  recvWindow : Z; sendWindow : Z; maxWindow : Z; sendClass : Z; state : streamState; recvBuf : bytes }.

Definition newStream (max : Z) (st : streamState) : Stream :=
  mkStream initialStreamWindow initialStreamWindow max ClassNormal st [].

Definition SetPriority (class : Z) (s : Stream) : Stream :=
  mkStream (recvWindow s) (sendWindow s) (maxWindow s)
    (if ClassUrgent <=? class then ClassHigh else class) (state s) (recvBuf s).
Definition SetMaxWindow (n : Z) (s : Stream) : Stream :=
  mkStream (recvWindow s) (sendWindow s) (if n <? initialStreamWindow then initialStreamWindow else n)
    (sendClass s) (state s) (recvBuf s).

Definition withState (st : streamState) (s : Stream) : Stream :=
  mkStream (recvWindow s) (sendWindow s) (maxWindow s) (sendClass s) st (recvBuf s).
Definition withSendWindow (w : Z) (s : Stream) : Stream :=
  mkStream (recvWindow s) w (maxWindow s) (sendClass s) (state s) (recvBuf s).
Definition withRecv (w : Z) (b : bytes) (s : Stream) : Stream :=
  mkStream w (sendWindow s) (maxWindow s) (sendClass s) (state s) b.

Definition sendFlags (s : Stream) : Z * Stream :=
  match state s with
  | streamInit => (flagSYN, withState streamSYNSent s)
  | streamSYNReceived => (flagACK, withState streamEstablished s)
  | _ => (0, s)
  end.

(** *** Receiving *)

Inductive streamErr := ErrUnexpectedFlag | ErrRecvWindowExceeded.

Definition hasFlag (flags f : Z) : bool := Z.land flags f =? f.

(** The stream after the flags, whether it leaves the session, and whether its SYN
    was acknowledged. *)
Definition processFlags (flags : Z) (s : Stream) : res streamErr (Stream * bool * bool) :=
  let s := if hasFlag flags flagACK && bool_decide (state s = streamSYNSent)
           then withState streamEstablished s else s in
  '(s, close) ← (if hasFlag flags flagFIN then
    match state s with
    | streamSYNSent | streamSYNReceived | streamEstablished => Ok (withState streamRemoteClose s, false)
    | streamLocalClose => Ok (withState streamClosed s, true)
    | _ => Err ErrUnexpectedFlag
    end else Ok (s, false));
  let '(s, close) := if hasFlag flags flagRST then (withState streamReset s, true) else (s, close) in
  Ok (s, close, hasFlag flags flagACK).

Definition incrSendWindow (flags length : Z) (s : Stream) : res streamErr (Stream * bool * bool) :=
  '(s, close, ack) ← processFlags flags s;
  Ok (withSendWindow (u32 (sendWindow s + length)) s, close, ack).

Definition stream_readData (flags : Z) (body : bytes) (s : Stream) : res streamErr (Stream * bool * bool) :=
  '(s, close, ack) ← processFlags flags s;
  let length := blen body in
  if length =? 0 then Ok (s, close, ack)
  else if recvWindow s <? length then Err ErrRecvWindowExceeded
  else Ok (withRecv (u32 (recvWindow s - length)) (recvBuf s ++ body) s, close, ack).

(** *** Reading *)

Inductive readRes := ReadBytes (b : bytes) | ReadEOF | ReadReset | ReadBlock.

(** Up to [n] bytes; [ReadBlock] is where the code waits. *)
Definition Read (n : Z) (s : Stream) : readRes * Stream :=
  let empty := blen (recvBuf s) =? 0 in
  match state s with
  | streamReset => (ReadReset, s)
  | streamRemoteClose | streamClosed =>
      if empty then (ReadEOF, s)
      else (ReadBytes (take_z n (recvBuf s)), withRecv (recvWindow s) (drop_z n (recvBuf s)) s)
  | _ =>
      if empty then (ReadBlock, s)
      else (ReadBytes (take_z n (recvBuf s)), withRecv (recvWindow s) (drop_z n (recvBuf s)) s)
  end.

(** The window update after a read, if one is due: its flags and delta. *)
Definition sendWindowUpdate (s : Stream) : option (Z * Z) * Stream :=
  let max := maxWindow s in
  let delta := u32 (u32 (max - blen (recvBuf s)) - recvWindow s) in
  let '(flags, s) := sendFlags s in
  if (delta <? max / 2) && (flags =? 0) then (None, s)
  else (Some (flags, delta), withRecv (u32 (recvWindow s + delta)) (recvBuf s) s).

(** *** Writing *)

Inductive writeRes := WriteFrame (flags : Z) (body : bytes) | WriteClosed | WriteReset | WriteBlock.

(** The frame one call of [write] queues; [frameCap] is [Config.MaxDataFrame] with its
    default. *)
Definition write (frameCap : Z) (b : bytes) (s : Stream) : writeRes * Stream :=
  match state s with
  | streamLocalClose | streamClosed => (WriteClosed, s)
  | streamReset => (WriteReset, s)
  | _ =>
      let window := sendWindow s in
      if window =? 0 then (WriteBlock, s) else
      let '(flags, s) := sendFlags s in
      let max := Z.min (Z.min window (blen b)) frameCap in
      (WriteFrame flags (take_z max b), s)
  end.
(** [atomic.AddUint32(&s.sendWindow, ^uint32(max-1))], once the frame is queued. *)
Definition reduceSendWindow (max : Z) (s : Stream) : Stream := withSendWindow (u32 (sendWindow s - max)) s.

(** *** Closing *)

(** The flags of the FIN frame to send, if any, and whether the stream leaves the
    session; [None] is the panic of an unhandled state. *)
Definition Close (s : Stream) : option (option Z * Stream * bool) :=
  match state s with
  | streamSYNSent | streamSYNReceived | streamEstablished =>
      let '(flags, s) := sendFlags (withState streamLocalClose s) in
      Some (Some (Z.lor flags flagFIN), s, false)
  | streamRemoteClose =>
      let '(flags, s) := sendFlags (withState streamClosed s) in
      Some (Some (Z.lor flags flagFIN), s, true)
  | streamLocalClose | streamClosed | streamReset => Some (None, s, false)
  | streamInit => None
  end.

(** ** Headers read back *)

Definition okMessage (m : message) : Prop :=
  typeData <= m_type m <= typeGoAway /\ uN 16 (m_flags m) /\ uN 32 (m_id m) /\ uN 32 (m_length m) /\
  (m_type m = typeData -> m_length m = blen (m_body m)) /\ (m_type m <> typeData -> m_body m = []).

Lemma encode_fields t f i l rest :
  0 <= t < 256 -> uN 16 f -> uN 32 i -> uN 32 l ->
  let s := encode t f i l ++ rest in
  let h := take_z headerSize s in
  blen s = 12 + blen rest /\ drop_z headerSize s = rest /\
  Version h = 0 /\ MsgType h = t /\ Flags h = f /\ StreamID h = i /\ Length h = l.
Proof.
  intros Ht Hf Hi Hl. cbv zeta.
  assert (Hn : blen (encode t f i l) = 12) by (unfold encode; rewrite !blen_app; unfold blen; by rewrite !length_be_put).
  assert (Eh : take_z headerSize (encode t f i l ++ rest) = encode t f i l)
    by (replace headerSize with (blen (encode t f i l)) by done; apply take_z_app).
  rewrite Eh. split; [rewrite blen_app; lia|].
  split; [replace headerSize with (blen (encode t f i l)) by done; apply drop_z_app|].
  assert (Hb : forall n v, blen (be_put n v) = Z.of_nat n) by (intros; unfold blen; by rewrite length_be_put).
  assert (Hs : forall p n v s o k, blen p = o -> k = Z.of_nat n -> 0 <= v < 256 ^ Z.of_nat n ->
    be_get (sub_z o k (p ++ be_put n v ++ s)) = v).
  { intros p n v s o k <- -> Hv. rewrite <- (Hb n v). rewrite sub_z_app. by rewrite be_get_put. }
  unfold Version, MsgType, Flags, StreamID, Length, encode, uN in *. split_and!.
  - by apply (Hs []).
  - by apply Hs.
  - rewrite (app_assoc (be_put 1 _)). by apply Hs.
  - rewrite (app_assoc (be_put 1 _)), (app_assoc _ (be_put 2 f)). by apply Hs.
  - rewrite <- (app_nil_r (be_put 4 l)).
    rewrite (app_assoc (be_put 1 _)), (app_assoc _ (be_put 2 f)), (app_assoc _ (be_put 4 i)). by apply Hs.
Qed.

(** Frames read back: a message written to the wire is read as itself, leaving exactly
    what follows it. *)
Lemma readMessage_bytes m rest : okMessage m -> readMessage (messageBytes m ++ rest) = Ok (m, rest).
Proof.
  intros (Ht & Hf & Hi & Hl & Hd & Hn). unfold readMessage, messageBytes. rewrite <- app_assoc.
  destruct (encode_fields (m_type m) (m_flags m) (m_id m) (m_length m) (m_body m ++ rest)) as (E1 & E2 & E3 & E4 & E5 & E6 & E7);
    try done; [unfold typeData, typeGoAway in Ht; lia|].
  pose proof (blen_nonneg (m_body m ++ rest)). rewrite E1, E2, E3, E4, E5, E6, E7.
  destruct (Z.eqb_spec (12 + blen (m_body m ++ rest)) 0); [lia|].
  destruct (Z.ltb_spec (12 + blen (m_body m ++ rest)) headerSize); [unfold headerSize in *; lia|]. cbn [negb Z.eqb].
  replace ((m_type m <? typeData) || (typeGoAway <? m_type m)) with false by (symmetry; apply orb_false_iff; lia).
  destruct (Z.eqb_spec (m_type m) typeData) as [E|E].
  - rewrite (Hd E), take_z_app, drop_z_app, <- (Hd E). by destruct m.
  - rewrite (Hn E). destruct m. cbn in *. by rewrite (Hn E).
Qed.
