(* ===== verification/YamuxFlow.v ===== *)
(** * YamuxFlow: a stream between its two ends

    Two [Yamux.Stream]s joined by a connection, in the production send mode
    (pipelined): each end queues urgent frames (window updates) apart from the frames
    of the stream's own class (data, then the FIN), the scheduler may interleave the
    two queues in any way, and the wire keeps order.  A [Write] looks at the stream's state, queues its
    frame later (the stream's lock is not held, and the pipeline may be full), and reduces the send window
    later still; a [Close] changes the state and queues the FIN later; reads send their window update later. Each of these may
    interleave with everything else.

    One order of them breaks delivery, and is kept out of [reach] by [proper]: a FIN queued by a [Close] while a [Write] of
    another goroutine, which found the stream open, has its frame still to queue ([fin_overtakes_data]).
    Resets, the close timeout and the end of the session are not among the steps. *)

From Stdlib Require Import ZArith Lia.
From Stdlib.Strings Require Import Byte.
From stdpp Require Import base list.
From S2P Require Import Prelude GoStd Yamux.
Open Scope Z_scope.

(** ** The system *)

Inductive sframe := FData (flags : Z) (body : bytes) | FUpdate (flags delta : Z).

(** One end: its stream; whether the session knows it ([live]) and has dropped it
    ([gone]); the frame a write in progress has yet to queue ([pending]), and the bytes it has queued without reducing the
    window yet ([claim]); the FIN a close has yet to queue, and whether the stream then leaves the session ([finDue]); the reads whose window update is still to come; the queues and the wire; and the
    history of bytes written, read, and of having read EOF. *)
Record endpoint := mkEnd {
  st : Stream; live : bool; gone : bool; pending : option (Z * bytes); claim : Z; finDue : option (Z * bool); due : nat;
  urgent : list sframe; ordered : list sframe; wire : list sframe;
  sent : bytes; consumed : bytes; sawEOF : bool }.

Inductive op :=
| OWrite (b : bytes)    (* Write finds the stream open and makes one frame *)
| OQueue                (* ... and queues it *)
| OWritten              (* ... and reduces its send window *)
| OSend (u : bool)      (* the send loop writes an urgent or an ordered frame *)
| ODeliver              (* the receive loop handles the peer's next frame *)
| ORead (n : Z)
| OUpdate               (* a read's sendWindowUpdate *)
| OClose                (* Close changes the state *)
| OFin                  (* ... and queues the FIN *)
| OSetMax (n : Z).

Inductive outcome := Stuck | Failed (e : streamErr) | Next (m p : endpoint).

Definition withSt (s : Stream) (m : endpoint) : endpoint :=
  mkEnd s (live m) (gone m) (pending m) (claim m) (finDue m) (due m) (urgent m) (ordered m) (wire m) (sent m) (consumed m) (sawEOF m).
Definition withWire (w : list sframe) (m : endpoint) : endpoint :=
  mkEnd (st m) (live m) (gone m) (pending m) (claim m) (finDue m) (due m) (urgent m) (ordered m) w (sent m) (consumed m) (sawEOF m).

(** [handleStreamMessage]: a SYN creates the stream; a frame for an unknown stream is
    discarded. *)
Definition deliver (f : sframe) (m : endpoint) : res streamErr endpoint :=
  let flags := match f with FData fl _ | FUpdate fl _ => fl end in
  let known := live m || hasFlag flags flagSYN in
  if negb known || gone m then Ok m else
  r ← match f with
      | FData fl body => stream_readData fl body (st m)
      | FUpdate fl delta => incrSendWindow fl delta (st m)
      end;
  let '(s, close, _) := r in
  Ok (mkEnd s true close (pending m) (claim m) (finDue m) (due m) (urgent m) (ordered m) (wire m) (sent m) (consumed m) (sawEOF m)).

Definition opStep (frameCap : Z) (o : op) (m p : endpoint) : outcome :=
  match o with
  | ODeliver =>
      match wire p with
      | [] => Stuck
      | f :: w => match deliver f m with Err e => Failed e | Ok m' => Next m' (withWire w p) end
      end
  | OSend u =>
      match (if u then urgent m else ordered m) with
      | [] => Stuck
      | f :: q =>
          Next (mkEnd (st m) (live m) (gone m) (pending m) (claim m) (finDue m) (due m) (if u then q else urgent m)
                  (if u then ordered m else q) (wire m ++ [f]) (sent m) (consumed m) (sawEOF m)) p
      end
  | _ =>
  if negb (live m) then Stuck else
  match o with
  | OWrite b =>
      match pending m with Some _ => Stuck | None =>
      if negb (claim m =? 0) || (blen b =? 0) then Stuck else
      match write frameCap b (st m) with
      | (WriteFrame flags body, s) =>
          Next (mkEnd s (live m) (gone m) (Some (flags, body)) 0 (finDue m) (due m) (urgent m) (ordered m) (wire m)
                  (sent m) (consumed m) (sawEOF m)) p
      | _ => Stuck
      end
      end
  | OQueue =>
      match pending m with
      | None => Stuck
      | Some (flags, body) =>
          Next (mkEnd (st m) (live m) (gone m) None (blen body) (finDue m) (due m) (urgent m) (ordered m ++ [FData flags body]) (wire m)
                  (sent m ++ body) (consumed m) (sawEOF m)) p
      end
  | OWritten =>
      if claim m =? 0 then Stuck else
      Next (mkEnd (reduceSendWindow (claim m) (st m)) (live m) (gone m) (pending m) 0 (finDue m) (due m) (urgent m) (ordered m) (wire m)
              (sent m) (consumed m) (sawEOF m)) p
  | ORead n =>
      if n <=? 0 then Stuck else
      match Read n (st m) with
      | (ReadBytes b, s) =>
          Next (mkEnd s (live m) (gone m) (pending m) (claim m) (finDue m) (S (due m)) (urgent m) (ordered m) (wire m)
                  (sent m) (consumed m ++ b) (sawEOF m)) p
      | (ReadEOF, s) =>
          Next (mkEnd s (live m) (gone m) (pending m) (claim m) (finDue m) (due m) (urgent m) (ordered m) (wire m)
                  (sent m) (consumed m) true) p
      | _ => Stuck
      end
  | OUpdate =>
      match due m with
      | O => Stuck
      | S k =>
          let '(f, s) := sendWindowUpdate (st m) in
          let q := match f with Some (fl, delta) => [FUpdate fl delta] | None => [] end in
          Next (mkEnd s (live m) (gone m) (pending m) (claim m) (finDue m) k (urgent m ++ q) (ordered m) (wire m)
                  (sent m) (consumed m) (sawEOF m)) p
      end
  | OClose =>
      match Close (st m) with
      | None => Stuck
      | Some (fin, s, close) =>
          Next (mkEnd s (live m) (gone m) (pending m) (claim m) (match fin with Some fl => Some (fl, close) | None => finDue m end) (due m)
                  (urgent m) (ordered m) (wire m) (sent m) (consumed m) (sawEOF m)) p
      end
  | OFin =>
      match finDue m with
      | None => Stuck
      | Some (fl, close) =>
          Next (mkEnd (st m) (live m) (gone m || close) (pending m) (claim m) None (due m) (urgent m) (ordered m ++ [FUpdate fl 0]) (wire m)
                  (sent m) (consumed m) (sawEOF m)) p
      end
  | OSetMax n => Next (withSt (SetMaxWindow n (st m)) m) p
  | _ => Stuck
  end
  end.

(** After [OpenStream] has returned: its window update, with the SYN, is on the wire;
    the acceptor creates its stream when the SYN arrives, and accepting it is one
    window update due. *)
Definition opener (max : Z) : endpoint :=
  let '(f, s) := sendWindowUpdate (newStream max streamInit) in
  mkEnd s true false None 0 None 0 [] [] match f with Some (fl, delta) => [FUpdate fl delta] | None => [] end [] [] false.
Definition acceptor (max : Z) : endpoint :=
  mkEnd (newStream max streamSYNReceived) false false None 0 None 1 [] [] [] [] [] false.

(** Steps of either end; a receive-window ceiling may only be raised, and no FIN is queued while a frame
    made before it is not. *)
Definition proper (o : op) (m : endpoint) : Prop :=
  match o with
  | OSetMax n => maxWindow (st m) <= Z.max initialStreamWindow n < 2 ^ 32
  | OFin => pending m = None
  | _ => True
  end.

Inductive reach (frameCap maxA maxB : Z) : endpoint -> endpoint -> Prop :=
| reach_init : reach frameCap maxA maxB (opener maxA) (acceptor maxB)
| reach_left o a b a' b' :
    reach frameCap maxA maxB a b -> proper o a -> opStep frameCap o a b = Next a' b' -> reach frameCap maxA maxB a' b'
| reach_right o a b a' b' :
    reach frameCap maxA maxB a b -> proper o b -> opStep frameCap o b a = Next b' a' -> reach frameCap maxA maxB a' b'.

(** ** The invariant *)

Definition body (f : sframe) : bytes := match f with FData _ b => b | FUpdate _ _ => [] end.
Definition bodies (l : list sframe) : bytes := concat (map body l).
Definition delta (f : sframe) : Z := match f with FData _ _ => 0 | FUpdate _ d => d end.
Definition deltas (l : list sframe) : Z := foldr Z.add 0 (map delta l).
Arguments bodies l : simpl never.
Arguments deltas l : simpl never.

(** The frames of each queue, and their flags. *)
Definition okUrgent (f : sframe) : Prop :=
  match f with FData _ _ => False | FUpdate fl d => (fl = 0 \/ fl = flagSYN \/ fl = flagACK) /\ 0 <= d end.
Definition okData (f : sframe) : Prop :=
  match f with FData fl b => (fl = 0 \/ fl = flagACK) /\ b <> [] | FUpdate _ _ => False end.
Definition fin : sframe := FUpdate flagFIN 0.
Definition okOrdered (f : sframe) : Prop := okData f \/ f = fin.

Definition isOrdered (f : sframe) : bool := match f with FData _ _ => true | FUpdate fl _ => fl =? flagFIN end.
(** The frames made and not queued, and those of the stream's own class on their way, in order. *)
Definition held (P : endpoint) : list sframe :=
  match pending P with Some (fl, b) => [FData fl b] | None => [] end ++ match finDue P with Some (fl, _) => [FUpdate fl 0] | None => [] end.
Definition inOrder (P : endpoint) : list sframe := filter (fun f => isOrdered f = true) (wire P) ++ ordered P ++ held P.

(** What the sender may still send, a write in progress counted as done. *)
Definition avail (P : endpoint) : Z := u32 (sendWindow (st P) - claim P).

Definition closedL (s : streamState) : Prop := s = streamLocalClose \/ s = streamClosed.
Definition finSeen (s : streamState) : Prop := s = streamRemoteClose \/ s = streamClosed.

Record wfEnd (P : endpoint) : Prop := {
  w_urgent : Forall okUrgent (urgent P);
  w_ordered : Forall okOrdered (ordered P);
  w_wire : Forall (fun f => okUrgent f \/ okOrdered f) (wire P);
  w_state : state (st P) <> streamInit /\ state (st P) <> streamReset;
  w_gone : gone P = true -> state (st P) = streamClosed;
  w_fresh : live P = false -> state (st P) = streamSYNReceived;
  w_window : 0 <= sendWindow (st P) < 2 ^ 32 /\ 0 <= claim P;
  w_recv : 0 <= recvWindow (st P) /\ recvWindow (st P) + blen (recvBuf (st P)) <= maxWindow (st P) < 2 ^ 32 /\
           initialStreamWindow <= maxWindow (st P);
  w_eof : sawEOF P = true -> finSeen (state (st P)) /\ recvBuf (st P) = [];
  w_pending : forall fl b, pending P = Some (fl, b) -> claim P = 0 /\ blen b <= sendWindow (st P) /\ okData (FData fl b);
  w_fin : forall fl c, finDue P = Some (fl, c) -> fl = flagFIN /\ closedL (state (st P)) /\ (c = true -> state (st P) = streamClosed)
}.

(** The direction from [P] to [Q]. *)
Record dir (P Q : endpoint) : Prop := {
  d_flow : gone P = false ->
    avail P + blen (bodies (wire P ++ ordered P)) + deltas (wire Q ++ urgent Q) = recvWindow (st Q);
  d_room : blen (bodies (wire P ++ ordered P ++ held P)) <= recvWindow (st Q);
  d_data : sent P = consumed Q ++ recvBuf (st Q) ++ bodies (wire P ++ ordered P);
  d_open : ~ closedL (state (st P)) -> Forall okData (inOrder P) /\ ~ finSeen (state (st Q));
  d_closed : closedL (state (st P)) ->
    (~ finSeen (state (st Q)) /\ exists ds, inOrder P = ds ++ [fin] /\ Forall okData ds) \/
    (finSeen (state (st Q)) /\ inOrder P = []);
  d_syn : live Q = false -> exists d w, wire P = FUpdate flagSYN d :: w
}.

(** *** Arithmetic of the queues *)

Lemma bodies_app l k : bodies (l ++ k) = bodies l ++ bodies k.
Proof. unfold bodies. by rewrite map_app, concat_app. Qed.
Lemma deltas_app l k : deltas (l ++ k) = deltas l + deltas k.
Proof. unfold deltas. rewrite map_app. induction l; cbn in *; lia. Qed.
Lemma deltas_cons f l : deltas (f :: l) = delta f + deltas l.
Proof. done. Qed.
Lemma bodies_cons f l : bodies (f :: l) = body f ++ bodies l.
Proof. done. Qed.

Lemma okUrgent_body f : okUrgent f -> body f = [] /\ 0 <= delta f /\ isOrdered f = false.
Proof. destruct f as [|fl d]; [done|]. intros [[->|[->| ->]] Hd]; done. Qed.
Lemma okData_ordered f : okData f -> isOrdered f = true /\ delta f = 0.
Proof. by destruct f. Qed.
Lemma okOrdered_spec f : okOrdered f -> isOrdered f = true /\ delta f = 0.
Proof. intros [H| ->]; [by apply okData_ordered|done]. Qed.

Lemma bodies_urgent l : Forall okUrgent l -> bodies l = [].
Proof. induction 1 as [|f l H _ IH]; [done|]. rewrite bodies_cons, IH. by destruct (okUrgent_body f H) as [-> _]. Qed.
Lemma deltas_ordered l : Forall okOrdered l -> deltas l = 0.
Proof.
  induction 1 as [|f l H _ IH]; [done|]. rewrite deltas_cons, IH. by destruct (okOrdered_spec f H) as [_ ->].
Qed.
Lemma deltas_nonneg l : Forall (fun f => okUrgent f \/ okOrdered f) l -> 0 <= deltas l.
Proof.
  induction 1 as [|f l H _ IH]; [done|]. rewrite deltas_cons. destruct H as [H|H].
  - destruct (okUrgent_body f H) as (_ & ? & _). lia.
  - destruct (okOrdered_spec f H) as [_ ->]. lia.
Qed.
Lemma deltas_urgent_nonneg l : Forall okUrgent l -> 0 <= deltas l.
Proof. intros H. apply deltas_nonneg. eapply Forall_impl; [exact H|]. auto. Qed.

Lemma u32_small x : 0 <= x < 2 ^ 32 -> u32 x = x.
Proof. apply Z.mod_small. Qed.
Lemma u32_range x : 0 <= u32 x < 2 ^ 32.
Proof. by apply Z.mod_pos_bound. Qed.
Lemma u32_sub_l x y : u32 (u32 x - y) = u32 (x - y).
Proof. apply Zminus_mod_idemp_l. Qed.
Lemma u32_add_l x y : u32 (u32 x + y) = u32 (x + y).
Proof. apply Zplus_mod_idemp_l. Qed.

(** *** Flags *)

Lemma sendFlags_spec s fl s' : sendFlags s = (fl, s') -> state s <> streamInit ->
  (fl = 0 \/ fl = flagACK) /\
  recvWindow s' = recvWindow s /\ sendWindow s' = sendWindow s /\ maxWindow s' = maxWindow s /\ recvBuf s' = recvBuf s /\
  (state s' = state s \/ (state s = streamSYNReceived /\ state s' = streamEstablished)).
Proof. unfold sendFlags. destruct (state s) eqn:E; intros [= <- <-] H; cbn; split_and!; auto; done. Qed.

(** Flags without FIN and RST only establish a stream. *)
Lemma processFlags_plain fl s : fl = 0 \/ fl = flagSYN \/ fl = flagACK ->
  exists s' a, processFlags fl s = Ok (s', false, a) /\
    recvWindow s' = recvWindow s /\ sendWindow s' = sendWindow s /\ maxWindow s' = maxWindow s /\ recvBuf s' = recvBuf s /\
    (state s' = state s \/ (state s = streamSYNSent /\ state s' = streamEstablished)).
Proof.
  intros H. unfold processFlags. destruct H as [->|[->| ->]]; cbn.
  - eexists _, _. split; [done|]. split_and!; auto.
  - eexists _, _. split; [done|]. split_and!; auto.
  - destruct (state s) eqn:E; cbn; eexists _, _; (split; [done|]); cbn; split_and!; auto.
Qed.

Lemma processFlags_fin s : state s <> streamInit -> state s <> streamReset -> ~ finSeen (state s) ->
  exists s' c, processFlags flagFIN s = Ok (s', c, false) /\
    recvWindow s' = recvWindow s /\ sendWindow s' = sendWindow s /\ maxWindow s' = maxWindow s /\ recvBuf s' = recvBuf s /\
    ((~ closedL (state s) /\ state s' = streamRemoteClose /\ c = false) \/
     (state s = streamLocalClose /\ state s' = streamClosed /\ c = true)).
Proof.
  intros H1 H2 H3. unfold processFlags. change (hasFlag flagFIN flagACK) with false.
  change (hasFlag flagFIN flagFIN) with true. change (hasFlag flagFIN flagRST) with false. cbn [andb].
  unfold finSeen, closedL in *. destruct (state s) eqn:E; cbn; try done; try (exfalso; naive_solver);
    eexists _, _; (split; [done|]); cbn; split_and!; try done; first [by left; naive_solver|by right; naive_solver].
Qed.

(** ** Preservation *)

Definition inv (P Q : endpoint) : Prop := wfEnd P /\ wfEnd Q /\ dir P Q /\ dir Q P.

(** What a direction depends on. *)
Lemma dir_eq P Q P' Q' : dir P Q ->
  gone P' = gone P -> avail P' = avail P -> wire P' = wire P -> ordered P' = ordered P -> held P' = held P -> sent P' = sent P ->
  (closedL (state (st P')) <-> closedL (state (st P))) ->
  recvWindow (st Q') = recvWindow (st Q) -> recvBuf (st Q') = recvBuf (st Q) -> consumed Q' = consumed Q ->
  deltas (wire Q' ++ urgent Q') = deltas (wire Q ++ urgent Q) ->
  (finSeen (state (st Q')) <-> finSeen (state (st Q))) -> (live Q' = false -> live Q = false) ->
  dir P' Q'.
Proof.
  intros [H1 H2 H3 H4 H5 H6] Eg Ea Ew Eo Eh Es Ec Er Eb Eco Ed Ef El.
  split; unfold inOrder in *; rewrite ?Eg, ?Ea, ?Ew, ?Eo, ?Eh, ?Es, ?Er, ?Eb, ?Eco, ?Ed, ?Ec, ?Ef; auto.
Qed.

Lemma closedL_dec s : closedL s \/ ~ closedL s.
Proof. destruct s; unfold closedL; auto; right; naive_solver. Qed.

(** [keep] discharges the parts of [dir_eq] a step leaves alone. *)
Ltac keep := try done; try reflexivity; try (by cbn).

Lemma step_written cap m p m' p' : inv m p -> opStep cap OWritten m p = Next m' p' -> inv m' p'.
Proof.
  intros (Wm & Wp & Dm & Dp) E. cbn in E. destruct (live m) eqn:El; [|done]. cbn in E.
  destruct (Z.eqb_spec (claim m) 0) as [|Hc]; [done|]. injection E as <- <-. split_and!.
  - destruct Wm as [? ? ? ? ? ? ? ? ? W10 ?]. split; cbn; keep; [split; [apply u32_range|lia]|]. intros fl b Hp. by destruct (W10 fl b Hp).
  - done.
  - eapply dir_eq; [exact Dm|..]; keep. unfold avail. cbn. rewrite Z.sub_0_r. unfold u32. by rewrite Z.mod_mod.
  - eapply dir_eq; [exact Dp|..]; keep.
Qed.

Lemma step_setmax cap n m p m' p' : inv m p -> proper (OSetMax n) m -> opStep cap (OSetMax n) m p = Next m' p' -> inv m' p'.
Proof.
  intros (Wm & Wp & Dm & Dp) Hr E. cbn in E. destruct (live m) eqn:El; [|done]. injection E as <- <-. split_and!.
  - destruct Wm as [? ? ? ? ? ? ? Hrv ? ? ?]. cbn in Hr. split; cbn; keep.
    destruct (Z.ltb_spec n initialStreamWindow); split_and!; lia.
  - done.
  - eapply dir_eq; [exact Dm|..]; keep.
  - eapply dir_eq; [exact Dp|..]; keep.
Qed.

Lemma Read_cases n s :
  (Read n s = (ReadBytes (take_z n (recvBuf s)), withRecv (recvWindow s) (drop_z n (recvBuf s)) s) /\ recvBuf s <> []) \/
  (Read n s = (ReadEOF, s) /\ finSeen (state s) /\ recvBuf s = []) \/
  fst (Read n s) = ReadBlock \/ fst (Read n s) = ReadReset.
Proof.
  unfold Read, finSeen. destruct (Z.eqb_spec (blen (recvBuf s)) 0) as [Hz|Hz].
  - apply blen_nil_inv in Hz. destruct (state s) eqn:Es; cbn; auto 10.
  - assert (recvBuf s <> []) by (intros E; by rewrite E in Hz). destruct (state s); cbn; auto 10.
Qed.

Lemma take_drop_z {A} n (l : list A) : take_z n l ++ drop_z n l = l.
Proof. apply take_drop. Qed.

Lemma step_read cap n m p m' p' : inv m p -> opStep cap (ORead n) m p = Next m' p' -> inv m' p'.
Proof.
  intros (Wm & Wp & Dm & Dp) E. cbn [opStep] in E. destruct (live m) eqn:El; [|done]. cbn [negb] in E.
  destruct (Z.leb_spec n 0) as [|Hn]; [done|]. destruct (Read n (st m)) as [r s'] eqn:Er.
  destruct (Read_cases n (st m)) as [[Hc Hne]|[(Hc & Hf & He)|[Hc|Hc]]]; rewrite Er in Hc; cbn in Hc; try (by subst r).
  - injection Hc as -> ->. injection E as <- <-. split_and!.
    + destruct Wm as [? ? ? ? ? ? ? (Hr1 & Hr2 & Hr3) He ? ?]. split; cbn; keep.
      * split_and!; try lia. assert (blen (drop_z n (recvBuf (st m))) <= blen (recvBuf (st m))); [|lia].
        unfold drop_z, blen. rewrite length_drop. lia.
      * intros Hs. destruct (He Hs) as [? E]. by rewrite E in Hne.
    + done.
    + eapply dir_eq; [exact Dm|..]; keep.
    + destruct Dp as [H1 H2 H3 H4 H5 H6]. split; cbn; keep.
      rewrite H3, <- !app_assoc. by rewrite (app_assoc (take_z _ _)), take_drop_z.
  - injection Hc as -> ->. injection E as <- <-. split_and!.
    + destruct Wm. split; cbn; keep.
    + done.
    + eapply dir_eq; [exact Dm|..]; keep.
    + eapply dir_eq; [exact Dp|..]; keep.
Qed.

Lemma sendWindowUpdate_spec s f s' : sendWindowUpdate s = (f, s') -> state s <> streamInit ->
  0 <= recvWindow s -> recvWindow s + blen (recvBuf s) <= maxWindow s < 2 ^ 32 ->
  sendWindow s' = sendWindow s /\ maxWindow s' = maxWindow s /\ recvBuf s' = recvBuf s /\
  (state s' = state s \/ (state s = streamSYNReceived /\ state s' = streamEstablished)) /\
  match f with
  | Some (fl, d) => (fl = 0 \/ fl = flagACK) /\ 0 <= d /\ recvWindow s' = recvWindow s + d /\
                    recvWindow s' = maxWindow s - blen (recvBuf s)
  | None => recvWindow s' = recvWindow s /\ maxWindow s - blen (recvBuf s) - recvWindow s < maxWindow s / 2
  end.
Proof.
  intros E Hi Hr Hm. pose proof (blen_nonneg (recvBuf s)). unfold sendWindowUpdate in E.
  rewrite (u32_small (maxWindow s - _)) in E by lia. rewrite (u32_small (_ - recvWindow s)) in E by lia.
  destruct (sendFlags s) as [fl s1] eqn:Ef. apply sendFlags_spec in Ef as (Hfl & E1 & E2 & E3 & E4 & E5); [|done].
  destruct (Z.ltb_spec (maxWindow s - blen (recvBuf s) - recvWindow s) (maxWindow s / 2)); cbn [andb] in E.
  - destruct (Z.eqb_spec fl 0); injection E as <- <-; cbn; rewrite ?E1, ?E2, ?E3, ?E4;
      rewrite ?u32_small by lia; split_and!; auto; lia.
  - injection E as <- <-. cbn. rewrite ?E1, ?E2, ?E3, ?E4, u32_small by lia. split_and!; auto; lia.
Qed.

Lemma closedL_flags a b : b = a \/ (a = streamSYNReceived /\ b = streamEstablished) -> closedL b <-> closedL a.
Proof. intros [->|[-> ->]]; [done|]. unfold closedL. naive_solver. Qed.
Lemma finSeen_flags a b : b = a \/ (a = streamSYNReceived /\ b = streamEstablished) -> finSeen b <-> finSeen a.
Proof. intros [->|[-> ->]]; [done|]. unfold finSeen. naive_solver. Qed.

(** The state a FIN is due in is kept, or is not one. *)
Lemma w_fin_flags m (a b : streamState) : (closedL a -> b = a) ->
  (forall fl c, finDue m = Some (fl, c) -> fl = flagFIN /\ closedL a /\ (c = true -> a = streamClosed)) ->
  forall fl c, finDue m = Some (fl, c) -> fl = flagFIN /\ closedL b /\ (c = true -> b = streamClosed).
Proof.
  intros Hs H fl c E. destruct (H fl c E) as (Hf & Hc & Hcl). by rewrite (Hs Hc).
Qed.

Lemma step_update cap m p m' p' : inv m p -> opStep cap OUpdate m p = Next m' p' -> inv m' p'.
Proof.
  intros (Wm & Wp & Dm & Dp) E. cbn [opStep] in E. destruct (live m) eqn:El; [|done]. cbn [negb] in E.
  destruct (due m) as [|k]; [done|]. destruct (sendWindowUpdate (st m)) as [f s'] eqn:Es.
  destruct Wm as [W1 W2 W3 W4 W5 W6 W7 W8 W9 W10 W11]. pose proof Es as Hs.
  apply sendWindowUpdate_spec in Hs as (S1 & S2 & S3 & S4 & S5); [|naive_solver lia..].
  pose proof (closedL_flags _ _ S4) as Hc. pose proof (finSeen_flags _ _ S4) as Hf.
  injection E as <- <-. split_and!.
  - split; cbn; keep.
    + apply Forall_app. split; [done|]. destruct f as [[fl d]|]; [|constructor]. apply List.Forall_cons; [|constructor].
      cbn. naive_solver.
    + destruct S4 as [->|[? ->]]; [done|]. split; congruence.
    + intros Hg. specialize (W5 Hg). destruct S4 as [->|[? ->]]; [done|congruence].
    + by rewrite S1.
    + rewrite S2, S3. destruct f as [[fl d]|]; [|destruct S5 as [-> _]; done]. destruct S5 as (_ & ? & _ & ->). lia.
    + rewrite Hf, S3. done.
    + by rewrite S1.
    + eapply w_fin_flags; [|exact W11]. unfold closedL. destruct S4 as [->|[-> _]]; naive_solver.
  - done.
  - eapply dir_eq; [exact Dm|..]; keep. unfold avail. cbn. by rewrite S1.
  - destruct Dp as [H1 H2 H3 H4 H5 H6]. split; cbn; keep; rewrite ?Hf, ?S3; keep.
    + intros Hg. rewrite app_assoc, deltas_app. specialize (H1 Hg).
      destruct f as [[fl d]|]; [destruct S5 as (_ & _ & -> & _)|destruct S5 as [-> _]];
        rewrite ?deltas_cons; unfold deltas at 2; cbn; lia.
    + destruct f as [[fl d]|]; [destruct S5 as (_ & ? & -> & _)|destruct S5 as [-> _]]; lia.
Qed.

Lemma write_spec cap b s r s' : write cap b s = (r, s') -> state s <> streamInit -> 0 < cap -> b <> [] ->
  0 <= sendWindow s ->
  match r with
  | WriteFrame fl body =>
      (fl = 0 \/ fl = flagACK) /\ body <> [] /\ blen body <= sendWindow s /\ blen body <= cap /\
      (exists rest, b = body ++ rest) /\ ~ closedL (state s) /\
      recvWindow s' = recvWindow s /\ sendWindow s' = sendWindow s /\ maxWindow s' = maxWindow s /\ recvBuf s' = recvBuf s /\
      (state s' = state s \/ (state s = streamSYNReceived /\ state s' = streamEstablished))
  | WriteBlock => sendWindow s = 0
  | _ => True
  end.
Proof.
  intros E Hi Hcap Hb Hw. unfold write in E.
  assert (Hlen : 0 < blen b) by (pose proof (blen_nonneg b); assert (blen b <> 0) by (by intros ?%blen_nil_inv); lia).
  destruct (Z.eqb_spec (sendWindow s) 0) as [|Hnz]; [by destruct (state s); injection E as <- <-|].
  destruct (sendFlags s) as [fl s1] eqn:Ef. apply sendFlags_spec in Ef as (Hfl & E1 & E2 & E3 & E4 & E5); [|done].
  set (n := Z.min (Z.min (sendWindow s) (blen b)) cap) in E.
  assert (Hn : 0 < n) by lia.
  assert (Hl : blen (take_z n b) = n) by (rewrite blen_take_z; lia).
  assert (Hc : r = WriteClosed \/ r = WriteReset \/ (~ closedL (state s) /\ (WriteFrame fl (take_z n b), s1) = (r, s'))).
  { unfold closedL. destruct (state s); try (injection E as <- <-; by auto); (right; right; split; [naive_solver|exact E]). }
  destruct Hc as [->|[->|[Hc [= <- <-]]]]; [done..|]. split_and!; try done; try lia.
  - intros Hz. rewrite Hz in Hl. change (0 = n) in Hl. lia.
  - exists (drop_z n b). by rewrite take_drop_z.
Qed.

(** A write finds the stream open: its frame is held. *)
Lemma step_write cap b m p m' p' : 0 < cap -> inv m p -> opStep cap (OWrite b) m p = Next m' p' -> inv m' p'.
Proof.
  intros Hcap (Wm & Wp & Dm & Dp) E. cbn [opStep] in E. destruct (live m) eqn:El; [|done]. cbn [negb] in E.
  destruct (pending m) eqn:Epd; [done|].
  destruct (Z.eqb_spec (claim m) 0) as [Hc|]; [|done]. destruct (Z.eqb_spec (blen b) 0) as [|Hb]; [done|]. cbn [negb orb] in E.
  destruct (write cap b (st m)) as [r s'] eqn:Ew. destruct Wm as [W1 W2 W3 W4 W5 W6 W7 W8 W9 W10 W11].
  pose proof Ew as Hw. apply write_spec in Hw; [|naive_solver|done|by intros ->|naive_solver lia].
  destruct r as [fl body| | |]; try done. destruct Hw as (Hfl & Hne & Hlw & _ & _ & Hnc & S1 & S2 & S3 & S4 & S5).
  pose proof (closedL_flags _ _ S5) as HcL. pose proof (finSeen_flags _ _ S5) as HfS.
  injection E as <- <-. destruct Dm as [H1 H2 H3 H4 H5 H6].
  assert (Hfd : finDue m = None) by (destruct (finDue m) as [[fl' c]|] eqn:Ef; [by destruct (W11 fl' c eq_refl) as (_ & ? & _)|done]).
  assert (Hh : held m = []) by (unfold held; by rewrite Epd, Hfd). unfold inOrder in *. rewrite Hh, app_nil_r in *. split_and!.
  - split; cbn; rewrite ?S1, ?S2, ?S3, ?S4, ?HcL, ?HfS, ?Hfd; keep.
    + destruct S5 as [->|[? ->]]; [done|]. split; congruence.
    + intros Hg. specialize (W5 Hg). destruct Hnc. by right.
    + lia.
    + by intros ? ? [= <- <-].
  - done.
  - assert (Hg : gone m = false) by (destruct (gone m); [|done]; specialize (W5 eq_refl); destruct Hnc; by right).
    specialize (H1 Hg). unfold avail in H1. rewrite Hc, Z.sub_0_r, u32_small in H1 by lia.
    assert (Hd : 0 <= deltas (wire p ++ urgent p)).
    { rewrite deltas_app. pose proof (deltas_nonneg _ (w_wire _ Wp)). pose proof (deltas_urgent_nonneg _ (w_urgent _ Wp)). lia. }
    split; unfold inOrder, held; cbn; rewrite ?HcL, ?Hfd; keep.
    + intros _. unfold avail. cbn. rewrite S2, Z.sub_0_r, u32_small by lia. lia.
    + rewrite app_assoc, bodies_app, blen_app, bodies_cons, app_nil_r. cbn [YamuxFlow.body]. lia.
    + intros Hn. destruct (H4 Hn) as [Hd1 Hd2]. split; [|done]. rewrite app_assoc.
      apply Forall_app. split; [done|]. apply List.Forall_cons; [done|constructor].
  - eapply dir_eq; [exact Dp|..]; keep.
Qed.

Lemma step_queue cap m p m' p' : inv m p -> opStep cap OQueue m p = Next m' p' -> inv m' p'.
Proof.
  intros (Wm & Wp & Dm & Dp) E. cbn [opStep] in E. destruct (live m) eqn:El; [|done]. cbn [negb] in E.
  destruct (pending m) as [[fl body]|] eqn:Epd; [|done]. injection E as <- <-.
  destruct Wm as [W1 W2 W3 W4 W5 W6 W7 W8 W9 W10 W11]. destruct (W10 _ _ Epd) as (Hc & Hlw & Hok). pose proof (blen_nonneg body).
  destruct Dm as [H1 H2 H3 H4 H5 H6]. set (q := match finDue m with Some (fl', _) => [FUpdate fl' 0] | None => [] end).
  assert (Hh : held m = FData fl body :: q) by (unfold held; by rewrite Epd).
  assert (Hio : forall w : list sframe, w ++ (ordered m ++ [FData fl body]) ++ q = w ++ ordered m ++ held m).
  { intros w. by rewrite Hh, <- app_assoc. }
  split_and!.
  - split; cbn; keep; [|lia]. apply Forall_app. split; [done|]. apply List.Forall_cons; [by left|constructor].
  - done.
  - match goal with |- dir ?M _ => assert (Hh' : held M = q) by done; assert (Hio' : inOrder M = inOrder m) by apply Hio end.
    split; rewrite ?Hio', ?Hh'; cbn; rewrite ?Hio; keep.
    + intros Hg. specialize (H1 Hg). unfold avail in *. cbn. rewrite Hc, Z.sub_0_r, u32_small in H1 by lia. rewrite u32_small by lia.
      rewrite app_assoc, bodies_app, blen_app, bodies_cons, app_nil_r. cbn [YamuxFlow.body]. lia.
    + rewrite H3, (app_assoc (wire m)), (bodies_app (wire m ++ ordered m)), bodies_cons, app_nil_r, <- !app_assoc. done.
  - eapply dir_eq; [exact Dp|..]; keep.
Qed.

Lemma step_send cap u m p m' p' : inv m p -> opStep cap (OSend u) m p = Next m' p' -> inv m' p'.
Proof.
  intros (Wm & Wp & Dm & Dp) E. cbn [opStep] in E. destruct Wm as [W1 W2 W3 W4 W5 W6 W7 W8 W9 W10 W11].
  destruct Dm as [H1 H2 H3 H4 H5 H6]. destruct u.
  - destruct (urgent m) as [|f q] eqn:Eu; [done|]. injection E as <- <-. apply Forall_cons_1 in W1 as [Hf W1].
    destruct (okUrgent_body f Hf) as (Eb & Hd & Ho).
    assert (Hb : forall l, bodies ((wire m ++ [f]) ++ l) = bodies (wire m ++ l)).
    { intros l. rewrite !bodies_app, bodies_cons, Eb. cbn. by rewrite app_nil_r. }
    assert (Hio : filter (fun f => isOrdered f = true) (wire m ++ [f]) = filter (fun f => isOrdered f = true) (wire m)).
    { rewrite filter_app, filter_cons, Ho. cbn. by rewrite app_nil_r. }
    split_and!; [split; cbn; keep|done| |].
    + apply Forall_app. split; [done|]. apply List.Forall_cons; [by left|constructor].
    + match goal with |- dir ?M _ => assert (Hh : held M = held m) by done end.
      split; unfold inOrder in *; rewrite ?Hh; cbn; rewrite ?Hb, ?Hio; keep.
      intros Hl. destruct (H6 Hl) as (d & w & ->). by eexists _, _.
    + eapply dir_eq; [exact Dp|..]; keep. cbn. rewrite Eu, <- app_assoc. done.
  - destruct (ordered m) as [|f q] eqn:Eo; [done|]. injection E as <- <-. apply Forall_cons_1 in W2 as [Hf W2].
    destruct (okOrdered_spec f Hf) as (Ho & Hd).
    assert (Hio : forall l, filter (fun f => isOrdered f = true) (wire m ++ [f]) ++ l = filter (fun f => isOrdered f = true) (wire m) ++ f :: l).
    { intros l. rewrite filter_app, filter_cons, Ho. cbn. by rewrite <- app_assoc. }
    split_and!; [split; cbn; keep|done| |].
    + apply Forall_app. split; [done|]. apply List.Forall_cons; [by right|constructor].
    + match goal with |- dir ?M _ => assert (Hh : held M = held m) by done end.
      unfold inOrder in *. rewrite Eo in *. cbn [app] in *. split; unfold inOrder; rewrite ?Hh; cbn; rewrite ?Hio, <- ?app_assoc; keep.
      intros Hl. destruct (H6 Hl) as (d & w & ->). by eexists _, _.
    + eapply dir_eq; [exact Dp|..]; keep. cbn. rewrite !deltas_app, deltas_cons, Hd. unfold deltas at 2. cbn. lia.
Qed.

Lemma Close_spec s q s' c : Close s = Some (q, s', c) ->
  (closedL (state s) /\ q = None /\ s' = s /\ c = false) \/
  state s = streamReset \/
  (~ closedL (state s) /\ q = Some flagFIN /\
   recvWindow s' = recvWindow s /\ sendWindow s' = sendWindow s /\ maxWindow s' = maxWindow s /\ recvBuf s' = recvBuf s /\
   closedL (state s') /\ (finSeen (state s') <-> finSeen (state s)) /\ (c = true -> state s' = streamClosed)).
Proof.
  unfold Close, closedL, finSeen. destruct (state s) eqn:E; cbn; intros [= <- <- <-]; cbn; auto 10;
    right; right; split_and!; auto; naive_solver.
Qed.

(** An open stream has no FIN to queue. *)
Lemma open_noFin m : wfEnd m -> ~ closedL (state (st m)) -> finDue m = None.
Proof. intros W Hc. destruct (finDue m) as [[fl c]|] eqn:E; [|done]. by destruct (w_fin _ W fl c E) as (_ & ? & _). Qed.

Lemma step_close cap m p m' p' : inv m p -> opStep cap OClose m p = Next m' p' -> inv m' p'.
Proof.
  intros (Wm & Wp & Dm & Dp) E. cbn [opStep] in E. destruct (live m) eqn:El; [|done]. cbn [negb] in E.
  destruct (Close (st m)) as [[[q s'] c]|] eqn:Ec; [|done]. injection E as <- <-.
  pose proof Wm as Wm'. destruct Wm as [W1 W2 W3 W4 W5 W6 W7 W8 W9 W10 W11].
  apply Close_spec in Ec as [(Hc & -> & -> & ->)|[Hr|(Hc & -> & S1 & S2 & S3 & S4 & S5 & S6 & S7)]].
  - destruct m. cbn in *. subst. done.
  - by destruct W4.
  - assert (Hg : gone m = false) by (destruct (gone m); [|done]; specialize (W5 eq_refl); destruct Hc; by right).
    pose proof (open_noFin m Wm' Hc) as Hfd. destruct Dm as [H1 H2 H3 H4 H5 H6]. destruct (H4 Hc) as [Hd Hf].
    match goal with |- inv ?M _ => set (M' := M) end.
    assert (Hh : held M' = held m ++ [fin]) by (unfold held, M'; cbn; by rewrite Hfd, app_nil_r).
    assert (Hio : inOrder M' = inOrder m ++ [fin]) by (unfold inOrder; rewrite Hh; unfold M'; cbn; by rewrite <- !app_assoc).
    split_and!; [|done| |].
    + split; cbn; rewrite ?Hg, ?S1, ?S2, ?S3, ?S4, ?S6; keep.
      * destruct S5 as [->| ->]; done.
      * intros fl c' [= <- <-]. auto.
    + split; rewrite ?Hio, ?Hh; cbn; keep.
      * intros _. unfold avail. cbn. rewrite S2. auto.
      * rewrite !app_assoc, bodies_app, <- app_assoc, app_nil_r. done.
      * intros _. left. split; [done|]. by exists (inOrder m).
    + eapply dir_eq; [exact Dp|..]; keep.
Qed.

Lemma step_fin cap m p m' p' : inv m p -> proper OFin m -> opStep cap OFin m p = Next m' p' -> inv m' p'.
Proof.
  intros (Wm & Wp & Dm & Dp) Hpd E. cbn in Hpd. cbn [opStep] in E. destruct (live m) eqn:El; [|done]. cbn [negb] in E.
  destruct (finDue m) as [[fl c]|] eqn:Efd; [|done]. injection E as <- <-.
  destruct Wm as [W1 W2 W3 W4 W5 W6 W7 W8 W9 W10 W11]. destruct (W11 _ _ Efd) as (-> & Hc & Hcl). fold fin.
  destruct Dm as [H1 H2 H3 H4 H5 H6]. match goal with |- inv ?M _ => set (M' := M) end.
  assert (Hh : held m = [fin]) by (unfold held; by rewrite Hpd, Efd). assert (Hh' : held M' = []) by (unfold held, M'; cbn; by rewrite Hpd).
  assert (Hio : inOrder M' = inOrder m) by (unfold inOrder; rewrite Hh, Hh', app_nil_r; done).
  assert (Hb : bodies (wire m ++ ordered m ++ [fin]) = bodies (wire m ++ ordered m)) by (rewrite app_assoc, bodies_app; by rewrite app_nil_r).
  split_and!; [|done| |].
  - split; cbn; keep.
    + apply Forall_app. split; [done|]. apply List.Forall_cons; [by right|constructor].
    + intros [Hg|Hg]%orb_true_iff; auto.
  - rewrite Hh in H2. split; rewrite ?Hio, ?Hh', ?app_nil_r; cbn; rewrite ?Hb; keep.
    + intros [Hg _]%orb_false_iff. by apply H1.
    + by rewrite <- Hb.
  - eapply dir_eq; [exact Dp|..]; keep.
Qed.

(** *** Delivery *)

Lemma wire_tail f w p : wire p = f :: w -> wfEnd p -> wfEnd (withWire w p).
Proof. intros Ew [? ? W3 ? ? ? ? ? ? ? ?]. rewrite Ew in W3. apply Forall_cons_1 in W3 as [_ W3]. split; cbn; keep. Qed.

(** An urgent frame leaves the data of its direction alone. *)
Lemma dir_urgent f w p m m' : wire p = f :: w -> okUrgent f -> dir p m ->
  recvWindow (st m') = recvWindow (st m) -> recvBuf (st m') = recvBuf (st m) -> consumed m' = consumed m ->
  deltas (wire m' ++ urgent m') = deltas (wire m ++ urgent m) ->
  (finSeen (state (st m')) <-> finSeen (state (st m))) -> live m' = true ->
  dir (withWire w p) m'.
Proof.
  intros Ew Hf [H1 H2 H3 H4 H5 H6] Er Eb Eco Ed Efs El. destruct (okUrgent_body f Hf) as (Ebf & _ & Ho).
  rewrite Ew in *. assert (Hio : inOrder p = inOrder (withWire w p)).
  { unfold inOrder. rewrite Ew, filter_cons, Ho. done. }
  cbn [app] in *. rewrite bodies_cons, Ebf in *. cbn [app] in *.
  split; cbn [withWire wire ordered gone sent st live]; rewrite ?Er, ?Eb, ?Eco, ?Ed, ?Efs, <- ?Hio; auto.
  by rewrite El.
Qed.

(** Credit on its way does not overflow the sender's window. *)
Lemma avail_grant fl d w m p : dir m p -> wfEnd p -> gone m = false -> wire p = FUpdate fl d :: w -> avail m + d < 2 ^ 32.
Proof.
  intros Dm [P1 _ P3 _ _ _ _ Pr _ _ _] Hg Ew. pose proof (d_flow _ _ Dm Hg) as H1. rewrite Ew in H1, P3. cbn [app] in H1. rewrite deltas_cons in H1.
  apply Forall_cons_1 in P3 as [_ P3]. rewrite deltas_app in H1. pose proof (deltas_nonneg _ P3). pose proof (deltas_urgent_nonneg _ P1).
  pose proof (blen_nonneg (bodies (wire m ++ ordered m))). pose proof (blen_nonneg (recvBuf (st p))). cbn [delta] in H1. lia.
Qed.

Lemma deliver_urgent f w m p : inv m p -> wire p = f :: w -> okUrgent f -> gone m = false ->
  exists m', deliver f m = Ok m' /\ inv m' (withWire w p).
Proof.
  intros (Wm & Wp & Dm & Dp) Ew Hf Hg. pose proof Hf as Hf'. destruct f as [|fl d]; [done|]. destruct Hf as [Hfl Hd].
  assert (Hk : live m || hasFlag fl flagSYN = true).
  { destruct (live m) eqn:El; [done|]. destruct Dp as [_ _ _ _ _ H6]. destruct (H6 El) as (d' & w' & E).
    rewrite Ew in E. by injection E as -> _ _. }
  unfold deliver. rewrite Hk, Hg. cbn [negb orb]. unfold incrSendWindow.
  destruct (processFlags_plain fl (st m) Hfl) as (s' & a & -> & S1 & S2 & S3 & S4 & S5). cbn. eexists. split; [done|].
  destruct Wm as [W1 W2 W3 W4 W5 W6 W7 W8 W9 W10 W11].
  assert (HcL : closedL (state s') <-> closedL (state (st m))).
  { destruct S5 as [->|[-> ->]]; [done|]. unfold closedL. naive_solver. }
  assert (HfS : finSeen (state s') <-> finSeen (state (st m))).
  { destruct S5 as [->|[-> ->]]; [done|]. unfold finSeen. naive_solver. }
  pose proof (avail_grant _ _ _ _ _ Dm Wp Hg Ew) as Hroom. split_and!.
  - split; cbn; rewrite ?S1, ?S2, ?S3, ?S4, ?HfS; keep.
    + destruct S5 as [->|[? ->]]; done.
    + split; [apply u32_range|lia].
    + intros fl' b Hpd. destruct (W10 fl' b Hpd) as (Hc & Hl & Hok). split_and!; [done| |apply Hok..]. unfold avail in Hroom.
      rewrite Hc, Z.sub_0_r, u32_small in Hroom by lia. rewrite u32_small by lia. lia.
    + eapply w_fin_flags; [|exact W11]. unfold closedL. destruct S5 as [->|[-> _]]; naive_solver.
  - by eapply wire_tail.
  - destruct Dm as [H1 H2 H3 H4 H5 H6]. specialize (H1 Hg). rewrite Ew in H1. cbn [app] in H1. rewrite deltas_cons in H1. cbn in H1.
    split; unfold inOrder, held; cbn; rewrite ?HcL; keep.
    intros _. unfold avail in *. cbn. rewrite S2, u32_sub_l.
    replace (sendWindow (st m) + d - claim m) with (sendWindow (st m) - claim m + d) by lia.
    pose proof (u32_range (sendWindow (st m) - claim m)) as Hr. rewrite <- u32_add_l, u32_small by lia. lia.
  - eapply dir_urgent; [exact Ew|exact Hf'|exact Dp|..]; keep.
Qed.

(** A frame of the stream's own class is on the wire only while the receiver has not
    seen the FIN. *)
Lemma ordered_head f w p m : wire p = f :: w -> okOrdered f -> dir p m ->
  live m = true /\ ~ finSeen (state (st m)) /\ inOrder p = f :: inOrder (withWire w p).
Proof.
  intros Ew Hf [_ _ _ H4 H5 H6]. destruct (okOrdered_spec f Hf) as [Ho _].
  assert (Hio : inOrder p = f :: inOrder (withWire w p)).
  { unfold inOrder. rewrite Ew, filter_cons, Ho. done. }
  split_and!; [|destruct (closedL_dec (state (st p))) as [Hc|Hc]|done].
  - destruct (live m); [done|]. destruct (H6 eq_refl) as (d & w' & E). rewrite Ew in E. injection E as -> _.
    destruct Hf; [done|]. done.
  - destruct (H5 Hc) as [[? _]|[_ E]]; [done|]. by rewrite Hio in E.
  - by destruct (H4 Hc).
Qed.

Lemma deliver_data f w m p : inv m p -> wire p = f :: w -> okData f -> gone m = false ->
  exists m', deliver f m = Ok m' /\ inv m' (withWire w p).
Proof.
  intros (Wm & Wp & Dm & Dp) Ew Hf Hg. pose proof Hf as Hf'.
  destruct (ordered_head f w p m Ew (or_introl Hf) Dp) as (El & Hnf & Hio). destruct f as [fl b|]; [|done].
  destruct Hf as [Hfl Hb]. destruct Wm as [W1 W2 W3 W4 W5 W6 W7 W8 W9 W10 W11]. destruct Dp as [H1 H2 H3 H4 H5 H6].
  rewrite Ew in H1, H2, H3. cbn [app] in H1, H2, H3. rewrite bodies_cons in H1, H2, H3. cbn [body] in *.
  rewrite blen_app in H1, H2. pose proof (blen_nonneg (bodies (w ++ ordered p ++ held p))).
  assert (Hh : held (withWire w p) = held p) by done.
  unfold deliver. rewrite El, Hg. cbn [negb orb]. unfold stream_readData.
  destruct (processFlags_plain fl (st m)) as (s' & a & -> & S1 & S2 & S3 & S4 & S5); [naive_solver|]. cbn.
  destruct (Z.eqb_spec (blen b) 0) as [Hz|Hz]; [by apply blen_nil_inv in Hz|]. pose proof (blen_nonneg b).
  rewrite S1, S4. destruct (Z.ltb_spec (recvWindow (st m)) (blen b)); [lia|]. cbn. eexists. split; [done|].
  pose proof (blen_nonneg (recvBuf (st m))).
  assert (HcL : closedL (state s') <-> closedL (state (st m))).
  { destruct S5 as [->|[-> ->]]; [done|]. unfold closedL. naive_solver. }
  assert (HfS : finSeen (state s') <-> finSeen (state (st m))).
  { destruct S5 as [->|[-> ->]]; [done|]. unfold finSeen. naive_solver. }
  split_and!.
  - split; cbn; rewrite ?S2, ?S3, ?HfS; keep.
    + destruct S5 as [->|[? ->]]; done.
    + rewrite u32_small, blen_app by lia. lia.
    + intros Hs. by destruct (W9 Hs).
    + eapply w_fin_flags; [|exact W11]. unfold closedL. destruct S5 as [->|[-> _]]; naive_solver.
  - by eapply wire_tail.
  - eapply dir_eq; [exact Dm|..]; keep.
    + unfold avail. cbn. by rewrite S2.
    + cbn. by rewrite Ew, <- app_comm_cons, deltas_cons.
  - split; rewrite ?Hh; cbn; rewrite ?HfS, ?u32_small by lia; keep.
    + intros Hp. specialize (H1 Hp). unfold avail in *. cbn. lia.
    + lia.
    + by rewrite H3, <- !app_assoc.
    + intros Hc. destruct (H4 Hc) as [Hd _]. rewrite Hio in Hd. by apply Forall_cons_1 in Hd as [_ Hd].
    + intros Hc. destruct (H5 Hc) as [[_ (ds & E & Hd)]|[? _]]; [|done]. rewrite Hio in E.
      destruct ds as [|d ds]; [done|]. injection E as <- E. left. split; [done|]. exists ds.
      by apply Forall_cons_1 in Hd as [_ Hd].
Qed.

Lemma deliver_fin w m p : inv m p -> wire p = fin :: w -> gone m = false ->
  exists m', deliver fin m = Ok m' /\ inv m' (withWire w p).
Proof.
  intros (Wm & Wp & Dm & Dp) Ew Hg.
  destruct (ordered_head fin w p m Ew (or_intror eq_refl) Dp) as (El & Hnf & Hio).
  destruct Wm as [W1 W2 W3 W4 W5 W6 W7 W8 W9 W10 W11]. destruct Dp as [H1 H2 H3 H4 H5 H6].
  assert (Hc : closedL (state (st p)) /\ inOrder (withWire w p) = []).
  { destruct (closedL_dec (state (st p))) as [Hc|Hc].
    - split; [done|]. destruct (H5 Hc) as [[_ (ds & E & Hd)]|[? _]]; [|done]. rewrite Hio in E.
      destruct ds as [|d ds]; [by injection E|]. injection E as <- E. by apply Forall_cons_1 in Hd as [? _].
    - destruct (H4 Hc) as [Hd _]. rewrite Hio in Hd. by apply Forall_cons_1 in Hd as [? _]. }
  destruct Hc as [Hc Hnil]. rewrite Ew in H1, H2, H3. cbn [app] in H1, H2, H3. rewrite bodies_cons in H1, H2, H3.
  cbn [body fin app] in *. unfold deliver, fin. rewrite El, Hg. cbn [negb orb]. unfold incrSendWindow.
  destruct (processFlags_fin (st m)) as (s' & c & -> & S1 & S2 & S3 & S4 & S5); [naive_solver..|]. cbn. eexists. split; [done|].
  assert (HcL : closedL (state s') <-> closedL (state (st m))).
  { unfold closedL in *. destruct S5 as [(? & -> & _)|(-> & -> & _)]; naive_solver. }
  assert (HfS : finSeen (state s')) by (unfold finSeen; destruct S5 as [(_ & -> & _)|(_ & -> & _)]; auto).
  split_and!.
  - split; cbn; rewrite ?S1, ?S2, ?S3, ?S4; keep.
    + destruct S5 as [(_ & -> & _)|(_ & -> & _)]; done.
    + intros ->. destruct S5 as [(_ & _ & ?)|(_ & -> & _)]; done.
    + split; [apply u32_range|lia].
    + intros Hs. by destruct (W9 Hs).
    + rewrite Z.add_0_r, u32_small by lia. done.
    + intros fl c' Hfd. destruct (W11 fl c' Hfd) as (-> & Hcm & _). split_and!; [done|by apply HcL|].
      destruct S5 as [(? & _)|(_ & -> & _)]; done.
  - by eapply wire_tail.
  - destruct Dm as [M1 M2 M3 M4 M5 M6]. specialize (M1 Hg). rewrite Ew, <- app_comm_cons, deltas_cons in M1.
    split; unfold inOrder, held; cbn; rewrite ?HcL; keep.
    intros _. unfold avail in *. cbn. rewrite S2, Z.add_0_r, u32_sub_l. done.
  - split; cbn; rewrite ?S1, ?S4; keep. intros _. by right.
Qed.

Lemma deliver_gone f w m p : inv m p -> wire p = f :: w -> gone m = true ->
  exists m', deliver f m = Ok m' /\ inv m' (withWire w p).
Proof.
  intros (Wm & Wp & Dm & Dp) Ew Hg. exists m. split; [unfold deliver; by rewrite Hg, orb_true_r|].
  pose proof Wm as [_ _ _ _ W5 W6 _ _ _ _ _]. pose proof Wp as [_ _ P3 _ _ _ _ _ _ _ _]. rewrite Ew in P3.
  apply Forall_cons_1 in P3 as [[Hf|Hf] _].
  - split_and!; [done|by eapply wire_tail| |].
    + destruct Dm as [M1 M2 M3 M4 M5 M6]. split; keep. by rewrite Hg.
    + eapply dir_urgent; [exact Ew|exact Hf|exact Dp|..]; keep.
      destruct (live m); [done|]. by rewrite W6 in W5; [specialize (W5 Hg)|].
  - destruct (ordered_head f w p m Ew Hf Dp) as (_ & Hnf & _). destruct Hnf. right. auto.
Qed.

Lemma step_deliver f w m p : inv m p -> wire p = f :: w ->
  exists m', deliver f m = Ok m' /\ inv m' (withWire w p).
Proof.
  intros Hi Ew. destruct (gone m) eqn:Hg; [by eapply deliver_gone|].
  pose proof Hi as (_ & [_ _ P3 _ _ _ _ _ _ _ _] & _ & _). rewrite Ew in P3. apply Forall_cons_1 in P3 as [[Hf|[Hf| ->]] _].
  - by eapply deliver_urgent.
  - by eapply deliver_data.
  - by eapply deliver_fin.
Qed.

Lemma step_inv cap o m p m' p' : 0 < cap -> inv m p -> proper o m -> opStep cap o m p = Next m' p' -> inv m' p'.
Proof.
  intros Hcap Hi Hr E. destruct o.
  - by eapply step_write.
  - by eapply step_queue.
  - by eapply step_written.
  - by eapply step_send.
  - cbn in E. destruct (wire p) as [|f w] eqn:Ew; [done|]. destruct (step_deliver f w m p Hi Ew) as (m1 & Ed & Hi').
    rewrite Ed in E. by injection E as <- <-.
  - by eapply step_read.
  - by eapply step_update.
  - by eapply step_close.
  - by eapply step_fin.
  - by eapply step_setmax.
Qed.

Lemma step_ok cap o m p e : inv m p -> opStep cap o m p <> Failed e.
Proof.
  intros Hi E. destruct o; cbn [opStep] in E; try (repeat case_match; done).
  destruct (wire p) as [|f w] eqn:Ew; [done|]. destruct (step_deliver f w m p Hi Ew) as (m' & Ed & _). by rewrite Ed in E.
Qed.

Lemma opener_eq max : initialStreamWindow <= max < 2 ^ 32 ->
  opener max = mkEnd (mkStream max initialStreamWindow max ClassNormal streamSYNSent []) true false None 0 None 0 [] []
                 [FUpdate flagSYN (max - initialStreamWindow)] [] [] false.
Proof.
  intros H. assert (0 <= initialStreamWindow) by done. unfold opener, sendWindowUpdate, newStream.
  cbn [maxWindow recvBuf recvWindow].
  change (blen []) with 0. rewrite Z.sub_0_r, (u32_small max), u32_small by lia.
  cbn [sendFlags state withState]. rewrite andb_false_r. unfold withRecv, withState.
  cbn [recvWindow sendWindow maxWindow sendClass state recvBuf].
  replace (initialStreamWindow + (max - initialStreamWindow)) with max by lia. by rewrite u32_small by lia.
Qed.

Lemma inv_init maxA maxB :
  initialStreamWindow <= maxA < 2 ^ 32 -> initialStreamWindow <= maxB < 2 ^ 32 -> inv (opener maxA) (acceptor maxB).
Proof.
  intros HA HB. rewrite opener_eq by done. unfold acceptor, newStream, initialStreamWindow in *.
  assert (u32 (256 * 1024) = 256 * 1024) as Hu by done.
  split_and!; split; unfold avail, closedL, finSeen, deltas, bodies, blen; cbn [map concat foldr app length st state];
    cbn -[Z.pow Z.mul Z.sub Z.of_nat]; unfold initialStreamWindow; rewrite ?Z.sub_0_r, ?Hu;
    try done; try (change (Z.of_nat 0) with 0; intros; split_and!; lia); try naive_solver.
  apply List.Forall_cons; [left; cbn; split; [auto|lia]|constructor].
  all: try (change (Z.of_nat 0) with 0; lia).
Qed.

Lemma reach_inv cap maxA maxB a b : 0 < cap ->
  initialStreamWindow <= maxA < 2 ^ 32 -> initialStreamWindow <= maxB < 2 ^ 32 ->
  reach cap maxA maxB a b -> inv a b.
Proof.
  intros Hcap HA HB. induction 1 as [|o a b a' b' _ IH Hr E|o a b a' b' _ IH Hr E]; [by apply inv_init|..].
  - by eapply step_inv.
  - destruct IH as (W1 & W2 & D1 & D2). destruct (step_inv cap o b a b' a') as (? & ? & ? & ?); done.
Qed.

(** ** Delivery *)

(** What [Q] has read and buffered is the beginning of what [P] wrote, within the
    receive window, and is all of it once [Q] read EOF. *)
Definition delivered (P Q : endpoint) : Prop :=
  (exists rest, sent P = consumed Q ++ recvBuf (st Q) ++ rest) /\
  blen (recvBuf (st Q)) <= maxWindow (st Q) /\
  (sawEOF Q = true -> consumed Q = sent P /\ closedL (state (st P))).

Lemma inv_delivered P Q : inv P Q -> delivered P Q.
Proof.
  intros (_ & [_ _ _ _ _ _ _ W8 W9 _ _] & [D1 D2 D3 D4 D5 D6] & _). split_and!; [by eexists|lia|].
  intros Hs. destruct (W9 Hs) as [Hf Hb]. destruct (closedL_dec (state (st P))) as [Hc|Hc]; [|by destruct (D4 Hc)].
  split; [|done]. destruct (D5 Hc) as [[? _]|[_ Hio]]; [done|]. unfold inOrder in Hio. apply app_eq_nil in Hio as [Hw [Ho _]%app_eq_nil].
  rewrite D3, Hb, Ho, app_nil_r. cbn [app]. assert (Hz : bodies (wire P) = []); [|by rewrite Hz, app_nil_r].
  clear - Hw. induction (wire P) as [|f w IH]; [done|]. rewrite filter_cons in Hw. rewrite bodies_cons.
  destruct f; [done|]. cbn in Hw |- *. case_decide; [done|]. auto.
Qed.

(** C27. Every byte written on a stream is delivered once and in order, whatever the
    interleaving of the steps of the two ends' writes, reads, closes, window updates and of the
    scheduler with the wire, except that no FIN is queued while a write that found the stream open has its frame still to queue
    ([proper]): the reader has always read a prefix of what was written,
    its buffer never exceeds its window, EOF comes only after everything was read from a
    writer that closed, and no frame is ever refused (no [ErrRecvWindowExceeded], no
    unexpected flag). *)
Theorem yamux_delivery cap maxA maxB a b :
  0 < cap -> initialStreamWindow <= maxA < 2 ^ 32 -> initialStreamWindow <= maxB < 2 ^ 32 ->
  reach cap maxA maxB a b ->
  delivered a b /\ delivered b a /\ forall o e, opStep cap o a b <> Failed e /\ opStep cap o b a <> Failed e.
Proof.
  intros Hcap HA HB Hr. pose proof (reach_inv _ _ _ _ _ Hcap HA HB Hr) as Hi.
  assert (Hi' : inv b a) by (destruct Hi as (? & ? & ? & ?); split_and!; done).
  split_and!; [by apply inv_delivered..|]. intros o e. split; by apply step_ok.
Qed.

(** ** Runs *)

(** A schedule: which end steps, and how. *)
Fixpoint runOps (cap : Z) (ops : list (bool * op)) (a b : endpoint) : option (endpoint * endpoint) :=
  match ops with
  | [] => Some (a, b)
  | (false, o) :: r => match opStep cap o a b with Next a' b' => runOps cap r a' b' | _ => None end
  | (true, o) :: r => match opStep cap o b a with Next b' a' => runOps cap r a' b' | _ => None end
  end.
(** Steps that are proper at any time. *)
Definition plainOp (o : op) : bool := match o with OSetMax _ | OFin => false | _ => true end.

Lemma runOps_reach cap maxA maxB ops a b a' b' :
  forallb (fun o => plainOp (snd o)) ops = true ->
  runOps cap ops a b = Some (a', b') -> reach cap maxA maxB a b -> reach cap maxA maxB a' b'.
Proof.
  revert a b. induction ops as [|[r o] ops IH]; intros a b Hn E Hr; cbn in *; [by simplify_eq|].
  apply andb_true_iff in Hn as [Ho Hn]. assert (Hra : forall m, proper o m) by (by destruct o).
  destruct r; destruct (opStep cap o _ _) as [| |x y] eqn:Es; try done; (eapply IH; [done|exact E|]);
    [eapply reach_right|eapply reach_left]; done.
Qed.

(** A message written, read and closed. *)
Definition talk : list (bool * op) :=
  [(true, ODeliver); (true, OUpdate); (true, OSend true); (false, ODeliver);
   (false, OWrite (go "hello")); (false, OClose); (false, OQueue); (false, OSend false); (true, ODeliver); (false, OWritten);
   (true, ORead 3)].
Definition talkEnd : list (bool * op) :=
  [(true, ORead 10); (true, OUpdate); (false, OSend false); (true, ODeliver); (true, ORead 1)].

Lemma yamux_delivery_witness :
  match runOps 131072 (talk ++ (false, OFin) :: talkEnd) (opener 16777216) (acceptor 262144) with
  | Some (a, b) => consumed b = go "hello" /\ sawEOF b = true /\ delivered a b
  | None => False
  end.
Proof.
  destruct (runOps 131072 (talk ++ (false, OFin) :: talkEnd) (opener 16777216) (acceptor 262144)) as [[a b]|] eqn:E; [|by vm_compute in E].
  destruct (runOps 131072 talk (opener 16777216) (acceptor 262144)) as [[a1 b1]|] eqn:E1; [|by vm_compute in E1].
  destruct (opStep 131072 OFin a1 b1) as [| |a2 b2] eqn:E2; [by vm_compute in E1; injection E1 as <- <-..|].
  assert (E3 : runOps 131072 talkEnd a2 b2 = Some (a, b)).
  { vm_compute in E1. injection E1 as <- <-. vm_compute in E2. injection E2 as <- <-. rewrite <- E. vm_compute. reflexivity. }
  assert (Hr1 : reach 131072 16777216 262144 a1 b1) by (eapply runOps_reach; [|exact E1|constructor]; reflexivity).
  assert (Hr2 : reach 131072 16777216 262144 a2 b2).
  { eapply reach_left; [exact Hr1| |exact E2]. vm_compute in E1. by injection E1 as <- <-. }
  assert (Hr : reach 131072 16777216 262144 a b) by (eapply runOps_reach; [|exact E3|exact Hr2]; reflexivity).
  destruct (yamux_delivery 131072 16777216 262144 a b) as [Hd _]; [done| | |done|];
    [unfold initialStreamWindow; lia..|].
  vm_compute in E. injection E as <- <-. split_and!; [reflexivity..|exact Hd].
Defined.

(** A write finds the stream open, and another goroutine closes it before the frame is queued: the FIN goes first. The reader
    reads EOF with nothing read, and the bytes after it. *)
Definition overtake : list (bool * op) :=
  [(true, ODeliver); (true, OUpdate); (true, OSend true); (false, ODeliver);
   (false, OWrite (go "hello")); (false, OClose); (false, OFin); (false, OQueue); (false, OSend false); (false, OWritten);
   (true, ODeliver); (true, ORead 10)].

Lemma fin_overtakes_data :
  match runOps 131072 overtake (opener 16777216) (acceptor 262144) with
  | Some (a, b) => sent a = go "hello" /\ sawEOF b = true /\ consumed b = [] /\
      match runOps 131072 [(false, OSend false); (true, ODeliver); (true, ORead 10)] a b with
      | Some (a', b') => sawEOF b' = true /\ consumed b' = go "hello"
      | None => False
      end
  | None => False
  end.
Proof. vm_compute. auto. Qed.

(** Lowering the ceiling of a window already advertised withdraws credit the peer may
    have used: the peer's next frame is then refused, which ends the session. *)
Definition shrink : list (bool * op) :=
  [(true, ODeliver); (true, OWrite [x00]); (true, OQueue); (true, OWritten); (true, OSend false);
   (true, OWrite (repeat x00 (Z.to_nat 262145))); (true, OQueue); (true, OSend false);
   (false, OSetMax 262144); (false, ODeliver); (false, ORead 1); (false, OUpdate)].

Lemma SetMaxWindow_shrink_refused :
  match runOps 300000 shrink (opener 262146) (acceptor 262144) with
  | Some (a, b) => opStep 300000 ODeliver a b = Failed ErrRecvWindowExceeded
  | None => False
  end.
Proof. vm_compute. reflexivity. Qed.
