(* ===== verification/YamuxLive.v ===== *)
(** * YamuxLive: streams make progress

    The work the library does on its own for a stream (the send and receive loops, the
    end of a write, window updates) and its reader's reads always come to an end, and
    when they have, the writer has a window to write into: a stream whose peer keeps
    reading never blocks its writer for good. *)

From Stdlib Require Import ZArith Lia.
From Stdlib.Strings Require Import Byte.
From stdpp Require Import base list.
From S2P Require Import Prelude GoStd Yamux YamuxFlow.
Open Scope Z_scope.

(** Steps other than new writes, closes and settings; a read only where data waits, and a FIN behind the frame of a write in progress. *)
Definition working (o : op) (m : endpoint) : Prop :=
  match o with
  | OQueue | OWritten | OSend _ | ODeliver | OUpdate => True
  | OFin => pending m = None
  | ORead _ => recvBuf (st m) <> []
  | OWrite _ | OClose | OSetMax _ => False
  end.

(** [n] such steps, of either end. *)
Inductive works (cap : Z) : nat -> endpoint -> endpoint -> endpoint -> endpoint -> Prop :=
| works_O a b : works cap O a b a b
| works_left n o a b a' b' a'' b'' :
    working o a -> opStep cap o a b = Next a' b' -> works cap n a' b' a'' b'' -> works cap (S n) a b a'' b''
| works_right n o a b a' b' a'' b'' :
    working o b -> opStep cap o b a = Next b' a' -> works cap n a' b' a'' b'' -> works cap (S n) a b a'' b''.

Definition idle (cap : Z) (a b : endpoint) : Prop :=
  forall o, (working o a -> opStep cap o a b = Stuck) /\ (working o b -> opStep cap o b a = Stuck).

(** ** The work left *)

Definition frameLoad (k : Z) (f : sframe) : Z := k + 4 * blen (body f).
Definition loads (k : Z) (l : list sframe) : Z := foldr Z.add 0 (map (frameLoad k) l).
Definition load (m : endpoint) : Z :=
  loads 2 (urgent m) + loads 2 (ordered m) + loads 1 (wire m) + 4 * blen (recvBuf (st m)) + 3 * Z.of_nat (due m) +
  (if claim m =? 0 then 0 else 1) + match pending m with Some (_, b) => 4 + 4 * blen b | None => 0 end +
  match finDue m with Some _ => 3 | None => 0 end.
Arguments loads k l : simpl never.

Lemma loads_app k l l' : loads k (l ++ l') = loads k l + loads k l'.
Proof. unfold loads. rewrite map_app. induction l; cbn in *; lia. Qed.
Lemma loads_cons k f l : loads k (f :: l) = frameLoad k f + loads k l.
Proof. done. Qed.
Lemma loads_nil k : loads k [] = 0.
Proof. done. Qed.
Lemma loads_nonneg k l : 0 <= k -> 0 <= loads k l.
Proof.
  intros Hk. induction l as [|f l IH]; [done|]. rewrite loads_cons. unfold frameLoad. pose proof (blen_nonneg (body f)). lia.
Qed.

Lemma load_nonneg m : 0 <= load m.
Proof.
  unfold load. pose proof (loads_nonneg 2 (urgent m)). pose proof (loads_nonneg 2 (ordered m)).
  pose proof (loads_nonneg 1 (wire m)). pose proof (blen_nonneg (recvBuf (st m))).
  assert (0 <= match pending m with Some (_, b) => 4 + 4 * blen b | None => 0 end).
  { destruct (pending m) as [[? b]|]; [pose proof (blen_nonneg b)|]; lia. }
  destruct (claim m =? 0), (finDue m); lia.
Qed.

Lemma processFlags_keeps fl s s' c a : processFlags fl s = Ok (s', c, a) -> recvBuf s' = recvBuf s.
Proof.
  unfold processFlags. set (s1 := if hasFlag fl flagACK && _ then withState _ s else s). assert (Hs : recvBuf s1 = recvBuf s) by (unfold s1; by case_match).
  clearbody s1. destruct (hasFlag fl flagFIN), (hasFlag fl flagRST), (state s1); cbn; intros [= <- _ _]; by rewrite <- Hs.
Qed.

Lemma deliver_load f m m' : deliver f m = Ok m' -> load m' <= load m + 4 * blen (body f).
Proof.
  unfold deliver. pose proof (blen_nonneg (body f)). intros E. case_match; [by injection E as <-; lia|].
  assert (Hb : forall s c a, match f with FData fl b => stream_readData fl b (st m) | FUpdate fl d => incrSendWindow fl d (st m) end
      = Ok (s, c, a) -> blen (recvBuf s) <= blen (recvBuf (st m)) + blen (body f)).
  { clear E. intros s c a E. unfold stream_readData, incrSendWindow in E. destruct f as [fl b|fl d]; cbn in *;
      destruct (processFlags fl (st m)) as [[[s1 c1] a1]|e] eqn:Ep; cbn in E; try done; apply processFlags_keeps in Ep.
    - repeat case_match; simplify_eq/=; rewrite ?blen_app, Ep; lia.
    - simplify_eq/=. rewrite Ep. lia. }
  destruct (match f with FData fl b => stream_readData fl b (st m) | FUpdate fl d => incrSendWindow fl d (st m) end)
    as [[[s c] a]|e]; [|done]. injection E as <-. specialize (Hb _ _ _ eq_refl). unfold load. cbn. lia.
Qed.

(** Each step of work leaves less. *)
Lemma works_less cap o m p m' p' : working o m -> opStep cap o m p = Next m' p' -> load m' + load p' < load m + load p.
Proof.
  intros Hw E. destruct o; try done; cbn [opStep] in E.
  - destruct (live m); [|done]. cbn [negb] in E. destruct (pending m) as [[fl b]|] eqn:Epd; [|done]. injection E as <- <-.
    unfold load. cbn. rewrite Epd, loads_app, loads_cons, loads_nil. unfold frameLoad. cbn [body].
    destruct (claim m =? 0), (blen b =? 0); lia.
  - destruct (live m); [|done]. cbn [negb] in E. destruct (Z.eqb_spec (claim m) 0) as [|Hc]; [done|]. injection E as <- <-.
    unfold load. cbn. destruct (Z.eqb_spec (claim m) 0); lia.
  - destruct u; [destruct (urgent m) as [|f q] eqn:Eq|destruct (ordered m) as [|f q] eqn:Eq]; try done; injection E as <- <-;
      unfold load; cbn; rewrite Eq, loads_app, !loads_cons, loads_nil; unfold frameLoad; lia.
  - destruct (wire p) as [|f w] eqn:Ew; [done|]. destruct (deliver f m) as [m1|] eqn:Ed; [|done]. injection E as <- <-.
    apply deliver_load in Ed. unfold load at 2 4. cbn. rewrite Ew, loads_cons. unfold frameLoad. lia.
  - destruct (live m); [|done]. cbn [negb] in E. destruct (Z.leb_spec n 0) as [|Hn]; [done|].
    destruct (Read_cases n (st m)) as [[Hc _]|[(_ & _ & He)|[Hc|Hc]]]; [|done|..];
      destruct (Read n (st m)) as [r s']; cbn in Hc; try (by subst r). injection Hc as -> ->. injection E as <- <-.
    unfold load. cbn. rewrite blen_drop_z. cbn in Hw.
    assert (0 < blen (recvBuf (st m))).
    { pose proof (blen_nonneg (recvBuf (st m))). assert (blen (recvBuf (st m)) <> 0) by (by intros ?%blen_nil_inv). lia. }
    lia.
  - destruct (live m); [|done]. cbn [negb] in E. destruct (due m) as [|k] eqn:Ed; [done|].
    destruct (sendWindowUpdate (st m)) as [f s'] eqn:Es. injection E as <- <-.
    assert (Hb : recvBuf s' = recvBuf (st m)).
    { unfold sendWindowUpdate, sendFlags in Es. repeat case_match; by simplify_eq/=. }
    unfold load. cbn. rewrite Ed, Hb, loads_app. destruct f as [[fl d]|]; rewrite ?loads_cons, ?loads_nil; unfold frameLoad; cbn [body];
      change (blen []) with 0; lia.
  - destruct (live m); [|done]. cbn [negb] in E. destruct (finDue m) as [[fl c]|] eqn:Efd; [|done]. injection E as <- <-.
    unfold load. cbn. rewrite Efd, loads_app, loads_cons, loads_nil. unfold frameLoad. cbn [body]. change (blen []) with 0. lia.
Qed.

Lemma works_bound cap n a b a' b' : works cap n a b a' b' -> Z.of_nat n + load a' + load b' <= load a + load b.
Proof.
  induction 1 as [|n o a b a' b' a'' b'' Hw E _ IH|n o a b a' b' a'' b'' Hw E _ IH]; [lia|..];
    apply works_less in E; try done; lia.
Qed.

(** ** Credit *)

(** With no window update due, the window advertised is more than half of the initial one. *)
Definition credit (m : endpoint) : Prop :=
  due m = O -> initialStreamWindow / 2 < recvWindow (st m) + blen (recvBuf (st m)).

Lemma deliver_credit f m m' : 0 <= recvWindow (st m) < 2 ^ 32 -> deliver f m = Ok m' ->
  recvWindow (st m') + blen (recvBuf (st m')) = recvWindow (st m) + blen (recvBuf (st m)) /\ due m' = due m.
Proof.
  intros Hr. unfold deliver. intros E. case_match; [by injection E as <-|].
  assert (Hp : forall fl s c a, processFlags fl (st m) = Ok (s, c, a) ->
    recvWindow s = recvWindow (st m) /\ recvBuf s = recvBuf (st m)).
  { clear. intros fl s c a. unfold processFlags. set (s1 := if hasFlag fl flagACK && _ then withState _ (st m) else st m).
    assert (Hs : recvWindow s1 = recvWindow (st m) /\ recvBuf s1 = recvBuf (st m)) by (unfold s1; by case_match).
    clearbody s1. destruct (hasFlag fl flagFIN), (hasFlag fl flagRST), (state s1); cbn; intros [= <- _ _]; done. }
  destruct f as [fl b|fl d]; unfold stream_readData, incrSendWindow in E;
    destruct (processFlags fl (st m)) as [[[s c] a]|e] eqn:Ep; try done; destruct (Hp _ _ _ _ Ep) as [H1 H2]; cbn in E.
  - destruct (blen b =? 0); cbn in E; [injection E as <-; cbn; by rewrite H1, H2|].
    destruct (Z.ltb_spec (recvWindow s) (blen b)); [done|]. injection E as <-. cbn. pose proof (blen_nonneg b).
    rewrite u32_small, blen_app, H1, H2 by lia. lia.
  - injection E as <-. cbn. by rewrite H1, H2.
Qed.

Lemma step_credit cap o m p m' p' : inv m p -> opStep cap o m p = Next m' p' ->
  (credit m -> credit m') /\ (credit p -> credit p').
Proof.
  intros ([_ _ _ [Hi _] _ _ _ (Hr & Hb & Hx) _ _ _] & _) E. pose proof (blen_nonneg (recvBuf (st m))).
  destruct o; cbn [opStep] in E.
  4: { destruct (if u then urgent m else ordered m); [done|]. by injection E as <- <-. }
  4: { destruct (wire p) as [|f w]; [done|]. destruct (deliver f m) as [m1|] eqn:Ed; [|done]. injection E as <- <-.
       apply deliver_credit in Ed as [E1 E2]; [|lia]. unfold credit. by rewrite E1, E2. }
  all: destruct (live m); [cbn [negb] in E|done].
  - destruct (pending m); [done|]. destruct (_ || _); [done|]. destruct (write cap b (st m)) as [r s'] eqn:Ew. destruct r; try done. injection E as <- <-.
    assert (Hs : recvWindow s' = recvWindow (st m) /\ recvBuf s' = recvBuf (st m)).
    { unfold write, sendFlags in Ew. repeat case_match; by simplify_eq/=. }
    destruct Hs as [H1 H2]. unfold credit. cbn. by rewrite H1, H2.
  - destruct (pending m) as [[fl b]|]; [|done]. by injection E as <- <-.
  - destruct (claim m =? 0); [done|]. by injection E as <- <-.
  - destruct (n <=? 0); [done|]. destruct (Read n (st m)) as [[b| | |] s'] eqn:Er; try done; injection E as <- <-; [done|].
    unfold Read in Er. split; [|done]. intros Hc Hd. specialize (Hc Hd). repeat case_match; simplify_eq/=; done.
  - destruct (due m) as [|k] eqn:Ed; [done|]. destruct (sendWindowUpdate (st m)) as [f s'] eqn:Es. injection E as <- <-.
    split; [|done]. intros _ _. apply sendWindowUpdate_spec in Es as (_ & _ & Eb & _ & Hf); [|done|lia..]. cbn. rewrite Eb.
    change (initialStreamWindow / 2) with 131072. unfold initialStreamWindow in *.
    destruct f as [[fl d]|]; [destruct Hf as (_ & _ & _ & ->)|destruct Hf as [-> Hf]]; [lia|].
    pose proof (Z.mul_div_le (maxWindow (st m)) 2). lia.
  - destruct (Close (st m)) as [[[q s'] c]|] eqn:Ec; [|done]. injection E as <- <-.
    assert (Hs : recvWindow s' = recvWindow (st m) /\ recvBuf s' = recvBuf (st m)).
    { unfold Close, sendFlags in Ec. repeat case_match; by simplify_eq/=. }
    destruct Hs as [H1 H2]. unfold credit. cbn. by rewrite H1, H2.
  - destruct (finDue m) as [[fl c]|]; [|done]. by injection E as <- <-.
  - by injection E as <- <-.
Qed.

Section Progress.
Context (cap maxA maxB : Z) (Hcap : 0 < cap).
Context (HA : initialStreamWindow <= maxA < 2 ^ 32) (HB : initialStreamWindow <= maxB < 2 ^ 32).

Lemma reach_credit a b : reach cap maxA maxB a b -> credit a /\ credit b.
Proof.
  induction 1 as [|o a b a' b' Hr [IHa IHb] _ E|o a b a' b' Hr [IHa IHb] _ E].
  - rewrite opener_eq by done. unfold credit. split; [|done]. intros _. cbn [st recvWindow recvBuf].
    change (initialStreamWindow / 2) with 131072. change (blen []) with 0. unfold initialStreamWindow in *. lia.
  - pose proof (reach_inv _ _ _ _ _ Hcap HA HB Hr). edestruct step_credit; [done|exact E|]. auto.
  - pose proof (reach_inv _ _ _ _ _ Hcap HA HB Hr) as (W1 & W2 & D1 & D2).
    edestruct (step_credit cap o b a); [by split_and!|exact E|]. auto.
Qed.

Lemma works_reach n a b a' b' : works cap n a b a' b' -> reach cap maxA maxB a b -> reach cap maxA maxB a' b'.
Proof.
  induction 1 as [|n o a b a' b' a'' b'' Hw E _ IH|n o a b a' b' a'' b'' Hw E _ IH]; [done|..]; intros Hr; apply IH.
  - eapply reach_left; [exact Hr| |exact E]. by destruct o.
  - eapply reach_right; [exact Hr| |exact E]. by destruct o.
Qed.

(** An idle end has nothing queued, due or buffered. *)
Lemma idle_empty m p : inv m p ->
  (forall o, working o m -> opStep cap o m p = Stuck) -> (forall o, working o p -> opStep cap o p m = Stuck) ->
  live m = true /\ urgent m = [] /\ ordered m = [] /\ wire m = [] /\ claim m = 0 /\ due m = O /\ recvBuf (st m) = [] /\
  pending m = None /\ finDue m = None.
Proof.
  intros (W & _ & _ & [_ _ _ _ _ H6]) Hm Hp.
  assert (Hwp : wire p = []).
  { pose proof (Hm ODeliver I) as E. cbn in E. destruct (wire p) as [|f w]; [done|]. by destruct (deliver f m). }
  assert (Hwm : wire m = []).
  { pose proof (Hp ODeliver I) as E. cbn in E. destruct (wire m) as [|f w]; [done|]. by destruct (deliver f p). }
  assert (El : live m = true) by (destruct (live m); [done|]; destruct (H6 eq_refl) as (? & ? & E); congruence).
  pose proof (Hm (OSend true) I) as E1. pose proof (Hm (OSend false) I) as E2. pose proof (Hm OWritten I) as E3.
  pose proof (Hm OUpdate I) as E4. pose proof (Hm OQueue I) as E5. pose proof (Hm OFin) as E6. cbn [opStep working] in *. rewrite El in *. cbn [negb] in *. split_and!; try done.
  - by destruct (urgent m).
  - by destruct (ordered m).
  - destruct (Z.eqb_spec (claim m) 0); done.
  - destruct (due m); [done|]. by destruct (sendWindowUpdate (st m)).
  - destruct (recvBuf (st m)) as [|x l] eqn:Eb; [done|]. exfalso. assert (Hne : recvBuf (st m) <> []) by congruence.
    pose proof (Hm (ORead 1) Hne) as E. cbn [opStep] in E. rewrite El in E. cbn [negb Z.leb Z.compare] in E.
    destruct W as [_ _ _ [_ Hr] _ _ _ _ _ _ _].
    destruct (Read_cases 1 (st m)) as [[Hc _]|[(_ & _ & He)|[Hc|Hc]]]; [by rewrite Hc in E|congruence|..];
      unfold Read in Hc; rewrite Eb in Hc; by destruct (state (st m)).
  - by destruct (pending m) as [[? ?]|].
  - destruct (pending m) as [[? ?]|]; [done|]. specialize (E6 eq_refl). by destruct (finDue m) as [[? ?]|].
Qed.

End Progress.

