(* ===== verification/YamuxSched.v ===== *)
(** * YamuxSched: the session's send scheduler

    [third_party/yamux/priority.go] and the pipelined send path of [batched.go]: four
    queues, urgent frames strictly first, deficit weighted round robin among the three
    data classes, a bound on the frames queued and one on the frames a stream has on
    their way.  [push] waits and [next] waits are where an operation is not enabled. *)

From Stdlib Require Import ZArith Lia.
From Stdlib.Strings Require Import Byte.
From stdpp Require Import base list.
From S2P Require Import Prelude GoStd Yamux.
Open Scope Z_scope.

Inductive SchedulerMode := SchedPriorityWRR | SchedUrgentOnly | SchedFIFO.

Definition numSendClasses : Z := 4.
Definition numDataClasses : Z := ClassUrgent.
Definition wrrWeights (c : Z) : Z :=
  if c =? ClassBulk then 64 * 1024 else if c =? ClassNormal then 256 * 1024 else if c =? ClassHigh then 1024 * 1024 else 0.
Definition schedCap : Z := 256.
Definition defaultMaxDataFrame : Z := 128 * 1024.
Definition defaultPipelineDepth : Z := 4.

(** A queued frame; a pooled data frame has its header and body in [Hdr] and names its
    stream. *)
Record sendReady := mkReady { Hdr : bytes; Body : option bytes; class : Z; stream : option Z }.

(** Arrays indexed by class. *)
Definition set {A} (c : Z) (x : A) (f : Z -> A) : Z -> A := fun k => if k =? c then x else f k.

Record sched := mkSched {
  mode : SchedulerMode; q : Z -> list sendReady; deficit : Z -> Z; rr : Z; n : Z }.

Definition newSched (m : SchedulerMode) : sched := mkSched m (fun _ => []) (fun _ => 0) 0 0.

Definition pushClass (m : SchedulerMode) (c : Z) : Z :=
  match m with
  | SchedFIFO => ClassNormal
  | SchedUrgentOnly => if negb (c =? ClassUrgent) then ClassNormal else c
  | SchedPriorityWRR => if numSendClasses <=? c then ClassNormal else c
  end.

(** [None] is a full scheduler, where the caller waits for space. *)
Definition push (r : sendReady) (sc : sched) : option sched :=
  let c := pushClass (mode sc) (class r) in
  if n sc <? schedCap
  then Some (mkSched (mode sc) (set c (q sc c ++ [r]) (q sc)) (deficit sc) (rr sc) (n sc + 1))
  else None.

Definition frameCost (r : sendReady) : Z :=
  if blen (Hdr r) <? headerSize then 1 else headerSize + Length (take_z headerSize (Hdr r)).

(** Indexing an empty queue panics; callers check it first. *)
Definition popLocked (c : Z) (sc : sched) : option (sendReady * sched) :=
  match q sc c with
  | [] => None
  | r :: rest =>
      Some (r, mkSched (mode sc) (set c rest (q sc))
                 (match rest with [] => set c 0 (deficit sc) | _ => deficit sc end) (rr sc) (n sc - 1))
  end.

Definition nonEmpty (c : Z) (sc : sched) : bool := match q sc c with [] => false | _ => true end.

(** The first class from the cursor on that may send, charged for its frame. *)
Fixpoint serve (sc : sched) (offs : list Z) : option (sendReady * sched) :=
  match offs with
  | [] => None
  | i :: rest =>
      let c := (rr sc + i) mod numDataClasses in
      match q sc c with
      | r :: _ =>
          if 0 <? deficit sc c
          then popLocked c (mkSched (mode sc) (q sc) (set c (deficit sc c - frameCost r) (deficit sc))
                              ((c + 1) mod numDataClasses) (n sc))
          else serve sc rest
      | [] => serve sc rest
      end
  end.

Definition classes : list Z := [0; 1; 2].

Definition grantTo (d : Z -> Z) (sc : sched) : Z -> Z :=
  fold_left (fun d c => if nonEmpty c sc then set c (d c + wrrWeights c) d else d) classes d.
Definition grant (sc : sched) : sched := mkSched (mode sc) (q sc) (grantTo (deficit sc) sc) (rr sc) (n sc).

Fixpoint fallback (sc : sched) (cs : list Z) : option (sendReady * sched) :=
  match cs with
  | [] => None
  | c :: rest => if nonEmpty c sc then popLocked c sc else fallback sc rest
  end.

Fixpoint passes (k : nat) (sc : sched) : option (sendReady * sched) + sched :=
  match k with
  | O => inr sc
  | S k => match serve sc classes with Some r => inl (Some r) | None => passes k (grant sc) end
  end.

Definition pickLocked (sc : sched) : option (sendReady * sched) :=
  if n sc =? 0 then None
  else if nonEmpty ClassUrgent sc then popLocked ClassUrgent sc
  else match passes 2 sc with
       | inl r => r
       | inr sc => fallback sc classes
       end.

(** ** The send side of a session *)

(** The scheduler, each stream's frames in flight, the frame being written, and the
    writes made to the connection, oldest first. *)
Record sendSide := mkSide {
  sch : sched; sendInflight : Z -> Z; writing : option sendReady; written : list bytes }.

(** [sendDataAsync]; [None] where it waits for a slot or for space. *)
Definition sendDataAsync (depth st flags cls : Z) (body : bytes) (s : sendSide) : option sendSide :=
  if depth <=? sendInflight s st then None else
  let r := mkReady (encode typeData flags st (u32 (blen body)) ++ body) None cls (Some st) in
  match push r (sch s) with
  | None => None
  | Some sc => Some (mkSide sc (set st (sendInflight s st + 1) (sendInflight s)) (writing s) (written s))
  end.

(** [waitForSendErr] and [sendNoWait], as far as the queue: a header-only frame. *)
Definition sendControl (r : sendReady) (s : sendSide) : option sendSide :=
  match push r (sch s) with
  | None => None
  | Some sc => Some (mkSide sc (sendInflight s) (writing s) (written s))
  end.

Definition recycle (r : sendReady) (s : sendSide) : sendSide :=
  match stream r with
  | Some st => mkSide (sch s) (set st (sendInflight s st - 1) (sendInflight s)) (writing s) (written s)
  | None => s
  end.

(** [sendLoopBatched]: take a frame; write it and recycle it. *)
Definition sendNext (s : sendSide) : option sendSide :=
  match writing s with
  | Some _ => None
  | None =>
      match pickLocked (sch s) with
      | None => None
      | Some (r, sc) => Some (mkSide sc (sendInflight s) (Some r) (written s))
      end
  end.
Definition sendWrite (s : sendSide) : option sendSide :=
  match writing s with
  | None => None
  | Some r =>
      let w := Hdr r :: match Body r with Some b => [b] | None => [] end in
      Some (recycle r (mkSide (sch s) (sendInflight s) None (written s ++ w)))
  end.

(** ** What a pick does *)

Definition data (c : Z) : Prop := 0 <= c < 3.
Definition ineligible (sc : sched) : Prop := forall c, data c -> q sc c = [] \/ deficit sc c <= 0.

(** [sc'] is [sc] without the head [r] of class [c], the deficits being [d] but for a
    class left empty, which starts over. *)
Record popped (c : Z) (r : sendReady) (sc : sched) (d : Z -> Z) (sc' : sched) : Prop := {
  p_q : q sc c = r :: q sc' c;
  p_other : forall k, k <> c -> q sc' k = q sc k;
  p_deficit : forall k, k <> c -> deficit sc' k = d k;
  p_reset : deficit sc' c = match q sc' c with [] => 0 | _ => d c end;
  p_n : n sc' = n sc - 1;
  p_mode : mode sc' = mode sc;
  p_rr : 0 <= rr sc' < 3
}.

Lemma set_eq {A} c (x : A) f : set c x f c = x.
Proof. unfold set. by rewrite Z.eqb_refl. Qed.
Lemma set_ne {A} c (x : A) f k : k <> c -> set c x f k = f k.
Proof. unfold set. intros H. by destruct (Z.eqb_spec k c). Qed.

Lemma popLocked_spec c sc r sc' : popLocked c sc = Some (r, sc') -> 0 <= rr sc < 3 -> popped c r sc (deficit sc) sc'.
Proof.
  unfold popLocked. destruct (q sc c) as [|r' rest] eqn:Eq; [done|]. intros [= <- <-] Hr.
  split; cbn [q deficit n mode rr]; rewrite ?set_eq; try done.
  - intros k Hk. by rewrite set_ne.
  - intros k Hk. destruct rest; [by rewrite set_ne|done].
  - destruct rest; [by rewrite set_eq|done].
Qed.

Lemma data_cases c : data c -> c = 0 \/ c = 1 \/ c = 2.
Proof. unfold data. lia. Qed.

Lemma serve_spec sc offs r sc' : serve sc offs = Some (r, sc') ->
  exists c, data c /\ 0 < deficit sc c /\ popped c r sc (set c (deficit sc c - frameCost r) (deficit sc)) sc'.
Proof.
  induction offs as [|i offs IH]; cbn [serve]; [done|]. set (c := (rr sc + i) mod numDataClasses).
  destruct (q sc c) as [|r' rest] eqn:Eq; [done|]. destruct (Z.ltb_spec 0 (deficit sc c)) as [Hd|]; [|done].
  intros E. pose proof E as E'. unfold popLocked in E'. cbn in E'. rewrite Eq in E'. injection E' as -> _.
  assert (Hm : forall x, 0 <= x mod numDataClasses < 3) by (intros; by apply Z.mod_pos_bound).
  apply popLocked_spec in E; [|apply Hm]. exists c. split; [apply Hm|]. split; [done|]. by destruct E.
Qed.

Lemma serve_none sc offs : serve sc offs = None -> forall i, i ∈ offs ->
  q sc ((rr sc + i) mod 3) = [] \/ deficit sc ((rr sc + i) mod 3) <= 0.
Proof.
  induction offs as [|i offs IH]; cbn [serve]; [by intros _ i ?%not_elem_of_nil|]. unfold numDataClasses, ClassUrgent in *.
  intros E j [->|Hj]%elem_of_cons.
  - destruct (q sc ((rr sc + i) mod 3)) as [|r rest] eqn:Eq; [by left|].
    destruct (Z.ltb_spec 0 (deficit sc ((rr sc + i) mod 3))); [|by right].
    unfold popLocked in E. cbn in E. by rewrite Eq in E.
  - apply IH; [|done]. destruct (q sc ((rr sc + i) mod 3)) as [|r rest] eqn:Eq; [done|].
    destruct (Z.ltb_spec 0 (deficit sc ((rr sc + i) mod 3))); [|done].
    unfold popLocked in E. cbn in E. by rewrite Eq in E.
Qed.

Lemma serve_ineligible sc : 0 <= rr sc < 3 -> serve sc classes = None -> ineligible sc.
Proof.
  intros Hr E c Hc. pose proof (serve_none sc classes E) as H.
  assert (Hi : exists i, i ∈ classes /\ (rr sc + i) mod 3 = c).
  { exists ((c - rr sc) mod 3). split.
    - pose proof (Z.mod_pos_bound (c - rr sc) 3 ltac:(lia)). unfold classes. rewrite !elem_of_cons. lia.
    - rewrite Zplus_mod_idemp_r. replace (rr sc + (c - rr sc)) with c by lia. by apply Z.mod_small. }
  destruct Hi as (i & Hi & <-). by apply H.
Qed.

Lemma grant_deficit sc c : data c ->
  deficit (grant sc) c = deficit sc c + match q sc c with [] => 0 | _ => wrrWeights c end.
Proof.
  intros Hc. unfold grant, grantTo, classes, nonEmpty, set. cbn [deficit fold_left].
  destruct (data_cases c Hc) as [->|[->| ->]]; destruct (q sc 0), (q sc 1), (q sc 2); cbn; lia.
Qed.

(** The ways a data class is chosen: it has a deficit left, or has one after a round
    of grants, or it is the bulk class alone. *)
Inductive chosen (c : Z) (r : sendReady) (sc : sched) (sc' : sched) : Prop :=
| chosen_now : 0 < deficit sc c -> popped c r sc (set c (deficit sc c - frameCost r) (deficit sc)) sc' -> chosen c r sc sc'
| chosen_grant : ineligible sc -> 0 < deficit (grant sc) c ->
    popped c r sc (set c (deficit (grant sc) c - frameCost r) (deficit (grant sc))) sc' -> chosen c r sc sc'
| chosen_fallback : ineligible sc -> ineligible (grant sc) ->
    popped c r sc (deficit (grant (grant sc))) sc' -> chosen c r sc sc'.

Lemma popped_grant c r sc d sc' : popped c r (grant sc) d sc' -> popped c r sc d sc'.
Proof. by intros []. Qed.

Lemma fallback_spec sc cs r sc' : fallback sc cs = Some (r, sc') -> 0 <= rr sc < 3 ->
  exists c, c ∈ cs /\ popped c r sc (deficit sc) sc'.
Proof.
  induction cs as [|c cs IH]; cbn [fallback]; [done|]. intros E Hr. destruct (nonEmpty c sc).
  - exists c. split; [apply elem_of_cons; by left|]. by apply popLocked_spec.
  - destruct (IH E Hr) as (c' & ? & ?). exists c'. split; [apply elem_of_cons; by right|done].
Qed.

Lemma pick_cases sc r sc' : 0 <= rr sc < 3 -> pickLocked sc = Some (r, sc') ->
  popped ClassUrgent r sc (deficit sc) sc' \/
  (q sc ClassUrgent = [] /\ exists c, data c /\ chosen c r sc sc').
Proof.
  intros Hr. unfold pickLocked. destruct (n sc =? 0); [done|]. unfold nonEmpty at 1.
  destruct (q sc ClassUrgent) as [|r0 u] eqn:Eu; [|intros E; left; by apply popLocked_spec].
  intros E. right. split; [done|]. cbn [passes] in E.
  destruct (serve sc classes) as [[r1 s1]|] eqn:E1.
  { injection E as -> ->. apply serve_spec in E1 as (c & Hc & Hd & Hp). exists c. split; [done|]. by apply chosen_now. }
  apply serve_ineligible in E1; [|done]. destruct (serve (grant sc) classes) as [[r1 s1]|] eqn:E2.
  { injection E as -> ->. apply serve_spec in E2 as (c & Hc & Hd & Hp). exists c. split; [done|].
    apply chosen_grant; [done..|]. by apply popped_grant. }
  apply serve_ineligible in E2; [|done]. apply fallback_spec in E as (c & Hc & Hp); [|done]. exists c.
  split; [unfold classes in Hc; rewrite !elem_of_cons, elem_of_nil in Hc; unfold data; lia|].
  apply chosen_fallback; [done..|]. by do 2 apply popped_grant.
Qed.

(** ** Well-formed schedulers *)

Definition queued (sc : sched) : list sendReady := q sc 0 ++ q sc 1 ++ q sc 2 ++ q sc 3.

(** [F] bounds the cost of a data frame. *)
Record wfSched (F : Z) (sc : sched) : Prop := {
  s_n : n sc = blen (queued sc);
  s_cap : n sc <= schedCap;
  s_range : forall c, ~ 0 <= c < 4 -> q sc c = [];
  s_idle : forall c, data c -> q sc c = [] -> deficit sc c = 0;
  s_deficit : forall c, data c -> 1 - F <= deficit sc c <= wrrWeights c;
  s_cost : forall c r, data c -> r ∈ q sc c -> 1 <= frameCost r <= F;
  s_class : forall c r, r ∈ q sc c -> pushClass (mode sc) (class r) = c;
  s_rr : 0 <= rr sc < 3
}.

Lemma wrrWeights_pos c : data c -> 64 * 1024 <= wrrWeights c <= 1024 * 1024.
Proof. intros Hc. destruct (data_cases c Hc) as [->|[->| ->]]; unfold wrrWeights; cbn; lia. Qed.

Lemma wfSched_init F m : 1 <= F -> wfSched F (newSched m).
Proof.
  intros HF. split; cbn; try done.
  - intros c Hc. pose proof (wrrWeights_pos c Hc). lia.
  - intros c r _ ?%not_elem_of_nil. done.
  - intros c r ?%not_elem_of_nil. done.
Qed.

Lemma pushClass_range m c : 0 <= c -> 0 <= pushClass m c < 4.
Proof.
  intros Hc. unfold pushClass, numSendClasses, ClassNormal, ClassUrgent. destruct m; [|destruct (Z.eqb_spec c 3); cbn; lia|lia].
  destruct (Z.leb_spec 4 c); lia.
Qed.

Lemma cases4 c : 0 <= c < 4 -> c = 0 \/ c = 1 \/ c = 2 \/ c = 3.
Proof. lia. Qed.

Lemma push_spec r sc sc' : push r sc = Some sc' ->
  n sc < schedCap /\ n sc' = n sc + 1 /\ mode sc' = mode sc /\ rr sc' = rr sc /\ deficit sc' = deficit sc /\
  q sc' (pushClass (mode sc) (class r)) = q sc (pushClass (mode sc) (class r)) ++ [r] /\
  forall k, k <> pushClass (mode sc) (class r) -> q sc' k = q sc k.
Proof.
  unfold push. destruct (Z.ltb_spec (n sc) schedCap); [|done]. intros [= <-]. cbn.
  split_and!; try done; [by rewrite set_eq|]. intros k Hk. by rewrite set_ne.
Qed.

Lemma queued_ext sc sc' c : 0 <= c < 4 -> (forall k, k <> c -> q sc' k = q sc k) ->
  exists l l', queued sc = l ++ q sc c ++ l' /\ queued sc' = l ++ q sc' c ++ l'.
Proof.
  intros Hc He. unfold queued. destruct (cases4 c Hc) as [->|[->|[->| ->]]];
    repeat match goal with |- context [q sc' ?k] => rewrite (He k) by lia end.
  - by exists [], (q sc 1 ++ q sc 2 ++ q sc 3).
  - by exists (q sc 0), (q sc 2 ++ q sc 3).
  - exists (q sc 0 ++ q sc 1), (q sc 3). by rewrite <- !app_assoc.
  - exists (q sc 0 ++ q sc 1 ++ q sc 2), []. by rewrite !app_nil_r, <- !app_assoc.
Qed.

Lemma wfSched_push F r sc sc' : wfSched F sc -> push r sc = Some sc' -> 0 <= class r ->
  (data (pushClass (mode sc) (class r)) -> 1 <= frameCost r <= F) -> wfSched F sc'.
Proof.
  intros [H1 H2 H3 H4 H5 H6 H7 H8] E Hc Hcost. apply push_spec in E as (E1 & E2 & E3 & E4 & E5 & E6 & E7).
  set (c := pushClass (mode sc) (class r)) in *. pose proof (pushClass_range (mode sc) (class r) Hc) as Hr. fold c in Hr.
  split; rewrite ?E2, ?E4, ?E5; try done.
  - destruct (queued_ext sc sc' c Hr E7) as (l & l' & Q1 & Q2). rewrite Q2, E6, H1, Q1, !blen_app.
    change (blen [r]) with 1. lia.
  - lia.
  - intros k Hk. rewrite E7; [by apply H3|]. intros ->. done.
  - intros k Hk Eq. destruct (decide (k = c)) as [->|Hn].
    + rewrite E6 in Eq. by destruct (q sc c).
    + rewrite E7 in Eq by done. by apply H4.
  - intros k r' Hk Hin. destruct (decide (k = c)) as [->|Hn].
    + rewrite E6 in Hin. apply elem_of_app in Hin as [Hin| ->%list_elem_of_singleton]; [by eapply H6|auto].
    + rewrite E7 in Hin by done. by eapply H6.
  - intros k r' Hin. rewrite E3. destruct (decide (k = c)) as [->|Hn].
    + rewrite E6 in Hin. apply elem_of_app in Hin as [Hin| ->%list_elem_of_singleton]; [by apply H7|done].
    + rewrite E7 in Hin by done. by apply H7.
Qed.

Lemma ineligible_grant F sc : wfSched F sc -> ineligible sc ->
  forall c, data c -> 1 - F <= deficit (grant sc) c <= wrrWeights c /\ (q sc c = [] -> deficit (grant sc) c = 0).
Proof.
  intros [_ _ _ H4 H5 _ _ _] Hin c Hc. rewrite grant_deficit by done. pose proof (wrrWeights_pos c Hc).
  specialize (H5 c Hc). destruct (q sc c) eqn:Eq.
  - pose proof (H4 c Hc Eq). lia.
  - split; [|done]. destruct (Hin c Hc) as [?|?]; [congruence|]. lia.
Qed.

Lemma blen_cons {A} (x : A) l : blen (x :: l) = 1 + blen l.
Proof. unfold blen. cbn [length]. lia. Qed.

Lemma wfSched_popped F c r sc d sc' : wfSched F sc -> 0 <= c < 4 -> popped c r sc d sc' ->
  (forall k, data k -> 1 - F <= d k <= wrrWeights k) -> (forall k, data k -> q sc k = [] -> d k = 0) ->
  1 <= F -> wfSched F sc'.
Proof.
  intros [H1 H2 H3 H4 H5 H6 H7 H8] Hc [P1 P2 P3 P4 P5 P6 P7] Hd Hi HF. split; try done.
  - destruct (queued_ext sc sc' c Hc P2) as (l & l' & Q1 & Q2). rewrite Q2, P5, H1, Q1, P1, !blen_app, blen_cons. lia.
  - lia.
  - intros k Hk. rewrite P2; [by apply H3|]. lia.
  - intros k Hk Eq. destruct (decide (k = c)) as [->|Hn]; [by rewrite P4, Eq|].
    rewrite P3 by done. rewrite P2 in Eq by done. auto.
  - intros k Hk. pose proof (wrrWeights_pos k Hk). specialize (Hd k Hk). destruct (decide (k = c)) as [->|Hn].
    + rewrite P4. destruct (q sc' c); lia.
    + by rewrite P3.
  - intros k r' Hk Hin. destruct (decide (k = c)) as [->|Hn].
    + apply (H6 c); [done|]. rewrite P1. apply elem_of_cons. by right.
    + rewrite P2 in Hin by done. by eapply H6.
  - intros k r' Hin. rewrite P6. apply H7. destruct (decide (k = c)) as [->|Hn].
    + rewrite P1. apply elem_of_cons. by right.
    + by rewrite <- P2.
Qed.

Lemma popped_cost F c r sc d sc' : wfSched F sc -> data c -> popped c r sc d sc' -> 1 <= frameCost r <= F.
Proof. intros W Hc [P1 _ _ _ _ _ _]. apply (s_cost _ _ W c); [done|]. rewrite P1. apply elem_of_cons. by left. Qed.

Lemma wfSched_pick F sc r sc' : 1 <= F -> wfSched F sc -> pickLocked sc = Some (r, sc') -> wfSched F sc'.
Proof.
  intros HF W E. pose proof (s_rr _ _ W). destruct (pick_cases sc r sc') as [Hp|[_ (c & Hc & Hp)]]; [done..| |].
  - eapply wfSched_popped; [done| |exact Hp|apply W|apply W|done]. done.
  - assert (Hc4 : 0 <= c < 4) by (unfold data in Hc; lia).
    assert (Hch : forall d, (forall k, data k -> 1 - F <= d k <= wrrWeights k) -> (forall k, data k -> q sc k = [] -> d k = 0) ->
      0 < d c -> popped c r sc (set c (d c - frameCost r) d) sc' -> wfSched F sc').
    { intros d Hd Hz Hpos Hpp. pose proof (popped_cost _ _ _ _ _ _ W Hc Hpp) as Hcost.
      eapply wfSched_popped; [done|done|exact Hpp|..]; [| |done].
      - intros k Hk. specialize (Hd k Hk). unfold set. destruct (Z.eqb_spec k c) as [->|]; lia.
      - intros k Hk Eq. unfold set. destruct (Z.eqb_spec k c) as [->|]; [|auto]. destruct Hpp as [P1 _ _ _ _ _ _]. congruence. }
    destruct Hp as [Hd Hpp|Hin Hd Hpp|Hin Hin2 Hpp].
    + apply (Hch (deficit sc)); [apply W|apply W|done|done].
    + pose proof (ineligible_grant _ _ W Hin) as Hg. apply (Hch (deficit (grant sc))); [apply Hg|apply Hg|done|done].
    + pose proof (ineligible_grant _ _ W Hin) as Hg.
      eapply wfSched_popped; [done|done|exact Hpp|..]; [| |done];
        intros k Hk; rewrite grant_deficit by done; change (q (grant sc) k) with (q sc k).
      * pose proof (wrrWeights_pos k Hk). destruct (Hg k Hk) as [Hb Hz]. destruct (q sc k) eqn:Eq; [lia|].
        destruct (Hin2 k Hk) as [E'|?]; [change (q (grant sc) k) with (q sc k) in E'; congruence|]. lia.
      * intros Eq. rewrite Eq. destruct (Hg k Hk) as [_ Hz]. rewrite Hz by done. lia.
Qed.

(** ** Work and starvation *)

Lemma popLocked_some c sc : q sc c <> [] -> exists r sc', popLocked c sc = Some (r, sc').
Proof. unfold popLocked. destruct (q sc c); [done|]. eauto. Qed.

Lemma fallback_some sc cs : (exists c, c ∈ cs /\ q sc c <> []) -> exists r sc', fallback sc cs = Some (r, sc').
Proof.
  induction cs as [|c cs IH]; intros (k & Hk & Hq); [by apply not_elem_of_nil in Hk|]. cbn [fallback]. unfold nonEmpty.
  destruct (q sc c) eqn:Eq; [|apply popLocked_some; congruence].
  apply IH. exists k. split; [|done]. apply elem_of_cons in Hk as [->|Hk]; [congruence|done].
Qed.

(** A scheduler with frames always has one to send. *)
Lemma pick_some F sc : wfSched F sc -> n sc <> 0 -> exists r sc', pickLocked sc = Some (r, sc').
Proof.
  intros W Hn. unfold pickLocked. destruct (Z.eqb_spec (n sc) 0); [done|]. unfold nonEmpty at 1.
  destruct (q sc ClassUrgent) eqn:Eu; [|apply popLocked_some; congruence]. cbn [passes].
  destruct (serve sc classes) as [[]|]; [eauto|]. destruct (serve (grant sc) classes) as [[]|]; [eauto|].
  apply fallback_some. change (q (grant (grant sc))) with (q sc). destruct W as [H1 _ _ _ _ _ _ _].
  unfold queued in H1. change (q sc 3) with (q sc ClassUrgent) in H1. rewrite Eu, app_nil_r in H1.
  destruct (q sc 0) eqn:E0; [|exists 0; rewrite E0; by split; [by left|]].
  destruct (q sc 1) eqn:E1; [|exists 1; rewrite E1; by split; [right; by left|]].
  destruct (q sc 2) eqn:E2; [|exists 2; rewrite E2; by split; [do 2 right; by left|]].
  by destruct Hn.
Qed.

Definition sumOthers (c : Z) (f : Z -> Z) : Z := foldr Z.add 0 (map (fun k => if k =? c then 0 else f k) classes).

Lemma sumOthers_le c f g : data c -> (forall k, data k -> k <> c -> f k <= g k) -> sumOthers c f <= sumOthers c g.
Proof.
  intros Hc H. pose proof (H 0) as H0. pose proof (H 1) as H1. pose proof (H 2) as H2. unfold data in *.
  destruct (data_cases c Hc) as [->|[->| ->]]; unfold sumOthers, classes; cbn; lia.
Qed.
Lemma sumOthers_less c j f g x : data c -> data j -> j <> c -> (forall k, data k -> k <> c -> k <> j -> f k <= g k) ->
  f j + x <= g j -> sumOthers c f + x <= sumOthers c g.
Proof.
  intros Hc Hj Hn H Hx. pose proof (H 0) as H0. pose proof (H 1) as H1. pose proof (H 2) as H2. unfold data in *.
  destruct (data_cases c Hc) as [->|[->| ->]], (data_cases j Hj) as [->|[->| ->]]; unfold sumOthers, classes; cbn; lia.
Qed.

(** What a class may still send in this round, and the rounds until a class may send. *)
Definition pot (F d : Z) : Z := if 0 <? d then d + F else 0.
Definition rounds (c d : Z) : Z := if 0 <? d then 0 else (- d) / wrrWeights c + 1.
Definition perRound (F c : Z) : Z := sumOthers c (fun k => wrrWeights k + F).
(** The bytes the other data classes may send before class [c] does. *)
Definition phi (F c : Z) (sc : sched) : Z :=
  sumOthers c (fun k => pot F (deficit sc k)) + rounds c (deficit sc c) * perRound F c.

Lemma pot_charge F d cost : 0 < d -> 1 <= cost <= F -> pot F (d - cost) + cost <= pot F d.
Proof. unfold pot. intros. destruct (Z.ltb_spec 0 (d - cost)), (Z.ltb_spec 0 d); lia. Qed.
Lemma pot_bounds F d w : 1 <= F -> 0 < w -> d <= w -> 0 <= pot F d <= w + F.
Proof. unfold pot. intros. destruct (Z.ltb_spec 0 d); lia. Qed.
Lemma rounds_nonneg c d : data c -> 0 <= rounds c d.
Proof.
  intros Hc. pose proof (wrrWeights_pos c Hc). unfold rounds. destruct (Z.ltb_spec 0 d); [lia|].
  pose proof (Z.div_pos (- d) (wrrWeights c)). lia.
Qed.
Lemma rounds_grant c d : data c -> d <= 0 -> rounds c (d + wrrWeights c) + 1 <= rounds c d.
Proof.
  intros Hc Hd. pose proof (wrrWeights_pos c Hc). unfold rounds. destruct (Z.ltb_spec 0 d); [lia|].
  destruct (Z.ltb_spec 0 (d + wrrWeights c)).
  - pose proof (Z.div_pos (- d) (wrrWeights c)). lia.
  - replace (- (d + wrrWeights c)) with (- d + (-1) * wrrWeights c) by lia. rewrite Z.div_add by lia. lia.
Qed.
Lemma perRound_nonneg F c : 1 <= F -> data c -> 0 <= perRound F c.
Proof.
  intros HF Hc. unfold perRound. replace 0 with (sumOthers c (fun _ => 0)) by (unfold sumOthers; cbn; by repeat case_match).
  apply sumOthers_le; [done|]. intros k Hk _. pose proof (wrrWeights_pos k Hk). lia.
Qed.

Lemma pot_popped F k r sc d sc' : 1 <= F -> popped k r sc (set k (d k - frameCost r) d) sc' ->
  0 < d k -> 1 <= frameCost r <= F -> pot F (deficit sc' k) + frameCost r <= pot F (d k).
Proof.
  intros HF [_ _ _ P4 _ _ _] Hd Hc. rewrite P4, set_eq. destruct (q sc' k); [|by apply pot_charge].
  unfold pot. destruct (Z.ltb_spec 0 (d k)); cbn; lia.
Qed.

Lemma ineligible_pots F c sc : wfSched F sc -> data c -> ineligible sc -> sumOthers c (fun k => pot F (deficit sc k)) = 0.
Proof.
  intros W Hc Hin. assert (Hz : forall k, data k -> pot F (deficit sc k) = 0).
  { intros k Hk. unfold pot. destruct (Z.ltb_spec 0 (deficit sc k)); [|done].
    destruct (Hin k Hk) as [Eq|?]; [|lia]. pose proof (s_idle _ _ W k Hk Eq). lia. }
  unfold sumOthers, classes. cbn [map foldr]. rewrite !Hz by (unfold data; lia). by repeat case_match.
Qed.

(** A data class passed over: what was sent instead is paid from [phi]. *)
Lemma phi_pick F c r sc sc' : 1 <= F <= 256 * 1024 -> wfSched F sc -> data c -> q sc c <> [] ->
  pickLocked sc = Some (r, sc') -> q sc' c = q sc c ->
  if pushClass (mode sc) (class r) =? ClassUrgent then phi F c sc' = phi F c sc
  else phi F c sc' + frameCost r <= phi F c sc.
Proof.
  intros HF W Hc Hq E Hs. pose proof (s_rr _ _ W) as Hrr.
  destruct (pick_cases sc r sc' Hrr E) as [Hp|[_ (k & Hk & Hch)]].
  - destruct Hp as [P1 P2 P3 P4 _ _ _]. rewrite (s_class _ _ W ClassUrgent r) by (rewrite P1; by left). rewrite Z.eqb_refl.
    unfold phi, sumOthers, classes. cbn [map foldr]. unfold data, ClassUrgent in *. by rewrite !P3 by lia.
  - assert (Hkq : exists d, popped k r sc d sc') by (destruct Hch; eauto). destruct Hkq as [d0 Hp0].
    assert (Hkc : k <> c).
    { intros ->. destruct Hp0 as [P1 _ _ _ _ _ _]. rewrite Hs in P1. apply (f_equal length) in P1. cbn in P1. lia. }
    rewrite (s_class _ _ W k r) by (rewrite (p_q _ _ _ _ _ Hp0); by left).
    destruct (Z.eqb_spec k ClassUrgent) as [->|_]; [unfold data, ClassUrgent in Hk; lia|].
    pose proof (popped_cost _ _ _ _ _ _ W Hk Hp0) as Hcost. clear d0 Hp0. destruct Hch as [Hd Hp|Hin Hd Hp|Hin Hin2 Hp].
    + pose proof (pot_popped F k r sc (deficit sc) sc' ltac:(lia) Hp Hd Hcost). destruct Hp as [_ _ P3 _ _ _ _]. unfold phi.
      rewrite (P3 c), set_ne by done.
      assert (Hl : sumOthers c (fun k => pot F (deficit sc' k)) + frameCost r <= sumOthers c (fun k => pot F (deficit sc k))).
      { apply (sumOthers_less c k); [done..| |lia]. intros j Hj _ Hjk. by rewrite P3, set_ne. }
      lia.
    + pose proof (pot_popped F k r sc (deficit (grant sc)) sc' ltac:(lia) Hp Hd Hcost). destruct Hp as [_ _ P3 _ _ _ _]. unfold phi.
      pose proof (ineligible_grant _ _ W Hin) as Hg. rewrite (ineligible_pots F c sc W Hc Hin).
      assert (Hl : sumOthers c (fun k => pot F (deficit sc' k)) + frameCost r <= perRound F c).
      { apply (sumOthers_less c k); [done..| |].
        - intros j Hj _ Hjk. rewrite P3, set_ne by done. pose proof (wrrWeights_pos j Hj). apply pot_bounds; [lia..|]. by apply Hg.
        - pose proof (wrrWeights_pos k Hk). pose proof (pot_bounds F (deficit (grant sc) k) (wrrWeights k)). destruct (Hg k Hk). lia. }
      assert (Hr : rounds c (deficit sc' c) + 1 <= rounds c (deficit sc c)).
      { rewrite (P3 c), set_ne by done. rewrite grant_deficit by done. destruct (Hin c Hc) as [?|Hle]; [done|].
        destruct (q sc c); [done|]. by apply rounds_grant. }
      pose proof (perRound_nonneg F c ltac:(lia) Hc). nia.
    + exfalso. assert (Hno : forall j, data j -> j <> 0 -> q sc j <> [] -> False).
      { intros j Hj Hj0 Hjq. destruct (Hin2 j Hj) as [?|Hle]; [done|]. rewrite grant_deficit in Hle by done.
        pose proof (s_deficit _ _ W j Hj) as Hdj. destruct (q sc j); [done|].
        assert (256 * 1024 <= wrrWeights j) by (destruct (data_cases j Hj) as [->|[->| ->]]; [done|unfold wrrWeights; cbn; lia..]). lia. }
      destruct (decide (c = 0)) as [->|Hc0]; [|by apply (Hno c)]. apply (Hno k); [done..|].
      destruct Hp as [P1 _ _ _ _ _ _]. by rewrite P1.
Qed.
