(* ===== verification/YamuxSend.v ===== *)
(** * YamuxSend: a session's frames from its streams to the wire

    The send side of [YamuxSched] run by any interleaving of streams queueing data and
    control frames with the send loop: what reaches the peer's receive loop, how much
    can wait, and how long a class waits. *)

From Stdlib Require Import ZArith Lia.
From Stdlib.Strings Require Import Byte.
From stdpp Require Import base list.
From S2P Require Import Prelude GoStd Yamux YamuxSched.
Open Scope Z_scope.

(** ** The system *)

Inductive sendOp :=
| SData (st flags cls : Z) (body : bytes)
| SControl (t flags id len cls : Z)
| SNext
| SWrite.

Definition dataFrame (st flags cls : Z) (body : bytes) : sendReady :=
  mkReady (encode typeData flags st (u32 (blen body)) ++ body) None cls (Some st).
Definition controlFrame (t flags id len cls : Z) : sendReady := mkReady (encode t flags id len) None cls None.

Definition sendStep (depth : Z) (o : sendOp) (s : sendSide) : option sendSide :=
  match o with
  | SData st flags cls body => sendDataAsync depth st flags cls body s
  | SControl t flags id len cls => sendControl (controlFrame t flags id len cls) s
  | SNext => sendNext s
  | SWrite => sendWrite s
  end.

(** A write's frame is at most [cap]; control frames are urgent, but for the FIN, which
    goes with its stream's data. *)
Definition okOp (cap : Z) (o : sendOp) : Prop :=
  match o with
  | SData st flags cls body => uN 16 flags /\ uN 32 st /\ blen body <= cap /\ 0 <= cls <= ClassHigh
  | SControl t flags id len cls =>
      typeWindowUpdate <= t <= typeGoAway /\ uN 16 flags /\ uN 32 id /\ uN 32 len /\
      (cls = ClassUrgent \/ (0 <= cls <= ClassHigh /\ len = 0))
  | SNext | SWrite => True
  end.

Definition pushes (o : sendOp) : list sendReady :=
  match o with
  | SData st flags cls body => [dataFrame st flags cls body]
  | SControl t flags id len cls => [controlFrame t flags id len cls]
  | SNext | SWrite => []
  end.
Definition option_list {A} (o : option A) : list A := match o with Some x => [x] | None => [] end.
Definition picks (o : sendOp) (s' : sendSide) : list sendReady :=
  match o with SNext => option_list (writing s') | _ => [] end.

(** The states reached, with the frames queued and those taken by the send loop, in order. *)
Inductive reachSend (m : SchedulerMode) (depth cap : Z) : sendSide -> list sendReady -> list sendReady -> Prop :=
| send_init : reachSend m depth cap (mkSide (newSched m) (fun _ => 0) None []) [] []
| send_step o s s' pushed picked :
    reachSend m depth cap s pushed picked -> okOp cap o -> sendStep depth o s = Some s' ->
    reachSend m depth cap s' (pushed ++ pushes o) (picked ++ picks o s').

(** The peer's receive loop, until it fails: the messages read. *)
Fixpoint readMessages (fuel : nat) (s : bytes) : list message * recvErr :=
  match fuel with
  | O => ([], EOF)
  | S fuel =>
      match readMessage s with
      | Err e => ([], e)
      | Ok (m, rest) => let '(ms, e) := readMessages fuel rest in (m :: ms, e)
      end
  end.

(** ** Frames and messages *)

Definition frameBytes (r : sendReady) : bytes := Hdr r ++ match Body r with Some b => b | None => [] end.
Definition frameMsg (r : sendReady) : message :=
  let h := take_z headerSize (Hdr r) in
  mkMessage (MsgType h) (Flags h) (StreamID h) (Length h) (drop_z headerSize (Hdr r)).

Definition okFrame (r : sendReady) : Prop := okMessage (frameMsg r) /\ frameBytes r = messageBytes (frameMsg r).

Lemma okFrame_of m cls st : okMessage m -> frameMsg (mkReady (messageBytes m) None cls st) = m /\
  okFrame (mkReady (messageBytes m) None cls st).
Proof.
  intros Hm. pose proof Hm as (Ht & Hf & Hi & Hl & _). unfold typeData, typeGoAway in Ht.
  assert (E : frameMsg (mkReady (messageBytes m) None cls st) = m).
  { unfold frameMsg, messageBytes. cbn [Hdr].
    destruct (encode_fields (m_type m) (m_flags m) (m_id m) (m_length m) (m_body m)) as (_ & -> & _ & -> & -> & -> & ->);
      try done; [lia|]. by destruct m. }
  split; [done|]. unfold okFrame. rewrite E. split; [done|]. unfold frameBytes. cbn. by rewrite app_nil_r.
Qed.

Lemma pushes_ok cap o : 0 < cap < 2 ^ 32 -> okOp cap o -> Forall okFrame (pushes o) /\
  Forall (fun r => 0 <= class r < 4 /\ 12 <= frameCost r < 12 + 2 ^ 32 /\ (class r <> ClassUrgent -> frameCost r <= 12 + cap)) (pushes o).
Proof.
  intros Hcap. destruct o as [st fl cls b|t fl id len cls| |]; cbn [pushes]; intros Ho; [| |by split..].
  - destruct Ho as (Hf & Hi & Hb & Hc). pose proof (blen_nonneg b). unfold ClassHigh, ClassUrgent in *.
    assert (El : u32 (blen b) = blen b) by (apply Z.mod_small; lia).
    assert (Hm : okMessage (mkMessage typeData fl st (blen b) b)).
    { split_and!; cbn; try done; unfold uN; lia. }
    assert (Eq : dataFrame st fl cls b = mkReady (messageBytes (mkMessage typeData fl st (blen b) b)) None cls (Some st)).
    { unfold dataFrame. by rewrite El. }
    destruct (okFrame_of _ cls (Some st) Hm) as [E1 E2]. rewrite Eq. split; apply List.Forall_cons; [done|constructor| |constructor].
    split; [cbn; lia|]. unfold frameCost, messageBytes. cbn [Hdr m_type m_flags m_id m_length m_body].
    destruct (encode_fields typeData fl st (blen b) b) as (-> & _ & _ & _ & _ & _ & ->); [done..|unfold uN; lia|].
    unfold headerSize. destruct (Z.ltb_spec (12 + blen b) 12); lia.
  - destruct Ho as (Ht & Hf & Hi & Hl & Hc). unfold typeWindowUpdate, typeGoAway, ClassHigh, ClassUrgent in *.
    assert (Hm : okMessage (mkMessage t fl id len [])).
    { split_and!; cbn; try done; unfold typeData, typeGoAway; lia. }
    assert (Eq : controlFrame t fl id len cls = mkReady (messageBytes (mkMessage t fl id len [])) None cls None).
    { unfold controlFrame, messageBytes. cbn [m_type m_flags m_id m_length m_body]. by rewrite app_nil_r. }
    destruct (okFrame_of _ cls None Hm) as [E1 E2]. rewrite Eq. split; apply List.Forall_cons; [done|constructor| |constructor].
    split; [cbn; lia|]. cbn [class]. unfold frameCost, messageBytes. cbn [Hdr m_type m_flags m_id m_length m_body].
    destruct (encode_fields t fl id len []) as (-> & _ & _ & _ & _ & _ & ->); [lia|done..|].
    change (12 + blen [] <? headerSize) with false. unfold headerSize. unfold uN in Hl. lia.
Qed.

Lemma readMessages_frames rs fuel : Forall okFrame rs -> (length rs < fuel)%nat ->
  readMessages fuel (concat (map frameBytes rs)) = (map frameMsg rs, EOF).
Proof.
  revert fuel. induction rs as [|r rs IH]; intros [|fuel] Hok Hlt; try (cbn in Hlt; lia); [done|].
  apply Forall_cons_1 in Hok as [[Hm Hb] Hok]. cbn [map concat readMessages]. rewrite Hb, readMessage_bytes by done.
  rewrite IH; [done..|]. cbn in Hlt. lia.
Qed.

(** ** Order *)

Abbreviation inClass m c := (fun r => pushClass m (class r) = c).

Record ordered (m : SchedulerMode) (s : sendSide) (pushed picked : list sendReady) : Prop := {
  i_mode : mode (sch s) = m;
  i_rr : 0 <= rr (sch s) < 3;
  i_class : forall c r, r ∈ q (sch s) c -> pushClass m (class r) = c;
  i_fifo : forall c, filter (inClass m c) pushed = filter (inClass m c) picked ++ q (sch s) c;
  i_wire : exists rs, picked = rs ++ option_list (writing s) /\ concat (written s) = concat (map frameBytes rs);
  i_ok : Forall okFrame pushed
}.

(** A step is a push, a pick or a write. *)
Lemma sendStep_cases depth o s s' : sendStep depth o s = Some s' ->
  (exists r, pushes o = [r] /\ picks o s' = [] /\ push r (sch s) = Some (sch s') /\
     writing s' = writing s /\ written s' = written s /\
     sendInflight s' = match stream r with Some st => set st (sendInflight s st + 1) (sendInflight s) | None => sendInflight s end /\
     forall st, stream r = Some st -> sendInflight s st < depth) \/
  (exists r, o = SNext /\ writing s = None /\ pickLocked (sch s) = Some (r, sch s') /\ writing s' = Some r /\
     written s' = written s /\ sendInflight s' = sendInflight s) \/
  (exists r, o = SWrite /\ writing s = Some r /\ sch s' = sch s /\ writing s' = None /\
     concat (written s') = concat (written s) ++ frameBytes r /\
     sendInflight s' = match stream r with Some st => set st (sendInflight s st - 1) (sendInflight s) | None => sendInflight s end).
Proof.
  destruct o as [st fl cls b|t fl id len cls| |]; cbn [sendStep pushes picks].
  - unfold sendDataAsync. destruct (Z.leb_spec depth (sendInflight s st)); [done|]. cbn zeta. fold (dataFrame st fl cls b).
    destruct (push _ _) as [sc|] eqn:Ep; [|done]. intros [= <-]. left. eexists. split_and!; try done. cbn. by intros ? [= <-].
  - unfold sendControl. destruct (push _ _) as [sc|] eqn:Ep; [|done]. intros [= <-]. left. by eexists.
  - unfold sendNext. destruct (writing s); [done|]. destruct (pickLocked (sch s)) as [[r sc]|]; [|done]. intros [= <-].
    right. left. by exists r.
  - unfold sendWrite. destruct (writing s) as [r|]; [|done]. intros [= <-]. right. right. exists r.
    unfold recycle, frameBytes. destruct (stream r), (Body r); cbn [sch writing written sendInflight];
      rewrite ?concat_app; cbn [concat]; rewrite ?app_nil_r; by split_and!.
Qed.

Lemma pick_fifo sc r sc' : 0 <= rr sc < 3 -> pickLocked sc = Some (r, sc') ->
  exists c d, 0 <= c < 4 /\ popped c r sc d sc'.
Proof.
  intros Hr E. destruct (pick_cases sc r sc' Hr E) as [Hp|[_ (c & Hc & Hp)]].
  - by exists ClassUrgent, (deficit sc).
  - exists c. unfold data in Hc. destruct Hp; eexists; (split; [lia|done]).
Qed.

Lemma ordered_step m depth cap o s s' pushed picked : 0 < cap < 2 ^ 32 -> okOp cap o -> sendStep depth o s = Some s' ->
  ordered m s pushed picked -> ordered m s' (pushed ++ pushes o) (picked ++ picks o s').
Proof.
  intros Hcap Ho E [I1 I2 I3 I4 I5 I6]. destruct (pushes_ok cap o Hcap Ho) as [Hok _].
  apply sendStep_cases in E as [(r & Hp & Hk & Hps & Hw & Hwr & _)|[(r & -> & Hw & Hpk & Hw' & Hwr & _)|(r & -> & Hw & Hs & Hw' & Hwr & _)]].
  - rewrite Hk, app_nil_r, Hp in *. apply push_spec in Hps as (_ & _ & E3 & E4 & _ & E6 & E7). rewrite I1 in *.
    set (c0 := pushClass m (class r)) in *. split; rewrite ?E3, ?E4, ?Hw, ?Hwr; try done.
    + intros c r' Hin. destruct (decide (c = c0)) as [->|Hn]; [|rewrite E7 in Hin by done; by apply I3].
      rewrite E6 in Hin. apply elem_of_app in Hin as [Hin| ->%list_elem_of_singleton]; [by apply I3|done].
    + intros c. rewrite filter_app, filter_cons, filter_nil, I4, <- app_assoc. f_equal.
      case_decide as Hd; [by rewrite <- Hd; fold c0; rewrite E6|]. rewrite E7, app_nil_r; [done|]. intros ->. by destruct Hd.
    + by apply Forall_app.
  - cbn [pushes picks] in *. rewrite Hw', app_nil_r. cbn [option_list].
    destruct (pick_fifo _ _ _ I2 Hpk) as (c0 & d & Hc0 & [P1 P2 _ _ _ P6 P7]).
    assert (Hcl : pushClass m (class r) = c0) by (apply I3; rewrite P1; by left). split; rewrite ?P6; try done.
    + intros c r' Hin. apply I3. destruct (decide (c = c0)) as [->|Hn]; [rewrite P1; by right|by rewrite <- P2].
    + intros c. rewrite filter_app, filter_cons, filter_nil, I4, <- app_assoc. f_equal.
      case_decide as Hd; [by rewrite <- Hd, Hcl, P1|]. rewrite P2; [done|]. intros ->. by destruct Hd.
    + destruct I5 as (rs & Ep & Eb). exists picked. rewrite Hw', Hwr. split; [done|]. rewrite Hw, app_nil_r in Ep. by rewrite Ep.
  - cbn [pushes picks] in *. rewrite !app_nil_r. split; rewrite ?Hs; try done.
    destruct I5 as (rs & Ep & Eb). exists picked. rewrite Hw', app_nil_r, Hwr, Eb, Ep, Hw. split; [done|].
    cbn [option_list]. by rewrite map_app, concat_app; cbn; rewrite app_nil_r.
Qed.

Lemma reachSend_ordered m depth cap s pushed picked : 0 < cap < 2 ^ 32 ->
  reachSend m depth cap s pushed picked -> ordered m s pushed picked.
Proof.
  intros Hcap. induction 1 as [|o s s' pushed picked _ IH Ho E]; [|by eapply ordered_step].
  split; cbn; try done; [by intros c r ?%not_elem_of_nil|by exists []].
Qed.

Lemma frames_length rs : Forall okFrame rs -> (length rs <= length (concat (map frameBytes rs)))%nat.
Proof.
  induction 1 as [|r rs [_ Hb] _ IH]; [done|]. cbn [map concat length]. rewrite length_app, Hb.
  unfold messageBytes, encode. rewrite !length_app, !length_be_put. lia.
Qed.

(** The frames of a stream that wait in one class. *)
Definition onStream (m : SchedulerMode) (st c : Z) (r : sendReady) : Prop := pushClass m (class r) = c /\ m_id (frameMsg r) = st.
#[export] Instance onStream_dec m st c r : Decision (onStream m st c r).
Proof. unfold onStream. apply _. Defined.

Lemma filter_onStream m st c (l : list sendReady) :
  filter (onStream m st c) l = filter (fun r => m_id (frameMsg r) = st) (filter (inClass m c) l).
Proof.
  induction l as [|r l IH]; [done|]. rewrite (filter_cons _ r l), (filter_cons (inClass m c)).
  destruct (decide (pushClass m (class r) = c)) as [Hc|Hc].
  - rewrite filter_cons, <- IH. unfold onStream. repeat case_decide; naive_solver.
  - rewrite <- IH. unfold onStream. case_decide; [naive_solver|done].
Qed.

(** C30. Streams keep their order: in every state of the send side, what the peer's receive
    loop reads from the connection are whole messages, those of the frames [rs]; and of each stream and each class the frames
    queued are, in the order they were queued, those read and then the ones still waiting. (A stream's
    data and FIN are of one class; its window updates are urgent and overtake them.) *)
Theorem yamux_stream_order m depth cap s pushed picked :
  0 < cap < 2 ^ 32 -> reachSend m depth cap s pushed picked ->
  exists rs, readMessages (S (length (concat (written s)))) (concat (written s)) = (map frameMsg rs, EOF) /\
    forall st c, filter (onStream m st c) pushed =
      filter (onStream m st c) rs ++ filter (onStream m st c) (option_list (writing s) ++ q (sch s) c).
Proof.
  intros Hcap Hr. destruct (reachSend_ordered _ _ _ _ _ _ Hcap Hr) as [I1 I2 I3 I4 I5 I6].
  destruct I5 as (rs & Ep & Eb).
  assert (Hin : forall r, r ∈ picked -> r ∈ pushed).
  { intros r Hp. assert (r ∈ filter (inClass m (pushClass m (class r))) pushed); [|by apply list_elem_of_filter in H as [_ ?]].
    rewrite I4. apply elem_of_app. left. by apply list_elem_of_filter. }
  assert (Hrs : forall r, r ∈ rs -> r ∈ pushed) by (intros r ?; apply Hin; rewrite Ep; apply elem_of_app; by left).
  assert (Hok : Forall okFrame rs) by (apply List.Forall_forall; intros r ?%list_elem_of_In%Hrs; by eapply Forall_forall).
  pose proof (frames_length rs Hok). exists rs. rewrite Eb, readMessages_frames; [|done|lia]. split; [done|]. intros st c.
  assert (Hq : filter (inClass m c) (q (sch s) c) = q (sch s) c).
  { assert (Hall : Forall (inClass m c) (q (sch s) c)) by (apply Forall_forall; intros r; apply I3).
    clear - Hall. induction Hall as [|r l Hr _ IH]; [done|]. by rewrite filter_cons_True, IH. }
  rewrite !filter_onStream, I4, Ep, !filter_app, Hq, <- !app_assoc. done.
Qed.

(** ** Bounds *)

Definition count (st : Z) (l : list sendReady) : Z := blen (filter (fun r => stream r = Some st) l).
Arguments count st l : simpl never.

Lemma count_app st l l' : count st (l ++ l') = count st l + count st l'.
Proof. unfold count. by rewrite filter_app, blen_app. Qed.
Lemma count_one st r : count st [r] = if bool_decide (stream r = Some st) then 1 else 0.
Proof. unfold count. rewrite filter_cons, filter_nil. case_bool_decide; case_decide; done. Qed.

(** The most a data class pays for a frame: with one queue for all, control frames pay too, by the number in their header. *)
Definition maxCost (m : SchedulerMode) (cap : Z) : Z := match m with SchedFIFO => 12 + 2 ^ 32 | _ => 12 + cap end.

Record bounded (m : SchedulerMode) (depth cap : Z) (s : sendSide) : Prop := {
  b_mode : mode (sch s) = m;
  b_wf : wfSched (maxCost m cap) (sch s);
  b_inflight : forall st, sendInflight s st = count st (queued (sch s) ++ option_list (writing s));
  b_depth : forall st, sendInflight s st <= depth
}.

Lemma pushClass_data m r : m <> SchedFIFO -> 0 <= class r < 4 -> data (pushClass m (class r)) -> class r <> ClassUrgent.
Proof.
  unfold data, pushClass, numSendClasses, ClassUrgent, ClassNormal. intros Hm Hc Hd Hu. rewrite Hu in Hd. destruct m; cbn in Hd; [lia|lia|done].
Qed.

Lemma maxCost_eq m cap : m <> SchedFIFO -> maxCost m cap = 12 + cap.
Proof. by destruct m. Qed.

Lemma pushed_cost m cap r : 0 < cap < 2 ^ 32 -> 0 <= class r < 4 -> 12 <= frameCost r < 12 + 2 ^ 32 ->
  (class r <> ClassUrgent -> frameCost r <= 12 + cap) -> data (pushClass m (class r)) -> 1 <= frameCost r <= maxCost m cap.
Proof.
  intros Hcap Hc Hr Hd Hdt. assert (Hn : m <> SchedFIFO -> frameCost r <= 12 + cap) by (intros Hm; by eapply Hd, pushClass_data).
  destruct m; cbn [maxCost]; [| |lia]; (assert (frameCost r <= 12 + cap) by (by apply Hn)); lia.
Qed.

Lemma bounded_step m depth cap o s s' : 0 < cap < 2 ^ 32 -> okOp cap o -> sendStep depth o s = Some s' ->
  bounded m depth cap s -> bounded m depth cap s'.
Proof.
  intros Hcap Ho E [B1 B2 B3 B4]. destruct (pushes_ok cap o Hcap Ho) as [_ Hcl].
  apply sendStep_cases in E as [(r & Hp & _ & Hps & Hw & _ & Hi & Hd)|[(r & -> & Hw & Hpk & Hw' & _ & Hi)|(r & -> & Hw & Hs & Hw' & _ & Hi)]].
  - rewrite Hp in Hcl. apply Forall_cons_1 in Hcl as [(Hc4 & Hr & Hcost) _].
    pose proof (wfSched_push (maxCost m cap) r (sch s) (sch s') B2 Hps) as Hwf.
    apply push_spec in Hps as (_ & _ & E3 & _ & _ & E6 & E7). rewrite B1 in *.
    destruct (queued_ext (sch s) (sch s') (pushClass m (class r))) as (l & l' & Q1 & Q2); [apply pushClass_range; lia|done|].
    assert (Hq : forall st, count st (queued (sch s')) = count st (queued (sch s)) + count st [r]).
    { intros st. rewrite Q1, Q2, E6, !count_app. lia. }
    assert (He : forall st, sendInflight s' st = sendInflight s st + count st [r]).
    { intros st. rewrite Hi, count_one. destruct (stream r) as [st'|]; case_bool_decide as Hb; simplify_eq; try lia.
      - by rewrite set_eq.
      - rewrite set_ne by congruence. lia. }
    split; try done.
    + apply Hwf; [lia|]. by apply pushed_cost.
    + intros st. rewrite He, B3, Hw, !count_app, Hq. lia.
    + intros st. specialize (B4 st). rewrite He, count_one. case_bool_decide as Hb; [specialize (Hd st Hb)|]; lia.
  - assert (HF : 1 <= maxCost m cap) by (destruct m; cbn; lia). pose proof (wfSched_pick (maxCost m cap) _ _ _ HF B2 Hpk) as Hwf. pose proof (s_rr _ _ B2) as Hrr.
    destruct (pick_fifo _ _ _ Hrr Hpk) as (c0 & d & Hc0 & [P1 P2 _ _ _ P6 _]).
    destruct (queued_ext (sch s) (sch s') c0 Hc0 P2) as (l & l' & Q1 & Q2).
    split; rewrite ?P6, ?Hi; try done. intros st. rewrite B3, Hw, Hw', Q1, Q2, P1. cbn [option_list].
    change (r :: q (sch s') c0) with ([r] ++ q (sch s') c0). rewrite !count_app.
    change (count st []) with 0. lia.
  - assert (He : forall st, sendInflight s' st = sendInflight s st - count st [r]).
    { intros st. rewrite Hi, count_one. destruct (stream r) as [st'|]; case_bool_decide as Hb; simplify_eq; try lia.
      - by rewrite set_eq.
      - rewrite set_ne by congruence. lia. }
    split; rewrite ?Hs; try done.
    + intros st. rewrite He, B3, Hw, Hw'. cbn [option_list]. rewrite app_nil_r, count_app. lia.
    + intros st. rewrite He. specialize (B4 st). pose proof (blen_nonneg (filter (fun r => stream r = Some st) [r])). unfold count. lia.
Qed.

Lemma reachSend_bounded m depth cap s pushed picked : 0 < cap < 2 ^ 32 -> 0 <= depth ->
  reachSend m depth cap s pushed picked -> bounded m depth cap s.
Proof.
  intros Hcap Hd. induction 1 as [|o s s' pushed picked _ IH Ho E]; [|by eapply bounded_step].
  split; cbn; try done. apply wfSched_init. destruct m; cbn; lia.
Qed.

(** C32. The send side is bounded, in every scheduling mode: at most 256 frames wait, at most [depth] of any one
    stream are on their way, and the round robin's credit of a class stays above minus
    one frame and up to the class's own weight, far from the ends of an int64. *)
Theorem yamux_send_bounded m depth cap s pushed picked :
  0 < cap < 2 ^ 32 -> 0 < depth -> reachSend m depth cap s pushed picked ->
  blen (queued (sch s)) <= 256 /\
  (forall st, count st (queued (sch s) ++ option_list (writing s)) <= depth) /\
  forall c, data c -> - maxCost m cap < deficit (sch s) c <= wrrWeights c.
Proof.
  intros Hcap Hd Hr. destruct (reachSend_bounded m depth cap s pushed picked Hcap ltac:(lia) Hr) as [B1 B2 B3 B4]. split_and!.
  - rewrite <- (s_n _ _ B2). apply B2.
  - intros st. by rewrite <- B3.
  - intros c Hc. pose proof (s_deficit _ _ B2 c Hc). lia.
Qed.

(** ** Waiting *)

(** From [s] on, class [c] always has a frame waiting and the send loop always takes
    another one: [l]. *)
Inductive waits (depth cap c : Z) : sendSide -> list sendReady -> sendSide -> Prop :=
| waits_refl s : waits depth cap c s [] s
| waits_step o s s1 l s2 :
    okOp cap o -> sendStep depth o s = Some s1 -> q (sch s) c <> [] -> (o = SNext -> q (sch s1) c = q (sch s) c) ->
    waits depth cap c s1 l s2 -> waits depth cap c s (picks o s1 ++ l) s2.

(** The cost of the data frames among [l]. *)
Definition dataCost (m : SchedulerMode) (l : list sendReady) : Z :=
  foldr Z.add 0 (map (fun r => if pushClass m (class r) =? ClassUrgent then 0 else frameCost r) l).

Lemma waits_phi m depth cap c s l s' : m <> SchedFIFO -> 0 < cap <= 256 * 1024 - 12 -> data c ->
  waits depth cap c s l s' -> bounded m depth cap s -> dataCost m l + phi (12 + cap) c (sch s') <= phi (12 + cap) c (sch s).
Proof.
  intros Hm Hcap Hc. induction 1 as [s|o s s1 l s2 Ho E Hq Hn _ IH]; intros HB; [cbn; lia|].
  pose proof (bounded_step m depth cap o s s1 ltac:(lia) Ho E HB) as HB1. specialize (IH HB1). destruct HB as [B1 B2 _ _].
  rewrite maxCost_eq in B2 by done.
  apply sendStep_cases in E as [(r & _ & -> & Hps & _)|[(r & -> & Hw & Hpk & Hw' & _)|(r & -> & Hw & Hs & _)]].
  - apply push_spec in Hps as (_ & _ & _ & _ & E5 & _). cbn [app]. unfold phi in *. rewrite E5 in IH. lia.
  - cbn [picks]. rewrite Hw'. cbn [option_list app]. unfold dataCost. cbn [map foldr]. fold (dataCost m l).
    pose proof (phi_pick (12 + cap) c r (sch s) (sch s1) ltac:(lia) B2 Hc Hq Hpk (Hn eq_refl)) as Hp. rewrite B1 in Hp.
    destruct (pushClass m (class r) =? ClassUrgent); lia.
  - cbn [picks app]. rewrite Hs in IH. lia.
Qed.

Lemma phi_bound F c sc : 1 <= F -> wfSched F sc -> data c ->
  0 <= phi F c sc <= (2 + (F - 1) / wrrWeights c) * perRound F c.
Proof.
  intros HF W Hc. pose proof (wrrWeights_pos c Hc). pose proof (perRound_nonneg F c HF Hc) as Hp.
  pose proof (s_deficit _ _ W c Hc) as Hd. unfold phi.
  assert (Hs : 0 <= sumOthers c (fun k => pot F (deficit sc k)) <= perRound F c).
  { split; [replace 0 with (sumOthers c (fun _ => 0)) by (unfold sumOthers; cbn; by repeat case_match)|];
      (apply sumOthers_le; [done|]); intros k Hk _; pose proof (wrrWeights_pos k Hk);
      pose proof (s_deficit _ _ W k Hk); pose proof (pot_bounds F (deficit sc k) (wrrWeights k)); lia. }
  assert (Hr : 0 <= rounds c (deficit sc c) <= 1 + (F - 1) / wrrWeights c).
  { split; [by apply rounds_nonneg|]. unfold rounds. pose proof (Z.div_pos (F - 1) (wrrWeights c)).
    destruct (Z.ltb_spec 0 (deficit sc c)); [lia|]. pose proof (Z.div_le_mono (- deficit sc c) (F - 1) (wrrWeights c)). lia. }
  nia.
Qed.

(** No data class starves: while a class has a frame waiting, the send loop can always
    take a frame or finish the one it has, it takes urgent frames first, and before it
    comes to the class it takes from the other data classes at most a few rounds' worth
    of bytes, whatever keeps being queued there. *)
Theorem yamux_no_starvation m depth cap s pushed picked c :
  m <> SchedFIFO -> 0 < cap <= 256 * 1024 - 12 -> 0 < depth -> data c -> reachSend m depth cap s pushed picked ->
  (q (sch s) c <> [] -> sendStep depth SNext s <> None \/ sendStep depth SWrite s <> None) /\
  (forall u rest s', q (sch s) ClassUrgent = u :: rest -> sendStep depth SNext s = Some s' -> writing s' = Some u) /\
  (forall l s', waits depth cap c s l s' -> dataCost m l <= (2 + (11 + cap) / wrrWeights c) * perRound (12 + cap) c).
Proof.
  intros Hm Hcap Hd Hc Hr. pose proof (reachSend_bounded m depth cap s pushed picked ltac:(lia) ltac:(lia) Hr) as HB.
  pose proof HB as [B1 B2 _ _]. rewrite maxCost_eq in B2 by done. split_and!.
  - intros Hq. cbn [sendStep]. unfold sendNext, sendWrite. destruct (writing s) as [r|]; [by right|]. left.
    destruct (pick_some _ _ B2) as (r & sc & ->); [|done]. rewrite (s_n _ _ B2). intros Hz%blen_nil_inv.
    unfold queued in Hz. apply app_eq_nil in Hz as [Z0 Hz]. apply app_eq_nil in Hz as [Z1 Hz]. apply app_eq_nil in Hz as [Z2 _].
    destruct (data_cases c Hc) as [->|[->| ->]]; done.
  - intros u rest s' Hu E. cbn in E. unfold sendNext in E. destruct (writing s); [done|].
    unfold pickLocked, nonEmpty, popLocked in E. rewrite Hu in E. destruct (n (sch s) =? 0); [done|]. by injection E as <-.
  - intros l s' Hw. pose proof (waits_phi m depth cap c s l s' Hm Hcap Hc Hw HB).
    assert (HB' : bounded m depth cap s').
    { clear - Hm Hcap Hw HB. induction Hw; [done|]. apply IHHw. eapply bounded_step; [lia|done..]. }
    pose proof (b_wf _ _ _ _ HB') as B2'. rewrite maxCost_eq in B2' by done.
    pose proof (phi_bound (12 + cap) c (sch s') ltac:(lia) B2' Hc).
    pose proof (phi_bound (12 + cap) c (sch s) ltac:(lia) B2 Hc) as Hb. replace (12 + cap - 1) with (11 + cap) in Hb by lia. lia.
Qed.

(** ** Runs *)

Definition sideInit (m : SchedulerMode) : sendSide := mkSide (newSched m) (fun _ => 0) None [].

Fixpoint runSend (depth : Z) (ops : list sendOp) (s : sendSide) (pushed picked : list sendReady)
    : option (sendSide * list sendReady * list sendReady) :=
  match ops with
  | [] => Some (s, pushed, picked)
  | o :: ops =>
      match sendStep depth o s with
      | Some s' => runSend depth ops s' (pushed ++ pushes o) (picked ++ picks o s')
      | None => None
      end
  end.

Lemma runSend_reach m depth cap ops s pushed picked s' pushed' picked' :
  Forall (okOp cap) ops -> runSend depth ops s pushed picked = Some (s', pushed', picked') ->
  reachSend m depth cap s pushed picked -> reachSend m depth cap s' pushed' picked'.
Proof.
  revert s pushed picked. induction ops as [|o ops IH]; intros s pushed picked Hok E Hr; cbn in E; [by simplify_eq|].
  apply Forall_cons_1 in Hok as [Ho Hok]. destruct (sendStep depth o s) as [s1|] eqn:Es; [|done].
  eapply IH; [done|exact E|]. by econstructor.
Qed.

(** Two high frames, a bulk frame and a window update, partly sent. *)
Definition mixed : list sendOp :=
  [SData 1 0 ClassHigh (go "ab"); SData 1 0 ClassHigh (go "cd"); SNext; SWrite;
   SData 3 0 ClassBulk (go "xyz"); SControl typeWindowUpdate 0 3 1000 ClassUrgent; SNext; SWrite].

Lemma mixed_ok : Forall (okOp 131072) mixed.
Proof. repeat (apply List.Forall_cons; [cbn; unfold uN; repeat split; try lia; auto; by vm_compute|]). constructor. Qed.

Lemma yamux_stream_order_witness :
  match runSend 4 mixed (sideInit SchedPriorityWRR) [] [] with
  | Some (s, pushed, picked) =>
      (length pushed = 4)%nat /\ (length picked = 2)%nat /\
      exists rs, readMessages (S (length (concat (written s)))) (concat (written s)) = (map frameMsg rs, EOF) /\
        map (fun x => m_type x) (map frameMsg rs) = [typeData; typeWindowUpdate] /\
        filter (onStream SchedPriorityWRR 1 ClassHigh) pushed =
          filter (onStream SchedPriorityWRR 1 ClassHigh) rs ++
          filter (onStream SchedPriorityWRR 1 ClassHigh) (option_list (writing s) ++ q (sch s) ClassHigh)
  | None => False
  end.
Proof.
  destruct (runSend 4 mixed (sideInit SchedPriorityWRR) [] []) as [[[s pushed] picked]|] eqn:E; [|by vm_compute in E].
  assert (Hr : reachSend SchedPriorityWRR 4 131072 s pushed picked)
    by (eapply runSend_reach; [exact mixed_ok|exact E|constructor]).
  destruct (yamux_stream_order SchedPriorityWRR 4 131072 s pushed picked ltac:(lia) Hr) as (rs & Hm & Hf).
  assert (Hl : (length pushed = 4)%nat /\ (length picked = 2)%nat /\
    map (fun x => m_type x) (fst (readMessages (S (length (concat (written s)))) (concat (written s)))) = [typeData; typeWindowUpdate]).
  { clear - E. vm_compute in E. injection E as <- <- <-. vm_compute. auto. }
  destruct Hl as (H1 & H2 & H3). rewrite Hm in H3. split_and!; [done..|]. exists rs. split_and!; [exact Hm|exact H3|apply Hf].
Defined.

Lemma yamux_send_bounded_witness :
  match runSend 4 mixed (sideInit SchedPriorityWRR) [] [] with
  | Some (s, _, _) => forall st, count st (queued (sch s) ++ option_list (writing s)) <= 4
  | None => False
  end.
Proof.
  destruct (runSend 4 mixed (sideInit SchedPriorityWRR) [] []) as [[[s pushed] picked]|] eqn:E; [|by vm_compute in E].
  assert (Hr : reachSend SchedPriorityWRR 4 131072 s pushed picked)
    by (eapply runSend_reach; [exact mixed_ok|exact E|constructor]).
  apply (yamux_send_bounded SchedPriorityWRR 4 131072 s pushed picked); [lia|lia|exact Hr].
Defined.

(** The bulk frame waits while the second high frame goes first. *)
Lemma yamux_no_starvation_witness :
  match runSend 4 mixed (sideInit SchedPriorityWRR) [] [] with
  | Some (s, _, _) =>
      exists l s', waits 4 131072 ClassBulk s l s' /\ map (fun r => drop_z 12 (Hdr r)) l = [go "cd"] /\
        dataCost SchedPriorityWRR l <= (2 + 131083 / wrrWeights ClassBulk) * perRound 131084 ClassBulk
  | None => False
  end.
Proof.
  destruct (runSend 4 mixed (sideInit SchedPriorityWRR) [] []) as [[[s pushed] picked]|] eqn:E; [|by vm_compute in E].
  assert (Hr : reachSend SchedPriorityWRR 4 131072 s pushed picked)
    by (eapply runSend_reach; [exact mixed_ok|exact E|constructor]).
  destruct (yamux_no_starvation SchedPriorityWRR 4 131072 s pushed picked ClassBulk) as (_ & _ & Hw);
    [done|lia|lia|unfold data, ClassBulk; lia|exact Hr|].
  assert (Hx : exists l s', waits 4 131072 ClassBulk s l s' /\ map (fun r => drop_z 12 (Hdr r)) l = [go "cd"]).
  { clear Hw Hr. vm_compute in E. injection E as <- <- <-. eexists _, _. split.
    - eapply (waits_step _ _ _ SNext); [exact I|vm_compute; reflexivity|done|reflexivity|apply waits_refl].
    - reflexivity. }
  destruct Hx as (l & s' & Hl & Hm). exists l, s'. split; [exact Hl|]. split; [exact Hm|]. exact (Hw l s' Hl).
Defined.

(** The fallback of [pickLocked] is reached: after one 128 KiB bulk frame the bulk
    class is behind by more than its weight, and two rounds leave it without a turn. *)
Definition bulkOnly : list sendOp :=
  [SData 1 0 ClassBulk (repeat x00 (Z.to_nat 131072)); SData 1 0 ClassBulk (repeat x00 (Z.to_nat 131072));
   SData 1 0 ClassBulk (repeat x00 (Z.to_nat 131072)); SNext; SWrite].
Lemma fallback_reached :
  match runSend 4 bulkOnly (sideInit SchedPriorityWRR) [] [] with
  | Some (s, _, _) => match passes 2 (sch s) with inr sc => nonEmpty ClassBulk sc = true | inl _ => False end
  | None => False
  end.
Proof. vm_compute. reflexivity. Qed.
