(* ===== verification/HubRegistry.v ===== *)
(** * HubRegistry: the workload hub

    [pkg/hub/registry.go] and [policy.go]: the in-memory registry of services and the
    policy of who may reach and who may host a service; [pkg/server/hub.go]: the
    connections of the hub ([hubConn]), the registrations they send ([hubControl]) and
    what a relayed stream is connected to ([hubRelay], [handleHubForward]).

    A session of a spoke is a number.  The streams themselves, and the catalog pushes
    to watchers, are not modelled: a relay is what it decides to connect to. *)

From Stdlib Require Import ZArith Lia.
From stdpp Require Import base list gmap sorting.
From S2P Require Import Prelude GoStd.
Open Scope Z_scope.

(** ** Registry *)

Abbreviation mux := Z.

Record Target := mkTarget {
  t_Addr : bytes; t_Mux : option mux; t_Protocol : bytes; t_ForwardAddr : bytes; t_ForwardName : bytes }.
#[global] Instance Target_eq_dec : EqDecision Target.
Proof. solve_decision. Defined.

Record regEntry := mkRegEntry { e_connID : bytes; e_tgt : Target }.
#[global] Instance regEntry_eq_dec : EqDecision regEntry.
Proof. solve_decision. Defined.

Record Registry := mkRegistry { svc : gmap bytes (list regEntry); nextOf : gmap bytes Z }.

Definition NewRegistry : Registry := mkRegistry ∅ ∅.

Definition directTarget (addr protocol : bytes) : Target := mkTarget addr None protocol [] [].
Definition deliverTarget (m : mux) : Target := mkTarget [] (Some m) [] [] [].

Definition reg_add (connID name : bytes) (tgt : Target) (r : Registry) : Registry :=
  mkRegistry (<[name := default [] (svc r !! name) ++ [mkRegEntry connID tgt]]> (svc r)) (nextOf r).
Definition reg_Register (connID name addr protocol : bytes) : Registry -> Registry :=
  reg_add connID name (directTarget addr protocol).
Definition reg_RegisterDeliver (connID name : bytes) (m : mux) : Registry -> Registry :=
  reg_add connID name (deliverTarget m).

Definition reg_Lookup (name : bytes) (r : Registry) : option Target * Registry :=
  let es := default [] (svc r !! name) in
  if blen es =? 0 then (None, r) else
  let i := default 0 (nextOf r !! name) mod blen es in
  (e_tgt <$> es !! Z.to_nat i, mkRegistry (svc r) (<[name := i + 1]> (nextOf r))).

Definition reg_Catalog (r : Registry) : list bytes := sortStrings (map fst (map_to_list (svc r))).

Definition keptEntries (connID : bytes) (es : list regEntry) : list regEntry := filter (fun e => e_connID e <> connID) es.
(** A name left without entries goes, and its cursor with it. *)
Definition emptied (connID : bytes) (r : Registry) (name : bytes) : bool :=
  match svc r !! name with Some es => bool_decide (keptEntries connID es = []) | None => false end.
Definition reg_RemoveConn (connID : bytes) (r : Registry) : Registry :=
  mkRegistry
    (omap (fun es => if bool_decide (keptEntries connID es = []) then None else Some (keptEntries connID es)) (svc r))
    (filter (fun nv : bytes * Z => emptied connID r nv.1 = false) (nextOf r)).

(** ** Policy *)

Record hubPolicy := mkHubPolicy { p_reach : option (gmap bytes (list bytes)); p_register : option (gmap bytes (list bytes)) }.

Definition toMatrix (rules : gmap bytes (list bytes)) : option (gmap bytes (list bytes)) :=
  if bool_decide (rules = ∅) then None else Some rules.
Definition NewPolicy (reach register : gmap bytes (list bytes)) : option hubPolicy :=
  match toMatrix reach, toMatrix register with
  | None, None => None
  | r, w => Some (mkHubPolicy r w)
  end.

Definition listed (m : gmap bytes (list bytes)) (k v : bytes) : bool := bool_decide (v ∈ default [] (m !! k)).

Definition ReachEnforced (p : option hubPolicy) : bool :=
  match p with Some p => bool_decide (is_Some (p_reach p)) | None => false end.
Definition hub_Allow (p : option hubPolicy) (caller callee : bytes) : bool :=
  match p with
  | Some (mkHubPolicy (Some reach) _) => listed reach caller callee
  | _ => true
  end.
Definition AllowRegister (p : option hubPolicy) (identity service : bytes) : bool :=
  match p with
  | Some (mkHubPolicy _ (Some register)) => listed register identity service
  | _ => true
  end.

(** ** Connections *)

Record hubConn := mkHubConn { hc_id : bytes; hc_identity : option bytes }.

(** [newHubConn] with the identity the request was authenticated as. *)
Definition declare (identity : bytes) (hc : hubConn) : hubConn :=
  match hc_identity hc with None => mkHubConn (hc_id hc) (Some identity) | Some _ => hc end.
Definition identityNow (hc : hubConn) : bytes := default [] (hc_identity hc).
Definition accept (id authenticated : bytes) : hubConn :=
  let hc := mkHubConn id None in
  if bool_decide (authenticated = []) then hc else declare authenticated hc.

Record hubService := mkService { s_Name : bytes; s_Addr : bytes; s_Protocol : bytes }.
Record Registration := mkRegistration { r_Identity : bytes; r_Services : list hubService }.

(** One service of a registration. *)
Definition controlService (p : option hubPolicy) (hc : hubConn) (m : mux) (r : Registry) (s : hubService) : Registry :=
  if bool_decide (s_Name s = []) then r
  else if negb (AllowRegister p (identityNow hc) (s_Name s)) then r
  else if bool_decide (s_Addr s <> []) then reg_Register (hc_id hc) (s_Name s) (s_Addr s) (s_Protocol s) r
  else reg_RegisterDeliver (hc_id hc) (s_Name s) m r.

(** One message of the control stream. *)
Definition hubControl (p : option hubPolicy) (m : mux) (reg : Registration) (hc : hubConn) (r : Registry) : hubConn * Registry :=
  let hc := if bool_decide (r_Identity reg = []) then hc else declare (r_Identity reg) hc in
  (hc, fold_left (controlService p hc m) (r_Services reg) r).

(** What a relayed stream is connected to. *)
Inductive relay :=
| Closed
| ForwardTo (addr name : bytes)
| DialUDP (addr : bytes)
| DialTCP (addr : bytes)
| Deliver (m : mux) (name : bytes).

Definition relayTarget (name : bytes) (tgt : Target) : relay :=
  if bool_decide (t_ForwardAddr tgt <> []) then ForwardTo (t_ForwardAddr tgt) (t_ForwardName tgt)
  else if bool_decide (t_Addr tgt <> []) then
    (if bool_decide (t_Protocol tgt = go "udp") then DialUDP (t_Addr tgt) else DialTCP (t_Addr tgt))
  else match t_Mux tgt with Some m => Deliver m name | None => Closed end.

(** [lookup] is the store's [Lookup]; [identity] the one declared within the wait. *)
Definition hubRelay {S} (lookup : bytes -> S -> option Target * S) (p : option hubPolicy) (identity : option bytes)
    (name : bytes) (s : S) : relay * S :=
  if ReachEnforced p && negb (match identity with Some c => hub_Allow p c name | None => false end)
  then (Closed, s)
  else match lookup name s with
       | (None, s) => (Closed, s)
       | (Some tgt, s) => (relayTarget name tgt, s)
       end.

(** The owner's end of a forwarded relay. *)
Definition handleHubForward {S} (lookup : bytes -> S -> option Target * S) (name : bytes) (s : S) : relay * S :=
  match lookup name s with
  | (Some tgt, s) => (match t_Mux tgt with Some m => Deliver m name | None => Closed end, s)
  | (None, s) => (Closed, s)
  end.

(** ** The registry against a list of registrations *)

Inductive regOp :=
| RAdd (connID name : bytes) (tgt : Target)
| RRemove (connID : bytes)
| RLookup (name : bytes).

Definition regStep (o : regOp) (r : Registry) : Registry :=
  match o with
  | RAdd c name tgt => reg_add c name tgt r
  | RRemove c => reg_RemoveConn c r
  | RLookup name => snd (reg_Lookup name r)
  end.
Definition regRun (ops : list regOp) : Registry := fold_left (fun r o => regStep o r) ops NewRegistry.

(** The registrations in force, oldest first. *)
Definition specStep (o : regOp) (l : list (bytes * regEntry)) : list (bytes * regEntry) :=
  match o with
  | RAdd c name tgt => l ++ [(name, mkRegEntry c tgt)]
  | RRemove c => filter (fun ne : bytes * regEntry => e_connID ne.2 <> c) l
  | RLookup _ => l
  end.
Definition specRun (ops : list regOp) : list (bytes * regEntry) := fold_left (fun l o => specStep o l) ops [].
Definition providers (name : bytes) (l : list (bytes * regEntry)) : list regEntry :=
  map snd (filter (fun ne : bytes * regEntry => ne.1 = name) l).

Definition refines (r : Registry) (l : list (bytes * regEntry)) : Prop :=
  forall name, svc r !! name = match providers name l with [] => None | es => Some es end.

Lemma providers_app name l l' : providers name (l ++ l') = providers name l ++ providers name l'.
Proof. unfold providers. by rewrite filter_app, map_app. Qed.

Lemma providers_one name nm e : providers name [(nm, e)] = if bool_decide (nm = name) then [e] else [].
Proof. unfold providers. rewrite filter_cons. cbn [fst]. case_bool_decide; case_decide; done. Qed.

Lemma providers_kept name c l :
  providers name (filter (fun ne : bytes * regEntry => e_connID ne.2 <> c) l) = keptEntries c (providers name l).
Proof.
  unfold providers, keptEntries. induction l as [|[nm e] l IH]; [done|]. rewrite !filter_cons. cbn [fst snd].
  destruct (decide (nm = name)) as [->|Hn]; destruct (decide (e_connID e <> c)) as [Hc|Hc];
    rewrite ?filter_cons; cbn [fst snd map]; rewrite ?decide_True, ?decide_False by done; cbn [map];
    rewrite ?filter_cons; rewrite ?decide_True, ?decide_False by done; by rewrite ?IH.
Qed.

Lemma refines_default r l name : refines r l -> default [] (svc r !! name) = providers name l.
Proof. intros H. rewrite H. by destruct (providers name l). Qed.

Lemma refines_step o r l : refines r l -> refines (regStep o r) (specStep o l).
Proof.
  intros H name. destruct o as [c nm tgt|c|nm]; cbn [regStep specStep].
  - unfold reg_add. cbn [svc]. rewrite providers_app, (refines_default r l nm H). destruct (decide (nm = name)) as [->|Hn].
    + rewrite lookup_insert_eq, providers_one, bool_decide_true by done. by destruct (providers name l).
    + rewrite lookup_insert_ne by done. rewrite providers_one, bool_decide_false, app_nil_r by done. apply H.
  - unfold reg_RemoveConn. cbn [svc]. rewrite lookup_omap, (H name), providers_kept.
    destruct (providers name l) as [|e es] eqn:E; cbn [mbind option_bind]; [done|].
    case_bool_decide as Hk; [by rewrite Hk|]. by destruct (keptEntries c (e :: es)).
  - unfold reg_Lookup. case_match; [done|]. cbn. apply H.
Qed.

Lemma regRun_refines ops : refines (regRun ops) (specRun ops).
Proof.
  unfold regRun, specRun.
  enough (Hg : forall ops r l, refines r l -> refines (fold_left (fun r o => regStep o r) ops r) (fold_left (fun l o => specStep o l) ops l))
    by (apply Hg; intros name; apply lookup_empty).
  clear ops. induction ops as [|o ops IH]; intros r l H; [done|]. cbn. by apply IH, refines_step.
Qed.

(** [n] lookups in a row. *)
Fixpoint lookups (n : nat) (name : bytes) (r : Registry) : list (option Target) * Registry :=
  match n with
  | O => ([], r)
  | S n => let '(t, r) := reg_Lookup name r in let '(ts, r) := lookups n name r in (t :: ts, r)
  end.

Lemma reg_Lookup_some name r es : svc r !! name = Some es -> es <> [] ->
  let i := default 0 (nextOf r !! name) mod blen es in
  reg_Lookup name r = (e_tgt <$> es !! Z.to_nat i, mkRegistry (svc r) (<[name := i + 1]> (nextOf r))).
Proof.
  intros He Hne. unfold reg_Lookup. rewrite He. change (default [] (Some es)) with es.
  destruct (Z.eqb_spec (blen es) 0) as [Hz|]; [by apply blen_nil_inv in Hz|done].
Qed.

Lemma lookups_rotate n name r es : svc r !! name = Some es -> es <> [] ->
  fst (lookups n name r) =
  map (fun j => e_tgt <$> es !! Z.to_nat ((default 0 (nextOf r !! name) + Z.of_nat j) mod blen es)) (seq 0 n).
Proof.
  revert r. induction n as [|n IH]; intros r He Hne; [done|].
  assert (Hl : 0 < blen es) by (unfold blen; destruct es; [done|cbn; lia]).
  cbn [lookups]. rewrite (reg_Lookup_some name r es He Hne). set (i := default 0 (nextOf r !! name) mod blen es).
  specialize (IH (mkRegistry (svc r) (<[name := i + 1]> (nextOf r))) He Hne).
  destruct (lookups n name (mkRegistry (svc r) (<[name := i + 1]> (nextOf r)))) as [ts r'] eqn:El. cbn [fst] in *.
  cbn [seq map]. f_equal; [by rewrite Z.add_0_r|]. rewrite IH, <- seq_shift, map_map. apply map_ext. intros j.
  cbn [nextOf]. rewrite lookup_insert_eq. cbn [default]. do 3 f_equal. unfold i, id.
  rewrite <- Z.add_assoc, Zplus_mod_idemp_l. f_equal. lia.
Qed.

Lemma rotation {A} (l : list A) (i : nat) : (i < length l)%nat ->
  map (fun j => l !! Z.to_nat ((Z.of_nat i + Z.of_nat j) mod blen l)) (seq 0 (length l)) = map Some (drop i l ++ take i l).
Proof.
  intros Hi. apply list_eq. intros k. rewrite !list_lookup_fmap.
  destruct (decide (k < length l)%nat) as [Hk|Hk].
  - rewrite lookup_seq_lt by done. cbn [fmap option_fmap option_map]. rewrite Nat.add_0_l.
    assert (Hb : blen l = Z.of_nat (length l)) by done. destruct (decide (i + k < length l)%nat).
    + rewrite lookup_app_l by (rewrite length_drop; lia). rewrite lookup_drop, Z.mod_small by lia.
      replace (Z.to_nat (Z.of_nat i + Z.of_nat k)) with (i + k)%nat by lia.
      destruct (l !! (i + k)%nat) eqn:E; [done|]. apply lookup_ge_None in E. lia.
    + rewrite lookup_app_r by (rewrite length_drop; lia). rewrite length_drop, lookup_take_lt by lia.
      replace ((Z.of_nat i + Z.of_nat k) mod blen l) with (Z.of_nat (k - (length l - i))).
      2: { rewrite <- (Z.mod_small (Z.of_nat (k - (length l - i))) (blen l)) by lia. symmetry.
           replace (Z.of_nat i + Z.of_nat k) with (Z.of_nat (k - (length l - i)) + 1 * blen l) by lia. apply Z_mod_plus_full. }
      rewrite Nat2Z.id. destruct (l !! (k - (length l - i))%nat) eqn:E; [done|]. apply lookup_ge_None in E. lia.
  - rewrite lookup_seq_ge by lia. rewrite lookup_ge_None_2; [done|]. rewrite length_app, length_drop, length_take. lia.
Qed.

(** The registry is the list of the registrations made and not withdrawn since: a
    service is found exactly when one of them names it, the catalog lists exactly
    those services, in order, and as many lookups in a row as a service has providers
    return each of them once, in turn. *)
Theorem registry_refines ops :
  let r := regRun ops in
  (forall name, default [] (svc r !! name) = providers name (specRun ops)) /\
  (forall name, name ∈ reg_Catalog r <-> providers name (specRun ops) <> []) /\
  StronglySorted bytes_le (reg_Catalog r) /\ NoDup (reg_Catalog r) /\
  (forall name, let ps := providers name (specRun ops) in
     (ps = [] -> fst (reg_Lookup name r) = None) /\
     (ps <> [] -> exists i, fst (lookups (length ps) name r) = map (Some ∘ e_tgt) (drop i ps ++ take i ps))).
Proof.
  intros r. pose proof (regRun_refines ops) as H. fold r in H. split_and!.
  - intros name. by apply refines_default.
  - intros name. unfold reg_Catalog. rewrite elem_of_sortStrings, list_elem_of_fmap. split.
    + intros ([nm es] & -> & He%elem_of_map_to_list). cbn. rewrite H in He. by destruct (providers nm _).
    + intros Hp. destruct (providers name (specRun ops)) as [|e es] eqn:E; [done|]. exists (name, e :: es). split; [done|].
      apply elem_of_map_to_list. by rewrite H, E.
  - apply sortStrings_sorted.
  - unfold reg_Catalog. unfold sortStrings. rewrite (merge_sort_Permutation bytes_le _). apply NoDup_fst_map_to_list.
  - intros name ps. pose proof (refines_default r _ name H) as Hd. fold ps in Hd. pose proof (H name) as Hn. fold ps in Hn. split.
    + intros Hz. unfold reg_Lookup. by rewrite Hd, Hz.
    + intros Hz. destruct ps as [|e es] eqn:Ep; [done|]. rewrite <- Ep in *.
      assert (Hl : (0 < length ps)%nat) by (rewrite Ep; cbn; lia).
      set (i := default 0 (nextOf r !! name) mod blen ps).
      assert (Hi : 0 <= i < blen ps) by (apply Z.mod_pos_bound; unfold blen; lia). unfold blen in Hi.
      exists (Z.to_nat i). rewrite (lookups_rotate _ name r ps); [|by rewrite Hn, Ep|by rewrite Ep].
      transitivity (map (fmap e_tgt) (map Some (drop (Z.to_nat i) ps ++ take (Z.to_nat i) ps))); [|by rewrite map_map].
      rewrite <- rotation, map_map by lia. apply map_ext. intros j. do 3 f_equal.
      rewrite Z2Nat.id by lia. unfold i. by rewrite Zplus_mod_idemp_l.
Qed.

(** ** The hub *)

(** The connections ever accepted, with what each authenticated as, and the registry. *)
Record hub := mkHub { h_conns : gmap bytes hubConn; h_auth : gmap bytes bytes; h_reg : Registry }.

Inductive hubOp :=
| HAccept (id authenticated : bytes)
| HControl (id : bytes) (m : mux) (reg : Registration)
| HDrop (id : bytes).

(** A control message already received may be handled after the connection's
    registrations were dropped: the handlers are not waited for. *)
Definition hubStep (p : option hubPolicy) (o : hubOp) (h : hub) : option hub :=
  match o with
  | HAccept id a =>
      match h_conns h !! id with
      | Some _ => None
      | None => Some (mkHub (<[id := accept id a]> (h_conns h)) (<[id := a]> (h_auth h)) (h_reg h))
      end
  | HControl id m reg =>
      match h_conns h !! id with
      | None => None
      | Some hc => let '(hc, r) := hubControl p m reg hc (h_reg h) in Some (mkHub (<[id := hc]> (h_conns h)) (h_auth h) r)
      end
  | HDrop id => Some (mkHub (h_conns h) (h_auth h) (reg_RemoveConn id (h_reg h)))
  end.

Inductive hubReach (p : option hubPolicy) : hub -> Prop :=
| hub_init : hubReach p (mkHub ∅ ∅ NewRegistry)
| hub_next o h h' : hubReach p h -> hubStep p o h = Some h' -> hubReach p h'.

(** An identity of connection [c] may host [name]: the one it authenticated with, if it did; else the one it
    declared, or none. *)
Definition mayHost (p : option hubPolicy) (h : hub) (c name : bytes) : Prop :=
  exists i, AllowRegister p i name = true /\ (forall a, h_auth h !! c = Some a -> a <> [] -> i = a) /\
    (i = [] \/ exists hc, h_conns h !! c = Some hc /\ hc_identity hc = Some i).

Record hubInv (p : option hubPolicy) (h : hub) : Prop := {
  h_id : forall id hc, h_conns h !! id = Some hc -> hc_id hc = id /\ is_Some (h_auth h !! id);
  h_ident : forall id hc a, h_conns h !! id = Some hc -> h_auth h !! id = Some a -> a <> [] -> hc_identity hc = Some a;
  h_fresh : forall id, h_conns h !! id = None -> h_auth h !! id = None;
  h_host : forall name e, e ∈ default [] (svc (h_reg h) !! name) ->
    is_Some (h_conns h !! e_connID e) /\ mayHost p h (e_connID e) name
}.

Lemma svc_add c name tgt r nm e : e ∈ default [] (svc (reg_add c name tgt r) !! nm) ->
  e ∈ default [] (svc r !! nm) \/ (nm = name /\ e = mkRegEntry c tgt).
Proof.
  unfold reg_add. cbn [svc]. destruct (decide (nm = name)) as [->|Hn]; [|rewrite lookup_insert_ne by done; auto].
  rewrite lookup_insert_eq. cbn. intros [?| ->%list_elem_of_singleton]%elem_of_app; auto.
Qed.

Lemma svc_remove c r nm e : e ∈ default [] (svc (reg_RemoveConn c r) !! nm) -> e ∈ default [] (svc r !! nm).
Proof.
  unfold reg_RemoveConn. cbn [svc]. rewrite lookup_omap. destruct (svc r !! nm) as [es|]; [|done]. cbn.
  case_bool_decide; cbn; [by intros ?%not_elem_of_nil|]. unfold keptEntries. by intros [_ ?]%list_elem_of_filter.
Qed.

(** What a control message registers is allowed to the connection's identity. *)
Lemma control_svc p hc m l r nm e : e ∈ default [] (svc (fold_left (controlService p hc m) l r) !! nm) ->
  e ∈ default [] (svc r !! nm) \/ (e_connID e = hc_id hc /\ AllowRegister p (identityNow hc) nm = true).
Proof.
  revert r. induction l as [|s l IH]; intros r He; [by left|]. cbn in He. destruct (IH _ He) as [H|H]; [|by right].
  unfold controlService in H. case_bool_decide; [by left|].
  destruct (AllowRegister p (identityNow hc) (s_Name s)) eqn:Ea; cbn in H; [|by left].
  case_bool_decide; apply svc_add in H as [H|[-> ->]]; auto.
Qed.

Lemma declare_some a hc i : hc_identity hc = Some i -> declare a hc = hc.
Proof. unfold declare. by intros ->. Qed.

Lemma hubInv_step p o h h' : hubInv p h -> hubStep p o h = Some h' -> hubInv p h'.
Proof.
  intros [H1 H2 H3 H4] E. destruct o as [id a|id m reg|id]; cbn in E.
  - destruct (h_conns h !! id) eqn:Ec; [done|]. injection E as <-. split; cbn.
    + intros id' hc Hl. destruct (decide (id' = id)) as [->|Hn].
      * rewrite lookup_insert_eq in Hl. rewrite lookup_insert_eq. injection Hl as <-. unfold accept. case_bool_decide; done.
      * rewrite lookup_insert_ne in Hl by done. rewrite lookup_insert_ne by done. auto.
    + intros id' hc a' Hl Ha Hne. destruct (decide (id' = id)) as [->|Hn].
      * rewrite lookup_insert_eq in Hl. rewrite lookup_insert_eq in Ha. simplify_eq. unfold accept. by rewrite bool_decide_false.
      * rewrite lookup_insert_ne in Hl by done. rewrite lookup_insert_ne in Ha by done. by eapply H2.
    + intros id' Hl. destruct (decide (id' = id)) as [->|Hn]; [by rewrite lookup_insert_eq in Hl|].
      rewrite lookup_insert_ne in Hl by done. rewrite lookup_insert_ne by done. auto.
    + intros name e He. destruct (H4 name e He) as [Hs (i & Hi & Hb & Hd)]. assert (Hn : e_connID e <> id) by (intros Hx; rewrite Hx, Ec in Hs; by destruct Hs).
      rewrite lookup_insert_ne by done. split; [done|]. exists i. cbn. by rewrite !lookup_insert_ne.
  - destruct (h_conns h !! id) as [hc|] eqn:Ec; [|done]. unfold hubControl in E. injection E as <-.
    set (hc' := if bool_decide (r_Identity reg = []) then hc else declare (r_Identity reg) hc).
    destruct (H1 _ _ Ec) as [Hid [a Ha]]. assert (Hid' : hc_id hc' = id).
    { unfold hc', declare. case_bool_decide; [done|]. by destruct (hc_identity hc). }
    assert (Hia : a <> [] -> hc_identity hc' = Some a).
    { intros Hne. pose proof (H2 _ _ _ Ec Ha Hne) as Hi. unfold hc'. case_bool_decide; [done|]. by rewrite (declare_some _ hc a). }
    split; cbn.
    + intros id' hc0 Hl. destruct (decide (id' = id)) as [->|Hn].
      * rewrite lookup_insert_eq in Hl. injection Hl as <-. by split.
      * rewrite lookup_insert_ne in Hl by done. auto.
    + intros id' hc0 a' Hl Ha' Hne. destruct (decide (id' = id)) as [->|Hn].
      * rewrite lookup_insert_eq in Hl. simplify_eq. auto.
      * rewrite lookup_insert_ne in Hl by done. by eapply H2.
    + intros id' Hl. destruct (decide (id' = id)) as [->|Hn]; [by rewrite lookup_insert_eq in Hl|].
      rewrite lookup_insert_ne in Hl by done. auto.
    + intros name e [He|[-> Hal]]%control_svc.
      * destruct (H4 name e He) as [Hs (i & Hi & Hb & Hd)]. split.
        { destruct (decide (e_connID e = id)) as [->|Hn]; [by rewrite lookup_insert_eq|by rewrite lookup_insert_ne]. }
        exists i. split_and!; [done..|]. destruct Hd as [->|(hc0 & Hl & Hi0)]; [by left|]. right. cbn.
        destruct (decide (e_connID e = id)) as [He'|Hn]; [|exists hc0; by rewrite lookup_insert_ne].
        rewrite He' in *. rewrite Ec in Hl. injection Hl as <-. exists hc'. split; [by rewrite lookup_insert_eq|].
        unfold hc'. case_bool_decide; [done|]. by rewrite (declare_some _ hc i).
      * rewrite Hid', lookup_insert_eq. split; [done|]. exists (identityNow hc'). split_and!; [done|..]; cbn.
        -- intros a' Ha' Hne. simplify_eq. unfold identityNow. by rewrite Hia.
        -- unfold identityNow. destruct (hc_identity hc') as [i|] eqn:Ei; [|by left]. right. exists hc'. by rewrite lookup_insert_eq.
  - injection E as <-. split; cbn; [done..|]. intros name e He%svc_remove. by apply H4.
Qed.

Lemma hubReach_inv p h : hubReach p h -> hubInv p h.
Proof. induction 1 as [|o h h' _ IH E]; [|by eapply hubInv_step]. split; cbn; try done. intros name e He. rewrite lookup_empty in He. by apply not_elem_of_nil in He. Qed.

(** C38. The hub relays only what policy allows: under an enforced reach matrix, a stream of
    a connection authenticated as [a] is connected only to a service [a] may reach,
    whatever identity its registrations claim; and only to a target that was registered
    for that service by a connection whose own identity may host it. *)
Theorem hub_relay_guarded p h c hc a name :
  hubReach p h -> h_conns h !! c = Some hc -> h_auth h !! c = Some a -> a <> [] ->
  let '(r, _) := hubRelay reg_Lookup p (hc_identity hc) name (h_reg h) in
  r <> Closed ->
  hub_Allow p a name = true /\
  exists e, e ∈ default [] (svc (h_reg h) !! name) /\ r = relayTarget name (e_tgt e) /\ mayHost p h (e_connID e) name.
Proof.
  intros Hr Hc Ha Hne. destruct (hubReach_inv p h Hr) as [H1 H2 H3 H4]. rewrite (H2 _ _ _ Hc Ha Hne). unfold hubRelay.
  assert (Hal : ReachEnforced p = false -> hub_Allow p a name = true).
  { unfold ReachEnforced, hub_Allow. destruct p as [[[reach|] w]|]; [|done..]. by rewrite bool_decide_true by done. }
  destruct (ReachEnforced p && negb (hub_Allow p a name)) eqn:Eg; [done|].
  unfold reg_Lookup. set (es := default [] (svc (h_reg h) !! name)). destruct (Z.eqb_spec (blen es) 0) as [|Hz]; [done|].
  destruct (es !! Z.to_nat _) as [e|] eqn:Ee; cbn; [|done]. intros _. split.
  - destruct (ReachEnforced p); [|auto]. by destruct (hub_Allow p a name).
  - apply list_elem_of_lookup_2 in Ee. exists e. split; [done|]. split; [done|]. by apply (H4 name e).
Qed.

(** ** An example *)

Definition exPolicy : option hubPolicy :=
  NewPolicy {[go "web" := [go "db"]]} {[go "db-host" := [go "db"]]}.
Definition exOps : list hubOp :=
  [HAccept (go "c1") (go "db-host"); HAccept (go "c2") (go "web");
   HControl (go "c1") 1 (mkRegistration (go "web") [mkService (go "db") [] []; mkService (go "admin") [] []]);
   HControl (go "c2") 2 (mkRegistration (go "db-host") [mkService (go "db") [] []])].
Fixpoint hubRun (p : option hubPolicy) (ops : list hubOp) (h : hub) : option hub :=
  match ops with [] => Some h | o :: ops => hubStep p o h ≫= hubRun p ops end.

Lemma hubRun_reach p ops h h' : hubRun p ops h = Some h' -> hubReach p h -> hubReach p h'.
Proof.
  revert h. induction ops as [|o ops IH]; intros h E Hr; cbn in E; [by simplify_eq|].
  destruct (hubStep p o h) as [h1|] eqn:Es; [|done]. eapply IH; [exact E|]. by econstructor.
Qed.

Lemma exHub :
  (h ← hubRun exPolicy exOps (mkHub ∅ ∅ NewRegistry);
   Some (fst (hubRelay reg_Lookup exPolicy (Some (go "web")) (go "db") (h_reg h)), h_conns h !! go "c2", h_auth h !! go "c2")) =
  Some (Deliver 1 (go "db"), Some (mkHubConn (go "c2") (Some (go "web"))), Some (go "web")).
Proof. vm_compute. reflexivity. Qed.

Lemma hub_relay_guarded_witness :
  exists h, hubRun exPolicy exOps (mkHub ∅ ∅ NewRegistry) = Some h /\
    exists e, e ∈ default [] (svc (h_reg h) !! go "db") /\ Deliver 1 (go "db") = relayTarget (go "db") (e_tgt e) /\
      mayHost exPolicy h (e_connID e) (go "db").
Proof.
  pose proof exHub as Hx. destruct (hubRun exPolicy exOps (mkHub ∅ ∅ NewRegistry)) as [h|] eqn:E; cbn [mbind option_bind] in Hx; [|done].
  injection Hx as Hd Hc Ha. exists h. split; [done|].
  assert (Hr : hubReach exPolicy h) by (eapply hubRun_reach; [exact E|constructor]).
  pose proof (hub_relay_guarded exPolicy h (go "c2") _ (go "web") (go "db") Hr Hc Ha ltac:(done)) as Hg. cbn [hc_identity] in Hg.
  destruct (hubRelay reg_Lookup exPolicy (Some (go "web")) (go "db") (h_reg h)) as [r s]. cbn [fst] in Hd. subst r. by apply Hg.
Defined.

(** A registration handled after its connection was dropped stays: nothing removes it,
    and relays are then sent to the session that is gone. *)
Lemma late_registration_leaks :
  match hubRun None [HAccept (go "c1") []; HDrop (go "c1"); HControl (go "c1") 1 (mkRegistration [] [mkService (go "db") [] []])]
          (mkHub ∅ ∅ NewRegistry) with
  | Some h => fst (hubRelay reg_Lookup None None (go "db") (h_reg h)) = Deliver 1 (go "db")
  | None => False
  end.
Proof. vm_compute. reflexivity. Qed.
