(* ===== verification/HubStore.v ===== *)
(** * HubStore: the hub's shared registry

    [pkg/hub/redisstore.go]: the service registry of a hub with several replicas.  A
    replica keeps the providers of its own connections locally, writes them to Redis
    through a queue of pending operations, and reads the merged view of all replicas,
    dropping the providers of replicas whose liveness key has lapsed.

    A call to Redis is applied, refused, or applied with its reply lost.  Redis maps a
    service key to a hash from provider id to record; a record is the JSON it encodes,
    [None] standing for a value that does not decode, and its strings are valid UTF-8.
    [wmu] serializes the writers: the operations a holder still has to apply are part of
    a replica's state, so that lookups interleave with them. *)

From Stdlib Require Import ZArith Lia.
From stdpp Require Import base list gmap sorting.
From S2P Require Import Prelude GoStd HubRegistry.
Open Scope Z_scope.

(** ** Redis *)

Record providerRecord := mkProvider {
  pr_ConnID : bytes; pr_Mode : bytes; pr_Addr : bytes; pr_Owner : bytes; pr_ForwardAddr : bytes; pr_Protocol : bytes }.
#[global] Instance providerRecord_eq_dec : EqDecision providerRecord.
Proof. solve_decision. Defined.

Abbreviation blob := (option providerRecord).

(** Hashes by key; values with their expiry; the time, in nanoseconds. *)
Record redis := mkRedis { hashes : gmap bytes (gmap bytes blob); strs : gmap bytes (bytes * Z); clock : Z }.

Inductive reply := Applied | Refused | Lost.
Definition succeeded (e : reply) : bool := match e with Applied => true | _ => false end.
Definition effective (e : reply) : bool := match e with Refused => false | _ => true end.

Definition HGetAll (key : bytes) (d : redis) : gmap bytes blob := default ∅ (hashes d !! key).
Definition HSet (key field : bytes) (v : blob) (d : redis) : redis :=
  mkRedis (<[key := <[field := v]> (HGetAll key d)]> (hashes d)) (strs d) (clock d).
Definition HDel (key field : bytes) (d : redis) : redis :=
  mkRedis (<[key := delete field (HGetAll key d)]> (hashes d)) (strs d) (clock d).
Definition SetEx (key v : bytes) (ttl : Z) (d : redis) : redis :=
  mkRedis (hashes d) (<[key := (v, clock d + ttl)]> (strs d)) (clock d).
Definition Exists (key : bytes) (d : redis) : bool :=
  match strs d !! key with Some (_, expiry) => clock d <? expiry | None => false end.

(** ** The store of a replica *)

Definition svcPrefix : bytes := go "hub:svc:".
Definition alivePrefix : bytes := go "hub:alive:".
Definition peerPrefix : bytes := go "hub:peer-key:".
Definition second : Z := 1000000000.
Definition aliveTTL : Z := 15 * second.
Definition heartbeatEvery : Z := 5 * second.
Definition writeTimeout : Z := 3 * second.
Definition beatAttempts : Z := 3.
Definition beatBackoff : Z := 100 * 1000000.

Definition svcKey (name : bytes) : bytes := svcPrefix ++ name.
Definition aliveKey (replica : bytes) : bytes := alivePrefix ++ replica.
Definition peerKeyKey (replica : bytes) : bytes := peerPrefix ++ replica.

Record pendingOp := mkOp { op_name : bytes; op_blob : option providerRecord; op_seq : Z }.
#[global] Instance pendingOp_eq_dec : EqDecision pendingOp.
Proof. solve_decision. Defined.

Record RedisStore := mkStore {
  replicaID : bytes; forwardAddr : bytes;
  owned : gmap bytes (gmap bytes bytes);  (* connID -> providerID -> service *)
  muxes : gmap bytes mux;
  rrOf : gmap bytes Z;
  pending : gmap bytes pendingOp;
  seqNo : Z;
  beatErr : bool;
  peerKey : bytes }.

Definition newRedisStore (id fwd : bytes) : RedisStore := mkStore id fwd ∅ ∅ ∅ ∅ 0 false [].

Definition providerID (s : RedisStore) (connID name : bytes) : bytes :=
  replicaID s ++ go ":" ++ connID ++ go ":" ++ name.

Definition directRecord (s : RedisStore) (connID addr protocol : bytes) : providerRecord :=
  mkProvider connID (go "direct") addr (replicaID s) (forwardAddr s) protocol.
Definition deliverRecord (s : RedisStore) (connID : bytes) : providerRecord :=
  mkProvider connID (go "deliver") [] (replicaID s) (forwardAddr s) [].

Definition setPending (p : gmap bytes pendingOp) (seq : Z) (s : RedisStore) : RedisStore :=
  mkStore (replicaID s) (forwardAddr s) (owned s) (muxes s) (rrOf s) p seq (beatErr s) (peerKey s).

Definition enqueueLocked (pid name : bytes) (b : option providerRecord) (s : RedisStore) : pendingOp * RedisStore :=
  let seq := (seqNo s + 1) mod 2 ^ 64 in
  let op := mkOp name b seq in
  (op, setPending (<[pid := op]> (pending s)) seq s).

(** [put] up to the write: the provider is recorded locally and queued. *)
Definition putLocal (connID name : bytes) (rec : providerRecord) (m : option mux) (s : RedisStore)
    : list (bytes * pendingOp) * RedisStore :=
  let pid := providerID s connID name in
  let mine := <[pid := name]> (default ∅ (owned s !! connID)) in
  let muxes' := match m with Some m => <[pid := m]> (muxes s) | None => muxes s end in
  let s1 := mkStore (replicaID s) (forwardAddr s) (<[connID := mine]> (owned s)) muxes' (rrOf s) (pending s)
              (seqNo s) (beatErr s) (peerKey s) in
  let '(op, s2) := enqueueLocked pid name (Some rec) s1 in
  ([(pid, op)], s2).

(** [RemoveConn] up to the writes, its providers in some order of the map. *)
Definition removeOne (acc : list (bytes * pendingOp) * RedisStore) (pn : bytes * bytes) : list (bytes * pendingOp) * RedisStore :=
  let '(ops, s) := acc in
  let '(pid, name) := pn in
  let s1 := mkStore (replicaID s) (forwardAddr s) (owned s) (delete pid (muxes s)) (rrOf s) (pending s)
              (seqNo s) (beatErr s) (peerKey s) in
  let '(op, s2) := enqueueLocked pid name None s1 in
  (ops ++ [(pid, op)], s2).
Definition removeLocal (connID : bytes) (s : RedisStore) : list (bytes * pendingOp) * RedisStore :=
  let pids := map_to_list (default ∅ (owned s !! connID)) in
  let s1 := mkStore (replicaID s) (forwardAddr s) (delete connID (owned s)) (muxes s) (rrOf s) (pending s)
              (seqNo s) (beatErr s) (peerKey s) in
  fold_left removeOne pids ([], s1).

(** [applyOpLocked]: one operation against Redis. *)
Definition applyOpLocked (pid : bytes) (op : pendingOp) (e : reply) (d : redis) (s : RedisStore) : redis * RedisStore :=
  let d' := if effective e
            then match op_blob op with None => HDel (svcKey (op_name op)) pid d | Some r => HSet (svcKey (op_name op)) pid (Some r) d end
            else d in
  let s' := if succeeded e
            then match pending s !! pid with
                 | Some cur => if op_seq cur =? op_seq op then setPending (delete pid (pending s)) (seqNo s) s else s
                 | None => s
                 end
            else s in
  (d', s').

(** [reconcileOne] up to the write. *)
Definition reconcileLocal (pid : bytes) (s : RedisStore) : list (bytes * pendingOp) :=
  match pending s !! pid with Some op => [(pid, op)] | None => [] end.

(** One heartbeat. *)
Definition beat (e : reply) (d : redis) (s : RedisStore) : redis :=
  if effective e then
    let d1 := SetEx (aliveKey (replicaID s)) (go "1") aliveTTL d in
    if bool_decide (peerKey s = []) then d1 else SetEx (peerKeyKey (replicaID s)) (peerKey s) aliveTTL d1
  else d.
Fixpoint beatBounded (es : list reply) (d : redis) (s : RedisStore) : bool * redis :=
  match es with
  | [] => (true, d)
  | e :: es => let d := beat e d s in if succeeded e then (false, d) else beatBounded es d s
  end.
Definition noteBeat (err : bool) (s : RedisStore) : RedisStore :=
  mkStore (replicaID s) (forwardAddr s) (owned s) (muxes s) (rrOf s) (pending s) (seqNo s) err (peerKey s).

(** Whether the shared state is trustworthy. *)
Definition StoreHealth (s : RedisStore) : bool := negb (beatErr s) && bool_decide (pending s = ∅).

(** ** Reading the merged view *)

(** The records of a service in the hash read as [d1], with the owners alive in [d2],
    read after it; [None] is a failed read. *)
Definition recordsOf (name : bytes) (d : redis) : list (bytes * providerRecord) :=
  omap (fun pid => match HGetAll (svcKey name) d !! pid with Some (Some rec) => Some (pid, rec) | _ => None end)
    (sortStrings (map fst (map_to_list (HGetAll (svcKey name) d)))).
(** Whether an owner's liveness key exists. *)
Definition liveOwners (d : redis) (owner : bytes) : bool := Exists (aliveKey owner) d.
Definition liveProviders (name : bytes) (d1 d2 : option redis) : list (bytes * providerRecord) :=
  match d1, d2 with
  | Some d1, Some d2 => filter (fun pr : bytes * providerRecord => liveOwners d2 (pr_Owner pr.2) = true) (recordsOf name d1)
  | _, _ => []
  end.

(** What a provider resolves to here, if it can be used. *)
Definition resolveProvider (s : RedisStore) (name pid : bytes) (rec : providerRecord) : option Target :=
  if bool_decide (pr_Mode rec = go "direct") then Some (directTarget (pr_Addr rec) (pr_Protocol rec))
  else if bool_decide (pr_Mode rec = go "deliver") then
    if bool_decide (pr_Owner rec = replicaID s) then deliverTarget <$> muxes s !! pid
    else Some (mkTarget [] None [] (pr_ForwardAddr rec) name)
  else None.

Definition setRR (name : bytes) (i : Z) (s : RedisStore) : RedisStore :=
  mkStore (replicaID s) (forwardAddr s) (owned s) (muxes s) (<[name := i]> (rrOf s)) (pending s) (seqNo s) (beatErr s) (peerKey s).

Fixpoint tryFrom (s : RedisStore) (name : bytes) (live : list (bytes * providerRecord)) (start : Z) (offs : list nat)
    : option Target * RedisStore :=
  match offs with
  | [] => (None, s)
  | off :: offs =>
      let i := (start + Z.of_nat off) mod blen live in
      match live !! Z.to_nat i with
      | Some (pid, rec) =>
          match resolveProvider s name pid rec with
          | Some t => (Some t, setRR name (i + 1) s)
          | None => tryFrom s name live start offs
          end
      | None => tryFrom s name live start offs
      end
  end.

Definition store_Lookup (name : bytes) (d1 d2 : option redis) (s : RedisStore) : option Target * RedisStore :=
  let live := liveProviders name d1 d2 in
  tryFrom s name live (default 0 (rrOf s !! name)) (seq 0 (length live)).

(** [Catalog], of names whose keys a scan returns. *)
Definition store_Catalog (d : redis) : list bytes :=
  let names := omap (fun k => if hasPrefix k svcPrefix then Some (trimPrefix k svcPrefix) else None) (map fst (map_to_list (hashes d))) in
  sortStrings (filter (fun nm => liveProviders nm (Some d) (Some d) <> []) names).

(** ** Replicas *)

(** A replica: its store, what the holder of [wmu] still has to apply, whether it runs; and of its history since it started
    the providers registered and not withdrawn ([want]), all it ever registered ([touched]), and what Redis held when it
    started ([base]). *)
Record replica := mkReplica {
  store : RedisStore; busy : list (bytes * pendingOp); up : bool;
  want : gmap bytes (bytes * providerRecord); touched : gset bytes; base : gmap bytes (gmap bytes blob) }.
Record cluster := mkCluster { red : redis; reps : gmap bytes replica }.

(** A replica joins under a name no running one has, its own former name included. A delivery without a session is a
    mount session's record ([registerMountSession] in [pkg/server/mount_relay.go]). *)
Inductive clusterOp :=
| CJoin (id fwd : bytes)
| CCrash (r : bytes)
| CRegister (r connID name addr protocol : bytes)
| CDeliver (r connID name : bytes) (m : option mux)
| CRemove (r connID : bytes)
| CReconcile (r pid : bytes)
| CApply (r : bytes) (e : reply)
| CTickBeat (r : bytes) (es : list reply)
| CTime (dt : Z).

Definition withReplica (r : bytes) (R : replica) (c : cluster) : cluster := mkCluster (red c) (<[r := R]> (reps c)).

Definition begin (ops : list (bytes * pendingOp)) (s : RedisStore) (w : gmap bytes (bytes * providerRecord)) (t : gset bytes) (R : replica)
    : replica := mkReplica s ops true w t (base R).

Definition putStep (r connID name : bytes) (rec : providerRecord) (m : option mux) (R : replica) (c : cluster) : cluster :=
  let '(ops, s) := putLocal connID name rec m (store R) in
  let pid := providerID (store R) connID name in
  withReplica r (begin ops s (<[pid := (name, rec)]> (want R)) ({[pid]} ∪ touched R) R) c.

Definition clusterStep (o : clusterOp) (c : cluster) : option cluster :=
  let running r := match reps c !! r with Some R => if up R then Some R else None | None => None end in
  let idle r := match running r with Some R => if bool_decide (busy R = []) then Some R else None | None => None end in
  match o with
  | CJoin id fwd =>
      match running id with
      | Some _ => None
      | None => let s := newRedisStore id fwd in
                Some (mkCluster (beat Applied (red c) s) (<[id := mkReplica s [] true ∅ ∅ (hashes (red c))]> (reps c)))
      end
  | CCrash r => match running r with
                | Some R => Some (withReplica r (mkReplica (store R) (busy R) false (want R) (touched R) (base R)) c)
                | None => None
                end
  | CRegister r connID name addr protocol =>
      match idle r with Some R => Some (putStep r connID name (directRecord (store R) connID addr protocol) None R c) | None => None end
  | CDeliver r connID name m =>
      match idle r with Some R => Some (putStep r connID name (deliverRecord (store R) connID) m R c) | None => None end
  | CRemove r connID =>
      match idle r with
      | Some R =>
          let '(ops, s) := removeLocal connID (store R) in
          let gone := default ∅ (owned (store R) !! connID) in
          Some (withReplica r (begin ops s (filter (fun pw : bytes * (bytes * providerRecord) => gone !! pw.1 = None) (want R)) (touched R) R) c)
      | None => None
      end
  | CReconcile r pid =>
      match idle r with
      | Some R => Some (withReplica r (begin (reconcileLocal pid (store R)) (store R) (want R) (touched R) R) c)
      | None => None
      end
  | CApply r e =>
      match running r with
      | Some R =>
          match busy R with
          | [] => None
          | (pid, op) :: rest =>
              let '(d, s) := applyOpLocked pid op e (red c) (store R) in
              Some (mkCluster d (<[r := mkReplica s rest true (want R) (touched R) (base R)]> (reps c)))
          end
      | None => None
      end
  | CTickBeat r es =>
      match running r with
      | Some R =>
          let '(err, d) := beatBounded es (red c) (store R) in
          Some (mkCluster d (<[r := mkReplica (noteBeat err (store R)) (busy R) true (want R) (touched R) (base R)]> (reps c)))
      | None => None
      end
  | CTime dt => if dt <? 0 then None else Some (mkCluster (mkRedis (hashes (red c)) (strs (red c)) (clock (red c) + dt)) (reps c))
  end.
