(* ===== verification/HubSync.v ===== *)
(** * HubSync: the shared registry converges

    Replicas of [HubStore] that join, crash, start again under the same name, register and withdraw services, write to
    Redis with replies lost and refused, and retry: what Redis holds of each replica,
    what its health reports, what a lookup finds - and two ways a relay goes wrong. *)

From Stdlib Require Import ZArith Lia.
From stdpp Require Import base list gmap sorting.
From S2P Require Import Prelude GoStd HubRegistry HubStore.
Open Scope Z_scope.

(** ** Provider ids *)

Definition colon : byte := Byte.x3a.
Definition noColon (s : bytes) : Prop := colon ∉ s.

Definition pidOf (r c n : bytes) : bytes := r ++ go ":" ++ c ++ go ":" ++ n.

Lemma sep_inj (x x' y y' : bytes) : noColon x -> noColon x' -> x ++ colon :: y = x' ++ colon :: y' -> x = x' /\ y = y'.
Proof.
  revert x'. induction x as [|a x IH]; intros [|a' x'] H H' E; cbn in E; simplify_eq.
  - done.
  - destruct H'. by left.
  - destruct H. by left.
  - destruct (IH x') as [-> ->]; [|..|done|done]; intros Hi; [apply H|apply H']; by right.
Qed.

Lemma pidOf_inj r r' c c' n n' : noColon r -> noColon r' -> noColon c -> noColon c' ->
  pidOf r c n = pidOf r' c' n' -> r = r' /\ c = c' /\ n = n'.
Proof.
  unfold pidOf. change (go ":") with [colon]. intros Hr Hr' Hc Hc' E. cbn [app] in E.
  apply sep_inj in E as [-> E]; [|done..]. apply sep_inj in E as [-> ->]; done.
Qed.

Lemma svcKey_inj n n' : svcKey n = svcKey n' -> n = n'.
Proof. unfold svcKey. apply app_inv_head. Qed.

(** ** Redis reads *)

Lemma HGetAll_HSet k k' f g v d :
  HGetAll k (HSet k' f v d) !! g = if bool_decide (k = k' /\ f = g) then Some v else HGetAll k d !! g.
Proof.
  unfold HGetAll at 1, HSet. cbn [hashes]. destruct (decide (k = k')) as [->|Hk].
  - rewrite lookup_insert_eq. cbn [from_option id]. destruct (decide (f = g)) as [->|Hf].
    + by rewrite bool_decide_true, lookup_insert_eq by done.
    + rewrite bool_decide_false, lookup_insert_ne by naive_solver. done.
  - rewrite lookup_insert_ne, bool_decide_false by naive_solver. done.
Qed.
Lemma HGetAll_HDel k k' f g d :
  HGetAll k (HDel k' f d) !! g = if bool_decide (k = k' /\ f = g) then None else HGetAll k d !! g.
Proof.
  unfold HGetAll at 1, HDel. cbn [hashes]. destruct (decide (k = k')) as [->|Hk].
  - rewrite lookup_insert_eq. cbn [from_option id]. destruct (decide (f = g)) as [->|Hf].
    + by rewrite bool_decide_true, lookup_delete_eq by done.
    + rewrite bool_decide_false, lookup_delete_ne by naive_solver. done.
  - rewrite lookup_insert_ne, bool_decide_false by naive_solver. done.
Qed.

Definition sameHashes (d d' : redis) : Prop := forall k, HGetAll k d' = HGetAll k d.

(** ** The invariant *)

Definition recordFor (r : bytes) (rec : providerRecord) : Prop :=
  pr_Owner rec = r /\ (pr_Mode rec = go "direct" \/ pr_Mode rec = go "deliver").

(** What Redis should hold under a provider id with no operation pending: the registration of this run, or
    what a former run under the name left. *)
Definition shared (R : replica) (n pid : bytes) : option blob :=
  if bool_decide (pid ∈ touched R) then (fun w => Some w.2) <$> want R !! pid else default ∅ (base R !! svcKey n) !! pid.

Record repInv (r : bytes) (R : replica) (d : redis) : Prop := {
  ri_id : replicaID (store R) = r /\ noColon r;
  ri_want : forall pid n rec, want R !! pid = Some (n, rec) ->
    recordFor r rec /\ pid ∈ touched R /\
    exists c m, noColon c /\ pid = pidOf r c n /\ owned (store R) !! c = Some m /\ m !! pid = Some n;
  ri_owned : forall c m pid n, owned (store R) !! c = Some m -> m !! pid = Some n ->
    noColon c /\ pid = pidOf r c n /\ exists rec, want R !! pid = Some (n, rec);
  ri_pend : forall pid op, pending (store R) !! pid = Some op ->
    (exists c, noColon c /\ pid = pidOf r c (op_name op)) /\ op_blob op = snd <$> want R !! pid /\ pid ∈ touched R;
  ri_busy : forall pid op, (pid, op) ∈ busy R -> pending (store R) !! pid = Some op;
  ri_once : NoDup (map fst (busy R));
  ri_mux : forall pid, is_Some (muxes (store R) !! pid) -> is_Some (want R !! pid);
  ri_sync : forall c n, noColon c -> pending (store R) !! pidOf r c n = None ->
    HGetAll (svcKey n) d !! pidOf r c n = shared R n (pidOf r c n);
  ri_else : forall c n n', noColon c -> n' <> n -> HGetAll (svcKey n') d !! pidOf r c n = None;
  ri_base : forall n pid b, default ∅ (base R !! svcKey n) !! pid = Some b ->
    exists r' c rec, noColon r' /\ noColon c /\ pid = pidOf r' c n /\ b = Some rec /\ pr_Owner rec = r'
}.

Record clusterInv (cl : cluster) : Prop := {
  cl_rep : forall r R, reps cl !! r = Some R -> repInv r R (red cl);
  cl_only : forall n pid b, HGetAll (svcKey n) (red cl) !! pid = Some b ->
    exists r R c rec, reps cl !! r = Some R /\ noColon r /\ noColon c /\ pid = pidOf r c n /\ b = Some rec /\ pr_Owner rec = r
}.

Definition okClusterOp (o : clusterOp) : Prop :=
  match o with
  | CJoin id _ => noColon id
  | CRegister _ connID _ _ _ | CDeliver _ connID _ _ => noColon connID
  | _ => True
  end.

Inductive clusterReach : cluster -> Prop :=
| cluster_init t : clusterReach (mkCluster (mkRedis ∅ ∅ t) ∅)
| cluster_next o cl cl' : clusterReach cl -> okClusterOp o -> clusterStep o cl = Some cl' -> clusterReach cl'.

Lemma repInv_redis r R d d' : repInv r R d ->
  (forall c n n', noColon c -> HGetAll (svcKey n') d' !! pidOf r c n = HGetAll (svcKey n') d !! pidOf r c n) -> repInv r R d'.
Proof. intros [H1 H2 H3 H4 H5 H6 H7 H8 H9 H10] E. split; try done; intros; rewrite E by done; auto. Qed.

Lemma same_redis cl d' : clusterInv cl -> sameHashes (red cl) d' -> clusterInv (mkCluster d' (reps cl)).
Proof.
  intros [H1 H2] E. split; cbn.
  - intros r R Hr. eapply repInv_redis; [by apply H1|]. intros. by rewrite E.
  - intros n pid b. rewrite E. apply H2.
Qed.

(** A step of one replica that does not write to Redis. *)
Lemma local_step cl r R R' : clusterInv cl -> reps cl !! r = Some R -> (repInv r R (red cl) -> repInv r R' (red cl)) ->
  clusterInv (withReplica r R' cl).
Proof.
  intros [H1 H2] Hr Hs. split; cbn.
  - intros r' Q Hq. destruct (decide (r' = r)) as [->|Hn].
    + rewrite lookup_insert_eq in Hq. injection Hq as <-. auto.
    + rewrite lookup_insert_ne in Hq by done. auto.
  - intros n pid b Hb. destruct (H2 n pid b Hb) as (r' & Q & c & rec & Hq & ?). destruct (decide (r' = r)) as [->|Hn].
    + exists r, R', c, rec. by rewrite lookup_insert_eq.
    + exists r', Q, c, rec. by rewrite lookup_insert_ne.
Qed.

(** ** Local steps *)

Lemma repInv_put r R d c n rec m ops s : repInv r R d -> busy R = [] -> noColon c -> pr_Owner rec = r ->
  (pr_Mode rec = go "direct" \/ pr_Mode rec = go "deliver") ->
  putLocal c n rec m (store R) = (ops, s) ->
  repInv r (begin ops s (<[providerID (store R) c n := (n, rec)]> (want R)) ({[providerID (store R) c n]} ∪ touched R) R) d.
Proof.
  intros [[H1 H1'] H2 H3 H4 H5 H6 H7 H8 H9 H10] Hb Hc Ho Hm E. unfold putLocal, enqueueLocked in E. cbv zeta in E.
  assert (Ep : providerID (store R) c n = pidOf r c n) by (unfold providerID; by rewrite H1). rewrite Ep in *.
  injection E as <- <-. set (pid := pidOf r c n) in *.
  split; cbn [begin store busy want touched base replicaID owned muxes pending setPending].
  - done.
  - intros p n' rec' Hw. destruct (decide (p = pid)) as [->|Hn].
    + rewrite lookup_insert_eq in Hw. simplify_eq. split_and!; [done..|set_solver|].
      * exists c. eexists. split; [done|]. split; [done|]. rewrite lookup_insert_eq. split; [done|]. by rewrite lookup_insert_eq.
    + rewrite lookup_insert_ne in Hw by done. destruct (H2 _ _ _ Hw) as ([Hr1 Hr2] & Ht & (c' & m' & Hc' & Hp & Hm1 & Hm2)). split_and!; [done..|set_solver|].
      * exists c'. destruct (decide (c' = c)) as [->|Hcc].
        -- eexists. split; [done|]. split; [done|]. rewrite lookup_insert_eq, Hm1. split; [done|]. cbn. by rewrite lookup_insert_ne.
        -- exists m'. by rewrite lookup_insert_ne.
  - intros c' m' p n' Hm1 Hm2. destruct (decide (c' = c)) as [->|Hcc].
    + rewrite lookup_insert_eq in Hm1. injection Hm1 as <-. destruct (decide (p = pid)) as [->|Hn].
      * rewrite lookup_insert_eq in Hm2. simplify_eq. split; [done|]. split; [done|]. rewrite lookup_insert_eq. eauto.
      * rewrite lookup_insert_ne in Hm2 by done. destruct (owned (store R) !! c) as [mo|] eqn:Eo; [|cbn in Hm2; by rewrite lookup_empty in Hm2].
        destruct (H3 _ _ _ _ Eo Hm2) as (? & ? & rec' & ?). split; [done|]. split; [done|]. exists rec'. by rewrite lookup_insert_ne.
    + rewrite lookup_insert_ne in Hm1 by done. destruct (H3 _ _ _ _ Hm1 Hm2) as (Hc' & Hp & rec' & ?). split; [done|]. split; [done|].
      exists rec'. rewrite lookup_insert_ne; [done|]. intros Hx. unfold pid in Hx. rewrite Hp in Hx. by apply pidOf_inj in Hx as (_ & ? & _).
  - intros p op Hop. destruct (decide (p = pid)) as [->|Hn].
    + rewrite lookup_insert_eq in Hop. injection Hop as <-. cbn. split_and!; [by exists c|by rewrite lookup_insert_eq|set_solver].
    + rewrite lookup_insert_ne in Hop by done. destruct (H4 _ _ Hop) as (? & ? & ?). split_and!; [done|by rewrite lookup_insert_ne|set_solver].
  - intros p op [= -> ->]%list_elem_of_singleton. by rewrite lookup_insert_eq.
  - apply NoDup_singleton.
  - intros p Hp. destruct (decide (p = pid)) as [->|Hn]; [by rewrite lookup_insert_eq|]. rewrite lookup_insert_ne by done.
    apply H7. destruct m; [by rewrite lookup_insert_ne in Hp|done].
  - intros c' n' Hc' Hp. destruct (decide (pidOf r c' n' = pid)) as [Hx|Hn]; [by rewrite Hx, lookup_insert_eq in Hp|].
    rewrite lookup_insert_ne in Hp by done. rewrite H8 by done. unfold shared, begin. cbn [want touched base].
    rewrite lookup_insert_ne by done. rewrite (bool_decide_ext (_ ∈ {[pid]} ∪ touched R) (pidOf r c' n' ∈ touched R)) by set_solver. done.
  - done.
  - done.
Qed.

Lemma removeOne_fold pids ops0 s0 : NoDup (map fst pids) ->
  let '(ops, s) := fold_left removeOne pids (ops0, s0) in
  replicaID s = replicaID s0 /\ owned s = owned s0 /\
  exists new, ops = ops0 ++ new /\ map fst new = map fst pids /\
    (forall pid op, (pid, op) ∈ new -> pending s !! pid = Some op /\ op_blob op = None /\ (pid, op_name op) ∈ pids) /\
    (forall pid, pid ∉ map fst pids -> pending s !! pid = pending s0 !! pid /\ muxes s !! pid = muxes s0 !! pid) /\
    (forall pid, pid ∈ map fst pids -> muxes s !! pid = None).
Proof.
  revert ops0 s0. induction pids as [|[pid n] pids IH]; intros ops0 s0 Hnd; cbn [fold_left].
  - split; [done|]. split; [done|]. exists []. rewrite app_nil_r. split_and!; try done; by intros ? ? ?%not_elem_of_nil || by intros ? ?%not_elem_of_nil.
  - cbn [map fst] in Hnd. apply NoDup_cons in Hnd as [Hni Hnd].
    set (acc := removeOne (ops0, s0) (pid, n)). destruct acc as [ops1 s1] eqn:Ea. specialize (IH ops1 s1 Hnd).
    destruct (fold_left removeOne pids (ops1, s1)) as [ops s]. destruct IH as (I1 & I2 & new & -> & I4 & I5 & I6 & I7).
    unfold acc, removeOne, enqueueLocked in Ea. cbv zeta in Ea. injection Ea as <- <-.
    destruct (I6 pid Hni) as [P1 P2]. cbn [pending muxes setPending] in P1, P2. rewrite lookup_insert_eq in P1. rewrite lookup_delete_eq in P2.
    split; [done|]. split; [done|]. eexists (_ :: new). split; [by rewrite <- app_assoc|]. split; [cbn; by rewrite I4|]. split_and!.
    + intros p op [[= -> ->]|Hin]%elem_of_cons; [split; [done|]; split; [done|by left]|].
      destruct (I5 p op Hin) as (? & ? & ?). split; [done|]. split; [done|]. by right.
    + intros p [Hp Hq]%not_elem_of_cons. destruct (I6 p Hq) as [-> ->]. cbn. by rewrite lookup_insert_ne, lookup_delete_ne.
    + intros p [->|Hp]%elem_of_cons; [done|auto].
Qed.

Lemma filter_keep (gone : gmap bytes bytes) (w : gmap bytes (bytes * providerRecord)) p : gone !! p = None ->
  filter (fun pw : bytes * (bytes * providerRecord) => gone !! pw.1 = None) w !! p = w !! p.
Proof.
  intros Hg. destruct (w !! p) as [x|] eqn:E; [by apply map_lookup_filter_Some|]. apply map_lookup_filter_None. by left.
Qed.

Lemma repInv_remove r R d c ops s : repInv r R d -> busy R = [] -> removeLocal c (store R) = (ops, s) ->
  let gone := default ∅ (owned (store R) !! c) in
  repInv r (begin ops s (filter (fun pw : bytes * (bytes * providerRecord) => gone !! pw.1 = None) (want R)) (touched R) R) d.
Proof.
  intros [[H1 H1'] H2 H3 H4 H5 H6 H7 H8 H9 H10] Hb E gone. unfold removeLocal in E. fold gone in E.
  assert (Hg : forall p n, gone !! p = Some n -> noColon c /\ p = pidOf r c n).
  { intros p n Hp. unfold gone in Hp. destruct (owned (store R) !! c) as [m|] eqn:Eo; cbn in Hp; [|by rewrite lookup_empty in Hp].
    by destruct (H3 _ _ _ _ Eo Hp) as (? & ? & _). }
  pose proof (removeOne_fold (map_to_list gone) []
    (mkStore (replicaID (store R)) (forwardAddr (store R)) (delete c (owned (store R))) (muxes (store R)) (rrOf (store R))
       (pending (store R)) (seqNo (store R)) (beatErr (store R)) (peerKey (store R))) (NoDup_fst_map_to_list gone)) as Hf.
  rewrite E in Hf. cbn [replicaID owned pending muxes app] in Hf. destruct Hf as (F1 & F2 & new & -> & F4 & F5 & F6 & F7).
  assert (Hin : forall p, p ∈ map fst (map_to_list gone) <-> is_Some (gone !! p)).
  { intros p. rewrite list_elem_of_fmap. split.
    - intros ([p' n] & -> & Hp%elem_of_map_to_list). by exists n.
    - intros [n Hn]. exists (p, n). split; [done|]. by apply elem_of_map_to_list. }
  assert (Hout : forall p, gone !! p = None -> pending s !! p = pending (store R) !! p /\ muxes s !! p = muxes (store R) !! p).
  { intros p Hp. apply F6. rewrite Hin, Hp. by intros [? ?]. }
  assert (Hnew : forall p, is_Some (gone !! p) -> exists op, pending s !! p = Some op /\ op_blob op = None /\ gone !! p = Some (op_name op)).
  { intros p Hp. apply Hin in Hp. rewrite <- F4 in Hp. apply list_elem_of_fmap in Hp as ([p' op] & -> & Hp).
    exists op. destruct (F5 _ _ Hp) as (? & ? & Hm). split; [done|]. split; [done|]. by apply elem_of_map_to_list. }
  assert (Htg : forall p n, gone !! p = Some n -> p ∈ touched R).
  { intros p n Hp. unfold gone in Hp. destruct (owned (store R) !! c) as [m|] eqn:Eo; cbn in Hp; [|by rewrite lookup_empty in Hp].
    destruct (H3 _ _ _ _ Eo Hp) as (_ & _ & rec & Hw). by apply (H2 _ _ _ Hw). }
  split; cbn [begin store busy want touched base]; rewrite ?F1, ?F2; try done.
  - intros p n rec [Hw Hgn]%map_lookup_filter_Some. destruct (H2 _ _ _ Hw) as (Hr & Ht & (c' & m & Hc' & Hp & Hm1 & Hm2)).
    cbn in Hgn. split_and!; [done..|].
    + exists c', m. rewrite lookup_delete_ne; [done|]. intros <-. unfold gone in Hgn. rewrite Hm1 in Hgn. cbn in Hgn. congruence.
  - intros c' m p n [Hcc Hm1]%lookup_delete_Some Hm2. destruct (H3 _ _ _ _ Hm1 Hm2) as (Hc' & Hp & rec & Hw).
    split; [done|]. split; [done|]. exists rec. apply map_lookup_filter_Some. split; [done|]. cbn.
    destruct (gone !! p) as [n'|] eqn:Eg; [|done]. destruct (Hg _ _ Eg) as [Hc Hp']. rewrite Hp in Hp'.
    by apply pidOf_inj in Hp' as (_ & ? & _).
  - intros p op Hop. destruct (gone !! p) as [n|] eqn:Eg.
    + destruct (Hnew p) as (op' & Hop' & Hb' & Hn'); [by rewrite Eg|]. rewrite Hop in Hop'. simplify_eq.
      destruct (Hg _ _ Eg) as [Hc Hp]. split_and!; [by exists c| |by eapply Htg]. rewrite Hb'.
      destruct (filter _ (want R) !! p) as [w|] eqn:Ew; [|done]. apply map_lookup_filter_Some in Ew as [_ Hx]. cbn in Hx. congruence.
    + destruct (Hout p Eg) as [Hp _]. rewrite Hp in Hop. destruct (H4 _ _ Hop) as (? & Hbl & ?). split_and!; [done| |done]. rewrite Hbl.
      by rewrite (filter_keep gone _ _ Eg).
  - intros p op Hp. by destruct (F5 _ _ Hp).
  - rewrite F4. apply NoDup_fst_map_to_list.
  - intros p [m Hm]. destruct (gone !! p) as [n|] eqn:Eg.
    + rewrite F7 in Hm; [done|]. apply Hin. by rewrite Eg.
    + destruct (Hout p Eg) as [_ Hmx]. rewrite Hmx in Hm. destruct (H7 p) as [w Hw]; [by eexists|]. exists w.
      by apply map_lookup_filter_Some.
  - intros c' n Hc' Hp. destruct (gone !! pidOf r c' n) as [n'|] eqn:Eg.
    + destruct (Hnew (pidOf r c' n)) as (op & Hop & _); [by rewrite Eg|]. congruence.
    + destruct (Hout _ Eg) as [Hpe _]. rewrite Hpe in Hp. rewrite H8 by done. unfold shared, begin. cbn [want touched base].
      by rewrite (filter_keep gone _ _ Eg).
Qed.

(** ** Writes *)

Lemma apply_redis pid op e d s d' s' k g : applyOpLocked pid op e d s = (d', s') ->
  HGetAll k d' !! g =
  if effective e && bool_decide (k = svcKey (op_name op) /\ pid = g) then Some <$> op_blob op else HGetAll k d !! g.
Proof.
  unfold applyOpLocked. intros [= <- _]. destruct (effective e); [|done]. cbn [andb].
  destruct (op_blob op); [rewrite HGetAll_HSet|rewrite HGetAll_HDel]; by case_bool_decide.
Qed.

Lemma apply_store pid op e d s d' s' : applyOpLocked pid op e d s = (d', s') -> pending s !! pid = Some op ->
  s' = setPending (if succeeded e then delete pid (pending s) else pending s) (seqNo s) s.
Proof.
  unfold applyOpLocked. intros [= _ <-] Hp. rewrite Hp, Z.eqb_refl. destruct (succeeded e); [done|]. by destruct s.
Qed.

Lemma repInv_apply r R d pid op rest e d' s' : repInv r R d -> busy R = (pid, op) :: rest ->
  applyOpLocked pid op e d (store R) = (d', s') -> repInv r (mkReplica s' rest true (want R) (touched R) (base R)) d'.
Proof.
  intros [[H1 H1'] H2 H3 H4 H5 H6 H7 H8 H9 H10] Hb E. pose proof (fun k g => apply_redis _ _ _ _ _ _ _ k g E) as Hd.
  assert (Hop : pending (store R) !! pid = Some op) by (apply H5; rewrite Hb; by left).
  apply apply_store in E; [|done]. destruct (H4 _ _ Hop) as ((c0 & Hc0 & Hp0) & Hbl & Ht). rewrite Hb in H6. cbn in H6.
  apply NoDup_cons in H6 as [Hni Hnd].
  assert (Hpe : forall p, p <> pid -> pending s' !! p = pending (store R) !! p).
  { intros p Hp. rewrite E. cbn. destruct (succeeded e); [by rewrite lookup_delete_ne|done]. }
  assert (Hpi : pending s' !! pid = if succeeded e then None else Some op).
  { rewrite E. cbn. destruct (succeeded e); [by rewrite lookup_delete_eq|done]. }
  assert (Hs : replicaID s' = r /\ owned s' = owned (store R) /\ muxes s' = muxes (store R)) by (by rewrite E).
  destruct Hs as (S1 & S2 & S3). split; cbn [store busy want touched]; rewrite ?S2, ?S3; try done.
  - intros p op' Hp. apply H4. destruct (decide (p = pid)) as [->|Hn]; [|by rewrite <- Hpe].
    rewrite Hpi in Hp. destruct (succeeded e); [done|]. by simplify_eq.
  - intros p op' Hp. rewrite Hpe; [apply H5; rewrite Hb; by right|]. intros ->. apply Hni, list_elem_of_fmap. by exists (pid, op').
  - intros c n Hc Hp. rewrite Hd. destruct (decide (pidOf r c n = pid)) as [Hx|Hn].
    + rewrite Hx in *. rewrite Hpi in Hp. destruct e; try done. cbn. rewrite Hp0 in Hx.
      apply pidOf_inj in Hx as (_ & _ & ->); [|done..]. unfold shared. cbn [touched want]. rewrite !bool_decide_true by done. rewrite Hbl. by destruct (want R !! pid).
    + rewrite bool_decide_false by naive_solver. rewrite andb_false_r. rewrite Hpe in Hp by done. auto.
  - intros c n n' Hc Hn. rewrite Hd. rewrite bool_decide_false; [rewrite andb_false_r; auto|].
    intros [->%svcKey_inj Hx]. rewrite Hp0 in Hx. by apply pidOf_inj in Hx as (_ & _ & ?).
Qed.

Lemma clusterInv_apply cl r R pid op rest e d s : clusterInv cl -> reps cl !! r = Some R -> busy R = (pid, op) :: rest ->
  applyOpLocked pid op e (red cl) (store R) = (d, s) ->
  clusterInv (mkCluster d (<[r := mkReplica s rest true (want R) (touched R) (base R)]> (reps cl))).
Proof.
  intros [H1 H2] Hr Hb E. pose proof (H1 r R Hr) as Ri. pose proof (fun k g => apply_redis _ _ _ _ _ _ _ k g E) as Hd.
  assert (Hop : pending (store R) !! pid = Some op) by (apply (ri_busy _ _ _ Ri); rewrite Hb; by left).
  destruct (ri_pend _ _ _ Ri _ _ Hop) as ((c0 & Hc0 & Hp0) & Hbl & _). pose proof (ri_id _ _ _ Ri) as [_ Hrc]. split; cbn.
  - intros r' Q Hq. destruct (decide (r' = r)) as [->|Hn].
    + rewrite lookup_insert_eq in Hq. injection Hq as <-. by eapply repInv_apply.
    + rewrite lookup_insert_ne in Hq by done. eapply repInv_redis; [by apply H1|]. intros c n n' Hc. rewrite Hd.
      rewrite bool_decide_false; [by rewrite andb_false_r|]. intros [_ Hx]. rewrite Hp0 in Hx.
      apply pidOf_inj in Hx as (-> & _); [done|done| |done|done]. by apply (ri_id _ _ _ (H1 _ _ Hq)).
  - intros n p b. rewrite Hd. destruct (effective e && bool_decide _) eqn:Ed.
    + apply andb_true_iff in Ed as [_ Ed%bool_decide_eq_true]. destruct Ed as [->%svcKey_inj <-].
      rewrite Hbl. destruct (want R !! pid) as [[nw rec]|] eqn:Ew; [|done]. intros [= <-].
      destruct (ri_want _ _ _ Ri _ _ _ Ew) as ([Ho _] & _). exists r. eexists. exists c0, rec. rewrite lookup_insert_eq. by split_and!.
    + intros Hp. destruct (H2 n p b Hp) as (r' & Q & c & rec & Hq & ?). destruct (decide (r' = r)) as [->|Hn].
      * exists r. eexists. exists c, rec. by rewrite lookup_insert_eq.
      * exists r', Q, c, rec. by rewrite lookup_insert_ne.
Qed.

Lemma beat_hashes e d s : sameHashes d (beat e d s).
Proof. intros k. unfold beat. destruct (effective e); [|done]. by case_bool_decide. Qed.
Lemma beatBounded_hashes es d s : sameHashes d (snd (beatBounded es d s)).
Proof.
  revert d. induction es as [|e es IH]; intros d k; [done|]. cbn. destruct (succeeded e); [apply beat_hashes|].
  rewrite IH. apply beat_hashes.
Qed.

Lemma repInv_same r R R' d : repInv r R d -> store R' = store R -> busy R' = busy R -> want R' = want R -> touched R' = touched R ->
  base R' = base R -> repInv r R' d.
Proof. intros [H1 H2 H3 H4 H5 H6 H7 H8 H9 H10] E1 E2 E3 E4 E5. split; unfold shared; rewrite ?E1, ?E2, ?E3, ?E4, ?E5; done. Qed.

(** Starting, under a new name or again under a former one. *)
Lemma clusterInv_join cl id fwd : clusterInv cl -> noColon id ->
  clusterInv (mkCluster (beat Applied (red cl) (newRedisStore id fwd))
    (<[id := mkReplica (newRedisStore id fwd) [] true ∅ ∅ (hashes (red cl))]> (reps cl))).
Proof.
  intros HI Ho. pose proof (beat_hashes Applied (red cl) (newRedisStore id fwd)) as Hd. set (d := beat Applied (red cl) _) in *. clearbody d.
  pose proof (same_redis cl d HI Hd) as HI'. pose proof HI as [_ H2].
  assert (Helse : forall c n n', noColon c -> n' <> n -> HGetAll (svcKey n') (red cl) !! pidOf id c n = None).
  { intros c n n' Hc Hn. destruct (HGetAll (svcKey n') (red cl) !! pidOf id c n) as [b|] eqn:Eb; [|done].
    destruct (H2 _ _ _ Eb) as (r & R & c' & rec & Hr & Hrc & Hc' & Hx & _). apply pidOf_inj in Hx as (_ & _ & ?); [congruence|done..]. }
  split; cbn.
  - intros r R Hr. destruct (decide (r = id)) as [->|Hn]; [|rewrite lookup_insert_ne in Hr by done; by apply (cl_rep _ HI')].
    rewrite lookup_insert_eq in Hr. injection Hr as <-. split; cbn; try done; try (by intros ? ? ? ?%lookup_empty_Some).
    + intros ? ? ?%not_elem_of_nil. done.
    + constructor.
    + by intros ? [? ?%lookup_empty_Some].
    + intros c n Hc _. by rewrite Hd.
    + intros c n n' Hc Hn. rewrite Hd. by apply Helse.
    + intros n p b Hb. destruct (H2 n p b Hb) as (r & R & c & rec & _ & ?). by exists r, c, rec.
  - intros n p b Hb. destruct (cl_only _ HI' n p b Hb) as (r & R & c & rec & Hr & ?). cbn in Hr. destruct (decide (r = id)) as [->|Hn].
    + exists id. eexists. exists c, rec. by rewrite lookup_insert_eq.
    + exists r, R, c, rec. by rewrite lookup_insert_ne.
Qed.

Lemma clusterInv_step o cl cl' : clusterInv cl -> okClusterOp o -> clusterStep o cl = Some cl' -> clusterInv cl'.
Proof.
  intros HI Ho E. pose proof HI as [H1 H2].
  assert (Hrun : forall r R, match reps cl !! r with Some R => if up R then Some R else None | None => None end = Some R -> reps cl !! r = Some R).
  { intros r R. destruct (reps cl !! r) as [Q|]; [|done]. by destruct (up Q). }
  assert (Hidle : forall r R, match match reps cl !! r with Some R => if up R then Some R else None | None => None end with
      Some R => if bool_decide (busy R = []) then Some R else None | None => None end = Some R -> reps cl !! r = Some R /\ busy R = []).
  { intros r R. destruct (match reps cl !! r with Some R => if up R then Some R else None | None => None end) as [Q|] eqn:Er; [|done].
    case_bool_decide; [|done]. intros [= ->]. auto. }
  destruct o as [id fwd|r|r c n addr pr|r c n m|r c|r pid|r e|r es|dt]; cbn [clusterStep] in E.
  - destruct (match reps cl !! id with Some R => if up R then Some R else None | None => None end); [done|]. injection E as <-.
    by apply clusterInv_join.
  - destruct (match reps cl !! r with Some R => if up R then Some R else None | None => None end) as [R|] eqn:Er; [|done].
    injection E as <-. eapply local_step; [done|by apply Hrun|]. intros Ri. by eapply repInv_same.
  - match type of E with match ?x with _ => _ end = _ => destruct x as [R|] eqn:Er end; [|done]. injection E as <-.
    destruct (Hidle _ _ Er) as [Hr Hb]. unfold putStep. destruct (putLocal _ _ _ _ _) as [ops s] eqn:Ep.
    eapply local_step; [done|exact Hr|]. intros Ri. eapply repInv_put; [done..| |by left|exact Ep]. by apply (ri_id _ _ _ Ri).
  - match type of E with match ?x with _ => _ end = _ => destruct x as [R|] eqn:Er end; [|done]. injection E as <-.
    destruct (Hidle _ _ Er) as [Hr Hb]. unfold putStep. destruct (putLocal _ _ _ _ _) as [ops s] eqn:Ep.
    eapply local_step; [done|exact Hr|]. intros Ri. eapply repInv_put; [done..| |by right|exact Ep]. by apply (ri_id _ _ _ Ri).
  - match type of E with match ?x with _ => _ end = _ => destruct x as [R|] eqn:Er end; [|done].
    destruct (Hidle _ _ Er) as [Hr Hb]. destruct (removeLocal c (store R)) as [ops s] eqn:Ep. injection E as <-.
    eapply local_step; [done|exact Hr|]. intros Ri. by eapply repInv_remove.
  - match type of E with match ?x with _ => _ end = _ => destruct x as [R|] eqn:Er end; [|done]. injection E as <-.
    destruct (Hidle _ _ Er) as [Hr Hb]. eapply local_step; [done|exact Hr|]. intros [K1 K2 K3 K4 K5 K6 K7 K8 K9 K10].
    split; cbn; try done; unfold reconcileLocal; destruct (pending (store R) !! pid) eqn:Ep.
    + intros pid' op' [= -> ->]%list_elem_of_singleton. done.
    + by intros ? ? ?%not_elem_of_nil.
    + apply NoDup_singleton.
    + constructor.
  - match type of E with match ?x with _ => _ end = _ => destruct x as [R|] eqn:Er end; [|done].
    destruct (busy R) as [|[pid op] rest] eqn:Eb; [done|]. destruct (applyOpLocked _ _ _ _ _) as [d s] eqn:Ea. injection E as <-.
    eapply clusterInv_apply; [done|by apply Hrun|exact Eb|exact Ea].
  - match type of E with match ?x with _ => _ end = _ => destruct x as [R|] eqn:Er end; [|done].
    pose proof (beatBounded_hashes es (red cl) (store R)) as Hh. destruct (beatBounded es (red cl) (store R)) as [err d]. injection E as <-.
    pose proof (same_redis cl d HI Hh) as HI'. apply (local_step (mkCluster d (reps cl)) r R); [done|by apply Hrun|].
    intros [K1 K2 K3 K4 K5 K6 K7 K8 K9 K10]. by split.
  - destruct (dt <? 0); [done|]. injection E as <-. apply same_redis; [done|]. by intros k.
Qed.

Lemma clusterReach_inv cl : clusterReach cl -> clusterInv cl.
Proof.
  induction 1 as [t|o cl cl' _ IH Ho E]; [|by eapply clusterInv_step]. split; cbn.
  - intros r R ?%lookup_empty_Some. done.
  - intros n p b. unfold HGetAll. cbn. rewrite lookup_empty. cbn. by rewrite lookup_empty.
Qed.

(** ** Health and convergence *)

(** A record of a former run of [r], of a provider this run did not register. *)
Definition leftBehind (r : bytes) (R : replica) (n pid : bytes) (rec : providerRecord) : Prop :=
  (pid ∉ touched R) /\ default ∅ (base R !! svcKey n) !! pid = Some (Some rec) /\ pr_Owner rec = r.

(** What peers see of [r]: the records Redis holds under its name are the providers registered and not withdrawn,
    and what former runs left. *)
Definition shownExactly (r : bytes) (R : replica) (d : redis) : Prop :=
  forall n pid rec, (HGetAll (svcKey n) d !! pid = Some (Some rec) /\ pr_Owner rec = r) <->
    want R !! pid = Some (n, rec) \/ leftBehind r R n pid rec.

Lemma settled_shared cl r R : clusterInv cl -> reps cl !! r = Some R -> pending (store R) = ∅ -> shownExactly r R (red cl).
Proof.
  intros HI Hr Hp n pid rec. pose proof (cl_rep _ HI r R Hr) as Ri. pose proof (ri_id _ _ _ Ri) as [_ Hrc].
  assert (Hsync : forall c n, noColon c -> HGetAll (svcKey n) (red cl) !! pidOf r c n = shared R n (pidOf r c n)).
  { intros c n' Hc. apply (ri_sync _ _ _ Ri); [done|]. by rewrite Hp, lookup_empty. }
  split.
  - intros [Hh Ho]. destruct (cl_only _ HI _ _ _ Hh) as (r' & R' & c & rec' & Hr' & Hrc' & Hc & -> & Hb & Ho'). simplify_eq.
    rewrite Hsync in Hh by done. unfold shared in Hh. case_bool_decide as Ht; [left|by right].
    apply fmap_Some in Hh as ([n' rec] & Hw & [= ->]).
    destruct (ri_want _ _ _ Ri _ _ _ Hw) as (_ & _ & c' & m & Hc' & Hx & _). by apply pidOf_inj in Hx as (_ & _ & ->).
  - intros [Hw|(Ht & Hb & Ho)].
    + destruct (ri_want _ _ _ Ri _ _ _ Hw) as ([Ho _] & Ht & c & m & Hc & -> & _). split; [|done].
      rewrite Hsync by done. unfold shared. by rewrite bool_decide_true, Hw.
    + destruct (ri_base _ _ _ Ri _ _ _ Hb) as (r' & c & rec' & Hrc' & Hc & -> & [= <-] & Ho'). simplify_eq. split; [|done].
      rewrite Hsync by done. unfold shared. by rewrite bool_decide_false.
Qed.

(** The first run under a name leaves nothing behind it has not registered. *)
Lemma first_run_none cl id fwd cl' R : clusterInv cl -> noColon id -> reps cl !! id = None ->
  clusterStep (CJoin id fwd) cl = Some cl' -> reps cl' !! id = Some R -> forall n pid rec, ~ leftBehind id R n pid rec.
Proof.
  intros HI Hid Hno E Hr n pid rec (_ & Hb & Ho). cbn [clusterStep] in E. rewrite Hno in E. injection E as <-. cbn in Hr.
  rewrite lookup_insert_eq in Hr. injection Hr as <-. cbn [base] in Hb.
  destruct (cl_only _ HI n pid _ Hb) as (r' & R' & c & rec' & Hr' & _ & _ & _ & [= <-] & Ho'). congruence.
Qed.

(** C36. A healthy store's replica is shown to its peers exactly as it is: in any state,
    through lost and refused replies, crashes, and restarts under a former name, when a replica's
    [StoreHealth] reports no problem, the records Redis holds of it are exactly the
    providers its connections registered and did not withdraw, and those that a former run under the same name left and
    this one did not register ([restart_revives] shows one; a replica under a new name has none, [first_run_none]). *)
Theorem hub_health_truthful cl r R :
  clusterReach cl -> reps cl !! r = Some R -> StoreHealth (store R) = true -> shownExactly r R (red cl).
Proof.
  intros Hc Hr Hh. apply settled_shared; [by apply clusterReach_inv|done|].
  unfold StoreHealth in Hh. apply andb_true_iff in Hh as [_ Hh]. by apply bool_decide_eq_true in Hh.
Qed.

Fixpoint runCluster (ops : list clusterOp) (cl : cluster) : option cluster :=
  match ops with [] => Some cl | o :: ops => clusterStep o cl ≫= runCluster ops end.

(** The loop of [reconcile] when Redis answers: the operations in order. *)
Definition reconcileOps (r : bytes) (pids : list bytes) : list clusterOp :=
  concat (map (fun pid => [CReconcile r pid; CApply r Applied]) pids).

(** [reconcile]: the pending operations, of which [k] come before the deadline. *)
Definition pendingIds (s : RedisStore) : list bytes := sortStrings (map fst (map_to_list (pending s))).
Definition reconcile (r : bytes) (k : nat) (cl : cluster) : option cluster :=
  R ← reps cl !! r; runCluster (reconcileOps r (take k (pendingIds (store R)))) cl.

(** One pass per heartbeat. *)
Fixpoint reconcileTicks (r : bytes) (ks : list nat) (cl : cluster) : option cluster :=
  match ks with [] => Some cl | k :: ks => reconcile r k cl ≫= reconcileTicks r ks end.

(** The history of a run is kept. *)
Definition sameRun (R R' : replica) : Prop := want R' = want R /\ touched R' = touched R /\ base R' = base R.
Lemma sameRun_trans R1 R2 R3 : sameRun R1 R2 -> sameRun R2 R3 -> sameRun R1 R3.
Proof. intros (? & ? & ?) (? & ? & ?). split_and!; congruence. Qed.
Lemma sameRun_shown R R' r d : sameRun R R' -> shownExactly r R' d -> shownExactly r R d.
Proof. intros (E1 & E2 & E3) H n pid rec. specialize (H n pid rec). unfold leftBehind in *. by rewrite E1, E2, E3 in H. Qed.

Lemma reconcile_one cl r R pid op : reps cl !! r = Some R -> up R = true -> busy R = [] -> pending (store R) !! pid = Some op ->
  exists cl' R', runCluster [CReconcile r pid; CApply r Applied] cl = Some cl' /\ reps cl' !! r = Some R' /\
    up R' = true /\ busy R' = [] /\ pending (store R') = delete pid (pending (store R)) /\ sameRun R R'.
Proof.
  intros Hr Hu Hb Hp. cbn [runCluster clusterStep]. rewrite Hr, Hu, bool_decide_true by done. cbn [mbind option_bind].
  unfold withReplica, begin, reconcileLocal. rewrite Hp. cbn [reps red]. rewrite lookup_insert_eq. cbn [up busy].
  unfold applyOpLocked. cbn [effective succeeded store]. rewrite Hp, Z.eqb_refl. cbn [mbind option_bind].
  eexists _, _. split; [done|]. cbn [reps]. rewrite lookup_insert_eq. by split_and!.
Qed.

Lemma runCluster_app ops ops' cl : runCluster (ops ++ ops') cl = runCluster ops cl ≫= runCluster ops'.
Proof. revert cl. induction ops as [|o ops IH]; intros cl; [done|]. cbn. destruct (clusterStep o cl); [apply IH|done]. Qed.

Lemma reconcile_all pids cl r R : NoDup pids -> reps cl !! r = Some R -> up R = true -> busy R = [] ->
  (forall p, p ∈ pids -> is_Some (pending (store R) !! p)) ->
  exists cl' R', runCluster (reconcileOps r pids) cl = Some cl' /\ reps cl' !! r = Some R' /\ up R' = true /\ busy R' = [] /\
    sameRun R R' /\ (forall p, pending (store R') !! p = if bool_decide (p ∈ pids) then None else pending (store R) !! p).
Proof.
  revert cl R. induction pids as [|pid pids IH]; intros cl R Hnd Hr Hu Hb Hp.
  { by exists cl, R. }
  apply NoDup_cons in Hnd as [Hni Hnd]. destruct (Hp pid) as [op Hop]; [by left|].
  destruct (reconcile_one cl r R pid op Hr Hu Hb Hop) as (cl1 & R1 & E1 & Hr1 & Hu1 & Hb1 & Hp1 & Hw1).
  destruct (IH cl1 R1 Hnd Hr1 Hu1 Hb1) as (cl2 & R2 & E2 & Hr2 & Hu2 & Hb2 & Hw2 & Hp2).
  { intros p Hin. rewrite Hp1, lookup_delete_ne by (intros ->; done). apply Hp. by right. }
  exists cl2, R2. split_and!; try done; [| |].
  - unfold reconcileOps. cbn [map concat]. rewrite runCluster_app, E1. exact E2.
  - by eapply sameRun_trans.
  - intros p. rewrite Hp2, Hp1. destruct (decide (p = pid)) as [->|Hn].
    + by rewrite bool_decide_false, lookup_delete_eq, bool_decide_true by (done || by left).
    + rewrite lookup_delete_ne by done. by rewrite (bool_decide_ext (p ∈ pid :: pids) (p ∈ pids)) by (rewrite elem_of_cons; naive_solver).
Qed.

Lemma runCluster_reach ops cl cl' : Forall okClusterOp ops -> runCluster ops cl = Some cl' -> clusterReach cl -> clusterReach cl'.
Proof.
  revert cl. induction ops as [|o ops IH]; intros cl Hok E Hr; cbn in E; [by simplify_eq|].
  apply Forall_cons_1 in Hok as [Ho Hok]. destruct (clusterStep o cl) as [cl1|] eqn:Es; [|done]. eapply IH; [done|exact E|].
  by econstructor.
Qed.

Lemma elem_of_pendingIds s p : p ∈ pendingIds s <-> is_Some (pending s !! p).
Proof.
  unfold pendingIds. rewrite elem_of_sortStrings, list_elem_of_fmap. split.
  - intros ([p' op] & -> & Hp%elem_of_map_to_list). by eexists.
  - intros [op Hop]. exists (p, op). split; [done|]. by apply elem_of_map_to_list.
Qed.

Lemma pendingIds_perm s : pendingIds s ≡ₚ elements (dom (pending s)).
Proof.
  apply NoDup_Permutation; [|apply NoDup_elements|].
  - unfold pendingIds, sortStrings. rewrite (merge_sort_Permutation bytes_le _). apply NoDup_fst_map_to_list.
  - intros p. rewrite elem_of_pendingIds, elem_of_elements. symmetry. apply elem_of_dom.
Qed.

Lemma NoDup_pendingIds s : NoDup (pendingIds s).
Proof. rewrite pendingIds_perm. apply NoDup_elements. Qed.

Lemma length_pendingIds s : length (pendingIds s) = size (pending s).
Proof. rewrite (Permutation_length (pendingIds_perm s)). by rewrite <- size_dom. Qed.

(** A pass cut off after [k] writes leaves the rest. *)
Lemma reconcile_pass k cl r R : reps cl !! r = Some R -> up R = true -> busy R = [] ->
  exists cl' R', reconcile r k cl = Some cl' /\ reps cl' !! r = Some R' /\ up R' = true /\ busy R' = [] /\ sameRun R R' /\
    size (pending (store R')) = (size (pending (store R)) - k)%nat.
Proof.
  intros Hr Hu Hb. unfold reconcile. rewrite Hr. cbn [mbind option_bind]. set (pids := pendingIds (store R)).
  pose proof (NoDup_pendingIds (store R)) as Hnd. fold pids in Hnd. rewrite <- (take_drop k pids) in Hnd. apply NoDup_app in Hnd as (N1 & N2 & N3).
  destruct (reconcile_all (take k pids) cl r R N1 Hr Hu Hb) as (cl' & R' & E & Hr' & Hu' & Hb' & Hs & Hp).
  { intros p Hin. apply elem_of_pendingIds. fold pids. rewrite <- (take_drop k pids). apply elem_of_app. by left. }
  exists cl', R'. split_and!; [done..|].
  assert (Hperm : pendingIds (store R') ≡ₚ drop k pids).
  { apply NoDup_Permutation; [apply NoDup_pendingIds|done|]. intros p. rewrite elem_of_pendingIds, Hp. case_bool_decide as Hx.
    - split; [by intros [? ?]|]. intros Hd. by destruct (N2 p).
    - rewrite <- elem_of_pendingIds. fold pids.
      assert (Hsp : p ∈ pids <-> p ∈ take k pids \/ p ∈ drop k pids) by (by rewrite <- elem_of_app, take_drop). rewrite Hsp. tauto. }
  rewrite <- !length_pendingIds, (Permutation_length Hperm), length_drop. done.
Qed.

Lemma reconcile_ops_ok r pids : Forall okClusterOp (reconcileOps r pids).
Proof. unfold reconcileOps. induction pids as [|p ps IH]; [constructor|]. cbn. by repeat apply List.Forall_cons. Qed.

(** C37. The shared registry recovers. Once Redis answers again, the reconcile passes of a
    running replica, each cut off by its deadline after some of the pending writes, have applied every write the replica could not make
    before as soon as they made as many as there were, if nothing is registered or withdrawn meanwhile: the queue is
    empty, and Redis shows exactly the replica's registered providers (and what a former run left). *)
Theorem hub_store_converges cl r R ks :
  clusterReach cl -> reps cl !! r = Some R -> up R = true -> busy R = [] -> (size (pending (store R)) <= sum_list ks)%nat ->
  exists cl' R', reconcileTicks r ks cl = Some cl' /\ reps cl' !! r = Some R' /\ pending (store R') = ∅ /\ want R' = want R /\
    shownExactly r R (red cl').
Proof.
  revert cl R. induction ks as [|k ks IH]; intros cl R Hc Hr Hu Hb Hsz; cbn [reconcileTicks].
  - assert (Hp : pending (store R) = ∅) by (apply map_size_empty_inv; cbn in Hsz; lia). exists cl, R. split_and!; try done.
    by apply settled_shared; [apply clusterReach_inv|..].
  - destruct (reconcile_pass k cl r R Hr Hu Hb) as (cl1 & R1 & E1 & Hr1 & Hu1 & Hb1 & Hs1 & Hz1). rewrite E1. cbn [mbind option_bind].
    assert (Hc1 : clusterReach cl1).
    { unfold reconcile in E1. rewrite Hr in E1. eapply runCluster_reach; [apply reconcile_ops_ok|exact E1|done]. }
    destruct (IH cl1 R1 Hc1 Hr1 Hu1 Hb1) as (cl2 & R2 & E2 & Hr2 & Hp2 & Hw2 & Hx2); [rewrite Hz1; cbn in Hsz; lia|].
    exists cl2, R2. split_and!; [done..| |by eapply sameRun_shown]. rewrite Hw2. by destruct Hs1.
Qed.

(** ** Lookups *)

Lemma elem_of_recordsOf name d pid rec : (pid, rec) ∈ recordsOf name d <-> HGetAll (svcKey name) d !! pid = Some (Some rec).
Proof.
  unfold recordsOf. rewrite list_elem_of_omap. split.
  - intros (p & _ & Hp). by destruct (HGetAll (svcKey name) d !! p) as [[x|]|] eqn:E; simplify_eq.
  - intros Hp. exists pid. split; [|by rewrite Hp]. rewrite elem_of_sortStrings, list_elem_of_fmap.
    exists (pid, Some rec). split; [done|]. by apply elem_of_map_to_list.
Qed.

Lemma tryFrom_some s name live start offs t s' : tryFrom s name live start offs = (Some t, s') ->
  exists pid rec, (pid, rec) ∈ live /\ resolveProvider s name pid rec = Some t.
Proof.
  induction offs as [|off offs IH]; cbn [tryFrom]; [done|].
  destruct (live !! Z.to_nat _) as [[pid rec]|] eqn:El; [|done]. destruct (resolveProvider s name pid rec) as [u|] eqn:Er; [|done].
  intros [= <- <-]. exists pid, rec. split; [|done]. by eapply list_elem_of_lookup_2.
Qed.

Lemma tryFrom_none s name live start offs s' : tryFrom s name live start offs = (None, s') ->
  forall off pid rec, off ∈ offs -> live !! Z.to_nat ((start + Z.of_nat off) mod blen live) = Some (pid, rec) ->
  resolveProvider s name pid rec = None.
Proof.
  induction offs as [|o offs IH]; cbn [tryFrom]; [by intros _ ? ? ? ?%not_elem_of_nil|].
  intros E off pid rec Hin Hl. apply elem_of_cons in Hin as [->|Hin].
  - rewrite Hl in E. by destruct (resolveProvider s name pid rec).
  - eapply IH; [|done|done]. destruct (live !! Z.to_nat ((start + Z.of_nat o) mod blen live)) as [[p r]|]; [|done].
    by destruct (resolveProvider s name p r).
Qed.

(** A lookup finds a provider exactly when a live one can be used. *)
Lemma lookup_spec name d1 d2 s :
  match fst (store_Lookup name d1 d2 s) with
  | Some t => exists pid rec, (pid, rec) ∈ liveProviders name d1 d2 /\ resolveProvider s name pid rec = Some t
  | None => forall pid rec, (pid, rec) ∈ liveProviders name d1 d2 -> resolveProvider s name pid rec = None
  end.
Proof.
  unfold store_Lookup. set (live := liveProviders name d1 d2). set (start := default 0 (rrOf s !! name)).
  destruct (tryFrom s name live start (seq 0 (length live))) as [[t|] s'] eqn:E; cbn; [by eapply tryFrom_some|].
  intros pid rec Hin. apply list_elem_of_lookup_1 in Hin as [k Hk]. pose proof (lookup_lt_Some _ _ _ Hk) as Hlt.
  assert (Hb : blen live = Z.of_nat (length live)) by done.
  pose proof (Z.mod_pos_bound (Z.of_nat k - start) (blen live) ltac:(lia)) as Hm.
  apply (tryFrom_none _ _ _ _ _ _ E (Z.to_nat ((Z.of_nat k - start) mod blen live))).
  - apply elem_of_seq. lia.
  - rewrite Z2Nat.id by lia. rewrite Zplus_mod_idemp_r. replace (start + (Z.of_nat k - start)) with (Z.of_nat k) by lia.
    rewrite Z.mod_small by lia. by rewrite Nat2Z.id.
Qed.

(** What a lookup gives a relay: a session it returns belongs to a connection of this
    replica that registered the service and has not withdrawn it, however stale the
    view of Redis it was chosen from; and a provider registered at a healthy replica
    that is alive is enough for every replica to find the service (a mount session's record, which has no
    session, for every other replica). *)
Theorem hub_lookup_correct cl q Q :
  clusterReach cl -> reps cl !! q = Some Q ->
  (forall cl1 d2 name t m, clusterReach cl1 -> fst (store_Lookup name (Some (red cl1)) d2 (store Q)) = Some t -> t_Mux t = Some m ->
     exists pid rec, muxes (store Q) !! pid = Some m /\ want Q !! pid = Some (name, rec)) /\
  (forall r R pid name rec, reps cl !! r = Some R -> StoreHealth (store R) = true -> Exists (aliveKey r) (red cl) = true ->
     want R !! pid = Some (name, rec) -> (q = r -> pr_Mode rec = go "deliver" -> is_Some (muxes (store R) !! pid)) ->
     fst (store_Lookup name (Some (red cl)) (Some (red cl)) (store Q)) <> None).
Proof.
  intros Hc Hq. pose proof (clusterReach_inv cl Hc) as HI. pose proof (cl_rep _ HI q Q Hq) as Qi.
  pose proof (ri_id _ _ _ Qi) as [Hid Hqc]. split.
  - intros cl1 d2 name t m Hc1 Hl Hm. pose proof (lookup_spec name (Some (red cl1)) d2 (store Q)) as Hs. rewrite Hl in Hs.
    destruct Hs as (pid & rec & Hin & Hr). unfold resolveProvider in Hr. case_bool_decide; [by simplify_eq|]. case_bool_decide; [|done].
    case_bool_decide; [|by simplify_eq]. apply fmap_Some in Hr as (m' & Hmx & ->). cbn in Hm. simplify_eq.
    destruct (ri_mux _ _ _ Qi pid) as [[n rec'] Hw]; [by eexists|]. exists pid, rec'. split; [done|].
    destruct (ri_want _ _ _ Qi _ _ _ Hw) as (_ & _ & c & _ & Hcc & Hp & _). unfold liveProviders in Hin. destruct d2; [|by apply not_elem_of_nil in Hin].
    apply list_elem_of_filter in Hin as [_ Hin%elem_of_recordsOf].
    destruct (cl_only _ (clusterReach_inv _ Hc1) _ _ _ Hin) as (r' & R' & c' & rr & _ & Hr' & Hc' & Hp' & _).
    rewrite Hp in Hp'. apply pidOf_inj in Hp' as (_ & _ & ->); done.
  - intros r R pid name rec Hr Hh Ha Hw Hses Hn. pose proof (lookup_spec name (Some (red cl)) (Some (red cl)) (store Q)) as Hs. rewrite Hn in Hs.
    apply andb_true_iff in Hh as [_ Hh%bool_decide_eq_true].
    destruct (proj2 (settled_shared cl r R HI Hr Hh name pid rec) (or_introl Hw)) as [Hg Ho].
    assert (Hl : (pid, rec) ∈ liveProviders name (Some (red cl)) (Some (red cl))).
    { apply list_elem_of_filter. cbn. rewrite Ho. split; [done|]. by apply elem_of_recordsOf. }
    specialize (Hs pid rec Hl).
    unfold resolveProvider in Hs. destruct (ri_want _ _ _ (cl_rep _ HI r R Hr) _ _ _ Hw) as ([_ [Hmo|Hmo]] & _); rewrite Hmo in Hs; [done|].
    rewrite bool_decide_false, bool_decide_true in Hs by done. case_bool_decide as Hx; [|done].
    rewrite Ho, Hid in Hx. destruct (Hses (eq_sym Hx) Hmo) as [m Hm]. rewrite Hx, Hq in Hr. injection Hr as <-. by rewrite Hm in Hs.
Qed.

(** ** Examples *)

Definition noCluster : cluster := mkCluster (mkRedis ∅ ∅ 0) ∅.
Definition exPid : bytes := pidOf (go "a") (go "c1") (go "db").
Definition exRecord : providerRecord := mkProvider (go "c1") (go "deliver") [] (go "a") (go "ws://a") [].

(** A registration whose write is refused, then retried. *)
Definition exOutage : list clusterOp :=
  [CJoin (go "a") (go "ws://a"); CJoin (go "b") (go "ws://b"); CDeliver (go "a") (go "c1") (go "db") (Some 7); CApply (go "a") Refused].
Definition exRetry : list clusterOp := exOutage ++ [CReconcile (go "a") exPid; CApply (go "a") Applied].

Lemma noColon_dec (s : bytes) : bool_decide (noColon s) = true -> noColon s.
Proof. apply bool_decide_eq_true. Qed.
Lemma exRetry_ok : Forall okClusterOp exRetry.
Proof. repeat apply List.Forall_cons; cbn [okClusterOp]; try exact I; try (apply noColon_dec; reflexivity). constructor. Qed.
Lemma exOutage_ok : Forall okClusterOp exOutage.
Proof. pose proof exRetry_ok as H. apply Forall_app in H. apply H. Qed.

(** What the examples need of a replica. *)
Definition seen (ops : list clusterOp) (r : bytes) : option (bool * bool * nat * option (bytes * providerRecord) * bool) :=
  cl ← runCluster ops noCluster; R ← reps cl !! r;
  Some (StoreHealth (store R), up R, length (busy R), want R !! exPid, Exists (aliveKey r) (red cl)).

Lemma exRetry_seen : seen exRetry (go "a") = Some (true, true, O, Some (go "db", exRecord), true).
Proof. vm_compute. reflexivity. Qed.
Lemma exOutage_seen : seen exOutage (go "a") = Some (false, true, O, Some (go "db", exRecord), true).
Proof. vm_compute. reflexivity. Qed.

Lemma seen_spec ops r h u k w e : Forall okClusterOp ops -> seen ops r = Some (h, u, k, w, e) ->
  exists cl R, runCluster ops noCluster = Some cl /\ clusterReach cl /\ reps cl !! r = Some R /\ StoreHealth (store R) = h /\
    up R = u /\ length (busy R) = k /\ want R !! exPid = w /\ Exists (aliveKey r) (red cl) = e.
Proof.
  intros Hok. unfold seen. destruct (runCluster ops noCluster) as [cl|] eqn:E; cbn [mbind option_bind]; [|done].
  destruct (reps cl !! r) as [R|] eqn:Er; cbn [mbind option_bind]; [|done]. intros [= <- <- <- <- <-]. exists cl, R.
  split_and!; try done. eapply runCluster_reach; [done|exact E|]. apply cluster_init.
Qed.

Lemma hub_health_truthful_witness :
  exists cl R, clusterReach cl /\ reps cl !! go "a" = Some R /\ StoreHealth (store R) = true /\
    HGetAll (svcKey (go "db")) (red cl) !! exPid = Some (Some exRecord).
Proof.
  destruct (seen_spec _ _ _ _ _ _ _ exRetry_ok exRetry_seen) as (cl & R & _ & Hc & Hr & Hh & _ & _ & Hw & _).
  exists cl, R. split; [exact Hc|]. split; [exact Hr|]. split; [exact Hh|].
  apply (hub_health_truthful cl (go "a") R Hc Hr Hh (go "db") exPid exRecord). left. exact Hw.
Defined.

Lemma hub_store_converges_witness :
  exists cl R cl', clusterReach cl /\ reps cl !! go "a" = Some R /\ StoreHealth (store R) = false /\
    reconcileTicks (go "a") [0%nat; size (pending (store R))] cl = Some cl' /\
    HGetAll (svcKey (go "db")) (red cl') !! exPid = Some (Some exRecord).
Proof.
  destruct (seen_spec _ _ _ _ _ _ _ exOutage_ok exOutage_seen) as (cl & R & _ & Hc & Hr & Hh & Hu & Hb & Hw & _).
  destruct (hub_store_converges cl (go "a") R [0%nat; size (pending (store R))] Hc Hr Hu (nil_length_inv _ Hb)) as (cl' & R' & E & _ & _ & _ & Hx);
    [cbn; lia|].
  exists cl, R, cl'. split; [exact Hc|]. split; [exact Hr|]. split; [exact Hh|]. split; [exact E|].
  apply (Hx (go "db") exPid exRecord). left. exact Hw.
Defined.

(** The other replica finds the service. *)
Lemma hub_lookup_correct_witness :
  exists cl R Q, clusterReach cl /\ reps cl !! go "a" = Some R /\ reps cl !! go "b" = Some Q /\
    fst (store_Lookup (go "db") (Some (red cl)) (Some (red cl)) (store Q)) <> None.
Proof.
  destruct (seen_spec _ _ _ _ _ _ _ exRetry_ok exRetry_seen) as (cl & R & E & Hc & Hr & Hh & _ & _ & Hw & Ha).
  assert (Hq : exists Q, reps cl !! go "b" = Some Q).
  { assert (Hb : (cl ← runCluster exRetry noCluster; R ← reps cl !! go "b"; Some (up R)) = Some true) by (vm_compute; reflexivity).
    rewrite E in Hb. cbn [mbind option_bind] in Hb. destruct (reps cl !! go "b") as [Q|]; [by exists Q|done]. }
  destruct Hq as [Q Hq]. exists cl, R, Q. split; [exact Hc|]. split; [exact Hr|]. split; [exact Hq|].
  apply (proj2 (hub_lookup_correct cl (go "b") Q Hc Hq) (go "a") R exPid (go "db") exRecord Hr Hh Ha Hw). discriminate.
Defined.

(** ** Relays between replicas *)

(** The lookups of replica [r] against the shared state, as the relay handlers use it. *)
Definition lookupAt (r : bytes) (name : bytes) (cl : cluster) : option Target * cluster :=
  match reps cl !! r with
  | Some R =>
      let '(t, s) := store_Lookup name (Some (red cl)) (Some (red cl)) (store R) in
      (t, withReplica r (mkReplica s (busy R) (up R) (want R) (touched R) (base R)) cl)
  | None => (None, cl)
  end.

(** Both replicas host the service, each for a connection of its own. *)
Definition exBoth : list clusterOp :=
  [CJoin (go "a") (go "ws://a"); CJoin (go "b") (go "ws://b");
   CDeliver (go "a") (go "c1") (go "db") (Some 7); CApply (go "a") Applied;
   CDeliver (go "b") (go "c2") (go "db") (Some 8); CApply (go "b") Applied].

(** A relay forwarded to a replica that holds a session for the service is dropped
    there: the owner resolves the name by the same rotation over all replicas, and
    its turn falls on the other one. *)
Lemma forward_dropped :
  match runCluster exBoth noCluster with
  | Some cl =>
      let '(r1, cl) := hubRelay (lookupAt (go "a")) None None (go "db") cl in
      let '(r2, cl) := hubRelay (lookupAt (go "a")) None None (go "db") cl in
      r1 = Deliver 7 (go "db") /\ r2 = ForwardTo (go "ws://b") (go "db") /\
      fst (handleHubForward (lookupAt (go "b")) (go "db") cl) = Closed /\
      (R ← reps cl !! go "b"; muxes (store R) !! pidOf (go "b") (go "c2") (go "db")) = Some 8
  | None => False
  end.
Proof. vm_compute. split_and!; reflexivity. Qed.

(** A replica that crashes and comes back under its name revives the records of its
    former connections: it reports itself healthy, its peers forward to it, and it has
    no session to deliver to nor a record of what to withdraw. *)
Lemma restart_revives :
  match runCluster (firstn 4 exBoth ++ [CCrash (go "a"); CJoin (go "a") (go "ws://a")]) noCluster with
  | Some cl =>
      (R ← reps cl !! go "a"; Some (StoreHealth (store R), owned (store R) !! go "c1", want R !! exPid)) = Some (true, None, None) /\
      (HGetAll (svcKey (go "db")) (red cl) !! exPid) = Some (Some exRecord) /\
      fst (hubRelay (lookupAt (go "b")) None None (go "db") cl) = ForwardTo (go "ws://a") (go "db") /\
      fst (handleHubForward (lookupAt (go "a")) (go "db") cl) = Closed
  | None => False
  end.
Proof. vm_compute. split_and!; reflexivity. Qed.
