(* ===== verification/HostPolicy.v ===== *)
(** * Host privilege policy and volume store

    [pkg/deploy/hostpolicy/policy.go]: which privileged containers and bind-mount sources
    a deployment may ask of a host backend; and the volume directories of
    [pkg/deploy/internal/hostrun/volumes_linux.go] that the same deployments are given.

    - [policy_Validate]: the policy check a backend runs before any runtime call.
    - Module [Volumes]: the directories behind named and anonymous volumes, the mounts of
      an instance, and the removals.

    A source the policy accepts resolves to a real path below the real path of an allowed
    prefix, and in a tree without links the verdict is a test on path elements. The directories
    a volume is created in, mounted from and removed with stay inside the
    store and belong to one volume. *)
From stdpp Require Import base list gmap strings numbers.
From Stdlib Require Import ZArith Lia.
From Stdlib.Strings Require Import Byte.
From S2P Require Import Prelude GoStd GoPath.

(** ** Deployments, as far as the policy reads them *)

Record Mount := mkMount { Source : bytes; Target : bytes; ReadOnly : bool }.
Record VolumeSpec := mkVolumeSpec { v_Name : bytes; v_Target : bytes; v_ReadOnly : bool }.
Record DeploySpec := mkDeploySpec {
  ds_Name : bytes;
  Privileged : bool;
  Mounts : list Mount;
  ds_Volumes : list VolumeSpec;
}.

(** ** The policy *)

Record Policy := mkPolicy { AllowPrivileged : bool; AllowBindPrefixes : list bytes }.

Definition Permissive : Policy := mkPolicy true [[slash]].

Definition envTrue (v : bytes) : bool :=
  bool_decide (toLower (trimSpace v) ∈ [go "1"; go "true"; go "yes"; go "on"]).

Definition splitPrefixes (v : bytes) : list bytes :=
  if bytes_eqb (trimSpace v) [] then []
  else map pathClean (filter (fun p => p <> []) (map trimSpace (split (Byte.x2c) v))).

Definition FromEnv (allowPrivileged allowBindSources : bytes) : Policy :=
  mkPolicy (envTrue allowPrivileged) (splitPrefixes allowBindSources).

Definition underPrefix (prefix path : bytes) : bool :=
  match pathRel prefix path with
  | None => false
  | Some rel => bytes_eqb rel dot || relInside rel
  end.

(** The loop of [resolveSymlinks]; each turn drops the last element of [cur], so one turn per
    byte of the path is enough. *)
Fixpoint resolveLoop (fuel : nat) (fs : FS) (p cur rest : bytes) : bytes :=
  match fuel with
  | O => p
  | S fuel' =>
      let parent := pathDir cur in
      let rest := pathJoin [pathBase cur; rest] in
      match EvalSymlinks fs parent with
      | Some resolved => pathClean (pathJoin [resolved; rest])
      | None => if bytes_eqb parent cur then p else resolveLoop fuel' fs p parent rest
      end
  end.

Definition resolveSymlinks (fs : FS) (p : bytes) : bytes :=
  match EvalSymlinks fs p with
  | Some resolved => resolved
  | None => resolveLoop (S (length p)) fs p p []
  end.

Definition lexicalAllowed (p : Policy) (path : bytes) : bool :=
  existsb (fun prefix => underPrefix (pathClean prefix) path) (AllowBindPrefixes p).

Definition bindAllowed (p : Policy) (fs : FS) (src : bytes) : bool :=
  let clean := pathClean src in
  if negb (lexicalAllowed p clean) then false
  else
    let resolved := resolveSymlinks fs clean in
    existsb (fun prefix => underPrefix (resolveSymlinks fs (pathClean prefix)) resolved) (AllowBindPrefixes p).

(** The errors of [policy_Validate], with what their text names. *)
Inductive policyErr : Type :=
| EPrivileged (backend : bytes)
| ENotAbsolute (backend src allowed : bytes)
| ENotPermitted (backend src allowed : bytes).

Definition allowedList (p : Policy) : bytes :=
  match AllowBindPrefixes p with [] => go "(none)" | l => join (go ", ") l end.

Definition denied (p : Policy) (backend src : bytes) : policyErr :=
  if negb (isAbs src) then ENotAbsolute backend src (allowedList p)
  else ENotPermitted backend src (allowedList p).

Fixpoint validateMounts (p : Policy) (fs : FS) (backend : bytes) (ms : list Mount) : res policyErr unit :=
  match ms with
  | [] => Ok tt
  | m :: ms =>
      if bytes_eqb (Source m) [] then validateMounts p fs backend ms
      else if negb (bindAllowed p fs (Source m)) then Err (denied p backend (Source m))
      else validateMounts p fs backend ms
  end.

Definition policy_Validate (p : Policy) (fs : FS) (backend : bytes) (spec : DeploySpec) : res policyErr unit :=
  if Privileged spec && negb (AllowPrivileged p) then Err (EPrivileged backend)
  else validateMounts p fs backend (Mounts spec).

(** ** Volume directories *)

Module Volumes.

Record VolumeStore := mkVolumeStore { dataDir : bytes; subdir : bytes; errPrefix : bytes }.

Definition NewVolumeStore (dataDir subdir errPrefix : bytes) : VolumeStore := mkVolumeStore dataDir subdir errPrefix.

Inductive volErr : Type :=
| EEmptyName (kind : bytes)
| ETraversal (kind name : bytes)
| ESeparator (kind name : bytes)
| ENul (kind : bytes)
| EEscapes (kind name : bytes)
| ENoTarget
| ECreateDir (dir : bytes)
| ERemove (dir : bytes).

Definition ValidateVolumeName (kind name : bytes) : res volErr unit :=
  if bytes_eqb name [] then Err (EEmptyName kind)
  else if bytes_eqb name dot || bytes_eqb name dotdot then Err (ETraversal kind name)
  else if containsByte slash name then Err (ESeparator kind name)
  else if containsByte Byte.x00 name then Err (ENul kind)
  else Ok tt.

Definition underDir (dir path : bytes) : bool :=
  match pathRel dir path with
  | None => false
  | Some rel => relInside rel
  end.

Definition namedVolumesRoot (s : VolumeStore) : bytes := pathJoin [dataDir s; subdir s; go "volumes"; go "named"].
Definition anonVolumesRoot (s : VolumeStore) : bytes := pathJoin [dataDir s; subdir s; go "volumes"; go "anon"].

Definition NamedVolumeDir (s : VolumeStore) (name : bytes) : res volErr bytes :=
  _ ← ValidateVolumeName (go "volume") name;
  let root := namedVolumesRoot s in
  let dir := pathJoin [root; name] in
  if negb (underDir root dir) then Err (EEscapes (go "volume") name) else Ok dir.

Definition AnonVolumesDir (s : VolumeStore) (app : bytes) : res volErr bytes :=
  _ ← ValidateVolumeName (go "deployment") app;
  let root := anonVolumesRoot s in
  let dir := pathJoin [root; app] in
  if negb (underDir root dir) then Err (EEscapes (go "deployment") app) else Ok dir.

Definition anonVolumeDir (s : VolumeStore) (app : bytes) (replica : Z) (target : bytes) : res volErr bytes :=
  base ← AnonVolumesDir s app;
  let sum := sha256 target in
  Ok (pathJoin [base; formatInt replica ++ go "-" ++ take 8 (hexEncode sum)]).

Record ociMount := mkOciMount { Destination : bytes; om_Type : bytes; om_Source : bytes; Options : list bytes }.
Record VolumeBacking := mkVolumeBacking { HostDir : bytes; vb_Target : bytes }.

Definition OCIBindMount (src dst : bytes) (readOnly : bool) : ociMount :=
  mkOciMount dst (go "bind") src [go "rbind"; if readOnly then go "ro" else go "rw"].

(** The calls that change the file system; the operations keep the trace of the ones made. *)
Inductive osCall : Type :=
| MkdirAll (dir : bytes)
| RemoveAll (dir : bytes).

Section ops.
(** Which calls the system refuses. *)
Variable refused : osCall -> bool.

Definition call (c : osCall) (e : volErr) : stm (list osCall) volErr unit := fun tr =>
  (if refused c then Err e else Ok tt, tr ++ [c]).

Definition lift {A} (r : res volErr A) : stm (list osCall) volErr A := fun tr => (r, tr).

Definition volumeDir (s : VolumeStore) (spec : DeploySpec) (replica : Z) (v : VolumeSpec) : res volErr bytes :=
  if negb (bytes_eqb (v_Name v) []) then NamedVolumeDir s (v_Name v)
  else anonVolumeDir s (ds_Name spec) replica (v_Target v).

Definition volumeStep (s : VolumeStore) (spec : DeploySpec) (replica : Z)
    (acc : list ociMount * list VolumeBacking) (v : VolumeSpec) :
    stm (list osCall) volErr (list ociMount * list VolumeBacking) :=
  if bytes_eqb (v_Target v) [] then throw ENoTarget
  else
    dir ← lift (volumeDir s spec replica v);
    _ ← call (MkdirAll dir) (ECreateDir dir);
    mret (fst acc ++ [OCIBindMount dir (v_Target v) (v_ReadOnly v)], snd acc ++ [mkVolumeBacking dir (v_Target v)]).

Definition InstanceMounts (s : VolumeStore) (spec : DeploySpec) (replica : Z) :
    stm (list osCall) volErr (list ociMount * list VolumeBacking) :=
  let mounts := map (fun m => OCIBindMount (Source m) (Target m) (ReadOnly m)) (Mounts spec) in
  foldM (volumeStep s spec replica) (ds_Volumes spec) (mounts, []).

(** [_ = os.RemoveAll(dir)]: the outcome is dropped. *)
Definition ReapAnonymousVolumes (s : VolumeStore) (name : bytes) : stm (list osCall) volErr unit :=
  match AnonVolumesDir s name with
  | Err _ => mret tt
  | Ok dir => _ ← attempt (call (RemoveAll dir) (ERemove dir)); mret tt
  end.

Definition RemoveVolume (s : VolumeStore) (name : bytes) : stm (list osCall) volErr unit :=
  dir ← lift (NamedVolumeDir s name);
  call (RemoveAll dir) (ERemove dir).

End ops.
End Volumes.

(** ** Paths below a prefix *)

Lemma underPrefix_abs a b : Forall normalSeg a -> Forall normalSeg b ->
  underPrefix (absPath a) (absPath b) = true <-> a `prefix_of` b.
Proof.
  intros Ha Hb. unfold underPrefix. destruct (pathRel_abs a b Ha Hb) as (rel & -> & Hiff & Hdot).
  rewrite orb_true_iff, bytes_eqb_spec, <- Hiff. intuition.
Qed.

Lemma underPrefix_mixed a p : isAbs a = true -> isAbs p = false -> underPrefix a p = false.
Proof. intros Ha Hp. unfold underPrefix. by rewrite pathRel_mixed. Qed.

(** ** What [resolveSymlinks] returns

    The real path of the longest prefix that resolves, followed by the rest. *)

Lemma length_absPath segs : Forall normalSeg segs -> (length segs <= length (absPath segs))%nat.
Proof.
  intros H. unfold absPath. cbn [length].
  assert (length segs <= S (length (join [slash] segs)))%nat; [|done].
  induction H as [|s segs (_&Hs&_) H IH]; cbn [length]; [lia|]. destruct s as [|c s]; [done|].
  destruct segs; cbn [join] in *; cbn [length] in *; [lia|]. rewrite !length_app. cbn [length]. lia.
Qed.

Definition resolvesTo (fs : FS) (segs : list bytes) (r : bytes) : Prop :=
  exists pre suf real, segs = pre ++ suf /\ EvalSymlinks fs (absPath pre) = Some (absPath real) /\
    Forall normalSeg real /\ realPath fs real /\ r = absPath (real ++ suf) /\
    (suf <> [] -> EvalSymlinks fs (absPath segs) = None).

Lemma resolveLoop_abs fs pre : forall fuel suf, Forall normalSeg (pre ++ suf) -> (length pre < fuel)%nat ->
  EvalSymlinks fs (absPath (pre ++ suf)) = None -> pre <> [] ->
  resolvesTo fs (pre ++ suf) (resolveLoop fuel fs (absPath (pre ++ suf)) (absPath pre) (join [slash] suf)).
Proof.
  induction pre as [|x pre IH] using rev_ind; intros fuel suf Hn Hf Hnone Hne; [done|].
  destruct fuel as [|fuel]; [lia|]. cbn [resolveLoop]. rewrite length_app in Hf. cbn in Hf.
  pose proof Hn as [[Hpre [Hx _]%Forall_cons_1]%Forall_app Hsuf]%Forall_app.
  rewrite pathDir_absPath by done. rewrite pathBase_absPath by done. rewrite pathJoin_suffix by done.
  destruct (EvalSymlinks fs (absPath pre)) as [r|] eqn:Er.
  - destruct (EvalSymlinks_real fs (absPath pre) r eq_refl Er) as (real & Hreal & -> & Hrp).
    assert (Hxs : Forall normalSeg (x :: suf)) by (by constructor).
    rewrite pathJoin_abs_suffix by done.
    rewrite pathClean_absPath by (by apply Forall_app). exists pre, (x :: suf), real.
    split_and!; [by rewrite <- app_assoc|done..].
  - rewrite bytes_eqb_neq.
    + rewrite <- app_assoc in *. apply IH; [done|lia|done|]. by intros ->.
    + intros E%absPath_inj; [|done|by apply Forall_app; split; [|apply Forall_singleton]].
      apply (f_equal length) in E. rewrite length_app in E. cbn in E. lia.
Qed.

Lemma resolveSymlinks_abs fs segs : Forall normalSeg segs ->
  resolvesTo fs segs (resolveSymlinks fs (absPath segs)).
Proof.
  intros Hn. unfold resolveSymlinks. destruct (EvalSymlinks fs (absPath segs)) as [r|] eqn:E.
  - destruct (EvalSymlinks_real fs (absPath segs) r eq_refl E) as (real & Hreal & -> & Hrp).
    exists segs, [], real. rewrite !app_nil_r. by split_and!.
  - destruct (decide (segs = [])) as [->|Hne]; [done|].
    pose proof (resolveLoop_abs fs segs (S (length (absPath segs))) []) as H. rewrite !app_nil_r in H.
    apply H; [done| |done..]. pose proof (length_absPath segs Hn). lia.
Qed.

Lemma resolveSymlinks_existing fs p r : EvalSymlinks fs p = Some r -> resolveSymlinks fs p = r.
Proof. unfold resolveSymlinks. by intros ->. Qed.

Lemma resolveSymlinks_normal fs segs : Forall normalSeg segs ->
  exists r, Forall normalSeg r /\ resolveSymlinks fs (absPath segs) = absPath r.
Proof.
  intros Hn. destruct (resolveSymlinks_abs fs segs Hn) as (pre & suf & real & -> & _ & Hreal & _ & E & _).
  apply Forall_app in Hn as [_ Hs]. exists (real ++ suf). split; [by apply Forall_app|done].
Qed.

(** In a tree without links every absolute path resolves to itself. *)
Definition linkFree (fs : FS) : Prop := forall k t, nodes fs !! k <> Some (NLink t).

Lemma walk_linkFree fs links dest segs r : linkFree fs -> Forall normalSeg segs ->
  walkSymlinks fs links true dest segs = Some r -> r = absPath (rev dest ++ segs).
Proof.
  intros Hl. revert dest. induction segs as [|seg segs IH]; intros dest Hn E.
  { rewrite walk_nil in E. injection E as <-. by rewrite app_nil_r. }
  apply Forall_cons_1 in Hn as [(Hs&H1&H2&H3) Hn]. rewrite walk_cons, !bytes_eqb_neq in E by done. cbn [orb] in E.
  rewrite lstat_snoc in E. specialize (IH (seg :: dest) Hn). cbn [rev] in IH. rewrite <- app_assoc in IH.
  destruct (nodes fs !! (rev dest ++ [seg])) as [[| |t]|] eqn:El; [by apply IH| |by apply Hl in El|done].
  destruct segs; [by apply IH|done].
Qed.

Lemma EvalSymlinks_linkFree fs segs r : linkFree fs -> Forall normalSeg segs ->
  EvalSymlinks fs (absPath segs) = Some r -> r = absPath segs.
Proof.
  intros Hl Hn. unfold EvalSymlinks. rewrite split_absPath by done. change (isAbs (absPath segs)) with true.
  rewrite walk_cons. cbn [bytes_eqb orb]. destruct segs as [|s segs]; [by destruct fs; intros [= <-]|].
  by apply (walk_linkFree fs 255 []).
Qed.

Lemma resolveSymlinks_linkFree fs segs : linkFree fs -> Forall normalSeg segs ->
  resolveSymlinks fs (absPath segs) = absPath segs.
Proof.
  intros Hl Hn. destruct (resolveSymlinks_abs fs segs Hn) as (pre & suf & real & -> & Er & Hreal & _ & -> & _).
  apply Forall_app in Hn as [Hp Hs].
  apply (EvalSymlinks_linkFree fs pre) in Er; [|done..]. by apply absPath_inj in Er as ->.
Qed.

(** ** The policy check *)

Definition absPrefixes (p : Policy) : Prop := Forall (fun P => isAbs P = true) (AllowBindPrefixes p).

Lemma existsb_prefix (f g : bytes -> bool) l :
  Forall (fun P => f P = g P) l -> existsb f l = existsb g l.
Proof. induction 1 as [|P l E _ IH]; cbn; [done|]. by rewrite E, IH. Qed.

(** No relative source is accepted when the prefixes are absolute. *)
Lemma bindAllowed_relative p fs src : absPrefixes p -> isAbs src = false -> bindAllowed p fs src = false.
Proof.
  intros Hp Hs. unfold bindAllowed. replace (lexicalAllowed p (pathClean src)) with false; [done|].
  unfold lexicalAllowed. symmetry. rewrite (existsb_prefix _ (fun _ => false)); [by induction (AllowBindPrefixes p)|].
  eapply Forall_impl; [exact Hp|]. intros P HP. cbn beta in *. apply underPrefix_mixed; by rewrite isAbs_clean.
Qed.

Lemma underPrefix_clean a b : isAbs a = true -> isAbs b = true ->
  underPrefix (pathClean a) (pathClean b) = bool_decide (segsOf (pathClean a) `prefix_of` segsOf (pathClean b)).
Proof.
  intros Ha Hb. destruct (pathClean_abs a Ha) as (sa & Hsa & ->), (pathClean_abs b Hb) as (sb & Hsb & ->).
  rewrite !segsOf_absPath by done. apply eq_true_iff_eq. by rewrite bool_decide_eq_true, underPrefix_abs.
Qed.

Lemma bindAllowed_abs p fs src : absPrefixes p -> bindAllowed p fs src = true ->
  isAbs src = true /\
  (exists P, P ∈ AllowBindPrefixes p /\ segsOf (pathClean P) `prefix_of` segsOf (pathClean src)) /\
  exists P, P ∈ AllowBindPrefixes p /\
    segsOf (resolveSymlinks fs (pathClean P)) `prefix_of` segsOf (resolveSymlinks fs (pathClean src)).
Proof.
  intros Hp Hb. destruct (isAbs src) eqn:Hs; [|by rewrite bindAllowed_relative in Hb].
  unfold bindAllowed in Hb. destruct (lexicalAllowed p (pathClean src)) eqn:Hl; [|done].
  unfold lexicalAllowed in Hl. apply existsb_exists in Hl as (P & HP%list_elem_of_In & EP).
  apply existsb_exists in Hb as (Q & HQ%list_elem_of_In & EQ). unfold absPrefixes in Hp. rewrite Forall_forall in Hp.
  split_and!; [done| |].
  - exists P. split; [done|]. rewrite underPrefix_clean in EP by auto. by apply bool_decide_eq_true in EP.
  - exists Q. split; [done|].
    destruct (pathClean_abs Q (Hp Q HQ)) as (sq & Hsq & Eq), (pathClean_abs src Hs) as (ss & Hss & Es). rewrite Eq, Es in *.
    destruct (resolveSymlinks_normal fs sq Hsq) as (rq & Hrq & Erq), (resolveSymlinks_normal fs ss Hss) as (rs & Hrs & Ers).
    rewrite Erq, Ers in *. rewrite !segsOf_absPath by done. by apply underPrefix_abs.
Qed.

Lemma validateMounts_ok p fs backend ms m :
  validateMounts p fs backend ms = Ok tt -> m ∈ ms -> Source m <> [] -> bindAllowed p fs (Source m) = true.
Proof.
  induction ms as [|m' ms IH]; intros E Hm Hs; [by apply elem_of_nil in Hm|]. cbn [validateMounts] in E.
  apply elem_of_cons in Hm as [->|Hm].
  - rewrite bytes_eqb_neq in E by done. by destruct (bindAllowed p fs (Source m')).
  - destruct (bytes_eqb (Source m') []); [by apply IH|]. destruct (negb _); [done|by apply IH].
Qed.

(** *** A source as written *)

(** Elements that do not count: nothing between two slashes, and [.]. *)
Definition noise (seg : bytes) : bool := bytes_eqb seg [] || bytes_eqb seg dot.

Inductive thinner : list bytes -> list bytes -> Prop :=
| thin_nil : thinner [] []
| thin_keep s l l' : thinner l l' -> thinner (s :: l) (s :: l')
| thin_drop s l l' : noise s = true -> thinner l l' -> thinner (s :: l) l'.

Lemma thinner_refl l : thinner l l.
Proof. induction l; by constructor. Qed.
Lemma thinner_app a l l' : thinner l l' -> thinner (a ++ l) (a ++ l').
Proof. intros H. induction a; [done|by constructor]. Qed.
Lemma thinner_filter l : thinner l (filter (fun s => noise s = false) l).
Proof.
  induction l as [|s l IH]; [constructor|]. rewrite filter_cons. case_decide as Hn; [by constructor|].
  apply thin_drop; [by destruct (noise s)|done].
Qed.

(** Where a path leads, it leads without them too (a slash after a file is an error). *)
Lemma walk_thinner fs links : forall rooted dest l l' r, thinner l l' ->
  walkSymlinks fs links rooted dest l = Some r -> walkSymlinks fs links rooted dest l' = Some r.
Proof.
  induction links as [|links IH]; intros rooted dest l l' r Ht; revert rooted dest; induction Ht as [|s l l' Ht IHt|s l l' Hs Ht IHt]; intros rooted dest E.
  all: try done.
  all: rewrite walk_cons in E; try (unfold noise in Hs; rewrite Hs in E; by apply IHt).
  all: rewrite walk_cons; destruct (bytes_eqb s [] || bytes_eqb s dot); [by apply IHt|]; destruct (bytes_eqb s dotdot); [by apply IHt|].
  all: destruct (lstat fs _) as [[| |t]|]; try done; try (by apply IHt); try (by destruct l; [inversion Ht; subst; by apply IHt|]).
  destruct (isAbs t); (eapply IH; [|exact E]; by apply thinner_app).
Qed.

Lemma clean_fold_plain l : forall out, dotdot ∉ l ->
  fold_left (cleanStep true) l out = rev (filter (fun s => noise s = false) l) ++ out.
Proof.
  induction l as [|s l IH]; intros out Hd; [done|]. apply not_elem_of_cons in Hd as [Hs Hd]. cbn [fold_left]. rewrite IH by done.
  rewrite filter_cons. unfold cleanStep. fold (noise s). destruct (noise s) eqn:E; [by rewrite decide_False|].
  rewrite bytes_eqb_neq, decide_True by done. cbn [rev]. by rewrite <- app_assoc.
Qed.

Lemma walk_lead fs links rooted dest l : walkSymlinks fs links rooted dest ([] :: l) = walkSymlinks fs links rooted dest l.
Proof. by rewrite walk_cons. Qed.

Lemma clean_plain src : isAbs src = true -> dotdot ∉ split slash src ->
  Forall normalSeg (filter (fun s => noise s = false) (split slash src)) /\
  pathClean src = absPath (filter (fun s => noise s = false) (split slash src)).
Proof.
  intros Ha Hd. pose proof (clean_fold_normal (split slash src) [] (split_parts_nosep slash src) ltac:(constructor)) as Hf.
  rewrite clean_fold_plain, app_nil_r in Hf by done. apply Forall_rev in Hf. rewrite rev_involutive in Hf. split; [done|].
  unfold pathClean. change (match src with [] => false | c :: _ => bool_decide (c = slash) end) with (isAbs src).
  by rewrite Ha, clean_fold_plain, app_nil_r, rev_involutive by done.
Qed.

Lemma walk_written fs links src real : isAbs src = true -> dotdot ∉ split slash src ->
  walkSymlinks fs links true [] (split slash src) = Some real -> walkSymlinks fs links true [] (split slash (pathClean src)) = Some real.
Proof.
  intros Ha Hd E. destruct (clean_plain src Ha Hd) as [Hn ->]. apply (walk_thinner _ _ _ _ _ _ _ (thinner_filter _)) in E.
  rewrite split_absPath, walk_lead by done. destruct (filter _ (split slash src)); [by rewrite walk_lead|exact E].
Qed.

Lemma written_cleaned fs src real : isAbs src = true -> dotdot ∉ split slash src ->
  EvalSymlinks fs src = Some real -> EvalSymlinks fs (pathClean src) = Some real.
Proof. intros Ha Hd. unfold EvalSymlinks. rewrite isAbs_clean, Ha. by apply walk_written. Qed.

(** A path with no link in it, below the real path of an allowed prefix. *)
Definition confined (p : Policy) (fs : FS) (real : bytes) : Prop :=
  realPath fs (segsOf real) /\
  exists P, P ∈ AllowBindPrefixes p /\ segsOf (resolveSymlinks fs (pathClean P)) `prefix_of` segsOf real.

(** C39. A deployment that passes the check of a policy with absolute prefixes asks for privileges only if the policy
    grants them, and every bind source of it is an absolute path below an allowed
    prefix, by its cleaned form. If the cleaned source exists, the path it leads to once all
    links are followed is below the real path of an allowed prefix; and so is the path the source
    leads to as written, which is what the runtime is given, if it has no [..] in it ([unclean_source_escapes] shows one that has). *)
Theorem bind_confined p fs backend spec :
  absPrefixes p -> policy_Validate p fs backend spec = Ok tt ->
  (Privileged spec = true -> AllowPrivileged p = true) /\
  forall m, m ∈ Mounts spec -> Source m <> [] ->
    isAbs (Source m) = true /\
    (exists P, P ∈ AllowBindPrefixes p /\ segsOf (pathClean P) `prefix_of` segsOf (pathClean (Source m))) /\
    (forall real, EvalSymlinks fs (pathClean (Source m)) = Some real -> confined p fs real) /\
    (forall real, (dotdot ∉ split slash (Source m)) -> EvalSymlinks fs (Source m) = Some real -> confined p fs real).
Proof.
  intros Hp HV. unfold policy_Validate in HV. destruct (Privileged spec && negb (AllowPrivileged p)) eqn:Epr; [done|].
  split; [intros Ht; rewrite Ht in Epr; by destruct (AllowPrivileged p)|]. intros m Hm Hs.
  pose proof (validateMounts_ok _ _ _ _ _ HV Hm Hs) as Hb.
  destruct (bindAllowed_abs p fs (Source m) Hp Hb) as (Ha & HP & (Q & HQ & HQr)).
  assert (Hreal : forall real, EvalSymlinks fs (pathClean (Source m)) = Some real -> confined p fs real).
  { intros real Er. rewrite (resolveSymlinks_existing fs _ real Er) in HQr. split; [|by exists Q].
    assert (Hc : isAbs (pathClean (Source m)) = true) by (by rewrite isAbs_clean).
    destruct (EvalSymlinks_real fs _ real Hc Er) as (segs & Hn & E & Hr). by rewrite E, segsOf_absPath. }
  split_and!; [done..|]. intros real Hd Er. by apply Hreal, written_cleaned.
Qed.

(** [/data] is a link to [/mnt/d]. *)
Definition exTree : FS := mkFS
  (list_to_map [([go "data"], NLink (go "mnt/d")); ([go "mnt"], NDir); ([go "mnt"; go "d"], NDir);
                ([go "mnt"; go "d"; go "app"], NDir)]) [].

Definition exSpec : DeploySpec := mkDeploySpec (go "web") false [mkMount (go "/data/./app") (go "/app") false] [].

Lemma bind_confined_witness :
  confined (mkPolicy false [go "/data"]) exTree (go "/mnt/d/app").
Proof.
  refine (proj2 (proj2 (proj2 (proj2 (bind_confined (mkPolicy false [go "/data"]) exTree (go "bare") exSpec _ _)
    (mkMount (go "/data/./app") (go "/app") false) _ _))) (go "/mnt/d/app") _ _).
  - repeat constructor.
  - vm_compute. reflexivity.
  - by left.
  - done.
  - apply (bool_decide_eq_true_1 _). vm_compute. reflexivity.
  - vm_compute. reflexivity.
Defined.

(** The verdict of the policy on a tree without links, by path elements: the first
    source that is not an absolute path below an allowed prefix is refused. *)
Definition offending (p : Policy) (m : Mount) : bool :=
  negb (bytes_eqb (Source m) []) &&
  negb (isAbs (Source m) &&
    existsb (fun P => bool_decide (segsOf (pathClean P) `prefix_of` segsOf (pathClean (Source m)))) (AllowBindPrefixes p)).

Lemma bindAllowed_linkFree p fs src : linkFree fs -> absPrefixes p ->
  bindAllowed p fs src =
    isAbs src && existsb (fun P => bool_decide (segsOf (pathClean P) `prefix_of` segsOf (pathClean src))) (AllowBindPrefixes p).
Proof.
  intros Hl Hp. destruct (isAbs src) eqn:Hs; [|by apply bindAllowed_relative]. cbn [andb].
  assert (Hlex : lexicalAllowed p (pathClean src) =
    existsb (fun P => bool_decide (segsOf (pathClean P) `prefix_of` segsOf (pathClean src))) (AllowBindPrefixes p)).
  { apply existsb_prefix. eapply Forall_impl; [exact Hp|]. intros P HP. by apply underPrefix_clean. }
  unfold bindAllowed. rewrite <- Hlex. destruct (lexicalAllowed p (pathClean src)) eqn:E; [|done]. cbn [negb].
  rewrite <- E. apply existsb_prefix. eapply Forall_impl; [exact Hp|]. intros P HP. cbn beta.
  destruct (pathClean_abs P HP) as (sp & Hsp & ->), (pathClean_abs src Hs) as (ss & Hss & ->).
  by rewrite !resolveSymlinks_linkFree.
Qed.

(** On a tree without links the check refuses exactly what the policy says: first
    privileges that are not granted, then the first source that is not an absolute path below an
    allowed prefix, with the error that says which of the two it is; all else passes. *)
Theorem Validate_exact p fs backend spec :
  linkFree fs -> absPrefixes p ->
  policy_Validate p fs backend spec =
    if Privileged spec && negb (AllowPrivileged p) then Err (EPrivileged backend)
    else match List.find (offending p) (Mounts spec) with
         | None => Ok tt
         | Some m => Err ((if isAbs (Source m) then ENotPermitted else ENotAbsolute) backend (Source m) (allowedList p))
         end.
Proof.
  intros Hl Hp. unfold policy_Validate. destruct (Privileged spec && negb (AllowPrivileged p)); [done|].
  induction (Mounts spec) as [|m ms IH]; [done|]. cbn [validateMounts List.find]. unfold offending at 1.
  destruct (bytes_eqb (Source m) []); [done|]. cbn [negb andb]. rewrite bindAllowed_linkFree by done.
  destruct (negb _); [|done]. unfold denied. by destruct (isAbs (Source m)).
Qed.

Lemma Validate_exact_witness :
  policy_Validate (mkPolicy false [go "/srv"]) (mkFS {[ [go "srv"] := NDir ]} []) (go "bare")
    (mkDeploySpec (go "web") false [mkMount (go "/srv/a/../b") (go "/b") true; mkMount (go "/srv/../etc") (go "/e") true] []) =
  Err (ENotPermitted (go "bare") (go "/srv/../etc") (go "/srv")).
Proof.
  rewrite Validate_exact; [vm_compute; reflexivity| |repeat constructor].
  intros k t E. cbn [nodes] in E. by apply lookup_singleton_Some in E as [_ ?].
Defined.

(** ** The directories of the volume store *)

Import Volumes.

(** The data directory is absolute and the backend's directory one element. *)
Record wfStore (s : VolumeStore) : Prop := {
  wf_dataDir : isAbs (dataDir s) = true;
  wf_subdir : normalSeg (subdir s);
}.

Definition storeRoot (s : VolumeStore) : list bytes := segsOf (pathClean (dataDir s)) ++ [subdir s; go "volumes"].

(** A volume and its directory. *)
Inductive volume : Type :=
| VNamed (name : bytes)
| VAnon (app : bytes) (replica : Z) (target : bytes).

Definition dirOf (s : VolumeStore) (v : volume) : res volErr bytes :=
  match v with
  | VNamed name => NamedVolumeDir s name
  | VAnon app replica target => anonVolumeDir s app replica target
  end.

Definition anonLabel (replica : Z) (target : bytes) : bytes :=
  formatInt replica ++ go "-" ++ take 8 (hexEncode (sha256 target)).

Definition segsOfVolume (s : VolumeStore) (v : volume) : list bytes :=
  storeRoot s ++
  match v with
  | VNamed name => [go "named"; name]
  | VAnon app replica target => [go "anon"; app; anonLabel replica target]
  end.

Ltac normal_lit := split_and!; [by apply (bool_decide_eq_true_1 _)|done..].

Lemma storeRoot_normal s : wfStore s -> Forall normalSeg (storeRoot s).
Proof.
  intros [Ha Hs]. unfold storeRoot. destruct (pathClean_abs _ Ha) as (d & Hd & ->). rewrite segsOf_absPath by done.
  apply Forall_app. split; [done|]. constructor; [done|]. apply Forall_singleton. normal_lit.
Qed.

Lemma root_join s (k : bytes) : wfStore s -> normalSeg k ->
  pathJoin [dataDir s; subdir s; go "volumes"; k] = absPath (storeRoot s ++ [k]).
Proof.
  intros [Ha Hs] Hk. unfold storeRoot. destruct (pathClean_abs _ Ha) as (d & Hd & E). rewrite E.
  rewrite segsOf_absPath, <- app_assoc by done. apply pathJoin_abs; [done..|].
  constructor; [done|]. constructor; [normal_lit|]. by apply Forall_singleton.
Qed.

Lemma ValidateVolumeName_normal kind name : ValidateVolumeName kind name = Ok tt -> normalSeg name.
Proof.
  unfold ValidateVolumeName. destruct (bytes_eqb name []) eqn:E1; [done|].
  destruct (bytes_eqb name dot) eqn:E2; [done|]. destruct (bytes_eqb name dotdot) eqn:E3; [done|]. cbn [orb].
  destruct (containsByte slash name) eqn:E4; [done|]. intros _. split_and!; [|by apply bytes_eqb_false..].
  intros Hin. apply not_true_iff_false in E4. apply E4. apply existsb_exists. exists slash.
  split; [by apply list_elem_of_In|]. by apply bool_decide_eq_true.
Qed.

Lemma underDir_join root k : Forall normalSeg (root ++ [k]) -> underDir (absPath root) (absPath (root ++ [k])) = true.
Proof.
  intros Hn. unfold underDir. pose proof Hn as [Hr _]%Forall_app.
  destruct (pathRel_abs root (root ++ [k]) Hr Hn) as (rel & -> & Hiff & _). apply Hiff. by eexists.
Qed.

(** What both directory builders return. *)
Lemma volumesDir_spec s kind (root : VolumeStore -> bytes) k name :
  wfStore s -> normalSeg k -> root s = absPath (storeRoot s ++ [k]) ->
  (_ ← ValidateVolumeName kind name;
   if negb (underDir (root s) (pathJoin [root s; name])) then Err (EEscapes kind name) else Ok (pathJoin [root s; name])) =
  (_ ← ValidateVolumeName kind name; Ok (absPath (storeRoot s ++ [k; name]))).
Proof.
  intros Hs Hk ->. destruct (ValidateVolumeName kind name) as [[]|e] eqn:E; [|done]. apply ValidateVolumeName_normal in E.
  cbn [mbind res_bind].
  assert (Hn : Forall normalSeg (storeRoot s ++ [k])) by (apply Forall_app; split; [by apply storeRoot_normal|by apply Forall_singleton]).
  assert (Hj : pathJoin [absPath (storeRoot s ++ [k]); name] = absPath ((storeRoot s ++ [k]) ++ [name])).
  { apply pathJoin_abs; [done|by apply pathClean_absPath|done|by apply Forall_singleton]. }
  rewrite Hj, underDir_join by (apply Forall_app; split; [done|by apply Forall_singleton]).
  cbn [negb]. by rewrite <- app_assoc.
Qed.

Lemma NamedVolumeDir_spec s name : wfStore s ->
  NamedVolumeDir s name = _ ← ValidateVolumeName (go "volume") name; Ok (absPath (storeRoot s ++ [go "named"; name])).
Proof.
  intros Hs. apply (volumesDir_spec s (go "volume") namedVolumesRoot); [done|normal_lit|]. apply root_join; [done|normal_lit].
Qed.

Lemma AnonVolumesDir_spec s app : wfStore s ->
  AnonVolumesDir s app = _ ← ValidateVolumeName (go "deployment") app; Ok (absPath (storeRoot s ++ [go "anon"; app])).
Proof.
  intros Hs. apply (volumesDir_spec s (go "deployment") anonVolumesRoot); [done|normal_lit|]. apply root_join; [done|normal_lit].
Qed.

Lemma anonLabel_normal replica target : normalSeg (anonLabel replica target).
Proof.
  unfold anonLabel. pose proof (formatInt_chars replica) as Hf. rewrite forallb_forall in Hf.
  pose proof (proj2 (hexEncode_spec (sha256 target))) as Hh. rewrite Forall_forall in Hh.
  assert (Hdash : forall x, x = formatInt replica ++ go "-" ++ take 8 (hexEncode (sha256 target)) -> Byte.x2d ∈ x).
  { intros x ->. apply elem_of_app. right. by left. }
  split_and!.
  - rewrite !elem_of_app. intros [H|[H|H]].
    + apply list_elem_of_In, Hf in H. by vm_compute in H.
    + revert H. by apply (bool_decide_eq_true_1 _).
    + apply elem_of_take in H as (i & H & _). apply list_elem_of_lookup_2, Hh in H. by vm_compute in H.
  - intros E. specialize (Hdash _ eq_refl). rewrite E in Hdash. by apply elem_of_nil in Hdash.
  - intros E. specialize (Hdash _ eq_refl). rewrite E in Hdash. revert Hdash. by apply (bool_decide_eq_true_1 _).
  - intros E. specialize (Hdash _ eq_refl). rewrite E in Hdash. revert Hdash. by apply (bool_decide_eq_true_1 _).
Qed.

Lemma storeRoot_app_normal s l : wfStore s -> Forall normalSeg l -> Forall normalSeg (storeRoot s ++ l).
Proof. intros Hs Hl. apply Forall_app. split; [by apply storeRoot_normal|done]. Qed.

(** A volume's directory is the store's, under the kind and name of the volume. *)
Lemma dirOf_spec s v d : wfStore s -> dirOf s v = Ok d ->
  Forall normalSeg (segsOfVolume s v) /\ d = absPath (segsOfVolume s v).
Proof.
  intros Hs. destruct v as [name|app replica target]; cbn [dirOf].
  - rewrite NamedVolumeDir_spec by done. destruct (ValidateVolumeName _ name) as [[]|] eqn:E; [|done].
    intros [= <-]. apply ValidateVolumeName_normal in E. split; [|done]. apply storeRoot_app_normal; [done|].
    constructor; [normal_lit|by apply Forall_singleton].
  - unfold anonVolumeDir. rewrite AnonVolumesDir_spec by done.
    destruct (ValidateVolumeName _ app) as [[]|] eqn:E; [|done]. apply ValidateVolumeName_normal in E.
    cbn [mbind res_bind]. intros [= <-].
    assert (Ha : Forall normalSeg (storeRoot s ++ [go "anon"; app])).
    { apply storeRoot_app_normal; [done|]. constructor; [normal_lit|by apply Forall_singleton]. }
    rewrite (pathJoin_abs _ (storeRoot s ++ [go "anon"; app]) [anonLabel replica target]);
      [|done|by apply pathClean_absPath|done|apply Forall_singleton, anonLabel_normal].
    unfold segsOfVolume. rewrite <- app_assoc. split; [|done]. apply storeRoot_app_normal; [done|].
    constructor; [normal_lit|]. constructor; [done|]. apply Forall_singleton, anonLabel_normal.
Qed.

(** ** Removing volumes *)

Inductive removal : Type :=
| RmVolume (name : bytes)
| RmDeployment (app : bytes).

Definition remove (refused : osCall -> bool) (s : VolumeStore) (r : removal) : stm (list osCall) volErr unit :=
  match r with
  | RmVolume name => RemoveVolume refused s name
  | RmDeployment app => ReapAnonymousVolumes refused s app
  end.

(** The volumes a removal is meant to remove. *)
Definition owns (r : removal) (v : volume) : Prop :=
  match r, v with
  | RmVolume name, VNamed name' => name' = name
  | RmDeployment app, VAnon app' _ _ => app' = app
  | _, _ => False
  end.

Definition removedSegs (s : VolumeStore) (r : removal) : list bytes :=
  storeRoot s ++ match r with RmVolume name => [go "named"; name] | RmDeployment app => [go "anon"; app] end.

Lemma remove_calls refused s r c : wfStore s -> c ∈ snd (remove refused s r []) ->
  Forall normalSeg (removedSegs s r) /\ c = RemoveAll (absPath (removedSegs s r)).
Proof.
  intros Hs. unfold removedSegs. destruct r as [name|app]; cbn [remove].
  - unfold RemoveVolume. rewrite NamedVolumeDir_spec by done.
    destruct (ValidateVolumeName _ name) as [[]|] eqn:E; cbn; [|by intros ?%elem_of_nil].
    intros ->%list_elem_of_singleton. apply ValidateVolumeName_normal in E. split; [|done].
    apply storeRoot_app_normal; [done|]. constructor; [normal_lit|by apply Forall_singleton].
  - unfold ReapAnonymousVolumes. rewrite AnonVolumesDir_spec by done.
    destruct (ValidateVolumeName _ app) as [[]|] eqn:E; cbn; [|by intros ?%elem_of_nil].
    intros ->%list_elem_of_singleton. apply ValidateVolumeName_normal in E. split; [|done].
    apply storeRoot_app_normal; [done|]. constructor; [normal_lit|by apply Forall_singleton].
Qed.

(** Whatever name a caller gives, removing a named volume or reaping a deployment
    deletes at most one tree, strictly inside the volume store, and that tree
    holds the directory of a volume exactly when the volume is the one
    removed, or an anonymous volume of the deployment reaped. *)
Theorem removal_isolated refused s r c v d :
  wfStore s -> c ∈ snd (remove refused s r []) -> dirOf s v = Ok d ->
  exists tree, c = RemoveAll tree /\ snd (remove refused s r []) = [c] /\
    (exists k name, segsOf tree = storeRoot s ++ [k; name]) /\
    (segsOf tree `prefix_of` segsOf d <-> owns r v).
Proof.
  intros Hs Hc Hd. destruct (remove_calls refused s r c Hs Hc) as [Hn ->].
  destruct (dirOf_spec s v d Hs Hd) as [Hv ->]. exists (absPath (removedSegs s r)). rewrite !segsOf_absPath by done.
  split_and!; [done| | |].
  - destruct r as [name|app]; cbn [remove] in *; unfold RemoveVolume, ReapAnonymousVolumes in *;
      rewrite ?NamedVolumeDir_spec, ?AnonVolumesDir_spec in * by done;
      destruct (ValidateVolumeName _ _) as [[]|]; cbn in *; first [done|by apply elem_of_nil in Hc].
  - unfold removedSegs. destruct r; by eauto.
  - unfold removedSegs, segsOfVolume. split.
    + intros Hp%prefix_app_inv. destruct r, v; cbn in *;
        apply prefix_cons_inv_1 in Hp as Hk; apply prefix_cons_inv_2 in Hp; try done; by apply prefix_cons_inv_1 in Hp.
    + intros Ho. apply prefix_app. destruct r, v; cbn in Ho; try done; subst; do 2 apply prefix_cons; apply prefix_nil.
Qed.

Definition exStore : VolumeStore := NewVolumeStore (go "/var/lib/cornus") (go "bare") (go "bare").

Lemma exStore_wf : wfStore exStore.
Proof. split; [done|]. normal_lit. Qed.

Lemma removal_isolated_witness :
  segsOf (go "/var/lib/cornus/bare/volumes/anon/web") `prefix_of`
    segsOf (go "/var/lib/cornus/bare/volumes/anon/web/0-bd47413b").
Proof.
  destruct (removal_isolated (fun _ => false) exStore (RmDeployment (go "web"))
    (RemoveAll (go "/var/lib/cornus/bare/volumes/anon/web")) (VAnon (go "web") 0 (go "/data"))
    (go "/var/lib/cornus/bare/volumes/anon/web/0-bd47413b")) as (tree & E & _ & _ & Hiff).
  - exact exStore_wf.
  - assert (snd (remove (fun _ => false) exStore (RmDeployment (go "web")) []) =
      [RemoveAll (go "/var/lib/cornus/bare/volumes/anon/web")]) as -> by (vm_compute; reflexivity). by left.
  - vm_compute. reflexivity.
  - injection E as <-. by apply Hiff.
Defined.

(** ** The mounts of an instance *)

Definition volumeOf (spec : DeploySpec) (replica : Z) (v : VolumeSpec) : volume :=
  if negb (bytes_eqb (v_Name v) []) then VNamed (v_Name v) else VAnon (ds_Name spec) replica (v_Target v).

Lemma volumeDir_dirOf s spec replica v : volumeDir s spec replica v = dirOf s (volumeOf spec replica v).
Proof. unfold volumeDir, volumeOf. by destruct (negb _). Qed.

Definition specMounts (spec : DeploySpec) : list ociMount :=
  map (fun m => OCIBindMount (Source m) (Target m) (ReadOnly m)) (Mounts spec).

(** The directories of the volumes handled so far are the ones created, in order, and
    follow the spec's own binds in the mounts. *)
Definition mountsInv (s : VolumeStore) (spec : DeploySpec) (replica : Z) (pre : list VolumeSpec)
    (acc : list ociMount * list VolumeBacking) (tr : list osCall) : Prop :=
  exists dirs, Forall2 (fun v d => dirOf s (volumeOf spec replica v) = Ok d) pre dirs /\
    tr = map MkdirAll dirs /\
    fst acc = specMounts spec ++ zip_with (fun v d => OCIBindMount d (v_Target v) (v_ReadOnly v)) pre dirs.

Lemma InstanceMounts_spec refused s spec replica :
  wp (InstanceMounts refused s spec replica) (fun r tr =>
    (exists pre dirs, pre `prefix_of` ds_Volumes spec /\
       Forall2 (fun v d => dirOf s (volumeOf spec replica v) = Ok d) pre dirs /\ tr = map MkdirAll dirs) /\
    forall acc, r = Ok acc -> mountsInv s spec replica (ds_Volumes spec) acc tr) [].
Proof.
  unfold InstanceMounts. apply (wp_foldM _ (mountsInv s spec replica)).
  - exists []. split_and!; [constructor|done|by rewrite app_nil_r].
  - intros pre v suf acc tr Ev (dirs & Hd & -> & Ha).
    assert (Hp : pre `prefix_of` ds_Volumes spec) by (rewrite Ev; by eexists).
    unfold wp, volumeStep. destruct (bytes_eqb (v_Target v) []); [by cbn; split; [eauto 10|]|].
    rewrite volumeDir_dirOf. unfold lift, call, mbind, stm_bind.
    destruct (dirOf s (volumeOf spec replica v)) as [d|e] eqn:Ed; [|by cbn; split; [eauto 10|]].
    assert (Hd' : Forall2 (fun v d => dirOf s (volumeOf spec replica v) = Ok d) (pre ++ [v]) (dirs ++ [d])).
    { by apply Forall2_app; [|repeat constructor]. }
    destruct (refused (MkdirAll d)); cbn.
    + split; [|done]. exists (pre ++ [v]), (dirs ++ [d]). rewrite map_app. split_and!; [|done..].
      exists suf. by rewrite Ev, <- app_assoc.
    + exists (dirs ++ [d]). rewrite map_app. split_and!; [done..|]. cbn.
      rewrite zip_with_app by (by eapply Forall2_length). by rewrite Ha, <- app_assoc.
  - intros acc tr (dirs & Hd & -> & Ha). split; [by eauto 10|]. intros acc' [= <-]. by exists dirs.
Qed.

Lemma volume_in_store s v d : wfStore s -> dirOf s v = Ok d -> storeRoot s `prefix_of` segsOf d.
Proof.
  intros Hs Hd. destruct (dirOf_spec s v d Hs Hd) as [Hn ->]. rewrite segsOf_absPath by done. by eexists.
Qed.

(** Every mount a host backend hands the runtime for a validated deployment binds a source below
    an allowed prefix or a directory of the volume store, save mounts that
    name no source; and only directories of the store are created on the way, even when
    the call fails. *)
Theorem instance_mounts_confined refused p fs backend s spec replica r tr :
  wfStore s -> absPrefixes p -> policy_Validate p fs backend spec = Ok tt ->
  InstanceMounts refused s spec replica [] = (r, tr) ->
  (forall c, c ∈ tr -> exists d, c = MkdirAll d /\ storeRoot s `prefix_of` segsOf d) /\
  (forall ms vs om, r = Ok (ms, vs) -> om ∈ ms ->
     om_Source om = [] \/
     (exists P, P ∈ AllowBindPrefixes p /\ segsOf (pathClean P) `prefix_of` segsOf (pathClean (om_Source om))) \/
     (storeRoot s `prefix_of` segsOf (om_Source om) /\ MkdirAll (om_Source om) ∈ tr)).
Proof.
  intros Hs Hp HV E. pose proof (InstanceMounts_spec refused s spec replica) as Hw. unfold wp in Hw. rewrite E in Hw.
  destruct Hw as [(pre & dirs & _ & Hd & Etr) Hok]. cbn [snd fst] in *. split.
  - intros c Hc. rewrite Etr in Hc. apply list_elem_of_fmap in Hc as (d & -> & Hin). exists d. split; [done|].
    apply list_elem_of_lookup in Hin as [i Hi]. eapply Forall2_lookup_r in Hd as (v & _ & Hv); [|exact Hi].
    by eapply volume_in_store.
  - intros ms vs om -> Hom. destruct (Hok _ eq_refl) as (dirs' & Hd' & Etr' & Ems). cbn [fst] in Ems. rewrite Ems in Hom.
    apply elem_of_app in Hom as [Hom|Hom].
    + apply list_elem_of_fmap in Hom as (m & -> & Hm). cbn [OCIBindMount om_Source].
      destruct (decide (Source m = [])) as [|Hne]; [by left|]. right. left.
      unfold policy_Validate in HV. destruct (_ && _); [done|].
      by destruct (bindAllowed_abs p fs (Source m) Hp (validateMounts_ok _ _ _ _ _ HV Hm Hne)) as (_ & HP & _).
    + right. right. apply elem_of_lookup_zip_with in Hom as (i & v & d & -> & Hv & Hi). cbn [OCIBindMount om_Source].
      eapply Forall2_lookup_lr in Hd' as Hvd; [|exact Hv|exact Hi]. split; [by eapply volume_in_store|].
      rewrite Etr'. apply list_elem_of_fmap. exists d. split; [done|]. by eapply list_elem_of_lookup_2.
Qed.

Definition exVolSpec : DeploySpec :=
  mkDeploySpec (go "web") false [mkMount (go "/data/app") (go "/app") false] [mkVolumeSpec (go "db") (go "/var/db") false].

Lemma exVolSpec_mounts :
  fst (InstanceMounts (fun _ => false) exStore exVolSpec 0 []) =
  Ok ([OCIBindMount (go "/data/app") (go "/app") false;
       OCIBindMount (go "/var/lib/cornus/bare/volumes/named/db") (go "/var/db") false],
      [mkVolumeBacking (go "/var/lib/cornus/bare/volumes/named/db") (go "/var/db")]).
Proof. vm_compute. reflexivity. Qed.

Lemma instance_mounts_confined_witness :
  exists r tr, InstanceMounts (fun _ => false) exStore exVolSpec 0 [] = (r, tr) /\ is_ok r = true /\
    forall c, c ∈ tr -> exists d, c = MkdirAll d /\ storeRoot exStore `prefix_of` segsOf d.
Proof.
  destruct (InstanceMounts (fun _ => false) exStore exVolSpec 0 []) as [r tr] eqn:E. exists r, tr. split; [done|]. split.
  - pose proof exVolSpec_mounts as H. rewrite E in H. cbn in H. by rewrite H.
  - refine (proj1 (instance_mounts_confined (fun _ => false) (mkPolicy false [go "/data"]) exTree (go "bare")
      exStore exVolSpec 0 r tr exStore_wf _ _ E)); [repeat constructor|vm_compute; reflexivity].
Defined.

(** ** Sources the check does not hold

    The source is cleaned before its links are resolved, but handed to the runtime as it
    was written: [..] after a link leaves the directory the link leads to, not the one it
    is in. Here [/srv/l] leads to [/etc/ssl], and the mount is of [/etc/shadow]. *)
Definition linkTree : FS := mkFS
  (list_to_map [([go "srv"], NDir); ([go "srv"; go "l"], NLink (go "/etc/ssl")); ([go "etc"], NDir);
                ([go "etc"; go "ssl"], NDir); ([go "etc"; go "shadow"], NFile)]) [].

Lemma unclean_source_escapes :
  let p := mkPolicy false [go "/srv"] in
  let spec := mkDeploySpec (go "web") false [mkMount (go "/srv/l/../shadow") (go "/s") true] [] in
  policy_Validate p linkTree (go "bare") spec = Ok tt /\
  (fun r => match r with Ok (ms, _) => map om_Source ms | Err _ => [] end)
    (fst (InstanceMounts (fun _ => false) exStore spec 0 [])) = [go "/srv/l/../shadow"] /\
  EvalSymlinks linkTree (go "/srv/l/../shadow") = Some (go "/etc/shadow").
Proof. split_and!; vm_compute; reflexivity. Qed.

(** A link that leads nowhere yet does not resolve, so its parent is taken and the link
    itself becomes part of the path to create. *)
Lemma dangling_link_passes :
  let p := mkPolicy false [go "/srv"] in
  let fs := mkFS (list_to_map [([go "srv"], NDir); ([go "srv"; go "l"], NLink (go "/etc/new")); ([go "etc"], NDir)]) [] in
  let fs' := mkFS (list_to_map [([go "srv"], NDir); ([go "srv"; go "l"], NLink (go "/etc/new")); ([go "etc"], NDir);
                                ([go "etc"; go "new"], NDir)]) [] in
  bindAllowed p fs (go "/srv/l") = true /\ bindAllowed p fs' (go "/srv/l") = false /\
  EvalSymlinks fs' (go "/srv/l") = Some (go "/etc/new").
Proof. split_and!; vm_compute; reflexivity. Qed.

(** A mount without a source passes as a volume, and is bound all the same. *)
Lemma empty_source_bound :
  let spec := mkDeploySpec (go "web") false [mkMount [] (go "/s") false] [] in
  policy_Validate (mkPolicy false []) linkTree (go "bare") spec = Ok tt /\
  (fun r => match r with Ok (ms, _) => ms | Err _ => [] end)
    (fst (InstanceMounts (fun _ => false) exStore spec 0 [])) = [OCIBindMount [] (go "/s") false].
Proof. split; vm_compute; reflexivity. Qed.
