(* ===== verification/Activity.v ===== *)
(** * The activity log

    [pkg/activity/activity.go]: events and their encoding, the recorder that appends them to one
    file per process, rotation, and the questions asked of the records; and the recovery
    a server makes at startup, [pkg/server/activity.go].

    A directory maps file names to files and files to their bytes; a renamed
    file stays the file a process has open. How much of a write reaches the file, the
    clock, the random identity of a run and the outcome of a system call are
    arguments of the operations.

    - [Event], [marshalEvent], [unmarshalEvent]: one line of the log.
    - [Recorder]: [act_Open], [Begin], [act_End], [Resolve], [act_write], [act_Close].
    - [act_Read], [unfinishedFrom], [CleanExit]: reading back.
    - [recoverActivities]: what a starting server makes of what earlier runs left. *)
From stdpp Require Import base list gmap strings numbers sorting.
From Stdlib Require Import ZArith Lia.
From Stdlib.Strings Require Import Byte.
From S2P Require Import Prelude GoStd GoPath GoJson.
Open Scope Z_scope.

(** ** Events *)

Definition KindServer : bytes := go "server".
Definition KindCaretaker : bytes := go "caretaker".
Definition KindMount9P : bytes := go "9p-mount".
Definition KindBuild : bytes := go "build".
Definition KindDeploy : bytes := go "deploy".
Definition KindService : bytes := go "service".

Definition writeAhead (k : bytes) : bool := bytes_eqb k KindMount9P.

Definition PhaseBegin : bytes := go "begin".
Definition PhaseEnd : bytes := go "end".

Definition StatusOK : bytes := go "ok".
Definition StatusError : bytes := go "error".
Definition StatusRecovered : bytes := go "recovered".

Record Event := mkEvent {
  TS : bytes;
  ev_Proc : bytes;
  ev_Instance : bytes;
  PID : Z;
  ev_Kind : bytes;
  ev_Phase : bytes;
  ev_ID : bytes;
  ev_Target : bytes;
  Attrs : gmap bytes bytes;
  ev_Status : bytes;
  ev_Err : bytes;
}.

#[export] Instance Event_eq_dec : EqDecision Event.
Proof. solve_decision. Defined.

Definition zeroEvent : Event := mkEvent [] [] [] 0 [] [] [] [] ∅ [] [].

(** *** Encoding

    Empty fields marked [omitempty] are left out; a map is written in key order. *)

Definition keyLe (a b : bytes * bytes) : Prop := bytes_le (fst a) (fst b).
#[export] Instance keyLe_dec a b : Decision (keyLe a b).
Proof. unfold keyLe. apply _. Defined.

Definition attrsJson (m : gmap bytes bytes) : json :=
  JObj (map (fun kv => (fst kv, JStr (snd kv))) (merge_sort keyLe (map_to_list m))).

Definition omitStr (k s : bytes) : list (bytes * json) := match s with [] => [] | _ => [(k, JStr s)] end.

Definition eventJson (e : Event) : json :=
  JObj ([(go "ts", JStr (TS e)); (go "proc", JStr (ev_Proc e)); (go "instance", JStr (ev_Instance e))] ++
        (if PID e =? 0 then [] else [(go "pid", JNum (formatInt (PID e)))]) ++
        [(go "kind", JStr (ev_Kind e)); (go "phase", JStr (ev_Phase e)); (go "id", JStr (ev_ID e))] ++
        omitStr (go "target") (ev_Target e) ++
        (if decide (Attrs e = ∅) then [] else [(go "attrs", attrsJson (Attrs e))]) ++
        omitStr (go "status") (ev_Status e) ++ omitStr (go "err") (ev_Err e)).

Definition marshalEvent (e : Event) : bytes := jsonEncode (eventJson e).

(** *** Decoding

    [null] leaves a string or a number as it is and empties a map; any other mismatch
    is an error. *)

Definition eventFields : list bytes :=
  [go "ts"; go "proc"; go "instance"; go "pid"; go "kind"; go "phase"; go "id"; go "target"; go "attrs"; go "status"; go "err"].

Definition asStr (old : bytes) (v : json) : option bytes :=
  match v with JStr s => Some s | JNull => Some old | _ => None end.

Definition asInt (old : Z) (v : json) : option Z :=
  match v with JNum lit => parseInt64 lit | JNull => Some old | _ => None end.

Fixpoint asEntries (m : gmap bytes bytes) (fs : list (bytes * json)) : option (gmap bytes bytes) :=
  match fs with
  | [] => Some m
  | (k, v) :: fs => s ← asStr [] v; asEntries (<[k := s]> m) fs
  end.

Definition asMap (old : gmap bytes bytes) (v : json) : option (gmap bytes bytes) :=
  match v with JObj fs => asEntries old fs | JNull => Some ∅ | _ => None end.

Definition setField (e : Event) (k : bytes) (v : json) : option Event :=
  let '(mkEvent ts proc inst pid kind phase id target attrs status err) := e in
  match fieldOf eventFields k with
  | None => Some e
  | Some f =>
      if bytes_eqb f (go "ts") then x ← asStr ts v; Some (mkEvent x proc inst pid kind phase id target attrs status err)
      else if bytes_eqb f (go "proc") then x ← asStr proc v; Some (mkEvent ts x inst pid kind phase id target attrs status err)
      else if bytes_eqb f (go "instance") then x ← asStr inst v; Some (mkEvent ts proc x pid kind phase id target attrs status err)
      else if bytes_eqb f (go "pid") then x ← asInt pid v; Some (mkEvent ts proc inst x kind phase id target attrs status err)
      else if bytes_eqb f (go "kind") then x ← asStr kind v; Some (mkEvent ts proc inst pid x phase id target attrs status err)
      else if bytes_eqb f (go "phase") then x ← asStr phase v; Some (mkEvent ts proc inst pid kind x id target attrs status err)
      else if bytes_eqb f (go "id") then x ← asStr id v; Some (mkEvent ts proc inst pid kind phase x target attrs status err)
      else if bytes_eqb f (go "target") then x ← asStr target v; Some (mkEvent ts proc inst pid kind phase id x attrs status err)
      else if bytes_eqb f (go "attrs") then x ← asMap attrs v; Some (mkEvent ts proc inst pid kind phase id target x status err)
      else if bytes_eqb f (go "status") then x ← asStr status v; Some (mkEvent ts proc inst pid kind phase id target attrs x err)
      else x ← asStr err v; Some (mkEvent ts proc inst pid kind phase id target attrs status x)
  end.

Fixpoint setFields (e : Event) (fs : list (bytes * json)) : option Event :=
  match fs with
  | [] => Some e
  | (k, v) :: fs => e' ← setField e k v; setFields e' fs
  end.

Definition unmarshalEvent (line : bytes) : option Event :=
  v ← jsonDecode line;
  match v with
  | JObj fs => setFields zeroEvent fs
  | JNull => Some zeroEvent
  | _ => None
  end.

(** ** Time stamps

    [time.Time.UTC().Format(time.RFC3339Nano)] of a time in nanoseconds since 1970: the
    trailing zeros of the fraction are dropped. *)

Definition padTo (n : nat) (s : bytes) : bytes := replicate (n - length s) Byte.x30 ++ s.

(** Year, month and day of a number of days since 1970. *)
Definition civil (days : Z) : Z * Z * Z :=
  let z := days + 719468 in
  let era := z / 146097 in
  let doe := z - era * 146097 in
  let yoe := (doe - doe / 1460 + doe / 36524 - doe / 146096) / 365 in
  let doy := doe - (365 * yoe + yoe / 4 - yoe / 100) in
  let mp := (5 * doy + 2) / 153 in
  let d := doy - (153 * mp + 2) / 5 + 1 in
  let m := if mp <? 10 then mp + 3 else mp - 9 in
  (yoe + era * 400 + (if m <=? 2 then 1 else 0), m, d).

Definition formatRFC3339Nano (t : Z) : bytes :=
  let secs := t / 1000000000 in
  let nsec := t mod 1000000000 in
  let '(y, m, d) := civil (secs / 86400) in
  let s := secs mod 86400 in
  let frac := rev (trimLeft (fun c => bool_decide (c = Byte.x30)) (rev (padTo 9 (formatInt nsec)))) in
  padTo 4 (formatInt y) ++ go "-" ++ padTo 2 (formatInt m) ++ go "-" ++ padTo 2 (formatInt d) ++ go "T" ++
  padTo 2 (formatInt (s / 3600)) ++ go ":" ++ padTo 2 (formatInt (s / 60 mod 60)) ++ go ":" ++ padTo 2 (formatInt (s mod 60)) ++
  match frac with [] => [] | _ => go "." ++ frac end ++ go "Z".

(** ** The directory

    Names lead to files, files to their bytes and to how many of them are known to be on disk. *)

Record Dir := mkDir {
  names : gmap bytes nat;
  contents : gmap nat bytes;
  synced : gmap nat nat;
  nextFile : nat;
}.

Definition emptyDir : Dir := mkDir ∅ ∅ ∅ 0.

Definition content (d : Dir) (i : nat) : bytes := default [] (contents d !! i).

Definition appendFile (i : nat) (b : bytes) (d : Dir) : Dir :=
  mkDir (names d) (<[i := content d i ++ b]> (contents d)) (synced d) (nextFile d).

Definition syncFile (i : nat) (d : Dir) : Dir :=
  mkDir (names d) (contents d) (<[i := length (content d i)]> (synced d)) (nextFile d).

(** [os.OpenFile] with [O_CREATE|O_APPEND] *)
Definition openAppend (name : bytes) (d : Dir) : nat * Dir :=
  match names d !! name with
  | Some i => (i, d)
  | None => (nextFile d, mkDir (<[name := nextFile d]> (names d)) (<[nextFile d := []]> (contents d)) (synced d) (S (nextFile d)))
  end.

Definition removeName (name : bytes) (d : Dir) : Dir :=
  mkDir (delete name (names d)) (contents d) (synced d) (nextFile d).

Definition renameFile (old new : bytes) (d : Dir) : Dir :=
  match names d !! old with
  | Some i => mkDir (<[new := i]> (delete old (names d))) (contents d) (synced d) (nextFile d)
  | None => d
  end.

(** ** The recorder *)

Definition FileName (proc : bytes) : bytes := proc ++ go ".ndjson".
Definition rotatedPath (path : bytes) : bytes := path ++ go ".1".

Definition defaultMaxBytes : Z := 8 * 2 ^ 20.
(** The cap, from the environment variable's value. *)
Definition maxBytes (env : bytes) : Z :=
  match parseInt env with Some n => if 0 <? n then n else defaultMaxBytes | None => defaultMaxBytes end.

Record Recorder := mkRecorder {
  r_proc : bytes;
  r_instance : bytes;
  r_pid : Z;
  r_f : option nat;
  r_seq : Z;
  r_fail : bool;
}.

Record ActivityRec := mkActivity { a_id : bytes; a_kind : bytes; a_target : bytes; a_ended : bool }.

(** What happens to one write: all of it reaches the file, or an error after
    some of it; the time it is made; whether a sync succeeds. *)
Record ioRes := mkIo { io_now : Z; io_short : option nat; io_sync : bool }.

Definition setErr (r : Recorder) : Recorder :=
  mkRecorder (r_proc r) (r_instance r) (r_pid r) (r_f r) (r_seq r) true.

Definition stamp (now : Z) (r : Recorder) (e : Event) : Event :=
  mkEvent (formatRFC3339Nano now) (r_proc r) (r_instance r) (r_pid r) (ev_Kind e) (ev_Phase e) (ev_ID e) (ev_Target e)
    (Attrs e) (ev_Status e) (ev_Err e).

Definition lineOf (e : Event) : bytes := marshalEvent e ++ [Byte.x0a].

Definition act_write (io : ioRes) (r : Recorder) (e : Event) (sync : bool) (d : Dir) : Recorder * Dir :=
  let line := lineOf (stamp (io_now io) r e) in
  match r_f r with
  | None => (r, d)
  | Some i =>
      match io_short io with
      | Some n => (setErr r, appendFile i (take n line) d)
      | None =>
          let d := appendFile i line d in
          if sync then if io_sync io then (r, syncFile i d) else (setErr r, d) else (r, d)
      end
  end.

(** [Stat] and the removal or the renaming may fail. *)
Definition rotateIfNeeded (ok : bool) (path : bytes) (max : Z) (d : Dir) : option Dir :=
  match names d !! path with
  | None => Some d
  | Some i =>
      if blen (content d i) <=? max then Some d
      else if negb ok then None
      else Some (renameFile path (rotatedPath path) (removeName (rotatedPath path) d))
  end.

(** [None] is an error; [instance] is the random identity of the run. *)
Definition act_Open (ok : bool) (max : Z) (instance : bytes) (pid : Z) (dir proc : bytes) (d : Dir) : option (Recorder * Dir) :=
  if bytes_eqb dir [] || bytes_eqb proc [] || negb ok then None
  else
    let path := FileName proc in
    d ← rotateIfNeeded ok path max d;
    let '(i, d) := openAppend path d in
    Some (mkRecorder proc instance pid (Some i) 0 false, d).

Definition act_Close (r : Recorder) : Recorder :=
  mkRecorder (r_proc r) (r_instance r) (r_pid r) None (r_seq r) (r_fail r).

(** A nil recorder records nothing and gives a nil activity. *)
Definition Begin (io : ioRes) (k target : bytes) (attrs : gmap bytes bytes) (r : option Recorder) (d : Dir) :
    option ActivityRec * option Recorder * Dir :=
  match r with
  | None => (None, None, d)
  | Some r =>
      let r := mkRecorder (r_proc r) (r_instance r) (r_pid r) (r_f r) (r_seq r + 1) (r_fail r) in
      let id := r_instance r ++ go "-" ++ formatInt (r_seq r) in
      let '(r, d) := act_write io r (mkEvent [] [] [] 0 k PhaseBegin id target attrs [] []) (writeAhead k) d in
      (Some (mkActivity id k target false), Some r, d)
  end.

(** The activity's recorder is the one that began it. *)
Definition act_End (io : ioRes) (a : option ActivityRec) (err : option bytes) (r : option Recorder) (d : Dir) :
    option ActivityRec * option Recorder * Dir :=
  match a, r with
  | Some a, Some r =>
      if a_ended a then (Some a, Some r, d)
      else
        let '(status, msg) := match err with None => (StatusOK, []) | Some m => (StatusError, m) end in
        let '(r, d) := act_write io r (mkEvent [] [] [] 0 (a_kind a) PhaseEnd (a_id a) (a_target a) ∅ status msg) false d in
        (Some (mkActivity (a_id a) (a_kind a) (a_target a) true), Some r, d)
  | _, _ => (a, r, d)
  end.

Definition Resolve (io : ioRes) (b : Event) (status msg : bytes) (r : option Recorder) (d : Dir) : option Recorder * Dir :=
  match r with
  | None => (None, d)
  | Some r =>
      let '(r, d) := act_write io r (mkEvent [] [] [] 0 (ev_Kind b) PhaseEnd (ev_ID b) (ev_Target b)
                        {[ go "recoveredFrom" := ev_Instance b ]} status msg) false d in
      (Some r, d)
  end.

(** ** Reading back *)

Definition parseRecords (b : bytes) : list Event :=
  omap (fun line => if bytes_eqb (trimSpace line) [] then None else unmarshalEvent line) (split Byte.x0a b).

Definition readFile (d : Dir) (name : bytes) : list Event :=
  match names d !! name with None => [] | Some i => parseRecords (content d i) end.

Definition isLive (n : bytes) : bool := hasSuffix n (go ".ndjson").
Definition isRetained (n : bytes) : bool := hasSuffix n (go ".ndjson.1").

Definition bytes_ltb (a b : bytes) : bool := bytes_leb a b && negb (bytes_eqb a b).

(** [sort.SliceStable] by time stamp. *)
Fixpoint insertTS (e : Event) (l : list Event) : list Event :=
  match l with
  | [] => [e]
  | x :: l' => if bytes_ltb (TS x) (TS e) then x :: insertTS e l' else e :: l
  end.
Definition sortTS (l : list Event) : list Event := foldr insertTS [] l.

Definition act_Read (d : Dir) : list Event :=
  let files := sortStrings (filter (fun n => isLive n || isRetained n = true) (elements (dom (names d)))) in
  sortTS (concat (map (readFile d) files)).

Definition unfinishedFrom (events : list Event) : list Event :=
  let ended := map ev_ID (filter (fun e => ev_Phase e = PhaseEnd) events) in
  filter (fun e => ev_Phase e = PhaseBegin /\ ev_ID e ∉ ended) events.

Definition Unfinished (d : Dir) : list Event := unfinishedFrom (act_Read d).

(** Known, and clean. *)
Definition CleanExit (events : list Event) (instance : bytes) : bool * bool :=
  match List.find (fun e => bytes_eqb (ev_Phase e) PhaseBegin && bytes_eqb (ev_Instance e) instance &&
                       (bytes_eqb (ev_Kind e) KindServer || bytes_eqb (ev_Kind e) KindCaretaker)) events with
  | None => (false, false)
  | Some b =>
      match List.find (fun e => bytes_eqb (ev_Phase e) PhaseEnd && bytes_eqb (ev_ID e) (ev_ID b)) events with
      | Some e => (true, negb (bytes_eqb (ev_Status e) StatusRecovered))
      | None => (true, false)
      end
  end.

(** ** Mounts and recovery *)

(** The line the kernel shows for a mount: blanks and backslashes of the mount point are
    written in octal. *)
Definition octalByte (c : byte) : bytes :=
  if bool_decide (c = Byte.x20) then go "\040" else if bool_decide (c = Byte.x09) then go "\011"
  else if bool_decide (c = Byte.x0a) then go "\012" else if bool_decide (c = Byte.x5c) then go "\134" else [c].
Definition mountinfoLine (mp : bytes) : bytes := go "36 35 0:42 / " ++ concat (map octalByte mp) ++ go " rw,relatime - 9p none rw".
Definition mountinfo (mounts : list bytes) : bytes := concat (map (fun mp => mountinfoLine mp ++ [Byte.x0a]) mounts).

Definition IsMountpoint (mounts : list bytes) (path : bytes) : bool :=
  let want := pathClean path in
  existsb (fun line =>
    match Fields line with
    | _ :: _ :: _ :: _ :: mp :: _ => bytes_eqb (pathClean mp) want
    | _ => false
    end) (split Byte.x0a (mountinfo mounts)).

(** The last mount on a mount point goes first. *)
Fixpoint removeLast (t : bytes) (mounts : list bytes) : list bytes :=
  match mounts with
  | [] => []
  | m :: l => if bytes_eqb m t && negb (bool_decide (t ∈ l)) then l else m :: removeLast t l
  end.

(** Plainly, or else detached; [refused] are the mount points the kernel keeps. *)
Definition Unmount9P (refused : bytes -> bool) (target : bytes) (mounts : list bytes) : list bytes :=
  if refused target then mounts else removeLast target mounts.

Record recState := mkRec { s_rec : option Recorder; s_dir : Dir; s_mounts : list bytes }.

Section recover.
(** What becomes of the record that closes an activity, and which mounts cannot be removed. *)
Context (io : Event -> ioRes) (refused : bytes -> bool).

Definition resolveIn (e : Event) (msg : bytes) (s : recState) : recState :=
  let '(r, d) := Resolve (io e) e StatusRecovered msg (s_rec s) (s_dir s) in mkRec r d (s_mounts s).

Definition recoverMount (e : Event) (s : recState) : recState :=
  if negb (IsMountpoint (s_mounts s) (ev_Target e)) then resolveIn e (go "mountpoint was already gone") s
  else
    let s := mkRec (s_rec s) (s_dir s) (Unmount9P refused (ev_Target e) (s_mounts s)) in
    if IsMountpoint (s_mounts s) (ev_Target e) then s
    else resolveIn e (go "unmounted " ++ ev_Target e ++ go " at startup") s.

Definition ownInstance (r : option Recorder) : bytes := match r with Some r => r_instance r | None => [] end.

Definition recoverOne (s : recState) (e : Event) : recState :=
  if bytes_eqb (ev_Instance e) (ownInstance (s_rec s)) then s
  else if bytes_eqb (ev_Kind e) KindServer || bytes_eqb (ev_Kind e) KindCaretaker
    then resolveIn e (go "did not shut down cleanly") s
  else if bytes_eqb (ev_Kind e) KindMount9P then recoverMount e s
  else s.

Definition recoverActivities (s : recState) : recState :=
  fold_left recoverOne (unfinishedFrom (act_Read (s_dir s))) s.
End recover.

(** *** Events read back *)

Record wfEvent (e : Event) : Prop := {
  wf_strings : Forall (fun s => utf8Valid s = true)
    [TS e; ev_Proc e; ev_Instance e; ev_Kind e; ev_Phase e; ev_ID e; ev_Target e; ev_Status e; ev_Err e];
  wf_pid : -2 ^ 63 <= PID e < 2 ^ 63;
  wf_attrs : map_Forall (fun k v => utf8Valid k = true /\ utf8Valid v = true) (Attrs e);
}.

Lemma asEntries_fold l m : asEntries m (map (fun kv => (fst kv, JStr (snd kv))) l) =
  Some (foldl (fun m kv => <[fst kv := snd kv]> m) m l).
Proof. revert m. induction l as [|[k v] l IH]; intros m; [done|]. cbn. apply IH. Qed.

Lemma fold_insert_map (l : list (bytes * bytes)) (m : gmap bytes bytes) :
  l ≡ₚ map_to_list m -> foldl (fun m kv => <[fst kv := snd kv]> m) ∅ l = m.
Proof.
  intros Hp. assert (E : foldl (fun m kv => <[fst kv := snd kv]> m) ∅ l = list_to_map (rev l) :> gmap bytes bytes).
  { clear Hp. induction l as [|[k v] l IH] using rev_ind; [done|]. rewrite foldl_app, rev_app_distr. cbn. by rewrite IH. }
  assert (Hr : rev l ≡ₚ map_to_list m) by (by rewrite <- Permutation_rev).
  rewrite E, <- (list_to_map_to_list m). apply list_to_map_proper; [|done]. rewrite Hr. apply NoDup_fst_map_to_list.
Qed.

Lemma attrsJson_back m : asMap ∅ (attrsJson m) = Some m.
Proof.
  cbn [asMap attrsJson]. rewrite asEntries_fold. f_equal. apply fold_insert_map. apply merge_sort_Permutation.
Qed.

Lemma wfJson_attrs m d : d < maxNestingDepth -> map_Forall (fun k v => utf8Valid k = true /\ utf8Valid v = true) m ->
  wfJson d (attrsJson m).
Proof.
  intros Hd Hm. constructor; [done|]. apply Forall_map, Forall_forall. intros [k v] Hin. cbn [fst snd].
  rewrite merge_sort_Permutation in Hin. apply elem_of_map_to_list in Hin. destruct (Hm k v Hin) as [Hk Hv]. split; [done|].
  by constructor.
Qed.

Lemma omitStr_wf k s d : utf8Valid k = true -> utf8Valid s = true ->
  Forall (fun kv => utf8Valid (fst kv) = true /\ wfJson d (snd kv)) (omitStr k s).
Proof. intros Hk Hs. destruct s; repeat constructor; done. Qed.

Lemma wfJson_event e : wfEvent e -> wfJson 0 (eventJson e).
Proof.
  intros [Hs Hp Ha]. rewrite !Forall_cons in Hs. destruct Hs as (H1 & H2 & H3 & H4 & H5 & H6 & H7 & H8 & H9 & _).
  constructor; [done|]. rewrite !Forall_app. split_and!; try (by apply omitStr_wf).
  - repeat constructor; cbn [fst snd]; done.
  - destruct (PID e =? 0); repeat constructor. apply isNumber_formatInt.
  - repeat constructor; cbn [fst snd]; done.
  - case_decide; [constructor|]. apply Forall_singleton. split; [done|]. by apply wfJson_attrs.
Qed.

Lemma setFields_app e l1 l2 : setFields e (l1 ++ l2) = e' ← setFields e l1; setFields e' l2.
Proof.
  revert e. induction l1 as [|[k v] l1 IH]; intros e; [done|]. cbn. destruct (setField e k v); [apply IH|done].
Qed.

(** Each group of fields sets its part of the event. *)
Section set.
Context (ts pr ins : bytes) (pid : Z) (k ph id tg : bytes) (m : gmap bytes bytes) (st er : bytes).

Lemma set_head : setFields zeroEvent [(go "ts", JStr ts); (go "proc", JStr pr); (go "instance", JStr ins)] =
  Some (mkEvent ts pr ins 0 [] [] [] [] ∅ [] []).
Proof. reflexivity. Qed.

Lemma set_pid : -2 ^ 63 <= pid < 2 ^ 63 ->
  setFields (mkEvent ts pr ins 0 [] [] [] [] ∅ [] []) (if pid =? 0 then [] else [(go "pid", JNum (formatInt pid))]) =
  Some (mkEvent ts pr ins pid [] [] [] [] ∅ [] []).
Proof.
  intros Hp. destruct (Z.eqb_spec pid 0) as [->|_]; [done|].
  transitivity (x ← parseInt64 (formatInt pid); Some (mkEvent ts pr ins x [] [] [] [] ∅ [] [])); [|by rewrite parseInt64_format].
  cbn [setFields]. by destruct (parseInt64 (formatInt pid)) eqn:E; cbn; rewrite E.
Qed.

Lemma set_kind : setFields (mkEvent ts pr ins pid [] [] [] [] ∅ [] [])
    [(go "kind", JStr k); (go "phase", JStr ph); (go "id", JStr id)] = Some (mkEvent ts pr ins pid k ph id [] ∅ [] []).
Proof. reflexivity. Qed.

Lemma set_target : setFields (mkEvent ts pr ins pid k ph id [] ∅ [] []) (omitStr (go "target") tg) =
  Some (mkEvent ts pr ins pid k ph id tg ∅ [] []).
Proof. by destruct tg. Qed.

Lemma set_attrs : setFields (mkEvent ts pr ins pid k ph id tg ∅ [] []) (if decide (m = ∅) then [] else [(go "attrs", attrsJson m)]) =
  Some (mkEvent ts pr ins pid k ph id tg m [] []).
Proof.
  case_decide as E; [by rewrite E|].
  transitivity (x ← asMap ∅ (attrsJson m); Some (mkEvent ts pr ins pid k ph id tg x [] [])); [|by rewrite attrsJson_back].
  by destruct (asMap ∅ (attrsJson m)) eqn:Em; cbn [setFields setField]; cbn -[asMap attrsJson]; rewrite Em.
Qed.

Lemma set_status : setFields (mkEvent ts pr ins pid k ph id tg m [] []) (omitStr (go "status") st) =
  Some (mkEvent ts pr ins pid k ph id tg m st []).
Proof. by destruct st. Qed.

Lemma set_err : setFields (mkEvent ts pr ins pid k ph id tg m st []) (omitStr (go "err") er) =
  Some (mkEvent ts pr ins pid k ph id tg m st er).
Proof. by destruct er. Qed.
End set.

(** What [Begin] and [End] write is read back as the event it was. *)
Lemma unmarshalEvent_marshal e : wfEvent e -> unmarshalEvent (marshalEvent e) = Some e.
Proof.
  intros H. unfold unmarshalEvent, marshalEvent. rewrite decode_encode by (by apply wfJson_event).
  cbn [mbind option_bind eventJson]. destruct H as [_ Hp _]. destruct e as [ts pr ins pid k ph id tg m st er].
  cbn [TS ev_Proc ev_Instance PID ev_Kind ev_Phase ev_ID ev_Target Attrs ev_Status ev_Err] in *.
  rewrite setFields_app, set_head. cbn [mbind option_bind]. rewrite setFields_app, set_pid by done. cbn [mbind option_bind].
  rewrite setFields_app, set_kind. cbn [mbind option_bind]. rewrite setFields_app, set_target. cbn [mbind option_bind].
  rewrite setFields_app, set_attrs. cbn [mbind option_bind]. rewrite setFields_app, set_status. cbn [mbind option_bind].
  apply set_err.
Qed.
