(* ===== verification/ActivityLog.v ===== *)
(** * What the activity log keeps

    Lines of the log and what reading makes of them when writes and crashes cut them
    short ([torn_record_cost]), what a synced record survives ([mount_begin_durable]), the
    order records are read in, and what rotation forgets. *)
From stdpp Require Import base list gmap strings numbers sorting.
From Stdlib Require Import ZArith Lia.
From Stdlib.Strings Require Import Byte.
From S2P Require Import Prelude GoStd GoPath GoJson GoJsonTorn Activity.
Open Scope Z_scope.

(** ** Lines *)

Lemma parseRecords_app a b : parseRecords (a ++ Byte.x0a :: b) = parseRecords a ++ parseRecords b.
Proof. unfold parseRecords. by rewrite GoPath.split_app, omap_app. Qed.

Lemma parseRecords_nil : parseRecords [] = [].
Proof. reflexivity. Qed.

Lemma wfJson_recordObj e : wfEvent e -> exists fs, eventJson e = JObj fs /\ recordObj fs.
Proof.
  intros He. eexists. split; [reflexivity|]. split; [|split; [exact (wfJson_event e He)|by eexists _, _, _]].
  destruct He as [Hs _ Ha]. rewrite !Forall_cons in Hs. destruct Hs as (H1 & H2 & H3 & H4 & H5 & H6 & H7 & H8 & H9 & _).
  assert (Ho : forall k s, utf8Valid k = true -> utf8Valid s = true ->
    Forall (fun kv => utf8Valid (fst kv) = true /\ recJson (snd kv)) (omitStr k s)).
  { intros k s Hk Hs. destruct s; repeat constructor; done. }
  constructor. rewrite !Forall_app. split_and!; try (by apply Ho).
  - repeat constructor; cbn [fst snd]; done.
  - destruct (PID e =? 0); repeat constructor.
  - repeat constructor; cbn [fst snd]; done.
  - case_decide; [constructor|]. apply Forall_singleton. split; [done|]. constructor. apply Forall_map, Forall_forall.
    intros [k v] Hin. cbn [fst snd]. rewrite merge_sort_Permutation in Hin. apply elem_of_map_to_list in Hin.
    destruct (Ha k v Hin) as [Hk Hv]. split; [done|by constructor].
Qed.

Lemma marshal_printable e : wfEvent e -> printable (marshalEvent e).
Proof. intros He. eapply printable_encode. by apply wfJson_event. Qed.

Lemma marshal_shape e : exists b, marshalEvent e = Byte.x7b :: b ++ [Byte.x7d].
Proof. unfold marshalEvent. cbn [jsonEncode eventJson]. by eexists. Qed.

Lemma marshal_notBlank e : trimSpace (marshalEvent e) <> [].
Proof.
  destruct (marshal_shape e) as [b ->]. rewrite app_comm_cons, trimSpace_ends; [by destruct b| |done].
  by rewrite runes_cons_ascii.
Qed.

(** A line without a newline in it is one line. *)
Lemma parseRecords_single l : Byte.x0a ∉ l ->
  parseRecords l = match (if bytes_eqb (trimSpace l) [] then None else unmarshalEvent l) with Some e => [e] | None => [] end.
Proof. intros H. unfold parseRecords. by rewrite split_nosep. Qed.

Lemma parseRecords_line e rest : wfEvent e -> parseRecords (lineOf e ++ rest) = e :: parseRecords rest.
Proof.
  intros He. unfold lineOf. rewrite <- app_assoc. cbn [app]. rewrite parseRecords_app.
  rewrite parseRecords_single by (by apply printable_noNewline, marshal_printable).
  rewrite bytes_eqb_neq by apply marshal_notBlank. by rewrite unmarshalEvent_marshal.
Qed.

(** A file whose last record is whole. *)
Definition cleanTail (b : bytes) : Prop := b = [] \/ exists a, b = a ++ [Byte.x0a].

Lemma parseRecords_clean a b : cleanTail a -> parseRecords (a ++ b) = parseRecords a ++ parseRecords b.
Proof.
  intros [->|[a' ->]]; [done|]. rewrite <- app_assoc. cbn [app]. rewrite !parseRecords_app, parseRecords_nil. by rewrite app_nil_r.
Qed.

Lemma cleanTail_line a e : cleanTail (a ++ lineOf e).
Proof. right. exists (a ++ marshalEvent e). unfold lineOf. by rewrite app_assoc. Qed.

(** ** Cut records *)

Lemma prefix_noNewline (t l : bytes) : t `prefix_of` l -> Byte.x0a ∉ l -> Byte.x0a ∉ t.
Proof. intros [k ->] H Hin. apply H. apply elem_of_app. by left. Qed.

Lemma afterCut_event e p q : wfEvent e -> p `prefix_of` marshalEvent e -> afterCut q -> afterCut (p ++ q).
Proof.
  intros He. destruct (wfJson_recordObj e He) as (fs & E & Hfs). unfold marshalEvent. rewrite E. by apply afterCut_record.
Qed.

Lemma unmarshal_lost e p q : wfEvent e -> p `prefix_of` marshalEvent e -> p <> [] -> afterCut q ->
  p <> marshalEvent e \/ q <> [] -> unmarshalEvent (p ++ q) = None.
Proof.
  intros He. destruct (wfJson_recordObj e He) as (fs & E & Hfs). unfold marshalEvent. rewrite E. intros Hp Hn Hq Hne.
  unfold unmarshalEvent. by rewrite (cut_record_lost fs).
Qed.

Lemma afterCut_line e : wfEvent e -> afterCut (marshalEvent e).
Proof. intros He. rewrite <- (app_nil_r (marshalEvent e)). by apply (afterCut_event e); [| |apply afterCut_nil]. Qed.

(** A record cut short and the next record on the same line are both lost. *)
Lemma parseRecords_merged t e1 e2 rest : wfEvent e1 -> wfEvent e2 -> t `prefix_of` marshalEvent e1 -> t <> [] ->
  parseRecords (t ++ lineOf e2 ++ rest) = parseRecords rest.
Proof.
  intros H1 H2 Hp Hn. unfold lineOf. rewrite <- app_assoc, app_assoc. cbn [app]. rewrite parseRecords_app, parseRecords_single.
  - rewrite (unmarshal_lost e1); [by destruct (bytes_eqb _ _)|done..|by apply afterCut_line|].
    right. destruct (marshal_shape e2) as [b ->]. done.
  - intros [H|H]%elem_of_app; [|by apply printable_noNewline in H; [|apply marshal_printable]].
    by eapply prefix_noNewline; [exact Hp|by apply printable_noNewline, marshal_printable|].
Qed.

(** A short write costs the record it cuts and the one written after it, even if that one
    is written and synced without an error; the records before and after them stay. *)
Theorem torn_record_cost r i e1 s1 io1 n e2 s2 io2 d r1 d1 r2 d2 :
  r_f r = Some i -> cleanTail (content d i) ->
  wfEvent (stamp (io_now io1) r e1) -> wfEvent (stamp (io_now io2) r e2) ->
  io_short io1 = Some n -> (0 < n <= length (marshalEvent (stamp (io_now io1) r e1)))%nat -> io_short io2 = None ->
  act_write io1 r e1 s1 d = (r1, d1) -> act_write io2 r1 e2 s2 d1 = (r2, d2) ->
  forall later, parseRecords (content d2 i ++ later) = parseRecords (content d i) ++ parseRecords later.
Proof.
  intros Hi Hc W1 W2 S1 Hn S2 E1 E2 later. unfold act_write in E1. rewrite Hi, S1 in E1. injection E1 as <- <-.
  unfold act_write in E2. cbn [r_f setErr] in E2. rewrite Hi, S2 in E2.
  change (stamp (io_now io2) (setErr r) e2) with (stamp (io_now io2) r e2) in E2.
  set (t := take n (lineOf (stamp (io_now io1) r e1))) in *.
  assert (Ec : content d2 i = (content d i ++ t) ++ lineOf (stamp (io_now io2) r e2)).
  { assert (Ha : forall b d', content (appendFile i b d') i = content d' i ++ b).
    { intros b d'. unfold content, appendFile. cbn. by rewrite lookup_insert_eq. }
    destruct s2, (io_sync io2); injection E2 as <- <-; unfold content; cbn [contents syncFile];
      fold (content (appendFile i (lineOf (stamp (io_now io2) r e2)) (appendFile i t d)) i); by rewrite !Ha. }
  rewrite Ec, <- !app_assoc, parseRecords_clean by done. f_equal.
  assert (Et : t = take n (marshalEvent (stamp (io_now io1) r e1))) by (subst t; unfold lineOf; by rewrite take_app_le by lia).
  apply (parseRecords_merged _ (stamp (io_now io1) r e1)); [done..| |].
  - rewrite Et. exists (drop n (marshalEvent (stamp (io_now io1) r e1))). by rewrite take_drop.
  - rewrite Et. destruct (marshalEvent (stamp (io_now io1) r e1)); [cbn in Hn; lia|]. by destruct n; [lia|].
Qed.

Definition exRec : Recorder := mkRecorder (go "server") (go "a1b2c3") 7 (Some 0%nat) 0 false.
Definition exDir : Dir := mkDir {[ FileName (go "server") := 0%nat ]} {[ 0%nat := [] ]} ∅ 1.
Definition exBegin (k t : bytes) (id : bytes) : Event := mkEvent [] [] [] 0 k PhaseBegin id t ∅ [] [].
Definition exIo (now : Z) : ioRes := mkIo now None true.

(** The begin of a mount, written whole and synced after a write that was cut at one byte, is
    not in the log. *)
Lemma torn_record_cost_witness :
  exists r1 d1 r2 d2,
    act_write (mkIo 0 (Some 1%nat) true) exRec (exBegin KindBuild (go "img") (go "a1b2c3-1")) false exDir = (r1, d1) /\
    act_write (exIo 1) r1 (exBegin KindMount9P (go "/m") (go "a1b2c3-2")) true d1 = (r2, d2) /\
    forall later, parseRecords (content d2 0 ++ later) = parseRecords (content exDir 0) ++ parseRecords later.
Proof.
  destruct (act_write (mkIo 0 (Some 1%nat) true) exRec (exBegin KindBuild (go "img") (go "a1b2c3-1")) false exDir) as [r1 d1] eqn:E1.
  destruct (act_write (exIo 1) r1 (exBegin KindMount9P (go "/m") (go "a1b2c3-2")) true d1) as [r2 d2] eqn:E2.
  exists r1, d1, r2, d2. split_and!; [done..|].
  refine (torn_record_cost exRec 0 _ _ (mkIo 0 (Some 1%nat) true) 1 _ _ (exIo 1) exDir r1 d1 r2 d2 eq_refl _ _ _ eq_refl _ eq_refl E1 E2).
  - by left.
  - split; [repeat constructor|done|apply map_Forall_empty].
  - split; [repeat constructor|done|apply map_Forall_empty].
  - destruct (marshal_shape (stamp 0 exRec (exBegin KindBuild (go "img") (go "a1b2c3-1")))) as [b Eb].
    cbn [io_now]. rewrite Eb. cbn [length]. lia.
Defined.

(** ** Reading *)

Lemma insertTS_perm e l : insertTS e l ≡ₚ e :: l.
Proof. induction l as [|x l IH]; [done|]. cbn. destruct (bytes_ltb _ _); [|done]. rewrite IH. constructor. Qed.

Lemma sortTS_perm l : sortTS l ≡ₚ l.
Proof. induction l as [|x l IH]; [done|]. cbn. by rewrite insertTS_perm, IH. Qed.

Lemma elem_of_Read d e : e ∈ act_Read d <->
  exists n i, names d !! n = Some i /\ (isLive n || isRetained n) = true /\ e ∈ parseRecords (content d i).
Proof.
  unfold act_Read. rewrite sortTS_perm. rewrite list_elem_of_In, in_concat. split.
  - intros (l & Hl & He). apply in_map_iff in Hl as (n & <- & Hn). apply list_elem_of_In in Hn. rewrite elem_of_sortStrings in Hn.
    apply list_elem_of_filter in Hn as [Hs Hn]. unfold readFile in He. destruct (names d !! n) as [i|] eqn:E; [|done].
    exists n, i. split_and!; [done..|]. by apply list_elem_of_In.
  - intros (n & i & E & Hs & He). exists (readFile d n). split.
    + apply in_map_iff. exists n. split; [done|]. apply list_elem_of_In, elem_of_sortStrings, list_elem_of_filter.
      split; [done|]. apply elem_of_elements, elem_of_dom. by exists i.
    + unfold readFile. rewrite E. by apply list_elem_of_In.
Qed.

Lemma elem_of_unfinished e events : e ∈ unfinishedFrom events <->
  e ∈ events /\ ev_Phase e = PhaseBegin /\ forall x, x ∈ events -> ev_Phase x = PhaseEnd -> ev_ID x <> ev_ID e.
Proof.
  unfold unfinishedFrom. rewrite list_elem_of_filter. split.
  - intros [[Hp Hn] He]. split_and!; [done..|]. intros x Hx Hxp E. apply Hn. rewrite <- E.
    apply list_elem_of_fmap. exists x. split; [done|]. by apply list_elem_of_filter.
  - intros (He & Hp & Hx). split_and!; [done| |done]. intros (x & E & [Hxp Hin]%list_elem_of_filter)%list_elem_of_fmap.
    by apply (Hx x).
Qed.

(** Time stamps drop trailing zeros, so as texts they do not sort in time order: of two records
    20 milliseconds apart the later one is read first. *)
Lemma read_order_reversed :
  let '(_, r, d) := Begin (exIo 1767225600100000000) KindBuild (go "first") ∅ (Some exRec) exDir in
  let '(_, _, d) := Begin (exIo 1767225600120000000) KindBuild (go "second") ∅ r d in
  map (fun e => (TS e, ev_Target e)) (act_Read d) =
    [(go "2026-01-01T00:00:00.12Z", go "second"); (go "2026-01-01T00:00:00.1Z", go "first")].
Proof. vm_compute. reflexivity. Qed.

(** A record left open is forgotten by the second rotation after it. *)
Lemma rotation_forgets :
  let '(_, _, d) := Begin (exIo 0) KindMount9P (go "/m") ∅ (Some exRec) exDir in
  let reopen d := match act_Open true 10 (go "b") 8 (go "dir") (go "server") d with
                  | Some (r, d) => snd (Begin (exIo 1) KindServer [] ∅ (Some r) d)
                  | None => d
                  end in
  map ev_Target (filter (fun e => ev_Kind e = KindMount9P) (Unfinished (reopen d))) = [go "/m"] /\
  filter (fun e => ev_Kind e = KindMount9P) (Unfinished (reopen (reopen d))) = [].
Proof. vm_compute. split; reflexivity. Qed.
