(* ===== verification/ActivityCrash.v ===== *)
(** * Mounts, crashes and recovery

    A server that makes 9P mounts, records them in the activity log, may die at any point,
    and cleans up when it starts again: [Begin] before the mount, [End] after the unmount
    ([pkg/deploywire/backing.go], [Prepare] and [Teardown]), and the order
    of startup in [pkg/server/server.go], [Run]. A crash takes whatever was not synced, in the middle
    of a record too; the mounts stay. Writes and syncs of the log may fail, a rotation may drop records, the kernel
    may refuse an unmount, and a server whose log does not open mounts without records; [logSound] says when none of that
    happens, and the theorems assume it of a run.

    This file has the system, the mount table, what the log's files look like after
    any number of crashes ([logs]), and which records a crash cannot take
    ([kept]). What holds of every run is in [ActivityInv]. *)
From stdpp Require Import base list gmap strings numbers sorting.
From Stdlib Require Import ZArith Lia.
From Stdlib.Strings Require Import Byte.
From S2P Require Import Prelude GoStd GoPath GoJson GoJsonTorn Activity ActivityLog.
Open Scope Z_scope.

(** ** The system *)

(** A mount activity is begun, then there is a mount, then the mount is gone; any other activity
    has nothing to undo. *)
Inductive astate : Type := ABegun | AMounted | AGone.
#[export] Instance astate_eq_dec : EqDecision astate.
Proof. solve_decision. Defined.

Record sys := mkSys {
  y_rec : option Recorder;
  y_dir : Dir;
  y_mounts : list bytes;
  y_todo : option (list Event);
  y_acts : list (ActivityRec * astate);
  y_used : list bytes;
}.

Definition sysInit : sys := mkSys None emptyDir [] None [] [].

(** A mount point as the server makes them: clean, without blanks and backslashes. *)
Definition plainPath (m : bytes) : bool :=
  negb (bytes_eqb m []) && bytes_eqb (pathClean m) m && forallb (fun c => plain c && negb (bool_decide (c = Byte.x5c))) m.

Definition liveName : bytes := FileName (go "server").

(** What opening drops holds no open mount record. *)
Definition rotationSafe (max : Z) (d : Dir) : bool :=
  match names d !! liveName, names d !! rotatedPath liveName with
  | Some i, Some j =>
      (blen (content d i) <=? max) ||
      negb (existsb (fun e => bytes_eqb (ev_Kind e) KindMount9P && bool_decide (e ∈ parseRecords (content d j))) (Unfinished d))
  | _, _ => true
  end.

(** Each operation comes with what the file system and the kernel answer: whether the log opens, what becomes of a write,
    whether an unmount is refused.  [OBlind] is a mount by a server whose log did not open. *)
Inductive sysOp : Type :=
| OOpen (ok : bool) (instance : bytes) (pid max : Z)
| OLife (io : ioRes) (attrs : gmap bytes bytes)
| ORecover (io : ioRes) (refused : bool)
| OBegin (io : ioRes) (k target : bytes) (attrs : gmap bytes bytes)
| OMount (id : bytes)
| OUnmount (id : bytes) (refused : bool)
| OEnd (io : ioRes) (id : bytes) (err : option bytes)
| OBlind (target : bytes)
| OCrash (keep : nat -> nat).

Definition okIo (now : Z) : ioRes := mkIo now None true.

Definition attrsOk (m : gmap bytes bytes) : bool :=
  forallb (fun kv => utf8Valid (fst kv) && utf8Valid (snd kv)) (map_to_list m).

(** After a crash a file has at least its synced bytes, and a beginning of the rest. *)
Definition crashDir (keep : nat -> nat) (d : Dir) : Dir :=
  mkDir (names d) (map_imap (fun i c => Some (take (Nat.max (keep i) (default 0%nat (synced d !! i))) c)) (contents d))
    (synced d) (nextFile d).

Definition markAct (id : bytes) (st : astate) (l : list (ActivityRec * astate)) : list (ActivityRec * astate) :=
  map (fun x => if bytes_eqb (a_id (fst x)) id then (fst x, st) else x) l.

Definition findAct (id : bytes) (l : list (ActivityRec * astate)) : option (ActivityRec * astate) :=
  List.find (fun x => bytes_eqb (a_id (fst x)) id) l.

Definition dropAct (id : bytes) (l : list (ActivityRec * astate)) : list (ActivityRec * astate) :=
  filter (fun x => a_id (fst x) <> id) l.

(** [None]: the server is not at that point.  It opens its log, records its life, goes through what it found unfinished, and then
    serves; a mount follows its record, and the end of the record follows the unmount. *)
Definition sysStep (o : sysOp) (y : sys) : option sys :=
  match o with
  | OOpen ok instance pid max =>
      match y_rec y with
      | Some _ => None
      | None =>
          '(r, d) ← act_Open ok max instance pid (go "activity") (go "server") (y_dir y);
          Some (mkSys (Some r) d (y_mounts y) None [] (instance :: y_used y))
      end
  | OLife io attrs =>
      match y_rec y, y_todo y with
      | Some r, None =>
          let '(a, r, d) := Begin io KindServer [] attrs (Some r) (y_dir y) in
          match a with
          | Some a => Some (mkSys r d (y_mounts y) (Some (unfinishedFrom (act_Read d))) [(a, AGone)] (y_used y))
          | None => None
          end
      | _, _ => None
      end
  | ORecover io refused =>
      match y_todo y with
      | Some (e :: todo) =>
          let s := recoverOne (fun _ => io) (fun _ => refused) (mkRec (y_rec y) (y_dir y) (y_mounts y)) e in
          Some (mkSys (s_rec s) (s_dir s) (s_mounts s) (Some todo) (y_acts y) (y_used y))
      | _ => None
      end
  | OBegin io k target attrs =>
      match y_rec y, y_todo y with
      | Some r, Some [] =>
          let '(a, r, d) := Begin io k target attrs (Some r) (y_dir y) in
          match a with
          | Some a => Some (mkSys r d (y_mounts y) (y_todo y)
              (y_acts y ++ [(a, if bytes_eqb k KindMount9P then ABegun else AGone)]) (y_used y))
          | None => None
          end
      | _, _ => None
      end
  | OMount id =>
      match findAct id (y_acts y) with
      | Some (a, ABegun) =>
          Some (mkSys (y_rec y) (y_dir y) (y_mounts y ++ [a_target a]) (y_todo y) (markAct id AMounted (y_acts y)) (y_used y))
      | _ => None
      end
  | OUnmount id refused =>
      match findAct id (y_acts y) with
      | Some (a, AMounted) =>
          Some (mkSys (y_rec y) (y_dir y) (Unmount9P (fun _ => refused) (a_target a) (y_mounts y)) (y_todo y)
            (markAct id AGone (y_acts y)) (y_used y))
      | _ => None
      end
  | OEnd io id err =>
      match findAct id (y_acts y) with
      | Some (a, ABegun) | Some (a, AGone) =>
          let '(_, r, d) := act_End io (Some a) err (y_rec y) (y_dir y) in
          Some (mkSys r d (y_mounts y) (y_todo y) (dropAct id (y_acts y)) (y_used y))
      | _ => None
      end
  | OBlind target =>
      match y_rec y with
      | Some _ => None
      | None => Some (mkSys None (y_dir y) (y_mounts y ++ [target]) (y_todo y) (y_acts y) (y_used y))
      end
  | OCrash keep => Some (mkSys None (crashDir keep (y_dir y)) (y_mounts y) None [] (y_used y))
  end.

(** When the log can be relied on: each write reaches the file and its sync succeeds, no rotation drops an open mount record, no unmount
    at a teardown is refused, the log opens; instances have fresh ASCII names (they are random), texts are
    UTF-8, and mount points are plain and in use once. *)
Definition ioOk (io : ioRes) : bool := bool_decide (io_short io = None) && io_sync io.

Definition logSound (o : sysOp) (y : sys) : bool :=
  match o with
  | OOpen _ instance pid max =>
      forallb ascii instance && negb (bool_decide (instance ∈ y_used y)) && (-2 ^ 63 <=? pid) && (pid <? 2 ^ 63) &&
      rotationSafe max (y_dir y)
  | OLife io attrs => ioOk io && attrsOk attrs
  | ORecover io _ => ioOk io
  | OBegin io k target attrs =>
      ioOk io && (utf8Valid k && utf8Valid target && attrsOk attrs && (negb (bytes_eqb k KindMount9P) || plainPath target))
  | OMount id => match findAct id (y_acts y) with Some (a, _) => negb (bool_decide (a_target a ∈ y_mounts y)) | None => true end
  | OUnmount _ refused => negb refused
  | OEnd io _ err => ioOk io && utf8Valid (default [] err)
  | OBlind _ => false
  | OCrash _ => true
  end.

Fixpoint sysRun (ops : list sysOp) (y : sys) : option sys :=
  match ops with
  | [] => Some y
  | o :: ops => y' ← sysStep o y; sysRun ops y'
  end.

(** Every step of the run is one where the log can be relied on. *)
Fixpoint soundRun (ops : list sysOp) (y : sys) : bool :=
  match ops with
  | [] => true
  | o :: ops => logSound o y && match sysStep o y with Some y' => soundRun ops y' | None => true end
  end.

Lemma ioOk_okIo io : ioOk io = true -> io = okIo (io_now io).
Proof. unfold ioOk. intros [H%bool_decide_eq_true H']%andb_true_iff. destruct io as [now sh sy]. cbn in *. by subst. Qed.

(** ** Mount points *)

Lemma fieldsF_word w cur rest : Forall (fun c => plain c = true) w -> cur ++ w <> [] ->
  fieldsF cur (map (fun c => [c]) w ++ [Byte.x20] :: runes rest) = (cur ++ w) :: Fields rest.
Proof.
  intros Hw. revert cur. induction Hw as [|c w [Ha Hs]%plain_spec Hw IH]; intros cur Hne.
  - rewrite app_nil_r in *. cbn. by rewrite bytes_eqb_neq.
  - cbn [map app fieldsF]. rewrite isSpaceSeg_ascii, Hs by done.
    rewrite IH by (by destruct cur). by rewrite <- app_assoc.
Qed.

Lemma Fields_word w rest : Forall (fun c => plain c = true) w -> w <> [] -> Fields (w ++ Byte.x20 :: rest) = w :: Fields rest.
Proof.
  intros Hw Hne. unfold Fields at 1. rewrite runes_app_ascii, runes_plain by done. by apply (fieldsF_word w []).
Qed.

Lemma plainPath_spec m : plainPath m = true ->
  m <> [] /\ pathClean m = m /\ Forall (fun c => plain c = true) m /\ concat (map octalByte m) = m.
Proof.
  unfold plainPath. intros [[H1 H2]%andb_true_iff H3]%andb_true_iff. split_and!.
  - apply negb_true_iff in H1. by apply bytes_eqb_false.
  - by apply bytes_eqb_spec.
  - rewrite forallb_forall in H3. apply Forall_forall. intros c Hc%list_elem_of_In. by apply H3, andb_true_iff in Hc as [? _].
  - clear H1 H2. induction m as [|c m IH]; [done|]. cbn [forallb map concat] in *. apply andb_true_iff in H3 as [Hc Hm].
    rewrite (IH Hm). apply andb_true_iff in Hc as [Hp Hb]. apply negb_true_iff, bool_decide_eq_false in Hb.
    apply plain_spec in Hp as [_ Hs]. unfold octalByte.
    rewrite !bool_decide_false by (first [done|intros ->; done]). done.
Qed.

Lemma Fields_mountinfo m : plainPath m = true ->
  exists l, Fields (mountinfoLine m) = go "36" :: go "35" :: go "0:42" :: go "/" :: m :: l.
Proof.
  intros (Hne & _ & Hp & Ho)%plainPath_spec. unfold mountinfoLine. rewrite Ho.
  change (go "36 35 0:42 / " ++ m ++ go " rw,relatime - 9p none rw") with
    (go "36" ++ Byte.x20 :: go "35" ++ Byte.x20 :: go "0:42" ++ Byte.x20 :: go "/" ++ Byte.x20 :: m ++ Byte.x20 :: go "rw,relatime - 9p none rw").
  rewrite !Fields_word by (first [done|repeat constructor]). by eexists.
Qed.

Lemma mountinfoLine_noNewline m : plainPath m = true -> Byte.x0a ∉ mountinfoLine m.
Proof.
  intros (Hne & _ & Hp & Ho)%plainPath_spec. unfold mountinfoLine. rewrite Ho, !elem_of_app. intros [H|[H|H]].
  - revert H. by apply (bool_decide_eq_true_1 _).
  - rewrite Forall_forall in Hp. apply Hp in H. done.
  - revert H. by apply (bool_decide_eq_true_1 _).
Qed.

Lemma split_mountinfo mounts : Forall (fun m => plainPath m = true) mounts ->
  split Byte.x0a (mountinfo mounts) = map mountinfoLine mounts ++ [[]].
Proof.
  induction 1 as [|m mounts Hm _ IH]; [done|]. unfold mountinfo in *. cbn [map concat].
  rewrite <- app_assoc. cbn [app]. rewrite split_app_sep by (by apply mountinfoLine_noNewline). by rewrite IH.
Qed.

(** The test finds exactly the mount points there are. *)
Lemma IsMountpoint_spec mounts t : Forall (fun m => plainPath m = true) mounts -> plainPath t = true ->
  IsMountpoint mounts t = bool_decide (t ∈ mounts).
Proof.
  intros Hm Ht. unfold IsMountpoint. rewrite split_mountinfo by done. rewrite existsb_app. cbn [existsb].
  change (Fields []) with (@nil bytes). cbn [orb]. rewrite orb_false_r.
  destruct (plainPath_spec t Ht) as (_ & -> & _).
  induction Hm as [|m mounts H _ IH]; [done|]. cbn [map existsb].
  destruct (Fields_mountinfo m H) as [l ->]. destruct (plainPath_spec m H) as (_ & -> & _). rewrite IH.
  unfold bytes_eqb. apply eq_true_iff_eq. rewrite orb_true_iff, !bool_decide_eq_true, elem_of_cons. naive_solver.
Qed.

Lemma filter_notin (t : bytes) (l : list bytes) : t ∉ l -> filter (fun m => m <> t) l = l.
Proof.
  induction l as [|m l IH]; [done|]. intros [H1 H2]%not_elem_of_cons. by rewrite filter_cons_True, IH by done.
Qed.

Lemma removeLast_filter t mounts : NoDup mounts -> removeLast t mounts = filter (fun m => m <> t) mounts.
Proof.
  induction 1 as [|m mounts Hm Hn IH]; [done|]. cbn [removeLast].
  destruct (decide (m = t)) as [->|Hne].
  - rewrite bytes_eqb_refl, bool_decide_false by done. cbn [andb negb]. rewrite filter_cons_False by tauto.
    by rewrite filter_notin.
  - rewrite bytes_eqb_neq by done. cbn [andb]. by rewrite filter_cons_True, IH.
Qed.

(** ** Files after crashes

    Whole lines, perhaps with beginnings of records before the record on a line, and
    beginnings of records after the last line. *)

Section files.
Context (P : Event -> Prop).

Inductive pieces : bytes -> Prop :=
| pc_nil : pieces []
| pc_cons p e t : wfEvent e -> P e -> p `prefix_of` marshalEvent e -> p <> [] -> pieces t -> pieces (p ++ t).

Inductive logLines : bytes -> Prop :=
| ll_nil : logLines []
| ll_line c t e : logLines c -> pieces t -> wfEvent e -> P e -> logLines (c ++ t ++ lineOf e).

Definition logs (c : bytes) : Prop := exists c0 t, c = c0 ++ t /\ logLines c0 /\ pieces t.

Lemma pieces_afterCut t : pieces t -> afterCut t.
Proof. induction 1 as [|p e t He _ Hp _ _ IH]; [apply afterCut_nil|by apply (afterCut_event e)]. Qed.

Lemma pieces_noNewline t : pieces t -> Byte.x0a ∉ t.
Proof.
  induction 1 as [|p e t He _ Hp _ _ IH]; [by intros ?%elem_of_nil|]. intros [H|H]%elem_of_app; [|done].
  by eapply prefix_noNewline; [exact Hp|by apply printable_noNewline, marshal_printable|].
Qed.

Lemma pieces_snoc t p e : pieces t -> wfEvent e -> P e -> p `prefix_of` marshalEvent e -> pieces (t ++ p).
Proof.
  intros Ht He HP Hp. destruct (decide (p = [])) as [->|Hn]; [by rewrite app_nil_r|].
  induction Ht as [|p' e' t He' HP' Hp' Hn' _ IH].
  - cbn [app]. rewrite <- (app_nil_r p). by apply (pc_cons p e []); [..|constructor].
  - rewrite <- app_assoc. by apply (pc_cons p' e').
Qed.

Lemma pieces_take t n : pieces t -> pieces (take n t).
Proof.
  intros Ht. revert n. induction Ht as [|p e t He HP Hp Hn _ IH]; intros n; [rewrite take_nil; constructor|].
  rewrite take_app. destruct (decide (take n p = [])) as [E|E].
  - rewrite E. apply IH.
  - econstructor; [exact He|done| |done|apply IH]. transitivity p; [|done]. exists (drop n p). by rewrite take_drop.
Qed.

(** Of a line, nothing is read but a whole record on a line of its own. *)
Lemma pieces_read t e : pieces t -> unmarshalEvent t = Some e -> P e /\ wfEvent e.
Proof.
  intros Ht E. destruct Ht as [|p e' t He HP Hp Hn Ht]; [done|].
  destruct (decide (p = marshalEvent e' /\ t = [])) as [[-> ->]|Hne].
  - rewrite app_nil_r, unmarshalEvent_marshal in E by done. by injection E as <-.
  - rewrite (unmarshal_lost e') in E; [done..|by apply pieces_afterCut|].
    destruct (decide (p = marshalEvent e')); [right|by left]. intros ->. by apply Hne.
Qed.

Lemma pieces_parse t e : pieces t -> e ∈ parseRecords t -> P e /\ wfEvent e.
Proof.
  intros Ht. rewrite parseRecords_single by (by apply pieces_noNewline). destruct (bytes_eqb _ _); [by intros ?%elem_of_nil|].
  destruct (unmarshalEvent t) as [e'|] eqn:E; [|by intros ?%elem_of_nil]. intros ->%list_elem_of_singleton.
  by eapply pieces_read.
Qed.

Lemma logLines_clean c : logLines c -> cleanTail c.
Proof. intros [|c' t e _ _ _ _]; [by left|]. rewrite app_assoc. apply cleanTail_line. Qed.

Lemma logLines_parse c e : logLines c -> e ∈ parseRecords c -> P e /\ wfEvent e.
Proof.
  induction 1 as [|c t e' Hc IH Ht He HP]; [by intros ?%elem_of_nil|].
  rewrite parseRecords_clean by (by apply logLines_clean). intros [H|H]%elem_of_app; [by apply IH|].
  unfold lineOf in H. rewrite app_assoc, parseRecords_app, parseRecords_nil, app_nil_r in H.
  eapply (pieces_parse (t ++ marshalEvent e')); [|exact H]. by eapply pieces_snoc.
Qed.

Lemma logs_parse c e : logs c -> e ∈ parseRecords c -> P e /\ wfEvent e.
Proof.
  intros (c0 & t & -> & Hc & Ht). rewrite parseRecords_clean by (by apply logLines_clean).
  intros [H|H]%elem_of_app; [by eapply logLines_parse|by eapply pieces_parse].
Qed.

Lemma logs_line c e : logs c -> wfEvent e -> P e -> logs (c ++ lineOf e).
Proof.
  intros (c0 & t & -> & Hc & Ht) He HP. exists ((c0 ++ t) ++ lineOf e), []. rewrite app_nil_r. split_and!; [done| |constructor].
  rewrite <- app_assoc. by constructor.
Qed.

Lemma logLines_take c n : logLines c -> logs (take n c).
Proof.
  induction 1 as [|c t e Hc IH Ht He HP]; [rewrite take_nil; exists [], []; split_and!; [done|constructor..]|].
  destruct (decide (n <= length c)%nat); [by rewrite take_app_le|]. rewrite take_app_ge by lia.
  destruct (decide (n - length c <= length t)%nat).
  { rewrite take_app_le by done. exists c, (take (n - length c) t). split_and!; [done..|by apply pieces_take]. }
  rewrite take_app_ge by lia. set (m := (n - length c - length t)%nat).
  destruct (decide (m <= length (marshalEvent e))%nat).
  - exists c, (t ++ take m (lineOf e)). split_and!; [done..|]. apply (pieces_snoc t _ e); [done..|].
    unfold lineOf. rewrite take_app_le by done. exists (drop m (marshalEvent e)). by rewrite take_drop.
  - exists (c ++ t ++ lineOf e), []. rewrite app_nil_r. split_and!; [|by constructor|constructor].
    rewrite (take_ge (lineOf e)); [done|]. unfold lineOf. rewrite length_app. cbn [length]. lia.
Qed.

Lemma logs_take c n : logs c -> logs (take n c).
Proof.
  intros (c0 & t & -> & Hc & Ht). destruct (decide (n <= length c0)%nat).
  - rewrite take_app_le by done. by apply logLines_take.
  - rewrite take_app_ge by lia. exists c0, (take (n - length c0) t). split_and!; [done..|by apply pieces_take].
Qed.
End files.

Lemma pieces_mono (P Q : Event -> Prop) t : (forall e, P e -> Q e) -> pieces P t -> pieces Q t.
Proof. intros H. induction 1; econstructor; eauto. Qed.

Lemma logs_mono (P Q : Event -> Prop) c : (forall e, P e -> Q e) -> logs P c -> logs Q c.
Proof.
  intros H (c0 & t & -> & Hc & Ht). exists c0, t. split_and!; [done| |by eapply pieces_mono].
  induction Hc; constructor; eauto using pieces_mono.
Qed.

(** ** Identities *)

Definition mkID (instance : bytes) (n : Z) : bytes := instance ++ go "-" ++ formatInt n.

Lemma formatInt_noDash n : 0 < n -> Byte.x2d ∉ formatInt n.
Proof.
  intros Hn. unfold formatInt. rewrite (proj2 (Z.ltb_ge n 0)) by lia. intros H%list_elem_of_In.
  pose proof (formatDigits_digits (S (Z.to_nat (Z.log2 (Z.abs n)))) (Z.abs n) [] ltac:(lia) eq_refl) as Hd.
  rewrite forallb_forall in Hd. by apply Hd in H.
Qed.

Lemma mkID_inj i1 n1 i2 n2 : 0 < n1 -> 0 < n2 -> mkID i1 n1 = mkID i2 n2 -> i1 = i2 /\ n1 = n2.
Proof.
  intros H1 H2 E. unfold mkID in E. change (go "-") with [Byte.x2d] in E. cbn [app] in E.
  assert (Hl : forall (l a b : bytes), Byte.x2d ∉ b -> Byte.x2d :: b = l ++ Byte.x2d :: a -> l = [] /\ b = a).
  { intros [|c l] a b Hb E'; [by injection E' as ->|]. injection E' as _ ->. destruct Hb. apply elem_of_app. right. by left. }
  apply app_eq_app in E as [l [[E1 E2]|[E1 E2]]]; apply Hl in E2 as [-> E2]; try by apply formatInt_noDash.
  - rewrite app_nil_r in E1. split; [done|]. symmetry. by apply formatInt_inj.
  - rewrite app_nil_r in E1. split; [done|]. by apply formatInt_inj.
Qed.

Lemma utf8Valid_ascii s : forallb ascii s = true -> utf8Valid s = true.
Proof.
  induction s as [|c s IH]; [done|]. cbn [forallb]. intros [Hc Hs]%andb_true_iff. unfold utf8Valid in *.
  rewrite runes_cons_ascii by done. cbn [forallb]. rewrite IH by done. rewrite andb_true_r. unfold validUtf8Seg.
  rewrite decodeRune_ascii by done. cbn [fst length]. unfold ascii in Hc. zbool. unfold RuneError.
  by rewrite (proj2 (Z.eqb_neq _ _)) by lia.
Qed.

Lemma ascii_formatInt n : forallb ascii (formatInt n) = true.
Proof.
  pose proof (formatInt_chars n) as H. rewrite forallb_forall in *. intros c Hc%H. unfold isNumChar, isDigit, ascii in *.
  apply orb_true_iff in Hc as [Hc|Hc]; zbool; apply Z.ltb_lt; lia.
Qed.

Lemma ascii_padTo n s : forallb ascii s = true -> forallb ascii (padTo n s) = true.
Proof.
  intros H. unfold padTo. rewrite forallb_app, H, andb_true_r. induction (n - length s)%nat; [done|]. by cbn.
Qed.

Lemma ascii_time t : forallb ascii (formatRFC3339Nano t) = true.
Proof.
  unfold formatRFC3339Nano. destruct (civil _) as [[y m] d].
  set (frac := rev _). assert (Hf : forallb ascii frac = true).
  { subst frac. pose proof (ascii_padTo 9 _ (ascii_formatInt (t mod 1000000000))) as H. rewrite forallb_forall in *.
    intros c Hc%in_rev. destruct (trimLeft_suffix (fun c => bool_decide (c = Byte.x30)) (rev (padTo 9 (formatInt (t mod 1000000000))))) as (p & E & _).
    apply H. apply in_rev. rewrite E. apply in_or_app. by right. }
  rewrite !forallb_app, !ascii_padTo by apply ascii_formatInt. cbn [andb].
  destruct frac; [done|]. rewrite !forallb_app, Hf. done.
Qed.

(** A process whose identity, number and name make its records readable. *)
Definition wfRecorder (r : Recorder) : Prop :=
  r_proc r = go "server" /\ forallb ascii (r_instance r) = true /\ -2 ^ 63 <= r_pid r < 2 ^ 63.

Lemma wf_stamp now r e : wfRecorder r ->
  Forall (fun s => utf8Valid s = true) [ev_Kind e; ev_Phase e; ev_ID e; ev_Target e; ev_Status e; ev_Err e] ->
  map_Forall (fun k v => utf8Valid k = true /\ utf8Valid v = true) (Attrs e) -> wfEvent (stamp now r e).
Proof.
  intros (Hp & Hi & Hpid) Hs Ha. rewrite !Forall_cons in Hs. destruct Hs as (H1 & H2 & H3 & H4 & H5 & H6 & _).
  split; [|done|done]. cbn [stamp TS ev_Proc ev_Instance ev_Kind ev_Phase ev_ID ev_Target ev_Status ev_Err].
  repeat (apply Forall_cons; split); try done; [apply utf8Valid_ascii, ascii_time|by rewrite Hp|by apply utf8Valid_ascii].
Qed.

Lemma utf8Valid_mkID i n : forallb ascii i = true -> utf8Valid (mkID i n) = true.
Proof. intros H. apply utf8Valid_ascii. unfold mkID. by rewrite !forallb_app, H, ascii_formatInt. Qed.

Lemma attrsOk_spec m : attrsOk m = true -> map_Forall (fun k v => utf8Valid k = true /\ utf8Valid v = true) m.
Proof.
  unfold attrsOk. rewrite forallb_forall. intros H k v E. apply elem_of_map_to_list, list_elem_of_In, H in E.
  by apply andb_true_iff in E.
Qed.

(** ** The directory through the operations *)

(** Files only grow, and so does what is synced of them. *)
Record dirGrow (d d' : Dir) : Prop := {
  grow_names : names d' = names d;
  grow_next : nextFile d' = nextFile d;
  grow_content : forall i, content d i `prefix_of` content d' i;
  grow_synced : forall i, (default 0 (synced d !! i) <= default 0 (synced d' !! i))%nat;
}.

(** A record that a crash cannot take, in a file that is read. *)
Definition kept (d : Dir) (b : Event) : Prop :=
  exists n i c0 r, names d !! n = Some i /\ (isLive n || isRetained n) = true /\
    content d i = c0 ++ r /\ cleanTail c0 /\ (length c0 <= default 0 (synced d !! i))%nat /\ b ∈ parseRecords c0.

Lemma kept_grow d d' b : dirGrow d d' -> kept d b -> kept d' b.
Proof.
  intros [Hn _ Hc Hs] (n & i & c0 & r & H1 & H2 & H3 & H4 & H5 & H6). destruct (Hc i) as [r' E].
  exists n, i, c0, (r ++ r'). rewrite Hn. split_and!; [done|done|by rewrite E, H3, <- app_assoc|done|pose proof (Hs i); lia|done].
Qed.

Lemma kept_read d b : kept d b -> b ∈ act_Read d.
Proof.
  intros (n & i & c0 & r & H1 & H2 & H3 & H4 & H5 & H6). apply elem_of_Read. exists n, i. split_and!; [done..|].
  rewrite H3, parseRecords_clean by done. apply elem_of_app. by left.
Qed.

Lemma kept_crash keep d b : kept d b -> kept (crashDir keep d) b.
Proof.
  intros (n & i & c0 & r & H1 & H2 & H3 & H4 & H5 & H6).
  assert (E : content (crashDir keep d) i = take (Nat.max (keep i) (default 0%nat (synced d !! i))) (content d i)).
  { unfold content, crashDir. cbn. rewrite map_lookup_imap. destruct (contents d !! i); [done|]. cbn. by rewrite take_nil. }
  exists n, i, c0, (take (Nat.max (keep i) (default 0%nat (synced d !! i)) - length c0) r). split_and!; try done.
  rewrite E, H3, take_app_ge by lia. done.
Qed.
