(* ===== verification/ActivityInv.v ===== *)
(** * Every mount is on record, and recovery removes it

    The invariant of the system of [ActivityCrash]. Beside the state it speaks of
    the records ever written whole ([W]), whether or not a crash took them since, and
    of the mounts with the identity of the activity that made each
    ([lab]).

    As long as the log can be relied on ([logSound] at each step of [soundRun]: its writes succeed, rotation drops no open
    record, the unmount of a teardown is not refused), every mount there is has an open record in the log ([mounts_recorded]),
    and a server that has recovered has removed every mount of its predecessors
    ([recovery_complete]). *)
From stdpp Require Import base list gmap strings numbers sorting.
From Stdlib Require Import ZArith Lia.
From Stdlib.Strings Require Import Byte.
From S2P Require Import Prelude GoStd GoPath GoJson GoJsonTorn Activity ActivityLog ActivityCrash.
Open Scope Z_scope.

(** ** One record appended *)

Definition appended (i : nat) (x : Event) (sync : bool) (d : Dir) : Dir :=
  let d := appendFile i (lineOf x) d in if sync then syncFile i d else d.

Lemma act_write_ok now r i x sync d : r_f r = Some i ->
  act_write (okIo now) r x sync d = (r, appended i (stamp now r x) sync d).
Proof. intros E. unfold act_write, appended. rewrite E. by destruct sync. Qed.

Lemma content_appended i x sync d j :
  content (appended i x sync d) j = if decide (j = i) then content d i ++ lineOf x else content d j.
Proof.
  assert (E : content (appended i x sync d) j = content (appendFile i (lineOf x) d) j) by (unfold appended; by destruct sync).
  rewrite E. unfold appendFile, content. cbn. destruct (decide (j = i)) as [->|]; [by rewrite lookup_insert_eq|by rewrite lookup_insert_ne].
Qed.

Lemma synced_appended i x sync d j :
  synced (appended i x sync d) !! j =
  if decide (j = i) then if sync then Some (length (content d i ++ lineOf x)) else synced d !! i else synced d !! j.
Proof.
  pose proof (content_appended i x false d i) as E. rewrite decide_True in E by done. unfold appended in *. destruct sync.
  - unfold syncFile. cbn [synced]. rewrite E. destruct (decide (j = i)) as [->|]; [by rewrite lookup_insert_eq|by rewrite lookup_insert_ne].
  - cbn [synced appendFile]. by destruct (decide (j = i)) as [->|].
Qed.

(** Every file is a log of records written, no name leads to a file still to be made, and
    no more of a file is synced than there is. *)
Record dirOk (W : list Event) (d : Dir) : Prop := {
  do_wf : Forall wfEvent W;
  do_logs : forall i, logs (.∈ W) (content d i);
  do_names : forall n i, names d !! n = Some i -> (i < nextFile d)%nat;
  do_fresh : forall i, (nextFile d <= i)%nat -> contents d !! i = None /\ synced d !! i = None;
  do_synced : forall i, (default 0 (synced d !! i) <= length (content d i))%nat;
}.

Lemma grow_appended W i x sync d : dirOk W d -> dirGrow d (appended i x sync d).
Proof.
  intros H. split; [unfold appended; by destruct sync..| |]; intros j.
  - rewrite content_appended. destruct (decide (j = i)) as [->|]; [by eexists|done].
  - rewrite synced_appended. destruct (decide (j = i)) as [->|]; [|done]. destruct sync; [|done].
    cbn. rewrite length_app. pose proof (do_synced W d H i). lia.
Qed.

Lemma dirOk_appended W i x sync d : dirOk W d -> wfEvent x -> (i < nextFile d)%nat ->
  dirOk (W ++ [x]) (appended i x sync d).
Proof.
  intros H Hx Hi. pose proof (grow_appended W i x sync d H) as [Gn Gx Gc Gs].
  assert (Hm : forall j, logs (.∈ W ++ [x]) (content d j)).
  { intros j. eapply logs_mono, (do_logs W d H j). intros e He. apply elem_of_app. by left. }
  split.
  - apply Forall_app. split; [apply H|by apply Forall_singleton].
  - intros j. rewrite content_appended. destruct (decide (j = i)) as [->|]; [|done].
    apply logs_line; [done..|]. apply elem_of_app. right. by left.
  - intros n j. rewrite Gn, Gx. apply (do_names W d H).
  - intros j Hj. rewrite Gx in Hj. destruct (do_fresh W d H j Hj). rewrite synced_appended, decide_False by lia.
    split; [|done]. unfold appended. destruct sync; cbn; by rewrite lookup_insert_ne by lia.
  - intros j. rewrite content_appended, synced_appended. pose proof (do_synced W d H j) as Hs.
    destruct (decide (j = i)) as [->|]; [|done]. destruct sync; [done|]. rewrite length_app. lia.
Qed.

(** A synced record after whole lines cannot be lost. *)
Lemma kept_appended W n i x d : dirOk W d -> wfEvent x -> names d !! n = Some i -> (isLive n || isRetained n) = true ->
  cleanTail (content d i) -> kept (appended i x true d) x.
Proof.
  intros H Hx Hn Hl Hc. exists n, i, (content d i ++ lineOf x), []. split_and!; [done|done| | | |].
  - by rewrite content_appended, decide_True, app_nil_r by done.
  - apply cleanTail_line.
  - by rewrite synced_appended, decide_True by done.
  - rewrite parseRecords_clean by done. apply elem_of_app. right. rewrite <- (app_nil_r (lineOf x)), parseRecords_line by done. by left.
Qed.

Lemma read_written W d x : dirOk W d -> x ∈ act_Read d -> x ∈ W.
Proof. intros H (n & i & _ & _ & Hp)%elem_of_Read. by eapply logs_parse in Hp as [? _]; [|apply (do_logs W d H)]. Qed.

(** After whole lines a record is read back, and nothing else changes. *)
Lemma read_appended n i x sync d e : names d !! n = Some i -> (isLive n || isRetained n) = true -> cleanTail (content d i) -> wfEvent x ->
  e ∈ act_Read (appended i x sync d) <-> e ∈ act_Read d \/ e = x.
Proof.
  intros Hn Hl Hc Hx. assert (En : names (appended i x sync d) = names d) by (unfold appended; by destruct sync).
  assert (El : parseRecords (content d i ++ lineOf x) = parseRecords (content d i) ++ [x]).
  { by rewrite parseRecords_clean, <- (app_nil_r (lineOf x)), parseRecords_line, parseRecords_nil by done. }
  rewrite !elem_of_Read, En. split.
  - intros (n' & j & Hj & Hr & He). rewrite content_appended in He. destruct (decide (j = i)) as [->|]; [|left; eauto 6].
    rewrite El, elem_of_app, list_elem_of_singleton in He. destruct He as [He|He]; [left; eauto 6|by right].
  - intros [(n' & j & Hj & Hr & He)| ->].
    + exists n', j. split_and!; [done..|]. rewrite content_appended. destruct (decide (j = i)) as [->|]; [|done].
      rewrite El, elem_of_app. by left.
    + exists n, i. split_and!; [done..|]. rewrite content_appended, decide_True, El, elem_of_app by done. right. by left.
Qed.

(** ** The records written *)

Definition isBegin (x : Event) : Prop := ev_Phase x = PhaseBegin.
Definition isEnd (x : Event) : Prop := ev_Phase x = PhaseEnd.
Definition openIn (W : list Event) (id : bytes) : Prop := forall x, x ∈ W -> isEnd x -> ev_ID x <> id.
Definition mountBegin (id t : bytes) (x : Event) : Prop :=
  isBegin x /\ ev_Kind x = KindMount9P /\ ev_ID x = id /\ ev_Target x = t.

(** Identities are made of the run and a count, and no two beginnings share one. *)
Record bookOk (W : list Event) (used : list bytes) (live : option Recorder) : Prop := {
  bk_begin : forall b, b ∈ W -> isBegin b -> exists n, ev_ID b = mkID (ev_Instance b) n /\ 0 < n /\ ev_Instance b ∈ used /\
    forall r, live = Some r -> ev_Instance b = r_instance r -> n <= r_seq r;
  bk_unique : forall b b', b ∈ W -> b' ∈ W -> isBegin b -> isBegin b' -> ev_ID b = ev_ID b' -> b = b';
  bk_plain : forall b, b ∈ W -> isBegin b -> ev_Kind b = KindMount9P -> plainPath (ev_Target b) = true;
  bk_end : forall x, x ∈ W -> isEnd x -> exists b, b ∈ W /\ isBegin b /\ ev_ID b = ev_ID x;
}.

Definition nextSeq (r : Recorder) : Recorder :=
  mkRecorder (r_proc r) (r_instance r) (r_pid r) (r_f r) (r_seq r + 1) (r_fail r).

Lemma elem_of_snoc (W : list Event) x y : y ∈ W ++ [x] <-> y ∈ W \/ y = x.
Proof. by rewrite elem_of_app, list_elem_of_singleton. Qed.

Lemma begin_not_end x : isBegin x -> ~ isEnd x.
Proof. unfold isBegin, isEnd. by intros ->. Qed.

(** The next identity of a run is new. *)
Lemma fresh_id W used r b : bookOk W used (Some r) -> 0 <= r_seq r -> b ∈ W -> isBegin b ->
  ev_ID b <> mkID (r_instance r) (r_seq r + 1).
Proof.
  intros H Hs Hb Hp E. destruct (bk_begin _ _ _ H b Hb Hp) as (n & Eb & Hn & _ & Hle). rewrite Eb in E.
  apply mkID_inj in E as [Ei En]; [|lia..]. specialize (Hle r eq_refl Ei). lia.
Qed.

Lemma fresh_open W used r : bookOk W used (Some r) -> 0 <= r_seq r -> openIn W (mkID (r_instance r) (r_seq r + 1)).
Proof.
  intros H Hs x Hx He E. destruct (bk_end _ _ _ H x Hx He) as (b & Hb & Hp & Eb). eapply fresh_id; [done..|].
  by rewrite Eb.
Qed.

Lemma bookOk_begin W used r b : bookOk W used (Some r) -> 0 <= r_seq r -> r_instance r ∈ used ->
  isBegin b -> ev_Instance b = r_instance r -> ev_ID b = mkID (r_instance r) (r_seq r + 1) ->
  (ev_Kind b = KindMount9P -> plainPath (ev_Target b) = true) -> bookOk (W ++ [b]) used (Some (nextSeq r)).
Proof.
  intros H Hs Hu Hb Hi Hid Hpl. split.
  - intros c [Hc| ->]%elem_of_snoc Hp.
    + destruct (bk_begin _ _ _ H c Hc Hp) as (n & E & Hn & Hc' & Hle). exists n. split_and!; [done..|].
      intros r' [= <-] Hr. specialize (Hle r eq_refl Hr). cbn. lia.
    + exists (r_seq r + 1). rewrite Hi. split_and!; [done|lia|done|]. intros r' [= <-] _. cbn. lia.
  - intros c c' [Hc| ->]%elem_of_snoc [Hc'| ->]%elem_of_snoc Hp Hp' E; [by apply (bk_unique _ _ _ H)| | |done].
    + destruct (fresh_id W used r c); [done..|]. by rewrite E.
    + destruct (fresh_id W used r c'); [done..|]. by rewrite <- E.
  - intros c [Hc| ->]%elem_of_snoc; [by apply (bk_plain _ _ _ H)|done].
  - intros x [Hx| ->]%elem_of_snoc He; [|by apply begin_not_end in He].
    destruct (bk_end _ _ _ H x Hx He) as (c & Hc & ?). exists c. split; [apply elem_of_snoc; by left|done].
Qed.

Lemma bookOk_end W used live x : bookOk W used live -> isEnd x -> (exists b, b ∈ W /\ isBegin b /\ ev_ID b = ev_ID x) ->
  bookOk (W ++ [x]) used live.
Proof.
  intros H He (b & Hb & Hp & E). assert (Hn : ~ isBegin x) by (by intros ?%begin_not_end). split.
  - intros c [Hc| ->]%elem_of_snoc; [by apply (bk_begin _ _ _ H)|done].
  - intros c c' [Hc| ->]%elem_of_snoc [Hc'| ->]%elem_of_snoc; [by apply (bk_unique _ _ _ H)|done..].
  - intros c [Hc| ->]%elem_of_snoc; [by apply (bk_plain _ _ _ H)|done].
  - intros y [Hy| ->]%elem_of_snoc Hye; [destruct (bk_end _ _ _ H y Hy Hye) as (c & Hc & ?)|].
    + exists c. split; [apply elem_of_snoc; by left|done].
    + exists b. split; [apply elem_of_snoc; by left|done].
Qed.

(** ** Mounts and activities *)

(** A mount is plain to see in the mount table, and its record is open and out of a crash's reach. *)
Definition recorded (W : list Event) (d : Dir) (id t : bytes) : Prop :=
  plainPath t = true /\ openIn W id /\ exists b, b ∈ W /\ mountBegin id t b /\ kept d b.

(** Appending a record keeps what it does not close. *)
Lemma recorded_snoc W d d' id t x : recorded W d id t -> dirGrow d d' -> (isEnd x -> ev_ID x <> id) -> recorded (W ++ [x]) d' id t.
Proof.
  intros (Hp & Ho & b & Hb & Hm & Hk) Hg Hx. split_and!; [done| |].
  - intros y [Hy| ->]%elem_of_snoc; [by apply Ho|done].
  - exists b. split_and!; [apply elem_of_snoc; by left|done|by eapply kept_grow].
Qed.

Record actOk (W : list Event) (d : Dir) (lab : list (bytes * bytes)) (instance : bytes) (x : ActivityRec * astate) : Prop := {
  ao_ended : a_ended (fst x) = false;
  ao_open : openIn W (a_id (fst x));
  ao_valid : Forall (fun s => utf8Valid s = true) [a_id (fst x); a_kind (fst x); a_target (fst x)];
  ao_begin : exists b, b ∈ W /\ isBegin b /\ ev_ID b = a_id (fst x) /\ ev_Instance b = instance;
  ao_begun : snd x = ABegun -> recorded W d (a_id (fst x)) (a_target (fst x));
  ao_lab : if decide (snd x = AMounted) then (a_id (fst x), a_target (fst x)) ∈ lab else a_id (fst x) ∉ lab.*1;
}.

Lemma actOk_snoc W d d' lab instance a x : actOk W d lab instance a -> dirGrow d d' ->
  (isEnd x -> ev_ID x <> a_id (fst a)) -> actOk (W ++ [x]) d' lab instance a.
Proof.
  intros [H1 H2 H3 (b & Hb & Hb') H5 H6] Hg Hx. split; [done| |done| | |done].
  - intros y [Hy| ->]%elem_of_snoc; [by apply H2|done].
  - exists b. split; [apply elem_of_snoc; by left|done].
  - intros E. eapply recorded_snoc; eauto.
Qed.

Definition recOk (y : sys) : Prop :=
  match y_rec y with
  | None => y_todo y = None /\ y_acts y = []
  | Some r => wfRecorder r /\ r_instance r ∈ y_used y /\ 0 <= r_seq r /\
      (exists i, r_f r = Some i /\ names (y_dir y) !! liveName = Some i /\ (y_todo y <> None -> cleanTail (content (y_dir y) i))) /\
      (y_todo y = None -> y_acts y = [] /\ r_seq r = 0)
  end.

Record Inv (W : list Event) (lab : list (bytes * bytes)) (y : sys) : Prop := {
  iv_dir : dirOk W (y_dir y);
  iv_book : bookOk W (y_used y) (y_rec y);
  iv_rec : recOk y;
  iv_lab : Forall (fun m => recorded W (y_dir y) (fst m) (snd m)) lab;
  iv_mounts : lab.*2 = y_mounts y;
  iv_nodup : NoDup lab.*1 /\ NoDup lab.*2;
  iv_acts : Forall (actOk W (y_dir y) lab (ownInstance (y_rec y))) (y_acts y);
  iv_ids : NoDup (map (fun x => a_id (fst x)) (y_acts y));
  iv_todo : Forall (fun e => e ∈ W /\ isBegin e) (default [] (y_todo y));
  iv_idle : y_todo y <> Some [] -> Forall (fun x => snd x = AGone) (y_acts y);
}.

(** ** The invariant gives the records *)

Lemma recorded_unfinished W d id t : dirOk W d -> recorded W d id t -> exists b, b ∈ Unfinished d /\ mountBegin id t b.
Proof.
  intros Hd (_ & Ho & b & Hb & Hm & Hk). exists b. split; [|done]. apply elem_of_unfinished. split_and!.
  - by apply kept_read.
  - apply Hm.
  - intros x Hx He. destruct Hm as (_ & _ & -> & _). apply Ho; [by eapply read_written|done].
Qed.

Lemma Inv_recorded W lab y t : Inv W lab y -> t ∈ y_mounts y -> exists id b, b ∈ Unfinished (y_dir y) /\ mountBegin id t b.
Proof.
  intros H Ht. rewrite <- (iv_mounts _ _ _ H) in Ht. apply list_elem_of_fmap in Ht as ([id t'] & -> & Hl). exists id.
  pose proof (iv_lab _ _ _ H) as Hr. rewrite Forall_forall in Hr. eapply recorded_unfinished; [apply (iv_dir _ _ _ H)|by apply Hr in Hl].
Qed.

(** ** A crash *)

Lemma content_crash keep d i :
  content (crashDir keep d) i = take (Nat.max (keep i) (default 0%nat (synced d !! i))) (content d i).
Proof. unfold content, crashDir. cbn. rewrite map_lookup_imap. destruct (contents d !! i); [done|]. cbn. by rewrite take_nil. Qed.

Lemma dirOk_crash W keep d : dirOk W d -> dirOk W (crashDir keep d).
Proof.
  intros [Hw H1 H2 H3 H4]. split; [done| |done| |].
  - intros i. rewrite content_crash. by apply logs_take.
  - intros i Hi. destruct (H3 i Hi) as [E Es]. split; [|done]. cbn. by rewrite map_lookup_imap, E.
  - intros i. rewrite content_crash, length_take. cbn [crashDir synced]. pose proof (H4 i). lia.
Qed.

Lemma Inv_crash W lab y keep : Inv W lab y ->
  Inv W lab (mkSys None (crashDir keep (y_dir y)) (y_mounts y) None [] (y_used y)).
Proof.
  intros H. split; cbn [y_dir y_rec y_todo y_acts y_mounts y_used default map]; try done.
  - apply dirOk_crash, H.
  - split; [|apply (iv_book _ _ _ H)..]. intros b Hb Hp.
    destruct (bk_begin _ _ _ (iv_book _ _ _ H) b Hb Hp) as (n & ? & ? & ? & _). by exists n.
  - eapply Forall_impl; [apply (iv_lab _ _ _ H)|]. intros m (Hp & Ho & b & Hb & Hm & Hk). split_and!; [done..|].
    exists b. split_and!; [done..|]. by apply kept_crash.
  - apply (iv_mounts _ _ _ H).
  - apply (iv_nodup _ _ _ H).
  - constructor.
Qed.

(** ** Opening *)

(** A record stays while its file keeps a name that is read. *)
Lemma kept_move W d d' b : dirOk W d -> kept d b ->
  (forall n i, names d !! n = Some i -> (isLive n || isRetained n) = true -> b ∈ parseRecords (content d i) ->
    exists n', names d' !! n' = Some i /\ (isLive n' || isRetained n') = true) ->
  (forall i, (i < nextFile d)%nat -> content d' i = content d i /\ synced d' !! i = synced d !! i) -> kept d' b.
Proof.
  intros Hd (n & i & c0 & r & H1 & H2 & H3 & H4 & H5 & H6) Hn Hc. destruct (Hn n i H1 H2) as (n' & E & Hl).
  { rewrite H3, parseRecords_clean by done. apply elem_of_app. by left. }
  destruct (Hc i) as [Ec Es]; [by eapply do_names|]. exists n', i, c0, r. rewrite Ec, Es. done.
Qed.

Lemma dirOk_names W d nm : dirOk W d -> (forall n i, nm !! n = Some i -> exists n', names d !! n' = Some i) ->
  dirOk W (mkDir nm (contents d) (synced d) (nextFile d)).
Proof. intros [Hw H1 H2 H3 H4] Hn. split; [done|done| |done|done]. intros n i (n' & E)%Hn. by eapply H2. Qed.

Lemma openAppend_ok W n d i d' : dirOk W d -> openAppend n d = (i, d') ->
  dirOk W d' /\ names d' !! n = Some i /\ (forall n' j, names d !! n' = Some j -> names d' !! n' = Some j) /\
  forall j, (j < nextFile d)%nat -> content d' j = content d j /\ synced d' !! j = synced d !! j.
Proof.
  intros H E. unfold openAppend in E. destruct (names d !! n) as [i'|] eqn:En; [by injection E as <- <-|].
  injection E as <- <-. assert (Hc : forall j, content (mkDir (<[n:=nextFile d]> (names d)) (<[nextFile d:=[]]> (contents d)) (synced d) (S (nextFile d))) j = content d j).
  { intros j. unfold content. cbn. destruct (decide (j = nextFile d)) as [->|]; [|by rewrite lookup_insert_ne].
    destruct (do_fresh W d H (nextFile d)) as [-> _]; [lia|]. by rewrite lookup_insert_eq. }
  split_and!; [split| | |]; cbn [names synced nextFile contents].
  - apply H.
  - intros j. rewrite Hc. apply H.
  - intros n' j [[<- <-]|[_ Hj]]%lookup_insert_Some; [lia|]. apply (do_names W d H) in Hj. lia.
  - intros j Hj. rewrite lookup_insert_ne by lia. apply (do_fresh W d H). lia.
  - intros j. rewrite Hc. apply (do_synced W d H).
  - by rewrite lookup_insert_eq.
  - intros n' j Hj. rewrite lookup_insert_ne; [done|]. intros ->. by rewrite En in Hj.
  - intros j _. by rewrite Hc.
Qed.

(** Rotation drops at most the older file, which has no open mount record. *)
Lemma rotate_ok W max d d' : dirOk W d -> rotationSafe max d = true -> rotateIfNeeded true liveName max d = Some d' ->
  dirOk W d' /\ forall id t b, b ∈ W -> openIn W id -> mountBegin id t b -> kept d b -> kept d' b.
Proof.
  intros H Hs E. unfold rotateIfNeeded in E. destruct (names d !! liveName) as [i|] eqn:Ei; [|by injection E as <-].
  destruct (blen (content d i) <=? max) eqn:Em; [by injection E as <-|]. cbn [negb] in E. injection E as <-.
  unfold renameFile, removeName. cbn [names contents synced nextFile]. rewrite lookup_delete_ne, Ei by done. split.
  - apply dirOk_names; [done|]. intros n j [[<- <-]|[_ Hj]]%lookup_insert_Some; [by exists liveName|].
    apply lookup_delete_Some in Hj as [_ [_ Hj]%lookup_delete_Some]. by exists n.
  - intros id t b Hb Ho Hm Hk. eapply kept_move; [done|done| |done]. intros n j Hj Hl Hp. cbn [names].
    destruct (decide (n = liveName)) as [->|Hn1].
    { rewrite Ei in Hj. injection Hj as <-. exists (rotatedPath liveName). by rewrite lookup_insert_eq. }
    destruct (decide (n = rotatedPath liveName)) as [->|Hn2].
    2:{ exists n. by rewrite lookup_insert_ne, !lookup_delete_ne by done. }
    exfalso. unfold rotationSafe in Hs. rewrite Ei, Hj, Em in Hs. cbn [orb] in Hs.
    apply negb_true_iff, not_true_iff_false in Hs. apply Hs, existsb_exists. exists b. split.
    + apply list_elem_of_In, elem_of_unfinished. split_and!; [by apply kept_read|apply Hm|].
      intros x Hx He. destruct Hm as (_ & _ & -> & _). apply Ho; [by eapply read_written|done].
    + apply andb_true_iff. split; [apply bytes_eqb_spec, Hm|by apply bool_decide_eq_true].
Qed.

Lemma Inv_open W lab y ok instance pid max y' : Inv W lab y -> logSound (OOpen ok instance pid max) y = true ->
  sysStep (OOpen ok instance pid max) y = Some y' -> Inv W lab y'.
Proof.
  intros H Eg E. cbn [sysStep logSound] in *. destruct (y_rec y) eqn:Er; [done|].
  apply andb_true_iff in Eg as [Eg Hsafe]. zbool. rewrite bool_decide_eq_false in *.
  destruct ok; [|done]. unfold act_Open in E. cbn [negb orb bytes_eqb] in E. change (FileName (go "server")) with liveName in E.
  destruct (rotateIfNeeded true liveName max (y_dir y)) as [d1|] eqn:Erot; [|done]. cbn [mbind option_bind] in E.
  destruct (openAppend liveName d1) as [i d2] eqn:Eo. injection E as <-.
  destruct (rotate_ok W max (y_dir y) d1 (iv_dir _ _ _ H) Hsafe Erot) as [Hd1 Hk1].
  destruct (openAppend_ok W liveName d1 i d2 Hd1 Eo) as (Hd2 & Hl & Hn2 & Hc2).
  split; cbn [y_dir y_rec y_todo y_acts y_mounts y_used default map]; try done.
  - split; [|apply (iv_book _ _ _ H)..]. intros b Hb Hp.
    destruct (bk_begin _ _ _ (iv_book _ _ _ H) b Hb Hp) as (n & ? & ? & Hu & _). exists n. split_and!; [done..|by right|].
    intros r [= <-] E. cbn in E. by subst instance.
  - unfold recOk. cbn. split_and!; [by split_and!|by left|done|by exists i|done].
  - eapply Forall_impl; [apply (iv_lab _ _ _ H)|]. intros m (Hp & Ho & b & Hb & Hm & Hk). split_and!; [done..|].
    exists b. split_and!; [done..|]. eapply kept_move; [exact Hd1|by eapply Hk1| |done]. intros n j Hj Hr _. eauto.
  - apply (iv_mounts _ _ _ H).
  - apply (iv_nodup _ _ _ H).
  - constructor.
Qed.

(** ** Beginning an activity *)

Definition beginOf (now : Z) (r : Recorder) (k target : bytes) (attrs : gmap bytes bytes) : Event :=
  stamp now r (mkEvent [] [] [] 0 k PhaseBegin (mkID (r_instance r) (r_seq r + 1)) target attrs [] []).

Lemma Begin_ok now k target attrs r i d : r_f r = Some i ->
  Begin (okIo now) k target attrs (Some r) d =
  (Some (mkActivity (mkID (r_instance r) (r_seq r + 1)) k target false), Some (nextSeq r),
   appended i (beginOf now r k target attrs) (writeAhead k) d).
Proof. intros E. unfold Begin. rewrite (act_write_ok now _ i) by done. done. Qed.

Section begin.
Context (W : list Event) (lab : list (bytes * bytes)) (y : sys) (r : Recorder) (i : nat).
Context (now : Z) (k target : bytes) (attrs : gmap bytes bytes).
Context (H : Inv W lab y) (Er : y_rec y = Some r) (Ef : r_f r = Some i) (Hl : names (y_dir y) !! liveName = Some i).
Context (Hk : utf8Valid k = true) (Ht : utf8Valid target = true) (Ha : attrsOk attrs = true).
Context (Hm : k = KindMount9P -> plainPath target = true /\ cleanTail (content (y_dir y) i)).

Let b := beginOf now r k target attrs.
Let d := appended i b (writeAhead k) (y_dir y).
Let id := mkID (r_instance r) (r_seq r + 1).
Let x := (mkActivity id k target false, if bytes_eqb k KindMount9P then ABegun else AGone).

Lemma begin_rec : wfRecorder r /\ r_instance r ∈ y_used y /\ 0 <= r_seq r.
Proof. pose proof (iv_rec _ _ _ H) as Hr. unfold recOk in Hr. rewrite Er in Hr. tauto. Qed.

Lemma begin_book : bookOk W (y_used y) (Some r).
Proof. rewrite <- Er. apply (iv_book _ _ _ H). Qed.

Lemma begin_grow : dirGrow (y_dir y) d.
Proof. apply (grow_appended W), (iv_dir _ _ _ H). Qed.

Lemma begin_wf : wfEvent b.
Proof.
  destruct begin_rec as (Hw & _ & _). apply wf_stamp; [done| |by apply attrsOk_spec]. cbn. pose proof Hw as (_ & Hi & _).
  repeat (apply Forall_cons; split); try done. by apply utf8Valid_mkID.
Qed.

Lemma begin_open : openIn (W ++ [b]) id.
Proof.
  intros e [He| ->]%elem_of_snoc Hp; [|by apply begin_not_end in Hp].
  destruct begin_rec as (_ & _ & Hs). eapply fresh_open; [apply begin_book|done..].
Qed.

Lemma begin_act : actOk (W ++ [b]) d lab (r_instance r) x.
Proof.
  destruct begin_rec as (Hw & _ & Hs). pose proof Hw as (_ & Hi & _). split; cbn [fst snd x a_ended a_id a_kind a_target].
  - done.
  - apply begin_open.
  - repeat (apply Forall_cons; split); try done. by apply utf8Valid_mkID.
  - exists b. split; [apply elem_of_snoc; by right|done].
  - intros E. unfold bytes_eqb in E. case_bool_decide as Ek; [|done]. destruct (Hm Ek) as [Hp Hc]. split_and!; [done|apply begin_open|].
    exists b. split_and!; [apply elem_of_snoc; by right|by rewrite Ek in *|]. subst d. rewrite Ek. cbn.
    eapply kept_appended; [apply (iv_dir _ _ _ H)|apply begin_wf|done..].
  - rewrite decide_False by (by destruct (bytes_eqb _ _)). intros ([id' t'] & E & Hin)%list_elem_of_fmap. cbn in E. subst id'.
    pose proof (iv_lab _ _ _ H) as Hr. rewrite Forall_forall in Hr. apply Hr in Hin as (_ & _ & c & Hc & (Hp & _ & E & _) & _).
    by eapply fresh_id; [apply begin_book|..].
Qed.

Lemma begin_new : id ∉ map (fun x => a_id (fst x)) (y_acts y).
Proof.
  destruct begin_rec as (_ & _ & Hs). intros (a & E & Hin)%list_elem_of_fmap.
  pose proof (iv_acts _ _ _ H) as Hr. rewrite Forall_forall in Hr. apply Hr in Hin as [_ _ _ (c & Hc & Hp & Ec & _) _ _].
  eapply fresh_id; [apply begin_book|done..|]. by rewrite Ec, <- E.
Qed.

(** The activity is added, with its record and whatever work there is then. *)
Lemma Inv_begin todo :
  Forall (fun e => e ∈ W ++ [b] /\ isBegin e) todo ->
  (todo <> [] -> Forall (fun x => snd x = AGone) (y_acts y ++ [x])) ->
  Inv (W ++ [b]) lab (mkSys (Some (nextSeq r)) d (y_mounts y) (Some todo) (y_acts y ++ [x]) (y_used y)).
Proof.
  intros Htodo Hidle. destruct begin_rec as (Hw & Hu & Hs).
  split; cbn [y_dir y_rec y_todo y_acts y_mounts y_used default ownInstance r_instance nextSeq].
  - apply dirOk_appended; [apply (iv_dir _ _ _ H)|apply begin_wf|by eapply do_names, Hl; apply (iv_dir _ _ _ H)].
  - apply bookOk_begin; [apply begin_book|done..|]. intros E. by apply Hm.
  - unfold recOk. cbn. split_and!; [done|done|lia| |done]. exists i. split_and!; [done| |].
    + by rewrite (grow_names _ _ begin_grow).
    + intros _. subst d. rewrite content_appended, decide_True by done. apply cleanTail_line.
  - eapply Forall_impl; [apply (iv_lab _ _ _ H)|]. intros m Hr. eapply recorded_snoc; [exact Hr|apply begin_grow|by intros ?%begin_not_end].
  - apply (iv_mounts _ _ _ H).
  - apply (iv_nodup _ _ _ H).
  - apply Forall_app. split; [|apply Forall_singleton, begin_act].
    pose proof (iv_acts _ _ _ H) as Hx. rewrite Er in Hx. eapply Forall_impl; [exact Hx|].
    intros a Hr. eapply actOk_snoc; [exact Hr|apply begin_grow|by intros ?%begin_not_end].
  - rewrite map_app. apply NoDup_app. split_and!; [apply (iv_ids _ _ _ H)| |by apply NoDup_singleton].
    intros z Hz Hz'. cbn in Hz'. apply list_elem_of_singleton in Hz' as ->. by apply begin_new.
  - done.
  - intros Hne. apply Hidle. by intros ->.
Qed.
End begin.

(** ** Ending an activity *)

(** The record of an end is appended; the activity it closes is neither running nor mounted. *)
Lemma Inv_end W lab y r i x : Inv W lab y -> y_rec y = Some r -> r_f r = Some i -> names (y_dir y) !! liveName = Some i ->
  wfEvent x -> isEnd x -> (exists b, b ∈ W /\ isBegin b /\ ev_ID b = ev_ID x) ->
  ev_ID x ∉ lab.*1 -> ev_ID x ∉ map (fun a => a_id (fst a)) (y_acts y) ->
  Inv (W ++ [x]) lab (mkSys (Some r) (appended i x false (y_dir y)) (y_mounts y) (y_todo y) (y_acts y) (y_used y)).
Proof.
  intros H Er Ef Hl Hx He Hb Hlab Hacts. pose proof (grow_appended W i x false (y_dir y) (iv_dir _ _ _ H)) as Hg.
  split; cbn [y_dir y_rec y_todo y_acts y_mounts y_used].
  - apply dirOk_appended; [apply (iv_dir _ _ _ H)|done|by eapply do_names, Hl; apply (iv_dir _ _ _ H)].
  - rewrite <- Er. apply bookOk_end; [apply (iv_book _ _ _ H)|done..].
  - pose proof (iv_rec _ _ _ H) as Hr. unfold recOk in *. cbn [y_rec y_dir y_todo y_acts y_used]. rewrite Er in Hr. destruct Hr as (Hw & Hu & Hs & _ & Hn).
    split_and!; [done..| |done]. exists i. split_and!; [done..|]. intros _.
    rewrite content_appended, decide_True by done. apply cleanTail_line.
  - apply Forall_forall. intros m Hm. pose proof (iv_lab _ _ _ H) as Hr. rewrite Forall_forall in Hr.
    eapply recorded_snoc; [by apply Hr|exact Hg|]. intros _ E. apply Hlab. rewrite E. by apply list_elem_of_fmap_2.
  - apply (iv_mounts _ _ _ H).
  - apply (iv_nodup _ _ _ H).
  - apply Forall_forall. intros a Hm. pose proof (iv_acts _ _ _ H) as Hr. rewrite Er, Forall_forall in Hr.
    eapply actOk_snoc; [by apply Hr|exact Hg|]. intros _ E. apply Hacts. rewrite E. apply list_elem_of_fmap. by exists a.
  - apply (iv_ids _ _ _ H).
  - eapply Forall_impl; [apply (iv_todo _ _ _ H)|]. intros e [? ?]. split; [apply elem_of_snoc; by left|done].
  - apply (iv_idle _ _ _ H).
Qed.

(** ** Mounts and activities changing *)

(** Other mounts and activities over the same log. *)
Lemma Inv_change W lab y lab' acts' todo' : Inv W lab y ->
  Forall (fun m => recorded W (y_dir y) (fst m) (snd m)) lab' -> NoDup lab'.*1 -> NoDup lab'.*2 ->
  Forall (actOk W (y_dir y) lab' (ownInstance (y_rec y))) acts' -> NoDup (map (fun x => a_id (fst x)) acts') ->
  (y_todo y = None -> acts' = []) -> (todo' = None <-> y_todo y = None) -> Forall (fun e => e ∈ W /\ isBegin e) (default [] todo') ->
  (todo' <> Some [] -> Forall (fun x => snd x = AGone) acts') ->
  Inv W lab' (mkSys (y_rec y) (y_dir y) lab'.*2 todo' acts' (y_used y)).
Proof.
  intros H Hl Hn1 Hn2 Ha Hi Hnone Htodo Ht Hidle. split; cbn [y_dir y_rec y_todo y_acts y_mounts y_used]; try done.
  - apply (iv_dir _ _ _ H).
  - apply (iv_book _ _ _ H).
  - pose proof (iv_rec _ _ _ H) as Hr. unfold recOk in *. cbn. destruct (y_rec y) as [r|].
    + destruct Hr as (Hw & Hu & Hs & (i & ? & ? & Hc) & Hn). split_and!; [done..| |].
      * exists i. split_and!; [done..|]. intros E. apply Hc. tauto.
      * intros E. split; [tauto|]. apply Hn. tauto.
    + destruct Hr. tauto.
Qed.

Lemma findAct_spec id l x : findAct id l = Some x -> x ∈ l /\ a_id (fst x) = id.
Proof. intros [Hin E]%find_some. split; [by apply list_elem_of_In|by apply bytes_eqb_spec]. Qed.

Lemma NoDup_fmap_eq {A B} (f : A -> B) (l : list A) x x' : NoDup (f <$> l) -> x ∈ l -> x' ∈ l -> f x = f x' -> x = x'.
Proof.
  intros Hn Hx Hx' E. apply list_elem_of_lookup in Hx as [i Hi], Hx' as [j Hj].
  assert (i = j); [|congruence]. eapply NoDup_lookup; [exact Hn| |]; rewrite list_lookup_fmap; [by rewrite Hi|].
  rewrite Hj. cbn. by rewrite E.
Qed.

Lemma ids_markAct id st l : map (fun x => a_id (fst x)) (markAct id st l) = map (fun x => a_id (fst x)) l.
Proof. unfold markAct. rewrite map_map. apply map_ext. intros x. by destruct (bytes_eqb _ _). Qed.

Lemma elem_of_markAct id st l x : x ∈ markAct id st l ->
  (exists s, (fst x, s) ∈ l /\ a_id (fst x) = id /\ snd x = st) \/ (x ∈ l /\ a_id (fst x) <> id).
Proof.
  intros ([a s] & E & Hin)%list_elem_of_fmap. unfold bytes_eqb in E. cbn [fst] in E. case_bool_decide as Ei; subst x.
  - left. by exists s.
  - by right.
Qed.

Lemma NoDup_fmap_filter {A B} (f : A -> B) (P : A -> Prop) `{Hdec : forall x, Decision (P x)} l : NoDup (f <$> l) -> NoDup (f <$> filter P l).
Proof. intros H. eapply sublist_NoDup; [exact H|]. by apply fmap_sublist, sublist_filter. Qed.

Lemma Forall_sub_filter {A} (Q P : A -> Prop) `{Hdec : forall x, Decision (P x)} l : Forall Q l -> Forall Q (filter P l).
Proof. rewrite !Forall_forall. intros H x [_ Hx]%list_elem_of_filter. by apply H. Qed.

Lemma actOk_lab W d lab lab' instance a st st' : actOk W d lab instance (a, st) -> (st' = ABegun -> st = ABegun) ->
  (if decide (st' = AMounted) then (a_id a, a_target a) ∈ lab' else a_id a ∉ lab'.*1) -> actOk W d lab' instance (a, st').
Proof. intros [H1 H2 H3 H4 H5 H6] Hs Hl. split; try done. intros E. by apply H5, Hs. Qed.

(** *** Mounting *)

Lemma Inv_mount W lab y id y' : Inv W lab y -> logSound (OMount id) y = true -> sysStep (OMount id) y = Some y' -> exists lab', Inv W lab' y'.
Proof.
  intros H Hsnd E. cbn [sysStep logSound] in *. destruct (findAct id (y_acts y)) as [[a []]|] eqn:Ea; [|done..].
  case_bool_decide as Hnew; [done|]. injection E as <-. apply findAct_spec in Ea as [Hin Eid]. cbn [fst] in Eid.
  pose proof (iv_acts _ _ _ H) as Hacts. rewrite Forall_forall in Hacts. destruct (iv_nodup _ _ _ H) as [Hn1 Hn2].
  destruct (Hacts _ Hin) as [_ _ _ _ Hrec Hlab]. cbn in Hrec, Hlab. specialize (Hrec eq_refl). rewrite Eid in *.
  exists (lab ++ [(id, a_target a)]). rewrite <- (iv_mounts _ _ _ H) in *.
  replace (lab.*2 ++ [a_target a]) with ((lab ++ [(id, a_target a)]).*2) by (by rewrite fmap_app).
  apply (Inv_change W lab); rewrite ?ids_markAct.
  - done.
  - apply Forall_app. split; [apply (iv_lab _ _ _ H)|by apply Forall_singleton].
  - rewrite fmap_app. apply NoDup_app. split_and!; [done| |by apply NoDup_singleton]. by intros z Hz ->%list_elem_of_singleton.
  - rewrite fmap_app. apply NoDup_app. split_and!; [done| |by apply NoDup_singleton]. by intros z Hz ->%list_elem_of_singleton.
  - apply Forall_forall. intros [a' s'] [(s & Hs & Ei & Est)|[Hx Hne]]%elem_of_markAct.
    + cbn in Hs, Ei, Est. subst s'. assert ((a', s) = (a, ABegun)) as [= -> ->].
      { eapply (NoDup_fmap_eq (fun x => a_id (fst x))); [apply (iv_ids _ _ _ H)|done..|]. cbn. by rewrite Ei, Eid. }
      eapply actOk_lab; [by apply Hacts|done|]. rewrite decide_True, Eid by done. apply elem_of_app. right. by left.
    + eapply actOk_lab; [by apply Hacts|done|]. pose proof (ao_lab _ _ _ _ _ (Hacts _ Hx)) as Hl. cbn in Hl, Hne.
      destruct (decide (s' = AMounted)); [apply elem_of_app; by left|]. rewrite fmap_app. intros [?|?%list_elem_of_singleton]%elem_of_app; done.
  - apply (iv_ids _ _ _ H).
  - intros E. pose proof (iv_idle _ _ _ H) as Hi. rewrite E, Forall_forall in Hi. apply Hi in Hin; [done|congruence].
  - done.
  - apply (iv_todo _ _ _ H).
  - intros E. apply (iv_idle _ _ _ H) in E. rewrite Forall_forall in E. by apply E in Hin.
Qed.

(** *** Unmounting *)

Definition without (t : bytes) (lab : list (bytes * bytes)) : list (bytes * bytes) := filter (fun m => snd m <> t) lab.

Lemma without_mounts t lab : (without t lab).*2 = filter (fun m => m <> t) lab.*2.
Proof.
  induction lab as [|[id m] lab IH]; [done|]. unfold without in *. cbn [fmap list_fmap snd]. rewrite !filter_cons. cbn [snd].
  repeat case_decide; try done. cbn [fmap list_fmap snd]. by rewrite IH.
Qed.

Lemma elem_of_without t lab m : m ∈ without t lab <-> m ∈ lab /\ snd m <> t.
Proof. unfold without. rewrite list_elem_of_filter. tauto. Qed.

(** A mount goes, and no activity left counts on it. *)
Lemma Inv_unmount W lab y t acts' todo' : Inv W lab y ->
  Forall (fun x => (exists s, (fst x, s) ∈ y_acts y /\ (snd x = s \/ snd x = AGone /\ (a_id (fst x), t) ∈ lab)) /\
                   (snd x = AMounted -> a_target (fst x) <> t)) acts' ->
  NoDup (map (fun x => a_id (fst x)) acts') ->
  (y_todo y = None -> acts' = []) -> (todo' = None <-> y_todo y = None) -> Forall (fun e => e ∈ W /\ isBegin e) (default [] todo') ->
  (todo' <> Some [] -> Forall (fun x => snd x = AGone) acts') ->
  Inv W (without t lab) (mkSys (y_rec y) (y_dir y) (removeLast t (y_mounts y)) todo' acts' (y_used y)).
Proof.
  intros H Ha Hn Hnone Ht Htodo Hidle. destruct (iv_nodup _ _ _ H) as [Hn1 Hn2].
  rewrite <- (iv_mounts _ _ _ H), removeLast_filter, <- without_mounts by done.
  apply (Inv_change W lab); try done.
  - apply Forall_forall. intros m [Hm _]%elem_of_without. pose proof (iv_lab _ _ _ H) as Hr. rewrite Forall_forall in Hr. by apply Hr.
  - by apply NoDup_fmap_filter.
  - by apply NoDup_fmap_filter.
  - eapply Forall_impl; [exact Ha|]. intros [a st'] [(st & Hin & Hst) Hm]. cbn [fst snd] in *.
    pose proof (iv_acts _ _ _ H) as Hacts. rewrite Forall_forall in Hacts. specialize (Hacts _ Hin).
    pose proof (ao_lab _ _ _ _ _ Hacts) as Hl. cbn in Hl. eapply actOk_lab; [exact Hacts|by destruct Hst as [->|[-> _]]|].
    destruct Hst as [->|[-> Hat]].
    + destruct (decide (st = AMounted)) as [E|E]; [by apply elem_of_without; auto|].
      intros (m & Em & [Hin' _]%elem_of_without)%list_elem_of_fmap. apply Hl. rewrite Em. by apply list_elem_of_fmap_2.
    + cbn. intros ([id' t'] & Em & [Hin' Hne]%elem_of_without)%list_elem_of_fmap. cbn in Em, Hne. subst id'.
      apply Hne. assert (E : (a_id a, t') = (a_id a, t)) by (by eapply (NoDup_fmap_eq fst)). by injection E.
Qed.

Lemma Inv_running W lab y x : Inv W lab y -> x ∈ y_acts y ->
  exists r i, y_rec y = Some r /\ wfRecorder r /\ r_f r = Some i /\ names (y_dir y) !! liveName = Some i /\ y_todo y <> None.
Proof.
  intros H Hx. pose proof (iv_rec _ _ _ H) as Hr. unfold recOk in Hr. destruct (y_rec y) as [r|].
  - destruct Hr as (Hw & _ & _ & (i & Hf & Hl & _) & Hn). exists r, i. split_and!; [done..|]. intros E. apply Hn in E as [E _].
    rewrite E in Hx. by apply elem_of_nil in Hx.
  - destruct Hr as [_ E]. rewrite E in Hx. by apply elem_of_nil in Hx.
Qed.

Lemma step_unmount W lab y id y' : Inv W lab y -> sysStep (OUnmount id false) y = Some y' -> exists lab', Inv W lab' y'.
Proof.
  intros H E. cbn [sysStep] in E. destruct (findAct id (y_acts y)) as [[a []]|] eqn:Ea; [done| |done..].
  injection E as <-. apply findAct_spec in Ea as [Hin Eid]. cbn [fst] in Eid.
  destruct (Inv_running _ _ _ _ H Hin) as (_ & _ & _ & _ & _ & _ & Htodo).
  pose proof (iv_acts _ _ _ H) as Hacts. rewrite Forall_forall in Hacts. destruct (iv_nodup _ _ _ H) as [Hn1 Hn2].
  pose proof (ao_lab _ _ _ _ _ (Hacts _ Hin)) as Hl. cbn in Hl. rewrite Eid in Hl.
  exists (without (a_target a) lab). cbn [Unmount9P]. apply Inv_unmount; rewrite ?ids_markAct; try done.
  - apply Forall_forall. intros [a' s'] [(s & Hs & Ei & Est)|[Hx Hne]]%elem_of_markAct; cbn [fst snd] in *.
    + subst s'. split; [|done]. exists s. split; [done|]. right. by rewrite Ei.
    + split; [exists s'; auto|]. intros -> Et. apply Hne.
      pose proof (ao_lab _ _ _ _ _ (Hacts _ Hx)) as Hl'. cbn in Hl'. rewrite Et in Hl'.
      assert (E : (a_id a', a_target a) = (id, a_target a)) by (by eapply (NoDup_fmap_eq snd)). by injection E.
  - apply (iv_ids _ _ _ H).
  - apply (iv_todo _ _ _ H).
  - intros E. apply (iv_idle _ _ _ H) in E. rewrite Forall_forall in E. by apply E in Hin.
Qed.

Lemma Inv_drop W lab y id : Inv W lab y ->
  Inv W lab (mkSys (y_rec y) (y_dir y) (y_mounts y) (y_todo y) (dropAct id (y_acts y)) (y_used y)).
Proof.
  intros H. rewrite <- (iv_mounts _ _ _ H). unfold dropAct. apply (Inv_change W lab); try done.
  - apply (iv_lab _ _ _ H).
  - apply (iv_nodup _ _ _ H).
  - apply (iv_nodup _ _ _ H).
  - by apply Forall_sub_filter, (iv_acts _ _ _ H).
  - apply NoDup_fmap_filter, (iv_ids _ _ _ H).
  - intros E. pose proof (iv_rec _ _ _ H) as Hr. unfold recOk in Hr. destruct (y_rec y).
    + destruct Hr as (_ & _ & _ & _ & Hn). destruct (Hn E) as [-> _]. done.
    + by destruct Hr as [_ ->].
  - apply (iv_todo _ _ _ H).
  - intros E. by apply Forall_sub_filter, (iv_idle _ _ _ H).
Qed.

Lemma step_end W lab y now id err y' : Inv W lab y -> utf8Valid (default [] err) = true ->
  sysStep (OEnd (okIo now) id err) y = Some y' -> exists W', Inv W' lab y'.
Proof.
  intros H Hu E. cbn [sysStep] in E. destruct (findAct id (y_acts y)) as [[a st]|] eqn:Ea; [|done].
  apply findAct_spec in Ea as [Hin Eid]. cbn [fst] in Eid.
  destruct (Inv_running _ _ _ _ H Hin) as (r & i & Er & Hw & Hf & Hl & Htodo).
  pose proof (iv_acts _ _ _ H) as Hacts. rewrite Forall_forall in Hacts. destruct (Hacts _ Hin) as [Hend _ Hval (b & Hb & Hp & Eb & _) _ Hlab].
  cbn [fst snd] in *. assert (Hst : st <> AMounted) by (by intros ->). rewrite decide_False in Hlab by done.
  set (x := stamp now r (mkEvent [] [] [] 0 (a_kind a) PhaseEnd (a_id a) (a_target a) ∅
    (match err with None => StatusOK | Some _ => StatusError end) (default [] err))).
  assert (Ey :
    y' = mkSys (Some r) (appended i x false (y_dir y)) (y_mounts y) (y_todo y) (dropAct id (y_acts y)) (y_used y)).
  { assert (E' : act_End (okIo now) (Some a) err (y_rec y) (y_dir y) =
      (Some (mkActivity (a_id a) (a_kind a) (a_target a) true), Some r, appended i x false (y_dir y))).
    { unfold act_End. rewrite Er, Hend. destruct err; by rewrite (act_write_ok now r i). }
    rewrite E' in E. destruct st; [|done|]; by injection E as <-. }
  subst y'. exists (W ++ [x]).
  apply (Inv_end W lab (mkSys (y_rec y) (y_dir y) (y_mounts y) (y_todo y) (dropAct id (y_acts y)) (y_used y))); try done.
  - by apply Inv_drop.
  - rewrite !Forall_cons in Hval. destruct Hval as (? & ? & ? & _). apply wf_stamp; [done| |apply map_Forall_empty].
    cbn. repeat (apply Forall_cons; split); try done. by destruct err.
  - by exists b.
  - cbn. unfold dropAct. intros (z & Ez & [Hz _]%list_elem_of_filter)%list_elem_of_fmap. cbn in Ez. congruence.
Qed.

(** ** Recovering *)

(** Readers see the same beginnings, and the end of [id] if there is one to see. *)
Definition closes (d d' : Dir) (id : bytes) (closed : Prop) : Prop :=
  (forall e, e ∈ act_Read d -> e ∈ act_Read d') /\ (forall e, e ∈ act_Read d' -> isBegin e -> e ∈ act_Read d) /\
  (closed -> exists x, x ∈ act_Read d' /\ isEnd x /\ ev_ID x = id).

(** What an earlier run left open is closed, once no mount goes with it. *)
Lemma Inv_resolve W lab y r e msg now : Inv W lab y -> y_rec y = Some r -> y_todo y <> None -> e ∈ W -> isBegin e ->
  ev_Instance e <> r_instance r -> ev_ID e ∉ lab.*1 -> utf8Valid msg = true ->
  let s := resolveIn (fun _ => okIo now) e msg (mkRec (y_rec y) (y_dir y) (y_mounts y)) in
  exists x, Inv (W ++ [x]) lab (mkSys (s_rec s) (s_dir s) (s_mounts s) (y_todo y) (y_acts y) (y_used y)) /\ s_rec s = Some r /\
    closes (y_dir y) (s_dir s) (ev_ID e) True.
Proof.
  intros H Er Htodo He Hp Hne Hlab Hmsg. pose proof (iv_rec _ _ _ H) as Hr. unfold recOk in Hr. rewrite Er in Hr.
  destruct Hr as (Hw & _ & _ & (i & Hf & Hl & Hc) & _). pose proof (do_wf _ _ (iv_dir _ _ _ H)) as Hwf. rewrite Forall_forall in Hwf.
  destruct (Hwf e He) as [Hs _ _]. rewrite !Forall_cons in Hs. destruct Hs as (_ & _ & Hi & Hk & _ & Hid & Ht & _ & _ & _).
  unfold resolveIn. cbn [s_rec s_dir s_mounts]. rewrite Er. unfold Resolve. rewrite (act_write_ok now r i) by done.
  cbn zeta. cbn [s_rec s_dir s_mounts]. set (x := stamp now r _).
  assert (Hx : wfEvent x).
  { apply wf_stamp; [done| |].
    - cbn. repeat (apply Forall_cons; split); done.
    - cbn [Attrs]. by apply map_Forall_singleton. }
  assert (Hread : forall z, z ∈ act_Read (appended i x false (y_dir y)) <-> z ∈ act_Read (y_dir y) \/ z = x).
  { intros z. apply (read_appended liveName); auto. }
  exists x. split; [|split; [done|]].
  2:{ split_and!; [intros z Hz; apply Hread; by left| |intros _; exists x; split_and!; [apply Hread; by right|done..]].
      intros z [Hz| ->]%Hread Hz'; [done|by apply begin_not_end in Hz']. }
  apply Inv_end; try done.
  - by exists e.
  - cbn. intros (z & Ez & Hz)%list_elem_of_fmap. pose proof (iv_acts _ _ _ H) as Hacts. rewrite Er, Forall_forall in Hacts.
    destruct (Hacts _ Hz) as [_ _ _ (b & Hb & Hpb & Eb & Hib) _ _]. cbn in Hib. apply Hne.
    rewrite (bk_unique _ _ _ (iv_book _ _ _ H) e b); [done..|]. by rewrite Eb.
Qed.

Lemma Inv_todo_tail W lab y e todo : Inv W lab y -> y_todo y = Some (e :: todo) ->
  Inv W lab (mkSys (y_rec y) (y_dir y) (y_mounts y) (Some todo) (y_acts y) (y_used y)).
Proof.
  intros H E. pose proof (iv_todo _ _ _ H) as Ht. rewrite E in Ht. apply Forall_cons_1 in Ht as [_ Ht].
  rewrite <- (iv_mounts _ _ _ H). apply (Inv_change W lab); try done.
  - apply (iv_lab _ _ _ H).
  - apply (iv_nodup _ _ _ H).
  - apply (iv_nodup _ _ _ H).
  - apply (iv_acts _ _ _ H).
  - apply (iv_ids _ _ _ H).
  - by rewrite E.
  - by rewrite E.
  - intros _. apply (iv_idle _ _ _ H). by rewrite E.
Qed.

(** A record with the identity of a mount is the mount's. *)
Lemma lab_begin W lab y e t : Inv W lab y -> e ∈ W -> isBegin e -> (ev_ID e, t) ∈ lab -> ev_Kind e = KindMount9P /\ ev_Target e = t.
Proof.
  intros H He Hp Hin. pose proof (iv_lab _ _ _ H) as Hr. rewrite Forall_forall in Hr.
  destruct (Hr _ Hin) as (_ & _ & b & Hb & (Hpb & Hk & Eid & Et) & _). cbn in Eid, Et.
  rewrite (bk_unique _ _ _ (iv_book _ _ _ H) e b); [done..|]. by rewrite Eid.
Qed.

Lemma Inv_plain W lab y : Inv W lab y -> Forall (fun m => plainPath m = true) (y_mounts y).
Proof.
  intros H. rewrite <- (iv_mounts _ _ _ H). apply Forall_fmap. eapply Forall_impl; [apply (iv_lab _ _ _ H)|]. by intros m [? _].
Qed.

Lemma plainPath_ascii m : plainPath m = true -> forallb ascii m = true.
Proof.
  intros (_ & _ & Hp & _)%plainPath_spec. apply forallb_forall. intros c Hc%list_elem_of_In. rewrite Forall_forall in Hp.
  by apply Hp, plain_spec in Hc as [? _].
Qed.

(** A step of recovery keeps the invariant, the run and the records, makes no mount, and
    takes the target's where [gone] says so. *)
Definition recovers (W : list Event) (lab : list (bytes * bytes)) (y : sys) (r : Recorder) (e : Event) (gone : Prop) (s : recState) : Prop :=
  exists W' lab', Inv W' lab' (mkSys (s_rec s) (s_dir s) (s_mounts s) (y_todo y) (y_acts y) (y_used y)) /\
    s_rec s = Some r /\ W ⊆ W' /\ lab' ⊆ lab /\ (gone -> ev_Target e ∉ lab'.*2) /\ closes (y_dir y) (s_dir s) (ev_ID e) gone.

Section recovering.
Context (W : list Event) (lab : list (bytes * bytes)) (y : sys) (r : Recorder) (e : Event) (todo : list Event) (now : Z).
Context (H : Inv W lab y) (Er : y_rec y = Some r) (Etodo : y_todo y = Some (e :: todo)).
Let s0 := mkRec (y_rec y) (y_dir y) (y_mounts y).

Lemma recovering_todo : e ∈ W /\ isBegin e /\ y_todo y <> None /\ Forall (fun x => snd x = AGone) (y_acts y).
Proof.
  pose proof (iv_todo _ _ _ H) as Ht. rewrite Etodo in Ht. apply Forall_cons_1 in Ht as [[He Hp] _].
  split_and!; [done..|by rewrite Etodo|]. apply (iv_idle _ _ _ H). by rewrite Etodo.
Qed.

Lemma recovers_nothing : recovers W lab y r e False s0.
Proof. exists W, lab. subst s0. cbn. rewrite Er in *. split_and!; [|done..]. rewrite <- Er. by destruct y. Qed.

Lemma recovers_closed msg : ev_Instance e <> r_instance r -> (forall t, (ev_ID e, t) ∉ lab) -> utf8Valid msg = true ->
  recovers W lab y r e (ev_Target e ∉ lab.*2) (resolveIn (fun _ => okIo now) e msg s0).
Proof.
  intros Hne Hlab Hmsg. destruct recovering_todo as (He & Hp & Hn & _).
  destruct (Inv_resolve W lab y r e msg now) as (x & Hx & Hs & Hcl1 & Hcl2 & Hcl3); try done.
  - intros ([id t] & E & Hin)%list_elem_of_fmap. cbn in E. subst id. by apply Hlab in Hin.
  - exists (W ++ [x]), lab. split_and!; [exact Hx|exact Hs| |done|done|]; [intros z Hz; apply elem_of_app; by left|].
    split_and!; [done..|]. intros _. by apply Hcl3.
Qed.
End recovering.

Lemma recovers_weaken W lab W1 lab1 y y1 r e (g g1 : Prop) s : recovers W1 lab1 y1 r e g1 s -> W ⊆ W1 -> lab1 ⊆ lab -> (g -> g1) ->
  y_todo y1 = y_todo y -> y_acts y1 = y_acts y -> y_used y1 = y_used y -> y_dir y1 = y_dir y ->
  recovers W lab y r e g s.
Proof.
  intros (W' & lab' & H & Hs & HW & Hl & Hg & Hcl) HW1 Hl1 Hgg E1 E2 E3 E4. rewrite E1, E2, E3 in H. rewrite E4 in Hcl.
  exists W', lab'. split_and!; [done|done|set_solver..|by auto|]. destruct Hcl as (? & ? & Hcl). split_and!; [done..|]. auto.
Qed.

Lemma without_sub t lab : without t lab ⊆ lab.
Proof. by intros m [? _]%elem_of_without. Qed.

Lemma without_gone t lab : t ∉ (without t lab).*2.
Proof. rewrite without_mounts. intros [? _]%list_elem_of_filter. done. Qed.

Section recoverSteps.
Context (W : list Event) (lab : list (bytes * bytes)) (y : sys) (r : Recorder) (e : Event) (todo : list Event) (now : Z) (refused : bool).
Context (H : Inv W lab y) (Er : y_rec y = Some r) (Etodo : y_todo y = Some (e :: todo)) (Hne : ev_Instance e <> r_instance r).
Let s0 := mkRec (y_rec y) (y_dir y) (y_mounts y).
Let io := fun _ : Event => okIo now.
Let y1 := mkSys (y_rec y) (y_dir y) (removeLast (ev_Target e) (y_mounts y)) (y_todo y) (y_acts y) (y_used y).

Lemma recover_unmount : Inv W (without (ev_Target e) lab) y1.
Proof.
  destruct (recovering_todo W lab y e todo H Etodo) as (_ & _ & Hn & Hidle). apply Inv_unmount; try done.
  - apply Forall_forall. intros [a st] Hx. rewrite Forall_forall in Hidle. pose proof (Hidle _ Hx) as Es. cbn in Es. subst st.
    split; [|done]. exists AGone. auto.
  - apply (iv_ids _ _ _ H).
  - apply (iv_todo _ _ _ H).
Qed.

Lemma recover_plain : ev_Kind e = KindMount9P -> plainPath (ev_Target e) = true.
Proof. destruct (recovering_todo W lab y e todo H Etodo) as (He & Hp & _). by apply (bk_plain _ _ _ (iv_book _ _ _ H)). Qed.

Lemma recoverMount_step : ev_Kind e = KindMount9P ->
  recovers W lab y r e (refused = false) (recoverMount io (fun _ => refused) e s0).
Proof.
  intros Hk. destruct (recovering_todo W lab y e todo H Etodo) as (He & Hp & _). pose proof (recover_plain Hk) as Hpl.
  assert (Hlab : forall W lab y, Inv W lab y -> e ∈ W -> ev_Target e ∉ lab.*2 -> forall t, (ev_ID e, t) ∉ lab).
  { intros W' lab' y' H' He' Hnot t Hin. destruct (lab_begin _ _ _ _ _ H' He' Hp Hin) as [_ <-]. apply Hnot.
    by apply (list_elem_of_fmap_2 snd) in Hin. }
  unfold recoverMount. subst s0. cbn [s_mounts s_rec s_dir].
  rewrite IsMountpoint_spec by (by try eapply Inv_plain). case_bool_decide as Hin; cbn [negb].
  2:{ rewrite <- (iv_mounts _ _ _ H) in Hin. eapply recovers_weaken; [by eapply recovers_closed; eauto|done..]. }
  unfold Unmount9P. destruct refused.
  { rewrite IsMountpoint_spec, bool_decide_true by (by try eapply Inv_plain). eapply recovers_weaken; [by eapply recovers_nothing|done..]. }
  pose proof recover_unmount as H1. rewrite IsMountpoint_spec; [|apply (Inv_plain _ _ _ H1)|done].
  rewrite bool_decide_false.
  2:{ pose proof (iv_mounts _ _ _ H1) as E1. cbn in E1. rewrite <- E1. apply without_gone. }
  eapply recovers_weaken; [eapply (recovers_closed W (without (ev_Target e) lab) y1); [done..| |]| | | | | | |]; try done.
  - eapply Hlab; [exact H1|done|apply without_gone].
  - apply utf8Valid_ascii. by rewrite forallb_app, forallb_app, (plainPath_ascii (ev_Target e)).
  - apply without_sub.
  - intros _. apply without_gone.
Qed.

Lemma recoverOne_step :
  recovers W lab y r e (refused = false /\ ev_Kind e = KindMount9P) (recoverOne io (fun _ => refused) s0 e).
Proof.
  destruct (recovering_todo W lab y e todo H Etodo) as (He & Hp & _). unfold recoverOne.
  change (s_rec s0) with (y_rec y). rewrite Er. cbn [ownInstance]. rewrite bytes_eqb_neq by done. destruct (_ || _) eqn:Elife.
  - eapply recovers_weaken; [eapply recovers_closed; eauto| | | | | | |]; try done.
    + intros t Hin. destruct (lab_begin _ _ _ _ _ H He Hp Hin) as [Ek _]. by rewrite Ek in Elife.
    + intros [_ Ek]. by rewrite Ek in Elife.
  - unfold bytes_eqb. case_bool_decide as Hk.
    + eapply recovers_weaken; [by apply recoverMount_step|done|done|by intros [? _]|done..].
    + eapply recovers_weaken; [by eapply recovers_nothing|done|done|by intros [_ ?]|done..].
Qed.
End recoverSteps.

(** Records of the run itself are left alone. *)
Lemma recoverOne_any W lab y r e todo now refused : Inv W lab y -> y_rec y = Some r -> y_todo y = Some (e :: todo) ->
  recovers W lab y r e (refused = false /\ ev_Kind e = KindMount9P /\ ev_Instance e <> r_instance r)
    (recoverOne (fun _ => okIo now) (fun _ => refused) (mkRec (y_rec y) (y_dir y) (y_mounts y)) e).
Proof.
  intros H Er Etodo. destruct (decide (ev_Instance e = r_instance r)) as [E|E].
  - unfold recoverOne. cbn [s_rec]. rewrite Er. cbn [ownInstance]. rewrite E, bytes_eqb_refl, <- Er.
    eapply recovers_weaken; [by eapply recovers_nothing|done|done|by intros (_ & _ & ?)|done..].
  - eapply recovers_weaken; [by eapply recoverOne_step|done|done|by intros (? & ? & _)|done..].
Qed.

(** ** Every run *)

Lemma step_begin W lab y now k target attrs y' : Inv W lab y -> logSound (OBegin (okIo now) k target attrs) y = true ->
  sysStep (OBegin (okIo now) k target attrs) y = Some y' -> exists W', Inv W' lab y'.
Proof.
  intros H Eg E. cbn [sysStep logSound] in *. destruct (y_rec y) as [r|] eqn:Er; [|done]. destruct (y_todo y) as [[|]|] eqn:Et; [|done..].
  apply andb_true_iff in Eg as [_ [[[Hk Ht]%andb_true_iff Ha]%andb_true_iff Hm]%andb_true_iff].
  pose proof (iv_rec _ _ _ H) as Hr. unfold recOk in Hr. rewrite Er, Et in Hr. destruct Hr as (_ & _ & _ & (i & Hf & Hl & Hc) & _).
  rewrite (Begin_ok now k target attrs r i) in E by done. injection E as <-. eexists. eapply Inv_begin; try done.
  intros ->. split; [done|]. by apply Hc.
Qed.

Lemma step_life W lab y now attrs y' : Inv W lab y -> attrsOk attrs = true -> sysStep (OLife (okIo now) attrs) y = Some y' ->
  exists r b, Inv (W ++ [b]) lab y' /\ y_rec y' = Some (nextSeq r) /\ y_todo y' = Some (Unfinished (y_dir y')) /\
    forall c, c ∈ W ++ [b] -> isBegin c -> ev_Kind c = KindMount9P -> ev_Instance c <> r_instance r.
Proof.
  intros H Ha E. cbn [sysStep] in E. destruct (y_rec y) as [r|] eqn:Er; [|done]. destruct (y_todo y) eqn:Et; [done|].
  pose proof (iv_rec _ _ _ H) as Hr. unfold recOk in Hr. rewrite Er, Et in Hr.
  destruct Hr as (Hw & _ & _ & (i & Hf & Hl & _) & Hn). destruct (Hn eq_refl) as [Eacts Eseq].
  rewrite (Begin_ok now KindServer [] attrs r i) in E by done. injection E as <-.
  pose proof (Inv_begin W lab y r i now KindServer [] attrs H Er Hf Hl eq_refl eq_refl Ha ltac:(done)) as Hi. rewrite Eacts in Hi.
  exists r. eexists. split_and!; [apply Hi| | |].
  - apply Forall_forall. intros e (He & Hp & _)%elem_of_unfinished. split; [|done]. eapply read_written; [|exact He].
    apply (dirOk_appended W i _ false); [apply (iv_dir _ _ _ H)|by eapply begin_wf|by eapply do_names, Hl; apply (iv_dir _ _ _ H)].
  - intros _. by apply Forall_singleton.
  - done.
  - done.
  - intros c [Hc| ->]%elem_of_snoc Hp Hk E; [|done].
    destruct (bk_begin _ _ _ (iv_book _ _ _ H) c Hc Hp) as (n & _ & Hpos & _ & Hle). specialize (Hle r Er E). lia.
Qed.

Lemma Inv_step W lab y o y' : Inv W lab y -> logSound o y = true -> sysStep o y = Some y' -> exists W' lab', Inv W' lab' y'.
Proof.
  intros H Hs E. destruct o.
  - exists W, lab. by eapply Inv_open.
  - apply andb_true_iff in Hs as [Hio Ha]. rewrite (ioOk_okIo _ Hio) in E.
    destruct (step_life _ _ _ _ _ _ H Ha E) as (r & b & Hi & _). eauto.
  - cbn [logSound] in Hs. rewrite (ioOk_okIo _ Hs) in E.
    cbn [sysStep] in E. destruct (y_todo y) as [[|e todo]|] eqn:Et; [done| |done]. injection E as <-.
    destruct (y_rec y) as [r|] eqn:Er.
    2:{ pose proof (iv_rec _ _ _ H) as Hr. unfold recOk in Hr. rewrite Er, Et in Hr. by destruct Hr. }
    destruct (recoverOne_any W lab y r e todo (io_now io) refused H Er Et) as (W' & lab' & Hi & _). rewrite Er in Hi.
    exists W', lab'. eapply Inv_todo_tail in Hi; [exact Hi|]. exact Et.
  - pose proof Hs as [Hio _]%andb_true_iff. rewrite (ioOk_okIo _ Hio) in E, Hs. destruct (step_begin _ _ _ _ _ _ _ _ H Hs E) as [W' Hi]. eauto.
  - destruct (Inv_mount _ _ _ _ _ H Hs E) as [lab' Hi]. eauto.
  - destruct refused; [done|]. destruct (step_unmount _ _ _ _ _ H E) as [lab' Hi]. eauto.
  - apply andb_true_iff in Hs as [Hio Hu]. rewrite (ioOk_okIo _ Hio) in E. destruct (step_end _ _ _ _ _ _ _ H Hu E) as [W' Hi]. eauto.
  - done.
  - injection E as <-. exists W, lab. by apply Inv_crash.
Qed.

Lemma Inv_init : Inv [] [] sysInit.
Proof.
  assert (Hc : forall i, content emptyDir i = []) by done.
  split; cbn [sysInit y_dir y_rec y_todo y_acts y_mounts y_used default map fmap list_fmap]; try done.
  - split; try done. intros i. rewrite Hc. exists [], []. split_and!; [done|constructor..].
  - by split; [intros b Hb%elem_of_nil|intros b b' Hb%elem_of_nil|intros b Hb%elem_of_nil..].
  - split; constructor.
  - constructor.
Qed.

Lemma Inv_run ops W lab y y' : Inv W lab y -> soundRun ops y = true -> sysRun ops y = Some y' -> exists W' lab', Inv W' lab' y'.
Proof.
  revert W lab y. induction ops as [|o ops IH]; intros W lab y H Hs E; cbn [sysRun soundRun] in *; [injection E as <-; eauto|].
  apply andb_true_iff in Hs as [Ho Hs]. destruct (sysStep o y) as [y1|] eqn:E1; [|done].
  destruct (Inv_step _ _ _ _ _ H Ho E1) as (W1 & lab1 & H1). by eapply IH.
Qed.


(** Recovery over the open records it has found. *)
Lemma recover_all clock r l : forall W lab y, Inv W lab y -> y_rec y = Some r -> y_todo y = Some l ->
  (forall m, m ∈ lab -> exists e, e ∈ l /\ mountBegin (fst m) (snd m) e /\ ev_Instance e <> r_instance r) ->
  let s := fold_left (recoverOne (fun e => okIo (clock e)) (fun _ => false)) l (mkRec (y_rec y) (y_dir y) (y_mounts y)) in
  s_mounts s = [] /\ (forall e, e ∈ act_Read (y_dir y) -> e ∈ act_Read (s_dir s)) /\
  (forall e, e ∈ act_Read (s_dir s) -> isBegin e -> e ∈ act_Read (y_dir y)) /\
  (forall e, e ∈ l -> ev_Kind e = KindMount9P -> ev_Instance e <> r_instance r ->
    exists x, x ∈ act_Read (s_dir s) /\ isEnd x /\ ev_ID x = ev_ID e).
Proof.
  induction l as [|e l IH]; intros W lab y H Er Et Hcov.
  - cbn. split_and!; [|done|done|by intros e He%elem_of_nil]. rewrite <- (iv_mounts _ _ _ H). destruct lab as [|m lab]; [done|].
    destruct (Hcov m) as (e & He & _); [by left|]. by apply elem_of_nil in He.
  - destruct (recoverOne_any W lab y r e l (clock e) false H Er Et) as (W' & lab' & Hi & Hs & HW & Hl & Hg & Hc1 & Hc2 & Hc3).
    eapply Inv_todo_tail in Hi; [|exact Et].
    cbn [fold_left]. change (recoverOne (fun e => okIo (clock e)) (fun _ => false) (mkRec (y_rec y) (y_dir y) (y_mounts y)) e) with
      (recoverOne (fun _ => okIo (clock e)) (fun _ => false) (mkRec (y_rec y) (y_dir y) (y_mounts y)) e).
    set (s := recoverOne (fun _ => okIo (clock e)) _ _ e) in *.
    destruct (IH W' lab' _ Hi Hs eq_refl) as (I1 & I2 & I3 & I4).
    { intros m Hm. destruct (Hcov m (Hl _ Hm)) as (e' & [->|He']%elem_of_cons & Hmb & Hne); [|by exists e'].
      destruct Hmb as (_ & Hk & _ & Etg). destruct Hg; [done|]. rewrite Etg. by apply list_elem_of_fmap_2. }
    cbn [y_rec y_dir y_mounts] in *. destruct s as [sr sd sm]. cbn [s_rec s_dir s_mounts] in *.
    split_and!; [done|by auto|by auto|]. intros e' [->|He']%elem_of_cons Hk Hne; [|by apply I4].
    destruct Hc3 as (x & Hx & ?); [done|]. exists x. split; [by apply I2|done].
Qed.


(** A server mounts and dies; all that was not synced is gone. *)
Definition exCrash : list sysOp :=
  [OOpen true (go "a1") 7 1000; OLife (okIo 0) ∅; ORecover (okIo 0) false; OBegin (okIo 1) KindMount9P (go "/run/m") ∅; OMount (go "a1-2"); OCrash (fun _ => 0%nat)].
Definition exCrashed : sys := default sysInit (sysRun exCrash sysInit).
Definition exReopened : sys := default sysInit (sysRun (exCrash ++ [OOpen true (go "b2") 8 1000]) sysInit).
Definition exLiving : sys := default sysInit (sysStep (OLife (okIo 2) ∅) exReopened).


