(* ===== verification/ActivityTail.v ===== *)
(** * Following the log

    [pkg/activity/tail.go]: the [Tailer], which remembers how far it has read each file and reads what
    was appended since. A round lists the directory, and for each file asks
    for its size and then opens it; other processes write in between, so each of these
    looks at a directory of its own.

    Files are appended to, and moved aside by rotations. Of each file, every record on a whole line is delivered
    exactly once, up to the last round that found the file under its live name at least
    ([tail_exactly_once]): a rotation loses what was written after the last round before it
    ([tail_rotation_loses]). Two races are left out of that theorem and have a lemma each: a rotation between asking for a size and opening
    the file ([stat_race_replays]), and one within the first round ([first_round_doubles]). The number of a file is not given
    to a new one, and a file does not shrink. *)
From stdpp Require Import base list gmap strings numbers sorting.
From Stdlib Require Import ZArith Lia.
From Stdlib.Strings Require Import Byte.
From S2P Require Import Prelude GoStd GoPath GoJson GoJsonTorn Activity ActivityLog.
Open Scope Z_scope.

(** ** The tailer *)

(** Which file it was, and how many bytes of it are done. *)
Record tailFile := mkTail { tf_info : nat; tf_off : nat }.

Record Tailer := mkTailer { t_files : gmap bytes tailFile; t_started : bool }.

Definition NewTailer : Tailer := mkTailer ∅ false.

Definition tail_scan (first : bool) (d : Dir) : list bytes :=
  sortStrings (filter (fun n => isLive n || (isRetained n && first) = true) (elements (dom (names d)))).

(** Up to the last newline; [bytes.LastIndexByte]. *)
Fixpoint wholeLines (b : bytes) : bytes :=
  match b with
  | [] => []
  | c :: b =>
      match wholeLines b with
      | [] => if bool_decide (c = Byte.x0a) then [c] else []
      | l => c :: l
      end
  end.

(** The offset to go on from: nothing is known of the file, or it is another or a shorter one. *)
Definition tailOff (tf : option tailFile) (i size : nat) : nat :=
  match tf with
  | Some tf => if bool_decide (tf_info tf = i) && negb (size <? tf_off tf)%nat then tf_off tf else 0%nat
  | None => 0%nat
  end.

(** [obs] are the directory when the file's size is asked for and when it is opened. *)
Definition readNew (obs : Dir * Dir) (path : bytes) (files : gmap bytes tailFile) : gmap bytes tailFile * list Event :=
  match names (fst obs) !! path with
  | None => (files, [])
  | Some i =>
      let size := length (content (fst obs) i) in
      let off := tailOff (files !! path) i size in
      let files := <[path := mkTail i off]> files in
      if (size =? off)%nat then (files, [])
      else
        match names (snd obs) !! path with
        | None => (files, [])
        | Some j =>
            let complete := wholeLines (drop off (content (snd obs) j)) in
            match complete with
            | [] => (files, [])
            | _ => (<[path := mkTail i (off + length complete)]> files, parseRecords complete)
            end
        end
  end.

Fixpoint readAll (obs : bytes -> Dir * Dir) (paths : list bytes) (files : gmap bytes tailFile) : gmap bytes tailFile * list Event :=
  match paths with
  | [] => (files, [])
  | p :: paths =>
      let '(files, evs) := readNew (obs p) p files in
      let '(files, out) := readAll obs paths files in
      (files, evs ++ out)
  end.

(** One round over a listing of the directory. *)
Definition tail_Next (d : Dir) (obs : bytes -> Dir * Dir) (t : Tailer) : Tailer * list Event :=
  let paths := tail_scan (negb (t_started t)) d in
  let '(files, out) := readAll obs paths (t_files t) in
  (mkTailer (filter (fun kv => fst kv ∈ paths) files) true, sortTS out).

(** Rounds: the listing, what each file looked like, and the directory when the round is over. *)
Record round := mkRound { rd_scan : Dir; rd_obs : bytes -> Dir * Dir; rd_end : Dir }.

Fixpoint tailRun (rounds : list round) (t : Tailer) : Tailer * list Event :=
  match rounds with
  | [] => (t, [])
  | r :: rounds =>
      let '(t, out) := tail_Next (rd_scan r) (rd_obs r) t in
      let '(t, out') := tailRun rounds t in
      (t, out ++ out')
  end.

(** ** Whole lines *)

Lemma wholeLines_prefix b : wholeLines b `prefix_of` b.
Proof.
  induction b as [|c b IH]; [done|]. cbn. destruct (wholeLines b) as [|x l] eqn:E.
  - case_bool_decide; [subst; apply prefix_cons, prefix_nil|apply prefix_nil].
  - by apply prefix_cons.
Qed.

Lemma wholeLines_clean b : cleanTail (wholeLines b).
Proof.
  induction b as [|c b IH]; [by left|]. cbn. destruct (wholeLines b) as [|x l] eqn:E.
  - case_bool_decide; [subst; right; by exists []|by left].
  - destruct IH as [?|[a Ea]]; [done|]. right. exists (c :: a). by rewrite Ea.
Qed.

(** A clean beginning is within the whole lines. *)
Lemma wholeLines_max a b : cleanTail a -> wholeLines (a ++ b) = a ++ wholeLines b.
Proof.
  intros [->|[a' ->]]; [done|]. induction a' as [|c a' IH]; cbn [app wholeLines].
  - destruct (wholeLines b); [by rewrite bool_decide_true|done].
  - rewrite IH. destruct ((a' ++ [Byte.x0a]) ++ wholeLines b) eqn:E; [by destruct a'|done].
Qed.

Lemma wholeLines_mono a b : a `prefix_of` b -> wholeLines a `prefix_of` wholeLines b.
Proof.
  intros [k ->]. destruct (wholeLines_prefix a) as [x Ex]. pose proof (wholeLines_clean a) as Hc.
  set (w := wholeLines a) in *. rewrite Ex, <- app_assoc, wholeLines_max by done. by eexists.
Qed.

(** ** The directory between two looks *)

(** The names a round reads. *)
Definition streams (first : bool) (p : bytes) : bool := isLive p || (isRetained p && first).

Record wfDir (d : Dir) : Prop := {
  wd_alloc : forall p i, names d !! p = Some i -> (i < nextFile d)%nat;
  wd_inj : forall p q i, names d !! p = Some i -> names d !! q = Some i -> p = q;
}.

(** Files are appended to; names are given to new files, and go. A file keeps its name or loses it: the names read are not given
    to files there were. A rotation is such a change to the live names: the file moves to a retained name. *)
Record later (first : bool) (d d' : Dir) : Prop := {
  lt_wf : wfDir d';
  lt_next : (nextFile d <= nextFile d')%nat;
  lt_content : forall i, content d i `prefix_of` content d' i;
  lt_names : forall p i, streams first p = true -> names d' !! p = Some i -> names d !! p = Some i \/ (nextFile d <= i)%nat;
}.

Lemma later_refl first d : wfDir d -> later first d d.
Proof. intros H. split; auto. Qed.

Lemma later_trans first d1 d2 d3 : later first d1 d2 -> later first d2 d3 -> later first d1 d3.
Proof.
  intros [_ N1 C1 L1] [W N2 C2 L2]. split; [done|lia|intros i; by transitivity (content d2 i)|].
  intros p i Hp Hi. destruct (L2 p i Hp Hi) as [H|H]; [auto|right; lia].
Qed.

Lemma later_live first d d' : later first d d' -> later false d d'.
Proof.
  intros [W N C L]. split; [done..|]. intros p i Hp. apply L. unfold streams in *. rewrite andb_false_r, orb_false_r in Hp. by rewrite Hp.
Qed.

Lemma later_empty first d : wfDir d -> later first emptyDir d.
Proof. intros H. split; [done|cbn; lia|intros i; apply prefix_nil|]. intros p i _ _. right. cbn. lia. Qed.

Lemma later_append first i b d : wfDir d -> later first d (appendFile i b d).
Proof.
  intros [Ha Hi]. split; [by split|done| |by left]. intros j. unfold content at 2, appendFile. cbn [contents].
  destruct (decide (j = i)) as [->|]; [rewrite lookup_insert_eq; by eexists|by rewrite lookup_insert_ne].
Qed.

Lemma later_create first n d : wfDir d -> content d (nextFile d) = [] -> later first d (snd (openAppend n d)).
Proof.
  intros [Ha Hi] Hc. unfold openAppend. destruct (names d !! n) as [k|] eqn:En; [by apply later_refl|]. cbn [snd].
  split; cbn [names nextFile]; [split; cbn [names nextFile]|lia| |].
  - intros p i [[<- <-]|[_ H%Ha]]%lookup_insert_Some; lia.
  - intros p q i Hp Hq. apply lookup_insert_Some in Hp as [[<- <-]|[Hp1 Hp2]], Hq as [[<- Eq]|[Hq1 Hq2]].
    + done.
    + apply Ha in Hq2. lia.
    + subst. apply Ha in Hp2. lia.
    + by eapply Hi.
  - intros j. unfold content at 2. cbn [contents]. destruct (decide (j = nextFile d)) as [->|].
    + by rewrite lookup_insert_eq, Hc.
    + by rewrite lookup_insert_ne.
  - intros p i _ [[<- <-]|[_ H]]%lookup_insert_Some; [by right|by left].
Qed.

(** Rotating: the live names of a directory with the file moved aside. *)
Lemma later_rotate old new d : wfDir d -> isLive new = false -> later false d (renameFile old new d).
Proof.
  intros Hw Hn. pose proof Hw as [Ha Hi]. unfold renameFile. destruct (names d !! old) as [k|] eqn:Eo; [|by apply later_refl].
  split; [split|done|done|]; cbn [names nextFile].
  - intros p i [[<- <-]|[_ [_ H]%lookup_delete_Some]]%lookup_insert_Some; by eapply Ha.
  - intros p q i Hp Hq. apply lookup_insert_Some in Hp as [[<- <-]|[Hp1 [Hp2 Hp3]%lookup_delete_Some]], Hq as [[<- Eq]|[Hq1 [Hq2 Hq3]%lookup_delete_Some]].
    + done.
    + by destruct Hq2; eapply Hi.
    + subst. by destruct Hp2; eapply Hi.
    + by eapply Hi.
  - intros p i Hp [[<- <-]|[_ [_ H]%lookup_delete_Some]]%lookup_insert_Some; [|by left].
    unfold streams in Hp. rewrite Hn, andb_false_r in Hp. done.
Qed.

Lemma later_remove first n d : wfDir d -> later first d (removeName n d).
Proof.
  intros [Ha Hi]. split; [split|done|done|]; cbn [removeName names nextFile].
  - intros p i [_ H]%lookup_delete_Some. by eapply Ha.
  - intros p q i [_ H]%lookup_delete_Some [_ H']%lookup_delete_Some. by eapply Hi.
  - intros p i _ [_ H]%lookup_delete_Some. by left.
Qed.

Lemma rotated_not_live p : isLive (rotatedPath p) = false.
Proof.
  apply not_true_is_false. intros [t Ht]%hasSuffix_spec. unfold rotatedPath in Ht. apply (f_equal last) in Ht.
  change (go ".1") with ([Byte.x2e] ++ [Byte.x31]) in Ht. change (go ".ndjson") with (go ".ndjso" ++ [Byte.x6e]) in Ht.
  by rewrite !app_assoc, !last_snoc in Ht.
Qed.

(** A process that opens its log, and rotates it on the way, is such a change. *)
Lemma later_Open ok max instance pid dir proc d r d' : wfDir d -> content d (nextFile d) = [] ->
  act_Open ok max instance pid dir proc d = Some (r, d') -> later false d d'.
Proof.
  intros Hw Hc E. unfold act_Open in E. destruct (_ || _); [done|].
  destruct (rotateIfNeeded ok (FileName proc) max d) as [d1|] eqn:Er; [|done]. cbn [mbind option_bind] in E.
  destruct (openAppend (FileName proc) d1) as [i d2] eqn:Eo. injection E as <- <-. change d2 with (snd (i, d2)). rewrite <- Eo.
  assert (H1 : later false d d1 /\ content d1 (nextFile d1) = []).
  { unfold rotateIfNeeded in Er. destruct (names d !! FileName proc) eqn:En; [|injection Er as <-; split; [by apply later_refl|done]].
    destruct (_ <=? _); [injection Er as <-; split; [by apply later_refl|done]|]. destruct (negb ok); [done|]. injection Er as <-. split.
    - eapply later_trans; [by apply later_remove|]. apply later_rotate; [|apply rotated_not_live]. by eapply lt_wf, (later_remove false).
    - unfold renameFile. destruct (names (removeName _ _) !! FileName proc); exact Hc. }
  destruct H1 as [L1 Hc1]. eapply later_trans; [exact L1|]. apply later_create; [apply L1|done].
Qed.

(** ** One file *)

Lemma take_prefix (n : nat) (a b : bytes) : a `prefix_of` b -> (n <= length a)%nat -> take n b = take n a.
Proof. intros [k ->] Hn. by rewrite take_app_le. Qed.

Lemma take_take_prefix (n m : nat) (a b : bytes) : a `prefix_of` b -> (n <= length a)%nat -> (n <= m)%nat -> take n a `prefix_of` take m b.
Proof.
  intros Hp Hn Hm. rewrite <- (take_prefix n a b Hp Hn). replace n with (Nat.min n m) by lia. rewrite <- take_take.
  eexists. symmetry. apply take_drop.
Qed.

(** What was delivered so far: of each file, by its identity, so many bytes. *)
Definition total (d : Dir) (done : gmap nat nat) : list Event :=
  concat (map (fun io : nat * nat => parseRecords (take (snd io) (content d (fst io)))) (map_to_list done)).

Record tailInv (first : bool) (d : Dir) (files : gmap bytes tailFile) (done : gmap nat nat) : Prop := {
  ti_ok : forall i off, done !! i = Some off ->
    (off <= length (content d i))%nat /\ cleanTail (take off (content d i)) /\ (i < nextFile d)%nat;
  ti_live : forall p i off, streams first p = true -> names d !! p = Some i -> done !! i = Some off -> files !! p = Some (mkTail i off);
  ti_files : forall p tf, files !! p = Some tf -> done !! tf_info tf = Some (tf_off tf);
  ti_inj : forall p q tf tf', files !! p = Some tf -> files !! q = Some tf' -> tf_info tf = tf_info tf' -> p = q;
}.

Lemma tailInv_live first d files done : tailInv first d files done -> tailInv false d files done.
Proof.
  intros [H1 H2 H3 H4]. split; [done| |done..]. intros p i off Hp. apply H2. unfold streams in *.
  rewrite andb_false_r, orb_false_r in Hp. by rewrite Hp.
Qed.

Lemma tailInv_later first d d' files done : later first d d' -> tailInv first d files done -> tailInv first d' files done.
Proof.
  intros [W N C L] [H1 H2 H3 H4]. split; [| |done..].
  - intros i off Hi. destruct (H1 i off Hi) as (A1 & A2 & A3). pose proof (prefix_length _ _ (C i)).
    split_and!; [lia|by rewrite (take_prefix _ _ _ (C i))|lia].
  - intros p i off Hp Hn Hi. apply H2; [done| |done]. destruct (L p i Hp Hn) as [?|Hge]; [done|].
    destruct (H1 i off Hi) as (_ & _ & ?). lia.
Qed.

Lemma total_later first d d' files done : later first d d' -> tailInv first d files done -> total d' done = total d done.
Proof.
  intros [_ _ C _] [H1 _ _ _]. unfold total. f_equal. apply map_ext_in. intros [i off] Hin%list_elem_of_In%elem_of_map_to_list.
  cbn [fst snd]. by rewrite (take_prefix _ _ _ (C i)) by apply (H1 i off Hin).
Qed.

Lemma total_insert d done i off : total d (<[i := off]> done) ≡ₚ parseRecords (take off (content d i)) ++ total d (delete i done).
Proof. unfold total. rewrite <- insert_delete_eq, map_to_list_insert by apply lookup_delete_eq. done. Qed.

Lemma total_split d done i : total d done ≡ₚ parseRecords (take (default 0%nat (done !! i)) (content d i)) ++ total d (delete i done).
Proof.
  destruct (done !! i) as [off|] eqn:E; cbn [default]; [|by rewrite delete_id]. rewrite <- (insert_id done i off E) at 1. apply total_insert.
Qed.

Lemma tailOff_done first d files done p i : tailInv first d files done -> streams first p = true -> names d !! p = Some i ->
  tailOff (files !! p) i (length (content d i)) = default 0%nat (done !! i).
Proof.
  intros H Hp Hi. pose proof (ti_live _ _ _ _ H p i) as Hl. unfold tailOff. destruct (files !! p) as [tf|] eqn:Ef.
  - pose proof (ti_files _ _ _ _ H p tf Ef) as Hd. case_bool_decide as E; cbn [andb].
    + subst i. rewrite Hd. cbn [default]. destruct (ti_ok _ _ _ _ H _ _ Hd) as (Hle & _). by rewrite (proj2 (Nat.ltb_ge _ _) Hle).
    + destruct (done !! i) as [off|]; [|done]. specialize (Hl off Hp Hi eq_refl). by injection Hl as ->.
  - destruct (done !! i) as [off|]; [|done]. by specialize (Hl off Hp Hi eq_refl).
Qed.

Lemma tailInv_read first d files done p i off : tailInv first d files done -> wfDir d -> streams first p = true -> names d !! p = Some i ->
  (off <= length (content d i))%nat -> cleanTail (take off (content d i)) ->
  tailInv first d (<[p := mkTail i off]> files) (<[i := off]> done).
Proof.
  intros H [Ha Hinj] Hp Hi Hoff Hc. split.
  - intros j o [[<- <-]|[_ Hj]]%lookup_insert_Some; [eauto|by apply (ti_ok _ _ _ _ H)].
  - intros q j o Hq Hn [[<- <-]|[Hne Hj]]%lookup_insert_Some.
    + rewrite (Hinj q p i Hn Hi). apply lookup_insert_eq.
    + rewrite lookup_insert_ne by (intros <-; congruence). by eapply ti_live.
  - intros q tf [[<- <-]|[Hne Hq]]%lookup_insert_Some; [apply lookup_insert_eq|]. pose proof (ti_files _ _ _ _ H q tf Hq) as Hd.
    rewrite lookup_insert_ne; [done|]. intros ->. pose proof (ti_live _ _ _ _ H p _ _ Hp Hi Hd) as Hf.
    apply Hne. by eapply (ti_inj _ _ _ _ H).
  - assert (Hkey : forall q tf, q <> p -> files !! q = Some tf -> tf_info tf <> i).
    { intros q tf Hne Hq <-. pose proof (ti_live _ _ _ _ H p _ _ Hp Hi (ti_files _ _ _ _ H q tf Hq)) as Hf.
      apply Hne. by eapply (ti_inj _ _ _ _ H). }
    intros q q' tf tf' [[<- <-]|[Hne Hq]]%lookup_insert_Some [[<- <-]|[Hne' Hq']]%lookup_insert_Some Ei; cbn [tf_info] in *.
    + done.
    + by destruct (Hkey q' tf').
    + by destruct (Hkey q tf).
    + by eapply (ti_inj _ _ _ _ H).
Qed.

(** Whole lines from a line's beginning on. *)
Lemma wholeLines_from off c : (off <= length c)%nat -> cleanTail (take off c) ->
  take off c ++ wholeLines (drop off c) = wholeLines c /\ take (off + length (wholeLines (drop off c))) c = wholeLines c.
Proof.
  intros Hoff Hc. assert (E : take off c ++ wholeLines (drop off c) = wholeLines c).
  { rewrite <- (take_drop off c) at 3. by rewrite wholeLines_max. }
  split; [done|]. destruct (wholeLines_prefix c) as [x Ex].
  assert (El : (off + length (wholeLines (drop off c)))%nat = length (wholeLines c)).
  { rewrite <- E, length_app, length_take. lia. }
  rewrite El. rewrite Ex at 2. by rewrite take_app_length.
Qed.

(** One read: the directory when the size is asked for, and when the file is opened. *)
Lemma readNew_step first d1 d2 files done p i files' evs : later first d1 d2 -> tailInv first d1 files done ->
  streams first p = true -> names d1 !! p = Some i -> names d2 !! p = Some i -> readNew (d1, d2) p files = (files', evs) ->
  exists off, tailInv first d2 files' (<[i := off]> done) /\ total d2 (<[i := off]> done) ≡ₚ total d2 done ++ evs /\
    (default 0%nat (done !! i) <= off)%nat /\ wholeLines (content d1 i) `prefix_of` take off (content d2 i) /\
    (forall q, q <> p -> files' !! q = files !! q).
Proof.
  intros Hl H Hp H1 H2 E. unfold readNew in E. cbn [fst snd] in E. rewrite H1, (tailOff_done first d1 files done p i H Hp H1) in E.
  set (off := default 0%nat (done !! i)) in *. pose proof (lt_content _ _ _ Hl i) as Hpre. pose proof (prefix_length _ _ Hpre) as Hlen.
  assert (Hoff : (off <= length (content d1 i))%nat /\ cleanTail (take off (content d2 i))).
  { subst off. destruct (done !! i) as [o|] eqn:Eo; cbn [default]; [|split; [lia|by left]].
    destruct (ti_ok _ _ _ _ H i o Eo) as (? & ? & _). split; [done|]. by rewrite (take_prefix _ _ _ Hpre). }
  destruct Hoff as [Hoff Hc]. pose proof (tailInv_later _ _ _ _ _ Hl H) as H'.
  destruct (wholeLines_from off (content d2 i)) as [Ew Et]; [lia|done|]. set (w := wholeLines (drop off (content d2 i))) in *.
  assert (Hsame : forall o q, q <> p -> <[p := mkTail i o]> files !! q = files !! q) by (intros o q Hq; by apply lookup_insert_ne).
  destruct (Nat.eqb_spec (length (content d1 i)) off) as [Esz|Esz].
  - injection E as <- <-. exists off. split_and!; [apply tailInv_read; try done; [apply Hl|lia]| |done| |by apply Hsame].
    + by rewrite app_nil_r, total_insert, (total_split d2 done i).
    + rewrite (take_prefix _ _ _ Hpre), take_ge by lia. apply wholeLines_prefix.
  - rewrite H2 in E. fold w in E. assert (E' : files' = <[p := mkTail i (off + length w)]> files /\ evs = parseRecords w).
    { destruct w as [|c w]; injection E as <- <-; [by rewrite Nat.add_0_r|by rewrite insert_insert_eq]. }
    destruct E' as [-> ->]. exists (off + length w)%nat. split_and!; [|..|lia| |by apply Hsame].
    + apply tailInv_read; try done; [apply Hl| |rewrite Et; apply wholeLines_clean].
      apply (f_equal length) in Ew. pose proof (prefix_length _ _ (wholeLines_prefix (content d2 i))). rewrite length_app, length_take in Ew. lia.
    + rewrite total_insert, (total_split d2 done i). fold off. rewrite Et, <- Ew, parseRecords_clean by done. solve_Permutation.
    + rewrite Et. by apply wholeLines_mono.
Qed.

(** ** One round *)

(** The reads of a round, one after the other. In between anything may be written and rotated, but a name does not change hands
    between asking for the size and opening. *)
Fixpoint readsOk (first : bool) (d : Dir) (obs : bytes -> Dir * Dir) (paths : list bytes) (dEnd : Dir) : Prop :=
  match paths with
  | [] => later first d dEnd
  | p :: paths =>
      later first d (fst (obs p)) /\ later first (fst (obs p)) (snd (obs p)) /\
      (forall i, names (fst (obs p)) !! p = Some i -> names (snd (obs p)) !! p = Some i) /\
      readsOk first (snd (obs p)) obs paths dEnd
  end.

Definition roundOk (first : bool) (d : Dir) (r : round) : Prop :=
  later first d (rd_scan r) /\ readsOk first (rd_scan r) (rd_obs r) (tail_scan first (rd_scan r)) (rd_end r).

(** What a round looks at: the file, and what it holds when its size is asked for. *)
Definition look (obs : bytes -> Dir * Dir) (p : bytes) : option (nat * bytes) :=
  (fun i => (i, content (fst (obs p)) i)) <$> names (fst (obs p)) !! p.

(** At least the whole lines seen are done. *)
Definition covers (d : Dir) (done : gmap nat nat) (x : nat * bytes) : Prop :=
  exists off, done !! fst x = Some off /\ wholeLines (snd x) `prefix_of` take off (content d (fst x)).

Definition grown (done done' : gmap nat nat) : Prop :=
  forall i off, done !! i = Some off -> exists off', done' !! i = Some off' /\ (off <= off')%nat.

Lemma grown_trans a b c : grown a b -> grown b c -> grown a c.
Proof. intros H1 H2 i o Hi. destruct (H1 i o Hi) as (o1 & E1 & ?), (H2 i o1 E1) as (o2 & E2 & ?). exists o2. split; [done|lia]. Qed.

Lemma covers_grown first d d' files done done' x : later first d d' -> tailInv first d files done -> grown done done' ->
  covers d done x -> covers d' done' x.
Proof.
  intros Hl H Hg (off & Ho & Hw). destruct (Hg _ _ Ho) as (off' & Ho' & Hle). exists off'. split; [done|].
  etransitivity; [exact Hw|]. apply take_take_prefix; [apply Hl|apply (ti_ok _ _ _ _ H _ _ Ho)|done].
Qed.

Lemma readsOk_later first d obs paths dEnd : readsOk first d obs paths dEnd -> later first d dEnd.
Proof.
  revert d. induction paths as [|p paths IH]; intros d; cbn [readsOk]; [done|]. intros (L1 & L2 & _ & H%IH). eauto using later_trans.
Qed.

Lemma readAll_step first obs dEnd paths : forall d files done files' out, readsOk first d obs paths dEnd ->
  tailInv first d files done -> Forall (fun p => streams first p = true) paths -> readAll obs paths files = (files', out) ->
  exists done', tailInv first dEnd files' done' /\ total dEnd done' ≡ₚ total dEnd done ++ out /\ grown done done' /\
    Forall (covers dEnd done') (omap (look obs) paths) /\
    (forall i, is_Some (done' !! i) -> is_Some (done !! i) \/ i ∈ (omap (look obs) paths).*1) /\
    (forall q, q ∉ paths -> files' !! q = files !! q).
Proof.
  induction paths as [|p paths IH]; intros d files done files' out Hr H Hs E; cbn [readAll readsOk] in *.
  - injection E as <- <-. exists done. rewrite app_nil_r. split_and!; [by eapply tailInv_later|done|by intros i o ?; exists o|constructor|auto|done].
  - destruct Hr as (L1 & L2 & Hn & Hr). apply Forall_cons_1 in Hs as [Hp Hs]. pose proof (tailInv_later _ _ _ _ _ L1 H) as H1.
    destruct (readNew (obs p) p files) as [files1 evs] eqn:E1. destruct (readAll obs paths files1) as [files2 out2] eqn:E2. injection E as <- <-.
    pose proof (readsOk_later _ _ _ _ _ Hr) as L3. cbn [omap list_omap]. assert (El : look obs p = (fun i => (i, content (fst (obs p)) i)) <$> names (fst (obs p)) !! p) by done.
    rewrite El. clear El. destruct (names (fst (obs p)) !! p) as [i|] eqn:Ei; cbn [fmap option_fmap option_map list_fmap fst].
    + rewrite (surjective_pairing (obs p)) in E1.
      destruct (readNew_step first _ _ files done p i files1 evs L2 H1 Hp Ei (Hn i eq_refl) E1) as (off & I1 & I2 & I3 & I4 & I5).
      assert (Hg : grown done (<[i := off]> done)).
      { intros j o Hj. destruct (decide (j = i)) as [->|]; [rewrite lookup_insert_eq; rewrite Hj in I3; by eexists|].
        rewrite lookup_insert_ne by done. by exists o. }
      destruct (IH _ _ _ _ _ Hr I1 Hs E2) as (done' & J1 & J2 & J3 & J4 & J5 & J6). exists done'. split_and!; [done| | | | |].
      * rewrite J2, (total_later _ _ _ _ _ L3 I1), I2. rewrite (total_later first (snd (obs p)) dEnd files done L3) by (by eapply tailInv_later).
        by rewrite app_assoc.
      * by eapply grown_trans.
      * constructor; [|done]. eapply covers_grown; [exact L3|exact I1|done|]. exists off. cbn [fst snd]. by rewrite lookup_insert_eq.
      * intros j [Hj|Hj]%J5; [|right; by right]. destruct (decide (j = i)) as [->|]; [right; left|]. rewrite lookup_insert_ne in Hj by done. by left.
      * intros q [Hq1 Hq2]%not_elem_of_cons. by rewrite J6, I5.
    + unfold readNew in E1. rewrite Ei in E1. injection E1 as <- <-.
      destruct (IH (snd (obs p)) files done files2 out2 Hr) as (done' & J1 & J2 & J3 & J4 & J5 & J6); [by eapply tailInv_later|done..|].
      exists done'. split_and!; try done. intros q [Hq1 Hq2]%not_elem_of_cons. by apply J6.
Qed.

(** ** Many rounds *)

Lemma elem_of_scan first d p : p ∈ tail_scan first d <-> is_Some (names d !! p) /\ streams first p = true.
Proof. unfold tail_scan, streams. rewrite elem_of_sortStrings, list_elem_of_filter, elem_of_elements, elem_of_dom. tauto. Qed.

(** Forgetting the files the listing does not have. *)
Lemma tailInv_forget first scan d files files' done0 done : tailInv first scan files done0 -> tailInv first d files' done -> later first scan d ->
  (forall q, q ∉ tail_scan first scan -> files' !! q = files !! q) ->
  tailInv first d (filter (fun kv => fst kv ∈ tail_scan first scan) files') done.
Proof.
  intros H0 H Hl Hq. split; [apply H| | |].
  - intros p i off Hp Hi Hd. pose proof (ti_live _ _ _ _ H p i off Hp Hi Hd) as Hf. apply map_lookup_filter_Some. split; [done|]. cbn [fst].
    destruct (decide (p ∈ tail_scan first scan)) as [|Hnot]; [done|]. rewrite Hq in Hf by done. pose proof (ti_files _ _ _ _ H0 _ _ Hf) as Hd0.
    destruct (ti_ok _ _ _ _ H0 _ _ Hd0) as (_ & _ & Hlt). cbn [tf_info] in Hlt.
    destruct (lt_names _ _ _ Hl p i Hp Hi) as [Hs|?]; [|lia]. apply elem_of_scan. by rewrite Hs.
  - intros p tf [Hf _]%map_lookup_filter_Some. by apply (ti_files _ _ _ _ H p).
  - intros p q tf tf' [Hf _]%map_lookup_filter_Some [Hf' _]%map_lookup_filter_Some. by apply (ti_inj _ _ _ _ H).
Qed.

Definition looks (first : bool) (r : round) : list (nat * bytes) := omap (look (rd_obs r)) (tail_scan first (rd_scan r)).

Lemma Next_step d r t done t' out : let first := negb (t_started t) in roundOk first d r -> tailInv first d (t_files t) done ->
  tail_Next (rd_scan r) (rd_obs r) t = (t', out) ->
  later first d (rd_end r) /\ t_started t' = true /\
  exists done', tailInv false (rd_end r) (t_files t') done' /\ total (rd_end r) done' ≡ₚ total d done ++ out /\ grown done done' /\
    Forall (covers (rd_end r) done') (looks first r) /\ forall i, is_Some (done' !! i) -> is_Some (done !! i) \/ i ∈ (looks first r).*1.
Proof.
  intros first [L1 Hr] H E. unfold tail_Next in E. fold first in E. destruct (readAll _ _ (t_files t)) as [files' o] eqn:Ea. injection E as <- <-.
  pose proof (tailInv_later _ _ _ _ _ L1 H) as H1. pose proof (readsOk_later _ _ _ _ _ Hr) as L2. split_and!; [by eapply later_trans|done|].
  assert (Hs : Forall (fun p => streams first p = true) (tail_scan first (rd_scan r))).
  { apply Forall_forall. by intros p [_ Hp]%elem_of_scan. }
  destruct (readAll_step _ _ _ _ _ _ _ _ _ Hr H1 Hs Ea) as (done' & J1 & J2 & J3 & J4 & J5 & J6).
  exists done'. cbn [t_files]. split_and!; [|..|done|done|done].
  - eapply tailInv_live, tailInv_forget; [exact H1|done..].
  - rewrite sortTS_perm, J2. rewrite (total_later first d (rd_end r) (t_files t) done) by (done || by eapply later_trans). done.
Qed.

Fixpoint roundsOk (first : bool) (d : Dir) (rounds : list round) : Prop :=
  match rounds with
  | [] => True
  | r :: rounds => roundOk first d r /\ roundsOk false (rd_end r) rounds
  end.

Fixpoint allLooks (first : bool) (rounds : list round) : list (nat * bytes) :=
  match rounds with
  | [] => []
  | r :: rounds => looks first r ++ allLooks false rounds
  end.

Fixpoint endOf (d : Dir) (rounds : list round) : Dir := match rounds with [] => d | r :: rounds => endOf (rd_end r) rounds end.

Lemma endOf_later d rounds : wfDir d -> roundsOk false d rounds -> later false d (endOf d rounds).
Proof.
  revert d. induction rounds as [|r rounds IH]; intros d Hw; [intros _; by apply later_refl|]. cbn [roundsOk endOf]. intros [[L1 Hr] H].
  pose proof (readsOk_later _ _ _ _ _ Hr) as L2. eapply later_trans; [by eapply later_trans|]. apply IH; [apply L2|done].
Qed.

Lemma tailRun_step rounds : forall d t done t' out, roundsOk (negb (t_started t)) d rounds -> wfDir d ->
  tailInv (negb (t_started t)) d (t_files t) done -> tailRun rounds t = (t', out) ->
  exists done', tailInv false (endOf d rounds) (t_files t') done' /\ total (endOf d rounds) done' ≡ₚ total d done ++ out /\
    grown done done' /\ Forall (covers (endOf d rounds) done') (allLooks (negb (t_started t)) rounds) /\
    forall i, is_Some (done' !! i) -> is_Some (done !! i) \/ i ∈ (allLooks (negb (t_started t)) rounds).*1.
Proof.
  induction rounds as [|r rounds IH]; intros d t done t' out Hr Hw H E; cbn [tailRun roundsOk endOf allLooks] in *.
  - injection E as <- <-. exists done. rewrite app_nil_r. split_and!; [by eapply tailInv_live|done|by intros i o ?; exists o|constructor|auto].
  - destruct (tail_Next _ _ t) as [t1 o1] eqn:E1. destruct (tailRun rounds t1) as [t2 o2] eqn:E2. injection E as <- <-. destruct Hr as [Hr Hrs].
    destruct (Next_step d r t done t1 o1 Hr H E1) as (L1 & S1 & done1 & J1 & J2 & J3 & J4 & J5).
    destruct (IH (rd_end r) t1 done1 t2 o2) as (done2 & K1 & K2 & K3 & K4 & K5); [by rewrite S1|apply L1|by rewrite S1|done|].
    rewrite S1 in K4, K5. cbn [negb] in K4, K5. exists done2. split_and!; [done|by rewrite K2, J2, app_assoc|by eapply grown_trans| |].
    + apply Forall_app. split; [|done]. eapply Forall_impl; [exact J4|]. intros x. eapply covers_grown; [|exact J1|done].
      apply endOf_later; [apply L1|done].
    + intros i [[Hi|Hi]%J5|Hi]%K5; [by left|right..]; rewrite fmap_app, elem_of_app; auto.
Qed.

(** C22. The rounds of a follower, with other processes' writes and rotations among them, deliver of each file they find, by its identity
    and not its name, a beginning in whole lines, each record of it once, and nothing else; the beginning has every line that was
    whole when a round last found the file under its live name (in the first round, its live or retained name).
    So what a rotation can cost is what was written after the last round before it. A name changes hands
    neither between asking for a file's size and opening it, nor within the first round: [stat_race_replays] and [first_round_doubles]
    show what happens then. *)
Theorem tail_exactly_once rounds t out : roundsOk true emptyDir rounds -> tailRun rounds NewTailer = (t, out) ->
  exists done : gmap nat nat,
    out ≡ₚ concat (map (fun io : nat * nat => parseRecords (take (snd io) (content (endOf emptyDir rounds) (fst io)))) (map_to_list done)) /\
    (forall i, is_Some (done !! i) <-> i ∈ (allLooks true rounds).*1) /\
    (forall i off, done !! i = Some off -> (off <= length (content (endOf emptyDir rounds) i))%nat /\
      cleanTail (take off (content (endOf emptyDir rounds) i)) /\
      forall c, (i, c) ∈ allLooks true rounds -> wholeLines c `prefix_of` take off (content (endOf emptyDir rounds) i)).
Proof.
  intros Hr E. destruct (tailRun_step rounds emptyDir NewTailer ∅ t out Hr) as (upto & J1 & J2 & J3 & J4 & J5); [by split|by split|done|].
  cbn [NewTailer t_started negb] in *. exists upto. rewrite Forall_forall in J4. split_and!; [by rewrite <- J2| |].
  - intros i. split; [intros [[o ?]|?]%J5; done|]. intros ([j c] & -> & Hx)%list_elem_of_fmap. destruct (J4 _ Hx) as (o & Ho & _). by exists o.
  - intros i off Hi. destruct (ti_ok _ _ _ _ J1 i off Hi) as (A1 & A2 & _). split_and!; [done..|]. intros c Hc.
    destruct (J4 _ Hc) as (o & Ho & Hw). cbn [fst snd] in *. by simplify_eq.
Qed.

(** A retained file, a live one; a record that is half written when the second round asks for the size; then the server starts again,
    and the live file is moved aside. *)
Definition exLine (t : bytes) : bytes := lineOf (stamp 0 exRec (exBegin KindBuild t (go "a1b2c3-1"))).
Definition exNames : Dir := mkDir {[ FileName (go "server") := 0%nat; rotatedPath (FileName (go "server")) := 1%nat ]} ∅ ∅ 2.
Definition exTail0 : Dir := appendFile 1 (exLine (go "old")) exNames.
Definition exTail1 : Dir := appendFile 0 (exLine (go "one") ++ take 10 (exLine (go "two"))) exTail0.
Definition exTail2 : Dir := appendFile 0 (drop 10 (exLine (go "two")) ++ take 3 (exLine (go "three"))) exTail1.
Definition exRestart (d : Dir) : Dir := default d (snd <$> act_Open true 10 (go "b2") 8 (go "dir") (go "server") d).
Definition exTail3 : Dir := exRestart exTail2.
Definition exTail4 : Dir := appendFile 2 (exLine (go "four")) exTail3.
Definition exRound1 : round := mkRound exTail0 (fun _ => (exTail1, exTail1)) exTail1.
Definition exRound2 : round := mkRound exTail1 (fun _ => (exTail1, exTail2)) exTail2.
Definition exRound3 : round := mkRound exTail3 (fun _ => (exTail4, exTail4)) exTail4.
Definition exRounds : list round := [exRound1; exRound2; exRound3].

Lemma exNames_wf : wfDir exNames.
Proof.
  split; cbn [exNames names nextFile].
  - intros p i [[_ <-]|[_ [_ <-]%lookup_singleton_Some]]%lookup_insert_Some; lia.
  - intros p q i [[<- <-]|[_ [<- <-]%lookup_singleton_Some]]%lookup_insert_Some [[<- E]|[_ [<- E]%lookup_singleton_Some]]%lookup_insert_Some; done.
Qed.

Lemma tail_exactly_once_witness :
  map ev_Target (snd (tailRun exRounds NewTailer)) = [go "one"; go "old"; go "two"; go "four"] /\
  exists done : gmap nat nat,
    snd (tailRun exRounds NewTailer) ≡ₚ
      concat (map (fun io : nat * nat => parseRecords (take (snd io) (content exTail4 (fst io)))) (map_to_list done)) /\
    (forall i, is_Some (done !! i) <-> i ∈ (allLooks true exRounds).*1) /\
    (forall i off, done !! i = Some off -> (off <= length (content exTail4 i))%nat /\ cleanTail (take off (content exTail4 i)) /\
      forall c, (i, c) ∈ allLooks true exRounds -> wholeLines c `prefix_of` take off (content exTail4 i)).
Proof.
  split; [vm_compute; reflexivity|].
  apply (tail_exactly_once exRounds (fst (tailRun exRounds NewTailer))); [|apply surjective_pairing].
  assert (L0 : forall b, later b exNames exTail0) by (intros b; apply later_append, exNames_wf).
  assert (L1 : forall b, later b exTail0 exTail1) by (intros b; apply later_append, (L0 b)).
  assert (L2 : forall b, later b exTail1 exTail2) by (intros b; apply later_append, (L1 b)).
  assert (L3 : later false exTail2 exTail3).
  { destruct (act_Open true 10 (go "b2") 8 (go "dir") (go "server") exTail2) as [[rc d]|] eqn:E; [|vm_compute in E; discriminate E].
    assert (Ed : exTail3 = d) by (unfold exTail3, exRestart; by rewrite E). rewrite Ed.
    eapply later_Open; [apply (L2 false)| |exact E]. vm_compute. reflexivity. }
  assert (L4 : later false exTail3 exTail4) by (apply later_append, L3).
  assert (R : forall b d, wfDir d -> later b d d) by (intros b d; apply later_refl).
  assert (W1 : wfDir exTail1) by apply (L1 false). assert (W2 : wfDir exTail2) by apply (L2 false). assert (W4 : wfDir exTail4) by apply L4.
  assert (S1 : tail_scan true exTail0 = [FileName (go "server"); rotatedPath (FileName (go "server"))]) by (vm_compute; reflexivity).
  assert (S2 : tail_scan false exTail1 = [FileName (go "server")]) by (vm_compute; reflexivity).
  assert (S3 : tail_scan false exTail3 = [FileName (go "server")]) by (vm_compute; reflexivity).
  unfold exRounds. cbn [roundsOk]. unfold roundOk, exRound1, exRound2, exRound3. cbn [rd_scan rd_obs rd_end]. rewrite S1, S2, S3.
  cbn [readsOk fst snd]. split_and!; auto.
  - apply later_empty, (L0 true).
Defined.

(** A record written after the last round before a restart rotates the file is in
    the log and is never delivered. *)
Lemma tail_rotation_loses :
  let say d t := appendFile 0 (exLine t) d in
  let d1 := say exDir (go "one") in
  let d2 := say d1 (go "two") in
  match act_Open true 10 (go "b2") 8 (go "dir") (go "server") d2 with
  | Some (_, d3) =>
      let rounds := map (fun d => mkRound d (fun _ => (d, d)) d) [d1; d3; d3] in
      map ev_Target (snd (tailRun rounds NewTailer)) = [go "one"] /\ map ev_Target (act_Read d3) = [go "one"; go "two"]
  | None => False
  end.
Proof. vm_compute. split; reflexivity. Qed.

(** The live file is moved aside after its size was asked for and before it is opened: the new file is read from the old one's offset,
    and again from its beginning in the next round. *)
Lemma stat_race_replays :
  let d1 := appendFile 0 (exLine (go "one")) exDir in
  let d2 := appendFile 0 (exLine (go "two")) d1 in
  let d3 := appendFile 1 (exLine (go "new") ++ exLine (go "end")) (exRestart d2) in
  let rounds := [mkRound d1 (fun _ => (d1, d1)) d1; mkRound d2 (fun _ => (d2, d3)) d3; mkRound d3 (fun _ => (d3, d3)) d3] in
  map ev_Target (snd (tailRun rounds NewTailer)) = [go "one"; go "end"; go "new"; go "end"].
Proof. vm_compute. reflexivity. Qed.

(** The live file is moved aside in the first round, after it was read and before the retained one is: it is read twice. *)
Lemma first_round_doubles :
  let d1 := appendFile 0 (exLine (go "one")) (mkDir (names exNames) ∅ ∅ 2) in
  let d2 := exRestart d1 in
  let obs p := if bytes_eqb p (FileName (go "server")) then (d1, d1) else (d2, d2) in
  map ev_Target (snd (tailRun [mkRound d1 obs d2] NewTailer)) = [go "one"; go "one"].
Proof. vm_compute. reflexivity. Qed.
