(* ===== verification/Socks5.v ===== *)
(** * The client's SOCKS5 proxy

    [pkg/socks5]: a proxy on the user's machine that sends each connection to a workload, to a
    listener published in the process, or out directly. The state is the [Router]: resolution rules,
    aliases of services with their claims, published names, the recovery window and those
    who wait for a claim.

    A rule's pattern is the function it denotes, from the target to its submatches; the
    pattern of the everyday router is written out ([suffixMatch]). Dialers are known by a
    number. The clock is an argument. The mutex makes each operation one step.

    - claims: [Claim], [UnregisterAlias], [RegisterLocal], [UnregisterLocal], [SetRecoveryUntil],
      [AwaitClaim].
    - routing: [route_Resolve], [translateReplace], [splitServicePort].
    - the wire: [serveHandshake], [readConnect], [handle]. *)
From stdpp Require Import base list gmap strings numbers sorting.
From Stdlib Require Import ZArith Lia.
From Stdlib.Strings Require Import Byte.
From S2P Require Import Prelude GoStd GoNet GoJson.
Open Scope Z_scope.

Definition w64 (v : Z) : Z := v mod 2 ^ 64.

(** [sort.Search]: the least index in range where [f] holds, by bisection. *)
Fixpoint searchF (fuel : nat) (f : nat -> bool) (i j : nat) : nat :=
  match fuel with
  | O => i
  | S fuel =>
      if (i <? j)%nat then
        let h := Nat.div2 (i + j) in
        if negb (f h) then searchF fuel f (S h) j else searchF fuel f i h
      else i
  end.
Definition sortSearch (n : nat) (f : nat -> bool) : nat := searchF n f 0 n.

(** ** Rules *)

(** A pattern: what it matches and the submatches, by number, and the names of the groups. *)
Record regex := mkRegex { re_match : bytes -> option (list (option bytes)); re_names : list bytes }.

(** [Pattern] is [None] when its text does not compile. *)
Record RouteRule := mkRule { Pattern : option regex; Replace : bytes }.

Record compiledRule := mkCompiled { cr_re : regex; cr_repl : bytes }.

Fixpoint translateReplace (s : bytes) : bytes :=
  match s with
  | [] => []
  | c :: s' =>
      if bool_decide (c = Byte.x24) then go "$$" ++ translateReplace s'
      else if bool_decide (c = Byte.x5c) then
        match s' with
        | n :: s'' => (if isDigit n then go "${" ++ [n] ++ go "}" else [n]) ++ translateReplace s''
        | [] => [c]
        end
      else c :: translateReplace s'
  end.

(** *** [Regexp.Expand] *)

(** A letter, a digit or an underscore. Letters outside ASCII are not modelled as such. *)
Definition isWordByte (c : byte) : bool :=
  let v := Z_of_byte c in
  isDigit c || ((65 <=? v) && (v <=? 90)) || ((97 <=? v) && (v <=? 122)) || (v =? 95).

Fixpoint spanWord (s : bytes) : bytes * bytes :=
  match s with
  | c :: s' => if isWordByte c then let '(w, r) := spanWord s' in (c :: w, r) else ([], s)
  | [] => ([], [])
  end.

(** The number a name is, if it is one: decimal, without leading zeros, not too large. *)
Fixpoint groupNumF (name : bytes) (num : Z) : Z :=
  match name with
  | [] => num
  | c :: name => if negb (isDigit c) || (100000000 <=? num) then -1 else groupNumF name (num * 10 + (Z_of_byte c - 48))
  end.
Definition groupNum (name : bytes) : Z :=
  match name with
  | Byte.x30 :: _ :: _ => -1
  | _ => groupNumF name 0
  end.

(** What follows a dollar sign: a name, in braces or not, and the rest. *)
Definition extract (s : bytes) : option (bytes * bytes) :=
  match s with
  | Byte.x7b :: s' =>
      let '(name, rest) := spanWord s' in
      match name, rest with
      | _ :: _, Byte.x7d :: rest => Some (name, rest)
      | _, _ => None
      end
  | _ => let '(name, rest) := spanWord s in match name with [] => None | _ => Some (name, rest) end
  end.

Definition groupText (re : regex) (m : list (option bytes)) (name : bytes) : bytes :=
  let num := groupNum name in
  if 0 <=? num then default [] (default None (m !! Z.to_nat num))
  else default [] (default None (List.find (fun x => match x with Some _ => true | None => false end)
         (map snd (filter (fun nx => fst nx = name) (zip (re_names re) m))))).

Fixpoint expandTemplF (fuel : nat) (re : regex) (m : list (option bytes)) (t : bytes) : bytes :=
  match fuel with
  | O => []
  | S fuel =>
      match t with
      | [] => []
      | Byte.x24 :: Byte.x24 :: t => Byte.x24 :: expandTemplF fuel re m t
      | Byte.x24 :: t =>
          match extract t with
          | None => Byte.x24 :: expandTemplF fuel re m t
          | Some (name, rest) => groupText re m name ++ expandTemplF fuel re m rest
          end
      | c :: t => c :: expandTemplF fuel re m t
      end
  end.
Definition Expand (re : regex) (m : list (option bytes)) (t : bytes) : bytes := expandTemplF (S (length t)) re m t.

(** *** The everyday rule *)

(** Split at the last colon. *)
Fixpoint lastColon (s : bytes) : option (bytes * bytes) :=
  match s with
  | [] => None
  | c :: s' =>
      match lastColon s' with
      | Some (a, b) => Some (c :: a, b)
      | None => if bool_decide (c = Byte.x3a) then Some ([], s') else None
      end
  end.

(** A name, the suffix, a colon and digits, from beginning to end: the colon is the last
    one, and the name has no newline. *)
Definition suffixMatch (suffix subject : bytes) : option (list (option bytes)) :=
  match lastColon subject with
  | Some (host, digits) =>
      if negb (bytes_eqb digits []) && forallb isDigit digits && hasSuffix host suffix &&
         negb (containsByte Byte.x0a (trimSuffix host suffix))
      then Some [Some subject; Some (trimSuffix host suffix); Some digits] else None
  | None => None
  end.

Definition DefaultSuffix : bytes := go ".cornus.internal".

(** ** The router *)

Record aliasClaim := mkAlias { deployment : bytes; ac_n : Z; ac_seq : Z; ac_dialer : option nat }.
Record localClaim := mkLocal { lc_d : nat; lc_seq : Z; lc_id : Z }.

#[export] Instance aliasClaim_eq_dec : EqDecision aliasClaim.
Proof. solve_decision. Defined.
#[export] Instance localClaim_eq_dec : EqDecision localClaim.
Proof. solve_decision. Defined.

Record Router := mkRouter {
  rules : list compiledRule;
  aliases : gmap bytes (list aliasClaim);
  seqNext : Z;
  locals : gmap bytes (list localClaim);
  localIDNext : Z;
  recoverUntil : option Z;
  claimWaiters : gmap bytes (list nat);
  bareServiceNames : bool;
}.

Record AliasReg := mkReg { reg_Seq : Z; Winner : bytes; reg_Changed : bool }.
Record LocalHandle := mkHandle { h_subject : bytes; h_id : Z }.
Record LocalReg := mkLocalReg { Handle : LocalHandle; lr_Seq : Z; Serving : bool; lr_Changed : bool }.

Definition zeroReg : AliasReg := mkReg 0 [] false.
Definition zeroHandle : LocalHandle := mkHandle [] 0.
Definition zeroLocalReg : LocalReg := mkLocalReg zeroHandle 0 false false.

Definition Valid (h : LocalHandle) : bool := negb (bytes_eqb (h_subject h) []) && negb (h_id h =? 0).

Fixpoint compileRules (rs : list RouteRule) : option (list compiledRule) :=
  match rs with
  | [] => Some []
  | r :: rs => re ← Pattern r; l ← compileRules rs; Some (mkCompiled re (translateReplace (Replace r)) :: l)
  end.

Definition NewRouter (rs : list RouteRule) : option Router :=
  l ← compileRules rs; Some (mkRouter l ∅ 0 ∅ 0 None ∅ true).

(** A suffix that is not UTF-8 is no pattern. *)
Definition NewSuffixRouter (suffix : bytes) : option Router :=
  let suffix := match suffix with [] => DefaultSuffix | _ => suffix end in
  NewRouter [mkRule (if utf8Valid suffix then Some (mkRegex (suffixMatch suffix) [[]; []; []]) else None) (go "\1:\2")].

Definition setAliases (r : Router) (m : gmap bytes (list aliasClaim)) : Router :=
  mkRouter (rules r) m (seqNext r) (locals r) (localIDNext r) (recoverUntil r) (claimWaiters r) (bareServiceNames r).
Definition setSeqNext (r : Router) (s : Z) : Router :=
  mkRouter (rules r) (aliases r) s (locals r) (localIDNext r) (recoverUntil r) (claimWaiters r) (bareServiceNames r).
Definition setLocals (r : Router) (m : gmap bytes (list localClaim)) : Router :=
  mkRouter (rules r) (aliases r) (seqNext r) m (localIDNext r) (recoverUntil r) (claimWaiters r) (bareServiceNames r).
Definition setLocalID (r : Router) (n : Z) : Router :=
  mkRouter (rules r) (aliases r) (seqNext r) (locals r) n (recoverUntil r) (claimWaiters r) (bareServiceNames r).
Definition setWaiters (r : Router) (m : gmap bytes (list nat)) : Router :=
  mkRouter (rules r) (aliases r) (seqNext r) (locals r) (localIDNext r) (recoverUntil r) m (bareServiceNames r).
Definition setRecover (r : Router) (t : option Z) : Router :=
  mkRouter (rules r) (aliases r) (seqNext r) (locals r) (localIDNext r) t (claimWaiters r) (bareServiceNames r).

Definition SetBareServiceNames (enabled : bool) (r : Router) : Router :=
  mkRouter (rules r) (aliases r) (seqNext r) (locals r) (localIDNext r) (recoverUntil r) (claimWaiters r) enabled.

(** *** Claims on a label *)

Definition claimsOf (label : bytes) (r : Router) : list aliasClaim := default [] (aliases r !! label).

Definition winnerLocked (label : bytes) (r : Router) : bytes :=
  match last (claimsOf label r) with Some c => deployment c | None => [] end.

Definition lookupAliasClaim (label : bytes) (r : Router) : bytes * option nat :=
  match last (claimsOf label r) with Some c => (deployment c, ac_dialer c) | None => ([], None) end.

Record AliasSpec := mkSpec { Label : bytes; Deployment : bytes; sp_Seq : Z; sp_Dialer : option nat }.

(** The claim of a deployment, if it has one. *)
Fixpoint claimIndex (dep : bytes) (l : list aliasClaim) : option nat :=
  match l with
  | [] => None
  | c :: l => if bytes_eqb (deployment c) dep then Some 0%nat else S <$> claimIndex dep l
  end.

Definition insertAt {A} (i : nat) (x : A) (l : list A) : list A := take i l ++ x :: drop i l.
Definition removeAt {A} (i : nat) (l : list A) : list A := take i l ++ drop (S i) l.

(** A label without claims is no key of the map. *)
Definition putClaims (label : bytes) (l : list aliasClaim) (r : Router) : Router :=
  setAliases r (match l with [] => delete label (aliases r) | _ => <[label := l]> (aliases r) end).

(** Those who waited for the label are the second result. *)
Definition wakeClaimWaitersLocked (label : bytes) (r : Router) : Router * list nat :=
  match default [] (claimWaiters r !! label) with
  | [] => (r, [])
  | chans => (setWaiters r (delete label (claimWaiters r)), chans)
  end.

Definition claimLocked (spec : AliasSpec) (r : Router) : AliasReg * Router * list nat :=
  let before := winnerLocked (Label spec) r in
  let claims := claimsOf (Label spec) r in
  match claimIndex (Deployment spec) claims with
  | Some i =>
      match claims !! i with
      | Some c =>
          let c' := mkAlias (deployment c) (ac_n c + 1) (ac_seq c) (match sp_Dialer spec with Some d => Some d | None => ac_dialer c end) in
          (mkReg (ac_seq c) before false, putClaims (Label spec) (<[i := c']> claims) r, [])
      | None => (zeroReg, r, [])
      end
  | None =>
      let i := sortSearch (length claims) (fun i => match claims !! i with Some c => sp_Seq spec <? ac_seq c | None => false end) in
      let r := putClaims (Label spec) (insertAt i (mkAlias (Deployment spec) 1 (sp_Seq spec) (sp_Dialer spec)) claims) r in
      let '(r, woken) := wakeClaimWaitersLocked (Label spec) r in
      let after := winnerLocked (Label spec) r in
      (mkReg (sp_Seq spec) after (negb (bytes_eqb after before)), r, woken)
  end.

Definition Claim (spec : AliasSpec) (r : Router) : AliasReg * Router * list nat :=
  if bytes_eqb (Label spec) [] || bytes_eqb (Deployment spec) [] then (zeroReg, r, [])
  else if negb (sp_Seq spec =? 0) then
    claimLocked spec (if seqNext r <=? sp_Seq spec then setSeqNext r (w64 (sp_Seq spec + 1)) else r)
  else
    let s := if seqNext r =? 0 then 1 else seqNext r in
    claimLocked (mkSpec (Label spec) (Deployment spec) s (sp_Dialer spec)) (setSeqNext r (w64 (s + 1))).

Definition RegisterAlias (label dep : bytes) (r : Router) : AliasReg * Router * list nat := Claim (mkSpec label dep 0 None) r.

Definition UnregisterAlias (label dep : bytes) (r : Router) : AliasReg * Router :=
  if bytes_eqb label [] || bytes_eqb dep [] then (zeroReg, r)
  else
    let before := winnerLocked label r in
    let claims := claimsOf label r in
    match claimIndex dep claims with
    | None => (mkReg 0 before false, r)
    | Some i =>
        match claims !! i with
        | None => (zeroReg, r)
        | Some c =>
            if 1 <? ac_n c then
              (mkReg (ac_seq c) before false,
               putClaims label (<[i := mkAlias (deployment c) (ac_n c - 1) (ac_seq c) (ac_dialer c)]> claims) r)
            else
              let r := putClaims label (removeAt i claims) r in
              let after := winnerLocked label r in
              (mkReg (ac_seq c) after (negb (bytes_eqb after before)), r)
        end
    end.

Definition ClearAliases (r : Router) : Router := setAliases r ∅.

(** *** Published names *)

Definition localSubject (host : bytes) (port : Z) : bytes := host ++ go ":" ++ formatInt port.

Definition localsOf (subject : bytes) (r : Router) : list localClaim := default [] (locals r !! subject).

Definition servingLocalLocked (subject : bytes) (r : Router) : Z :=
  match last (localsOf subject r) with Some c => lc_id c | None => 0 end.

Definition publishLocked (host : bytes) (port : Z) (d : nat) (seq : Z) (r : Router) : LocalReg * Router :=
  let subject := localSubject host port in
  let before := servingLocalLocked subject r in
  let id := w64 (localIDNext r + 1) in
  let claims := localsOf subject r in
  let i := sortSearch (length claims) (fun i => match claims !! i with Some c => seq <? lc_seq c | None => false end) in
  let r := setLocals (setLocalID r id) (<[subject := insertAt i (mkLocal d seq id) claims]> (locals r)) in
  let after := servingLocalLocked subject r in
  (mkLocalReg (mkHandle subject id) seq (after =? id) (negb (after =? before)), r).

Definition badLocal (host : bytes) (port : Z) (d : option nat) : bool :=
  bytes_eqb host [] || (port <? 1) || (65535 <? port) || match d with None => true | Some _ => false end.

Definition RegisterLocal (host : bytes) (port : Z) (d : option nat) (r : Router) : LocalReg * Router :=
  match d with
  | Some dl =>
      if badLocal host port d then (zeroLocalReg, r)
      else
        let seq := if seqNext r =? 0 then 1 else seqNext r in
        publishLocked host port dl seq (setSeqNext r (w64 (seq + 1)))
  | None => (zeroLocalReg, r)
  end.

Definition RegisterLocalSeq (host : bytes) (port : Z) (d : option nat) (seq : Z) (r : Router) : LocalReg * Router :=
  match d with
  | Some dl =>
      if badLocal host port d || (seq =? 0) then (zeroLocalReg, r)
      else publishLocked host port dl seq (if seqNext r <=? seq then setSeqNext r (w64 (seq + 1)) else r)
  | None => (zeroLocalReg, r)
  end.

Fixpoint localIndex (id : Z) (l : list localClaim) : option nat :=
  match l with
  | [] => None
  | c :: l => if lc_id c =? id then Some 0%nat else S <$> localIndex id l
  end.

Definition UnregisterLocal (h : LocalHandle) (r : Router) : LocalReg * Router :=
  if negb (Valid h) then (zeroLocalReg, r)
  else
    let before := servingLocalLocked (h_subject h) r in
    let claims := localsOf (h_subject h) r in
    match localIndex (h_id h) claims with
    | None => (zeroLocalReg, r)
    | Some i =>
        let seq := match claims !! i with Some c => lc_seq c | None => 0 end in
        let r := setLocals r (match removeAt i claims with
                              | [] => delete (h_subject h) (locals r)
                              | l => <[h_subject h := l]> (locals r)
                              end) in
        let after := servingLocalLocked (h_subject h) r in
        (mkLocalReg zeroHandle seq false (negb (after =? before)), r)
    end.

Definition ClearLocals (r : Router) : Router := setLocals r ∅.

Definition lookupLocal (host : bytes) (port : Z) (r : Router) : option nat :=
  match last (localsOf (localSubject host port) r) with Some c => Some (lc_d c) | None => None end.

(** *** Recovery *)

(** The time is in nanoseconds; [None] is the zero time. *)
Definition recoveringLocked (now : Z) (r : Router) : bool :=
  match recoverUntil r with Some t => now <? t | None => false end.

Definition closedWindow (now : Z) (t : option Z) : bool := match t with None => true | Some t => t <=? now end.

(** Closing the window releases all who wait. *)
Definition SetRecoveryUntil (now : Z) (t : option Z) (r : Router) : Router * list nat :=
  let r' := setRecover r t in
  if closedWindow now t then (setWaiters r' ∅, concat (map snd (map_to_list (claimWaiters r)))) else (r', []).

(** The beginning of [AwaitClaim]: an answer, or a wait on the channel [ch] until the end of the window. *)
Inductive awaiting : Type := Answer (claimed : bool) | Parked (deadline : Z).

Definition AwaitClaim (now : Z) (ch : nat) (label : bytes) (r : Router) : awaiting * Router :=
  match recoverUntil r with
  | Some t =>
      if negb (now <? t) then (Answer false, r)
      else match claimsOf label r with
           | _ :: _ => (Answer true, r)
           | [] => (Parked t, setWaiters r (<[label := default [] (claimWaiters r !! label) ++ [ch]]> (claimWaiters r)))
           end
  | None => (Answer false, r)
  end.

Fixpoint chanIndex (ch : nat) (l : list nat) : option nat :=
  match l with
  | [] => None
  | c :: l => if (c =? ch)%nat then Some 0%nat else S <$> chanIndex ch l
  end.

Definition dropWaiter (label : bytes) (ch : nat) (r : Router) : Router :=
  let chans := default [] (claimWaiters r !! label) in
  let chans := match chanIndex ch chans with Some i => removeAt i chans | None => chans end in
  setWaiters r (match chans with [] => delete label (claimWaiters r) | l => <[label := l]> (claimWaiters r) end).

(** ** Routing *)

Inductive Result : Type :=
| KindDirect
| KindService (service : bytes) (port : Z) (dialer : option nat)
| KindLocal (local : nat)
| KindPending (label : bytes) (port : Z).

Inductive routeErr : Type := ENoPort | EEmptyService | EPortNotNumber (s : bytes) | EPortRange (p : Z).

Definition splitServicePort (s : bytes) : res routeErr (bytes * Z) :=
  match lastColon s with
  | None => Err ENoPort
  | Some (svc, portStr) =>
      if bytes_eqb svc [] then Err EEmptyService
      else match parseInt portStr with
           | None => Err (EPortNotNumber portStr)
           | Some p => if (p <? 1) || (65535 <? p) then Err (EPortRange p) else Ok (svc, p)
           end
  end.

(** The claim's deployment and dialer, or whether to wait for one. *)
Definition claimOrRecovering (now : Z) (label : bytes) (r : Router) : bytes * option nat * bool :=
  match last (claimsOf label r) with
  | Some c => (deployment c, ac_dialer c, false)
  | None => ([], None, recoveringLocked now r)
  end.

Definition isBareLabel (host : bytes) : bool := negb (containsByte Byte.x2e host).

Fixpoint firstMatch (rs : list compiledRule) (subject : bytes) : option bytes :=
  match rs with
  | [] => None
  | rl :: rs =>
      match re_match (cr_re rl) subject with
      | Some m => Some (Expand (cr_re rl) m (cr_repl rl))
      | None => firstMatch rs subject
      end
  end.

Definition route_Resolve (now : Z) (host : bytes) (port : Z) (r : Router) : res routeErr Result :=
  match lookupLocal host port r with
  | Some d => Ok (KindLocal d)
  | None =>
      match firstMatch (rules r) (localSubject host port) with
      | Some out =>
          match splitServicePort out with
          | Err e => Err e
          | Ok (svc, p) =>
              let '(dep, d, recovering) := claimOrRecovering now svc r in
              if bytes_eqb dep [] && recovering then Ok (KindPending svc p)
              else Ok (KindService (if bytes_eqb dep [] then svc else dep) p d)
          end
      | None =>
          if bareServiceNames r then
            let '(dep, d, recovering) := claimOrRecovering now host r in
            if negb (bytes_eqb dep []) then Ok (KindService dep port d)
            else if recovering && isBareLabel host then Ok (KindPending host port)
            else Ok KindDirect
          else Ok KindDirect
      end
  end.

(** ** The wire *)

Definition socksVersion : byte := Byte.x05.
Definition methodNoAuth : byte := Byte.x00.
Definition methodNone : byte := Byte.xff.
Definition cmdConnect : byte := Byte.x01.
Definition atypIPv4 : byte := Byte.x01.
Definition atypDomain : byte := Byte.x03.
Definition atypIPv6 : byte := Byte.x04.
Definition repSucceeded : byte := Byte.x00.
Definition repHostUnreachable : byte := Byte.x04.
Definition repCmdNotSupported : byte := Byte.x07.
Definition repAddrNotSupported : byte := Byte.x08.

(** [io.ReadFull]: [None] when the connection ends or the deadline passes first. *)
Definition sockRead (n : nat) (inp : bytes) : option (bytes * bytes) :=
  if (length inp <? n)%nat then None else Some (take n inp, drop n inp).

(** What is written, and the input left if it goes on. *)
Definition serveHandshake (writeOk : bool) (inp : bytes) : bytes * option bytes :=
  match sockRead 2 inp with
  | Some ([v; n], inp) =>
      if negb (bool_decide (v = socksVersion)) then ([], None)
      else match sockRead (Z.to_nat (Z_of_byte n)) inp with
           | Some (methods, inp) =>
               if existsb (fun m => bool_decide (m = methodNoAuth)) methods
               then ([socksVersion; methodNoAuth], if writeOk then Some inp else None)
               else ([socksVersion; methodNone], None)
           | None => ([], None)
           end
  | _ => ([], None)
  end.

Definition writeReply (rep : byte) : bytes := [socksVersion; rep; Byte.x00; atypIPv4; Byte.x00; Byte.x00; Byte.x00; Byte.x00; Byte.x00; Byte.x00].

(** The host of a request, after its address type. *)
Definition readHost (atyp : byte) (inp : bytes) : option (option (bytes * bytes)) :=
  if bool_decide (atyp = atypIPv4) then Some ('(b, inp) ← sockRead 4 inp; Some (ipString b, inp))
  else if bool_decide (atyp = atypIPv6) then Some ('(b, inp) ← sockRead 16 inp; Some (ipString b, inp))
  else if bool_decide (atyp = atypDomain) then
    Some ('(l, inp) ← sockRead 1 inp; '(b, inp) ← sockRead (Z.to_nat (be_get l)) inp; Some (b, inp))
  else None.

Definition readConnect (inp : bytes) : bytes * option (bytes * Z) :=
  match sockRead 4 inp with
  | Some ([v; cmd; _; atyp], inp) =>
      if negb (bool_decide (v = socksVersion)) then ([], None)
      else if negb (bool_decide (cmd = cmdConnect)) then (writeReply repCmdNotSupported, None)
      else match readHost atyp inp with
           | None => (writeReply repAddrNotSupported, None)
           | Some None => ([], None)
           | Some (Some (host, inp)) =>
               match sockRead 2 inp with
               | Some (pb, _) => ([], Some (host, be_get pb))
               | None => ([], None)
               end
           end
  | _ => ([], None)
  end.

(** ** A connection

    What the proxy does, in order; the last step of a served connection joins the two ends. *)
Inductive action : Type :=
| Wrote (b : bytes)
| DialedLocal (d : nat)
| DialedService (dialer : nat) (service : bytes) (port : Z)
| DialedDirect (address : bytes)
| Joined.

(** The router and the clock when the target is resolved, the outcome of the wait and the router and the clock after
    it, and how the calls go. *)
Record connEnv := mkEnv {
  e_router : Router; e_now : Z;
  e_claimed : bool; e_router2 : Router; e_now2 : Z;
  e_dialer : nat;
  e_write : bool; e_dial : bool; e_track : bool; e_reply : bool;
}.

Definition awaited (env : connEnv) (host : bytes) (port : Z) (r : Result) : res routeErr Result :=
  match r with
  | KindPending _ _ =>
      match route_Resolve (e_now2 env) host port (e_router2 env) with
      | Ok (KindPending l p) => Ok (if e_claimed env then KindPending l p else KindDirect)
      | x => x
      end
  | _ => Ok r
  end.

Definition dialFor (env : connEnv) (host : bytes) (port : Z) (r : Result) : action :=
  match r with
  | KindLocal d => DialedLocal d
  | KindService svc p d => DialedService (default (e_dialer env) d) svc p
  | _ => DialedDirect (JoinHostPort host (formatInt port))
  end.

Definition connect (env : connEnv) (host : bytes) (port : Z) : list action :=
  match route_Resolve (e_now env) host port (e_router env) ≫= awaited env host port with
  | Err _ => [Wrote (writeReply repHostUnreachable)]
  | Ok r =>
      dialFor env host port r ::
      if negb (e_dial env) then [Wrote (writeReply repHostUnreachable)]
      else if negb (e_track env) then []
      else Wrote (writeReply repSucceeded) :: if e_reply env then [Joined] else []
  end.

Definition wrote (b : bytes) : list action := match b with [] => [] | _ => [Wrote b] end.

Definition handle (env : connEnv) (inp : bytes) : list action :=
  let '(out, rest) := serveHandshake (e_write env) inp in
  wrote out ++
  match rest with
  | None => []
  | Some inp =>
      let '(out, req) := readConnect inp in
      wrote out ++
      match req with
      | None => []
      | Some (host, port) => if bytes_eqb host [] then [Wrote (writeReply repHostUnreachable)] else connect env host port
      end
  end.
