(* ===== verification/Socks5Claims.v ===== *)
(** * Claims on names

    What the alias table of [Socks5] promises, in the words of the comment on [Router]: the most
    recent live claim on a label wins, a recreated service keeps its place, withdrawing
    a claim restores the one before ([alias_winner_history]); and claims replayed into a new router with
    the precedence they had come out the same in whatever order they arrive
    ([replay_order_free]). A published name is withdrawn by its own
    handle and no other ([local_withdrawal_exact]), and whoever waits for a label waits only while
    nothing claims it ([waiters_parked]). *)
From stdpp Require Import base list gmap strings numbers sorting.
From Stdlib Require Import ZArith Lia.
From Stdlib.Strings Require Import Byte.
From S2P Require Import Prelude GoStd GoPath GoJson Socks5.
Open Scope Z_scope.

(** ** Bisection *)

Lemma searchF_spec (f : nat -> bool) fuel : forall i j, (i <= j)%nat -> (j - i <= fuel)%nat ->
  (forall x y, (i <= x)%nat -> (x <= y)%nat -> (y < j)%nat -> f x = true -> f y = true) ->
  let k := searchF fuel f i j in
  (i <= k <= j)%nat /\ (forall x, (i <= x < k)%nat -> f x = false) /\ (forall x, (k <= x < j)%nat -> f x = true).
Proof.
  induction fuel as [|fuel IH]; intros i j Hij Hf Hm; cbn [searchF].
  - split; [lia|split; intros; lia].
  - destruct (Nat.ltb_spec i j) as [Hlt|Hge]; [|split; [lia|split; intros; lia]].
    set (h := Nat.div2 (i + j)). assert (Hh : (i <= h < j)%nat).
    { subst h. rewrite Nat.div2_div. split; [apply Nat.div_le_lower_bound; lia|apply Nat.Div0.div_lt_upper_bound; lia]. }
    destruct (f h) eqn:Eh; cbn [negb].
    + destruct (IH i h) as (H1 & H2 & H3); [lia|lia|intros x y ? ? ?; apply Hm; lia|]. split; [lia|split; [done|]].
      intros x Hx. destruct (decide (x < h)%nat); [apply H3; lia|]. apply (Hm h x); [lia..|done].
    + destruct (IH (S h) j) as (H1 & H2 & H3); [lia|lia|intros x y ? ? ?; apply Hm; lia|]. split; [lia|split; [|done]].
      intros x Hx. destruct (decide (x <= h)%nat); [|apply H2; lia]. destruct (f x) eqn:Ex; [|done].
      rewrite (Hm x h) in Eh; [done|lia..|done].
Qed.

Section ordered.
Context {A : Type} (key : A -> Z).

(** Insertion before the first greater key. *)
Fixpoint insertSeq (c : A) (l : list A) : list A :=
  match l with
  | [] => [c]
  | x :: l' => if key c <? key x then c :: l else x :: insertSeq c l'
  end.

Definition keyed (l : list A) : Prop := StronglySorted (fun a b => key a <= key b) l.

Lemma insertAt_position l i c : (i <= length l)%nat -> (forall x, x ∈ take i l -> key x <= key c) ->
  (forall x, x ∈ drop i l -> key c < key x) -> insertAt i c l = insertSeq c l.
Proof.
  revert i. induction l as [|a l IH]; intros i Hi Hlo Hhi; destruct i as [|i]; try done; try (cbn in Hi; lia).
  - cbn. rewrite (proj2 (Z.ltb_lt _ _)); [done|]. apply Hhi. by left.
  - cbn [insertSeq]. rewrite (proj2 (Z.ltb_ge _ _)) by (apply Hlo; by left). unfold insertAt. cbn. f_equal.
    apply (IH i); [cbn in Hi; lia|intros x Hx; apply Hlo; by right|done].
Qed.

(** Where the list is in order, bisection finds that place. *)
Lemma insertAt_search l c : keyed l ->
  insertAt (sortSearch (length l) (fun i => match l !! i with Some x => key c <? key x | None => false end)) c l = insertSeq c l.
Proof.
  intros Hs. set (f := fun i => _). assert (Hord : forall x y a b, (x <= y)%nat -> l !! x = Some a -> l !! y = Some b -> key a <= key b).
  { clear f. induction Hs as [|h l Hs IH Hall]; intros x y a b Hxy Ea Eb; [done|]. destruct x as [|x], y as [|y]; cbn in *; try lia.
    - simplify_eq. lia.
    - simplify_eq. rewrite Forall_forall in Hall. apply Hall. by eapply list_elem_of_lookup_2.
    - eapply (IH x y); eauto; lia. }
  destruct (searchF_spec f (length l) 0 (length l)) as (H1 & H2 & H3); [lia|lia| |].
  { intros x y _ Hxy Hy Hx. unfold f in *. destruct (l !! x) as [a|] eqn:Ea; [|done].
    destruct (lookup_lt_is_Some_2 l y Hy) as [b Eb]. rewrite Eb. pose proof (Hord x y a b Hxy Ea Eb). zbool. apply Z.ltb_lt. lia. }
  change (sortSearch (length l) f) with (searchF (length l) f 0 (length l)). set (k := searchF (length l) f 0 (length l)) in *.
  apply insertAt_position; [lia| |]; intros a Ha; apply list_elem_of_lookup in Ha as [x Hx].
  - pose proof (lookup_lt_Some _ _ _ Hx) as Hx'. rewrite length_take in Hx'. rewrite lookup_take_lt in Hx by lia.
    specialize (H2 x ltac:(lia)). unfold f in H2. rewrite Hx in H2. zbool. done.
  - rewrite lookup_drop in Hx. pose proof (lookup_lt_Some _ _ _ Hx). specialize (H3 (k + x)%nat ltac:(lia)).
    unfold f in H3. rewrite Hx in H3. zbool. done.
Qed.

Lemma insertSeq_perm c l : insertSeq c l ≡ₚ c :: l.
Proof. induction l as [|x l IH]; [done|]. cbn. destruct (key c <? key x); [done|]. rewrite IH. constructor. Qed.

Lemma insertSeq_keyed c l : keyed l -> keyed (insertSeq c l).
Proof.
  induction 1 as [|x l Hs IH Hall]; cbn; [constructor; constructor|]. destruct (Z.ltb_spec (key c) (key x)) as [Hlt|Hge].
  - constructor; [by constructor|]. constructor; [lia|]. eapply Forall_impl; [exact Hall|]. cbn. lia.
  - constructor; [done|]. rewrite insertSeq_perm. by constructor.
Qed.

Lemma insertSeq_comm a b l : key a <> key b -> insertSeq a (insertSeq b l) = insertSeq b (insertSeq a l).
Proof.
  intros Hne. induction l as [|x l IH]; cbn.
  - destruct (Z.ltb_spec (key a) (key b)), (Z.ltb_spec (key b) (key a)); try done; lia.
  - destruct (Z.ltb_spec (key b) (key x)) as [Hb|Hb], (Z.ltb_spec (key a) (key x)) as [Ha|Ha]; cbn.
    + rewrite (proj2 (Z.ltb_lt (key b) (key x))), (proj2 (Z.ltb_lt (key a) (key x))) by lia.
      destruct (Z.ltb_spec (key a) (key b)), (Z.ltb_spec (key b) (key a)); try done; lia.
    + rewrite (proj2 (Z.ltb_lt (key b) (key x))), (proj2 (Z.ltb_ge (key a) (key b))), (proj2 (Z.ltb_ge (key a) (key x))) by lia. done.
    + rewrite (proj2 (Z.ltb_lt (key a) (key x))), (proj2 (Z.ltb_ge (key b) (key a))), (proj2 (Z.ltb_ge (key b) (key x))) by lia. done.
    + rewrite (proj2 (Z.ltb_ge (key b) (key x))), (proj2 (Z.ltb_ge (key a) (key x))) by lia. by rewrite IH.
Qed.

(** The greatest key goes last. *)
Lemma insertSeq_last c l : Forall (fun x => key x <= key c) l -> insertSeq c l = l ++ [c].
Proof. induction 1 as [|x l Hx _ IH]; [done|]. cbn. rewrite (proj2 (Z.ltb_ge _ _)) by lia. by rewrite IH. Qed.
End ordered.

(** ** The tables *)

(** Claims on a label: in order, one per deployment, each with a live registration. *)
Record aliasOk (l : list aliasClaim) : Prop := {
  al_keyed : keyed ac_seq l;
  al_deps : NoDup (deployment <$> l);
  al_live : Forall (fun c => deployment c <> [] /\ 1 <= ac_n c) l;
}.

Record routerOk (r : Router) : Prop := {
  ro_aliases : forall label l, aliases r !! label = Some l -> l <> [] /\ aliasOk l;
  ro_locals : forall subject l, locals r !! subject = Some l -> l <> [] /\ keyed lc_seq l;
  ro_waiters : forall label ws, claimWaiters r !! label = Some ws -> ws <> [] /\ aliases r !! label = None;
}.

Lemma routerOk_claims r label : routerOk r -> aliasOk (claimsOf label r).
Proof.
  intros H. unfold claimsOf. destruct (aliases r !! label) as [l|] eqn:E; [by eapply ro_aliases|]. split; constructor.
Qed.

Lemma claimIndex_Some dep l i : claimIndex dep l = Some i -> exists c, l !! i = Some c /\ deployment c = dep.
Proof.
  revert i. induction l as [|c l IH]; intros i E; [done|]. cbn in E. unfold bytes_eqb in E. case_bool_decide as Ed.
  - injection E as <-. by exists c.
  - destruct (claimIndex dep l) as [j|] eqn:Ej; [|done]. injection E as <-. by apply IH.
Qed.

Lemma claimIndex_None dep l : claimIndex dep l = None <-> dep ∉ deployment <$> l.
Proof.
  induction l as [|c l IH]; cbn; [split; [by intros _ ?%elem_of_nil|done]|]. rewrite not_elem_of_cons, <- IH. unfold bytes_eqb.
  case_bool_decide as Ed; [split; [done|intros [? _]; congruence]|].
  destruct (claimIndex dep l); cbn; split; [done|by intros [_ ?]|done|done].
Qed.

Lemma claimIndex_NoDup dep l i c : NoDup (deployment <$> l) -> l !! i = Some c -> deployment c = dep -> claimIndex dep l = Some i.
Proof.
  intros Hn Hi <-. destruct (claimIndex (deployment c) l) as [j|] eqn:E.
  - apply claimIndex_Some in E as (c' & Hj & Ed). f_equal. apply (NoDup_lookup (deployment <$> l) j i (deployment c)); [done| |].
    + rewrite list_lookup_fmap, Hj. cbn. by rewrite Ed.
    + by rewrite list_lookup_fmap, Hi.
  - apply claimIndex_None in E. destruct E. apply list_elem_of_fmap_2. by eapply list_elem_of_lookup_2.
Qed.

Lemma claimsOf_put label l r label' :
  claimsOf label' (putClaims label l r) = if decide (label' = label) then l else claimsOf label' r.
Proof.
  unfold claimsOf, putClaims, setAliases. cbn [aliases]. destruct (decide (label' = label)) as [->|].
  - destruct l; [by rewrite lookup_delete_eq|by rewrite lookup_insert_eq].
  - destruct l; [by rewrite lookup_delete_ne|by rewrite lookup_insert_ne].
Qed.

Lemma claimsOf_setSeqNext r s label : claimsOf label (setSeqNext r s) = claimsOf label r.
Proof. done. Qed.

(** A table is the claims on every label. *)
Lemma routerOk_put r label l : (forall label l, aliases r !! label = Some l -> l <> [] /\ aliasOk l) -> aliasOk l ->
  forall label' l', aliases (putClaims label l r) !! label' = Some l' -> l' <> [] /\ aliasOk l'.
Proof.
  intros Hr Hl label' l'. unfold putClaims, setAliases. cbn [aliases]. destruct l as [|c l].
  - intros [_ ?]%lookup_delete_Some. by eapply Hr.
  - intros [[<- <-]|[_ ?]]%lookup_insert_Some; [done|by eapply Hr].
Qed.

(** *** A new claim *)

Definition claimOf (spec : AliasSpec) : aliasClaim := mkAlias (Deployment spec) 1 (sp_Seq spec) (sp_Dialer spec).

Definition newClaim (r : Router) (spec : AliasSpec) : Prop := Deployment spec ∉ deployment <$> claimsOf (Label spec) r.

(** The router after it: the claim in its place, and nobody left waiting for the label. *)
Definition claimed (spec : AliasSpec) (r : Router) : Router :=
  setWaiters (setAliases r (<[Label spec := insertSeq ac_seq (claimOf spec) (claimsOf (Label spec) r)]> (aliases r)))
    (delete (Label spec) (claimWaiters r)).

Lemma claimLocked_new spec r : routerOk r -> newClaim r spec ->
  claimLocked spec r =
    (mkReg (sp_Seq spec) (winnerLocked (Label spec) (claimed spec r))
       (negb (bytes_eqb (winnerLocked (Label spec) (claimed spec r)) (winnerLocked (Label spec) r))),
     claimed spec r, default [] (claimWaiters r !! Label spec)).
Proof.
  intros H Hnew. unfold claimLocked. rewrite (proj2 (claimIndex_None _ _) Hnew). pose proof (routerOk_claims r (Label spec) H) as Hc.
  pose proof (insertAt_search ac_seq (claimsOf (Label spec) r) (claimOf spec) (al_keyed _ Hc)) as Ei. cbn [ac_seq claimOf] in Ei.
  fold (claimOf spec). rewrite Ei. set (l := insertSeq ac_seq (claimOf spec) (claimsOf (Label spec) r)).
  assert (Hl : l <> []) by (intros E; pose proof (insertSeq_perm ac_seq (claimOf spec) (claimsOf (Label spec) r)) as Hp; fold l in Hp; rewrite E in Hp; by apply Permutation_nil_cons in Hp).
  assert (Ep : putClaims (Label spec) l r = setAliases r (<[Label spec := l]> (aliases r))) by (unfold putClaims; by destruct l).
  rewrite Ep. unfold wakeClaimWaitersLocked. cbn [claimWaiters setAliases].
  destruct (claimWaiters r !! Label spec) as [ws|] eqn:Ew; cbn [default].
  - destruct (ro_waiters r H _ _ Ew) as [Hne _]. destruct ws; [done|]. done.
  - assert (Ec : claimed spec r = setAliases r (<[Label spec := l]> (aliases r))); [|by rewrite Ec].
    unfold claimed. fold l. rewrite delete_id by done. done.
Qed.

Lemma claimsOf_claimed spec r label :
  claimsOf label (claimed spec r) =
  if decide (label = Label spec) then insertSeq ac_seq (claimOf spec) (claimsOf label r) else claimsOf label r.
Proof.
  unfold claimed, claimsOf at 1, setWaiters, setAliases. cbn [aliases]. destruct (decide (label = Label spec)) as [->|].
  - by rewrite lookup_insert_eq.
  - by rewrite lookup_insert_ne.
Qed.

Lemma aliasOk_insert c l : aliasOk l -> deployment c ∉ deployment <$> l -> deployment c <> [] -> 1 <= ac_n c -> aliasOk (insertSeq ac_seq c l).
Proof.
  intros [H1 H2 H3] Hn Hd H1n. split; [by apply insertSeq_keyed| |].
  - rewrite insertSeq_perm. cbn. by constructor.
  - rewrite insertSeq_perm. by constructor.
Qed.

Lemma routerOk_claimed spec r : routerOk r -> newClaim r spec -> Deployment spec <> [] -> routerOk (claimed spec r).
Proof.
  intros H Hnew Hd. pose proof (routerOk_claims r (Label spec) H) as Hc. split; unfold claimed, setWaiters, setAliases; cbn [aliases locals claimWaiters].
  - intros label l [[<- <-]|[_ ?]]%lookup_insert_Some; [|by eapply ro_aliases]. split; [|by apply aliasOk_insert].
    intros E. pose proof (insertSeq_perm ac_seq (claimOf spec) (claimsOf (Label spec) r)) as Hp. rewrite E in Hp. by apply Permutation_nil_cons in Hp.
  - apply (ro_locals r H).
  - intros label ws [Hne Hw]%lookup_delete_Some. destruct (ro_waiters r H _ _ Hw) as [? ?]. split; [done|]. by rewrite lookup_insert_ne.
Qed.

(** ** Replaying claims *)

(** A claim with the precedence it was given, below the last one there is. *)
Definition replaySpec (s : AliasSpec) : Prop := Label s <> [] /\ Deployment s <> [] /\ 0 < sp_Seq s < 2 ^ 64 - 1.

Definition replay (s : AliasSpec) (r : Router) : Router := snd (fst (Claim s r)).

Definition bump (s : AliasSpec) (r : Router) : Router := setSeqNext r (Z.max (seqNext r) (sp_Seq s + 1)).

Lemma routerOk_setSeqNext r n : routerOk r -> routerOk (setSeqNext r n).
Proof. intros [H1 H2 H3]. by split. Qed.

Lemma replay_eq s r : routerOk r -> replaySpec s -> newClaim r s -> replay s r = claimed s (bump s r).
Proof.
  intros H (Hl & Hd & Hs) Hn. unfold replay, Claim. rewrite !bytes_eqb_neq, (proj2 (Z.eqb_neq (sp_Seq s) 0)) by (done || lia). cbn [orb negb].
  assert (Eb : (if seqNext r <=? sp_Seq s then setSeqNext r (w64 (sp_Seq s + 1)) else r) = bump s r).
  { unfold bump. destruct (Z.leb_spec (seqNext r) (sp_Seq s)).
    - rewrite Z.max_r by lia. unfold w64. by rewrite Z.mod_small by lia.
    - rewrite Z.max_l by lia. by destruct r. }
  rewrite Eb, claimLocked_new; [done|by apply routerOk_setSeqNext|done].
Qed.

Lemma routerOk_replay s r : routerOk r -> replaySpec s -> newClaim r s -> routerOk (replay s r).
Proof.
  intros H Hs Hn. rewrite replay_eq by done. apply routerOk_claimed; [by apply routerOk_setSeqNext|done|apply Hs].
Qed.

(** Claims of other deployments, or on other labels. *)
Definition apart (a b : AliasSpec) : Prop := Label a = Label b -> Deployment a <> Deployment b /\ sp_Seq a <> sp_Seq b.

Lemma newClaim_replay a b r : routerOk r -> replaySpec a -> newClaim r a -> newClaim r b -> apart a b -> newClaim (replay a r) b.
Proof.
  intros H Ha Hna Hnb Hap. rewrite replay_eq by done. unfold newClaim in *. rewrite claimsOf_claimed.
  destruct (decide (Label b = Label a)) as [E|]; [|done]. rewrite insertSeq_perm. cbn. apply not_elem_of_cons. split; [|done].
  apply not_eq_sym, Hap. done.
Qed.

Lemma claimed_twice a b r : claimed a (bump a (claimed b (bump b r))) =
  mkRouter (rules r)
    (<[Label a := insertSeq ac_seq (claimOf a) (if decide (Label a = Label b) then insertSeq ac_seq (claimOf b) (claimsOf (Label a) r)
                                                else claimsOf (Label a) r)]>
      (<[Label b := insertSeq ac_seq (claimOf b) (claimsOf (Label b) r)]> (aliases r)))
    (Z.max (Z.max (seqNext r) (sp_Seq b + 1)) (sp_Seq a + 1)) (locals r) (localIDNext r) (recoverUntil r)
    (delete (Label a) (delete (Label b) (claimWaiters r))) (bareServiceNames r).
Proof.
  unfold claimed at 1. change (claimsOf (Label a) (bump a (claimed b (bump b r)))) with (claimsOf (Label a) (claimed b (bump b r))).
  rewrite claimsOf_claimed. done.
Qed.

Lemma replay_comm a b r : routerOk r -> replaySpec a -> replaySpec b -> newClaim r a -> newClaim r b -> apart a b ->
  replay a (replay b r) = replay b (replay a r).
Proof.
  intros H Ha Hb Hna Hnb Hap. assert (Hap' : apart b a) by (intros E; destruct (Hap (eq_sym E)); auto).
  rewrite (replay_eq a (replay b r)), (replay_eq b (replay a r)) by auto using routerOk_replay, newClaim_replay.
  rewrite !replay_eq, !claimed_twice by done. f_equal; [|lia|apply delete_delete].
  destruct (decide (Label a = Label b)) as [E|E].
  - rewrite (decide_True (P := Label b = Label a)) by done. rewrite E, !insert_insert_eq. f_equal. apply insertSeq_comm. apply Hap, E.
  - rewrite (decide_False (P := Label b = Label a)) by auto. by apply insert_insert_ne.
Qed.

(** C25. Claims replayed with the precedence they were given lead to the same router whatever the order they come in. *)
Theorem replay_order_free specs specs' r : routerOk r -> NoDup specs -> specs ≡ₚ specs' ->
  Forall (fun s => replaySpec s /\ newClaim r s) specs ->
  (forall a b, a ∈ specs -> b ∈ specs -> a <> b -> apart a b) ->
  foldl (fun r s => replay s r) r specs = foldl (fun r s => replay s r) r specs'.
Proof.
  intros Hr Hnd Hp. revert r Hr Hnd. induction Hp as [|x l l' Hp IH|x y l|l1 l2 l3 Hp1 IH1 Hp2 IH2]; intros r Hr Hnd Hok Hap; cbn; [done| | |].
  - apply NoDup_cons in Hnd as [Hx Hnd]. apply Forall_cons_1 in Hok as [[Hs Hn] Hok]. apply IH; [by apply routerOk_replay|done| |].
    + rewrite Forall_forall in *. intros s Hs'. destruct (Hok s Hs') as [? ?]. split; [done|]. apply newClaim_replay; try done.
      apply Hap; [by left|by right|]. by intros ->.
    + intros a b Ha Hb. apply Hap; by right.
  - apply Forall_cons_1 in Hok as [[Hy Hny] Hok]. apply Forall_cons_1 in Hok as [[Hx Hnx] _]. f_equal. apply replay_comm; try done.
    apply Hap; [right; by left|by left|]. intros ->. apply NoDup_cons in Hnd as [Hnd _]. apply Hnd. by left.
  - rewrite IH1 by done. apply IH2; [done|by rewrite <- Hp1|by rewrite <- Hp1|]. intros a b Ha Hb. apply Hap; by rewrite Hp1.
Qed.

(** ** Who has a label *)

(** Sessions come and go; published names draw on the same sequence. *)
Inductive hop : Type :=
| HReg (label dep : bytes) (dialer : option nat)
| HUnreg (label dep : bytes)
| HLocal (host : bytes) (port : Z) (d : option nat).

Definition hstep (r : Router) (o : hop) : Router :=
  match o with
  | HReg label dep d => snd (fst (Claim (mkSpec label dep 0 d) r))
  | HUnreg label dep => snd (UnregisterAlias label dep r)
  | HLocal host port d => snd (RegisterLocal host port d r)
  end.

Definition hrun (h : list hop) (r : Router) : Router := foldl hstep r h.

(** The live registrations of a deployment under a label, and when they last rose from none. *)
Definition trackStep (label dep : bytes) (st : nat * Z * nat) (o : hop) : nat * Z * nat :=
  let '(time, n, since) := st in
  match o with
  | HReg l d _ => if bytes_eqb l label && bytes_eqb d dep then (S time, n + 1, if n =? 0 then S time else since) else (S time, n, since)
  | HUnreg l d => if bytes_eqb l label && bytes_eqb d dep then (S time, Z.max 0 (n - 1), since) else (S time, n, since)
  | HLocal _ _ _ => (S time, n, since)
  end.
Definition track (label dep : bytes) (h : list hop) : nat * Z * nat := foldl (trackStep label dep) (0%nat, 0, 0%nat) h.
Definition liveCount (label dep : bytes) (h : list hop) : Z := snd (fst (track label dep h)).
Definition liveSince (label dep : bytes) (h : list hop) : nat := snd (track label dep h).

(** *** The claims, without their sequence numbers *)

Definition view (l : list aliasClaim) : list (bytes * Z) := map (fun c => (deployment c, ac_n c)) l.

Definition incr (d : bytes) (l : list (bytes * Z)) : list (bytes * Z) := map (fun x => if bytes_eqb (fst x) d then (fst x, snd x + 1) else x) l.
Definition decr (d : bytes) (l : list (bytes * Z)) : list (bytes * Z) :=
  omap (fun x => if bytes_eqb (fst x) d then if 1 <? snd x then Some (fst x, snd x - 1) else None else Some x) l.

Definition viewStep (label : bytes) (l : list (bytes * Z)) (o : hop) : list (bytes * Z) :=
  match o with
  | HReg lb d _ => if bytes_eqb lb label && negb (bytes_eqb d []) then if bool_decide (d ∈ l.*1) then incr d l else l ++ [(d, 1)] else l
  | HUnreg lb d => if bytes_eqb lb label && negb (bytes_eqb d []) then decr d l else l
  | HLocal _ _ _ => l
  end.

Lemma view_fst l : (view l).*1 = deployment <$> l.
Proof. unfold view. induction l as [|c l IH]; [done|]. cbn. by rewrite IH. Qed.

Lemma incr_notin d l : d ∉ l.*1 -> incr d l = l.
Proof.
  induction l as [|[x n] l IH]; [done|]. cbn. intros [Hx Hl]%not_elem_of_cons. rewrite bytes_eqb_neq by auto. f_equal. by apply IH.
Qed.

Lemma decr_notin d l : d ∉ l.*1 -> decr d l = l.
Proof.
  induction l as [|[x n] l IH]; [done|]. cbn. intros [Hx Hl]%not_elem_of_cons. rewrite bytes_eqb_neq by auto. cbn. f_equal. by apply IH.
Qed.

Lemma view_incr d l i c c' : NoDup (deployment <$> l) -> claimIndex d l = Some i -> l !! i = Some c ->
  deployment c' = d -> ac_n c' = ac_n c + 1 -> view (<[i := c']> l) = incr d (view l).
Proof.
  revert i. induction l as [|a l IH]; intros i Hn Ei Ec Ed En; [done|]. cbn in Hn. apply NoDup_cons in Hn as [Ha Hn].
  cbn [claimIndex] in Ei. destruct (decide (deployment a = d)) as [E|E].
  - rewrite E, bytes_eqb_refl in Ei. injection Ei as <-. injection Ec as ->. cbn. rewrite E, bytes_eqb_refl, Ed, En.
    f_equal. symmetry. apply (incr_notin d (view l)). by rewrite view_fst, <- E.
  - rewrite bytes_eqb_neq in Ei by done. destruct (claimIndex d l) as [j|] eqn:Ej; [|done]. injection Ei as <-. cbn.
    rewrite bytes_eqb_neq by done. f_equal. by apply IH.
Qed.

Lemma view_decr d l i c : NoDup (deployment <$> l) -> claimIndex d l = Some i -> l !! i = Some c ->
  view (if 1 <? ac_n c then <[i := mkAlias (deployment c) (ac_n c - 1) (ac_seq c) (ac_dialer c)]> l else removeAt i l) = decr d (view l).
Proof.
  revert i. induction l as [|a l IH]; intros i Hn Ei Ec; [done|]. cbn in Hn. apply NoDup_cons in Hn as [Ha Hn].
  cbn [claimIndex] in Ei. destruct (decide (deployment a = d)) as [E|E].
  - rewrite E, bytes_eqb_refl in Ei. injection Ei as <-. injection Ec as ->. cbn. rewrite E, bytes_eqb_refl.
    assert (Hd : decr d (view l) = view l) by (apply decr_notin; by rewrite view_fst, <- E).
    destruct (1 <? ac_n c); cbn; rewrite ?E; [f_equal; by symmetry|by symmetry].
  - rewrite bytes_eqb_neq in Ei by done. destruct (claimIndex d l) as [j|] eqn:Ej; [|done]. injection Ei as <-. cbn.
    rewrite bytes_eqb_neq by done. specialize (IH j Hn eq_refl Ec). destruct (1 <? ac_n c); cbn; f_equal; exact IH.
Qed.

(** *** Order and bounds kept *)

Lemma keyed_map {A} (key : A -> Z) (l : list A) : keyed key l <-> StronglySorted Z.le (key <$> l).
Proof.
  unfold keyed. induction l as [|a l IH]; [split; constructor|]. cbn.
  split; intros H; inversion H as [|? ? Hs Ha]; subst; constructor; try (by apply IH).
  - apply Forall_fmap. exact Ha.
  - rewrite Forall_fmap in Ha. exact Ha.
Qed.

Lemma fmap_insert_same {A B} (f : A -> B) (l : list A) i a a' : l !! i = Some a -> f a' = f a -> f <$> <[i := a']> l = f <$> l.
Proof. intros E Ef. rewrite list_fmap_insert, Ef. apply list_insert_id. by rewrite list_lookup_fmap, E. Qed.

Lemma removeAt_sublist {A} i (l : list A) : removeAt i l `sublist_of` l.
Proof.
  unfold removeAt. revert i. induction l as [|x l IH]; intros [|i]; cbn; [done|done| |].
  - rewrite drop_0. by constructor.
  - constructor. apply IH.
Qed.

Lemma sorted_sublist {A} (R : A -> A -> Prop) l l' : l `sublist_of` l' -> StronglySorted R l' -> StronglySorted R l.
Proof.
  induction 1 as [|x l l' Hs IH|x l l' Hs IH]; [done| |]; inversion 1 as [|? ? Hss Hall]; subst; [constructor; [by apply IH|]|by apply IH].
  rewrite Forall_forall in *. intros z Hz. apply Hall. by eapply elem_of_sublist.
Qed.

Lemma aliasOk_update l i c c' : aliasOk l -> l !! i = Some c -> deployment c' = deployment c -> ac_seq c' = ac_seq c -> 1 <= ac_n c' ->
  aliasOk (<[i := c']> l).
Proof.
  intros [H1 H2 H3] E Ed Es Hn. pose proof H3 as H3'. rewrite Forall_forall in H3. destruct (H3 c) as [Hne _]; [by eapply list_elem_of_lookup_2|]. split.
  - rewrite keyed_map in *. by rewrite (fmap_insert_same ac_seq l i c).
  - by rewrite (fmap_insert_same deployment l i c).
  - apply Forall_insert; [done|]. by rewrite Ed.
Qed.

Lemma aliasOk_remove l i : aliasOk l -> aliasOk (removeAt i l).
Proof.
  intros [H1 H2 H3]. pose proof (removeAt_sublist i l) as Hs. split.
  - rewrite keyed_map in *. eapply sorted_sublist; [|exact H1]. by apply fmap_sublist.
  - eapply sublist_NoDup; [exact H2|]. by apply fmap_sublist.
  - rewrite Forall_forall in *. intros x Hx. apply H3. by eapply elem_of_sublist.
Qed.

Lemma routerOk_putClaims r label l : routerOk r -> aliasOk l -> claimsOf label r <> [] -> routerOk (putClaims label l r).
Proof.
  intros H Hl Hne. split; [by apply routerOk_put; [apply H|]|apply (ro_locals r H)|]. intros lb ws Hw. destruct (ro_waiters r H lb ws Hw) as [? Hnone].
  split; [done|]. unfold putClaims, setAliases. cbn [aliases].
  assert (lb <> label) by (intros ->; unfold claimsOf in Hne; by rewrite Hnone in Hne).
  destruct l; [by rewrite lookup_delete_ne|by rewrite lookup_insert_ne].
Qed.

(** What the next claim gets. *)
Definition nextSeqOf (r : Router) : Z := if seqNext r =? 0 then 1 else seqNext r.

Record histOk (n : Z) (r : Router) : Prop := {
  ho_ok : routerOk r;
  ho_next : 0 <= seqNext r <= n + 1;
  ho_below : forall label, Forall (fun c => ac_seq c < nextSeqOf r) (claimsOf label r);
}.

(** Other claims on a label, over the same sequence. *)
Lemma histOk_put n r label l : histOk n r -> aliasOk l -> Forall (fun c => ac_seq c < nextSeqOf r) l ->
  claimsOf label r <> [] -> histOk n (putClaims label l r).
Proof.
  intros [H1 H2 H3] Hl Hb Hne. split; [by apply routerOk_putClaims|done|].
  intros lb. rewrite claimsOf_put. destruct (decide (lb = label)); [done|apply H3].
Qed.

Lemma histOk_weaken n n' r : histOk n r -> n <= n' -> histOk n' r.
Proof. intros [H1 H2 H3] Hn. split; [done|lia|done]. Qed.

(** The effect of a step on the claims of every label. *)
Definition stepView (n : Z) (r r' : Router) (o : hop) : Prop :=
  histOk (n + 1) r' /\ forall label, label <> [] -> view (claimsOf label r') = viewStep label (view (claimsOf label r)) o.

Lemma bool_decide_view d l : bool_decide (d ∈ (view l).*1) = match claimIndex d l with Some _ => true | None => false end.
Proof.
  rewrite view_fst. destruct (claimIndex d l) as [i|] eqn:E.
  - apply claimIndex_Some in E as (c & Hc & <-). apply bool_decide_true, list_elem_of_fmap_2. by eapply list_elem_of_lookup_2.
  - apply claimIndex_None in E. by apply bool_decide_false.
Qed.

(** One label's claims are put, the others stay. *)
Lemma stepView_put n r label l o : histOk (n + 1) r -> aliasOk l -> Forall (fun c => ac_seq c < nextSeqOf r) l -> claimsOf label r <> [] ->
  (forall lb, lb <> [] -> lb <> label -> viewStep lb (view (claimsOf lb r)) o = view (claimsOf lb r)) ->
  view l = viewStep label (view (claimsOf label r)) o -> stepView n r (putClaims label l r) o.
Proof.
  intros H Hl Hb Hne Hother Hv. split; [by apply histOk_put|]. intros lb Hlb. rewrite claimsOf_put. destruct (decide (lb = label)) as [->|]; [done|].
  by rewrite Hother.
Qed.

Lemma below_lookup r label i c : Forall (fun c => ac_seq c < nextSeqOf r) (claimsOf label r) -> claimsOf label r !! i = Some c ->
  ac_seq c < nextSeqOf r /\ claimsOf label r <> [].
Proof.
  intros H E. rewrite Forall_forall in H. split; [apply H; by eapply list_elem_of_lookup_2|]. intros E'. by rewrite E' in E.
Qed.

Lemma step_reclaim n r label dep d i c : histOk (n + 1) r -> dep <> [] -> claimIndex dep (claimsOf label r) = Some i ->
  claimsOf label r !! i = Some c ->
  stepView n r (putClaims label (<[i := mkAlias (deployment c) (ac_n c + 1) (ac_seq c) (match d with Some d => Some d | None => ac_dialer c end)]>
    (claimsOf label r)) r) (HReg label dep d).
Proof.
  intros H Hd Ei Ec. pose proof (routerOk_claims r label (ho_ok _ _ H)) as Hc. destruct (below_lookup r label i c (ho_below _ _ H label) Ec) as [Hlt Hne].
  destruct (claimIndex_Some _ _ _ Ei) as (c2 & Ec2 & Edep). rewrite Ec in Ec2. injection Ec2 as <-.
  assert (Hc1 : 1 <= ac_n c) by (pose proof (al_live _ Hc) as Hl; rewrite Forall_forall in Hl; apply (Hl c); by eapply list_elem_of_lookup_2).
  apply stepView_put; [done| |by apply Forall_insert; [apply (ho_below _ _ H)|]|done| |].
  - eapply aliasOk_update; [done|exact Ec|done|done|]. cbn. lia.
  - intros lb _ Hlb. cbn. by rewrite bytes_eqb_neq by auto.
  - cbn [viewStep]. rewrite bytes_eqb_refl, (bytes_eqb_neq dep []), bool_decide_view, Ei by done. cbn [andb negb].
    eapply view_incr; [apply Hc|done|exact Ec|done|done].
Qed.

Lemma step_newclaim n r spec : histOk (n + 1) r -> Label spec <> [] -> Deployment spec <> [] -> newClaim r spec ->
  sp_Seq spec + 1 = nextSeqOf r -> (forall label, Forall (fun c => ac_seq c < sp_Seq spec) (claimsOf label r)) ->
  stepView n r (claimed spec r) (HReg (Label spec) (Deployment spec) (sp_Dialer spec)).
Proof.
  intros H Hl Hd Hn Hs Hb. assert (Hlast : forall lb, lb = Label spec -> claimsOf lb (claimed spec r) = claimsOf lb r ++ [claimOf spec]).
  { intros lb ->. rewrite claimsOf_claimed, decide_True by done. apply insertSeq_last. eapply Forall_impl; [apply Hb|]. cbn. lia. }
  split.
  - split; [by apply routerOk_claimed; [apply H|..]|apply H|]. intros lb. change (nextSeqOf (claimed spec r)) with (nextSeqOf r).
    destruct (decide (lb = Label spec)) as [->|].
    + rewrite Hlast by done. apply Forall_app. split; [apply (ho_below _ _ H)|]. apply Forall_singleton. cbn. lia.
    + rewrite claimsOf_claimed, decide_False by done. apply (ho_below _ _ H).
  - intros lb Hlb. cbn [viewStep]. destruct (decide (lb = Label spec)) as [->|Hne].
    + rewrite Hlast by done. rewrite bytes_eqb_refl, (bytes_eqb_neq (Deployment spec) []), bool_decide_view by done.
      rewrite (proj2 (claimIndex_None _ _) Hn). cbn [andb negb]. unfold view. by rewrite map_app.
    + rewrite claimsOf_claimed, decide_False by done. by rewrite bytes_eqb_neq by auto.
Qed.

Lemma step_reg n r label dep d : histOk n r -> 0 <= n -> n + 1 < 2 ^ 64 - 1 ->
  stepView n r (snd (fst (Claim (mkSpec label dep 0 d) r))) (HReg label dep d).
Proof.
  intros H Hn0 Hn. unfold Claim. cbn [Label Deployment sp_Seq sp_Dialer]. change (negb (0 =? 0)) with false. cbn iota.
  destruct (bytes_eqb label [] || bytes_eqb dep []) eqn:Eempty.
  { split; [by apply (histOk_weaken n); [|lia]|]. intros lb Hlb. cbn. apply orb_true_iff in Eempty as [E|E]; apply bytes_eqb_spec in E; subst.
    - by rewrite (bytes_eqb_neq [] lb) by auto.
    - by rewrite bytes_eqb_refl, andb_false_r. }
  apply orb_false_iff in Eempty as [El Ed]. apply bytes_eqb_false in El, Ed.
  destruct H as [Hr Hnx Hb]. fold (nextSeqOf r). set (s := nextSeqOf r) in *. set (r0 := setSeqNext r (w64 (s + 1))).
  assert (Hs : 1 <= s <= n + 1) by (subst s; unfold nextSeqOf; destruct (Z.eqb_spec (seqNext r) 0); lia).
  assert (Es : seqNext r0 = s + 1) by (cbn; unfold w64; apply Z.mod_small; lia).
  assert (En : nextSeqOf r0 = s + 1) by (unfold nextSeqOf; rewrite Es; destruct (Z.eqb_spec (s + 1) 0); lia).
  assert (H0 : histOk (n + 1) r0).
  { split; [by apply routerOk_setSeqNext|lia|]. intros lb. rewrite En. eapply Forall_impl; [apply (Hb lb)|]. cbn. lia. }
  destruct (claimIndex dep (claimsOf label r0)) as [i|] eqn:Ei.
  - unfold claimLocked. cbn [Label Deployment sp_Seq sp_Dialer]. rewrite Ei. destruct (claimIndex_Some _ _ _ Ei) as (c & Ec & _). rewrite Ec. cbn [fst snd].
    apply (step_reclaim n r0 label dep d i c); done.
  - rewrite claimLocked_new; [|by apply routerOk_setSeqNext|by apply claimIndex_None]. cbn [fst snd].
    apply (step_newclaim n r0 (mkSpec label dep s d)); try done. by apply claimIndex_None.
Qed.

Lemma step_same n r o : histOk n r -> (forall label, label <> [] -> viewStep label (view (claimsOf label r)) o = view (claimsOf label r)) ->
  stepView n r r o.
Proof. intros H Hv. split; [by apply (histOk_weaken n); [|lia]|]. intros label Hl. by rewrite Hv. Qed.

Lemma step_unreg n r label dep : histOk n r -> stepView n r (snd (UnregisterAlias label dep r)) (HUnreg label dep).
Proof.
  intros H. unfold UnregisterAlias. destruct (bytes_eqb label [] || bytes_eqb dep []) eqn:Eempty; cbn [snd].
  { apply step_same; [done|]. intros lb Hlb. cbn. apply orb_true_iff in Eempty as [E|E]; apply bytes_eqb_spec in E; subst.
    - by rewrite (bytes_eqb_neq [] lb) by auto.
    - by rewrite bytes_eqb_refl, andb_false_r. }
  apply orb_false_iff in Eempty as [El Ed]. apply bytes_eqb_false in El, Ed.
  pose proof (routerOk_claims r label (ho_ok _ _ H)) as Hc. pose proof (ho_below _ _ H label) as Hb.
  assert (Hother : forall lb, lb <> [] -> lb <> label -> viewStep lb (view (claimsOf lb r)) (HUnreg label dep) = view (claimsOf lb r)).
  { intros lb _ Hlb. cbn. by rewrite bytes_eqb_neq by auto. }
  destruct (claimIndex dep (claimsOf label r)) as [i|] eqn:Ei; cbn [snd].
  - destruct (claimIndex_Some _ _ _ Ei) as (c & Ec & Edep). rewrite Ec. destruct (below_lookup r label i c Hb Ec) as [Hlt Hne].
    pose proof (view_decr dep _ i c (al_deps _ Hc) Ei Ec) as Hv.
    assert (H' : histOk (n + 1) r) by (apply (histOk_weaken n); [done|lia]).
    assert (Hstep : viewStep label (view (claimsOf label r)) (HUnreg label dep) = decr dep (view (claimsOf label r))).
    { cbn. by rewrite bytes_eqb_refl, bytes_eqb_neq. }
    destruct (Z.ltb_spec 1 (ac_n c)) as [Hn|Hn]; cbn [snd]; apply stepView_put; rewrite ?Hstep; try done.
    + eapply aliasOk_update; [done|exact Ec|done|done|]. cbn. lia.
    + by apply Forall_insert.
    + by apply aliasOk_remove.
    + rewrite Forall_forall in *. intros x Hx. apply Hb. eapply elem_of_sublist; [exact Hx|apply removeAt_sublist].
  - apply step_same; [done|]. intros lb Hlb. destruct (decide (lb = label)) as [->|]; [|by apply Hother]. cbn.
    rewrite bytes_eqb_refl, bytes_eqb_neq by done. apply decr_notin. rewrite view_fst. by apply claimIndex_None.
Qed.

Lemma insertSeq_nonnil {A} (key : A -> Z) c l : insertSeq key c l <> [].
Proof. intros E. pose proof (insertSeq_perm key c l) as Hp. rewrite E in Hp. by apply Permutation_nil_cons in Hp. Qed.

Lemma routerOk_publish host port d seq r : routerOk r -> routerOk (snd (publishLocked host port d seq r)).
Proof.
  intros H. unfold publishLocked. cbn [snd]. set (l := localsOf (localSubject host port) r).
  assert (Hk : keyed lc_seq l).
  { subst l. unfold localsOf. destruct (locals r !! _) as [l|] eqn:E; [by eapply ro_locals|constructor]. }
  pose proof (insertAt_search lc_seq l (mkLocal d seq (w64 (localIDNext r + 1))) Hk) as Ei. cbn [lc_seq] in Ei. rewrite Ei. split; [apply (ro_aliases r H)| |apply (ro_waiters r H)].
  cbn [locals setLocals]. intros sb l' [[<- <-]|[_ ?]]%lookup_insert_Some; [|by eapply ro_locals]. split; [apply insertSeq_nonnil|by apply insertSeq_keyed].
Qed.

Lemma step_local n r host port d : histOk n r -> 0 <= n -> n + 1 < 2 ^ 64 - 1 -> stepView n r (snd (RegisterLocal host port d r)) (HLocal host port d).
Proof.
  intros H Hn0 Hn. unfold RegisterLocal. destruct d as [d|]; [|by apply step_same]. destruct (badLocal _ _ _); [by apply step_same|].
  fold (nextSeqOf r). destruct H as [Hr Hnx Hb]. set (s := nextSeqOf r) in *. set (r0 := setSeqNext r (w64 (s + 1))).
  assert (Hs : 1 <= s <= n + 1) by (subst s; unfold nextSeqOf; destruct (Z.eqb_spec (seqNext r) 0); lia).
  assert (Es : seqNext r0 = s + 1) by (cbn; unfold w64; apply Z.mod_small; lia).
  assert (Ep : seqNext (snd (publishLocked host port d s r0)) = s + 1) by (rewrite <- Es; done).
  split; [|done]. split; [by apply routerOk_publish, routerOk_setSeqNext|lia|]. intros lb. unfold nextSeqOf. rewrite Ep.
  destruct (Z.eqb_spec (s + 1) 0); [lia|]. eapply Forall_impl; [apply (Hb lb)|]. cbn. lia.
Qed.

Lemma hstep_view n r o : histOk n r -> 0 <= n -> n + 1 < 2 ^ 64 - 1 -> stepView n r (hstep r o) o.
Proof. intros H Hn0 Hn. destruct o; [by apply step_reg|by apply step_unreg|by apply step_local]. Qed.

Lemma hrun_view h n r : histOk n r -> 0 <= n -> n + Z.of_nat (length h) < 2 ^ 64 - 1 ->
  histOk (n + Z.of_nat (length h)) (hrun h r) /\
  forall label, label <> [] -> view (claimsOf label (hrun h r)) = foldl (viewStep label) (view (claimsOf label r)) h.
Proof.
  revert n r. induction h as [|o h IH]; intros n r H Hn Hb; cbn [hrun foldl length] in *.
  - split; [by rewrite Z.add_0_r|done].
  - destruct (hstep_view n r o H Hn ltac:(lia)) as [H1 Hv]. destruct (IH (n + 1) (hstep r o) H1 ltac:(lia) ltac:(lia)) as [H2 Hv2]. split.
    + replace (n + Z.of_nat (S (length h))) with (n + 1 + Z.of_nat (length h)) by lia. exact H2.
    + intros label Hl. unfold hrun in Hv2. by rewrite Hv2, Hv.
Qed.

(** *** The claims and the history *)

Section history.
Context (label : bytes).

Lemma track_snoc dep h o : track label dep (h ++ [o]) = trackStep label dep (track label dep h) o.
Proof. unfold track. by rewrite foldl_app. Qed.

Lemma track_time dep h : fst (fst (track label dep h)) = length h.
Proof.
  induction h as [|o h IH] using rev_ind; [done|]. rewrite track_snoc, length_app. cbn [length].
  destruct (track label dep h) as [[time n] since]. cbn in IH. subst time.
  destruct o; cbn; repeat (destruct (_ && _)); cbn; lia.
Qed.

Lemma track_eq dep h : track label dep h = (length h, liveCount label dep h, liveSince label dep h).
Proof. rewrite <- (track_time dep h). unfold liveCount, liveSince. by destruct (track label dep h) as [[? ?] ?]. Qed.

(** The claims in order of when they became live. *)
Record viewOk (h : list hop) (l : list (bytes * Z)) : Prop := {
  vo_nodup : NoDup l.*1;
  vo_named : Forall (fun x => fst x <> []) l;
  vo_count : forall d n, (d, n) ∈ l -> n = liveCount label d h /\ 1 <= n;
  vo_absent : forall d, d <> [] -> d ∉ l.*1 -> liveCount label d h = 0;
  vo_since : forall d, d <> [] -> (liveSince label d h <= length h)%nat;
  vo_order : StronglySorted (fun x y => (liveSince label (fst x) h < liveSince label (fst y) h)%nat) l;
}.

(** What does not touch a deployment leaves its count and its time. *)
Definition touches (o : hop) (d : bytes) : Prop :=
  match o with HReg l x _ | HUnreg l x => l = label /\ x = d | HLocal _ _ _ => False end.

Lemma untouched h o d : ~ touches o d -> liveCount label d (h ++ [o]) = liveCount label d h /\ liveSince label d (h ++ [o]) = liveSince label d h.
Proof.
  intros Ht. unfold liveCount, liveSince. rewrite !track_snoc. destruct (track label d h) as [[time n] since].
  destruct o as [l x ?|l x|]; cbn in *; [| |done]; (destruct (bytes_eqb l label && bytes_eqb x d) eqn:E; [|done]);
    apply andb_true_iff in E as [E1 E2]; apply bytes_eqb_spec in E1, E2; by destruct Ht.
Qed.

Lemma touched_reg h d dl : let n := liveCount label d h in
  liveCount label d (h ++ [HReg label d dl]) = n + 1 /\
  liveSince label d (h ++ [HReg label d dl]) = if n =? 0 then S (length h) else liveSince label d h.
Proof.
  unfold liveCount at 2, liveSince at 1. rewrite !track_snoc, track_eq. cbn. by rewrite !bytes_eqb_refl.
Qed.

Lemma touched_unreg h d : liveCount label d (h ++ [HUnreg label d]) = Z.max 0 (liveCount label d h - 1) /\
  liveSince label d (h ++ [HUnreg label d]) = liveSince label d h.
Proof. unfold liveCount at 1, liveSince at 1. rewrite !track_snoc, track_eq. cbn. by rewrite !bytes_eqb_refl. Qed.

Lemma order_ext (f g : bytes -> nat) (l : list (bytes * Z)) : (forall x, x ∈ l -> f (fst x) = g (fst x)) ->
  StronglySorted (fun x y => (f (fst x) < f (fst y))%nat) l -> StronglySorted (fun x y => (g (fst x) < g (fst y))%nat) l.
Proof.
  induction l as [|x l IH]; intros He Hs; [constructor|]. inversion Hs as [|? ? Hss Ha]; subst. constructor.
  - apply IH; [|done]. intros z Hz. apply He. by right.
  - rewrite Forall_forall in *. intros z Hz. rewrite <- (He x), <- (He z); [by apply Ha|by right|by left].
Qed.

Lemma order_on_fst (f : bytes -> nat) (l : list (bytes * Z)) :
  StronglySorted (fun x y => (f (fst x) < f (fst y))%nat) l <-> StronglySorted (fun a b => (f a < f b)%nat) l.*1.
Proof.
  induction l as [|x l IH]; [split; constructor|]. cbn. split; intros H; inversion H as [|? ? Hs Ha]; subst; constructor; try (by apply IH).
  - apply Forall_fmap. exact Ha.
  - rewrite Forall_fmap in Ha. exact Ha.
Qed.

Lemma order_fst (f : bytes -> nat) (l l' : list (bytes * Z)) : l'.*1 `sublist_of` l.*1 ->
  StronglySorted (fun x y => (f (fst x) < f (fst y))%nat) l -> StronglySorted (fun x y => (f (fst x) < f (fst y))%nat) l'.
Proof. intros Hs. rewrite !order_on_fst. by apply sorted_sublist. Qed.

Lemma incr_fst d l : (incr d l).*1 = l.*1.
Proof. induction l as [|[x n] l IH]; [done|]. cbn in *. destruct (bytes_eqb x d); cbn; by f_equal. Qed.

Lemma elem_of_incr d l x n : (x, n) ∈ incr d l -> if bytes_eqb x d then (x, n - 1) ∈ l else (x, n) ∈ l.
Proof.
  intros ([y m] & E & Hin)%list_elem_of_fmap. cbn in E. destruct (bytes_eqb y d) eqn:Ey; injection E as -> ->; rewrite Ey; [|done].
  by replace (m + 1 - 1) with m by lia.
Qed.

Lemma viewOk_reg h l d dl : viewOk h l -> d <> [] -> viewOk (h ++ [HReg label d dl]) (if bool_decide (d ∈ l.*1) then incr d l else l ++ [(d, 1)]).
Proof.
  intros [H1 H2 H3 H4 H5 H6] Hd. set (h' := h ++ [HReg label d dl]).
  assert (Hu : forall x, x <> d -> liveCount label x h' = liveCount label x h /\ liveSince label x h' = liveSince label x h).
  { intros x Hx. apply untouched. cbn. intros [_ ?]. by subst. }
  destruct (touched_reg h d dl) as [Tc Ts]. fold h' in Tc, Ts.
  assert (Hlen : length h' = S (length h)) by (unfold h'; rewrite length_app; cbn; lia).
  assert (Hs : forall x, x <> [] -> (liveSince label x h' <= length h')%nat).
  { intros x Hx0. rewrite Hlen. specialize (H5 x Hx0). destruct (decide (x = d)) as [->|Hx]; [rewrite Ts; destruct (_ =? 0); lia|].
    rewrite (proj2 (Hu x Hx)). lia. }
  case_bool_decide as Hin.
  - assert (Hn : liveCount label d h <> 0).
    { apply list_elem_of_fmap in Hin as ([x n] & -> & Hin). destruct (H3 x n Hin). cbn. lia. }
    rewrite (proj2 (Z.eqb_neq _ _)) in Ts by done.
    assert (Hsame : forall x, liveSince label x h' = liveSince label x h) by (intros x; destruct (decide (x = d)) as [->|]; [done|by apply Hu]).
    split; rewrite ?incr_fst; [done| | | |done|].
    + rewrite Forall_forall in *. intros [x n] Hx%elem_of_incr. destruct (bytes_eqb x d); by apply H2 in Hx.
    + intros x n Hx. apply elem_of_incr in Hx. destruct (decide (x = d)) as [->|Hne].
      * rewrite bytes_eqb_refl in Hx. destruct (H3 d (n - 1) Hx). lia.
      * rewrite bytes_eqb_neq in Hx by done. rewrite (proj1 (Hu x Hne)). by apply H3.
    + intros x Hx Hnot. rewrite (proj1 (Hu x ltac:(by intros ->))). by apply H4.
    + apply (order_fst (fun x => liveSince label x h') l); [by rewrite incr_fst|].
      eapply (order_ext (fun x => liveSince label x h) (fun x => liveSince label x h')); [|exact H6]. intros x _. by rewrite Hsame.
  - rewrite (H4 d Hd Hin) in *. cbn in Ts. split; [| | | |done|].
    + rewrite fmap_app. apply NoDup_app. split_and!; [done| |by apply NoDup_singleton]. by intros x Hx ->%list_elem_of_singleton.
    + apply Forall_app. split; [done|by apply Forall_singleton].
    + intros x n [Hx|Hx%list_elem_of_singleton]%elem_of_app; [|injection Hx as -> ->; lia].
      rewrite (proj1 (Hu x ltac:(intros ->; apply Hin; by apply (list_elem_of_fmap_2 fst) in Hx))). by apply H3.
    + intros x Hx Hnot. rewrite fmap_app in Hnot. rewrite (proj1 (Hu x ltac:(intros ->; apply Hnot, elem_of_app; right; by left))). apply H4; [done|].
      intros Hx'. apply Hnot, elem_of_app. by left.
    + apply StronglySorted_app. split_and!; [| |constructor; constructor].
      * intros x y Hx ->%list_elem_of_singleton. cbn [fst]. rewrite Ts, (proj2 (Hu (fst x) ltac:(intros E; apply Hin; rewrite <- E; by apply list_elem_of_fmap_2))).
        rewrite Forall_forall in H2. specialize (H5 (fst x) (H2 x Hx)). lia.
      * eapply (order_ext (fun x => liveSince label x h) (fun x => liveSince label x h')); [|exact H6]. intros x Hx. symmetry. apply Hu. intros E. apply Hin. rewrite <- E. by apply list_elem_of_fmap_2.
Qed.

Lemma decr_fst d l : (decr d l).*1 `sublist_of` l.*1.
Proof.
  induction l as [|[x n] l IH]; [done|]. unfold decr in *. cbn. destruct (bytes_eqb x d); cbn; [destruct (1 <? n); cbn|]; by constructor.
Qed.

Lemma elem_of_decr d l x n : (x, n) ∈ decr d l <-> (x <> d /\ (x, n) ∈ l) \/ (x = d /\ 1 <= n /\ (x, n + 1) ∈ l).
Proof.
  unfold decr. rewrite list_elem_of_omap. split.
  - intros ([y m] & Hin & E). cbn in E. unfold bytes_eqb in E. case_bool_decide as Ey; [|injection E as -> ->; by left].
    destruct (Z.ltb_spec 1 m); [|done]. injection E as -> <-. right. split_and!; [done|lia|]. by replace (m - 1 + 1) with m by lia.
  - intros [[Hx Hin]|(-> & Hn & Hin)].
    + exists (x, n). split; [done|]. cbn. by rewrite bytes_eqb_neq.
    + exists (d, n + 1). split; [done|]. cbn. rewrite bytes_eqb_refl, (proj2 (Z.ltb_lt 1 (n + 1))) by lia. do 2 f_equal. lia.
Qed.

Lemma viewOk_unreg h l d : viewOk h l -> d <> [] -> viewOk (h ++ [HUnreg label d]) (decr d l).
Proof.
  intros [H1 H2 H3 H4 H5 H6] Hd. set (h' := h ++ [HUnreg label d]).
  assert (Hu : forall x, x <> d -> liveCount label x h' = liveCount label x h /\ liveSince label x h' = liveSince label x h).
  { intros x Hx. apply untouched. cbn. intros [_ ?]. by subst. }
  destruct (touched_unreg h d) as [Tc Ts]. fold h' in Tc, Ts.
  assert (Hsame : forall x, liveSince label x h' = liveSince label x h) by (intros x; destruct (decide (x = d)) as [->|]; [done|by apply Hu]).
  split.
  - eapply sublist_NoDup; [exact H1|apply decr_fst].
  - rewrite Forall_forall in *. intros [x n] [[? Hin]|(? & ? & Hin)]%elem_of_decr; by apply H2 in Hin.
  - intros x n [[Hx Hin]|(-> & Hn & Hin)]%elem_of_decr; [rewrite (proj1 (Hu x Hx)); by apply H3|]. destruct (H3 _ _ Hin). lia.
  - intros x Hx Hnot. destruct (decide (x = d)) as [->|Hne].
    + rewrite Tc. destruct (decide (d ∈ l.*1)) as [Hin|Hin]; [|rewrite (H4 d) by done; lia].
      apply list_elem_of_fmap in Hin as ([y n] & -> & Hin). cbn in *. destruct (H3 y n Hin) as [<- Hn].
      destruct (decide (n = 1)) as [->|]; [done|]. destruct Hnot. apply list_elem_of_fmap. exists (y, n - 1). split; [done|].
      apply elem_of_decr. right. split_and!; [done|lia|]. by replace (n - 1 + 1) with n by lia.
    + rewrite (proj1 (Hu x Hne)). apply H4; [done|]. intros ([y n] & -> & Hin)%list_elem_of_fmap. apply Hnot. cbn in *.
      apply list_elem_of_fmap. exists (y, n). split; [done|]. apply elem_of_decr. by left.
  - intros x Hx. rewrite Hsame. unfold h'. rewrite length_app. specialize (H5 x Hx). cbn. lia.
  - apply (order_fst (fun x => liveSince label x h') l); [apply decr_fst|].
    eapply (order_ext (fun x => liveSince label x h) (fun x => liveSince label x h')); [|exact H6]. intros x _. by rewrite Hsame.
Qed.

Lemma viewOk_skip h l o : viewOk h l -> (forall d, d <> [] -> ~ touches o d) -> viewOk (h ++ [o]) l.
Proof.
  intros [H1 H2 H3 H4 H5 H6] Ht. rewrite Forall_forall in H2. split; [done|by apply Forall_forall| | | |].
  - intros d n Hin. rewrite (proj1 (untouched h o d (Ht d (H2 _ Hin)))). by apply H3.
  - intros d Hd Hnot. rewrite (proj1 (untouched h o d (Ht d Hd))). by apply H4.
  - intros d Hd. rewrite (proj2 (untouched h o d (Ht d Hd))), length_app. specialize (H5 d Hd). lia.
  - eapply (order_ext (fun x => liveSince label x h) (fun x => liveSince label x (h ++ [o]))); [|exact H6].
    intros x Hx. symmetry. apply untouched, Ht, H2, Hx.
Qed.

Lemma viewOk_run h : viewOk h (foldl (viewStep label) [] h).
Proof.
  induction h as [|o h IH] using rev_ind.
  - split; cbn; [constructor|constructor|by intros d n ?%elem_of_nil|done|done|constructor].
  - rewrite foldl_app. cbn [foldl]. set (l := foldl (viewStep label) [] h) in *.
    assert (Hskip : forall lb d, bytes_eqb lb label && negb (bytes_eqb d []) = false -> forall x, x <> [] -> ~ (lb = label /\ d = x)).
    { intros lb d E x Hx [-> ->]. by rewrite bytes_eqb_refl, bytes_eqb_neq in E. }
    destruct o as [lb d dl|lb d|host port dl]; cbn [viewStep].
    + destruct (_ && _) eqn:E; [|by apply viewOk_skip, Hskip]. apply andb_true_iff in E as [E1%bytes_eqb_spec E2%negb_true_iff%bytes_eqb_false].
      subst lb. by apply viewOk_reg.
    + destruct (_ && _) eqn:E; [|by apply viewOk_skip, Hskip]. apply andb_true_iff in E as [E1%bytes_eqb_spec E2%negb_true_iff%bytes_eqb_false].
      subst lb. by apply viewOk_unreg.
    + apply viewOk_skip; [done|]. intros d _ Ht. exact Ht.
Qed.
End history.

Lemma histOk_new rs r : NewRouter rs = Some r -> histOk 0 r /\ forall label, claimsOf label r = [].
Proof.
  unfold NewRouter. destruct (compileRules rs); [|done]. intros [= <-]. split; [|done]. split; [by split|cbn; lia|]. intros label. constructor.
Qed.

(** Through registrations and withdrawals in any order, a label leads to the deployment that
    became live most recently among those that have a live registration, and to none when none has. *)
Theorem alias_winner_history rs r0 h label : NewRouter rs = Some r0 -> Z.of_nat (length h) < 2 ^ 64 - 1 -> label <> [] ->
  let w := winnerLocked label (hrun h r0) in
  (w = [] /\ forall d, d <> [] -> liveCount label d h = 0) \/
  (w <> [] /\ 0 < liveCount label w h /\
   forall d, d <> [] -> d <> w -> 0 < liveCount label d h -> (liveSince label d h < liveSince label w h)%nat).
Proof.
  intros Hnew Hlen Hl. destruct (histOk_new _ _ Hnew) as [H0 Hempty].
  destruct (hrun_view h 0 r0 H0 ltac:(lia) ltac:(lia)) as [_ Hv]. specialize (Hv label Hl). rewrite Hempty in Hv. cbn [view map] in Hv.
  pose proof (viewOk_run label h) as [V1 V2 V3 V4 V5 V6]. rewrite <- Hv in *. cbn zeta. unfold winnerLocked.
  destruct (claimsOf label (hrun h r0)) as [|c l _] using rev_ind.
  - left. split; [done|]. intros d Hd. apply V4; [done|]. by intros ?%elem_of_nil.
  - right. rewrite last_snoc. unfold view in *. rewrite map_app in *. cbn [map] in *. rewrite Forall_app, Forall_singleton in V2. split_and!; [apply V2| |].
    + destruct (V3 (deployment c) (ac_n c)) as [<- ?]; [apply elem_of_app; right; by left|lia].
    + intros d Hd Hne Hlive. destruct (decide (d ∈ (map (fun c => (deployment c, ac_n c)) l ++ [(deployment c, ac_n c)]).*1)) as [Hin|Hin]; [|rewrite (V4 d Hd Hin) in Hlive; lia].
      rewrite fmap_app in Hin. apply elem_of_app in Hin as [Hin|Hin%list_elem_of_singleton]; [|done].
      apply list_elem_of_fmap in Hin as (x & -> & Hx). apply StronglySorted_app in V6 as (V6 & _ & _). apply (V6 x (deployment c, ac_n c)); [done|by left].
Qed.

(** ** All operations *)

Inductive rop : Type :=
| RClaim (spec : AliasSpec)
| RUnregister (label dep : bytes)
| RClearAliases
| RLocal (host : bytes) (port : Z) (d : option nat)
| RLocalSeq (host : bytes) (port : Z) (d : option nat) (seq : Z)
| RUnlocal (h : LocalHandle)
| RClearLocals
| RRecovery (now : Z) (t : option Z)
| RAwait (now : Z) (ch : nat) (label : bytes)
| RDrop (label : bytes) (ch : nat)
| RBare (enabled : bool).

Definition rstep (r : Router) (o : rop) : Router :=
  match o with
  | RClaim spec => snd (fst (Claim spec r))
  | RUnregister label dep => snd (UnregisterAlias label dep r)
  | RClearAliases => ClearAliases r
  | RLocal host port d => snd (RegisterLocal host port d r)
  | RLocalSeq host port d seq => snd (RegisterLocalSeq host port d seq r)
  | RUnlocal h => snd (UnregisterLocal h r)
  | RClearLocals => ClearLocals r
  | RRecovery now t => fst (SetRecoveryUntil now t r)
  | RAwait now ch label => snd (AwaitClaim now ch label r)
  | RDrop label ch => dropWaiter label ch r
  | RBare enabled => SetBareServiceNames enabled r
  end.

Lemma routerOk_claimLocked spec r : routerOk r -> Deployment spec <> [] -> routerOk (snd (fst (claimLocked spec r))).
Proof.
  intros H Hd. destruct (claimIndex (Deployment spec) (claimsOf (Label spec) r)) as [i|] eqn:Ei.
  - unfold claimLocked. rewrite Ei. destruct (claimIndex_Some _ _ _ Ei) as (c & Ec & _). rewrite Ec. cbn [fst snd].
    pose proof (routerOk_claims r (Label spec) H) as Hc. apply routerOk_putClaims; [done| |by intros E; rewrite E in Ec].
    eapply aliasOk_update; [done|exact Ec|done|done|]. cbn.
    pose proof (al_live _ Hc) as Hl. rewrite Forall_forall in Hl. destruct (Hl c); [by eapply list_elem_of_lookup_2|lia].
  - apply claimIndex_None in Ei. rewrite claimLocked_new by done. by apply routerOk_claimed.
Qed.

Lemma routerOk_unregister label dep r : routerOk r -> routerOk (snd (UnregisterAlias label dep r)).
Proof.
  intros H. unfold UnregisterAlias. destruct (_ || _); [done|]. destruct (claimIndex dep (claimsOf label r)) as [i|] eqn:Ei; [|done].
  destruct (claimIndex_Some _ _ _ Ei) as (c & Ec & _). rewrite Ec. pose proof (routerOk_claims r label H) as Hc.
  assert (Hne : claimsOf label r <> []) by (intros E; by rewrite E in Ec).
  destruct (Z.ltb_spec 1 (ac_n c)); cbn [snd]; apply routerOk_putClaims; try done; [|by apply aliasOk_remove].
  eapply aliasOk_update; [done|exact Ec|done|done|]. cbn. lia.
Qed.

Lemma keyed_removeAt {A} (key : A -> Z) i (l : list A) : keyed key l -> keyed key (removeAt i l).
Proof. intros H. eapply sorted_sublist; [apply removeAt_sublist|exact H]. Qed.

Lemma routerOk_unlocal h r : routerOk r -> routerOk (snd (UnregisterLocal h r)).
Proof.
  intros H. unfold UnregisterLocal. destruct (negb (Valid h)); [done|]. destruct (localIndex _ _) as [i|]; [|done]. cbn [snd].
  split; [apply (ro_aliases r H)| |apply (ro_waiters r H)]. cbn [locals setLocals]. intros sb l Hl.
  assert (Hk : keyed lc_seq (localsOf (h_subject h) r)).
  { unfold localsOf. destruct (locals r !! _) as [l'|] eqn:E; [by eapply ro_locals|constructor]. }
  apply (keyed_removeAt lc_seq i) in Hk. destruct (removeAt i (localsOf (h_subject h) r)) as [|x l'].
  - apply lookup_delete_Some in Hl as [_ Hl]. by eapply ro_locals.
  - apply lookup_insert_Some in Hl as [[<- <-]|[_ Hl]]; [done|by eapply ro_locals].
Qed.

Lemma routerOk_step r o : routerOk r -> routerOk (rstep r o).
Proof.
  intros H. destruct o as [spec|label dep| |host port d|host port d seq|h| |now t|now ch label|label ch|b]; cbn [rstep].
  - unfold Claim. destruct (_ || _) eqn:E; [done|]. apply orb_false_iff in E as [_ E%bytes_eqb_false].
    destruct (negb _); (apply routerOk_claimLocked; [|done]); [destruct (_ <=? _); [|done]|]; by apply routerOk_setSeqNext.
  - by apply routerOk_unregister.
  - split; [done|apply (ro_locals r H)|]. intros lb ws Hw. destruct (ro_waiters r H lb ws Hw). split; [done|]. cbn. by rewrite lookup_empty.
  - unfold RegisterLocal. destruct d; [|done]. destruct (badLocal _ _ _); [done|]. by apply routerOk_publish, routerOk_setSeqNext.
  - unfold RegisterLocalSeq. destruct d; [|done]. destruct (_ || _); [done|]. apply routerOk_publish. destruct (_ <=? _); [by apply routerOk_setSeqNext|done].
  - by apply routerOk_unlocal.
  - split; [apply (ro_aliases r H)|done|apply (ro_waiters r H)].
  - unfold SetRecoveryUntil. destruct (closedWindow now t); split; try apply H. done.
  - unfold AwaitClaim. destruct (recoverUntil r) as [t|]; [|done]. destruct (negb _); [done|]. destruct (claimsOf label r) eqn:Ec; [|done].
    cbn [snd]. split; [apply (ro_aliases r H)|apply (ro_locals r H)|]. intros lb ws. cbn [claimWaiters aliases setWaiters].
    intros [[<- <-]|[_ Hw]]%lookup_insert_Some; [|by apply (ro_waiters r H)]. split; [by destruct (default [] _)|].
    unfold claimsOf in Ec. destruct (aliases r !! label) as [l|] eqn:E; [|done]. destruct (ro_aliases r H _ _ E) as [Hne _]. by destruct l.
  - unfold dropWaiter. set (l := match chanIndex _ _ with Some i => _ | None => _ end).
    split; [apply (ro_aliases r H)|apply (ro_locals r H)|]. cbn [claimWaiters aliases setWaiters]. intros lb ws Hw.
    assert (Hold : forall ws', claimWaiters r !! label = Some ws' -> aliases r !! label = None) by (intros ws' E; by apply (ro_waiters r H) in E as [_ ?]).
    destruct l as [|x l'] eqn:El; [apply lookup_delete_Some in Hw as [_ Hw]; by apply (ro_waiters r H)|].
    apply lookup_insert_Some in Hw as [[<- <-]|[_ Hw]]; [|by apply (ro_waiters r H)]. split; [done|].
    destruct (claimWaiters r !! label) as [ws'|] eqn:E; [by eapply Hold|]. subst l. done.
  - by split; apply H.
Qed.

Lemma routerOk_new rs r : NewRouter rs = Some r -> routerOk r.
Proof. intros H. apply (histOk_new rs r H). Qed.

Lemma routerOk_run rs r ops : NewRouter rs = Some r -> routerOk (foldl rstep r ops).
Proof.
  intros H%routerOk_new. revert r H. induction ops as [|o ops IH]; intros r H; [done|]. by apply IH, routerOk_step.
Qed.

(** Whoever waits for a label waits while nothing claims it, and the claim that comes wakes all who wait and leaves none. *)
Theorem waiters_parked rs r0 ops label ws spec : NewRouter rs = Some r0 -> let r := foldl rstep r0 ops in
  claimWaiters r !! label = Some ws -> Label spec = label -> label <> [] -> Deployment spec <> [] ->
  winnerLocked label r = [] /\
  let '(reg, r', woken) := Claim spec r in
  woken = ws /\ claimWaiters r' !! label = None /\ winnerLocked label r' = Deployment spec /\ Winner reg = Deployment spec /\ reg_Changed reg = true.
Proof.
  intros Hnew r Hw El Hl Hd. pose proof (routerOk_run rs r0 ops Hnew) as H. fold r in H.
  destruct (ro_waiters r H label ws Hw) as [Hws Hnone]. assert (Hc : claimsOf label r = []) by (unfold claimsOf; by rewrite Hnone).
  assert (Hwin : winnerLocked label r = []) by (unfold winnerLocked; by rewrite Hc). split; [done|].
  assert (Hgen : forall spec' r', Label spec' = label -> Deployment spec' = Deployment spec -> routerOk r' -> aliases r' = aliases r -> claimWaiters r' = claimWaiters r ->
    let '(reg, r'', woken) := claimLocked spec' r' in
    woken = ws /\ claimWaiters r'' !! label = None /\ winnerLocked label r'' = Deployment spec /\ Winner reg = Deployment spec /\ reg_Changed reg = true).
  { intros spec' r' El' Ed Hr' Ea Ew. assert (Hc' : claimsOf label r' = []) by (unfold claimsOf; by rewrite Ea, Hnone).
    assert (Hn : newClaim r' spec') by (unfold newClaim; rewrite El', Hc'; by intros ?%elem_of_nil).
    rewrite claimLocked_new by done. rewrite El', Ew, Hw. cbn [default fst snd].
    assert (Ewin : winnerLocked label (claimed spec' r') = Deployment spec).
    { unfold winnerLocked. rewrite claimsOf_claimed, decide_True, Hc' by done. cbn. done. }
    split_and!; [done| |done|done|].
    - cbn. rewrite El'. apply lookup_delete_eq.
    - cbn [reg_Changed]. rewrite Ewin. unfold winnerLocked. rewrite Hc'. cbn. by rewrite bytes_eqb_neq. }
  unfold Claim. rewrite El, !bytes_eqb_neq by done. cbn [orb]. destruct (negb (sp_Seq spec =? 0)).
  - apply Hgen; try done; destruct (_ <=? _); try done. by apply routerOk_setSeqNext.
  - apply Hgen; try done. by apply routerOk_setSeqNext.
Qed.

(** *** Handles *)

Record idsOk (n : Z) (r : Router) : Prop := {
  io_next : 0 <= localIDNext r <= n;
  io_ids : forall subject, NoDup (lc_id <$> localsOf subject r) /\ Forall (fun c => 1 <= lc_id c <= localIDNext r) (localsOf subject r);
}.

Lemma localsOf_set r m subject : localsOf subject (setLocals r m) = default [] (m !! subject).
Proof. done. Qed.

Lemma idsOk_publish n host port d seq r : routerOk r -> idsOk n r -> n + 1 < 2 ^ 64 -> idsOk (n + 1) (snd (publishLocked host port d seq r)).
Proof.
  intros Hr [H1 H2] Hn. unfold publishLocked. cbn [snd]. set (sub := localSubject host port). set (id := w64 (localIDNext r + 1)).
  assert (Eid : id = localIDNext r + 1) by (subst id; unfold w64; apply Z.mod_small; lia).
  assert (Hk : keyed lc_seq (localsOf sub r)).
  { unfold localsOf. destruct (locals r !! _) as [l|] eqn:E; [by eapply ro_locals|constructor]. }
  pose proof (insertAt_search lc_seq (localsOf sub r) (mkLocal d seq id) Hk) as Ei. cbn [lc_seq] in Ei. rewrite Ei.
  split; cbn [localIDNext setLocals setLocalID]; [lia|]. intros sb. rewrite localsOf_set.
  assert (Hmono : forall sb, Forall (fun c => 1 <= lc_id c <= id) (localsOf sb r)).
  { intros sb'. eapply Forall_impl; [apply (H2 sb')|]. intros c Hc. cbv beta in *. lia. }
  destruct (decide (sb = sub)) as [->|]; [rewrite lookup_insert_eq|rewrite lookup_insert_ne by done]; cbn [default].
  - rewrite !insertSeq_perm. cbn [fmap list_fmap lc_id]. split.
    + constructor; [|apply (H2 sub)]. intros (c & Ec & Hc)%list_elem_of_fmap. destruct (H2 sub) as [_ Hf]. rewrite Forall_forall in Hf.
      apply Hf in Hc. cbn [lc_id] in Ec. lia.
    + constructor; [cbn [lc_id]; lia|]. apply Hmono.
  - split; [apply (H2 sb)|apply Hmono].
Qed.

Lemma idsOk_locals n n' r r' : idsOk n r -> n <= n' -> localIDNext r' = localIDNext r -> locals r' = locals r -> idsOk n' r'.
Proof. intros [H1 H2] Hn En El. split; [lia|]. intros sb. unfold localsOf. rewrite En, El. apply (H2 sb). Qed.

Lemma localIndex_spec id l : NoDup (lc_id <$> l) ->
  match localIndex id l with
  | Some i => removeAt i l = filter (fun c => lc_id c <> id) l
  | None => id ∉ lc_id <$> l
  end.
Proof.
  induction l as [|c l IH]; intros Hn; [by intros ?%elem_of_nil|]. cbn in Hn. apply NoDup_cons in Hn as [Hc Hn]. cbn [localIndex].
  assert (Hkeep : forall l : list localClaim, id ∉ lc_id <$> l -> filter (fun c => lc_id c <> id) l = l).
  { clear. induction l as [|c l IH]; [done|]. rewrite fmap_cons. intros [H1 H2]%not_elem_of_cons. rewrite filter_cons_True by auto. by rewrite IH. }
  destruct (Z.eqb_spec (lc_id c) id) as [E|E].
  - unfold removeAt. cbn [take drop app]. rewrite drop_0, filter_cons_False by tauto. symmetry. apply Hkeep. by rewrite <- E.
  - specialize (IH Hn). destruct (localIndex id l) as [i|]; cbn [fmap option_fmap].
    + rewrite filter_cons_True by done. rewrite <- IH. done.
    + cbn. by apply not_elem_of_cons.
Qed.

Lemma unlocal_exact n h r subject : idsOk n r -> Valid h = true ->
  localsOf subject (snd (UnregisterLocal h r)) = filter (fun c => subject <> h_subject h \/ lc_id c <> h_id h) (localsOf subject r).
Proof.
  intros [_ H] Hv. unfold UnregisterLocal. rewrite Hv. cbn [negb]. destruct (H (h_subject h)) as [Hn _].
  pose proof (localIndex_spec (h_id h) _ Hn) as Hi.
  assert (Hall : forall l : list localClaim, (forall c, c ∈ l -> subject <> h_subject h \/ lc_id c <> h_id h) ->
    filter (fun c => subject <> h_subject h \/ lc_id c <> h_id h) l = l).
  { clear. induction l as [|c l IH]; intros Hp; [done|]. rewrite filter_cons_True by (apply Hp; by left). rewrite IH; [done|]. intros x Hx. apply Hp. by right. }
  destruct (localIndex (h_id h) (localsOf (h_subject h) r)) as [i|]; cbn [snd].
  - rewrite localsOf_set. destruct (decide (subject = h_subject h)) as [->|Hne].
    + transitivity (removeAt i (localsOf (h_subject h) r)).
      * destruct (removeAt i _); [by rewrite lookup_delete_eq|by rewrite lookup_insert_eq].
      * rewrite Hi. apply list_filter_iff. tauto.
    + transitivity (localsOf subject r); [|by rewrite Hall; auto].
      destruct (removeAt i _); [by rewrite lookup_delete_ne|by rewrite lookup_insert_ne].
  - rewrite Hall; [done|]. intros c Hc. destruct (decide (subject = h_subject h)) as [->|]; [|by left]. right. intros E. apply Hi. rewrite <- E.
    by apply list_elem_of_fmap_2.
Qed.

Lemma idsOk_step n r o : routerOk r -> idsOk n r -> 0 <= n -> n + 1 < 2 ^ 64 -> idsOk (n + 1) (rstep r o).
Proof.
  intros Hr H Hn0 Hn.
  assert (Hsame : forall r', localIDNext r' = localIDNext r -> locals r' = locals r -> idsOk (n + 1) r') by (intros r' ? ?; eapply idsOk_locals; [exact H|lia|done..]).
  assert (Hpub : forall r' host port d seq, routerOk r' -> localIDNext r' = localIDNext r -> locals r' = locals r ->
    idsOk (n + 1) (snd (publishLocked host port d seq r'))).
  { intros r' host port d seq Hr' E1 E2. apply idsOk_publish; [done| |done]. eapply idsOk_locals; [exact H|lia|done..]. }
  assert (Hclaim : forall spec r', localIDNext (snd (fst (claimLocked spec r'))) = localIDNext r' /\ locals (snd (fst (claimLocked spec r'))) = locals r').
  { intros spec r'. unfold claimLocked, wakeClaimWaitersLocked. destruct (claimIndex _ _); [by destruct (_ !! _)|]. by destruct (default [] _). }
  destruct o as [spec|label dep| |host port d|host port d seq|h| |now t|now ch label|label ch|b]; cbn [rstep]; try (by apply Hsame).
  - unfold Claim. destruct (_ || _); [by apply Hsame|]. destruct (negb _).
    + apply Hsame; rewrite ?(proj1 (Hclaim _ _)), ?(proj2 (Hclaim _ _)); by destruct (_ <=? _).
    + by apply Hsame; rewrite ?(proj1 (Hclaim _ _)), ?(proj2 (Hclaim _ _)).
  - unfold UnregisterAlias. destruct (_ || _); [by apply Hsame|]. destruct (claimIndex _ _); [|by apply Hsame]. destruct (_ !! _); [|by apply Hsame].
    destruct (1 <? _); by apply Hsame.
  - unfold RegisterLocal. destruct d; [|by apply Hsame]. destruct (badLocal _ _ _); [by apply Hsame|]. apply Hpub; [by apply routerOk_setSeqNext|done..].
  - unfold RegisterLocalSeq. destruct d; [|by apply Hsame]. destruct (_ || _); [by apply Hsame|]. destruct (_ <=? _); apply Hpub; try done. by apply routerOk_setSeqNext.
  - destruct (Valid h) eqn:Ev; [|unfold UnregisterLocal; rewrite Ev; by apply Hsame].
    assert (En : localIDNext (snd (UnregisterLocal h r)) = localIDNext r).
    { unfold UnregisterLocal. rewrite Ev. cbn [negb]. by destruct (localIndex _ _). }
    split; rewrite En; [pose proof (io_next _ _ H); lia|]. intros sb. rewrite (unlocal_exact n) by done. destruct (io_ids _ _ H sb) as [H1 H2]. split.
    + eapply sublist_NoDup; [exact H1|]. apply fmap_sublist, sublist_filter.
    + rewrite Forall_forall in *. intros c [_ Hc]%list_elem_of_filter. by apply H2.
  - split; [pose proof (io_next _ _ H); cbn; lia|]. intros sb. split; constructor.
  - unfold SetRecoveryUntil. destruct (closedWindow now t); by apply Hsame.
  - unfold AwaitClaim. destruct (recoverUntil r); [|by apply Hsame]. destruct (negb _); [by apply Hsame|]. destruct (claimsOf label r); by apply Hsame.
Qed.

Lemma idsOk_run ops n r : routerOk r -> idsOk n r -> 0 <= n -> n + Z.of_nat (length ops) < 2 ^ 64 -> idsOk (n + Z.of_nat (length ops)) (foldl rstep r ops).
Proof.
  revert n r. induction ops as [|o ops IH]; intros n r Hr H Hn Hb; cbn [foldl length] in *; [by rewrite Z.add_0_r|].
  replace (n + Z.of_nat (S (length ops))) with (n + 1 + Z.of_nat (length ops)) by lia. apply IH; [by apply routerOk_step|apply idsOk_step; [done..|lia]|lia|lia].
Qed.

(** Withdrawing a published name takes the claim its handle was given for, and no other claim on this or any other name. *)
Theorem local_withdrawal_exact rs r0 ops h subject : NewRouter rs = Some r0 -> Z.of_nat (length ops) < 2 ^ 64 ->
  Valid h = true -> let r := foldl rstep r0 ops in
  localsOf subject (snd (UnregisterLocal h r)) = filter (fun c => subject <> h_subject h \/ lc_id c <> h_id h) (localsOf subject r) /\
  keyed lc_seq (localsOf subject (snd (UnregisterLocal h r))).
Proof.
  intros Hnew Hlen Hv r. assert (H0 : idsOk 0 r0).
  { unfold NewRouter in Hnew. destruct (compileRules rs); [|done]. injection Hnew as <-. split; [cbn; lia|]. intros sb. split; constructor. }
  pose proof (idsOk_run ops 0 r0 (routerOk_new _ _ Hnew) H0 ltac:(lia) ltac:(lia)) as Hi. fold r in Hi.
  split; [by eapply unlocal_exact|].
  pose proof (routerOk_unlocal h r (routerOk_run rs r0 ops Hnew)) as Hr. unfold localsOf. destruct (locals _ !! subject) as [l|] eqn:E; [|constructor].
  by eapply ro_locals.
Qed.

(** ** Examples *)

Definition exRouter : Router := mkRouter [] ∅ 0 ∅ 0 None ∅ true.
Definition web : bytes := go "web".

(** Two projects share a label; the second is recreated, the first leaves. *)
Definition exHistory : list hop :=
  [HReg web (go "a-web") None; HReg web (go "b-web") None; HReg web (go "b-web") None; HUnreg web (go "b-web"); HLocal (go "ui") 80 (Some 1%nat);
   HReg web (go "c-web") None; HUnreg web (go "c-web")].

Lemma alias_winner_history_witness :
  let w := winnerLocked web (hrun exHistory exRouter) in
  w = go "b-web" /\
  ((w = [] /\ forall d, d <> [] -> liveCount web d exHistory = 0) \/
   (w <> [] /\ 0 < liveCount web w exHistory /\
    forall d, d <> [] -> d <> w -> 0 < liveCount web d exHistory -> (liveSince web d exHistory < liveSince web w exHistory)%nat)).
Proof.
  split; [vm_compute; reflexivity|]. apply (alias_winner_history [] exRouter exHistory web); [reflexivity|cbn; lia|done].
Defined.

Definition exSpecA : AliasSpec := mkSpec web (go "a-web") 5 None.
Definition exSpecB : AliasSpec := mkSpec web (go "b-web") 9 (Some 2%nat).

Lemma replay_order_free_witness :
  foldl (fun r s => replay s r) exRouter [exSpecA; exSpecB] = foldl (fun r s => replay s r) exRouter [exSpecB; exSpecA] /\
  winnerLocked web (foldl (fun r s => replay s r) exRouter [exSpecB; exSpecA]) = go "b-web".
Proof.
  split; [|vm_compute; reflexivity]. apply replay_order_free.
  - apply (routerOk_new [] exRouter). reflexivity.
  - apply NoDup_cons. split; [by intros ?%list_elem_of_singleton|apply NoDup_singleton].
  - apply perm_swap.
  - repeat (apply Forall_cons; split); [split|split|constructor]; try (split_and!; [done|done|cbn; lia|cbn; lia]); by intros ?%elem_of_nil.
  - intros a b Ha Hb Hne _. rewrite elem_of_cons, list_elem_of_singleton in Ha, Hb. destruct Ha as [-> | ->], Hb as [-> | ->]; done.
Defined.

(** A host has taken over, somebody asks for a label, and its owner registers it again. *)
Definition exWaiting : list rop := [RRecovery 0 (Some 100); RAwait 1 7%nat web; RAwait 2 8%nat web; RAwait 3 9%nat (go "db"); RDrop (go "db") 9%nat].

Lemma waiters_parked_witness : let r := foldl rstep exRouter exWaiting in
  winnerLocked web r = [] /\
  let '(reg, r', woken) := Claim exSpecA r in
  woken = [7%nat; 8%nat] /\ claimWaiters r' !! web = None /\ winnerLocked web r' = go "a-web" /\ Winner reg = go "a-web" /\ reg_Changed reg = true.
Proof. apply (waiters_parked [] exRouter exWaiting web [7%nat; 8%nat] exSpecA); try done; vm_compute; reflexivity. Defined.

(** Two publishers of one name; the earlier one withdraws. *)
Definition exPublished : list rop := [RLocal (go "ui") 80 (Some 1%nat); RLocal (go "ui") 80 (Some 2%nat)].

Lemma local_withdrawal_exact_witness : let r := foldl rstep exRouter exPublished in
  let h := mkHandle (go "ui:80") 1 in
  lookupLocal (go "ui") 80 (snd (UnregisterLocal h r)) = Some 2%nat /\
  localsOf (go "ui:80") (snd (UnregisterLocal h r)) = filter (fun c => go "ui:80" <> h_subject h \/ lc_id c <> h_id h) (localsOf (go "ui:80") r) /\
  keyed lc_seq (localsOf (go "ui:80") (snd (UnregisterLocal h r))).
Proof.
  split; [vm_compute; reflexivity|]. apply (local_withdrawal_exact [] exRouter exPublished (mkHandle (go "ui:80") 1) (go "ui:80")); [reflexivity|cbn; lia|reflexivity].
Defined.

(** A claim made on a router that took over, before an older claim is replayed into it, is given a
    lower place than the older one: the label goes to the claim that is not the most recent. *)
Lemma takeover_inverts :
  let r := snd (fst (RegisterAlias web (go "new-web") exRouter)) in
  winnerLocked web r = go "new-web" /\ winnerLocked web (replay (mkSpec web (go "old-web") 5 None) r) = go "old-web".
Proof. vm_compute. split; reflexivity. Qed.
