(* ===== verification/Socks5Route.v ===== *)
(** * Routing a connection

    What [Socks5] does with a target. A replacement template means what its sed-style text says
    ([template_meaning]). The everyday router sends published names to
    their listener, names with the suffix and claimed labels to workloads and everything else out
    directly ([split_tunnel]); a client that speaks the protocol is joined to the
    target it named ([connection_served]), and what a rule matches is not dialed directly
    ([matched_stays_inside]). *)
From stdpp Require Import base list gmap strings numbers sorting.
From Stdlib Require Import ZArith Lia.
From Stdlib.Strings Require Import Byte.
From S2P Require Import Prelude GoStd GoNet GoPath GoJson Socks5 Socks5Claims.
Open Scope Z_scope.

(** ** Templates *)

(** A template as sed reads it: a backslash and a digit stand for a group, a backslash and another character for that
    character. *)
Fixpoint sedExpand (m : list (option bytes)) (s : bytes) : bytes :=
  match s with
  | [] => []
  | c :: s' =>
      if bool_decide (c = Byte.x5c) then
        match s' with
        | n :: s'' => (if isDigit n then default [] (default None (m !! Z.to_nat (Z_of_byte n - 48))) else [n]) ++ sedExpand m s''
        | [] => [c]
        end
      else c :: sedExpand m s'
  end.

(** No dollar sign is escaped. *)
Fixpoint plainTemplate (s : bytes) : bool :=
  match s with
  | [] => true
  | c :: s' =>
      if bool_decide (c = Byte.x5c) then match s' with n :: s'' => negb (bool_decide (n = Byte.x24)) && plainTemplate s'' | [] => true end
      else plainTemplate s'
  end.

Lemma expandTemplF_group fuel re m n t : isDigit n = true ->
  expandTemplF (S fuel) re m (go "${" ++ [n] ++ go "}" ++ t) = default [] (default None (m !! Z.to_nat (Z_of_byte n - 48))) ++ expandTemplF fuel re m t.
Proof. intros Hn. destruct n; try discriminate Hn; reflexivity. Qed.

Lemma expandTemplF_dollars fuel re m t : expandTemplF (S fuel) re m (go "$$" ++ t) = Byte.x24 :: expandTemplF fuel re m t.
Proof. reflexivity. Qed.

Lemma expandTemplF_other fuel re m c t : c <> Byte.x24 -> expandTemplF (S fuel) re m (c :: t) = c :: expandTemplF fuel re m t.
Proof. intros Hc. destruct c; try reflexivity. done. Qed.

Lemma expandTemplF_translate re m n s : (length s <= n)%nat -> plainTemplate s = true ->
  forall fuel, (length (translateReplace s) < fuel)%nat -> expandTemplF fuel re m (translateReplace s) = sedExpand m s.
Proof.
  revert s. induction n as [|n IH]; intros [|c s] Hlen Hp fuel Hf; cbn [length] in *; try lia; try (by destruct fuel; [lia|]).
  cbn [translateReplace sedExpand plainTemplate] in *. destruct (decide (c = Byte.x24)) as [->|Hc].
  - rewrite bool_decide_true, bool_decide_false in * by done. rewrite length_app in Hf. cbn in Hf. destruct fuel as [|fuel]; [lia|].
    rewrite expandTemplF_dollars. f_equal. apply IH; [lia|done|lia].
  - rewrite bool_decide_false in Hf |- * by done. destruct (decide (c = Byte.x5c)) as [->|Hb].
    + rewrite bool_decide_true in Hp, Hf |- * by done. destruct s as [|d s]; [cbn in Hf; by destruct fuel as [|[|fuel]]; [lia..|]|]. cbn [length] in Hlen.
      apply andb_true_iff in Hp as [Hd Hp]. apply negb_true_iff, bool_decide_eq_false in Hd. destruct (isDigit d) eqn:Ed.
      * rewrite !length_app in Hf. cbn in Hf. destruct fuel as [|fuel]; [lia|]. rewrite <- !app_assoc, expandTemplF_group by done. f_equal. apply IH; [lia|done|lia].
      * cbn [app length] in *. destruct fuel as [|fuel]; [lia|]. rewrite expandTemplF_other by done. f_equal. apply IH; [lia|done|lia].
    + rewrite bool_decide_false in Hp, Hf |- * by done. cbn [length] in Hf. destruct fuel as [|fuel]; [lia|]. rewrite expandTemplF_other by done.
      f_equal. apply IH; [lia|done|lia].
Qed.

(** Expanding the translated template gives what the sed-style text says, as long as no dollar sign is escaped. *)
Theorem template_meaning re m s : plainTemplate s = true -> Expand re m (translateReplace s) = sedExpand m s.
Proof. intros Hp. apply (expandTemplF_translate re m (length s)); [done|done|lia]. Qed.

Lemma template_meaning_witness :
  plainTemplate (go "\2.$x:\1\\") = true /\
  Expand (mkRegex (fun _ => None) []) [Some (go "all"); Some (go "80"); None] (translateReplace (go "\2.$x:\1\\")) = go ".$x:80\".
Proof.
  split; [reflexivity|]. rewrite (template_meaning (mkRegex (fun _ => None) []) [Some (go "all"); Some (go "80"); None] (go "\2.$x:\1\\")) by reflexivity.
  reflexivity.
Defined.

(** An escaped dollar sign loses its backslash and then is read as the beginning of a reference. *)
Lemma escaped_dollar_expands :
  Expand (mkRegex (fun _ => None) []) [Some (go "all"); Some (go "80")] (translateReplace (go "cost\$1")) = go "cost80" /\
  sedExpand [Some (go "all"); Some (go "80")] (go "cost\$1") = go "cost$1".
Proof. split; vm_compute; reflexivity. Qed.

(** ** Targets *)

Lemma lastColon_none s : Byte.x3a ∉ s -> lastColon s = None.
Proof.
  induction s as [|c s IH]; [done|]. intros [Hc Hs]%not_elem_of_cons. cbn. rewrite IH by done. by rewrite bool_decide_false by auto.
Qed.

Lemma lastColon_app h d : Byte.x3a ∉ d -> lastColon (h ++ Byte.x3a :: d) = Some (h, d).
Proof.
  intros Hd. induction h as [|c h IH]; cbn; [by rewrite lastColon_none|by rewrite IH].
Qed.

Lemma formatInt_port p : 0 <= p -> formatInt p <> [] /\ forallb isDigit (formatInt p) = true /\ Byte.x3a ∉ formatInt p.
Proof.
  intros Hp. destruct (pInt_digits p Hp) as (_ & Hne & Hd). unfold formatInt. rewrite (proj2 (Z.ltb_ge p 0)), Z.abs_eq by lia. split_and!; [done|done|].
  intros H%list_elem_of_In. rewrite forallb_forall in Hd. by apply Hd in H.
Qed.

Lemma splitServicePort_name name p : 0 <= p <= 65535 ->
  splitServicePort (name ++ Byte.x3a :: formatInt p) =
  if bytes_eqb name [] then Err EEmptyService else if p =? 0 then Err (EPortRange 0) else Ok (name, p).
Proof.
  intros Hp. destruct (formatInt_port p ltac:(lia)) as (Hne & Hd & Hc). unfold splitServicePort. rewrite lastColon_app by done.
  destruct (bytes_eqb name []); [done|].
  assert (Ep : parseInt (formatInt p) = Some p).
  { assert (E : parseInt (formatInt p) = parseInt64 (formatInt p)).
    { destruct (formatInt p) as [|c l]; [done|]. cbn [forallb] in Hd. destruct c; try reflexivity. done. }
    rewrite E. apply parseInt64_format. lia. }
  rewrite Ep. destruct (Z.eqb_spec p 0) as [->|]; [done|]. rewrite (proj2 (Z.ltb_ge p 1)), (proj2 (Z.ltb_ge 65535 p)) by lia. done.
Qed.

(** *** The everyday router *)

Definition named (suffix host : bytes) : bool := hasSuffix host suffix && negb (containsByte Byte.x0a (trimSuffix host suffix)).

Definition suffixRules (suffix : bytes) : list compiledRule := [mkCompiled (mkRegex (suffixMatch suffix) [[]; []; []]) (go "${1}:${2}")].

Lemma NewSuffixRouter_rules suffix : suffix <> [] -> utf8Valid suffix = true ->
  NewSuffixRouter suffix = Some (mkRouter (suffixRules suffix) ∅ 0 ∅ 0 None ∅ true).
Proof. intros Hs Hu. unfold NewSuffixRouter. destruct suffix; [done|]. rewrite Hu. reflexivity. Qed.

Lemma firstMatch_suffix suffix host port : 0 <= port ->
  firstMatch (suffixRules suffix) (localSubject host port) =
  if named suffix host then Some (trimSuffix host suffix ++ Byte.x3a :: formatInt port) else None.
Proof.
  intros Hp. destruct (formatInt_port port Hp) as (Hne & Hd & Hc). cbn [firstMatch suffixRules cr_re cr_repl re_match]. unfold localSubject.
  change (go ":") with [Byte.x3a]. cbn [app]. unfold suffixMatch. rewrite lastColon_app by done. rewrite bytes_eqb_neq, Hd by done. cbn [negb andb].
  unfold named. destruct (hasSuffix host suffix && _); [|done]. f_equal. cbn. by rewrite app_nil_r.
Qed.

(** What a label leads to. *)
Definition labelResult (now : Z) (label : bytes) (port : Z) (r : Router) : Result :=
  match last (claimsOf label r) with
  | Some c => KindService (deployment c) port (ac_dialer c)
  | None => if recoveringLocked now r then KindPending label port else KindService label port None
  end.

Definition claimsNamed (r : Router) : Prop := forall label, Forall (fun c => deployment c <> []) (claimsOf label r).

Lemma claimOr_label now label port r : claimsNamed r ->
  (let '(dep, d, recovering) := claimOrRecovering now label r in
   if bytes_eqb dep [] && recovering then KindPending label port else KindService (if bytes_eqb dep [] then label else dep) port d) =
  labelResult now label port r.
Proof.
  intros Hn. unfold claimOrRecovering, labelResult. destruct (last (claimsOf label r)) as [c|] eqn:E.
  - apply last_Some_elem_of in E. specialize (Hn label). rewrite Forall_forall in Hn. apply Hn in E. by rewrite bytes_eqb_neq.
  - rewrite bytes_eqb_refl. cbn [andb]. by destruct (recoveringLocked now r).
Qed.

Lemma rules_step r o : rules (rstep r o) = rules r.
Proof.
  assert (Hclaim : forall spec r', rules (snd (fst (claimLocked spec r'))) = rules r').
  { intros spec r'. unfold claimLocked, wakeClaimWaitersLocked. destruct (claimIndex _ _); [by destruct (_ !! _)|]. by destruct (default [] _). }
  destruct o as [spec|label dep| |host port d|host port d seq|h| |now t|now ch label|label ch|b]; cbn [rstep]; try done.
  - unfold Claim. destruct (_ || _); [done|]. destruct (negb _); rewrite Hclaim; [by destruct (_ <=? _)|done].
  - unfold UnregisterAlias. destruct (_ || _); [done|]. destruct (claimIndex _ _); [|done]. destruct (_ !! _); [|done]. by destruct (1 <? _).
  - unfold RegisterLocal. destruct d; [|done]. by destruct (badLocal _ _ _).
  - unfold RegisterLocalSeq. destruct d; [|done]. destruct (_ || _); [done|]. by destruct (_ <=? _).
  - unfold UnregisterLocal. destruct (negb _); [done|]. by destruct (localIndex _ _).
  - unfold SetRecoveryUntil. by destruct (closedWindow now t).
  - unfold AwaitClaim. destruct (recoverUntil r); [|done]. destruct (negb _); [done|]. by destruct (claimsOf label r).
Qed.

Lemma rules_run r ops : rules (foldl rstep r ops) = rules r.
Proof. revert r. induction ops as [|o ops IH]; intros r; [done|]. cbn. by rewrite IH, rules_step. Qed.

Lemma routerOk_named r : routerOk r -> claimsNamed r.
Proof. intros H label. eapply Forall_impl; [apply (al_live _ (routerOk_claims r label H))|]. by intros c [? _]. Qed.

(** The router of a suffix after any operations. *)
Lemma suffix_run suffix r0 ops : suffix <> [] -> utf8Valid suffix = true -> NewSuffixRouter suffix = Some r0 ->
  let r := foldl rstep r0 ops in rules r = suffixRules suffix /\ claimsNamed r.
Proof.
  intros Hs Hu Hnew r. split.
  - subst r. rewrite rules_run. rewrite NewSuffixRouter_rules in Hnew by done. by injection Hnew as <-.
  - apply routerOk_named. eapply routerOk_run. exact Hnew.
Qed.

(** What a bare name leads to. *)
Definition bareResult (now : Z) (host : bytes) (port : Z) (r : Router) : Result :=
  if bareServiceNames r then
    match last (claimsOf host r) with
    | Some c => KindService (deployment c) port (ac_dialer c)
    | None => if recoveringLocked now r && isBareLabel host then KindPending host port else KindDirect
    end
  else KindDirect.

Lemma Resolve_suffix suffix r now host port : rules r = suffixRules suffix -> claimsNamed r -> 0 <= port <= 65535 ->
  route_Resolve now host port r =
  match lookupLocal host port r with
  | Some d => Ok (KindLocal d)
  | None =>
      if named suffix host then
        let name := trimSuffix host suffix in
        if bytes_eqb name [] then Err EEmptyService else if port =? 0 then Err (EPortRange 0) else Ok (labelResult now name port r)
      else Ok (bareResult now host port r)
  end.
Proof.
  intros Hr Hn Hp. unfold route_Resolve. destruct (lookupLocal host port r); [done|]. rewrite Hr, firstMatch_suffix by lia.
  destruct (named suffix host).
  - rewrite splitServicePort_name by done. destruct (bytes_eqb _ []); [done|]. destruct (port =? 0); [done|]. cbn zeta.
    pose proof (claimOr_label now (trimSuffix host suffix) port r Hn) as E. destruct (claimOrRecovering _ _ _) as [[dep d] rec].
    rewrite <- E. by destruct (bytes_eqb dep [] && rec).
  - unfold bareResult. destruct (bareServiceNames r); [|done]. unfold claimOrRecovering. destruct (last (claimsOf host r)) as [c|] eqn:E.
    + apply last_Some_elem_of in E. specialize (Hn host). rewrite Forall_forall in Hn. apply Hn in E. by rewrite bytes_eqb_neq.
    + rewrite bytes_eqb_refl. cbn [negb]. by destruct (recoveringLocked now r && isBareLabel host).
Qed.

Lemma named_app suffix name : Byte.x0a ∉ name -> named suffix (name ++ suffix) = true /\ trimSuffix (name ++ suffix) suffix = name.
Proof.
  intros Hn. rewrite trimSuffix_app. split; [|done]. unfold named. rewrite trimSuffix_app, (proj2 (hasSuffix_spec _ _)) by (by exists name). cbn.
  apply negb_true_iff, not_true_iff_false. unfold containsByte. rewrite existsb_exists. intros (c & Hc%list_elem_of_In & E%bool_decide_eq_true). by subst.
Qed.

(** Whatever has been registered, of the targets that are no published name: those with the suffix go to the workload
    that has the label, or wait for it while a new host recovers; a bare name goes in
    when it is claimed; everything else goes out. *)
Theorem split_tunnel suffix r0 ops now host port : suffix <> [] -> utf8Valid suffix = true -> NewSuffixRouter suffix = Some r0 ->
  let r := foldl rstep r0 ops in
  1 <= port <= 65535 -> lookupLocal host port r = None ->
  (forall name, host = name ++ suffix -> name <> [] -> Byte.x0a ∉ name -> route_Resolve now host port r = Ok (labelResult now name port r)) /\
  ((forall name, host <> name ++ suffix) -> route_Resolve now host port r = Ok (bareResult now host port r)) /\
  (host = suffix -> route_Resolve now host port r = Err EEmptyService).
Proof.
  intros Hs Hu Hnew r Hp Hloc. destruct (suffix_run suffix r0 ops Hs Hu Hnew) as [Hr Hn]. fold r in Hr, Hn.
  rewrite (Resolve_suffix suffix) by (done || lia). rewrite Hloc. split_and!.
  - intros name -> Hne Hnl. destruct (named_app suffix name Hnl) as [-> ->]. cbn zeta. rewrite bytes_eqb_neq, (proj2 (Z.eqb_neq port 0)) by (done || lia). done.
  - intros Hno. assert (E : named suffix host = false); [|by rewrite E]. unfold named. destruct (hasSuffix host suffix) eqn:E; [|done].
    apply hasSuffix_spec in E as [t ->]. by destruct (Hno t).
  - intros ->. destruct (named_app suffix []) as [E1 E2]; [by intros ?%elem_of_nil|]. cbn [app] in *. by rewrite E1, E2.
Qed.

(** ** Connections *)

(** What a client sends. *)
Definition greeting (methods : bytes) : bytes := socksVersion :: byte_of_Z (blen methods) :: methods.
Definition requestOf (atyp : byte) (addr : bytes) (port : Z) : bytes := [socksVersion; cmdConnect; Byte.x00; atyp] ++ addr ++ be_put 2 port.

Inductive target : Type := TDomain (name : bytes) | TIPv4 (b : bytes) | TIPv6 (b : bytes).

Definition encodeTarget (t : target) (port : Z) : bytes :=
  match t with
  | TDomain name => requestOf atypDomain (byte_of_Z (blen name) :: name) port
  | TIPv4 b => requestOf atypIPv4 b port
  | TIPv6 b => requestOf atypIPv6 b port
  end.

Definition targetHost (t : target) : bytes := match t with TDomain name => name | TIPv4 b | TIPv6 b => ipString b end.

Definition wfTarget (t : target) : Prop :=
  match t with
  | TDomain name => 1 <= blen name <= 255
  | TIPv4 b => length b = 4%nat
  | TIPv6 b => length b = 16%nat
  end.

Lemma sockRead_exact a b : sockRead (length a) (a ++ b) = Some (a, b).
Proof.
  unfold sockRead. rewrite length_app, (proj2 (Nat.ltb_ge _ _)) by lia. by rewrite take_app_length, drop_app_length.
Qed.

Lemma sockRead_len n a b : length a = n -> sockRead n (a ++ b) = Some (a, b).
Proof. intros <-. apply sockRead_exact. Qed.

Lemma len_byte (l : bytes) : blen l <= 255 -> Z.to_nat (Z_of_byte (byte_of_Z (blen l))) = length l.
Proof. intros H. unfold blen in *. rewrite Z_of_byte_of_Z, Z.mod_small by lia. lia. Qed.

Lemma handshake_ok methods rest : blen methods <= 255 -> methodNoAuth ∈ methods ->
  serveHandshake true (greeting methods ++ rest) = ([socksVersion; methodNoAuth], Some rest).
Proof.
  intros Hl Hm. unfold serveHandshake, greeting.
  change ((socksVersion :: byte_of_Z (blen methods) :: methods) ++ rest) with ([socksVersion; byte_of_Z (blen methods)] ++ methods ++ rest).
  rewrite (sockRead_len 2) by done. cbn iota. rewrite bool_decide_true by done. cbn [negb]. rewrite len_byte, sockRead_exact by done.
  assert (E : existsb (fun m => bool_decide (m = methodNoAuth)) methods = true); [|by rewrite E].
  apply existsb_exists. exists methodNoAuth. split; [by apply list_elem_of_In|by apply bool_decide_eq_true].
Qed.

Lemma be_get_port p : 0 <= p <= 65535 -> be_get (be_put 2 p) = p.
Proof. intros Hp. apply be_get_put. lia. Qed.

(** The host is read back from each form of address. *)
Lemma readHost_ok t port rest : wfTarget t -> exists atyp body,
  encodeTarget t port = [socksVersion; cmdConnect; Byte.x00; atyp] ++ body ++ be_put 2 port /\
  readHost atyp (body ++ rest) = Some (Some (targetHost t, rest)).
Proof.
  intros Hw. destruct t as [name|b|b]; cbn in Hw.
  - exists atypDomain, (byte_of_Z (blen name) :: name). split; [done|]. unfold readHost. rewrite !bool_decide_false, bool_decide_true by done.
    change ((byte_of_Z (blen name) :: name) ++ rest) with ([byte_of_Z (blen name)] ++ name ++ rest). rewrite (sockRead_len 1) by done.
    cbn [mbind option_bind]. assert (E : be_get [byte_of_Z (blen name)] = Z_of_byte (byte_of_Z (blen name))) by (unfold be_get; cbn; lia).
    rewrite E, len_byte, sockRead_exact by lia. done.
  - exists atypIPv4, b. split; [done|]. unfold readHost. rewrite bool_decide_true by done. by rewrite (sockRead_len 4).
  - exists atypIPv6, b. split; [done|]. unfold readHost. rewrite bool_decide_false, bool_decide_true by done. by rewrite (sockRead_len 16).
Qed.

(** A client that offers the method without authentication and asks for a target is understood: the
    proxy agrees, and connects to the host and port it was asked for. *)
Theorem request_understood env methods t port rest : blen methods <= 255 -> methodNoAuth ∈ methods -> wfTarget t -> 0 <= port <= 65535 ->
  e_write env = true -> targetHost t <> [] ->
  handle env (greeting methods ++ encodeTarget t port ++ rest) = Wrote [socksVersion; methodNoAuth] :: connect env (targetHost t) port.
Proof.
  intros Hl Hm Hw Hp Hok Hne. unfold handle. rewrite Hok, handshake_ok by done. cbn [wrote app]. f_equal.
  destruct (readHost_ok t port (be_put 2 port ++ rest) Hw) as (atyp & body & E & Hh). rewrite E. unfold readConnect.
  rewrite <- !app_assoc, (sockRead_len 4) by done. cbn iota. rewrite !bool_decide_true by done. cbn [negb]. rewrite Hh.
  rewrite (sockRead_len 2) by apply length_be_put. cbn [app wrote]. rewrite be_get_port by done. by rewrite bytes_eqb_neq.
Qed.

(** *** What a rule matches stays inside *)

Lemma Resolve_matched now host port r out : firstMatch (rules r) (localSubject host port) = Some out -> route_Resolve now host port r <> Ok KindDirect.
Proof.
  intros E. unfold route_Resolve. destruct (lookupLocal host port r); [done|]. rewrite E. destruct (splitServicePort out) as [[svc p]|]; [|done].
  destruct (claimOrRecovering now svc r) as [[dep d] rec]. by destruct (bytes_eqb dep [] && rec).
Qed.

(** C24. A target a rule matches is never dialed directly, whatever is registered or withdrawn before and during the connection,
    provided that after a wait its label is not waited for still. *)
Theorem matched_stays_inside rs r0 ops ops' env host port addr out : NewRouter rs = Some r0 ->
  e_router env = foldl rstep r0 ops -> e_router2 env = foldl rstep (e_router env) ops' ->
  firstMatch (rules r0) (localSubject host port) = Some out ->
  (forall l p, route_Resolve (e_now2 env) host port (e_router2 env) <> Ok (KindPending l p)) ->
  DialedDirect addr ∉ connect env host port.
Proof.
  intros Hnew E1 E2 Hm Hnp. assert (Hm1 : firstMatch (rules (e_router env)) (localSubject host port) = Some out) by (by rewrite E1, rules_run).
  assert (Hm2 : firstMatch (rules (e_router2 env)) (localSubject host port) = Some out) by (by rewrite E2, rules_run).
  pose proof (Resolve_matched (e_now env) _ _ _ _ Hm1) as N1. pose proof (Resolve_matched (e_now2 env) _ _ _ _ Hm2) as N2.
  unfold connect. destruct (route_Resolve (e_now env) host port (e_router env)) as [r1|e1]; cbn [mbind res_bind]; [|by intros ?%list_elem_of_singleton].
  assert (Hr : match awaited env host port r1 with Ok KindDirect | Ok (KindPending _ _) => False | _ => True end).
  { unfold awaited. destruct r1; try done. destruct (route_Resolve (e_now2 env) host port (e_router2 env)) as [[| | |l p]|]; try done. by destruct (Hnp l p). }
  destruct (awaited env host port r1) as [r|e]; [|by intros ?%list_elem_of_singleton].
  intros H. apply elem_of_cons in H as [H|H]; [by destruct r|].
  destruct (negb (e_dial env)); [by apply list_elem_of_singleton in H|]. destruct (negb (e_track env)); [by apply elem_of_nil in H|].
  apply elem_of_cons in H as [H|H]; [done|]. destruct (e_reply env); [by apply list_elem_of_singleton in H|by apply elem_of_nil in H].
Qed.

(** ** Examples *)

Definition exSuffixRouter : Router := default exRouter (NewSuffixRouter DefaultSuffix).
Definition exRouteOps : list rop := [RClaim (mkSpec web (go "demo-web") 0 (Some 3%nat)); RLocal (go "ui") 80 (Some 4%nat)].
Definition exHost : bytes := go "web.cornus.internal".

Lemma split_tunnel_witness : let r := foldl rstep exSuffixRouter exRouteOps in
  route_Resolve 0 exHost 80 r = Ok (KindService (go "demo-web") 80 (Some 3%nat)) /\
  route_Resolve 0 (go "example.org") 443 r = Ok KindDirect /\
  ((forall name, exHost = name ++ DefaultSuffix -> name <> [] -> Byte.x0a ∉ name -> route_Resolve 0 exHost 80 r = Ok (labelResult 0 name 80 r)) /\
   ((forall name, exHost <> name ++ DefaultSuffix) -> route_Resolve 0 exHost 80 r = Ok (bareResult 0 exHost 80 r)) /\
   (exHost = DefaultSuffix -> route_Resolve 0 exHost 80 r = Err EEmptyService)).
Proof.
  split; [vm_compute; reflexivity|]. split; [vm_compute; reflexivity|].
  apply (split_tunnel DefaultSuffix exSuffixRouter exRouteOps 0 exHost 80); [done|vm_compute; reflexivity|vm_compute; reflexivity|lia|vm_compute; reflexivity].
Defined.

Definition exEnv (r r2 : Router) (claimed : bool) (now now2 : Z) : connEnv := mkEnv r now claimed r2 now2 1%nat true true true true.

Lemma request_understood_witness :
  let env := exEnv (foldl rstep exSuffixRouter exRouteOps) exRouter false 0 0 in
  handle env (greeting [Byte.x02; Byte.x00] ++ encodeTarget (TDomain exHost) 80 ++ go "GET /") =
    Wrote [socksVersion; methodNoAuth] :: connect env exHost 80 /\
  connect env exHost 80 = [DialedService 3 (go "demo-web") 80; Wrote (writeReply repSucceeded); Joined].
Proof.
  split; [|vm_compute; reflexivity].
  apply (request_understood (exEnv (foldl rstep exSuffixRouter exRouteOps) exRouter false 0 0) [Byte.x02; Byte.x00] (TDomain exHost) 80 (go "GET /"));
    [by vm_compute|right; by left|by vm_compute|lia|done|done].
Defined.

(** A connection that waited for its label and found it claimed. *)
Definition exRecovering : Router := foldl rstep exSuffixRouter [RRecovery 0 (Some 100)].
Definition exRecovered : Router := foldl rstep exRecovering [RClaim (mkSpec web (go "demo-web") 0 None)].

Lemma matched_stays_inside_witness :
  connect (exEnv exRecovering exRecovered true 1 2) exHost 80 = [DialedService 1 (go "demo-web") 80; Wrote (writeReply repSucceeded); Joined] /\
  DialedDirect (go "web.cornus.internal:80") ∉ connect (exEnv exRecovering exRecovered true 1 2) exHost 80.
Proof.
  split; [vm_compute; reflexivity|].
  apply (matched_stays_inside [mkRule (Some (mkRegex (suffixMatch DefaultSuffix) [[]; []; []])) (go "\1:\2")] exSuffixRouter
    [RRecovery 0 (Some 100)] [RClaim (mkSpec web (go "demo-web") 0 None)] (exEnv exRecovering exRecovered true 1 2) exHost 80 _ (go "web:80"));
    [reflexivity|reflexivity|reflexivity|vm_compute; reflexivity|]. intros l p. vm_compute. discriminate.
Defined.

(** When the window was extended during the wait, or the claim that ended it was withdrawn at once, the name with the suffix is
    looked up in public. *)
Lemma pending_leaks :
  let leaked := [DialedDirect (go "web.cornus.internal:80"); Wrote (writeReply repSucceeded); Joined] in
  connect (exEnv exRecovering (foldl rstep exRecovering [RRecovery 50 (Some 200)]) false 1 100) exHost 80 = leaked /\
  connect (exEnv exRecovering (foldl rstep exRecovered [RUnregister web (go "demo-web")]) true 1 2) exHost 80 = leaked.
Proof. vm_compute. split; reflexivity. Qed.
