(* ===== verification/Ingress.v ===== *)
(** * Ingress front door: vocabulary, routing table, manager

    pkg/ingressroute, pkg/ingressmux, the ingress part of pkg/api/deploy.go, and
    pkg/server/ingress.go.

    - [SanitizeDNS1123], [CanonicalHost], [PathMatches], [ing_Resolve], [ing_Route]: which
      hosts, path and port an ingress asks for.
    - [Table]: the live routes by deployment, the index by host rebuilt from them, and
      the aliases of public tunnels. Go iterates over a map in any order, so whatever
      rebuilds the index takes the order [ord].
    - [ingressManager] with the directory its routes are kept in: [ing_apply] and
      [ing_remove] are the critical sections and system calls they make, in order, so
      that they can be interleaved; [recStep] is one step of the recovery after a restart.

    [strings.ToLower] on a rune above 127 is a table of the Unicode package: a parameter
    nothing is assumed about. Kubernetes fields of an ingress, log messages and the proxied
    bytes are left out. *)
From stdpp Require Import base list gmap strings numbers sorting.
From Stdlib Require Import ZArith Lia.
From Stdlib.Strings Require Import Byte.
From S2P Require Import Prelude GoStd GoNet GoPath GoJson GoUnicode Activity.
Open Scope Z_scope.
Set Warnings "-register-all".

(** ** Strings *)

Definition dash : byte := Byte.x2d.
Definition isDash (c : byte) : bool := bool_decide (c = dash).
Definition isSlash (c : byte) : bool := bool_decide (c = slash).

Section Strings.
  Context `{UC : UnicodeCase}.

Definition dnsRune (r : Z) : bool :=
  ((97 <=? r) && (r <=? 122)) || ((48 <=? r) && (r <=? 57)) || (r =? 45).

Definition SanitizeDNS1123 (s : bytes) : bytes :=
  trimFunc isDash (concat (map (fun g => let r := fst (decodeRune g) in if dnsRune r then encodeRune r else [dash])
                               (runes (ToLower s)))).

Definition SanitizeSubdomain (s : bytes) : bytes :=
  join (go ".") (filter (fun l => l <> []) (map SanitizeDNS1123 (split Byte.x2e s))).

Definition CanonicalHost (host : bytes) : bytes := trimSuffix (ToLower (trimSpace host)) (go ".").

Definition WithinDomain (host domain : bytes) : bool :=
  let domain := CanonicalHost domain in
  if bytes_eqb domain [] then true
  else let host := CanonicalHost host in bytes_eqb host domain || hasSuffix host (go "." ++ domain).

Definition envBool (v : bytes) : bool :=
  let v := ToLower (trimSpace v) in
  bytes_eqb v (go "1") || bytes_eqb v (go "true") || bytes_eqb v (go "yes") || bytes_eqb v (go "on").

End Strings.

(** [strings.TrimRight(path, "/")] *)
Definition trimSlashes (path : bytes) : bytes := rev (trimLeft isSlash (rev path)).

Definition PathMatches (path pathType req : bytes) : bool :=
  if bytes_eqb path [] || bytes_eqb path (go "/") then true
  else
    let path := trimSlashes path in
    if bytes_eqb pathType (go "Exact") then bytes_eqb req path
    else bytes_eqb req path || hasPrefix req (path ++ go "/").

Definition MatchLen (path : bytes) : Z := blen (trimSlashes path).

(** ** The ingress of a deployment *)

Record IngressTunnelOpt := mkTunnelOpt { tun_Enabled : bool; tun_HostMode : bytes; tun_Host : bytes }.

Record IngressTLS := mkIngressTLS { SecretName : bytes; ClusterIssuer : bytes }.

Record IngressSpec := mkIngressSpec {
  ing_Enabled : bool;
  ing_Hosts : list bytes;
  ing_Domain : bytes;
  ing_Subdomain : bytes;
  ing_Path : bytes;
  ing_PathType : bytes;
  ing_Port : Z;
  ing_TLS : option IngressTLS;
  ClientEmulated : bool;
  ing_Tunnel : option IngressTunnelOpt;
}.

Record PortMapping := mkPortMapping { pm_Host : Z; pm_Container : Z; pm_Protocol : bytes; pm_HostIP : bytes }.

(** The part of a deployment's description the front door reads. *)
Record DeploySpec := mkDeploySpec { spec_Name : bytes; spec_Ports : list PortMapping; spec_Ingress : option IngressSpec }.

Record IngressRoute := mkIngressRoute {
  rt_Workload : bytes;
  rt_Hosts : list bytes;
  rt_Path : bytes;
  rt_PathType : bytes;
  rt_TargetPort : Z;
  rt_TLS : bool;
}.

Definition zeroIngressRoute : IngressRoute := mkIngressRoute [] [] [] [] 0 false.

Record Defaults := mkDefaults { def_Domain : bytes; def_Class : bytes; def_TLSIssuer : bytes; EnforceDomain : bool }.

Inductive ingressError : Type :=
| ErrTunnelMode (mode : bytes)
| ErrHostName (h : bytes)
| ErrDomainName (d : bytes)
| ErrPathType (t : bytes)
| ErrNegativePort (p : Z)
| ErrNoPublishedPort
| ErrApexNoDomain
| ErrNoHost
| ErrNoLabel (name : bytes)
| ErrDomainPolicy (host : bytes)
| ErrPortUnpublished (p : Z).

Definition HostModes : list bytes := [go "auto"; go "passthrough"; go "alias"; go "rewrite"].

Definition tunnelOpt_Validate (t : option IngressTunnelOpt) : res ingressError () :=
  match t with
  | None => Ok ()
  | Some t => if bool_decide (tun_HostMode t ∈ [] :: HostModes) then Ok () else Err (ErrTunnelMode (tun_HostMode t))
  end.

Definition dnsByte (c : byte) : bool :=
  let v := Z_of_byte c in
  ((97 <=? v) && (v <=? 122)) || ((65 <=? v) && (v <=? 90)) || ((48 <=? v) && (v <=? 57)) || (v =? 45).

Definition dnsLabel (label : bytes) : bool :=
  negb ((blen label =? 0) || (63 <? blen label)) &&
  negb (bool_decide (head label = Some dash) || bool_decide (last label = Some dash)) &&
  forallb dnsByte label.

Definition isDNSName (s : bytes) : bool :=
  negb ((blen s =? 0) || (253 <? blen s)) && forallb dnsLabel (split Byte.x2e s).

Fixpoint validateHosts (hs : list bytes) : res ingressError () :=
  match hs with
  | [] => Ok ()
  | h :: hs =>
      let h := trimSpace h in
      if bytes_eqb h (go "@") then validateHosts hs
      else if negb (isDNSName h) then Err (ErrHostName h) else validateHosts hs
  end.

Definition ing_Validate (i : IngressSpec) : res ingressError () :=
  tunnelOpt_Validate (ing_Tunnel i) ≫= fun _ =>
  validateHosts (ing_Hosts i) ≫= fun _ =>
  let d := trimSpace (ing_Domain i) in
  if negb (bytes_eqb d []) && negb (isDNSName d) then Err (ErrDomainName (ing_Domain i))
  else if negb (bytes_eqb (ing_PathType i) []) &&
          negb (bool_decide (ing_PathType i ∈ [go "Prefix"; go "Exact"; go "ImplementationSpecific"]))
       then Err (ErrPathType (ing_PathType i))
  else if ing_Port i <? 0 then Err (ErrNegativePort (ing_Port i))
  else Ok ().

Definition ingressEnabled (i : option IngressSpec) : bool :=
  match i with
  | None => false
  | Some i => negb (ClientEmulated i) && (ing_Enabled i || (0 <? blen (ing_Hosts i)))
  end.

(** ** Resolution *)

Section Resolve.
  Context `{UC : UnicodeCase}.

(** [DefaultsFromEnv]; [getenv] is [os.Getenv]. *)
Definition DefaultsFromEnv (getenv : bytes -> bytes) : Defaults :=
  mkDefaults (trimSpace (getenv (go "CORNUS_INGRESS_DOMAIN"))) (trimSpace (getenv (go "CORNUS_INGRESS_CLASS")))
             (trimSpace (getenv (go "CORNUS_INGRESS_TLS_ISSUER"))) (envBool (getenv (go "CORNUS_INGRESS_ENFORCE_DOMAIN"))).

(** The hosts the ingress names itself. *)
Fixpoint explicitHosts (domain : bytes) (hs : list bytes) : res ingressError (list bytes) :=
  match hs with
  | [] => Ok []
  | h :: hs =>
      let h := trimSpace h in
      if bytes_eqb h [] then explicitHosts domain hs
      else if bytes_eqb h (go "@") then
        if bytes_eqb domain [] then Err ErrApexNoDomain
        else explicitHosts domain hs ≫= fun l => Ok (CanonicalHost domain :: l)
      else explicitHosts domain hs ≫= fun l => Ok (CanonicalHost h :: l)
  end.

(** The host derived when it names none. *)
Definition derivedHost (i : IngressSpec) (name domain : bytes) : res ingressError (list bytes) :=
  if bytes_eqb domain [] then Err ErrNoHost
  else
    let sub := trimSpace (ing_Subdomain i) in
    let sub := if bytes_eqb sub [] then name else sub in
    let sub := SanitizeSubdomain sub in
    if bytes_eqb sub [] then Err (ErrNoLabel name)
    else Ok [CanonicalHost (sub ++ go "." ++ domain)].

Fixpoint enforceDomain (domain : bytes) (hosts : list bytes) : res ingressError () :=
  match hosts with
  | [] => Ok ()
  | h :: hosts => if negb (WithinDomain h domain) then Err (ErrDomainPolicy h) else enforceDomain domain hosts
  end.

Definition targetPort (i : IngressSpec) (ports : list PortMapping) (first : Z) : res ingressError Z :=
  if ing_Port i =? 0 then Ok first
  else if existsb (fun p => pm_Container p =? ing_Port i) ports then Ok (ing_Port i)
  else Err (ErrPortUnpublished (ing_Port i)).

Definition ing_Resolve (i : IngressSpec) (ports : list PortMapping) (name : bytes) (def : Defaults)
    : res ingressError (list bytes * Z) :=
  ing_Validate i ≫= fun _ =>
  match ports with
  | [] => Err ErrNoPublishedPort
  | p0 :: _ =>
      let domain := trimSpace (ing_Domain i) in
      let domain := if bytes_eqb domain [] then def_Domain def else domain in
      explicitHosts domain (ing_Hosts i) ≫= fun hosts =>
      (if (length hosts =? 0)%nat then derivedHost i name domain else Ok hosts) ≫= fun hosts =>
      (if EnforceDomain def && negb (bytes_eqb (def_Domain def) []) then enforceDomain (def_Domain def) hosts else Ok ())
        ≫= fun _ =>
      targetPort i ports (pm_Container p0) ≫= fun target => Ok (hosts, target)
  end.

Definition ing_Route (i : IngressSpec) (ports : list PortMapping) (name : bytes) (def : Defaults)
    : res ingressError IngressRoute :=
  ing_Resolve i ports name def ≫= fun '(hosts, target) =>
  Ok (mkIngressRoute name hosts (ing_Path i) (ing_PathType i) target (match ing_TLS i with Some _ => true | None => false end)).

End Resolve.

(** ** The routing table *)

Record Table := mkTable {
  byWorkload : gmap bytes (list IngressRoute);
  byHost : gmap bytes (list IngressRoute);
  aliases : gmap bytes bytes;
}.

Definition NewTable : Table := mkTable ∅ ∅ ∅.

Definition addHost (r : IngressRoute) (m : gmap bytes (list IngressRoute)) (h : bytes) : gmap bytes (list IngressRoute) :=
  <[h := default [] (m !! h) ++ [r]]> m.

Definition addRoute (m : gmap bytes (list IngressRoute)) (r : IngressRoute) : gmap bytes (list IngressRoute) :=
  fold_left (addHost r) (rt_Hosts r) m.

(** The index built by going through the deployments in the order [ord]. *)
Definition reindexLocked (ord : list bytes) (t : Table) : Table :=
  mkTable (byWorkload t)
          (fold_left (fun m w => fold_left addRoute (default [] (byWorkload t !! w)) m) ord ∅)
          (aliases t).

Section Table.
  Context `{UC : UnicodeCase}.

Definition normalizeRoute (workload : bytes) (r : IngressRoute) : option IngressRoute :=
  match filter (fun h => h <> []) (map CanonicalHost (rt_Hosts r)) with
  | [] => None
  | hosts => Some (mkIngressRoute workload hosts (rt_Path r) (rt_PathType r) (rt_TargetPort r) (rt_TLS r))
  end.

(** What [Set] does to the routes by deployment. *)
Definition setRoutes (workload : bytes) (routes : list IngressRoute) (m : gmap bytes (list IngressRoute))
    : gmap bytes (list IngressRoute) :=
  if (length routes =? 0)%nat then delete workload m
  else
    let normalized := omap (normalizeRoute workload) routes in
    if (length normalized =? 0)%nat then delete workload m else <[workload := normalized]> m.

Definition table_Set (ord : list bytes) (workload : bytes) (routes : list IngressRoute) (t : Table) : Table :=
  reindexLocked ord (mkTable (setRoutes workload routes (byWorkload t)) (byHost t) (aliases t)).

Definition table_Remove (ord : list bytes) (workload : bytes) (t : Table) : Table :=
  reindexLocked ord (mkTable (delete workload (byWorkload t)) (byHost t) (aliases t)).

Definition HostAlias (alias target : bytes) (t : Table) : Table :=
  let alias := CanonicalHost alias in
  if bytes_eqb alias [] then t
  else
    let target := CanonicalHost target in
    if bytes_eqb target [] then mkTable (byWorkload t) (byHost t) (delete alias (aliases t))
    else mkTable (byWorkload t) (byHost t) (<[alias := target]> (aliases t)).

Definition table_Hosts (t : Table) : list bytes := sortStrings (map fst (map_to_list (byHost t))).

Definition table_HostsFor (t : Table) (workload : bytes) : list bytes :=
  sortStrings (remove_dups (concat (map rt_Hosts (default [] (byWorkload t !! workload))))).

Definition table_Workloads (t : Table) : list bytes := sortStrings (map fst (map_to_list (byWorkload t))).

Definition table_Has (t : Table) (workload : bytes) : bool := 0 <? blen (default [] (byWorkload t !! workload)).

Definition table_Empty (t : Table) : bool := bool_decide (byWorkload t = ∅).

Definition isBracket (c : byte) : bool := bool_decide (c = Byte.x5b \/ c = Byte.x5d).

Definition stripPort (host : bytes) : bytes :=
  trimFunc isBracket (match SplitHostPort host with Some (h, _) => h | None => host end).

(** One rule against the best so far. *)
Definition better (path : bytes) (st : IngressRoute * Z * bool) (r : IngressRoute) : IngressRoute * Z * bool :=
  let '(route, best, ok) := st in
  if negb (PathMatches (rt_Path r) (rt_PathType r) path) then st
  else
    let l := MatchLen (rt_Path r) in
    if best <? l then (r, l, true)
    else if (l =? best) && bytes_eqb (rt_PathType r) (go "Exact") && negb (bytes_eqb (rt_PathType route) (go "Exact"))
         then (r, best, ok)
    else st.

Definition rulesFor (t : Table) (host : bytes) : option (list IngressRoute) :=
  match byHost t !! host with
  | Some rules => Some rules
  | None => target ← aliases t !! host; byHost t !! target
  end.

Definition table_Lookup (t : Table) (host path : bytes) : IngressRoute * bool * bool :=
  match rulesFor t (CanonicalHost (stripPort host)) with
  | None => (zeroIngressRoute, false, false)
  | Some rules => let '(route, _, ok) := fold_left (better path) rules (zeroIngressRoute, -1, false) in (route, true, ok)
  end.

(** What the proxy does with a request: two answers of its own, or a connection to a port of a deployment. *)
Inductive frontAnswer : Type :=
| Misdirected
| NotFound
| ForwardTo (workload : bytes) (port : Z).

Definition proxy_ServeHTTP (t : Table) (host path : bytes) : frontAnswer :=
  let '(route, hostKnown, ok) := table_Lookup t host path in
  if negb hostKnown then Misdirected
  else if negb ok then NotFound
  else ForwardTo (rt_Workload route) (rt_TargetPort route).

End Table.

(** ** Routes as JSON *)

Definition routeJson (r : IngressRoute) : json :=
  JObj ([(go "workload", JStr (rt_Workload r)); (go "hosts", JArr (map JStr (rt_Hosts r)))] ++
        omitStr (go "path") (rt_Path r) ++ omitStr (go "pathType") (rt_PathType r) ++
        [(go "targetPort", JNum (formatInt (rt_TargetPort r)))] ++
        (if rt_TLS r then [(go "tls", JBool true)] else [])).

Definition marshalRoute (r : IngressRoute) : bytes := jsonEncode (routeJson r).

Definition routeFields : list bytes :=
  [go "workload"; go "hosts"; go "path"; go "pathType"; go "targetPort"; go "tls"].

Definition asStrs (v : json) : option (list bytes) :=
  match v with JArr l => mapM (asStr []) l | JNull => Some [] | _ => None end.

Definition asBool (old : bool) (v : json) : option bool :=
  match v with JBool b => Some b | JNull => Some old | _ => None end.

Definition setRouteField (r : IngressRoute) (k : bytes) (v : json) : option IngressRoute :=
  let '(mkIngressRoute w hs p pt tp tls) := r in
  match fieldOf routeFields k with
  | None => Some r
  | Some f =>
      if bytes_eqb f (go "workload") then x ← asStr w v; Some (mkIngressRoute x hs p pt tp tls)
      else if bytes_eqb f (go "hosts") then x ← asStrs v; Some (mkIngressRoute w x p pt tp tls)
      else if bytes_eqb f (go "path") then x ← asStr p v; Some (mkIngressRoute w hs x pt tp tls)
      else if bytes_eqb f (go "pathType") then x ← asStr pt v; Some (mkIngressRoute w hs p x tp tls)
      else if bytes_eqb f (go "targetPort") then x ← asInt tp v; Some (mkIngressRoute w hs p pt x tls)
      else x ← asBool tls v; Some (mkIngressRoute w hs p pt tp x)
  end.

Fixpoint setRouteFields (r : IngressRoute) (fs : list (bytes * json)) : option IngressRoute :=
  match fs with
  | [] => Some r
  | (k, v) :: fs => r' ← setRouteField r k v; setRouteFields r' fs
  end.

Definition unmarshalRoute (b : bytes) : option IngressRoute :=
  v ← jsonDecode b;
  match v with
  | JObj fs => setRouteFields zeroIngressRoute fs
  | JNull => Some zeroIngressRoute
  | _ => None
  end.

(** ** The manager *)

(** Files and directories by path. *)
Inductive fnode : Type :=
| FFile (b : bytes)
| FDir.

Abbreviation Disk := (gmap bytes fnode).

(** How a write ends: done, not begun, or the file truncated and only a beginning written. *)
Inductive writeRes : Type :=
| WOk
| WFail
| WTorn (n : nat).

Definition WriteFile (p b : bytes) (w : writeRes) (d : Disk) : Disk :=
  match d !! p, w with
  | Some FDir, _ | _, WFail => d
  | _, WOk => <[p := FFile b]> d
  | _, WTorn n => <[p := FFile (take n b)]> d
  end.

(** [os.Remove] *)
Definition unlink (p : bytes) (ok : bool) (d : Disk) : Disk := if ok then delete p d else d.

(** [os.ReadDir]: the names in a directory with whether they are directories, sorted. *)
Definition ReadDir (dir : bytes) (d : Disk) : list (bytes * bool) :=
  omap (fun n => match d !! pathJoin [dir; n] with Some FDir => Some (n, true) | Some (FFile _) => Some (n, false) | None => None end)
       (sortStrings (map pathBase (filter (fun p => pathDir p = dir) (map fst (map_to_list d))))).

(** [filepath.Ext] of a name without a separator *)
Definition pathExt (name : bytes) : bytes :=
  match cutByte Byte.x2e (rev name) with Some (ext, _) => go "." ++ rev ext | None => [] end.

Record ingressManager := mkManager {
  mg_table : Table;
  mg_defaults : Defaults;
  mg_dir : bytes;
  mg_recovered : bool;
}.

Definition newIngressManager (dataDir : bytes) (def : Defaults) : ingressManager :=
  mkManager NewTable def (if bytes_eqb dataDir [] then [] else pathJoin [dataDir; go "ingress"]) false.

(** The empty path stands for a name that has no file. *)
Definition routeFile (dir workload : bytes) : bytes :=
  if bytes_eqb dir [] || negb (bytes_eqb workload (pathBase workload)) then []
  else pathJoin [dir; workload ++ go ".json"].

(** One critical section of the table or one system call. *)
Inductive ingAct : Type :=
| ActSet (workload : bytes) (r : IngressRoute)
| ActRemove (workload : bytes)
| ActWrite (p b : bytes)
| ActUnlink (p : bytes).

Definition ing_remove (dir workload : bytes) : list ingAct :=
  ActRemove workload :: (let p := routeFile dir workload in if bytes_eqb p [] then [] else [ActUnlink p]).

Definition ing_persist (dir workload : bytes) (r : IngressRoute) : list ingAct :=
  let p := routeFile dir workload in if bytes_eqb p [] then [] else [ActWrite p (marshalRoute r)].

Section Manager.
  Context `{UC : UnicodeCase}.

Definition ing_apply (def : Defaults) (dir : bytes) (spec : DeploySpec) : list ingAct :=
  match spec_Ingress spec with
  | Some i =>
      if ingressEnabled (Some i) then
        match ing_Route i (spec_Ports spec) (spec_Name spec) def with
        | Ok route => ActSet (spec_Name spec) route :: ing_persist dir (spec_Name spec) route
        | Err _ => ing_remove dir (spec_Name spec)
        end
      else ing_remove dir (spec_Name spec)
  | None => ing_remove dir (spec_Name spec)
  end.

Definition setTable (t : Table) (m : ingressManager) : ingressManager :=
  mkManager t (mg_defaults m) (mg_dir m) (mg_recovered m).

(** An action: [ord] is the order the index is rebuilt in, [w] and [ok] how the system call ends. *)
Definition execAct (ord : list bytes) (w : writeRes) (ok : bool) (a : ingAct) (s : ingressManager * Disk) : ingressManager * Disk :=
  let '(m, d) := s in
  match a with
  | ActSet wl r => (setTable (table_Set ord wl [r] (mg_table m)) m, d)
  | ActRemove wl => (setTable (table_Remove ord wl (mg_table m)) m, d)
  | ActWrite p b => (m, WriteFile p b w d)
  | ActUnlink p => (m, unlink p ok d)
  end.

(** ** Recovery *)

Inductive recPC : Type :=
| RList
| RNext
| RHas1 (p workload : bytes) (r : IngressRoute)
| RHas2 (workload : bytes) (r : IngressRoute)
| RSet (workload : bytes) (r : IngressRoute)
| RUnlink (p : bytes).

(** [rec_live]: the names the backend lists, [None] when it could not be asked. *)
Record recovery := mkRecovery { rec_live : option (list bytes); rec_entries : list (bytes * bool); rec_pc : recPC }.

(** The beginning of [recover], under its lock: done once, and only with a directory. *)
Definition recStart (readable : bool) (m : ingressManager) (d : Disk) : ingressManager * option recovery :=
  if mg_recovered m || bytes_eqb (mg_dir m) [] then (m, None)
  else (mkManager (mg_table m) (mg_defaults m) (mg_dir m) true,
        if readable then Some (mkRecovery None (ReadDir (mg_dir m) d) RList) else None).

Definition setWorkload (w : bytes) (r : IngressRoute) : IngressRoute :=
  mkIngressRoute w (rt_Hosts r) (rt_Path r) (rt_PathType r) (rt_TargetPort r) (rt_TLS r).

(** The rest, step by step: [listed] is what the backend answers, [ok] how a system call ends. *)
Definition recStep (ord : list bytes) (listed : option (list bytes)) (ok : bool) (rc : recovery) (m : ingressManager) (d : Disk)
    : ingressManager * Disk * option recovery :=
  let '(mkRecovery live es pc) := rc in
  match pc with
  | RList => (m, d, Some (mkRecovery listed es RNext))
  | RNext =>
      match es with
      | [] => (m, d, None)
      | (n, isDir) :: es =>
          let next := Some (mkRecovery live es RNext) in
          if isDir || negb (bytes_eqb (pathExt n) (go ".json")) then (m, d, next)
          else
            let p := pathJoin [mg_dir m; n] in
            match (if ok then d !! p else None) with
            | Some (FFile b) =>
                match unmarshalRoute b with
                | None => (m, d, Some (mkRecovery live es (RUnlink p)))
                | Some r => (m, d, Some (mkRecovery live es (RHas1 p (take (length n - 5) n) r)))
                end
            | _ => (m, d, next)
            end
      end
  | RHas1 p w r =>
      let gone := match live with Some names => bool_decide (w ∉ names) && negb (table_Has (mg_table m) w) | None => false end in
      (m, d, Some (mkRecovery live es (if gone then RUnlink p else RHas2 w r)))
  | RHas2 w r => (m, d, Some (mkRecovery live es (if table_Has (mg_table m) w then RNext else RSet w r)))
  | RSet w r => (setTable (table_Set ord w [setWorkload w r] (mg_table m)) m, d, Some (mkRecovery live es RNext))
  | RUnlink p => (m, unlink p ok d, Some (mkRecovery live es RNext))
  end.

End Manager.
