(* ===== verification/IngressTable.v ===== *)
(** * Ingress front door: what a request is answered with

    The index by host against the routes by deployment, in whatever order it was built,
    and [table_Lookup] against the rule a request must reach: among the rules on its host
    whose path matches, the longest path, and an exact rule before a prefix. *)
From stdpp Require Import base list gmap strings numbers sorting.
From Stdlib Require Import ZArith Lia.
From Stdlib.Strings Require Import Byte.
From S2P Require Import Prelude GoStd GoNet GoPath GoJson GoUnicode Activity Ingress.
Open Scope Z_scope.
Set Warnings "-register-all".

(** ** The index *)

Definition rulesAt (h : bytes) (r : IngressRoute) : list IngressRoute := map (fun _ => r) (filter (fun x => x = h) (rt_Hosts r)).

(** The rules on a host, deployments taken in the order [ord]. *)
Definition hostRules (ord : list bytes) (m : gmap bytes (list IngressRoute)) (h : bytes) : list IngressRoute :=
  concat (map (fun w => concat (map (rulesAt h) (default [] (m !! w)))) ord).

Definition got (m : gmap bytes (list IngressRoute)) (h : bytes) : list IngressRoute := default [] (m !! h).

Definition noEmpty (m : gmap bytes (list IngressRoute)) : Prop := forall h, m !! h <> Some [].

Lemma addHosts_got r hs m h : got (fold_left (addHost r) hs m) h = got m h ++ map (fun _ => r) (filter (fun x => x = h) hs).
Proof.
  revert m. induction hs as [|x hs IH]; intros m; cbn [fold_left]; [by rewrite app_nil_r|]. rewrite IH. unfold got, addHost.
  destruct (decide (x = h)) as [->|Hne].
  - rewrite lookup_insert, decide_True by done. rewrite filter_cons_True by done. cbn. by rewrite <- app_assoc.
  - rewrite lookup_insert_ne by done. by rewrite filter_cons_False.
Qed.

Lemma addHosts_noEmpty r hs m : noEmpty m -> noEmpty (fold_left (addHost r) hs m).
Proof.
  revert m. induction hs as [|x hs IH]; intros m Hm; cbn [fold_left]; [done|]. apply IH. intros h. unfold addHost.
  rewrite lookup_insert. case_decide; [|apply Hm]. intros [= E]. by destruct (default [] (m !! x)).
Qed.

Lemma addRoutes_got rs m h : got (fold_left addRoute rs m) h = got m h ++ concat (map (rulesAt h) rs).
Proof.
  revert m. induction rs as [|r rs IH]; intros m; cbn [fold_left]; [by rewrite app_nil_r|].
  rewrite IH. unfold addRoute. rewrite addHosts_got. by rewrite <- app_assoc.
Qed.

Lemma addRoutes_noEmpty rs m : noEmpty m -> noEmpty (fold_left addRoute rs m).
Proof. revert m. induction rs as [|r rs IH]; intros m Hm; cbn [fold_left]; [done|]. by apply IH, addHosts_noEmpty. Qed.

Lemma reindex_got ord bw m h :
  let m' := fold_left (fun m w => fold_left addRoute (default [] (bw !! w)) m) ord m in
  noEmpty m -> got m' h = got m h ++ hostRules ord bw h /\ noEmpty m'.
Proof.
  cbv zeta. revert m. induction ord as [|w ord IH]; intros m Hm; cbn [fold_left]; [by rewrite app_nil_r|].
  destruct (IH (fold_left addRoute (default [] (bw !! w)) m) (addRoutes_noEmpty _ _ Hm)) as [E Hn]. split; [|done].
  rewrite E, addRoutes_got. unfold hostRules. cbn [map concat]. by rewrite <- app_assoc.
Qed.

Lemma byHost_reindex ord t h : byHost (reindexLocked ord t) !! h =
  match hostRules ord (byWorkload t) h with [] => None | l => Some l end.
Proof.
  destruct (reindex_got ord (byWorkload t) ∅ h) as [E Hn]; [by intros x; rewrite lookup_empty|].
  unfold reindexLocked. cbn [byHost]. unfold got in E. rewrite lookup_empty in E. cbn in E. specialize (Hn h).
  destruct (_ !! h) as [l|]; cbn in E; subst.
  - by destruct (hostRules ord (byWorkload t) h).
  - by rewrite <- E.
Qed.

(** ** Tables in use *)

Definition keys (m : gmap bytes (list IngressRoute)) : list bytes := map fst (map_to_list m).

(** The index was built from the routes, in some order; a deployment's routes carry its name. *)
Record tableOk (t : Table) : Prop := {
  tbl_index : exists ord, ord ≡ₚ keys (byWorkload t) /\ byHost t = byHost (reindexLocked ord t);
  tbl_names : forall w rs r, byWorkload t !! w = Some rs -> r ∈ rs -> rt_Workload r = w;
}.

(** A route serves a host. *)
Definition servedBy (t : Table) (h : bytes) (r : IngressRoute) : Prop :=
  exists w rs, byWorkload t !! w = Some rs /\ r ∈ rs /\ h ∈ rt_Hosts r.

Lemma elem_of_rulesAt h r x : x ∈ rulesAt h r <-> x = r /\ h ∈ rt_Hosts r.
Proof.
  unfold rulesAt. rewrite list_elem_of_fmap. setoid_rewrite list_elem_of_filter. split.
  - by intros (y & -> & -> & Hy).
  - intros [-> Hh]. by exists h.
Qed.

Lemma elem_of_concat_map {A B} (f : A -> list B) (l : list A) (x : B) : x ∈ concat (map f l) <-> exists a, a ∈ l /\ x ∈ f a.
Proof.
  induction l as [|a l IH]; cbn [map concat].
  - split; [intros H; inversion H|intros (? & H & _); inversion H].
  - rewrite elem_of_app, IH. setoid_rewrite elem_of_cons. naive_solver.
Qed.

Lemma elem_of_keys m w : w ∈ keys m <-> exists rs, m !! w = Some rs.
Proof.
  unfold keys. rewrite list_elem_of_fmap. split.
  - intros ([w' rs] & -> & H). exists rs. by apply elem_of_map_to_list.
  - intros [rs H]. exists (w, rs). split; [done|]. by apply elem_of_map_to_list.
Qed.

Lemma elem_of_hostRules ord t h r : ord ≡ₚ keys (byWorkload t) -> r ∈ hostRules ord (byWorkload t) h <-> servedBy t h r.
Proof.
  intros Ho. unfold hostRules, servedBy. rewrite elem_of_concat_map. setoid_rewrite elem_of_concat_map.
  setoid_rewrite elem_of_rulesAt. split.
  - intros (w & Hw & r' & Hr' & -> & Hh). rewrite Ho in Hw. apply elem_of_keys in Hw as [rs Ers]. rewrite Ers in Hr'.
    by exists w, rs.
  - intros (w & rs & Ers & Hr & Hh). exists w. split; [rewrite Ho; apply elem_of_keys; by exists rs|].
    exists r. by rewrite Ers.
Qed.

Lemma byHost_Some t h rules : tableOk t -> byHost t !! h = Some rules -> rules <> [] /\ forall r, r ∈ rules <-> servedBy t h r.
Proof.
  intros [(ord & Ho & ->) _]. rewrite byHost_reindex. intros E. split; [by destruct (hostRules _ _ _); [|injection E as <-]|].
  intros r. rewrite <- (elem_of_hostRules ord) by done. destruct (hostRules _ _ _); [done|]. by injection E as ->.
Qed.

Lemma byHost_None t h : tableOk t -> byHost t !! h = None <-> forall r, ~ servedBy t h r.
Proof.
  intros [(ord & Ho & ->) _]. rewrite byHost_reindex. setoid_rewrite <- (elem_of_hostRules ord t h) at 1; [|done].
  destruct (hostRules _ _ _) as [|r l]; split; [intros _ r H; inversion H|done|done|].
  intros H. by destruct (H r); left.
Qed.

(** ** The rule a request reaches *)

Definition pathOk (path : bytes) (r : IngressRoute) : bool := PathMatches (rt_Path r) (rt_PathType r) path.
Definition isExact (r : IngressRoute) : bool := bytes_eqb (rt_PathType r) (go "Exact").

(** [r] is at least as specific as [r']. *)
Definition beats (r r' : IngressRoute) : Prop :=
  MatchLen (rt_Path r') <= MatchLen (rt_Path r) /\
  (MatchLen (rt_Path r') = MatchLen (rt_Path r) -> isExact r' = true -> isExact r = true).

Definition bestRule (t : Table) (h path : bytes) (r : IngressRoute) : Prop :=
  servedBy t h r /\ pathOk path r = true /\ forall r', servedBy t h r' -> pathOk path r' = true -> beats r r'.

(** The host whose rules apply to a canonical name: itself if anything serves it, or what it is an alias of. *)
Definition reaches (t : Table) (c h : bytes) : Prop :=
  (h = c /\ exists r, servedBy t c r) \/ ((forall r, ~ servedBy t c r) /\ aliases t !! c = Some h).

Definition foldOk (path : bytes) (l : list IngressRoute) (st : IngressRoute * Z * bool) : Prop :=
  let '(route, best, ok) := st in
  if ok then route ∈ l /\ pathOk path route = true /\ best = MatchLen (rt_Path route) /\
             forall r, r ∈ l -> pathOk path r = true -> beats route r
  else best = -1 /\ forall r, r ∈ l -> pathOk path r = false.

Lemma MatchLen_nonneg p : 0 <= MatchLen p.
Proof. apply blen_nonneg. Qed.

Lemma foldOk_step path l st r : foldOk path l st -> foldOk path (l ++ [r]) (better path st r).
Proof.
  destruct st as [[route best] ok]. unfold better. fold (pathOk path r) (isExact r) (isExact route). intros H.
  assert (Hsplit : forall x, x ∈ l ++ [r] <-> x ∈ l \/ x = r) by (intros x; by rewrite elem_of_app, list_elem_of_singleton).
  destruct (pathOk path r) eqn:Er; cbn [negb].
  2: { destruct ok; cbn in *; [destruct H as (H1 & H2 & H3 & H4)|destruct H as [H1 H2]].
       - split_and!; [by apply Hsplit; left|done|done|]. intros x [Hx| ->]%Hsplit Hp; [by apply H4|congruence].
       - split; [done|]. intros x [Hx| ->]%Hsplit; [by apply H2|done]. }
  pose proof (MatchLen_nonneg (rt_Path r)) as Hl. destruct (best <? MatchLen (rt_Path r)) eqn:Eb; zbool.
  { cbn. split_and!; [by apply Hsplit; right|done|done|]. intros x [Hx| ->]%Hsplit Hp; [|by split].
    destruct ok; cbn in H; [|by rewrite (proj2 H) in Hp]. destruct H as (_ & _ & H3 & H4).
    destruct (H4 x Hx Hp) as [Hle _]. split; lia. }
  destruct ok; cbn in H; [|lia]. destruct H as (H1 & H2 & H3 & H4).
  destruct ((MatchLen (rt_Path r) =? best) && isExact r && negb (isExact route)) eqn:Ec; cbn.
  - zbool. split_and!; [by apply Hsplit; right|done|lia|]. intros x [Hx| ->]%Hsplit Hp; [|by split].
    destruct (H4 x Hx Hp) as [Hle _]. split; [lia|done].
  - split_and!; [by apply Hsplit; left|done|done|]. intros x [Hx| ->]%Hsplit Hp; [by apply H4|].
    split; [lia|]. intros E Hx. destruct (isExact route); [done|]. rewrite Hx in Ec. cbn in Ec.
    rewrite (proj2 (Z.eqb_eq _ _)) in Ec by lia. done.
Qed.

Lemma foldOk_run path l : foldOk path l (fold_left (better path) l (zeroIngressRoute, -1, false)).
Proof.
  induction l as [|r l IH] using rev_ind; [by split; [|intros r H; inversion H]|].
  rewrite fold_left_app. by apply foldOk_step.
Qed.

Section Answers.
  Context `{UC : UnicodeCase}.

Lemma rulesFor_Some t c rules : tableOk t -> rulesFor t c = Some rules ->
  exists h, reaches t c h /\ rules <> [] /\ forall r, r ∈ rules <-> servedBy t h r.
Proof.
  intros Ht. unfold rulesFor. destruct (byHost t !! c) as [l|] eqn:E.
  - intros [= <-]. destruct (byHost_Some t c l Ht E) as [Hne Hl]. exists c. split; [|done].
    left. split; [done|]. destruct l as [|r l]; [done|]. exists r. apply Hl. by left.
  - pose proof (proj1 (byHost_None t c Ht) E) as Hnone. destruct (aliases t !! c) as [h|] eqn:Ea; [|done]. cbn.
    intros Eh. exists h. split; [by right|]. by apply byHost_Some.
Qed.

Lemma rulesFor_None t c h r : tableOk t -> rulesFor t c = None -> reaches t c h -> ~ servedBy t h r.
Proof.
  intros Ht. unfold rulesFor. destruct (byHost t !! c) as [l|] eqn:E; [done|].
  pose proof (proj1 (byHost_None t c Ht) E) as Hnone.
  intros Ea [[-> _]|[_ Eh]]; [apply Hnone|]. rewrite Eh in Ea. cbn in Ea. by apply byHost_None.
Qed.

Lemma ServeHTTP_cases t host path : tableOk t ->
  match proxy_ServeHTTP t host path with
  | Misdirected => forall h r, reaches t (CanonicalHost (stripPort host)) h -> ~ servedBy t h r
  | NotFound => exists h, reaches t (CanonicalHost (stripPort host)) h /\ (exists r, servedBy t h r) /\
                  forall r, servedBy t h r -> pathOk path r = false
  | ForwardTo w p => exists h r, reaches t (CanonicalHost (stripPort host)) h /\ bestRule t h path r /\
                  rt_Workload r = w /\ rt_TargetPort r = p
  end.
Proof.
  intros Ht. unfold proxy_ServeHTTP, table_Lookup. set (c := CanonicalHost _).
  destruct (rulesFor t c) as [rules|] eqn:E; [|intros h r; by apply rulesFor_None].
  apply rulesFor_Some in E as (h & Hh & Hne & Hl); [|done]. pose proof (foldOk_run path rules) as Hf.
  destruct (fold_left _ _ _) as [[route best] ok]. destruct ok; cbn in *.
  - destruct Hf as (H1 & H2 & H3 & H4). exists h, route. split; [done|]. split; [|done]. split_and!; [by apply Hl|done|].
    intros r' Hr' Hp. by apply H4; [apply Hl|].
  - destruct Hf as [_ Hf]. exists h. split_and!; [done| |].
    + destruct rules as [|r rules]; [done|]. exists r. apply Hl. by left.
    + intros r Hr. by apply Hf, Hl.
Qed.

Lemma reaches_fun t c h h' : reaches t c h -> reaches t c h' -> h = h'.
Proof. intros [[-> [r Hr]]|[Hn E]] [[-> [r' Hr']]|[Hn' E']]; [done|by destruct (Hn' r)|by destruct (Hn r')|congruence]. Qed.

End Answers.

Lemma servedBy_same t t' h r : byWorkload t' = byWorkload t -> servedBy t' h r <-> servedBy t h r.
Proof. unfold servedBy. by intros ->. Qed.

Lemma reaches_same t t' c h : byWorkload t' = byWorkload t -> aliases t' = aliases t -> reaches t' c h <-> reaches t c h.
Proof. unfold reaches, servedBy. by intros -> ->. Qed.

Lemma bestRule_same t t' h path r : byWorkload t' = byWorkload t -> bestRule t' h path r <-> bestRule t h path r.
Proof. unfold bestRule, servedBy. by intros ->. Qed.

(** ** Operations keep the table in order *)

Lemma tableOk_new : tableOk NewTable.
Proof. split; [by exists []|]. intros w rs r E. unfold NewTable in E; cbn [byWorkload] in E. by rewrite lookup_empty in E. Qed.

Lemma tableOk_reindex ord t : ord ≡ₚ keys (byWorkload t) ->
  (forall w rs r, byWorkload t !! w = Some rs -> r ∈ rs -> rt_Workload r = w) -> tableOk (reindexLocked ord t).
Proof. intros Ho Hn. split; [by exists ord|done]. Qed.

Lemma tableOk_Remove ord w t : tableOk t -> ord ≡ₚ keys (delete w (byWorkload t)) -> tableOk (table_Remove ord w t).
Proof.
  intros Ht Ho. apply tableOk_reindex; [done|]. cbn [byWorkload]. intros w' rs r [_ E]%lookup_delete_Some. by apply (tbl_names t Ht).
Qed.

Section Ops.
  Context `{UC : UnicodeCase}.

Lemma normalizeRoute_Some w r r' : normalizeRoute w r = Some r' ->
  rt_Workload r' = w /\ rt_Path r' = rt_Path r /\ rt_PathType r' = rt_PathType r /\ rt_TargetPort r' = rt_TargetPort r /\
  forall h, h ∈ rt_Hosts r' <-> h <> [] /\ exists x, x ∈ rt_Hosts r /\ h = CanonicalHost x.
Proof.
  unfold normalizeRoute. destruct (filter _ _) as [|h0 hs] eqn:E; [done|]. intros [= <-]. split_and!; try done.
  intros h. cbn [rt_Hosts]. rewrite <- E, list_elem_of_filter, list_elem_of_fmap. naive_solver.
Qed.

(** The routes a deployment has after [Set] are its normalized ones; the others keep theirs. *)
Lemma setRoutes_lookup w rs m w' rs' : setRoutes w rs m !! w' = Some rs' ->
  (w' = w /\ rs' = omap (normalizeRoute w) rs) \/ (w' <> w /\ m !! w' = Some rs').
Proof.
  unfold setRoutes. destruct (length rs =? 0)%nat; [intros [? ?]%lookup_delete_Some; by right|].
  destruct (length (omap _ _) =? 0)%nat; [intros [? ?]%lookup_delete_Some; by right|].
  intros [[<- <-]|[? ?]]%lookup_insert_Some; [by left|by right].
Qed.

Lemma tableOk_Set ord w rs t : tableOk t -> ord ≡ₚ keys (setRoutes w rs (byWorkload t)) -> tableOk (table_Set ord w rs t).
Proof.
  intros Ht Ho. apply tableOk_reindex; [done|]. cbn [byWorkload]. intros w' rs' r [[-> ->]|[_ E]]%setRoutes_lookup Hr.
  - apply list_elem_of_omap in Hr as (r0 & _ & E). by apply normalizeRoute_Some in E as [-> _].
  - by apply (tbl_names t Ht w' rs').
Qed.

Lemma tableOk_HostAlias a x t : tableOk t -> tableOk (HostAlias a x t).
Proof. intros [H1 H2]. unfold HostAlias. repeat split_if; by split. Qed.

End Ops.

Section Claim.
  Context `{UC : UnicodeCase}.

(** No two deployments claim the place of the most specific rule. *)
Definition noTie (t : Table) (c path : bytes) : Prop :=
  forall h r r', reaches t c h -> bestRule t h path r -> bestRule t h path r' ->
    rt_Workload r = rt_Workload r' /\ rt_TargetPort r = rt_TargetPort r'.

(** C23. A request is answered from the rules of its host, or of the host it is an alias of: 421
    if there are none, 404 if none matches the path, otherwise it goes to the port of a most
    specific matching rule. Without a tie the answer does not depend on the order in which
    the index was built. *)
Theorem front_answers (t : Table) (host path : bytes) : tableOk t ->
  let c := CanonicalHost (stripPort host) in
  match proxy_ServeHTTP t host path with
  | Misdirected => forall h r, reaches t c h -> ~ servedBy t h r
  | NotFound => exists h, reaches t c h /\ (exists r, servedBy t h r) /\ forall r, servedBy t h r -> pathOk path r = false
  | ForwardTo w p => exists h r, reaches t c h /\ bestRule t h path r /\ rt_Workload r = w /\ rt_TargetPort r = p
  end /\
  forall t', tableOk t' -> byWorkload t' = byWorkload t -> aliases t' = aliases t -> noTie t c path ->
    proxy_ServeHTTP t' host path = proxy_ServeHTTP t host path.
Proof.
  intros Ht. cbv zeta. pose proof (ServeHTTP_cases t host path Ht) as H. split; [done|].
  intros t' Ht' Eb Ea Htie. pose proof (ServeHTTP_cases t' host path Ht') as H'. set (c := CanonicalHost _) in *.
  destruct (proxy_ServeHTTP t host path) as [| |w p], (proxy_ServeHTTP t' host path) as [| |w' p']; try done.
  - exfalso. destruct H' as (h & Hh & [r Hr] & _). apply (H h r); [by apply (reaches_same t t')|by apply (servedBy_same t t')].
  - exfalso. destruct H' as (h & r & Hh & [Hr _] & _). apply (H h r); [by apply (reaches_same t t')|by apply (servedBy_same t t')].
  - exfalso. destruct H as (h & Hh & [r Hr] & _). apply (H' h r); [by apply (reaches_same t t')|by apply (servedBy_same t t')].
  - exfalso. destruct H as (h & Hh & _ & Hno), H' as (h' & r & Hh' & (Hr & Hp & _) & _).
    rewrite (reaches_same t t') in Hh' by done. rewrite (servedBy_same t t') in Hr by done.
    assert (h' = h) as -> by (by eapply reaches_fun). by rewrite Hno in Hp.
  - exfalso. destruct H as (h & r & Hh & [Hr _] & _). apply (H' h r); [by apply (reaches_same t t')|by apply (servedBy_same t t')].
  - exfalso. destruct H' as (h & Hh & _ & Hno), H as (h' & r & Hh' & (Hr & Hp & _) & _).
    rewrite (reaches_same t t') in Hh by done. assert (h' = h) as -> by (by eapply reaches_fun).
    rewrite Hno in Hp; [done|]. by apply (servedBy_same t t').
  - destruct H as (h & r & Hh & Hr & <- & <-), H' as (h' & r' & Hh' & Hr' & <- & <-).
    rewrite (reaches_same t t') in Hh' by done. rewrite (bestRule_same t t') in Hr' by done.
    assert (h' = h) as -> by (by eapply reaches_fun). destruct (Htie h r r') as [-> ->]; done.
Qed.

End Claim.

(** ** Examples *)

Definition exRoute (host path ptype : bytes) (port : Z) : IngressRoute := mkIngressRoute [] [host] path ptype port false.

Definition exTable (ord : list bytes) (apiPath apiType : bytes) : Table :=
  let t := @table_Set asciiCase [go "web"] (go "web") [exRoute (go "App.example.com.") (go "/") [] 80] NewTable in
  @table_Set asciiCase ord (go "api") [exRoute (go "app.example.com") apiPath apiType 8080] t.

Lemma exTable_ok apiPath apiType : tableOk (exTable [go "api"; go "web"] apiPath apiType).
Proof.
  unfold exTable. cbv zeta. apply tableOk_Set; [apply tableOk_Set; [apply tableOk_new|]|].
  - assert (keys (@setRoutes asciiCase (go "web") [exRoute (go "App.example.com.") (go "/") [] 80] (byWorkload NewTable)) = [go "web"])
      as -> by (vm_compute; reflexivity). done.
  - assert (keys (@setRoutes asciiCase (go "api") [exRoute (go "app.example.com") apiPath apiType 8080]
      (byWorkload (@table_Set asciiCase [go "web"] (go "web") [exRoute (go "App.example.com.") (go "/") [] 80] NewTable))) =
      [go "api"; go "web"]) as -> by (vm_compute; reflexivity). done.
Qed.

Lemma front_answers_witness :
  let t := exTable [go "api"; go "web"] (go "/api") [] in
  exists h r, reaches t (@CanonicalHost asciiCase (stripPort (go "APP.example.com:8443"))) h /\
    bestRule t h (go "/api/v1") r /\ rt_Workload r = go "api" /\ rt_TargetPort r = 8080.
Proof.
  cbv zeta.
  pose proof (@front_answers asciiCase (exTable [go "api"; go "web"] (go "/api") []) (go "APP.example.com:8443")
    (go "/api/v1") (exTable_ok (go "/api") [])) as H. cbv zeta in H. apply proj1 in H.
  assert (E : @proxy_ServeHTTP asciiCase (exTable [go "api"; go "web"] (go "/api") []) (go "APP.example.com:8443") (go "/api/v1") =
    ForwardTo (go "api") 8080) by (vm_compute; reflexivity).
  rewrite E in H. exact H.
Defined.

(** Two deployments that ask for the same host and path share it by chance: the one whose routes were
    gone through first when the index was last rebuilt gets every request. *)
Lemma tie_by_map_order :
  let answer ord := @proxy_ServeHTTP asciiCase (exTable ord (go "/") []) (go "app.example.com") (go "/") in
  answer [go "api"; go "web"] = ForwardTo (go "api") 8080 /\ answer [go "web"; go "api"] = ForwardTo (go "web") 80.
Proof. by vm_compute. Qed.

(** An exact rule for the root takes every path. *)
Lemma exact_root_takes_all :
  @proxy_ServeHTTP asciiCase (exTable [go "web"; go "api"] (go "/") (go "Exact")) (go "app.example.com") (go "/any/thing") =
  ForwardTo (go "api") 8080.
Proof. by vm_compute. Qed.
