(* ===== verification/IngressRecover.v ===== *)
(** * Ingress front door: through crashes and restarts

    The server's front door as a system: deployments and deletions of which every
    critical section and system call may be interleaved with the others and with the
    recovery, writes cut short, tunnels' aliases, and restarts that keep only the disk.
    Whatever happens, a request is forwarded only to what a deployment asked for. When the
    operations are not interleaved, a restart brings back the table there was. *)
From stdpp Require Import base list gmap strings numbers sorting.
From Stdlib Require Import ZArith Lia.
From Stdlib.Strings Require Import Byte.
From S2P Require Import Prelude GoStd GoNet GoPath GoJson GoUnicode GoJsonTorn Activity Ingress IngressTable.
Open Scope Z_scope.
Set Warnings "-register-all".

(** ** Valid UTF-8 *)

Local Ltac dlia := Z.to_euclidean_division_equations; lia.

Lemma encodeRune_view r t : exists v, runeView (encodeRune r ++ t) v (length (encodeRune r)) /\ (v = RuneError -> length (encodeRune r) <> 1%nat).
Proof.
  unfold encodeRune. set (r' := if (r <? 0) || _ || _ then RuneError else r).
  assert (Hr : 0 <= r' <= 1114111 /\ (r' < 55296 \/ 57343 < r')).
  { unfold r', RuneError. destruct (r <? 0) eqn:E1; cbn [orb]; [lia|]. destruct (1114111 <? r) eqn:E2; cbn [orb]; [lia|].
    destruct (55296 <=? r) eqn:E3; cbn [andb]; [|zcase]. destruct (r <=? 57343) eqn:E4; zcase. }
  clearbody r'. clear r. cbv zeta. assert (Hm : forall x, 0 <= x mod 64 < 64) by (intros x; apply Z.mod_pos_bound; lia).
  assert (Hb : forall x, 0 <= x < 256 -> Z_of_byte (byte_of_Z x) = x) by (intros x Hx; rewrite Z_of_byte_of_Z; by apply Z.mod_small).
  destruct (r' <? 128) eqn:E1; zbool.
  { eexists. cbn [app length]. split; [apply rv1; unfold ascii; rewrite Hb by lia; by apply Z.ltb_lt|]. rewrite Hb by lia. unfold RuneError. lia. }
  assert (Hc : forall x, cont 128 191 (byte_of_Z (128 + x mod 64)) = true).
  { intros x. unfold cont. rewrite Hb by (specialize (Hm x); lia). specialize (Hm x). apply andb_true_iff. lia. }
  destruct (r' <? 2048) eqn:E2; zbool; [|destruct (r' <? 65536) eqn:E3; zbool].
  - eexists. cbn [app length]. split; [apply rv2; [rewrite Hb by dlia; dlia|done]|done].
  - assert (H4096 : (r' / 64) mod 64 = r' / 64 - 64 * (r' / 4096)) by dlia.
    eexists. cbn [app length]. split; [apply rv3; [rewrite Hb by dlia; dlia| |done]|done]. rewrite Hb by dlia.
    unfold cont, lo3, hi3. rewrite Hb by dlia. apply andb_true_iff. split; split_if; zbool; dlia.
  - assert (H4096 : (r' / 4096) mod 64 = r' / 4096 - 64 * (r' / 262144)) by dlia.
    eexists. cbn [app length]. split; [apply rv4; [rewrite Hb by dlia; dlia| |done|done]|done]. rewrite Hb by dlia.
    unfold cont, lo4, hi4. rewrite Hb by dlia. apply andb_true_iff. split; split_if; zbool; dlia.
Qed.

Lemma length_encodeRune r : (1 <= length (encodeRune r))%nat.
Proof. unfold encodeRune. cbv zeta. repeat case_match; cbn; lia. Qed.

Lemma utf8Valid_encode r s : utf8Valid (encodeRune r ++ s) = utf8Valid s.
Proof.
  destruct (encodeRune_view r s) as (v & Hv & Hne). pose proof (length_encodeRune r) as Hl.
  assert (Hs : encodeRune r ++ s <> []) by (by destruct (encodeRune r); [cbn in Hl; lia|]).
  assert (E : decodeRune (encodeRune r ++ s) = (v, length (encodeRune r))).
  { rewrite <- (view_decodeRune _ _ _ s Hv Hne). by rewrite take_app_length. }
  unfold utf8Valid. rewrite runes_unfold by done. cbn [forallb]. rewrite E. cbn [fst snd]. rewrite take_app_length, drop_app_length.
  assert (validUtf8Seg (encodeRune r) = true) as ->; [|done]. unfold validUtf8Seg.
  destruct (encodeRune_view r []) as (v' & Hv' & Hne'). rewrite app_nil_r in Hv'.
  assert (E' : decodeRune (encodeRune r) = (v', length (encodeRune r))).
  { pose proof (view_decodeRune _ _ _ [] Hv' Hne') as H. by rewrite app_nil_r, firstn_all in H. }
  rewrite E'. cbn [fst]. apply negb_true_iff, andb_false_iff. destruct (decide (v' = RuneError)) as [Ev|Ev].
  - right. apply Nat.eqb_neq. auto.
  - left. by apply Z.eqb_neq.
Qed.

Lemma utf8Valid_snoc s c : ascii c = true -> utf8Valid (s ++ [c]) = utf8Valid s.
Proof.
  intros Hc. unfold utf8Valid. rewrite runes_app_ascii by done. rewrite forallb_app. cbn [forallb].
  assert (validUtf8Seg [c] = true) as ->; [|by rewrite andb_true_r]. unfold validUtf8Seg. rewrite decodeRune_ascii by done.
  cbn [fst]. apply negb_true_iff, andb_false_iff. left. apply Z.eqb_neq. unfold ascii in Hc. unfold RuneError. zbool. lia.
Qed.

Section Canonical.
  Context `{UC : UnicodeCase}.

Lemma utf8Valid_ToLower s : utf8Valid (ToLower s) = true.
Proof. unfold ToLower. induction (runes s) as [|g gs IH]; [done|]. cbn [map concat]. by rewrite utf8Valid_encode. Qed.

Lemma utf8Valid_CanonicalHost h : utf8Valid (CanonicalHost h) = true.
Proof.
  unfold CanonicalHost, trimSuffix. pose proof (utf8Valid_ToLower (trimSpace h)) as H. set (s := ToLower _) in *.
  destruct (hasSuffix s (go ".")) eqn:E; [|done]. apply hasSuffix_spec in E as [t E]. rewrite E in *.
  rewrite length_app. cbn [length go]. change (length (go ".")) with 1%nat.
  rewrite Nat.add_sub, take_app_length. rewrite <- H. symmetry. by apply (utf8Valid_snoc t Byte.x2e).
Qed.

End Canonical.

(** ** Persisted routes *)

Record wfRoute (r : IngressRoute) : Prop := {
  wr_workload : utf8Valid (rt_Workload r) = true;
  wr_hosts : Forall (fun h => utf8Valid h = true) (rt_Hosts r);
  wr_path : utf8Valid (rt_Path r) = true;
  wr_type : utf8Valid (rt_PathType r) = true;
  wr_port : -2 ^ 63 <= rt_TargetPort r < 2 ^ 63;
}.

Definition routeObj (r : IngressRoute) : list (bytes * json) :=
  match routeJson r with JObj fs => fs | _ => [] end.

Lemma omitStr_fields k s : utf8Valid k = true -> utf8Valid s = true ->
  Forall (fun kv => utf8Valid (fst kv) = true /\ wfJson 1 (snd kv) /\ recJson (snd kv)) (omitStr k s).
Proof. intros Hk Hs. destruct s; repeat constructor; done. Qed.

Lemma route_fields r : wfRoute r ->
  Forall (fun kv => utf8Valid (fst kv) = true /\ wfJson 1 (snd kv) /\ recJson (snd kv)) (routeObj r).
Proof.
  intros [H1 H2 H3 H4 H5]. unfold routeObj, routeJson. rewrite !Forall_app. split_and!.
  - constructor; [by repeat constructor|]. apply Forall_singleton. split; [done|]. split.
    + constructor; [done|]. apply Forall_map. eapply Forall_impl; [exact H2|]. intros h Hh. by constructor.
    + constructor. apply Forall_map. eapply Forall_impl; [exact H2|]. intros h Hh. by constructor.
  - by apply omitStr_fields.
  - by apply omitStr_fields.
  - apply Forall_singleton. split_and!; [done|constructor; apply isNumber_formatInt|constructor].
  - destruct (rt_TLS r); [|constructor]. apply Forall_singleton. split_and!; [done|constructor..].
Qed.

Lemma route_json r : wfRoute r -> wfJson 0 (routeJson r) /\ recJson (routeJson r).
Proof.
  intros H%route_fields. change (routeJson r) with (JObj (routeObj r)). split.
  - constructor; [done|]. eapply Forall_impl; [exact H|]. intros kv (? & ? & _). done.
  - constructor. eapply Forall_impl; [exact H|]. intros kv (? & _ & ?). done.
Qed.

Lemma setRouteFields_app r a b : setRouteFields r (a ++ b) = setRouteFields r a ≫= fun r' => setRouteFields r' b.
Proof. revert r. induction a as [|[k v] a IH]; intros r; [done|]. cbn [app setRouteFields]. destruct (setRouteField r k v); [apply IH|done]. Qed.

Lemma mapM_asStr l : mapM (asStr []) (map JStr l) = Some l.
Proof. induction l as [|x l IH]; [done|]. cbn [map mapM asStr]. cbn. cbn in IH. by rewrite IH. Qed.

Lemma unmarshalRoute_marshal r : wfRoute r -> unmarshalRoute (marshalRoute r) = Some r.
Proof.
  intros H. unfold unmarshalRoute, marshalRoute. rewrite decode_encode by (by apply route_json). destruct H as [_ _ _ _ Hp].
  destruct r as [w hs p pt tp tls]. cbn [routeJson rt_Workload rt_Hosts rt_Path rt_PathType rt_TargetPort rt_TLS mbind option_bind] in *.
  rewrite setRouteFields_app.
  assert (setRouteFields zeroIngressRoute [(go "workload", JStr w); (go "hosts", JArr (map JStr hs))] = Some (mkIngressRoute w hs [] [] 0 false)) as ->.
  { transitivity (x ← mapM (asStr []) (map JStr hs); Some (mkIngressRoute w x [] [] 0 false)); [|by rewrite mapM_asStr].
    transitivity ((x ← mapM (asStr []) (map JStr hs); Some (mkIngressRoute w x [] [] 0 false)) ≫= fun r => Some r); [reflexivity|].
    by destruct (mapM _ _). }
  cbn [mbind option_bind]. rewrite setRouteFields_app.
  assert (setRouteFields (mkIngressRoute w hs [] [] 0 false) (omitStr (go "path") p) = Some (mkIngressRoute w hs p [] 0 false)) as -> by (by destruct p).
  cbn [mbind option_bind]. rewrite setRouteFields_app.
  assert (setRouteFields (mkIngressRoute w hs p [] 0 false) (omitStr (go "pathType") pt) = Some (mkIngressRoute w hs p pt 0 false)) as -> by (by destruct pt).
  cbn [mbind option_bind]. rewrite setRouteFields_app.
  assert (setRouteFields (mkIngressRoute w hs p pt 0 false) [(go "targetPort", JNum (formatInt tp))] = Some (mkIngressRoute w hs p pt tp false)) as ->.
  { transitivity (x ← parseInt64 (formatInt tp); Some (mkIngressRoute w hs p pt x false)); [|by rewrite parseInt64_format].
    transitivity ((x ← parseInt64 (formatInt tp); Some (mkIngressRoute w hs p pt x false)) ≫= fun r => Some r); [reflexivity|].
    by destruct (parseInt64 _). }
  by destruct tls.
Qed.

Lemma unmarshalRoute_cut r b : wfRoute r -> b `prefix_of` marshalRoute r -> unmarshalRoute b = None \/ unmarshalRoute b = Some r.
Proof.
  intros Hr Hb. destruct (decide (b = marshalRoute r)) as [->|Hne]; [right; by apply unmarshalRoute_marshal|]. left.
  unfold unmarshalRoute. destruct (route_json r Hr) as [Hw Hrec]. change (routeJson r) with (JObj (routeObj r)) in *.
  by rewrite (cut_object_lost (routeObj r)).
Qed.

(** ** The directory *)

(** Names that have a file of their own. *)
Definition persistable (w : bytes) : Prop := (slash ∉ w) /\ w <> [].

Lemma trimLeft_head {A} (f : A -> bool) s c t : trimLeft f s = c :: t -> f c = false.
Proof. induction s as [|x s IH]; cbn [trimLeft]; [done|]. destruct (f x) eqn:E; [done|]. by intros [= -> _]. Qed.

Lemma pathBase_nosep w : slash ∉ w -> w <> [] -> pathBase w = w.
Proof.
  intros Hs Hne. unfold pathBase. destruct w as [|c w]; [done|].
  assert (trimLeft (fun c => bool_decide (c = slash)) (rev (c :: w)) = rev (c :: w)) as ->.
  { apply trimLeft_id, Forall_rev, Forall_forall. intros x Hx. apply bool_decide_eq_false. by intros ->. }
  rewrite rev_involutive, split_nosep by done. done.
Qed.

(** What a base name can be that it is its own. *)
Lemma pathBase_own w : pathBase w = w -> w = [slash] \/ persistable w.
Proof.
  unfold pathBase. destruct w as [|c w]; [done|]. set (q := rev (trimLeft _ _)). destruct (rev (split slash q)) as [|l ls] eqn:E; [by left|].
  destruct q as [|y q'] eqn:Eq; [by left|]. intros <-. right. split; [|].
  - pose proof (split_parts_nosep slash (y :: q')) as Hf. rewrite Forall_forall in Hf. apply Hf.
    assert (Hin : l ∈ rev (split slash (y :: q'))) by (rewrite E; left). by rewrite <- Permutation_rev in Hin.
  - intros ->. pose proof (f_equal (@rev _) E) as E'. rewrite rev_involutive in E'. cbn [rev] in E'.
    pose proof (join_split slash (y :: q')) as Ej. rewrite E' in Ej. destruct (rev ls) as [|p ps] eqn:El; [done|].
    rewrite join_app in Ej by done. cbn [join] in Ej. rewrite app_nil_r in Ej.
    assert (Hq : exists x, rev q = slash :: x) by (rewrite Eq, <- Ej, rev_app_distr; by eexists).
    destruct Hq as [x Hx]. unfold q in Hx. rewrite rev_involutive in Hx. apply trimLeft_head in Hx. by rewrite bool_decide_true in Hx.
Qed.

Definition jsonName (w : bytes) : bytes := w ++ go ".json".

Lemma normalSeg_jsonName w : persistable w -> normalSeg (jsonName w).
Proof.
  intros [Hs Hne]. unfold jsonName, normalSeg. split_and!.
  - intros [?|Hin]%elem_of_app; [done|]. assert (Hb : bool_decide (slash ∈ go ".json") = false) by done.
    by apply bool_decide_eq_false in Hb.
  - by destruct w.
  - intros E%(f_equal length). rewrite length_app in E. cbn in E. lia.
  - intros E%(f_equal length). rewrite length_app in E. cbn in E. lia.
Qed.

Lemma pathExt_jsonName w : pathExt (jsonName w) = go ".json".
Proof.
  unfold pathExt, jsonName. rewrite rev_app_distr. change (rev (go ".json") ++ rev w) with (go "nosj" ++ Byte.x2e :: rev w).
  rewrite cutByte_app; [done|]. by apply (bool_decide_eq_false_1 (Byte.x2e ∈ go "nosj")).
Qed.

Lemma take_jsonName w : take (length (jsonName w) - 5) (jsonName w) = w.
Proof. unfold jsonName. rewrite length_app. change (length (go ".json")) with 5%nat. by rewrite Nat.add_sub, take_app_length. Qed.

Section Dir.
  Context (D : list bytes) (HD : Forall normalSeg D).

Definition fileOf (w : bytes) : bytes := absPath (D ++ [jsonName w]).

Lemma pathJoin_file w : persistable w -> pathJoin [absPath D; jsonName w] = fileOf w.
Proof.
  intros Hw. apply (pathJoin_abs (absPath D) D [jsonName w]); [done|by apply pathClean_absPath|done|].
  by apply Forall_singleton, normalSeg_jsonName.
Qed.

Lemma routeFile_file w : persistable w -> routeFile (absPath D) w = fileOf w.
Proof.
  intros Hw. unfold routeFile. rewrite pathBase_nosep, bytes_eqb_refl by apply Hw. cbn. by apply pathJoin_file.
Qed.

Lemma routeFile_none w : w <> [slash] -> ~ persistable w -> routeFile (absPath D) w = [].
Proof.
  intros Hw Hp. unfold routeFile. rewrite (bytes_eqb_neq w (pathBase w)); [by rewrite orb_true_r|].
  intros E. symmetry in E. apply pathBase_own in E as [?|?]; auto.
Qed.

Lemma fileOf_ne w : fileOf w <> [].
Proof. done. Qed.

Lemma fileOf_inj w w' : persistable w -> persistable w' -> fileOf w = fileOf w' -> w = w'.
Proof.
  intros Hw Hw' E. apply absPath_inj in E; [|apply Forall_app; split; [done|by apply Forall_singleton, normalSeg_jsonName]..].
  apply app_inj_tail in E as [_ E]. by apply (app_inv_tail (go ".json")).
Qed.

(** A directory that holds only files of deployments. *)
Definition ownFiles (d : Disk) : Prop :=
  forall p x, d !! p = Some x -> exists w b, persistable w /\ p = fileOf w /\ x = FFile b.

Lemma ReadDir_own d n isDir : ownFiles d ->
  (n, isDir) ∈ ReadDir (absPath D) d <-> isDir = false /\ exists w b, persistable w /\ n = jsonName w /\ d !! fileOf w = Some (FFile b).
Proof.
  intros Hd. unfold ReadDir. rewrite list_elem_of_omap. setoid_rewrite elem_of_sortStrings. setoid_rewrite list_elem_of_fmap.
  setoid_rewrite list_elem_of_filter. setoid_rewrite list_elem_of_fmap. split.
  - intros (n' & (p & -> & Hdir & [p' x] & -> & Hin%elem_of_map_to_list) & E). cbn [fst] in *.
    destruct (Hd _ _ Hin) as (w & b & Hw & -> & ->).
    assert (Eb : pathBase (fileOf w) = jsonName w) by (apply pathBase_absPath; [done|by apply normalSeg_jsonName]).
    rewrite Eb, pathJoin_file, Hin in E by done. injection E as <- <-. split; [done|]. by exists w, b.
  - intros (-> & w & b & Hw & -> & E). exists (jsonName w). split.
    + exists (fileOf w). split_and!.
      * symmetry. apply pathBase_absPath; [done|by apply normalSeg_jsonName].
      * apply pathDir_absPath; [done|by apply normalSeg_jsonName].
      * exists (fileOf w, FFile b). split; [done|]. by apply elem_of_map_to_list.
    + by rewrite pathJoin_file, E.
Qed.

End Dir.
