(* ===== verification/IngressFront.v ===== *)
(** * Ingress front door: every interleaving

    Deployments, deletions, recovery, aliases and restarts as one system. Each deployment
    and deletion is a thread of the actions [ing_apply] and [ing_remove] list; the server's
    lock per name is left out, which only adds behaviours. *)
From stdpp Require Import base list gmap strings numbers sorting.
From Stdlib Require Import ZArith Lia.
From Stdlib.Strings Require Import Byte.
From S2P Require Import Prelude GoStd GoNet GoPath GoJson GoUnicode GoJsonTorn Activity Ingress IngressTable IngressRecover.
Open Scope Z_scope.
Set Warnings "-register-all".

Section Front.
  Context `{UC : UnicodeCase}.

(** ** What a deployment asks for *)

Definition asks (spec : DeploySpec) (def : Defaults) (r : IngressRoute) : Prop :=
  exists i, spec_Ingress spec = Some i /\ ingressEnabled (Some i) = true /\ ing_Route i (spec_Ports spec) (spec_Name spec) def = Ok r.

Lemma bind_ok {E A B} (m : res E A) (f : A -> res E B) b : (m ≫= f) = Ok b -> exists a, m = Ok a /\ f a = Ok b.
Proof. destruct m as [a|e]; cbn; [|done]. intros H. by exists a. Qed.

Lemma explicitHosts_canonical domain hs l : explicitHosts domain hs = Ok l -> forall h, h ∈ l -> exists x, h = CanonicalHost x.
Proof.
  revert l. induction hs as [|x hs IH]; intros l; cbn [explicitHosts].
  - intros [= <-] h Hh. inversion Hh.
  - repeat split_if; try done; [apply IH|..]; intros (l' & E & [= <-])%bind_ok h [->|Hh]%elem_of_cons; eauto.
Qed.

Lemma enforceDomain_ok domain hosts : enforceDomain domain hosts = Ok () -> Forall (fun h => WithinDomain h domain = true) hosts.
Proof.
  induction hosts as [|h hs IH]; cbn [enforceDomain]; [constructor|]. destruct (WithinDomain h domain) eqn:E; cbn; [|done].
  intros H. constructor; auto.
Qed.

Lemma targetPort_ok i p0 ports tp : targetPort i (p0 :: ports) (pm_Container p0) = Ok tp -> tp ∈ map pm_Container (p0 :: ports).
Proof.
  unfold targetPort. destruct (ing_Port i =? 0); [intros [= <-]; left|]. split_if; [|done]. intros [= <-].
  apply existsb_exists in Heqb as (p & Hp & E). zbool. apply list_elem_of_fmap. exists p. split; [done|by apply list_elem_of_In].
Qed.

Lemma derivedHost_ok i name domain l : derivedHost i name domain = Ok l -> exists x, l = [CanonicalHost x].
Proof. unfold derivedHost. repeat split_if; try done; intros [= <-]; eauto. Qed.

(** What resolution guarantees. *)
Lemma Resolve_ok i ports name def hosts tp : ing_Resolve i ports name def = Ok (hosts, tp) ->
  ing_Validate i = Ok () /\ hosts <> [] /\ (forall h, h ∈ hosts -> exists x, h = CanonicalHost x) /\
  (EnforceDomain def = true -> def_Domain def <> [] -> Forall (fun h => WithinDomain h (def_Domain def) = true) hosts) /\
  tp ∈ map pm_Container ports.
Proof.
  unfold ing_Resolve. intros ([] & Hv & H)%bind_ok. destruct ports as [|p0 ports]; [done|]. cbv zeta in H.
  apply bind_ok in H as (l & Hl & H). apply bind_ok in H as (hs & Hhs & H). apply bind_ok in H as ([] & Hd & H).
  apply bind_ok in H as (tp' & Ht & [= <- <-]).
  assert (Hh : hs <> [] /\ forall h, h ∈ hs -> exists x, h = CanonicalHost x).
  { destruct l as [|h0 l]; cbn in Hhs.
    - apply derivedHost_ok in Hhs as [x ->]. split; [done|]. intros h ->%list_elem_of_singleton. by exists x.
    - injection Hhs as <-. split; [done|]. by apply (explicitHosts_canonical _ _ _ Hl). }
  split_and!; [done|apply Hh|apply Hh| |by apply targetPort_ok in Ht].
  intros He Hne. rewrite He, bytes_eqb_neq in Hd by done. cbn in Hd. by apply enforceDomain_ok.
Qed.

Lemma Route_ok i ports name def r : ing_Route i ports name def = Ok r ->
  exists hosts tp, ing_Resolve i ports name def = Ok (hosts, tp) /\
    r = mkIngressRoute name hosts (ing_Path i) (ing_PathType i) tp (match ing_TLS i with Some _ => true | None => false end).
Proof. unfold ing_Route. intros ([hosts tp] & E & [= <-])%bind_ok. by exists hosts, tp. Qed.

Lemma Validate_pathType i : ing_Validate i = Ok () -> utf8Valid (ing_PathType i) = true.
Proof.
  unfold ing_Validate. intros ([] & _ & H)%bind_ok. apply bind_ok in H as ([] & _ & H). cbv zeta in H.
  destruct (negb (bytes_eqb (trimSpace _) []) && _); [done|]. destruct (bytes_eqb (ing_PathType i) []) eqn:E.
  - apply bytes_eqb_spec in E as ->. done.
  - cbn in H. destruct (bool_decide _) eqn:Eb; [|done]. apply bool_decide_eq_true in Eb. set_unfold in Eb.
    destruct Eb as [->|[->|[->|[]]]]; by vm_compute.
Qed.

(** Specs as they arrive: JSON strings are valid UTF-8, ports are machine integers, and no
    deployment is called "/". *)
Record wfSpec (spec : DeploySpec) : Prop := {
  ws_name : utf8Valid (spec_Name spec) = true;
  ws_slash : spec_Name spec <> [slash];
  ws_ports : Forall (fun p => -2 ^ 63 <= pm_Container p < 2 ^ 63) (spec_Ports spec);
  ws_path : forall i, spec_Ingress spec = Some i -> utf8Valid (ing_Path i) = true;
}.

Lemma asks_wf spec def r : wfSpec spec -> asks spec def r -> wfRoute r /\ rt_Workload r = spec_Name spec.
Proof.
  intros [H1 _ H2 H3] (i & Ei & _ & (hosts & tp & E & ->)%Route_ok). apply Resolve_ok in E as (Hv & _ & Hc & _ & Ht).
  split; [|done]. split; cbn; [done| |by apply H3|by apply Validate_pathType|].
  - apply Forall_forall. intros h Hh. destruct (Hc h Hh) as [x ->]. apply utf8Valid_CanonicalHost.
  - apply list_elem_of_fmap in Ht as (p & -> & Hp). rewrite Forall_forall in H2. by apply H2.
Qed.

End Front.

(** ** The system *)

Record Front := mkFront {
  fr_mgr : ingressManager;
  fr_disk : Disk;
  fr_rec : option recovery;
  fr_threads : list (list ingAct);
  (** the deployments so far, with the defaults in force at the time *)
  fr_deployed : list (DeploySpec * Defaults);
}.

Inductive frontLabel : Type :=
| FDeploy (spec : DeploySpec)
| FDelete (workload : bytes)
| FAct (i : nat) (ord : list bytes) (w : writeRes) (ok : bool)
| FRecover (readable : bool)
| FRec (ord : list bytes) (listed : option (list bytes)) (ok : bool)
| FAlias (alias target : bytes)
| FRestart (def : Defaults).

Section System.
  Context `{UC : UnicodeCase}.

(** The order of a rebuild is some order of the deployments there are. *)
Definition ordOk (ord : list bytes) (m : ingressManager) : bool := bool_decide (ord ≡ₚ keys (byWorkload (mg_table m))).

Definition frontStep (l : frontLabel) (f : Front) : option Front :=
  let '(mkFront m d rc thr dep) := f in
  match l with
  | FDeploy spec => Some (mkFront m d rc (thr ++ [ing_apply (mg_defaults m) (mg_dir m) spec]) (dep ++ [(spec, mg_defaults m)]))
  | FDelete w => Some (mkFront m d rc (thr ++ [ing_remove (mg_dir m) w]) dep)
  | FAct i ord w ok =>
      match thr !! i with
      | Some (a :: rest) =>
          let '(m', d') := execAct ord w ok a (m, d) in
          if ordOk ord m' then Some (mkFront m' d' rc (<[i := rest]> thr) dep) else None
      | _ => None
      end
  | FRecover readable =>
      match rc with
      | None => let '(m', rc') := recStart readable m d in Some (mkFront m' d rc' thr dep)
      | Some _ => None
      end
  | FRec ord listed ok =>
      match rc with
      | Some r =>
          let '(m', d', rc') := recStep ord listed ok r m d in
          if ordOk ord m' then Some (mkFront m' d' rc' thr dep) else None
      | None => None
      end
  | FAlias a t => Some (mkFront (setTable (HostAlias a t (mg_table m)) m) d rc thr dep)
  | FRestart def => Some (mkFront (mkManager NewTable def (mg_dir m) false) d None [] dep)
  end.

Fixpoint runFront (ls : list frontLabel) (f : Front) : option Front :=
  match ls with
  | [] => Some f
  | l :: ls => frontStep l f ≫= runFront ls
  end.

Definition newFront (dataDir : bytes) (def : Defaults) : Front := mkFront (newIngressManager dataDir def) ∅ None [] [].

(** ** What holds throughout *)

(** A deployment of [w] asked for the route. *)
Definition wasAsked (dep : list (DeploySpec * Defaults)) (w : bytes) (r : IngressRoute) : Prop :=
  exists spec def, (spec, def) ∈ dep /\ wfSpec spec /\ spec_Name spec = w /\ asks spec def r.

Definition tableAsked (dep : list (DeploySpec * Defaults)) (t : Table) : Prop :=
  forall w rs r, byWorkload t !! w = Some rs -> r ∈ rs -> exists r0, wasAsked dep w r0 /\ normalizeRoute w r0 = Some r.

Definition actOk (D : list bytes) (dep : list (DeploySpec * Defaults)) (a : ingAct) : Prop :=
  match a with
  | ActSet w r => wasAsked dep w r
  | ActWrite p b => exists w r, persistable w /\ wasAsked dep w r /\ p = fileOf D w /\ b = marshalRoute r
  | ActRemove _ | ActUnlink _ => True
  end.

Definition fileOk (D : list bytes) (dep : list (DeploySpec * Defaults)) (p : bytes) (x : fnode) : Prop :=
  exists w r b, persistable w /\ wasAsked dep w r /\ p = fileOf D w /\ x = FFile b /\ b `prefix_of` marshalRoute r.

Definition pcOk (dep : list (DeploySpec * Defaults)) (pc : recPC) : Prop :=
  match pc with
  | RHas1 _ w r | RHas2 w r | RSet w r => wasAsked dep w r
  | _ => True
  end.

Definition entryOk (e : bytes * bool) : Prop := exists w, persistable w /\ e = (jsonName w, false).

Record frontOk (D : list bytes) (f : Front) : Prop := {
  fo_dir : mg_dir (fr_mgr f) = absPath D;
  fo_table : tableOk (mg_table (fr_mgr f));
  fo_asked : tableAsked (fr_deployed f) (mg_table (fr_mgr f));
  fo_disk : forall p x, fr_disk f !! p = Some x -> fileOk D (fr_deployed f) p x;
  fo_acts : Forall (Forall (actOk D (fr_deployed f))) (fr_threads f);
  fo_rec : forall rc, fr_rec f = Some rc -> Forall entryOk (rec_entries rc) /\ pcOk (fr_deployed f) (rec_pc rc);
}.

Lemma wasAsked_more dep x w r : wasAsked dep w r -> wasAsked (dep ++ [x]) w r.
Proof. intros (spec & def & Hin & H). exists spec, def. split; [by apply elem_of_app; left|done]. Qed.

Lemma wasAsked_wf dep w r : wasAsked dep w r -> wfRoute r /\ rt_Workload r = w.
Proof. intros (spec & def & _ & Hw & <- & Ha). by apply (asks_wf spec def). Qed.

Section Steps.
  Context (D : list bytes) (HD : Forall normalSeg D).

Lemma frontOk_more f spec : frontOk D f ->
  frontOk D (mkFront (fr_mgr f) (fr_disk f) (fr_rec f) (fr_threads f) (fr_deployed f ++ [spec])).
Proof.
  intros [H1 H2 H3 H4 H5 H6]. split; cbn; try done.
  - intros w rs r E Hr. destruct (H3 w rs r E Hr) as (r0 & Hr0 & En). exists r0. split; [by apply wasAsked_more|done].
  - intros p x E. destruct (H4 p x E) as (w & r & b & ? & Ha & ?). exists w, r, b. split; [done|]. split; [by apply wasAsked_more|done].
  - eapply Forall_impl; [exact H5|]. intros acts Ha. eapply Forall_impl; [exact Ha|]. intros [w r|w|p b|p]; cbn; try done.
    + apply wasAsked_more.
    + intros (w & r & ? & Ha' & ?). exists w, r. split; [done|]. split; [by apply wasAsked_more|done].
  - intros rc E. destruct (H6 rc E) as [He Hp]. split; [done|]. destruct (rec_pc rc); cbn in *; try done; by apply wasAsked_more.
Qed.

Lemma remove_acts dep w : Forall (actOk D dep) (ing_remove (absPath D) w).
Proof. unfold ing_remove. constructor; [done|]. cbv zeta. split_if; repeat constructor. Qed.

Lemma apply_acts dep def spec : wfSpec spec -> (spec, def) ∈ dep -> Forall (actOk D dep) (ing_apply def (absPath D) spec).
Proof.
  intros Hw Hin. unfold ing_apply. destruct (spec_Ingress spec) as [i|] eqn:Ei; [|apply remove_acts].
  destruct (ingressEnabled (Some i)) eqn:En; [|apply remove_acts].
  destruct (ing_Route i (spec_Ports spec) (spec_Name spec) def) as [r|e] eqn:Er; [|apply remove_acts].
  assert (Ha : wasAsked dep (spec_Name spec) r) by (exists spec, def; split_and!; [done..|by exists i]).
  constructor; [done|]. unfold ing_persist. cbv zeta. destruct (decide (persistable (spec_Name spec))) as [Hp|Hp].
  - rewrite (routeFile_file D HD), (bytes_eqb_neq (fileOf D _) []) by done. apply Forall_singleton. by exists (spec_Name spec), r.
  - rewrite (routeFile_none D); [constructor| |done]. apply Hw.
Qed.

Lemma tableAsked_Set dep ord w r t : wasAsked dep w r -> tableAsked dep t -> tableAsked dep (table_Set ord w [r] t).
Proof.
  intros Ha Ht w' rs r' E Hr. cbn [table_Set reindexLocked byWorkload] in E. apply setRoutes_lookup in E as [[-> ->]|[_ E]].
  - apply list_elem_of_omap in Hr as (r0 & Hr0%list_elem_of_singleton & En). subst r0. by exists r.
  - by apply (Ht w' rs).
Qed.

Lemma tableAsked_Remove dep ord w t : tableAsked dep t -> tableAsked dep (table_Remove ord w t).
Proof. intros Ht w' rs r E Hr. cbn in E. apply lookup_delete_Some in E as [_ E]. by apply (Ht w' rs). Qed.

Lemma tableAsked_Alias dep a x t : tableAsked dep t -> tableAsked dep (HostAlias a x t).
Proof. intros Ht. unfold HostAlias. cbv zeta. by repeat split_if. Qed.

Lemma WriteFile_lookup p b w d p' x : WriteFile p b w d !! p' = Some x ->
  d !! p' = Some x \/ (p' = p /\ exists b', x = FFile b' /\ b' `prefix_of` b).
Proof.
  assert (Hin : forall b' : bytes, <[p := FFile b']> d !! p' = Some x -> b' `prefix_of` b ->
    d !! p' = Some x \/ (p' = p /\ exists b', x = FFile b' /\ b' `prefix_of` b)).
  { intros b' [[<- <-]|[_ E]]%lookup_insert_Some Hb; [right; eauto|by left]. }
  unfold WriteFile. destruct (d !! p) as [[b0|]|], w as [| |n]; try (by left); intros E;
    eapply Hin; try exact E; first [reflexivity|exists (drop n b); by rewrite take_drop].
Qed.

(** One action of a thread. *)
Lemma frontOk_act m d rc thr dep i a rest ord w ok m' d' : frontOk D (mkFront m d rc thr dep) -> thr !! i = Some (a :: rest) ->
  execAct ord w ok a (m, d) = (m', d') -> ordOk ord m' = true -> frontOk D (mkFront m' d' rc (<[i := rest]> thr) dep).
Proof.
  intros [H1 H2 H3 H4 H5 H6] Ei Ex Ho%bool_decide_eq_true. cbn in *.
  assert (Hall : Forall (actOk D dep) (a :: rest)) by (by eapply (Forall_lookup_1 _ thr); eauto).
  apply Forall_cons_1 in Hall as [Ha Hrest].
  assert (Hthr : Forall (Forall (actOk D dep)) (<[i := rest]> thr)) by (by apply Forall_insert).
  destruct a as [wl r|wl|p b|p]; cbn in Ex; injection Ex as <- <-; split; cbn in *; try done.
  - by apply tableOk_Set.
  - by apply tableAsked_Set.
  - by apply tableOk_Remove.
  - by apply tableAsked_Remove.
  - intros p' x [Hx|(-> & b' & -> & Hb)]%WriteFile_lookup; [by apply H4|]. destruct Ha as (wl & r & Hp & Ha & -> & ->).
    by exists wl, r, b'.
  - intros p' x Hx. unfold unlink in Hx. destruct ok; [|by apply H4]. apply lookup_delete_Some in Hx as [_ Hx]. by apply H4.
Qed.

(** One step of the recovery. *)
Lemma frontOk_rec m d rc thr dep ord listed ok m' d' rc' : frontOk D (mkFront m d (Some rc) thr dep) ->
  recStep ord listed ok rc m d = (m', d', rc') -> ordOk ord m' = true -> frontOk D (mkFront m' d' rc' thr dep).
Proof.
  intros [H1 H2 H3 H4 H5 H6] Ex Ho%bool_decide_eq_true. cbn in *. destruct (H6 rc eq_refl) as [He Hpc]. clear H6.
  destruct rc as [live es pc]. cbn in He, Hpc. unfold recStep in Ex.
  destruct pc as [| |p w r|w r|w r|p].
  - injection Ex as <- <- <-. split; cbn; try done. by intros rc [= <-].
  - destruct es as [|[n isDir] es]; [injection Ex as <- <- <-; by split|]. apply Forall_cons_1 in He as [(w & Hw & [= -> ->]) He].
    rewrite pathExt_jsonName, bytes_eqb_refl in Ex. cbn [orb negb] in Ex. rewrite H1, (pathJoin_file D HD), take_jsonName in Ex by done.
    destruct (if ok then d !! fileOf D w else None) as [[b|]|] eqn:Eb.
    2,3: injection Ex as <- <- <-; split; cbn; try done; by intros rc [= <-].
    destruct (unmarshalRoute b) as [r|] eqn:Er; injection Ex as <- <- <-; split; cbn; try done; intros rc [= <-]; [|done].
    split; [done|]. cbn. destruct ok; [|done]. destruct (H4 _ _ Eb) as (w' & r0 & b' & Hw' & Ha & Ep & [= <-] & Hb).
    apply (fileOf_inj D HD) in Ep as <-; [|done..].
    destruct (unmarshalRoute_cut r0 b) as [E|E]; [by eapply wasAsked_wf|done|congruence|]. rewrite E in Er. by injection Er as ->.
  - injection Ex as <- <- <-. split; cbn; try done. intros rc [= <-]. split; [done|]. by case_match.
  - injection Ex as <- <- <-. split; cbn; try done. intros rc [= <-]. split; [done|]. by case_match.
  - injection Ex as <- <- <-. assert (setWorkload w r = r) as E.
    { destruct (wasAsked_wf dep w r Hpc) as [_ <-]. by destruct r. }
    rewrite E in *. split; cbn in *; try done; [by apply tableOk_Set|by apply tableAsked_Set|by intros rc [= <-]].
  - injection Ex as <- <- <-. split; cbn; try done; [|by intros rc [= <-]].
    intros p' x Hx. unfold unlink in Hx. destruct ok; [|by apply H4]. apply lookup_delete_Some in Hx as [_ Hx]. by apply H4.
Qed.

Lemma ownFiles_disk f : frontOk D f -> ownFiles D (fr_disk f).
Proof. intros H p x E. destruct (fo_disk D f H p x E) as (w & r & b & Hw & _ & -> & -> & _). by exists w, b. Qed.

Definition wfLabel (l : frontLabel) : Prop := match l with FDeploy spec => wfSpec spec | _ => True end.

Lemma frontOk_step l f f' : wfLabel l -> frontOk D f -> frontStep l f = Some f' -> frontOk D f'.
Proof.
  intros Hl Hf. destruct f as [m d rc thr dep]. destruct l as [spec|w|i ord w ok|readable|ord listed ok|a x|def]; cbn [frontStep].
  - intros [= <-]. pose proof (frontOk_more _ (spec, mg_defaults m) Hf) as [H1 H2 H3 H4 H5 H6]. cbn in *. split; cbn; try done.
    apply Forall_app. split; [done|]. apply Forall_singleton. rewrite H1. apply apply_acts; [done|]. apply elem_of_app. right. by left.
  - intros [= <-]. destruct Hf as [H1 H2 H3 H4 H5 H6]. cbn in *. split; cbn; try done.
    apply Forall_app. split; [done|]. apply Forall_singleton. rewrite H1. apply remove_acts.
  - destruct (thr !! i) as [[|a rest]|] eqn:Ei; [done| |done]. destruct (execAct ord w ok a (m, d)) as [m' d'] eqn:Ex.
    destruct (ordOk ord m') eqn:Eo; [|done]. intros [= <-]. by eapply frontOk_act.
  - destruct rc; [done|]. destruct (recStart readable m d) as [m' rc'] eqn:Ex. intros [= <-]. unfold recStart in Ex.
    pose proof (ownFiles_disk _ Hf) as Hown. destruct Hf as [H1 H2 H3 H4 H5 H6]. cbn in *.
    destruct (mg_recovered m || _); injection Ex as <- <-; split; cbn; try done. intros rc. destruct readable; [|done]. intros [= <-].
    split; [|done]. cbn. apply Forall_forall. intros [n isDir] Hin. rewrite H1 in Hin.
    apply (ReadDir_own D HD) in Hin as (-> & w & b & Hw & -> & _); [|done]. by exists w.
  - destruct rc as [rc|]; [|done]. destruct (recStep ord listed ok rc m d) as [[m' d'] rc'] eqn:Ex.
    destruct (ordOk ord m') eqn:Eo; [|done]. intros [= <-]. by eapply frontOk_rec.
  - intros [= <-]. destruct Hf as [H1 H2 H3 H4 H5 H6]. cbn in *. split; cbn; try done; [by apply tableOk_HostAlias|by apply tableAsked_Alias].
  - intros [= <-]. destruct Hf as [H1 H2 H3 H4 H5 H6]. cbn in *. split; cbn; try done. apply tableOk_new.
Qed.

Lemma frontOk_run ls f f' : Forall wfLabel ls -> frontOk D f -> runFront ls f = Some f' -> frontOk D f'.
Proof.
  intros Hl. revert f. induction Hl as [|l ls Hl _ IH]; intros f Hf; cbn [runFront]; [by intros [= <-]|].
  destruct (frontStep l f) as [f1|] eqn:E; [|done]. cbn. apply IH. by eapply frontOk_step.
Qed.

End Steps.

Lemma normalSeg_ingress : normalSeg (go "ingress").
Proof. split; [by apply (bool_decide_eq_false_1 (slash ∈ go "ingress"))|done]. Qed.

Lemma frontOk_new D0 def : Forall normalSeg D0 -> frontOk (D0 ++ [go "ingress"]) (newFront (absPath D0) def).
Proof.
  intros HD. split; cbn; try done; [|apply tableOk_new].
  by apply (pathJoin_abs (absPath D0) D0 [go "ingress"]); [|apply pathClean_absPath| |apply Forall_singleton, normalSeg_ingress].
Qed.

(** C1. Whatever is interleaved, cut short, crashed and recovered, a request is forwarded only to a
    workload and port that a deployment of this workload resolved to, for a host and a path
    it asked for, the port being one it publishes, and the host being in the server's domain
    when the server enforced it at the time. *)
Theorem served_as_deployed (D0 : list bytes) (def0 : Defaults) (ls : list frontLabel) (f : Front) (host path w : bytes) (port : Z) :
  Forall normalSeg D0 -> Forall wfLabel ls -> runFront ls (newFront (absPath D0) def0) = Some f ->
  proxy_ServeHTTP (mg_table (fr_mgr f)) host path = ForwardTo w port ->
  exists spec def i hosts h, (spec, def) ∈ fr_deployed f /\ spec_Name spec = w /\
    spec_Ingress spec = Some i /\ ingressEnabled (Some i) = true /\ ing_Resolve i (spec_Ports spec) w def = Ok (hosts, port) /\
    port ∈ map pm_Container (spec_Ports spec) /\ PathMatches (ing_Path i) (ing_PathType i) path = true /\
    h ∈ hosts /\ reaches (mg_table (fr_mgr f)) (CanonicalHost (stripPort host)) (CanonicalHost h) /\
    (EnforceDomain def = true -> def_Domain def <> [] -> WithinDomain h (def_Domain def) = true).
Proof.
  intros HD Hl Hrun E. assert (HD' : Forall normalSeg (D0 ++ [go "ingress"])).
  { apply Forall_app. split; [done|]. apply Forall_singleton, normalSeg_ingress. }
  pose proof (frontOk_run _ HD' ls _ f Hl (frontOk_new D0 def0 HD) Hrun) as Hf.
  pose proof (ServeHTTP_cases _ host path (fo_table _ _ Hf)) as H. rewrite E in H.
  destruct H as (hc & r & Hreach & (Hs & Hp & _) & Ew & Ep). destruct Hs as (w' & rs & Ers & Hr & Hh).
  pose proof (tbl_names _ (fo_table _ _ Hf) w' rs r Ers Hr) as Ew'. rewrite Ew in Ew'. subst w'.
  destruct (fo_asked _ _ Hf w rs r Ers Hr) as (r0 & (spec & def & Hin & Hspec & Hn & i & Ei & Hen & Er) & Enorm).
  apply normalizeRoute_Some in Enorm as (_ & E1 & E2 & E3 & Eh). apply Eh in Hh as (_ & h & Hh0 & ->).
  apply Route_ok in Er as (hosts & tp & Er & ->). cbn in *. rewrite Hn in Er.
  apply Resolve_ok in Er as Hok. destruct Hok as (_ & _ & _ & Hdom & Hport). rewrite Ep in E3. subst tp.
  exists spec, def, i, hosts, h. split_and!; try done.
  - unfold pathOk in Hp. by rewrite E1, E2 in Hp.
  - intros He Hne. specialize (Hdom He Hne). rewrite Forall_forall in Hdom. by apply Hdom.
Qed.

End System.

(** ** Examples *)

Definition exSpec (sub : bytes) : DeploySpec :=
  mkDeploySpec (go "web") [mkPortMapping 0 80 [] []] (Some (mkIngressSpec true [] [] sub [] [] 0 None false None)).

Definition exDefaults : Defaults := mkDefaults (go "Apps.example.com") [] [] true.

Lemma exSpec_wf sub : wfSpec (exSpec sub).
Proof. split; cbn; [by vm_compute|done|apply Forall_singleton; cbn; lia|]. intros i [= <-]. by vm_compute. Qed.

(** Deployed, its file written, the server restarted and the route recovered. *)
Definition exTrace : list frontLabel :=
  [FDeploy (exSpec []); FAct 0 [go "web"] WOk true; FAct 0 [go "web"] WOk true; FRestart exDefaults; FRecover true;
   FRec [] (Some [go "web"]) true; FRec [] None true; FRec [] None true; FRec [] None true; FRec [go "web"] None true].

Definition exFront (ls : list frontLabel) : Front :=
  default (newFront (go "/d") exDefaults) (@runFront asciiCase ls (newFront (go "/d") exDefaults)).

Lemma exFront_run ls : match @runFront asciiCase ls (newFront (go "/d") exDefaults) with Some _ => true | None => false end = true ->
  @runFront asciiCase ls (newFront (go "/d") exDefaults) = Some (exFront ls).
Proof. unfold exFront. by destruct (runFront ls _). Qed.

Lemma served_as_deployed_witness :
  exists spec def i hosts h, (spec, def) ∈ fr_deployed (exFront exTrace) /\ spec_Name spec = go "web" /\
    spec_Ingress spec = Some i /\ ingressEnabled (Some i) = true /\ @ing_Resolve asciiCase i (spec_Ports spec) (go "web") def = Ok (hosts, 80) /\
    80 ∈ map pm_Container (spec_Ports spec) /\ PathMatches (ing_Path i) (ing_PathType i) (go "/x") = true /\
    h ∈ hosts /\ reaches (mg_table (fr_mgr (exFront exTrace))) (@CanonicalHost asciiCase (stripPort (go "WEB.apps.example.com:80"))) (@CanonicalHost asciiCase h) /\
    (EnforceDomain def = true -> def_Domain def <> [] -> @WithinDomain asciiCase h (def_Domain def) = true).
Proof.
  apply (@served_as_deployed asciiCase [go "d"] exDefaults exTrace (exFront exTrace) (go "WEB.apps.example.com:80") (go "/x") (go "web") 80).
  - apply Forall_singleton. split; [by apply (bool_decide_eq_false_1 (slash ∈ go "d"))|done].
  - repeat (apply Forall_cons; split; [first [apply exSpec_wf|done]|]). constructor.
  - apply exFront_run. vm_compute. reflexivity.
  - vm_compute. reflexivity.
Defined.

(** The recovery looks whether a deployment has routes, and sets the persisted ones in a second critical
    section. What a redeployment publishes in between is overwritten, and what a deletion withdraws
    in between comes back. *)
Definition exUntilSet : list frontLabel := take 9 exTrace.

Lemma recovery_overwrites :
  let ls := exUntilSet ++ [FDeploy (exSpec (go "new")); FAct 0 [go "web"] WOk true; FAct 0 [go "web"] WOk true; FRec [go "web"] None true] in
  let answer h := @proxy_ServeHTTP asciiCase (mg_table (fr_mgr (exFront ls))) h (go "/") in
  answer (go "new.apps.example.com") = Misdirected /\ answer (go "web.apps.example.com") = ForwardTo (go "web") 80.
Proof. by vm_compute. Qed.

Lemma recovery_resurrects :
  let ls := exUntilSet ++ [FDelete (go "web"); FAct 0 [] WOk true; FAct 0 [] WOk true; FRec [go "web"] None true; FRec [go "web"] None true] in
  fr_rec (exFront ls) = None /\ map_to_list (fr_disk (exFront ls)) = [] /\
  @proxy_ServeHTTP asciiCase (mg_table (fr_mgr (exFront ls))) (go "web.apps.example.com") (go "/") = ForwardTo (go "web") 80.
Proof. split_and!; vm_compute; reflexivity. Qed.
