(* ===== verification/IngressRestart.v ===== *)
(** * Ingress front door: what a restart brings back

    Deployments and deletions one after the other, a crash inside any of them, and the
    recovery of the next server. [order] is the order in which Go goes through a map. *)
From stdpp Require Import base list gmap strings numbers sorting.
From Stdlib Require Import ZArith Lia.
From Stdlib.Strings Require Import Byte.
From S2P Require Import Prelude GoStd GoNet GoPath GoJson GoUnicode GoJsonTorn Activity Ingress IngressTable IngressRecover IngressFront.
Open Scope Z_scope.
Set Warnings "-register-all".

Section Restart.
  Context `{UC : UnicodeCase}.
  Context (order : gmap bytes (list IngressRoute) -> list bytes) (Horder : forall m, order m ≡ₚ keys m).

(** ** Running *)

Inductive seqOp : Type :=
| OpDeploy (spec : DeploySpec)
| OpDelete (workload : bytes).

Definition opName (o : seqOp) : bytes := match o with OpDeploy spec => spec_Name spec | OpDelete w => w end.

Definition opActs (m : ingressManager) (o : seqOp) : list ingAct :=
  match o with
  | OpDeploy spec => ing_apply (mg_defaults m) (mg_dir m) spec
  | OpDelete w => ing_remove (mg_dir m) w
  end.

(** The routes by deployment an action leaves. *)
Definition routesAfter (a : ingAct) (bw : gmap bytes (list IngressRoute)) : gmap bytes (list IngressRoute) :=
  match a with
  | ActSet w r => setRoutes w [r] bw
  | ActRemove w => delete w bw
  | _ => bw
  end.

Definition execSeq (w : writeRes) (ok : bool) (s : ingressManager * Disk) (a : ingAct) : ingressManager * Disk :=
  execAct (order (routesAfter a (byWorkload (mg_table (fst s))))) w ok a s.

Definition runOp (s : ingressManager * Disk) (o : seqOp) : ingressManager * Disk :=
  fold_left (execSeq WOk true) (opActs (fst s) o) s.

(** The server dies in an operation: [k] actions are done, one more may have ended in any way. *)
Definition cutOp (k : nat) (w : writeRes) (ok : bool) (o : seqOp) (s : ingressManager * Disk) : ingressManager * Disk :=
  let acts := opActs (fst s) o in
  fold_left (execSeq w ok) (take 1 (drop k acts)) (fold_left (execSeq WOk true) (take k acts) s).

Fixpoint recLoop (fuel : nat) (listed : option (list bytes)) (rc : recovery) (m : ingressManager) (d : Disk)
    : option (ingressManager * Disk) :=
  match fuel with
  | O => None
  | S fuel =>
      let ord := match rec_pc rc with RSet w r => order (setRoutes w [setWorkload w r] (byWorkload (mg_table m))) | _ => [] end in
      match recStep ord listed true rc m d with
      | (m', d', None) => Some (m', d')
      | (m', d', Some rc') => recLoop fuel listed rc' m' d'
      end
  end.

(** [recover], undisturbed: four steps for an entry are enough. *)
Definition ing_recover (listed : option (list bytes)) (m : ingressManager) (d : Disk) : option (ingressManager * Disk) :=
  match recStart true m d with
  | (m', None) => Some (m', d)
  | (m', Some rc) => recLoop (4 * length (rec_entries rc) + 2) listed rc m' d
  end.

(** The front door's handler: without a backend it answers 503 and tries again on the next
    request; the first request that finds one recovers the routes before it is answered. *)
Inductive lazyAnswer : Type :=
| Unavailable
| Answered (a : frontAnswer).

Definition lazyIngressHandler (latched backendUp : bool) (listed : option (list bytes)) (s : ingressManager * Disk) (host path : bytes)
    : option (lazyAnswer * bool * (ingressManager * Disk)) :=
  if latched then Some (Answered (proxy_ServeHTTP (mg_table (fst s)) host path), true, s)
  else if negb backendUp then Some (Unavailable, false, s)
  else '(m, d) ← ing_recover listed (fst s) (snd s); Some (Answered (proxy_ServeHTTP (mg_table m) host path), true, (m, d)).

(** ** One entry *)

Definition norm1 (w : bytes) (r : IngressRoute) : option (list IngressRoute) := r' ← normalizeRoute w r; Some [r'].

Lemma setRoutes_one w r m w' : setRoutes w [r] m !! w' = if decide (w' = w) then norm1 w r else m !! w'.
Proof.
  unfold setRoutes, norm1. cbn. destruct (normalizeRoute w r) as [r'|]; cbn; case_decide; subst.
  - by rewrite lookup_insert_eq.
  - by rewrite lookup_insert_ne.
  - by rewrite lookup_delete_eq.
  - by rewrite lookup_delete_ne.
Qed.

Definition alive (listed : option (list bytes)) (w : bytes) : bool :=
  match listed with Some names => bool_decide (w ∈ names) | None => true end.

(** What the recovery finds for a deployment. *)
Definition restored (D : list bytes) (listed : option (list bytes)) (d : Disk) (w : bytes) : option (list IngressRoute) :=
  match d !! fileOf D w with
  | Some (FFile b) => r ← unmarshalRoute b; if alive listed w then norm1 w r else None
  | _ => None
  end.

Record recInv (D : list bytes) (m : ingressManager) : Prop := {
  ri_dir : mg_dir m = absPath D;
  ri_table : tableOk (mg_table m);
  ri_some : noEmpty (byWorkload (mg_table m));
}.

Lemma table_Has_spec m w : noEmpty (byWorkload (mg_table m)) -> table_Has (mg_table m) w = bool_decide (is_Some (byWorkload (mg_table m) !! w)).
Proof.
  intros Hn. unfold table_Has. specialize (Hn w). destruct (_ !! w) as [[|r rs]|]; cbn; [done| |done].
  unfold blen. cbn. apply Z.ltb_lt. lia.
Qed.

Lemma normalizeRoute_setWorkload w r : normalizeRoute w (setWorkload w r) = normalizeRoute w r.
Proof. done. Qed.

Lemma noEmpty_setRoutes w r m : noEmpty m -> noEmpty (setRoutes w [r] m).
Proof. intros Hm w'. rewrite setRoutes_one. case_decide; [|apply Hm]. unfold norm1. by destruct (normalizeRoute w r). Qed.

Lemma recInv_Set D m w r : recInv D m -> recInv D (setTable (table_Set (order (setRoutes w [r] (byWorkload (mg_table m)))) w [r] (mg_table m)) m).
Proof. intros [H1 H2 H3]. split; cbn; [done|by apply tableOk_Set; [|apply Horder]|by apply noEmpty_setRoutes]. Qed.

Section Entry.
  Context (D : list bytes) (HD : Forall normalSeg D).

Lemma recLoop_S fuel l rc m d : recLoop (S fuel) l rc m d =
  match recStep (match rec_pc rc with RSet w r => order (setRoutes w [setWorkload w r] (byWorkload (mg_table m))) | _ => [] end) l true rc m d with
  | (m', d', None) => Some (m', d')
  | (m', d', Some rc') => recLoop fuel l rc' m' d'
  end.
Proof. done. Qed.

(** The steps for one entry: its routes are there unless they were already, and only its own file is touched. *)
Lemma recLoop_entry fuel l listed w es m d : recInv D m -> persistable w ->
  exists fuel' m' d', recLoop (4 + fuel) l (mkRecovery listed ((jsonName w, false) :: es) RNext) m d =
      recLoop fuel' l (mkRecovery listed es RNext) m' d' /\ (fuel <= fuel')%nat /\ recInv D m' /\
    (forall w', byWorkload (mg_table m') !! w' =
       match byWorkload (mg_table m) !! w' with Some x => Some x | None => if decide (w' = w) then restored D listed d w else None end) /\
    (forall p, p <> fileOf D w -> d' !! p = d !! p) /\ (d' !! fileOf D w = d !! fileOf D w \/ d' !! fileOf D w = None).
Proof.
  intros Hm Hw. pose proof Hm as [H1 H2 H3]. cbn [Nat.add]. rewrite recLoop_S. cbn [rec_pc recStep]. rewrite pathExt_jsonName, bytes_eqb_refl. cbn [orb negb].
  rewrite H1, (pathJoin_file D HD), take_jsonName by done. unfold restored. pose proof (table_Has_spec m w H3) as Hhas.
  assert (Hid : forall R, (forall w', w' = w -> byWorkload (mg_table m) !! w' = None -> R = None) ->
    forall w', byWorkload (mg_table m) !! w' = match byWorkload (mg_table m) !! w' with Some x => Some x | None => if decide (w' = w) then R else None end).
  { intros R HR w'. destruct (byWorkload (mg_table m) !! w') eqn:E; [done|]. case_decide; [symmetry; by apply (HR w')|done]. }
  destruct (d !! fileOf D w) as [[b|]|] eqn:Ed.
  2,3: eexists _, m, d; split; [reflexivity|]; split_and!; [lia|done|by apply Hid|done|by left].
  destruct (unmarshalRoute b) as [r|] eqn:Eb.
  2: { rewrite recLoop_S. cbn [rec_pc recStep]. eexists _, m, _. split; [reflexivity|]. split_and!; [lia|done|by apply Hid| |].
       - intros p Hp. cbn. by rewrite lookup_delete_ne.
       - right. cbn. apply lookup_delete_eq. }
  rewrite recLoop_S. cbn [rec_pc recStep mbind option_bind]. rewrite Hhas.
  destruct (decide (is_Some (byWorkload (mg_table m) !! w))) as [Hs|Hs].
  { rewrite bool_decide_true by done. assert (Hgone : match listed with Some names => bool_decide (w ∉ names) && negb true | None => false end = false).
    { destruct listed; [apply andb_false_r|done]. }
    rewrite Hgone, recLoop_S. cbn [rec_pc recStep]. rewrite Hhas, bool_decide_true by done.
    eexists _, m, d. split; [reflexivity|]. split_and!; [lia|done| |done|by left]. apply Hid. intros w' -> E. rewrite E in Hs. by destruct Hs. }
  rewrite bool_decide_false by done. cbn [negb]. destruct (alive listed w) eqn:Ea.
  - assert (Hgone : match listed with Some names => bool_decide (w ∉ names) && true | None => false end = false).
    { destruct listed as [names|]; [|done]. apply bool_decide_eq_true in Ea. rewrite bool_decide_false; [done|auto]. }
    rewrite Hgone, recLoop_S. cbn [rec_pc recStep]. rewrite Hhas, bool_decide_false by done. rewrite recLoop_S. cbn [rec_pc recStep].
    eexists _, _, d. split; [reflexivity|]. split_and!; [lia|by apply recInv_Set| |done|by left].
    intros w'. cbn [setTable mg_table table_Set reindexLocked byWorkload]. rewrite setRoutes_one. unfold norm1. rewrite normalizeRoute_setWorkload.
    case_decide as Ew; [subst w'|by destruct (_ !! w')]. destruct (byWorkload (mg_table m) !! w); [by destruct Hs|done].
  - assert (Hgone : match listed with Some names => bool_decide (w ∉ names) && true | None => false end = true).
    { destruct listed as [names|]; [|done]. apply bool_decide_eq_false in Ea. by rewrite bool_decide_true. }
    rewrite Hgone, recLoop_S. cbn [rec_pc recStep]. eexists _, m, _. split; [reflexivity|]. split_and!; [lia|done|by apply Hid| |].
    + intros p Hp. cbn. by rewrite lookup_delete_ne.
    + right. cbn. apply lookup_delete_eq.
Qed.

Lemma jsonName_inj w w' : jsonName w = jsonName w' -> w = w'.
Proof. apply app_inv_tail. Qed.

(** All entries. *)
Lemma recLoop_entries es fuel l listed m d : recInv D m -> Forall entryOk es -> (4 * length es + 1 <= fuel)%nat ->
  exists m' d', recLoop fuel l (mkRecovery listed es RNext) m d = Some (m', d') /\ recInv D m' /\
    forall w, byWorkload (mg_table m') !! w =
      match byWorkload (mg_table m) !! w with
      | Some x => Some x
      | None => if bool_decide ((jsonName w, false) ∈ es) then restored D listed d w else None
      end.
Proof.
  intros Hm He. revert fuel m d Hm. induction He as [|e es (w0 & Hw0 & ->) Hes IH]; intros fuel m d Hm Hf.
  { destruct fuel as [|fuel]; [cbn in Hf; lia|]. exists m, d. split; [done|]. split; [done|]. intros w. by destruct (_ !! w). }
  cbn [length] in Hf. replace fuel with (4 + (fuel - 4))%nat by lia.
  destruct (recLoop_entry (fuel - 4) l listed w0 es m d Hm Hw0) as (fuel' & m1 & d1 & -> & Hf' & Hm1 & Hb1 & Hd1 & Hd1').
  destruct (IH fuel' m1 d1 Hm1 ltac:(lia)) as (m' & d' & -> & Hm' & Hb'). exists m', d'. split; [done|]. split; [done|].
  intros w. rewrite Hb', Hb1. destruct (byWorkload (mg_table m) !! w); [done|]. case_decide as Ew.
  - subst w. rewrite (bool_decide_true ((jsonName w0, false) ∈ (jsonName w0, false) :: es)) by (apply elem_of_cons; by left).
    destruct (restored D listed d w0) eqn:Er; [done|]. case_bool_decide; [|done]. unfold restored in *.
    destruct Hd1' as [->| ->]; [|done]. done.
  - case_bool_decide as Hin; [|rewrite bool_decide_false; [done|]; intros [[= E%jsonName_inj]|?]%elem_of_cons; done].
    rewrite bool_decide_true by (apply elem_of_cons; by right). unfold restored. rewrite Hd1; [done|]. rewrite Forall_forall in Hes.
    destruct (Hes _ Hin) as (w1 & Hw1 & [= E%jsonName_inj]). subst w1. intros E%(fileOf_inj D HD); done.
Qed.

Lemma ing_recover_spec listed def d : ownFiles D d ->
  exists m' d', ing_recover listed (mkManager NewTable def (absPath D) false) d = Some (m', d') /\ recInv D m' /\
    forall w, byWorkload (mg_table m') !! w = if decide (persistable w) then restored D listed d w else None.
Proof.
  intros Hd. unfold ing_recover, recStart. cbn [mg_recovered mg_dir orb]. rewrite (bytes_eqb_neq (absPath D) []) by done.
  cbn [mg_table mg_defaults]. set (es := ReadDir (absPath D) d). cbn [rec_entries].
  assert (Hes : Forall entryOk es).
  { apply Forall_forall. intros [n b] Hin. apply (ReadDir_own D HD) in Hin as (-> & w & c & Hw & -> & _); [|done]. by exists w. }
  set (m := mkManager NewTable def (absPath D) true).
  assert (Hm : recInv D m) by (split; [done|apply tableOk_new|intros w; change (byWorkload (mg_table m)) with (∅ : gmap bytes (list IngressRoute)); by rewrite lookup_empty]).
  replace (4 * length es + 2)%nat with (S (4 * length es + 1)) by lia. rewrite recLoop_S. cbn [rec_pc recStep].
  destruct (recLoop_entries es (4 * length es + 1) listed listed m d Hm Hes ltac:(lia)) as (m' & d' & -> & Hm' & Hb).
  exists m', d'. split; [done|]. split; [done|]. intros w. rewrite Hb. change (byWorkload (mg_table m)) with (∅ : gmap bytes (list IngressRoute)). rewrite lookup_empty.
  case_bool_decide as Hin.
  - rewrite Forall_forall in Hes. destruct (Hes _ Hin) as (w1 & Hw1 & [= E%jsonName_inj]). subst w1. by rewrite decide_True.
  - case_decide as Hw; [|done]. unfold restored. destruct (d !! fileOf D w) as [[b|]|] eqn:Ed; [|done..].
    destruct Hin. apply (ReadDir_own D HD); [done|]. split; [done|]. by exists w, b.
Qed.

(** ** Operations one after the other *)

(** The files are those of the routes in force. *)
Record seqInv (s : ingressManager * Disk) : Prop := {
  si_dir : mg_dir (fst s) = absPath D;
  si_own : ownFiles D (snd s);
  si_routes : forall w, persistable w -> byWorkload (mg_table (fst s)) !! w = restored D None (snd s) w;
}.

Definition wfOp (o : seqOp) : Prop := match o with OpDeploy spec => wfSpec spec | OpDelete w => w <> [slash] end.

(** What an operation leaves of the others. *)
Definition sameElse (w0 : bytes) (s s' : ingressManager * Disk) : Prop :=
  (mg_dir (fst s') = mg_dir (fst s) /\ mg_defaults (fst s') = mg_defaults (fst s)) /\ ownFiles D (snd s') /\
  forall w, w <> w0 -> byWorkload (mg_table (fst s')) !! w = byWorkload (mg_table (fst s)) !! w /\
    (persistable w -> snd s' !! fileOf D w = snd s !! fileOf D w).

(** The actions of an operation, each about its deployment. *)
Definition actOf (w0 : bytes) (a : ingAct) : Prop :=
  match a with
  | ActSet w r => w = w0
  | ActRemove w => w = w0
  | ActWrite p b => persistable w0 /\ p = fileOf D w0
  | ActUnlink p => persistable w0 /\ p = fileOf D w0
  end.

Lemma opActs_of m o : mg_dir m = absPath D -> wfOp o -> Forall (actOf (opName o)) (opActs m o).
Proof.
  intros Hm Ho. assert (Hrem : forall w, w <> [slash] -> Forall (actOf w) (ing_remove (absPath D) w)).
  { intros w Hw. unfold ing_remove. constructor; [done|]. cbv zeta. destruct (decide (persistable w)).
    - rewrite (routeFile_file D HD), (bytes_eqb_neq (fileOf D w) []) by done. by apply Forall_singleton.
    - by rewrite (routeFile_none D). }
  destruct o as [spec|w]; cbn [opActs opName]; rewrite Hm; [|by apply Hrem]. pose proof (ws_slash spec Ho) as Hs. unfold ing_apply.
  destruct (spec_Ingress spec) as [i|]; [|by apply Hrem]. destruct (ingressEnabled (Some i)); [|by apply Hrem].
  destruct (ing_Route _ _ _ _) as [r|]; [|by apply Hrem]. constructor; [done|]. unfold ing_persist. cbv zeta.
  destruct (decide (persistable (spec_Name spec))).
  - rewrite (routeFile_file D HD), (bytes_eqb_neq (fileOf D _) []) by done. by apply Forall_singleton.
  - by rewrite (routeFile_none D).
Qed.

Lemma exec_sameElse w0 w ok a s : actOf w0 a -> ownFiles D (snd s) -> sameElse w0 s (execSeq w ok s a).
Proof.
  intros Ha Hown. destruct s as [m d]. unfold execSeq. destruct a as [wl r|wl|p b|p]; cbn [actOf execAct fst snd] in *.
  - subst wl. split_and!; [done..|]. intros w' Hne. cbn [fst snd setTable mg_table table_Set reindexLocked byWorkload]. split; [|done]. rewrite setRoutes_one. by case_decide.
  - subst wl. split_and!; [done..|]. intros w' Hne. cbn [fst snd setTable mg_table table_Remove reindexLocked byWorkload]. split; [|done]. by rewrite lookup_delete_ne.
  - destruct Ha as [Hw ->]. split_and!; [done|done| |].
    + intros p x [Hx|(-> & b' & -> & _)]%WriteFile_lookup; [by apply Hown|]. by exists w0, b'.
    + intros w' Hne. split; [done|]. intros Hw'. unfold WriteFile. cbn. assert (fileOf D w0 <> fileOf D w') by (intros E%(fileOf_inj D HD); done).
      destruct (d !! fileOf D w0) as [[b0|]|], w; try done; by rewrite lookup_insert_ne.
  - destruct Ha as [Hw ->]. split_and!; [done|done| |].
    + intros p x Hx. cbn [snd] in Hx. unfold unlink in Hx. destruct ok; [|by apply Hown]. apply lookup_delete_Some in Hx as [_ Hx]. by apply Hown.
    + intros w' Hne. split; [done|]. intros Hw'. assert (fileOf D w0 <> fileOf D w') by (intros E%(fileOf_inj D HD); done).
      unfold unlink. cbn [snd]. destruct ok; [|done]. by rewrite lookup_delete_ne.
Qed.

Lemma sameElse_trans w0 s1 s2 s3 : sameElse w0 s1 s2 -> sameElse w0 s2 s3 -> sameElse w0 s1 s3.
Proof.
  intros ([A0 A1] & A2 & A3) ([B0 B1] & B2 & B3). split; [split; congruence|]. split; [done|]. intros w Hw.
  destruct (A3 w Hw) as [A4 A5], (B3 w Hw) as [B4 B5]. split; [congruence|]. intros Hp. by rewrite B5, A5.
Qed.

Lemma acts_sameElse w0 w ok acts s : Forall (actOf w0) acts -> ownFiles D (snd s) -> sameElse w0 s (fold_left (execSeq w ok) acts s).
Proof.
  intros Ha. revert s. induction Ha as [|a acts Ha _ IH]; intros s Hown; cbn [fold_left]; [done|].
  pose proof (exec_sameElse w0 w ok a s Ha Hown) as H1. eapply sameElse_trans; [exact H1|]. apply IH, H1.
Qed.

(** The file of the operation's own deployment: as it was, gone, or a beginning of the new one. *)
Definition newFile (s : ingressManager * Disk) (o : seqOp) (x : option fnode) : Prop :=
  exists spec r b, o = OpDeploy spec /\ asks spec (mg_defaults (fst s)) r /\ x = Some (FFile b) /\ b `prefix_of` marshalRoute r.

Definition writesNew (s : ingressManager * Disk) (o : seqOp) (a : ingAct) : Prop :=
  match a with
  | ActWrite _ b => exists spec r, o = OpDeploy spec /\ asks spec (mg_defaults (fst s)) r /\ b = marshalRoute r
  | _ => True
  end.

Lemma opActs_new s o : Forall (writesNew s o) (opActs (fst s) o).
Proof.
  assert (Hrem : forall dir w, Forall (writesNew s o) (ing_remove dir w)).
  { intros dir w. unfold ing_remove. constructor; [done|]. cbv zeta. split_if; repeat constructor. }
  destruct o as [spec|w]; cbn [opActs]; [|apply Hrem]. unfold ing_apply. destruct (spec_Ingress spec) as [i|] eqn:Ei; [|apply Hrem].
  destruct (ingressEnabled (Some i)) eqn:En; [|apply Hrem]. destruct (ing_Route _ _ _ _) as [r|] eqn:Er; [|apply Hrem].
  constructor; [done|]. unfold ing_persist. cbv zeta. split_if; [constructor|]. apply Forall_singleton. exists spec, r.
  split; [done|]. split; [by exists i|done].
Qed.

Lemma exec_file s0 o w ok a s p : writesNew s0 o a ->
  snd (execSeq w ok s a) !! p = snd s !! p \/ snd (execSeq w ok s a) !! p = None \/ newFile s0 o (snd (execSeq w ok s a) !! p).
Proof.
  intros Ha. destruct s as [m d]. unfold execSeq. destruct a as [wl r|wl|p' b|p']; cbn [execAct snd fst]; [by left..| |].
  - destruct Ha as (spec & r & -> & Hr & ->). destruct (WriteFile p' (marshalRoute r) w d !! p) as [x|] eqn:E; [|by right; left].
    apply WriteFile_lookup in E as [E|(-> & b & -> & Hb)]; [by left|]. right. right. by exists spec, r, b.
  - unfold unlink. destruct ok; [|by left]. destruct (decide (p = p')) as [->|Hne].
    + right. left. apply lookup_delete_eq.
    + left. by rewrite lookup_delete_ne.
Qed.

Lemma acts_file s0 o w ok acts s p : Forall (writesNew s0 o) acts -> let s' := fold_left (execSeq w ok) acts s in
  snd s' !! p = snd s !! p \/ snd s' !! p = None \/ newFile s0 o (snd s' !! p).
Proof.
  intros Ha. cbv zeta. revert s. induction Ha as [|a acts Ha _ IH]; intros s; cbn [fold_left]; [by left|].
  destruct (IH (execSeq w ok s a)) as [E|[E|E]]; [|by right; left|by right; right]. rewrite E. by apply exec_file.
Qed.

Lemma runOp_seqInv s o : seqInv s -> wfOp o -> seqInv (runOp s o).
Proof.
  intros [H1 H2 H3] Ho. pose proof (acts_sameElse (opName o) WOk true _ s (opActs_of (fst s) o H1 Ho) H2) as (S1 & S2 & S3).
  fold (runOp s o) in S1, S2, S3. destruct S1 as [S0 S1]. split; [congruence|done|]. intros w Hw.
  destruct (decide (w = opName o)) as [->|Hne].
  2: { destruct (S3 w Hne) as [-> E]. rewrite H3 by done. unfold restored. by rewrite E. }
  clear S0 S1 S2 S3. destruct s as [m d]. cbn [fst snd] in *. unfold runOp. cbn [fst].
  assert (Hrem : opActs m o = ing_remove (absPath D) (opName o) -> byWorkload (mg_table (fst (fold_left (execSeq WOk true) (opActs m o) (m, d)))) !! opName o =
    restored D None (snd (fold_left (execSeq WOk true) (opActs m o) (m, d))) (opName o)).
  { intros ->. unfold ing_remove. cbv zeta. rewrite (routeFile_file D HD), (bytes_eqb_neq (fileOf D _) []) by done.
    cbn [fold_left execSeq execAct fst snd unlink setTable mg_table table_Remove reindexLocked byWorkload].
    unfold restored. by rewrite !lookup_delete_eq. }
  destruct o as [spec|w]; cbn [opName wfOp opActs] in *; [|apply Hrem; by rewrite H1]. revert Hrem. rewrite H1. unfold ing_apply.
  destruct (spec_Ingress spec) as [i|] eqn:Ei; [|auto]. destruct (ingressEnabled (Some i)) eqn:En; [|auto].
  destruct (ing_Route i (spec_Ports spec) (spec_Name spec) (mg_defaults m)) as [r|] eqn:Er; [|auto]. intros _.
  assert (Hr : wfRoute r) by (eapply (asks_wf spec (mg_defaults m)); [done|by exists i]).
  unfold ing_persist. cbv zeta. rewrite (routeFile_file D HD), (bytes_eqb_neq (fileOf D _) []) by done.
  cbn [fold_left execSeq execAct fst snd setTable mg_table table_Set reindexLocked byWorkload]. rewrite setRoutes_one, decide_True by done.
  unfold restored. assert (WriteFile (fileOf D (spec_Name spec)) (marshalRoute r) WOk d !! fileOf D (spec_Name spec) = Some (FFile (marshalRoute r))) as ->.
  { unfold WriteFile. destruct (d !! fileOf D (spec_Name spec)) as [x|] eqn:Ed; [|apply lookup_insert_eq].
    destruct (H2 _ _ Ed) as (w1 & b1 & _ & _ & ->). apply lookup_insert_eq. }
  by rewrite unmarshalRoute_marshal.
Qed.

Lemma runOps_seqInv ops s : seqInv s -> Forall wfOp ops ->
  seqInv (fold_left runOp ops s) /\ mg_defaults (fst (fold_left runOp ops s)) = mg_defaults (fst s).
Proof.
  intros Hs Ho. revert s Hs. induction Ho as [|o ops Ho _ IH]; intros s Hs; cbn [fold_left]; [done|].
  destruct (IH (runOp s o) (runOp_seqInv s o Hs Ho)) as [I1 I2]. split; [done|]. rewrite I2. destruct Hs as [H1 H2 _].
  by destruct (acts_sameElse (opName o) WOk true _ s (opActs_of (fst s) o H1 Ho) H2) as ([_ E] & _).
Qed.

Lemma restored_alive listed d w : restored D listed d w = if alive listed w then restored D None d w else None.
Proof. unfold restored. cbn [alive]. destruct (d !! fileOf D w) as [[b|]|], (alive listed w); try done; by destruct (unmarshalRoute b). Qed.

Lemma cutOp_sameElse k w ok o s : seqInv s -> wfOp o -> sameElse (opName o) s (cutOp k w ok o s).
Proof.
  intros [H1 H2 _] Ho. pose proof (opActs_of (fst s) o H1 Ho) as Ha. unfold cutOp. cbv zeta.
  pose proof (acts_sameElse (opName o) WOk true (take k (opActs (fst s) o)) s (Forall_take _ _ _ Ha) H2) as Hp.
  eapply sameElse_trans; [exact Hp|]. apply acts_sameElse; [|apply Hp]. by apply Forall_take, Forall_drop.
Qed.

Lemma cutOp_file k w ok o s p : let s' := cutOp k w ok o s in
  snd s' !! p = snd s !! p \/ snd s' !! p = None \/ newFile s o (snd s' !! p).
Proof.
  cbv zeta. pose proof (opActs_new s o) as Ha. unfold cutOp. cbv zeta.
  destruct (acts_file s o w ok (take 1 (drop k (opActs (fst s) o))) (fold_left (execSeq WOk true) (take k (opActs (fst s) o)) s) p) as [E|E];
    [by apply Forall_take, Forall_drop| |by right]. rewrite E. by apply acts_file, Forall_take.
Qed.

End Entry.

(** C4. A server that has served any deployments and deletions is killed in the middle of one more,
    at any point of it and with its write cut anywhere. The recovery of the next server, under
    whatever defaults, ends, and brings back exactly the routes there were of every other
    deployment that the backend still lists and whose name has a file; of the one being
    changed it brings back the old routes, the new ones, or none. *)
Theorem restart_restores (D0 : list bytes) (def def' : Defaults) (ops : list seqOp) (o : seqOp) (k : nat) (wr : writeRes) (ok : bool)
    (listed : option (list bytes)) :
  Forall normalSeg D0 -> Forall wfOp ops -> wfOp o ->
  let s := fold_left runOp ops (newIngressManager (absPath D0) def, ∅) in
  let before := byWorkload (mg_table (fst s)) in
  exists m d, ing_recover listed (newIngressManager (absPath D0) def') (snd (cutOp k wr ok o s)) = Some (m, d) /\ tableOk (mg_table m) /\
    (forall w, w <> opName o ->
       byWorkload (mg_table m) !! w = if decide (persistable w) then if alive listed w then before !! w else None else None) /\
    (byWorkload (mg_table m) !! opName o = None \/ byWorkload (mg_table m) !! opName o = before !! opName o \/
     exists spec r, o = OpDeploy spec /\ asks spec def r /\ byWorkload (mg_table m) !! opName o = norm1 (opName o) r).
Proof.
  intros HD Hops Ho. cbv zeta. set (D := D0 ++ [go "ingress"]).
  assert (HD' : Forall normalSeg D) by (apply Forall_app; split; [done|apply Forall_singleton, normalSeg_ingress]).
  assert (Edir : pathJoin [absPath D0; go "ingress"] = absPath D).
  { by apply (pathJoin_abs (absPath D0) D0 [go "ingress"]); [|apply pathClean_absPath| |apply Forall_singleton, normalSeg_ingress]. }
  assert (Enew : forall df, newIngressManager (absPath D0) df = mkManager NewTable df (absPath D) false).
  { intros df. unfold newIngressManager. by rewrite (bytes_eqb_neq (absPath D0) []), Edir. }
  rewrite !Enew. set (s0 := (mkManager NewTable def (absPath D) false, ∅ : Disk)).
  assert (H0 : seqInv D s0).
  { split; [done|intros p x E; cbn in E; by rewrite lookup_empty in E|]. intros w _. unfold restored. cbn. by rewrite !lookup_empty. }
  destruct (runOps_seqInv D HD' ops s0 H0 Hops) as [Hs Hdef]. set (s := fold_left runOp ops s0) in *.
  destruct (cutOp_sameElse D HD' k wr ok o s Hs Ho) as (_ & Hown & Hsame).
  destruct (ing_recover_spec D HD' listed def' (snd (cutOp k wr ok o s)) Hown) as (m & d & E & Hm & Hb).
  exists m, d. split; [done|]. split; [apply Hm|]. split.
  - intros w Hw. rewrite Hb. case_decide as Hp; [|done]. rewrite restored_alive. destruct (alive listed w); [|done].
    rewrite (si_routes D s Hs w Hp). unfold restored. by rewrite (proj2 (Hsame w Hw) Hp).
  - rewrite Hb. case_decide as Hp; [|by left]. rewrite restored_alive. destruct (alive listed (opName o)); [|by left].
    rewrite (si_routes D s Hs _ Hp). unfold restored.
    destruct (cutOp_file k wr ok o s (fileOf D (opName o))) as [->|[->|(spec & r & b & -> & Ha & -> & Hb')]]; [by right; left|by left|].
    assert (Hr : wfRoute r) by (by eapply (asks_wf spec)).
    destruct (unmarshalRoute_cut r b Hr Hb') as [->| ->]; [by left|]. right. right. exists spec, r. split; [done|]. split; [|done].
    by rewrite Hdef in Ha.
Qed.

End Restart.

(** ** Example *)

Definition exApi : DeploySpec :=
  mkDeploySpec (go "api") [mkPortMapping 0 8080 [] []] (Some (mkIngressSpec false [go "@"] [] [] (go "/api") (go "Exact") 0 None false None)).

Lemma exApi_wf : wfSpec exApi.
Proof. split; cbn; [by vm_compute|done|apply Forall_singleton; cbn; lia|]. intros i [= <-]. by vm_compute. Qed.

Definition exRecovered : option (ingressManager * Disk) :=
  @ing_recover asciiCase keys None (newIngressManager (go "/d") exDefaults)
    (snd (@cutOp asciiCase keys 1 (WTorn 20) true (OpDeploy exApi)
      (fold_left (@runOp asciiCase keys) [OpDeploy (exSpec [])] (newIngressManager (go "/d") exDefaults, ∅)))).

Lemma restart_restores_witness :
  exists m d, exRecovered = Some (m, d) /\
    (byWorkload (mg_table m) !! go "web" =
     byWorkload (mg_table (fst (fold_left (@runOp asciiCase keys) [OpDeploy (exSpec [])] (newIngressManager (go "/d") exDefaults, ∅)))) !! go "web").
Proof.
  destruct (@restart_restores asciiCase keys (fun m => Permutation_refl (keys m)) [go "d"] exDefaults exDefaults [OpDeploy (exSpec [])] (OpDeploy exApi)
    1 (WTorn 20) true None) as (m & d & E & _ & Hw & _).
  - apply Forall_singleton. split; [by apply (bool_decide_eq_false_1 (slash ∈ go "d"))|done].
  - apply Forall_singleton. apply exSpec_wf.
  - apply exApi_wf.
  - exists m, d. split; [exact E|]. rewrite (Hw (go "web")) by done.
    rewrite decide_True; [done|]. split; [by apply (bool_decide_eq_false_1 (slash ∈ go "web"))|done].
Defined.
