(* ===== verification/IngressTunnel.v ===== *)
(** * Ingress front door: public tunnels

    pkg/server/ingress_tunnel.go and the sessions of pkg/server/deploy_tunnel.go: what a
    tunnel fronts, which host it is for, and the alias that makes its public hostname
    route. A session is an object others point to, so sessions live in a store. The
    provider's URL, what [hostOfURL] reads from it, and what the deploy backend reports are
    inputs; credentials, side channels and the bridged bytes are left out. *)
From stdpp Require Import base list gmap strings numbers sorting.
From Stdlib Require Import ZArith Lia.
From Stdlib.Strings Require Import Byte.
From S2P Require Import Prelude GoStd GoNet GoPath GoJson GoUnicode GoJsonTorn Activity Ingress IngressTable IngressRecover IngressFront IngressRestart.
Open Scope Z_scope.
Set Warnings "-register-all".

(** ** Scopes *)

Record ingressTunnelScope := mkScope { sc_project : bytes; sc_deployment : bytes }.

Definition scope_key (s : ingressTunnelScope) : bytes :=
  if negb (bytes_eqb (sc_project s) []) then go "ingress/project/" ++ sc_project s else go "ingress/deployment/" ++ sc_deployment s.

Inductive tunnelError : Type :=
| ErrBothScopes
| ErrNoScope
| ErrListing
| ErrNoIngress
| ErrHostOutside (host : bytes)
| ErrWhichHost
| ErrRewriteController
| ErrRawMux
| ErrNoTunnel.

Definition newIngressTunnelScope (project deployment : bytes) : res tunnelError ingressTunnelScope :=
  let project := trimSpace project in
  let deployment := trimSpace deployment in
  if negb (bytes_eqb project []) && negb (bytes_eqb deployment []) then Err ErrBothScopes
  else if negb (bytes_eqb project []) then Ok (mkScope project [])
  else if negb (bytes_eqb deployment []) then Ok (mkScope [] deployment)
  else Err ErrNoScope.

(** ** What a tunnel fronts *)

(** What the deploy backend answers: the deployments with the project they come from, and, if it
    has an ingress controller, the hosts of a deployment and whether the controller can be
    reached, for TLS or not. *)
Record deployBackend := mkBackend {
  bk_list : option (list (bytes * option bytes));
  bk_gateway : option ((bytes -> option (list bytes)) * (bool -> bool));
}.

Definition workloadsInScope (b : deployBackend) (s : ingressTunnelScope) : res tunnelError (list bytes) :=
  if negb (bytes_eqb (sc_deployment s) []) then Ok [sc_deployment s]
  else
    match bk_list b with
    | None => Err ErrListing
    | Some sts => Ok (map fst (filter (fun st => snd st = Some (sc_project s)) sts))
    end.

(** What is live, by key: the public name and the host it stands for, if it needs an alias. *)
Abbreviation liveTunnels := (gmap bytes (option (bytes * bytes))).

Section Tunnel.
  Context `{UC : UnicodeCase}.

Definition hostsOfWorkload (t : Table) (b : deployBackend) (w : bytes) : list bytes :=
  match bk_gateway b with
  | Some (hosts, _) =>
      match hosts w with
      | Some (h :: hs) => h :: hs
      | _ => table_HostsFor t w
      end
  | None => table_HostsFor t w
  end.

Definition ingressHostsFor (t : Table) (b : deployBackend) (s : ingressTunnelScope) : res tunnelError (list bytes) :=
  workloadsInScope b s ≫= fun ws =>
  Ok (sortStrings (remove_dups (filter (fun h => h <> []) (map CanonicalHost (concat (map (hostsOfWorkload t b) ws)))))).

Inductive frontKind : Type :=
| Controller
| Mux.

Definition resolveIngressFront (t : Table) (b : deployBackend) (s : ingressTunnelScope) (raw : bool)
    : res tunnelError (frontKind * list bytes) :=
  ingressHostsFor t b s ≫= fun hosts =>
  if (length hosts =? 0)%nat then Err ErrNoIngress
  else
    match bk_gateway b with
    | Some (_, dial) => if dial raw then Ok (Controller, hosts) else Ok (Mux, hosts)
    | None => Ok (Mux, hosts)
    end.

(** [strings.EqualFold] with "tcp", whose letters fold only with their capitals *)
Definition isRawProto (proto : bytes) : bool := bytes_eqb (toLower (trimSpace proto)) (go "tcp").

(** The host mode the bridge settles, or why there is no bridge. *)
Definition ingressBridge (front : frontKind) (hostMode proto : bytes) : res tunnelError bytes :=
  match front with
  | Controller => if bytes_eqb hostMode (go "rewrite") then Err ErrRewriteController else Ok (go "passthrough")
  | Mux => if isRawProto proto then Err ErrRawMux else Ok hostMode
  end.

(** ** Sessions *)

(** [ts_cleanup]: the hostnames whose alias its cleanups withdraw. *)
Record tunnelSession := mkSession { ts_url : bytes; ts_cleanup : list bytes; ts_torn : bool; ts_dead : bool }.

Record tunnelManager := mkTunnels { tm_sessions : gmap bytes nat; tm_store : gmap nat tunnelSession }.

Definition tstate : Type := tunnelManager * Table.

Definition withdraw (t : Table) (h : bytes) : Table := HostAlias h [] t.

Definition setSession (id : nat) (ts : tunnelSession) (m : tunnelManager) : tunnelManager :=
  mkTunnels (tm_sessions m) (<[id := ts]> (tm_store m)).

Definition addCleanup (id : nat) (h : bytes) (s : tstate) : tstate :=
  let '(m, t) := s in
  match tm_store m !! id with
  | Some ts =>
      if ts_torn ts then (m, withdraw t h)
      else (setSession id (mkSession (ts_url ts) (ts_cleanup ts ++ [h]) false (ts_dead ts)) m, t)
  | None => s
  end.

Definition runCleanups (id : nat) (s : tstate) : tstate :=
  let '(m, t) := s in
  match tm_store m !! id with
  | Some ts => (setSession id (mkSession (ts_url ts) [] true (ts_dead ts)) m, fold_left withdraw (ts_cleanup ts) t)
  | None => s
  end.

(** Closing the relay ends the accept loop. *)
Definition teardown (id : nat) (s : tstate) : tstate :=
  let '(m, t) := runCleanups id s in
  match tm_store m !! id with
  | Some ts => (setSession id (mkSession (ts_url ts) (ts_cleanup ts) (ts_torn ts) true) m, t)
  | None => (m, t)
  end.

(** Publishing a session under its key, and what it replaces. *)
Definition publishSession (key url : bytes) (id : nat) (s : tstate) : tstate * option nat :=
  let '(m, t) := s in
  ((mkTunnels (<[key := id]> (tm_sessions m)) (<[id := mkSession url [] false false]> (tm_store m)), t), tm_sessions m !! key).

(** [startSession], the provider having answered with [url] for the new session [id]. *)
Definition startSession (key url : bytes) (id : nat) (s : tstate) : tstate :=
  let '(s, old) := publishSession key url id s in
  match old with Some o => teardown o s | None => s end.

Definition tunnel_stop (key : bytes) (s : tstate) : tstate :=
  let '(m, t) := s in
  match tm_sessions m !! key with
  | Some id => teardown id (mkTunnels (delete key (tm_sessions m)) (tm_store m), t)
  | None => s
  end.

Definition tunnel_closeAll (s : tstate) : tstate := fold_left (fun s k => tunnel_stop k s) (map fst (map_to_list (tm_sessions (fst s)))) s.

(** [status]: the URL while there is a session and its accept loop runs. *)
Definition tunnel_status (key : bytes) (s : tstate) : option bytes :=
  id ← tm_sessions (fst s) !! key;
  ts ← tm_store (fst s) !! id;
  if ts_dead ts then None else Some (ts_url ts).

(** The accept loop of a session whose relay went away. *)
Definition relayDied (id : nat) (s : tstate) : tstate :=
  let '(m, t) := s in
  match tm_store m !! id with
  | Some ts => (setSession id (mkSession (ts_url ts) (ts_cleanup ts) (ts_torn ts) true) m, t)
  | None => s
  end.

Context (hostOfURL : bytes -> bytes).

Definition settledMode (url host mode : bytes) : bytes :=
  let tunnelHost := hostOfURL url in
  if bytes_eqb mode (go "auto") then
    if negb (bytes_eqb tunnelHost []) && bytes_eqb (CanonicalHost tunnelHost) host then go "passthrough" else go "alias"
  else mode.

Definition settleHostMode (id : nat) (url host mode : bytes) (target : frontKind) (s : tstate) : tstate * bytes :=
  let tunnelHost := hostOfURL url in
  let mode := settledMode url host mode in
  match target with
  | Mux =>
      if bytes_eqb mode (go "alias") && negb (bytes_eqb tunnelHost [])
      then (addCleanup id tunnelHost (fst s, HostAlias tunnelHost host (snd s)), mode)
      else (s, mode)
  | Controller => (s, mode)
  end.

Record IngressTunnelRequest := mkTunnelRequest { req_Proto : bytes; req_HostMode : bytes; req_Host : bytes }.

Record IngressTunnelStatus := mkTunnelStatus { st_URL : bytes; st_Hosts : list bytes; st_HostMode : bytes; st_Target : frontKind }.

(** [started]: the URL of the provider's session, [None] when it refuses. *)
Definition startIngressTunnel (b : deployBackend) (scope : ingressTunnelScope) (req : IngressTunnelRequest)
    (started : option bytes) (id : nat) (s : tstate) : res tunnelError IngressTunnelStatus * tstate :=
  match resolveIngressFront (snd s) b scope (isRawProto (req_Proto req)) with
  | Err e => (Err e, s)
  | Ok (front, hosts) =>
      let hostMode := if bytes_eqb (req_HostMode req) [] then go "auto" else req_HostMode req in
      let host := CanonicalHost (req_Host req) in
      if negb (bytes_eqb host []) && negb (bool_decide (host ∈ hosts)) then (Err (ErrHostOutside host), s)
      else
        let host := if bytes_eqb host [] then hd [] hosts else host in
        if bytes_eqb hostMode (go "rewrite") && (1 <? blen hosts) && bytes_eqb (req_Host req) [] then (Err ErrWhichHost, s)
        else
          match ingressBridge front hostMode (req_Proto req) with
          | Err e => (Err e, s)
          | Ok mode =>
              match started with
              | None => (Err ErrNoTunnel, s)
              | Some url =>
                  let '(s, mode) := settleHostMode id url host mode front (startSession (scope_key scope) url id s) in
                  (Ok (mkTunnelStatus url hosts mode front), s)
              end
          end
  end.

(** ** Tunnels started and stopped one after the other *)

(** [TRoutes]: deployments come and go meanwhile. *)
Inductive tunnelOp : Type :=
| TStart (key url host mode : bytes) (target : frontKind) (id : nat)
| TStop (key : bytes)
| TDied (id : nat)
| TRoutes (bw bh : gmap bytes (list IngressRoute)).

Definition aliasOf (url host mode : bytes) (target : frontKind) : option (bytes * bytes) :=
  match target with
  | Mux => if bytes_eqb (settledMode url host mode) (go "alias") && negb (bytes_eqb (hostOfURL url) [])
           then Some (CanonicalHost (hostOfURL url), CanonicalHost host) else None
  | Controller => None
  end.

Definition clashes (key c : bytes) (live : liveTunnels) : bool :=
  existsb (fun kv => negb (bytes_eqb (fst kv) key) && match snd kv with Some (c', _) => bytes_eqb c' c | None => false end) (map_to_list live).

(** A provider gives no hostname twice. *)
Definition startOk (key url host mode : bytes) (target : frontKind) (id : nat) (s : tstate) (live : liveTunnels) : bool :=
  bool_decide (tm_store (fst s) !! id = None) &&
  match aliasOf url host mode target with
  | Some (c, h) => negb (bytes_eqb c []) && negb (bytes_eqb h []) && negb (clashes key c live)
  | None => true
  end.

Definition tunnelStep (o : tunnelOp) (x : tstate * liveTunnels) : option (tstate * liveTunnels) :=
  let '(s, live) := x in
  match o with
  | TStart key url host mode target id =>
      if startOk key url host mode target id s live
      then Some (fst (settleHostMode id url host mode target (startSession key url id s)), <[key := aliasOf url host mode target]> live)
      else None
  | TStop key => Some (tunnel_stop key s, delete key live)
  | TDied id => Some (relayDied id s, live)
  | TRoutes bw bh => Some ((fst s, mkTable bw bh (aliases (snd s))), live)
  end.

Fixpoint runTunnels (os : list tunnelOp) (x : tstate * liveTunnels) : option (tstate * liveTunnels) :=
  match os with
  | [] => Some x
  | o :: os => tunnelStep o x ≫= runTunnels os
  end.

(** ** The aliases are those of the live tunnels *)

(** A session and the alias it answers for. *)
Definition holds (ts : tunnelSession) (al : option (bytes * bytes)) : Prop :=
  ts_torn ts = false /\
  match al with
  | None => ts_cleanup ts = []
  | Some (c, _) => exists th, ts_cleanup ts = [th] /\ CanonicalHost th = c
  end.

Record tunnelInv (s : tstate) (live : liveTunnels) : Prop := {
  ti_live : forall key id, tm_sessions (fst s) !! key = Some id ->
    exists ts al, tm_store (fst s) !! id = Some ts /\ live !! key = Some al /\ holds ts al;
  ti_none : forall key, tm_sessions (fst s) !! key = None -> live !! key = None;
  ti_inj : forall key key' id, tm_sessions (fst s) !! key = Some id -> tm_sessions (fst s) !! key' = Some id -> key = key';
  ti_alias : forall c h, aliases (snd s) !! c = Some h <-> exists key, live !! key = Some (Some (c, h));
  ti_one : forall key key' c h h', live !! key = Some (Some (c, h)) -> live !! key' = Some (Some (c, h')) -> key = key';
  ti_name : forall key c h, live !! key = Some (Some (c, h)) -> c <> [];
}.

Lemma CanonicalHost_nil : CanonicalHost [] = [].
Proof. reflexivity. Qed.

Lemma withdraw_aliases t th : CanonicalHost th <> [] -> aliases (withdraw t th) = delete (CanonicalHost th) (aliases t).
Proof. intros H. unfold withdraw, HostAlias. cbv zeta. by rewrite (bytes_eqb_neq (CanonicalHost th) []), CanonicalHost_nil by done. Qed.

Lemma publish_aliases t th h : CanonicalHost th <> [] -> CanonicalHost h <> [] ->
  aliases (HostAlias th h t) = <[CanonicalHost th := CanonicalHost h]> (aliases t).
Proof. intros H H'. unfold HostAlias. cbv zeta. by rewrite (bytes_eqb_neq (CanonicalHost th) []), (bytes_eqb_neq (CanonicalHost h) []). Qed.

Lemma clashes_false key c live : clashes key c live = false -> forall key' h, live !! key' = Some (Some (c, h)) -> key' = key.
Proof.
  intros Hc key' h E. destruct (decide (key' = key)) as [|Hne]; [done|]. exfalso. apply not_true_iff_false in Hc. apply Hc.
  apply existsb_exists. exists (key', Some (c, h)). split; [apply list_elem_of_In; by apply elem_of_map_to_list|]. cbn.
  by rewrite (bytes_eqb_neq key' key), bytes_eqb_refl.
Qed.

(** Tearing a session down withdraws its alias and touches no other session. *)
Lemma teardown_spec m t id ts al : tm_store m !! id = Some ts -> holds ts al -> (forall c h, al = Some (c, h) -> c <> []) ->
  exists m' t', teardown id (m, t) = (m', t') /\ tm_sessions m' = tm_sessions m /\
    (forall id', id' <> id -> tm_store m' !! id' = tm_store m !! id') /\
    aliases t' = match al with Some (c, _) => delete c (aliases t) | None => aliases t end.
Proof.
  intros E [Ht Hc] Hne. unfold teardown, runCleanups. rewrite E. cbn [setSession tm_store]. rewrite lookup_insert_eq.
  eexists _, _. split; [reflexivity|]. cbn [setSession tm_sessions tm_store]. split_and!; [done| |].
  - intros id' Hid. by rewrite !lookup_insert_ne.
  - destruct al as [[c h]|]; [|by rewrite Hc]. destruct Hc as (th & -> & <-). cbn [fold_left]. by apply withdraw_aliases, (Hne _ h).
Qed.

(** Without the tunnel of [key]. *)
Lemma stop_inv m t live key id ts al m' t' : tunnelInv (m, t) live -> tm_sessions m !! key = Some id -> tm_store m !! id = Some ts ->
  live !! key = Some al -> tm_sessions m' = delete key (tm_sessions m) -> (forall id', id' <> id -> tm_store m' !! id' = tm_store m !! id') ->
  aliases t' = match al with Some (c, _) => delete c (aliases t) | None => aliases t end -> tunnelInv (m', t') (delete key live).
Proof.
  intros [H1 H2 H3 H4 H5 H6] Ek Es El Em Est Ea. cbn [fst snd] in *. split; cbn [fst snd]; rewrite ?Em.
  - intros k i [Hk E]%lookup_delete_Some. destruct (H1 k i E) as (ts' & al' & E1 & E2 & E3). exists ts', al'.
    rewrite Est by (intros ->; by apply Hk, (H3 key k id)). by rewrite lookup_delete_ne.
  - intros k E. destruct (decide (key = k)) as [->|Hk]; [apply lookup_delete_eq|]. rewrite lookup_delete_ne in E by done. rewrite lookup_delete_ne by done. by apply H2.
  - intros k k' i [_ E]%lookup_delete_Some [_ E']%lookup_delete_Some. by apply (H3 k k' i).
  - intros c h. rewrite Ea. setoid_rewrite lookup_delete_Some. destruct al as [[c0 h0]|].
    + rewrite lookup_delete_Some, H4. split.
      * intros (Hc & k & E). exists k. split; [|done]. intros <-. rewrite El in E. by injection E as <- <-.
      * intros (k & Hk & E). split; [|by exists k]. intros ->. by apply Hk, (H5 key k c h0 h).
    + rewrite H4. split; [|intros (k & _ & E); by exists k]. intros (k & E). exists k. split; [|done]. intros <-. rewrite El in E. done.
  - intros k k' c h h' [_ E]%lookup_delete_Some [_ E']%lookup_delete_Some. by apply (H5 k k' c h h').
  - intros k c h [_ E]%lookup_delete_Some. by apply (H6 k c h).
Qed.

Lemma stop_step s live key : tunnelInv s live -> tunnelInv (tunnel_stop key s) (delete key live).
Proof.
  intros Hs. destruct s as [m t]. cbn [tunnel_stop]. destruct (tm_sessions m !! key) as [id|] eqn:E.
  - destruct (ti_live _ _ Hs key id E) as (ts & al & E1 & E2 & E3). set (m0 := mkTunnels (delete key (tm_sessions m)) (tm_store m)).
    destruct (teardown_spec m0 t id ts al E1 E3) as (m' & t' & -> & Em & Est & Ea); [intros c h ->; by apply (ti_name _ _ Hs key c h)|].
    by apply (stop_inv m t live key id ts al).
  - rewrite delete_id; [done|]. by apply (ti_none _ _ Hs).
Qed.

Definition fresh (id : nat) (s : tstate) : Prop := tm_store (fst s) !! id = None.

Lemma fresh_session s live id key : tunnelInv s live -> fresh id s -> tm_sessions (fst s) !! key <> Some id.
Proof. intros Hs Hf E. destruct (ti_live _ _ Hs key id E) as (ts & al & E1 & _). unfold fresh in Hf. congruence. Qed.

(** The session is there, the one it replaces is gone, its own alias is not published yet. *)
Lemma startSession_inv s live key url id : tunnelInv s live -> fresh id s ->
  tunnelInv (startSession key url id s) (<[key := None]> live) /\ tm_sessions (fst (startSession key url id s)) !! key = Some id /\
  tm_store (fst (startSession key url id s)) !! id = Some (mkSession url [] false false).
Proof.
  intros Hs Hf. pose proof (fun k => fresh_session s live id k Hs Hf) as Hfs. destruct s as [m t]. unfold fresh in Hf. cbn [fst] in Hf, Hfs.
  unfold startSession, publishSession. set (m0 := mkTunnels (<[key := id]> (tm_sessions m)) (<[id := mkSession url [] false false]> (tm_store m))).
  assert (Hadd : forall m1 t1, tunnelInv (m1, t1) (delete key live) -> tm_sessions m1 = delete key (tm_sessions m) -> (forall k, tm_sessions m1 !! k <> Some id) ->
    forall m2, tm_sessions m2 = <[key := id]> (tm_sessions m1) -> tm_store m2 !! id = Some (mkSession url [] false false) ->
      (forall i, i <> id -> tm_store m2 !! i = tm_store m1 !! i) -> tunnelInv (m2, t1) (<[key := None]> live)).
  { intros m1 t1 [H1 H2 H3 H4 H5 H6] Em1 Hid m2 E1 E2 E3. cbn [fst snd] in *. rewrite <- (insert_delete_eq live).
    split; cbn [fst snd]; rewrite ?E1.
    - intros k i [[<- <-]|[Hk E]]%lookup_insert_Some; [exists (mkSession url [] false false), None; by rewrite lookup_insert_eq|].
      destruct (H1 k i E) as (ts & al & A1 & A2 & A3). exists ts, al. rewrite lookup_insert_ne by done. rewrite E3 by (by intros ->; apply (Hid k)). done.
    - intros k [E Hk]%lookup_insert_None. rewrite lookup_insert_ne by done. by apply H2.
    - intros k k' i [[<- <-]|[Hk E]]%lookup_insert_Some [[<- E']|[Hk' E']]%lookup_insert_Some; [done|by destruct (Hid k')|subst i; by destruct (Hid k)|by apply (H3 k k' i)].
    - intros c h. rewrite H4. split; intros [k E]; exists k.
      + rewrite lookup_insert_ne; [done|]. intros <-. by rewrite lookup_delete_eq in E.
      + apply lookup_insert_Some in E as [[_ E]|[_ E]]; done.
    - intros k k' c h h' [[_ E]|[_ E]]%lookup_insert_Some [[_ E']|[_ E']]%lookup_insert_Some; try done. by apply (H5 k k' c h h').
    - intros k c h [[_ E]|[_ E]]%lookup_insert_Some; [done|]. by apply (H6 k c h). }
  destruct (tm_sessions m !! key) as [o|] eqn:Eo.
  - destruct (ti_live _ _ Hs key o Eo) as (ts & al & E1 & E2 & E3). cbn [fst] in E1. assert (Hoid : o <> id) by (intros ->; by apply (Hfs key)).
    assert (E1' : tm_store m0 !! o = Some ts) by (cbn; by rewrite lookup_insert_ne).
    destruct (teardown_spec m0 t o ts al E1' E3) as (m' & t' & -> & Em & Est & Ea); [intros c h ->; by apply (ti_name _ _ Hs key c h)|].
    cbn [fst]. rewrite Em, (Est id) by done. cbn [m0 tm_sessions tm_store]. rewrite !lookup_insert_eq. split; [|done].
    eapply (Hadd (mkTunnels (delete key (tm_sessions m)) (delete id (tm_store m'))) t').
    + eapply (stop_inv m t live key o ts al); try done. cbn [tm_store]. intros i Hi. destruct (decide (i = id)) as [->|Hii].
      * rewrite lookup_delete_eq. by rewrite Hf.
      * rewrite lookup_delete_ne, Est by done. cbn. by rewrite lookup_insert_ne.
    + done.
    + cbn. intros k [_ E]%lookup_delete_Some. by apply (Hfs k).
    + rewrite Em. cbn. by rewrite insert_delete_eq.
    + rewrite Est by done. cbn. apply lookup_insert_eq.
    + intros i Hi. cbn. by rewrite lookup_delete_ne.
  - cbn [fst m0 tm_sessions tm_store]. rewrite !lookup_insert_eq. split; [|done].
    apply (Hadd m t); cbn; [|by rewrite delete_id|done|done|apply lookup_insert_eq|intros i Hi; by rewrite lookup_insert_ne].
    rewrite delete_id; [done|]. by apply (ti_none _ _ Hs).
Qed.

(** Its alias published, with the cleanup that withdraws it. *)
Lemma publish_inv m t live key url id th host : tunnelInv (m, t) (<[key := None]> live) -> tm_sessions m !! key = Some id ->
  tm_store m !! id = Some (mkSession url [] false false) -> CanonicalHost th <> [] -> CanonicalHost host <> [] ->
  (forall key' h, live !! key' = Some (Some (CanonicalHost th, h)) -> key' = key) ->
  tunnelInv (addCleanup id th (m, HostAlias th host t)) (<[key := Some (CanonicalHost th, CanonicalHost host)]> live).
Proof.
  intros [H1 H2 H3 H4 H5 H6] Ek Es Hc Hh Hno. cbn [fst snd] in *. unfold addCleanup. rewrite Es. cbn [ts_torn ts_url ts_cleanup ts_dead app].
  split; cbn [fst snd setSession tm_sessions tm_store].
  - intros k i E. destruct (decide (k = key)) as [->|Hk].
    + rewrite Ek in E. injection E as <-. rewrite !lookup_insert_eq. eexists _, _. split; [done|]. split; [done|]. split; [done|]. by exists th.
    + destruct (H1 k i E) as (ts & al & A1 & A2 & A3). exists ts, al. rewrite lookup_insert_ne in A2 by done.
      rewrite !lookup_insert_ne by (done || (intros <-; by apply Hk, (H3 k key id))). done.
  - intros k E. pose proof (H2 k E) as A. apply lookup_insert_None in A as [A1 A2]. by rewrite lookup_insert_ne.
  - exact H3.
  - intros c h. rewrite publish_aliases by done. rewrite lookup_insert_Some, H4. split.
    + intros [[<- <-]|(Hne & k & E)]; [exists key; by rewrite lookup_insert_eq|]. exists k.
      apply lookup_insert_Some in E as [[_ E]|[Hk E]]; [done|]. by rewrite lookup_insert_ne.
    + intros (k & [[<- [= <- <-]]|[Hk E]]%lookup_insert_Some); [by left|]. right. split.
      * intros <-. by apply Hk, eq_sym, (Hno k h).
      * exists k. by rewrite lookup_insert_ne.
  - intros k k' c h h' [[<- [= <- <-]]|[Hk E]]%lookup_insert_Some [[<- E']|[Hk' E']]%lookup_insert_Some; [done|by symmetry; apply (Hno k' h')| |].
    + injection E' as <- <-. by apply (Hno k h).
    + apply (H5 k k' c h h'); by rewrite lookup_insert_ne.
  - intros k c h [[<- [= <- <-]]|[Hk E]]%lookup_insert_Some; [done|]. apply (H6 k c h). by rewrite lookup_insert_ne.
Qed.

Lemma start_step s live key url host mode target id : tunnelInv s live -> startOk key url host mode target id s live = true ->
  tunnelInv (fst (settleHostMode id url host mode target (startSession key url id s))) (<[key := aliasOf url host mode target]> live).
Proof.
  intros Hs. unfold startOk. intros [Hf%bool_decide_eq_true Ha]%andb_true_iff.
  destruct (startSession_inv s live key url id Hs Hf) as (Hi & Ek & Es). destruct (startSession key url id s) as [m t]. cbn [fst] in *.
  unfold settleHostMode, aliasOf in *. destruct target; [done|]. cbv zeta. destruct (bytes_eqb _ (go "alias") && _); [|done]. cbn [fst snd].
  zbool. apply bytes_eqb_false in H, H1. apply (publish_inv m t live key url id); try done. by apply clashes_false.
Qed.

Lemma died_step s live id : tunnelInv s live -> tunnelInv (relayDied id s) live.
Proof.
  intros [H1 H2 H3 H4 H5 H6]. destruct s as [m t]. cbn [relayDied]. destruct (tm_store m !! id) as [ts|] eqn:E; [|by split].
  split; try done. cbn [fst snd setSession tm_sessions tm_store] in *. intros key i Ek. destruct (H1 key i Ek) as (ts' & al & A1 & A2 & A3).
  destruct (decide (i = id)) as [->|Hne].
  - rewrite lookup_insert_eq. rewrite E in A1. injection A1 as <-. by eexists _, al.
  - rewrite lookup_insert_ne by done. by exists ts', al.
Qed.

Lemma tunnelInv_step o x x' : tunnelInv (fst x) (snd x) -> tunnelStep o x = Some x' -> tunnelInv (fst x') (snd x').
Proof.
  destruct x as [s live]. cbn [fst snd]. intros Hs. destruct o as [key url host mode target id|key|id|bw bh]; cbn [tunnelStep].
  - destruct (startOk _ _ _ _ _ _ _ _) eqn:E; [|done]. intros [= <-]. by apply start_step.
  - intros [= <-]. by apply stop_step.
  - intros [= <-]. by apply died_step.
  - intros [= <-]. destruct Hs as [H1 H2 H3 H4 H5 H6]. by split.
Qed.

Lemma tunnelInv_run os x x' : tunnelInv (fst x) (snd x) -> runTunnels os x = Some x' -> tunnelInv (fst x') (snd x').
Proof.
  revert x. induction os as [|o os IH]; intros x Hx; cbn [runTunnels]; [by intros [= <-]|].
  destruct (tunnelStep o x) as [x1|] eqn:E; [|done]. cbn. apply IH. by eapply tunnelInv_step.
Qed.

Definition noTunnels : tstate * liveTunnels := ((mkTunnels ∅ ∅, NewTable), ∅).

(** However tunnels are started, replaced, stopped and lost, one after the other and with deployments
    changing meanwhile, the routing table has an alias for exactly the public names of the live
    tunnels that need one. A name that is no ingress host itself gets the rules of the host its
    tunnel is for, and none once the tunnel is stopped. *)
Theorem aliases_follow_tunnels (os : list tunnelOp) (s : tstate) (live : liveTunnels) : runTunnels os noTunnels = Some (s, live) ->
  (forall c h, aliases (snd s) !! c = Some h <-> exists key, live !! key = Some (Some (c, h))) /\
  (forall key, is_Some (tm_sessions (fst s) !! key) <-> is_Some (live !! key)) /\
  (forall c, byHost (snd s) !! c = None ->
     (forall key h, live !! key = Some (Some (c, h)) -> rulesFor (snd s) c = byHost (snd s) !! h) /\
     ((forall key h, live !! key <> Some (Some (c, h))) -> rulesFor (snd s) c = None)).
Proof.
  intros Hrun. apply tunnelInv_run in Hrun as [H1 H2 H3 H4 H5 H6].
  2: { split; try done; cbn; [|intros key c h; by rewrite lookup_empty..]. intros c h. rewrite lookup_empty. split; [done|].
       intros [key E]. by rewrite lookup_empty in E. }
  cbn [fst snd] in *. split; [done|]. split.
  - intros key. split; intros [x E].
    + destruct (H1 key x E) as (ts & al & _ & E' & _). by exists al.
    + destruct (tm_sessions (fst s) !! key) eqn:E'; [done|]. rewrite (H2 key E') in E. done.
  - intros c Hc. unfold rulesFor. rewrite Hc. split.
    + intros key h E. by rewrite (proj2 (H4 c h) (ex_intro _ key E)).
    + intros Hno. destruct (aliases (snd s) !! c) as [h|] eqn:E; [|done]. apply H4 in E as [key E]. by destruct (Hno key h).
Qed.

End Tunnel.

(** ** Examples *)

Definition exOps : list tunnelOp :=
  [TStart (go "ingress/project/p") (go "Abc.ngrok.app") (go "web.example.com") (go "auto") Mux 0;
   TStart (go "ingress/deployment/api") (go "tun.example.net") (go "api.example.com") (go "alias") Mux 1;
   TStart (go "ingress/project/p") (go "Abc.ngrok.app") (go "www.example.com") (go "auto") Mux 2;
   TDied 1; TStop (go "ingress/deployment/api")].

Definition exTunnels : tstate * liveTunnels := default noTunnels (@runTunnels asciiCase (fun url => url) exOps noTunnels).

Lemma exTunnels_run : @runTunnels asciiCase (fun url => url) exOps noTunnels = Some (fst exTunnels, snd exTunnels).
Proof.
  assert (E : match @runTunnels asciiCase (fun url => url) exOps noTunnels with Some _ => true | None => false end = true)
    by (vm_compute; reflexivity).
  unfold exTunnels. destruct (runTunnels _ _ _) as [[s live]|]; done.
Qed.

Lemma aliases_follow_tunnels_witness :
  aliases (snd (fst exTunnels)) !! go "abc.ngrok.app" = Some (go "www.example.com").
Proof.
  pose proof (@aliases_follow_tunnels asciiCase (fun url => url) exOps (fst exTunnels) (snd exTunnels) exTunnels_run) as [H1 _].
  apply H1. exists (go "ingress/project/p"). vm_compute. reflexivity.
Defined.

(** Two requests for the same scope overlap and the provider gives both the same hostname. The later one is
    live, and its alias is gone: the earlier one published its alias again and withdrew it at
    once, its session having been torn down. *)
Lemma overlapping_starts_lose_alias :
  let key := go "ingress/project/p" in
  let url := go "abc.ngrok.app" in
  let host := go "web.example.com" in
  let settle id s := fst (@settleHostMode asciiCase (fun url => url) id url host (go "auto") Mux s) in
  let s := settle 0%nat (settle 1%nat (@startSession asciiCase key url 1 (@startSession asciiCase key url 0 (mkTunnels ∅ ∅, NewTable)))) in
  tunnel_status key s = Some url /\ map_to_list (aliases (snd s)) = [].
Proof. split; vm_compute; reflexivity. Qed.

(** After a restart a tunnel is refused as if nothing had an ingress: hosts are read from the table
    before anything has recovered it. The first request to the front door would have. *)
Definition exRestarted : ingressManager * Disk :=
  (newIngressManager (go "/d") exDefaults,
   snd (fold_left (@runOp asciiCase keys) [OpDeploy (exSpec [])] (newIngressManager (go "/d") exDefaults, ∅))).

Lemma tunnel_refused_after_restart :
  let front t := @resolveIngressFront asciiCase t (mkBackend (Some [(go "web", None)]) None) (mkScope [] (go "web")) false in
  front (mg_table (fst exRestarted)) = Err ErrNoIngress /\
  (front ∘ mg_table ∘ fst <$> @ing_recover asciiCase keys (Some [go "web"]) (fst exRestarted) (snd exRestarted)) =
    Some (Ok (Mux, [go "web.apps.example.com"])).
Proof. by vm_compute. Qed.

(** Deleting a deployment stops the tunnel of its name and leaves its ingress tunnel published. *)
Lemma delete_leaves_ingress_tunnel `{UC : UnicodeCase} (name : bytes) (s : tstate) :
  tm_sessions (fst (tunnel_stop name s)) !! scope_key (mkScope [] name) = tm_sessions (fst s) !! scope_key (mkScope [] name).
Proof.
  destruct s as [m t]. cbn [tunnel_stop]. destruct (tm_sessions m !! name) as [id|]; [|done].
  assert (Hne : name <> scope_key (mkScope [] name)).
  { intros E%(f_equal length). unfold scope_key in E. cbn [sc_project] in E. rewrite bytes_eqb_refl in E. cbn [negb sc_deployment] in E.
    rewrite length_app in E. cbn in E. lia. }
  unfold teardown, runCleanups. cbn [tm_store]. destruct (tm_store m !! id) eqn:E.
  - cbn [setSession tm_store]. rewrite lookup_insert_eq. cbn [fst setSession tm_sessions]. by rewrite lookup_delete_ne.
  - cbn [tm_store]. rewrite E. cbn [fst tm_sessions]. by rewrite lookup_delete_ne.
Qed.
