(* ===== verification/EgressPolicy.v ===== *)
(** * Egress policy

    [pkg/egresspolicy]: the engine that sends a destination to one of four routes. The caretaker
    beside the workload, the server and the client all evaluate it.

    - [compileRule], [eg_compileRules], [Compile]: patterns and specs.
    - [rule_matches], [rules_Route]: the ordered rule list.
    - [script_Route], [pacReturnToRoute], [pacBuiltin]: the script form.  The JavaScript engine
      is third-party code: a class [Sobek] whose operations are arbitrary, and the
      runtimes of the pool keep whatever state they have between calls.
    - [NoProxyPatterns], [ProxyEnv], [ProxyEnvSubset], [ProxyEnvFrom]: the environment of the workload.

    What the strings of errors say is left out; which error, and for which rule, is kept. *)
From stdpp Require Import base list gmap strings.
From Stdlib Require Import ZArith Lia.
From Stdlib.Strings Require Import Byte.
From S2P Require Import Prelude GoStd GoGlob GoNet GoJson GoUnicode.
Open Scope Z_scope.

Definition RouteClient : bytes := go "client".
Definition RouteGateway : bytes := go "gateway".
Definition RouteCluster : bytes := go "cluster".
Definition RouteDeny : bytes := go "deny".

Record EgressRule := mkEgressRule { er_Pattern : bytes; er_Route : bytes }.

Record EgressSpec := mkEgressSpec {
  eg_Mode : bytes; eg_Gateway : bytes; eg_Proxies : gmap bytes bytes; eg_Rules : list EgressRule;
  eg_Script : bytes; eg_Default : bytes; eg_ListenPort : Z;
}.

Definition eg_NeedsRelay (e : option EgressSpec) : bool :=
  match e with
  | None => false
  | Some e => bytes_eqb (eg_Mode e) (go "proxy") || bytes_eqb (eg_Mode e) (go "transparent")
  end.

(** [Proto] is "tcp" everywhere and read nowhere. *)
Record Dest := mkDest { d_Host : bytes; d_IP : option bytes; d_Port : Z }.

Definition ValidRoute (r : bytes) : bool :=
  bytes_eqb r RouteClient || bytes_eqb r RouteGateway || bytes_eqb r RouteCluster || bytes_eqb r RouteDeny.

(** ** Rules *)

(** The host part of a pattern: one of the three is set. *)
Inductive hostPart : Type :=
| HCidr (n : IPNet)
| HIP (ip : bytes)
| HGlob (glob : bytes).

Record egRule := mkCompiled { cr_host : hostPart; cr_port : Z; cr_route : bytes }.

Inductive patternErr : Type :=
| EmptyPattern
| UnterminatedBracket
| AfterBracket
| InvalidPort
| InvalidCIDR
| InvalidHostPattern.

Definition splitPattern (pattern : bytes) : res patternErr (bytes * bytes) :=
  match pattern with
  | Byte.x5b :: rest =>
      match cutByte Byte.x5d rest with
      | None => Err UnterminatedBracket
      | Some (host, []) => Ok (host, [])
      | Some (host, Byte.x3a :: port) => Ok (host, port)
      | Some _ => Err AfterBracket
      end
  | _ =>
      match split Byte.x3a pattern with
      | [host; port] => Ok (host, port)
      | _ => Ok (pattern, [])
      end
  end.

Section Policy.
  Context `{UC : UnicodeCase}.

Definition compileHost (hostPart : bytes) : res patternErr EgressPolicy.hostPart :=
  if containsByte slash hostPart then
    match ParseCIDR hostPart with None => Err InvalidCIDR | Some ipnet => Ok (HCidr ipnet) end
  else
    match ParseIP hostPart with
    | Some ip => Ok (HIP ip)
    | None =>
        let glob := ToLower hostPart in
        match Match glob [] with Err _ => Err InvalidHostPattern | Ok _ => Ok (HGlob glob) end
    end.

(** The port of a pattern; 0 is any. *)
Definition compilePort (portPart : bytes) : res patternErr Z :=
  if bytes_eqb portPart [] then Ok 0
  else let '(port, ok) := Atoi portPart in
       if negb ok || (port <? 1) || (65535 <? port) then Err InvalidPort else Ok port.

Definition compileRule (pattern : bytes) : res patternErr (hostPart * Z) :=
  let pattern := trimSpace pattern in
  if bytes_eqb pattern [] then Err EmptyPattern
  else
    '(hostPart, portPart) ← splitPattern pattern;
    port ← compilePort portPart;
    h ← compileHost hostPart;
    Ok (h, port).

Definition rule_matches (r : egRule) (d : Dest) : bool :=
  if negb (cr_port r =? 0) && negb (cr_port r =? d_Port d) then false
  else
    match cr_host r with
    | HCidr n =>
        match d_IP d with Some ip => IPNet_Contains n ip | None => false end ||
        match ParseIP (d_Host d) with Some ip => IPNet_Contains n ip | None => false end
    | HIP a =>
        match d_IP d with Some ip => IPEqual a ip | None => false end ||
        match ParseIP (d_Host d) with Some ip => IPEqual a ip | None => false end
    | HGlob glob =>
        let host := ToLower (trimSuffix (d_Host d) (go ".")) in
        let host := match d_IP d with Some ip => if bytes_eqb host [] then ipString ip else host | None => host end in
        match Match glob host with Ok ok => ok | Err _ => false end
    end.

Inductive policyErr : Type :=
| InvalidDefault
| InvalidRuleRoute (i : nat)
| InvalidRule (i : nat) (e : patternErr)
| ScriptCompile
| ScriptNoFunction.

(** [eg_compileRules], from rule number [i] on. *)
Fixpoint compileRulesFrom (i : nat) (rules : list EgressRule) : res policyErr (list egRule) :=
  match rules with
  | [] => Ok []
  | r :: rules =>
      if negb (ValidRoute (er_Route r)) then Err (InvalidRuleRoute i)
      else match compileRule (er_Pattern r) with
           | Err e => Err (InvalidRule i e)
           | Ok (h, port) => l ← compileRulesFrom (S i) rules; Ok (mkCompiled h port (er_Route r) :: l)
           end
  end.

Record rulePolicy := mkRulePolicy { rp_rules : list egRule; rp_def : bytes }.

Definition eg_compileRules (rules : list EgressRule) (def : bytes) : res policyErr rulePolicy :=
  l ← compileRulesFrom 0 rules; Ok (mkRulePolicy l def).

Fixpoint routeRules (rules : list egRule) (def : bytes) (d : Dest) : bytes :=
  match rules with
  | [] => def
  | r :: rules => if rule_matches r d then cr_route r else routeRules rules def d
  end.

Definition rules_Route (p : rulePolicy) (d : Dest) : bytes := routeRules (rp_rules p) (rp_def p) d.

End Policy.

(** ** Scripts *)

Section Pac.
  Context `{UC : UnicodeCase}.

(** What [FindProxyForURL] returned, as a route. *)
Definition pacReturnToRoute (ret def : bytes) : bytes :=
  let first := trimSpace (match cutByte Byte.x3b ret with Some (first, _) => first | None => ret end) in
  if bytes_eqb first [] then def
  else
    let fields := Fields first in
    let kw := ToUpper (default [] (fields !! 0%nat)) in
    if bytes_eqb kw (go "DIRECT") then RouteCluster
    else if bytes_eqb kw (go "DENY") || bytes_eqb kw (go "BLOCK") then RouteDeny
    else if bytes_eqb kw (go "CLIENT") then RouteClient
    else if bytes_eqb kw (go "CLUSTER") then RouteCluster
    else if bytes_eqb kw (go "GATEWAY") then RouteGateway
    else if bytes_eqb kw (go "PROXY") || bytes_eqb kw (go "HTTPS") || bytes_eqb kw (go "HTTP")
            || bytes_eqb kw (go "SOCKS") || bytes_eqb kw (go "SOCKS5") then
      match fields !! 1%nat with
      | Some arg =>
          let arg := ToLower arg in
          if bytes_eqb arg (go "client") then RouteClient
          else if bytes_eqb arg (go "gateway") then RouteGateway
          else if bytes_eqb arg (go "cluster") then RouteCluster
          else RouteClient
      | None => RouteClient
      end
    else def.

(** [resolveForScript]: a literal, or the destination itself. *)
Definition resolveForScript (cur : Dest) (host : bytes) : option bytes :=
  match ParseIP host with
  | Some ip => Some ip
  | None => if negb (bytes_eqb host []) && EqualFold host (d_Host cur) then d_IP cur else None
  end.

Definition isInNet (cur : Dest) (host pattern mask : bytes) : bool :=
  match resolveForScript cur host with
  | None => false
  | Some ip =>
      match To4 ip, ParseIP pattern ≫= To4, ParseIP mask ≫= To4 with
      | Some ip4, Some pat, Some m => bytes_eqb (andBytes ip4 m) (andBytes pat m)
      | _, _, _ => false
      end
  end.

(** The items of the regular expression [globToRegexp] writes: [.*], [.] and a literal rune. A dot does
    not match a newline. *)
Inductive globItem : Type := AnyRun | AnyRune | Lit (r : Z).

Definition globToRegexp (glob : bytes) : list globItem :=
  map (fun g => let r := fst (decodeRune g) in if r =? 42 then AnyRun else if r =? 63 then AnyRune else Lit r) (runes glob).

Fixpoint matchRun (k : list Z -> bool) (s : list Z) : bool :=
  k s || match s with r :: s => negb (r =? 10) && matchRun k s | [] => false end.

Fixpoint matchItems (items : list globItem) (s : list Z) : bool :=
  match items, s with
  | [], [] => true
  | [], _ => false
  | AnyRun :: items, _ => matchRun (matchItems items) s
  | AnyRune :: items, r :: s => negb (r =? 10) && matchItems items s
  | Lit l :: items, r :: s => (l =? r) && matchItems items s
  | _, [] => false
  end.

Definition shExpMatch (str shexp : bytes) : bool :=
  matchItems (globToRegexp shexp) (map (fun g => fst (decodeRune g)) (runes str)).

(** The helper functions a script may call, and their answers for the destination being evaluated. *)
Inductive pacCall : Type :=
| CShExpMatch (str shexp : bytes)
| CDnsDomainIs (host domain : bytes)
| CIsPlainHostName (host : bytes)
| CLocalHostOrDomainIs (host hostdom : bytes)
| CDnsResolve (host : bytes)
| CIsResolvable (host : bytes)
| CMyIpAddress
| CIsInNet (host pattern mask : bytes)
| CDnsDomainLevels (host : bytes).

Inductive pacVal : Type := VBool (b : bool) | VString (s : bytes) | VInt (n : Z).

Definition pacBuiltin (cur : Dest) (c : pacCall) : pacVal :=
  match c with
  | CShExpMatch str shexp => VBool (shExpMatch str shexp)
  | CDnsDomainIs host domain => VBool (hasSuffix host domain)
  | CIsPlainHostName host => VBool (negb (containsByte Byte.x2e host))
  | CLocalHostOrDomainIs host hostdom =>
      VBool (bytes_eqb host hostdom || (negb (containsByte Byte.x2e host) && hasPrefix hostdom (host ++ go ".")))
  | CDnsResolve host => VString (match resolveForScript cur host with Some ip => ipString ip | None => [] end)
  | CIsResolvable host => VBool (match resolveForScript cur host with Some _ => true | None => false end)
  | CMyIpAddress => VString (go "127.0.0.1")
  | CIsInNet host pattern mask => VBool (isInNet cur host pattern mask)
  | CDnsDomainLevels host => VInt (blen (filter (fun c => c = Byte.x2e) host))
  end.

End Pac.

(** What a call of the script's function gives. *)
Inductive scriptRet : Type :=
| RetError
| RetNothing
| RetValue (s : bytes).

(** The JavaScript engine: [js_Compile] parses, [js_Run] runs the program in a fresh runtime with the
    helper functions at the zero destination and gives the runtime if the program defined the
    function, [js_Call] calls the function with the url and the host, an interrupt counting
    as an error, and leaves the runtime in some state. *)
Class Sobek := {
  program : Type;
  runtime : Type;
  js_Compile : bytes -> option program;
  js_Run : program -> (pacCall -> pacVal) -> option runtime;
  js_Call : runtime -> (pacCall -> pacVal) -> bytes -> bytes -> runtime * scriptRet;
}.

Section Script.
  Context `{UC : UnicodeCase} `{JS : Sobek}.

(** [pool]: the runtimes not in use. *)
Record scriptPolicy := mkScriptPolicy { sp_prog : program; sp_def : bytes; sp_pool : list (option runtime) }.

Definition newRuntime (prog : program) : option runtime := js_Run prog (pacBuiltin (mkDest [] None 0)).

Definition compileScript (script def : bytes) : res policyErr scriptPolicy :=
  match js_Compile script with
  | None => Err ScriptCompile
  | Some prog =>
      let sr := newRuntime prog in
      if negb (bool_decide (is_Some sr)) then Err ScriptNoFunction
      else Ok (mkScriptPolicy prog def [sr])
  end.

(** [pool.Get]: one of the idle runtimes, or a new one. *)
Definition poolGet (pick : option nat) (p : scriptPolicy) : option runtime * list (option runtime) :=
  match pick with
  | Some i => match sp_pool p !! i with
              | Some sr => (sr, delete i (sp_pool p))
              | None => (newRuntime (sp_prog p), sp_pool p)
              end
  | None => (newRuntime (sp_prog p), sp_pool p)
  end.

Definition scriptURL (host : bytes) (port : Z) : bytes := go "tcp://" ++ JoinHostPort host (formatInt port) ++ go "/".

(** [scriptPolicy.Route]: the policy after, the route and whether there was an error. *)
Definition script_Route (pick : option nat) (p : scriptPolicy) (d : Dest) : scriptPolicy * (bytes * bool) :=
  let '(sr, pool) := poolGet pick p in
  match sr with
  | None => (mkScriptPolicy (sp_prog p) (sp_def p) (sr :: pool), (RouteDeny, true))
  | Some rt =>
      let host := match d_IP d with Some ip => if bytes_eqb (d_Host d) [] then ipString ip else d_Host d | None => d_Host d end in
      let '(rt, ret) := js_Call rt (pacBuiltin d) (scriptURL host (d_Port d)) host in
      (mkScriptPolicy (sp_prog p) (sp_def p) (Some rt :: pool),
       match ret with
       | RetError => (RouteDeny, true)
       | RetNothing => (sp_def p, false)
       | RetValue s => (pacReturnToRoute s (sp_def p), false)
       end)
  end.

Inductive eg_Policy : Type :=
| PRules (p : rulePolicy)
| PScript (p : scriptPolicy).

Definition Compile (spec : EgressSpec) : res policyErr eg_Policy :=
  let def := if bytes_eqb (eg_Default spec) [] then RouteCluster else eg_Default spec in
  if negb (ValidRoute def) then Err InvalidDefault
  else if negb (bytes_eqb (trimSpace (eg_Script spec)) []) then
    p ← compileScript (eg_Script spec) def; Ok (PScript p)
  else p ← eg_compileRules (eg_Rules spec) def; Ok (PRules p).

Definition Route (pick : option nat) (p : eg_Policy) (d : Dest) : eg_Policy * (bytes * bool) :=
  match p with
  | PRules r => (p, (rules_Route r d, false))
  | PScript s => let '(s, r) := script_Route pick s d in (PScript s, r)
  end.

End Script.

(** ** The environment of the workload *)

Definition NoProxyPatterns (spec : EgressSpec) : list bytes :=
  map er_Pattern (filter (fun r => er_Route r = RouteCluster) (eg_Rules spec)).

Definition proxyVars : list bytes :=
  map go ["HTTP_PROXY"; "http_proxy"; "HTTPS_PROXY"; "https_proxy"; "ALL_PROXY"; "all_proxy"; "NO_PROXY"; "no_proxy"]%string.

Definition ProxyEnv (spec : EgressSpec) (port : Z) : gmap bytes bytes :=
  let httpProxy := go "http://127.0.0.1:" ++ formatInt port in
  let socks := go "socks5h://127.0.0.1:" ++ formatInt port in
  let np := join (go ",") ([go "localhost"; go "127.0.0.1"; go "::1"] ++ NoProxyPatterns spec) in
  list_to_map (zip proxyVars [httpProxy; httpProxy; httpProxy; httpProxy; socks; socks; np; np]).

Definition ProxyEnvSubset (env : gmap bytes bytes) : gmap bytes bytes :=
  filter (fun kv => kv.1 ∈ proxyVars) env.

Definition ProxyEnvFrom (env : gmap bytes bytes) : list bytes :=
  sortStrings (map (fun kv => kv.1 ++ go "=" ++ kv.2) (map_to_list (ProxyEnvSubset env))).
