(* ===== verification/EgressRules.v ===== *)
(** * Egress policy: what rules mean

    A rule as its author means it ([rulePat]: a prefix, an address or a pattern of host names, an
    optional port, a route), the text of the documented grammar for it ([printPattern]), and the
    destinations it covers ([covers]).  [rules_mean]: a list of rules in that text compiles,
    and sends a destination where the first rule that covers it says.  [Route_valid]: whatever the
    policy, rules or script, the answer is a route, and an error comes with the refusal. *)
From stdpp Require Import base list gmap strings.
From Stdlib Require Import ZArith Lia.
From Stdlib.Strings Require Import Byte.
From S2P Require Import Prelude GoStd GoGlob GoNet GoJson GoUnicode EgressPolicy.
Open Scope Z_scope.

(** ** Rules as meant *)

Inductive hostPat : Type :=
| PCidr (a : bytes) (bits : Z)
| PIP (a : bytes)
| PGlob (g : bytes).

Record rulePat := mkRulePat { rl_host : hostPat; rl_port : option Z; rl_route : bytes }.

Definition printHost (h : hostPat) : bytes :=
  match h with
  | PCidr a bits => ipString a ++ go "/" ++ formatInt bits
  | PIP a => ipString a
  | PGlob g => g
  end.

(** An IPv6 host with a port is written in brackets. *)
Definition printPattern (r : rulePat) : bytes :=
  match rl_port r with
  | None => printHost (rl_host r)
  | Some port => JoinHostPort (printHost (rl_host r)) (formatInt port)
  end.

Definition printRule (r : rulePat) : EgressRule := mkEgressRule (printPattern r) (rl_route r).

Definition addrOf (a : bytes) : Addr := if (length a =? 4)%nat then Addr4 a else Addr6 a [].

Section Meaning.
  Context `{UC : UnicodeCase}.

(** A pattern of host names is visible ASCII without a colon or a slash, does not begin with a bracket, is
    not an address, and is one [path.Match] accepts. *)
Definition wfHost (h : hostPat) : Prop :=
  match h with
  | PCidr a bits => (length a = 4%nat \/ length a = 16%nat /\ To4 a = None) /\ 0 <= bits <= 8 * blen a
  | PIP a => ipLen a
  | PGlob g => g <> [] /\ Forall (fun c => plain c = true) g /\ (Byte.x3a ∉ g) /\ (slash ∉ g) /\ head g <> Some Byte.x5b /\
      ParseIP g = None /\ is_ok (Match (ToLower g) []) = true
  end.

Definition wfRule (r : rulePat) : Prop :=
  wfHost (rl_host r) /\ match rl_port r with Some p => 1 <= p <= 65535 | None => True end /\ ValidRoute (rl_route r) = true.

(** The addresses of a destination: the one it carries and the one its host spells. *)
Definition addrs (d : Dest) : list bytes := option_list (d_IP d) ++ option_list (ParseIP (d_Host d)).

(** Its name: lower case without the final dot, or the address if there is none. *)
Definition destName (d : Dest) : bytes :=
  let host := ToLower (trimSuffix (d_Host d) (go ".")) in
  match d_IP d with Some ip => if bytes_eqb host [] then ipString ip else host | None => host end.

Definition hostCovers (h : hostPat) (d : Dest) : Prop :=
  match h with
  | PCidr a bits => exists ip, ip ∈ addrs d /\ inPrefix (addrOf a) bits ip
  | PIP a => exists ip, ip ∈ addrs d /\ To16 ip = To16 a
  | PGlob g => Match (ToLower g) (destName d) = Ok true
  end.

Definition covers (r : rulePat) (d : Dest) : Prop :=
  match rl_port r with Some p => d_Port d = p | None => True end /\ hostCovers (rl_host r) d.

End Meaning.

(** ** The text of an address *)

Definition addrChar (c : byte) : bool := hexByte c || bool_decide (c = Byte.x3a) || bool_decide (c = Byte.x2e).

Lemma forallb_impl {A} (f g : A -> bool) l : (forall x, f x = true -> g x = true) -> forallb f l = true -> forallb g l = true.
Proof. rewrite !forallb_forall. auto. Qed.

Lemma ip4String_chars b : length b = 4%nat -> forallb (fun c => hexByte c || bool_decide (c = Byte.x2e)) (ip4String b) = true.
Proof.
  intros Hb. destruct b as [|a [|b [|c [|d [|]]]]]; try discriminate Hb. unfold ip4String. cbn [map join].
  assert (H : forall c, forallb (fun c => hexByte c || bool_decide (c = Byte.x2e)) (formatInt (Z_of_byte c)) = true).
  { intros x. apply forallb_impl with (2 := octet_digits x). intros y Hy. unfold hexByte. by rewrite Hy. }
  rewrite !forallb_app, !H. reflexivity.
Qed.

Lemma ip6String_chars b : length b = 16%nat -> forallb (fun c => hexByte c || bool_decide (c = Byte.x3a)) (ip6String b) = true.
Proof.
  intros Hb. destruct (groups16_bytes b Hb) as (_ & _ & F). unfold ip6String.
  destruct (longestRun 0 (groups16 b) (8%nat, 0%nat)) as [start n]. destruct (n =? 0)%nat; [by apply hexByte_text|].
  rewrite !forallb_app. change (join (go ":") (map hex16 ?l)) with (groupsText l).
  by rewrite !hexByte_text by (by apply Forall_take || by apply Forall_drop).
Qed.

Lemma ipString_cases a : ipLen a ->
  (exists b, length b = 4%nat /\ ipString a = ip4String b) \/ (length a = 16%nat /\ To4 a = None /\ ipString a = ip6String a).
Proof.
  intros Ha. unfold ipString, To4. fold v4InV6Prefix. destruct (Nat.eqb_spec (length a) 4) as [H4|H4]; [left; by exists a|].
  destruct Ha as [?|Ha]; [done|]. rewrite Ha, Nat.eqb_refl. cbn [andb].
  destruct (bytes_eqb (take 12 a) v4InV6Prefix); [|by right].
  left. exists (drop 12 a). split; [rewrite length_drop; lia|done].
Qed.

Lemma ipString_chars a : ipLen a -> forallb addrChar (ipString a) = true.
Proof.
  intros Ha. destruct (ipString_cases a Ha) as [(b & Hb & ->)|(Hl & _ & ->)].
  - apply forallb_impl with (2 := ip4String_chars b Hb). unfold addrChar. intros x [->| ->]%orb_true_iff; [done|]. by rewrite orb_true_r.
  - apply forallb_impl with (2 := ip6String_chars a Hl). unfold addrChar. by intros x ->.
Qed.

Lemma addrChars_free c s : forallb addrChar s = true -> addrChar c = false -> c ∉ s.
Proof. rewrite forallb_forall. intros H Hc Hin. apply list_elem_of_In, H in Hin. congruence. Qed.

(** An IPv6 text has more than one colon. *)
Lemma split_two_colons a b c : (2 < length (split Byte.x3a (a ++ Byte.x3a :: b ++ Byte.x3a :: c)))%nat.
Proof.
  assert (H : forall a b, (length (split Byte.x3a b) < length (split Byte.x3a (a ++ Byte.x3a :: b)))%nat).
  { clear. induction a as [|x a IH]; intros b.
    - cbn [app split]. rewrite bool_decide_true by done. cbn. lia.
    - cbn [app split]. case_bool_decide; [cbn; pose proof (IH b); lia|].
      pose proof (IH b) as Hb. destruct (split Byte.x3a (a ++ Byte.x3a :: b)) eqn:E; [by apply split_nonempty in E|].
      cbn in *. lia. }
  pose proof (H a (b ++ Byte.x3a :: c)). pose proof (H b c).
  destruct (split Byte.x3a c) eqn:E; [by apply split_nonempty in E|]. cbn in *. lia.
Qed.

Lemma ip6String_colons a : length a = 16%nat -> exists x y z, ip6String a = x ++ Byte.x3a :: y ++ Byte.x3a :: z.
Proof.
  intros Ha. destruct (groups16_bytes a Ha) as (_ & L & _). unfold ip6String.
  destruct (longestRun 0 (groups16 a) (8%nat, 0%nat)) as [start n]. destruct (n =? 0)%nat.
  - destruct (groups16 a) as [|u [|v [|w g]]]; try discriminate L. change (join (go ":") (map hex16 ?l)) with (groupsText l).
    rewrite !groupsText_cons. by eexists _, _, _.
  - change (go "::") with [Byte.x3a; Byte.x3a]. eexists _, [], _. reflexivity.
Qed.

Lemma slash_not_addrChar : addrChar slash = false.
Proof. reflexivity. Qed.

Section Parse.
  Context `{UC : UnicodeCase}.

(** The characters a printed host is made of. *)
Definition hostText (s : bytes) : Prop :=
  s <> [] /\ Forall (fun c => plain c = true) s /\ head s <> Some Byte.x5b /\
  ((Byte.x3a ∉ s) \/ (Byte.x5d ∉ s) /\ (Byte.x5b ∉ s) /\ exists x y z, s = x ++ Byte.x3a :: y ++ Byte.x3a :: z).

Lemma addrChar_plain c : addrChar c = true -> plain c = true /\ c <> Byte.x5b.
Proof. destruct c; try discriminate; by split. Qed.

Lemma hostText_addr a s : ipLen a -> Forall (fun c => plain c = true) s -> (Byte.x3a ∉ s) -> (Byte.x5b ∉ s) -> (Byte.x5d ∉ s) ->
  hostText (ipString a ++ s).
Proof.
  intros Ha Hs Hc Hl Hr. pose proof (ipString_chars a Ha) as Hch.
  assert (Hne : ipString a <> []). { intros E. pose proof (ParseIP_String a Ha) as P. by rewrite E in P. }
  assert (Hp : Forall (fun c => addrChar c = true) (ipString a)) by (apply Forall_forall; intros x Hx; rewrite forallb_forall in Hch; by apply Hch, list_elem_of_In).
  repeat split.
  - by destruct (ipString a).
  - apply Forall_app. split; [|done]. eapply Forall_impl; [exact Hp|]. intros c Hx. by apply addrChar_plain.
  - destruct (ipString a) as [|c l]; [done|]. apply Forall_cons in Hp as [Hx _]. apply addrChar_plain in Hx. cbn. intros [=]. by subst.
  - destruct (ipString_cases a Ha) as [(b & Hb & E)|(H16 & _ & E)]; rewrite E in *.
    + left. rewrite elem_of_app. intros [H|H]; [|done]. pose proof (ip4String_chars b Hb) as H4. rewrite forallb_forall in H4.
      apply list_elem_of_In, H4 in H. discriminate H.
    + right. destruct (ip6String_colons a H16) as (x & y & z & E6). repeat split.
      * rewrite elem_of_app. intros [H|H]; [|done]. by apply addrChars_free with (c := Byte.x5d) in Hch.
      * rewrite elem_of_app. intros [H|H]; [|done]. by apply addrChars_free with (c := Byte.x5b) in Hch.
      * exists x, y, (z ++ s). rewrite E6, <- app_assoc. cbn [app]. by rewrite <- app_assoc.
Qed.

Lemma formatInt_plain n : Forall (fun c => plain c = true) (formatInt n).
Proof.
  apply Forall_forall. intros c Hc. pose proof (formatInt_chars n) as H. rewrite forallb_forall in H.
  apply list_elem_of_In, H in Hc. revert Hc. destruct c; try discriminate; reflexivity.
Qed.

Lemma slashInt_free n c : isNumChar c = false -> c <> slash -> c ∉ go "/" ++ formatInt n.
Proof.
  intros Hc Hs. change (go "/") with [slash]. cbn [app]. rewrite elem_of_cons. intros [?|H]; [done|].
  pose proof (formatInt_chars n) as F. rewrite forallb_forall in F. apply list_elem_of_In, F in H. congruence.
Qed.

Lemma wfHost_text h : wfHost h -> hostText (printHost h).
Proof.
  destruct h as [a bits|a|g]; cbn [wfHost printHost].
  - intros [Ha _]. apply hostText_addr; [destruct Ha as [|[]]; [by left|by right]| |by apply slashInt_free..].
    change (go "/") with [slash]. constructor; [done|apply formatInt_plain].
  - intros Ha. rewrite <- (app_nil_r (ipString a)). apply hostText_addr; [done|constructor|apply not_elem_of_nil..].
  - intros (Hne & Hp & Hc & _ & Hh & _). repeat split; try done. by left.
Qed.

Lemma splitPattern_host s : hostText s -> splitPattern s = Ok (s, []).
Proof.
  intros (Hne & _ & Hh & Hc). unfold splitPattern.
  assert (E : (match split Byte.x3a s with [host; port] => Ok (host, port) | _ => Ok (s, []) end : res patternErr _) = Ok (s, [])).
  { destruct Hc as [Hc|(_ & _ & x & y & z & ->)]; [by rewrite split_nosep|].
    pose proof (split_two_colons x y z). destruct (split _ _) as [|? [|? [|]]]; cbn in *; try done; lia. }
  rewrite E. destruct s as [|c s]; [done|]. destruct c; first [done|by destruct Hh].
Qed.

Lemma splitPattern_port s port : hostText s -> splitPattern (JoinHostPort s (formatInt port)) = Ok (s, formatInt port).
Proof.
  intros (Hne & _ & Hh & Hc). destruct (formatInt_plainPort port) as (Hp & _ & _). unfold JoinHostPort.
  destruct (containsByte Byte.x3a s) eqn:E.
  - apply containsByte_spec in E. destruct Hc as [?|(Hr & _)]; [done|].
    change (go "[") with [Byte.x5b]. change (go "]:") with [Byte.x5d; Byte.x3a]. cbn [app]. unfold splitPattern.
    by rewrite cutByte_app.
  - assert (Hn : Byte.x3a ∉ s) by (rewrite <- containsByte_spec; by rewrite E).
    change (go ":") with [Byte.x3a]. cbn [app].
    assert (X : split Byte.x3a (s ++ Byte.x3a :: formatInt port) = [s; formatInt port]) by (by rewrite split_app_sep, split_nosep).
    unfold splitPattern. rewrite X. destruct s as [|c s]; [done|]. cbn [app]. destruct c; first [done|by destruct Hh].
Qed.

Lemma printPattern_plain r : wfRule r -> printPattern r <> [] /\ trimSpace (printPattern r) = printPattern r.
Proof.
  intros (Hh & _ & _). apply wfHost_text in Hh as (Hne & Hp & _). unfold printPattern, JoinHostPort.
  destruct (rl_port r) as [p|]; [|split; [done|by apply trimSpace_id]].
  pose proof (formatInt_plain p). destruct (containsByte _ _); (split; [by destruct (printHost (rl_host r))|]);
    apply trimSpace_id; repeat (apply Forall_app; split); try done; by repeat constructor.
Qed.

Lemma compilePort_print r : wfRule r -> match rl_port r with
  | Some p => compilePort (formatInt p) = Ok p
  | None => compilePort [] = Ok 0
  end.
Proof.
  intros (_ & Hp & _). destruct (rl_port r) as [p|]; [|done]. unfold compilePort.
  destruct (formatInt_digits p ltac:(lia)) as (_ & Hne & _). unfold bytes_eqb. rewrite bool_decide_false by done.
  rewrite Atoi_format by lia. cbn [negb orb]. by rewrite (proj2 (Z.ltb_ge _ _)), (proj2 (Z.ltb_ge _ _)) by lia.
Qed.

(** The host part a rule compiles to. *)
Definition compiledHost (h : hostPat) : hostPart :=
  match h with
  | PCidr a bits => let m := CIDRMask bits (length a) in HCidr (mkIPNet (ipMask (To16 a) m) m)
  | PIP a => HIP (To16 a)
  | PGlob g => HGlob (ToLower g)
  end.

Lemma ipString_noslash a : ipLen a -> slash ∉ ipString a.
Proof. intros Ha. apply (addrChars_free slash); [by apply ipString_chars|done]. Qed.

Lemma ParseAddr_ipString a : (length a = 4%nat \/ length a = 16%nat /\ To4 a = None) -> ParseAddr (ipString a) = Some (addrOf a).
Proof.
  intros Ha. unfold addrOf, ipString. fold v4InV6Prefix. destruct (Nat.eqb_spec (length a) 4) as [H4|H4]; [by apply ParseAddr_String4|].
  destruct Ha as [?|[H16 HN]]; [done|]. unfold To4 in HN. rewrite H16 in HN. cbn [Nat.eqb andb] in HN.
  destruct (bytes_eqb (take 12 a) v4InV6Prefix); [done|]. by apply ParseAddr_String6.
Qed.

Lemma compileHost_print h : wfHost h -> compileHost (printHost h) = Ok (compiledHost h).
Proof.
  destruct h as [a bits|a|g]; cbn [wfHost printHost compiledHost]; unfold compileHost.
  - intros [Ha Hb]. assert (Hl : ipLen a) by (destruct Ha as [|[]]; [by left|by right]).
    change (go "/") with [slash]. cbn [app]. rewrite (proj2 (containsByte_spec _ _)) by (apply elem_of_app; right; apply elem_of_cons; by left).
    unfold ParseCIDR. rewrite cutByte_app by (by apply ipString_noslash). cbn [mbind option_bind].
    rewrite ParseAddr_ipString by done. cbn [mbind option_bind]. unfold addrOf, To16, blen in *.
    rewrite dtoi_format by (destruct Ha as [->|[-> _]] in Hb; lia). destruct Ha as [E|[E _]]; rewrite E in *; cbn [Nat.eqb zoneOf];
      change (bytes_eqb [] []) with true; cbn [negb mbind option_bind BitLen]; by rewrite (proj2 (Z.ltb_ge _ _)) by lia.
  - intros Ha. rewrite containsByte_false by (by apply ipString_noslash). by rewrite ParseIP_String.
  - intros (_ & _ & _ & Hs & _ & Hip & Hm). rewrite containsByte_false by done. rewrite Hip.
    by destruct (Match (ToLower g) []).
Qed.

Lemma compileRule_print r : wfRule r -> compileRule (printPattern r) = Ok (compiledHost (rl_host r), default 0 (rl_port r)).
Proof.
  intros Hw. destruct (printPattern_plain r Hw) as [Hne Ht]. pose proof (compilePort_print r Hw) as Hp.
  pose proof Hw as (Hh & _ & _). pose proof (wfHost_text _ Hh) as Hx. unfold compileRule. rewrite Ht.
  unfold bytes_eqb at 1. rewrite bool_decide_false by done. unfold printPattern. destruct (rl_port r) as [p|].
  - rewrite splitPattern_port by done. cbn [mbind res_bind]. rewrite Hp. cbn [mbind res_bind]. by rewrite compileHost_print.
  - rewrite splitPattern_host by done. cbn [mbind res_bind]. rewrite Hp. cbn [mbind res_bind]. by rewrite compileHost_print.
Qed.

Definition compiledOf (r : rulePat) : egRule := mkCompiled (compiledHost (rl_host r)) (default 0 (rl_port r)) (rl_route r).

Lemma compileRulesFrom_print i rs : Forall wfRule rs -> compileRulesFrom i (map printRule rs) = Ok (map compiledOf rs).
Proof.
  intros Hw. revert i. induction Hw as [|r rs Hr Hrs IH]; intros i; [done|]. cbn [map compileRulesFrom printRule er_Route er_Pattern].
  rewrite compileRule_print by done. destruct Hr as (_ & _ & ->). cbn [negb]. by rewrite IH.
Qed.

End Parse.

(** ** Matching *)

Lemma ParseIP_length s ip : ParseIP s = Some ip -> length ip = 16%nat.
Proof.
  unfold ParseIP. destruct (ParseAddr s) as [a|] eqn:E; [|done]. cbn. destruct (bytes_eqb _ _); [|done]. intros [= <-].
  apply ParseAddr_length in E. destruct a; cbn in *; [|done]. by rewrite E.
Qed.

Lemma To16_length b : ipLen b -> length (To16 b) = 16%nat.
Proof. unfold To16. destruct (Nat.eqb_spec (length b) 4) as [E|E]; [|by intros [?|?]]. intros _. rewrite length_app, E. done. Qed.

Lemma IPEqual_spec a x : length a = 16%nat -> ipLen x -> IPEqual a x = true <-> a = To16 x.
Proof.
  intros Ha Hx. unfold IPEqual, To16. rewrite Ha. destruct Hx as [Hx|Hx]; rewrite Hx; cbn [Nat.eqb andb].
  - rewrite andb_true_iff. unfold bytes_eqb. rewrite !bool_decide_eq_true. split.
    + intros [<- <-]. by rewrite take_drop.
    + intros ->. by split.
  - unfold bytes_eqb. by rewrite bool_decide_eq_true.
Qed.

Section Match.
  Context `{UC : UnicodeCase}.

(** Destinations whose address has the length of one. *)
Definition destOk (d : Dest) : Prop := match d_IP d with Some ip => ipLen ip | None => True end.

Lemma addrs_ok d ip : destOk d -> ip ∈ addrs d -> ipLen ip.
Proof.
  unfold destOk, addrs. rewrite elem_of_app. intros Hd [H|H].
  - destruct (d_IP d); cbn in H; [apply list_elem_of_singleton in H; by subst|by apply not_elem_of_nil in H].
  - destruct (ParseIP (d_Host d)) eqn:E; cbn in H; [|by apply not_elem_of_nil in H].
    apply list_elem_of_singleton in H. subst. right. by eapply ParseIP_length.
Qed.

Lemma any_addr (f : bytes -> bool) (P : bytes -> Prop) d : destOk d -> (forall ip, ipLen ip -> f ip = true <-> P ip) ->
  match d_IP d with Some ip => f ip | None => false end || match ParseIP (d_Host d) with Some ip => f ip | None => false end = true <->
  exists ip, ip ∈ addrs d /\ P ip.
Proof.
  intros Hd Hf. pose proof (fun ip => addrs_ok d ip Hd) as Hok. unfold addrs in *. rewrite orb_true_iff. split.
  - intros [H|H]; [destruct (d_IP d) as [ip|]; [|done]|destruct (ParseIP (d_Host d)) as [ip|]; [|done]]; exists ip;
      (split; [|apply Hf; [apply Hok|done]]); rewrite elem_of_app; first [left; by apply list_elem_of_singleton|right; by apply list_elem_of_singleton].
  - intros (ip & Hin & HP). pose proof (Hok ip Hin) as Hl. apply Hf in HP; [|done]. apply elem_of_app in Hin as [H|H].
    + left. destruct (d_IP d); cbn in H; [|by apply not_elem_of_nil in H]. apply list_elem_of_singleton in H. by subst.
    + right. destruct (ParseIP (d_Host d)); cbn in H; [|by apply not_elem_of_nil in H]. apply list_elem_of_singleton in H. by subst.
Qed.

Lemma hostCovers_spec h port route d : wfHost h -> destOk d -> port = 0 \/ port = d_Port d ->
  rule_matches (mkCompiled (compiledHost h) port route) d = true <-> hostCovers h d.
Proof.
  intros Hh Hd Hp. unfold rule_matches. cbn [cr_port cr_host].
  assert (negb (port =? 0) && negb (port =? d_Port d) = false) as ->.
  { destruct Hp as [->|Hp]; [done|]. rewrite (proj2 (Z.eqb_eq port (d_Port d)) Hp). apply andb_false_r. }
  destruct h as [a bits|a|g]; cbn [compiledHost hostCovers wfHost] in *.
  - apply any_addr; [done|]. intros ip Hip. destruct Hh as [Ha Hb]. unfold addrOf, To16, blen in *.
    destruct Ha as [Ha|[Ha _]]; rewrite Ha in *; cbn [Nat.eqb]; [apply Contains_mask4|apply Contains_mask16]; (done || lia).
  - apply any_addr; [done|]. intros ip Hip. rewrite IPEqual_spec by (done || by apply To16_length). by split.
  - clear Hh. unfold destName. cbv zeta. destruct (Match _ _) as [[]|e]; by split.
Qed.

Lemma matches_covers r d : wfRule r -> destOk d -> rule_matches (compiledOf r) d = true <-> covers r d.
Proof.
  intros (Hh & Hp & _) Hd. unfold compiledOf, covers. destruct (rl_port r) as [p|]; cbn [default from_option id].
  - destruct (decide (d_Port d = p)) as [E|E].
    + rewrite hostCovers_spec by (done || by right). tauto.
    + split; [|by intros []]. unfold rule_matches. cbn [cr_port].
      rewrite (proj2 (Z.eqb_neq p 0)), (proj2 (Z.eqb_neq p (d_Port d))) by (done || lia). done.
  - rewrite hostCovers_spec by (done || by left). tauto.
Qed.

(** The route of the first rule that covers a destination, or the default. *)
Definition firstRoute (rs : list rulePat) (def : bytes) (d : Dest) (route : bytes) : Prop :=
  (exists i r, rs !! i = Some r /\ covers r d /\ rl_route r = route /\ forall j r', (j < i)%nat -> rs !! j = Some r' -> ~ covers r' d) \/
  ((forall r, r ∈ rs -> ~ covers r d) /\ route = def).

Lemma routeRules_first rs def d : Forall wfRule rs -> destOk d -> firstRoute rs def d (routeRules (map compiledOf rs) def d).
Proof.
  intros Hw Hd. induction Hw as [|r rs Hr Hrs IH]; [right; split; [by intros r ?%not_elem_of_nil|done]|]. cbn [map routeRules].
  pose proof (matches_covers r d Hr Hd) as M. destruct (rule_matches (compiledOf r) d).
  - left. exists 0%nat, r. split; [done|]. split; [by apply M|]. split; [done|]. intros j ? Hj. lia.
  - assert (N : ~ covers r d) by (intros C; by apply M in C). destruct IH as [(i & r' & Hi & Hc & He & Hb)|[Hall He]].
    + left. exists (S i), r'. split; [done|]. split; [done|]. split; [done|]. intros [|j] x Hj Hx; [by injection Hx as <-|].
      eapply Hb, Hx. lia.
    + right. split; [|done]. intros x [->|Hx]%elem_of_cons; [done|by apply Hall].
Qed.

End Match.

(** ** The answers of a policy *)

Section Answers.
  Context `{UC : UnicodeCase} `{JS : Sobek}.

(** A spec with rules only. *)
Definition rulesSpec (mode : bytes) (rules : list EgressRule) (def : bytes) (port : Z) : EgressSpec :=
  mkEgressSpec mode [] ∅ rules [] def port.

(** C11. Rules whose hosts are addresses, address prefixes, and well-formed globs of visible ASCII without a colon, a slash or a
    leading bracket, on any port or a given one, compile, and a destination goes where the first rule
    that covers it says: by the leading bits of an address, by an address, or by the name, on any port or
    the one given; and to the default if none does. (A glob that begins with a character class is in the documented grammar and is
    not read as one, see [leading_class_misread] in [EgressSafe].) *)
Theorem rules_mean mode port rs def d : Forall wfRule rs -> ValidRoute def = true -> destOk d ->
  exists p, Compile (rulesSpec mode (map printRule rs) def port) = Ok (PRules p) /\ firstRoute rs def d (rules_Route p d).
Proof.
  intros Hw Hdef Hd. exists (mkRulePolicy (map compiledOf rs) def). split; [|by apply routeRules_first].
  unfold Compile, eg_compileRules. cbn [rulesSpec eg_Default eg_Script eg_Rules].
  assert (bytes_eqb def [] = false) as -> by (destruct def; [discriminate Hdef|done]).
  rewrite Hdef. cbn [negb]. change (bytes_eqb (trimSpace []) []) with true. cbn [negb]. by rewrite compileRulesFrom_print.
Qed.

(** The same policy, whatever its idle runtimes. *)
Definition samePolicy (p q : eg_Policy) : Prop :=
  match p, q with
  | PRules a, PRules b => a = b
  | PScript a, PScript b => sp_prog a = sp_prog b /\ sp_def a = sp_def b
  | _, _ => False
  end.

(** [egressRoutesToClient] *)
Definition egressRoutesToClient (e : EgressSpec) : bool :=
  if negb (bytes_eqb (trimSpace (eg_Script e)) []) then true
  else if bytes_eqb (eg_Default e) (go "client") then true
  else existsb (fun r => bytes_eqb (er_Route r) (go "client")) (eg_Rules e).

Lemma pacReturnToRoute_valid ret def : ValidRoute def = true -> ValidRoute (pacReturnToRoute ret def) = true.
Proof.
  intros H. unfold pacReturnToRoute. cbv zeta.
  repeat match goal with
  | |- context [if ?b then _ else _] => destruct b
  | |- context [match ?o with Some _ => _ | None => _ end] => destruct o
  end; done.
Qed.

Lemma compileRulesFrom_routes i rules l : compileRulesFrom i rules = Ok l ->
  map cr_route l = map er_Route rules /\ Forall (fun r => ValidRoute r = true) (map er_Route rules).
Proof.
  revert i l. induction rules as [|r rules IH]; intros i l; cbn [compileRulesFrom map]; [by intros [= <-]|].
  destruct (ValidRoute (er_Route r)) eqn:V; [|done]. cbn [negb]. destruct (compileRule (er_Pattern r)) as [[h port]|]; [|done].
  destruct (compileRulesFrom (S i) rules) as [l'|] eqn:E; [|done]. cbn. intros [= <-]. destruct (IH _ _ E) as [E1 E2].
  cbn. rewrite E1. split; [done|]. by constructor.
Qed.

Lemma routeRules_in l def d : routeRules l def d ∈ def :: map cr_route l.
Proof.
  induction l as [|r l IH]; [apply elem_of_cons; by left|]. cbn [routeRules map]. rewrite !elem_of_cons in *.
  destruct (rule_matches r d); [tauto|]. tauto.
Qed.

(** C13. The answer to a destination is one of the four routes, from a rule list or a script, whatever the script does
    and whatever state its runtimes are in; with an error it is the refusal; and a spec the client lets a
    detached deployment use never answers with the client. *)
Theorem Route_valid spec p q pick d : Compile spec = Ok p -> samePolicy p q ->
  let '(q', (r, err)) := Route pick q d in
  samePolicy p q' /\ ValidRoute r = true /\ (err = true -> r = RouteDeny) /\ (egressRoutesToClient spec = false -> r <> RouteClient).
Proof.
  unfold Compile, egressRoutesToClient. set (def := if bytes_eqb _ _ then _ else _).
  assert (Hc : def = RouteClient -> bytes_eqb (eg_Default spec) (go "client") = true).
  { unfold def. destruct (bytes_eqb (eg_Default spec) []); [done|]. intros ->. done. }
  destruct (ValidRoute def) eqn:V; [|done]. cbn [negb]. clearbody def. destruct (bytes_eqb (trimSpace (eg_Script spec)) []); cbn [negb].
  - unfold eg_compileRules. destruct (compileRulesFrom 0 (eg_Rules spec)) as [l|] eqn:E; [|done]. cbn [mbind res_bind]. intros [= <-].
    destruct q as [q|q]; [|done]. intros <-. cbn [Route samePolicy]. destruct (compileRulesFrom_routes _ _ _ E) as [E1 E2].
    pose proof (routeRules_in l def d) as Hin. rewrite E1, elem_of_cons in Hin. unfold rules_Route. cbn [rp_rules rp_def].
    split; [done|]. split; [destruct Hin as [->|Hin]; [done|]; rewrite Forall_forall in E2; by apply E2|]. split; [done|].
    intros Hn Hr. rewrite Hr in Hin. destruct Hin as [Hin|Hin]; [by rewrite (Hc (eq_sym Hin)) in Hn|].
    destruct (bytes_eqb (eg_Default spec) (go "client")); [done|]. apply list_elem_of_fmap in Hin as (r & Er & Hin).
    apply not_true_iff_false in Hn. apply Hn, existsb_exists. exists r. split; [by apply list_elem_of_In|]. by rewrite <- Er.
  - unfold compileScript. destruct (js_Compile (eg_Script spec)) as [prog|]; [|done].
    destruct (negb _); [done|]. cbn [mbind res_bind]. intros [= <-]. destruct q as [q|q]; [done|]. cbn [samePolicy Route sp_prog sp_def]. intros [Hp Hd].
    unfold script_Route. destruct (poolGet pick q) as [[rt|] pool]; [|cbn; by rewrite <- Hp, <- Hd].
    destruct (js_Call rt _ _ _) as [rt' ret]. cbn. rewrite <- Hp, <- Hd.
    destruct ret; cbn; repeat split; try done. by apply pacReturnToRoute_valid.
Qed.

End Answers.
