(* ===== verification/EgressRelay.v ===== *)
(** * Egress relay

    The three places a workload's connection passes: the caretaker beside it
    ([pkg/caretaker/egress.go], [egress_transparent.go]), the server ([pkg/server/egress_relay.go]) and
    the client that deployed it ([pkg/deploywire/egress.go]).  Each reads a destination and asks the
    policy again.

    - the caretaker: [routeUpstream], [handleSocks5], [handleConnect], [forwardHTTP], [handleHTTP],
      [handleTransparent]; what it writes on a relay stream is [OpenEgress].
    - the server: [relayEgress], [relayEgressSession], [pipeGatewayEgress], [EgressRoute].
    - the client: [serveEgress], [egressHandlerFor], [serveOneLine].

    A step reports the dials it attempts; whether a dial succeeds and the bytes spliced after it do
    not change where they go.  Requests an HTTP client sends come as [http.ReadRequest] gives
    them.  [pick] says which idle runtime a script policy uses. *)
From stdpp Require Import base list gmap strings.
From Stdlib Require Import ZArith Lia.
From Stdlib.Strings Require Import Byte.
From S2P Require Import Prelude GoStd GoNet GoJson GoUnicode Socks5 EgressPolicy.
Open Scope Z_scope.

(** ** Lines *)

Definition maxLineLen : nat := 4096.
Definition newline : byte := Byte.x0a.

(** [wire.ReadLine]: [b] is what has been read of the line. *)
Fixpoint readLineFrom (n : nat) (r : bytes) : option (bytes * bytes) :=
  match r with
  | [] => None
  | c :: r =>
      if bool_decide (c = newline) then Some ([], r)
      else if (maxLineLen <=? n)%nat then None
      else '(line, rest) ← readLineFrom (S n) r; Some (c :: line, rest)
  end.

Definition ReadLine (r : bytes) : option (bytes * bytes) := readLineFrom 0 r.

Definition OpenEgress (session route dest : bytes) : bytes :=
  session ++ [newline] ++ route ++ [newline] ++ dest ++ [newline].

Definition OpenEgressBacking (dest : bytes) : bytes := dest ++ [newline].

Section Relay.
  Context `{UC : UnicodeCase} `{JS : Sobek}.

(** The destination a policy is asked about. *)
Definition destFor (host : bytes) (port : Z) : Dest := mkDest host (ParseIP host) port.

(** ** The caretaker *)

(** The fields that decide where a connection goes; the address of the server, the mode and the ports are the
    listener's. *)
Record EgressRole := mkEgressRole { ro_Session : bytes; ro_Rules : list EgressRule; ro_Script : bytes; ro_Default : bytes }.

Definition role_policy (r : EgressRole) : res policyErr eg_Policy :=
  Compile (mkEgressSpec [] [] ∅ (ro_Rules r) (ro_Script r) (ro_Default r) 0).

(** The role [planEgress] gives the companion of a deployment. *)
Definition planRole (session : bytes) (e : EgressSpec) : EgressRole :=
  mkEgressRole session (eg_Rules e) (eg_Script e) (eg_Default e).

Inductive egressError : Type :=
| EParse
| EPolicy
| EOpen
| EDial
| EDenied
| ECommand
| EAddress.

(** What the caretaker does on the outside. *)
Inductive upstream : Type :=
| UpRelay (header : bytes)
| UpDirect (dest : bytes).

(** [ok]: whether opening the stream or dialing succeeds. The attempt is reported with the outcome. *)
Definition routeUpstream (pick : option nat) (ok : bool) (session dest : bytes) (pol : eg_Policy)
    : eg_Policy * option upstream * res egressError () :=
  match SplitHostPort dest with
  | None => (pol, None, Err EParse)
  | Some (host, portStr) =>
      let '(pol, (route, err)) := Route pick pol (destFor host (fst (Atoi portStr))) in
      if err : bool then (pol, None, Err EPolicy)
      else if bytes_eqb route RouteClient || bytes_eqb route RouteGateway then
        (pol, Some (UpRelay (OpenEgress session route dest)), if ok then Ok () else Err EOpen)
      else if bytes_eqb route RouteCluster then (pol, Some (UpDirect dest), if ok then Ok () else Err EDial)
      else (pol, None, Err EDenied)
  end.

(** What is written to the workload, the attempt on the outside, the error the boundary logs, and whether the connection is
    joined to the outside. *)
Record handled := mkHandled { h_wrote : list bytes; h_up : option upstream; h_err : option egressError; h_spliced : bool }.

Definition quiet (wrote : list bytes) : handled := mkHandled wrote None None false.

Definition socksReply (status : byte) : bytes :=
  [Byte.x05; status; Byte.x00; Byte.x01; Byte.x00; Byte.x00; Byte.x00; Byte.x00; Byte.x00; Byte.x00].

(** [readSocksAddr] *)
Definition readSocksAddr (atyp : byte) (r : bytes) : option (bytes * bytes) :=
  if bool_decide (atyp = Byte.x01) then '(b, r) ← sockRead 4 r; Some (ipString b, r)
  else if bool_decide (atyp = Byte.x04) then '(b, r) ← sockRead 16 r; Some (ipString b, r)
  else if bool_decide (atyp = Byte.x03) then '(n, r) ← sockRead 1 r; sockRead (Z.to_nat (be_get n)) r
  else None.

(** The greeting; [wok]: the answer could be written. *)
Definition socksGreeting (wok : bool) (r : bytes) : list bytes * option bytes :=
  match sockRead 2 r with
  | Some ([ver; n], r) =>
      if negb (bool_decide (ver = Byte.x05)) then ([], None)
      else match sockRead (Z.to_nat (Z_of_byte n)) r with
           | None => ([], None)
           | Some (_, r) => ([[Byte.x05; Byte.x00]], if wok then Some r else None)
           end
  | _ => ([], None)
  end.

Definition handleSocks5 (pick : option nat) (wok ok : bool) (session : bytes) (pol : eg_Policy) (inp : bytes) : eg_Policy * handled :=
  let '(wrote, r) := socksGreeting wok inp in
  match r with
  | None => (pol, quiet wrote)
  | Some r =>
      match sockRead 4 r with
      | Some ([ver; cmd; _; atyp], r) =>
          if negb (bool_decide (ver = Byte.x05)) || negb (bool_decide (cmd = Byte.x01)) then
            (pol, mkHandled (wrote ++ [socksReply Byte.x07]) None (Some ECommand) false)
          else
            match readSocksAddr atyp r with
            | None => (pol, mkHandled (wrote ++ [socksReply Byte.x08]) None (Some EAddress) false)
            | Some (host, r) =>
                match sockRead 2 r with
                | None => (pol, quiet wrote)
                | Some (pb, _) =>
                    let dest := JoinHostPort host (formatInt (be_get pb)) in
                    let '(pol, up, e) := routeUpstream pick ok session dest pol in
                    (pol, match e with
                          | Err e => mkHandled (wrote ++ [socksReply Byte.x02]) up (Some e) false
                          | Ok _ => mkHandled (wrote ++ [socksReply Byte.x00]) up None true
                          end)
                end
            end
      | _ => (pol, quiet wrote)
      end
  end.

(** A request as [http.ReadRequest] gives it: whether the method is CONNECT, [Host] and the host of the URL, and how
    the exchange with the outside goes. *)
Record httpReq := mkHttpReq {
  q_connect : bool; q_Host : bytes; q_URLHost : bytes;
  q_up : bool;          (* the stream is opened, or the dial succeeds *)
  q_exchange : bool;    (* the request is forwarded and the response read and written back *)
  q_reuse : bool;       (* neither side asks to close *)
}.

Definition withPort (dest port : bytes) : bytes :=
  match SplitHostPort dest with Some _ => dest | None => JoinHostPort dest port end.

Definition handleConnect (pick : option nat) (session : bytes) (pol : eg_Policy) (q : httpReq) : eg_Policy * option upstream :=
  let dest := withPort (q_Host q) (go "443") in
  let '(pol, up, _) := routeUpstream pick (q_up q) session dest pol in (pol, up).

(** The upstream of one forwarded request, and whether the connection goes on. *)
Definition forwardHTTP (pick : option nat) (session : bytes) (pol : eg_Policy) (q : httpReq) : eg_Policy * option upstream * bool :=
  let dest := if bytes_eqb (q_Host q) [] then q_URLHost q else q_Host q in
  let dest := withPort dest (go "80") in
  let '(pol, up, e) := routeUpstream pick (q_up q) session dest pol in
  (pol, up, is_ok e && q_exchange q && q_reuse q).

(** [handleHTTP] on the requests of a connection, each with the runtime a script policy would use. *)
Fixpoint handleHTTP (session : bytes) (pol : eg_Policy) (reqs : list (option nat * httpReq)) : eg_Policy * list upstream :=
  match reqs with
  | [] => (pol, [])
  | (pick, q) :: reqs =>
      if q_connect q then let '(pol, up) := handleConnect pick session pol q in (pol, option_list up)
      else
        let '(pol, up, keepAlive) := forwardHTTP pick session pol q in
        if keepAlive : bool then let '(pol, ups) := handleHTTP session pol reqs in (pol, option_list up ++ ups)
        else (pol, option_list up)
  end.

(** The destination [originalDst] recovers: an IPv4 address and a port, if the kernel gives them. *)
Definition handleTransparent (pick : option nat) (ok : bool) (session : bytes) (pol : eg_Policy) (orig : option (bytes * Z)) : eg_Policy * option upstream :=
  match orig with
  | None => (pol, None)
  | Some (ip, port) =>
      let dst := JoinHostPort (ipString ip) (formatInt port) in
      let '(pol, up, _) := routeUpstream pick ok session dst pol in (pol, up)
  end.

(** A connection of the workload: to the forward proxy, by the first byte, or captured on its way out. *)
Inductive appConn : Type :=
| ASocks (inp : bytes)
| AHttp (reqs : list (option nat * httpReq))
| ATransparent (orig : option (bytes * Z)).

(** What the caretaker attempts on the outside for it. *)
Definition caretakerServe (pick : option nat) (wok ok : bool) (session : bytes) (pol : eg_Policy) (c : appConn) : eg_Policy * list upstream :=
  match c with
  | ASocks inp => let '(pol, h) := handleSocks5 pick wok ok session pol inp in (pol, option_list (h_up h))
  | AHttp reqs => handleHTTP session pol reqs
  | ATransparent orig => let '(pol, up) := handleTransparent pick ok session pol orig in (pol, option_list up)
  end.

(** ** The server *)

(** A deploy-attach session: the egress spec of its deployment, and the policy compiled from it at the first use. *)
Record ServerSession := mkSession { ss_spec : option EgressSpec; ss_policy : option (res policyErr (option eg_Policy)) }.

(** [EgressRoute] *)
Definition sess_compile (s : ServerSession) : res policyErr (option eg_Policy) :=
  match ss_policy s with
  | Some p => p
  | None => match ss_spec s with Some e => p ← Compile e; Ok (Some p) | None => Ok None end
  end.

Definition EgressRoute (pick : option nat) (host : bytes) (port : Z) (s : ServerSession) : ServerSession * (bytes * bool) :=
  match sess_compile s with
  | Err e => (mkSession (ss_spec s) (Some (Err e)), ([], true))
  | Ok None => (mkSession (ss_spec s) (Some (Ok None)), (RouteCluster, false))
  | Ok (Some p) =>
      let '(p, r) := Route pick p (destFor host port) in (mkSession (ss_spec s) (Some (Ok (Some p))), r)
  end.

(** The sessions by id, the operator's opt-in and ceiling. *)
Record Server := mkServer { sv_mounts : gmap bytes ServerSession; sv_egressGateway : bool; sv_egressPolicy : option eg_Policy }.

(** What the server does with a stream: the dial it attempts, or the stream it opens to a session's client with the
    header it writes, each with the bytes it will carry; or nothing. *)
Inductive relayed : Type :=
| SDial (dest rest : bytes)
| SBacking (session header rest : bytes)
| SDropped.

Definition pipeGatewayEgress (pick : option nat) (dest rest : bytes) (s : Server) : Server * relayed :=
  if negb (sv_egressGateway s) then (s, SDropped)
  else
    match sv_egressPolicy s with
    | None => (s, SDial dest rest)
    | Some pol =>
        let '(host, portStr) := default ([], []) (SplitHostPort dest) in
        let '(pol, (r, err)) := Route pick pol (destFor host (fst (Atoi portStr))) in
        let s := mkServer (sv_mounts s) (sv_egressGateway s) (Some pol) in
        if err || bytes_eqb r RouteDeny then (s, SDropped) else (s, SDial dest rest)
    end.

Definition relayEgressSession (pick pick' : option nat) (id : bytes) (sess : ServerSession) (dest rest : bytes) (s : Server) : Server * relayed :=
  match SplitHostPort dest with
  | None => (s, SDropped)
  | Some (host, portStr) =>
      let '(sess, (route, err)) := EgressRoute pick host (fst (Atoi portStr)) sess in
      let s := mkServer (<[id := sess]> (sv_mounts s)) (sv_egressGateway s) (sv_egressPolicy s) in
      if err : bool then (s, SDropped)
      else if bytes_eqb route RouteClient then (s, SBacking id (OpenEgressBacking dest) rest)
      else if bytes_eqb route RouteGateway then pipeGatewayEgress pick' dest rest s
      else (s, SDropped)
  end.

Definition relayEgress (pick pick' : option nat) (stream : bytes) (s : Server) : Server * relayed :=
  match ReadLine stream with
  | None => (s, SDropped)
  | Some (session, stream) =>
      match ReadLine stream with
      | None => (s, SDropped)
      | Some (route, stream) =>
          match ReadLine stream with
          | None => (s, SDropped)
          | Some (dest, rest) =>
              match sv_mounts s !! session with
              | Some sess => relayEgressSession pick pick' session sess dest rest s
              | None => if bytes_eqb route RouteGateway then pipeGatewayEgress pick' dest rest s else (s, SDropped)
              end
          end
      end
  end.

(** ** The client *)

(** [atoiSafe], at the width of an [int]. *)
Definition atoiSafe (s : bytes) : Z :=
  let wrap v := (v + 2 ^ 63) mod 2 ^ 64 - 2 ^ 63 in
  let step acc c := match acc with
                    | Some n => if isDigit c then Some (wrap (n * 10 + (Z_of_byte c - 48))) else None
                    | None => None
                    end in
  default 0 (fold_left step s (Some 0)).

(** The dial [serveEgress] attempts; [policy]: the local guard, if any. *)
Definition serveEgress (pick : option nat) (dest : bytes) (policy : option eg_Policy) : option eg_Policy * option bytes :=
  match SplitHostPort dest with
  | None => (policy, None)
  | Some (host, portStr) =>
      match policy with
      | None => (None, Some dest)
      | Some pol =>
          let '(pol, (route, err)) := Route pick pol (destFor host (atoiSafe portStr)) in
          if err || negb (bytes_eqb route RouteClient) then (Some pol, None) else (Some pol, Some dest)
      end
  end.

(** The guard of a deployment's client; none when it serves no egress at all. *)
Definition egressHandlerFor (spec : option EgressSpec) : option (option eg_Policy) :=
  match spec with
  | None => None
  | Some e =>
      if bytes_eqb (eg_Mode e) [] || bytes_eqb (eg_Mode e) (go "env") then None
      else Some (match Compile e with Ok p => Some p | Err _ => None end)
  end.

(** A backing stream on the client: [handler] is what [egressHandlerFor] gave. *)
Definition serveOneLine (pick : option nat) (handler : option (option eg_Policy)) (stream : bytes) : option (option eg_Policy) * option bytes :=
  match handler with
  | None => (None, None)
  | Some guard =>
      match ReadLine stream with
      | None => (handler, None)
      | Some (line, _) => let '(guard, up) := serveEgress pick line guard in (Some guard, up)
      end
  end.

(** ** The path of a connection *)

(** Where a dial is attempted from. *)
Inductive egressExit : Type :=
| FromPod (dest : bytes)
| FromServer (dest : bytes)
| FromClient (dest : bytes).

(** The clients, by session. *)
Definition clientOf (clients : gmap bytes (option (option eg_Policy))) (id : bytes) : option (option eg_Policy) := default None (clients !! id).

Definition relayPath (pick pick' cpick : option nat) (clients : gmap bytes (option (option eg_Policy))) (stream : bytes) (s : Server) : option egressExit :=
  match snd (relayEgress pick pick' stream s) with
  | SDial dest _ => Some (FromServer dest)
  | SBacking id header _ => FromClient <$> snd (serveOneLine cpick (clientOf clients id) header)
  | SDropped => None
  end.

Definition upstreamPath (pick pick' cpick : option nat) (clients : gmap bytes (option (option eg_Policy))) (s : Server) (data : bytes) (up : upstream) : option egressExit :=
  match up with
  | UpDirect dest => Some (FromPod dest)
  | UpRelay header => relayPath pick pick' cpick clients (header ++ data) s
  end.

End Relay.
