(* ===== verification/EgressSafe.v ===== *)
(** * Egress: where connections leave

    [relay_confined]: for any bytes on a relay stream, the server dials only what the operator lets it
    and opens only streams to the session's client that the session's policy sends there.
    [egress_by_policy]: for any bytes of a workload whose caretaker is the repository's, a dial from the
    pod, the server or the client is for a destination the policy sends there.
    [egress_delivered]: under a policy of rules, a request for a target ends in the dial its route names.
    [egress_fails_closed]: no verdict, no dial.

    The lemmas at the end are inputs for which the code does something its comments do not say. *)
From stdpp Require Import base list gmap strings.
From Stdlib Require Import ZArith Lia.
From Stdlib.Strings Require Import Byte.
From S2P Require Import Prelude GoStd GoGlob GoNet GoJson GoUnicode Socks5 Socks5Route EgressPolicy EgressRules EgressRelay.
Open Scope Z_scope.

(** ** Lines *)

Lemma readLineFrom_app n l rest : (newline ∉ l) -> (n + length l <= maxLineLen)%nat ->
  readLineFrom n (l ++ newline :: rest) = Some (l, rest).
Proof.
  revert n. induction l as [|c l IH]; intros n Hn Hl; [done|]. cbn [app readLineFrom].
  apply not_elem_of_cons in Hn as [Hc Hn]. rewrite bool_decide_false by done. cbn [length] in Hl.
  rewrite (proj2 (Nat.leb_gt _ _)) by lia. by rewrite IH by (done || lia).
Qed.

Lemma ReadLine_app l rest : (newline ∉ l) -> (length l <= maxLineLen)%nat -> ReadLine (l ++ newline :: rest) = Some (l, rest).
Proof. intros. by apply readLineFrom_app. Qed.

Lemma readLineFrom_sound n s l rest : readLineFrom n s = Some (l, rest) -> s = l ++ newline :: rest /\ newline ∉ l.
Proof.
  revert n l. induction s as [|c s IH]; intros n l; cbn [readLineFrom]; [done|]. case_bool_decide as E.
  - intros [= <- <-]. subst. split; [done|apply not_elem_of_nil].
  - destruct (maxLineLen <=? n)%nat; [done|]. destruct (readLineFrom (S n) s) as [[l' r']|] eqn:R; [|done]. cbn.
    intros [= <- <-]. apply IH in R as [-> Hn]. split; [done|]. apply not_elem_of_cons. by split.
Qed.

Lemma ReadLine_first l a rest b : (newline ∉ l) -> ReadLine (l ++ newline :: a) = Some (rest, b) -> rest = l /\ b = a.
Proof.
  intros Hl H. apply readLineFrom_sound in H as [E Hr].
  assert (X : cutByte newline (l ++ newline :: a) = Some (l, a)) by (by apply cutByte_app).
  rewrite E, cutByte_app in X by done. by injection X as -> ->.
Qed.

(** ** Taking a destination apart *)

Lemma SplitHostPort_nocolon s : (Byte.x3a ∉ s) -> SplitHostPort s = None.
Proof.
  intros H. unfold SplitHostPort. destruct (cutByte Byte.x3a (rev s)) as [[a b]|] eqn:E; [|done].
  apply cutByte_Some in E as [E _]. destruct H. rewrite <- (rev_involutive s), E, list_elem_of_In, <- in_rev, <- list_elem_of_In.
  apply elem_of_app. right. apply elem_of_cons. by left.
Qed.

Lemma SplitHostPort_port x q h p : (Byte.x3a ∉ q) -> SplitHostPort (x ++ Byte.x3a :: q) = Some (h, p) -> p = q.
Proof.
  intros Hq. unfold SplitHostPort. rewrite cutByte_rev_colon, !rev_involutive by done.
  destruct (x ++ Byte.x3a :: q) as [|c l]; [repeat destruct (containsByte _ _); by intros [=]|].
  assert (G : (if containsByte Byte.x3a x then None
      else if containsByte Byte.x5b (c :: l) || containsByte Byte.x5d (c :: l) then None else Some (x, q)) = Some (h, p) -> p = q).
  { destruct (containsByte Byte.x3a x); [done|]. destruct (_ || _); [done|]. by intros [=]. }
  destruct c; try exact G. clear G. destruct (cutByte Byte.x5d l) as [[u v]|]; [|done].
  destruct (negb _); [done|]. destruct (_ || _); [done|]. by intros [=].
Qed.

Lemma SplitHostPort_inv d h p : SplitHostPort d = Some (h, p) ->
  (d = h ++ Byte.x3a :: p /\ Byte.x3a ∉ h) \/ (d = Byte.x5b :: h ++ Byte.x5d :: Byte.x3a :: p /\ Byte.x5d ∉ h).
Proof.
  unfold SplitHostPort. destruct (cutByte Byte.x3a (rev d)) as [[rp rh]|] eqn:E; [|done].
  apply cutByte_Some in E as [E _]. apply (f_equal (@rev byte)) in E.
  rewrite rev_involutive, rev_app_distr in E. cbn [rev] in E. rewrite <- app_assoc in E. cbn [app] in E.
  assert (G : (if containsByte Byte.x3a (rev rh) then None
      else if containsByte Byte.x5b d || containsByte Byte.x5d d then None else Some (rev rh, rev rp)) = Some (h, p) ->
    d = h ++ Byte.x3a :: p /\ Byte.x3a ∉ h).
  { destruct (containsByte Byte.x3a (rev rh)) eqn:C; [done|]. destruct (_ || _); [done|]. intros [= <- <-]. split; [done|].
    rewrite <- containsByte_spec. by rewrite C. }
  clear E. destruct d as [|c d]; [intros H; left; by apply G|]. destruct c; try (intros H; left; by apply G). clear G.
  destruct (cutByte Byte.x5d d) as [[u v]|] eqn:C; [|done]. apply cutByte_Some in C as [-> Hu].
  destruct (negb _) eqn:V; [done|]. apply negb_false_iff, bool_decide_eq_true in V. subst v.
  destruct (_ || _); [done|]. intros [= <- <-]. by right.
Qed.

(** A text cut at a separator of another: what follows the cut of the longer one ends with the rest. *)
Lemma cut_before sep l tail h t : (sep ∈ l) -> cutByte sep (l ++ tail) = Some (h, t) -> exists v, t = v ++ tail.
Proof.
  intros Hin. destruct (cutByte sep l) as [[u v]|] eqn:E; [|by apply cutByte_None in E].
  apply cutByte_Some in E as [-> Hu]. rewrite <- app_assoc. cbn [app]. rewrite cutByte_app by done. intros [= <- <-]. by exists v.
Qed.

Lemma SplitHostPort_unclosed l : (Byte.x5d ∉ l) -> SplitHostPort (Byte.x5b :: l) = None.
Proof. intros H. unfold SplitHostPort. destruct (cutByte Byte.x3a _) as [[]|]; [|done]. by rewrite (proj2 (cutByte_None _ _) H). Qed.

(** The line of a destination with a newline in the host is no destination. *)
Lemma framing dest h p l rest data : SplitHostPort dest = Some (h, p) -> (newline ∉ p) ->
  ReadLine (dest ++ newline :: data) = Some (l, rest) -> l = dest \/ SplitHostPort l = None.
Proof.
  intros Hs Hp H. destruct (cutByte newline dest) as [[a b]|] eqn:E.
  2:{ apply cutByte_None in E. left. by apply ReadLine_first in H as [-> _]. }
  apply cutByte_Some in E as [-> Ha]. rewrite <- app_assoc in H. cbn [app] in H. apply ReadLine_first in H as [-> _]; [|done].
  assert (Hnl : forall v : bytes, newline ∈ v ++ newline :: b) by (intros v; apply elem_of_app; right; apply elem_of_cons; by left).
  right. destruct (SplitHostPort_inv _ _ _ Hs) as [[Ed Hc]|[Ed Hc]].
  - apply SplitHostPort_nocolon. intros Hin.
    destruct (cut_before Byte.x3a a (newline :: b) h p) as [v ->]; [done|by rewrite Ed, cutByte_app|]. by apply Hp.
  - destruct a as [|c a]; [discriminate Ed|]. injection Ed as -> Ed. apply SplitHostPort_unclosed. intros Hin.
    destruct (cut_before Byte.x5d a (newline :: b) h (Byte.x3a :: p)) as [v Hv]; [done|by rewrite Ed, cutByte_app|].
    specialize (Hnl v). rewrite <- Hv in Hnl. by apply elem_of_cons in Hnl as [?|?].
Qed.

Section Server.
  Context `{UC : UnicodeCase} `{JS : Sobek}.

(** A policy gives this answer for a destination, in some state of its runtimes. *)
Definition answers (p : eg_Policy) (d : Dest) (route : bytes) : Prop :=
  exists q pick, samePolicy p q /\ snd (Route pick q d) = (route, false).

(** The destination a text names. *)
Definition destText (dest : bytes) : option Dest :=
  '(host, port) ← SplitHostPort dest; Some (destFor host (fst (Atoi port))).

(** A policy sends the destination a text names there. *)
Definition sends (p : eg_Policy) (dest route : bytes) : Prop := exists d, destText dest = Some d /\ answers p d route.

(** The session's cached policy is the one its spec compiles to. *)
Definition sessionOk (s : ServerSession) : Prop :=
  match ss_policy s with
  | None => True
  | Some (Err e) => exists spec, ss_spec s = Some spec /\ Compile spec = Err e
  | Some (Ok None) => ss_spec s = None
  | Some (Ok (Some q)) => exists spec p, ss_spec s = Some spec /\ Compile spec = Ok p /\ samePolicy p q
  end.

Definition ceilingSame (a b : option eg_Policy) : Prop :=
  match a, b with
  | None, None => True
  | Some p, Some q => samePolicy p q
  | _, _ => False
  end.

(** The server's state, with the ceiling it was started with. *)
Definition serverOk (ceiling : option eg_Policy) (s : Server) : Prop :=
  (forall id sess, sv_mounts s !! id = Some sess -> sessionOk sess) /\ ceilingSame ceiling (sv_egressPolicy s).

(** The specs of the sessions. *)
Definition specOf (s : Server) (id : bytes) : option (option EgressSpec) := ss_spec <$> sv_mounts s !! id.

Lemma samePolicy_refl p : samePolicy p p.
Proof. by destruct p. Qed.

Lemma samePolicy_trans p q r : samePolicy p q -> samePolicy q r -> samePolicy p r.
Proof. destruct p, q, r; cbn; try done; [congruence|]. intros [-> ->] [-> ->]. done. Qed.

Lemma Route_same pick p d : samePolicy p (fst (Route pick p d)).
Proof.
  destruct p as [p|p]; [done|]. cbn [Route]. unfold script_Route. destruct (poolGet pick p) as [[rt|] pool]; [|done].
  by destruct (js_Call rt _ _ _).
Qed.

Lemma answers_intro pick p q d q' route : samePolicy p q -> Route pick q d = (q', (route, false)) -> answers p d route /\ samePolicy p q'.
Proof.
  intros Hs E. split; [exists q, pick; split; [done|by rewrite E]|].
  pose proof (Route_same pick q d) as H. rewrite E in H. by eapply samePolicy_trans.
Qed.

Lemma sess_compile_ok s : sessionOk s -> match sess_compile s with
  | Err e => exists spec, ss_spec s = Some spec /\ Compile spec = Err e
  | Ok None => ss_spec s = None
  | Ok (Some q) => exists spec p, ss_spec s = Some spec /\ Compile spec = Ok p /\ samePolicy p q
  end.
Proof.
  unfold sessionOk, sess_compile. destruct (ss_policy s); [done|]. intros _. destruct (ss_spec s) as [e|]; [|done].
  destruct (Compile e) as [p|x] eqn:E; cbn; [|by exists e]. exists e, p. split; [done|]. split; [done|apply samePolicy_refl].
Qed.

(** The re-check of a session: its verdict is the spec's. *)
Lemma EgressRoute_ok pick host port s s' route err : sessionOk s -> EgressRoute pick host port s = (s', (route, err)) ->
  sessionOk s' /\ ss_spec s' = ss_spec s /\
  (err = false -> route = RouteCluster /\ ss_spec s = None \/
    exists spec p, ss_spec s = Some spec /\ Compile spec = Ok p /\ answers p (destFor host port) route).
Proof.
  intros Hok. apply sess_compile_ok in Hok. unfold EgressRoute. destruct (sess_compile s) as [[q|]|e].
  - destruct Hok as (spec & p & Hs & Hc & Hq). pose proof (Route_same pick q (destFor host port)) as Hsame.
    destruct (Route pick q (destFor host port)) as [q' [r er]] eqn:R. intros [= <- <- <-].
    assert (Hq' : samePolicy p q') by (by eapply samePolicy_trans).
    split; [by exists spec, p|]. split; [done|]. intros ->. right. exists spec, p. split; [done|]. split; [done|].
    exact (proj1 (answers_intro pick p q _ q' r Hq R)).
  - intros [= <- <- <-]. split; [done|]. split; [done|]. intros _. by left.
  - intros [= <- <- <-]. by split.
Qed.

(** What the operator lets the server dial. *)
Definition operatorAllows (gateway : bool) (ceiling : option eg_Policy) (dest : bytes) : Prop :=
  gateway = true /\ forall p, ceiling = Some p -> exists route, route <> RouteDeny /\
    answers p (let '(host, port) := default ([], []) (SplitHostPort dest) in destFor host (fst (Atoi port))) route.

Lemma pipeGatewayEgress_ok c pick dest rest s s' r : serverOk c s -> pipeGatewayEgress pick dest rest s = (s', r) ->
  serverOk c s' /\ sv_mounts s' = sv_mounts s /\ sv_egressGateway s' = sv_egressGateway s /\
  (r = SDropped \/ r = SDial dest rest /\ operatorAllows (sv_egressGateway s) c dest).
Proof.
  intros [Hs Hc]. unfold pipeGatewayEgress, operatorAllows. destruct (sv_egressGateway s) eqn:G; cbn [negb].
  2:{ intros [= <- <-]. split; [done|]. split; [done|]. split; [done|]. by left. }
  destruct (sv_egressPolicy s) as [q|] eqn:Q; destruct c as [p|]; try done; cbn [ceilingSame] in Hc.
  - destruct (default ([], []) (SplitHostPort dest)) as [host port].
    pose proof (Route_same pick q (destFor host (fst (Atoi port)))) as Hsame.
    destruct (Route pick q (destFor host (fst (Atoi port)))) as [q' [route err]] eqn:R.
    assert (Hq' : samePolicy p q') by (by eapply samePolicy_trans).
    destruct err; cbn [orb].
    { intros [= <- <-]. split; [by split|]. split; [done|]. split; [done|]. by left. }
    destruct (bytes_eqb route RouteDeny) eqn:D; intros [= <- <-]; (split; [by split|]); (split; [done|]); (split; [done|]); [by left|].
    right. split; [done|]. split; [done|]. intros ? [= <-]. exists route. apply bool_decide_eq_false in D. split; [done|].
    exact (proj1 (answers_intro pick p q _ q' route Hc R)).
  - intros [= <- <-]. split; [by split; rewrite ?Q|]. split; [done|]. split; [done|]. right. by split.
Qed.

(** What the server does with a stream, of any bytes. *)
Definition relayAllowed (c : option eg_Policy) (s : Server) (stream : bytes) (r : relayed) : Prop :=
  exists id stream1 route stream2 dest rest, ReadLine stream = Some (id, stream1) /\ ReadLine stream1 = Some (route, stream2) /\
    ReadLine stream2 = Some (dest, rest) /\
    match r with
    | SDropped => True
    | SBacking id' header rest' => id' = id /\ header = OpenEgressBacking dest /\ rest' = rest /\
        exists spec p, specOf s id = Some (Some spec) /\ Compile spec = Ok p /\ sends p dest RouteClient
    | SDial dest' rest' => dest' = dest /\ rest' = rest /\ operatorAllows (sv_egressGateway s) c dest /\
        match specOf s id with
        | Some spec => exists e p, spec = Some e /\ Compile e = Ok p /\ sends p dest RouteGateway
        | None => route = RouteGateway
        end
    end.

Lemma relayEgressSession_ok c pick pick' id sess dest rest s s' r : serverOk c s -> sv_mounts s !! id = Some sess ->
  relayEgressSession pick pick' id sess dest rest s = (s', r) ->
  serverOk c s' /\ (forall i, specOf s' i = specOf s i) /\ sv_egressGateway s' = sv_egressGateway s /\
  match r with
  | SDropped => True
  | SBacking id' header rest' => id' = id /\ header = OpenEgressBacking dest /\ rest' = rest /\
      exists spec p, ss_spec sess = Some spec /\ Compile spec = Ok p /\ sends p dest RouteClient
  | SDial dest' rest' => dest' = dest /\ rest' = rest /\ operatorAllows (sv_egressGateway s) c dest /\
      exists spec p, ss_spec sess = Some spec /\ Compile spec = Ok p /\ sends p dest RouteGateway
  end.
Proof.
  intros [Hs Hc] Hid. unfold relayEgressSession, sends, destText. destruct (SplitHostPort dest) as [[host port]|] eqn:D.
  2:{ intros [= <- <-]. by split. }
  destruct (EgressRoute pick host (fst (Atoi port)) sess) as [sess' [route err]] eqn:E.
  apply EgressRoute_ok in E as (Hok & Hspec & Hv); [|by eapply Hs].
  set (s1 := mkServer _ _ _).
  assert (H1 : serverOk c s1).
  { split; [|done]. intros i x. cbn. rewrite lookup_insert_Some. intros [[<- <-]|[_ Hx]]; [done|by eapply Hs]. }
  assert (H2 : forall i, specOf s1 i = specOf s i).
  { intros i. unfold specOf, s1. cbn. destruct (decide (i = id)) as [->|Hi]; [by rewrite lookup_insert_eq, Hid; cbn; f_equal|by rewrite lookup_insert_ne]. }
  destruct err; [intros [= <- <-]; by split|]. specialize (Hv eq_refl).
  destruct (bytes_eqb route RouteClient) eqn:C; [apply bool_decide_eq_true in C; subst route|].
  { intros [= <- <-]. destruct Hv as [[? _]|(spec & p & Hp & Hcomp & Ha)]; [done|]. repeat (split; [done|]).
    exists spec, p. split; [done|]. split; [done|]. by eexists. }
  destruct (bytes_eqb route RouteGateway) eqn:G; [apply bool_decide_eq_true in G; subst route|intros [= <- <-]; by split].
  intros Hp. apply (pipeGatewayEgress_ok c) in Hp as (Hs' & Hm & Hg & Hr); [|done].
  split; [done|]. split; [intros i; rewrite <- (H2 i); unfold specOf; by rewrite Hm|]. split; [done|].
  destruct Hr as [->|[-> Hop]]; [done|]. destruct Hv as [[? _]|(spec & p & Hp' & Hcomp & Ha)]; [done|]. repeat (split; [done|]).
  exists spec, p. split; [done|]. split; [done|]. by eexists.
Qed.

(** For any bytes a pod writes on a relay stream: a stream is opened only to the client of the
    session it names, and only for a destination the session's own policy sends to the client; the server dials
    only what the operator's switch and ceiling let it, and a destination the session's policy
    sends to the gateway, or one asked for without a session. The state stays as the operator and the deployments set it. *)
Theorem relay_confined c pick pick' stream s s' r : serverOk c s -> relayEgress pick pick' stream s = (s', r) ->
  serverOk c s' /\ (forall id, specOf s' id = specOf s id) /\ sv_egressGateway s' = sv_egressGateway s /\
  (r = SDropped \/ relayAllowed c s stream r).
Proof.
  intros Hok. unfold relayEgress, relayAllowed.
  assert (Hd : (s, SDropped) = (s', r) -> serverOk c s' /\ (forall id, specOf s' id = specOf s id) /\ sv_egressGateway s' = sv_egressGateway s /\ r = SDropped)
    by (intros [= <- <-]; by split).
  assert (Hd' : forall P, (s, SDropped) = (s', r) -> serverOk c s' /\ (forall id, specOf s' id = specOf s id) /\ sv_egressGateway s' = sv_egressGateway s /\ (r = SDropped \/ P))
    by (intros P H; destruct (Hd H) as (? & ? & ? & ?); repeat (split; [done|]); by left). clear Hd.
  destruct (ReadLine stream) as [[id stream1]|] eqn:E1; [|apply Hd']. destruct (ReadLine stream1) as [[route stream2]|] eqn:E2; [|apply Hd'].
  destruct (ReadLine stream2) as [[dest rest]|] eqn:E3; [|apply Hd'].
  destruct (sv_mounts s !! id) as [sess|] eqn:Hid.
  - intros H. apply (relayEgressSession_ok c) in H as (H1 & H2 & H3 & Hr); [|done..]. repeat (split; [done|]). right.
    exists id, stream1, route, stream2, dest, rest. repeat (split; [done|]). unfold specOf. rewrite Hid. cbn [fmap option_fmap option_map].
    destruct r; [| |done].
    + destruct Hr as (? & ? & ? & spec & p & ? & ?). repeat (split; [done|]). by exists spec, p.
    + destruct Hr as (? & ? & ? & spec & p & Hsp & ?). repeat (split; [done|]). exists spec, p. by rewrite Hsp.
  - destruct (bytes_eqb route RouteGateway) eqn:G; [apply bool_decide_eq_true in G; subst route|apply Hd'].
    intros H. apply (pipeGatewayEgress_ok c) in H as (H1 & H2 & H3 & Hr); [|done]. split; [done|].
    split; [intros i; unfold specOf; by rewrite H2|]. split; [done|]. destruct Hr as [->|[-> Hop]]; [by left|]. right.
    exists id, stream1, RouteGateway, stream2, dest, rest. repeat (split; [done|]). unfold specOf. by rewrite Hid.
Qed.

End Server.

(** ** The caretaker *)

Section Caretaker.
  Context `{UC : UnicodeCase} `{JS : Sobek}.

Lemma role_policy_same id e : role_policy (planRole id e) = Compile e.
Proof. reflexivity. Qed.

(** No newline after the last colon. *)
Definition goodDest (dest : bytes) : Prop := forall h p, SplitHostPort dest = Some (h, p) -> newline ∉ p.

Lemma JoinHostPort_snoc host port : exists x, JoinHostPort host port = x ++ Byte.x3a :: port.
Proof.
  unfold JoinHostPort. destruct (containsByte _ _); [|by exists host].
  exists (go "[" ++ host ++ [Byte.x5d]). rewrite <- !app_assoc. done.
Qed.

Lemma formatInt_nonl n : newline ∉ formatInt n.
Proof.
  intros H. pose proof (formatInt_chars n) as F. rewrite forallb_forall in F. apply list_elem_of_In, F in H. discriminate H.
Qed.

Lemma goodDest_join host n : goodDest (JoinHostPort host (formatInt n)).
Proof.
  intros h p. destruct (JoinHostPort_snoc host (formatInt n)) as [x ->]. destruct (formatInt_plainPort n) as (Hc & _).
  intros ->%SplitHostPort_port; [|done]. apply formatInt_nonl.
Qed.

Lemma goodDest_nonl dest : (newline ∉ dest) -> goodDest dest.
Proof.
  intros Hn h p Hs. destruct (SplitHostPort_inv _ _ _ Hs) as [[-> _]|[-> _]]; intros Hp; apply Hn;
    rewrite ?elem_of_cons, elem_of_app, !elem_of_cons; tauto.
Qed.

Lemma withPort_nonl dest port : (newline ∉ dest) -> (newline ∉ port) -> newline ∉ withPort dest port.
Proof.
  intros Hd Hp. unfold withPort. destruct (SplitHostPort dest); [done|]. unfold JoinHostPort. destruct (containsByte _ _);
    rewrite !elem_of_app; intros H; decompose [or] H; try done;
    match goal with X : newline ∈ go _ |- _ => repeat (apply elem_of_cons in X as [X|X]; [discriminate X|]); by apply not_elem_of_nil in X end.
Qed.

(** What the caretaker attempts for a destination is what the policy says. *)
Definition upOk (p : eg_Policy) (session dest : bytes) (u : upstream) : Prop :=
  match u with
  | UpDirect d => d = dest /\ sends p dest RouteCluster
  | UpRelay header => exists route, (route = RouteClient \/ route = RouteGateway) /\ header = OpenEgress session route dest /\ sends p dest route
  end.

Lemma routeUpstream_ok p pick ok session dest q q' up r : samePolicy p q -> routeUpstream pick ok session dest q = (q', up, r) ->
  samePolicy p q' /\ forall u, up = Some u -> upOk p session dest u.
Proof.
  intros Hq. unfold routeUpstream, upOk, sends, destText. destruct (SplitHostPort dest) as [[host port]|]; [|intros [= <- <- <-]; by split].
  set (d := destFor host (fst (Atoi port))). pose proof (Route_same pick q d) as Hsame.
  destruct (Route pick q d) as [q1 [route err]] eqn:R.
  assert (Hq1 : samePolicy p q1) by (by eapply samePolicy_trans). destruct err; [intros [= <- <- <-]; by split|].
  pose proof (proj1 (answers_intro pick p q d q1 route Hq R)) as Ha.
  destruct (bytes_eqb route RouteClient || bytes_eqb route RouteGateway) eqn:C.
  - intros [= <- <- <-]. split; [done|]. intros u [= <-]. exists route. apply orb_true_iff in C. unfold bytes_eqb in C.
    rewrite !bool_decide_eq_true in C. split; [done|]. split; [done|]. by eexists.
  - destruct (bytes_eqb route RouteCluster) eqn:K; [|intros [= <- <- <-]; by split]. apply bool_decide_eq_true in K. subst route.
    intros [= <- <- <-]. split; [done|]. intros u [= <-]. split; [done|]. by eexists.
Qed.

(** A connection of the workload as the caretaker can receive it: [http.ReadRequest] reads lines, so a host has no newline. *)
Definition wfApp (c : appConn) : Prop :=
  match c with
  | AHttp reqs => Forall (fun q => (newline ∉ q_Host q.2) /\ (newline ∉ q_URLHost q.2)) reqs
  | _ => True
  end.

Definition upsOk (p : eg_Policy) (session : bytes) (ups : list upstream) : Prop :=
  Forall (fun u => exists dest, goodDest dest /\ upOk p session dest u) ups.

Lemma upsOk_option p session dest up : goodDest dest -> (forall u, up = Some u -> upOk p session dest u) -> upsOk p session (option_list up).
Proof. intros Hg H. destruct up as [u|]; [|constructor]. constructor; [|constructor]. exists dest. by split; [|apply H]. Qed.

Lemma handleHTTP_ok p session reqs q : samePolicy p q -> wfApp (AHttp reqs) ->
  upsOk p session (snd (handleHTTP session q reqs)).
Proof.
  revert q. induction reqs as [|[pick r] reqs IH]; intros q Hq Hw; [constructor|].
  apply Forall_cons in Hw as [[H1 H2] Hw]. cbn [handleHTTP snd] in *. destruct (q_connect r).
  - unfold handleConnect. destruct (routeUpstream _ _ _ _ _) as [[q1 up] x] eqn:E. apply (routeUpstream_ok p) in E as [_ Hu]; [|done].
    cbn [snd]. eapply upsOk_option, Hu. apply goodDest_nonl, withPort_nonl; [done|]. by apply (bool_decide_unpack _).
  - unfold forwardHTTP. destruct (routeUpstream _ _ _ _ _) as [[q1 up] x] eqn:E. apply (routeUpstream_ok p) in E as [Hq1 Hu]; [|done].
    assert (Hup : upsOk p session (option_list up)).
    { eapply upsOk_option, Hu. apply goodDest_nonl, withPort_nonl; [by destruct (bytes_eqb _ _)|]. by apply (bool_decide_unpack _). }
    destruct (is_ok x && q_exchange r && q_reuse r); [|done]. specialize (IH q1 Hq1 Hw).
    destruct (handleHTTP session q1 reqs) as [q2 ups]. cbn [snd] in *. by apply Forall_app.
Qed.

Lemma handleSocks5_ok p pick wok ok session q inp : samePolicy p q ->
  upsOk p session (option_list (h_up (snd (handleSocks5 pick wok ok session q inp)))).
Proof.
  intros Hq. unfold handleSocks5. destruct (socksGreeting wok inp) as [wrote [r|]]; [|constructor].
  destruct (sockRead 4 r) as [[[|v [|cmd [|z [|atyp [|]]]]] r1]|]; try constructor.
  destruct (_ || _); [constructor|]. destruct (readSocksAddr atyp r1) as [[host r2]|]; [|constructor].
  destruct (sockRead 2 r2) as [[pb r3]|]; [|constructor].
  destruct (routeUpstream _ _ _ _ _) as [[q1 up] x] eqn:E. apply (routeUpstream_ok p) in E as [_ Hu]; [|done]. cbn [snd].
  assert (upsOk p session (option_list up)) by (eapply upsOk_option, Hu; apply goodDest_join). by destruct x.
Qed.

Lemma caretaker_ok p pick wok ok session q c : samePolicy p q -> wfApp c -> upsOk p session (snd (caretakerServe pick wok ok session q c)).
Proof.
  intros Hq Hw. destruct c as [inp|reqs|orig]; cbn [caretakerServe].
  - pose proof (handleSocks5_ok p pick wok ok session q inp Hq) as H. by destruct (handleSocks5 _ _ _ _ _ _).
  - by apply handleHTTP_ok.
  - unfold handleTransparent. destruct orig as [[ip port]|]; [|constructor].
    destruct (routeUpstream _ _ _ _ _) as [[q1 up] x] eqn:E. apply (routeUpstream_ok p) in E as [_ Hu]; [|done]. cbn [snd].
    eapply upsOk_option, Hu. apply goodDest_join.
Qed.
End Caretaker.

(** ** The whole path *)

Section Path.
  Context `{UC : UnicodeCase} `{JS : Sobek}.

(** Where a dial may be attempted from. *)
Definition leafAllowed (p : eg_Policy) (gateway : bool) (c : option eg_Policy) (l : egressExit) : Prop :=
  match l with
  | FromPod d => sends p d RouteCluster
  | FromServer d => operatorAllows gateway c d /\ (SplitHostPort d = None \/ sends p d RouteGateway)
  | FromClient d => sends p d RouteClient
  end.

Lemma route_nonl route : route = RouteClient \/ route = RouteGateway -> newline ∉ route.
Proof. intros [-> | ->]; by apply (bool_decide_unpack _). Qed.

(** The stream the caretaker opens, as the server reads it. *)
Lemma OpenEgress_read id route dest data l1 s1 l2 s2 l3 rest : (newline ∉ id) -> (newline ∉ route) ->
  ReadLine (OpenEgress id route dest ++ data) = Some (l1, s1) -> ReadLine s1 = Some (l2, s2) -> ReadLine s2 = Some (l3, rest) ->
  l1 = id /\ l2 = route /\ ReadLine (dest ++ newline :: data) = Some (l3, rest).
Proof.
  intros Hi Hr. unfold OpenEgress. rewrite <- !app_assoc. cbn [app].
  intros [-> ->]%ReadLine_first [-> ->]%ReadLine_first H; done.
Qed.

Lemma backing_read cpick handler dest d : (newline ∉ dest) -> snd (serveOneLine cpick handler (OpenEgressBacking dest)) = Some d -> d = dest.
Proof.
  intros Hn. unfold serveOneLine, OpenEgressBacking. destruct handler as [guard|]; [|done].
  destruct (ReadLine (dest ++ [newline])) as [[l r]|] eqn:E; [|done]. apply ReadLine_first in E as [-> _]; [|done].
  unfold serveEgress. destruct (SplitHostPort dest) as [[h port]|]; [|done]. destruct guard as [pol|]; [|by intros [= <-]].
  destruct (Route _ _ _) as [pol' [route err]]. destruct (_ || _); [done|]. by intros [= <-].
Qed.

Lemma ReadLine_nonl s l rest : ReadLine s = Some (l, rest) -> newline ∉ l.
Proof. by intros [_ H]%readLineFrom_sound. Qed.

(** C9. The workload's side may send anything: the caretaker of a deployment, the server and the clients
    together attempt a dial from the pod, from the server or from the client only for a destination
    that the deployment's policy sends there, whether the deployment's session is live or not. What the server is told
    to dial may also be a text that is no destination, which no dial accepts. *)
Theorem egress_by_policy e p id c s clients conn pick wok ok sp sp' cp q up data leaf :
  role_policy (planRole id e) = Ok p -> samePolicy p q -> serverOk c s -> (newline ∉ id) ->
  specOf s id = None \/ specOf s id = Some (Some e) -> wfApp conn ->
  up ∈ snd (caretakerServe pick wok ok id q conn) ->
  upstreamPath sp sp' cp clients s data up = Some leaf -> leafAllowed p (sv_egressGateway s) c leaf.
Proof.
  rewrite role_policy_same. intros Hp Hq Hs Hid Hspec Hw Hup. pose proof (caretaker_ok p pick wok ok id q conn Hq Hw) as H.
  unfold upsOk in H. rewrite Forall_forall in H. destruct (H up Hup) as (dest & Hg & Hu). clear H Hup Hw.
  destruct up as [header|d]; cbn [upstreamPath upOk] in *; [|destruct Hu as [-> Hu]; by intros [= <-]].
  destruct Hu as (route & Hr & -> & Ha). unfold relayPath.
  destruct (relayEgress sp sp' (OpenEgress id route dest ++ data) s) as [s' r] eqn:R.
  apply (relay_confined c) in R as (_ & _ & _ & [->|Hr']); [done| |done]. cbn [snd].
  destruct Hr' as (l1 & s1 & l2 & s2 & l3 & rest & E1 & E2 & E3 & Hm). pose proof (ReadLine_nonl _ _ _ E3) as Hn.
  destruct (OpenEgress_read _ _ _ _ _ _ _ _ _ _ Hid (route_nonl _ Hr) E1 E2 E3) as (-> & -> & Hline). clear E1 E2 E3.
  destruct r as [d rest'|id' header rest'|]; [| |done].
  - destruct Hm as (-> & -> & Hop & Hspec'). intros [= <-]. split; [done|]. destruct Hspec as [E|E]; rewrite E in Hspec'.
    + subst route. destruct Ha as (dd & Hd & Ha). unfold destText in Hd.
      destruct (SplitHostPort dest) as [[h port]|] eqn:S; [|done].
      destruct (framing dest h port l3 rest data S (Hg _ _ S) Hline) as [->|HN]; [|by left].
      right. exists dd. unfold destText. by rewrite S.
    + destruct Hspec' as (e' & p' & [= <-] & Hp' & Ha'). right. rewrite Hp in Hp'. by injection Hp' as <-.
  - destruct Hm as (-> & -> & -> & e' & p' & Hs' & Hp' & Ha').
    destruct (snd (serveOneLine _ _ _)) as [d|] eqn:B; [|done]. apply backing_read in B; [|done]. subst d. cbn. intros [= <-].
    destruct Hspec as [E|E]; rewrite E in Hs'; [done|]. injection Hs' as <-. rewrite Hp in Hp'. by injection Hp' as <-.
Qed.

(** *** Delivery *)

Lemma formatDigits_bound fuel n acc : (length (formatDigits fuel n acc) <= fuel + length acc)%nat.
Proof.
  revert n acc. induction fuel as [|fuel IH]; intros n acc; [done|]. cbn [formatDigits].
  destruct (n / 10 =? 0); [cbn; lia|]. etransitivity; [apply IH|]. cbn. lia.
Qed.

Lemma formatInt_bound n : 0 <= n <= 65535 -> (length (formatInt n) <= 17)%nat.
Proof.
  intros Hn. unfold formatInt. rewrite (proj2 (Z.ltb_ge n 0)) by lia. etransitivity; [apply formatDigits_bound|]. cbn [length].
  pose proof (Z.log2_le_mono (Z.abs n) 65535 ltac:(lia)) as H. change (Z.log2 65535) with 15 in H. lia.
Qed.

Lemma ip4String_bound b : length b = 4%nat -> (length (ip4String b) <= 15)%nat.
Proof.
  intros Hb. destruct b as [|a [|b [|c [|d [|]]]]]; try discriminate Hb. unfold ip4String. cbn [map join].
  assert (H : forall c, (length (formatInt (Z_of_byte c)) <= 3)%nat) by (intros x; apply Nat.leb_le; by destruct x).
  rewrite !length_app. pose proof (H a). pose proof (H b). pose proof (H c). pose proof (H d). change (length (go ".")) with 1%nat. lia.
Qed.

Lemma trimLeft_length {A} (f : A -> bool) s : (length (trimLeft f s) <= length s)%nat.
Proof. destruct (trimLeft_suffix f s) as (p & E & _). rewrite E at 2. rewrite length_app. lia. Qed.

Lemma groupsText_bound gs : (length (groupsText gs) <= 5 * length gs)%nat.
Proof.
  assert (H : forall v, (length (hex16 v) <= 4)%nat).
  { intros v. unfold hex16. destruct (trimLeft _ _) eqn:E; [cbn; lia|]. rewrite <- E. etransitivity; [apply trimLeft_length|]. done. }
  induction gs as [|v [|w gs] IH]; [done|unfold groupsText; cbn; specialize (H v); lia|].
  rewrite groupsText_cons, length_app. cbn [length] in *. specialize (H v). lia.
Qed.

Lemma ip6String_bound b : length b = 16%nat -> (length (ip6String b) <= 42)%nat.
Proof.
  intros Hb. destruct (groups16_bytes b Hb) as (_ & L & _). unfold ip6String.
  destruct (longestRun 0 (groups16 b) (8%nat, 0%nat)) as [start n]. change (join (go ":") (map hex16 ?l)) with (groupsText l).
  destruct (n =? 0)%nat; [pose proof (groupsText_bound (groups16 b)); lia|]. rewrite !length_app. change (length (go "::")) with 2%nat.
  pose proof (groupsText_bound (take start (groups16 b))) as H1. pose proof (groupsText_bound (drop (start + n) (groups16 b))) as H2.
  rewrite length_take in H1. rewrite length_drop in H2. lia.
Qed.

Lemma target_bound t : wfTarget t -> (length (targetHost t) <= 255)%nat.
Proof.
  assert (H : forall b, ipLen b -> (length (ipString b) <= 255)%nat).
  { intros b Hb. destruct (ipString_cases b Hb) as [(x & Hx & ->)|(H16 & _ & ->)];
      [pose proof (ip4String_bound x Hx)|pose proof (ip6String_bound b H16)]; lia. }
  destruct t as [name|b|b]; cbn; unfold blen; [lia|intros ?; apply H; by left|intros ?; apply H; by right].
Qed.

Lemma atoiSafe_digits d : forallb isDigit d = true -> digitsVal d 0 < 2 ^ 63 -> atoiSafe d = digitsVal d 0.
Proof.
  unfold atoiSafe. cbv zeta.
  assert (G : forall d v, forallb isDigit d = true -> 0 <= v -> digitsVal d v < 2 ^ 63 ->
    default 0 (fold_left (fun acc c => match acc with Some n => if isDigit c then Some ((n * 10 + (Z_of_byte c - 48) + 2 ^ 63) mod 2 ^ 64 - 2 ^ 63) else None | None => None end) d (Some v)) = digitsVal d v).
  { clear d. induction d as [|c d IH]; intros v; [done|]. cbn [forallb]. intros [Hc Hd]%andb_true_iff Hv Hb. cbn [fold_left]. rewrite Hc.
    change (digitsVal (c :: d) v) with (digitsVal d (v * 10 + (Z_of_byte c - 48))) in *.
    assert (0 <= v * 10 + (Z_of_byte c - 48)) as H0 by (unfold isDigit in Hc; lia).
    assert (v * 10 + (Z_of_byte c - 48) <= digitsVal d (v * 10 + (Z_of_byte c - 48))) as Hle.
    { clear -Hd H0. revert H0. generalize (v * 10 + (Z_of_byte c - 48)). induction d as [|x d IH]; intros z Hz; [unfold digitsVal; cbn; lia|].
      cbn [forallb] in Hd. apply andb_true_iff in Hd as [Hx Hd]. change (digitsVal (x :: d) z) with (digitsVal d (z * 10 + (Z_of_byte x - 48))).
      assert (48 <= Z_of_byte x) by (unfold isDigit in Hx; lia). specialize (IH Hd (z * 10 + (Z_of_byte x - 48)) ltac:(lia)). lia. }
    rewrite Z.mod_small by lia. rewrite Z.add_simpl_r. by apply IH. }
  intros Hd Hb. by apply G.
Qed.

Lemma atoiSafe_format n : 0 <= n < 2 ^ 63 -> atoiSafe (formatInt n) = n.
Proof. intros Hn. destruct (formatInt_digits n ltac:(lia)) as (Hd & _ & Hv). rewrite atoiSafe_digits; rewrite ?Hv; (done || lia). Qed.

Lemma readSocksAddr_readHost atyp r : readSocksAddr atyp r = mjoin (readHost atyp r).
Proof.
  unfold readSocksAddr, readHost. change atypIPv4 with Byte.x01. change atypIPv6 with Byte.x04. change atypDomain with Byte.x03.
  repeat case_bool_decide; try done. cbn. destruct (sockRead 1 r) as [[n r1]|]; [|done]. cbn. by destruct (sockRead _ r1) as [[]|].
Qed.

(** A request for a target reaches the policy as that target. *)
Lemma socks_request pick ok session q methods t port rest : blen methods <= 255 -> wfTarget t -> 0 <= port <= 65535 ->
  handleSocks5 pick true ok session q (greeting methods ++ encodeTarget t port ++ rest) =
    let '(q, up, e) := routeUpstream pick ok session (JoinHostPort (targetHost t) (formatInt port)) q in
    (q, match e with
        | Err e => mkHandled [[Byte.x05; Byte.x00]; socksReply Byte.x02] up (Some e) false
        | Ok _ => mkHandled [[Byte.x05; Byte.x00]; socksReply Byte.x00] up None true
        end).
Proof.
  intros Hm Hw Hp. unfold handleSocks5.
  assert (E : socksGreeting true (greeting methods ++ encodeTarget t port ++ rest) = ([[Byte.x05; Byte.x00]], Some (encodeTarget t port ++ rest))).
  { unfold socksGreeting, greeting. change ((socksVersion :: ?n :: methods) ++ ?r) with ([socksVersion; n] ++ methods ++ r).
    rewrite (sockRead_len 2) by done. cbn iota. rewrite bool_decide_true by done. cbn [negb]. by rewrite len_byte, sockRead_exact. }
  rewrite E. destruct (readHost_ok t port (be_put 2 port ++ rest) Hw) as (atyp & body & Ee & Hh).
  rewrite Ee, <- !app_assoc, (sockRead_len 4) by done. cbn iota. rewrite !bool_decide_true by done. cbn [negb orb].
  rewrite readSocksAddr_readHost, Hh. cbn [mjoin option_join]. rewrite (sockRead_len 2) by apply length_be_put. by rewrite be_get_port.
Qed.

(** Whether the operator's switch and ceiling let the server dial. *)
Definition ceilingPermits (pick : option nat) (s : Server) (d : Dest) : bool :=
  sv_egressGateway s &&
  match sv_egressPolicy s with
  | None => true
  | Some pol => let '(_, (r, err)) := Route pick pol d in negb (err || bytes_eqb r RouteDeny)
  end.

(** The dials a connection leads to, in order. *)
Definition connPath (pick sp sp' cp : option nat) (clients : gmap bytes (option (option eg_Policy))) (s : Server) (session data : bytes) (pol : eg_Policy)
    (c : appConn) : list egressExit :=
  omap (upstreamPath sp sp' cp clients s data) (snd (caretakerServe pick true true session pol c)).

Lemma gateway_path pick dest rest s host port : SplitHostPort dest = Some (host, formatInt port) -> 0 <= port <= 65535 ->
  snd (pipeGatewayEgress pick dest rest s) = if ceilingPermits pick s (destFor host port) then SDial dest rest else SDropped.
Proof.
  intros Hs Hp. unfold pipeGatewayEgress, ceilingPermits. destruct (sv_egressGateway s); [|done]. cbn [negb andb].
  destruct (sv_egressPolicy s) as [pol|]; [|done]. rewrite Hs. cbn [default from_option id]. rewrite Atoi_format by lia. cbn [fst].
  destruct (Route pick pol (destFor host port)) as [pol' [r err]]. by destruct (err || _).
Qed.

Lemma EgressRoute_rules pick host port sess e r : sessionOk sess -> ss_spec sess = Some e -> Compile e = Ok (PRules r) ->
  snd (EgressRoute pick host port sess) = (rules_Route r (destFor host port), false).
Proof.
  intros Hok Hs Hc. apply sess_compile_ok in Hok. unfold EgressRoute. destruct (sess_compile sess) as [[q|]|x].
  - destruct Hok as (e' & p & He & Hp & Hq). rewrite Hs in He. injection He as <-. rewrite Hc in Hp. injection Hp as <-.
    destruct q as [q|q]; [|done]. cbn in Hq. by subst q.
  - by rewrite Hs in Hok.
  - destruct Hok as (e' & He & Hp). rewrite Hs in He. injection He as <-. by rewrite Hc in Hp.
Qed.

(** What the server and the client make of the stream of a clean destination. *)
Lemma relay_clean e r id c s clients sp sp' cp host port data route :
  Compile e = Ok (PRules r) -> serverOk c s -> (newline ∉ id) -> (length id <= maxLineLen)%nat ->
  specOf s id = None \/ specOf s id = Some (Some e) -> eg_NeedsRelay (Some e) = true -> clientOf clients id = egressHandlerFor (Some e) ->
  plainHost host -> (newline ∉ host) -> (length host <= 255)%nat -> 0 <= port <= 65535 ->
  route = RouteClient \/ route = RouteGateway -> rules_Route r (destFor host port) = route ->
  relayPath sp sp' cp clients (OpenEgress id route (JoinHostPort host (formatInt port)) ++ data) s =
    if bytes_eqb route RouteClient then if bool_decide (is_Some (specOf s id)) then Some (FromClient (JoinHostPort host (formatInt port))) else None
    else if ceilingPermits sp' s (destFor host port) then Some (FromServer (JoinHostPort host (formatInt port))) else None.
Proof.
  intros Hc [Hs Hce] Hid Hidl Hspec Hmode Hcl Hh Hn Hl Hp Hr Hroute. set (dest := JoinHostPort host (formatInt port)).
  assert (Hsplit : SplitHostPort dest = Some (host, formatInt port)) by (apply SplitHostPort_Join; [done|apply formatInt_plainPort]).
  assert (Hdn : newline ∉ dest).
  { unfold dest, JoinHostPort. pose proof (formatInt_nonl port). destruct (containsByte _ _); rewrite !elem_of_app; intros H'; decompose [or] H'; try done;
      match goal with X : newline ∈ go _ |- _ => repeat (apply elem_of_cons in X as [X|X]; [discriminate X|]); by apply not_elem_of_nil in X end. }
  assert (Hdl : (length dest <= maxLineLen)%nat).
  { unfold dest, JoinHostPort, maxLineLen. pose proof (formatInt_bound port Hp). destruct (containsByte _ _); rewrite !length_app;
      change (length (go "[")) with 1%nat; change (length (go "]:")) with 2%nat; change (length (go ":")) with 1%nat; lia. }
  unfold relayPath, relayEgress, OpenEgress. rewrite <- !app_assoc. cbn [app].
  rewrite ReadLine_app by done. rewrite (ReadLine_app route); [|by apply route_nonl|destruct Hr; subst route; unfold maxLineLen; cbn; lia].
  rewrite (ReadLine_app dest) by done. unfold specOf in *. destruct (sv_mounts s !! id) as [sess|] eqn:E; cbn [fmap option_fmap option_map] in *.
  - destruct Hspec as [?|[= Hspec]]; [done|]. unfold relayEgressSession. rewrite Hsplit, Atoi_format by lia. cbn [fst].
    pose proof (EgressRoute_rules sp host port sess e r (Hs _ _ E) Hspec Hc) as HR. destruct (EgressRoute sp host port sess) as [sess' [rt err]].
    cbn [snd] in HR. injection HR as -> ->. rewrite Hroute. destruct Hr as [-> | ->].
    + change (bytes_eqb RouteClient RouteClient) with true. cbn [snd]. rewrite (bool_decide_true (is_Some _)) by done.
      unfold serveOneLine. rewrite Hcl. unfold egressHandlerFor. rewrite Hc.
      assert (bytes_eqb (eg_Mode e) [] || bytes_eqb (eg_Mode e) (go "env") = false) as ->.
      { revert Hmode. cbn [eg_NeedsRelay]. unfold bytes_eqb. rewrite orb_true_iff, !bool_decide_eq_true. by intros [-> | ->]. }
      unfold OpenEgressBacking. rewrite ReadLine_app by done. unfold serveEgress. rewrite Hsplit, atoiSafe_format by lia.
      cbn [Route]. rewrite Hroute. done.
    + change (bytes_eqb RouteGateway RouteClient) with false. change (bytes_eqb RouteGateway RouteGateway) with true. cbv iota.
      rewrite (gateway_path _ _ _ _ host port) by done. unfold ceilingPermits. cbn [sv_egressGateway sv_egressPolicy].
      by destruct (_ && _).
  - rewrite (bool_decide_false (is_Some _)) by (by intros []). destruct Hr as [-> | ->]; [done|].
    change (bytes_eqb RouteGateway RouteClient) with false. change (bytes_eqb RouteGateway RouteGateway) with true. cbv iota.
    rewrite (gateway_path _ _ _ _ host port) by done. by destruct (ceilingPermits _ _ _).
Qed.

Lemma omap_single {A B} (f : A -> option B) x : omap f (option_list (Some x)) = option_list (f x).
Proof. cbn. by destruct (f x). Qed.

(** C10. Under a policy of rules, with the session of the deployment live under the same spec or gone, a workload that asks the proxy for a
    target is connected to it from where the rules send it and
    from nowhere else: from the pod, from the client while the deployment's session is live, from the server if the
    operator permits, or not at all. (A script may answer the same destination differently at two places, see
    [script_answers_vary].) *)
Theorem egress_delivered e r id c s clients pick sp sp' cp methods t port rest data :
  role_policy (planRole id e) = Ok (PRules r) -> serverOk c s -> (newline ∉ id) -> (length id <= maxLineLen)%nat ->
  specOf s id = None \/ specOf s id = Some (Some e) -> eg_NeedsRelay (Some e) = true -> clientOf clients id = egressHandlerFor (Some e) ->
  blen methods <= 255 -> wfTarget t -> plainHost (targetHost t) -> (newline ∉ targetHost t) -> 0 <= port <= 65535 ->
  let dest := JoinHostPort (targetHost t) (formatInt port) in
  let d := destFor (targetHost t) port in
  let route := rules_Route r d in
  connPath pick sp sp' cp clients s id data (PRules r) (ASocks (greeting methods ++ encodeTarget t port ++ rest)) =
    if bytes_eqb route RouteCluster then [FromPod dest]
    else if bytes_eqb route RouteClient then if bool_decide (is_Some (specOf s id)) then [FromClient dest] else []
    else if bytes_eqb route RouteGateway then if ceilingPermits sp' s d then [FromServer dest] else []
    else [].
Proof.
  rewrite role_policy_same. intros Hc Hs Hid Hidl Hspec Hmode Hcl Hm Hw Hh Hn Hp dest d route. unfold connPath. cbn [caretakerServe].
  rewrite socks_request by done. fold dest. unfold routeUpstream.
  rewrite (SplitHostPort_Join _ _ Hh (formatInt_plainPort port) : SplitHostPort dest = _), Atoi_format by lia. cbn [fst Route]. fold d. fold route.
  assert (G : forall rt, rt = RouteClient \/ rt = RouteGateway -> route = rt -> upstreamPath sp sp' cp clients s data (UpRelay (OpenEgress id rt dest)) = _)
    by (intros rt Hrt Hr; exact (relay_clean e r id c s clients sp sp' cp (targetHost t) port data rt Hc Hs Hid Hidl Hspec Hmode Hcl Hh Hn
      (target_bound t Hw) Hp Hrt Hr)).
  destruct (bytes_eqb route RouteClient) eqn:C; [|destruct (bytes_eqb route RouteGateway) eqn:W]; cbn [orb].
  - apply bool_decide_eq_true in C. cbn [snd h_up]. rewrite omap_single. specialize (G RouteClient (or_introl eq_refl) C). rewrite C. rewrite G.
    change (bytes_eqb RouteClient RouteCluster) with false. change (bytes_eqb RouteClient RouteClient) with true. cbv iota. by case_bool_decide.
  - apply bool_decide_eq_true in W. cbn [snd h_up]. rewrite omap_single. specialize (G RouteGateway (or_intror eq_refl) W). rewrite W. rewrite G.
    change (bytes_eqb RouteGateway RouteCluster) with false. change (bytes_eqb RouteGateway RouteClient) with false. cbv iota.
    fold d. by destruct (ceilingPermits sp' s d).
  - by destruct (bytes_eqb route RouteCluster).
Qed.

(** A policy gives no answer for the destination a text names. *)
Definition undecided (e : EgressSpec) (dest : bytes) : Prop :=
  forall p d, Compile e = Ok p -> destText dest = Some d -> forall q pick, samePolicy p q -> snd (snd (Route pick q d)) = true.

(** C12. If the spec of a session does not compile, or its script fails on a destination, no stream that names the session and
    the destination leads to a dial, by the server or by a client, even one whose own guard is off because it
    could not compile the spec either; and the caretaker attempts nothing. *)
Theorem egress_fails_closed e id c s clients sp sp' cp stream s1 route s2 dest rest :
  serverOk c s -> specOf s id = Some (Some e) -> undecided e dest ->
  ReadLine stream = Some (id, s1) -> ReadLine s1 = Some (route, s2) -> ReadLine s2 = Some (dest, rest) ->
  relayPath sp sp' cp clients stream s = None /\
  forall p q pick ok, role_policy (planRole id e) = Ok p -> samePolicy p q -> snd (fst (routeUpstream pick ok id dest q)) = None.
Proof.
  intros Hs Hspec Hu E1 E2 E3. split.
  - unfold relayPath. destruct (relayEgress sp sp' stream s) as [s' r] eqn:R.
    apply (relay_confined c) in R as (_ & _ & _ & [->|(i & a & rt & b & d & k & F1 & F2 & F3 & Hm)]); [done| |done].
    rewrite E1 in F1. injection F1 as <- <-. rewrite E2 in F2. injection F2 as <- <-. rewrite E3 in F3. injection F3 as <- <-.
    assert (N : forall p, Compile e = Ok p -> forall route, ~ sends p dest route).
    { intros p Hp rr (dd & Hd & q & pk & Hq & Ha). pose proof (Hu p dd Hp Hd q pk Hq) as X. by rewrite Ha in X. }
    destruct r as [d' k'|i' h k'|]; [| |done].
    + destruct Hm as (_ & _ & _ & Hm). rewrite Hspec in Hm. destruct Hm as (e' & p & [= <-] & Hp & Ha). by destruct (N p Hp _ Ha).
    + destruct Hm as (_ & _ & _ & e' & p & Hsp & Hp & Ha). rewrite Hspec in Hsp. injection Hsp as <-. by destruct (N p Hp _ Ha).
  - rewrite role_policy_same. intros p q pick ok Hp Hq. unfold routeUpstream. destruct (SplitHostPort dest) as [[h port]|] eqn:S; [|done].
    specialize (Hu p (destFor h (fst (Atoi port))) Hp). unfold destText in Hu. rewrite S in Hu. specialize (Hu eq_refl q pick Hq).
    destruct (Route pick q _) as [q' [rr err]]. cbn in Hu. by subst err.
Qed.

End Path.

(** ** Examples *)

(** An engine that knows no script, one whose scripts always fail, and one whose script counts its calls in a global variable
    and denies from the second on. *)
Definition noScript : Sobek :=
  {| program := unit; runtime := unit; js_Compile _ := None; js_Run _ _ := None; js_Call rt _ _ _ := (rt, RetError) |}.
Definition failingScript : Sobek :=
  {| program := unit; runtime := unit; js_Compile _ := Some tt; js_Run _ _ := Some tt; js_Call rt _ _ _ := (rt, RetError) |}.
Definition countingScript : Sobek :=
  {| program := unit; runtime := nat; js_Compile _ := Some tt; js_Run _ _ := Some 0%nat;
     js_Call rt _ _ _ := (S rt, RetValue (if (rt =? 0)%nat then go "CLIENT" else go "DENY")) |}.

#[local] Existing Instance asciiCase.

Section Examples.
  Local Existing Instance noScript.

Definition exRules : list rulePat :=
  [mkRulePat (PGlob (go "*.Corp")) (Some 443) RouteClient;
   mkRulePat (PCidr [Byte.x0a; Byte.x00; Byte.x00; Byte.x00] 8) None RouteGateway;
   mkRulePat (PCidr ([Byte.xfe; Byte.x80] ++ replicate 14 Byte.x00) 10) (Some 22) RouteDeny;
   mkRulePat (PIP [Byte.x01; Byte.x02; Byte.x03; Byte.x04]) None RouteDeny].

Definition exSpec : EgressSpec := rulesSpec (go "proxy") (map printRule exRules) RouteCluster 15001.

Lemma exRules_text : map er_Pattern (eg_Rules exSpec) = map go ["*.Corp:443"; "10.0.0.0/8"; "[fe80::/10]:22"; "1.2.3.4"]%string.
Proof. by vm_compute. Qed.

Lemma exRules_wf : Forall wfRule exRules.
Proof.
  repeat (apply Forall_cons; split); [..|constructor]; (split; [|split; [cbn; lia || done|reflexivity]]); cbn [wfHost rl_host].
  - repeat (split; [by apply (bool_decide_unpack _); vm_compute|]). by vm_compute.
  - split; [by left|]. unfold blen. cbn. lia.
  - split; [right; split; [done|by vm_compute]|]. unfold blen. cbn. lia.
  - by left.
Qed.

Lemma rules_mean_witness : let d := mkDest (go "API.corp.") None 443 in
  exists p, Compile exSpec = Ok (PRules p) /\ firstRoute exRules RouteCluster d (rules_Route p d) /\ rules_Route p d = RouteClient.
Proof.
  cbv zeta. destruct (rules_mean (go "proxy") 15001 exRules RouteCluster (mkDest (go "API.corp.") None 443) exRules_wf eq_refl I) as (p & Hc & Hf).
  exists p. split; [exact Hc|]. split; [exact Hf|].
  assert (E : Compile exSpec = Ok (PRules (mkRulePolicy (map compiledOf exRules) RouteCluster))) by (vm_compute; reflexivity).
  change (Compile exSpec = Ok (PRules p)) in Hc. rewrite Hc in E. injection E as ->. vm_compute. reflexivity.
Defined.

Lemma Route_valid_witness : exists p, Compile exSpec = Ok p /\
  let '(q', (r, err)) := Route None p (mkDest (go "example.com") None 80) in
  samePolicy p q' /\ ValidRoute r = true /\ (err = true -> r = RouteDeny) /\ (egressRoutesToClient exSpec = false -> r <> RouteClient).
Proof.
  exists (PRules (mkRulePolicy (map compiledOf exRules) RouteCluster)).
  assert (E : Compile exSpec = Ok (PRules (mkRulePolicy (map compiledOf exRules) RouteCluster))) by (vm_compute; reflexivity).
  split; [exact E|]. exact (Route_valid exSpec _ _ None (mkDest (go "example.com") None 80) E (samePolicy_refl _)).
Defined.

(** A server with one session, that is a gateway without a ceiling. *)
Definition exServer : Server := mkServer {[go "s1" := mkSession (Some exSpec) None]} true None.

Lemma exServer_ok : serverOk None exServer.
Proof. split; [|done]. intros id sess. unfold exServer. cbn [sv_mounts]. rewrite lookup_singleton_Some. by intros [_ <-]. Qed.

Lemma relay_confined_witness : let stream := OpenEgress (go "s1") RouteGateway (go "api.corp:443") ++ go "hello" in
  let '(s', r) := relayEgress None None stream exServer in
  serverOk None s' /\ r = SBacking (go "s1") (OpenEgressBacking (go "api.corp:443")) (go "hello") /\ relayAllowed None exServer stream r.
Proof.
  cbv zeta. set (stream := OpenEgress _ _ _ ++ _). destruct (relayEgress None None stream exServer) as [s' r] eqn:E.
  destruct (relay_confined None None None stream exServer s' r exServer_ok E) as (H1 & _ & _ & H2).
  assert (Er : r = SBacking (go "s1") (OpenEgressBacking (go "api.corp:443")) (go "hello")).
  { apply (f_equal snd) in E. cbn [snd] in E. rewrite <- E. vm_compute. reflexivity. }
  split; [exact H1|]. split; [exact Er|]. destruct H2 as [H2|H2]; [rewrite Er in H2; discriminate H2|exact H2].
Defined.

Definition exPolicy : eg_Policy := PRules (mkRulePolicy (map compiledOf exRules) RouteCluster).

Lemma exPolicy_ok : role_policy (planRole (go "s1") exSpec) = Ok exPolicy.
Proof. vm_compute. reflexivity. Qed.

Definition exClients : gmap bytes (option (option eg_Policy)) := {[go "s1" := egressHandlerFor (Some exSpec)]}.

(** A request for 10.1.2.3:80, and its dial from the server. *)
Definition exConn : appConn := ASocks (greeting [Byte.x00] ++ encodeTarget (TIPv4 [Byte.x0a; Byte.x01; Byte.x02; Byte.x03]) 80).

Lemma egress_by_policy_witness :
  let up := UpRelay (OpenEgress (go "s1") RouteGateway (go "10.1.2.3:80")) in
  up ∈ snd (caretakerServe None true true (go "s1") exPolicy exConn) /\
  upstreamPath None None None exClients exServer [] up = Some (FromServer (go "10.1.2.3:80")) /\
  leafAllowed exPolicy true None (FromServer (go "10.1.2.3:80")).
Proof.
  cbv zeta. set (up := UpRelay _).
  assert (H1 : up ∈ snd (caretakerServe None true true (go "s1") exPolicy exConn)).
  { assert (E : snd (caretakerServe None true true (go "s1") exPolicy exConn) = [up]) by (vm_compute; reflexivity). rewrite E. by apply list_elem_of_singleton. }
  assert (H2 : upstreamPath None None None exClients exServer [] up = Some (FromServer (go "10.1.2.3:80"))) by (vm_compute; reflexivity).
  split; [exact H1|]. split; [exact H2|].
  refine (egress_by_policy exSpec exPolicy (go "s1") None exServer exClients exConn None true true None None None exPolicy up [] _
    exPolicy_ok (samePolicy_refl _) exServer_ok _ (or_intror _) I H1 H2); [by apply (bool_decide_unpack _)|vm_compute; reflexivity].
Defined.

Lemma egress_delivered_witness :
  connPath None None None None exClients exServer (go "s1") [] exPolicy
    (ASocks (greeting [Byte.x00; Byte.x02] ++ encodeTarget (TDomain (go "git.corp")) 443 ++ [])) = [FromClient (go "git.corp:443")].
Proof.
  pose proof (egress_delivered exSpec (mkRulePolicy (map compiledOf exRules) RouteCluster) (go "s1") None exServer exClients None None None None
    [Byte.x00; Byte.x02] (TDomain (go "git.corp")) 443 [] [] exPolicy_ok exServer_ok) as H. cbv zeta in H. unfold exPolicy. rewrite H; clear H;
    [vm_compute; reflexivity|by apply (bool_decide_unpack _)|unfold maxLineLen; cbn; lia|right; vm_compute; reflexivity|reflexivity| | | | | |];
    [vm_compute; reflexivity|unfold blen; cbn; lia|cbn; unfold blen; cbn; lia|split; by apply (bool_decide_unpack _)|by apply (bool_decide_unpack _)|lia].
Defined.

End Examples.

Section Failing.
  Local Existing Instance failingScript.

Definition scriptSpec : EgressSpec := mkEgressSpec (go "proxy") [] ∅ [] (go "function FindProxyForURL(u, h) { throw 1 }") RouteClient 0.
Definition failingServer : Server := mkServer {[go "s1" := mkSession (Some scriptSpec) None]} true None.

Lemma failingServer_ok : serverOk None failingServer.
Proof. split; [|done]. intros id sess. unfold failingServer. cbn [sv_mounts]. rewrite lookup_singleton_Some. by intros [_ <-]. Qed.

Lemma scriptSpec_undecided dest : undecided scriptSpec dest.
Proof.
  intros p d Hc _ q pick. assert (E : Compile scriptSpec = Ok (PScript (mkScriptPolicy tt RouteClient [Some tt]))) by (vm_compute; reflexivity).
  rewrite E in Hc. injection Hc as <-. destruct q as [q|q]; [intros []|]. intros _. cbn [Route]. unfold script_Route.
  by destruct (poolGet pick q) as [[[]|] pool].
Qed.

Lemma egress_fails_closed_witness :
  relayPath None None None ∅ (OpenEgress (go "s1") RouteClient (go "example.com:443")) failingServer = None.
Proof.
  refine (proj1 (egress_fails_closed scriptSpec (go "s1") None failingServer ∅ None None None
    (OpenEgress (go "s1") RouteClient (go "example.com:443")) (go "client" ++ [newline] ++ go "example.com:443" ++ [newline]) RouteClient
    (go "example.com:443" ++ [newline]) (go "example.com:443") [] failingServer_ok _ (scriptSpec_undecided _) _ _ _)); vm_compute; reflexivity.
Defined.

End Failing.

(** ** Inputs the policy is not asked about the way its author meant *)

Section Surprises.
  Local Existing Instance noScript.

Definition httpConnect (host : bytes) : appConn := AHttp [(None, mkHttpReq true host [] true true true)].

(** A deployment with a session whose rules are these. *)
Definition pathOf (rules : list EgressRule) (def : bytes) (c : appConn) : list egressExit :=
  let e := rulesSpec (go "proxy") rules def 0 in
  match role_policy (planRole (go "s1") e) with
  | Ok p => connPath None None None None {[go "s1" := egressHandlerFor (Some e)]}
              (mkServer {[go "s1" := mkSession (Some e) None]} false None) (go "s1") [] p c
  | Err _ => []
  end.

(** A rule for a port does not see the port by its service name, which the dial resolves. *)
Lemma service_name_skips_rule :
  let rules := [mkEgressRule (go "db.corp:5432") RouteDeny] in
  pathOf rules RouteClient (httpConnect (go "db.corp:5432")) = [] /\
  pathOf rules RouteClient (httpConnect (go "db.corp:postgresql")) = [FromClient (go "db.corp:postgresql")].
Proof. by vm_compute. Qed.

(** A rule for a prefix does not see an address with a zone. *)
Lemma zone_skips_rule :
  let rules := [mkEgressRule (go "fe80::/10") RouteDeny] in
  pathOf rules RouteCluster (httpConnect (go "[fe80::1]:22")) = [] /\
  pathOf rules RouteCluster (httpConnect (go "[fe80::1%eth0]:22")) = [FromPod (go "[fe80::1%eth0]:22")].
Proof. by vm_compute. Qed.

(** A pod that leaves its session out of the stream is served by a gateway its policy does not let it use. *)
Lemma session_left_out :
  let e := rulesSpec (go "proxy") [] RouteDeny 0 in
  let s := mkServer {[go "s1" := mkSession (Some e) None]} true None in
  relayPath None None None ∅ (OpenEgress (go "s1") RouteGateway (go "example.com:443")) s = None /\
  relayPath None None None ∅ (OpenEgress [] RouteGateway (go "example.com:443")) s = Some (FromServer (go "example.com:443")).
Proof. by vm_compute. Qed.

(** The patterns the workload is told to reach without the proxy include destinations an earlier rule denies. *)
Lemma no_proxy_ignores_order :
  let rules := [mkEgressRule (go "10.0.0.5") RouteDeny; mkEgressRule (go "10.0.0.0/8") RouteCluster] in
  pathOf rules RouteClient (httpConnect (go "10.0.0.5:80")) = [] /\
  ProxyEnv (rulesSpec (go "proxy") rules RouteClient 0) 15001 !! go "NO_PROXY" = Some (go "localhost,127.0.0.1,::1,10.0.0.0/8").
Proof. by vm_compute. Qed.

(** A pattern that begins with a character class is not read as one: it is refused, or is the host named between the brackets. *)
Lemma leading_class_misread :
  compileRule (go "[ab].corp") = Err AfterBracket /\ compileRule (go "[ab]") = Ok (HGlob (go "ab"), 0) /\
  Match (go "[ab].corp") (go "a.corp") = Ok true.
Proof. by vm_compute. Qed.

End Surprises.

(** A script that keeps a variable answers the same question in two ways, by the runtime it gets. *)
Lemma script_answers_vary :
  let _ := countingScript in
  let p := PScript (mkScriptPolicy (tt : program) RouteCluster [Some 0%nat]) in
  let d := mkDest (go "example.com") None 443 in
  let '(p, first) := Route (Some 0%nat) p d in
  first = (RouteClient, false) /\ snd (Route (Some 0%nat) p d) = (RouteDeny, false) /\ snd (Route None p d) = (RouteClient, false).
Proof. by vm_compute. Qed.
