(* ===== verification/Supervisor.v ===== *)
(** * Supervisor

    [pkg/supervisor]: long-lived goroutines of the agent, the server and the caretaker, each restarted
    or dropped on its own when it returns or panics.

    The state machine: a child goes through the phases of [run]; the critical sections of [add] and
    [forget] and the channel operations are steps, which any number of callers and children
    interleave.  A service is arbitrary: it may return, fail or panic at any time ([OExit]).

    - [sup_invariant]: the count, the registry, the flight recorder and the idle hook agree with the children.
    - [sup_restarts]: a child to be restarted is never lost, whatever it and its siblings do.
    - [sup_shutdown]: after the context is cancelled all children end, in a bounded number of steps. *)
From stdpp Require Import base list gmap sets.
From Stdlib Require Import ZArith Lia.
From S2P Require Import Prelude.
Open Scope Z_scope.

(** Durations in milliseconds. *)
Definition minBackoff : Z := 100.
Definition maxBackoff : Z := 30000.

Inductive supPolicy : Type := RemoveOnExit | Restart.

(** Where the goroutine of a child is: before the record of an attempt, in the service, waiting to restart, before [forget], before
    closing [done], and after. *)
Inductive phase : Type :=
| Starting (attempt : nat) (backoff : Z)
| Serving (attempt : nat) (backoff : Z)
| Waiting (attempt : nat) (backoff : Z)
| Forgetting
| Closing
| Done.

Record Token := mkToken { tk_counted : bool; tk_policy : supPolicy; tk_cancelled : bool; tk_phase : phase }.

(** [su_tokens]: every child ever added. [su_kids]: the contexts the parent context holds. [su_open]: the children with an
    unfinished record. [su_fired]: how often the idle hook was started. *)
Record Supervisor := mkSup {
  su_ctx : bool; su_tokens : list Token; su_children : gset nat; su_counted : Z;
  su_hook : bool; su_fired : nat; su_open : gset nat; su_kids : gset nat;
}.

Definition sup_New : Supervisor := mkSup false [] ∅ 0 false 0 ∅ ∅.

Definition setPhase (p : phase) (t : Token) : Token := mkToken (tk_counted t) (tk_policy t) (tk_cancelled t) p.
Definition setTokens (f : list Token -> list Token) (s : Supervisor) : Supervisor :=
  mkSup (su_ctx s) (f (su_tokens s)) (su_children s) (su_counted s) (su_hook s) (su_fired s) (su_open s) (su_kids s).
Definition goTo (t : nat) (p : phase) (s : Supervisor) : Supervisor := setTokens (alter (setPhase p) t) s.
Definition setOpen (o : gset nat) (s : Supervisor) : Supervisor :=
  mkSup (su_ctx s) (su_tokens s) (su_children s) (su_counted s) (su_hook s) (su_fired s) o (su_kids s).

(** [context.WithCancel(s.ctx)]: a context under one that is cancelled already is not kept. *)
Definition sup_add (counted : bool) (policy : supPolicy) (s : Supervisor) : Supervisor :=
  let t := length (su_tokens s) in
  mkSup (su_ctx s) (su_tokens s ++ [mkToken counted policy false (Starting 1 minBackoff)]) ({[t]} ∪ su_children s)
        (if counted then su_counted s + 1 else su_counted s) (su_hook s) (su_fired s) (su_open s)
        (if su_ctx s then su_kids s else {[t]} ∪ su_kids s).

Definition sup_forget (t : nat) (tok : Token) (s : Supervisor) : Supervisor :=
  if bool_decide (t ∉ su_children s) then s
  else
    let counted := if tk_counted tok then su_counted s - 1 else su_counted s in
    let idle := tk_counted tok && (counted =? 0) in
    mkSup (su_ctx s) (su_tokens s) (su_children s ∖ {[t]}) counted (su_hook s)
          (if idle && su_hook s then S (su_fired s) else su_fired s) (su_open s) (su_kids s).

(** [t.cancel()] *)
Definition tok_cancel (t : nat) (s : Supervisor) : Supervisor :=
  mkSup (su_ctx s) (alter (fun k => mkToken (tk_counted k) (tk_policy k) true (tk_phase k)) t (su_tokens s)) (su_children s) (su_counted s)
        (su_hook s) (su_fired s) (su_open s) (su_kids s ∖ {[t]}).

Definition nextBackoff (b : Z) : Z := if maxBackoff <? b * 2 then maxBackoff else b * 2.

(** [ctx.Err() != nil] in the goroutine of a child *)
Definition ctxErr (s : Supervisor) (k : Token) : bool := su_ctx s || tk_cancelled k.

(** After the service returned. *)
Definition afterServe (t : nat) (k : Token) (attempt : nat) (b : Z) (s : Supervisor) : Supervisor :=
  let s' := setOpen (su_open s ∖ {[t]}) s in
  if ctxErr s k then goTo t Closing s'
  else match tk_policy k with
       | RemoveOnExit => goTo t Forgetting s'
       | Restart => goTo t (Waiting attempt b) s'
       end.

(** The operations: of the callers, [OAdd], [OCancel] and [ORemoved] (the two halves of [Remove]), [OShutdown] and [OSetIdleHook]; of a
    child's goroutine, the rest.  Either case of the [select] may be taken when both are ready. *)
Inductive supOp : Type :=
| OAdd (counted : bool) (policy : supPolicy)
| OCancel (t : nat)
| ORemoved (t : nat)
| OShutdown
| OSetIdleHook
| OBegin (t : nat)
| OExit (t : nat)
| OForget (t : nat)
| OClose (t : nat)
| OTimer (t : nat)
| OWake (t : nat).

Definition sup_step (s : Supervisor) (o : supOp) : option Supervisor :=
  match o with
  | OAdd counted policy => Some (sup_add counted policy s)
  | OCancel t => match su_tokens s !! t with Some _ => Some (tok_cancel t s) | None => None end
  | ORemoved t =>
      match su_tokens s !! t with
      | Some k => match tk_phase k with Done => if tk_cancelled k then Some (sup_forget t k s) else None | _ => None end
      | None => None
      end
  | OShutdown => Some (mkSup true (su_tokens s) (su_children s) (su_counted s) (su_hook s) (su_fired s) (su_open s) ∅)
  | OSetIdleHook => Some (mkSup (su_ctx s) (su_tokens s) (su_children s) (su_counted s) true (su_fired s) (su_open s) (su_kids s))
  | OBegin t =>
      match su_tokens s !! t with
      | Some k => match tk_phase k with Starting n b => Some (setOpen ({[t]} ∪ su_open s) (goTo t (Serving n b) s)) | _ => None end
      | None => None
      end
  | OExit t =>
      match su_tokens s !! t with
      | Some k => match tk_phase k with Serving n b => Some (afterServe t k n b s) | _ => None end
      | None => None
      end
  | OForget t =>
      match su_tokens s !! t with
      | Some k => match tk_phase k with Forgetting => Some (goTo t Closing (sup_forget t k s)) | _ => None end
      | None => None
      end
  | OClose t =>
      match su_tokens s !! t with
      | Some k => match tk_phase k with Closing => Some (goTo t Done s) | _ => None end
      | None => None
      end
  | OTimer t =>
      match su_tokens s !! t with
      | Some k => match tk_phase k with Waiting n b => Some (goTo t (Starting (S n) (nextBackoff b)) s) | _ => None end
      | None => None
      end
  | OWake t =>
      match su_tokens s !! t with
      | Some k => match tk_phase k with Waiting n b => if ctxErr s k then Some (goTo t Closing s) else None | _ => None end
      | None => None
      end
  end.

(** A run; operations that are not enabled do nothing. *)
Definition sup_next (s : Supervisor) (o : supOp) : Supervisor := default s (sup_step s o).
Definition sup_run (ops : list supOp) : Supervisor := fold_left sup_next ops sup_New.

(** ** The invariant *)

(** The wait after an attempt: doubled each time, up to the cap. *)
Definition backoffAt (n : nat) : Z := Z.min (minBackoff * 2 ^ (Z.of_nat n - 1)) maxBackoff.

Definition isServing (p : phase) : bool := match p with Serving _ _ => true | _ => false end.
Definition isOver (p : phase) : bool := match p with Closing | Done => true | _ => false end.

(** The phase of a child, given its policy. *)
Definition phaseOk (policy : supPolicy) (p : phase) : Prop :=
  match p with
  | Starting n b | Serving n b => (1 <= n)%nat /\ b = backoffAt n /\ (policy = RemoveOnExit -> n = 1%nat)
  | Waiting n b => (1 <= n)%nat /\ b = backoffAt n /\ policy = Restart
  | Forgetting => policy = RemoveOnExit
  | Closing | Done => True
  end.

Definition isCounted (s : Supervisor) (t : nat) : Prop := tk_counted <$> su_tokens s !! t = Some true.

#[export] Instance isCounted_dec s t : Decision (isCounted s t).
Proof. unfold isCounted. apply _. Defined.

Definition tokOk (s : Supervisor) (t : nat) (k : Token) : Prop :=
  phaseOk (tk_policy k) (tk_phase k) /\
  (isOver (tk_phase k) = false -> t ∈ su_children s) /\
  (isOver (tk_phase k) = true -> ctxErr s k = false -> t ∉ su_children s) /\
  (t ∈ su_open s <-> isServing (tk_phase k) = true) /\
  (t ∈ su_kids s <-> ctxErr s k = false).

Record supInv (s : Supervisor) : Prop := mkSupInv {
  si_tokens : forall t k, su_tokens s !! t = Some k -> tokOk s t k;
  si_known : forall t, t ∈ su_children s ∪ su_open s ∪ su_kids s -> is_Some (su_tokens s !! t);
  si_counted : su_counted s = Z.of_nat (size (filter (isCounted s) (su_children s)));
}.

Lemma nextBackoff_at n : (1 <= n)%nat -> nextBackoff (backoffAt n) = backoffAt (S n).
Proof.
  intros Hn. unfold nextBackoff, backoffAt. replace (Z.of_nat (S n) - 1) with (Z.succ (Z.of_nat n - 1)) by lia.
  rewrite Z.pow_succ_r by lia. pose proof (Z.pow_pos_nonneg 2 (Z.of_nat n - 1) ltac:(lia) ltac:(lia)) as Hp.
  set (x := 2 ^ (Z.of_nat n - 1)) in *. unfold minBackoff, maxBackoff in *. destruct (Z.ltb_spec 30000 (Z.min (100 * x) 30000 * 2)); lia.
Qed.

Lemma supInv_new : supInv sup_New.
Proof. split; [by intros t k|cbn; set_solver|done]. Qed.

Lemma isCounted_goTo t p s x : isCounted (goTo t p s) x <-> isCounted s x.
Proof.
  unfold isCounted, goTo, setTokens. cbn [su_tokens]. destruct (decide (t = x)) as [->|].
  - rewrite list_lookup_alter_eq. by destruct (su_tokens s !! x).
  - by rewrite list_lookup_alter_ne.
Qed.

Lemma size_filter_ext (P Q : nat -> Prop) `{!forall x, Decision (P x), !forall x, Decision (Q x)} (X Y : gset nat) :
  (forall x, x ∈ X /\ P x <-> x ∈ Y /\ Q x) -> size (filter P X) = size (filter Q Y).
Proof. intros E. f_equal. apply set_eq. intros x. rewrite !elem_of_filter. specialize (E x). tauto. Qed.

(** One child moves to another phase, with the record opened or closed. *)
Lemma supInv_goTo s t k p o : supInv s -> su_tokens s !! t = Some k -> phaseOk (tk_policy k) p ->
  (isOver p = false -> t ∈ su_children s) -> (isOver p = true -> ctxErr s k = false -> t ∉ su_children s) ->
  o ∖ {[t]} = su_open s ∖ {[t]} -> (t ∈ o <-> isServing p = true) ->
  supInv (setOpen o (goTo t p s)).
Proof.
  intros [Ht Hk Hc] Hl Hp Hin Hout Ho Hs.
  assert (Ho' : forall x, x <> t -> x ∈ o <-> x ∈ su_open s) by (intros x Hx; clear -Ho Hx; set_solver).
  split; cbn [setOpen goTo setTokens su_tokens su_children su_open su_kids su_counted].
  - intros x kx. destruct (decide (t = x)) as [<-|Hne].
    + rewrite list_lookup_alter_eq, Hl. cbn. intros [= <-]. destruct (Ht t k Hl) as (_ & _ & _ & _ & Hkid).
      unfold tokOk, ctxErr in *. cbn. by split; [|split; [|split; [|split]]].
    + rewrite list_lookup_alter_ne by done. intros Hx. destruct (Ht x kx Hx) as (H1 & H2 & H3 & H4 & H5).
      unfold tokOk, ctxErr in *. cbn. split; [done|]. split; [done|]. split; [done|]. split; [|done]. rewrite Ho'; [done|congruence].
  - intros x Hx. destruct (decide (t = x)) as [<-|Hne].
    + rewrite list_lookup_alter_eq, Hl. by eexists.
    + rewrite list_lookup_alter_ne by done. apply Hk. clear -Hx Ho' Hne. specialize (Ho' x). set_solver.
  - rewrite Hc. f_equal. apply size_filter_ext. intros x. by rewrite (isCounted_goTo t p s x).
Qed.

Lemma size_filter_remove (P : nat -> Prop) `{!forall x, Decision (P x)} (X : gset nat) t : t ∈ X ->
  Z.of_nat (size (filter P (X ∖ {[t]}))) = Z.of_nat (size (filter P X)) - if bool_decide (P t) then 1 else 0.
Proof.
  intros Ht. case_bool_decide as HP.
  - assert (filter P X = {[t]} ∪ filter P (X ∖ {[t]})) as ->.
    { apply set_eq. intros x. rewrite elem_of_union, !elem_of_filter, elem_of_difference, elem_of_singleton.
      destruct (decide (x = t)) as [->|]; tauto. }
    rewrite size_union, size_singleton by set_solver. lia.
  - rewrite Z.sub_0_r. f_equal. apply size_filter_ext. intros x. rewrite elem_of_difference, elem_of_singleton.
    destruct (decide (x = t)) as [->|]; tauto.
Qed.

Lemma size_filter_add (P : nat -> Prop) `{!forall x, Decision (P x)} (X : gset nat) t : t ∉ X ->
  Z.of_nat (size (filter P ({[t]} ∪ X))) = Z.of_nat (size (filter P X)) + if bool_decide (P t) then 1 else 0.
Proof.
  intros Ht. pose proof (size_filter_remove P ({[t]} ∪ X) t ltac:(set_solver)) as E.
  assert (({[t]} ∪ X) ∖ {[t]} = X) as X' by set_solver. rewrite X' in E. lia.
Qed.

Lemma isCounted_token s t k : su_tokens s !! t = Some k -> bool_decide (isCounted s t) = tk_counted k.
Proof.
  intros E. destruct (tk_counted k) eqn:C; [apply bool_decide_eq_true|apply bool_decide_eq_false]; unfold isCounted; rewrite E; cbn; congruence.
Qed.

(** What [forget] does to the count. *)
Lemma sup_forget_counted s t k : supInv s -> su_tokens s !! t = Some k ->
  su_counted (sup_forget t k s) = Z.of_nat (size (filter (isCounted s) (su_children s ∖ {[t]}))) /\ su_children (sup_forget t k s) = su_children s ∖ {[t]}.
Proof.
  intros [_ _ Hc] Hl. unfold sup_forget. case_bool_decide as Hin; cbn [su_counted su_children].
  - assert (su_children s ∖ {[t]} = su_children s) as -> by set_solver. done.
  - split; [|done]. rewrite size_filter_remove by done. rewrite (isCounted_token s t k Hl), Hc.
    destruct (tk_counted k); lia.
Qed.

Lemma supInv_forget s t k p : supInv s -> su_tokens s !! t = Some k -> isServing (tk_phase k) = false -> isOver p = true ->
  supInv (goTo t p (sup_forget t k s)).
Proof.
  intros Hs Hl Hns Hp. destruct (sup_forget_counted s t k Hs Hl) as [Hc Hch]. destruct Hs as [Ht Hk _].
  assert (E : su_tokens (sup_forget t k s) = su_tokens s /\ su_open (sup_forget t k s) = su_open s /\ su_kids (sup_forget t k s) = su_kids s /\
    su_ctx (sup_forget t k s) = su_ctx s) by (unfold sup_forget; by case_bool_decide). destruct E as (Et & Eo & Ek & Ec).
  split; cbn [goTo setTokens su_tokens su_children su_open su_kids su_counted]; rewrite ?Et, ?Eo, ?Ek, ?Hch.
  - intros x kx. destruct (decide (t = x)) as [<-|Hne].
    + rewrite list_lookup_alter_eq, Hl. cbn. intros [= <-]. destruct (Ht t k Hl) as (_ & _ & _ & Ho & Hkid).
      unfold tokOk, ctxErr in *. cbn. rewrite Hch, Eo, Ek, Ec. destruct p; try done; (split; [done|]); (split; [done|]); (split; [set_solver|]);
        (split; [|done]); rewrite Ho, Hns; done.
    + rewrite list_lookup_alter_ne by done. intros Hx. destruct (Ht x kx Hx) as (H1 & H2 & H3 & H4 & H5).
      unfold tokOk, ctxErr in *. cbn. rewrite Hch, Eo, Ek, Ec. split; [done|]. split; [set_solver|]. split; [set_solver|]. by split.
  - intros x Hx. destruct (decide (t = x)) as [<-|Hne].
    + rewrite list_lookup_alter_eq, Hl. by eexists.
    + rewrite list_lookup_alter_ne by done. apply Hk. set_solver.
  - rewrite Hc. f_equal. apply size_filter_ext. intros x. rewrite (isCounted_goTo t p (sup_forget t k s) x). unfold isCounted. by rewrite Et.
Qed.

Lemma supInv_add counted policy s : supInv s -> supInv (sup_add counted policy s).
Proof.
  intros [Ht Hk Hc]. set (n := length (su_tokens s)).
  assert (Hn : su_tokens s !! n = None) by (by apply lookup_ge_None_2).
  assert (Hnot : (n ∉ su_children s) /\ (n ∉ su_open s) /\ (n ∉ su_kids s)).
  { repeat split; intros Hin; destruct (Hk n ltac:(set_solver)) as [k E]; congruence. } destruct Hnot as (N1 & N2 & N3).
  split; cbn [sup_add su_tokens su_children su_open su_kids su_counted]; fold n.
  - intros x kx. rewrite lookup_app_Some. intros [Hx|[Hge Hx]].
    + assert (x <> n) by (intros ->; congruence). destruct (Ht x kx Hx) as (H1 & H2 & H3 & H4 & H5). unfold tokOk, ctxErr in *. cbn.
      split; [done|]. split; [set_solver|]. split; [set_solver|]. split; [done|]. destruct (su_ctx s); set_solver.
    + apply list_lookup_singleton_Some in Hx as [Hx <-]. assert (x = n) as -> by (unfold n; lia). unfold tokOk, ctxErr. cbn.
      split; [done|]. split; [set_solver|]. split; [done|]. split; [by split|]. destruct (su_ctx s); set_solver.
  - intros x Hx. destruct (decide (x = n)) as [->|Hne]; [rewrite lookup_app_r by done; unfold n; rewrite Nat.sub_diag; by eexists|].
    destruct (Hk x) as [k E]; [destruct (su_ctx s); set_solver|]. exists k. by apply lookup_app_l_Some.
  - rewrite size_filter_add by done.
    assert (Ec : forall x, x <> n -> isCounted (sup_add counted policy s) x <-> isCounted s x).
    { intros x Hx. unfold isCounted. cbn [sup_add su_tokens]. destruct (Nat.lt_ge_cases x n); [by rewrite lookup_app_l|].
      rewrite (lookup_ge_None_2 (su_tokens s) x) by (unfold n in *; lia). rewrite lookup_ge_None_2; [done|]. rewrite length_app. cbn. unfold n in *. lia. }
    assert (bool_decide (isCounted (sup_add counted policy s) n) = counted) as ->.
    { rewrite (isCounted_token _ n (mkToken counted policy false (Starting 1 minBackoff))); [done|]. cbn [sup_add su_tokens].
      rewrite lookup_app_r by done. unfold n. by rewrite Nat.sub_diag. }
    rewrite (size_filter_ext _ (isCounted s) _ (su_children s)); [rewrite Hc; destruct counted; lia|].
    intros x. destruct (decide (x = n)) as [->|]; [tauto|]. by rewrite Ec.
Qed.

Lemma supInv_cancel t k s : supInv s -> su_tokens s !! t = Some k -> supInv (tok_cancel t s).
Proof.
  intros [Ht Hk Hc] Hl. split; cbn [tok_cancel su_tokens su_children su_open su_kids su_counted].
  - intros x kx. destruct (decide (t = x)) as [<-|Hne].
    + rewrite list_lookup_alter_eq, Hl. cbn. intros [= <-]. destruct (Ht t k Hl) as (H1 & H2 & H3 & H4 & H5).
      unfold tokOk, ctxErr in *. cbn in *. rewrite orb_true_r. split; [done|]. split; [done|]. split; [done|]. split; [done|]. set_solver.
    + rewrite list_lookup_alter_ne by done. intros Hx. destruct (Ht x kx Hx) as (H1 & H2 & H3 & H4 & H5).
      unfold tokOk, ctxErr in *. cbn. split; [done|]. split; [done|]. split; [done|]. split; [done|]. set_solver.
  - intros x Hx. destruct (decide (t = x)) as [<-|Hne].
    + rewrite list_lookup_alter_eq, Hl. by eexists.
    + rewrite list_lookup_alter_ne by done. apply Hk. set_solver.
  - rewrite Hc. f_equal. apply size_filter_ext. intros x. unfold isCounted. cbn [tok_cancel su_tokens].
    destruct (decide (t = x)) as [<-|Hne]; [rewrite list_lookup_alter_eq, Hl|rewrite list_lookup_alter_ne by done]; done.
Qed.

Lemma supInv_shutdown s : supInv s ->
  supInv (mkSup true (su_tokens s) (su_children s) (su_counted s) (su_hook s) (su_fired s) (su_open s) ∅).
Proof.
  intros [Ht Hk Hc]. split; cbn [su_tokens su_children su_open su_kids su_counted].
  - intros x kx Hx. destruct (Ht x kx Hx) as (H1 & H2 & H3 & H4 & H5). unfold tokOk, ctxErr in *. cbn.
    split; [done|]. split; [done|]. split; [done|]. split; [done|]. set_solver.
  - intros x Hx. apply Hk. set_solver.
  - rewrite Hc. done.
Qed.

Lemma setOpen_goTo t p s : goTo t p s = setOpen (su_open s) (goTo t p s).
Proof. done. Qed.

Lemma goTo_same t k s : su_tokens s !! t = Some k -> goTo t (tk_phase k) s = s.
Proof.
  intros Hl. destruct s. unfold goTo, setTokens. cbn in *. f_equal. apply list_eq. intros x.
  destruct (decide (t = x)) as [<-|]; [rewrite list_lookup_alter_eq, Hl; by destruct k|by rewrite list_lookup_alter_ne].
Qed.

Lemma sup_step_inv s o s' : supInv s -> sup_step s o = Some s' -> supInv s'.
Proof.
  intros Hs. destruct o as [counted policy|t|t| | |t|t|t|t|t|t]; cbn [sup_step];
    try (destruct (su_tokens s !! t) as [k|] eqn:Hl; [|done]; pose proof (si_tokens s Hs t k Hl) as (Hp & Hin & Hout & Hop & _));
    try (by intros [= <-]; eapply supInv_cancel);
    try (destruct (tk_phase k) as [n b|n b|n b| | |] eqn:E; try done; cbn [phaseOk isOver isServing] in *).
  - intros [= <-]. by apply supInv_add.
  - destruct (tk_cancelled k); [|done]. intros [= <-].
    assert (Et : su_tokens (sup_forget t k s) !! t = Some k) by (unfold sup_forget; by case_bool_decide).
    rewrite <- (goTo_same t k (sup_forget t k s) Et). apply supInv_forget; by rewrite ?E.
  - intros [= <-]. by apply supInv_shutdown.
  - intros [= <-]. destruct Hs as [Ht Hk Hc]. split; [exact Ht|exact Hk|exact Hc].
  - intros [= <-]. apply (supInv_goTo s t k); [done..|set_solver|set_solver].
  - intros [= <-]. unfold afterServe. destruct (ctxErr s k) eqn:X; [|destruct (tk_policy k) eqn:P].
    + apply (supInv_goTo s t k); [done|done|done|done|congruence|set_solver|set_solver].
    + apply (supInv_goTo s t k); [done|done|by rewrite P|by intros; apply Hin|done|set_solver|set_solver].
    + apply (supInv_goTo s t k); [done|done|by rewrite P; destruct Hp as (? & ? & ?)|by intros; apply Hin|done|set_solver|set_solver].
  - intros [= <-]. by apply supInv_forget; rewrite ?E.
  - intros [= <-]. rewrite setOpen_goTo. apply (supInv_goTo s t k); [done|done|done|done|done|done|set_solver].
  - intros [= <-]. rewrite setOpen_goTo. destruct Hp as (H1 & -> & HR). rewrite nextBackoff_at by done.
    apply (supInv_goTo s t k); [done|done|cbn; split; [lia|]; split; [done|by rewrite HR]|by intros; apply Hin|done|done|set_solver].
  - destruct (ctxErr s k) eqn:X; [|done]. intros [= <-]. rewrite setOpen_goTo.
    apply (supInv_goTo s t k); [done|done|done|done|congruence|done|set_solver].
Qed.

Lemma sup_run_inv ops : supInv (sup_run ops).
Proof.
  unfold sup_run. assert (H : forall s, supInv s -> supInv (fold_left sup_next ops s)); [|apply H, supInv_new].
  induction ops as [|o ops IH]; intros s Hs; [done|]. cbn [fold_left]. apply IH. unfold sup_next.
  destruct (sup_step s o) eqn:E; [by eapply sup_step_inv|done].
Qed.

(** ** Theorems *)

Lemma counted_nonneg s : supInv s -> 0 <= su_counted s.
Proof. intros [_ _ ->]. lia. Qed.

(** Where the idle hook starts. *)
Definition becameIdle (s s' : Supervisor) : bool := su_hook s && (0 <? su_counted s) && (su_counted s' =? 0).

Lemma forget_fired s t k : supInv s -> su_tokens s !! t = Some k ->
  su_fired (sup_forget t k s) = (su_fired s + if becameIdle s (sup_forget t k s) then 1 else 0)%nat.
Proof.
  intros Hs Hl. pose proof (counted_nonneg s Hs) as H0. unfold becameIdle, sup_forget. case_bool_decide as Hin.
  - destruct (su_hook s), (Z.ltb_spec 0 (su_counted s)), (Z.eqb_spec (su_counted s) 0); cbn [andb]; lia.
  - cbn [su_fired su_counted su_hook]. destruct (tk_counted k) eqn:C; cbn [andb].
    + assert (0 < su_counted s).
      { rewrite (si_counted s Hs). assert (t ∈ filter (isCounted s) (su_children s)) as Hf.
        { apply elem_of_filter. split; [|done]. unfold isCounted. rewrite Hl. cbn. by f_equal. }
        destruct (size (filter (isCounted s) (su_children s))) eqn:Z; [|lia]. apply size_empty_inv in Z. set_solver. }
      rewrite (proj2 (Z.ltb_lt _ _)) by done. rewrite andb_true_r, andb_comm. destruct (_ && _); lia.
    + destruct (su_hook s), (Z.ltb_spec 0 (su_counted s)), (Z.eqb_spec (su_counted s) 0); cbn [andb]; lia.
Qed.

Lemma step_fired s o s' : supInv s -> sup_step s o = Some s' -> su_fired s' = (su_fired s + if becameIdle s s' then 1 else 0)%nat.
Proof.
  intros Hs. pose proof (counted_nonneg s Hs) as H0.
  assert (G : su_fired s' = su_fired s -> su_counted s <= su_counted s' -> su_fired s' = (su_fired s + if becameIdle s s' then 1 else 0)%nat).
  { intros E Hle. unfold becameIdle. destruct (su_hook s), (Z.ltb_spec 0 (su_counted s)), (Z.eqb_spec (su_counted s') 0); cbn [andb]; lia. }
  destruct o as [counted policy|t|t| | |t|t|t|t|t|t]; cbn [sup_step];
    try (destruct (su_tokens s !! t) as [k|] eqn:Hl; [|done]); try (destruct (tk_phase k); try done); intros H;
    try (injection H as <-; by apply G);
    try (destruct (tk_cancelled k); [injection H as <-|done]; by apply forget_fired).
  - injection H as <-. apply G; [done|]. cbn. destruct counted; lia.
  - injection H as <-. apply G; unfold afterServe; destruct (ctxErr s k), (tk_policy k); done.
  - injection H as <-. by apply forget_fired.
  - destruct (ctxErr s k); [injection H as <-; by apply G|done].
Qed.

(** However callers and children interleave: the count is the number of registered counted children; a child is registered
    while its goroutine runs, and one that ended on its own is not; the children with an unfinished record are those in
    their service; and the idle hook is started at the steps that take the count to zero, and only there. *)
Theorem sup_invariant ops : let s := sup_run ops in
  su_counted s = Z.of_nat (size (filter (isCounted s) (su_children s))) /\
  (forall t k, su_tokens s !! t = Some k ->
    (isOver (tk_phase k) = false -> t ∈ su_children s) /\ (isOver (tk_phase k) = true -> ctxErr s k = false -> t ∉ su_children s) /\
    (t ∈ su_open s <-> isServing (tk_phase k) = true)) /\
  (forall o s', sup_step s o = Some s' -> su_fired s' = (su_fired s + if becameIdle s s' then 1 else 0)%nat).
Proof.
  intros s. pose proof (sup_run_inv ops) as Hs. split; [apply Hs|]. split; [|intros o s' H; by eapply step_fired].
  intros t k Hl. by destruct (si_tokens _ Hs t k Hl) as (_ & ? & ? & ? & _).
Qed.

(** *** Restarts *)

(** The operations that end child [t]. *)
Definition stops (t : nat) (o : supOp) : bool := match o with OCancel x => bool_decide (x = t) | OShutdown => true | _ => false end.

(** A child to be restarted that is up, or about to be. *)
Definition upOrRestarting (s : Supervisor) (t : nat) : Prop :=
  su_ctx s = false /\ exists k, su_tokens s !! t = Some k /\ tk_policy k = Restart /\ tk_cancelled k = false /\
    match tk_phase k with Starting _ _ | Serving _ _ | Waiting _ _ => True | _ => False end.

(** A step changes the phase of its own child only. *)
Lemma goTo_other t x p s : t <> x -> su_tokens (goTo t p s) !! x = su_tokens s !! x.
Proof. intros H. by apply list_lookup_alter_ne. Qed.

Lemma goTo_own t p s k : su_tokens s !! t = Some k -> su_tokens (goTo t p s) !! t = Some (setPhase p k).
Proof. intros H. cbn [goTo setTokens su_tokens]. by rewrite list_lookup_alter_eq, H. Qed.

Lemma forget_tokens t k s : su_tokens (sup_forget t k s) = su_tokens s /\ su_ctx (sup_forget t k s) = su_ctx s.
Proof. unfold sup_forget. by case_bool_decide. Qed.

Lemma upOrRestarting_step s o s' t : upOrRestarting s t -> stops t o = false -> sup_step s o = Some s' -> upOrRestarting s' t.
Proof.
  intros (Hctx & k & Hl & HR & Hc & Hph) Hstop.
  assert (Hkeep : forall s1, su_ctx s1 = su_ctx s -> su_tokens s1 !! t = su_tokens s !! t -> upOrRestarting s1 t)
    by (intros s1 E1 E2; split; [by rewrite E1|]; exists k; by rewrite E2).
  assert (Hmove : forall p s1, su_ctx s1 = su_ctx s -> su_tokens s1 !! t = Some (setPhase p k) ->
    match p with Starting _ _ | Serving _ _ | Waiting _ _ => True | _ => False end -> upOrRestarting s1 t).
  { intros p s1 E1 E2 Hp. split; [by rewrite E1|]. by exists (setPhase p k). }
  assert (Hother : forall x p s1, x <> t -> su_ctx s1 = su_ctx s -> su_tokens s1 = su_tokens s -> upOrRestarting (goTo x p s1) t)
    by (intros x p s1 Hx E1 E2; apply Hkeep; [done|]; by rewrite goTo_other, E2).
  destruct o as [counted policy|x|x| | |x|x|x|x|x|x]; cbn [sup_step stops] in *; try done;
    try (destruct (decide (x = t)) as [->|Hne]; [rewrite Hl|destruct (su_tokens s !! x) as [kx|]; [|done]; destruct (forget_tokens x kx s) as [E1 E2]]).
  - intros [= <-]. apply Hkeep; [done|]. cbn. apply lookup_app_l. by eapply lookup_lt_Some.
  - by rewrite bool_decide_true in Hstop.
  - intros [= <-]. apply Hkeep; [done|]. cbn. by apply list_lookup_alter_ne.
  - by destruct (tk_phase k).
  - destruct (tk_phase kx), (tk_cancelled kx); try done. intros [= <-]. by apply Hkeep; rewrite ?E1.
  - intros [= <-]. by apply Hkeep.
  - destruct (tk_phase k); try done. intros [= <-]. eapply Hmove; [done|by apply goTo_own|done].
  - destruct (tk_phase kx); try done. intros [= <-]. by apply (Hother x _ s).
  - destruct (tk_phase k); try done. unfold afterServe, ctxErr. rewrite Hctx, Hc, HR. intros [= <-]. eapply Hmove; [done|by apply goTo_own|done].
  - destruct (tk_phase kx); try done. unfold afterServe. destruct (ctxErr s kx), (tk_policy kx); intros [= <-]; by apply Hother.
  - by destruct (tk_phase k).
  - destruct (tk_phase kx); try done. intros [= <-]. by apply Hother.
  - by destruct (tk_phase k).
  - destruct (tk_phase kx); try done. intros [= <-]. by apply Hother.
  - destruct (tk_phase k); try done. intros [= <-]. eapply Hmove; [done|by apply goTo_own|done].
  - destruct (tk_phase kx); try done. intros [= <-]. by apply Hother.
  - destruct (tk_phase k); try done. unfold ctxErr. by rewrite Hctx, Hc.
  - destruct (tk_phase kx); try done. destruct (ctxErr s kx); [|done]. intros [= <-]. by apply Hother.
Qed.

Lemma upOrRestarting_run ops s t : upOrRestarting s t -> forallb (fun o => negb (stops t o)) ops = true ->
  upOrRestarting (fold_left sup_next ops s) t.
Proof.
  revert s. induction ops as [|o ops IH]; intros s Hs; [done|]. cbn [forallb fold_left]. intros [Ho Hops]%andb_true_iff.
  apply IH; [|done]. apply negb_true_iff in Ho. unfold sup_next. destruct (sup_step s o) eqn:E; [by eapply upOrRestarting_step|done].
Qed.

(** C14. A child added to be restarted, however often it and its siblings return, fail, panic, are removed and added, is registered and in its
    service, or gets there by at most two steps of its own goroutine, after a wait of 100 ms that doubles with each attempt up to 30 s;
    unless it is removed or the supervisor is shut down. *)
Theorem sup_restarts ops1 counted ops2 : su_ctx (sup_run ops1) = false ->
  let t := length (su_tokens (sup_run ops1)) in
  forallb (fun o => negb (stops t o)) ops2 = true ->
  let s := sup_run (ops1 ++ OAdd counted Restart :: ops2) in
  t ∈ su_children s /\ exists own n b k, (length own <= 2)%nat /\ Forall (fun o => o = OBegin t \/ o = OTimer t) own /\
    su_tokens (fold_left sup_next own s) !! t = Some (setPhase (Serving n b) k) /\ b = backoffAt n /\
    forall m w, tk_phase <$> su_tokens s !! t = Some (Waiting m w) -> w = Z.min (100 * 2 ^ (Z.of_nat m - 1)) 30000 /\ n = S m.
Proof.
  intros Hctx t Hops s. pose proof (sup_run_inv (ops1 ++ OAdd counted Restart :: ops2)) as Hinv. fold s in Hinv.
  assert (Hup : upOrRestarting s t).
  { unfold s, sup_run. rewrite fold_left_app. cbn [fold_left]. apply upOrRestarting_run; [|done]. fold (sup_run ops1).
    unfold sup_next. cbn [sup_step default from_option id]. split; [done|].
    exists (mkToken counted Restart false (Starting 1 minBackoff)). split; [|done]. cbn. rewrite lookup_app_r by done. by rewrite Nat.sub_diag. }
  clearbody s. destruct Hup as (_ & k & Hl & HR & Hc & Hph). destruct (si_tokens s Hinv t k Hl) as (Hp & Hin & _).
  split; [apply Hin; by destruct (tk_phase k)|]. rewrite Hl. cbn [fmap option_fmap option_map].
  assert (Hb : forall s1 n b, su_tokens s1 !! t = Some (setPhase (Starting n b) k) -> su_tokens (sup_next s1 (OBegin t)) !! t = Some (setPhase (Serving n b) k)).
  { intros s1 n b E. unfold sup_next. cbn [sup_step]. rewrite E. cbn [tk_phase setPhase default from_option id setOpen su_tokens].
    by rewrite (goTo_own t _ s1 _ E). }
  destruct (tk_phase k) as [n b|n b|n b| | |] eqn:E; try done; destruct Hp as (Hn & Hbk & _).
  - exists [OBegin t], n, b, k. split; [cbn; lia|]. split; [by repeat constructor; left|]. split; [|by split; [|intros ? ? [=]]].
    cbn [fold_left]. apply Hb. rewrite Hl. by destruct k; cbn in *; subst.
  - exists [], n, b, k. split; [cbn; lia|]. split; [constructor|]. split; [|by split; [|intros ? ? [=]]].
    cbn [fold_left]. rewrite Hl. by destruct k; cbn in *; subst.
  - exists [OTimer t; OBegin t], (S n), (nextBackoff b), k. split; [cbn; lia|]. split; [by repeat constructor; auto|].
    split; [|split; [subst b; by apply nextBackoff_at|by intros m w [= <- <-]]].
    cbn [fold_left]. apply Hb. unfold sup_next. cbn [sup_step]. rewrite Hl, E. cbn [default from_option id]. by apply goTo_own.
Qed.

(** *** Shutdown *)

(** How many steps of its goroutine a child has left at most once its context is cancelled. *)
Definition stepsLeft (p : phase) : nat :=
  match p with Done => 0 | Closing => 1 | Serving _ _ | Forgetting => 2 | Starting _ _ => 3 | Waiting _ _ => 4 end%nat.

Definition allLeft (s : Supervisor) : nat := sum_list (map (fun k => stepsLeft (tk_phase k)) (su_tokens s)).

(** A step of a child's goroutine. *)
Definition childStep (o : supOp) : bool :=
  match o with OBegin _ | OExit _ | OForget _ | OClose _ | OTimer _ | OWake _ => true | _ => false end.

(** The steps of children's goroutines that a list of operations takes. *)
Fixpoint childSteps (s : Supervisor) (ops : list supOp) : nat :=
  match ops with
  | [] => 0
  | o :: ops =>
      match sup_step s o with
      | Some s' => (if childStep o then 1 else 0) + childSteps s' ops
      | None => childSteps s ops
      end
  end.

Lemma sum_alter f t l k : l !! t = Some k ->
  (sum_list (map (fun k => stepsLeft (tk_phase k)) (alter f t l)) + stepsLeft (tk_phase k) =
   sum_list (map (fun k => stepsLeft (tk_phase k)) l) + stepsLeft (tk_phase (f k)))%nat.
Proof.
  revert t. induction l as [|x l IH]; intros [|t]; cbn; try done; [intros [= ->]; lia|].
  intros H. specialize (IH t H). unfold alter in *. lia.
Qed.

Lemma allLeft_goTo t p s k : su_tokens s !! t = Some k -> (stepsLeft p < stepsLeft (tk_phase k))%nat -> (allLeft (goTo t p s) < allLeft s)%nat.
Proof. intros Hl Hp. unfold allLeft. pose proof (sum_alter (setPhase p) t (su_tokens s) k Hl) as E. cbn in *. lia. Qed.

Lemma shutdown_step s o s' : su_ctx s = true -> (forall c p, o <> OAdd c p) -> sup_step s o = Some s' ->
  su_ctx s' = true /\ length (su_tokens s') = length (su_tokens s) /\ ((if childStep o then 1 else 0) + allLeft s' <= allLeft s)%nat.
Proof.
  intros Hctx Hadd.
  assert (Hforget : forall t k p, su_tokens s !! t = Some k -> (stepsLeft p < stepsLeft (tk_phase k))%nat ->
    su_ctx (goTo t p (sup_forget t k s)) = true /\ length (su_tokens (goTo t p (sup_forget t k s))) = length (su_tokens s) /\ (1 + allLeft (goTo t p (sup_forget t k s)) <= allLeft s)%nat).
  { intros t k p Hl Hp. destruct (forget_tokens t k s) as [E1 E2]. split; [by cbn; rewrite E2|].
    split; [cbn; by rewrite length_alter, E1|]. pose proof (allLeft_goTo t p s k Hl Hp). unfold allLeft in *. cbn in *. rewrite E1. lia. }
  assert (Hgo : forall t k p o1, su_tokens s !! t = Some k -> (stepsLeft p < stepsLeft (tk_phase k))%nat ->
    su_ctx (setOpen o1 (goTo t p s)) = true /\ length (su_tokens (setOpen o1 (goTo t p s))) = length (su_tokens s) /\ (1 + allLeft (setOpen o1 (goTo t p s)) <= allLeft s)%nat).
  { intros t k p o1 Hl Hp. split; [done|]. split; [cbn; by rewrite length_alter|]. pose proof (allLeft_goTo t p s k Hl Hp). unfold allLeft in *. cbn in *. lia. }
  destruct o as [counted policy|t|t| | |t|t|t|t|t|t]; cbn [sup_step childStep];
    try (destruct (su_tokens s !! t) as [k|] eqn:Hl; [|done]).
  - by destruct (Hadd counted policy).
  - intros [= <-]. split; [done|]. split; [cbn; by rewrite length_alter|]. unfold allLeft, tok_cancel. cbn [su_tokens].
    pose proof (sum_alter (fun k => mkToken (tk_counted k) (tk_policy k) true (tk_phase k)) t (su_tokens s) k Hl) as E. cbn in *. lia.
  - destruct (tk_phase k), (tk_cancelled k); try done. intros [= <-]. destruct (forget_tokens t k s) as [E1 E2]. unfold allLeft. by rewrite E1, E2.
  - intros [= <-]. done.
  - intros [= <-]. done.
  - destruct (tk_phase k) eqn:E; try done. intros [= <-]. apply (Hgo t k); [done|]. rewrite E. cbn. lia.
  - destruct (tk_phase k) eqn:E; try done. intros [= <-]. unfold afterServe, ctxErr. rewrite Hctx. cbn [orb]. apply (Hgo t k); [done|]. rewrite E. cbn. lia.
  - destruct (tk_phase k) eqn:E; try done. intros [= <-]. apply Hforget; [done|]. rewrite E. cbn. lia.
  - destruct (tk_phase k) eqn:E; try done. intros [= <-]. rewrite setOpen_goTo. apply (Hgo t k); [done|]. rewrite E. cbn. lia.
  - destruct (tk_phase k) eqn:E; try done. intros [= <-]. rewrite setOpen_goTo. apply (Hgo t k); [done|]. rewrite E. cbn. lia.
  - destruct (tk_phase k) eqn:E; try done. destruct (ctxErr s k); [|done]. intros [= <-]. rewrite setOpen_goTo. apply (Hgo t k); [done|]. rewrite E. cbn. lia.
Qed.

Lemma shutdown_run ops s : su_ctx s = true -> (forall c p, OAdd c p ∉ ops) ->
  su_ctx (fold_left sup_next ops s) = true /\ length (su_tokens (fold_left sup_next ops s)) = length (su_tokens s) /\
  (childSteps s ops + allLeft (fold_left sup_next ops s) <= allLeft s)%nat.
Proof.
  revert s. induction ops as [|o ops IH]; intros s Hctx Hadd; [cbn; split; [done|]; split; [done|lia]|]. cbn [fold_left childSteps]. unfold sup_next at 2 4 6.
  assert (Hadd' : forall c p, OAdd c p ∉ ops) by (intros c p Hin; apply (Hadd c p), elem_of_cons; by right).
  destruct (sup_step s o) as [s'|] eqn:E; cbn [default from_option id]; [|by apply IH].
  apply shutdown_step in E as (H1 & H2 & H3); [|done|intros c p ->; apply (Hadd c p), elem_of_cons; by left].
  destruct (IH s' H1 Hadd') as (H4 & H5 & H6). split; [done|]. split; [congruence|]. lia.
Qed.

Lemma stepsLeft_le p : (stepsLeft p <= 4)%nat.
Proof. destruct p; cbn; lia. Qed.

(** C15. After the context of the supervisor is cancelled: the goroutines of the children take at most four steps each, in any order and
    whatever callers do besides adding children; as long as one has not ended it can take a step, so that when none can all have
    ended and [Wait] returns. *)
Theorem sup_shutdown ops1 ops2 : (forall c p, OAdd c p ∉ ops2) ->
  let s := sup_run (ops1 ++ [OShutdown]) in
  let s' := fold_left sup_next ops2 s in
  (childSteps s ops2 <= 4 * length (su_tokens s))%nat /\
  (forall t k, su_tokens s' !! t = Some k -> tk_phase k <> Done -> exists o s2, childStep o = true /\ sup_step s' o = Some s2).
Proof.
  intros Hadd s s'. assert (Hctx : su_ctx s = true) by (unfold s, sup_run; by rewrite fold_left_app).
  destruct (shutdown_run ops2 s Hctx Hadd) as (H1 & H2 & H3). fold s' in H1, H2, H3. split.
  - assert (allLeft s <= 4 * length (su_tokens s))%nat; [|lia]. unfold allLeft. clear. induction (su_tokens s) as [|k l IH]; [done|].
    cbn. pose proof (stepsLeft_le (tk_phase k)). lia.
  - intros t k Hl Hp. destruct (tk_phase k) as [n b|n b|n b| | |] eqn:E; [exists (OBegin t)|exists (OExit t)|exists (OTimer t)|exists (OForget t)|exists (OClose t)|done];
      eexists; (split; [done|]); cbn [sup_step]; by rewrite Hl, E.
Qed.

(** ** Examples *)

(** A child that fails at once, beside one that is dropped. *)
Definition exFailures : list supOp :=
  [OBegin 1; OExit 1; OBegin 0; OExit 0; OTimer 1; OForget 0; OBegin 1; OExit 1; OClose 0]%nat.

Lemma sup_restarts_witness :
  let s := sup_run ([OAdd true RemoveOnExit] ++ OAdd true Restart :: exFailures) in
  (1%nat ∈ su_children s) /\ tk_phase <$> su_tokens s !! 1%nat = Some (Waiting 2 200).
Proof.
  cbv zeta. split; [|vm_compute; reflexivity].
  refine (proj1 (sup_restarts [OAdd true RemoveOnExit] true exFailures _ _)); reflexivity.
Defined.

Lemma sup_shutdown_witness :
  let s := sup_run ([OAdd true Restart; OBegin 0%nat] ++ [OShutdown]) in
  (childSteps s [OExit 0; OClose 0]%nat <= 4)%nat /\ tk_phase <$> su_tokens (fold_left sup_next [OExit 0; OClose 0]%nat s) !! 0%nat = Some Done.
Proof.
  cbv zeta. split; [|vm_compute; reflexivity].
  refine (proj1 (sup_shutdown [OAdd true Restart; OBegin 0%nat] [OExit 0; OClose 0]%nat _)).
  intros c p. rewrite !elem_of_cons. intros [?|[?|?%not_elem_of_nil]]; discriminate || done.
Defined.

(** When the context is cancelled as a restart is due, either case of the [select] may be taken: the child is served again. *)
Lemma served_after_shutdown :
  tk_phase <$> su_tokens (sup_run [OAdd true Restart; OBegin 0; OExit 0; OShutdown; OTimer 0; OBegin 0]%nat) !! 0%nat = Some (Serving 2 200).
Proof. by vm_compute. Qed.

(** The context of a child that ended on its own stays with the parent context: nobody cancels it. *)
Lemma contexts_pile_up :
  let stream t := [OAdd false RemoveOnExit; OBegin t; OExit t; OForget t; OClose t] in
  let s := sup_run (stream 0 ++ stream 1 ++ stream 2)%nat in
  size (su_children s) = 0%nat /\ size (su_kids s) = 3%nat.
Proof. by vm_compute. Qed.
