(* ===== verification/ComposeDoc.v ===== *)
(** * ComposeDoc: the Compose document and its merge (pkg/compose/types.go, merge.go)

    The typed document of a Compose file, the record of which keys the file wrote and with which tags
    ([yamlMeta]), and the field-by-field merge of a later document onto an earlier one, which several
    files, [extends] and [include] share.  A nil map and an empty one, and a nil slice and an empty one, are the same value
    here except where the code asks for nil.  The [x-cornus-*] blocks are copied as a whole, so their types are
    parameters ([Blocks]).  What the merge computes over several files is in ComposeMerge.v. *)
From Stdlib Require Import ZArith Lia.
From Stdlib.Strings Require Import Byte.
From stdpp Require Import base list gmap.
From S2P Require Import Prelude GoStd.
Open Scope Z_scope.
Set Warnings "-register-all".

(** ** Data *)

Record BuildSecret := mkBuildSecret {
  bs_Source : bytes; bs_Target : bytes; bs_UID : bytes; bs_GID : bytes; bs_Mode : bytes;
}.

Record ConfigRef := mkConfigRef {
  cr_Source : bytes; cr_Target : bytes; cr_UID : bytes; cr_GID : bytes; cr_Mode : bytes;
}.

Record SecretRef := mkSecretRef {
  sr_Source : bytes; sr_Target : bytes; sr_UID : bytes; sr_GID : bytes; sr_Mode : bytes;
}.

Record EnvFileRef := mkEnvFileRef {
  ef_Path : bytes; ef_Required : bool;
}.

Record PortDoc := mkPortDoc {
  po_Host : Z; po_Container : Z; po_Protocol : bytes; po_HostIP : bytes;
}.

Record VolumeDoc := mkVolumeDoc {
  vo_Source : bytes; vo_Target : bytes; vo_ReadOnly : bool; vo_SELinux : bytes; vo_Named : bool; vo_NoCreateHostPath : bool;
}.

Record Dependency := mkDependency {
  dep_Service : bytes; dep_Condition : bytes; dep_Required : bool; dep_Restart : bool;
}.

Record UlimitDoc := mkUlimitDoc {
  ul_Name : bytes; ul_Soft : Z; ul_Hard : Z;
}.

Record ServiceNetwork := mkServiceNetwork {
  sn_Name : bytes; sn_Aliases : list bytes; sn_IPv4Address : bytes; sn_IPv6Address : bytes; sn_MacAddress : bytes;
  sn_Priority : Z;
}.

Record ExtendsRef := mkExtendsRef {
  ex_Service : bytes; ex_File : bytes;
}.

Record ProviderOption := mkProviderOption {
  pvo_Key : bytes; pvo_Values : list bytes;
}.

Record ProviderDoc := mkProviderDoc {
  pv_Type : bytes; pv_Options : list ProviderOption;
}.

Record IPAMConfig := mkIPAMConfig {
  ipc_Subnet : bytes; ipc_Gateway : bytes; ipc_IPRange : bytes;
}.

Record IPAM := mkIPAM {
  ipam_Config : list IPAMConfig;
}.

#[export] Instance BuildSecret_eq_dec : EqDecision BuildSecret := ltac:(solve_decision).
#[export] Instance ConfigRef_eq_dec : EqDecision ConfigRef := ltac:(solve_decision).
#[export] Instance SecretRef_eq_dec : EqDecision SecretRef := ltac:(solve_decision).
#[export] Instance EnvFileRef_eq_dec : EqDecision EnvFileRef := ltac:(solve_decision).
#[export] Instance PortDoc_eq_dec : EqDecision PortDoc := ltac:(solve_decision).
#[export] Instance VolumeDoc_eq_dec : EqDecision VolumeDoc := ltac:(solve_decision).
#[export] Instance Dependency_eq_dec : EqDecision Dependency := ltac:(solve_decision).

Record BuildDoc := mkBuildDoc {
  bd_Context : bytes; bd_Dockerfile : bytes; bd_Args : gmap bytes bytes; bd_Target : bytes; bd_CacheFrom : list bytes;
  bd_AdditionalContexts : gmap bytes bytes; bd_Secrets : list BuildSecret; bd_SSH : list bytes; bd_Labels : gmap bytes bytes;
  bd_NoCache : bool; bd_Pull : bool; bd_Platforms : list bytes; bd_Tags : list bytes; bd_Network : bytes;
  bd_CacheTo : list bytes; bd_ExtraHosts : list bytes; bd_ShmSize : bytes; bd_DockerfileInline : bytes;
}.

Record ResourceLimits := mkResourceLimits {
  rl_Cpus : bytes; rl_Memory : bytes;
}.

Record DeployResources := mkDeployResources {
  dr_Limits : option ResourceLimits; dr_Reservations : option ResourceLimits;
}.

Record DeployRestartPolicy := mkDeployRestartPolicy {
  rp_Condition : bytes; rp_Delay : bytes; rp_MaxAttempts : Z; rp_Window : bytes;
}.

Record UpdateConfig := mkUpdateConfig {
  uc_Parallelism : Z; uc_Order : bytes; uc_Delay : bytes; uc_Monitor : bytes; uc_MaxFailureRatio : bytes;
}.

Record DeployDoc := mkDeployDoc {
  dy_Replicas : Z; dy_Resources : option DeployResources; dy_RestartPolicy : option DeployRestartPolicy;
  dy_Labels : gmap bytes bytes; dy_UpdateConfig : option UpdateConfig;
}.

Record HealthDoc := mkHealthDoc {
  hc_Test : list bytes; hc_Interval : bytes; hc_Timeout : bytes; hc_Retries : Z; hc_StartPeriod : bytes;
  hc_StartInterval : bytes; hc_Disable : bool;
}.

Record SecretDefDocument := mkSecretDefDocument {
  sec_File : bytes; sec_Environment : bytes; sec_External : bool; sec_Name : bytes;
}.

Record ConfigDefDocument := mkConfigDefDocument {
  cfg_File : bytes; cfg_Content : bytes; cfg_Environment : bytes; cfg_External : bool; cfg_Name : bytes;
}.

Record VolumeDefDocument := mkVolumeDefDocument {
  vol_External : bool; vol_Name : bytes; vol_Driver : bytes; vol_DriverOpts : gmap bytes bytes; vol_Labels : gmap bytes bytes;
}.

Record NetworkDefDocument := mkNetworkDefDocument {
  net_External : bool; net_Name : bytes; net_Driver : bytes; net_DriverOpts : gmap bytes bytes; net_IPAM : option IPAM;
  net_Attachable : bool; net_Internal : bool; net_EnableIPv6 : bool; net_Labels : gmap bytes bytes;
}.

Record IncludeRef := mkIncludeRef {
  inc_Path : list bytes; inc_ProjectDirectory : bytes; inc_EnvFile : list bytes;
}.

(** The cohesive [x-cornus-*] blocks, which loading copies without looking into them. *)
Class Blocks := { EgressDocument : Type; IngressDocument : Type; TelemetryDocument : Type; CredentialsDocument : Type }.

Record ServiceDocument `{Blocks} := mkServiceDocument {
  sd_Image : bytes; sd_Build : option BuildDoc; sd_Entrypoint : list bytes; sd_Command : list bytes;
  sd_Environment : gmap bytes bytes; sd_EnvFile : list EnvFileRef; sd_Ports : list PortDoc; sd_Expose : list Z;
  sd_Volumes : list VolumeDoc; sd_Networks : list ServiceNetwork; sd_Restart : bytes; sd_DependsOn : list Dependency;
  sd_Deploy : option DeployDoc; sd_Healthcheck : option HealthDoc; sd_ContainerName : bytes; sd_Privileged : bool;
  sd_User : bytes; sd_WorkingDir : bytes; sd_Hostname : bytes; sd_Labels : gmap bytes bytes; sd_StopSignal : bytes;
  sd_StopGracePeriod : bytes; sd_Init : option bool; sd_TTY : bool; sd_StdinOpen : bool; sd_ReadOnly : bool;
  sd_CapAdd : list bytes; sd_CapDrop : list bytes; sd_SecurityOpt : list bytes; sd_GroupAdd : list bytes;
  sd_Sysctls : gmap bytes bytes; sd_ExtraHosts : list bytes; sd_DNS : list bytes; sd_DNSSearch : list bytes;
  sd_DNSOpt : list bytes; sd_Ulimits : list UlimitDoc; sd_Tmpfs : list bytes; sd_Devices : list bytes; sd_ShmSize : bytes;
  sd_PID : bytes; sd_IPC : bytes; sd_MemLimit : bytes; sd_CPUs : bytes; sd_Configs : list ConfigRef;
  sd_Secrets : list SecretRef; sd_Profiles : list bytes; sd_Extends : option ExtendsRef; sd_Provider : option ProviderDoc;
  sd_Egress : option EgressDocument; sd_Ingress : option IngressDocument; sd_AgentForward : bool;
  sd_Telemetry : option TelemetryDocument; sd_Credentials : option CredentialsDocument; sd_Shells : list bytes;
}.

(** A nil [Shells] differs from an empty one: only a list that was written replaces the one of an earlier file. *)
Record ProjectDocument `{Blocks} := mkProjectDocument {
  pd_Name : bytes; pd_Services : gmap bytes ServiceDocument; pd_Secrets : gmap bytes SecretDefDocument;
  pd_Configs : gmap bytes ConfigDefDocument; pd_Volumes : gmap bytes VolumeDefDocument;
  pd_Networks : gmap bytes NetworkDefDocument; pd_Include : list IncludeRef; pd_Egress : option EgressDocument;
  pd_Ingress : option IngressDocument; pd_Telemetry : option TelemetryDocument; pd_Credentials : option CredentialsDocument;
  pd_Shells : option (list bytes);
}.

Arguments mkServiceDocument {_}.
Arguments mkProjectDocument {_}.

(** The presence and the tags of one node; a nil [*yamlMeta] is [None]. *)
Inductive yamlMeta : Type := mkMeta { ym_reset : bool; ym_override : bool; ym_fields : gmap bytes yamlMeta }.

Definition meta_at (m : option yamlMeta) (key : bytes) : option yamlMeta := m ← m; ym_fields m !! key.
Definition meta_has (m : option yamlMeta) (key : bytes) : bool := bool_decide (meta_at m key <> None).
Definition cleared (m : option yamlMeta) : bool := match m with Some m => ym_reset m | None => false end.
Definition replaced (m : option yamlMeta) : bool := match m with Some m => ym_override m | None => false end.

(** ** The rules for one field *)

(** Go's zero value of a comparable type. *)
Class GoZero (T : Type) := goZero : T.
#[export] Instance bytes_zero : GoZero bytes := [].
#[export] Instance bool_zero : GoZero bool := false.
#[export] Instance Z_zero : GoZero Z := 0.

Definition overrideScalar {T} `{EqDecision T, GoZero T} (m : option yamlMeta) (key : bytes) (base override : T) : T :=
  if meta_has m key then override else if bool_decide (override <> goZero) then override else base.

Definition overridePtr {T} (m : option yamlMeta) (key : bytes) (base override : option T) : option T :=
  if meta_has m key then override else match override with Some _ => override | None => base end.

Definition overrideWhole {T} (m : option yamlMeta) (key : bytes) (base override : list T) : list T :=
  if meta_has m key then override else match override with _ :: _ => override | [] => base end.

(** [seen] holds what [out] holds. *)
Definition appendNew {T} `{EqDecision T} (out : list T) (v : T) : list T := if bool_decide (v ∈ out) then out else out ++ [v].
Definition appendDedup {T} `{EqDecision T} (base override : list T) : list T := foldl appendNew (foldl appendNew [] base) override.

Definition mergeSeq {T} `{EqDecision T} (m : option yamlMeta) (key : bytes) (base override : list T) : list T :=
  let c := meta_at m key in
  if cleared c then [] else if replaced c then appendDedup [] override else appendDedup base override.

Definition mergeStringMap (base override : gmap bytes bytes) : gmap bytes bytes := override ∪ base.

Definition mergeMapping (m : option yamlMeta) (key : bytes) (base override : gmap bytes bytes) : gmap bytes bytes :=
  let c := meta_at m key in
  if cleared c then ∅ else if replaced c then mergeStringMap ∅ override else mergeStringMap base override.

(** The loops over [idx]: an entry of a known name updates the one at its index, another is appended. *)
Section MergeNamed.
  Context {A : Type} (name : A -> bytes) (upd : A -> A -> A).

Definition indexNames (l : list A) : gmap bytes nat := foldl (fun idx '(i, x) => <[name x := i]> idx) ∅ (imap pair l).

Definition mergeNamed1 (st : list A * gmap bytes nat) (x : A) : list A * gmap bytes nat :=
  match st.2 !! name x with
  | Some i => (alter (fun y => upd y x) i st.1, st.2)
  | None => (st.1 ++ [x], <[name x := length st.1]> st.2)
  end.

Definition mergeNamed (m : option yamlMeta) (base override : list A) : list A :=
  if cleared m then [] else
  let base := if replaced m then [] else base in
  (foldl mergeNamed1 (base, indexNames base) override).1.
End MergeNamed.

Definition mergeAttachment (m : option yamlMeta) (o sn : ServiceNetwork) : ServiceNetwork :=
  let nm := meta_at m (sn_Name sn) in {|
    sn_Name := sn_Name o;
    sn_Aliases := mergeSeq nm (go "aliases") (sn_Aliases o) (sn_Aliases sn);
    sn_IPv4Address := overrideScalar nm (go "ipv4_address") (sn_IPv4Address o) (sn_IPv4Address sn);
    sn_IPv6Address := overrideScalar nm (go "ipv6_address") (sn_IPv6Address o) (sn_IPv6Address sn);
    sn_MacAddress := overrideScalar nm (go "mac_address") (sn_MacAddress o) (sn_MacAddress sn);
    sn_Priority := overrideScalar nm (go "priority") (sn_Priority o) (sn_Priority sn);
  |}.

Definition mergeServiceNetworks (m : option yamlMeta) : list ServiceNetwork -> list ServiceNetwork -> list ServiceNetwork :=
  mergeNamed sn_Name (mergeAttachment m) m.
Definition mergeUlimits (m : option yamlMeta) : list UlimitDoc -> list UlimitDoc -> list UlimitDoc :=
  mergeNamed ul_Name (fun _ u => u) m.
Definition mergeDependsOn (m : option yamlMeta) : list Dependency -> list Dependency -> list Dependency :=
  mergeNamed dep_Service (fun _ d => d) m.

(** ** The rules for the nested blocks *)

(** What the merges of pointer-shaped blocks do before they look at the fields. *)
Definition mergeBlock {A} (m : option yamlMeta) (base override : option A) (fields : A -> A -> A) : option A :=
  if cleared m then None
  else if replaced m then override
  else match base, override with
       | None, _ => override
       | _, None => base
       | Some b, Some o => Some (fields b o)
       end.

Definition mergeBuild (m : option yamlMeta) (base0 override0 : option BuildDoc) : option BuildDoc :=
  mergeBlock m base0 override0 (fun base override => {|
    bd_Context := overrideScalar m (go "context") (bd_Context base) (bd_Context override);
    bd_Dockerfile := overrideScalar m (go "dockerfile") (bd_Dockerfile base) (bd_Dockerfile override);
    bd_Args := mergeMapping m (go "args") (bd_Args base) (bd_Args override);
    bd_Target := overrideScalar m (go "target") (bd_Target base) (bd_Target override);
    bd_CacheFrom := mergeSeq m (go "cache_from") (bd_CacheFrom base) (bd_CacheFrom override);
    bd_AdditionalContexts := mergeMapping m (go "additional_contexts") (bd_AdditionalContexts base) (bd_AdditionalContexts override);
    bd_Secrets := mergeSeq m (go "secrets") (bd_Secrets base) (bd_Secrets override);
    bd_SSH := mergeSeq m (go "ssh") (bd_SSH base) (bd_SSH override);
    bd_Labels := mergeMapping m (go "labels") (bd_Labels base) (bd_Labels override);
    bd_NoCache := overrideScalar m (go "no_cache") (bd_NoCache base) (bd_NoCache override);
    bd_Pull := overrideScalar m (go "pull") (bd_Pull base) (bd_Pull override);
    bd_Platforms := mergeSeq m (go "platforms") (bd_Platforms base) (bd_Platforms override);
    bd_Tags := mergeSeq m (go "tags") (bd_Tags base) (bd_Tags override);
    bd_Network := overrideScalar m (go "network") (bd_Network base) (bd_Network override);
    bd_CacheTo := mergeSeq m (go "cache_to") (bd_CacheTo base) (bd_CacheTo override);
    bd_ExtraHosts := mergeSeq m (go "extra_hosts") (bd_ExtraHosts base) (bd_ExtraHosts override);
    bd_ShmSize := overrideScalar m (go "shm_size") (bd_ShmSize base) (bd_ShmSize override);
    bd_DockerfileInline := overrideScalar m (go "dockerfile_inline") (bd_DockerfileInline base) (bd_DockerfileInline override);
  |}).

Definition mergeResourceLimits (m : option yamlMeta) (base0 override0 : option ResourceLimits) : option ResourceLimits :=
  mergeBlock m base0 override0 (fun base override => {|
    rl_Cpus := overrideScalar m (go "cpus") (rl_Cpus base) (rl_Cpus override);
    rl_Memory := overrideScalar m (go "memory") (rl_Memory base) (rl_Memory override);
  |}).

Definition mergeDeployResources (m : option yamlMeta) (base0 override0 : option DeployResources) : option DeployResources :=
  mergeBlock m base0 override0 (fun base override => {|
    dr_Limits := mergeResourceLimits (meta_at m (go "limits")) (dr_Limits base) (dr_Limits override);
    dr_Reservations := mergeResourceLimits (meta_at m (go "reservations")) (dr_Reservations base) (dr_Reservations override);
  |}).

Definition mergeDeployRestartPolicy (m : option yamlMeta) (base0 override0 : option DeployRestartPolicy) : option DeployRestartPolicy :=
  mergeBlock m base0 override0 (fun base override => {|
    rp_Condition := overrideScalar m (go "condition") (rp_Condition base) (rp_Condition override);
    rp_Delay := overrideScalar m (go "delay") (rp_Delay base) (rp_Delay override);
    rp_MaxAttempts := overrideScalar m (go "max_attempts") (rp_MaxAttempts base) (rp_MaxAttempts override);
    rp_Window := overrideScalar m (go "window") (rp_Window base) (rp_Window override);
  |}).

Definition mergeUpdateConfig (m : option yamlMeta) (base0 override0 : option UpdateConfig) : option UpdateConfig :=
  mergeBlock m base0 override0 (fun base override => {|
    uc_Parallelism := overrideScalar m (go "parallelism") (uc_Parallelism base) (uc_Parallelism override);
    uc_Order := overrideScalar m (go "order") (uc_Order base) (uc_Order override);
    uc_Delay := overrideScalar m (go "delay") (uc_Delay base) (uc_Delay override);
    uc_Monitor := overrideScalar m (go "monitor") (uc_Monitor base) (uc_Monitor override);
    uc_MaxFailureRatio := overrideScalar m (go "max_failure_ratio") (uc_MaxFailureRatio base) (uc_MaxFailureRatio override);
  |}).

Definition mergeDeploy (m : option yamlMeta) (base0 override0 : option DeployDoc) : option DeployDoc :=
  mergeBlock m base0 override0 (fun base override => {|
    dy_Replicas := overrideScalar m (go "replicas") (dy_Replicas base) (dy_Replicas override);
    dy_Resources := mergeDeployResources (meta_at m (go "resources")) (dy_Resources base) (dy_Resources override);
    dy_RestartPolicy := mergeDeployRestartPolicy (meta_at m (go "restart_policy")) (dy_RestartPolicy base) (dy_RestartPolicy override);
    dy_Labels := mergeMapping m (go "labels") (dy_Labels base) (dy_Labels override);
    dy_UpdateConfig := mergeUpdateConfig (meta_at m (go "update_config")) (dy_UpdateConfig base) (dy_UpdateConfig override);
  |}).

Definition mergeHealthcheck (m : option yamlMeta) (base0 override0 : option HealthDoc) : option HealthDoc :=
  mergeBlock m base0 override0 (fun base override => {|
    hc_Test := overrideWhole m (go "test") (hc_Test base) (hc_Test override);
    hc_Interval := overrideScalar m (go "interval") (hc_Interval base) (hc_Interval override);
    hc_Timeout := overrideScalar m (go "timeout") (hc_Timeout base) (hc_Timeout override);
    hc_Retries := overrideScalar m (go "retries") (hc_Retries base) (hc_Retries override);
    hc_StartPeriod := overrideScalar m (go "start_period") (hc_StartPeriod base) (hc_StartPeriod override);
    hc_StartInterval := overrideScalar m (go "start_interval") (hc_StartInterval base) (hc_StartInterval override);
    hc_Disable := overrideScalar m (go "disable") (hc_Disable base) (hc_Disable override);
  |}).

(** ** The rules for the top-level definitions and for services *)

Definition mergeSecretDef (m : option yamlMeta) (base override : SecretDefDocument) : SecretDefDocument :=
  if replaced m then override else {|
    sec_File := overrideScalar m (go "file") (sec_File base) (sec_File override);
    sec_Environment := overrideScalar m (go "environment") (sec_Environment base) (sec_Environment override);
    sec_External := overrideScalar m (go "external") (sec_External base) (sec_External override);
    sec_Name := overrideScalar m (go "name") (sec_Name base) (sec_Name override);
  |}.

Definition mergeConfigDef (m : option yamlMeta) (base override : ConfigDefDocument) : ConfigDefDocument :=
  if replaced m then override else {|
    cfg_File := overrideScalar m (go "file") (cfg_File base) (cfg_File override);
    cfg_Content := overrideScalar m (go "content") (cfg_Content base) (cfg_Content override);
    cfg_Environment := overrideScalar m (go "environment") (cfg_Environment base) (cfg_Environment override);
    cfg_External := overrideScalar m (go "external") (cfg_External base) (cfg_External override);
    cfg_Name := overrideScalar m (go "name") (cfg_Name base) (cfg_Name override);
  |}.

Definition mergeVolumeDef (m : option yamlMeta) (base override : VolumeDefDocument) : VolumeDefDocument :=
  if replaced m then override else {|
    vol_External := overrideScalar m (go "external") (vol_External base) (vol_External override);
    vol_Name := overrideScalar m (go "name") (vol_Name base) (vol_Name override);
    vol_Driver := overrideScalar m (go "driver") (vol_Driver base) (vol_Driver override);
    vol_DriverOpts := mergeMapping m (go "driver_opts") (vol_DriverOpts base) (vol_DriverOpts override);
    vol_Labels := mergeMapping m (go "labels") (vol_Labels base) (vol_Labels override);
  |}.

Definition mergeNetworkDef (m : option yamlMeta) (base override : NetworkDefDocument) : NetworkDefDocument :=
  if replaced m then override else {|
    net_External := overrideScalar m (go "external") (net_External base) (net_External override);
    net_Name := overrideScalar m (go "name") (net_Name base) (net_Name override);
    net_Driver := overrideScalar m (go "driver") (net_Driver base) (net_Driver override);
    net_DriverOpts := mergeMapping m (go "driver_opts") (net_DriverOpts base) (net_DriverOpts override);
    net_IPAM := overridePtr m (go "ipam") (net_IPAM base) (net_IPAM override);
    net_Attachable := overrideScalar m (go "attachable") (net_Attachable base) (net_Attachable override);
    net_Internal := overrideScalar m (go "internal") (net_Internal base) (net_Internal override);
    net_EnableIPv6 := overrideScalar m (go "enable_ipv6") (net_EnableIPv6 base) (net_EnableIPv6 override);
    net_Labels := mergeMapping m (go "labels") (net_Labels base) (net_Labels override);
  |}.

Definition mergeService `{Blocks} (m : option yamlMeta) (base override : ServiceDocument) : ServiceDocument := {|
  sd_Image := overrideScalar m (go "image") (sd_Image base) (sd_Image override);
  sd_Build := mergeBuild (meta_at m (go "build")) (sd_Build base) (sd_Build override);
  sd_Entrypoint := overrideWhole m (go "entrypoint") (sd_Entrypoint base) (sd_Entrypoint override);
  sd_Command := overrideWhole m (go "command") (sd_Command base) (sd_Command override);
  sd_Environment := mergeMapping m (go "environment") (sd_Environment base) (sd_Environment override);
  sd_EnvFile := mergeSeq m (go "env_file") (sd_EnvFile base) (sd_EnvFile override);
  sd_Ports := mergeSeq m (go "ports") (sd_Ports base) (sd_Ports override);
  sd_Expose := mergeSeq m (go "expose") (sd_Expose base) (sd_Expose override);
  sd_Volumes := mergeSeq m (go "volumes") (sd_Volumes base) (sd_Volumes override);
  sd_Networks := mergeServiceNetworks (meta_at m (go "networks")) (sd_Networks base) (sd_Networks override);
  sd_Restart := overrideScalar m (go "restart") (sd_Restart base) (sd_Restart override);
  sd_DependsOn := mergeDependsOn (meta_at m (go "depends_on")) (sd_DependsOn base) (sd_DependsOn override);
  sd_Deploy := mergeDeploy (meta_at m (go "deploy")) (sd_Deploy base) (sd_Deploy override);
  sd_Healthcheck := mergeHealthcheck (meta_at m (go "healthcheck")) (sd_Healthcheck base) (sd_Healthcheck override);
  sd_ContainerName := overrideScalar m (go "container_name") (sd_ContainerName base) (sd_ContainerName override);
  sd_Privileged := overrideScalar m (go "privileged") (sd_Privileged base) (sd_Privileged override);
  sd_User := overrideScalar m (go "user") (sd_User base) (sd_User override);
  sd_WorkingDir := overrideScalar m (go "working_dir") (sd_WorkingDir base) (sd_WorkingDir override);
  sd_Hostname := overrideScalar m (go "hostname") (sd_Hostname base) (sd_Hostname override);
  sd_Labels := mergeMapping m (go "labels") (sd_Labels base) (sd_Labels override);
  sd_StopSignal := overrideScalar m (go "stop_signal") (sd_StopSignal base) (sd_StopSignal override);
  sd_StopGracePeriod := overrideScalar m (go "stop_grace_period") (sd_StopGracePeriod base) (sd_StopGracePeriod override);
  sd_Init := overridePtr m (go "init") (sd_Init base) (sd_Init override);
  sd_TTY := overrideScalar m (go "tty") (sd_TTY base) (sd_TTY override);
  sd_StdinOpen := overrideScalar m (go "stdin_open") (sd_StdinOpen base) (sd_StdinOpen override);
  sd_ReadOnly := overrideScalar m (go "read_only") (sd_ReadOnly base) (sd_ReadOnly override);
  sd_CapAdd := mergeSeq m (go "cap_add") (sd_CapAdd base) (sd_CapAdd override);
  sd_CapDrop := mergeSeq m (go "cap_drop") (sd_CapDrop base) (sd_CapDrop override);
  sd_SecurityOpt := mergeSeq m (go "security_opt") (sd_SecurityOpt base) (sd_SecurityOpt override);
  sd_GroupAdd := mergeSeq m (go "group_add") (sd_GroupAdd base) (sd_GroupAdd override);
  sd_Sysctls := mergeMapping m (go "sysctls") (sd_Sysctls base) (sd_Sysctls override);
  sd_ExtraHosts := mergeSeq m (go "extra_hosts") (sd_ExtraHosts base) (sd_ExtraHosts override);
  sd_DNS := mergeSeq m (go "dns") (sd_DNS base) (sd_DNS override);
  sd_DNSSearch := mergeSeq m (go "dns_search") (sd_DNSSearch base) (sd_DNSSearch override);
  sd_DNSOpt := mergeSeq m (go "dns_opt") (sd_DNSOpt base) (sd_DNSOpt override);
  sd_Ulimits := mergeUlimits (meta_at m (go "ulimits")) (sd_Ulimits base) (sd_Ulimits override);
  sd_Tmpfs := mergeSeq m (go "tmpfs") (sd_Tmpfs base) (sd_Tmpfs override);
  sd_Devices := mergeSeq m (go "devices") (sd_Devices base) (sd_Devices override);
  sd_ShmSize := overrideScalar m (go "shm_size") (sd_ShmSize base) (sd_ShmSize override);
  sd_PID := overrideScalar m (go "pid") (sd_PID base) (sd_PID override);
  sd_IPC := overrideScalar m (go "ipc") (sd_IPC base) (sd_IPC override);
  sd_MemLimit := overrideScalar m (go "mem_limit") (sd_MemLimit base) (sd_MemLimit override);
  sd_CPUs := overrideScalar m (go "cpus") (sd_CPUs base) (sd_CPUs override);
  sd_Configs := mergeSeq m (go "configs") (sd_Configs base) (sd_Configs override);
  sd_Secrets := mergeSeq m (go "secrets") (sd_Secrets base) (sd_Secrets override);
  sd_Profiles := mergeSeq m (go "profiles") (sd_Profiles base) (sd_Profiles override);
  sd_Extends := sd_Extends base;
  sd_Provider := overridePtr m (go "provider") (sd_Provider base) (sd_Provider override);
  sd_Egress := overridePtr m (go "x-cornus-egress") (sd_Egress base) (sd_Egress override);
  sd_Ingress := overridePtr m (go "x-cornus-ingress") (sd_Ingress base) (sd_Ingress override);
  sd_AgentForward := overrideScalar m (go "x-cornus-agent-forward") (sd_AgentForward base) (sd_AgentForward override);
  sd_Telemetry := overridePtr m (go "x-cornus-telemetry") (sd_Telemetry base) (sd_Telemetry override);
  sd_Credentials := overridePtr m (go "x-cornus-credentials") (sd_Credentials base) (sd_Credentials override);
  sd_Shells := overrideWhole m (go "x-cornus-shells") (sd_Shells base) (sd_Shells override);
|}.
