(* ===== verification/ComposeMerge.v ===== *)
(** * ComposeMerge: what merging several Compose files computes

    Closed forms of the fold of [mergeService] over the versions of a service in the files of a project: for a field that is
    overridden, the last version that says something of it; for a list or a mapping, the versions since the last one
    tagged [!reset] or [!override], put together.

    - [later_file_wins]: the fields that are overridden, in a loaded project.
    - [files_accumulate]: its lists, mappings and dependencies. *)
From Stdlib Require Import ZArith Lia.
From Stdlib.Strings Require Import Byte.
From stdpp Require Import base list gmap sets.
From S2P Require Import Prelude GoStd GoPath ComposeDoc ComposeLoad.
Set Warnings "-register-all".

Section Merge.
  Context `{Blk : Blocks}.

(** A version of a service: what a file wrote of it, and the metadata of its keys. *)
Abbreviation version := (option yamlMeta * ServiceDocument)%type.

Definition mergeVersions (first : ServiceDocument) (vs : list version) : ServiceDocument :=
  foldl (fun acc v => mergeService v.1 acc v.2) first vs.

(** ** Fields that are overridden *)

Record overrideField := mkOverride {
  of_T : Type; of_get : ServiceDocument -> of_T;
  of_says : option yamlMeta -> ServiceDocument -> bool;  (** whether a version says something of the field *)
}.

Definition scalarField {T} `{EqDecision T, GoZero T} (key : bytes) (get : ServiceDocument -> T) : overrideField :=
  mkOverride T get (fun m o => meta_has m key || bool_decide (get o <> goZero)).
Definition ptrField {T} (key : bytes) (get : ServiceDocument -> option T) : overrideField :=
  mkOverride (option T) get (fun m o => meta_has m key || bool_decide (is_Some (get o))).
Definition wholeField {T} (key : bytes) (get : ServiceDocument -> list T) : overrideField :=
  mkOverride (list T) get (fun m o => meta_has m key || negb (Nat.eqb (length (get o)) 0)).

Definition overrideFields : list overrideField := [
  scalarField (go "image") sd_Image; scalarField (go "restart") sd_Restart; scalarField (go "container_name") sd_ContainerName;
  scalarField (go "privileged") sd_Privileged; scalarField (go "user") sd_User; scalarField (go "working_dir") sd_WorkingDir;
  scalarField (go "hostname") sd_Hostname; scalarField (go "stop_signal") sd_StopSignal;
  scalarField (go "stop_grace_period") sd_StopGracePeriod; scalarField (go "tty") sd_TTY;
  scalarField (go "stdin_open") sd_StdinOpen; scalarField (go "read_only") sd_ReadOnly; scalarField (go "shm_size") sd_ShmSize;
  scalarField (go "pid") sd_PID; scalarField (go "ipc") sd_IPC; scalarField (go "mem_limit") sd_MemLimit;
  scalarField (go "cpus") sd_CPUs; scalarField (go "x-cornus-agent-forward") sd_AgentForward;
  ptrField (go "init") sd_Init; ptrField (go "x-cornus-egress") sd_Egress; ptrField (go "x-cornus-ingress") sd_Ingress;
  ptrField (go "x-cornus-telemetry") sd_Telemetry; ptrField (go "x-cornus-credentials") sd_Credentials;
  ptrField (go "provider") sd_Provider;
  wholeField (go "command") sd_Command; wholeField (go "entrypoint") sd_Entrypoint; wholeField (go "x-cornus-shells") sd_Shells
].

(** The value the last version that says something of the field gives it. *)
Definition lastSaid (fl : overrideField) (first : ServiceDocument) (vs : list version) : of_T fl :=
  match last (filter (fun v => of_says fl v.1 v.2 = true) vs) with
  | Some v => of_get fl v.2
  | None => of_get fl first
  end.

Lemma overrideScalar_says {T} `{EqDecision T, GoZero T} m key (b o : T) :
  overrideScalar m key b o = if meta_has m key || bool_decide (o <> goZero) then o else b.
Proof. unfold overrideScalar. by destruct (meta_has m key). Qed.

Lemma overridePtr_says {T} m key (b o : option T) :
  overridePtr m key b o = if meta_has m key || bool_decide (is_Some o) then o else b.
Proof. unfold overridePtr. by destruct (meta_has m key), o. Qed.

Lemma overrideWhole_says {T} m key (b o : list T) :
  overrideWhole m key b o = if meta_has m key || negb (Nat.eqb (length o) 0) then o else b.
Proof. unfold overrideWhole. by destruct (meta_has m key), o. Qed.

Lemma overrideFields_step : Forall (fun fl => forall m b o,
  of_get fl (mergeService m b o) = if of_says fl m o then of_get fl o else of_get fl b) overrideFields.
Proof.
  repeat constructor; intros m b o; cbn -[overrideScalar overridePtr overrideWhole go meta_has bool_decide];
    first [apply overrideScalar_says | apply overridePtr_says | apply overrideWhole_says].
Qed.

Lemma lastSaid_fold fl first vs : fl ∈ overrideFields -> of_get fl (mergeVersions first vs) = lastSaid fl first vs.
Proof.
  intros Hfl. pose proof (proj1 (Forall_forall _ _) overrideFields_step fl Hfl) as Hstep.
  unfold lastSaid. induction vs as [|[m o] vs IH] using rev_ind; [done|].
  unfold mergeVersions in *. rewrite foldl_app, filter_app. cbn [foldl fst snd]. rewrite Hstep.
  destruct (of_says fl m o) eqn:E.
  - by rewrite filter_cons_True, filter_nil, last_snoc by done.
  - by rewrite filter_cons_False, filter_nil, app_nil_r by (cbn; congruence).
Qed.

(** ** Fields that accumulate *)

(** The versions that count for a key: those after the last [!reset], from the last [!override] on. *)
Definition since (key : bytes) (first : ServiceDocument) (vs : list version) : list ServiceDocument :=
  foldl (fun acc v => let c := meta_at v.1 key in
                      if cleared c then [] else if replaced c then [v.2] else acc ++ [v.2]) [first] vs.

Record seqField_ := mkSeq { sq_T : Type; sq_dec : EqDecision sq_T; sq_key : bytes; sq_get : ServiceDocument -> list sq_T }.
#[local] Existing Instance sq_dec.
Definition seqField {T} `{D : EqDecision T} (key : bytes) (get : ServiceDocument -> list T) : seqField_ := mkSeq T D key get.

Definition seqFields : list seqField_ := [
  seqField (go "env_file") sd_EnvFile; seqField (go "ports") sd_Ports; seqField (go "expose") sd_Expose;
  seqField (go "volumes") sd_Volumes; seqField (go "profiles") sd_Profiles; seqField (go "configs") sd_Configs;
  seqField (go "secrets") sd_Secrets; seqField (go "cap_add") sd_CapAdd; seqField (go "cap_drop") sd_CapDrop;
  seqField (go "security_opt") sd_SecurityOpt; seqField (go "group_add") sd_GroupAdd;
  seqField (go "extra_hosts") sd_ExtraHosts; seqField (go "dns") sd_DNS; seqField (go "dns_search") sd_DNSSearch;
  seqField (go "dns_opt") sd_DNSOpt; seqField (go "tmpfs") sd_Tmpfs; seqField (go "devices") sd_Devices
].

Definition mapFields : list (bytes * (ServiceDocument -> gmap bytes bytes)) :=
  [(go "labels", sd_Labels); (go "environment", sd_Environment); (go "sysctls", sd_Sysctls)].

(** The entries in order, each kept where it occurs first. *)
Fixpoint firsts {T} `{EqDecision T} (seen l : list T) : list T :=
  match l with
  | [] => []
  | x :: l => if bool_decide (x ∈ seen) then firsts seen l else x :: firsts (seen ++ [x]) l
  end.

Lemma foldl_appendNew {T} `{EqDecision T} (l acc : list T) : foldl appendNew acc l = acc ++ firsts acc l.
Proof.
  revert acc. induction l as [|x l IH]; intros acc; cbn; [by rewrite app_nil_r|].
  unfold appendNew at 2. case_bool_decide; rewrite IH; [done|]. by rewrite <-app_assoc.
Qed.

Lemma appendDedup_firsts {T} `{EqDecision T} (a b : list T) : appendDedup a b = firsts [] (a ++ b).
Proof. unfold appendDedup. rewrite <-foldl_app, foldl_appendNew. done. Qed.

Lemma firsts_app {T} `{EqDecision T} (a b seen : list T) : firsts seen (a ++ b) = firsts seen a ++ firsts (seen ++ firsts seen a) b.
Proof.
  revert seen. induction a as [|x a IH]; intros seen; cbn; [by rewrite app_nil_r|].
  case_bool_decide; [by apply IH|]. cbn. by rewrite IH, <-app_assoc.
Qed.

Lemma firsts_idem {T} `{EqDecision T} (a seen : list T) : firsts seen (firsts seen a) = firsts seen a.
Proof.
  revert seen. induction a as [|x a IH]; intros seen; cbn; [done|]. case_bool_decide as E; [by apply IH|].
  cbn. rewrite bool_decide_false by done. by rewrite IH.
Qed.

Lemma seqFields_step : Forall (fun fl => forall m b o,
  sq_get fl (mergeService m b o) = mergeSeq m (sq_key fl) (sq_get fl b) (sq_get fl o)) seqFields.
Proof. repeat constructor. Qed.

Lemma mapFields_step : Forall (fun fl => forall m b o, snd fl (mergeService m b o) = mergeMapping m (fst fl) (snd fl b) (snd fl o)) mapFields.
Proof. repeat constructor. Qed.

Lemma since_snoc key first vs v : since key first (vs ++ [v]) =
  let c := meta_at v.1 key in if cleared c then [] else if replaced c then [v.2] else since key first vs ++ [v.2].
Proof. unfold since. by rewrite foldl_app. Qed.

Lemma mergeVersions_snoc first vs v : mergeVersions first (vs ++ [v]) = mergeService v.1 (mergeVersions first vs) v.2.
Proof. unfold mergeVersions. by rewrite foldl_app. Qed.

Lemma seq_snoc fl first vs v : fl ∈ seqFields ->
  firsts [] (sq_get fl (mergeVersions first vs)) = firsts [] (since (sq_key fl) first vs ≫= sq_get fl) ->
  sq_get fl (mergeVersions first (vs ++ [v])) = firsts [] (since (sq_key fl) first (vs ++ [v]) ≫= sq_get fl).
Proof.
  intros Hfl IH. rewrite mergeVersions_snoc, since_snoc, (proj1 (Forall_forall _ _) seqFields_step fl Hfl). unfold mergeSeq.
  destruct (cleared _); [done|]. destruct (replaced _); rewrite appendDedup_firsts.
  - cbn [mbind list_bind]. by rewrite app_nil_r.
  - rewrite bind_app. cbn [mbind list_bind]. by rewrite app_nil_r, !(firsts_app _ (sq_get fl v.2)), IH.
Qed.

Lemma seq_fold fl first vs : fl ∈ seqFields ->
  firsts [] (sq_get fl (mergeVersions first vs)) = firsts [] (since (sq_key fl) first vs ≫= sq_get fl).
Proof.
  intros Hfl. induction vs as [|v vs IH] using rev_ind; [cbn; by rewrite app_nil_r|].
  by rewrite (seq_snoc fl first vs v Hfl IH), firsts_idem.
Qed.

Lemma firsts_NoDup {T} `{EqDecision T} (l seen : list T) : NoDup (firsts seen l) /\ forall x, x ∈ firsts seen l -> x ∉ seen.
Proof.
  revert seen. induction l as [|x l IH]; intros seen; cbn; [split; [constructor|set_solver]|].
  case_bool_decide as E; [by apply IH|]. destruct (IH (seen ++ [x])) as [H1 H2]. split.
  - constructor; [|done]. intros Hx. apply (H2 x Hx). set_solver.
  - intros y [->|Hy]%elem_of_cons; [done|]. specialize (H2 y Hy). set_solver.
Qed.

Lemma seq_NoDup fl first vs : fl ∈ seqFields -> vs <> [] -> NoDup (sq_get fl (mergeVersions first vs)).
Proof.
  intros Hfl. induction vs as [|v vs _] using rev_ind; [done|]. intros _.
  rewrite (seq_snoc fl first vs v Hfl (seq_fold fl first vs Hfl)). apply firsts_NoDup.
Qed.

Lemma map_fold_versions fl first vs k : fl ∈ mapFields ->
  snd fl (mergeVersions first vs) !! k = last (omap (fun d => snd fl d !! k) (since (fst fl) first vs)).
Proof.
  intros Hfl. induction vs as [|v vs IH] using rev_ind; [cbn; by destruct (snd fl first !! k)|].
  rewrite mergeVersions_snoc, since_snoc, (proj1 (Forall_forall _ _) mapFields_step fl Hfl). unfold mergeMapping, mergeStringMap.
  destruct (cleared _); [done|]. destruct (replaced _).
  - rewrite (right_id_L ∅ (∪)). cbn. by destruct (snd fl v.2 !! k).
  - rewrite lookup_union, IH, omap_app. cbn. destruct (snd fl v.2 !! k) as [x|]; cbn.
    + rewrite last_snoc. by destruct (last _).
    + rewrite app_nil_r. by destruct (last _).
Qed.
End Merge.
#[export] Existing Instance sq_dec.

(** ** Lists keyed by name *)
Section Named.
  Context {A : Type} (name : A -> bytes).

(** The last entry of each name of a list. *)
Definition lastOfName (out l : list A) : Prop := forall d, d ∈ out <-> last (filter (fun x => name x = name d) l) = Some d.

Definition indexed (st : list A * gmap bytes nat) : Prop :=
  NoDup (name <$> st.1) /\ forall n i, st.2 !! n = Some i <-> (name <$> st.1) !! i = Some n.

Lemma index_snoc (out : list A) (idx : gmap bytes nat) x : (forall n i, idx !! n = Some i <-> (name <$> out) !! i = Some n) -> name x ∉ name <$> out ->
  forall n i, <[name x := length out]> idx !! n = Some i <-> (name <$> (out ++ [x])) !! i = Some n.
Proof.
  intros Hidx Hx n i. rewrite fmap_app. cbn. destruct (decide (n = name x)) as [->|Hn].
  - rewrite lookup_insert_eq. split; intros H.
    + injection H as <-. by rewrite lookup_app_r, length_fmap, Nat.sub_diag by (by rewrite length_fmap).
    + destruct (decide (i < length out)%nat) as [Hi|Hi].
      * rewrite lookup_app_l in H by (by rewrite length_fmap). by apply list_elem_of_lookup_2 in H.
      * rewrite lookup_app_r in H by (rewrite length_fmap; lia). apply list_lookup_singleton_Some in H as [H _].
        rewrite length_fmap in H. f_equal. lia.
  - rewrite lookup_insert_ne by done. rewrite Hidx. split; intros H; [by apply lookup_app_l_Some|].
    apply lookup_app_Some in H as [H|[_ H]]; [done|]. by apply list_lookup_singleton_Some in H as [_ [=]].
Qed.

Lemma NoDup_snoc_name (out : list A) x : NoDup (name <$> out) -> name x ∉ name <$> out -> NoDup (name <$> (out ++ [x])).
Proof.
  intros Hnd Hx. rewrite fmap_app. apply NoDup_app. split; [done|]. split; [|apply NoDup_singleton].
  intros n Hn ->%list_elem_of_singleton. done.
Qed.

Lemma indexNames_ok (l : list A) : NoDup (name <$> l) -> indexed (l, indexNames name l).
Proof.
  intros Hnd. split; [done|]. cbn. induction l as [|x l IH] using rev_ind; intros n i.
  { split; [|done]. unfold indexNames. cbn. by rewrite lookup_empty. }
  rewrite fmap_app in Hnd. apply NoDup_app in Hnd as (Hl & Hx & _).
  unfold indexNames. rewrite imap_app, foldl_app. cbn [foldl imap]. fold (indexNames name l). rewrite Nat.add_0_r.
  apply index_snoc; [by apply IH|]. intros H. apply (Hx _ H). by left.
Qed.

Lemma last_filter_snoc l x d : last (filter (fun y => name y = name d) (l ++ [x])) =
  if decide (name x = name d) then Some x else last (filter (fun y => name y = name d) l).
Proof.
  rewrite filter_app, filter_cons, filter_nil. destruct (decide (name x = name d)); [by rewrite last_snoc|by rewrite app_nil_r].
Qed.

Lemma lastOfName_update (out l : list A) i x y : NoDup (name <$> out) -> lastOfName out l -> out !! i = Some y -> name y = name x ->
  lastOfName (alter (fun _ => x) i out) (l ++ [x]).
Proof.
  intros Hnd Hl Hy Hx d. rewrite last_filter_snoc, list_elem_of_lookup. split.
  - intros [j Hj]. destruct (decide (j = i)) as [->|Hji].
    + rewrite list_lookup_alter_eq, Hy in Hj. injection Hj as ->. by rewrite decide_True.
    + rewrite list_lookup_alter_ne in Hj by done. rewrite decide_False; [by apply Hl; eapply list_elem_of_lookup_2|].
      intros Hd. apply Hji. apply (NoDup_lookup _ _ _ (name x) Hnd); rewrite list_lookup_fmap; [rewrite Hj|rewrite Hy]; cbn; congruence.
  - destruct (decide (name x = name d)) as [Hd|Hd].
    + intros [= <-]. exists i. by rewrite list_lookup_alter_eq, Hy.
    + intros H. apply Hl, list_elem_of_lookup in H as [j Hj]. exists j.
      destruct (decide (j = i)) as [->|]; [by simplify_eq|by rewrite list_lookup_alter_ne].
Qed.

Lemma lastOfName_append (out l : list A) x : name x ∉ name <$> out -> lastOfName out l -> lastOfName (out ++ [x]) (l ++ [x]).
Proof.
  intros Hx Hl d. rewrite last_filter_snoc, elem_of_app, list_elem_of_singleton. destruct (decide (name x = name d)) as [Hd|Hd].
  - split; [|intros [= ->]; by right]. intros [H| ->]; [|done]. destruct Hx. rewrite Hd. by apply list_elem_of_fmap_2.
  - rewrite (Hl d). split; [by intros [H| ->]|by left].
Qed.

Lemma lastOfName_nil : lastOfName [] [].
Proof. intros d. split; [by intros H%elem_of_nil|done]. Qed.

Lemma lastOfName_self (l : list A) : NoDup (name <$> l) -> lastOfName l l.
Proof.
  induction l as [|x l IH] using rev_ind; intros Hnd; [apply lastOfName_nil|].
  rewrite fmap_app in Hnd. apply NoDup_app in Hnd as (Hl & Hx & _). apply lastOfName_append; [|by apply IH].
  intros H. apply (Hx _ H). by left.
Qed.

Lemma mergeNamed1_ok st x l : indexed st -> lastOfName st.1 l ->
  let st' := mergeNamed1 name (fun _ y => y) st x in indexed st' /\ lastOfName st'.1 (l ++ [x]).
Proof.
  destruct st as [out idx]. unfold indexed, mergeNamed1. cbn [fst snd]. intros [Hnd Hidx] Hl. cbv zeta.
  destruct (idx !! name x) as [i|] eqn:Hi; cbn [fst snd].
  - apply Hidx in Hi as Hx. rewrite list_lookup_fmap in Hx. destruct (out !! i) as [y|] eqn:Hy; [|done]. injection Hx as Hx.
    assert (Hn : name <$> alter (fun _ => x) i out = name <$> out).
    { apply list_eq. intros j. rewrite !list_lookup_fmap. destruct (decide (j = i)) as [->|];
        [rewrite list_lookup_alter_eq, Hy; cbn; congruence|by rewrite list_lookup_alter_ne]. }
    rewrite Hn. split; [done|]. by eapply lastOfName_update.
  - assert (Hfresh : name x ∉ name <$> out) by (intros [j Hj]%list_elem_of_lookup; apply Hidx in Hj; congruence).
    split; [split|]; [by apply NoDup_snoc_name|by apply index_snoc|by apply lastOfName_append].
Qed.

Lemma mergeNamed_fold override : forall st l, indexed st -> lastOfName st.1 l ->
  let st' := foldl (mergeNamed1 name (fun _ y => y)) st override in indexed st' /\ lastOfName st'.1 (l ++ override).
Proof.
  induction override as [|x override IH]; intros st l Hi Hl; cbn; [by rewrite app_nil_r|].
  destruct (mergeNamed1_ok st x l Hi Hl) as [Hi' Hl']. destruct (IH _ _ Hi' Hl') as [H1 H2].
  by rewrite <-app_assoc in H2.
Qed.

(** The entries of both lists, the later winning where a name occurs in both. *)
Lemma mergeNamed_ok m (base override l : list A) : NoDup (name <$> base) -> lastOfName base l -> cleared m = false ->
  let out := mergeNamed name (fun _ y => y) m base override in
  NoDup (name <$> out) /\ lastOfName out ((if replaced m then [] else l) ++ override).
Proof.
  intros Hnd Hl Hc. unfold mergeNamed. rewrite Hc. cbv zeta.
  destruct (replaced m).
  - destruct (mergeNamed_fold override ([], _) [] (indexNames_ok [] NoDup_nil_2) lastOfName_nil) as [[H1 _] H2]. by split.
  - destruct (mergeNamed_fold override (base, _) l (indexNames_ok base Hnd) Hl) as [[H1 _] H2]. by split.
Qed.
End Named.

Lemma depends_fold `{Blk : Blocks} first vs : NoDup (dep_Service <$> sd_DependsOn first) ->
  let s := mergeVersions first vs in
  NoDup (dep_Service <$> sd_DependsOn s) /\
  lastOfName dep_Service (sd_DependsOn s) (since (go "depends_on") first vs ≫= sd_DependsOn).
Proof.
  intros Hnd. cbv zeta. induction vs as [|v vs [IHn IHl]] using rev_ind.
  - split; [done|]. cbn [since foldl mbind list_bind mergeVersions]. rewrite app_nil_r. by apply lastOfName_self.
  - rewrite mergeVersions_snoc, since_snoc. cbn [sd_DependsOn mergeService]. unfold mergeDependsOn.
    destruct (cleared (meta_at v.1 (go "depends_on"))) eqn:Hc.
    + unfold mergeNamed. rewrite Hc. split; [constructor|apply lastOfName_nil].
    + destruct (mergeNamed_ok dep_Service (meta_at v.1 (go "depends_on")) _ (sd_DependsOn v.2) _ IHn IHl Hc) as [H1 H2].
      split; [done|]. destruct (replaced _); [cbn [mbind list_bind]; by rewrite app_nil_r|].
      rewrite bind_app. cbn [mbind list_bind]. by rewrite app_nil_r.
Qed.

(** ** The files of a project *)
Section Files.
  Context `{Blk : Blocks} (cwd : bytes) (files : gmap bytes bytes) (decode : bytes -> bytes -> list bytes -> option parsedFile).
  Context (range : forall A, gmap bytes A -> list bytes).

(** The versions of a service in the files that have it, in the order of the files. *)
Definition versionsOf (name : bytes) (pfs : list parsedFile) : list (option yamlMeta * ServiceDocument) :=
  omap (fun pf => (meta_at (pf_services pf) name,.) <$> pd_Services (pf_doc pf) !! name) pfs.

Lemma mergeDefs_lookup {A} (merge : option yamlMeta -> A -> A -> A) (m : option yamlMeta) (dst override : gmap bytes A) (name : bytes) :
  mergeDefs merge m dst override !! name =
  match override !! name, dst !! name with
  | Some o, Some e => Some (merge (meta_at m name) e o)
  | Some o, None => Some o
  | None, e => e
  end.
Proof.
  unfold mergeDefs. rewrite lookup_union, map_lookup_imap. by destruct (override !! name), (dst !! name).
Qed.

Lemma loadFiles_fold envFiles fs : forall merged doc, loadFiles cwd files decode range envFiles fs merged = Ok doc ->
  exists pfs, Forall2 (fun f pf => loadFile cwd files decode range f envFiles = Ok pf) fs pfs /\ doc = foldl mergeFile merged pfs.
Proof.
  induction fs as [|f fs IH]; intros merged doc; cbn [loadFiles].
  - intros [= <-]. exists []. split; [constructor|done].
  - destruct (loadFile cwd files decode range f envFiles) as [pf|] eqn:Hf; [|done]. intros H.
    destruct (IH _ _ H) as (pfs & Hpfs & ->). exists (pf :: pfs). split; [by constructor|done].
Qed.

Lemma services_fold (name : bytes) (pfs : list parsedFile) : pd_Services (foldl mergeFile emptyProject pfs) !! name =
  match versionsOf name pfs with
  | [] => None
  | v :: vs => Some (mergeVersions v.2 vs)
  end.
Proof.
  induction pfs as [|pf pfs IH] using rev_ind; [cbn; apply lookup_empty|].
  rewrite foldl_app. cbn [foldl].
  change (pd_Services (mergeFile ?d pf)) with (mergeDefs mergeService (pf_services pf) (pd_Services d) (pd_Services (pf_doc pf))).
  rewrite mergeDefs_lookup, IH.
  unfold versionsOf. rewrite omap_app. cbn. destruct (pd_Services (pf_doc pf) !! name) as [o|]; cbn; [|by rewrite app_nil_r].
  destruct (omap _ pfs) as [|v vs]; cbn; [done|]. by rewrite mergeVersions_snoc.
Qed.

Lemma load_services envFiles fs doc : LoadDocumentWithOptions cwd files decode range envFiles fs = Ok doc ->
  exists pfs, Forall2 (fun f pf => loadFile cwd files decode range f envFiles = Ok pf) fs pfs /\
  forall name, pd_Services doc !! name = match versionsOf name pfs with [] => None | v :: vs => Some (mergeVersions v.2 vs) end.
Proof.
  unfold LoadDocumentWithOptions. destruct fs as [|f fs]; [done|].
  destruct (loadFiles cwd files decode range envFiles (f :: fs) emptyProject) as [merged|] eqn:Hl; [cbn|done].
  case_bool_decide; [done|]. intros [= <-]. destruct (loadFiles_fold _ _ _ _ Hl) as (pfs & Hpfs & ->).
  exists pfs. split; [done|]. intros name. apply services_fold.
Qed.

(** C6. In a project of several files every field of a service that is overridden (27 of them) has the
    value of the last file that says something of it: that wrote its key, were it to clear it, or that holds a non-zero value.
    (The guide [docs/guides/compose-devcontainers-docker.md] says that a later file cannot clear an inherited scalar; it can.) *)
Theorem later_file_wins envFiles fs doc : LoadDocumentWithOptions cwd files decode range envFiles fs = Ok doc ->
  exists pfs, Forall2 (fun f pf => loadFile cwd files decode range f envFiles = Ok pf) fs pfs /\
  forall name, match versionsOf name pfs with
               | [] => pd_Services doc !! name = None
               | v :: vs => exists s, pd_Services doc !! name = Some s /\
                            forall fl, fl ∈ overrideFields -> of_get fl s = lastSaid fl v.2 vs
               end.
Proof.
  intros H. destruct (load_services _ _ _ H) as (pfs & Hpfs & Hs). exists pfs. split; [done|].
  intros name. rewrite Hs. destruct (versionsOf name pfs) as [|v vs]; [done|].
  eexists. split; [done|]. intros fl Hfl. by apply lastSaid_fold.
Qed.

(** C7. In a project of several files the lists and mappings of a service put together what the files
    since the last one that tagged the key [!reset] or [!override] have: a list without duplicates in the order of the files,
    a mapping with the last value of each key, and the dependencies with the last word on each service.
    (The same guide says that the two tags are not supported; they are.) *)
Theorem files_accumulate envFiles fs doc : LoadDocumentWithOptions cwd files decode range envFiles fs = Ok doc ->
  exists pfs, Forall2 (fun f pf => loadFile cwd files decode range f envFiles = Ok pf) fs pfs /\
  forall name v vs s, versionsOf name pfs = v :: vs -> pd_Services doc !! name = Some s ->
    (forall fl, fl ∈ seqFields -> firsts [] (sq_get fl s) = firsts [] (since (sq_key fl) v.2 vs ≫= sq_get fl)) /\
    (forall fl, fl ∈ seqFields -> vs <> [] -> NoDup (sq_get fl s)) /\
    (forall fl k, fl ∈ mapFields -> snd fl s !! k = last (omap (fun d => snd fl d !! k) (since (fst fl) v.2 vs))) /\
    (NoDup (dep_Service <$> sd_DependsOn v.2) ->
       NoDup (dep_Service <$> sd_DependsOn s) /\
       lastOfName dep_Service (sd_DependsOn s) (since (go "depends_on") v.2 vs ≫= sd_DependsOn)).
Proof.
  intros H. destruct (load_services _ _ _ H) as (pfs & Hpfs & Hs). exists pfs. split; [done|].
  intros name v vs s Hv Hn. rewrite Hs, Hv in Hn. injection Hn as <-. split_and!.
  - intros fl Hfl. by apply seq_fold.
  - intros fl Hfl Hne. by apply seq_NoDup.
  - intros fl k Hfl. by apply map_fold_versions.
  - apply depends_fold.
Qed.
End Files.
