(* ===== verification/ComposeExtends.v ===== *)
(** * ComposeExtends: what resolving [extends] and [include] computes

    [Expands] is the meaning of [extends], without the resolver's caches, stack and order: the merge along the
    chain of bases.  [Model] is the meaning of [include]: the file over the models it includes.

    - [extends_exact]: [resolveExtends] gives every service its expansion, and fails exactly when one has none.
    - [include_exact]: [processInclude] ends with the model of the file, or a file includes itself, or a model cannot be had. *)
From Stdlib Require Import ZArith Lia.
From Stdlib.Strings Require Import Byte.
From stdpp Require Import base list gmap sets relations.
From S2P Require Import Prelude GoStd GoPath ComposeDoc ComposeLoad.
Set Warnings "-register-all".

Section Extends.
  Context `{Blk : Blocks} (cwd : bytes) (files : gmap bytes bytes) (decode : bytes -> bytes -> list bytes -> option parsedFile).
  Context (envFiles : list bytes) (absFile0 : bytes) (pf0 : parsedFile).

(** The file at a path: the one being loaded, or one read when it is referred to. *)
Definition fileOf (f : bytes) : option parsedFile :=
  if bool_decide (f = absFile0) then Some pf0
  else match parseFile files decode f envFiles with Ok pf => Some pf | Err _ => None end.

Inductive Expands : bytes * bytes -> ServiceDocument -> Prop :=
| Expands_plain f n pf svc :
    fileOf f = Some pf -> pd_Services (pf_doc pf) !! n = Some svc -> sd_Extends svc = None -> Expands (f, n) svc
| Expands_over f n pf svc e base :
    fileOf f = Some pf -> pd_Services (pf_doc pf) !! n = Some svc -> sd_Extends svc = Some e -> ex_Service e <> [] ->
    Expands (baseFileOf cwd f e, ex_Service e) base -> Expands (f, n) (overBase pf n base svc).

(** The service a service extends. *)
Inductive extendsTo : bytes * bytes -> bytes * bytes -> Prop :=
| extends_to f n pf svc e :
    fileOf f = Some pf -> pd_Services (pf_doc pf) !! n = Some svc -> sd_Extends svc = Some e -> ex_Service e <> [] ->
    extendsTo (f, n) (baseFileOf cwd f e, ex_Service e).

Lemma extendsTo_det k a b : extendsTo k a -> extendsTo k b -> a = b.
Proof. intros H1 H2. inversion H1; subst. inversion H2; subst. by simplify_eq. Qed.

Lemma tc_first x z : tc extendsTo x z -> exists y, extendsTo x y /\ rtc extendsTo y z.
Proof. destruct 1 as [x z H|x y z H Ht]; [by exists z|]. exists y. split; [done|]. by apply tc_rtc. Qed.

Lemma Expands_acyclic k s : Expands k s -> ~ tc extendsTo k k.
Proof.
  induction 1 as [f n pf svc Hf Hs He|f n pf svc e base Hf Hs He Hn _ IH]; intros Ht.
  - destruct (tc_first _ _ Ht) as (y & Hy & _). inversion Hy; subst; simplify_eq.
  - assert (Hto : extendsTo (f, n) (baseFileOf cwd f e, ex_Service e)) by (by econstructor).
    apply IH. destruct (tc_first _ _ Ht) as (y & Hy & Hr). rewrite (extendsTo_det _ _ _ Hy Hto) in Hr.
    eapply tc_rtc_l; [exact Hr|]. by apply tc_once.
Qed.

Lemma Expands_det k s : Expands k s -> forall t, Expands k t -> s = t.
Proof.
  induction 1 as [f n pf svc Hf Hs He|f n pf svc e base Hf Hs He Hn _ IH]; intros t Ht; inversion Ht; subst; simplify_eq.
  - done.
  - f_equal. by apply IH.
Qed.

(** The keys a chain can go through. *)
Definition keysOf : list (bytes * bytes) := serviceKeys absFile0 pf0 ++ allKeys files decode envFiles.

Lemma elem_of_serviceKeys f n pf svc : pd_Services (pf_doc pf) !! n = Some svc -> (f, n) ∈ serviceKeys f pf.
Proof.
  intros Hs. unfold serviceKeys. apply list_elem_of_fmap. exists n. split; [done|].
  apply list_elem_of_fmap. exists (n, svc). split; [done|]. by apply elem_of_map_to_list.
Qed.

Lemma elem_of_keysOf f n pf svc : fileOf f = Some pf -> pd_Services (pf_doc pf) !! n = Some svc -> (f, n) ∈ keysOf.
Proof.
  unfold fileOf, keysOf. intros Hf Hs. apply elem_of_app. case_bool_decide as E.
  - simplify_eq. left. by eapply elem_of_serviceKeys.
  - right. unfold allKeys. apply list_elem_of_bind. exists f.
    destruct (parseFile files decode f envFiles) as [p|] eqn:Hp; simplify_eq. split; [by eapply elem_of_serviceKeys|].
    unfold parseFile in Hp. destruct (files !! f) as [d|] eqn:Hd; [|done].
    apply list_elem_of_fmap. exists (f, d). split; [done|]. by apply elem_of_map_to_list.
Qed.

(** What the caches hold is right. *)
Record resolverOk (r : extendsResolver) : Prop := {
  ro_files : forall f p, xr_files r !! f = Some p -> fileOf f = Some p;
  ro_root : xr_files r !! absFile0 = Some pf0;
  ro_resolved : forall k s, xr_resolved r !! k = Some s -> Expands k s;
  ro_keys : forall k, k ∈ xr_resolving r -> k ∈ keysOf;
}.

Lemma xr_project_ok f r : resolverOk r ->
  match xr_project files decode envFiles f r with
  | Ok (p, r') => fileOf f = Some p /\ resolverOk r' /\ xr_resolving r' = xr_resolving r /\ xr_resolved r' = xr_resolved r
  | Err e => fileOf f = None /\ e <> ErrFuel
  end.
Proof.
  intros Hr. unfold xr_project. destruct (xr_files r !! f) as [p|] eqn:Hp.
  - split; [by eapply ro_files|done].
  - assert (Hne : f <> absFile0) by (intros ->; rewrite (ro_root _ Hr) in Hp; done).
    assert (Hf : fileOf f = match parseFile files decode f envFiles with Ok pf => Some pf | Err _ => None end)
      by (unfold fileOf; by rewrite bool_decide_false).
    destruct (parseFile files decode f envFiles) as [p|e] eqn:He; cbn.
    + split; [done|]. split; [|done]. destruct Hr as [H1 H2 H3 H4]. split; cbn; try done.
      * intros g q Hg. destruct (decide (g = f)) as [->|]; [rewrite lookup_insert_eq in Hg; congruence|].
        rewrite lookup_insert_ne in Hg by done. by apply H1.
      * by rewrite lookup_insert_ne.
    + split; [done|]. intros ->. unfold parseFile in He. by destruct (files !! f ≫= _).
Qed.

Lemma resolving_bound (s : gset (bytes * bytes)) : (forall k, k ∈ s -> k ∈ keysOf) -> (size s <= length keysOf)%nat.
Proof.
  intros Hs. apply (submseteq_length (elements s)). apply NoDup_submseteq; [apply NoDup_elements|].
  intros k Hk. by apply Hs, elem_of_elements.
Qed.

Lemma resolverOk_push r k : resolverOk r -> k ∈ keysOf ->
  resolverOk (mkResolver (xr_files r) ({[k]} ∪ xr_resolving r) (xr_resolved r)).
Proof. intros [H1 H2 H3 H4] Hk. split; cbn; try done. set_solver. Qed.

Lemma resolverOk_cache r k s rs : resolverOk r -> Expands k s -> rs ⊆ xr_resolving r ->
  resolverOk (mkResolver (xr_files r) rs (<[k := s]> (xr_resolved r))).
Proof.
  intros [H1 H2 H3 H4] Hs Hsub. split; cbn; try done; [|set_solver].
  intros k' s' Hk. destruct (decide (k' = k)) as [->|]; [rewrite lookup_insert_eq in Hk; by simplify_eq|].
  rewrite lookup_insert_ne in Hk by done. by apply H3.
Qed.

Lemma resolveService_spec fuel : forall f n r, resolverOk r ->
  (forall k, k ∈ xr_resolving r -> tc extendsTo k (f, n)) -> (S (length keysOf) <= fuel + size (xr_resolving r))%nat ->
  match resolveService cwd files decode fuel envFiles f n r with
  | Ok (s, r') => Expands (f, n) s /\ resolverOk r' /\ xr_resolving r' = xr_resolving r
  | Err e => e <> ErrFuel /\ forall s, ~ Expands (f, n) s
  end.
Proof.
  induction fuel as [|fuel IH]; intros f n r Hr Hst Hfuel.
  { pose proof (resolving_bound (xr_resolving r) (ro_keys _ Hr)). lia. }
  cbn [resolveService]. destruct (xr_resolved r !! (f, n)) as [s|] eqn:Hres; [by split; [eapply ro_resolved|]|].
  case_bool_decide as Hin.
  { split; [done|]. intros s Hs. by apply (Expands_acyclic _ _ Hs), Hst. }
  pose proof (xr_project_ok f r Hr) as Hp. destruct (xr_project files decode envFiles f r) as [[pf r1]|e]; cbn.
  2:{ split; [apply Hp|]. intros s Hs. inversion Hs; subst; simplify_eq; naive_solver. }
  destruct Hp as (Hf & Hr1 & Hrs & Hrd). destruct (pd_Services (pf_doc pf) !! n) as [svc|] eqn:Hsvc.
  2:{ split; [done|]. intros s Hs. inversion Hs; subst; simplify_eq. }
  destruct (sd_Extends svc) as [e|] eqn:He.
  2:{ assert (Hs : Expands (f, n) svc) by (by econstructor). split; [done|]. split; [|done]. by apply resolverOk_cache. }
  destruct (ex_Service e) as [|b bs] eqn:Hb.
  { split; [done|]. intros s Hs. inversion Hs; subst; simplify_eq. }
  rewrite <-Hb. assert (Hto : extendsTo (f, n) (baseFileOf cwd f e, ex_Service e)) by (econstructor; eauto; congruence).
  pose proof (resolverOk_push r1 (f, n) Hr1 (elem_of_keysOf f n pf svc Hf Hsvc)) as Hr2.
  set (r2 := mkResolver (xr_files r1) ({[(f, n)]} ∪ xr_resolving r1) (xr_resolved r1)) in *.
  pose proof (IH (baseFileOf cwd f e) (ex_Service e) r2 Hr2) as IH'. cbn [xr_resolving r2] in IH'. rewrite Hrs in IH'.
  rewrite size_union, size_singleton in IH' by set_solver.
  assert (Hst' : forall k, k ∈ {[(f, n)]} ∪ xr_resolving r -> tc extendsTo k (baseFileOf cwd f e, ex_Service e)).
  { intros k. rewrite elem_of_union, elem_of_singleton. intros [->|Hk]; [by apply tc_once|]. eapply tc_r; [by apply Hst|done]. }
  specialize (IH' Hst' ltac:(lia)).
  destruct (resolveService cwd files decode fuel envFiles _ (ex_Service e) r2) as [[base r3]|er]; cbn.
  - destruct IH' as (Hbase & Hr3 & Hrs3).
    split; [by econstructor; eauto; congruence|]. split; [|cbn; rewrite Hrs3; set_solver].
    apply resolverOk_cache; [done|by econstructor; eauto; congruence|set_solver].
  - destruct IH' as [Hne Hno].
    split; [done|]. intros s Hs. inversion Hs; subst; simplify_eq. by eapply Hno.
Qed.

Lemma resolveAll_spec fuel names : forall r out, resolverOk r -> xr_resolving r = ∅ -> (S (length keysOf) <= fuel)%nat ->
  match resolveAll cwd files decode fuel envFiles absFile0 names r out with
  | Ok out' => dom out' = dom out ∪ list_to_set names /\
               forall n s, out' !! n = Some s -> out !! n = Some s \/ Expands (absFile0, n) s
  | Err e => e <> ErrFuel /\ exists n, n ∈ names /\ forall s, ~ Expands (absFile0, n) s
  end.
Proof.
  induction names as [|n names IH]; intros r out Hr Hrs Hfuel; cbn; [set_solver|].
  pose proof (resolveService_spec fuel absFile0 n r Hr) as H. rewrite Hrs in H. specialize (H ltac:(set_solver) ltac:(lia)).
  destruct (resolveService cwd files decode fuel envFiles absFile0 n r) as [[s r']|e]; cbn.
  - destruct H as (Hs & Hr' & Hrs'). specialize (IH r' (<[n := s]> out) Hr' ltac:(congruence) Hfuel).
    destruct (resolveAll cwd files decode fuel envFiles absFile0 names r' _) as [out'|e].
    + destruct IH as [Hd Hl]. split; [set_solver|]. intros m t Hm. destruct (Hl m t Hm) as [Hi|]; [|by right].
      destruct (decide (m = n)) as [->|]; [rewrite lookup_insert_eq in Hi; simplify_eq; by right|].
      rewrite lookup_insert_ne in Hi by done. by left.
    + destruct IH as [He (m & Hm & Hno)]. split; [done|]. exists m. split; [by right|done].
  - destruct H as [He Hno]. split; [done|]. exists n. split; [by left|done].
Qed.

Lemma Expands_cleared k s : Expands k s -> sd_Extends s = None.
Proof. destruct 1; [done|]. unfold overBase. by destruct (mergeService _ _ _). Qed.
End Extends.

Section ExtendsMain.
  Context `{Blk : Blocks} (cwd : bytes) (files : gmap bytes bytes) (decode : bytes -> bytes -> list bytes -> option parsedFile).
  Context (range : forall A, gmap bytes A -> list bytes) (range_all : forall A (m : gmap bytes A), range A m ≡ₚ (map_to_list m).*1).

Lemma range_dom {A} (m : gmap bytes A) : list_to_set (range A m) = dom m.
Proof.
  apply set_eq. intros n. rewrite elem_of_list_to_set, range_all, list_elem_of_fmap, elem_of_dom. split.
  - intros ([k x] & -> & Hx). apply elem_of_map_to_list in Hx. by exists x.
  - intros [x Hx]. exists (n, x). split; [done|]. by apply elem_of_map_to_list.
Qed.

(** The resolver at the start, and what it gives for all services of the file. *)
Lemma resolveAll_start (pf : parsedFile) (f : bytes) (envFiles : list bytes) :
  match resolveAll cwd files decode (extendsFuel files decode envFiles f pf) envFiles f (range _ (pd_Services (pf_doc pf)))
          (mkResolver {[f := pf]} ∅ ∅) ∅ with
  | Ok out => dom out = dom (pd_Services (pf_doc pf)) /\
              forall n s, out !! n = Some s -> Expands cwd files decode envFiles f pf (f, n) s
  | Err e => e <> ErrFuel /\ exists n, n ∈ dom (pd_Services (pf_doc pf)) /\ forall s, ~ Expands cwd files decode envFiles f pf (f, n) s
  end.
Proof.
  set (r := mkResolver {[f := pf]} ∅ ∅).
  assert (Hr : resolverOk cwd files decode envFiles f pf r).
  { split; cbn; try set_solver; [|by rewrite lookup_singleton_eq].
    intros g p Hg. apply lookup_singleton_Some in Hg as [<- <-]. unfold fileOf. by rewrite bool_decide_true. }
  pose proof (resolveAll_spec cwd files decode envFiles f pf (extendsFuel files decode envFiles f pf)
                (range _ (pd_Services (pf_doc pf))) r ∅ Hr eq_refl ltac:(unfold extendsFuel, keysOf; lia)) as H.
  destruct (resolveAll cwd files decode _ envFiles f _ r ∅) as [out|e].
  - destruct H as [Hd Hl]. rewrite range_dom in Hd. split; [set_solver|].
    intros n s Hs. destruct (Hl n s Hs) as [H|H]; [set_solver|done].
  - destruct H as [He (n & Hn & Hno)]. split; [done|]. exists n. split; [|done]. rewrite <-range_dom. by apply elem_of_list_to_set.
Qed.

Lemma extends_safe pf file envFiles : resolveExtends cwd files decode range pf file envFiles <> Err ErrFuel.
Proof.
  unfold resolveExtends. destruct (hasExtends (pf_doc pf)); [|done].
  pose proof (resolveAll_start pf (filepathAbs cwd file) envFiles) as H.
  destruct (resolveAll cwd files decode _ envFiles _ _ _ _) as [out|e]; cbn; [done|]. intros [= ->]. by destruct H.
Qed.

(** C2. [resolveExtends] gives each service of the file the merge along its chain of bases, whatever the
    order of iteration, and leaves the rest of the document alone; it ends, and fails only when the chain of some service
    is broken (a file, a service or a name is missing) or closes on itself. *)
Theorem extends_exact (pf : parsedFile) (file : bytes) (envFiles : list bytes) :
  let means n s := Expands cwd files decode envFiles (filepathAbs cwd file) pf (filepathAbs cwd file, n) s in
  match resolveExtends cwd files decode range pf file envFiles with
  | Ok pf' =>
      pf' = mkParsed (setServices (pf_doc pf) (pd_Services (pf_doc pf'))) (pf_meta pf) /\
      dom (pd_Services (pf_doc pf')) = dom (pd_Services (pf_doc pf)) /\
      forall n s, pd_Services (pf_doc pf') !! n = Some s -> means n s /\ sd_Extends s = None
  | Err e => e <> ErrFuel /\ exists n, n ∈ dom (pd_Services (pf_doc pf)) /\ forall s, ~ means n s
  end.
Proof.
  cbv zeta. unfold resolveExtends. destruct (hasExtends (pf_doc pf)) eqn:Hh.
  - pose proof (resolveAll_start pf (filepathAbs cwd file) envFiles) as H.
    destruct (resolveAll cwd files decode _ envFiles _ _ _ _) as [out|e]; cbn; [|done].
    destruct H as [Hd Hl]. split; [done|]. split; [done|]. intros n s Hs. split; [by apply Hl|]. by eapply Expands_cleared, Hl.
  - unfold hasExtends in Hh. apply bool_decide_eq_false in Hh. split; [by destruct pf as [[] ?]|]. split; [done|].
    intros n s Hs. assert (He : sd_Extends s = None).
    { destruct (sd_Extends s) eqn:He; [|done]. destruct Hh. exists n, s. by rewrite He. }
    split; [|done]. econstructor; [|done|done]. unfold fileOf. by rewrite bool_decide_true.
Qed.

(** ** include *)

(** What a file includes: the files its entries name, with the env files each is read with. *)
Definition targetsOf (f : bytes) (pf : parsedFile) : list (bytes * list bytes) :=
  pd_Include (pf_doc pf) ≫= includeTargets cwd (pathDir f).

(** A file as an include entry reads it. *)
Definition readModel (f : bytes) (envFiles : list bytes) : option parsedFile :=
  match pf ← parseFile files decode f envFiles; resolveExtends cwd files decode range pf f envFiles with
  | Ok pf => Some pf
  | Err _ => None
  end.

(** The meaning of [include], without the stack: the file over the models it includes, a later one over an earlier one. *)
Inductive Model : bytes -> parsedFile -> parsedFile -> Prop :=
| Model_plain f pf : pd_Include (pf_doc pf) = [] -> Model f pf pf
| Model_over f pf base : pd_Include (pf_doc pf) <> [] -> Layers (targetsOf f pf) emptyProject base -> Model f pf (overIncluded pf base)
with Layers : list (bytes * list bytes) -> ProjectDocument -> ProjectDocument -> Prop :=
| Layers_nil base : Layers [] base base
| Layers_cons f envFiles ts base base' pf pf' :
    readModel f envFiles = Some pf -> Model f pf pf' -> Layers ts (mergeProjectInto base pf') base' ->
    Layers ((f, envFiles) :: ts) base base'.

Inductive includes : bytes * parsedFile -> bytes * parsedFile -> Prop :=
| includes_target f pf g envFiles pg : (g, envFiles) ∈ targetsOf f pf -> readModel g envFiles = Some pg -> includes (f, pf) (g, pg).

(** From [root], with the files as the entries on the way read them, a chain of includes leads to [f], and from there on to a file
    that includes [f] again. *)
Definition includesItself (root : bytes * parsedFile) (f : bytes) : Prop :=
  exists pf g pg, rtc includes root (f, pf) /\ rtc includes (f, pf) (g, pg) /\ f ∈ (targetsOf g pg).*1.

(** Why an expansion fails. *)
Definition includeFails (root : bytes * parsedFile) (e : loadErr) (noModel : Prop) : Prop :=
  e <> ErrFuel /\ ((exists f, e = ErrIncludeCircular f /\ includesItself root f) \/ noModel).

Scheme Model_mut := Minimality for Model Sort Prop with Layers_mut := Minimality for Layers Sort Prop.

Lemma Model_det f pf pf' : Model f pf pf' -> forall pf'', Model f pf pf'' -> pf' = pf''.
Proof.
  revert f pf pf'. apply (Model_mut (fun f pf pf' => forall pf'', Model f pf pf'' -> pf' = pf'') (fun ts b b' => forall b'', Layers ts b b'' -> b' = b'')).
  - intros f pf H pf'' H'. inversion H'; by subst.
  - intros f pf b H Hl IH pf'' H'. inversion H'; subst; [done|]. f_equal. by apply IH.
  - intros b b'' H. by inversion H.
  - intros f envFiles ts b b' pf pf' Hr _ IH1 _ IH2 b'' H. inversion H; subst. simplify_eq.
    apply IH2. by erewrite IH1.
Qed.

Lemma readModel_parsed f envFiles pf : readModel f envFiles = Some pf -> f ∈ dom files.
Proof.
  unfold readModel, parseFile. destruct (files !! f) as [d|] eqn:Hf; [|done]. intros _. apply elem_of_dom. by exists d.
Qed.

Lemma includeLoad_read (ex : parsedFile -> bytes -> gset bytes -> res loadErr parsedFile) stack f envFiles :
  match readModel f envFiles with
  | Some pf => includeLoad cwd files decode range ex stack f envFiles = ex pf f ({[f]} ∪ stack)
  | None => exists e, includeLoad cwd files decode range ex stack f envFiles = Err e /\ e <> ErrFuel
  end.
Proof.
  unfold readModel, includeLoad. destruct (parseFile files decode f envFiles) as [pf|e] eqn:Hp; cbn.
  - pose proof (extends_safe pf f envFiles). destruct (resolveExtends cwd files decode range pf f envFiles) as [p|e]; [done|]. cbn. exists e. split; congruence.
  - exists e. split; [done|]. intros ->. unfold parseFile in Hp. by destruct (files !! f ≫= _).
Qed.

Lemma includeAll_spec (root : bytes * parsedFile) (ex : parsedFile -> bytes -> gset bytes -> res loadErr parsedFile) f pf stack ts : forall base,
  (forall g pg, includes (f, pf) (g, pg) -> g ∉ stack ->
     match ex pg g ({[g]} ∪ stack) with
     | Ok pg' => Model g pg pg'
     | Err e => includeFails root e (forall pg', ~ Model g pg pg')
     end) ->
  (forall g, g ∈ stack -> exists pg, rtc includes root (g, pg) /\ rtc includes (g, pg) (f, pf)) -> ts ⊆ targetsOf f pf ->
  match includeAll (includeLoad cwd files decode range ex stack) stack ts base with
  | Ok base' => Layers ts base base'
  | Err e => includeFails root e (forall base', ~ Layers ts base base')
  end.
Proof.
  induction ts as [|[g envFiles] ts IH]; intros base Hex Hst Hts; cbn; [constructor|].
  assert (Hg : (g, envFiles) ∈ targetsOf f pf) by (apply Hts; by left).
  case_bool_decide as Hin.
  { split; [done|]. left. exists g. split; [done|]. destruct (Hst g Hin) as (pg & Hr & Hpg). exists pg, f, pf.
    split; [done|]. split; [done|].
    apply list_elem_of_fmap. by exists (g, envFiles). }
  pose proof (includeLoad_read ex stack g envFiles) as Hl. destruct (readModel g envFiles) as [pg|] eqn:Hr.
  - rewrite Hl. pose proof (Hex g pg (includes_target _ _ _ _ _ Hg Hr) Hin) as He.
    destruct (ex pg g ({[g]} ∪ stack)) as [pg'|e]; cbn.
    + assert (Hts' : ts ⊆ targetsOf f pf) by (intros x Hx; apply Hts; by right).
      pose proof (IH (mergeProjectInto base pg') Hex Hst Hts') as IH'.
      destruct (includeAll _ stack ts (mergeProjectInto base pg')) as [b|e]; [by econstructor|].
      destruct IH' as [Hne [Hc|Hno]]; (split; [done|]); [by left|right]. intros b Hb. inversion Hb; subst.
      simplify_eq. match goal with Hm : Model g pg ?p, Hlay : Layers ts _ _ |- _ => rewrite (Model_det _ _ _ Hm _ He) in Hlay end.
      by eapply Hno.
    + destruct He as [Hne [Hc|Hno]]; (split; [done|]); [by left|right]. intros b Hb. inversion Hb; subst. simplify_eq. by eapply Hno.
  - destruct Hl as (e & -> & He). split; [done|]. right. intros b Hb. inversion Hb; subst. simplify_eq.
Qed.

Lemma expand_spec (root : bytes * parsedFile) fuel : forall pf f (stack : gset bytes), rtc includes root (f, pf) ->
  (forall g, g ∈ stack -> exists pg, rtc includes root (g, pg) /\ rtc includes (g, pg) (f, pf)) -> stack ⊆ {[root.1]} ∪ dom files ->
  (3 + size files <= fuel + size stack)%nat ->
  match expand cwd files decode range fuel pf f stack with
  | Ok pf' => Model f pf pf'
  | Err e => includeFails root e (forall pf', ~ Model f pf pf')
  end.
Proof.
  induction fuel as [|fuel IH]; intros pf f stack Hroot Hst Hsub Hfuel.
  { apply subseteq_size in Hsub. rewrite size_union_alt, size_singleton in Hsub.
    pose proof (subseteq_size (dom files ∖ {[root.1]}) (dom files) ltac:(set_solver)) as Hd. rewrite size_dom in Hd. lia. }
  cbn [expand]. destruct (pd_Include (pf_doc pf)) as [|ref refs] eqn:Hi; [by constructor|]. rewrite <-Hi.
  pose proof (includeAll_spec root (expand cwd files decode range fuel) f pf stack (targetsOf f pf) emptyProject) as H.
  specialize (fun h => H h Hst ltac:(done)). unfold targetsOf in H at 1. lapply H; clear H; [intros H|].
  2:{ intros g pg Hg Hn. assert (Hrg : rtc includes root (g, pg)) by (by eapply rtc_r). apply IH.
      - done.
      - intros k. rewrite elem_of_union, elem_of_singleton. intros [->|Hk]; [by exists pg|].
        destruct (Hst k Hk) as (pk & Hrk & Hpk). exists pk. split; [done|]. by eapply rtc_r.
      - inversion Hg; subst. apply union_subseteq. split; [|done]. apply singleton_subseteq_l, elem_of_union_r.
        by eapply readModel_parsed.
      - rewrite size_union, size_singleton by set_solver. lia. }
  destruct (includeAll _ stack _ emptyProject) as [b|e]; cbn.
  - constructor; [congruence|done].
  - destruct H as [Hne [Hc|Hno]]; (split; [done|]); [by left|right].
    intros pf' Hm. inversion Hm; subst; [congruence|]. by eapply Hno.
Qed.

(** Where an expansion succeeds, no file further down includes one on the stack or itself. *)
Definition noReturn (top : bytes * parsedFile) (stack : gset bytes) : Prop :=
  forall a b t, rtc includes top a -> rtc includes a b -> t ∈ (targetsOf b.1 b.2).*1 -> (t ∉ stack) /\ t <> a.1.

Lemma includeAll_ok (ex : parsedFile -> bytes -> gset bytes -> res loadErr parsedFile) stack ts : forall base base',
  includeAll (includeLoad cwd files decode range ex stack) stack ts base = Ok base' ->
  forall g envFiles, (g, envFiles) ∈ ts -> (g ∉ stack) /\
    forall pg, readModel g envFiles = Some pg -> exists pg', ex pg g ({[g]} ∪ stack) = Ok pg'.
Proof.
  induction ts as [|[h env] ts IH]; intros base base'; cbn [includeAll]; [intros _ g e H; by apply elem_of_nil in H|].
  case_bool_decide as Hin; [done|]. pose proof (includeLoad_read ex stack h env) as Hl.
  destruct (includeLoad cwd files decode range ex stack h env) as [inc|] eqn:Hinc; [|done]. intros H g e [Heq|Hg]%elem_of_cons.
  - injection Heq as -> ->. split; [done|]. intros pg Hpg. rewrite Hpg in Hl. by exists inc.
  - by eapply IH.
Qed.

Lemma expand_noReturn fuel : forall pf f stack pf', f ∈ stack -> expand cwd files decode range fuel pf f stack = Ok pf' ->
  noReturn (f, pf) stack.
Proof.
  induction fuel as [|fuel IH]; intros pf f stack pf' Hf; [done|]. cbn [expand].
  assert (Hnil : pd_Include (pf_doc pf) = [] -> noReturn (f, pf) stack).
  { intros Hi a b t Hta Hab Ht. exfalso.
    assert (Hno : forall c, rtc includes (f, pf) c -> c = (f, pf)).
    { intros c Hc. inversion Hc as [|? y ? Hy]; subst; [done|]. inversion Hy as [? ? g e pg Hg]; subst. unfold targetsOf in Hg.
      rewrite Hi in Hg. by apply elem_of_nil in Hg. }
    rewrite (Hno b) in Ht by (by etrans). unfold targetsOf in Ht. cbn in Ht. rewrite Hi in Ht. by apply elem_of_nil in Ht. }
  destruct (pd_Include (pf_doc pf)) as [|ref refs] eqn:Hi; [intros _; by apply Hnil|]. clear Hnil. rewrite <-Hi. fold (targetsOf f pf).
  destruct (includeAll _ stack (targetsOf f pf) emptyProject) as [b|] eqn:Hall; [|done]. intros _.
  pose proof (includeAll_ok _ _ _ _ _ Hall) as Hts. clear Hall.
  assert (Hchild : forall c, includes (f, pf) c -> noReturn c ({[c.1]} ∪ stack)).
  { intros c Hc. inversion Hc as [? ? g env pg Hg Hr]; subst. destruct (Hts g env Hg) as [_ Hex]. destruct (Hex pg Hr) as [pg' Hpg].
    cbn. eapply IH; [|exact Hpg]. set_solver. }
  intros a c t Hta Hac Ht. inversion Hta as [|? y ? Hy Hya]; subst.
  - assert (Hn : t ∉ stack); [|split; [done|]; intros ->; by apply Hn].
    inversion Hac as [|? y ? Hy Hyc]; subst.
    + apply list_elem_of_fmap in Ht as ([t' env] & -> & Ht). by apply (Hts t' env).
    + destruct (Hchild y Hy y c t) as [Hn _]; [done|done|done|]. set_solver.
  - destruct (Hchild y Hy a c t Hya Hac Ht) as [Hn Hne]. split; [set_solver|done].
Qed.

(** C8. [processInclude] ends.  When it succeeds the result is the including file laid over the services,
    secrets, volumes and networks of the models it includes, nothing is left to include, and no file that the chains of includes reach
    includes itself again; when it fails, either such a file exists and is the one reported, or the model of some
    included file cannot be had. *)
Theorem include_exact (pf : parsedFile) (file : bytes) :
  let root := (filepathAbs cwd file, pf) in
  match processInclude cwd files decode range pf file with
  | Ok pf' => Model root.1 pf pf' /\ pd_Include (pf_doc pf') = [] /\ forall f, ~ includesItself root f
  | Err e => includeFails root e (forall pf', ~ Model root.1 pf pf')
  end.
Proof.
  cbv zeta. cbn [fst]. unfold processInclude. set (f := filepathAbs cwd file).
  assert (Hself : noReturn (f, pf) {[f]} -> forall g, ~ includesItself (f, pf) g).
  { intros Hn g (pg & h & ph & Hg & Hh & Ht). by destruct (Hn (g, pg) (h, ph) g Hg Hh Ht). }
  destruct (pd_Include (pf_doc pf)) as [|ref refs] eqn:Hi.
  - split; [by constructor|]. split; [done|]. apply Hself. apply (expand_noReturn 1 pf f {[f]} pf); [set_solver|].
    cbn [expand]. by rewrite Hi.
  - pose proof (expand_spec (f, pf) (2 + size files) pf f {[f]} ltac:(done)) as H.
    specialize (H ltac:(intros g ->%elem_of_singleton; by exists pf) ltac:(set_solver) ltac:(rewrite size_singleton; lia)).
    destruct (expand cwd files decode range (2 + size files) pf f {[f]}) as [pf'|e] eqn:He; [|done].
    split; [done|]. split; [by inversion H; subst|]. apply Hself.
    apply (expand_noReturn (2 + size files) pf f {[f]} pf'); [set_solver|exact He].
Qed.
End ExtendsMain.
