(* ===== verification/ComposeOrder.v ===== *)
(** * ComposeOrder: profiles and the dependency order (pkg/compose/project.go)

    A loaded project, the view of it that a set of active profiles selects, the order in which its
    services are brought up, and the defaults of the project that their plans inherit.  [Service] has the fields of
    [ServiceDocument], which the conversions copy one by one; the model uses the one type for both.

    - [Order_exact]: the order has every service once, dependencies first, or a real cycle is reported.
    - [View_exact]: a view has the services of the active profiles and what they depend on, and no other. *)
From Stdlib Require Import ZArith Lia.
From Stdlib.Strings Require Import Byte.
From stdpp Require Import base list gmap sets relations.
From S2P Require Import Prelude GoStd ComposeDoc ComposeLoad.
Set Warnings "-register-all".

(** ** The project *)
Record Project `{Blocks} := mkProject {
  pr_name : bytes; pr_services : gmap bytes ServiceDocument; pr_secrets : gmap bytes SecretDefDocument;
  pr_configs : gmap bytes ConfigDefDocument; pr_volumes : gmap bytes VolumeDefDocument; pr_networks : gmap bytes NetworkDefDocument;
  pr_egress : option EgressDocument; pr_ingress : option IngressDocument; pr_telemetry : option TelemetryDocument;
  pr_credentials : option CredentialsDocument; pr_shells : list bytes;
}.
Arguments mkProject {_}.

Definition NewProject `{Blocks} (doc : ProjectDocument) : Project :=
  mkProject (pd_Name doc) (pd_Services doc) (pd_Secrets doc) (pd_Configs doc) (pd_Volumes doc) (pd_Networks doc) (pd_Egress doc)
    (pd_Ingress doc) (pd_Telemetry doc) (pd_Credentials doc) (default [] (pd_Shells doc)).

Definition dependNames `{Blocks} (s : ServiceDocument) : list bytes := dep_Service <$> sd_DependsOn s.

(** ** Order *)
Inductive visitMark := Active | Visited.
#[export] Instance visitMark_eq_dec : EqDecision visitMark := ltac:(solve_decision).

Inductive orderErr := ErrCycle (path : list bytes) | ErrOrderFuel.

Section Order.
  Context `{Blk : Blocks} (svcs : gmap bytes ServiceDocument).

Definition depsOf (n : bytes) : list bytes :=
  match svcs !! n with Some s => sortStrings (dependNames s) | None => [] end.

(** The loop over the dependencies of a service; an unknown one is ignored. *)
Fixpoint visitDeps (visit : bytes -> gmap bytes visitMark * list bytes -> res orderErr (gmap bytes visitMark * list bytes))
    (deps : list bytes) (st : gmap bytes visitMark * list bytes) : res orderErr (gmap bytes visitMark * list bytes) :=
  match deps with
  | [] => Ok st
  | dep :: deps =>
      if bool_decide (is_Some (svcs !! dep)) then st ← visit dep st; visitDeps visit deps st else visitDeps visit deps st
  end.

(** The state is [state] and [order]. *)
Fixpoint visit (fuel : nat) (stack : list bytes) (n : bytes) (st : gmap bytes visitMark * list bytes) :
    res orderErr (gmap bytes visitMark * list bytes) :=
  match fuel with
  | O => Err ErrOrderFuel
  | S fuel =>
      match st.1 !! n with
      | Some Visited => Ok st
      | Some Active => Err (ErrCycle (stack ++ [n]))
      | None =>
          '(state, order) ← visitDeps (visit fuel (stack ++ [n])) (depsOf n) (<[n := Active]> st.1, st.2);
          Ok (<[n := Visited]> state, order ++ [n])
      end
  end.

Definition serviceNames : list bytes := sortStrings (map_to_list svcs).*1.

Fixpoint visitAll (fuel : nat) (names : list bytes) (st : gmap bytes visitMark * list bytes) : res orderErr (list bytes) :=
  match names with
  | [] => Ok st.2
  | n :: names => st ← visit fuel [] n st; visitAll fuel names st
  end.

Definition Order : res orderErr (list bytes) := visitAll (S (size svcs)) serviceNames (∅, []).
End Order.

(** ** View *)
Section View.
  Context `{Blk : Blocks} (range : forall A, gmap bytes A -> list bytes) (all : gmap bytes ServiceDocument) (profiles : list bytes).

Definition gated : bool := bool_decide (map_Exists (fun _ s => sd_Profiles s <> []) all).

(** The services enabled by the active profiles, before their dependencies. *)
Definition enabledBy (s : ServiceDocument) : bool :=
  match sd_Profiles s with
  | [] => true
  | prs => existsb (fun pr => bool_decide (pr ∈ filter (fun p => p <> []) profiles)) prs
  end.
Definition baseEnabled : gmap bytes ServiceDocument := filter (fun '(_, s) => enabledBy s = true) all.

Definition enableDep (st : list bytes * gset bytes) (dep : bytes) : list bytes * gset bytes :=
  if bool_decide (is_Some (all !! dep)) && bool_decide (dep ∉ st.2) then (dep :: st.1, {[dep]} ∪ st.2) else st.

(** The worklist; its head is the end of the code's [queue]. *)
Fixpoint pullIn (fuel : nat) (queue : list bytes) (enabled : gset bytes) : option (gset bytes) :=
  match fuel, queue with
  | _, [] => Some enabled
  | O, _ => None
  | S fuel, name :: queue =>
      match all !! name with
      | None => pullIn fuel queue enabled
      | Some s => let '(queue, enabled) := foldl enableDep (queue, enabled) (dependNames s) in pullIn fuel queue enabled
      end
  end.

Definition viewServices : option (gmap bytes ServiceDocument) :=
  if gated then
    enabled ← pullIn (size all) (rev (range _ baseEnabled)) (dom baseEnabled);
    Some (filter (fun '(n, _) => n ∈ enabled) all)
  else Some all.
End View.

(** [selected]: the project a view plans and orders. *)
Definition selected `{Blocks} (p : Project) (services : gmap bytes ServiceDocument) : Project :=
  mkProject (pr_name p) services (pr_secrets p) (pr_configs p) (pr_volumes p) (pr_networks p) (pr_egress p) (pr_ingress p)
    (pr_telemetry p) None [].

(** ** What Order computes *)
Section OrderFacts.
  Context `{Blk : Blocks} (svcs : gmap bytes ServiceDocument).

(** A dependency the project has. *)
Definition dependsOn (n d : bytes) : Prop := exists s, svcs !! n = Some s /\ d ∈ dependNames s /\ is_Some (svcs !! d).

Lemma elem_of_depsOf n d : d ∈ depsOf svcs n /\ is_Some (svcs !! d) <-> dependsOn n d.
Proof.
  unfold depsOf, dependsOn. destruct (svcs !! n) as [s|] eqn:Hn.
  - rewrite elem_of_sortStrings. naive_solver.
  - split; [intros [H _]; by apply elem_of_nil in H|naive_solver].
Qed.

(** A walk along dependencies. *)
Fixpoint walk (l : list bytes) : Prop :=
  match l with
  | a :: (b :: _) as l' => dependsOn a b /\ walk l'
  | _ => True
  end.

(** A reported path: a walk along dependencies whose end occurs in it before. *)
Definition isCycle (path : list bytes) : Prop := exists q n, path = q ++ [n] /\ n ∈ q /\ walk path.

Lemma walk_snoc l a b : walk (l ++ [a]) -> dependsOn a b -> walk ((l ++ [a]) ++ [b]).
Proof.
  induction l as [|x [|y l] IH]; cbn; [done|naive_solver|]. intros [H1 H2] Hb. split; [done|]. by apply IH.
Qed.

Lemma walk_tc l a b : walk (a :: l ++ [b]) -> tc dependsOn a b.
Proof.
  revert a. induction l as [|c l IH]; intros a [H1 H2]; [by apply tc_once|]. eapply tc_l; [exact H1|]. by apply IH.
Qed.

Lemma walk_drop p l : walk (p ++ l) -> walk l.
Proof. induction p as [|a p IH]; [done|]. cbn [app]. intros H. apply IH. destruct (p ++ l); [done|]. apply H. Qed.

Lemma isCycle_tc path : isCycle path -> exists n, tc dependsOn n n.
Proof.
  intros (q & n & -> & Hn & Hw). apply list_elem_of_split in Hn as (q1 & q2 & ->). exists n.
  apply (walk_tc q2). apply (walk_drop q1). by rewrite <-app_assoc in Hw.
Qed.

(** In [order] every dependency of a service comes before it. *)
Definition depsFirst (order : list bytes) : Prop :=
  forall i n d, order !! i = Some n -> dependsOn n d -> exists j, (j < i)%nat /\ order !! j = Some d.

Record visitInv (stack : list bytes) (st : gmap bytes visitMark * list bytes) : Prop := {
  vi_active : forall n, st.1 !! n = Some Active <-> n ∈ stack;
  vi_visited : forall n, st.1 !! n = Some Visited <-> n ∈ st.2;
  vi_nodup : NoDup st.2;
  vi_deps : depsFirst st.2;
  vi_known : forall n, n ∈ st.2 -> is_Some (svcs !! n);
}.

Lemma depsFirst_snoc order n : depsFirst order -> (forall d, dependsOn n d -> d ∈ order) -> depsFirst (order ++ [n]).
Proof.
  intros Ho Hn i m d Hi Hd. apply lookup_app_Some in Hi as [Hi|[Hl Hi]].
  - destruct (Ho i m d Hi Hd) as (j & Hj & Hjd). exists j. split; [done|]. by apply lookup_app_l_Some.
  - apply list_lookup_singleton_Some in Hi as [Hi ->]. apply Hn, list_elem_of_lookup in Hd as [j Hj].
    exists j. split; [apply lookup_lt_Some in Hj; lia|]. by apply lookup_app_l_Some.
Qed.

Lemma depsFirst_acyclic order n : NoDup order -> depsFirst order -> (forall m, is_Some (svcs !! m) -> m ∈ order) -> ~ tc dependsOn n n.
Proof.
  intros Hnd Ho Hall Ht.
  assert (H : forall a b, tc dependsOn a b -> forall i, order !! i = Some a -> exists j, (j < i)%nat /\ order !! j = Some b).
  { induction 1 as [a b Hab|a c b Hac _ IH]; intros i Hi; [by eapply Ho|].
    destruct (Ho i a c Hi Hac) as (k & Hk & Hkc). destruct (IH k Hkc) as (j & Hj & Hjb). exists j. split; [lia|done]. }
  assert (Hn : is_Some (svcs !! n)) by (inversion Ht as [? ? (s & Hs & _)|? ? ? (s & Hs & _) _]; by exists s).
  apply Hall, list_elem_of_lookup in Hn as [i Hi]. destruct (H n n Ht i Hi) as (j & Hj & Hjn).
  pose proof (NoDup_lookup _ _ _ _ Hnd Hi Hjn). lia.
Qed.

(** What one call of [visit] does. *)
Definition visited (stack : list bytes) (n : bytes) (st : gmap bytes visitMark * list bytes)
    (r : res orderErr (gmap bytes visitMark * list bytes)) : Prop :=
  match r with
  | Ok st' => visitInv stack st' /\ n ∈ st'.2 /\ st.2 ⊆ st'.2
  | Err (ErrCycle path) => isCycle path
  | Err ErrOrderFuel => False
  end.

Lemma visitDeps_spec f stack deps : forall st, visitInv stack st ->
  (forall d st, d ∈ deps -> is_Some (svcs !! d) -> visitInv stack st -> visited stack d st (f d st)) ->
  match visitDeps svcs f deps st with
  | Ok st' => visitInv stack st' /\ (forall d, d ∈ deps -> is_Some (svcs !! d) -> d ∈ st'.2) /\ st.2 ⊆ st'.2
  | Err (ErrCycle path) => isCycle path
  | Err ErrOrderFuel => False
  end.
Proof.
  induction deps as [|d deps IH]; intros st Hi Hf; cbn; [split; [done|]; split; [intros d Hd; by apply elem_of_nil in Hd|done]|].
  assert (Hf' : forall x st, x ∈ deps -> is_Some (svcs !! x) -> visitInv stack st -> visited stack x st (f x st))
    by (intros x st' Hx; apply Hf; by right).
  case_bool_decide as Hd.
  - pose proof (Hf d st ltac:(by left) Hd Hi) as H. unfold visited in H. destruct (f d st) as [st1|[path|]]; cbn; [|done|done].
    destruct H as (H1 & H2 & H3). specialize (IH st1 H1 Hf'). destruct (visitDeps svcs f deps st1) as [st2|[path|]]; [|done|done].
    destruct IH as (I1 & I2 & I3). split; [done|]. split; [|set_solver]. intros x [->|Hx]%elem_of_cons Hk; [by apply I3|by apply I2].
  - specialize (IH st Hi Hf'). destruct (visitDeps svcs f deps st) as [st2|[path|]]; [|done|done].
    destruct IH as (I1 & I2 & I3). split; [done|]. split; [|done]. intros x [->|Hx]%elem_of_cons Hk; [done|by apply I2].
Qed.

Lemma visitInv_enter stack st n : visitInv stack st -> st.1 !! n = None -> visitInv (stack ++ [n]) (<[n := Active]> st.1, st.2).
Proof.
  intros [H1 H2 H3 H4 H5] Hn. split; cbn; try done; intros m.
  - destruct (decide (m = n)) as [->|]; [rewrite lookup_insert_eq; set_solver|].
    rewrite lookup_insert_ne, H1 by done. set_solver.
  - destruct (decide (m = n)) as [->|]; [|by rewrite lookup_insert_ne].
    rewrite lookup_insert_eq. split; [done|]. intros Hm%H2. congruence.
Qed.

Lemma visitInv_leave stack state order n : visitInv (stack ++ [n]) (state, order) -> n ∉ stack -> is_Some (svcs !! n) ->
  (forall d, dependsOn n d -> d ∈ order) -> visitInv stack (<[n := Visited]> state, order ++ [n]).
Proof.
  intros [H1 H2 H3 H4 H5] Hn Hk Hd. cbn in *.
  assert (Hno : n ∉ order) by (intros H%H2; assert (Ha : state !! n = Some Active) by (apply H1; set_solver); congruence).
  split; cbn.
  - intros m. destruct (decide (m = n)) as [->|]; [rewrite lookup_insert_eq; split; done|]. rewrite lookup_insert_ne, H1 by done. set_solver.
  - intros m. destruct (decide (m = n)) as [->|]; [rewrite lookup_insert_eq; set_solver|]. rewrite lookup_insert_ne, H2 by done. set_solver.
  - apply NoDup_app. split; [done|]. split; [set_solver|apply NoDup_singleton].
  - by apply depsFirst_snoc.
  - set_solver.
Qed.

Lemma visit_spec fuel : forall stack n st, visitInv stack st -> NoDup stack -> (forall m, m ∈ stack -> is_Some (svcs !! m)) ->
  is_Some (svcs !! n) -> walk (stack ++ [n]) -> (S (size svcs) <= fuel + length stack)%nat ->
  visited stack n st (visit svcs fuel stack n st).
Proof.
  induction fuel as [|fuel IH]; intros stack n st Hi Hnd Hst Hn Hw Hfuel.
  { assert (length stack <= size svcs)%nat; [|lia]. rewrite <-size_dom, <-(size_list_to_set (C := gset bytes)) by done.
    apply subseteq_size. intros m Hm%elem_of_list_to_set. by apply elem_of_dom, Hst. }
  cbn [visit]. destruct (st.1 !! n) as [[]|] eqn:Hs.
  - cbn. exists stack, n. split; [done|]. split; [by apply (vi_active _ _ Hi)|done].
  - cbn. split; [done|]. split; [by apply (vi_visited _ _ Hi)|done].
  - assert (Hns : n ∉ stack) by (intros H%(vi_active _ _ Hi); congruence).
    pose proof (visitDeps_spec (visit svcs fuel (stack ++ [n])) (stack ++ [n]) (depsOf svcs n) _ (visitInv_enter _ _ _ Hi Hs)) as H.
    lapply H; clear H; [intros H|].
    2:{ intros d st' Hd Hk Hi'. apply IH; try done.
        - apply NoDup_app. split; [done|]. split; [set_solver|apply NoDup_singleton].
        - intros m. rewrite elem_of_app, list_elem_of_singleton. intros [Hm| ->]; [by apply Hst|done].
        - apply walk_snoc; [done|]. by apply elem_of_depsOf.
        - rewrite length_app. cbn. lia. }
    destruct (visitDeps svcs _ (depsOf svcs n) _) as [[state order]|[path|]]; cbn; [|done|done].
    destruct H as (H1 & H2 & H3). cbn in H2, H3. split; [|set_solver].
    apply visitInv_leave; [done|done|done|]. intros d Hd. apply elem_of_depsOf in Hd as [Hd Hk]. by apply H2.
Qed.

Lemma visitAll_spec names : forall st, visitInv [] st -> (forall n, n ∈ names -> is_Some (svcs !! n)) ->
  match visitAll svcs (S (size svcs)) names st with
  | Ok order => exists st', order = st'.2 /\ visitInv [] st' /\ forall n, n ∈ names \/ n ∈ st.2 -> n ∈ order
  | Err (ErrCycle path) => isCycle path
  | Err ErrOrderFuel => False
  end.
Proof.
  induction names as [|n names IH]; intros st Hi Hn; cbn [visitAll]; [exists st; set_solver|].
  pose proof (visit_spec (S (size svcs)) [] n st Hi) as H.
  specialize (H ltac:(constructor) ltac:(set_solver) ltac:(set_solver) ltac:(done) ltac:(cbn; lia)). unfold visited in H.
  destruct (visit svcs (S (size svcs)) [] n st) as [st1|[path|]]; [|exact H|exact H].
  destruct H as (H1 & H2 & H3). specialize (IH st1 H1 ltac:(set_solver)).
  change (Ok st1 ≫= ?f) with (f st1). cbv beta.
  destruct (visitAll svcs (S (size svcs)) names st1) as [order|[path|]]; [|done|done].
  destruct IH as (st' & -> & I1 & I2). exists st'. split; [done|]. split; [done|]. set_solver.
Qed.

Lemma elem_of_serviceNames n : n ∈ serviceNames svcs <-> is_Some (svcs !! n).
Proof.
  unfold serviceNames. rewrite elem_of_sortStrings, list_elem_of_fmap. split.
  - intros ([k s] & -> & Hs%elem_of_map_to_list). by exists s.
  - intros [s Hs]. exists (n, s). split; [done|]. by apply elem_of_map_to_list.
Qed.

Lemma visitInv_start : visitInv [] (∅, []).
Proof.
  split; cbn; try (intros n; rewrite lookup_empty; split; [done|]; by intros H%elem_of_nil).
  - constructor.
  - intros i n d Hi. by rewrite lookup_nil in Hi.
  - intros n H. by apply elem_of_nil in H.
Qed.

Lemma Order_spec :
  match Order svcs with
  | Ok order => NoDup order /\ (forall n, n ∈ order <-> is_Some (svcs !! n)) /\ depsFirst order
  | Err (ErrCycle path) => isCycle path
  | Err ErrOrderFuel => False
  end.
Proof.
  pose proof (visitAll_spec (serviceNames svcs) _ visitInv_start ltac:(intros n; apply elem_of_serviceNames)) as H.
  unfold Order. destruct (visitAll svcs _ _ _) as [order|[path|]]; [|done|done].
  destruct H as (st & -> & Hi & Hall). split; [apply Hi|]. split; [|apply Hi].
  intros n. split; [apply Hi|]. intros Hn. apply Hall. left. by apply elem_of_serviceNames.
Qed.

(** C3. [Order] ends, and gives every service of the project exactly once, each after all its dependencies
    that the project has; it does so exactly when no service depends on itself over any chain, and otherwise reports
    a walk along declared dependencies that comes back to a service. *)
Theorem Order_exact :
  match Order svcs with
  | Ok order => order ≡ₚ (map_to_list svcs).*1 /\ depsFirst order /\ forall n, ~ tc dependsOn n n
  | Err (ErrCycle path) => isCycle path /\ exists n, tc dependsOn n n
  | Err ErrOrderFuel => False
  end.
Proof.
  pose proof Order_spec as H. destruct (Order svcs) as [order|[path|]]; [|split; [done|by apply isCycle_tc in H]|done].
  destruct H as (Hnd & Hall & Hd). split; [|split; [done|]].
  - apply NoDup_Permutation; [done|apply NoDup_fst_map_to_list|]. intros n.
    by rewrite Hall, <-elem_of_serviceNames, <-(elem_of_sortStrings n (map_to_list svcs).*1).
  - intros n. eapply depsFirst_acyclic; [done|done|]. intros m. apply Hall.
Qed.
End OrderFacts.

(** ** What View computes *)
Section ViewFacts.
  Context `{Blk : Blocks} (all : gmap bytes ServiceDocument) (profiles : list bytes).

(** A service of the active profiles, or one that such a service depends on over some chain. *)
Definition Selected (n : bytes) : Prop :=
  exists m s, all !! m = Some s /\ enabledBy profiles s = true /\ rtc (dependsOn all) m n.

Lemma enableDeps_spec deps : forall queue enabled,
  let st := foldl (enableDep all) (queue, enabled) deps in
  (forall x, x ∈ st.2 <-> x ∈ enabled \/ (x ∈ deps /\ is_Some (all !! x))) /\
  (forall x, x ∈ st.1 -> x ∈ queue \/ x ∈ st.2) /\ (forall x, x ∈ st.2 -> x ∈ enabled \/ x ∈ st.1) /\ queue ⊆ st.1 /\
  (length st.1 + size enabled = length queue + size st.2)%nat.
Proof.
  induction deps as [|d deps IH]; intros queue enabled; [cbn; set_solver|]. cbn [foldl].
  destruct (enableDep all (queue, enabled) d) as [q0 e0] eqn:E. unfold enableDep in E. cbn [fst snd] in E.
  destruct (bool_decide (is_Some (all !! d))) eqn:Hd; [destruct (bool_decide (d ∉ enabled)) eqn:He|]; cbn [andb] in E; injection E as <- <-;
    [apply bool_decide_eq_true in Hd, He|apply bool_decide_eq_false in He|apply bool_decide_eq_false in Hd].
  - specialize (IH (d :: queue) ({[d]} ∪ enabled)). cbv zeta in IH |- *. destruct (foldl _ _ deps) as [q e]; cbn [fst snd] in *.
    destruct IH as (I1 & I2 & I3 & I4 & I5). rewrite size_union, size_singleton in I5 by set_solver. cbn [length] in I5.
    assert (He' : d ∈ e) by (apply I1; set_solver). assert (Hq : d ∈ q) by (apply I4; by left). split_and!; [| | | |lia].
    + intros x. rewrite I1, elem_of_union, elem_of_singleton, elem_of_cons. naive_solver.
    + intros x Hx. destruct (I2 x Hx) as [[->|Hq']%elem_of_cons|]; [by right|by left|by right].
    + intros x Hx. destruct (I3 x Hx) as [[->%elem_of_singleton|He'']%elem_of_union|]; [by right|by left|by right].
    + intros x Hx. apply I4. by right.
  - specialize (IH queue enabled). cbv zeta in IH |- *. destruct IH as (I1 & I2 & I3 & I4 & I5). split_and!; try done.
    intros x. rewrite I1, elem_of_cons. destruct (decide (d ∈ enabled)); [naive_solver|done].
  - specialize (IH queue enabled). cbv zeta in IH |- *. destruct IH as (I1 & I2 & I3 & I4 & I5). split_and!; try done.
    intros x. rewrite I1, elem_of_cons. naive_solver.
Qed.

Record pullInv (queue : list bytes) (enabled : gset bytes) : Prop := {
  pi_sound : forall n, n ∈ enabled -> Selected n /\ is_Some (all !! n);
  pi_closed : forall n, n ∈ enabled -> n ∈ queue \/ forall d, dependsOn all n d -> d ∈ enabled;
  pi_queue : forall n, n ∈ queue -> n ∈ enabled;
}.

Lemma pullInv_step name s queue enabled : all !! name = Some s -> pullInv (name :: queue) enabled ->
  let st := foldl (enableDep all) (queue, enabled) (dependNames s) in pullInv st.1 st.2.
Proof.
  intros Hn [H1 H2 H3]. pose proof (enableDeps_spec (dependNames s) queue enabled) as H. cbv zeta in H |- *.
  destruct (foldl _ _ (dependNames s)) as [q e]; cbn [fst snd] in *. destruct H as (I1 & I2 & I3 & I4 & _). split.
  - intros n [Hx|[Hx Hk]]%I1; [by apply H1|]. split; [|done].
    destruct (H1 name ltac:(apply H3; by left)) as [(m & s' & Hm & He & Hr) _]. exists m, s'. split; [done|]. split; [done|].
    eapply rtc_r; [done|]. by exists s.
  - intros n Hx. destruct (I3 n Hx) as [He|]; [|by left]. destruct (H2 n He) as [[->|Hq]%elem_of_cons|Hd]; [right|left; by apply I4|right].
    + intros d (s' & Hs' & Hd & Hk). simplify_eq. apply I1. by right.
    + intros d Hd'. apply I1. left. by apply Hd.
  - intros n [Hq|Hx]%I2; [|done]. apply I1. left. apply H3. by right.
Qed.

Lemma pullIn_spec fuel : forall queue enabled, pullInv queue enabled -> (length queue + size all <= fuel + size enabled)%nat ->
  exists e, pullIn all fuel queue enabled = Some e /\ pullInv [] e /\ enabled ⊆ e.
Proof.
  induction fuel as [|fuel IH]; intros queue enabled Hi Hfuel.
  { destruct queue as [|x q]; [by exists enabled|]. exfalso.
    assert (size enabled <= size all)%nat; [|cbn in Hfuel; lia]. rewrite <-size_dom. apply subseteq_size.
    intros n Hn. apply elem_of_dom. by apply (pi_sound _ _ Hi). }
  destruct queue as [|name queue]; [by exists enabled|]. cbn [pullIn].
  destruct (pi_sound _ _ Hi name) as [_ [s Hs]]; [apply (pi_queue _ _ Hi); by left|]. rewrite Hs.
  pose proof (pullInv_step name s queue enabled Hs Hi) as Hst. pose proof (enableDeps_spec (dependNames s) queue enabled) as H.
  cbv zeta in Hst, H. destruct (foldl _ _ (dependNames s)) as [q e]; cbn [fst snd] in *. destruct H as (I1 & _ & _ & _ & I5).
  destruct (IH q e Hst) as (e' & He & Hi' & Hsub); [cbn in Hfuel; lia|]. exists e'. split; [done|]. split; [done|]. set_solver.
Qed.
End ViewFacts.

Section ViewMain.
  Context `{Blk : Blocks} (range : forall A, gmap bytes A -> list bytes) (range_all : forall A (m : gmap bytes A), range A m ≡ₚ (map_to_list m).*1).
  Context (all : gmap bytes ServiceDocument) (profiles : list bytes).

Lemma baseEnabled_spec n : n ∈ dom (baseEnabled all profiles) <-> exists s, all !! n = Some s /\ enabledBy profiles s = true.
Proof.
  unfold baseEnabled. rewrite elem_of_dom. split.
  - intros [s Hs]. apply map_lookup_filter_Some in Hs as [Hs He]. by exists s.
  - intros (s & Hs & He). exists s. by apply map_lookup_filter_Some.
Qed.

Lemma pullInv_base : pullInv all profiles (rev (range _ (baseEnabled all profiles))) (dom (baseEnabled all profiles)).
Proof.
  assert (Hr : forall n, n ∈ rev (range _ (baseEnabled all profiles)) <-> n ∈ dom (baseEnabled all profiles)).
  { intros n. rewrite list_elem_of_In, <-in_rev, <-list_elem_of_In, range_all, elem_of_dom, list_elem_of_fmap. split.
    - intros ([k s] & -> & Hs%elem_of_map_to_list). by exists s.
    - intros [s Hs]. exists (n, s). split; [done|]. by apply elem_of_map_to_list. }
  split.
  - intros n (s & Hs & He)%baseEnabled_spec. split; [|by exists s]. by exists n, s.
  - intros n Hn. left. by apply Hr.
  - intros n Hn. by apply Hr.
Qed.

Lemma Selected_closed (e : gset bytes) n : pullInv all profiles [] e -> dom (baseEnabled all profiles) ⊆ e -> Selected all profiles n -> n ∈ e.
Proof.
  intros Hi Hb (m & s & Hm & He & Hr). assert (Hme : m ∈ e) by (apply Hb, baseEnabled_spec; by exists s).
  clear Hm He Hb. induction Hr as [m|m k n Hmk _ IH]; [done|]. apply IH.
  destruct (pi_closed _ _ _ _ Hi m Hme) as [Hnil|Hc]; [by apply elem_of_nil in Hnil|by apply Hc].
Qed.

Lemma enabledBy_ungated n s : gated all = false -> all !! n = Some s -> enabledBy profiles s = true.
Proof.
  unfold gated. intros Hg%bool_decide_eq_false Hs. unfold enabledBy. destruct (sd_Profiles s) eqn:E; [done|].
  destruct Hg. exists n, s. by rewrite E.
Qed.

Lemma viewServices_spec : exists services, viewServices range all profiles = Some services /\
  forall n s, services !! n = Some s <-> all !! n = Some s /\ Selected all profiles n.
Proof.
  unfold viewServices. destruct (gated all) eqn:Hg.
  - assert (Hlen : length (rev (range _ (baseEnabled all profiles))) = size (dom (baseEnabled all profiles))).
    { by rewrite length_rev, range_all, length_fmap, size_dom, length_map_to_list. }
    destruct (pullIn_spec all profiles (size all) _ _ pullInv_base) as (e & -> & Hi & Hsub); [lia|].
    eexists. split; [done|]. intros n s. rewrite map_lookup_filter_Some. split.
    + intros [Hs He]. split; [done|]. by apply (pi_sound _ _ _ _ Hi).
    + intros [Hs Hsel]. split; [done|]. by eapply Selected_closed.
  - exists all. split; [done|]. intros n s. split; [|naive_solver]. intros Hs. split; [done|].
    exists n, s. split; [done|]. split; [by eapply enabledBy_ungated|done].
Qed.

Lemma view_dependsOn services n d :
  (forall n s, services !! n = Some s <-> all !! n = Some s /\ Selected all profiles n) ->
  dependsOn services n d <-> is_Some (services !! n) /\ dependsOn all n d.
Proof.
  intros Hv. split.
  - intros (s & Hs & Hd & [t Ht]). split; [by exists s|]. apply Hv in Hs as [Hs _], Ht as [Ht _]. exists s. split_and!; [done|done|by exists t].
  - intros [[s Hs] (s' & Hs' & Hd & [t Ht])]. apply Hv in Hs as Hall. destruct Hall as [Hall (m & sm & Hm & He & Hr)].
    simplify_eq. exists s'. split_and!; [done|done|]. exists t. apply Hv. split; [done|]. exists m, sm. split_and!; [done|done|].
    eapply rtc_r; [done|]. exists s'. split_and!; [done|done|by exists t].
Qed.

(** C5. A view has exactly the services of the active profiles (those without profiles always are) and the
    services these depend on over any chain, whatever their profiles and the order of iteration; its order brings each up after
    every dependency of it that the whole project has, and fails only for a cycle among selected services, never for one
    behind an inactive profile. *)
Theorem View_exact : exists services, viewServices range all profiles = Some services /\
  (forall n s, services !! n = Some s <-> all !! n = Some s /\ Selected all profiles n) /\
  match Order services with
  | Ok order =>
      NoDup order /\ (forall n, n ∈ order <-> is_Some (all !! n) /\ Selected all profiles n) /\
      forall i n d, order !! i = Some n -> dependsOn all n d -> exists j, (j < i)%nat /\ order !! j = Some d
  | Err _ => exists n, Selected all profiles n /\ tc (dependsOn all) n n
  end.
Proof.
  destruct viewServices_spec as (services & Hv & Hs). exists services. split; [done|]. split; [done|].
  pose proof (Order_spec services) as H. destruct (Order services) as [order|[path|]]; [| |done].
  - destruct H as (Hnd & Hall & Hd). split; [done|]. split.
    + intros n. rewrite Hall. split; [intros [s [H1 H2]%Hs]; split; [by exists s|done]|].
      intros [[s H1] H2]. exists s. by apply Hs.
    + intros i n d Hi Hnd'. apply (Hd i n d Hi). apply (view_dependsOn services n d Hs). split; [|done].
      apply Hall. by eapply list_elem_of_lookup_2.
  - apply isCycle_tc in H as [n Hn]. exists n. split.
    + inversion Hn as [? ? (s & H1 & _)|? ? ? (s & H1 & _) _]; subst; by apply Hs in H1 as [_ ?].
    + eapply tc_congruence with (f := id); [|exact Hn]. intros a b Hab. by apply (view_dependsOn services a b Hs).
Qed.
End ViewMain.
