(* ===== verification/ComposePlan.v ===== *)
(** * ComposePlan: the defaults of a project (pkg/compose/project.go, [Project.Plan])

    [Plan] translates every service and lets it inherit the blocks of the project it has none of its own for.  The
    translation of one service and of one block (some thousand lines over the types of the deployment interface) are
    parameters, as are the types it makes; what [Plan] does after the inheritance, the proxies and the addresses, is left out.

    - [Plan_lookup]: which egress, telemetry, credentials, shells and ingress fields the plan of a service has.
    - [view_plan]: the same through a view, where no service inherits credentials or shells. *)
From Stdlib Require Import ZArith Lia.
From Stdlib.Strings Require Import Byte.
From stdpp Require Import base list gmap sets.
From S2P Require Import Prelude GoStd ComposeDoc ComposeLoad ComposeOrder.
Set Warnings "-register-all".

Record planTLS := mkTLS { tls_SecretName : bytes; tls_ClusterIssuer : bytes }.

Section Plan.
  Context `{Blk : Blocks} {E EgressSpec TelemetrySpec CredentialSpec R IR : Type}.

(** The fields the defaults touch, and the rest. *)
Record planIngress := mkPlanIngress { ig_Domain : bytes; ig_ClassName : bytes; ig_TLS : option planTLS; ig_rest : IR }.
Record ServicePlan := mkPlan {
  sp_Egress : option EgressSpec; sp_Telemetry : option TelemetrySpec; sp_Credentials : option CredentialSpec;
  sp_Ingress : option planIngress; sp_Shells : list bytes; sp_rest : R;
}.

  Context (translateService : bytes -> bytes -> ServiceDocument -> gmap bytes SecretDefDocument -> gmap bytes ConfigDefDocument ->
                              gmap bytes VolumeDefDocument -> gmap bytes NetworkDefDocument -> res E ServicePlan)
          (translateEgress : EgressDocument -> res E EgressSpec) (translateTelemetry : TelemetryDocument -> res E TelemetrySpec)
          (translateCredentials : CredentialsDocument -> res E CredentialSpec) (translateIngress : IngressDocument -> res E planIngress).

(** An empty string takes the default. *)
Definition orDefault (v def : bytes) : bytes := match v with [] => def | _ => v end.

Definition applyIngressDefaults (svc def : planIngress) : planIngress :=
  mkPlanIngress (orDefault (ig_Domain svc) (ig_Domain def)) (orDefault (ig_ClassName svc) (ig_ClassName def))
    (match ig_TLS def with
     | None => ig_TLS svc
     | Some d => match ig_TLS svc with
                 | None => Some d
                 | Some s => Some (mkTLS (orDefault (tls_SecretName s) (tls_SecretName d)) (orDefault (tls_ClusterIssuer s) (tls_ClusterIssuer d)))
                 end
     end) (ig_rest svc).

Fixpoint translateAll (projectName : bytes) (p : Project) (names : list (bytes * ServiceDocument)) (plans : gmap bytes ServicePlan) :
    res E (gmap bytes ServicePlan) :=
  match names with
  | [] => Ok plans
  | (name, svc) :: names =>
      plan ← translateService projectName name svc (pr_secrets p) (pr_configs p) (pr_volumes p) (pr_networks p);
      translateAll projectName p names (<[name := plan]> plans)
  end.

(** A block of the project is validated once, then given to each plan without one. *)
Definition inheritBlock {D S} (translate : D -> res E S) (def : option D) (give : S -> ServicePlan -> ServicePlan)
    (plans : gmap bytes ServicePlan) : res E (gmap bytes ServicePlan) :=
  match def with
  | None => Ok plans
  | Some d => s ← translate d; Ok (give s <$> plans)
  end.

Definition giveEgress (s : EgressSpec) (pl : ServicePlan) : ServicePlan :=
  mkPlan (orElse (sp_Egress pl) (Some s)) (sp_Telemetry pl) (sp_Credentials pl) (sp_Ingress pl) (sp_Shells pl) (sp_rest pl).
Definition giveTelemetry (s : TelemetrySpec) (pl : ServicePlan) : ServicePlan :=
  mkPlan (sp_Egress pl) (orElse (sp_Telemetry pl) (Some s)) (sp_Credentials pl) (sp_Ingress pl) (sp_Shells pl) (sp_rest pl).
Definition giveCredentials (s : CredentialSpec) (pl : ServicePlan) : ServicePlan :=
  mkPlan (sp_Egress pl) (sp_Telemetry pl) (orElse (sp_Credentials pl) (Some s)) (sp_Ingress pl) (sp_Shells pl) (sp_rest pl).
Definition giveShells (s : list bytes) (pl : ServicePlan) : ServicePlan :=
  mkPlan (sp_Egress pl) (sp_Telemetry pl) (sp_Credentials pl) (sp_Ingress pl) (match sp_Shells pl with [] => s | own => own end) (sp_rest pl).
Definition giveIngress (s : planIngress) (pl : ServicePlan) : ServicePlan :=
  mkPlan (sp_Egress pl) (sp_Telemetry pl) (sp_Credentials pl) ((fun own => applyIngressDefaults own s) <$> sp_Ingress pl) (sp_Shells pl) (sp_rest pl).

(** [Plan] up to [applyProxyPolicy].  The order of iteration over the services decides only which of several errors is returned. *)
Definition Plan (projectName : bytes) (p : Project) : res E (gmap bytes ServicePlan) :=
  plans ← translateAll projectName p (map_to_list (pr_services p)) ∅;
  plans ← inheritBlock translateEgress (pr_egress p) giveEgress plans;
  plans ← inheritBlock translateTelemetry (pr_telemetry p) giveTelemetry plans;
  plans ← inheritBlock translateCredentials (pr_credentials p) giveCredentials plans;
  let plans := match pr_shells p with [] => plans | l => giveShells l <$> plans end in
  inheritBlock translateIngress (pr_ingress p) giveIngress plans.

(** ** What the plans inherit *)

Definition blockOf {D S} (translate : D -> res E S) (def : option D) : option S :=
  d ← def; match translate d with Ok s => Some s | Err _ => None end.

(** What a block does to one plan. *)
Definition given {S} (give : S -> ServicePlan -> ServicePlan) (s : option S) (pl : ServicePlan) : ServicePlan :=
  match s with Some s => give s pl | None => pl end.

Lemma inheritBlock_lookup {D S} (translate : D -> res E S) def give plans plans' : inheritBlock translate def give plans = Ok plans' ->
  plans' = given give (blockOf translate def) <$> plans.
Proof.
  unfold inheritBlock, blockOf. destruct def as [d|]; cbn.
  - destruct (translate d); [|done]. intros H. by injection H as <-.
  - intros H. injection H as <-. by rewrite map_fmap_id.
Qed.

Lemma translateAll_lookup projectName p names : forall plans out, translateAll projectName p names plans = Ok out ->
  forall n pl, out !! n = Some pl -> plans !! n = Some pl \/
    exists svc, (n, svc) ∈ names /\ translateService projectName n svc (pr_secrets p) (pr_configs p) (pr_volumes p) (pr_networks p) = Ok pl.
Proof.
  induction names as [|[m svc] names IH]; intros plans out; cbn [translateAll]; [intros [= <-]; by left|].
  destruct (translateService projectName m svc _ _ _ _) as [plan|] eqn:Ht; [|done]. intros H n pl Hn.
  destruct (IH _ _ H n pl Hn) as [Hi|(s & Hs & Hok)]; [|right; exists s; split; [by right|done]].
  destruct (decide (n = m)) as [->|Hne]; [|rewrite lookup_insert_ne in Hi by done; by left].
  rewrite lookup_insert_eq in Hi. injection Hi as <-. right. exists svc. split; [by left|done].
Qed.

(** The plan of a service that translates to [own]. *)
Definition withDefaults (p : Project) (own : ServicePlan) : ServicePlan :=
  mkPlan (orElse (sp_Egress own) (blockOf translateEgress (pr_egress p)))
         (orElse (sp_Telemetry own) (blockOf translateTelemetry (pr_telemetry p)))
         (orElse (sp_Credentials own) (blockOf translateCredentials (pr_credentials p)))
         (ig ← sp_Ingress own; Some (match blockOf translateIngress (pr_ingress p) with Some d => applyIngressDefaults ig d | None => ig end))
         (match sp_Shells own with [] => pr_shells p | l => l end) (sp_rest own).

Lemma given_all p own :
  given giveIngress (blockOf translateIngress (pr_ingress p))
    (match pr_shells p with [] => id | l => giveShells l end
      (given giveCredentials (blockOf translateCredentials (pr_credentials p))
        (given giveTelemetry (blockOf translateTelemetry (pr_telemetry p))
          (given giveEgress (blockOf translateEgress (pr_egress p)) own)))) = withDefaults p own.
Proof.
  destruct own as [e t c i s r]. unfold withDefaults. cbn [sp_Egress sp_Telemetry sp_Credentials sp_Ingress sp_Shells sp_rest].
  destruct (blockOf translateEgress _), (blockOf translateTelemetry _), (blockOf translateCredentials _), (blockOf translateIngress _);
    destruct (pr_shells p), e, t, c, i, s; reflexivity.
Qed.

Lemma Plan_lookup projectName p plans n pl :
  Plan projectName p = Ok plans -> plans !! n = Some pl ->
  exists svc own, pr_services p !! n = Some svc /\
    translateService projectName n svc (pr_secrets p) (pr_configs p) (pr_volumes p) (pr_networks p) = Ok own /\ pl = withDefaults p own.
Proof.
  unfold Plan. destruct (translateAll projectName p _ ∅) as [p0|] eqn:H0; [cbn|done].
  destruct (inheritBlock translateEgress _ _ p0) as [p1|] eqn:H1; [cbn|done].
  destruct (inheritBlock translateTelemetry _ _ p1) as [p2|] eqn:H2; [cbn|done].
  destruct (inheritBlock translateCredentials _ _ p2) as [p3|] eqn:H3; [cbn|done]. intros H4 Hn.
  apply inheritBlock_lookup in H1, H2, H3, H4. subst p1 p2 p3 plans.
  assert (Hs : forall m : gmap bytes ServicePlan, match pr_shells p with [] => m | l => giveShells l <$> m end =
                 (match pr_shells p with [] => id | l => giveShells l end) <$> m) by (intros m; destruct (pr_shells p); [by rewrite map_fmap_id|done]).
  rewrite Hs in Hn. rewrite !lookup_fmap in Hn. destruct (p0 !! n) as [own|] eqn:Ho; [|done]. cbn in Hn. injection Hn as <-.
  destruct (translateAll_lookup _ _ _ _ _ H0 n own Ho) as [He|(svc & Hsvc & Hok)]; [by rewrite lookup_empty in He|].
  exists svc, own. split; [by apply elem_of_map_to_list|]. split; [done|]. apply given_all.
Qed.

(** The plan of a service through a view, which is what the commands deploy: the service's own blocks, and
    where it has none the egress and the telemetry of the project; the ingress fields of the project fill those a service that
    opted in left empty.  The credentials and the shells of the project never reach it. *)
Theorem view_plan projectName p services plans n pl :
  Plan projectName (selected p services) = Ok plans -> plans !! n = Some pl ->
  exists svc own, services !! n = Some svc /\
    translateService projectName n svc (pr_secrets p) (pr_configs p) (pr_volumes p) (pr_networks p) = Ok own /\
    sp_Egress pl = orElse (sp_Egress own) (blockOf translateEgress (pr_egress p)) /\
    sp_Telemetry pl = orElse (sp_Telemetry own) (blockOf translateTelemetry (pr_telemetry p)) /\
    sp_Ingress pl = (ig ← sp_Ingress own;
                     Some (match blockOf translateIngress (pr_ingress p) with Some d => applyIngressDefaults ig d | None => ig end)) /\
    sp_Credentials pl = sp_Credentials own /\ sp_Shells pl = sp_Shells own /\ sp_rest pl = sp_rest own.
Proof.
  intros Hp Hn. destruct (Plan_lookup _ _ _ _ _ Hp Hn) as (svc & own & H1 & H2 & ->). exists svc, own.
  split; [done|]. split; [done|]. cbn. split_and!; try done; [by destruct (sp_Credentials own)|by destruct (sp_Shells own)].
Qed.

(** Planned from the project itself, every service has the project's credentials or its own. *)
Lemma project_credentials projectName p plans n pl c cs :
  Plan projectName p = Ok plans -> plans !! n = Some pl -> pr_credentials p = Some c -> translateCredentials c = Ok cs ->
  is_Some (sp_Credentials pl).
Proof.
  intros Hp Hn Hc Ht. destruct (Plan_lookup _ _ _ _ _ Hp Hn) as (svc & own & _ & _ & ->). cbn. unfold blockOf. rewrite Hc. cbn. rewrite Ht.
  destruct (sp_Credentials own); cbn; eauto.
Qed.
End Plan.
