(* ===== verification/ComposeExample.v ===== *)
(** * ComposeExample: a project of three files, and what loading it shows

    The theorems of the other Compose files at a concrete project, and the lemmas behind the findings. *)
From Stdlib Require Import ZArith Lia.
From Stdlib.Strings Require Import Byte.
From stdpp Require Import base list gmap sets relations.
From S2P Require Import Prelude GoStd GoPath ComposeDoc ComposeLoad ComposeMerge ComposeExtends ComposeOrder ComposePlan.
Set Warnings "-register-all".

(** Blocks without content. *)
#[local] Instance exBlocks : Blocks := {| EgressDocument := unit; IngressDocument := unit; TelemetryDocument := unit; CredentialsDocument := unit |}.

Definition exService (image : bytes) (privileged : bool) (ports : list PortDoc) (deps profiles : list bytes) (ext : option ExtendsRef) :
    ServiceDocument := {|
  sd_Image := image; sd_Build := None; sd_Entrypoint := []; sd_Command := []; sd_Environment := ∅; sd_EnvFile := [];
  sd_Ports := ports; sd_Expose := []; sd_Volumes := []; sd_Networks := []; sd_Restart := [];
  sd_DependsOn := (fun d => mkDependency d (go "service_started") true false) <$> deps; sd_Deploy := None;
  sd_Healthcheck := None; sd_ContainerName := []; sd_Privileged := privileged; sd_User := []; sd_WorkingDir := [];
  sd_Hostname := []; sd_Labels := ∅; sd_StopSignal := []; sd_StopGracePeriod := []; sd_Init := None; sd_TTY := false;
  sd_StdinOpen := false; sd_ReadOnly := false; sd_CapAdd := []; sd_CapDrop := []; sd_SecurityOpt := []; sd_GroupAdd := [];
  sd_Sysctls := ∅; sd_ExtraHosts := []; sd_DNS := []; sd_DNSSearch := []; sd_DNSOpt := []; sd_Ulimits := []; sd_Tmpfs := [];
  sd_Devices := []; sd_ShmSize := []; sd_PID := []; sd_IPC := []; sd_MemLimit := []; sd_CPUs := []; sd_Configs := [];
  sd_Secrets := []; sd_Profiles := profiles; sd_Extends := ext; sd_Provider := None; sd_Egress := None; sd_Ingress := None;
  sd_AgentForward := false; sd_Telemetry := None; sd_Credentials := None; sd_Shells := [];
|}.

Definition exDoc (services : list (bytes * ServiceDocument)) (include : list bytes) (configs : list bytes) : ProjectDocument :=
  mkProjectDocument [] (list_to_map services) ∅ (list_to_map ((fun c => (c, mkConfigDefDocument c [] [] false [])) <$> configs)) ∅ ∅
    ((fun f => mkIncludeRef [f] [] []) <$> include) None None None None None.

(** The metadata of a file that writes keys of one service. *)
Definition exMeta (service : bytes) (keys : list (bytes * yamlMeta)) : option yamlMeta :=
  Some (mkMeta false false {[go "services" := mkMeta false false {[service := mkMeta false false (list_to_map keys)]}]}).
Definition exKey : yamlMeta := mkMeta false false ∅.
Definition exReset : yamlMeta := mkMeta true false ∅.

Definition exPort (n : Z) : PortDoc := mkPortDoc n n (go "tcp") [].

(** [a.yml] extends a service of [c.yml] and includes [d.yml]; [b.yml] turns [privileged] off again and resets the ports. *)
Definition exDecode (f data : bytes) (envFiles : list bytes) : option parsedFile :=
  if bool_decide (data = go "a") then
    Some (mkParsed (exDoc [(go "web", exService [] false [exPort 80] [go "db"] [] (Some (mkExtendsRef (go "base") (go "c.yml"))));
                           (go "db", exService (go "postgres") false [] [] [go "dev"] None)] [go "d.yml"] [])
            (exMeta (go "web") [(go "extends", exKey); (go "ports", exKey); (go "depends_on", exKey)]))
  else if bool_decide (data = go "b") then
    Some (mkParsed (exDoc [(go "web", exService [] false [] [go "cache"] [] None)] [] [])
            (exMeta (go "web") [(go "privileged", exKey); (go "ports", exReset); (go "depends_on", exKey)]))
  else if bool_decide (data = go "c") then
    Some (mkParsed (exDoc [(go "base", exService (go "nginx") true [exPort 443] [go "other"] [] None)] [] [])
            (exMeta (go "base") [(go "image", exKey); (go "privileged", exKey)]))
  else if bool_decide (data = go "d") then
    Some (mkParsed (exDoc [(go "cache", exService (go "redis") false [] [] [] None)] [] [go "app.conf"]) None)
  else None.

Definition exCwd : bytes := go "/p".
Definition exFiles : gmap bytes bytes :=
  list_to_map [(go "/p/a.yml", go "a"); (go "/p/b.yml", go "b"); (go "/p/c.yml", go "c"); (go "/p/d.yml", go "d")].
Definition exRange (A : Type) (m : gmap bytes A) : list bytes := (map_to_list m).*1.

Lemma exRange_all A (m : gmap bytes A) : exRange A m ≡ₚ (map_to_list m).*1.
Proof. done. Qed.

Definition exLoad : res loadErr ProjectDocument :=
  LoadDocumentWithOptions exCwd exFiles exDecode exRange [] [go "/p/a.yml"; go "/p/b.yml"].

Definition isOk {E A} (r : res E A) : bool := match r with Ok _ => true | Err _ => false end.

(** What the loaded [web] is. *)
Definition exWeb : option (bytes * bool * list PortDoc * list bytes) :=
  match exLoad with
  | Ok doc => s ← pd_Services doc !! go "web"; Some (sd_Image s, sd_Privileged s, sd_Ports s, dependNames s)
  | Err _ => None
  end.
Lemma exWeb_value : exWeb = Some (go "nginx", false, [], [go "db"; go "cache"]).
Proof. by vm_compute. Qed.

Definition exA : parsedFile :=
  match exDecode [] (go "a") [] with Some pf => pf | None => mkParsed emptyProject None end.

Lemma extends_exact_witness : exists pf',
  resolveExtends exCwd exFiles exDecode exRange exA (go "/p/a.yml") [] = Ok pf' /\
  dom (pd_Services (pf_doc pf')) = dom (pd_Services (pf_doc exA)) /\
  forall n s, pd_Services (pf_doc pf') !! n = Some s ->
    Expands exCwd exFiles exDecode [] (filepathAbs exCwd (go "/p/a.yml")) exA (filepathAbs exCwd (go "/p/a.yml"), n) s /\ sd_Extends s = None.
Proof.
  assert (Hok : isOk (resolveExtends exCwd exFiles exDecode exRange exA (go "/p/a.yml") []) = true) by (vm_compute; reflexivity).
  pose proof (extends_exact exCwd exFiles exDecode exRange exRange_all exA (go "/p/a.yml") []) as H. cbv zeta in H.
  destruct (resolveExtends exCwd exFiles exDecode exRange exA (go "/p/a.yml") []) as [pf'|e]; [|discriminate].
  exists pf'. split; [reflexivity|]. exact (proj2 H).
Defined.

Lemma include_exact_witness : exists pf',
  processInclude exCwd exFiles exDecode exRange exA (go "/p/a.yml") = Ok pf' /\
  Model exCwd exFiles exDecode exRange (filepathAbs exCwd (go "/p/a.yml")) exA pf' /\ pd_Include (pf_doc pf') = [] /\
  forall f, ~ includesItself exCwd exFiles exDecode exRange (filepathAbs exCwd (go "/p/a.yml"), exA) f.
Proof.
  assert (Hok : isOk (processInclude exCwd exFiles exDecode exRange exA (go "/p/a.yml")) = true) by (vm_compute; reflexivity).
  pose proof (include_exact exCwd exFiles exDecode exRange exRange_all exA (go "/p/a.yml")) as H.
  destruct (processInclude exCwd exFiles exDecode exRange exA (go "/p/a.yml")) as [pf'|e]; [|discriminate].
  exists pf'. split; [reflexivity|]. exact H.
Defined.

Lemma exLoad_ok : exists doc, exLoad = Ok doc.
Proof.
  assert (Hok : isOk exLoad = true) by (vm_compute; reflexivity).
  destruct exLoad as [doc|e]; [by exists doc|discriminate].
Qed.

Lemma later_file_wins_witness : exists doc pfs, exLoad = Ok doc /\ length pfs = 2%nat /\
  forall name v vs s, versionsOf name pfs = v :: vs -> pd_Services doc !! name = Some s ->
    sd_Privileged s = lastSaid (scalarField (go "privileged") sd_Privileged) v.2 vs.
Proof.
  destruct exLoad_ok as [doc Hdoc].
  destruct (later_file_wins exCwd exFiles exDecode exRange [] [go "/p/a.yml"; go "/p/b.yml"] doc Hdoc) as (pfs & Hpfs & H).
  exists doc, pfs. split; [exact Hdoc|]. split; [symmetry; exact (Forall2_length _ _ _ Hpfs)|].
  intros name v vs s Hv Hs. specialize (H name). rewrite Hv in H. destruct H as (s' & Hs' & H). rewrite Hs in Hs'. injection Hs' as <-.
  apply (H (scalarField (go "privileged") sd_Privileged)). unfold overrideFields.
  do 3 apply list_elem_of_further. apply list_elem_of_here.
Defined.

Lemma files_accumulate_witness : exists doc pfs, exLoad = Ok doc /\ length pfs = 2%nat /\
  forall name v vs s, versionsOf name pfs = v :: vs -> pd_Services doc !! name = Some s ->
    NoDup (dep_Service <$> sd_DependsOn v.2) ->
    lastOfName dep_Service (sd_DependsOn s) (since (go "depends_on") v.2 vs ≫= sd_DependsOn).
Proof.
  destruct exLoad_ok as [doc Hdoc].
  destruct (files_accumulate exCwd exFiles exDecode exRange [] [go "/p/a.yml"; go "/p/b.yml"] doc Hdoc) as (pfs & Hpfs & H).
  exists doc, pfs. split; [exact Hdoc|]. split; [symmetry; exact (Forall2_length _ _ _ Hpfs)|].
  intros name v vs s Hv Hs Hn. destruct (H name v vs s Hv Hs) as (_ & _ & _ & H4). exact (proj2 (H4 Hn)).
Defined.

(** [db] is behind the inactive profile [dev], and selected because [web] depends on it; [tool] is not. *)
Definition exServices : gmap bytes ServiceDocument := list_to_map [
  (go "web", exService [] false [] [go "db"] [] None); (go "db", exService [] false [] [] [go "dev"] None);
  (go "tool", exService [] false [] [] [go "dev"] None)].

Lemma View_exact_witness : exists services, viewServices exRange exServices [] = Some services /\
  (forall n s, services !! n = Some s <-> exServices !! n = Some s /\ Selected exServices [] n) /\
  (map_to_list services).*1 ≡ₚ [go "db"; go "web"].
Proof.
  destruct (View_exact exRange exRange_all exServices []) as (services & Hv & Hs & _). exists services. split; [exact Hv|]. split; [exact Hs|].
  assert (H : (fun m => sortStrings (map_to_list m).*1) <$> viewServices exRange exServices [] = Some [go "db"; go "web"]) by (vm_compute; reflexivity).
  rewrite Hv in H. injection H as H. rewrite <-H. unfold sortStrings. symmetry. apply sorting.merge_sort_Permutation.
Defined.

(** ** Findings *)

(** [b] and [z] do not depend on each other, and [z] comes before [b]. *)
Lemma order_not_alphabetical :
  Order (list_to_map [(go "a", exService [] false [] [go "z"] [] None); (go "b", exService [] false [] [] [] None);
                      (go "z", exService [] false [] [] [] None)]) = Ok [go "z"; go "a"; go "b"].
Proof. by vm_compute. Qed.

(** A service tagged [!override] or [!reset] as a whole is merged all the same. *)
Lemma service_tag_ignored : forall reset override,
  sd_Privileged (mergeService (Some (mkMeta reset override {[go "image" := exKey]})) (exService (go "nginx") true [] [] [] None)
                   (exService (go "redis") false [] [] [] None)) = true.
Proof. by intros [] []. Qed.

(** What an including file has for [configs] is what it wrote itself. *)
Lemma include_drops_configs `{Blk : Blocks} cwd files decode range f pf pf' :
  Model cwd files decode range f pf pf' -> pd_Configs (pf_doc pf') = pd_Configs (pf_doc pf).
Proof. by destruct 1. Qed.

(** The included [d.yml] defines a config; the project has none. *)
Lemma exConfigs_lost : (fun doc => size (pd_Configs doc)) <$> (match exLoad with Ok d => Some d | Err _ => None end) = Some 0%nat.
Proof. by vm_compute. Qed.

(** A project with credentials, planned as it is and through a view. *)
Definition exPlan (p : Project) : option (option unit) :=
  match @Plan exBlocks unit unit unit unit unit unit (fun _ _ _ _ _ _ _ => Ok (mkPlan None None None None [] tt)) (fun _ => Ok tt) (fun _ => Ok tt)
          (fun _ => Ok tt) (fun _ => Err tt) (go "p") p with
  | Ok plans => sp_Credentials <$> plans !! go "web"
  | Err _ => None
  end.
Definition exProject : Project :=
  mkProject [] (list_to_map [(go "web", exService [] false [] [] [] None)]) ∅ ∅ ∅ ∅ None None None (Some tt) [].

Lemma view_loses_credentials :
  exPlan exProject = Some (Some tt) /\ exPlan (selected exProject (pr_services exProject)) = Some None.
Proof. by vm_compute. Qed.

Lemma view_plan_witness : exists plans pl,
  Plan (E := unit) (R := unit) (IR := unit) (EgressSpec := unit) (TelemetrySpec := unit) (CredentialSpec := unit)
    (fun _ _ _ _ _ _ _ => Ok (mkPlan None None None None [] tt)) (fun _ => Ok tt) (fun _ => Ok tt) (fun _ => Ok tt) (fun _ => Err tt)
    (go "p") (selected exProject (pr_services exProject)) = Ok plans /\
  plans !! go "web" = Some pl /\ sp_Credentials pl = None.
Proof.
  eexists _, _. split; [reflexivity|]. split; [reflexivity|].
  edestruct (view_plan (E := unit) (R := unit) (IR := unit) (EgressSpec := unit) (TelemetrySpec := unit) (CredentialSpec := unit)
    (fun _ _ _ _ _ _ _ => Ok (mkPlan None None None None [] tt)) (fun _ => Ok tt) (fun _ => Ok tt) (fun _ => Ok tt) (fun _ => Err tt)
    (go "p") exProject (pr_services exProject) _ (go "web") _ eq_refl eq_refl)
    as (svc & own & _ & Ho & _ & _ & _ & Hc & _).
  injection Ho as <-. exact Hc.
Defined.
